(* ===== verification/_CoqProject ===== *)
-Q . S2P
Prelude.v
Paths.v
Text.v
Abi.v
Cap.v
Task.v
Ipc.v
Pmm.v
Heap.v
Vmm.v
VmmTree.v
VmmSpaces.v
VmmPages.v
VmmLife.v
VmmInit.v
MemCalls.v
Elf.v
ElfLoad.v
VmmDemo.v
ElfDemo.v
VfsCore.v
Vfs.v
VfsMem.v
VfsPath.v
VfsInv.v
VfsSeal.v
VfsDemo.v
Rfs2Layout.v
Rfs2Dirent.v
Rfs2Space.v
Rfs2Bitmap.v
Rfs2Fs.v
Rfs2Ops.v
Rfs2Frame.v
Rfs2Cow.v
Rfs2Halts.v
Rfs2Typed.v
Rfs2Crash.v
Rfs2Torn.v
Rfs2Mkfs.v
Rfs2Faults.v
Cdf.v
StoreFs.v
StoreLaws.v
StoreRun.v
MemLaws.v
Store.v
StoreDb.v
StoreGc.v
StoreReg.v
StoreDemo.v
ShadeLex.v
ShadeLexLaws.v
ShadeParse.v
ShadeParseLaws.v
ShadePrint.v
ShadeRoundtrip.v
