(* ===== verification/Prelude.v ===== *)
(** * PureshadeOS verification library

    PureshadeOS is an operating system in Rust: the Lythos kernel
    (kernel/), its copy-on-write file system RFS V2 (fs/rfs2/), the mount
    router and store guard it shares with user space (fs/vfs-core/), the ABI
    crates (abi/), the package manager (pkg/), user space (userspace/) and
    host tools (tools/).  This library models the kernel's core, the file
    systems and the package store as functions and proves what makes them
    correct.

    ** The parts and how they interact

    A task (kernel/src/task.rs) owns a capability table, an address space and a
    list of user mappings.  It reaches everything else by system calls
    (kernel/src/syscall.rs), which check capabilities (cap.rs) and then act on
    IPC endpoints (ipc.rs), page tables (vmm.rs, on frames from pmm.rs), or
    files (vfs.rs).  The VFS routes a path to a mounted backend through
    fs/vfs-core, which also keeps the entries of a package store immutable;
    RFS V2 is such a backend, on a block device.  The package store
    (pkg/shade-cdf, pkg/shade-store) addresses a build by the hash of its
    canonical derivation and installs it with one rename, through a trait of
    file-system operations; its database (pkg/shade-store-db) records what a
    path refers to and collects what no root reaches.  Packages are written in
    a small lazy language (pkg/shadec).

    ** The files

    - Prelude, Paths, Text: Rust's [Result], machine integers as [Z] with explicit
      wrapping, byte strings, slices, binary search, little-endian numbers,
      UTF-8, and path strings, with the lemmas the other files share.
    - Abi: abi/lythos-abi, errno values and exit-status words.
    - Cap: cap.rs.  [KoTable] and [CapTable] with generation-tagged handles;
      [cap_grant], [cap_inherit], [cap_revoke], [cap_cascade_revoke]; the system
      calls [sys_cap_grant] and [sys_cap_revoke].
    - Task: task.rs.  [Scheduler] and [TaskSys]; one definition per operation.
      The context switch is the boundary of the model: what an operation does
      to the rest of the machine is the list of [effect]s it returns.
    - Ipc: ipc.rs and the IPC system calls.  The loops of [send] and [recv]
      are rounds ([send_attempt], [recv_attempt]) between two of which the task
      is blocked.
    - Pmm, Heap: pmm.rs and heap.rs.
    - Vmm: vmm.rs on physical memory as a finite map of words.  VmmTree has the
      theory of one radix tree of tables, VmmSpaces the invariant [spaces] of
      all address spaces, VmmLife creation and release, VmmInit the boot tables
      and the processor's [translate], MemCalls the system calls SYS_MMAP,
      SYS_MUNMAP and SYS_BRK, VmmDemo a booted machine for the examples.
      VmmPages has the bytes of pages and the frames a mapping takes.
    - Elf: elf.rs and SYS_EXEC; ElfLoad: what the loader builds; ElfDemo: the
      smoke-test image on the booted machine.
    - VfsCore: fs/vfs-core (mount table, backend store, realize guard) over the
      class [FsBackend]; Vfs: kernel/src/vfs.rs; VfsMem: the in-memory backend
      of fs/vfs-core/src/testutil.rs; VfsInv, VfsPath, VfsSeal: theorems;
      VfsDemo: concrete runs.
    - Rfs2Layout, Rfs2Dirent, Rfs2Space, Rfs2Bitmap, Rfs2Fs, Rfs2Ops: fs/rfs2,
      over the classes [BlockDevice] and [BlockTransform] (the encryption layer,
      with the laws [TransformLaws]); Rfs2Frame, Rfs2Cow, Rfs2Halts, Rfs2Typed,
      Rfs2Crash, Rfs2Torn, Rfs2Mkfs, Rfs2Faults: theorems.
    - Cdf: pkg/shade-cdf; StoreFs: the trait [StoreFs] of pkg/shade-store as a
      class, its helpers and the in-memory backend [MemFs]; StoreLaws: what a
      backend promises ([Honest], [Reliable]) and backends that stop half way
      ([Dying]); StoreRun: total correctness of computations over a backend and
      of the tree helpers; MemLaws: [MemFs] keeps the promises; Store:
      realization; StoreDb: the database and the collector of
      pkg/shade-store-db; StoreGc, StoreReg: theorems on collection and on
      registration; StoreDemo: concrete runs.
    - ShadeLex, ShadeParse: the lexer and the parser of the package language
      (pkg/shadec: lexer.rs, error.rs, ast.rs, parser.rs); ShadeLexLaws,
      ShadeParseLaws: totality; ShadePrint: a printer, as the specification of
      the grammar; ShadeRoundtrip: the parser inverts it.

    ** What the theorems show

    - Authority: revoking a capability removes exactly what was derived from it
      by grants; no sequence of operations creates authority out of nothing;
      a stale handle never resolves.
    - Scheduling: the invariant of the scheduler holds in every reachable state;
      exit statuses are kept for the parent and wake a waiter; dead tasks are
      reaped once.
    - IPC: the ring implements a FIFO; a blocked receiver gets the next message;
      calls stay within the caller's capabilities.
    - Memory: live allocations of frames and heap blocks never overlap; page
      tables implement a map from pages to entries, per address space; releasing
      an address space frees each of its frames once; the memory system calls
      change only the pages they name; [exec] builds exactly the address space
      its image describes, beside the others.
    - Files: routing takes the longest matching mount; paths resolve to
      canonical ones; descriptors and mounts stay consistent; sealed store
      entries are never modified through the system calls.
    - RFS V2: directory blocks implement a finite map; operations write only
      free blocks; every crash, whatever the write cache did, leaves the old or
      the new committed tree; a formatted volume mounts; failed operations do
      not change the staged tree; reads and removals return.
    - Package store: a derivation parses back, distinct derivations and trees
      are hashed differently; a realization is atomic on every backend that
      does not lie about what it did, wherever it stops, and idempotent; the
      collector removes exactly what no root reaches, and registration records
      every digest a path embeds.
    - Package language: every source ends in an error or a well-formed
      expression; every well-formed expression is the parse of what is printed
      for it, with parentheses only where precedence asks for them.

    ** Bounds and fuel

    Loops without a structural measure take fuel, with a separate outcome when
    it runs out (in RFS V2 the fault [Hung]).  Rfs2Halts proves that reading,
    writing, truncating, looking up, listing and removing never run out.
    [cascade_force] takes the number of live capabilities, which each step
    decreases; the heap walk takes the number of free blocks; removal of a store
    entry takes a bound on the depth of the tree, proved sufficient
    (VfsMem.store_remove_tree_exact), as do the tree helpers of the package
    store (StoreRun.shallow_depth gives one for every backend); the mark phase
    of the collector takes the length of its queue and of the records not yet
    read (StoreGc.work), and StoreGc.gc_fuel_exists shows that some fuel is
    enough for every tree; waiting for the database lock takes one round per
    reading of the clock; the page loops run over the 512 entries of a table.
    [exec] needs two frames for the root and at most four for each page
    (ElfLoad.exec_frames).  The lexer takes the length of the source and two,
    the parser the number of tokens and one; both are enough for every source
    (ShadeLexLaws.lex_total, ShadeParseLaws.parse_returns).

    ** Assumptions of the model

    System calls run with interrupts disabled on one CPU, so an operation is
    one step.  Arithmetic wraps as in release builds, where the source does not
    check it.  Task and capability ids are counters that do not wrap.  The clock
    is a stream of values.  The crash model is a disk that loses or reorders
    unflushed sectors; the package store assumes of its backend that [rename]
    is one step that never replaces, as on RFS V2, and that the clones of a
    backend are handles on one tree.  Physical memory is read through the direct map; TLB,
    EFER and the value of CR3 itself are not modelled.  What [mount] needs from
    block devices and key derivation are fields of [Env] in Vfs.

    ** Not modelled

    Hardware access (APIC, IOAPIC, PCI, virtio-blk, serial, framebuffer,
    keyboard, SMP start-up) and the assembly of the context switch and the
    system-call entry; boot code and the kernel's self tests (main.rs);
    the legacy file system rfs.rs; key derivation and the ciphers (parameters of
    RFS V2); builds, generations and the evaluator of the package language, of
    its front end the text of messages; user space and the host tools.
    The reasons are in the component list of the manifest. *)
From stdpp Require Export base list list_numbers gmap strings.
From Stdlib Require Export ZArith Lia.

(** ** Scopes and notations *)

Declare Scope rust_scope.
Delimit Scope rust_scope with rust.

(** ** Rust's [Result] *)

Inductive result (A E : Type) : Type :=
| Ok (a : A)
| Err (e : E).
Arguments Ok {A E} a.
Arguments Err {A E} e.

#[export] Instance result_eq_dec {A E} `{EqDecision A, EqDecision E} :
  EqDecision (result A E).
Proof. solve_decision. Defined.

(** The [?] operator: propagate the error of [m], continue with its value. *)
Definition result_bind {A B E} (m : result A E) (k : A -> result B E) : result B E :=
  match m with Ok a => k a | Err e => Err e end.

Definition ok_or {A E} (o : option A) (e : E) : result A E :=
  match o with Some a => Ok a | None => Err e end.

Notation "'let?' x ':=' m 'in' k" := (result_bind m (fun x => k))
  (at level 10, x pattern, m at level 200, k at level 200) : rust_scope.

Definition is_ok {A E} (r : result A E) : bool :=
  match r with Ok _ => true | Err _ => false end.

(** ** Machine integers

    A [uN] value is a [Z] in [0 <= z < 2 ^ N]; arithmetic that the source
    writes as wrapping goes through [wrap N]. *)

Definition wrap (w : Z) (z : Z) : Z := z mod 2 ^ w.

Definition U32_MAX : Z := 2 ^ 32 - 1.
Definition U64_MAX : Z := 2 ^ 64 - 1.

Definition in_u (w : Z) (z : Z) : Prop := (0 <= z < 2 ^ w)%Z.

(** Bitwise complement at width [w] (Rust's [!x]). *)
Definition not_u (w : Z) (x : Z) : Z := (2 ^ w - 1 - x)%Z.

#[global] Arguments Z.eqb : simpl never.
#[global] Arguments Z.ltb : simpl never.
#[global] Arguments Z.leb : simpl never.
#[global] Arguments Z.land : simpl never.
#[global] Arguments Z.lor : simpl never.
#[global] Arguments Z.shiftl : simpl never.
#[global] Arguments Z.shiftr : simpl never.
#[global] Arguments Z.pow : simpl never.
#[global] Arguments Z.modulo : simpl never.
#[global] Arguments Z.div : simpl never.
Arguments wrap : simpl never.
Arguments in_u : simpl never.
Arguments not_u : simpl never.

Lemma wrap_range w z : (0 <= w)%Z -> in_u w (wrap w z).
Proof. intros. unfold in_u, wrap. apply Z.mod_pos_bound. lia. Qed.

Lemma wrap_small w z : in_u w z -> wrap w z = z.
Proof. unfold in_u, wrap. intros. by apply Z.mod_small. Qed.

Create HintDb rust.
#[export] Hint Resolve wrap_range wrap_small : rust.

(** ** Iterator idioms *)

(** [iter().position(p)]: the index of the first match. *)
Fixpoint position {A} (p : A -> bool) (l : list A) : option nat :=
  match l with
  | [] => None
  | x :: l' => if p x then Some 0%nat else S <$> position p l'
  end.

Lemma position_Some {A} (p : A -> bool) (l : list A) i :
  position p l = Some i <->
  exists x, l !! i = Some x /\ p x = true /\
    forall j y, (j < i)%nat -> l !! j = Some y -> p y = false.
Proof.
  revert i. induction l as [|a l IH]; intros i; cbn [position].
  { split; [done|]. intros (x & Hx & _). done. }
  destruct (p a) eqn:Ha.
  - split.
    + intros [= <-]. exists a. repeat split; try done. intros j y Hj. lia.
    + intros (x & Hx & Hp & Hmin). destruct i as [|i]; [done|].
      specialize (Hmin 0%nat a ltac:(lia) eq_refl). congruence.
  - rewrite fmap_Some. split.
    + intros (k & Hk & ->). apply IH in Hk as (x & Hx & Hp & Hmin). exists x.
      repeat split; try done. intros [|j] y Hj Hy; [by injection Hy as <-|].
      eapply Hmin; [|done]. lia.
    + intros (x & Hx & Hp & Hmin). destruct i as [|i]; [injection Hx as ->; congruence|].
      exists i. split; [|done]. apply IH. exists x. repeat split; try done.
      intros j y Hj Hy. apply (Hmin (S j) y); [lia|done].
Qed.

Lemma position_None {A} (p : A -> bool) (l : list A) :
  position p l = None <-> Forall (fun x => p x = false) l.
Proof.
  induction l as [|a l IH]; cbn [position]; [by split|]. rewrite Forall_cons.
  destruct (p a) eqn:Ha; [naive_solver|]. rewrite fmap_None, IH. naive_solver.
Qed.

Lemma find_position {A} (p : A -> bool) (l : list A) :
  List.find p l = match position p l with Some i => l !! i | None => None end.
Proof.
  induction l as [|x l IH]; cbn; [done|]. destruct (p x); [done|].
  rewrite IH. by destruct (position p l).
Qed.

Lemma position_alter {A} (p : A -> bool) (f : A -> A) i (l : list A) :
  (forall x, p (f x) = p x) -> position p (alter f i l) = position p l.
Proof.
  intros Hf. revert i. induction l as [|x l IH]; intros [|i]; cbn; [done..| |].
  - by rewrite Hf.
  - change (list_alter f i l) with (alter f i l). by rewrite IH.
Qed.

Lemma position_lt {A} (p : A -> bool) (l : list A) i :
  position p l = Some i -> (i < length l)%nat.
Proof. rewrite position_Some. intros (x & Hx & _). by eapply lookup_lt_Some. Qed.

(** [Vec::swap_remove(i)]: the last element takes the place of the removed one. *)
Definition swap_remove {A} (i : nat) (l : list A) : list A :=
  match last l with
  | None => l
  | Some x => take (length l - 1) (<[i := x]> l)
  end.

Lemma swap_remove_Permutation {A} (l : list A) i x :
  l !! i = Some x -> l ≡ₚ x :: swap_remove i l.
Proof.
  intros Hi. unfold swap_remove. destruct (last l) as [y|] eqn:Hl.
  2:{ apply last_None in Hl. by subst. }
  apply last_Some in Hl as [l' ->]. rewrite length_app. cbn [length].
  replace (length l' + 1 - 1)%nat with (length l') by lia.
  destruct (decide (i < length l')%nat) as [Hlt|Hge].
  - rewrite insert_app_l, take_app_length' by (rewrite ?length_insert; done).
    rewrite lookup_app_l in Hi by done.
    rewrite (Permutation_app_comm l' [y]), insert_take_drop by done.
    rewrite <- (take_drop_middle l' i x Hi) at 1. cbn [app].
    rewrite <- !Permutation_middle. apply Permutation_swap.
  - rewrite lookup_app_r in Hi by lia. destruct (i - length l')%nat eqn:E; [|done].
    injection Hi as ->. rewrite take_insert_ge, take_app_length by lia.
    by rewrite Permutation_app_comm.
Qed.

(** ** Binary search

    [slice::binary_search_by] as the standard library writes it; [fuel] bounds
    the halving loop, [length l] rounds are enough. *)
Fixpoint bsearch_loop {A} (f : A -> comparison) (l : list A) (fuel base size : nat) : nat :=
  match fuel with
  | O => base
  | S fuel' =>
      if (size <=? 1)%nat then base
      else
        let half := (size / 2)%nat in
        let mid := (base + half)%nat in
        let base' := match f <$> l !! mid with Some Gt => base | _ => mid end in
        bsearch_loop f l fuel' base' (size - half)
  end.

Definition binary_search_by {A} (f : A -> comparison) (l : list A) : result nat nat :=
  match length l with
  | O => Err 0%nat
  | _ =>
      let base := bsearch_loop f l (length l) 0 (length l) in
      match f <$> l !! base with
      | Some Eq => Ok base
      | Some Lt => Err (base + 1)%nat
      | _ => Err base
      end
  end.

Definition partition_point {A} (p : A -> bool) (l : list A) : nat :=
  match binary_search_by (fun x => if p x then Lt else Gt) l with Ok i => i | Err i => i end.

(** The order [f] sees is strict: everything before an element that is not
    above the target is below it. *)
Definition search_sorted {A} (f : A -> comparison) (l : list A) : Prop :=
  forall i j x y, (i < j)%nat -> l !! i = Some x -> l !! j = Some y -> f y <> Gt -> f x = Lt.

Lemma bsearch_loop_spec {A} (f : A -> comparison) (l : list A) : forall fuel base size,
  search_sorted f l -> (size <= fuel)%nat -> (1 <= size)%nat -> (base + size <= length l)%nat ->
  (forall j y, (base + size <= j)%nat -> l !! j = Some y -> f y = Gt) ->
  (forall y, base <> 0%nat -> l !! base = Some y -> f y <> Gt) ->
  let b := bsearch_loop f l fuel base size in
  (b < length l)%nat /\ (forall j y, (b < j)%nat -> l !! j = Some y -> f y = Gt) /\
  (forall y, b <> 0%nat -> l !! b = Some y -> f y <> Gt).
Proof.
  induction fuel as [|fuel IH]; intros base size Hs Hf H1 Hlen Hhi Hlo; cbn [bsearch_loop]; [lia|].
  destruct (Nat.leb_spec size 1).
  { split; [lia|]. split; [|done]. intros j y Hj. apply Hhi. lia. }
  assert (1 <= size / 2 < size)%nat as Hhalf.
  { split; [apply Nat.div_le_lower_bound; lia|apply Nat.div_lt; lia]. }
  pose proof (Nat.Div0.mul_div_le size 2).
  destruct (lookup_lt_is_Some_2 l (base + size / 2)) as [m Hm]; [lia|].
  rewrite Hm. cbn [fmap option_fmap option_map]. destruct (f m) eqn:Hfm.
  - apply IH; try done; try lia.
    + intros j y Hj. apply Hhi. lia.
    + intros y _. rewrite Hm. intros [= <-]. congruence.
  - apply IH; try done; try lia.
    + intros j y Hj. apply Hhi. lia.
    + intros y _. rewrite Hm. intros [= <-]. congruence.
  - apply IH; try done; try lia.
    intros j y Hj Hy. destruct (decide (j = base + size / 2)%nat) as [->|]; [congruence|].
    destruct (decide (base + size / 2 < j)%nat) as [Hlt|]; [|lia].
    destruct (f y) eqn:Hfy; [| |done].
    + enough (f m = Lt) by congruence. eapply Hs; [exact Hlt|done|done|congruence].
    + enough (f m = Lt) by congruence. eapply Hs; [exact Hlt|done|done|congruence].
Qed.

Lemma binary_search_by_spec {A} (f : A -> comparison) (l : list A) :
  search_sorted f l ->
  match binary_search_by f l with
  | Ok i => exists x, l !! i = Some x /\ f x = Eq
  | Err i => (i <= length l)%nat /\
      (forall j y, (j < i)%nat -> l !! j = Some y -> f y = Lt) /\
      (forall j y, (i <= j)%nat -> l !! j = Some y -> f y = Gt)
  end.
Proof.
  intros Hs. unfold binary_search_by. destruct (length l) as [|n] eqn:El.
  { apply nil_length_inv in El as ->. repeat split; intros; [lia|lia|done]. }
  rewrite <- El. assert (1 <= length l)%nat by lia. clear n El.
  destruct (bsearch_loop_spec f l (length l) 0 (length l)) as (Hb & Hhi & Hlo);
    try done; try lia.
  { intros j y Hj Hy%lookup_lt_Some. lia. }
  set (b := bsearch_loop f l (length l) 0 (length l)) in *.
  destruct (lookup_lt_is_Some_2 l b Hb) as [x Hx]. rewrite Hx.
  cbn [fmap option_fmap option_map]. destruct (f x) eqn:Hfx; [by eauto| |].
  - split; [lia|]. split.
    + intros j y Hj Hy. destruct (decide (j = b)) as [->|]; [congruence|].
      eapply Hs; [|exact Hy|exact Hx|congruence]. lia.
    + intros j y Hj. apply Hhi. lia.
  - assert (b = 0%nat) as -> by (destruct (decide (b = 0%nat)); [done|by destruct (Hlo x)]).
    split; [lia|]. split; [lia|]. intros j y _ Hy.
    destruct (decide (j = 0%nat)) as [->|]; [congruence|]. eapply Hhi; [|done]. lia.
Qed.

(** [partition_point] on a list whose elements satisfying [p] come first. *)
Lemma partition_point_spec {A} (p : A -> bool) (l : list A) :
  (forall i j x y, (i < j)%nat -> l !! i = Some x -> l !! j = Some y -> p y = true -> p x = true) ->
  let k := partition_point p l in
  (k <= length l)%nat /\
  (forall j y, (j < k)%nat -> l !! j = Some y -> p y = true) /\
  (forall j y, (k <= j)%nat -> l !! j = Some y -> p y = false).
Proof.
  intros Hmono. unfold partition_point.
  pose proof (binary_search_by_spec (fun x => if p x then Lt else Gt) l) as Hspec.
  destruct (binary_search_by _ l) as [i|i].
  - destruct Hspec as (x & _ & Hx); [|by destruct (p x)].
    intros i' j x y Hij Hx Hy Hn. specialize (Hmono i' j x y Hij Hx Hy).
    destruct (p x), (p y); naive_solver.
  - destruct Hspec as (Hi & Hlo & Hhi).
    { intros i' j x y Hij Hx Hy Hn. specialize (Hmono i' j x y Hij Hx Hy).
      destruct (p x), (p y); naive_solver. }
    split; [done|]. split; intros j y Hj Hy.
    + specialize (Hlo j y Hj Hy). by destruct (p y).
    + specialize (Hhi j y Hj Hy). by destruct (p y).
Qed.

(** [x & !(2^k - 1)] rounds [x] down to a multiple of [2^k]. *)
Lemma land_not_mask w k x :
  (0 <= k <= w)%Z -> in_u w x -> Z.land x (not_u w (2 ^ k - 1)) = (2 ^ k * (x / 2 ^ k))%Z.
Proof.
  intros Hk Hx. unfold not_u, in_u in *.
  replace (2 ^ w - 1 - (2 ^ k - 1))%Z with (Z.shiftl (Z.ones (w - k)) k).
  2:{ rewrite Z.shiftl_mul_pow2, Z.ones_equiv by lia.
      replace (2 ^ w)%Z with (2 ^ (w - k) * 2 ^ k)%Z; [lia|].
      rewrite <- Z.pow_add_r by lia. f_equal. lia. }
  rewrite Z.mul_comm, <- Z.shiftl_mul_pow2, <- Z.shiftr_div_pow2 by lia.
  apply Z.bits_inj'. intros n Hn. rewrite Z.land_spec, !Z.shiftl_spec by lia.
  destruct (Z.ltb_spec n k).
  - rewrite !(Z.testbit_neg_r _ (n - k)) by lia. apply andb_false_r.
  - rewrite Z.shiftr_spec by lia. replace (n - k + k)%Z with n by lia.
    rewrite Z.testbit_ones by lia. destruct (Z.ltb_spec n w).
    + replace ((0 <=? n - k)%Z && (n - k <? w - k)%Z) with true; [apply andb_true_r|].
      symmetry. apply andb_true_intro. split; [apply Z.leb_le|apply Z.ltb_lt]; lia.
    + replace (Z.testbit x n) with false; [done|]. symmetry.
      destruct (Z.eq_dec x 0) as [->|]; [apply Z.bits_0|].
      apply Z.bits_above_log2; [lia|]. apply Z.log2_lt_pow2; [lia|].
      eapply Z.lt_le_trans; [apply Hx|]. apply Z.pow_le_mono_r; lia.
Qed.

(** [(x + 2^k - 1) & !(2^k - 1)], the usual rounding up. *)
Lemma align_up_spec w k x :
  (0 <= k <= w)%Z -> (0 <= x)%Z -> (x + 2 ^ k - 1 < 2 ^ w)%Z ->
  let y := Z.land (x + 2 ^ k - 1) (not_u w (2 ^ k - 1)) in
  (x <= y < x + 2 ^ k)%Z /\ (y mod 2 ^ k = 0)%Z.
Proof.
  intros Hk Hx Hb. assert (0 < 2 ^ k)%Z by (apply Z.pow_pos_nonneg; lia).
  cbn zeta. rewrite land_not_mask by (unfold in_u; lia).
  pose proof (Z.div_mod (x + 2 ^ k - 1) (2 ^ k)). pose proof (Z.mod_pos_bound (x + 2 ^ k - 1) (2 ^ k)).
  split; [lia|]. rewrite Z.mul_comm. by apply Z.mod_mul; lia.
Qed.

(** ** Byte buffers *)

(** [copy_nonoverlapping] of [bytes] to offset [off] of a buffer. *)
Definition splice {A} (off : nat) (bytes l : list A) : list A :=
  take off l ++ bytes ++ drop (off + length bytes) l.

(** The [n] elements at offset [off]. *)
Definition slice {A} (off n : nat) (l : list A) : list A := take n (drop off l).

Lemma slice_0 {A} n (l : list A) : slice 0 n l = take n l.
Proof. unfold slice. by rewrite drop_0. Qed.

Lemma length_splice {A} off (bytes l : list A) :
  (off + length bytes <= length l)%nat -> length (splice off bytes l) = length l.
Proof. intros. unfold splice. rewrite !length_app, length_take, length_drop. lia. Qed.

Lemma length_slice {A} off n (l : list A) : (off + n <= length l)%nat -> length (slice off n l) = n.
Proof. intros. unfold slice. rewrite length_take, length_drop. lia. Qed.

Lemma lookup_splice {A} off (bytes l : list A) i :
  (off + length bytes <= length l)%nat ->
  splice off bytes l !! i =
  if decide (off <= i < off + length bytes)%nat then bytes !! (i - off)%nat else l !! i.
Proof.
  intros Hfit. unfold splice. destruct (decide _) as [Hin|Hout].
  - rewrite lookup_app_r by (rewrite length_take; lia).
    rewrite lookup_app_l by (rewrite length_take; lia). f_equal. rewrite length_take. lia.
  - destruct (decide (i < off)%nat).
    + rewrite lookup_app_l by (rewrite length_take; lia). by apply lookup_take_lt.
    + rewrite !lookup_app_r by (rewrite ?length_take; lia). rewrite lookup_drop. f_equal.
      rewrite length_take. lia.
Qed.

Lemma slice_splice_same {A} off (bytes l : list A) :
  (off + length bytes <= length l)%nat -> slice off (length bytes) (splice off bytes l) = bytes.
Proof.
  intros. unfold slice, splice. rewrite drop_app_length' by (rewrite length_take; lia).
  by rewrite take_app_length.
Qed.

Lemma slice_splice_other {A} off off' n (bytes l : list A) :
  (off + length bytes <= length l)%nat ->
  (off' + n <= off \/ off + length bytes <= off')%nat ->
  slice off' n (splice off bytes l) = slice off' n l.
Proof.
  intros Hfit Hdis. unfold slice. apply list_eq. intros i.
  destruct (decide (i < n)%nat).
  - rewrite !lookup_take_lt, !lookup_drop, lookup_splice by done.
    rewrite decide_False by lia. done.
  - by rewrite !lookup_take_ge by lia.
Qed.

Lemma splice_splice {A} off (b1 b2 l : list A) :
  (off + length b1 + length b2 <= length l)%nat ->
  splice (off + length b1) b2 (splice off b1 l) = splice off (b1 ++ b2) l.
Proof.
  intros Hfit. apply list_eq. intros i.
  rewrite !lookup_splice by (rewrite ?length_app, ?length_splice; lia).
  rewrite length_app, lookup_app. repeat case_decide; try lia.
  - rewrite (lookup_ge_None_2 b1) by lia. f_equal. lia.
  - destruct (b1 !! (i - off)%nat) eqn:E; [done|]. apply lookup_ge_None in E. lia.
  - done.
Qed.

(** A record written field by field: [(offset, bytes)] in order. *)
Definition put_fields {A} (fields : list (nat * list A)) (buf : list A) : list A :=
  foldl (fun out f => splice f.1 f.2 out) buf fields.

Definition span {A} (f : nat * list A) : nat * nat := (f.1, length f.2).

Definition apart_spans (x y : nat * nat) : bool :=
  ((x.1 + x.2 <=? y.1) || (y.1 + y.2 <=? x.1))%nat.

(** All spans fit into [size] and no two overlap. *)
Fixpoint spans_ok (size : nat) (spans : list (nat * nat)) : bool :=
  match spans with
  | [] => true
  | x :: r => (x.1 + x.2 <=? size)%nat && forallb (apart_spans x) r && spans_ok size r
  end.

Lemma put_fields_cons {A} o (b : list A) fields buf :
  put_fields ((o, b) :: fields) buf = put_fields fields (splice o b buf).
Proof. done. Qed.

Lemma length_put_fields {A} (fields : list (nat * list A)) : forall buf,
  spans_ok (length buf) (map span fields) = true -> length (put_fields fields buf) = length buf.
Proof.
  induction fields as [|[o b] fields IH]; intros buf Hok; [done|]. cbn in Hok. rewrite put_fields_cons.
  apply andb_true_iff in Hok as [[Hfit _]%andb_true_iff Hok]. apply Nat.leb_le in Hfit.
  rewrite IH; rewrite length_splice; done.
Qed.

(** Bytes apart from all fields are left as they were. *)
Lemma slice_put_fields_other {A} (fields : list (nat * list A)) : forall buf o n,
  spans_ok (length buf) (map span fields) = true ->
  forallb (apart_spans (o, n)) (map span fields) = true ->
  slice o n (put_fields fields buf) = slice o n buf.
Proof.
  induction fields as [|[o' b] fields IH]; intros buf o n Hok Hap; [done|]. cbn in Hok, Hap. rewrite put_fields_cons.
  apply andb_true_iff in Hok as [[Hfit _]%andb_true_iff Hok]. apply Nat.leb_le in Hfit.
  apply andb_true_iff in Hap as [Ha Hap]. rewrite IH; [|by rewrite length_splice|done].
  apply slice_splice_other; [done|]. unfold apart_spans in Ha. cbn in Ha.
  apply orb_true_iff in Ha as [Ha|Ha]; apply Nat.leb_le in Ha; lia.
Qed.

(** A field reads back what was written. *)
Lemma slice_put_fields {A} (fields : list (nat * list A)) : forall buf o b n,
  spans_ok (length buf) (map span fields) = true -> (o, b) ∈ fields -> n = length b ->
  slice o n (put_fields fields buf) = b.
Proof.
  induction fields as [|[o' b'] fields IH]; intros buf o b n Hok Hin ->; [by apply elem_of_nil in Hin|].
  cbn in Hok. rewrite put_fields_cons. apply andb_true_iff in Hok as [[Hfit Hap]%andb_true_iff Hok].
  apply Nat.leb_le in Hfit. apply elem_of_cons in Hin as [[= -> ->]|Hin].
  - rewrite slice_put_fields_other; [by apply slice_splice_same|by rewrite length_splice|done].
  - apply IH; [by rewrite length_splice|done|done].
Qed.

(** ** UTF-8, as [core::str::from_utf8] accepts it *)

Definition utf8_cont (b : Z) : bool := ((128 <=? b) && (b <=? 191))%Z.

Fixpoint utf8_valid (bytes : list Z) : bool :=
  match bytes with
  | [] => true
  | b :: r =>
      if (b <? 128)%Z then utf8_valid r
      else if ((194 <=? b) && (b <=? 223))%Z then
        match r with c1 :: r1 => utf8_cont c1 && utf8_valid r1 | _ => false end
      else if ((224 <=? b) && (b <=? 239))%Z then
        match r with
        | c1 :: c2 :: r2 =>
            utf8_cont c1 && utf8_cont c2 &&
            (if (b =? 224)%Z then (160 <=? c1)%Z else if (b =? 237)%Z then (c1 <=? 159)%Z else true) &&
            utf8_valid r2
        | _ => false
        end
      else if ((240 <=? b) && (b <=? 244))%Z then
        match r with
        | c1 :: c2 :: c3 :: r3 =>
            utf8_cont c1 && utf8_cont c2 && utf8_cont c3 &&
            (if (b =? 240)%Z then (144 <=? c1)%Z else if (b =? 244)%Z then (c1 <=? 143)%Z else true) &&
            utf8_valid r3
        | _ => false
        end
      else false
  end.

(** ** Little-endian integers *)

Fixpoint le_bytes (n : nat) (v : Z) : list Z :=
  match n with O => [] | S n' => (v mod 256)%Z :: le_bytes n' (v / 256)%Z end.

Fixpoint le_num (bytes : list Z) : Z :=
  match bytes with [] => 0%Z | b :: r => (b + 256 * le_num r)%Z end.

Lemma length_le_bytes n v : length (le_bytes n v) = n.
Proof. revert v. induction n as [|n IH]; intros v; cbn; [done|]. by rewrite IH. Qed.

Lemma le_num_bytes n v : (0 <= v < 256 ^ Z.of_nat n)%Z -> le_num (le_bytes n v) = v.
Proof.
  revert v. induction n as [|n IH]; intros v Hv; cbn [le_bytes le_num].
  - rewrite Z.pow_0_r in Hv. lia.
  - rewrite Nat2Z.inj_succ, Z.pow_succ_r in Hv by lia. rewrite IH.
    + pose proof (Z.div_mod v 256). lia.
    + split; [apply Z.div_pos; lia|]. apply Z.div_lt_upper_bound; lia.
Qed.

Lemma le_bytes_num bytes :
  Forall (fun b => 0 <= b < 256)%Z bytes -> le_bytes (length bytes) (le_num bytes) = bytes.
Proof.
  induction 1 as [|b r Hb _ IH]; cbn [length le_bytes le_num]; [done|].
  rewrite Z.mul_comm, Z.mod_add, Z.div_add, Z.mod_small, (Z.div_small b) by lia.
  rewrite Z.add_0_l. by rewrite IH.
Qed.

Lemma le_bytes_range n v : Forall (fun b => 0 <= b < 256)%Z (le_bytes n v).
Proof.
  revert v. induction n as [|n IH]; intros v; cbn; constructor; [|done].
  apply Z.mod_pos_bound. lia.
Qed.

Lemma le_num_range bytes :
  Forall (fun b => 0 <= b < 256)%Z bytes -> (0 <= le_num bytes < 256 ^ Z.of_nat (length bytes))%Z.
Proof.
  induction 1 as [|b r Hb _ IH]; cbn [length le_num]; [lia|].
  rewrite Nat2Z.inj_succ, Z.pow_succ_r by lia. lia.
Qed.

(** Two predicates that differ at one element of a duplicate-free list. *)
Lemma filter_length_flip {A} `{EqDecision A} (p q : A -> bool) (l : list A) (b : A) :
  NoDup l -> b ∈ l -> p b = true -> q b = false -> (forall x, x <> b -> p x = q x) ->
  length (List.filter p l) = S (length (List.filter q l)).
Proof.
  intros Hnd Hin Hp Hq Heq. induction l as [|x l IH]; [by apply elem_of_nil in Hin|].
  apply NoDup_cons in Hnd as [Hnin Hnd]. cbn. destruct (decide (x = b)) as [->|Hne].
  - rewrite Hp, Hq. cbn. f_equal. f_equal. clear IH Hin Hnd.
    induction l as [|y l IH]; [done|]. cbn. apply not_elem_of_cons in Hnin as [Hyb Hnin].
    rewrite Heq by congruence. by rewrite IH.
  - apply elem_of_cons in Hin as [?|Hin]; [congruence|]. rewrite (Heq x Hne).
    destruct (q x); cbn; by rewrite IH.
Qed.
