(* ===== verification/Paths.v ===== *)
(** * Paths as byte strings

    The string functions the VFS and the file system share: [str::split],
    [starts_with], [ends_with] and [rfind] on the separator, and the nonempty
    components of a path. *)

From S2P Require Import Prelude.

#[local] Open Scope Z_scope.

Abbreviation str := (list Z).

Definition SLASH : Z := 47.

(** [str::split(sep)] *)
Fixpoint split_on (sep : Z) (s : str) : list str :=
  match s with
  | [] => [[]]
  | x :: s' =>
      if x =? sep then [] :: split_on sep s'
      else match split_on sep s' with
           | [] => [[x]]
           | h :: t => (x :: h) :: t
           end
  end.

Definition nonempty (c : str) : bool := match c with [] => false | _ => true end.

(** [path.split('/').filter(|c| !c.is_empty())] *)
Definition comps_of (path : str) : list str := List.filter nonempty (split_on SLASH path).

Definition starts_with_slash (path : str) : bool :=
  match path with x :: _ => x =? SLASH | [] => false end.

Definition ends_with_slash (path : str) : bool := bool_decide (last path = Some SLASH).

(** [path.rfind('/')] splits a path into what is before and after that index. *)
Fixpoint rsplit_slash (path : str) : option (str * str) :=
  match path with
  | [] => None
  | x :: p =>
      match rsplit_slash p with
      | Some (parent, name) => Some (x :: parent, name)
      | None => if x =? SLASH then Some ([], p) else None
      end
  end.

(** The absolute path of a list of components. *)
Definition rel_path (tail : list str) : str :=
  match tail with
  | [] => [SLASH]
  | _ => concat (map (cons SLASH) tail)
  end.

(** ** Components *)

Definition good_comp (c : str) : Prop := c <> [] /\ SLASH ∉ c.

Lemma split_on_not_nil sep s : split_on sep s <> [].
Proof. induction s as [|x s IH]; cbn; [done|]. case_match; [done|]. by case_match. Qed.

Lemma split_on_app sep p q :
  split_on sep (p ++ sep :: q) = split_on sep p ++ split_on sep q.
Proof.
  induction p as [|x p IH]; cbn.
  - by rewrite Z.eqb_refl.
  - rewrite IH. case_match; [done|]. destruct (split_on sep p) eqn:Hp; [|done].
    by apply split_on_not_nil in Hp.
Qed.

Lemma split_on_free sep s : sep ∉ s -> split_on sep s = [s].
Proof.
  induction s as [|x s IH]; cbn; [done|]. intros [Hx Hs]%not_elem_of_cons.
  rewrite IH by done. destruct (x =? sep) eqn:E; [|done]. apply Z.eqb_eq in E. congruence.
Qed.

Lemma split_on_slash_free sep s : Forall (fun c => sep ∉ c) (split_on sep s).
Proof.
  induction s as [|x s IH]; cbn.
  - constructor; [|done]. apply not_elem_of_nil.
  - destruct (x =? sep) eqn:E.
    + constructor; [apply not_elem_of_nil|done].
    + destruct (split_on sep s) as [|h t]; inversion IH; subst.
      all: constructor; [|try done]; apply not_elem_of_cons; split; [lia|].
      all: first [apply not_elem_of_nil|done].
Qed.

Lemma comps_of_good path : Forall good_comp (comps_of path).
Proof.
  apply Forall_forall. intros c Hc. apply list_elem_of_In, filter_In in Hc as [Hin Hne].
  split; [by intros ->|]. apply list_elem_of_In in Hin.
  pose proof (split_on_slash_free SLASH path) as Hf. rewrite Forall_forall in Hf. by apply Hf.
Qed.

Lemma comps_of_app p q : comps_of (p ++ SLASH :: q) = comps_of p ++ comps_of q.
Proof. unfold comps_of. by rewrite split_on_app, List.filter_app. Qed.

Lemma comps_of_slash q : comps_of (SLASH :: q) = comps_of q.
Proof. exact (comps_of_app [] q). Qed.

Lemma comps_of_single c : good_comp c -> comps_of c = [c].
Proof.
  intros [Hne Hs]. unfold comps_of. rewrite split_on_free by done. cbn. by destruct c.
Qed.

Lemma rsplit_slash_snoc p x : SLASH ∉ x -> rsplit_slash (p ++ SLASH :: x) = Some (p, x).
Proof.
  intros Hx. induction p as [|y p IH]; cbn [app rsplit_slash]; [|by rewrite IH].
  assert (rsplit_slash x = None) as ->; [|done]. induction x as [|z x IHx]; [done|].
  apply not_elem_of_cons in Hx as [Hz Hx]. cbn. rewrite IHx by done.
  by rewrite (proj2 (Z.eqb_neq z SLASH)).
Qed.

(** ** Absolute paths *)

Lemma comps_of_concat tail :
  Forall good_comp tail -> comps_of (concat (map (cons SLASH) tail)) = tail.
Proof.
  induction tail as [|c tail IH]; intros Hg; [done|]. inversion Hg as [|? ? Hc Ht]; subst.
  cbn [map concat]. change ((SLASH :: c) ++ concat (map (cons SLASH) tail))
    with (SLASH :: (c ++ concat (map (cons SLASH) tail))).
  rewrite comps_of_slash. destruct tail as [|d tail].
  - cbn. rewrite app_nil_r. by apply comps_of_single.
  - cbn [map concat] in *. cbn [app] in *. rewrite comps_of_app, comps_of_single by done.
    rewrite comps_of_slash in IH. by rewrite IH.
Qed.

Lemma comps_of_rel_path tail : Forall good_comp tail -> comps_of (rel_path tail) = tail.
Proof. destruct tail; [done|]. apply comps_of_concat. Qed.

Lemma rel_path_absolute tail : starts_with_slash (rel_path tail) = true.
Proof. by destruct tail. Qed.

Lemma rel_path_root tail : Forall good_comp tail -> rel_path tail = [SLASH] -> tail = [].
Proof. intros Hg Hr. rewrite <- (comps_of_rel_path tail Hg), Hr. done. Qed.

Lemma rel_path_snoc cs c : cs <> [] -> rel_path (cs ++ [c]) = rel_path cs ++ SLASH :: c.
Proof.
  intros Hne. destruct cs as [|x cs]; [done|]. unfold rel_path. cbn [app].
  change (x :: cs ++ [c]) with ((x :: cs) ++ [c]). rewrite map_app, concat_app. cbn [map concat].
  by rewrite app_nil_r.
Qed.

Lemma rel_path_app cs ds : cs <> [] -> ds <> [] -> rel_path (cs ++ ds) = rel_path cs ++ rel_path ds.
Proof.
  destruct cs as [|x cs]; [done|]. destruct ds as [|y ds]; [done|]. intros _ _.
  unfold rel_path. cbn [app]. change (x :: cs ++ y :: ds) with ((x :: cs) ++ (y :: ds)).
  by rewrite map_app, concat_app.
Qed.
