(* ===== verification/Text.v ===== *)
(** * Byte strings

    The functions of Rust's [str] and [String] that the sources use beyond
    paths: the order of the keys of a [BTreeMap<String, _>], prefixes and
    suffixes, splitting at the first separator, lines, trimming, decimal
    numbers, the UTF-8 encoding of the characters [push] appends, and lossy
    decoding. *)

From stdpp Require Import sorting.
From S2P Require Import Prelude Paths.

#[local] Open Scope Z_scope.

(** The bytes of a literal. *)
Fixpoint lit (s : string) : str :=
  match s with
  | EmptyString => []
  | String c s' => Z.of_N (Ascii.N_of_ascii c) :: lit s'
  end.

Definition LF : Z := 10.

(** Byte order of strings, the order of the keys of a [BTreeMap<String, _>]. *)
Fixpoint str_leb (a b : str) : bool :=
  match a, b with
  | [], _ => true
  | _ :: _, [] => false
  | x :: a', y :: b' => (x <? y) || ((x =? y) && str_leb a' b')
  end.

Definition str_le (a b : str) : Prop := str_leb a b = true.

#[export] Instance str_le_dec : RelDecision str_le.
Proof. intros a b. unfold str_le. apply _. Defined.

(** The keys of a [BTreeMap], in the order of iteration. *)
Definition keys {A} (m : gmap str A) : list str := merge_sort str_le (map_to_list m).*1.

(** The entries of a [BTreeMap], in the order of iteration. *)
Definition entries {A} (m : gmap str A) : list (str * A) :=
  omap (fun k => (fun v => (k, v)) <$> m !! k) (keys m).

(** [str::strip_prefix] *)
Fixpoint strip_prefix (prefix s : str) : option str :=
  match prefix, s with
  | [], _ => Some s
  | _ :: _, [] => None
  | x :: p, y :: s' => if x =? y then strip_prefix p s' else None
  end.

Definition starts_with (prefix s : str) : bool := bool_decide (is_Some (strip_prefix prefix s)).

(** [str::strip_suffix] *)
Definition strip_suffix (suffix s : str) : option str :=
  let n := (length s - length suffix)%nat in
  if bool_decide (drop n s = suffix) then Some (take n s) else None.

(** [str::split_once] with a one-byte separator. *)
Fixpoint split_once (sep : Z) (s : str) : option (str * str) :=
  match s with
  | [] => None
  | x :: s' =>
      if x =? sep then Some ([], s')
      else match split_once sep s' with
           | Some (a, b) => Some (x :: a, b)
           | None => None
           end
  end.

(** [str::trim_end_matches] with a one-byte pattern. *)
Fixpoint trim_end (c : Z) (s : str) : str :=
  match s with
  | [] => []
  | x :: s' =>
      match trim_end c s' with
      | [] => if x =? c then [] else [x]
      | t => x :: t
      end
  end.

(** [str::lines]: split at LF, a trailing empty piece dropped, a CR before the
    LF dropped. *)
Definition drop_cr (l : str) : str := default l (strip_suffix [13] l).

Definition lines (s : str) : list str :=
  match reverse (split_on LF s) with
  | [] :: rest => drop_cr <$> reverse rest
  | last :: rest => (drop_cr <$> reverse rest) ++ [last]
  | [] => []
  end.

(** [String::push] of the character [c]: its UTF-8 encoding, for the
    characters a byte can be cast to. *)
Definition push_char (c : Z) : str :=
  if c <? 128 then [c] else [Z.lor 192 (Z.shiftr c 6); Z.lor 128 (Z.land c 63)].

(** [format!] of an unsigned integer: decimal, without leading zeros. *)
Fixpoint dec_digits (fuel : nat) (n : Z) : str :=
  match fuel with
  | O => []
  | S fuel' => if n <? 10 then [48 + n] else dec_digits fuel' (n / 10) ++ [48 + n mod 10]
  end.

(** A [u64] has at most 20 digits. *)
Definition dec (n : Z) : str := dec_digits 20 n.

(** [str::parse::<u64>]: an optional [+] and at least one digit, without
    overflow. *)
Fixpoint parse_digits (s : str) (acc : Z) : option Z :=
  match s with
  | [] => Some acc
  | x :: s' =>
      if (48 <=? x) && (x <=? 57) then
        let acc' := acc * 10 + (x - 48) in
        if acc' <? 2 ^ 64 then parse_digits s' acc' else None
      else None
  end.

Definition parse_u64 (s : str) : option Z :=
  let digits := match s with x :: s' => if x =? 43 then s' else s | [] => [] end in
  match digits with [] => None | _ => parse_digits digits 0 end.

(** [String::from_utf8_lossy]: each maximal part of an ill-formed sequence
    becomes U+FFFD. *)
Definition REPLACEMENT : str := [239; 191; 189].

(** The bytes that may come second after the first byte [b] of a sequence. *)
Definition utf8_second (b c : Z) : bool :=
  utf8_cont c &&
  (if b =? 224 then 160 <=? c else if b =? 237 then c <=? 159
   else if b =? 240 then 144 <=? c else if b =? 244 then c <=? 143 else true).

Fixpoint utf8_lossy (s : list Z) : str :=
  match s with
  | [] => []
  | b :: r =>
      if b <? 128 then b :: utf8_lossy r
      else if (194 <=? b) && (b <=? 223) then
        match r with
        | c1 :: r1 => if utf8_cont c1 then b :: c1 :: utf8_lossy r1 else REPLACEMENT ++ utf8_lossy r
        | [] => REPLACEMENT
        end
      else if (224 <=? b) && (b <=? 239) then
        match r with
        | c1 :: r1 =>
            if utf8_second b c1 then
              match r1 with
              | c2 :: r2 => if utf8_cont c2 then b :: c1 :: c2 :: utf8_lossy r2 else REPLACEMENT ++ utf8_lossy r1
              | [] => REPLACEMENT
              end
            else REPLACEMENT ++ utf8_lossy r
        | [] => REPLACEMENT
        end
      else if (240 <=? b) && (b <=? 244) then
        match r with
        | c1 :: r1 =>
            if utf8_second b c1 then
              match r1 with
              | c2 :: r2 =>
                  if utf8_cont c2 then
                    match r2 with
                    | c3 :: r3 => if utf8_cont c3 then b :: c1 :: c2 :: c3 :: utf8_lossy r3 else REPLACEMENT ++ utf8_lossy r2
                    | [] => REPLACEMENT
                    end
                  else REPLACEMENT ++ utf8_lossy r1
              | [] => REPLACEMENT
              end
            else REPLACEMENT ++ utf8_lossy r
        | [] => REPLACEMENT
        end
      else REPLACEMENT ++ utf8_lossy r
  end.

(** [str::trim]: the encodings of the characters with the property
    White_Space. *)
Definition white_space : list str :=
  [[9]; [10]; [11]; [12]; [13]; [32]; [194; 133]; [194; 160]; [225; 154; 128]] ++
  ((fun i => [226; 128; i]) <$> seqZ 128 11) ++
  [[226; 128; 168]; [226; 128; 169]; [226; 128; 175]; [226; 129; 159]; [227; 128; 128]].

Fixpoint trim_by (fuel : nat) (strip : str -> str -> option str) (s : str) : str :=
  match fuel with
  | O => s
  | S fuel' =>
      match omap (fun c => strip c s) white_space with
      | r :: _ => trim_by fuel' strip r
      | [] => s
      end
  end.

Definition trim (s : str) : str :=
  let t := trim_by (length s) strip_prefix s in trim_by (length t) strip_suffix t.

(** ** Keys in order *)

Lemma elem_of_keys {A} (m : gmap str A) k : k ∈ keys m <-> is_Some (m !! k).
Proof.
  unfold keys. rewrite merge_sort_Permutation. rewrite list_elem_of_fmap. split.
  - intros ([k' n] & -> & Hin%elem_of_map_to_list). by eexists.
  - intros [n Hn]. exists (k, n). by rewrite elem_of_map_to_list.
Qed.

Lemma NoDup_keys {A} (m : gmap str A) : NoDup (keys m).
Proof. unfold keys. rewrite merge_sort_Permutation. apply NoDup_fst_map_to_list. Qed.

Lemma entries_fst {A} (m : gmap str A) : (entries m).*1 = keys m.
Proof.
  unfold entries. assert (forall k, k ∈ keys m -> is_Some (m !! k)) as H by (intros k; apply elem_of_keys).
  induction (keys m) as [|k l IH]; [done|]. destruct (H k) as [v Hv]; [set_solver|].
  cbn. rewrite Hv. cbn. f_equal. apply IH. set_solver.
Qed.

Lemma elem_of_entries {A} (m : gmap str A) k v : (k, v) ∈ entries m <-> m !! k = Some v.
Proof.
  unfold entries. rewrite list_elem_of_omap. split.
  - intros (k' & _ & H). destruct (m !! k') eqn:E; [|done]. cbn in H. by simplify_eq.
  - intros H. exists k. split; [apply elem_of_keys; by eexists|]. by rewrite H.
Qed.

Lemma entries_to_map {A} (m : gmap str A) : list_to_map (entries m) = m.
Proof.
  apply map_eq. intros k. destruct (m !! k) as [v|] eqn:E.
  - apply elem_of_list_to_map_1; [rewrite entries_fst; apply NoDup_keys|by apply elem_of_entries].
  - apply not_elem_of_list_to_map_1. rewrite entries_fst, elem_of_keys, E. by intros [? ?].
Qed.

(** ** Prefixes, suffixes, separators *)

Lemma strip_prefix_spec p : forall s rest, strip_prefix p s = Some rest <-> s = p ++ rest.
Proof.
  induction p as [|x p IH]; intros s rest; cbn.
  - split; [by intros [= ->]|by intros ->].
  - destruct s as [|y s]; [done|]. destruct (Z.eqb_spec x y) as [-> |Hne].
    + rewrite IH. split; [by intros ->|by intros [= ->] ].
    + split; [done|]. intros [= -> _]. done.
Qed.

Lemma starts_with_spec p s : starts_with p s = true <-> exists rest, s = p ++ rest.
Proof.
  unfold starts_with. rewrite bool_decide_eq_true. split; intros [r Hr]; exists r; by apply strip_prefix_spec.
Qed.

Lemma strip_suffix_app s suf : strip_suffix suf (s ++ suf) = Some s.
Proof.
  unfold strip_suffix. rewrite length_app. replace (length s + length suf - length suf)%nat with (length s) by lia.
  by rewrite drop_app_length, take_app_length, bool_decide_eq_true_2.
Qed.

Lemma strip_suffix_spec suf s rest : strip_suffix suf s = Some rest <-> s = rest ++ suf.
Proof.
  split; [|intros ->; apply strip_suffix_app]. unfold strip_suffix. case_bool_decide as H; [|done].
  intros [= <-]. rewrite <- H at 2. by rewrite take_drop.
Qed.

Lemma split_once_app sep a b : sep ∉ a -> split_once sep (a ++ sep :: b) = Some (a, b).
Proof.
  induction a as [|x a IH]; cbn; [by rewrite Z.eqb_refl|]. intros [Hx Ha]%not_elem_of_cons.
  rewrite (proj2 (Z.eqb_neq x sep)) by congruence. by rewrite IH.
Qed.

Lemma split_once_Some sep s a b : split_once sep s = Some (a, b) -> s = a ++ sep :: b /\ sep ∉ a.
Proof.
  revert a. induction s as [|x s IH]; intros a; cbn; [done|]. destruct (Z.eqb_spec x sep) as [->|Hx].
  - intros [= <- <-]. split; [done|]. apply not_elem_of_nil.
  - destruct (split_once sep s) as [ [a' b']|]; [|done]. intros [= <- <-].
    destruct (IH a' eq_refl) as [-> Hn]. split; [done|]. apply not_elem_of_cons. by split.
Qed.

(** ** Lines *)

Definition unlines (l : list str) : str := concat ((fun x => x ++ [LF]) <$> l).

Lemma split_unlines l : Forall (fun x => LF ∉ x) l -> split_on LF (unlines l) = l ++ [ [] ].
Proof.
  unfold unlines. induction 1 as [|x l Hx Hl IH]; [done|]. cbn.
  rewrite <- app_assoc. cbn. by rewrite split_on_app, IH, split_on_free.
Qed.

Lemma drop_cr_id x : last x <> Some 13 -> drop_cr x = x.
Proof.
  intros H. unfold drop_cr. destruct (strip_suffix [13] x) as [r|] eqn:E; [|done].
  apply strip_suffix_spec in E as ->. by rewrite last_snoc in H.
Qed.

Lemma lines_unlines l : Forall (fun x => (LF ∉ x) /\ last x <> Some 13) l -> lines (unlines l) = l.
Proof.
  intros Hl. unfold lines. rewrite split_unlines by (eapply Forall_impl; [exact Hl|]; by intros ? []).
  rewrite reverse_snoc, reverse_involutive. induction Hl as [|x l [_ Hx] Hl IH]; [done|].
  cbn. by rewrite IH, drop_cr_id.
Qed.

(** ** The order of strings *)

#[export] Instance str_le_refl : Reflexive str_le.
Proof. intros a. unfold str_le. induction a as [|x a IH]; cbn; [done|]. by rewrite Z.eqb_refl, IH, orb_true_r. Qed.

#[export] Instance str_le_trans : Transitive str_le.
Proof.
  unfold str_le. intros a. induction a as [|x a IH]; intros [|y b] [|z c]; cbn; try done.
  rewrite !orb_true_iff, !andb_true_iff, !Z.ltb_lt, !Z.eqb_eq.
  intros [?|[-> ?] ] [?|[-> ?] ]; [left; lia|by left|by left|]. right. split; [done|]. by eapply IH.
Qed.

#[export] Instance str_le_anti : AntiSymm (=) str_le.
Proof.
  unfold str_le. intros a. induction a as [|x a IH]; intros [|y b]; cbn; try done.
  rewrite !orb_true_iff, !andb_true_iff, !Z.ltb_lt, !Z.eqb_eq.
  intros [?|[-> ?] ] [?|[? ?] ]; [lia|lia|lia|]. f_equal. by apply IH.
Qed.

#[export] Instance str_le_total : Total str_le.
Proof.
  unfold str_le. intros a. induction a as [|x a IH]; intros [|y b]; cbn; auto.
  rewrite !orb_true_iff, !andb_true_iff, !Z.ltb_lt, !Z.eqb_eq.
  destruct (Z.lt_trichotomy x y) as [?|[-> |?] ]; [by left; left| |by right; left].
  destruct (IH b); [left; right|right; right]; done.
Qed.

(** Sorting forgets the order of the input. *)
Lemma sort_perm l1 l2 : l1 ≡ₚ l2 -> merge_sort str_le l1 = merge_sort str_le l2.
Proof.
  intros H. apply (Sorted_unique str_le); [apply Sorted_merge_sort, _..|]. by rewrite !merge_sort_Permutation.
Qed.

(** ** Decimal numbers *)

Definition digit (x : Z) : Prop := 48 <= x <= 57.

Lemma dec_digits_digit fuel n : 0 <= n -> Forall digit (dec_digits fuel n).
Proof.
  revert n. induction fuel as [|fuel IH]; intros n Hn; cbn [dec_digits]; [done|].
  destruct (Z.ltb_spec n 10); [apply Forall_singleton; unfold digit; lia|]. apply Forall_app. split.
  - apply IH, Z.div_pos; lia.
  - apply Forall_singleton. pose proof (Z.mod_pos_bound n 10). unfold digit. lia.
Qed.

Lemma dec_digits_parse fuel n t : 0 <= n < 10 ^ Z.of_nat fuel -> n < 2 ^ 64 ->
  parse_digits (dec_digits fuel n ++ t) 0 = parse_digits t n.
Proof.
  revert n t. induction fuel as [|fuel IH]; intros n t Hn H64; [cbn in *; replace n with 0 by lia; done|].
  cbn [dec_digits]. destruct (Z.ltb_spec n 10) as [Hs|Hb].
  - cbn [app parse_digits]. rewrite (proj2 (Z.leb_le 48 _)), (proj2 (Z.leb_le _ 57)) by lia. cbn [andb].
    replace (0 * 10 + (48 + n - 48)) with n by lia. by rewrite (proj2 (Z.ltb_lt _ _)).
  - rewrite <- app_assoc, IH.
    + pose proof (Z.mod_pos_bound n 10). cbn [app parse_digits].
      rewrite (proj2 (Z.leb_le 48 _)), (proj2 (Z.leb_le _ 57)) by lia. cbn [andb].
      replace (n / 10 * 10 + (48 + n mod 10 - 48)) with n by (pose proof (Z.div_mod n 10); lia).
      by rewrite (proj2 (Z.ltb_lt _ _)).
    + rewrite Nat2Z.inj_succ, Z.pow_succ_r in Hn by lia. split; [apply Z.div_pos; lia|apply Z.div_lt_upper_bound; lia].
    + apply Z.div_lt_upper_bound; lia.
Qed.

Lemma parse_dec n : in_u 64 n -> parse_u64 (dec n) = Some n.
Proof.
  unfold in_u. intros Hn. pose proof (dec_digits_digit 20 n ltac:(lia)) as Hd.
  pose proof (dec_digits_parse 20 n [] ltac:(change (10 ^ Z.of_nat 20) with (10 ^ 20); lia) ltac:(lia)) as Hp.
  rewrite app_nil_r in Hp. unfold parse_u64, dec. destruct (dec_digits 20 n) as [|x s] eqn:E.
  { cbn [dec_digits] in E. destruct (n <? 10); [done|]. by apply app_eq_nil in E as [_ ?]. }
  apply Forall_cons in Hd as [Hx _]. unfold digit in Hx. rewrite (proj2 (Z.eqb_neq x 43)) by lia. exact Hp.
Qed.

(** ** UTF-8 *)

(** A nonempty valid string starts with the encoding of a character. *)
Lemma utf8_chunk x a : utf8_valid (x :: a) = true ->
  exists c r, x :: a = c ++ r /\ c <> [] /\ utf8_valid r = true /\ forall t, utf8_valid (c ++ t) = utf8_valid t.
Proof.
  cbn [utf8_valid]. intros H. destruct (x <? 128) eqn:E1.
  { exists [x], a. do 3 (split; [done|]). intros t. cbn [app utf8_valid]. by rewrite E1. }
  destruct ((194 <=? x) && (x <=? 223)) eqn:E2.
  { destruct a as [|y a]; [done|]. apply andb_true_iff in H as [Hy Ha]. exists [x; y], a.
    do 3 (split; [done|]). intros t. cbn [app utf8_valid]. by rewrite E1, E2, Hy. }
  destruct ((224 <=? x) && (x <=? 239)) eqn:E3.
  { destruct a as [|y [|z a] ]; [done|done|]. apply andb_true_iff in H as [Hy Ha]. exists [x; y; z], a.
    do 3 (split; [done|]). intros t. cbn [app utf8_valid]. by rewrite E1, E2, E3, Hy. }
  destruct ((240 <=? x) && (x <=? 244)) eqn:E4; [|done].
  destruct a as [|y [|z [|w a] ] ]; [done|done|done|]. apply andb_true_iff in H as [Hy Ha]. exists [x; y; z; w], a.
  do 3 (split; [done|]). intros t. cbn [app utf8_valid]. by rewrite E1, E2, E3, E4, Hy.
Qed.

Lemma utf8_valid_app a b : utf8_valid a = true -> utf8_valid b = true -> utf8_valid (a ++ b) = true.
Proof.
  remember (length a) as n eqn:Hn. revert a Hn. induction (lt_wf n) as [n _ IH]. intros a -> Ha Hb.
  destruct a as [|x a]; [done|]. destruct (utf8_chunk x a Ha) as (c & r & E & Hc & Hr & Hct).
  rewrite E, <- app_assoc, Hct. destruct c as [|y c]; [done|].
  apply (IH (length r)); [rewrite E, length_app; cbn; lia|done|done|done].
Qed.

Lemma utf8_ascii s : Forall (fun b => 0 <= b < 128) s -> utf8_valid s = true.
Proof. induction 1 as [|x s Hx Hs IH]; [done|]. cbn. by rewrite (proj2 (Z.ltb_lt x 128)) by lia. Qed.

(** A statement about the bytes from [a] on is checked on each of them. *)
Lemma check_bytes (P : Z -> Prop) `{!forall b, Decision (P b)} a n :
  forallb (fun b => bool_decide (P b)) (seqZ a n) = true -> forall b, a <= b < a + n -> P b.
Proof.
  rewrite forallb_forall. intros Hall b Hb. apply (bool_decide_eq_true_1 (P b)), Hall.
  apply list_elem_of_In, elem_of_seqZ. lia.
Qed.

Lemma push_char_big c : 128 <= c < 256 -> push_char c = [192 + c / 64; 128 + c mod 64].
Proof. revert c. apply (check_bytes (fun c => push_char c = [192 + c / 64; 128 + c mod 64]) 128 128). by vm_compute. Qed.

Lemma push_char_utf8 c : 0 <= c < 256 -> utf8_valid (push_char c) = true.
Proof. revert c. apply (check_bytes (fun c => utf8_valid (push_char c) = true) 0 256). by vm_compute. Qed.

Lemma push_char_small c : c < 128 -> push_char c = [c].
Proof. intros Hc. unfold push_char. by rewrite (proj2 (Z.ltb_lt c 128)). Qed.

Lemma utf8_lossy_valid s : utf8_valid s = true -> utf8_lossy s = s.
Proof.
  remember (length s) as n eqn:Hn. revert s Hn. induction (lt_wf n) as [n _ IH]. intros s -> Hs.
  destruct s as [|b r]; [done|]. cbn [utf8_valid utf8_lossy] in *.
  destruct (b <? 128); [f_equal; apply (IH (length r)); [cbn; lia|done|done]|].
  destruct ((194 <=? b) && (b <=? 223)).
  { destruct r as [|c1 r]; [done|]. apply andb_true_iff in Hs as [-> Hs]. do 2 f_equal. apply (IH (length r)); [cbn; lia|done|done]. }
  destruct ((224 <=? b) && (b <=? 239)) eqn:E3.
  { destruct r as [|c1 [|c2 r] ]; [done|done|]. rewrite !andb_true_iff in Hs. destruct Hs as [ [ [H1 H2] H3] H4].
    assert (utf8_second b c1 = true) as ->.
    { unfold utf8_second. rewrite H1. cbn [andb]. destruct (b =? 224); [done|]. destruct (b =? 237); [done|].
      destruct (Z.eqb_spec b 240); [lia|]. by destruct (Z.eqb_spec b 244); [lia|]. }
    rewrite H2. do 3 f_equal. apply (IH (length r)); [cbn; lia|done|done]. }
  destruct ((240 <=? b) && (b <=? 244)) eqn:E4; [|done].
  destruct r as [|c1 [|c2 [|c3 r] ] ]; [done|done|done|]. rewrite !andb_true_iff in Hs. destruct Hs as [ [ [ [H1 H2] H3] H4] H5].
  assert (utf8_second b c1 = true) as ->.
  { unfold utf8_second. rewrite H1. cbn [andb]. destruct (Z.eqb_spec b 224); [lia|]. destruct (Z.eqb_spec b 237); [lia|]. done. }
  rewrite H2, H3. do 4 f_equal. apply (IH (length r)); [cbn; lia|done|done].
Qed.

(** A string without white space is trimmed already. *)
Lemma trim_by_id fuel strip s : (forall c r, c ∈ white_space -> strip c s <> Some r) -> trim_by fuel strip s = s.
Proof.
  intros Hs. destruct fuel as [|fuel]; [done|]. cbn [trim_by]. destruct (omap _ _) as [|r l] eqn:E; [done|]. exfalso.
  assert (r ∈ omap (fun c => strip c s) white_space) as Hin by (rewrite E; apply elem_of_cons; by left).
  apply list_elem_of_omap in Hin as (c & Hc & Hr). by eapply Hs.
Qed.

(** The first and the last bytes of white space. *)
Lemma white_space_ends c : c ∈ white_space -> exists x y d d', c = x :: d /\ c = d' ++ [y] /\ (x <= 32 \/ 128 <= x) /\ (y <= 32 \/ 128 <= y).
Proof.
  assert (Forall (fun c : str => match c, last c with x :: _, Some y => (x <= 32 \/ 128 <= x) /\ (y <= 32 \/ 128 <= y) | _, _ => False end) white_space) as Hall.
  { vm_compute white_space. repeat (apply Forall_cons_2; [split; lia|]). apply Forall_nil_2. }
  intros Hc. rewrite Forall_forall in Hall. specialize (Hall c Hc). destruct c as [|x d]; [done|].
  destruct (last (x :: d)) as [y|] eqn:E; [|done]. apply last_Some in E as [d' E]. exists x, y, d, d'. tauto.
Qed.

Lemma trim_id s : Forall (fun b => 32 < b < 128) s -> trim s = s.
Proof.
  intros Hs. unfold trim. rewrite (trim_by_id _ strip_prefix s); [apply trim_by_id|].
  - intros c r Hc Hr. apply white_space_ends in Hc as (x & y & d & d' & _ & -> & _ & Hy).
    apply strip_suffix_spec in Hr. subst s. rewrite app_assoc in Hs. apply Forall_app in Hs as [_ Hs].
    apply Forall_cons in Hs as [Hs _]. lia.
  - intros c r Hc Hr. apply white_space_ends in Hc as (x & y & d & d' & -> & _ & Hx & _).
    apply strip_prefix_spec in Hr. subst s. apply Forall_cons in Hs as [Hx' _]. cbn in Hx'. lia.
Qed.
