(* ===== verification/Abi.v ===== *)
(** * The kernel / userspace contract

    Model of [abi/lythos-abi]: the error sentinels ([errno.rs]), the task
    exit-status encoding ([exit.rs]) and the user-range check the syscall
    layer of [kernel/src/syscall.rs] applies to every pointer argument. *)
From S2P Require Import Prelude.
Local Open Scope Z_scope.

(** ** errno.rs: negative [i64] values reinterpreted as [u64] *)

Definition errno (n : Z) : Z := wrap 64 n.

Definition ENOSYS : Z := errno (-1).
Definition ENOCAP : Z := errno (-2).
Definition ENOPERM : Z := errno (-3).
Definition EINVAL : Z := errno (-4).
Definition ENOENT : Z := errno (-5).
Definition EBADF : Z := errno (-6).
Definition EAGAIN : Z := errno (-7).
Definition ENOTDIR : Z := errno (-8).
Definition ENOMNT : Z := errno (-9).
Definition EMFILE : Z := errno (-10).
Definition EEXIST : Z := errno (-11).
Definition ENOSPC : Z := errno (-12).
Definition EMOUNTED : Z := errno (-13).
Definition EROFS : Z := errno (-14).
Definition EISDIR : Z := errno (-15).
Definition ENOTEMPTY : Z := errno (-16).
Definition EIO : Z := errno (-17).
Definition ERR_MIN : Z := EIO.

Definition is_err (v : Z) : bool := ERR_MIN <=? v.

(** ** exit.rs: status words *)

Definition EXIT_CODE_MASK : Z := 0xFF.
Definition EXIT_ABNORMAL : Z := 0x100.
Definition EXIT_REASON_KILLED : Z := 0.
Definition EXIT_REASON_FAULT : Z := 1.

Definition exit_normal (code : Z) : Z := Z.land code EXIT_CODE_MASK.

Definition exit_abnormal (reason : Z) : Z :=
  Z.lor EXIT_ABNORMAL (Z.land reason EXIT_CODE_MASK).

Definition exit_is_normal (status : Z) : bool := Z.land status EXIT_ABNORMAL =? 0.

Definition exit_code (status : Z) : Z := Z.land status EXIT_CODE_MASK.

(** ** syscall.rs: [valid_user_range] *)

Definition USER_TOP : Z := 0x0000800000000000.

Definition checked_add_u64 (a b : Z) : option Z :=
  if a + b <=? U64_MAX then Some (a + b) else None.

Definition valid_user_range (ptr len : Z) : bool :=
  if ptr =? 0 then false
  else if len =? 0 then true
  else match checked_add_u64 ptr len with
       | Some e => e <=? USER_TOP
       | None => false
       end.

(** ** Theorems *)

Lemma land_mask_byte z : Z.land z EXIT_CODE_MASK = z mod 256.
Proof. change EXIT_CODE_MASK with (Z.ones 8). by rewrite Z.land_ones by lia. Qed.

Lemma land_mask_range z : 0 <= Z.land z EXIT_CODE_MASK < 256.
Proof. rewrite land_mask_byte. apply Z.mod_pos_bound. lia. Qed.

Lemma exit_abnormal_add r : exit_abnormal r = 256 + r mod 256.
Proof.
  unfold exit_abnormal. rewrite land_mask_byte.
  rewrite <- Z.lxor_lor, <- Z.add_nocarry_lxor; try done.
  all: change EXIT_ABNORMAL with (2 ^ 8); rewrite Z.land_comm.
  all: apply Z.bits_inj'; intros n Hn; rewrite Z.land_spec, Z.bits_0.
  all: rewrite Z.pow2_bits_eqb by lia; destruct (Z.eqb_spec 8 n) as [<-|]; [|apply andb_false_r].
  all: change 256 with (2 ^ 8); by rewrite Z.mod_pow2_bits_high by lia.
Qed.

(** The byte-sized facts, checked on all 256 bytes. *)
Definition status_byte_ok (b : Z) : bool :=
  (Z.land b EXIT_ABNORMAL =? 0) && negb (Z.land (256 + b) EXIT_ABNORMAL =? 0) &&
  (Z.land (256 + b) EXIT_CODE_MASK =? b) && (Z.land b EXIT_CODE_MASK =? b).

Lemma status_byte_ok_all b : 0 <= b < 256 -> status_byte_ok b = true.
Proof.
  intros Hb. assert (Forall (fun b => status_byte_ok b = true) (seqZ 0 256)) as Hall.
  { apply List.Forall_forall, List.forallb_forall. by vm_compute. }
  rewrite Forall_forall in Hall. apply Hall. apply elem_of_seqZ. lia.
Qed.

(** Every status word a task can leave behind, normal or abnormal, stays
    below the error floor, a normal word decodes to its code and an abnormal
    one to its reason, and the two are never confused: a waiter that gets a
    value from [SYS_TASK_WAIT] can always tell what happened. *)
Theorem exit_status_decodes code reason :
  is_err (exit_normal code) = false /\ is_err (exit_abnormal reason) = false /\
  exit_is_normal (exit_normal code) = true /\ exit_is_normal (exit_abnormal reason) = false /\
  exit_code (exit_normal code) = code mod 256 /\
  exit_code (exit_abnormal reason) = reason mod 256 /\
  exit_normal code <> exit_abnormal reason.
Proof.
  pose proof (Z.mod_pos_bound code 256 ltac:(lia)) as Hc.
  pose proof (Z.mod_pos_bound reason 256 ltac:(lia)) as Hr.
  pose proof (status_byte_ok_all _ Hc) as H1. pose proof (status_byte_ok_all _ Hr) as H2.
  unfold status_byte_ok in H1, H2. rewrite !andb_true_iff, !negb_true_iff in H1, H2.
  destruct H1 as [[[? ?] ?] ?], H2 as [[[? ?] ?] ?].
  unfold is_err, exit_is_normal, exit_code. rewrite exit_abnormal_add.
  unfold exit_normal. rewrite (land_mask_byte code).
  assert (ERR_MIN = 2 ^ 64 - 17) as -> by reflexivity.
  repeat split; try (apply Z.leb_gt); try (by apply Z.eqb_eq); try lia; done.
Qed.

(** A range the kernel accepts never wraps and never reaches kernel space. *)
Lemma valid_user_range_spec ptr len :
  in_u 64 ptr -> in_u 64 len ->
  valid_user_range ptr len = true <-> ptr <> 0 /\ (len = 0 \/ ptr + len <= USER_TOP).
Proof.
  unfold in_u, valid_user_range, checked_add_u64. intros.
  assert (USER_TOP = 2 ^ 47 /\ U64_MAX = 2 ^ 64 - 1) as [-> ->] by by vm_compute.
  destruct (Z.eqb_spec ptr 0), (Z.eqb_spec len 0), (Z.leb_spec (ptr + len) (2 ^ 64 - 1));
    rewrite ?Z.leb_le; intuition (try lia); done.
Qed.
