(* ===== verification/Cap.v ===== *)
(** * Capabilities

    Model of [kernel/src/cap.rs] and of the two capability syscalls of
    [kernel/src/syscall.rs]: the kernel object table, the per-task capability
    tables with generation-tagged handles, granting, inheriting and
    (cascading) revocation.

    A [&mut CapabilityTable] argument becomes a table taken and returned;
    [find_table] becomes a lookup in the map [tables] from task ids to
    tables, so the aliasing between the table of the caller and the tables
    [find_table] hands out is the sharing of that map. *)
From S2P Require Import Prelude Abi.
Local Open Scope Z_scope.
Local Open Scope rust_scope.

(** ** Data *)

Inductive CapKind : Type :=
| KMemory
| KIpc
| KDevice
| KRollback
| KFilesystem.

#[export] Instance CapKind_eq_dec : EqDecision CapKind.
Proof. solve_decision. Defined.

(** Rights are a [u8] bit field. *)
Definition READ : Z := Z.shiftl 1 0.
Definition WRITE : Z := Z.shiftl 1 1.
Definition GRANT : Z := Z.shiftl 1 2.
Definition REVOKE : Z := Z.shiftl 1 3.
Definition RIGHTS_ALL : Z := 15.
Definition RIGHTS_NONE : Z := 0.

Definition rights_has (self other : Z) : bool := Z.land self other =? other.

Definition rights_intersect (self mask : Z) : Z := Z.land self mask.

Inductive KernelObject : Type :=
| KoMemory (base_pa frame_count : Z)
| KoIpc (endpoint_idx : nat)
| KoDevice (registry_idx : nat)
| KoRollback
| KoFilesystem.

Inductive CapError : Type :=
| InvalidHandle
| GenerationMismatch
| NoGrant
| NoRevoke
| NoMemory.

#[export] Instance CapError_eq_dec : EqDecision CapError.
Proof. solve_decision. Defined.

(** ** Handles: generation in bits 63..32, slot index in bits 31..0 *)

Definition handle_pack (index generation : Z) : Z :=
  Z.lor (Z.shiftl generation 32) index.

Definition handle_index (h : Z) : nat := Z.to_nat (Z.land h 0xFFFFFFFF).

Definition handle_generation (h : Z) : Z := wrap 32 (Z.shiftr h 32).

Arguments handle_pack : simpl never.
Arguments handle_index : simpl never.
Arguments handle_generation : simpl never.

(** ** Slots *)

Record Slot (A : Type) : Type := mkSlot {
  slot_generation : Z;
  slot_content : option A
}.
Arguments mkSlot {A} _ _.
Arguments slot_generation {A} _.
Arguments slot_content {A} _.

(** The reuse loop of [KoTable::create] and [CapabilityTable::insert]: fill
    the first vacant slot at or after position [i] and bump its generation. *)
Fixpoint reuse_vacant {A} (slots : list (Slot A)) (i : nat) (x : A)
  : option (list (Slot A) * Z) :=
  match slots with
  | [] => None
  | s :: rest =>
      match slot_content s with
      | None =>
          let g := wrap 32 (slot_generation s + 1) in
          Some (mkSlot g (Some x) :: rest, handle_pack (wrap 32 (Z.of_nat i)) g)
      | Some _ =>
          match reuse_vacant rest (S i) x with
          | Some (rest', h) => Some (s :: rest', h)
          | None => None
          end
      end
  end.

(** ** The kernel object table *)

Definition KoTable_create (t : list (Slot KernelObject)) (obj : KernelObject)
  : result Z CapError * list (Slot KernelObject) :=
  match reuse_vacant t 0 obj with
  | Some (t', r) => (Ok r, t')
  | None =>
      let idx := Z.of_nat (length t) in
      if U32_MAX <? idx then (Err NoMemory, t)
      else (Ok (handle_pack (wrap 32 idx) 0), t ++ [mkSlot 0 (Some obj)])
  end.

Definition KoTable_get (t : list (Slot KernelObject)) (r : Z) : option KernelObject :=
  match t !! handle_index r with
  | None => None
  | Some slot =>
      if slot_generation slot =? handle_generation r then slot_content slot else None
  end.

Definition KoTable_destroy (t : list (Slot KernelObject)) (r : Z)
  : result (list (Slot KernelObject)) CapError :=
  match t !! handle_index r with
  | None => Err InvalidHandle
  | Some slot =>
      if negb (slot_generation slot =? handle_generation r) then Err GenerationMismatch
      else Ok (<[handle_index r := mkSlot (slot_generation slot) None]> t)
  end.

(** ** Capabilities and capability tables *)

Record Capability : Type := mkCap {
  cap_id : Z;
  cap_kind : CapKind;
  cap_rights : Z;
  cap_object : Z;
  cap_parent_id : option Z;
  cap_children : list (Z * Z)
}.

Abbreviation CapTable := (list (Slot Capability)).

Definition CapabilityTable_insert (t : CapTable) (cap : Capability) : CapTable * Z :=
  match reuse_vacant t 0 cap with
  | Some r => r
  | None => (t ++ [mkSlot 0 (Some cap)], handle_pack (wrap 32 (Z.of_nat (length t))) 0)
  end.

Definition CapabilityTable_get (t : CapTable) (h : Z) : result Capability CapError :=
  match t !! handle_index h with
  | None => Err InvalidHandle
  | Some slot =>
      if negb (slot_generation slot =? handle_generation h) then Err GenerationMismatch
      else ok_or (slot_content slot) InvalidHandle
  end.

(** The borrowed capability, with the function that writes it back. *)
Definition CapabilityTable_get_mut (t : CapTable) (h : Z)
  : result (Capability * (Capability -> CapTable)) CapError :=
  match t !! handle_index h with
  | None => Err InvalidHandle
  | Some slot =>
      if negb (slot_generation slot =? handle_generation h) then Err GenerationMismatch
      else
        let? c := ok_or (slot_content slot) InvalidHandle in
        Ok (c, fun c' => <[handle_index h := mkSlot (slot_generation slot) (Some c')]> t)
  end.

Definition CapabilityTable_take (t : CapTable) (h : Z) : result (Capability * CapTable) CapError :=
  match t !! handle_index h with
  | None => Err InvalidHandle
  | Some slot =>
      if negb (slot_generation slot =? handle_generation h) then Err GenerationMismatch
      else
        let? c := ok_or (slot_content slot) InvalidHandle in
        Ok (c, <[handle_index h := mkSlot (slot_generation slot) None]> t)
  end.

Definition CapabilityTable_has_kind (t : CapTable) (kind : CapKind) : bool :=
  existsb (fun s => match slot_content s with
                    | Some c => bool_decide (cap_kind c = kind)
                    | None => false
                    end) t.

Definition CapabilityTable_has_kind_with_rights (t : CapTable) (kind : CapKind) (rights : Z) : bool :=
  existsb (fun s => match slot_content s with
                    | Some c => bool_decide (cap_kind c = kind) && rights_has (cap_rights c) rights
                    | None => false
                    end) t.

Fixpoint find_children_from (t : CapTable) (i : nat) (parent_id : Z) : list Z :=
  match t with
  | [] => []
  | s :: rest =>
      let tl := find_children_from rest (S i) parent_id in
      match slot_content s with
      | Some c =>
          if bool_decide (cap_parent_id c = Some parent_id)
          then handle_pack (wrap 32 (Z.of_nat i)) (slot_generation s) :: tl
          else tl
      | None => tl
      end
  end.

Definition CapabilityTable_find_children (t : CapTable) (parent_id : Z) : list Z :=
  find_children_from t 0 parent_id.

(** ** Operations

    [next_id] is the global [NEXT_CAP_ID] counter. *)

Definition alloc_cap_id (next_id : Z) : Z * Z := (next_id, wrap 64 (next_id + 1)).

Definition create_root_cap (next_id : Z) (table : CapTable) (kind : CapKind) (rights object : Z)
  : CapTable * Z * Z :=
  let '(id, next_id') := alloc_cap_id next_id in
  let '(table', h) := CapabilityTable_insert table (mkCap id kind rights object None []) in
  (table', h, next_id').

Definition push_child (task_id handle : Z) (c : Capability) : Capability :=
  mkCap (cap_id c) (cap_kind c) (cap_rights c) (cap_object c) (cap_parent_id c)
        (cap_children c ++ [(task_id, handle)]).

(** Returns the result and the tables [from], [to] and counter left behind. *)
Definition cap_grant (next_id : Z) (from : CapTable) (handle to_task_id : Z)
    (to : CapTable) (rights_mask : Z)
  : result Z CapError * CapTable * CapTable * Z :=
  match CapabilityTable_get from handle with
  | Err e => (Err e, from, to, next_id)
  | Ok cap =>
      if negb (rights_has (cap_rights cap) GRANT) then (Err NoGrant, from, to, next_id)
      else
        let '(id, next_id') := alloc_cap_id next_id in
        let derived := mkCap id (cap_kind cap) (rights_intersect (cap_rights cap) rights_mask)
                             (cap_object cap) (Some (cap_id cap)) [] in
        let '(to', new_handle) := CapabilityTable_insert to derived in
        match CapabilityTable_get_mut from handle with
        | Err e => (Err e, from, to', next_id')
        | Ok (c, write_back) =>
            (Ok new_handle, write_back (push_child to_task_id new_handle c), to', next_id')
        end
  end.

Definition cap_inherit (next_id : Z) (from : CapTable) (handle : Z) (to : CapTable)
  : result Z CapError * CapTable * Z :=
  match CapabilityTable_get from handle with
  | Err e => (Err e, to, next_id)
  | Ok src =>
      let '(id, next_id') := alloc_cap_id next_id in
      let derived := mkCap id (cap_kind src) (cap_rights src) (cap_object src)
                           (cap_parent_id src) [] in
      let '(to', h) := CapabilityTable_insert to derived in
      (Ok h, to', next_id')
  end.

Definition cap_revoke (table : CapTable) (handle : Z) : result CapTable CapError :=
  let? c := CapabilityTable_get table handle in
  if negb (rights_has (cap_rights c) REVOKE) then Err NoRevoke
  else
    let? r := CapabilityTable_take table handle in
    Ok (snd r).

(** ** Cascading revocation *)

Abbreviation Tables := (gmap Z CapTable).

(** The loop over [children] of [cascade_force], [f] being the recursive call. *)
Fixpoint children_loop (f : Tables -> Z -> Z -> option Tables) (cs : list (Z * Z)) (ts : Tables)
  : option Tables :=
  match cs with
  | [] => Some ts
  | (tid, ch) :: cs' =>
      match f ts tid ch with
      | Some ts' => children_loop f cs' ts'
      | None => None
      end
  end.

(** [task_id] names the table the source borrows; a task id with no table is
    the null pointer of [find_table].  [None]: the fuel is exhausted. *)
Fixpoint cascade_force (fuel : nat) (tables : Tables) (task_id handle : Z) : option Tables :=
  match fuel with
  | O => None
  | S fuel' =>
      match tables !! task_id with
      | None => Some tables
      | Some table =>
          match CapabilityTable_get table handle with
          | Err _ => Some tables
          | Ok cap =>
              let table' := match CapabilityTable_take table handle with
                            | Ok (_, t') => t'
                            | Err _ => table
                            end in
              children_loop (cascade_force fuel') (cap_children cap) (<[task_id := table']> tables)
          end
      end
  end.

(** Live capabilities of a table and of all tables: the recursion removes one
    capability before it descends, so this bounds its depth. *)
Definition live_caps (t : CapTable) : nat :=
  length (filter (fun s => is_Some (slot_content s)) t).

Definition total_caps (tables : Tables) : nat :=
  map_fold (fun _ t n => (live_caps t + n)%nat) 0%nat tables.

(** The caller's table is always present when the syscall layer calls this
    (it checks the pointer first), the [None] branch is that check. *)
Definition cap_cascade_revoke (tables : Tables) (task_id handle : Z)
  : result (option Tables) CapError :=
  match tables !! task_id with
  | None => Err InvalidHandle
  | Some table =>
      let? cap := CapabilityTable_get table handle in
      if negb (rights_has (cap_rights cap) REVOKE) then Err NoRevoke
      else Ok (cascade_force (S (total_caps tables)) tables task_id handle)
  end.

(** ** The capability syscalls of [kernel/src/syscall.rs]

    [current] is the id of the calling task; the result is the value left in
    RAX with the new tables (and id counter). *)

Definition sys_cap_grant (tables : Tables) (next_id current a1 a2 a3 : Z)
  : Z * Tables * Z :=
  let rights_mask := wrap 8 a3 in
  match tables !! current with
  | None => (ENOCAP, tables, next_id)
  | Some from =>
      if negb (is_ok (CapabilityTable_get from a1)) then (ENOCAP, tables, next_id)
      else
        match tables !! a2 with
        | None => (EINVAL, tables, next_id)
        | Some to =>
            if current =? a2 then (EINVAL, tables, next_id)
            else
              let '(r, from', to', next_id') := cap_grant next_id from a1 a2 to rights_mask in
              let tables' := <[current := from']> (<[a2 := to']> tables) in
              match r with
              | Ok new_handle => (new_handle, tables', next_id')
              | Err NoGrant => (ENOPERM, tables', next_id')
              | Err _ => (ENOCAP, tables', next_id')
              end
        end
  end.

Definition sys_cap_revoke (tables : Tables) (current a1 : Z) : Z * option Tables :=
  match tables !! current with
  | None => (ENOCAP, Some tables)
  | Some _ =>
      match cap_cascade_revoke tables current a1 with
      | Ok r => (0, r)
      | Err NoRevoke => (ENOPERM, Some tables)
      | Err _ => (ENOCAP, Some tables)
      end
  end.

(** ** Handle encoding *)

Lemma handle_generation_pack i g :
  in_u 32 i -> in_u 32 g -> handle_generation (handle_pack i g) = g.
Proof.
  unfold handle_generation, handle_pack, in_u, wrap. intros Hi Hg.
  rewrite Z.shiftr_lor, Z.shiftr_shiftl_l, Z.sub_diag, Z.shiftl_0_r by lia.
  rewrite (Z.shiftr_div_pow2 i), (Z.div_small i), Z.lor_0_r by lia.
  by apply Z.mod_small.
Qed.

Lemma handle_index_pack i g :
  in_u 32 i -> in_u 32 g -> handle_index (handle_pack i g) = Z.to_nat i.
Proof.
  unfold handle_index, handle_pack, in_u. intros Hi Hg. f_equal.
  change 0xFFFFFFFF with (Z.ones 32). rewrite Z.land_lor_distr_l.
  rewrite !Z.land_ones by lia. rewrite Z.shiftl_mul_pow2 by lia.
  rewrite Z.mod_mul, Z.lor_0_l by lia. by apply Z.mod_small.
Qed.

Lemma handle_index_lt h : Z.of_nat (handle_index h) < 2 ^ 32.
Proof.
  unfold handle_index. change 0xFFFFFFFF with (Z.ones 32). rewrite Z.land_ones by lia.
  pose proof (Z.mod_pos_bound h (2 ^ 32) ltac:(lia)). lia.
Qed.

(** A [u64] handle is determined by its two fields. *)
Lemma handle_ext h h' :
  in_u 64 h -> in_u 64 h' ->
  handle_index h = handle_index h' -> handle_generation h = handle_generation h' -> h = h'.
Proof.
  unfold handle_index, handle_generation, wrap, in_u. intros Hh Hh' Hi Hg.
  change 0xFFFFFFFF with (Z.ones 32) in Hi. rewrite !Z.land_ones in Hi by lia.
  rewrite !Z.shiftr_div_pow2 in Hg by lia.
  rewrite !(Z.mod_small (_ / _)) in Hg
    by (split; [apply Z.div_pos | apply Z.div_lt_upper_bound]; lia).
  pose proof (Z.mod_pos_bound h (2 ^ 32) ltac:(lia)).
  pose proof (Z.mod_pos_bound h' (2 ^ 32) ltac:(lia)).
  rewrite (Z.div_mod h (2 ^ 32)), (Z.div_mod h' (2 ^ 32)) by lia. lia.
Qed.

Lemma handle_pack_u64 i g : in_u 32 i -> in_u 32 g -> in_u 64 (handle_pack i g).
Proof.
  unfold in_u, handle_pack. intros Hi Hg.
  assert (0 <= Z.lor (Z.shiftl g 32) i) by (apply Z.lor_nonneg; rewrite Z.shiftl_nonneg; lia).
  split; [done|].
  destruct (decide (Z.lor (Z.shiftl g 32) i = 0)) as [->|Hne]; [lia|].
  apply Z.log2_lt_pow2; [lia|]. rewrite Z.log2_lor by (rewrite ?Z.shiftl_nonneg; lia).
  apply Z.max_lub_lt.
  - destruct (decide (g = 0)) as [->|]; [by vm_compute|].
    rewrite Z.log2_shiftl by lia. assert (Z.log2 g < 32) by (apply Z.log2_lt_pow2; lia). lia.
  - destruct (decide (i = 0)) as [->|]; [by vm_compute|].
    assert (Z.log2 i < 32) by (apply Z.log2_lt_pow2; lia). lia.
Qed.

#[export] Hint Resolve handle_generation_pack handle_index_pack handle_pack_u64 : rust.

(** ** The reuse loop *)

Lemma reuse_vacant_Some {A} (slots : list (Slot A)) i x slots' h :
  reuse_vacant slots i x = Some (slots', h) ->
  exists j s, slots !! j = Some s /\ slot_content s = None /\
    (forall k s', (k < j)%nat -> slots !! k = Some s' -> is_Some (slot_content s')) /\
    slots' = <[j := mkSlot (wrap 32 (slot_generation s + 1)) (Some x)]> slots /\
    h = handle_pack (wrap 32 (Z.of_nat (i + j))) (wrap 32 (slot_generation s + 1)).
Proof.
  revert i slots' h. induction slots as [|s slots IH]; intros i slots' h; [done|]. cbn.
  destruct (slot_content s) as [y|] eqn:Hs.
  - destruct (reuse_vacant slots (S i) x) as [[rest' h']|] eqn:Hr; [|done].
    intros [= <- <-]. destruct (IH _ _ _ Hr) as (j & s' & Hj & Hc & Hmin & -> & ->).
    exists (S j), s'. repeat split; try done.
    + intros [|k] s'' Hk; [intros [= <-]; eauto|]. apply Hmin. lia.
    + by replace (i + S j)%nat with (S i + j)%nat by lia.
  - intros [= <- <-]. exists 0%nat, s. repeat split; try done.
    + intros k s' Hk. lia.
    + by rewrite Nat.add_0_r.
Qed.

Lemma reuse_vacant_None {A} (slots : list (Slot A)) i x :
  reuse_vacant slots i x = None <-> Forall (fun s => is_Some (slot_content s)) slots.
Proof.
  revert i. induction slots as [|s slots IH]; intros i; cbn; [by split|].
  rewrite Forall_cons. destruct (slot_content s) eqn:Hs.
  - rewrite <- (IH (S i)). destruct (reuse_vacant slots (S i) x) as [[??]|]; split.
    + done.
    + intros [_ ?]. done.
    + eauto.
    + done.
  - split; [done|]. intros [[? ?] _]. done.
Qed.

(** ** Capability tables *)

(** Generations are [u32] and every index fits the 32 bits of a handle. *)
Definition table_wf {A} (t : list (Slot A)) : Prop :=
  Z.of_nat (length t) <= 2 ^ 32 /\ Forall (fun s => in_u 32 (slot_generation s)) t.

(** [insert] has a slot to use: a vacant one, or an index below [2 ^ 32]. *)
Definition has_room {A} (t : list (Slot A)) : Prop :=
  Z.of_nat (length t) < 2 ^ 32 \/ Exists (fun s => slot_content s = None) t.

Lemma table_wf_insert {A} (t : list (Slot A)) j g c :
  table_wf t -> in_u 32 g -> table_wf (<[j := mkSlot g c]> t).
Proof.
  intros [Hl Hg] ?. split; [by rewrite length_insert|]. by apply Forall_insert.
Qed.

Lemma CapabilityTable_get_Ok t h c :
  CapabilityTable_get t h = Ok c <->
  t !! handle_index h = Some (mkSlot (handle_generation h) (Some c)).
Proof.
  unfold CapabilityTable_get. destruct (t !! handle_index h) as [[g oc]|]; [|naive_solver].
  cbn. destruct (Z.eqb_spec g (handle_generation h)) as [->|Hne]; cbn.
  - destruct oc; cbn; naive_solver.
  - split; [done|]. intros [= ? ?]. done.
Qed.

(** Where the two tables put a new entry: the first vacant slot with its
    generation bumped, or a new slot at the end. *)
Lemma slots_insert_spec {A} (t : list (Slot A)) (x : A) t' h :
  table_wf t -> has_room t ->
  match reuse_vacant t 0 x with
  | Some r => r
  | None => (t ++ [mkSlot 0 (Some x)], handle_pack (wrap 32 (Z.of_nat (length t))) 0)
  end = (t', h) ->
  in_u 64 h /\ table_wf t' /\
  t' !! handle_index h = Some (mkSlot (handle_generation h) (Some x)) /\
  (forall s, t !! handle_index h = Some s -> slot_content s = None /\
     handle_generation h = wrap 32 (slot_generation s + 1)) /\
  (forall j, j <> handle_index h -> t' !! j = t !! j).
Proof.
  intros [Hlen Hgen] Hroom.
  destruct (reuse_vacant t 0 x) as [[t1 h1]|] eqn:Hr.
  - intros [= <- <-]. apply reuse_vacant_Some in Hr as (j & s & Hj & Hc & _ & -> & ->).
    rewrite Nat.add_0_l. pose proof (lookup_lt_Some _ _ _ Hj).
    assert (in_u 32 (wrap 32 (Z.of_nat j))) by (apply wrap_range; lia).
    assert (in_u 32 (wrap 32 (slot_generation s + 1))) by (apply wrap_range; lia).
    assert (wrap 32 (Z.of_nat j) = Z.of_nat j) as Hw by (apply wrap_small; unfold in_u; lia).
    rewrite handle_index_pack, handle_generation_pack by done. rewrite Hw, Nat2Z.id.
    repeat split; try naive_solver.
    + rewrite <- Hw. by apply handle_pack_u64.
    + rewrite <- Hw. by apply handle_pack_u64.
    + by rewrite length_insert.
    + by apply Forall_insert.
    + by rewrite list_lookup_insert_eq.
    + intros k Hk. by rewrite list_lookup_insert_ne.
  - apply reuse_vacant_None in Hr as Hall. intros [= <- <-].
    destruct Hroom as [Hlt|Hex].
    2:{ apply Exists_exists in Hex as (s & Hin & Hn). rewrite Forall_forall in Hall.
        apply Hall in Hin as [? ?]. congruence. }
    assert (in_u 32 (Z.of_nat (length t))) by (unfold in_u; lia).
    assert (wrap 32 (Z.of_nat (length t)) = Z.of_nat (length t)) as -> by by apply wrap_small.
    assert (in_u 32 0) by (unfold in_u; lia).
    rewrite handle_index_pack, handle_generation_pack, Nat2Z.id by done.
    repeat split.
    + by apply handle_pack_u64.
    + by apply handle_pack_u64.
    + rewrite length_app. cbn. lia.
    + apply Forall_app. split; [done|]. by apply Forall_singleton.
    + by rewrite lookup_app_r, Nat.sub_diag by lia.
    + by rewrite lookup_ge_None_2 in H1 by lia.
    + by rewrite lookup_ge_None_2 in H1 by lia.
    + intros k Hk. destruct (decide (k < length t)%nat).
      * by rewrite lookup_app_l.
      * rewrite !lookup_ge_None_2; [done|lia|]. rewrite length_app. cbn. lia.
Qed.

Lemma CapabilityTable_take_Ok t h c t' :
  CapabilityTable_take t h = Ok (c, t') <->
  CapabilityTable_get t h = Ok c /\
  t' = <[handle_index h := mkSlot (handle_generation h) None]> t.
Proof.
  unfold CapabilityTable_take, CapabilityTable_get.
  destruct (t !! handle_index h) as [[g oc]|]; cbn; [|naive_solver].
  destruct (Z.eqb_spec g (handle_generation h)) as [->|Hne]; cbn; [|naive_solver].
  destruct oc; cbn; naive_solver.
Qed.

(** A handle that resolves can be taken and borrowed. *)
Lemma CapabilityTable_take_get t h c :
  CapabilityTable_get t h = Ok c ->
  CapabilityTable_take t h = Ok (c, <[handle_index h := mkSlot (handle_generation h) None]> t).
Proof. intros. by apply CapabilityTable_take_Ok. Qed.

Lemma CapabilityTable_get_mut_get t h c :
  CapabilityTable_get t h = Ok c ->
  CapabilityTable_get_mut t h =
    Ok (c, fun c' => <[handle_index h := mkSlot (handle_generation h) (Some c')]> t).
Proof.
  rewrite CapabilityTable_get_Ok. unfold CapabilityTable_get_mut. intros ->.
  cbn [slot_generation slot_content ok_or]. by rewrite Z.eqb_refl.
Qed.

(** ** The derivation graph

    A node is a [(task id, handle)] pair, as stored in [children]. *)

Definition cap_lookup (tables : Tables) (n : Z * Z) : option Capability :=
  match tables !! n.1 with
  | None => None
  | Some t => match CapabilityTable_get t n.2 with Ok c => Some c | Err _ => None end
  end.

(** [derives tables x y]: [y] is reached from [x] through [children] lists. *)
Inductive derives (tables : Tables) (x : Z * Z) : Z * Z -> Prop :=
| derives_refl : derives tables x x
| derives_child y c z :
    derives tables x y -> cap_lookup tables y = Some c -> z ∈ cap_children c ->
    derives tables x z.

(** Two handles for the same slot and generation of the same table. *)
Definition same_slot (y y' : Z * Z) : Prop :=
  y.1 = y'.1 /\ handle_index y.2 = handle_index y'.2 /\
  handle_generation y.2 = handle_generation y'.2.

Lemma same_slot_refl y : same_slot y y.
Proof. done. Qed.

Lemma cap_lookup_Some tables n c :
  cap_lookup tables n = Some c <->
  exists t, tables !! n.1 = Some t /\
    t !! handle_index n.2 = Some (mkSlot (handle_generation n.2) (Some c)).
Proof.
  unfold cap_lookup. destruct (tables !! n.1) as [t|]; [|naive_solver].
  destruct (CapabilityTable_get t n.2) as [c'|e] eqn:Hg.
  - pose proof Hg as Hg'. rewrite CapabilityTable_get_Ok in Hg'. naive_solver.
  - split; [done|]. intros (t' & [= <-] & Ht). apply CapabilityTable_get_Ok in Ht. congruence.
Qed.

(** The tables after removing the capability a handle resolves to. *)
Lemma cap_lookup_remove tables x t c :
  tables !! x.1 = Some t -> CapabilityTable_get t x.2 = Ok c ->
  let S0 := <[x.1 := <[handle_index x.2 := mkSlot (handle_generation x.2) None]> t]> tables in
  forall y, cap_lookup S0 y =
    if decide (y.1 = x.1 /\ handle_index y.2 = handle_index x.2) then None else cap_lookup tables y.
Proof.
  intros Ht Hg S0 y. apply CapabilityTable_get_Ok in Hg.
  unfold cap_lookup, S0. destruct (decide (y.1 = x.1)) as [->|Hne].
  2:{ rewrite lookup_insert_ne by done. rewrite decide_False; naive_solver. }
  rewrite lookup_insert_eq, Ht. unfold CapabilityTable_get.
  destruct (decide (handle_index y.2 = handle_index x.2)) as [->|Hne].
  - rewrite decide_True by done. rewrite list_lookup_insert_eq by (eapply lookup_lt_Some; eauto).
    cbn. by destruct (Z.eqb _ _).
  - rewrite decide_False by naive_solver. by rewrite list_lookup_insert_ne.
Qed.

(** ** Correctness of the cascade

    [revoked S S' x]: [S'] is [S] with a set of nodes removed that contains
    [x], is closed under [children], and is reachable from [x]. *)
Record revoked (S S' : Tables) (x : Z * Z) : Prop := {
  rv_mono : forall y c, cap_lookup S' y = Some c -> cap_lookup S y = Some c;
  rv_root : cap_lookup S' x = None;
  rv_closed : forall y c z, cap_lookup S y = Some c -> cap_lookup S' y = None ->
    z ∈ cap_children c -> cap_lookup S' z = None;
  rv_reach : forall y c, cap_lookup S y = Some c -> cap_lookup S' y = None ->
    exists y', derives S x y' /\ same_slot y y'
}.

Lemma cap_lookup_mono_None S S' y :
  (forall y c, cap_lookup S' y = Some c -> cap_lookup S y = Some c) ->
  cap_lookup S y = None -> cap_lookup S' y = None.
Proof. intros Hm Hn. destruct (cap_lookup S' y) eqn:E; [|done]. apply Hm in E. congruence. Qed.

Lemma derives_mono S S' x y :
  (forall y c, cap_lookup S' y = Some c -> cap_lookup S y = Some c) ->
  derives S' x y -> derives S x y.
Proof. intros Hm. induction 1; [constructor|]. econstructor; eauto. Qed.

Lemma derives_trans S x y z : derives S x y -> derives S y z -> derives S x z.
Proof. intros Hxy. induction 1; [done|]. econstructor; eauto. Qed.

(** The loop over the children removes each of them in turn. *)
Lemma children_loop_revoked f cs S0 S' :
  (forall ts tid ch ts', f ts tid ch = Some ts' -> revoked ts ts' (tid, ch)) ->
  children_loop f cs S0 = Some S' ->
  (forall y c, cap_lookup S' y = Some c -> cap_lookup S0 y = Some c) /\
  (forall z, z ∈ cs -> cap_lookup S' z = None) /\
  (forall y c z, cap_lookup S0 y = Some c -> cap_lookup S' y = None ->
     z ∈ cap_children c -> cap_lookup S' z = None) /\
  (forall y c, cap_lookup S0 y = Some c -> cap_lookup S' y = None ->
     exists z y', z ∈ cs /\ derives S0 z y' /\ same_slot y y').
Proof.
  intros Hf. revert S0. induction cs as [|[tid ch] cs IH]; intros S0; cbn.
  { intros [= <-]. repeat split; intros; try set_solver; congruence. }
  destruct (f S0 tid ch) as [S1|] eqn:Hs; [|done]. intros Hl.
  apply Hf in Hs as [Hm1 Hr1 Hc1 Hre1]. destruct (IH _ Hl) as (Hm2 & Hz2 & Hc2 & Hre2).
  repeat split.
  - eauto.
  - intros z [->|?]%elem_of_cons; [|eauto]. eapply cap_lookup_mono_None; eauto.
  - intros y c z Hy Hy' Hin. destruct (cap_lookup S1 y) as [c1|] eqn:E1.
    + apply Hm1 in E1 as E1'. simplify_eq. eauto.
    + eapply cap_lookup_mono_None; eauto.
  - intros y c Hy Hy'. destruct (cap_lookup S1 y) as [c1|] eqn:E1.
    + destruct (Hre2 _ _ E1 Hy') as (z & y' & ? & ? & ?). exists z, y'.
      split; [by right|]. split; [|done]. by eapply derives_mono.
    + destruct (Hre1 _ _ Hy E1) as (y' & ? & ?). exists (tid, ch), y'. split; [left|done].
Qed.

Lemma cascade_force_revoked fuel : forall S0 tid h S',
  cascade_force fuel S0 tid h = Some S' -> revoked S0 S' (tid, h).
Proof.
  induction fuel as [|fuel IH]; intros S0 tid h S'; [done|]. cbn.
  destruct (S0 !! tid) as [t|] eqn:Ht.
  2:{ intros [= <-]. split; try naive_solver congruence. unfold cap_lookup. cbn. by rewrite Ht. }
  destruct (CapabilityTable_get t h) as [cap|e] eqn:Hg.
  2:{ intros [= <-]. split; try naive_solver congruence.
      unfold cap_lookup. cbn. by rewrite Ht, Hg. }
  rewrite (CapabilityTable_take_get _ _ _ Hg).
  pose proof (cap_lookup_remove S0 (tid, h) t cap Ht Hg) as Hrem. cbn in Hrem.
  set (S1 := <[tid := _]> S0) in *. intros Hl.
  apply (children_loop_revoked _ _ _ _ IH) in Hl as (Hm & Hz & Hc & Hre).
  assert (forall y c, cap_lookup S1 y = Some c -> cap_lookup S0 y = Some c) as Hm1.
  { intros y c. rewrite Hrem. by case_decide. }
  assert (cap_lookup S0 (tid, h) = Some cap) as Hroot.
  { unfold cap_lookup. cbn. by rewrite Ht, Hg. }
  assert (forall y c, cap_lookup S0 y = Some c -> cap_lookup S1 y = None ->
            c = cap /\ same_slot y (tid, h)) as Hself.
  { intros y c Hy. rewrite Hrem. case_decide as Hd; [|congruence]. intros _.
    destruct Hd as [H1 H2]. apply cap_lookup_Some in Hy as (t' & Ht' & Hy).
    rewrite H1, Ht in Ht'. injection Ht' as <-. rewrite H2 in Hy.
    apply CapabilityTable_get_Ok in Hg. rewrite Hg in Hy. injection Hy as Hg' Hc'.
    split; [done|]. split; [done|]. split; [done|]. done. }
  split.
  - eauto.
  - eapply cap_lookup_mono_None; [exact Hm|]. rewrite Hrem. by rewrite decide_True.
  - intros y c z Hy Hy' Hin. destruct (cap_lookup S1 y) as [c1|] eqn:E1.
    + apply Hm1 in E1 as E1'. simplify_eq. eauto.
    + destruct (Hself _ _ Hy E1) as [-> _]. eauto.
  - intros y c Hy Hy'. destruct (cap_lookup S1 y) as [c1|] eqn:E1.
    + destruct (Hre _ _ E1 Hy') as (z & y' & ? & Hd & ?). exists y'. split; [|done].
      apply derives_trans with z; [|by eapply derives_mono].
      econstructor; [constructor|done|done].
    + destruct (Hself _ _ Hy E1) as [_ ?]. exists (tid, h). split; [constructor|done].
Qed.

(** ** Termination: the fuel is enough *)

Lemma total_caps_update tables k t t' :
  tables !! k = Some t ->
  (total_caps (<[k := t']> tables) + live_caps t = total_caps tables + live_caps t')%nat.
Proof.
  intros Hk. unfold total_caps. rewrite <- insert_delete_eq.
  rewrite map_fold_insert_L; [| intros; lia | apply lookup_delete_eq].
  rewrite <- (insert_id tables k t Hk) at 2. rewrite <- insert_delete_eq.
  rewrite map_fold_insert_L; [| intros; lia | apply lookup_delete_eq].
  lia.
Qed.

Lemma live_caps_vacate t i g c :
  t !! i = Some (mkSlot g (Some c)) -> S (live_caps (<[i := mkSlot g None]> t)) = live_caps t.
Proof.
  unfold live_caps. revert i. induction t as [|s t IH]; intros [|i] Hi; [done|done| |].
  - injection Hi as ->. change (<[0%nat := mkSlot g None]> (mkSlot g (Some c) :: t))
      with (mkSlot g None :: t).
    rewrite filter_cons_False, filter_cons_True; [done|by eexists|by intros []].
  - change (<[S i := mkSlot g None]> (s :: t)) with (s :: <[i := mkSlot g None]> t).
    rewrite !filter_cons. case_decide; [|by apply IH]. cbn [length]. f_equal. by apply IH.
Qed.

Lemma children_loop_total f cs ts n :
  (total_caps ts < n)%nat ->
  (forall ts' tid ch, (total_caps ts' < n)%nat ->
     exists ts'', f ts' tid ch = Some ts'' /\ (total_caps ts'' <= total_caps ts')%nat) ->
  exists ts', children_loop f cs ts = Some ts' /\ (total_caps ts' <= total_caps ts)%nat.
Proof.
  intros Hn Hf. revert ts Hn. induction cs as [|[tid ch] cs IH]; intros ts Hn; cbn; [eauto|].
  destruct (Hf ts tid ch Hn) as (ts1 & -> & Hle).
  destruct (IH ts1) as (ts2 & ? & ?); [lia|]. exists ts2. split; [done|lia].
Qed.

Lemma cascade_force_total fuel : forall ts tid h,
  (total_caps ts < fuel)%nat ->
  exists ts', cascade_force fuel ts tid h = Some ts' /\ (total_caps ts' <= total_caps ts)%nat.
Proof.
  induction fuel as [|fuel IH]; intros ts tid h Hlt; [lia|]. cbn.
  destruct (ts !! tid) as [t|] eqn:Ht; [|eauto].
  destruct (CapabilityTable_get t h) as [cap|e] eqn:Hg; [|eauto].
  rewrite (CapabilityTable_take_get _ _ _ Hg). apply CapabilityTable_get_Ok in Hg.
  pose proof (live_caps_vacate _ _ _ _ Hg).
  pose proof (total_caps_update ts tid t
    (<[handle_index h := mkSlot (handle_generation h) None]> t) Ht).
  destruct (children_loop_total (cascade_force fuel) (cap_children cap)
    (<[tid := <[handle_index h := mkSlot (handle_generation h) None]> t]> ts) fuel)
    as (ts' & -> & ?); [lia|auto|]. exists ts'. split; [done|lia].
Qed.


(** A small system: task 1 holds a root memory capability and grants it to
    task 2, which grants it on to task 3. *)
Definition demo_root_table : CapTable := (create_root_cap 1 [] KMemory RIGHTS_ALL 0).1.1.
Definition demo_tables0 : Tables := <[1 := demo_root_table]> (<[2 := []]> (<[3 := []]> ∅)).
Definition demo_tables1 : Tables := (sys_cap_grant demo_tables0 2 1 0 2 RIGHTS_ALL).1.2.
Definition demo_tables : Tables := (sys_cap_grant demo_tables1 3 2 0 3 RIGHTS_ALL).1.2.
Definition demo_root : Capability := mkCap 1 KMemory RIGHTS_ALL 0 None [(2, 0)].
Definition demo_child : Capability := mkCap 2 KMemory RIGHTS_ALL 0 (Some 1) [(3, 0)].


(** ** Insertion and stale handles *)

(** [insert] hands out a fresh handle: the new handle resolves to the
    inserted capability, it did not resolve before, every handle that
    resolved still resolves to the same capability, and no other [u64] value
    becomes valid. *)
Theorem CapabilityTable_insert_fresh t cap t' h :
  table_wf t -> has_room t -> CapabilityTable_insert t cap = (t', h) ->
  table_wf t' /\ CapabilityTable_get t' h = Ok cap /\
  is_ok (CapabilityTable_get t h) = false /\
  (forall h' c, CapabilityTable_get t h' = Ok c -> CapabilityTable_get t' h' = Ok c) /\
  (forall h' c, in_u 64 h' -> CapabilityTable_get t' h' = Ok c ->
     h' = h \/ CapabilityTable_get t h' = Ok c).
Proof.
  intros Hwf Hroom Hins.
  destruct (slots_insert_spec _ _ _ _ Hwf Hroom Hins) as (Hh & Hwf' & Hat & Hold & Hne).
  split; [done|]. split; [by apply CapabilityTable_get_Ok|]. split; [|split].
  - destruct (CapabilityTable_get t h) as [c|] eqn:E; [|done].
    apply CapabilityTable_get_Ok in E. by apply Hold in E as [? _].
  - intros h' c. rewrite !CapabilityTable_get_Ok. intros E. rewrite Hne; [done|].
    intros Heq. rewrite Heq in E. by apply Hold in E as [? _].
  - intros h' c Hh'. rewrite !CapabilityTable_get_Ok. intros E.
    destruct (decide (handle_index h' = handle_index h)) as [Heq|].
    + left. apply handle_ext; try done. rewrite Heq, Hat in E. by injection E as ? _.
    + right. by rewrite <- Hne.
Qed.

Lemma CapabilityTable_insert_fresh_witness :
  CapabilityTable_get (CapabilityTable_insert [mkSlot 7 None] demo_root).1 (handle_pack 0 8)
    = Ok demo_root /\
  is_ok (CapabilityTable_get [mkSlot 7 None] (handle_pack 0 8)) = false.
Proof.
  destruct (CapabilityTable_insert_fresh [mkSlot 7 None] demo_root
    [mkSlot 8 (Some demo_root)] (handle_pack 0 8)) as (_ & H1 & H2 & _).
  - split; [vm_compute; discriminate|]. apply Forall_singleton. vm_compute. split; congruence.
  - right. apply Exists_cons_hd. reflexivity.
  - vm_compute. reflexivity.
  - split; [exact H1|exact H2].
Defined.

(** The operations a task can trigger on its own table after it lost a
    capability: inserts (grants received, new endpoints, IPC transfers),
    removals, and in-place updates of live entries. *)
Inductive table_op : Type :=
| OpInsert (c : Capability)
| OpTake (h : Z)
| OpPushChild (h task_id child : Z).

Definition run_op (t : CapTable) (op : table_op) : CapTable :=
  match op with
  | OpInsert c => (CapabilityTable_insert t c).1
  | OpTake h => match CapabilityTable_take t h with Ok (_, t') => t' | Err _ => t end
  | OpPushChild h tid ch =>
      match CapabilityTable_get_mut t h with
      | Ok (c, wb) => wb (push_child tid ch c)
      | Err _ => t
      end
  end.

Definition run_ops (t : CapTable) (ops : list table_op) : CapTable := foldl run_op t ops.

Definition is_insert (op : table_op) : bool :=
  match op with OpInsert _ => true | _ => false end.

(** Slot [i] has been refilled [d] times since its generation was [g], and is
    vacant if it was never refilled. *)
Definition slot_age (t : CapTable) (i : nat) (g d : Z) : Prop :=
  exists s, t !! i = Some s /\ slot_generation s = wrap 32 (g + d) /\
            (d = 0 -> slot_content s = None).

Lemma slot_age_step t i g d op :
  slot_age t i g d -> 0 <= d ->
  exists d', slot_age (run_op t op) i g d' /\ d <= d' <= d + (if is_insert op then 1 else 0).
Proof.
  intros (s & Hi & Hg & Hv) Hd. destruct op as [c|h|h tid ch]; cbn [run_op is_insert].
  - unfold CapabilityTable_insert. destruct (reuse_vacant t 0 c) as [[t' h]|] eqn:Hr; cbn.
    + apply reuse_vacant_Some in Hr as (j & s' & Hj & Hc & _ & -> & _).
      destruct (decide (j = i)) as [->|Hne].
      * rewrite Hi in Hj. injection Hj as <-. exists (d + 1). split; [|lia].
        exists (mkSlot (wrap 32 (slot_generation s + 1)) (Some c)). split; [|split].
        -- by apply list_lookup_insert_eq, lookup_lt_Some with s.
        -- cbn. rewrite Hg. unfold wrap. rewrite Zplus_mod_idemp_l. f_equal. lia.
        -- lia.
      * exists d. split; [|lia]. exists s. by rewrite list_lookup_insert_ne.
    + exists d. split; [|lia]. exists s. rewrite lookup_app_l; [done|].
      by eapply lookup_lt_Some.
  - exists d. split; [|lia]. destruct (CapabilityTable_take t h) as [[c t']|] eqn:E; [|by exists s].
    apply CapabilityTable_take_Ok in E as [E ->]. apply CapabilityTable_get_Ok in E.
    destruct (decide (handle_index h = i)) as [<-|Hne].
    + rewrite Hi in E. injection E as ->. cbn in Hg.
      exists (mkSlot (handle_generation h) None). split; [|done].
      by eapply list_lookup_insert_eq, lookup_lt_Some.
    + exists s. by rewrite list_lookup_insert_ne.
  - exists d. split; [|lia]. destruct (CapabilityTable_get t h) as [c|] eqn:E.
    + rewrite (CapabilityTable_get_mut_get _ _ _ E). apply CapabilityTable_get_Ok in E.
      destruct (decide (handle_index h = i)) as [<-|Hne].
      * rewrite Hi in E. injection E as ->. cbn in Hg, Hv.
        exists (mkSlot (handle_generation h) (Some (push_child tid ch c))). split; [|split].
        -- by eapply list_lookup_insert_eq, lookup_lt_Some.
        -- done.
        -- intros Hz. by apply Hv in Hz.
      * exists s. by rewrite list_lookup_insert_ne.
    + assert (exists e, CapabilityTable_get_mut t h = Err e) as [e' ->].
      { revert E. unfold CapabilityTable_get, CapabilityTable_get_mut.
        destruct (t !! handle_index h) as [[g' oc]|]; [|eauto]. cbn.
        destruct (negb _); [eauto|]. destruct oc; cbn; [done|eauto]. }
      by exists s.
Qed.

Lemma slot_age_run ops : forall t i g d,
  slot_age t i g d -> 0 <= d ->
  exists d', slot_age (run_ops t ops) i g d' /\
    d <= d' <= d + Z.of_nat (length (filter (fun op => is_insert op = true) ops)).
Proof.
  induction ops as [|op ops IH]; intros t i g d Ha Hd; cbn [run_ops foldl].
  { exists d. split; [done|cbn; lia]. }
  destruct (slot_age_step t i g d op Ha Hd) as (d1 & Ha1 & ?).
  destruct (IH _ _ _ _ Ha1) as (d2 & Ha2 & ?); [lia|]. exists d2. split; [exact Ha2|].
  rewrite filter_cons. destruct (is_insert op); cbn [length decide] in *;
    case_decide; cbn [length]; try done; lia.
Qed.

(** C27. Stale handles never alias: once a handle has been taken out of a table
    (revoked or sent away), no sequence of further table operations with
    fewer than [2 ^ 32] inserts makes that handle value valid again. *)
Theorem stale_handle_rejected t h c t1 ops :
  in_u 32 (handle_generation h) ->
  CapabilityTable_take t h = Ok (c, t1) ->
  Z.of_nat (length (filter (fun op => is_insert op = true) ops)) < 2 ^ 32 ->
  is_ok (CapabilityTable_get (run_ops t1 ops) h) = false.
Proof.
  intros Hu Htake Hn. apply CapabilityTable_take_Ok in Htake as [Hget ->].
  apply CapabilityTable_get_Ok in Hget.
  destruct (slot_age_run ops (<[handle_index h := mkSlot (handle_generation h) None]> t)
    (handle_index h) (handle_generation h) 0) as (d & (s & Hs & Hg & Hv) & Hd); [|lia|].
  { exists (mkSlot (handle_generation h) None). split; [|split; [|done]].
    - by eapply list_lookup_insert_eq, lookup_lt_Some.
    - cbn. rewrite Z.add_0_r. symmetry. by apply wrap_small. }
  destruct (CapabilityTable_get _ h) as [c'|] eqn:E; [|done].
  apply CapabilityTable_get_Ok in E. rewrite Hs in E. injection E as ->. cbn in Hg, Hv.
  assert (d = 0) as ->; [|by specialize (Hv eq_refl)].
  unfold wrap, in_u in *.
  pose proof (Z.div_mod (handle_generation h + d) (2 ^ 32) ltac:(lia)) as Hdm.
  rewrite <- Hg in Hdm. assert (d = 2 ^ 32 * ((handle_generation h + d) / 2 ^ 32)) by lia.
  set (q := (handle_generation h + d) / 2 ^ 32) in *. nia.
Qed.

Lemma stale_handle_rejected_witness :
  is_ok (CapabilityTable_get
    (run_ops [mkSlot 3 None] [OpInsert demo_root; OpTake (handle_pack 0 4); OpInsert demo_child])
    (handle_pack 0 3)) = false.
Proof.
  apply (stale_handle_rejected [mkSlot 3 (Some demo_child)] (handle_pack 0 3) demo_child).
  - vm_compute. split; congruence.
  - vm_compute. reflexivity.
  - vm_compute. reflexivity.
Defined.

(** ** No amplification of authority *)

Definition contents (t : CapTable) (c : Capability) : Prop :=
  exists s, s ∈ t /\ slot_content s = Some c.

Lemma contents_insert t cap c :
  contents (CapabilityTable_insert t cap).1 c -> c = cap \/ contents t c.
Proof.
  unfold CapabilityTable_insert. intros (s & Hin & Hs).
  destruct (reuse_vacant t 0 cap) as [[t' h]|] eqn:Hr; cbn in Hin.
  - apply reuse_vacant_Some in Hr as (j & s' & _ & _ & _ & -> & _).
    apply list_elem_of_lookup in Hin as (k & Hk).
    apply list_lookup_insert_Some in Hk as [(-> & <- & _)|[_ Hk]].
    + left. by injection Hs.
    + right. exists s. split; [|done]. apply list_elem_of_lookup. eauto.
  - apply elem_of_app in Hin as [?|Hin]; [right; by exists s|].
    apply list_elem_of_singleton in Hin as ->. left. by injection Hs.
Qed.

Lemma contents_update t i g oc c :
  contents (<[i := mkSlot g oc]> t) c -> oc = Some c \/ contents t c.
Proof.
  intros (s & Hin & Hs). apply list_elem_of_lookup in Hin as (k & Hk).
  apply list_lookup_insert_Some in Hk as [(-> & <- & _)|[_ Hk]]; [left; exact Hs|].
  right. exists s. split; [|done]. apply list_elem_of_lookup. eauto.
Qed.

Lemma contents_get t h c : CapabilityTable_get t h = Ok c -> contents t c.
Proof.
  rewrite CapabilityTable_get_Ok. intros E.
  exists (mkSlot (handle_generation h) (Some c)). split; [|done].
  apply list_elem_of_lookup. eauto.
Qed.

Lemma rights_has_intersect r a m : rights_has r a = true -> rights_has r (rights_intersect a m) = true.
Proof.
  unfold rights_has, rights_intersect. rewrite !Z.eqb_eq. intros H.
  by rewrite Z.land_assoc, H.
Qed.

(** The state of the capability system: the tables of the live tasks, the id
    counter, and the capabilities detached by [SYS_IPC_SEND_CAP] that wait in
    an endpoint. *)
Record CapSys : Type := mkCapSys {
  cs_tables : Tables;
  cs_next_id : Z;
  cs_in_flight : list Capability
}.

(** [cap_reach roots s]: [s] can be reached when [roots] lists the
    (kind, rights, object) triples for which the kernel itself called
    [create_root_cap]. *)
Inductive cap_reach : list (CapKind * Z * Z) -> CapSys -> Prop :=
| reach_boot : cap_reach [] (mkCapSys ∅ 1 [])
| reach_spawn roots s tid :
    cap_reach roots s -> cs_tables s !! tid = None ->
    cap_reach roots (mkCapSys (<[tid := []]> (cs_tables s)) (cs_next_id s) (cs_in_flight s))
| reach_root roots s tid t kind rights object t' h n' :
    cap_reach roots s -> cs_tables s !! tid = Some t ->
    create_root_cap (cs_next_id s) t kind rights object = (t', h, n') ->
    cap_reach ((kind, rights, object) :: roots)
      (mkCapSys (<[tid := t']> (cs_tables s)) n' (cs_in_flight s))
| reach_grant roots s tid a1 a2 a3 rax tables' n' :
    cap_reach roots s ->
    sys_cap_grant (cs_tables s) (cs_next_id s) tid a1 a2 a3 = (rax, tables', n') ->
    cap_reach roots (mkCapSys tables' n' (cs_in_flight s))
| reach_inherit roots s parent from handle child to r to' n' :
    cap_reach roots s ->
    cs_tables s !! parent = Some from -> cs_tables s !! child = Some to ->
    cap_inherit (cs_next_id s) from handle to = (r, to', n') ->
    cap_reach roots (mkCapSys (<[child := to']> (cs_tables s)) n' (cs_in_flight s))
| reach_revoke roots s tid a1 rax tables' :
    cap_reach roots s -> sys_cap_revoke (cs_tables s) tid a1 = (rax, Some tables') ->
    cap_reach roots (mkCapSys tables' (cs_next_id s) (cs_in_flight s))
| reach_send roots s tid t h c t' :
    cap_reach roots s -> cs_tables s !! tid = Some t ->
    CapabilityTable_take t h = Ok (c, t') ->
    cap_reach roots (mkCapSys (<[tid := t']> (cs_tables s)) (cs_next_id s) (c :: cs_in_flight s))
| reach_recv roots s tid t c rest :
    cap_reach roots s -> cs_tables s !! tid = Some t -> cs_in_flight s ≡ₚ c :: rest ->
    cap_reach roots
      (mkCapSys (<[tid := (CapabilityTable_insert t c).1]> (cs_tables s)) (cs_next_id s) rest)
| reach_drop roots s c rest :
    cap_reach roots s -> cs_in_flight s ≡ₚ c :: rest ->
    cap_reach roots (mkCapSys (cs_tables s) (cs_next_id s) rest)
| reach_exit roots s tid :
    cap_reach roots s ->
    cap_reach roots (mkCapSys (delete tid (cs_tables s)) (cs_next_id s) (cs_in_flight s)).

(** [c] confers no more than some root: same kind, same object, fewer rights. *)
Definition backed (roots : list (CapKind * Z * Z)) (c : Capability) : Prop :=
  exists r, (cap_kind c, r, cap_object c) ∈ roots /\ rights_has r (cap_rights c) = true.

Lemma backed_cons r roots c : backed roots c -> backed (r :: roots) c.
Proof. intros (x & ? & ?). exists x. split; [by right|done]. Qed.

Lemma backed_derived roots c id p cs m :
  backed roots c ->
  backed roots (mkCap id (cap_kind c) (rights_intersect (cap_rights c) m) (cap_object c) p cs).
Proof. intros (x & ? & ?). exists x. split; [done|]. by apply rights_has_intersect. Qed.

Lemma cap_grant_contents n from h tid to m r from' to' n' roots :
  cap_grant n from h tid to m = (r, from', to', n') ->
  (forall c, contents from c -> backed roots c) -> (forall c, contents to c -> backed roots c) ->
  (forall c, contents from' c -> backed roots c) /\ (forall c, contents to' c -> backed roots c).
Proof.
  unfold cap_grant. intros Hg Hf Ht.
  destruct (CapabilityTable_get from h) as [cap|] eqn:Eg; [|naive_solver].
  destruct (negb _); [naive_solver|]. cbn [alloc_cap_id] in Hg.
  set (d := mkCap _ _ _ _ _ _) in Hg.
  destruct (CapabilityTable_insert to d) as [to1 nh] eqn:Ei.
  rewrite (CapabilityTable_get_mut_get _ _ _ Eg) in Hg. injection Hg as _ <- <- _.
  apply contents_get in Eg as Hcap. split.
  - intros c [E|?]%contents_update; [|by apply Hf]. injection E as <-. by apply Hf in Hcap.
  - intros c Hc. replace to1 with (CapabilityTable_insert to d).1 in Hc by by rewrite Ei.
    apply contents_insert in Hc as [->|?]; [|by apply Ht]. by apply backed_derived, Hf.
Qed.

Lemma cascade_contents fuel : forall ts tid h ts' k t c,
  cascade_force fuel ts tid h = Some ts' -> ts' !! k = Some t -> contents t c ->
  exists t0, ts !! k = Some t0 /\ contents t0 c.
Proof.
  induction fuel as [|fuel IH]; intros ts tid h ts' k t c; [done|]. cbn.
  destruct (ts !! tid) as [t0|] eqn:Ht; [|naive_solver].
  destruct (CapabilityTable_get t0 h) as [cap|] eqn:Hg; [|naive_solver].
  rewrite (CapabilityTable_take_get _ _ _ Hg). set (t1 := <[_ := _]> t0). intros Hl Hk Hc.
  assert (exists t2, (<[tid := t1]> ts) !! k = Some t2 /\ contents t2 c) as (t2 & Hk2 & Hc2).
  { revert Hl. generalize (<[tid := t1]> ts). generalize (cap_children cap).
    induction l as [|[tid' ch] cs IHcs]; intros ts1; cbn; [intros [= ->]; eauto|].
    destruct (cascade_force fuel ts1 tid' ch) as [ts2|] eqn:E; [|done]. intros Hl.
    apply IHcs in Hl as (t2 & ? & ?). by eapply IH. }
  apply lookup_insert_Some in Hk2 as [[<- <-]|[? ?]]; [|eauto].
  exists t0. split; [done|]. by apply contents_update in Hc2 as [?|?].
Qed.

Lemma sys_cap_grant_contents roots tables n tid a1 a2 a3 rax tables' n' :
  sys_cap_grant tables n tid a1 a2 a3 = (rax, tables', n') ->
  (forall k t c, tables !! k = Some t -> contents t c -> backed roots c) ->
  (forall k t c, tables' !! k = Some t -> contents t c -> backed roots c).
Proof.
  unfold sys_cap_grant. intros Hg Hok.
  destruct (tables !! tid) as [from|] eqn:Hf; [|by simplify_eq; eauto].
  destruct (negb _); [by simplify_eq; eauto|].
  destruct (tables !! a2) as [to|] eqn:Ht; [|by simplify_eq; eauto].
  destruct (tid =? a2); [by simplify_eq; eauto|].
  destruct (cap_grant n from a1 a2 to (wrap 8 a3)) as [[[r from'] to'] n1] eqn:E.
  apply (cap_grant_contents _ _ _ _ _ _ _ _ _ _ roots) in E as [Hf' Ht']; [|by eauto..].
  assert (tables' = <[tid := from']> (<[a2 := to']> tables)) as ->.
  { destruct r as [|[]]; by injection Hg as _ <- _. }
  intros k t c. rewrite !lookup_insert_Some. naive_solver.
Qed.

Lemma sys_cap_revoke_contents tables tid a1 rax tables' k t c :
  sys_cap_revoke tables tid a1 = (rax, Some tables') -> tables' !! k = Some t -> contents t c ->
  exists t0, tables !! k = Some t0 /\ contents t0 c.
Proof.
  unfold sys_cap_revoke, cap_cascade_revoke. intros Hr Hk Hc.
  destruct (tables !! tid) as [from|] eqn:Hf; [|naive_solver].
  destruct (CapabilityTable_get from a1) as [cap|e] eqn:Hg; cbn [result_bind] in Hr.
  - destruct (negb _); [naive_solver|]. injection Hr as _ Hr.
    by apply (cascade_contents (S (total_caps tables)) tables tid a1 tables' k t c Hr).
  - destruct e; naive_solver.
Qed.

Definition tables_backed (roots : list (CapKind * Z * Z)) (tables : Tables) : Prop :=
  forall tid t c, tables !! tid = Some t -> contents t c -> backed roots c.

Lemma tables_backed_update roots tables tid t' :
  tables_backed roots tables -> (forall c, contents t' c -> backed roots c) ->
  tables_backed roots (<[tid := t']> tables).
Proof.
  intros Hok Ht' k t c [[<- <-]|[_ ?]]%lookup_insert_Some; [by apply Ht'|by eapply Hok].
Qed.

Lemma create_root_contents n t kind rights object t' h n' c :
  create_root_cap n t kind rights object = (t', h, n') -> contents t' c ->
  c = mkCap n kind rights object None [] \/ contents t c.
Proof.
  unfold create_root_cap. cbn [alloc_cap_id]. intros E Hc. apply contents_insert.
  by destruct (CapabilityTable_insert _ _); simplify_eq.
Qed.

Lemma cap_inherit_contents n from h to r to' n' c :
  cap_inherit n from h to = (r, to', n') -> contents to' c ->
  contents to c \/
  exists src, contents from src /\ cap_kind c = cap_kind src /\
    cap_rights c = cap_rights src /\ cap_object c = cap_object src.
Proof.
  unfold cap_inherit. destruct (CapabilityTable_get from h) as [src|] eqn:Eg.
  2:{ intros ?. simplify_eq. by left. }
  cbn [alloc_cap_id]. set (d := mkCap _ _ _ _ _ _). intros E Hc.
  assert (contents (CapabilityTable_insert to d).1 c) as [->|?]%contents_insert; [|right|by left].
  { by destruct (CapabilityTable_insert to d); simplify_eq. }
  exists src. split; [by eapply contents_get|done].
Qed.

(** C2. Authority is never amplified: in every state the kernel can reach
    through spawning, granting, inheriting, revoking, IPC transfer and task
    exit, every capability of every task, and every capability in transit,
    names the kind and object of a root capability the kernel created and
    carries a subset of that root's rights. *)
Theorem authority_confined roots s :
  cap_reach roots s ->
  tables_backed roots (cs_tables s) /\ (forall c, c ∈ cs_in_flight s -> backed roots c).
Proof.
  induction 1 as [|roots s tid ? [IHt IHf] Hnone
    |roots s tid t kind rights object t' h n' ? [IHt IHf] Hl Hc
    |roots s tid a1 a2 a3 rax tables' n' ? [IHt IHf] Hg
    |roots s parent from handle child to r to' n' ? [IHt IHf] Hp Hch Hi
    |roots s tid a1 rax tables' ? [IHt IHf] Hr
    |roots s tid t h c t' ? [IHt IHf] Hl Htk
    |roots s tid t c rest ? [IHt IHf] Hl Hperm
    |roots s c rest ? [IHt IHf] Hperm
    |roots s tid ? [IHt IHf]]; split; cbn [cs_tables cs_in_flight] in *; try done;
    try (apply tables_backed_update; [done|]).
  - set_solver.
  - intros c (sl & Hin & _). set_solver.
  - apply tables_backed_update; [intros ???; by eauto using backed_cons|].
    intros c Hin. apply (create_root_contents _ _ _ _ _ _ _ _ _ Hc) in Hin as [->|?].
    + exists rights. split; [left|]. unfold rights_has. cbn. by rewrite Z.land_diag, Z.eqb_refl.
    + by eapply backed_cons, IHt.
  - intros c ?. by apply backed_cons, IHf.
  - exact (sys_cap_grant_contents _ _ _ _ _ _ _ _ _ _ Hg IHt).
  - intros c Hin. apply (cap_inherit_contents _ _ _ _ _ _ _ _ Hi) in Hin
      as [?|(src & Hsrc & Hk & Hri & Ho)]; [by eapply IHt|].
    apply (IHt _ _ _ Hp) in Hsrc. unfold backed in *. by rewrite Hk, Hri, Ho.
  - intros k t c Hk Hin. destruct (sys_cap_revoke_contents _ _ _ _ _ _ _ _ Hr Hk Hin)
      as (t0 & ? & ?). by eapply IHt.
  - apply CapabilityTable_take_Ok in Htk as [_ ->].
    intros c2 [?|?]%contents_update; [done|by eapply IHt].
  - apply CapabilityTable_take_Ok in Htk as [Hg _]. intros c2 [->|?]%elem_of_cons; [|by apply IHf].
    eapply IHt; [done|]. by eapply contents_get.
  - intros c2 [->|?]%contents_insert; [|by eapply IHt]. apply IHf. rewrite Hperm. left.
  - intros c2 ?. apply IHf. rewrite Hperm. by right.
  - intros c2 ?. apply IHf. rewrite Hperm. by right.
  - intros k t c [_ ?]%lookup_delete_Some ?. by eapply IHt.
Qed.

(** The demo system, after its first grant, is reachable. *)
Lemma authority_confined_witness :
  tables_backed [(KMemory, RIGHTS_ALL, 0)] demo_tables1.
Proof.
  refine (proj1 (authority_confined [(KMemory, RIGHTS_ALL, 0)] (mkCapSys demo_tables1 3 []) _)).
  refine (reach_grant _ (mkCapSys demo_tables0 2 []) 1 0 2 RIGHTS_ALL 0 demo_tables1 3 _ _);
    [|vm_compute; reflexivity].
  replace demo_tables0 with (<[1 := demo_root_table]> (<[1 := []]> (<[2 := []]> (<[3 := []]> ∅)))
    : Tables) by (vm_compute; reflexivity).
  refine (reach_root [] (mkCapSys (<[1 := []]> (<[2 := []]> (<[3 := []]> ∅))) 1 []) 1 []
            KMemory RIGHTS_ALL 0 demo_root_table 0 2 _ _ _);
    [|vm_compute; reflexivity|vm_compute; reflexivity].
  refine (reach_spawn [] (mkCapSys (<[2 := []]> (<[3 := []]> ∅)) 1 []) 1 _ _);
    [|vm_compute; reflexivity].
  refine (reach_spawn [] (mkCapSys (<[3 := []]> ∅) 1 []) 2 _ _); [|vm_compute; reflexivity].
  refine (reach_spawn [] (mkCapSys ∅ 1 []) 3 _ _); [apply reach_boot|vm_compute; reflexivity].
Defined.

(** ** Granting *)

(** A successful [SYS_CAP_GRANT] returns a handle that resolves, in the
    target task only, to a new capability for the same object with the
    masked rights and a fresh id, records that handle as a child of the
    granted capability, and changes nothing else. *)
Theorem sys_cap_grant_effect tables n cur target h mask from to cap :
  cur <> target -> tables !! cur = Some from -> tables !! target = Some to ->
  table_wf to -> has_room to ->
  CapabilityTable_get from h = Ok cap -> rights_has (cap_rights cap) GRANT = true ->
  exists nh tables', sys_cap_grant tables n cur h target mask = (nh, tables', wrap 64 (n + 1)) /\
    cap_lookup tables' (target, nh) =
      Some (mkCap n (cap_kind cap) (Z.land (cap_rights cap) (wrap 8 mask)) (cap_object cap)
                  (Some (cap_id cap)) []) /\
    cap_lookup tables (target, nh) = None /\
    cap_lookup tables' (cur, h) = Some (push_child target nh cap) /\
    (forall y c, y.1 <> cur -> cap_lookup tables y = Some c -> cap_lookup tables' y = Some c) /\
    (forall h', handle_index h' <> handle_index h ->
       cap_lookup tables' (cur, h') = cap_lookup tables (cur, h')).
Proof.
  intros Hne Hf Ht Hwf Hroom Hg Hgr. unfold sys_cap_grant, cap_grant.
  rewrite Hf, Ht, Hg. cbn [is_ok negb]. apply Z.eqb_neq in Hne as Hne'. rewrite Hne', Hgr.
  cbn [negb alloc_cap_id]. set (d := mkCap _ _ _ _ _ _).
  destruct (CapabilityTable_insert to d) as [to' nh] eqn:Ei.
  destruct (slots_insert_spec _ _ _ _ Hwf Hroom Ei) as (_ & _ & Hat & Hold & Hoth).
  rewrite (CapabilityTable_get_mut_get _ _ _ Hg). apply CapabilityTable_get_Ok in Hg as Hslot.
  do 2 eexists. split; [reflexivity|]. repeat split.
  - apply cap_lookup_Some. cbn. rewrite lookup_insert_ne, lookup_insert_eq by done. eauto.
  - destruct (cap_lookup tables (target, nh)) as [c|] eqn:E; [|done].
    apply cap_lookup_Some in E as (t & Ht' & E). cbn in *. rewrite Ht in Ht'. simplify_eq.
    apply Hold in E as [? _]. done.
  - apply cap_lookup_Some. cbn. rewrite lookup_insert_eq. eexists. split; [done|].
    by eapply list_lookup_insert_eq, lookup_lt_Some.
  - intros [k h'] c Hk (t & Ht' & E)%cap_lookup_Some. apply cap_lookup_Some. cbn in *.
    rewrite lookup_insert_ne by done. destruct (decide (k = target)) as [->|].
    + rewrite lookup_insert_eq. exists to'. split; [done|]. rewrite Ht in Ht'. simplify_eq.
      rewrite Hoth; [done|]. intros Heq. rewrite Heq in E. apply Hold in E as [? _]. done.
    + rewrite lookup_insert_ne by done. eauto.
  - intros h' Hh. unfold cap_lookup. cbn. rewrite lookup_insert_eq, Hf.
    unfold CapabilityTable_get. by rewrite list_lookup_insert_ne.
Qed.

Lemma sys_cap_grant_effect_witness :
  cap_lookup (sys_cap_grant demo_tables0 2 1 0 2 READ).1.2 (2, 0)
    = Some (mkCap 2 KMemory READ 0 (Some 1) []).
Proof.
  destruct (sys_cap_grant_effect demo_tables0 2 1 2 0 READ demo_root_table []
    (mkCap 1 KMemory RIGHTS_ALL 0 None [])) as (nh & t' & Hs & Hl & _).
  - discriminate.
  - reflexivity.
  - reflexivity.
  - split; [vm_compute; discriminate|apply Forall_nil_2].
  - left. reflexivity.
  - vm_compute. reflexivity.
  - reflexivity.
  - assert (nh = 0) as Hnh by (vm_compute in Hs; congruence).
    subst nh. rewrite Hs. exact Hl.
Defined.

(** A failing [SYS_CAP_GRANT] reports the documented error, in the
    documented priority, and leaves every table as it was. *)
Theorem sys_cap_grant_errors tables n cur target h mask :
  let '(rax, tables', _) := sys_cap_grant tables n cur h target mask in
  match cap_lookup tables (cur, h) with
  | None => rax = ENOCAP /\ tables' = tables
  | Some cap =>
      if bool_decide (tables !! target = None \/ target = cur)
      then rax = EINVAL /\ tables' = tables
      else rights_has (cap_rights cap) GRANT = false -> rax = ENOPERM /\ tables' = tables
  end.
Proof.
  unfold sys_cap_grant, cap_lookup. cbn.
  destruct (tables !! cur) as [from|] eqn:Hf; [|done].
  destruct (CapabilityTable_get from h) as [cap|] eqn:Hg; [|done]. cbn [is_ok negb].
  destruct (tables !! target) as [to|] eqn:Ht.
  2:{ rewrite bool_decide_eq_true_2; [done|by left]. }
  destruct (Z.eqb_spec cur target) as [->|Hne].
  { rewrite bool_decide_eq_true_2; [done|by right]. }
  rewrite bool_decide_eq_false_2 by naive_solver.
  destruct (cap_grant n from h target to (wrap 8 mask)) as [[[r f'] t'] n'] eqn:E.
  unfold cap_grant in E. rewrite Hg in E.
  destruct (rights_has (cap_rights cap) GRANT) eqn:Hgr; cbn [negb] in E.
  - by destruct r as [|[]].
  - simplify_eq. intros _. split; [done|].
    by rewrite (insert_id tables target _ Ht), (insert_id tables cur _ Hf).
Qed.

(** ** What cascading revocation does not reach *)

(** Task 2, holding a capability granted by task 1, spawns task 3 and lets it
    inherit the capability. *)
Definition demo_inherited : Tables :=
  match demo_tables1 !! 2 with
  | Some t2 => <[3 := (cap_inherit 3 t2 0 []).1.2]> demo_tables1
  | None => demo_tables1
  end.

(** Task 2 sends the capability to task 3 over IPC instead. *)
Definition demo_moved : Tables :=
  match demo_tables1 !! 2 with
  | Some t2 =>
      match CapabilityTable_take t2 0 with
      | Ok (c, t2') =>
          <[3 := (CapabilityTable_insert [] c).1]> (<[2 := t2']> demo_tables1)
      | Err _ => demo_tables1
      end
  | None => demo_tables1
  end.

(** Revocation is not complete: a capability that reached a task by exec
    inheritance or by an IPC transfer is derived from task 1's root (its
    [parent_id] says so) but is not in any [children] list, so revoking the
    root leaves it usable. *)
Theorem revocation_misses_copies :
  (exists c tables', cap_lookup demo_inherited (3, 0) = Some c /\
     cap_parent_id c = Some (cap_id demo_root) /\
     sys_cap_revoke demo_inherited 1 0 = (0, Some tables') /\
     cap_lookup tables' (2, 0) = None /\ cap_lookup tables' (3, 0) = Some c) /\
  (exists c tables', cap_lookup demo_moved (3, 0) = Some c /\
     cap_parent_id c = Some (cap_id demo_root) /\
     sys_cap_revoke demo_moved 1 0 = (0, Some tables') /\
     cap_lookup tables' (1, 0) = None /\ cap_lookup tables' (3, 0) = Some c).
Proof.
  split.
  - exists (mkCap 3 KMemory RIGHTS_ALL 0 (Some 1) []).
    exists (default ∅ (sys_cap_revoke demo_inherited 1 0).2). repeat split; vm_compute; reflexivity.
  - exists (mkCap 2 KMemory RIGHTS_ALL 0 (Some 1) []).
    exists (default ∅ (sys_cap_revoke demo_moved 1 0).2). repeat split; vm_compute; reflexivity.
Qed.

(** ** Kernel objects *)

Lemma KoTable_create_spec t obj t' r :
  table_wf t -> KoTable_create t obj = (Ok r, t') ->
  table_wf t' /\ t' !! handle_index r = Some (mkSlot (handle_generation r) (Some obj)) /\
  (forall s, t !! handle_index r = Some s -> slot_content s = None /\
     handle_generation r = wrap 32 (slot_generation s + 1)) /\
  (forall j, j <> handle_index r -> t' !! j = t !! j).
Proof.
  intros Hwf Hc. unfold KoTable_create in Hc.
  assert (has_room t) as Hroom.
  { destruct (reuse_vacant t 0 obj) as [[t1 r1]|] eqn:E.
    - right. apply reuse_vacant_Some in E as (j & s & Hj & Hs & _).
      apply Exists_exists. exists s. split; [apply list_elem_of_lookup; eauto|done].
    - destruct (Z.ltb_spec U32_MAX (Z.of_nat (length t))) as [|Hle]; [done|].
      left. change U32_MAX with (2 ^ 32 - 1) in Hle. lia. }
  destruct (slots_insert_spec t obj t' r Hwf Hroom) as (_ & ? & ? & ? & ?); [|done].
  destruct (reuse_vacant t 0 obj) as [[t1 r1]|]; [by simplify_eq|].
  destruct (U32_MAX <? Z.of_nat (length t)); by simplify_eq.
Qed.

(** The life of a kernel object: a reference resolves from [create] until
    [destroy], not afterwards, and not even when the next object reuses the
    slot, whose reference is different. *)
Theorem KoTable_lifecycle t obj t1 r :
  table_wf t -> KoTable_create t obj = (Ok r, t1) ->
  KoTable_get t1 r = Some obj /\
  exists t2, KoTable_destroy t1 r = Ok t2 /\ KoTable_get t2 r = None /\
    forall obj' t3 r', KoTable_create t2 obj' = (Ok r', t3) ->
      KoTable_get t3 r = None /\ KoTable_get t3 r' = Some obj' /\ r <> r'.
Proof.
  intros Hwf Hc. destruct (KoTable_create_spec _ _ _ _ Hwf Hc) as (Hwf1 & Hat & _).
  unfold KoTable_get, KoTable_destroy. rewrite Hat. cbn [slot_generation slot_content].
  rewrite Z.eqb_refl. cbn [negb]. split; [done|]. eexists. split; [done|].
  assert (in_u 32 (handle_generation r)) as Hu by (apply wrap_range; lia).
  assert (handle_index r < length t1)%nat as Hlt by by eapply lookup_lt_Some.
  rewrite list_lookup_insert_eq by done. cbn [slot_generation slot_content].
  rewrite Z.eqb_refl. split; [done|]. intros obj' t3 r' Hc'.
  destruct (KoTable_create_spec _ _ _ _ (table_wf_insert _ _ _ None Hwf1 Hu) Hc')
    as (_ & Hat' & Hold & Hoth). rewrite Hat'. cbn [slot_generation slot_content]. rewrite Z.eqb_refl.
  destruct (decide (handle_index r = handle_index r')) as [Heq|Hne].
  - rewrite Heq, Hat'. cbn [slot_generation].
    destruct (Hold (mkSlot (handle_generation r) None)) as [_ Hg'].
    { by rewrite <- Heq, list_lookup_insert_eq. }
    cbn [slot_generation] in Hg'.
    assert (handle_generation r' <> handle_generation r) as Hgne.
    { rewrite Hg'. unfold wrap, in_u in *. intros E.
      destruct (decide (handle_generation r + 1 = 2 ^ 32)) as [E1|].
      - rewrite E1, Z.mod_same in E by lia. lia.
      - rewrite Z.mod_small in E by lia. lia. }
    split; [|split; [done|by intros ->]].
    by apply Z.eqb_neq in Hgne as ->.
  - rewrite Hoth, list_lookup_insert_eq by done. cbn [slot_generation slot_content].
    rewrite Z.eqb_refl. split; [done|]. split; [done|by intros ->].
Qed.

Lemma KoTable_lifecycle_witness :
  KoTable_get (KoTable_create [] KoRollback).2 0 = Some KoRollback.
Proof.
  apply (KoTable_lifecycle [] KoRollback [mkSlot 0 (Some KoRollback)] 0).
  - split; [vm_compute; discriminate|apply Forall_nil_2].
  - vm_compute. reflexivity.
Defined.
