(* ===== verification/Task.v ===== *)
(** * Tasks and the scheduler

    Model of [kernel/src/task.rs]: the task list and its round-robin,
    priority scheduler, blocking and waking, the sleep queue, the wait table,
    the retained exit records and the per-task list of user mappings.

    The scheduler state is what the functions of the file read and write.
    [switch_context] itself is the boundary of the model: an operation that
    ends in it returns the state in which the next task starts to run.  What
    the operations do to other parts of the machine (page tables, CR3, words
    written to a fresh stack) is the list of [effect]s they return, in order. *)
From S2P Require Import Prelude Abi Cap.
Local Open Scope Z_scope.

(** ** Data *)

Inductive TaskState : Type := Running | Ready | Blocked | Dead.

#[export] Instance TaskState_eq_dec : EqDecision TaskState.
Proof. solve_decision. Defined.

Definition state_eqb (a b : TaskState) : bool := bool_decide (a = b).

Definition KERNEL_STACK_SIZE : Z := 64 * 1024.
Definition STACK_CANARY : Z := 0x5AFEC0DEDEADBEEF.
Definition PAGE : Z := 4096.

(** [t_stack] is the address and length of the [Vec] behind the stack. *)
Record Task : Type := mkTask {
  t_id : Z;
  t_parent : Z;
  t_state : TaskState;
  t_rsp : Z;
  t_priority : Z;
  t_name : list Z;
  t_cap_table : CapTable;
  t_stack : Z * Z;
  t_stack_top : Z;
  t_guard_page : option (Z * Z);
  t_entry_point : option Z;
  t_user_stack_top : option Z;
  t_page_table : option Z;
  t_vma_list : list (Z * Z);
  t_brk : Z;
  t_uid : Z;
  t_gid : Z
}.

Definition with_state (st : TaskState) (t : Task) : Task :=
  mkTask (t_id t) (t_parent t) st (t_rsp t) (t_priority t) (t_name t) (t_cap_table t)
         (t_stack t) (t_stack_top t) (t_guard_page t) (t_entry_point t) (t_user_stack_top t)
         (t_page_table t) (t_vma_list t) (t_brk t) (t_uid t) (t_gid t).

Definition with_priority (p : Z) (t : Task) : Task :=
  mkTask (t_id t) (t_parent t) (t_state t) (t_rsp t) p (t_name t) (t_cap_table t)
         (t_stack t) (t_stack_top t) (t_guard_page t) (t_entry_point t) (t_user_stack_top t)
         (t_page_table t) (t_vma_list t) (t_brk t) (t_uid t) (t_gid t).

Definition with_vma_list (v : list (Z * Z)) (t : Task) : Task :=
  mkTask (t_id t) (t_parent t) (t_state t) (t_rsp t) (t_priority t) (t_name t) (t_cap_table t)
         (t_stack t) (t_stack_top t) (t_guard_page t) (t_entry_point t) (t_user_stack_top t)
         (t_page_table t) v (t_brk t) (t_uid t) (t_gid t).

Definition with_cap_table (c : CapTable) (t : Task) : Task :=
  mkTask (t_id t) (t_parent t) (t_state t) (t_rsp t) (t_priority t) (t_name t) c
         (t_stack t) (t_stack_top t) (t_guard_page t) (t_entry_point t) (t_user_stack_top t)
         (t_page_table t) (t_vma_list t) (t_brk t) (t_uid t) (t_gid t).

(** [make_name]: at most 15 bytes, NUL padded to 16. *)
Definition make_name (s : list Z) : list Z :=
  let bytes := take 15 s in bytes ++ replicate (16 - length bytes) 0.

Record Scheduler : Type := mkSched {
  sc_tasks : list Task;
  sc_current : nat;
  sc_next_id : Z
}.

Record ExitRecord : Type := mkExit {
  er_child : Z;
  er_spawner : Z;
  er_status : Z
}.

Definition MAX_SLEEPERS : nat := 64.
Definition MAX_WAITERS : nat := 32.

(** The statics of the file. *)
Record TaskSys : Type := mkTaskSys {
  ts_sched : Scheduler;
  ts_sleep_queue : list (option (Z * Z));
  ts_waiters : list (option (Z * Z));
  ts_exit_records : list ExitRecord
}.

(** What an operation does outside the scheduler's own state. *)
Inductive effect : Type :=
| EFreePageTable (pml4 : Z)
| EMapGuard (va phys : Z)
| EUnmapPage (va : Z)
| EWriteWord (addr value : Z)
| ESwitchCr3 (page_table : option Z) (stack_top : Z).

(** How an operation ends: it returns, the CPU halts for good, or it panics. *)
Inductive outcome (A : Type) : Type :=
| Done (a : A)
| Halted
| Panicked.
Arguments Done {A} a.
Arguments Halted {A}.
Arguments Panicked {A}.

(** ** Exit records *)

Definition record_exit (recs : list ExitRecord) (child spawner status : Z) : list ExitRecord :=
  match position (fun r => er_child r =? child) recs with
  | Some i => alter (fun r => mkExit (er_child r) spawner status) i recs
  | None => recs ++ [mkExit child spawner status]
  end.

Definition consume_exit (recs : list ExitRecord) (child : Z) : option Z * list ExitRecord :=
  match position (fun r => er_child r =? child) recs with
  | None => (None, recs)
  | Some i => (er_status <$> recs !! i, swap_remove i recs)
  end.

Definition reap_children_of (recs : list ExitRecord) (spawner : Z) : list ExitRecord :=
  List.filter (fun r => negb (er_spawner r =? spawner)) recs.

(** ** Scheduling *)

Fixpoint scan_ready (tasks : list Task) (priority : Z) (i left : nat) : option nat :=
  match left with
  | O => None
  | S left' =>
      match tasks !! i with
      | Some t =>
          if state_eqb (t_state t) Ready && (t_priority t =? priority) then Some i
          else scan_ready tasks priority ((i + 1) mod length tasks)%nat left'
      | None => None
      end
  end.

(** The loop over the priorities, high to low. *)
Fixpoint find_by_priority (tasks : list Task) (start : nat) (priorities : list Z) : option nat :=
  match priorities with
  | [] => None
  | p :: ps =>
      match scan_ready tasks p (start mod length tasks)%nat (length tasks) with
      | Some i => Some i
      | None => find_by_priority tasks start ps
      end
  end.

Definition find_next_ready (tasks : list Task) (start_idx : nat) : option nat :=
  match tasks with
  | [] => None
  | _ => find_by_priority tasks start_idx [2; 1; 0]
  end.

(** ** Reaping *)

Section with_stack_memory.

(** The words of kernel memory, for the canary checks. *)
Variable read_word : Z -> Z.

Definition check_stack_canary (t : Task) : bool :=
  match t_guard_page t with
  | Some (guard_va, _) => read_word (guard_va + 4096) =? STACK_CANARY
  | None => true
  end.

Definition reap_effects (t : Task) : list effect :=
  match t_page_table t with Some pml4 => [EFreePageTable pml4] | None => [] end ++
  match t_guard_page t with Some (va, phys) => [EMapGuard va phys] | None => [] end.

(** The [while i < len] loop; [None] is the canary panic.  Each round either
    removes the task at [i] or moves past it, so [length tasks] rounds do. *)
Fixpoint sweep_loop (fuel i : nat) (tasks : list Task) (current : nat) (effs : list effect)
  : option (list Task * nat * list effect) :=
  match fuel with
  | O => Some (tasks, current, effs)
  | S fuel' =>
      match tasks !! i with
      | None => Some (tasks, current, effs)
      | Some t =>
          if state_eqb (t_state t) Dead then
            if check_stack_canary t then
              sweep_loop fuel' i (delete i tasks)
                (if (i <? current)%nat then (current - 1)%nat else current)
                (effs ++ reap_effects t)
            else None
          else sweep_loop fuel' (S i) tasks current effs
      end
  end.

Definition sweep_dead (s : Scheduler) : option (Scheduler * list effect) :=
  match sweep_loop (length (sc_tasks s)) 0 (sc_tasks s) (sc_current s) [] with
  | None => None
  | Some (tasks, current, effs) => Some (mkSched tasks current (sc_next_id s), effs)
  end.

(** ** Switching *)

Definition set_state (i : nat) (st : TaskState) (tasks : list Task) : list Task :=
  alter (with_state st) i tasks.

(** The incoming half of every switch: [next] becomes the running task. *)
Definition switch_to (tasks : list Task) (next : nat) (next_id : Z) (effs : list effect)
  : outcome (Scheduler * list effect) :=
  match tasks !! next with
  | None => Panicked
  | Some t =>
      Done (mkSched (set_state next Running tasks) next next_id,
            effs ++ [ESwitchCr3 (t_page_table t) (t_stack_top t)])
  end.

Definition yield_task (s : Scheduler) : outcome (Scheduler * list effect) :=
  match sc_tasks s !! sc_current s with
  | None => Panicked
  | Some cur =>
      if negb (check_stack_canary cur) then Panicked
      else
        match sweep_dead s with
        | None => Panicked
        | Some (s1, effs) =>
            let n := length (sc_tasks s1) in
            let current := sc_current s1 in
            if (n <=? 1)%nat then Done (s1, effs)
            else
              match find_next_ready (sc_tasks s1) ((current + 1) mod n)%nat with
              | None => Done (s1, effs)
              | Some next =>
                  if (next =? current)%nat then Done (s1, effs)
                  else switch_to (set_state current Ready (sc_tasks s1)) next (sc_next_id s1) effs
              end
        end
  end.

Definition block_and_yield (s : Scheduler) : outcome (Scheduler * list effect) :=
  match sc_tasks s !! sc_current s with
  | None => Panicked
  | Some cur =>
      if negb (check_stack_canary cur) then Panicked
      else
        match sweep_dead s with
        | None => Panicked
        | Some (s1, effs) =>
            let current := sc_current s1 in
            let n := length (sc_tasks s1) in
            let tasks := set_state current Blocked (sc_tasks s1) in
            match find_next_ready tasks ((current + 1) mod n)%nat with
            | None => Halted
            | Some next => switch_to tasks next (sc_next_id s1) effs
            end
        end
  end.

(** ** Waking *)

(** [tasks.iter_mut().find(|t| t.id == id)] followed by Blocked -> Ready. *)
Definition wake_in (tasks : list Task) (id : Z) : list Task :=
  match position (fun t => t_id t =? id) tasks with
  | None => tasks
  | Some i =>
      alter (fun t => if state_eqb (t_state t) Blocked then with_state Ready t else t) i tasks
  end.

Definition wake_task (s : Scheduler) (id : Z) : Scheduler :=
  mkSched (wake_in (sc_tasks s) id) (sc_current s) (sc_next_id s).

Definition block_task (s : Scheduler) (id : Z) : Scheduler :=
  match position (fun t => t_id t =? id) (sc_tasks s) with
  | None => s
  | Some i =>
      mkSched (alter (fun t => if state_eqb (t_state t) Ready then with_state Blocked t else t)
                 i (sc_tasks s)) (sc_current s) (sc_next_id s)
  end.

(** The loop over [TASK_WAITERS] shared by [task_exit] and [kill_task]. *)
Fixpoint wake_waiters (waiters : list (option (Z * Z))) (target : Z) (tasks : list Task)
  : list (option (Z * Z)) * list Task :=
  match waiters with
  | [] => ([], tasks)
  | Some (waiter_id, target_id) :: ws =>
      if target_id =? target then
        let '(ws', tasks') := wake_waiters ws target (wake_in tasks waiter_id) in
        (None :: ws', tasks')
      else
        let '(ws', tasks') := wake_waiters ws target tasks in
        (Some (waiter_id, target_id) :: ws', tasks')
  | None :: ws =>
      let '(ws', tasks') := wake_waiters ws target tasks in (None :: ws', tasks')
  end.

(** ** Exit and kill *)

Definition task_exit (sys : TaskSys) (status : Z) : outcome (TaskSys * list effect) :=
  let s := ts_sched sys in
  let current := sc_current s in
  match sc_tasks s !! current with
  | None => Panicked
  | Some cur =>
      if negb (check_stack_canary cur) then Panicked
      else
        let tasks1 := set_state current Dead (sc_tasks s) in
        let recs := reap_children_of
                      (record_exit (ts_exit_records sys) (t_id cur) (t_parent cur) status)
                      (t_id cur) in
        let '(waiters', tasks2) := wake_waiters (ts_waiters sys) (t_id cur) tasks1 in
        let n := length tasks2 in
        match find_next_ready tasks2 ((current + 1) mod n)%nat with
        | None => Halted
        | Some next =>
            match switch_to tasks2 next (sc_next_id s) [] with
            | Done (s', effs) =>
                Done (mkTaskSys s' (ts_sleep_queue sys) waiters' recs, effs)
            | Halted => Halted
            | Panicked => Panicked
            end
        end
  end.

Definition kill_task (sys : TaskSys) (id : Z) : outcome (bool * TaskSys) :=
  if id =? 0 then Done (false, sys)
  else
    let s := ts_sched sys in
    match sc_tasks s !! sc_current s with
    | None => Panicked
    | Some cur =>
        if id =? t_id cur then Done (false, sys)
        else
          match position (fun t => (t_id t =? id) && negb (state_eqb (t_state t) Dead))
                         (sc_tasks s) with
          | None => Done (false, sys)
          | Some i =>
              let victim_parent := from_option t_parent 0 (sc_tasks s !! i) in
              let tasks1 := set_state i Dead (sc_tasks s) in
              let recs := reap_children_of
                (record_exit (ts_exit_records sys) id victim_parent
                   (exit_abnormal EXIT_REASON_KILLED)) id in
              let '(waiters', tasks2) := wake_waiters (ts_waiters sys) id tasks1 in
              Done (true, mkTaskSys (mkSched tasks2 (sc_current s) (sc_next_id s))
                            (ts_sleep_queue sys) waiters' recs)
          end
    end.

(** ** Status and waiting *)

Definition task_exists (s : Scheduler) (id : Z) : bool :=
  existsb (fun t => t_id t =? id) (sc_tasks s).

Definition task_status_raw (s : Scheduler) (id : Z) : Z :=
  match List.find (fun t => t_id t =? id) (sc_tasks s) with
  | None => 0
  | Some t => match t_state t with Dead => 0 | Running => 1 | Ready => 2 | Blocked => 3 end
  end.

(** First empty slot of a fixed table gets the entry; a full table keeps
    what it has (the loop simply ends). *)
Fixpoint fill_first {A} (slots : list (option A)) (x : A) : list (option A) :=
  match slots with
  | [] => []
  | None :: rest => Some x :: rest
  | Some y :: rest => Some y :: fill_first rest x
  end.

(** [wait_for_task] up to the point where it blocks: [inl] when the target was
    already gone (no blocking), [inr] when the caller was switched out. *)
Definition wait_for_task_enter (sys : TaskSys) (target_id : Z)
  : outcome (TaskSys + TaskSys * list effect) :=
  let s := ts_sched sys in
  if task_status_raw s target_id =? 0 then Done (inl sys)
  else
    match sc_tasks s !! sc_current s with
    | None => Panicked
    | Some cur =>
        let waiters' := fill_first (ts_waiters sys) (t_id cur, target_id) in
        match block_and_yield s with
        | Done (s', effs) =>
            Done (inr (mkTaskSys s' (ts_sleep_queue sys) waiters' (ts_exit_records sys), effs))
        | Halted => Halted
        | Panicked => Panicked
        end
    end.

(** [wait_for_task] once it runs again: read and drop the record. *)
Definition wait_for_task_resume (sys : TaskSys) (target_id : Z) : Z * TaskSys :=
  let '(r, recs) := consume_exit (ts_exit_records sys) target_id in
  (from_option id ENOENT r,
   mkTaskSys (ts_sched sys) (ts_sleep_queue sys) (ts_waiters sys) recs).

(** ** Sleeping *)

Definition sleep_until (sys : TaskSys) (wake_tick : Z) : outcome (TaskSys * list effect) :=
  let s := ts_sched sys in
  match sc_tasks s !! sc_current s with
  | None => Panicked
  | Some cur =>
      let q := fill_first (ts_sleep_queue sys) (t_id cur, wake_tick) in
      match block_and_yield s with
      | Done (s', effs) => Done (mkTaskSys s' q (ts_waiters sys) (ts_exit_records sys), effs)
      | Halted => Halted
      | Panicked => Panicked
      end
  end.

(** The scan of the queue: expired ids in order, with their slots cleared. *)
Fixpoint expire_sleepers (q : list (option (Z * Z))) (current_tick : Z)
  : list Z * list (option (Z * Z)) :=
  match q with
  | [] => ([], [])
  | Some (id, wake_tick) :: rest =>
      let '(ids, rest') := expire_sleepers rest current_tick in
      if wake_tick <=? current_tick then (id :: ids, None :: rest')
      else (ids, Some (id, wake_tick) :: rest')
  | None :: rest => let '(ids, rest') := expire_sleepers rest current_tick in (ids, None :: rest')
  end.

Definition wake_sleepers (sys : TaskSys) (current_tick : Z) : TaskSys :=
  let '(to_wake, q) := expire_sleepers (ts_sleep_queue sys) current_tick in
  mkTaskSys (foldl wake_task (ts_sched sys) to_wake) q (ts_waiters sys) (ts_exit_records sys).

Definition set_task_priority (s : Scheduler) (id priority : Z) : bool * Scheduler :=
  if 2 <? priority then (false, s)
  else
    match position (fun t => (t_id t =? id) && negb (state_eqb (t_state t) Dead)) (sc_tasks s) with
    | Some i =>
        (true, mkSched (alter (with_priority priority) i (sc_tasks s)) (sc_current s) (sc_next_id s))
    | None => (false, s)
    end.

End with_stack_memory.

(** ** Creation *)

(** [(base + PAGE - 1) & !(PAGE - 1)]: the guard page is the first page
    boundary of the stack allocation. *)
Definition guard_va_of (base : Z) : Z := Z.land (base + PAGE - 1) (not_u 64 (PAGE - 1)).
Definition stack_top_of (base : Z) : Z := guard_va_of base + PAGE + KERNEL_STACK_SIZE.
Definition initial_rsp_of (base : Z) : Z := stack_top_of base - 64.
Definition STACK_ALLOC : Z := KERNEL_STACK_SIZE + 2 * PAGE.

(** [init]: the bootstrap task of the running [kmain] thread. *)
Definition kmain_name : list Z := [107; 109; 97; 105; 110].
Definition kthread_name : list Z := [107; 116; 104; 114; 101; 97; 100].

Definition task_init : TaskSys :=
  mkTaskSys
    (mkSched [mkTask 0 0 Running 0 1 (make_name kmain_name) [] (0, 0) 0 None None None None [] 0 0 0]
             0 1)
    (replicate MAX_SLEEPERS None) (replicate MAX_WAITERS None) [].

(** [base] is the address of the new stack [Vec], [query_page] the page-table
    lookup of the VMM. *)
Definition spawn_kernel_task (s : Scheduler) (base : Z) (query_page : Z -> option Z) (entry : Z)
  : outcome (Z * Scheduler * list effect) :=
  let guard_va := guard_va_of base in
  match query_page guard_va with
  | None => Panicked
  | Some guard_phys =>
      match sc_tasks s !! sc_current s with
      | None => Panicked
      | Some cur =>
          let id := sc_next_id s in
          let t := mkTask id (t_id cur) Ready (initial_rsp_of base) 1 (make_name kthread_name) []
                     (base, STACK_ALLOC) (stack_top_of base) (Some (guard_va, guard_phys))
                     None None None [] 0 0 0 in
          Done (id, mkSched (sc_tasks s ++ [t]) (sc_current s) (id + 1),
                [EUnmapPage guard_va; EWriteWord (guard_va + PAGE) STACK_CANARY;
                 EWriteWord (initial_rsp_of base + 48) entry])
      end
  end.

(** The inheritance loop: failing handles are skipped. *)
Fixpoint inherit_all (next_cap_id : Z) (caller : CapTable) (caps : list Z) (to : CapTable)
  : CapTable * Z :=
  match caps with
  | [] => (to, next_cap_id)
  | h :: hs =>
      let '(_, to', n') := cap_inherit next_cap_id caller h to in
      inherit_all n' caller hs to'
  end.

Definition spawn_userspace_task (s : Scheduler) (next_cap_id base : Z) (query_page : Z -> option Z)
    (entry stack_top : Z) (caps : list Z) (trampoline page_table : Z) (name : list Z)
  : outcome (Z * Scheduler * Z * list effect) :=
  let guard_va := guard_va_of base in
  let rsp := initial_rsp_of base in
  match query_page guard_va with
  | None => Panicked
  | Some guard_phys =>
      match sc_tasks s !! sc_current s with
      | None => Panicked
      | Some cur =>
          let id := sc_next_id s in
          let '(cap_table, n') := inherit_all next_cap_id (t_cap_table cur) caps [] in
          let t := mkTask id (t_id cur) Ready rsp 1 (make_name name) cap_table
                     (base, STACK_ALLOC) (stack_top_of base) (Some (guard_va, guard_phys))
                     (Some entry) (Some stack_top) (Some page_table) [] 0
                     (t_uid cur) (t_gid cur) in
          Done (id, mkSched (sc_tasks s ++ [t]) (sc_current s) (id + 1), n',
                [EUnmapPage guard_va; EWriteWord (guard_va + PAGE) STACK_CANARY;
                 EWriteWord rsp 0; EWriteWord (rsp + 8) 0; EWriteWord (rsp + 16) 0;
                 EWriteWord (rsp + 24) 0; EWriteWord (rsp + 32) 0; EWriteWord (rsp + 40) 0;
                 EWriteWord (rsp + 48) trampoline; EWriteWord (rsp + 56) 0])
      end
  end.

(** ** User mappings of the current task *)

Definition vma_insert_list (vmas : list (Z * Z)) (va : Z) : bool * list (Z * Z) :=
  let e := va + PAGE in
  let pos := partition_point (fun r => r.1 <? va) vmas in
  let before_overlaps :=
    match pos with
    | O => false
    | S p => match vmas !! p with Some r => va <? r.2 | None => false end
    end in
  if before_overlaps then (false, vmas)
  else
    let after_overlaps := match vmas !! pos with Some r => r.1 <? e | None => false end in
    if after_overlaps then (false, vmas)
    else (true, take pos vmas ++ (va, e) :: drop pos vmas).

Definition vma_remove_list (vmas : list (Z * Z)) (va : Z) : bool * list (Z * Z) :=
  match binary_search_by (fun r => Z.compare r.1 va) vmas with
  | Ok pos => (true, delete pos vmas)
  | Err _ => (false, vmas)
  end.

Definition on_current_vmas (f : list (Z * Z) -> Z -> bool * list (Z * Z)) (s : Scheduler) (va : Z)
  : option (bool * Scheduler) :=
  match sc_tasks s !! sc_current s with
  | None => None
  | Some cur =>
      let '(ok, vmas) := f (t_vma_list cur) va in
      Some (ok, mkSched (alter (with_vma_list vmas) (sc_current s) (sc_tasks s))
                  (sc_current s) (sc_next_id s))
  end.

Definition vma_insert : Scheduler -> Z -> option (bool * Scheduler) := on_current_vmas vma_insert_list.
Definition vma_remove : Scheduler -> Z -> option (bool * Scheduler) := on_current_vmas vma_remove_list.

(** ** Capability tables of tasks *)

(** [cap_table_ptr]: the first task with that id. *)
Definition cap_table_of (s : Scheduler) (id : Z) : option CapTable :=
  t_cap_table <$> List.find (fun t => t_id t =? id) (sc_tasks s).

Definition set_bootstrap_cap_table (s : Scheduler) (table : CapTable) : option Scheduler :=
  match position (fun t => t_id t =? 0) (sc_tasks s) with
  | Some i =>
      Some (mkSched (alter (with_cap_table table) i (sc_tasks s)) (sc_current s) (sc_next_id s))
  | None => None
  end.

(** [for_each_task]: (index, id, state, kind) of every live task. *)
Definition for_each_task (s : Scheduler) : list (nat * Z * Z * Z) :=
  imap (fun i t =>
          (i, t_id t,
           match t_state t with Running => 1 | Ready => 2 | Blocked => 3 | Dead => 0 end,
           match t_page_table t with Some _ => 1 | None => 0 end))
       (List.filter (fun t => negb (state_eqb (t_state t) Dead)) (sc_tasks s)).

(** [for_each_task_ps]: the same walk with priority and name. *)
Definition for_each_task_ps (s : Scheduler) : list (nat * Z * Z * Z * Z * list Z) :=
  imap (fun i t =>
          (i, t_id t,
           match t_state t with Running => 1 | Ready => 2 | Blocked => 3 | Dead => 0 end,
           match t_page_table t with Some _ => 1 | None => 0 end, t_priority t, t_name t))
       (List.filter (fun t => negb (state_eqb (t_state t) Dead)) (sc_tasks s)).

(** ** Fields of the current task *)

Definition with_ids (brk uid gid : Z) (t : Task) : Task :=
  mkTask (t_id t) (t_parent t) (t_state t) (t_rsp t) (t_priority t) (t_name t) (t_cap_table t)
         (t_stack t) (t_stack_top t) (t_guard_page t) (t_entry_point t) (t_user_stack_top t)
         (t_page_table t) (t_vma_list t) brk uid gid.

Definition on_current (s : Scheduler) (f : Task -> Task) : option Scheduler :=
  match sc_tasks s !! sc_current s with
  | None => None
  | Some _ =>
      Some (mkSched (alter f (sc_current s) (sc_tasks s)) (sc_current s) (sc_next_id s))
  end.

Definition set_current_task_uid (s : Scheduler) (uid : Z) : option Scheduler :=
  on_current s (fun t => with_ids (t_brk t) uid (t_gid t) t).
Definition set_current_task_gid (s : Scheduler) (gid : Z) : option Scheduler :=
  on_current s (fun t => with_ids (t_brk t) (t_uid t) gid t).
Definition set_current_task_brk (s : Scheduler) (addr : Z) : option Scheduler :=
  on_current s (fun t => with_ids addr (t_uid t) (t_gid t) t).

Definition current_task_id (s : Scheduler) : option Z := t_id <$> sc_tasks s !! sc_current s.
Definition current_task_brk (s : Scheduler) : option Z := t_brk <$> sc_tasks s !! sc_current s.

Definition current_entry_and_stack (s : Scheduler) : outcome (Z * Z) :=
  match sc_tasks s !! sc_current s with
  | Some t =>
      match t_entry_point t, t_user_stack_top t with
      | Some entry, Some top => Done (entry, top)
      | _, _ => Panicked
      end
  | None => Panicked
  end.

(** ** Selecting the next task *)

Definition runnable (p : Z) (t : Task) : Prop := t_state t = Ready /\ t_priority t = p.

#[export] Instance runnable_dec p t : Decision (runnable p t).
Proof. unfold runnable. apply _. Defined.

Lemma runnable_test p t :
  state_eqb (t_state t) Ready && (t_priority t =? p) = bool_decide (runnable p t).
Proof.
  unfold state_eqb, runnable. destruct (Z.eqb_spec (t_priority t) p).
  - rewrite andb_true_r. apply bool_decide_ext. tauto.
  - rewrite andb_false_r. symmetry. apply bool_decide_eq_false_2. tauto.
Qed.

Lemma next_mod i n : (i < n)%nat -> ((i + 1) mod n < n)%nat.
Proof. intros. apply Nat.mod_upper_bound. lia. Qed.

(** [k] positions further round the ring. *)
Lemma ring_step i k n : ((((i + 1) mod n) + k) mod n = (i + S k) mod n)%nat.
Proof. rewrite Nat.Div0.add_mod_idemp_l. f_equal. lia. Qed.

Lemma scan_ready_Some tasks p : forall left i j,
  (i < length tasks)%nat -> scan_ready tasks p i left = Some j ->
  exists k t, (k < left)%nat /\ j = ((i + k) mod length tasks)%nat /\ tasks !! j = Some t /\
    runnable p t /\
    forall k' t', (k' < k)%nat -> tasks !! ((i + k') mod length tasks)%nat = Some t' -> ~ runnable p t'.
Proof.
  induction left as [|left IH]; intros i j Hi; cbn [scan_ready]; [done|].
  destruct (lookup_lt_is_Some_2 tasks i Hi) as [t Ht]. rewrite Ht, runnable_test.
  case_bool_decide as Hr.
  - intros [= <-]. exists 0%nat, t. rewrite Nat.add_0_r, Nat.mod_small by done.
    repeat split; try done; [lia|apply Hr|apply Hr|]. intros k' t' Hk'. lia.
  - intros Hs. apply IH in Hs as (k & t' & Hk & -> & Hj & Hrun & Hmin); [|by apply next_mod].
    rewrite ring_step in *. exists (S k), t'. repeat split; try done; [lia|apply Hrun|apply Hrun|].
    intros [|k'] t'' Hk' Hl.
    + rewrite Nat.add_0_r, Nat.mod_small, Ht in Hl by done. by simplify_eq.
    + apply (Hmin k' t''); [lia|]. by rewrite ring_step.
Qed.

Lemma scan_ready_None tasks p : forall left i,
  (i < length tasks)%nat -> scan_ready tasks p i left = None ->
  forall k t, (k < left)%nat -> tasks !! ((i + k) mod length tasks)%nat = Some t -> ~ runnable p t.
Proof.
  induction left as [|left IH]; intros i Hi; cbn [scan_ready]; [lia|].
  destruct (lookup_lt_is_Some_2 tasks i Hi) as [t Ht]. rewrite Ht, runnable_test.
  case_bool_decide as Hr; [done|]. intros Hs [|k] t' Hk Hl.
  - rewrite Nat.add_0_r, Nat.mod_small, Ht in Hl by done. by simplify_eq.
  - eapply (IH _ (next_mod _ _ Hi) Hs k); [lia|]. by rewrite ring_step.
Qed.

(** Every index is met within one turn of the ring. *)
Lemma ring_covers i j n :
  (i < n)%nat -> (j < n)%nat -> exists k, (k < n)%nat /\ ((i + k) mod n = j)%nat.
Proof.
  intros Hi Hj. destruct (decide (i <= j)%nat).
  - exists (j - i)%nat. split; [lia|]. replace (i + (j - i))%nat with j by lia.
    by apply Nat.mod_small.
  - exists (j + n - i)%nat. split; [lia|]. replace (i + (j + n - i))%nat with (j + 1 * n)%nat by lia.
    rewrite Nat.Div0.mod_add. by apply Nat.mod_small.
Qed.

Lemma scan_ready_complete tasks p i :
  (i < length tasks)%nat -> scan_ready tasks p i (length tasks) = None ->
  forall j t, tasks !! j = Some t -> ~ runnable p t.
Proof.
  intros Hi Hs j t Hj. pose proof (lookup_lt_Some _ _ _ Hj) as Hlt.
  destruct (ring_covers i j (length tasks) Hi Hlt) as (k & Hk & Hkj).
  eapply (scan_ready_None _ _ _ _ Hi Hs k); [done|]. by rewrite Hkj.
Qed.

(** [first_from tasks start p j]: [j] holds a ready task of priority [p] and
    is the first such index met going round the list from [start]. *)
Definition first_from (tasks : list Task) (start : nat) (p : Z) (j : nat) : Prop :=
  exists k t, (k < length tasks)%nat /\ j = ((start + k) mod length tasks)%nat /\
    tasks !! j = Some t /\ runnable p t /\
    forall k' t', (k' < k)%nat -> tasks !! ((start + k') mod length tasks)%nat = Some t' ->
      ~ runnable p t'.

Lemma find_by_priority_spec tasks start ps :
  tasks <> [] ->
  match find_by_priority tasks start ps with
  | Some j => exists ps1 p ps2, ps = ps1 ++ p :: ps2 /\ first_from tasks start p j /\
      forall q i t, q ∈ ps1 -> tasks !! i = Some t -> ~ runnable q t
  | None => forall q i t, q ∈ ps -> tasks !! i = Some t -> ~ runnable q t
  end.
Proof.
  intros Hne. assert (start mod length tasks < length tasks)%nat as Hlt.
  { apply Nat.mod_upper_bound. by destruct tasks. }
  induction ps as [|p ps IH]; cbn [find_by_priority]; [set_solver|].
  destruct (scan_ready tasks p _ _) as [j|] eqn:Hs.
  - apply scan_ready_Some in Hs as (k & t & Hk & Hj & Ht & Hr & Hmin); [|done].
    exists [], p, ps. split; [done|]. split; [|set_solver].
    rewrite Nat.Div0.add_mod_idemp_l in Hj. exists k, t. repeat split; try done; try apply Hr.
    intros k' t' Hk' Hl. apply (Hmin k' t' Hk'). by rewrite Nat.Div0.add_mod_idemp_l.
  - assert (forall i t, tasks !! i = Some t -> ~ runnable p t) as Hnone.
    { intros i t. by eapply scan_ready_complete. }
    destruct (find_by_priority tasks start ps) as [j|].
    + destruct IH as (ps1 & q & ps2 & -> & Hf & Hno). exists (p :: ps1), q, ps2.
      split; [done|]. split; [done|]. intros q' i t [->|?]%elem_of_cons; eauto.
    + intros q i t [->|?]%elem_of_cons; eauto.
Qed.

Lemma find_next_ready_by_priority tasks start :
  tasks <> [] -> find_next_ready tasks start = find_by_priority tasks start [2; 1; 0].
Proof. by destruct tasks. Qed.

Lemma find_next_ready_sound tasks start j :
  find_next_ready tasks start = Some j ->
  exists t, tasks !! j = Some t /\ t_state t = Ready.
Proof.
  intros Hf. assert (tasks <> []) as Hne by by destruct tasks.
  pose proof (find_by_priority_spec tasks start [2; 1; 0] Hne) as Hspec.
  rewrite find_next_ready_by_priority in Hf by done. rewrite Hf in Hspec.
  destruct Hspec as (_ & p & _ & _ & (k & t & _ & _ & Ht & [Hr _] & _) & _). eauto.
Qed.

Definition priorities_ok (tasks : list Task) : Prop :=
  Forall (fun t => 0 <= t_priority t <= 2) tasks.

Lemma priorities_listed tasks i t :
  priorities_ok tasks -> tasks !! i = Some t -> t_priority t ∈ [2; 1; 0].
Proof. intros Hp Ht. eapply Forall_lookup_1 in Hp; [|done]. rewrite !elem_of_cons. lia. Qed.

Lemma find_next_ready_complete tasks start :
  priorities_ok tasks -> find_next_ready tasks start = None ->
  forall i t, tasks !! i = Some t -> t_state t <> Ready.
Proof.
  intros Hp E i t Ht Hr. assert (tasks <> []) as Hne by (by intros ->).
  rewrite find_next_ready_by_priority in E by done.
  pose proof (find_by_priority_spec tasks start [2; 1; 0] Hne) as Hspec. rewrite E in Hspec.
  apply (Hspec (t_priority t) i t); [by eapply priorities_listed|done|by split].
Qed.

(** The scheduler picks a ready task of the highest priority present and,
    among those, the first one going round the list from the given index; it
    answers "none" only when no task is ready. *)
Theorem find_next_ready_picks tasks start :
  priorities_ok tasks ->
  match find_next_ready tasks start with
  | Some j => exists t, tasks !! j = Some t /\ t_state t = Ready /\
      first_from tasks start (t_priority t) j /\
      forall i t', tasks !! i = Some t' -> t_state t' = Ready -> t_priority t' <= t_priority t
  | None => forall i t, tasks !! i = Some t -> t_state t <> Ready
  end.
Proof.
  intros Hp. destruct (decide (tasks = [])) as [->|Hne]; [done|].
  pose proof (find_next_ready_complete tasks start Hp) as Hnone.
  pose proof (find_by_priority_spec tasks start [2; 1; 0] Hne) as Hspec.
  rewrite find_next_ready_by_priority in * by done.
  pose proof (fun i t => priorities_listed tasks i t Hp) as Hin.
  destruct (find_by_priority _ _ _) as [j|].
  - destruct Hspec as (ps1 & p & ps2 & Hps & Hf & Hno).
    pose proof Hf as (k & t & _ & _ & Ht & [Hr <-] & _).
    exists t. repeat split; try done. intros i t' Ht' Hr'.
    assert (t_priority t' ∉ ps1) as Hnin.
    { intros Hin'. by apply (Hno _ i t' Hin' Ht'). }
    pose proof (Hin _ _ Ht') as Hin'. rewrite Hps in Hin'.
    destruct ps1 as [|a [|b [|c ps1]]]; injection Hps; intros; subst; set_unfold in Hin';
      set_unfold in Hnin; try lia; destruct ps1; discriminate.
  - by apply Hnone.
Qed.

(** Three tasks: the bootstrap task and two that are ready. *)
Definition demo_task (id priority : Z) (st : TaskState) : Task :=
  mkTask id 0 st 0 priority (make_name []) [] (0, 0) 0 None None None None [] 0 0 0.

Lemma find_next_ready_picks_witness :
  find_next_ready [demo_task 0 1 Running; demo_task 1 1 Ready; demo_task 2 2 Ready] 1 = Some 2%nat /\
  first_from [demo_task 0 1 Running; demo_task 1 1 Ready; demo_task 2 2 Ready] 1 2 2.
Proof.
  split; [reflexivity|].
  destruct (find_next_ready_picks
    [demo_task 0 1 Running; demo_task 1 1 Ready; demo_task 2 2 Ready] 1) as (t & Ht & _ & Hf & _).
  - repeat (apply Forall_cons_2; [cbn; lia|]). apply Forall_nil_2.
  - injection Ht as <-. exact Hf.
Defined.

(** ** Reaping *)

Definition alive (t : Task) : bool := negb (state_eqb (t_state t) Dead).

Lemma alive_true t : alive t = true <-> t_state t <> Dead.
Proof. unfold alive, state_eqb. rewrite negb_true_iff, bool_decide_eq_false. done. Qed.

Lemma state_eqb_alive t : state_eqb (t_state t) Dead = negb (alive t).
Proof. unfold alive. by rewrite negb_involutive. Qed.

Section with_stack_memory.

Variable read_word : Z -> Z.

Lemma sweep_loop_spec fuel : forall i tasks cur effs tasks' cur' effs',
  (length tasks <= i + fuel)%nat ->
  sweep_loop read_word fuel i tasks cur effs = Some (tasks', cur', effs') ->
  tasks' = take i tasks ++ List.filter alive (drop i tasks) /\
  effs' = effs ++ concat (reap_effects <$> List.filter (fun t => negb (alive t)) (drop i tasks)) /\
  (forall t, tasks !! cur = Some t -> t_state t <> Dead -> tasks' !! cur' = Some t).
Proof.
  induction fuel as [|fuel IH]; intros i tasks cur effs tasks' cur' effs' Hf; cbn [sweep_loop].
  { intros [= <- <- <-]. rewrite take_ge, drop_ge by lia. cbn. by rewrite !app_nil_r. }
  destruct (tasks !! i) as [t|] eqn:Hi.
  2:{ apply lookup_ge_None in Hi. intros [= <- <- <-].
      rewrite take_ge, drop_ge by lia. cbn. by rewrite !app_nil_r. }
  pose proof (lookup_lt_Some _ _ _ Hi) as Hlt.
  rewrite (drop_S tasks t i Hi). cbn [List.filter]. rewrite state_eqb_alive.
  destruct (alive t) eqn:Ha; cbn [negb].
  - intros Hs. apply IH in Hs as (-> & -> & Hc); [|lia]. split; [|done].
    rewrite (take_S_r tasks i t Hi), <- app_assoc. done.
  - destruct (check_stack_canary read_word t); [|done]. intros Hs.
    apply IH in Hs as (-> & -> & Hc).
    2:{ rewrite length_delete by done. lia. }
    rewrite delete_take_drop. rewrite take_app_le, take_take, Nat.min_id
      by (rewrite length_take; lia).
    rewrite drop_app_length' by (rewrite length_take; lia). split; [done|].
    split; [cbn; by rewrite <- app_assoc|]. intros t' Hcur Hnd.
    assert (cur <> i) as Hne.
    { intros ->. rewrite Hi in Hcur. simplify_eq. apply alive_true in Hnd. congruence. }
    rewrite delete_take_drop in Hc.
    rewrite take_app_le, take_take, Nat.min_id in Hc by (rewrite length_take; lia).
    rewrite drop_app_length' in Hc by (rewrite length_take; lia).
    apply Hc; [|done]. rewrite <- delete_take_drop.
    destruct (Nat.ltb_spec i cur).
    + rewrite list_lookup_delete_ge by lia. by replace (S (cur - 1)) with cur by lia.
    + by rewrite list_lookup_delete_lt by lia.
Qed.

Lemma sweep_dead_spec s s' effs :
  sweep_dead read_word s = Some (s', effs) ->
  sc_tasks s' = List.filter alive (sc_tasks s) /\ sc_next_id s' = sc_next_id s /\
  effs = concat (reap_effects <$> List.filter (fun t => negb (alive t)) (sc_tasks s)) /\
  (forall t, sc_tasks s !! sc_current s = Some t -> t_state t <> Dead ->
     sc_tasks s' !! sc_current s' = Some t).
Proof.
  unfold sweep_dead. destruct (sweep_loop _ _ _ _ _ _) as [[[ts c] e]|] eqn:E; [|done].
  intros [= <- <-]. apply sweep_loop_spec in E as (-> & -> & Hc); [|lia]. done.
Qed.

(** The sweep never panics when the canaries of the dead tasks are intact. *)
Lemma sweep_loop_total fuel : forall i tasks cur effs,
  Forall (fun t => t_state t = Dead -> check_stack_canary read_word t = true) tasks ->
  exists r, sweep_loop read_word fuel i tasks cur effs = Some r.
Proof.
  induction fuel as [|fuel IH]; intros i tasks cur effs Hok; cbn [sweep_loop]; [eauto|].
  destruct (tasks !! i) as [t|] eqn:Hi; [|eauto].
  destruct (state_eqb (t_state t) Dead) eqn:Hd; [|eauto].
  apply bool_decide_eq_true in Hd.
  rewrite (Forall_lookup_1 _ _ _ _ Hok Hi Hd). apply IH. by apply Forall_delete.
Qed.

(** Reaping removes exactly the dead tasks, keeps the order of the others
    and leaves the running task current; each dead task's page table is
    released and its guard page mapped back exactly once; the sweep panics
    only if a dead task's stack canary was overwritten. *)
Theorem sweep_dead_reaps s cur :
  sc_tasks s !! sc_current s = Some cur -> t_state cur <> Dead ->
  Forall (fun t => t_state t = Dead -> check_stack_canary read_word t = true) (sc_tasks s) ->
  exists s' effs, sweep_dead read_word s = Some (s', effs) /\
    sc_tasks s' = List.filter alive (sc_tasks s) /\
    sc_tasks s' !! sc_current s' = Some cur /\
    effs = concat (reap_effects <$> List.filter (fun t => negb (alive t)) (sc_tasks s)).
Proof.
  intros Hc Hnd Hok. unfold sweep_dead.
  destruct (sweep_loop_total (length (sc_tasks s)) 0 (sc_tasks s) (sc_current s) [] Hok)
    as [[[ts c] e] E]. rewrite E. do 2 eexists. split; [done|].
  apply sweep_loop_spec in E as (-> & -> & Hcur); [|lia]. cbn. eauto.
Qed.

End with_stack_memory.

(** ** The scheduler invariant *)

(** Task lists that agree on everything the invariant reads. *)
Definition same_shape (t t' : Task) : Prop :=
  t_id t' = t_id t /\ t_parent t' = t_parent t /\ t_priority t' = t_priority t /\
  (t_state t' = Running <-> t_state t = Running) /\
  (t_state t = Dead -> t_state t' = Dead).

Record tasks_wf (tasks : list Task) (next_id : Z) : Prop := {
  tw_ids : NoDup (t_id <$> tasks);
  tw_bound : Forall (fun t => t_id t < next_id) tasks;
  tw_prio : priorities_ok tasks
}.

(** Exactly one task is Running, and it is the current one. *)
Record sched_wf (s : Scheduler) : Prop := {
  sw_tasks : tasks_wf (sc_tasks s) (sc_next_id s);
  sw_current : exists t, sc_tasks s !! sc_current s = Some t /\ t_state t = Running;
  sw_unique : forall i t, sc_tasks s !! i = Some t -> t_state t = Running -> i = sc_current s
}.

#[local] Instance same_shape_preorder : PreOrder same_shape.
Proof.
  split; [done|]. unfold same_shape.
  intros t1 t2 t3 (-> & -> & -> & H1 & H2) (-> & -> & -> & H3 & H4). naive_solver.
Qed.

(** An update at one index, of a kind that keeps the shape of that task. *)
Lemma alter_same_shape (f : Task -> Task) i l :
  (forall t, l !! i = Some t -> same_shape t (f t)) -> Forall2 same_shape l (alter f i l).
Proof.
  revert i. induction l as [|a l IH]; intros [|i] Hf; cbn; constructor;
    solve [done | auto].
Qed.

Lemma wake_in_same_shape tasks id : Forall2 same_shape tasks (wake_in tasks id).
Proof.
  unfold wake_in. destruct (position _ _); [|done].
  apply alter_same_shape. intros t _. unfold state_eqb. case_bool_decide as Hb; [|done].
  unfold same_shape. cbn. rewrite Hb. naive_solver.
Qed.

Lemma wake_waiters_same_shape ws target : forall tasks ws' tasks',
  wake_waiters ws target tasks = (ws', tasks') -> Forall2 same_shape tasks tasks'.
Proof.
  induction ws as [|[[w tg]|] ws IH]; intros tasks ws' tasks'; cbn [wake_waiters].
  - intros [= _ <-]. done.
  - destruct (tg =? target); destruct (wake_waiters _ _ _) as [ws1 ts1] eqn:E;
      intros [= _ <-]; apply IH in E; [|done].
    by etrans; [apply wake_in_same_shape|].
  - destruct (wake_waiters _ _ _) as [ws1 ts1] eqn:E. intros [= _ <-]. by apply IH in E.
Qed.

Lemma Forall2_same_shape_ids l l' : Forall2 same_shape l l' -> t_id <$> l' = t_id <$> l.
Proof. induction 1 as [|t t' l l' (Hid & _) _ IH]; cbn; [done|]. by rewrite Hid, IH. Qed.

Lemma tasks_wf_shape l l' n : Forall2 same_shape l l' -> tasks_wf l n -> tasks_wf l' n.
Proof.
  intros Hs [H1 H2 H3]. split.
  - by rewrite (Forall2_same_shape_ids _ _ Hs).
  - revert H2. clear -Hs. induction Hs as [|t t' l l' (Hid & _) _ IH]; [done|].
    rewrite !Forall_cons, Hid. naive_solver.
  - revert H3. clear -Hs. unfold priorities_ok.
    induction Hs as [|t t' l l' (_ & _ & Hp & _) _ IH]; [done|].
    rewrite !Forall_cons, Hp. naive_solver.
Qed.

Lemma sched_wf_shape s tasks' :
  Forall2 same_shape (sc_tasks s) tasks' -> sched_wf s ->
  sched_wf (mkSched tasks' (sc_current s) (sc_next_id s)).
Proof.
  intros Hs [Hw (t & Hc & Hr) Hu]. split; cbn.
  - by eapply tasks_wf_shape.
  - destruct (Forall2_lookup_l _ _ _ _ _ Hs Hc) as (t' & Ht' & (_ & _ & _ & Hst & _)).
    exists t'. naive_solver.
  - intros i t' Hi Hrun. destruct (Forall2_lookup_r _ _ _ _ _ Hs Hi) as (t0 & Ht0 & (_ & _ & _ & Hst & _)).
    apply (Hu i t0); naive_solver.
Qed.

(** Changing a state keeps ids and priorities. *)
Lemma set_state_tasks_wf i st l n : tasks_wf l n -> tasks_wf (set_state i st l) n.
Proof.
  intros [H1 H2 H3]. unfold set_state.
  assert (t_id <$> alter (with_state st) i l = t_id <$> l) as Hids.
  { revert i. clear. induction l as [|t l IH]; intros [|i]; cbn; [done..|]. f_equal. apply IH. }
  split.
  - by rewrite Hids.
  - apply Forall_alter; [done|]. intros. done.
  - apply Forall_alter; [done|]. intros. done.
Qed.

(** A switch from a list without a Running task establishes the invariant. *)
Lemma switch_to_wf tasks next n effs s effs' :
  tasks_wf tasks n -> (forall i t, tasks !! i = Some t -> t_state t <> Running) ->
  switch_to tasks next n effs = Done (s, effs') -> sched_wf s.
Proof.
  intros Hw Hno. unfold switch_to. destruct (tasks !! next) as [t|] eqn:Ht; [|done].
  intros [= <- _]. split; cbn.
  - by apply set_state_tasks_wf.
  - unfold set_state. rewrite list_lookup_alter_eq, Ht. cbn. eauto.
  - intros i t' Hi Hr. destruct (decide (i = next)) as [->|Hne]; [done|].
    unfold set_state in Hi. rewrite list_lookup_alter_ne in Hi by done. by apply Hno in Hi.
Qed.

Lemma set_state_not_running s i st :
  sched_wf s -> i = sc_current s -> st <> Running ->
  forall j t, set_state i st (sc_tasks s) !! j = Some t -> t_state t <> Running.
Proof.
  intros [_ _ Hu] -> Hst j t Hj Hr. unfold set_state in Hj.
  destruct (decide (j = sc_current s)) as [->|Hne].
  - rewrite list_lookup_alter_eq in Hj. apply fmap_Some in Hj as (t0 & _ & ->). by destruct st.
  - rewrite list_lookup_alter_ne in Hj by done. by apply Hne, (Hu j t).
Qed.

(** Every task of [s'] is a task of [s] that has not come back to life, or new. *)
Definition descends (s s' : Scheduler) : Prop :=
  sc_next_id s <= sc_next_id s' /\
  forall t', t' ∈ sc_tasks s' ->
    (exists t, t ∈ sc_tasks s /\ t_id t' = t_id t /\ (t_state t = Dead -> t_state t' = Dead)) \/
    sc_next_id s <= t_id t'.

#[local] Instance descends_refl : Reflexive descends.
Proof. intros s. split; [done|]. intros t Ht. left. eauto. Qed.

Lemma descends_shape s tasks' c :
  Forall2 same_shape (sc_tasks s) tasks' -> descends s (mkSched tasks' c (sc_next_id s)).
Proof.
  intros Hs. split; [done|]. cbn. intros t' Ht'. left. apply list_elem_of_lookup in Ht' as (i & Hi).
  destruct (Forall2_lookup_r _ _ _ _ _ Hs Hi) as (t & Ht & (-> & _ & _ & _ & Hd)).
  exists t. split; [apply list_elem_of_lookup; eauto|done].
Qed.

Lemma descends_trans s1 s2 s3 : descends s1 s2 -> descends s2 s3 -> descends s1 s3.
Proof.
  intros [Hn1 H1] [Hn2 H2]. split; [lia|]. intros t3 Ht3.
  apply H2 in Ht3 as [(t2 & Ht2 & -> & Hd2)|?]; [|right; lia].
  apply H1 in Ht2 as [(t1 & Ht1 & Hid & Hd1)|?]; [left|by right].
  exists t1. rewrite Hid. naive_solver.
Qed.

Lemma elem_of_lookup {A} (l : list A) i x : l !! i = Some x -> x ∈ l.
Proof. intros. apply list_elem_of_lookup. eauto. Qed.

Lemma elem_of_List_filter {A} (p : A -> bool) (l : list A) x :
  x ∈ List.filter p l <-> x ∈ l /\ p x = true.
Proof. rewrite !list_elem_of_In. apply List.filter_In. Qed.

(** States only: what a switch does to one index. *)
Lemma descends_set_state s i st c :
  (forall t, sc_tasks s !! i = Some t -> t_state t = Dead -> st = Dead) ->
  descends s (mkSched (set_state i st (sc_tasks s)) c (sc_next_id s)).
Proof.
  intros Hst. split; [done|]. cbn. intros t' Ht'. left.
  apply list_elem_of_lookup in Ht' as (j & Hj). unfold set_state in Hj.
  destruct (decide (j = i)) as [->|Hne].
  - rewrite list_lookup_alter_eq in Hj. apply fmap_Some in Hj as (t & Ht & ->).
    exists t. split; [by eapply elem_of_lookup|]. cbn. eauto.
  - rewrite list_lookup_alter_ne in Hj by done. exists t'. split; [by eapply elem_of_lookup|done].
Qed.

Lemma descends_switch s next effs s' effs' t :
  sc_tasks s !! next = Some t -> t_state t <> Dead ->
  switch_to (sc_tasks s) next (sc_next_id s) effs = Done (s', effs') -> descends s s'.
Proof.
  intros Ht Hnd. unfold switch_to. rewrite Ht. intros [= <- _]. apply descends_set_state.
  intros t0 Ht0 ?. congruence.
Qed.

Section with_stack_memory.

Variable read_word : Z -> Z.

Lemma sweep_dead_wf s s' effs :
  sched_wf s -> sweep_dead read_word s = Some (s', effs) -> sched_wf s' /\ descends s s'.
Proof.
  intros [[H1 H2 H3] (cur & Hc & Hr) Hu] E.
  apply sweep_dead_spec in E as (Hts & Hn & _ & Hcur).
  specialize (Hcur cur Hc ltac:(congruence)).
  assert (forall t, t ∈ sc_tasks s' -> t ∈ sc_tasks s) as Hsub.
  { intros t. rewrite Hts, elem_of_List_filter. tauto. }
  assert (forall l, t_id <$> List.filter alive l `sublist_of` t_id <$> l) as Hsl.
  { intros l. induction l as [|t l IH]; cbn; [done|]. destruct (alive t); cbn; by constructor. }
  assert (NoDup (t_id <$> sc_tasks s')) as Hnd.
  { rewrite Hts. by eapply sublist_NoDup. }
  split; [split; [split|..]|].
  - done.
  - rewrite Hn. apply Forall_forall. intros t ?. rewrite Forall_forall in H2. auto.
  - apply Forall_forall. intros t ?. unfold priorities_ok in H3. rewrite Forall_forall in H3. auto.
  - eauto.
  - intros i t Hi Hrun. apply elem_of_lookup in Hi as Hin. apply Hsub in Hin.
    apply list_elem_of_lookup in Hin as (k & Hk). apply (Hu k t) in Hrun as ->; [|done].
    rewrite Hk in Hc. simplify_eq.
    eapply (NoDup_lookup (t_id <$> sc_tasks s')); [done| |];
      rewrite list_lookup_fmap; [by rewrite Hi|by rewrite Hcur].
  - split; [lia|]. intros t ?. left. exists t. naive_solver.
Qed.

Lemma yield_task_wf s s' effs :
  sched_wf s -> yield_task read_word s = Done (s', effs) -> sched_wf s' /\ descends s s'.
Proof.
  intros Hwf. unfold yield_task. destruct (sc_tasks s !! sc_current s) as [cur|]; [|done].
  destruct (negb _); [done|]. destruct (sweep_dead read_word s) as [[s1 e1]|] eqn:Es; [|done].
  destruct (sweep_dead_wf _ _ _ Hwf Es) as [Hwf1 Hd1].
  destruct (_ <=? 1)%nat; [intros [= <- _]; done|].
  destruct (find_next_ready _ _) as [next|] eqn:Ef; [|intros [= <- _]; done].
  destruct (next =? sc_current s1)%nat eqn:En; [intros [= <- _]; done|]. apply Nat.eqb_neq in En.
  intros Hsw. apply find_next_ready_sound in Ef as (t & Ht & Hr). split.
  - eapply switch_to_wf; [apply set_state_tasks_wf, Hwf1| |done].
    by apply set_state_not_running.
  - eapply descends_trans; [exact Hd1|]. eapply descends_trans.
    + apply (descends_set_state s1 (sc_current s1) Ready (sc_current s1)).
      destruct Hwf1 as [_ (t0 & Ht0 & ?) _]. intros t1 Ht1 ?. congruence.
    + eapply descends_switch with (t := t); [|congruence|exact Hsw]. cbn. unfold set_state.
      by rewrite list_lookup_alter_ne.
Qed.

Lemma block_and_yield_wf s s' effs :
  sched_wf s -> block_and_yield read_word s = Done (s', effs) -> sched_wf s' /\ descends s s'.
Proof.
  intros Hwf. unfold block_and_yield. destruct (sc_tasks s !! sc_current s) as [cur|]; [|done].
  destruct (negb _); [done|]. destruct (sweep_dead read_word s) as [[s1 e1]|] eqn:Es; [|done].
  destruct (sweep_dead_wf _ _ _ Hwf Es) as [Hwf1 Hd1].
  destruct (find_next_ready _ _) as [next|] eqn:Ef; [|done].
  intros Hsw. apply find_next_ready_sound in Ef as (t & Ht & Hr). split.
  - eapply switch_to_wf; [apply set_state_tasks_wf, Hwf1| |done].
    by apply set_state_not_running.
  - eapply descends_trans; [exact Hd1|]. eapply descends_trans.
    + apply (descends_set_state s1 (sc_current s1) Blocked (sc_current s1)).
      destruct Hwf1 as [_ (t0 & Ht0 & ?) _]. intros t1 Ht1 ?. congruence.
    + eapply descends_switch with (t := t); [exact Ht|congruence|exact Hsw].
Qed.

End with_stack_memory.

(** ** Exit records *)

Definition recs_nodup (recs : list ExitRecord) : Prop := NoDup (er_child <$> recs).

Lemma record_exit_spec recs c p st :
  recs_nodup recs ->
  recs_nodup (record_exit recs c p st) /\
  forall r, r ∈ record_exit recs c p st <-> r = mkExit c p st \/ (r ∈ recs /\ er_child r <> c).
Proof.
  unfold recs_nodup, record_exit. intros Hnd.
  destruct (position _ recs) as [i|] eqn:E.
  - apply position_Some in E as (r0 & Hi & Hc & _). apply Z.eqb_eq in Hc.
    assert (er_child <$> alter (fun r => mkExit (er_child r) p st) i recs = er_child <$> recs) as Hids.
    { clear. revert i. induction recs as [|r recs IH]; intros [|i]; cbn; [done..|]. f_equal. apply IH. }
    split; [by rewrite Hids|]. intros r. split.
    + intros (j & Hj)%list_elem_of_lookup. destruct (decide (j = i)) as [->|Hne].
      * rewrite list_lookup_alter_eq, Hi in Hj. cbn in Hj. simplify_eq. left. done.
      * rewrite list_lookup_alter_ne in Hj by done. right. split; [by eapply elem_of_lookup|].
        intros Heq. apply Hne. eapply (NoDup_lookup (er_child <$> recs)); [done| |];
          rewrite list_lookup_fmap; [by rewrite Hj|rewrite Hi; cbn; congruence].
    + intros [->|[Hin Hne]].
      * apply list_elem_of_lookup. exists i. rewrite list_lookup_alter_eq, Hi. cbn. by rewrite Hc.
      * apply list_elem_of_lookup in Hin as (j & Hj). apply list_elem_of_lookup. exists j.
        rewrite list_lookup_alter_ne; [done|]. intros ->. rewrite Hi in Hj. simplify_eq.
  - apply position_None in E. split.
    + rewrite fmap_app. apply NoDup_app. split; [done|]. split; [|apply NoDup_singleton].
      intros x (r & -> & Hr)%list_elem_of_fmap. cbn. rewrite list_elem_of_singleton.
      rewrite Forall_forall in E. apply E in Hr. by apply Z.eqb_neq in Hr.
    + intros r. rewrite elem_of_app, list_elem_of_singleton. rewrite Forall_forall in E.
      split; [|naive_solver]. intros [Hr| ->]; [right|by left]. split; [done|].
      apply E in Hr. by apply Z.eqb_neq in Hr.
Qed.

Lemma reap_children_of_spec recs sp :
  recs_nodup recs ->
  recs_nodup (reap_children_of recs sp) /\
  forall r, r ∈ reap_children_of recs sp <-> r ∈ recs /\ er_spawner r <> sp.
Proof.
  unfold recs_nodup, reap_children_of. intros Hnd. split.
  - eapply sublist_NoDup; [done|]. clear. induction recs as [|r recs IH]; cbn; [done|].
    destruct (negb _); cbn; by constructor.
  - intros r. rewrite elem_of_List_filter, negb_true_iff, Z.eqb_neq. done.
Qed.

Lemma consume_exit_spec recs c :
  recs_nodup recs ->
  let '(o, recs') := consume_exit recs c in
  recs_nodup recs' /\
  (forall r, r ∈ recs' <-> r ∈ recs /\ er_child r <> c) /\
  (forall st, o = Some st <-> exists p, mkExit c p st ∈ recs).
Proof.
  unfold recs_nodup, consume_exit. intros Hnd.
  destruct (position _ recs) as [i|] eqn:E.
  - apply position_Some in E as (r0 & Hi & Hc & _). apply Z.eqb_eq in Hc.
    pose proof (swap_remove_Permutation _ _ _ Hi) as Hp.
    generalize dependent (swap_remove i recs). intros rest Hp.
    assert (NoDup (er_child <$> r0 :: rest)) as Hnd'.
    { rewrite <- Hp. done. }
    cbn in Hnd'. apply NoDup_cons in Hnd' as [Hnin Hnd']. split; [done|]. split.
    + intros r. rewrite Hp, elem_of_cons. split.
      * intros Hr. split; [by right|]. intros Heq. apply Hnin. rewrite Hc, <- Heq.
        apply list_elem_of_fmap. eauto.
      * intros [ [->|?] ?]; [congruence|done].
    + intros st. rewrite Hi. cbn. split.
      * intros [= <-]. exists (er_spawner r0). replace (mkExit c _ _) with r0;
          [by eapply elem_of_lookup|]. destruct r0. cbn in *. congruence.
      * intros (p & Hin). rewrite Hp in Hin. apply elem_of_cons in Hin as [<-|Hin]; [done|].
        exfalso. apply Hnin. rewrite Hc. apply list_elem_of_fmap. by exists (mkExit c p st).
  - apply position_None in E. rewrite Forall_forall in E. split; [done|]. split.
    + intros r. split; [|naive_solver]. intros Hr. split; [done|].
      apply E in Hr. by apply Z.eqb_neq in Hr.
    + intros st. split; [done|]. intros (p & Hin). apply E in Hin. by apply Z.eqb_neq in Hin.
Qed.

(** The invariant of the whole file: the scheduler's, plus: at most one
    record per child, and a record only for a task that is gone or dead. *)
Record sys_wf (sys : TaskSys) : Prop := {
  yw_sched : sched_wf (ts_sched sys);
  yw_nodup : recs_nodup (ts_exit_records sys);
  yw_recs : forall r, r ∈ ts_exit_records sys -> er_child r < sc_next_id (ts_sched sys) /\
    forall t, t ∈ sc_tasks (ts_sched sys) -> t_id t = er_child r -> t_state t = Dead
}.

Lemma recs_descend (recs : list ExitRecord) s s' :
  (forall r, r ∈ recs -> er_child r < sc_next_id s /\
     forall t, t ∈ sc_tasks s -> t_id t = er_child r -> t_state t = Dead) ->
  descends s s' ->
  (forall r, r ∈ recs -> er_child r < sc_next_id s' /\
     forall t, t ∈ sc_tasks s' -> t_id t = er_child r -> t_state t = Dead).
Proof.
  intros Hr [Hn Hd] r Hin. destruct (Hr _ Hin) as [Hlt Hdead]. split; [lia|].
  intros t' Ht' Hid. apply Hd in Ht' as [(t & Ht & Heq & Hst)|Hge]; [|lia].
  apply Hst, Hdead; [done|congruence].
Qed.

(** Scheduler-only steps keep the system invariant. *)
Lemma sys_wf_sched sys s' q w :
  sys_wf sys -> sched_wf s' -> descends (ts_sched sys) s' ->
  sys_wf (mkTaskSys s' q w (ts_exit_records sys)).
Proof. intros [H1 H2 H3] Hwf Hd. split; cbn; try done. by eapply recs_descend. Qed.

(** A death (exit or kill) of task [id] with parent [p], recorded as [st]. *)
Lemma sys_wf_death sys s' q w id p st i t :
  sys_wf sys ->
  sc_tasks (ts_sched sys) !! i = Some t -> t_id t = id ->
  sched_wf s' ->
  descends (mkSched (set_state i Dead (sc_tasks (ts_sched sys))) 0 (sc_next_id (ts_sched sys))) s' ->
  sys_wf (mkTaskSys s' q w (reap_children_of (record_exit (ts_exit_records sys) id p st) id)).
Proof.
  intros [Hs Hnd Hrec] Hi <- Hwf Hd.
  destruct (record_exit_spec (ts_exit_records sys) (t_id t) p st Hnd) as [Hnd1 Hin1].
  destruct (reap_children_of_spec _ (t_id t) Hnd1) as [Hnd2 Hin2].
  split; cbn; [done|done|]. eapply recs_descend; [|exact Hd]. cbn.
  intros r Hr. apply Hin2 in Hr as [Hr _]. apply Hin1 in Hr as [->|[Hr _]]; cbn.
  - destruct Hs as [[Hids Hb _] _ _]. split.
    + rewrite Forall_forall in Hb. apply Hb. by eapply elem_of_lookup.
    + intros t' (j & Hj)%list_elem_of_lookup Hid. unfold set_state in Hj.
      destruct (decide (j = i)) as [->|Hne].
      * rewrite list_lookup_alter_eq, Hi in Hj. cbn in Hj. by simplify_eq.
      * rewrite list_lookup_alter_ne in Hj by done. exfalso. apply Hne.
        eapply (NoDup_lookup (t_id <$> sc_tasks (ts_sched sys))); [done| |];
          rewrite list_lookup_fmap; [by rewrite Hj|rewrite Hi; cbn; congruence].
  - destruct (Hrec r Hr) as [? Hdead]. split; [done|].
    intros t' (j & Hj)%list_elem_of_lookup Hid. unfold set_state in Hj.
    destruct (decide (j = i)) as [->|Hne].
    + rewrite list_lookup_alter_eq, Hi in Hj. cbn in Hj. by simplify_eq.
    + rewrite list_lookup_alter_ne in Hj by done. apply Hdead; [by eapply elem_of_lookup|done].
Qed.

Section with_stack_memory.

Variable read_word : Z -> Z.

Lemma task_exit_wf sys st sys' effs :
  sys_wf sys -> task_exit read_word sys st = Done (sys', effs) -> sys_wf sys'.
Proof.
  intros Hwf. unfold task_exit.
  destruct (sc_tasks (ts_sched sys) !! sc_current (ts_sched sys)) as [cur|] eqn:Hc; [|done].
  destruct (negb _); [done|].
  destruct (wake_waiters _ _ _) as [w' tasks2] eqn:Ew.
  apply wake_waiters_same_shape in Ew as Hsh.
  destruct (find_next_ready _ _) as [next|] eqn:Ef; [|done].
  apply find_next_ready_sound in Ef as (t & Ht & Hr).
  destruct (switch_to _ _ _ _) as [[s' e']| |] eqn:Esw; [|done|done]. intros [= <- _].
  pose proof (yw_sched _ Hwf) as Hs.
  eapply sys_wf_death; [done|exact Hc|done| |].
  - eapply switch_to_wf; [| |exact Esw].
    + eapply tasks_wf_shape; [exact Hsh|]. apply set_state_tasks_wf, Hs.
    + intros i t' Hi Hrun. destruct (Forall2_lookup_r _ _ _ _ _ Hsh Hi) as (t0 & Ht0 & (_ & _ & _ & Hst & _)).
      apply Hst in Hrun.
      by apply (set_state_not_running (ts_sched sys) _ Dead Hs eq_refl ltac:(done) i t0 Ht0).
  - eapply descends_trans; [by apply (descends_shape _ tasks2 0%nat)|]. cbn.
    eapply (descends_switch (mkSched tasks2 0 _)); [exact Ht|congruence|exact Esw].
Qed.

End with_stack_memory.

Lemma kill_task_wf sys id b sys' :
  sys_wf sys -> kill_task sys id = Done (b, sys') -> sys_wf sys'.
Proof.
  intros Hwf. unfold kill_task. destruct (id =? 0); [intros [= _ <-]; done|].
  destruct (sc_tasks (ts_sched sys) !! sc_current (ts_sched sys)) as [cur|] eqn:Hc; [|done].
  destruct (Z.eqb_spec id (t_id cur)) as [|Hne]; [intros [= _ <-]; done|].
  destruct (position _ _) as [i|] eqn:Ep; [|intros [= _ <-]; done].
  apply position_Some in Ep as (t & Hi & Hp & _). apply andb_true_iff in Hp as [Hid Hnd].
  apply Z.eqb_eq in Hid. destruct (wake_waiters _ _ _) as [w' tasks2] eqn:Ew.
  apply wake_waiters_same_shape in Ew as Hsh. intros [= _ <-].
  pose proof (yw_sched _ Hwf) as [Hw (c & Hcc & Hcr) Hu].
  assert (i <> sc_current (ts_sched sys)) as Hni by congruence.
  eapply sys_wf_death; [done|exact Hi|done| |].
  - apply (sched_wf_shape (mkSched (set_state i Dead (sc_tasks (ts_sched sys))) _ _)); [done|].
    split; cbn; [by apply set_state_tasks_wf| |].
    + exists c. unfold set_state. by rewrite list_lookup_alter_ne.
    + intros j t' Hj Hr. unfold set_state in Hj. destruct (decide (j = i)) as [->|].
      * rewrite list_lookup_alter_eq, Hi in Hj. cbn in Hj. by simplify_eq.
      * rewrite list_lookup_alter_ne in Hj by done. by eapply Hu.
  - by apply (descends_shape (mkSched _ 0 _)).
Qed.

(** ** Steps of the task system *)

Inductive label : Type :=
| LYield
| LBlock
| LExit (status : Z)
| LKill (id : Z)
| LWaitEnter (target : Z)
| LWaitResume (target : Z)
| LSleep (wake_tick : Z)
| LTick (tick : Z)
| LWake (id : Z)
| LBlockTask (id : Z)
| LPriority (id priority : Z)
| LSpawnKernel (base entry : Z)
| LSpawnUser (base entry stack_top : Z) (caps : list Z) (trampoline page_table : Z) (name : list Z).

Definition with_sched (sys : TaskSys) (s : Scheduler) : TaskSys :=
  mkTaskSys s (ts_sleep_queue sys) (ts_waiters sys) (ts_exit_records sys).

Section with_stack_memory.

Variable read_word : Z -> Z.

Inductive sys_step : label -> TaskSys -> TaskSys -> Prop :=
| step_yield sys s' e :
    yield_task read_word (ts_sched sys) = Done (s', e) -> sys_step LYield sys (with_sched sys s')
| step_block sys s' e :
    block_and_yield read_word (ts_sched sys) = Done (s', e) -> sys_step LBlock sys (with_sched sys s')
| step_exit sys st sys' e :
    task_exit read_word sys st = Done (sys', e) -> sys_step (LExit st) sys sys'
| step_kill sys id b sys' :
    kill_task sys id = Done (b, sys') -> sys_step (LKill id) sys sys'
| step_wait_gone sys target sys' :
    wait_for_task_enter read_word sys target = Done (inl sys') -> sys_step (LWaitEnter target) sys sys'
| step_wait_block sys target sys' e :
    wait_for_task_enter read_word sys target = Done (inr (sys', e)) ->
    sys_step (LWaitEnter target) sys sys'
| step_wait_resume sys target r sys' :
    wait_for_task_resume sys target = (r, sys') -> sys_step (LWaitResume target) sys sys'
| step_sleep sys tick sys' e :
    sleep_until read_word sys tick = Done (sys', e) -> sys_step (LSleep tick) sys sys'
| step_tick sys tick : sys_step (LTick tick) sys (wake_sleepers sys tick)
| step_wake sys id : sys_step (LWake id) sys (with_sched sys (wake_task (ts_sched sys) id))
| step_block_task sys id :
    sys_step (LBlockTask id) sys (with_sched sys (block_task (ts_sched sys) id))
| step_priority sys id p :
    0 <= p ->
    sys_step (LPriority id p) sys (with_sched sys (set_task_priority (ts_sched sys) id p).2)
| step_spawn_kernel sys base query entry id s' e :
    spawn_kernel_task (ts_sched sys) base query entry = Done (id, s', e) ->
    sys_step (LSpawnKernel base entry) sys (with_sched sys s')
| step_spawn_user sys n base query entry top caps tramp pt name id s' n' e :
    spawn_userspace_task (ts_sched sys) n base query entry top caps tramp pt name
      = Done (id, s', n', e) ->
    sys_step (LSpawnUser base entry top caps tramp pt name) sys (with_sched sys s').

End with_stack_memory.

Lemma wake_task_wf s id : sched_wf s -> sched_wf (wake_task s id) /\ descends s (wake_task s id).
Proof.
  intros Hwf. pose proof (wake_in_same_shape (sc_tasks s) id).
  split; [by apply sched_wf_shape|by apply descends_shape].
Qed.

Lemma wake_all_wf ids : forall s,
  sched_wf s -> sched_wf (foldl wake_task s ids) /\ descends s (foldl wake_task s ids).
Proof.
  induction ids as [|id ids IH]; intros s Hwf; cbn [foldl]; [done|].
  destruct (wake_task_wf s id Hwf) as [H1 H2]. destruct (IH _ H1) as [H3 H4].
  split; [done|]. by eapply descends_trans.
Qed.

Lemma block_task_wf s id : sched_wf s -> sched_wf (block_task s id) /\ descends s (block_task s id).
Proof.
  intros Hwf. unfold block_task. destruct (position _ _) as [i|]; [|done].
  assert (Forall2 same_shape (sc_tasks s)
    (alter (fun t => if state_eqb (t_state t) Ready then with_state Blocked t else t) i (sc_tasks s))).
  { apply alter_same_shape. intros t _. unfold state_eqb. case_bool_decide as Hb; [|done].
    unfold same_shape. cbn. rewrite Hb. naive_solver. }
  split; [by apply sched_wf_shape|by apply descends_shape].
Qed.

Lemma set_task_priority_wf s id p :
  0 <= p -> sched_wf s ->
  sched_wf (set_task_priority s id p).2 /\ descends s (set_task_priority s id p).2.
Proof.
  intros Hp Hwf. unfold set_task_priority. destruct (Z.ltb_spec 2 p); [done|].
  destruct (position _ _) as [i|]; [|done]. cbn [snd].
  assert (forall j t', alter (with_priority p) i (sc_tasks s) !! j = Some t' ->
    exists t, sc_tasks s !! j = Some t /\ t_id t' = t_id t /\ t_state t' = t_state t) as Hl.
  { intros j t' Hj. destruct (decide (j = i)) as [->|Hne].
    - rewrite list_lookup_alter_eq in Hj. apply fmap_Some in Hj as (t & Ht & ->). eauto.
    - rewrite list_lookup_alter_ne in Hj by done. eauto. }
  destruct Hwf as [[H1 H2 H3] (c & Hc & Hr) Hu].
  assert (t_id <$> alter (with_priority p) i (sc_tasks s) = t_id <$> sc_tasks s) as Hids.
  { clear. generalize (sc_tasks s). intros l. revert i.
    induction l as [|t l IH]; intros [|i]; cbn; [done..|]. f_equal. apply IH. }
  split; [split; [split|..]|].
  - cbn. by rewrite Hids.
  - cbn. apply Forall_alter; [done|]. done.
  - cbn. apply Forall_alter; [done|]. intros. cbn. lia.
  - cbn. destruct (decide (sc_current s = i)) as [<-|].
    + rewrite list_lookup_alter_eq, Hc. cbn. eauto.
    + rewrite list_lookup_alter_ne by done. eauto.
  - cbn. intros j t' Hj Hrun. apply Hl in Hj as (t & Ht & _ & Hst). apply (Hu j t); congruence.
  - split; [done|]. cbn. intros t' (j & Hj)%list_elem_of_lookup. left.
    apply Hl in Hj as (t & Ht & Hid & Hst). exists t.
    split; [by eapply elem_of_lookup|]. split; [done|]. congruence.
Qed.

(** A new Ready task with the next id. *)
Lemma spawn_wf s t :
  sched_wf s -> t_id t = sc_next_id s -> t_state t = Ready -> t_priority t = 1 ->
  let s' := mkSched (sc_tasks s ++ [t]) (sc_current s) (sc_next_id s + 1) in
  sched_wf s' /\ descends s s'.
Proof.
  intros [[H1 H2 H3] (c & Hc & Hr) Hu] Hid Hst Hpr. split; [split; [split|..]|]; cbn.
  - rewrite fmap_app. apply NoDup_app. split; [done|]. split; [|apply NoDup_singleton].
    intros x (t0 & -> & Ht0)%list_elem_of_fmap. cbn. rewrite list_elem_of_singleton, Hid.
    rewrite Forall_forall in H2. apply H2 in Ht0. lia.
  - apply Forall_app. split; [|apply Forall_singleton; lia].
    eapply Forall_impl; [exact H2|]. cbn. lia.
  - apply Forall_app. split; [done|]. apply Forall_singleton. lia.
  - exists c. rewrite lookup_app_l; [done|]. by eapply lookup_lt_Some.
  - intros i t' Hi Hrun. apply lookup_app_Some in Hi as [Hi|[_ Hi]]; [by eapply Hu|].
    apply list_lookup_singleton_Some in Hi as [_ <-]. congruence.
  - split; cbn; [lia|]. intros t' [Ht'|Ht']%elem_of_app; [left; eauto|].
    apply list_elem_of_singleton in Ht' as ->. right. lia.
Qed.

Section with_stack_memory.

Variable read_word : Z -> Z.

Lemma sys_step_wf l sys sys' : sys_step read_word l sys sys' -> sys_wf sys -> sys_wf sys'.
Proof.
  intros Hstep Hwf. pose proof (yw_sched _ Hwf) as Hs.
  destruct Hstep as [sys s' e E|sys s' e E|sys st sys' e E|sys id b sys' E|sys target sys' E
    |sys target sys' e E|sys target r sys' E|sys tick sys' e E|sys tick|sys id|sys id|sys id p Hp
    |sys base query entry id s' e E|sys n base query entry top caps tramp pt name id s' n' e E].
  - apply yield_task_wf in E as [? ?]; [|done]. by apply sys_wf_sched.
  - apply block_and_yield_wf in E as [? ?]; [|done]. by apply sys_wf_sched.
  - by eapply task_exit_wf.
  - by eapply kill_task_wf.
  - unfold wait_for_task_enter in E. destruct (_ =? 0); [by simplify_eq|].
    destruct (_ !! _); [|done]. by destruct (block_and_yield _ _) as [ [? ?]| |].
  - unfold wait_for_task_enter in E. destruct (_ =? 0); [by simplify_eq|].
    destruct (_ !! _); [|done]. destruct (block_and_yield _ _) as [ [s1 e1]| |] eqn:Eb; simplify_eq.
    apply block_and_yield_wf in Eb as [? ?]; [|done]. by apply sys_wf_sched.
  - unfold wait_for_task_resume in E. destruct Hwf as [_ Hnd Hrec].
    pose proof (consume_exit_spec (ts_exit_records sys) target Hnd) as Hspec.
    destruct (consume_exit _ _) as [o recs']. destruct Hspec as (Hnd' & Hin & _). simplify_eq.
    split; cbn; [done|done|]. intros r' [Hr' _]%Hin. by apply Hrec.
  - unfold sleep_until in E. destruct (_ !! _); [|done].
    destruct (block_and_yield _ _) as [ [s1 e1]| |] eqn:Eb; simplify_eq.
    apply block_and_yield_wf in Eb as [? ?]; [|done]. by apply sys_wf_sched.
  - unfold wake_sleepers. destruct (expire_sleepers _ _) as [ids q].
    destruct (wake_all_wf ids _ Hs). by apply sys_wf_sched.
  - destruct (wake_task_wf _ id Hs). by apply sys_wf_sched.
  - destruct (block_task_wf _ id Hs). by apply sys_wf_sched.
  - destruct (set_task_priority_wf _ id p Hp Hs). by apply sys_wf_sched.
  - unfold spawn_kernel_task in E. destruct (query _); [|done]. destruct (_ !! _); [|done].
    injection E as _ <- _. apply sys_wf_sched; [done|..]; by apply spawn_wf.
  - unfold spawn_userspace_task in E. destruct (query _); [|done]. destruct (_ !! _); [|done].
    destruct (inherit_all _ _ _ _) as [ct cn]. injection E as _ <- _ _.
    apply sys_wf_sched; [done|..]; by apply spawn_wf.
Qed.

End with_stack_memory.

(** What the machine can do from [sys]: any operation, kernel memory being
    whatever it is at that point. *)
Definition any_step (sys sys' : TaskSys) : Prop :=
  exists read_word l, sys_step read_word l sys sys'.

Lemma task_init_wf : sys_wf task_init.
Proof.
  split; cbn.
  - split; [split|..]; cbn.
    + apply NoDup_singleton.
    + apply Forall_singleton. cbn. lia.
    + apply Forall_singleton. cbn. lia.
    + eauto.
    + by intros [|i] t.
  - apply NoDup_nil_2.
  - set_solver.
Qed.

Lemma reachable_wf sys : rtc any_step task_init sys -> sys_wf sys.
Proof.
  intros Hr. pose proof task_init_wf as Hwf. revert Hwf.
  induction Hr as [|a b c (rw & l & Hs) _ IH]; [done|].
  intros Ha. apply IH. by eapply sys_step_wf.
Qed.

(** C4. Whatever the tasks do, from boot on: task ids are unique and below the
    next id, priorities stay in 0..2, exactly one task is Running and it is the
    one at the current index, and there is at most one exit record per task, of
    a task that is Dead or gone. *)
Theorem scheduler_invariant sys : rtc any_step task_init sys -> sys_wf sys.
Proof. apply reachable_wf. Qed.

(** ** Exit statuses *)

(** Steps that neither collect the status of [child] nor end [spawner]. *)
Definition keeps_status (child spawner : Z) (l : label) (sys : TaskSys) : Prop :=
  match l with
  | LExit _ => forall cur, sc_tasks (ts_sched sys) !! sc_current (ts_sched sys) = Some cur ->
                 t_id cur <> spawner
  | LKill id => id <> spawner
  | LWaitResume target => target <> child
  | _ => True
  end.

Definition quiet_step (child spawner : Z) (sys sys' : TaskSys) : Prop :=
  exists read_word l, sys_step read_word l sys sys' /\ keeps_status child spawner l sys.

Lemma death_keeps_record sys c p st id q st' :
  sys_wf sys -> mkExit c p st ∈ ts_exit_records sys -> c <> id -> id <> p ->
  mkExit c p st ∈ reap_children_of (record_exit (ts_exit_records sys) id q st') id.
Proof.
  intros [_ Hnd _] Hin Hne Hp.
  destruct (record_exit_spec (ts_exit_records sys) id q st' Hnd) as [Hnd1 Hin1].
  destruct (reap_children_of_spec _ id Hnd1) as [_ Hin2].
  apply Hin2. split; [|cbn; congruence]. apply Hin1. right. done.
Qed.

Lemma quiet_step_keeps_record c p st sys sys' :
  sys_wf sys -> quiet_step c p sys sys' ->
  mkExit c p st ∈ ts_exit_records sys -> mkExit c p st ∈ ts_exit_records sys'.
Proof.
  intros Hwf (rw & l & Hstep & Hk) Hin. destruct (yw_recs _ Hwf _ Hin) as [_ Hdead]. cbn in Hdead.
  destruct Hstep as [| |sys st' sys' e E|sys id b sys' E|sys target sys' E
    |sys target sys' e E|sys target r sys' E|sys tick sys' e E|sys tick| | | | |]; try exact Hin.
  - unfold task_exit in E. cbn in Hk.
    destruct (sw_current _ (yw_sched _ Hwf)) as (cur & Hc & Hrun). rewrite Hc in E, Hk.
    destruct (negb _); [done|]. destruct (wake_waiters _ _ _). destruct (find_next_ready _ _); [|done].
    destruct (switch_to _ _ _ _) as [ [? ?]| |]; simplify_eq. cbn.
    apply death_keeps_record; [done|done| |by apply Hk]. intros ->.
    rewrite (Hdead cur) in Hrun; [done|by eapply elem_of_lookup|done].
  - unfold kill_task in E. destruct (id =? 0); [by simplify_eq|].
    destruct (_ !! _); [|done]. destruct (id =? _); [by simplify_eq|].
    destruct (position _ _) as [i|] eqn:Ep; [|by simplify_eq].
    destruct (wake_waiters _ _ _). simplify_eq. cbn.
    apply death_keeps_record; [done|done| |done]. intros ->.
    apply position_Some in Ep as (v & Hv & Hb & _). apply andb_prop in Hb as [Hid Hnd].
    apply Z.eqb_eq in Hid. apply alive_true in Hnd. apply Hnd, Hdead; [by eapply elem_of_lookup|done].
  - unfold wait_for_task_enter in E. destruct (_ =? 0); [by simplify_eq|].
    destruct (_ !! _); [|done]. by destruct (block_and_yield _ _) as [ [? ?]| |].
  - unfold wait_for_task_enter in E. destruct (_ =? 0); [by simplify_eq|].
    destruct (_ !! _); [|done]. destruct (block_and_yield _ _) as [ [? ?]| |]; by simplify_eq.
  - unfold wait_for_task_resume in E. cbn in Hk.
    pose proof (consume_exit_spec (ts_exit_records sys) target (yw_nodup _ Hwf)) as Hspec.
    destruct (consume_exit _ _) as [o recs']. destruct Hspec as (_ & Hin' & _). simplify_eq.
    cbn. apply Hin'. cbn. done.
  - unfold sleep_until in E. destruct (_ !! _); [|done].
    destruct (block_and_yield _ _) as [ [? ?]| |]; by simplify_eq.
  - unfold wake_sleepers. by destruct (expire_sleepers _ _).
Qed.

Lemma quiet_run_keeps_record c p st sys sys' :
  rtc (quiet_step c p) sys sys' -> sys_wf sys ->
  mkExit c p st ∈ ts_exit_records sys ->
  sys_wf sys' /\ mkExit c p st ∈ ts_exit_records sys'.
Proof.
  induction 1 as [|x y z Hs _ IH]; [done|]. intros Hwf Hin. apply IH.
  - destruct Hs as (rw & l & Hs & _). by eapply sys_step_wf.
  - by eapply quiet_step_keeps_record.
Qed.

Lemma resume_reads c p st sys :
  sys_wf sys -> mkExit c p st ∈ ts_exit_records sys ->
  (wait_for_task_resume sys c).1 = st /\
  (wait_for_task_resume (wait_for_task_resume sys c).2 c).1 = ENOENT.
Proof.
  intros [_ Hnd _] Hin. unfold wait_for_task_resume.
  pose proof (consume_exit_spec (ts_exit_records sys) c Hnd) as Hspec.
  destruct (consume_exit _ c) as [o recs'] eqn:E. cbn [fst snd ts_exit_records].
  destruct Hspec as (Hnd' & Hin' & Ho).
  rewrite (proj2 (Ho st)) by eauto. split; [done|].
  pose proof (consume_exit_spec recs' c Hnd') as Hspec'.
  destruct (consume_exit recs' c) as [o' recs'']. destruct Hspec' as (_ & _ & Ho').
  destruct o' as [st'|]; [|done]. exfalso.
  destruct (proj1 (Ho' st') eq_refl) as (p' & Hp'). by apply Hin' in Hp' as [_ ?].
Qed.

Lemma task_exit_records rw sys cur st sys' e :
  sys_wf sys -> sc_tasks (ts_sched sys) !! sc_current (ts_sched sys) = Some cur ->
  t_parent cur <> t_id cur ->
  task_exit rw sys st = Done (sys', e) ->
  mkExit (t_id cur) (t_parent cur) st ∈ ts_exit_records sys'.
Proof.
  intros [_ Hnd _] Hc Hne. unfold task_exit. rewrite Hc. destruct (negb _); [done|].
  destruct (wake_waiters _ _ _). destruct (find_next_ready _ _); [|done].
  destruct (switch_to _ _ _ _) as [ [? ?]| |]; [|done..]. intros [= <- _]. cbn.
  destruct (record_exit_spec (ts_exit_records sys) (t_id cur) (t_parent cur) st Hnd) as [Hnd1 Hin1].
  destruct (reap_children_of_spec _ (t_id cur) Hnd1) as [_ Hin2].
  apply Hin2. split; [|done]. apply Hin1. by left.
Qed.

(** C14. The status a task exits with is kept until it is collected: however
    long the system runs, as long as nobody collects it and the spawner is
    alive, the next waiter reads exactly that status, and it can be read only
    once (a second wait answers ENOENT). *)
Theorem exit_status_retained read_word s0 cur status s1 effs s2 :
  rtc any_step task_init s0 ->
  sc_tasks (ts_sched s0) !! sc_current (ts_sched s0) = Some cur ->
  t_parent cur <> t_id cur ->
  task_exit read_word s0 status = Done (s1, effs) ->
  rtc (quiet_step (t_id cur) (t_parent cur)) s1 s2 ->
  (wait_for_task_resume s2 (t_id cur)).1 = status /\
  (wait_for_task_resume (wait_for_task_resume s2 (t_id cur)).2 (t_id cur)).1 = ENOENT.
Proof.
  intros H0 Hc Hne He Hq. apply reachable_wf in H0 as Hwf.
  pose proof (task_exit_records _ _ _ _ _ _ Hwf Hc Hne He) as Hin.
  apply task_exit_wf in He; [|done].
  destruct (quiet_run_keeps_record _ _ _ _ _ Hq He Hin) as [Hwf2 Hin2].
  by eapply resume_reads.
Qed.

(** Boot, spawn of task 1, switch to it. *)
Definition demo_memory (_ : Z) : Z := STACK_CANARY.

Definition demo_spawned : TaskSys :=
  with_sched task_init
    match spawn_kernel_task (ts_sched task_init) 4096 (fun _ => Some 0) 100 with
    | Done (_, s, _) => s | _ => ts_sched task_init end.

Definition demo_switched : TaskSys :=
  with_sched demo_spawned
    match yield_task demo_memory (ts_sched demo_spawned) with
    | Done (s, _) => s | _ => ts_sched task_init end.

Definition demo_exited : TaskSys :=
  match task_exit demo_memory demo_switched 7 with Done (sys, _) => sys | _ => task_init end.

Lemma demo_switched_reachable : rtc any_step task_init demo_switched.
Proof.
  eapply rtc_l.
  { exists demo_memory, (LSpawnKernel 4096 100).
    refine (step_spawn_kernel _ task_init 4096 (fun _ => Some 0) 100 1 (ts_sched demo_spawned)
      [EUnmapPage 4096; EWriteWord 8192 STACK_CANARY; EWriteWord (initial_rsp_of 4096 + 48) 100] _).
    vm_compute. reflexivity. }
  eapply rtc_l; [|apply rtc_refl].
  exists demo_memory, LYield.
  refine (step_yield _ (with_sched task_init (ts_sched demo_spawned)) (ts_sched demo_switched)
    [ESwitchCr3 None (stack_top_of 4096)] _).
  vm_compute. reflexivity.
Defined.

Lemma scheduler_invariant_witness :
  rtc any_step task_init demo_switched /\ sys_wf demo_switched /\
  (t_state <$> sc_tasks (ts_sched demo_switched)) = [Ready; Running].
Proof.
  split; [exact demo_switched_reachable|].
  split; [apply scheduler_invariant; exact demo_switched_reachable|reflexivity].
Defined.

Lemma exit_status_retained_witness :
  (wait_for_task_resume demo_exited 1).1 = 7 /\
  (wait_for_task_resume (wait_for_task_resume demo_exited 1).2 1).1 = ENOENT.
Proof.
  pose (cur := default (demo_task 0 0 Dead)
                 (sc_tasks (ts_sched demo_switched) !! sc_current (ts_sched demo_switched))).
  refine (exit_status_retained demo_memory demo_switched cur 7 demo_exited
            [ESwitchCr3 None 0] demo_exited demo_switched_reachable _ _ _ _).
  - vm_compute. reflexivity.
  - vm_compute. discriminate.
  - vm_compute. reflexivity.
  - apply rtc_refl.
Defined.

Lemma sweep_dead_reaps_witness :
  exists s' effs,
    sweep_dead demo_memory (mkSched [demo_task 0 1 Dead; demo_task 1 1 Running; demo_task 2 1 Dead] 1 3)
      = Some (s', effs) /\
    sc_tasks s' = [demo_task 1 1 Running] /\ sc_tasks s' !! sc_current s' = Some (demo_task 1 1 Running).
Proof.
  destruct (sweep_dead_reaps demo_memory
    (mkSched [demo_task 0 1 Dead; demo_task 1 1 Running; demo_task 2 1 Dead] 1 3) (demo_task 1 1 Running))
    as (s' & effs & H1 & H2 & H3 & _).
  - reflexivity.
  - discriminate.
  - repeat (apply Forall_cons_2; [intros _; reflexivity|]). apply Forall_nil_2.
  - exists s', effs. split; [exact H1|]. split; [exact H2|exact H3].
Defined.

(** ** Wake-ups *)

(** Task [w] is at index [j] of the list, in state [st]. *)
Definition at_state (tasks : list Task) (j : nat) (w : Z) (st : TaskState) : Prop :=
  exists t, tasks !! j = Some t /\ t_id t = w /\ t_state t = st.

Lemma ids_inj tasks i j t t' :
  NoDup (t_id <$> tasks) -> tasks !! i = Some t -> tasks !! j = Some t' -> t_id t = t_id t' -> i = j.
Proof.
  intros Hnd Hi Hj He. eapply (NoDup_lookup (t_id <$> tasks)); [done| |];
    rewrite list_lookup_fmap; [by rewrite Hi|rewrite Hj; cbn; congruence].
Qed.

Lemma wake_in_wakes tasks j w :
  NoDup (t_id <$> tasks) -> at_state tasks j w Blocked -> at_state (wake_in tasks w) j w Ready.
Proof.
  intros Hnd (t & Ht & Hid & Hst). unfold wake_in.
  destruct (position _ tasks) as [i|] eqn:E.
  - apply position_Some in E as (t' & Ht' & Hb & _). apply Z.eqb_eq in Hb.
    assert (i = j) as -> by (eapply ids_inj; [done..|congruence]). simplify_eq.
    exists (with_state Ready t). rewrite list_lookup_alter_eq, Ht. cbn.
    unfold state_eqb. by rewrite bool_decide_eq_true_2.
  - eapply position_None in E. eapply Forall_lookup_1 in E; [|exact Ht].
    apply Z.eqb_neq in E. done.
Qed.

(** Waking anybody leaves a Ready task Ready, and a task that is not the one
    woken in its state. *)
Lemma wake_in_other tasks id j w st :
  st = Ready \/ id <> w -> at_state tasks j w st -> at_state (wake_in tasks id) j w st.
Proof.
  intros Hor (t & Ht & Hid & Hst). unfold wake_in.
  destruct (position _ tasks) as [i|] eqn:E; [|by exists t].
  destruct (decide (i = j)) as [->|Hne].
  - apply position_Some in E as (t' & Ht' & Hb & _). apply Z.eqb_eq in Hb. simplify_eq.
    destruct Hor as [Hr|?]; [|done]. exists t. rewrite list_lookup_alter_eq, Ht. cbn.
    unfold state_eqb. by rewrite bool_decide_eq_false_2 by congruence.
  - exists t. by rewrite list_lookup_alter_ne.
Qed.

Lemma wake_waiters_ready ws target : forall tasks j w,
  at_state tasks j w Ready -> at_state (wake_waiters ws target tasks).2 j w Ready.
Proof.
  induction ws as [|[[w' tg]|] ws IH]; intros tasks j w Hr; cbn [wake_waiters]; [done| |].
  - destruct (tg =? target).
    + specialize (IH (wake_in tasks w') j w (wake_in_other tasks w' j w Ready (or_introl eq_refl) Hr)).
      by destruct (wake_waiters _ _ _).
    + specialize (IH tasks j w Hr). by destruct (wake_waiters _ _ _).
  - specialize (IH tasks j w Hr). by destruct (wake_waiters _ _ _).
Qed.

Lemma wake_waiters_wakes ws target : forall tasks j w,
  NoDup (t_id <$> tasks) -> Some (w, target) ∈ ws -> at_state tasks j w Blocked ->
  at_state (wake_waiters ws target tasks).2 j w Ready.
Proof.
  induction ws as [|o ws IH]; intros tasks j w Hnd Hin Hb; [set_solver|].
  destruct o as [[w' tg]|]; cbn [wake_waiters].
  - destruct (Z.eqb_spec tg target) as [->|Hne].
    + destruct (decide (w' = w)) as [->|Hw].
      * pose proof (wake_waiters_ready ws target (wake_in tasks w) j w
                      (wake_in_wakes _ _ _ Hnd Hb)). by destruct (wake_waiters _ _ _).
      * specialize (IH (wake_in tasks w') j w).
        destruct (wake_waiters _ _ _). apply IH.
        -- by rewrite (Forall2_same_shape_ids _ _ (wake_in_same_shape _ _)).
        -- apply elem_of_cons in Hin as [?|?]; [congruence|done].
        -- apply wake_in_other; [by right|done].
    + specialize (IH tasks j w Hnd). destruct (wake_waiters _ _ _). apply IH; [|done].
      apply elem_of_cons in Hin as [?|?]; [congruence|done].
  - specialize (IH tasks j w Hnd). destruct (wake_waiters _ _ _). apply IH; [|done].
    apply elem_of_cons in Hin as [?|?]; [congruence|done].
Qed.

Lemma wake_waiters_clears ws target : forall tasks o,
  o ∈ (wake_waiters ws target tasks).1 -> o <> None -> o ∈ ws /\ snd <$> o <> Some target.
Proof.
  induction ws as [|[[w' tg]|] ws IH]; intros tasks o; cbn [wake_waiters]; [set_solver| |].
  - destruct (Z.eqb_spec tg target) as [->|Hne].
    + specialize (IH (wake_in tasks w') o). destruct (wake_waiters _ _ _). cbn.
      intros [->|?]%elem_of_cons ?; [done|]. set_solver.
    + specialize (IH tasks o). destruct (wake_waiters _ _ _). cbn.
      intros [->|?]%elem_of_cons ?; cbn; [split; [set_solver|congruence]|]. set_solver.
  - specialize (IH tasks o). destruct (wake_waiters _ _ _). cbn.
    intros [->|?]%elem_of_cons ?; [done|]. set_solver.
Qed.

Lemma set_state_at tasks i st j w st0 :
  i <> j -> at_state tasks j w st0 -> at_state (set_state i st tasks) j w st0.
Proof. intros Hne (t & ? & ?). exists t. unfold set_state. by rewrite list_lookup_alter_ne. Qed.

(** C15. A registered waiter is not forgotten: when its target exits, the exit
    goes through (it switches to some task), the waiter is Ready, or already
    running, no entry for that target is left in the table, and the waiter's
    wait then returns the exit status. *)
Theorem exit_wakes_waiter read_word sys cur status j w :
  rtc any_step task_init sys ->
  sc_tasks (ts_sched sys) !! sc_current (ts_sched sys) = Some cur ->
  check_stack_canary read_word cur = true ->
  t_parent cur <> t_id cur ->
  Some (w, t_id cur) ∈ ts_waiters sys ->
  at_state (sc_tasks (ts_sched sys)) j w Blocked ->
  exists sys' effs, task_exit read_word sys status = Done (sys', effs) /\
    (at_state (sc_tasks (ts_sched sys')) j w Ready \/
     sc_current (ts_sched sys') = j /\ at_state (sc_tasks (ts_sched sys')) j w Running) /\
    (forall w', Some (w', t_id cur) ∉ ts_waiters sys') /\
    (wait_for_task_resume sys' (t_id cur)).1 = status.
Proof.
  intros Hreach Hc Hcan Hpar Hin Hj. apply reachable_wf in Hreach as Hwf.
  pose proof (yw_sched _ Hwf) as Hs. pose proof (sw_tasks _ Hs) as Htw.
  set (s := ts_sched sys) in *.
  assert (sc_current s <> j) as Hne.
  { intros <-. destruct Hj as (t & Ht & _ & Hst). destruct (sw_current _ Hs) as (t' & Ht' & Hr).
    congruence. }
  pose proof (set_state_tasks_wf (sc_current s) Dead _ _ Htw) as Hw1.
  pose proof (wake_waiters_wakes (ts_waiters sys) (t_id cur) _ j w (tw_ids _ _ Hw1) Hin
    (set_state_at _ _ Dead _ _ _ Hne Hj)) as Hrdy.
  destruct (task_exit read_word sys status) as [ [sys' effs]| |] eqn:He;
    pose proof He as Hex; unfold task_exit in He; fold s in He; rewrite Hc, Hcan in He;
    cbn [negb] in He;
    pose proof (wake_waiters_clears (ts_waiters sys) (t_id cur)
      (set_state (sc_current s) Dead (sc_tasks s))) as Hclr;
    pose proof (wake_waiters_same_shape (ts_waiters sys) (t_id cur)
      (set_state (sc_current s) Dead (sc_tasks s))) as Hsh;
    destruct (wake_waiters _ _ _) as [ws' ts']; cbn [fst snd] in *;
    specialize (Hsh _ _ eq_refl);
    destruct (find_next_ready _ _) as [next|] eqn:Hn; unfold switch_to in He.
  - destruct (ts' !! next) as [tn|] eqn:Htn; [|done]. injection He as <- <-.
    exists (mkTaskSys (mkSched (set_state next Running ts') next (sc_next_id s)) (ts_sleep_queue sys) ws'
       (reap_children_of (record_exit (ts_exit_records sys) (t_id cur) (t_parent cur) status) (t_id cur))),
      ([] ++ [ESwitchCr3 (t_page_table tn) (t_stack_top tn)]).
    split; [done|]. cbn. split; [|split].
    + destruct (decide (next = j)) as [->|Hnj]; [right|left; by apply set_state_at].
      split; [done|]. destruct Hrdy as (t & Ht & Hid & _). exists (with_state Running t).
      unfold set_state. by rewrite list_lookup_alter_eq, Ht.
    + intros w' Hw'. destruct (Hclr _ Hw') as [_ Hx]; [done|]. by apply Hx.
    + eapply (resume_reads (t_id cur) (t_parent cur)).
      * by eapply task_exit_wf.
      * by eapply task_exit_records.
  - done.
  - by destruct (ts' !! next).
  - exfalso. destruct Hrdy as (t & Ht & _ & Hst).
    eapply find_next_ready_complete; [|exact Hn|exact Ht|exact Hst].
    eapply tasks_wf_shape in Hw1; [|exact Hsh]. apply Hw1.
  - exfalso. apply find_next_ready_sound in Hn as (t & Ht & _). by rewrite Ht in He.
  - done.
Qed.

(** ** Waits that are not registered *)

Definition blocked_in (w : Z) (tasks : list Task) : Prop := exists j, at_state tasks j w Blocked.

(** Task [w] is Blocked and no table will wake it. *)
Definition forgotten (w : Z) (sys : TaskSys) : Prop :=
  blocked_in w (sc_tasks (ts_sched sys)) /\
  (forall x, Some (w, x) ∉ ts_waiters sys) /\ (forall x, Some (w, x) ∉ ts_sleep_queue sys).

Lemma set_state_blocked tasks i t st w :
  tasks !! i = Some t -> t_state t <> Blocked -> blocked_in w tasks ->
  blocked_in w (set_state i st tasks).
Proof.
  intros Ht Hst (j & Hj). exists j. apply set_state_at; [|done].
  intros ->. destruct Hj as (t' & Ht' & _ & Hb). congruence.
Qed.

Lemma set_current_blocked s st w :
  sched_wf s -> blocked_in w (sc_tasks s) -> blocked_in w (set_state (sc_current s) st (sc_tasks s)).
Proof.
  intros [_ (t & Ht & Hr) _]. apply (set_state_blocked _ _ t); [done|congruence].
Qed.

Lemma switch_blocked tasks start next n e s e' w :
  find_next_ready tasks start = Some next -> switch_to tasks next n e = Done (s, e') ->
  blocked_in w tasks -> blocked_in w (sc_tasks s).
Proof.
  intros (t & Ht & Hr)%find_next_ready_sound. unfold switch_to. rewrite Ht. intros [= <- _].
  apply (set_state_blocked _ _ t); [done|congruence].
Qed.

Lemma sweep_blocked rw s s' e w :
  sweep_dead rw s = Some (s', e) -> blocked_in w (sc_tasks s) -> blocked_in w (sc_tasks s').
Proof.
  intros (Hts & _)%sweep_dead_spec (j & t & Ht & Hid & Hb). unfold blocked_in, at_state.
  assert (t ∈ sc_tasks s') as (k & Hk)%list_elem_of_lookup; [|by exists k, t].
  rewrite Hts. apply elem_of_List_filter. split; [by eapply elem_of_lookup|].
  apply alive_true. congruence.
Qed.

Lemma yield_blocked rw s s' e w :
  sched_wf s -> yield_task rw s = Done (s', e) ->
  blocked_in w (sc_tasks s) -> blocked_in w (sc_tasks s').
Proof.
  intros Hwf. unfold yield_task. destruct (sc_tasks s !! _) as [c0|]; [|done]. destruct (negb _); [done|].
  destruct (sweep_dead rw s) as [ [s1 e1]|] eqn:Es; [|done].
  destruct (sweep_dead_wf _ _ _ _ Hwf Es) as [Hwf1 _]. intros H Hb.
  apply (sweep_blocked _ _ _ _ _ Es) in Hb.
  destruct (_ <=? 1)%nat; [by simplify_eq|].
  destruct (find_next_ready _ _) as [next|] eqn:Ef; [|by simplify_eq].
  destruct (next =? sc_current s1)%nat eqn:En; [by simplify_eq|]. apply Nat.eqb_neq in En.
  apply find_next_ready_sound in Ef as (t & Ht & Hr). unfold switch_to in H.
  unfold set_state at 1 in H. rewrite list_lookup_alter_ne, Ht in H by done. injection H as <- _. cbn.
  apply (set_state_blocked _ _ t); [|congruence|by apply set_current_blocked].
  unfold set_state. by rewrite list_lookup_alter_ne.
Qed.

Lemma block_and_yield_blocked rw s s' e w :
  sched_wf s -> block_and_yield rw s = Done (s', e) ->
  blocked_in w (sc_tasks s) -> blocked_in w (sc_tasks s').
Proof.
  intros Hwf. unfold block_and_yield. destruct (sc_tasks s !! _) as [c0|]; [|done]. destruct (negb _); [done|].
  destruct (sweep_dead rw s) as [ [s1 e1]|] eqn:Es; [|done].
  destruct (sweep_dead_wf _ _ _ _ Hwf Es) as [Hwf1 _].
  destruct (find_next_ready _ _) as [next|] eqn:Ef; [|done]. intros Hsw Hb.
  eapply switch_blocked; [exact Ef|exact Hsw|]. apply set_current_blocked; [done|].
  by eapply sweep_blocked.
Qed.

(** The caller itself is Blocked after [block_and_yield]. *)
Lemma block_and_yield_self rw s s' e cur :
  sched_wf s -> sc_tasks s !! sc_current s = Some cur -> block_and_yield rw s = Done (s', e) ->
  blocked_in (t_id cur) (sc_tasks s').
Proof.
  intros Hwf Hc. unfold block_and_yield. rewrite Hc. destruct (negb _); [done|].
  destruct (sweep_dead rw s) as [ [s1 e1]|] eqn:Es; [|done].
  destruct (sw_current _ Hwf) as (c' & Hc' & Hr). rewrite Hc in Hc'. injection Hc' as <-.
  apply sweep_dead_spec in Es as (_ & _ & _ & Hcur). specialize (Hcur cur Hc ltac:(congruence)).
  destruct (find_next_ready _ _) as [next|] eqn:Ef; [|done]. intros Hsw.
  eapply switch_blocked; [exact Ef|exact Hsw|]. exists (sc_current s1), (with_state Blocked cur).
  unfold set_state. by rewrite list_lookup_alter_eq, Hcur.
Qed.

Lemma wake_in_blocked tasks id w : id <> w -> blocked_in w tasks -> blocked_in w (wake_in tasks id).
Proof. intros Hne (j & Hj). exists j. apply wake_in_other; [by right|done]. Qed.

Lemma wake_waiters_blocked ws target w : forall tasks,
  (forall x, Some (w, x) ∉ ws) -> blocked_in w tasks ->
  blocked_in w (wake_waiters ws target tasks).2.
Proof.
  induction ws as [|[[w' tg]|] ws IH]; intros tasks Hno Hb; cbn [wake_waiters]; [done| |].
  - assert (w' <> w) by (intros ->; apply (Hno tg), list_elem_of_here).
    destruct (tg =? target).
    + pose proof (IH (wake_in tasks w') ltac:(set_solver) (wake_in_blocked _ _ _ ltac:(done) Hb)).
      by destruct (wake_waiters _ _ _).
    + pose proof (IH tasks ltac:(set_solver) Hb). by destruct (wake_waiters _ _ _).
  - pose proof (IH tasks ltac:(set_solver) Hb). by destruct (wake_waiters _ _ _).
Qed.

Lemma fill_first_elem {A} (slots : list (option A)) x o :
  o ∈ fill_first slots x -> o ∈ slots \/ o = Some x.
Proof.
  induction slots as [|[y|] slots IH]; cbn; [set_solver|..]; rewrite !elem_of_cons; naive_solver.
Qed.

Lemma fill_first_full {A} (slots : list (option A)) x :
  Forall is_Some slots -> fill_first slots x = slots.
Proof. induction 1 as [|o slots [y ->] _ IH]; cbn; [done|]. by rewrite IH. Qed.

Lemma expire_sleepers_spec q tick : forall w,
  (forall x, Some (w, x) ∉ q) ->
  (w ∉ (expire_sleepers q tick).1) /\ (forall x, Some (w, x) ∉ (expire_sleepers q tick).2).
Proof.
  induction q as [|[[id wt]|] q IH]; intros w Hno; cbn [expire_sleepers]; [set_solver|..].
  - assert (id <> w) by (intros ->; apply (Hno wt), list_elem_of_here).
    destruct (IH w ltac:(set_solver)) as [H1 H2]. destruct (expire_sleepers q tick) as [ids q'].
    cbn in H1, H2. destruct (wt <=? tick); set_solver.
  - destruct (IH w ltac:(set_solver)) as [H1 H2]. destruct (expire_sleepers q tick) as [ids q'].
    cbn in H1, H2. set_solver.
Qed.

Lemma wake_all_blocked w ids : forall s,
  w ∉ ids -> blocked_in w (sc_tasks s) -> blocked_in w (sc_tasks (foldl wake_task s ids)).
Proof.
  induction ids as [|id ids IH]; intros s Hni Hb; cbn [foldl]; [done|].
  apply IH; [set_solver|]. apply wake_in_blocked; [set_solver|done].
Qed.

Lemma app_blocked w tasks t : blocked_in w tasks -> blocked_in w (tasks ++ [t]).
Proof.
  intros (j & t' & Hj & H). exists j, t'. by rewrite lookup_app_l by (by eapply lookup_lt_Some).
Qed.

Lemma alter_blocked (f : Task -> Task) i w tasks :
  (forall t, t_id (f t) = t_id t /\ (t_state t = Blocked -> t_state (f t) = Blocked)) ->
  blocked_in w tasks -> blocked_in w (alter f i tasks).
Proof.
  intros Hf (j & t & Hj & Hid & Hb). destruct (decide (i = j)) as [->|Hne].
  - exists j, (f t). rewrite list_lookup_alter_eq, Hj. destruct (Hf t). naive_solver.
  - exists j, t. by rewrite list_lookup_alter_ne.
Qed.

(** A running task is not a Blocked one. *)
Lemma blocked_not_current s w cur :
  sched_wf s -> blocked_in w (sc_tasks s) -> sc_tasks s !! sc_current s = Some cur -> t_id cur <> w.
Proof.
  intros [[Hnd _ _] (c & Hc & Hr) _] (j & t & Ht & Hid & Hb) Hcur He.
  assert (sc_current s = j) as <- by (eapply ids_inj; [done|exact Hcur|exact Ht|congruence]).
  congruence.
Qed.

Lemma fill_first_other w (q : list (option (Z * Z))) x :
  x.1 <> w -> (forall y, Some (w, y) ∉ q) -> forall y, Some (w, y) ∉ fill_first q x.
Proof.
  intros Hne Hno y [Hin|He]%fill_first_elem; [by apply (Hno y)|]. injection He as <-. done.
Qed.

Lemma exit_forgotten rw w sys st sys' e :
  sys_wf sys -> forgotten w sys -> task_exit rw sys st = Done (sys', e) -> forgotten w sys'.
Proof.
  intros Hwf (Hb & Hw & Hq). unfold task_exit. destruct (_ !! _) as [cur|]; [|done].
  destruct (negb _); [done|].
  pose proof (wake_waiters_blocked (ts_waiters sys) (t_id cur) w _ Hw
    (set_current_blocked _ Dead _ (yw_sched _ Hwf) Hb)) as Hb1.
  pose proof (fun x => wake_waiters_clears (ts_waiters sys) (t_id cur)
    (set_state (sc_current (ts_sched sys)) Dead (sc_tasks (ts_sched sys))) (Some (w, x))) as Hclr.
  destruct (wake_waiters _ _ _) as [ws ts]. destruct (find_next_ready _ _) as [next|] eqn:Ef; [|done].
  destruct (switch_to _ _ _ _) as [ [s' e']| |] eqn:Esw; [|done..]. intros [= <- _].
  split; [by eapply switch_blocked|]. split; [|done].
  intros x Hx. destruct (Hclr x Hx) as [? _]; [done|]. by apply (Hw x).
Qed.

Lemma kill_forgotten w sys id b sys' :
  id <> w -> forgotten w sys -> kill_task sys id = Done (b, sys') -> forgotten w sys'.
Proof.
  intros Hne Hf. pose proof Hf as (Hb & Hw & Hq). unfold kill_task.
  destruct (id =? 0); [by intros [= _ <-]|]. destruct (_ !! _) as [c0|]; [|done].
  destruct (id =? _); [by intros [= _ <-]|]. destruct (position _ _) as [i|] eqn:Ep; [|by intros [= _ <-]].
  apply position_Some in Ep as (v & Hv & Hvb & _). apply andb_prop in Hvb as [Hid _].
  apply Z.eqb_eq in Hid.
  assert (blocked_in w (set_state i Dead (sc_tasks (ts_sched sys)))) as Hb0.
  { destruct Hb as (j & Hj). exists j. apply set_state_at; [|done]. intros ->.
    destruct Hj as (t & Ht & Hti & _). congruence. }
  pose proof (wake_waiters_blocked (ts_waiters sys) id w _ Hw Hb0) as Hb1.
  pose proof (fun x => wake_waiters_clears (ts_waiters sys) id
    (set_state i Dead (sc_tasks (ts_sched sys))) (Some (w, x))) as Hclr.
  destruct (wake_waiters _ _ _) as [ws ts]. intros [= _ <-].
  split; [done|]. split; [|done].
  intros x Hx. destruct (Hclr x Hx) as [? _]; [done|]. by apply (Hw x).
Qed.

Lemma wait_enter_forgotten rw w sys target r :
  sys_wf sys -> forgotten w sys -> wait_for_task_enter rw sys target = Done r ->
  forgotten w (match r with inl sys' => sys' | inr (sys', _) => sys' end).
Proof.
  intros Hwf (Hb & Hw & Hq). unfold wait_for_task_enter.
  destruct (_ =? 0); [by intros [= <-]|]. destruct (_ !! _) as [cur|] eqn:Hc; [|done].
  destruct (block_and_yield _ _) as [ [s' e']| |] eqn:Eb; [|done..]. intros [= <-].
  split; [by eapply block_and_yield_blocked; [apply yw_sched|exact Eb|]|]. split; [|done].
  apply fill_first_other; [|done]. cbn. by eapply blocked_not_current; [apply yw_sched| |].
Qed.

Lemma sleep_forgotten rw w sys tick sys' e :
  sys_wf sys -> forgotten w sys -> sleep_until rw sys tick = Done (sys', e) -> forgotten w sys'.
Proof.
  intros Hwf (Hb & Hw & Hq). unfold sleep_until. destruct (_ !! _) as [cur|] eqn:Hc; [|done].
  destruct (block_and_yield _ _) as [ [s' e']| |] eqn:Eb; [|done..]. intros [= <- _].
  split; [by eapply block_and_yield_blocked; [apply yw_sched|exact Eb|]|]. split; [done|].
  apply fill_first_other; [|done]. cbn. by eapply blocked_not_current; [apply yw_sched| |].
Qed.

Lemma step_forgotten rw l w sys sys' :
  sys_step rw l sys sys' -> sys_wf sys -> forgotten w sys -> l <> LWake w -> l <> LKill w ->
  forgotten w sys'.
Proof.
  intros Hstep Hwf Hf Hl Hl'. pose proof Hf as (Hb & Hw & Hq). pose proof (yw_sched _ Hwf) as Hs.
  destruct Hstep as [sys s' e E|sys s' e E|sys st sys' e E|sys id b sys' E|sys target sys' E
    |sys target sys' e E|sys target r sys' E|sys tick sys' e E|sys tick|sys id|sys id|sys id p Hp
    |sys base query entry id s' e E|sys n base query entry top caps tramp pt name id s' n' e E].
  - split; [by eapply yield_blocked|done].
  - split; [by eapply block_and_yield_blocked|done].
  - by eapply exit_forgotten.
  - eapply kill_forgotten; [|done|done]. congruence.
  - by apply (wait_enter_forgotten _ _ _ _ _ Hwf Hf E).
  - by apply (wait_enter_forgotten _ _ _ _ _ Hwf Hf E).
  - unfold wait_for_task_resume in E. destruct (consume_exit _ _). by simplify_eq.
  - by eapply sleep_forgotten.
  - unfold wake_sleepers. destruct (expire_sleepers_spec (ts_sleep_queue sys) tick w Hq) as [H1 H2].
    destruct (expire_sleepers _ _) as [ids q]. split; [by apply wake_all_blocked|done].
  - split; [|done]. apply wake_in_blocked; [congruence|done].
  - split; [|done]. cbn. unfold block_task. destruct (position _ _); [|done].
    apply alter_blocked; [|done]. intros t. unfold state_eqb. case_bool_decide; [done|tauto].
  - split; [|done]. cbn. unfold set_task_priority. destruct (2 <? p); [done|].
    destruct (position _ _); [|done]. by apply alter_blocked.
  - unfold spawn_kernel_task in E. destruct (query _); [|done]. destruct (_ !! _); [|done].
    injection E as _ <- _. split; [by apply app_blocked|done].
  - unfold spawn_userspace_task in E. destruct (query _); [|done]. destruct (_ !! _); [|done].
    destruct (inherit_all _ _ _ _) as [ct cn]. injection E as _ <- _ _.
    split; [by apply app_blocked|done].
Qed.

(** When all 32 entries of the waiter table are taken, [wait_for_task] on a
    live target still blocks its caller but records nothing: from then on, no
    exit (the target's included), kill, tick or spawn makes it runnable again;
    only an unrelated [wake_task] of that very id, or killing it, can. *)
Theorem full_waiter_table_blocks_forever read_word sys cur target sys1 effs sys2 :
  rtc any_step task_init sys ->
  sc_tasks (ts_sched sys) !! sc_current (ts_sched sys) = Some cur ->
  Forall is_Some (ts_waiters sys) ->
  (forall x, Some (t_id cur, x) ∉ ts_waiters sys) ->
  (forall x, Some (t_id cur, x) ∉ ts_sleep_queue sys) ->
  wait_for_task_enter read_word sys target = Done (inr (sys1, effs)) ->
  rtc (fun a b => exists rw l, sys_step rw l a b /\ l <> LWake (t_id cur) /\ l <> LKill (t_id cur))
    sys1 sys2 ->
  blocked_in (t_id cur) (sc_tasks (ts_sched sys2)).
Proof.
  intros Hr Hc Hfull Hw Hq He Hrun. apply reachable_wf in Hr as Hwf.
  assert (sys_wf sys1 /\ forgotten (t_id cur) sys1) as Hsys1.
  { split; [by eapply (sys_step_wf read_word (LWaitEnter target)); [eapply step_wait_block|]|].
    unfold wait_for_task_enter in He. destruct (_ =? 0); [done|]. rewrite Hc in He.
    destruct (block_and_yield _ _) as [ [s' e']| |] eqn:Eb; [|done..]. injection He as <- _.
    split; [eapply block_and_yield_self; [apply yw_sched|..]; done|]. cbn.
    by rewrite fill_first_full. }
  assert (sys_wf sys2 /\ forgotten (t_id cur) sys2) as [_ [? _]]; [|done].
  revert Hsys1. clear - Hrun. induction Hrun as [|a b c (rw & l & Hs & H1 & H2) _ IH]; [done|].
  intros [Hwf Hf]. apply IH. split; [by eapply sys_step_wf|by eapply step_forgotten].
Qed.

(** Concrete runs, for kernel tasks on [demo_memory]. *)
Definition demo_exec (sys : TaskSys) (l : label) : option TaskSys :=
  match l with
  | LSpawnKernel base entry =>
      match spawn_kernel_task (ts_sched sys) base (fun _ => Some 0) entry with
      | Done (_, s, _) => Some (with_sched sys s) | _ => None end
  | LYield =>
      match yield_task demo_memory (ts_sched sys) with
      | Done (s, _) => Some (with_sched sys s) | _ => None end
  | LExit st => match task_exit demo_memory sys st with Done (sys', _) => Some sys' | _ => None end
  | LWaitEnter target =>
      match wait_for_task_enter demo_memory sys target with
      | Done (inr (sys', _)) => Some sys' | _ => None end
  | _ => None
  end.

Fixpoint demo_run (sys : TaskSys) (ls : list label) : TaskSys :=
  match ls with
  | [] => sys
  | l :: ls' => match demo_exec sys l with Some sys' => demo_run sys' ls' | None => sys end
  end.

Lemma demo_exec_step sys l sys' : demo_exec sys l = Some sys' -> sys_step demo_memory l sys sys'.
Proof.
  destruct l; unfold demo_exec; try done.
  - destruct (yield_task _ _) as [ [s e]| |] eqn:E; intros [= <-]. by econstructor.
  - destruct (task_exit _ _ _) as [ [s e]| |] eqn:E; intros [= <-]. by econstructor.
  - destruct (wait_for_task_enter _ _ _) as [ [s|[s e]]| |] eqn:E; intros [= <-].
    by eapply step_wait_block.
  - destruct (spawn_kernel_task _ _ _ _) as [ [[i s] e]| |] eqn:E; intros [= <-]. by econstructor.
Qed.

Lemma demo_run_steps (P : label -> bool) ls : forall sys,
  forallb P ls = true ->
  rtc (fun a b => exists l, sys_step demo_memory l a b /\ P l = true) sys (demo_run sys ls).
Proof.
  induction ls as [|l ls IH]; intros sys HP; cbn in *; [done|].
  apply andb_prop in HP as [HP HPs].
  destruct (demo_exec sys l) as [sys'|] eqn:E; [|done].
  eapply rtc_l; [|by apply IH]. exists l. split; [by apply demo_exec_step|done].
Qed.

Lemma demo_run_reachable ls : rtc any_step task_init (demo_run task_init ls).
Proof.
  eapply rtc_subrel; [|apply (demo_run_steps (fun _ => true))].
  - intros a b (l & ? & _). by exists demo_memory, l.
  - by induction ls.
Qed.

(** Task 0 waits for task 1. *)
Definition demo_waiting : TaskSys :=
  demo_run task_init [LSpawnKernel 4096 100; LWaitEnter 1].

Lemma exit_wakes_waiter_witness :
  exists sys' effs, task_exit demo_memory demo_waiting 7 = Done (sys', effs) /\
    (wait_for_task_resume sys' 1).1 = 7.
Proof.
  pose (cur := default (demo_task 0 0 Dead)
                 (sc_tasks (ts_sched demo_waiting) !! sc_current (ts_sched demo_waiting))).
  destruct (exit_wakes_waiter demo_memory demo_waiting cur 7 0 0) as (sys' & effs & H1 & _ & _ & H4).
  - apply demo_run_reachable.
  - vm_compute. reflexivity.
  - vm_compute. reflexivity.
  - vm_compute. discriminate.
  - apply (list_elem_of_here (Some (0, 1))).
  - exists (default cur (sc_tasks (ts_sched demo_waiting) !! 0%nat)). vm_compute. auto.
  - exists sys', effs. split; [exact H1|exact H4].
Defined.

(** 34 spawned tasks; tasks 0 to 31 wait for task 34, which fills the table;
    task 32 waits too, and is not woken when 34 exits. *)
Definition demo_full : TaskSys :=
  demo_run task_init
    (((fun k => LSpawnKernel (4096 * (8 * Z.of_nat k)) 100) <$> seq 1 34) ++ replicate 32 (LWaitEnter 34)).

Definition demo_full_waiting : TaskSys := demo_run demo_full [LWaitEnter 34].
Definition demo_full_after : TaskSys := demo_run demo_full_waiting [LYield; LExit 5; LYield; LYield].

Definition harmless (w : Z) (l : label) : bool :=
  match l with LWake id | LKill id => negb (id =? w) | _ => true end.

Lemma full_waiter_table_blocks_forever_witness :
  blocked_in 32 (sc_tasks (ts_sched demo_full_after)) /\
  task_status_raw (ts_sched demo_full_after) 34 = 0.
Proof.
  split; [|vm_compute; reflexivity].
  pose (cur := default (demo_task 0 0 Dead)
                 (sc_tasks (ts_sched demo_full) !! sc_current (ts_sched demo_full))).
  assert (t_id cur = 32) as Hid by (vm_compute; reflexivity). rewrite <- Hid.
  refine (full_waiter_table_blocks_forever demo_memory demo_full cur 34 demo_full_waiting
    [ESwitchCr3 None (stack_top_of (4096 * (8 * 33)))] demo_full_after _ _ _ _ _ _ _).
  - apply demo_run_reachable.
  - vm_compute. reflexivity.
  - apply (bool_decide_eq_true_1 (Forall is_Some (ts_waiters demo_full))). vm_compute. reflexivity.
  - intros x Hx. vm_compute in Hx. repeat (apply elem_of_cons in Hx as [Hx|Hx]; [discriminate Hx|]).
    by apply elem_of_nil in Hx.
  - intros x Hx. vm_compute in Hx. repeat (apply elem_of_cons in Hx as [Hx|Hx]; [discriminate Hx|]).
    by apply elem_of_nil in Hx.
  - vm_compute. reflexivity.
  - eapply rtc_subrel; [|apply (demo_run_steps (harmless 32) [LYield; LExit 5; LYield; LYield]);
                         reflexivity].
    intros a b (l & Hs & Hh). exists demo_memory, l. split; [exact Hs|].
    rewrite Hid. split; intros ->; discriminate Hh.
Defined.

(** ** User mappings *)

(** One-page ranges, in ascending order, that do not overlap. *)
Definition vmas_wf (vmas : list (Z * Z)) : Prop :=
  Forall (fun r => r.2 = r.1 + PAGE) vmas /\
  forall i j a b, (i < j)%nat -> vmas !! i = Some a -> vmas !! j = Some b -> a.2 <= b.1.

Definition overlaps (va : Z) (r : Z * Z) : Prop := r.1 < va + PAGE /\ va < r.2.

Lemma vmas_wf_app l1 l2 :
  vmas_wf (l1 ++ l2) <->
  vmas_wf l1 /\ vmas_wf l2 /\ (forall a b, a ∈ l1 -> b ∈ l2 -> a.2 <= b.1).
Proof.
  assert (forall i, (l1 ++ l2) !! (length l1 + i)%nat = l2 !! i) as Hr.
  { intros i. rewrite lookup_app_r by lia. f_equal. lia. }
  unfold vmas_wf. rewrite Forall_app. split.
  - intros [[H1 H2] H]. repeat split; try done.
    + intros i j a b Hij Ha Hb.
      apply (H i j); [done|rewrite lookup_app_l by (by eapply lookup_lt_Some); done..].
    + intros i j a b Hij Ha Hb. apply (H (length l1 + i) (length l1 + j))%nat; [lia|by rewrite Hr..].
    + intros a b (i & Ha)%list_elem_of_lookup (j & Hb)%list_elem_of_lookup.
      pose proof (lookup_lt_Some _ _ _ Ha).
      apply (H i (length l1 + j)%nat); [lia|by rewrite lookup_app_l|by rewrite Hr].
  - intros ([H1 H1'] & [H2 H2'] & H). split; [done|]. intros i j a b Hij Ha Hb.
    apply lookup_app_Some in Ha as [Ha|[Hi Ha]]; apply lookup_app_Some in Hb as [Hb|[Hj Hb]].
    + by apply (H1' i j).
    + apply H; by eapply elem_of_lookup.
    + apply lookup_lt_Some in Hb. lia.
    + apply (H2' (i - length l1) (j - length l1))%nat; [lia|done..].
Qed.

Lemma vmas_wf_single va : vmas_wf [(va, va + PAGE)].
Proof.
  split; [by apply Forall_singleton|]. intros [|i] [|j] a b Hij Ha Hb; try lia; [by destruct j|done].
Qed.

Lemma vmas_wf_ends vmas i j a b :
  vmas_wf vmas -> (i <= j)%nat -> vmas !! i = Some a -> vmas !! j = Some b -> a.1 <= b.1.
Proof.
  intros [Hp Hs] Hij Ha Hb. destruct (decide (i = j)) as [->|Hne]; [rewrite Ha in Hb; by simplify_eq|].
  assert (a.2 <= b.1) by (apply (Hs i j); [lia|done..]).
  eapply Forall_lookup_1 in Hp; [|exact Ha]. unfold PAGE in *. lia.
Qed.

Lemma vma_insert_gap vmas k va :
  vmas_wf vmas ->
  (forall b, b ∈ take k vmas -> b.2 <= va) -> (forall b, b ∈ drop k vmas -> va + PAGE <= b.1) ->
  Forall (fun r => ~ overlaps va r) vmas /\
  vmas_wf (take k vmas ++ (va, va + PAGE) :: drop k vmas) /\
  take k vmas ++ (va, va + PAGE) :: drop k vmas ≡ₚ (va, va + PAGE) :: vmas.
Proof.
  intros Hwf Hl Hg.
  rewrite <- (take_drop k vmas) in Hwf. apply vmas_wf_app in Hwf as (Hw1 & Hw2 & Hw12).
  split; [|split].
  - rewrite <- (take_drop k vmas). apply Forall_app.
    split; apply Forall_forall; intros r Hr [? ?];
      [pose proof (Hl r Hr)|pose proof (Hg r Hr)]; lia.
  - apply vmas_wf_app. split; [done|]. split.
    + apply (vmas_wf_app [_]). split; [apply vmas_wf_single|]. split; [done|].
      intros a b ->%list_elem_of_singleton Hb. by apply Hg.
    + intros a b Ha [->|Hb]%elem_of_cons; [by apply Hl|by apply Hw12].
  - rewrite <- Permutation_middle. by rewrite take_drop.
Qed.

(** The two neighbours of the insertion point decide: no other range can
    overlap the new page. *)
Lemma vma_insert_list_spec vmas va :
  vmas_wf vmas ->
  let '(ok, vmas') := vma_insert_list vmas va in
  (ok = true /\ Forall (fun r => ~ overlaps va r) vmas /\ vmas_wf vmas' /\
     vmas' ≡ₚ (va, va + PAGE) :: vmas) \/
  (ok = false /\ vmas' = vmas /\ exists r, r ∈ vmas /\ overlaps va r).
Proof.
  intros Hwf. unfold vma_insert_list.
  destruct (partition_point_spec (fun r => r.1 <? va) vmas) as (Hk & Hlo & Hhi).
  { intros i j x y Hij Hx Hy. rewrite !Z.ltb_lt.
    pose proof (vmas_wf_ends vmas i j x y Hwf ltac:(lia) Hx Hy). lia. }
  set (k := partition_point _ _) in *.
  assert (forall b, b ∈ take k vmas -> b.1 < va) as Hbefore.
  { intros b (j & Hj)%list_elem_of_lookup. apply lookup_take_Some in Hj as [Hj Hjk].
    by apply Z.ltb_lt, (Hlo j). }
  assert (forall b, b ∈ drop k vmas -> va <= b.1) as Hafter.
  { intros b (j & Hj)%list_elem_of_lookup. rewrite lookup_drop in Hj.
    apply Z.ltb_ge, (Hhi (k + j)%nat); [lia|done]. }
  destruct (match k with O => false | S p => _ end) eqn:Eb.
  { destruct k as [|p]; [done|]. destruct (vmas !! p) as [r|] eqn:Hr; [|done]. right.
    apply Z.ltb_lt in Eb. do 2 (split; [done|]). exists r. split; [by eapply elem_of_lookup|].
    split; [|done]. assert ((r.1 <? va) = true) as Hlt by (apply (Hlo p); [lia|done]).
    apply Z.ltb_lt in Hlt. unfold PAGE. lia. }
  destruct (match vmas !! k with Some _ => _ | None => false end) eqn:Ea.
  { destruct (vmas !! k) as [r|] eqn:Hr; [|done]. right. apply Z.ltb_lt in Ea.
    do 2 (split; [done|]). exists r. split; [by eapply elem_of_lookup|]. split; [done|].
    assert ((r.1 <? va) = false) as Hge by (apply (Hhi k); [lia|done]). apply Z.ltb_ge in Hge.
    destruct Hwf as [Hp _]. eapply Forall_lookup_1 in Hp; [|exact Hr]. unfold PAGE in *. lia. }
  left. split; [done|].
  assert (forall b, b ∈ take k vmas -> b.2 <= va) as Hl.
  { intros b (j & Hj)%list_elem_of_lookup. apply lookup_take_Some in Hj as [Hj Hjk].
    destruct k as [|p]; [lia|]. destruct (lookup_lt_is_Some_2 vmas p) as [r Hr]; [lia|].
    rewrite Hr in Eb. apply Z.ltb_ge in Eb.
    destruct (decide (j = p)) as [->|Hne]; [rewrite Hr in Hj; by simplify_eq|].
    pose proof (proj2 Hwf j p b r ltac:(lia) Hj Hr). destruct Hwf as [Hp _].
    eapply Forall_lookup_1 in Hp; [|exact Hr]. unfold PAGE in *. lia. }
  assert (forall b, b ∈ drop k vmas -> va + PAGE <= b.1) as Hg.
  { intros b (j & Hj)%list_elem_of_lookup. rewrite lookup_drop in Hj.
    pose proof (lookup_lt_Some _ _ _ Hj). destruct (lookup_lt_is_Some_2 vmas k) as [r Hr]; [lia|].
    rewrite Hr in Ea. apply Z.ltb_ge in Ea.
    pose proof (vmas_wf_ends vmas k (k + j) r b Hwf ltac:(lia) Hr Hj). lia. }
  by apply vma_insert_gap.
Qed.

Lemma vma_remove_list_spec vmas va :
  vmas_wf vmas ->
  let '(ok, vmas') := vma_remove_list vmas va in
  (ok = true /\ vmas_wf vmas' /\ vmas ≡ₚ (va, va + PAGE) :: vmas') \/
  (ok = false /\ vmas' = vmas /\ (va, va + PAGE) ∉ vmas).
Proof.
  intros Hwf. unfold vma_remove_list.
  assert (search_sorted (fun r : Z * Z => Z.compare r.1 va) vmas) as Hss.
  { intros i' j x y Hij Hx Hy. rewrite Z.compare_ngt_iff, Z.compare_lt_iff.
    destruct Hwf as [Hp Hs]. pose proof (Hs i' j x y Hij Hx Hy).
    eapply Forall_lookup_1 in Hp; [|exact Hx]. unfold PAGE in *. lia. }
  pose proof (binary_search_by_spec _ _ Hss) as H.
  destruct (binary_search_by _ vmas) as [i|i].
  - destruct H as (r & Hr & Heq%Z.compare_eq_iff). left. split; [done|].
    assert (r = (va, va + PAGE)) as ->.
    { destruct Hwf as [Hp _]. eapply Forall_lookup_1 in Hp; [|exact Hr]. destruct r; cbn in *. congruence. }
    rewrite delete_take_drop. pose proof (take_drop_middle _ _ _ Hr) as Hmid.
    rewrite <- Hmid in Hwf. apply vmas_wf_app in Hwf as (Hw1 & Hw2 & Hw12).
    apply (vmas_wf_app [_]) in Hw2 as (_ & Hw2 & _). split.
    + apply vmas_wf_app. split; [done|]. split; [done|]. intros a b Ha Hb. apply Hw12; [done|by right].
    + rewrite Permutation_middle. by rewrite Hmid.
  - right. split; [done|]. split; [done|]. intros (j & Hj)%list_elem_of_lookup.
    destruct H as (_ & Hlo & Hhi). destruct (decide (j < i)%nat) as [Hlt|Hge].
    + pose proof (Hlo j _ Hlt Hj) as Hc. cbn in Hc. by rewrite Z.compare_refl in Hc.
    + pose proof (Hhi j _ ltac:(lia) Hj) as Hc. cbn in Hc. by rewrite Z.compare_refl in Hc.
Qed.

(** The scheduler with the current task's mappings replaced. *)
Definition with_current_vmas (s : Scheduler) (vmas : list (Z * Z)) : Scheduler :=
  mkSched (alter (with_vma_list vmas) (sc_current s) (sc_tasks s)) (sc_current s) (sc_next_id s).

(** The record of user pages of the running task is exact. [vma_insert]
    succeeds exactly when no recorded range overlaps the page, and then adds
    that page and nothing else; [vma_remove] succeeds exactly when the page is
    recorded, and removes that page only. Both keep the list sorted and free of
    overlaps, and change no other task. *)
Theorem vma_list_exact s cur va :
  sc_tasks s !! sc_current s = Some cur -> vmas_wf (t_vma_list cur) ->
  (exists ok vmas', vma_insert s va = Some (ok, with_current_vmas s vmas') /\ vmas_wf vmas' /\
     (ok = true <-> Forall (fun r => ~ overlaps va r) (t_vma_list cur)) /\
     (if ok then vmas' ≡ₚ (va, va + PAGE) :: t_vma_list cur else vmas' = t_vma_list cur)) /\
  (exists ok vmas', vma_remove s va = Some (ok, with_current_vmas s vmas') /\ vmas_wf vmas' /\
     (ok = true <-> (va, va + PAGE) ∈ t_vma_list cur) /\
     (if ok then t_vma_list cur ≡ₚ (va, va + PAGE) :: vmas' else vmas' = t_vma_list cur)).
Proof.
  intros Hc Hwf. unfold vma_insert, vma_remove, on_current_vmas. rewrite Hc. split.
  - pose proof (vma_insert_list_spec _ va Hwf) as Hspec.
    destruct (vma_insert_list _ _) as [ok vmas']. exists ok, vmas'. split; [done|].
    destruct Hspec as [(-> & Hno & Hwf' & Hp)|(-> & -> & r & Hr & Ho)]; [done|].
    split; [done|]. split; [|done]. split; [done|]. rewrite Forall_forall. intros Hno.
    by apply Hno in Hr.
  - pose proof (vma_remove_list_spec _ va Hwf) as Hspec.
    destruct (vma_remove_list _ _) as [ok vmas']. exists ok, vmas'. split; [done|].
    destruct Hspec as [(-> & Hwf' & Hp)|(-> & -> & Hno)]; [|done].
    split; [done|]. split; [|done]. split; [|done]. intros _. rewrite Hp. apply list_elem_of_here.
Qed.

Lemma vma_list_exact_witness :
  vma_insert (mkSched [with_vma_list [(4096, 8192); (16384, 20480)] (demo_task 0 1 Running)] 0 1) 8192
    = Some (true, mkSched [with_vma_list [(4096, 8192); (8192, 12288); (16384, 20480)]
                                         (demo_task 0 1 Running)] 0 1) /\
  exists ok vmas',
    vma_insert (mkSched [with_vma_list [(4096, 8192); (16384, 20480)] (demo_task 0 1 Running)] 0 1) 8192
      = Some (ok, with_current_vmas
                    (mkSched [with_vma_list [(4096, 8192); (16384, 20480)] (demo_task 0 1 Running)] 0 1)
                    vmas') /\ vmas_wf vmas'.
Proof.
  split; [vm_compute; reflexivity|].
  destruct (vma_list_exact
    (mkSched [with_vma_list [(4096, 8192); (16384, 20480)] (demo_task 0 1 Running)] 0 1)
    (with_vma_list [(4096, 8192); (16384, 20480)] (demo_task 0 1 Running)) 8192)
    as [(ok & vmas' & H1 & H2 & _) _].
  - reflexivity.
  - split; [repeat (apply Forall_cons_2; [reflexivity|]); apply Forall_nil_2|].
    intros [|[|i]] [|[|j]] a b Hij Ha Hb; cbn in *; simplify_eq; cbn; try lia.
  - exists ok, vmas'. split; [exact H1|exact H2].
Defined.

(** ** The stack and authority of a new task *)

Lemma guard_va_spec base :
  0 <= base -> base + STACK_ALLOC <= 2 ^ 64 ->
  base <= guard_va_of base < base + PAGE /\ guard_va_of base mod PAGE = 0.
Proof.
  intros Hb Ht. unfold STACK_ALLOC, KERNEL_STACK_SIZE, PAGE in *.
  apply (align_up_spec 64 12); lia.
Qed.

Lemma inherit_all_contents caps : forall n from to to' n' c,
  inherit_all n from caps to = (to', n') -> contents to' c ->
  contents to c \/
  exists src, contents from src /\ cap_kind c = cap_kind src /\
    cap_rights c = cap_rights src /\ cap_object c = cap_object src.
Proof.
  induction caps as [|h hs IH]; intros n from to to' n' c; cbn [inherit_all].
  - intros [= <- _]. by left.
  - destruct (cap_inherit n from h to) as [[r to1] n1] eqn:E. intros Hi Hc.
    eapply IH in Hi as [Hc1|?]; [|by right|exact Hc]. by eapply cap_inherit_contents in E.
Qed.

(** The machine word addressed by a store of the new stack frame. *)
Definition store_in (lo hi : Z) (e : effect) : Prop :=
  match e with EWriteWord a _ => lo <= a /\ a + 8 <= hi /\ a mod 8 = 0 | _ => True end.

(** A spawned user task gets a fresh id, the caller as parent and the
    caller's user and group, starts Ready, and holds only authority its parent
    has: each of its capabilities has the kind, object and rights of one of the
    parent's. Its guard page lies inside the stack allocation, the frame stores
    stay between the guard page and the end of the allocation, the stack
    pointer is 16-byte aligned, and the canary the scheduler checks later is
    the word written here. No other task changes. *)
Theorem spawn_userspace_task_confined
    s n base query entry top caps tramp pt name id s' n' effs cur :
  0 <= base -> base + STACK_ALLOC <= 2 ^ 64 ->
  sc_tasks s !! sc_current s = Some cur ->
  spawn_userspace_task s n base query entry top caps tramp pt name = Done (id, s', n', effs) ->
  exists t guard_phys,
    sc_tasks s' = sc_tasks s ++ [t] /\ sc_current s' = sc_current s /\
    t_id t = sc_next_id s /\ id = t_id t /\ sc_next_id s' = id + 1 /\
    t_parent t = t_id cur /\ t_uid t = t_uid cur /\ t_gid t = t_gid cur /\ t_state t = Ready /\
    (forall c, contents (t_cap_table t) c -> exists src, contents (t_cap_table cur) src /\
       cap_kind c = cap_kind src /\ cap_rights c = cap_rights src /\ cap_object c = cap_object src) /\
    t_guard_page t = Some (guard_va_of base, guard_phys) /\
    base <= guard_va_of base /\ guard_va_of base mod PAGE = 0 /\
    t_stack_top t <= base + STACK_ALLOC /\ t_rsp t mod 16 = 0 /\
    Forall (store_in (guard_va_of base + PAGE) (t_stack_top t)) effs /\
    EWriteWord (guard_va_of base + PAGE) STACK_CANARY ∈ effs.
Proof.
  intros Hb Ht Hc. unfold spawn_userspace_task.
  destruct (guard_va_spec base Hb Ht) as [Hg Hga].
  destruct (query _) as [phys|]; [|done]. rewrite Hc.
  destruct (inherit_all _ _ _ _) as [ct cn] eqn:Ei. intros [= <- <- _ <-]. do 2 eexists.
  do 9 (split; [done|]). split.
  { intros c Hct. eapply inherit_all_contents in Ei as [Hn|?]; [|done|exact Hct].
    destruct Hn as (sl & Hsl & _). by apply elem_of_nil in Hsl. }
  split; [done|]. split; [lia|]. split; [done|]. cbn -[guard_va_of].
  unfold initial_rsp_of, stack_top_of, STACK_ALLOC, KERNEL_STACK_SIZE, PAGE in *. split; [lia|].
  split; [pose proof (Z.div_mod (guard_va_of base) 4096 ltac:(lia));
          replace (guard_va_of base + _ + _ - 64)
            with ((256 * (guard_va_of base / 4096) + 4348) * 16) by lia; by rewrite Z.mod_mul|].
  split; [|set_solver].
  repeat (apply Forall_cons_2; [cbn; try done|]); [..|apply Forall_nil_2];
    (split; [lia|]); (split; [lia|]); Z.div_mod_to_equations; lia.
Qed.

Lemma spawn_userspace_task_confined_witness :
  exists s' effs t,
    spawn_userspace_task (ts_sched task_init) 1 4097 (fun _ => Some 7) 65536 131072 [5] 1 2 []
      = Done (1, s', 1, effs) /\
    sc_tasks s' = sc_tasks (ts_sched task_init) ++ [t] /\
    Forall (store_in (guard_va_of 4097 + PAGE) (t_stack_top t)) effs.
Proof.
  pose (r := spawn_userspace_task (ts_sched task_init) 1 4097 (fun _ => Some 7) 65536 131072 [5] 1 2 []).
  pose (s' := match r with Done (_, s', _, _) => s' | _ => ts_sched task_init end).
  pose (effs := match r with Done (_, _, _, e) => e | _ => [] end).
  pose (cur := default (demo_task 0 0 Dead) (sc_tasks (ts_sched task_init) !! 0%nat)).
  assert (spawn_userspace_task (ts_sched task_init) 1 4097 (fun _ => Some 7) 65536 131072 [5] 1 2 []
    = Done (1, s', 1, effs)) as E by (vm_compute; reflexivity).
  destruct (spawn_userspace_task_confined (ts_sched task_init) 1 4097 (fun _ => Some 7) 65536 131072
    [5] 1 2 [] 1 s' 1 effs cur) as (t & gp & Hts & _ & _ & _ & _ & _ & _ & _ & _ & _ & _ & _ & _ & _ & _ & Hst & _).
  - lia.
  - vm_compute. discriminate.
  - reflexivity.
  - exact E.
  - exists s', effs, t. split; [exact E|]. split; [exact Hts|exact Hst].
Defined.
