(* ===== verification/Ipc.v ===== *)
(** * IPC endpoints (kernel/src/ipc.rs) and their system calls

    An endpoint owns one page: two free-running [u32] counters and 63 slots of
    64 bytes.  [send] and [recv] are loops that try, and block when they
    cannot proceed; a [*_attempt] below is one round of such a loop, ending in
    [Returned] or, after the caller was switched out, in [Waiting].  A task
    that is resumed runs the next round. *)

From S2P Require Import Prelude Abi Cap Task.

#[local] Open Scope Z_scope.

(** ** The ring page *)

Definition RING_DATA_BYTES : Z := 4096 - 8.
Definition MSG_SIZE : Z := 64.
Definition RING_CAPACITY : Z := RING_DATA_BYTES / MSG_SIZE.

Record RingBuffer : Type := mkRing {
  r_head : Z;
  r_tail : Z;
  r_data : list Z
}.

Definition slot_off (counter : Z) : nat := Z.to_nat ((counter mod RING_CAPACITY) * MSG_SIZE).

Definition ring_used (r : RingBuffer) : Z := wrap 32 (r_tail r - r_head r).

(** Copy the payload, zero the rest of the slot, advance [tail]. *)
Definition ring_push (r : RingBuffer) (msg : list Z) : RingBuffer :=
  let len := Nat.min (length msg) (Z.to_nat MSG_SIZE) in
  let dst := slot_off (r_tail r) in
  let d1 := splice dst (take len msg) (r_data r) in
  let d2 := if (len <? Z.to_nat MSG_SIZE)%nat
            then splice (dst + len) (replicate (Z.to_nat MSG_SIZE - len) 0) d1 else d1 in
  mkRing (r_head r) (wrap 32 (r_tail r + 1)) d2.

(** Copy [out_len] bytes of the slot at [head], advance [head]. *)
Definition ring_pop (r : RingBuffer) (out_len : nat) : list Z * RingBuffer :=
  (slice (slot_off (r_head r)) out_len (r_data r),
   mkRing (wrap 32 (r_head r + 1)) (r_tail r) (r_data r)).

Definition ring_zeroed : RingBuffer := mkRing 0 0 (replicate (Z.to_nat RING_DATA_BYTES) 0).

(** ** Endpoints *)

Record IpcEndpoint : Type := mkEp {
  ep_phys_page : Z;
  ep_kern_virt : Z;
  ep_sender_waiting : option Z;
  ep_receiver_waiting : option Z;
  ep_pending_cap : option Capability;
  ep_ring : RingBuffer
}.

(** The tables the operations work on: tasks, endpoints, names. *)
Record IpcSys : Type := mkIpc {
  is_tasks : TaskSys;
  is_eps : list IpcEndpoint;
  is_names : gmap (list Z) nat
}.

Definition MAX_ENDPOINTS : nat := 1024.

Definition bind_name (names : gmap (list Z) nat) (name : list Z) (idx : nat)
  : bool * gmap (list Z) nat :=
  match names !! name with
  | Some existing => ((existing =? idx)%nat, names)
  | None => (true, <[name := idx]> names)
  end.

Definition lookup_name (names : gmap (list Z) nat) (name : list Z) : option nat := names !! name.

(** [frame] is what [pmm::alloc_frame] answers, [kern_base] the KASLR-adjusted
    window. *)
Definition create_endpoint (eps : list IpcEndpoint) (frame : option Z) (kern_base : Z)
  : outcome (option nat * list IpcEndpoint) :=
  if (MAX_ENDPOINTS <=? length eps)%nat then Done (None, eps)
  else
    match frame with
    | None => Panicked
    | Some phys_page =>
        let idx := length eps in
        Done (Some idx,
              eps ++ [mkEp phys_page (kern_base + Z.of_nat idx * 4096) None None None ring_zeroed])
    end.

(** ** Sending and receiving *)

Inductive attempt (A : Type) : Type :=
| Returned (a : A)
| Waiting.
Arguments Returned {A}.
Arguments Waiting {A}.

Definition set_ep (k : IpcSys) (idx : nat) (ep : IpcEndpoint) (tasks : TaskSys) : IpcSys :=
  mkIpc tasks (<[idx := ep]> (is_eps k)) (is_names k).

Definition with_sender (o : option Z) (ep : IpcEndpoint) : IpcEndpoint :=
  mkEp (ep_phys_page ep) (ep_kern_virt ep) o (ep_receiver_waiting ep) (ep_pending_cap ep) (ep_ring ep).
Definition with_receiver (o : option Z) (ep : IpcEndpoint) : IpcEndpoint :=
  mkEp (ep_phys_page ep) (ep_kern_virt ep) (ep_sender_waiting ep) o (ep_pending_cap ep) (ep_ring ep).
Definition with_pending (o : option Capability) (ep : IpcEndpoint) : IpcEndpoint :=
  mkEp (ep_phys_page ep) (ep_kern_virt ep) (ep_sender_waiting ep) (ep_receiver_waiting ep) o (ep_ring ep).
Definition with_ring (r : RingBuffer) (ep : IpcEndpoint) : IpcEndpoint :=
  mkEp (ep_phys_page ep) (ep_kern_virt ep) (ep_sender_waiting ep) (ep_receiver_waiting ep)
       (ep_pending_cap ep) r.

(** [if let Some(id) = waiting.take() { wake_task(id) }], the task half. *)
Definition wake_opt (tasks : TaskSys) (o : option Z) : TaskSys :=
  match o with Some id => with_sched tasks (wake_task (ts_sched tasks) id) | None => tasks end.

Section with_stack_memory.

Variable read_word : Z -> Z.

(** Blocking with the endpoint already updated. *)
Definition block_here {A} (k : IpcSys) : outcome (attempt A * IpcSys * list effect) :=
  match block_and_yield read_word (ts_sched (is_tasks k)) with
  | Done (s', effs) =>
      Done (Waiting, mkIpc (with_sched (is_tasks k) s') (is_eps k) (is_names k), effs)
  | Halted => Halted
  | Panicked => Panicked
  end.

Definition sleep_here {A} (k : IpcSys) (deadline : Z) : outcome (attempt A * IpcSys * list effect) :=
  match sleep_until read_word (is_tasks k) deadline with
  | Done (tasks', effs) => Done (Waiting, mkIpc tasks' (is_eps k) (is_names k), effs)
  | Halted => Halted
  | Panicked => Panicked
  end.

(** [sched.tasks[sched.current].id], an index that panics out of range. *)
Notation "x '<-?' k ';;' body" :=
  (match current_task_id (ts_sched (is_tasks k)) with Some x => body | None => Panicked end)
  (at level 100, k at next level, body at level 200, right associativity).

Definition send_attempt (k : IpcSys) (idx : nat) (msg : list Z)
  : outcome (attempt unit * IpcSys * list effect) :=
  match is_eps k !! idx with
  | Some ep =>
      if ring_used (ep_ring ep) <? RING_CAPACITY then
        let ep' := with_receiver None (with_ring (ring_push (ep_ring ep) msg) ep) in
        Done (Returned tt, set_ep k idx ep' (wake_opt (is_tasks k) (ep_receiver_waiting ep)), [])
      else
        current_id <-? k ;;
        block_here (set_ep k idx (with_sender (Some current_id) ep) (is_tasks k))
  | None => Panicked
  end.

Definition send_cap_attempt (k : IpcSys) (idx : nat) (msg : list Z) (cap : Capability)
  : outcome (attempt unit * IpcSys * list effect) :=
  match is_eps k !! idx with
  | Some ep =>
      if ring_used (ep_ring ep) <? RING_CAPACITY then
        let ep' := with_receiver None
                     (with_pending (Some cap) (with_ring (ring_push (ep_ring ep) msg) ep)) in
        Done (Returned tt, set_ep k idx ep' (wake_opt (is_tasks k) (ep_receiver_waiting ep)), [])
      else
        current_id <-? k ;;
        block_here (set_ep k idx (with_sender (Some current_id) ep) (is_tasks k))
  | None => Panicked
  end.

Definition recv_attempt (k : IpcSys) (idx : nat) (buf_len : nat)
  : outcome (attempt (list Z) * IpcSys * list effect) :=
  let out_len := Nat.min buf_len (Z.to_nat MSG_SIZE) in
  match is_eps k !! idx with
  | Some ep =>
      if negb (r_head (ep_ring ep) =? r_tail (ep_ring ep)) then
        let '(bytes, ring') := ring_pop (ep_ring ep) out_len in
        Done (Returned bytes,
              set_ep k idx (with_sender None (with_ring ring' ep))
                (wake_opt (is_tasks k) (ep_sender_waiting ep)), [])
      else
        current_id <-? k ;;
        block_here (set_ep k idx (with_receiver (Some current_id) ep) (is_tasks k))
  | None => Panicked
  end.

Definition recv_cap_attempt (k : IpcSys) (idx : nat) (buf_len : nat)
  : outcome (attempt (list Z * option Capability) * IpcSys * list effect) :=
  let out_len := Nat.min buf_len (Z.to_nat MSG_SIZE) in
  match is_eps k !! idx with
  | Some ep =>
      if negb (r_head (ep_ring ep) =? r_tail (ep_ring ep)) then
        let '(bytes, ring') := ring_pop (ep_ring ep) out_len in
        Done (Returned (bytes, ep_pending_cap ep),
              set_ep k idx (with_sender None (with_pending None (with_ring ring' ep)))
                (wake_opt (is_tasks k) (ep_sender_waiting ep)), [])
      else
        current_id <-? k ;;
        block_here (set_ep k idx (with_receiver (Some current_id) ep) (is_tasks k))
  | None => Panicked
  end.

(** [deadline] was computed on entry, [now] is the tick counter of this round. *)
Definition recv_timeout_attempt (k : IpcSys) (idx : nat) (buf_len : nat) (deadline now : Z)
  : outcome (attempt (result (list Z) unit) * IpcSys * list effect) :=
  let out_len := Nat.min buf_len (Z.to_nat MSG_SIZE) in
  match is_eps k !! idx with
  | Some ep =>
      if negb (r_head (ep_ring ep) =? r_tail (ep_ring ep)) then
        let '(bytes, ring') := ring_pop (ep_ring ep) out_len in
        Done (Returned (Ok bytes),
              set_ep k idx (with_sender None (with_ring ring' ep))
                (wake_opt (is_tasks k) (ep_sender_waiting ep)), [])
      else
        current_id <-? k ;;
        if deadline <=? now then
          let ep' := if bool_decide (ep_receiver_waiting ep = Some current_id)
                     then with_receiver None ep else ep in
          Done (Returned (Err tt), set_ep k idx ep' (is_tasks k), [])
        else sleep_here (set_ep k idx (with_receiver (Some current_id) ep) (is_tasks k)) deadline
  | None => Panicked
  end.

Definition send_timeout_attempt (k : IpcSys) (idx : nat) (msg : list Z) (deadline now : Z)
  : outcome (attempt (result unit unit) * IpcSys * list effect) :=
  match is_eps k !! idx with
  | Some ep =>
      if ring_used (ep_ring ep) <? RING_CAPACITY then
        let ep' := with_receiver None (with_ring (ring_push (ep_ring ep) msg) ep) in
        Done (Returned (Ok tt), set_ep k idx ep' (wake_opt (is_tasks k) (ep_receiver_waiting ep)), [])
      else
        current_id <-? k ;;
        if deadline <=? now then
          let ep' := if bool_decide (ep_sender_waiting ep = Some current_id)
                     then with_sender None ep else ep in
          Done (Returned (Err tt), set_ep k idx ep' (is_tasks k), [])
        else sleep_here (set_ep k idx (with_sender (Some current_id) ep) (is_tasks k)) deadline
  | None => Panicked
  end.

End with_stack_memory.

(** [crate::apic::ticks() + timeout_ms], at width 64. *)
Definition deadline_of (ticks timeout_ms : Z) : Z := wrap 64 (ticks + timeout_ms).

Definition try_recv (k : IpcSys) (idx : nat) (buf_len : nat) : outcome (option (list Z) * IpcSys) :=
  let out_len := Nat.min buf_len (Z.to_nat MSG_SIZE) in
  match is_eps k !! idx with
  | None => Panicked
  | Some ep =>
      if r_head (ep_ring ep) =? r_tail (ep_ring ep) then Done (None, k)
      else
        let '(bytes, ring') := ring_pop (ep_ring ep) out_len in
        Done (Some bytes,
              set_ep k idx (with_sender None (with_ring ring' ep))
                (wake_opt (is_tasks k) (ep_sender_waiting ep)))
  end.

(** ** System calls

    [read_user ptr len] is the caller's memory.  A call answers the value left
    in RAX together with the stores it makes to user memory. *)

Record IpcKernel : Type := mkKern {
  k_ipc : IpcSys;
  k_ko : list (Slot KernelObject);
  k_next_cap : Z
}.

Record Sysret : Type := mkRet {
  ret_rax : Z;
  ret_stores : list (Z * list Z)
}.

Definition rax (v : Z) : Sysret := mkRet v [].

Definition k_sched (k : IpcKernel) : Scheduler := ts_sched (is_tasks (k_ipc k)).

(** [cap_table_ptr(current_task_id())]. *)
Definition current_table (k : IpcKernel) : option (Z * CapTable) :=
  match current_task_id (k_sched k) with
  | Some id => (fun t => (id, t)) <$> cap_table_of (k_sched k) id
  | None => None
  end.

(** A store through that pointer. *)
Definition set_table (k : IpcKernel) (id : Z) (table : CapTable) : IpcKernel :=
  let s := k_sched k in
  match position (fun t => t_id t =? id) (sc_tasks s) with
  | None => k
  | Some i =>
      let s' := mkSched (alter (with_cap_table table) i (sc_tasks s)) (sc_current s) (sc_next_id s) in
      mkKern (mkIpc (with_sched (is_tasks (k_ipc k)) s') (is_eps (k_ipc k)) (is_names (k_ipc k)))
             (k_ko k) (k_next_cap k)
  end.

(** The handle check shared by the IPC calls. *)
Definition resolve_ipc (ko : list (Slot KernelObject)) (table : CapTable) (handle right : Z)
  : result nat Z :=
  match CapabilityTable_get table handle with
  | Ok c =>
      if bool_decide (cap_kind c = KIpc) && rights_has (cap_rights c) right then
        match KoTable_get ko (cap_object c) with
        | Some (KoIpc endpoint_idx) => Ok endpoint_idx
        | _ => Err ENOCAP
        end
      else Err ENOPERM
  | Err _ => Err ENOCAP
  end.

Definition checked_endpoint (k : IpcKernel) (handle right : Z) : result nat Z :=
  match current_table k with
  | None => Err ENOCAP
  | Some (_, table) => resolve_ipc (k_ko k) table handle right
  end.

(** What a call does with the outcome of one round. *)
Definition finish {A} (k : IpcKernel) (o : outcome (attempt A * IpcSys * list effect))
    (g : A -> IpcKernel -> Sysret * IpcKernel) : outcome (attempt Sysret * IpcKernel * list effect) :=
  match o with
  | Done (Returned a, ipc', effs) =>
      let '(r, k') := g a (mkKern ipc' (k_ko k) (k_next_cap k)) in Done (Returned r, k', effs)
  | Done (Waiting, ipc', effs) => Done (Waiting, mkKern ipc' (k_ko k) (k_next_cap k), effs)
  | Halted => Halted
  | Panicked => Panicked
  end.

Definition fail (k : IpcKernel) (e : Z) : outcome (attempt Sysret * IpcKernel * list effect) :=
  Done (Returned (rax e), k, []).

(** [copy_nonoverlapping(buf, buf_ptr, n.min(buf_len)); n as u64] *)
Definition deliver (buf_ptr buf_len : Z) (bytes : list Z) : Sysret :=
  mkRet (Z.of_nat (length bytes)) [(buf_ptr, take (Z.to_nat buf_len) bytes)].

Section with_stack_memory.

Variable read_word : Z -> Z.
Variable read_user : Z -> Z -> list Z.

Definition sys_ipc_create (k : IpcKernel) (frame : option Z) (kern_base : Z)
  : outcome (attempt Sysret * IpcKernel * list effect) :=
  match create_endpoint (is_eps (k_ipc k)) frame kern_base with
  | Done (None, _) => fail k EINVAL
  | Done (Some endpoint_idx, eps') =>
      match KoTable_create (k_ko k) (KoIpc endpoint_idx) with
      | (Ok obj, ko') =>
          let k1 := mkKern (mkIpc (is_tasks (k_ipc k)) eps' (is_names (k_ipc k))) ko' (k_next_cap k) in
          match current_table k1 with
          | None => fail k1 ENOCAP
          | Some (id, table) =>
              let '(table', h, n') := create_root_cap (k_next_cap k1) table KIpc RIGHTS_ALL obj in
              let k2 := set_table k1 id table' in
              fail (mkKern (k_ipc k2) (k_ko k2) n') h
          end
      | (Err _, _) => Panicked
      end
  | Halted => Halted
  | Panicked => Panicked
  end.

Definition sys_ipc_send (k : IpcKernel) (a1 a2 a3 : Z)
  : outcome (attempt Sysret * IpcKernel * list effect) :=
  let msg_len := Z.min a3 MSG_SIZE in
  if negb (valid_user_range a2 msg_len) then fail k EINVAL
  else match checked_endpoint k a1 WRITE with
       | Err e => fail k e
       | Ok idx =>
           finish k (send_attempt read_word (k_ipc k) idx (read_user a2 msg_len))
             (fun _ k' => (rax 0, k'))
       end.

Definition sys_ipc_recv (k : IpcKernel) (a1 a2 a3 : Z)
  : outcome (attempt Sysret * IpcKernel * list effect) :=
  let buf_len := Z.min a3 MSG_SIZE in
  if negb (valid_user_range a2 buf_len) then fail k EINVAL
  else match checked_endpoint k a1 READ with
       | Err e => fail k e
       | Ok idx =>
           finish k (recv_attempt read_word (k_ipc k) idx (Z.to_nat MSG_SIZE))
             (fun bytes k' => (deliver a2 buf_len bytes, k'))
       end.

(** The capability leaves the caller's table before the first round. *)
Definition sys_ipc_send_cap (k : IpcKernel) (a1 a2 a3 a4 : Z)
  : outcome (attempt Sysret * IpcKernel * list effect) :=
  let msg_len := Z.min a3 MSG_SIZE in
  if negb (valid_user_range a2 msg_len) then fail k EINVAL
  else match current_table k with
       | None => fail k ENOCAP
       | Some (id, table) =>
           match resolve_ipc (k_ko k) table a1 WRITE with
           | Err e => fail k e
           | Ok idx =>
               match CapabilityTable_take table a4 with
               | Err _ => fail k ENOCAP
               | Ok (cap, table') =>
                   let k1 := set_table k id table' in
                   finish k1 (send_cap_attempt read_word (k_ipc k1) idx (read_user a2 msg_len) cap)
                     (fun _ k' => (rax 0, k'))
               end
           end
       end.

(** The handle is stored, and the capability kept, only if [a4] is not null. *)
Definition recv_cap_done (id a2 buf_len a4 : Z) (r : list Z * option Capability) (k : IpcKernel)
  : Sysret * IpcKernel :=
  let '(bytes, maybe_cap) := r in
  let copied := deliver a2 buf_len bytes in
  if a4 =? 0 then (copied, k)
  else
    match maybe_cap, cap_table_of (k_sched k) id with
    | Some cap, Some table =>
        let '(table', h) := CapabilityTable_insert table cap in
        (mkRet (ret_rax copied) (ret_stores copied ++ [(a4, le_bytes 8 h)]), set_table k id table')
    | _, _ => (mkRet (ret_rax copied) (ret_stores copied ++ [(a4, le_bytes 8 U64_MAX)]), k)
    end.

Definition sys_ipc_recv_cap (k : IpcKernel) (a1 a2 a3 a4 : Z)
  : outcome (attempt Sysret * IpcKernel * list effect) :=
  let buf_len := Z.min a3 MSG_SIZE in
  if negb (valid_user_range a2 buf_len) then fail k EINVAL
  else if negb (a4 =? 0) && negb (valid_user_range a4 8) then fail k EINVAL
  else match current_table k with
       | None => fail k ENOCAP
       | Some (id, table) =>
           match resolve_ipc (k_ko k) table a1 READ with
           | Err e => fail k e
           | Ok idx =>
               finish k (recv_cap_attempt read_word (k_ipc k) idx (Z.to_nat MSG_SIZE))
                 (recv_cap_done id a2 buf_len a4)
           end
       end.

Definition sys_ipc_poll (k : IpcKernel) (a1 a2 a3 : Z)
  : outcome (attempt Sysret * IpcKernel * list effect) :=
  let buf_len := Z.min a3 MSG_SIZE in
  if negb (valid_user_range a2 buf_len) then fail k EINVAL
  else match checked_endpoint k a1 READ with
       | Err e => fail k e
       | Ok idx =>
           match try_recv (k_ipc k) idx (Z.to_nat MSG_SIZE) with
           | Done (None, _) => fail k EAGAIN
           | Done (Some bytes, ipc') =>
               Done (Returned (deliver a2 buf_len bytes), mkKern ipc' (k_ko k) (k_next_cap k), [])
           | Halted => Halted
           | Panicked => Panicked
           end
       end.

Definition sys_ipc_bind (k : IpcKernel) (a1 a2 a3 : Z)
  : outcome (attempt Sysret * IpcKernel * list effect) :=
  if (a3 =? 0) || (128 <? a3) then fail k EINVAL
  else if negb (valid_user_range a2 a3) then fail k EINVAL
  else match checked_endpoint k a1 GRANT with
       | Err e => fail k e
       | Ok idx =>
           let name := read_user a2 a3 in
           if negb (utf8_valid name) then fail k EINVAL
           else
             let '(ok, names') := bind_name (is_names (k_ipc k)) name idx in
             fail (mkKern (mkIpc (is_tasks (k_ipc k)) (is_eps (k_ipc k)) names') (k_ko k) (k_next_cap k))
                  (if ok then 0 else ENOSYS)
       end.

(** The rights a lookup hands out: READ and WRITE at most, both by default. *)
Definition lookup_rights (a3 : Z) : Z :=
  let rights := Z.land (wrap 8 a3) (Z.lor READ WRITE) in
  if rights =? 0 then Z.lor READ WRITE else rights.

Definition sys_ipc_lookup (k : IpcKernel) (a1 a2 a3 : Z)
  : outcome (attempt Sysret * IpcKernel * list effect) :=
  if (a2 =? 0) || (128 <? a2) then fail k EINVAL
  else if negb (valid_user_range a1 a2) then fail k EINVAL
  else
    let name := read_user a1 a2 in
    if negb (utf8_valid name) then fail k EINVAL
    else
      match lookup_name (is_names (k_ipc k)) name with
      | None => fail k ENOENT
      | Some endpoint_idx =>
          match KoTable_create (k_ko k) (KoIpc endpoint_idx) with
          | (Err _, _) => Panicked
          | (Ok obj, ko') =>
              let k1 := mkKern (k_ipc k) ko' (k_next_cap k) in
              match current_table k1 with
              | None => fail k1 ENOCAP
              | Some (id, table) =>
                  let '(table', h, n') :=
                    create_root_cap (k_next_cap k1) table KIpc (lookup_rights a3) obj in
                  let k2 := set_table k1 id table' in
                  fail (mkKern (k_ipc k2) (k_ko k2) n') h
              end
          end
      end.

(** [ticks] is the tick counter on entry, the same one the first round reads. *)
Definition sys_ipc_recv_timeout (k : IpcKernel) (ticks a1 a2 a3 a4 : Z)
  : outcome (attempt Sysret * IpcKernel * list effect) :=
  let buf_len := Z.min a3 MSG_SIZE in
  if negb (valid_user_range a2 buf_len) then fail k EINVAL
  else match checked_endpoint k a1 READ with
       | Err e => fail k e
       | Ok idx =>
           finish k (recv_timeout_attempt read_word (k_ipc k) idx (Z.to_nat MSG_SIZE)
                       (deadline_of ticks a4) ticks)
             (fun r k' => (match r with Ok bytes => deliver a2 buf_len bytes | Err _ => rax EAGAIN end, k'))
       end.

Definition sys_ipc_send_timeout (k : IpcKernel) (ticks a1 a2 a3 a4 : Z)
  : outcome (attempt Sysret * IpcKernel * list effect) :=
  let msg_len := Z.min a3 MSG_SIZE in
  if negb (valid_user_range a2 msg_len) then fail k EINVAL
  else match checked_endpoint k a1 WRITE with
       | Err e => fail k e
       | Ok idx =>
           finish k (send_timeout_attempt read_word (k_ipc k) idx (read_user a2 msg_len)
                       (deadline_of ticks a4) ticks)
             (fun r k' => (match r with Ok _ => rax 0 | Err _ => rax EAGAIN end, k'))
       end.

End with_stack_memory.

(** ** The ring is a bounded FIFO *)

Lemma slot_off_eq c : slot_off c = (Z.to_nat (c mod 63) * 64)%nat.
Proof.
  unfold slot_off. change RING_CAPACITY with 63. change MSG_SIZE with 64.
  rewrite Z2Nat.inj_mul by (pose proof (Z.mod_pos_bound c 63); lia). done.
Qed.

(** Every counter value addresses a slot inside the page. *)
Lemma slot_off_bound c : (slot_off c + 64 <= 4088)%nat.
Proof. rewrite slot_off_eq. pose proof (Z.mod_pos_bound c 63). lia. Qed.

Lemma slot_off_apart c c' :
  c < c' < c + 63 -> (slot_off c + 64 <= slot_off c' \/ slot_off c' + 64 <= slot_off c)%nat.
Proof.
  intros Hc. rewrite !slot_off_eq.
  pose proof (Z.mod_pos_bound c 63). pose proof (Z.mod_pos_bound c' 63).
  pose proof (Z.div_mod c 63). pose proof (Z.div_mod c' 63).
  assert (c mod 63 <> c' mod 63) by lia. lia.
Qed.

(** A message as it sits in a slot. *)
Definition pad (msg : list Z) : list Z :=
  let m := take 64 msg in m ++ replicate (64 - length m) 0.

Lemma length_pad msg : length (pad msg) = 64%nat.
Proof. unfold pad. rewrite length_app, length_replicate, length_take. lia. Qed.

Lemma ring_push_eq r msg :
  length (r_data r) = 4088%nat ->
  ring_push r msg =
    mkRing (r_head r) (wrap 32 (r_tail r + 1)) (splice (slot_off (r_tail r)) (pad msg) (r_data r)).
Proof.
  intros Hlen. unfold ring_push. change (Z.to_nat MSG_SIZE) with 64%nat. f_equal.
  pose proof (slot_off_bound (r_tail r)). unfold pad.
  replace (take (Nat.min (length msg) 64) msg) with (take 64 msg).
  2:{ destruct (decide (length msg <= 64)%nat).
      - rewrite Nat.min_l by done. rewrite !take_ge by lia. done.
      - by rewrite Nat.min_r by lia. }
  replace (Nat.min (length msg) 64) with (length (take 64 msg)) by (rewrite length_take; lia).
  assert (length (take 64 msg) <= 64)%nat by (rewrite length_take; lia).
  destruct (Nat.ltb_spec (length (take 64 msg)) 64).
  - apply splice_splice. rewrite length_replicate. lia.
  - replace (64 - length (take 64 msg))%nat with 0%nat by lia. by rewrite app_nil_r.
Qed.

(** The messages between [head] and [tail], oldest first. *)
Definition ring_queue (r : RingBuffer) : list (list Z) :=
  (fun c => slice (slot_off c) 64 (r_data r)) <$> seqZ (r_head r) (r_tail r - r_head r).

(** A ring whose [tail] has not wrapped past [head]. *)
Record ring_linear (r : RingBuffer) : Prop := {
  rl_len : length (r_data r) = 4088%nat;
  rl_head : 0 <= r_head r <= r_tail r;
  rl_tail : r_tail r < 2 ^ 32;
  rl_used : r_tail r - r_head r <= 63
}.

Lemma ring_used_linear r : ring_linear r -> ring_used r = r_tail r - r_head r.
Proof. intros [_ ? ? ?]. unfold ring_used. apply wrap_small. unfold in_u. lia. Qed.

Lemma length_ring_queue r : ring_linear r -> Z.of_nat (length (ring_queue r)) = ring_used r.
Proof.
  intros Hr. rewrite (ring_used_linear r Hr). unfold ring_queue. rewrite length_fmap, length_seqZ.
  destruct Hr. lia.
Qed.

Lemma ring_push_queue r msg :
  ring_linear r -> ring_used r < RING_CAPACITY -> r_tail r + 1 < 2 ^ 32 ->
  ring_linear (ring_push r msg) /\ ring_queue (ring_push r msg) = ring_queue r ++ [pad msg].
Proof.
  intros Hr Hu Ht. rewrite (ring_used_linear r Hr) in Hu. change RING_CAPACITY with 63 in Hu.
  destruct Hr as [Hlen Hh Ht' Hused]. rewrite ring_push_eq by done.
  rewrite wrap_small by (unfold in_u; lia). pose proof (slot_off_bound (r_tail r)) as Hb. split.
  - split; cbn; [|lia..]. rewrite length_splice; [done|]. rewrite length_pad. lia.
  - unfold ring_queue. cbn.
    replace (r_tail r + 1 - r_head r) with ((r_tail r - r_head r) + 1) by lia.
    rewrite seqZ_app by lia. rewrite fmap_app. f_equal.
    + apply list_fmap_ext. intros i c Hc%elem_of_lookup. apply elem_of_seqZ in Hc.
      apply slice_splice_other; rewrite length_pad; [lia|].
      destruct (slot_off_apart c (r_tail r)); [lia|lia|lia].
    + replace (r_head r + (r_tail r - r_head r)) with (r_tail r + 0) by lia.
      change (seqZ (r_tail r + 0) 1) with [0 + (r_tail r + 0)]. cbn [fmap list_fmap].
      pose proof (slice_splice_same (slot_off (r_tail r)) (pad msg) (r_data r)) as Hs.
      rewrite length_pad in Hs. rewrite Z.add_0_l, Z.add_0_r. by rewrite Hs by lia.
Qed.

Lemma ring_pop_queue r n :
  ring_linear r -> r_head r <> r_tail r -> (n <= 64)%nat ->
  exists m, (ring_pop r n).1 = take n m /\ ring_queue r = m :: ring_queue (ring_pop r n).2 /\
    ring_linear (ring_pop r n).2.
Proof.
  intros [Hlen Hh Ht Hu] Hne Hn. exists (slice (slot_off (r_head r)) 64 (r_data r)).
  unfold ring_pop. cbn [fst snd]. rewrite wrap_small by (unfold in_u; lia). split; [|split].
  - unfold slice. by rewrite take_take, Nat.min_l.
  - unfold ring_queue. cbn. rewrite (seqZ_cons (r_head r)) by lia. cbn. f_equal.
    replace (Z.succ (r_head r)) with (r_head r + 1) by lia.
    by replace (Z.pred (r_tail r - r_head r)) with (r_tail r - (r_head r + 1)) by lia.
  - split; cbn; [done|lia..].
Qed.

(** Traffic through one ring, with the guards of [send] and [recv]: a send to
    a full ring and a receive from an empty one do not go through. *)
Inductive ring_op : Type :=
| OpSend (msg : list Z)
| OpRecv (out_len : nat).

Inductive op_result : Type :=
| RSent
| RFull
| RGot (bytes : list Z)
| REmpty.

Definition ring_exec (r : RingBuffer) (op : ring_op) : op_result * RingBuffer :=
  match op with
  | OpSend msg => if ring_used r <? RING_CAPACITY then (RSent, ring_push r msg) else (RFull, r)
  | OpRecv n =>
      if r_head r =? r_tail r then (REmpty, r)
      else let '(bytes, r') := ring_pop r (Nat.min n 64) in (RGot bytes, r')
  end.

(** The specification: a queue of at most 63 padded messages. *)
Definition fifo_exec (q : list (list Z)) (op : ring_op) : op_result * list (list Z) :=
  match op with
  | OpSend msg => if (length q <? 63)%nat then (RSent, q ++ [pad msg]) else (RFull, q)
  | OpRecv n => match q with [] => (REmpty, q) | m :: q' => (RGot (take (Nat.min n 64) m), q') end
  end.

Fixpoint run_trace {S} (exec : S -> ring_op -> op_result * S) (s : S) (ops : list ring_op)
  : list op_result :=
  match ops with
  | [] => []
  | op :: ops' => let '(r, s') := exec s op in r :: run_trace exec s' ops'
  end.

Definition is_send (op : ring_op) : bool := match op with OpSend _ => true | OpRecv _ => false end.
Definition sends (ops : list ring_op) : nat := length (List.filter is_send ops).

Lemma ring_exec_simulates r op :
  ring_linear r -> r_tail r + (if is_send op then 1 else 0) < 2 ^ 32 ->
  let '(res, r') := ring_exec r op in
  fifo_exec (ring_queue r) op = (res, ring_queue r') /\ ring_linear r' /\
  r_tail r' <= r_tail r + (if is_send op then 1 else 0).
Proof.
  intros Hr Ht. pose proof (length_ring_queue r Hr) as Hlen. destruct op as [msg|n]; cbn [is_send] in *.
  - cbn [ring_exec fifo_exec]. change RING_CAPACITY with 63.
    destruct (Z.ltb_spec (ring_used r) 63).
    + destruct (ring_push_queue r msg Hr ltac:(done) ltac:(lia)) as [Hl ->].
      rewrite (proj2 (Nat.ltb_lt _ _)) by lia. split; [done|]. split; [done|].
      rewrite ring_push_eq by apply Hr. cbn. rewrite wrap_small; [lia|].
      destruct Hr. unfold in_u. lia.
    + rewrite (proj2 (Nat.ltb_ge _ _)) by lia. split; [done|]. split; [done|lia].
  - cbn [ring_exec fifo_exec]. destruct (Z.eqb_spec (r_head r) (r_tail r)) as [He|Hne].
    + assert (ring_queue r = []) as ->; [|split; [done|split; [done|lia]]].
      unfold ring_queue. rewrite He, Z.sub_diag. done.
    + destruct (ring_pop_queue r (Nat.min n 64) Hr Hne) as (m & Hb & Hq & Hl); [lia|].
      destruct (ring_pop r (Nat.min n 64)) as [bytes r'] eqn:E. cbn [fst snd] in *. rewrite Hq, Hb.
      split; [done|]. split; [done|]. unfold ring_pop in E. injection E as _ <-. cbn. lia.
Qed.

Lemma run_trace_refines ops : forall r,
  ring_linear r -> r_tail r + Z.of_nat (sends ops) < 2 ^ 32 ->
  run_trace ring_exec r ops = run_trace fifo_exec (ring_queue r) ops.
Proof.
  induction ops as [|op ops IH]; intros r Hr Ht; cbn [run_trace]; [done|].
  assert (Z.of_nat (sends (op :: ops)) = (if is_send op then 1 else 0) + Z.of_nat (sends ops)) as Hs.
  { unfold sends. cbn. destruct (is_send op); cbn; lia. }
  pose proof (ring_exec_simulates r op Hr ltac:(lia)) as Hsim.
  destruct (ring_exec r op) as [res r']. destruct Hsim as (-> & Hl & Hle).
  f_equal. apply IH; [done|lia].
Qed.

Lemma ring_zeroed_linear : ring_linear ring_zeroed.
Proof. split; cbn; [apply length_replicate|lia..]. Qed.

(** C8. From creation on, an endpoint's ring behaves as a FIFO of at most 63
    messages, each cut or zero-padded to 64 bytes: for every interleaving of
    sends and receives with fewer than 2^32 sends, each operation answers
    exactly what the queue answers (sent, full, the oldest message, empty). *)
Theorem ring_refines_fifo ops :
  Z.of_nat (sends ops) < 2 ^ 32 ->
  run_trace ring_exec ring_zeroed ops = run_trace fifo_exec [] ops.
Proof. intros Hs. apply (run_trace_refines ops ring_zeroed ring_zeroed_linear). cbn. lia. Qed.

Lemma ring_refines_fifo_witness :
  run_trace ring_exec ring_zeroed [OpSend [1; 2; 3]; OpSend [4]; OpRecv 2; OpRecv 1; OpRecv 1]
    = [RSent; RSent; RGot [1; 2]; RGot [4]; REmpty].
Proof. rewrite ring_refines_fifo; [reflexivity|vm_compute; reflexivity]. Defined.

(** ** Counter wrap-around *)

Definition exec_all {S} (exec : S -> ring_op -> op_result * S) (s : S) (ops : list ring_op) : S :=
  foldl (fun s op => (exec s op).2) s ops.

Lemma exec_all_app {S} (exec : S -> ring_op -> op_result * S) s ops ops' :
  exec_all exec s (ops ++ ops') = exec_all exec (exec_all exec s ops) ops'.
Proof. apply foldl_app. Qed.

Lemma run_trace_app {S} (exec : S -> ring_op -> op_result * S) ops ops' : forall s,
  run_trace exec s (ops ++ ops') = run_trace exec s ops ++ run_trace exec (exec_all exec s ops) ops'.
Proof.
  unfold exec_all. induction ops as [|op ops IH]; intros s; cbn [run_trace app foldl]; [done|].
  destruct (exec s op) as [r s'] eqn:E. cbn [snd app]. by rewrite IH.
Qed.

(** [n] rounds of one send and one receive. *)
Definition rounds (n : nat) : list ring_op := concat (replicate n [OpSend [0]; OpRecv 64]).

Lemma round_moves_counters r :
  length (r_data r) = 4088%nat -> in_u 32 (r_head r) -> r_head r = r_tail r ->
  let r' := exec_all ring_exec r [OpSend [0]; OpRecv 64] in
  length (r_data r') = 4088%nat /\ r_head r' = wrap 32 (r_head r + 1) /\ r_tail r' = r_head r'.
Proof.
  intros Hlen Hh He. unfold exec_all. cbn [foldl ring_exec snd].
  assert (ring_used r = 0) as -> by (unfold ring_used; by rewrite He, Z.sub_diag).
  change (0 <? RING_CAPACITY) with true. cbn [snd]. rewrite ring_push_eq by done. cbn [r_head r_tail].
  destruct (Z.eqb_spec (r_head r) (wrap 32 (r_tail r + 1))) as [Hbad|_].
  - exfalso. rewrite <- He in Hbad. unfold wrap, in_u in *.
    destruct (decide (r_head r + 1 < 2 ^ 32)); [rewrite Z.mod_small in Hbad; lia|].
    replace (r_head r + 1) with (2 ^ 32) in Hbad by lia. rewrite Z_mod_same_full in Hbad. lia.
  - cbn [ring_pop r_head r_tail r_data snd]. split; [|by rewrite He].
    rewrite length_splice; [done|]. rewrite length_pad. pose proof (slot_off_bound (r_tail r)). lia.
Qed.

Lemma rounds_state n :
  let r := exec_all ring_exec ring_zeroed (rounds n) in
  length (r_data r) = 4088%nat /\ r_head r = wrap 32 (Z.of_nat n) /\ r_tail r = r_head r.
Proof.
  induction n as [|n IH]; [by vm_compute|].
  assert (rounds (S n) = rounds n ++ [OpSend [0]; OpRecv 64]) as ->.
  { unfold rounds. rewrite replicate_S_end, concat_app. done. }
  cbn zeta in *. rewrite exec_all_app. destruct IH as (Hl & Hh & Ht).
  set (r := exec_all _ ring_zeroed (rounds n)) in *.
  destruct (round_moves_counters r) as (Hl' & Hh' & Ht'); [done| |done|].
  { rewrite Hh. apply wrap_range. lia. }
  split; [done|]. split; [|done]. rewrite Hh', Hh. unfold wrap.
  rewrite Zplus_mod_idemp_l. f_equal. lia.
Qed.

Lemma rounds_fifo_empty n : exec_all fifo_exec [] (rounds n) = [].
Proof.
  induction n as [|n IH]; [done|].
  assert (rounds (S n) = rounds n ++ [OpSend [0]; OpRecv 64]) as ->.
  { unfold rounds. rewrite replicate_S_end, concat_app. done. }
  by rewrite exec_all_app, IH.
Qed.

Lemma send_step h t data msg :
  length data = 4088%nat -> (ring_used (mkRing h t data) <? RING_CAPACITY) = true ->
  ring_exec (mkRing h t data) (OpSend msg) =
    (RSent, mkRing h (wrap 32 (t + 1)) (splice (slot_off t) (pad msg) data)) /\
  length (splice (slot_off t) (pad msg) data) = 4088%nat.
Proof.
  intros Hlen Hu. cbn [ring_exec]. rewrite Hu, ring_push_eq by done. split; [done|].
  rewrite length_splice; [done|]. rewrite length_pad. pose proof (slot_off_bound t). cbn. lia.
Qed.

(** Five messages sent to a ring whose counters stand four before the wrap:
    the fifth lands in the slot of the first. *)
Lemma wrap_overwrites data :
  length data = 4088%nat ->
  run_trace ring_exec (mkRing 4294967292 4294967292 data)
    [OpSend [1]; OpSend [2]; OpSend [3]; OpSend [4]; OpSend [5]; OpRecv 1]
    = [RSent; RSent; RSent; RSent; RSent; RGot [5]].
Proof.
  intros H0. cbn [run_trace].
  destruct (send_step 4294967292 4294967292 data [1] H0 eq_refl) as [-> H1]. cbn [run_trace].
  destruct (send_step 4294967292 4294967293 _ [2] H1 eq_refl) as [E2 H2].
  change (wrap 32 (4294967292 + 1)) with 4294967293. rewrite E2. clear E2.
  destruct (send_step 4294967292 4294967294 _ [3] H2 eq_refl) as [E3 H3].
  change (wrap 32 (4294967293 + 1)) with 4294967294. rewrite E3. clear E3.
  destruct (send_step 4294967292 4294967295 _ [4] H3 eq_refl) as [E4 H4].
  change (wrap 32 (4294967294 + 1)) with 4294967295. rewrite E4. clear E4.
  destruct (send_step 4294967292 0 _ [5] H4 eq_refl) as [E5 H5].
  change (wrap 32 (4294967295 + 1)) with 0. rewrite E5. clear E5.
  cbn [ring_exec r_head r_tail]. change (4294967292 =? wrap 32 (0 + 1)) with false.
  cbn [ring_pop r_head r_data]. reflexivity.
Qed.

(** The 32-bit counters are not a multiple of the 63 slots, and when they
    wrap around the slot sequence jumps: after 2^32 - 4 messages have gone
    through a ring, the fifth of five pending messages is written over the
    first, which is lost, and the next receive answers the fifth. A FIFO
    answers the first. *)
Theorem counter_wrap_loses_message :
  exists ops, sends ops = Z.to_nat (2 ^ 32 + 1) /\
    last (run_trace ring_exec ring_zeroed ops) = Some (RGot [5]) /\
    last (run_trace fifo_exec [] ops) = Some (RGot [1]).
Proof.
  set (burst := [OpSend [1]; OpSend [2]; OpSend [3]; OpSend [4]; OpSend [5]; OpRecv 1]).
  exists (rounds (Z.to_nat 4294967292) ++ burst). split; [|split].
  - unfold sends. rewrite List.filter_app, length_app.
    assert (forall n, length (List.filter is_send (rounds n)) = n) as ->.
    { induction n as [|n IH]; [done|]. unfold rounds in *. cbn. by rewrite IH. }
    change (length (List.filter is_send burst)) with 5%nat. lia.
  - rewrite run_trace_app, last_app. destruct (rounds_state (Z.to_nat 4294967292)) as (Hl & Hh & Ht).
    destruct (exec_all ring_exec ring_zeroed _) as [h t data]. cbn [r_data r_head r_tail] in *.
    rewrite Z2Nat.id in Hh by lia. change (wrap 32 4294967292) with 4294967292 in Hh. subst.
    by rewrite wrap_overwrites.
  - rewrite run_trace_app, last_app, rounds_fifo_empty. reflexivity.
Qed.

(** ** Rounds that go through *)

Section with_stack_memory.

Variable read_word : Z -> Z.

(** Endpoint [idx] of [k] has the linear ring whose queue is [q]. *)
Record endpoint_at (k : IpcSys) (idx : nat) (ep : IpcEndpoint) (q : list (list Z)) : Prop := {
  ea_ep : is_eps k !! idx = Some ep;
  ea_linear : ring_linear (ep_ring ep);
  ea_queue : ring_queue (ep_ring ep) = q
}.

Lemma used_of_queue k idx ep q :
  endpoint_at k idx ep q -> (ring_used (ep_ring ep) <? RING_CAPACITY) = (length q <? 63)%nat.
Proof.
  intros [_ Hl <-]. rewrite <- (length_ring_queue _ Hl). change RING_CAPACITY with 63.
  destruct (Nat.ltb_spec (length (ring_queue (ep_ring ep))) 63); [apply Z.ltb_lt|apply Z.ltb_ge]; lia.
Qed.

Lemma empty_of_queue k idx ep q :
  endpoint_at k idx ep q ->
  (r_head (ep_ring ep) =? r_tail (ep_ring ep)) = match q with [] => true | _ => false end.
Proof.
  intros [_ Hl Hq]. pose proof (length_ring_queue _ Hl) as Hlen.
  rewrite (ring_used_linear _ Hl), Hq in Hlen.
  destruct q; [apply Z.eqb_eq|apply Z.eqb_neq]; cbn in Hlen; lia.
Qed.

Lemma set_ep_lookup k idx ep ep0 tasks :
  is_eps k !! idx = Some ep0 -> is_eps (set_ep k idx ep tasks) !! idx = Some ep.
Proof. intros. apply list_lookup_insert_eq. by eapply lookup_lt_Some. Qed.

Lemma push_tail r msg :
  ring_linear r -> r_tail r + 1 < 2 ^ 32 -> r_tail (ring_push r msg) = r_tail r + 1.
Proof. intros [? ? ? ?] ?. unfold ring_push. cbn. apply wrap_small. unfold in_u. lia. Qed.

Lemma send_attempt_ok k idx ep q msg :
  endpoint_at k idx ep q -> (length q < 63)%nat -> r_tail (ep_ring ep) + 1 < 2 ^ 32 ->
  let ep' := with_receiver None (with_ring (ring_push (ep_ring ep) msg) ep) in
  let k' := set_ep k idx ep' (wake_opt (is_tasks k) (ep_receiver_waiting ep)) in
  send_attempt read_word k idx msg = Done (Returned tt, k', []) /\
  endpoint_at k' idx ep' (q ++ [pad msg]).
Proof.
  intros Hat Hq Ht ep' k'. unfold send_attempt. rewrite (ea_ep _ _ _ _ Hat), (used_of_queue _ _ _ _ Hat).
  rewrite (proj2 (Nat.ltb_lt _ _) Hq). split; [done|].
  pose proof (used_of_queue _ _ _ _ Hat) as Hu. rewrite (proj2 (Nat.ltb_lt _ _) Hq) in Hu.
  apply Z.ltb_lt in Hu. destruct Hat as [He Hl <-].
  destruct (ring_push_queue _ msg Hl Hu Ht) as [Hl' Hq'].
  split; [by eapply set_ep_lookup|exact Hl'|exact Hq'].
Qed.

Lemma send_cap_attempt_ok k idx ep q msg cap :
  endpoint_at k idx ep q -> (length q < 63)%nat -> r_tail (ep_ring ep) + 1 < 2 ^ 32 ->
  let ep' := with_receiver None (with_pending (Some cap) (with_ring (ring_push (ep_ring ep) msg) ep)) in
  let k' := set_ep k idx ep' (wake_opt (is_tasks k) (ep_receiver_waiting ep)) in
  send_cap_attempt read_word k idx msg cap = Done (Returned tt, k', []) /\
  endpoint_at k' idx ep' (q ++ [pad msg]).
Proof.
  intros Hat Hq Ht ep' k'. unfold send_cap_attempt.
  rewrite (ea_ep _ _ _ _ Hat), (used_of_queue _ _ _ _ Hat).
  rewrite (proj2 (Nat.ltb_lt _ _) Hq). split; [done|].
  pose proof (used_of_queue _ _ _ _ Hat) as Hu. rewrite (proj2 (Nat.ltb_lt _ _) Hq) in Hu.
  apply Z.ltb_lt in Hu. destruct Hat as [He Hl <-].
  destruct (ring_push_queue _ msg Hl Hu Ht) as [Hl' Hq'].
  split; [by eapply set_ep_lookup|exact Hl'|exact Hq'].
Qed.

Lemma recv_cap_attempt_ok k idx ep m q n :
  endpoint_at k idx ep (m :: q) ->
  let ring' := (ring_pop (ep_ring ep) (Nat.min n 64)).2 in
  let ep' := with_sender None (with_pending None (with_ring ring' ep)) in
  let k' := set_ep k idx ep' (wake_opt (is_tasks k) (ep_sender_waiting ep)) in
  recv_cap_attempt read_word k idx n
    = Done (Returned (take (Nat.min n 64) m, ep_pending_cap ep), k', []) /\
  endpoint_at k' idx ep' q.
Proof.
  intros Hat ring' ep' k'. unfold recv_cap_attempt.
  rewrite (ea_ep _ _ _ _ Hat), (empty_of_queue _ _ _ _ Hat). cbn [negb].
  change (Z.to_nat MSG_SIZE) with 64%nat.
  pose proof (empty_of_queue _ _ _ _ Hat) as Hne. apply Z.eqb_neq in Hne.
  destruct Hat as [He Hl Hq].
  destruct (ring_pop_queue _ (Nat.min n 64) Hl Hne) as (m' & Hb & Hq' & Hl'); [lia|].
  subst ring'. destruct (ring_pop _ _) as [bytes r']. cbn [fst snd] in *.
  rewrite Hq in Hq'. injection Hq' as <- Hq'. subst bytes. split; [done|].
  split; [by eapply set_ep_lookup|exact Hl'|exact (eq_sym Hq')].
Qed.

Lemma recv_attempt_ok k idx ep m q n :
  endpoint_at k idx ep (m :: q) ->
  let ring' := (ring_pop (ep_ring ep) (Nat.min n 64)).2 in
  let ep' := with_sender None (with_ring ring' ep) in
  let k' := set_ep k idx ep' (wake_opt (is_tasks k) (ep_sender_waiting ep)) in
  recv_attempt read_word k idx n = Done (Returned (take (Nat.min n 64) m), k', []) /\
  endpoint_at k' idx ep' q.
Proof.
  intros Hat ring' ep' k'. unfold recv_attempt.
  rewrite (ea_ep _ _ _ _ Hat), (empty_of_queue _ _ _ _ Hat). cbn [negb].
  change (Z.to_nat MSG_SIZE) with 64%nat.
  pose proof (empty_of_queue _ _ _ _ Hat) as Hne. apply Z.eqb_neq in Hne.
  destruct Hat as [He Hl Hq].
  destruct (ring_pop_queue _ (Nat.min n 64) Hl Hne) as (m' & Hb & Hq' & Hl'); [lia|].
  subst ring'. destruct (ring_pop _ _) as [bytes r']. cbn [fst snd] in *.
  rewrite Hq in Hq'. injection Hq' as <- Hq'. subst bytes. split; [done|].
  split; [by eapply set_ep_lookup|exact Hl'|exact (eq_sym Hq')].
Qed.

(** A transferred capability is held per endpoint, not with its message.
    On an endpoint with nothing pending: after a plain message [m1] and a
    message [m2] sent with capability [c1], the receiver of [m1] gets [c1] and
    the receiver of [m2] gets none; and after two sends with capabilities [c1]
    and [c2], the receiver of the first message gets [c2], the second gets
    none, and [c1] is in no table and no endpoint. *)
Theorem cap_not_bound_to_message k idx ep m1 m2 c1 c2 :
  endpoint_at k idx ep [] -> r_tail (ep_ring ep) + 2 < 2 ^ 32 -> ep_pending_cap ep = None ->
  (exists k1 k2 k3 k4,
     send_attempt read_word k idx m1 = Done (Returned tt, k1, []) /\
     send_cap_attempt read_word k1 idx m2 c1 = Done (Returned tt, k2, []) /\
     recv_cap_attempt read_word k2 idx 64 = Done (Returned (pad m1, Some c1), k3, []) /\
     recv_cap_attempt read_word k3 idx 64 = Done (Returned (pad m2, None), k4, [])) /\
  (exists k1 k2 k3 k4,
     send_cap_attempt read_word k idx m1 c1 = Done (Returned tt, k1, []) /\
     send_cap_attempt read_word k1 idx m2 c2 = Done (Returned tt, k2, []) /\
     recv_cap_attempt read_word k2 idx 64 = Done (Returned (pad m1, Some c2), k3, []) /\
     recv_cap_attempt read_word k3 idx 64 = Done (Returned (pad m2, None), k4, [])).
Proof.
  intros Hat Ht Hpend.
  assert (forall m, take (Nat.min 64 64) (pad m) = pad m) as Hfull.
  { intros m. apply take_ge. rewrite length_pad. lia. }
  assert (forall m, r_tail (ring_push (ep_ring ep) m) + 1 < 2 ^ 32) as Ht2.
  { intros m. rewrite push_tail; [lia|apply Hat|lia]. }
  split.
  - destruct (send_attempt_ok k idx ep [] m1 Hat ltac:(cbn; lia) ltac:(lia)) as [E1 H1].
    destruct (send_cap_attempt_ok _ _ _ _ m2 c1 H1 ltac:(cbn; lia) (Ht2 m1)) as [E2 H2].
    destruct (recv_cap_attempt_ok _ _ _ _ _ 64 H2) as [E3 H3].
    destruct (recv_cap_attempt_ok _ _ _ _ _ 64 H3) as [E4 H4].
    rewrite Hfull in E3, E4. do 4 eexists. do 3 (split; [eassumption|]). exact E4.
  - destruct (send_cap_attempt_ok k idx ep [] m1 c1 Hat ltac:(cbn; lia) ltac:(lia)) as [E1 H1].
    destruct (send_cap_attempt_ok _ _ _ _ m2 c2 H1 ltac:(cbn; lia) (Ht2 m1)) as [E2 H2].
    destruct (recv_cap_attempt_ok _ _ _ _ _ 64 H2) as [E3 H3].
    destruct (recv_cap_attempt_ok _ _ _ _ _ 64 H3) as [E4 H4].
    rewrite Hfull in E3, E4. do 4 eexists. do 3 (split; [eassumption|]). exact E4.
Qed.

End with_stack_memory.

(** An endpoint of a running system with nothing in its ring. *)
Definition demo_ipc : IpcSys :=
  mkIpc demo_switched [mkEp 0 0 None None None ring_zeroed] ∅.

Lemma demo_ipc_endpoint : endpoint_at demo_ipc 0 (mkEp 0 0 None None None ring_zeroed) [].
Proof. split; [reflexivity|apply ring_zeroed_linear|reflexivity]. Defined.

Lemma cap_not_bound_to_message_witness :
  exists k1 k2 k3 k4,
    send_attempt demo_memory demo_ipc 0 [1] = Done (Returned tt, k1, []) /\
    send_cap_attempt demo_memory k1 0 [2] demo_root = Done (Returned tt, k2, []) /\
    recv_cap_attempt demo_memory k2 0 64 = Done (Returned (pad [1], Some demo_root), k3, []) /\
    recv_cap_attempt demo_memory k3 0 64 = Done (Returned (pad [2], None), k4, []).
Proof.
  refine (proj1 (cap_not_bound_to_message demo_memory demo_ipc 0 _ [1] [2] demo_root demo_child
            demo_ipc_endpoint _ _)).
  - vm_compute. reflexivity.
  - reflexivity.
Defined.

(** ** Blocking and waking *)

Lemma wake_task_sched_wf_at sys j w :
  sys_wf sys -> at_state (sc_tasks (ts_sched sys)) j w Blocked ->
  at_state (sc_tasks (ts_sched (wake_opt sys (Some w)))) j w Ready.
Proof. intros Hwf Hj. apply wake_in_wakes; [apply Hwf|done]. Qed.


(** ** One waiter per endpoint and direction *)

(** How any round may change tasks and endpoint: it only wakes a registered
    task, and registers only the caller. *)
Definition waits_for (ep : IpcEndpoint) (id : Z) : Prop :=
  ep_sender_waiting ep = Some id \/ ep_receiver_waiting ep = Some id.

Inductive ep_step (read_word : Z -> Z) (k : IpcSys) (idx : nat) : IpcSys -> Prop :=
| ep_step_intro ep ep' tasks' :
    is_eps k !! idx = Some ep ->
    (tasks' = is_tasks k \/
     (exists id, waits_for ep id /\ sys_step read_word (LWake id) (is_tasks k) tasks') \/
     sys_step read_word LBlock (is_tasks k) tasks' \/
     (exists d, sys_step read_word (LSleep d) (is_tasks k) tasks')) ->
    (forall id, waits_for ep' id ->
       waits_for ep id \/ current_task_id (ts_sched (is_tasks k)) = Some id) ->
    ep_step read_word k idx (set_ep k idx ep' tasks').

Lemma wake_opt_step read_word tasks o :
  wake_opt tasks o = tasks \/
  exists id, o = Some id /\ sys_step read_word (LWake id) tasks (wake_opt tasks o).
Proof. destruct o as [id|]; [right|by left]. exists id. split; [done|]. constructor. Qed.

Lemma block_here_step read_word A k idx ep' (r : attempt A) k' e :
  block_here read_word (set_ep k idx ep' (is_tasks k)) = Done (r, k', e) ->
  exists tasks', k' = set_ep k idx ep' tasks' /\ sys_step read_word LBlock (is_tasks k) tasks'.
Proof.
  unfold block_here. cbn. destruct (block_and_yield _ _) as [ [s' e']| |] eqn:E; [|done..].
  intros [= _ <- _]. eexists. split; [done|]. by econstructor.
Qed.

Lemma sleep_here_step read_word A k idx ep' d (r : attempt A) k' e :
  sleep_here read_word (set_ep k idx ep' (is_tasks k)) d = Done (r, k', e) ->
  exists tasks', k' = set_ep k idx ep' tasks' /\ sys_step read_word (LSleep d) (is_tasks k) tasks'.
Proof.
  unfold sleep_here. cbn. destruct (sleep_until _ _ _) as [ [s' e']| |] eqn:E; [|done..].
  intros [= _ <- _]. eexists. split; [done|]. by econstructor.
Qed.

Lemma push_round_step read_word k idx ep ep' :
  is_eps k !! idx = Some ep -> (forall id, waits_for ep' id -> waits_for ep id) ->
  ep_step read_word k idx (set_ep k idx ep' (wake_opt (is_tasks k) (ep_receiver_waiting ep))).
Proof.
  intros He Hw. eapply ep_step_intro; [exact He| |intros; left; auto].
  destruct (wake_opt_step read_word (is_tasks k) (ep_receiver_waiting ep)) as [->|(id & Hid & Hs)];
    [by left|]. right. left. exists id. split; [by right|done].
Qed.

Lemma pop_round_step read_word k idx ep ep' :
  is_eps k !! idx = Some ep -> (forall id, waits_for ep' id -> waits_for ep id) ->
  ep_step read_word k idx (set_ep k idx ep' (wake_opt (is_tasks k) (ep_sender_waiting ep))).
Proof.
  intros He Hw. eapply ep_step_intro; [exact He| |intros; left; auto].
  destruct (wake_opt_step read_word (is_tasks k) (ep_sender_waiting ep)) as [->|(id & Hid & Hs)];
    [by left|]. right. left. exists id. split; [by left|done].
Qed.

Lemma wait_round_step read_word k idx ep ep' tasks' cur :
  is_eps k !! idx = Some ep -> current_task_id (ts_sched (is_tasks k)) = Some cur ->
  (forall id, waits_for ep' id -> waits_for ep id \/ id = cur) ->
  (sys_step read_word LBlock (is_tasks k) tasks' \/
   exists d, sys_step read_word (LSleep d) (is_tasks k) tasks') ->
  ep_step read_word k idx (set_ep k idx ep' tasks').
Proof.
  intros He Hc Hw Hs. eapply ep_step_intro; [exact He|by right; right|].
  intros id [?| ->]%Hw; auto.
Qed.

Lemma keep_round_step read_word k idx ep ep' :
  is_eps k !! idx = Some ep -> (forall id, waits_for ep' id -> waits_for ep id) ->
  ep_step read_word k idx (set_ep k idx ep' (is_tasks k)).
Proof. intros He Hw. eapply ep_step_intro; [exact He|by left|intros; left; auto]. Qed.

(** What each round does, in those terms. *)
Ltac waits := unfold waits_for; cbn; naive_solver.

Lemma send_attempt_step read_word k idx msg r k' e :
  send_attempt read_word k idx msg = Done (r, k', e) -> ep_step read_word k idx k'.
Proof.
  unfold send_attempt. destruct (is_eps k !! idx) as [ep|] eqn:He; [|done].
  destruct (_ <? _); [intros [= _ <- _]; apply push_round_step; [done|waits]|].
  destruct (current_task_id _) as [c|] eqn:Hc; [|done].
  intros (t' & -> & Hs)%block_here_step. eapply wait_round_step; [done|done|waits|by left].
Qed.

Lemma send_cap_attempt_step read_word k idx msg cap r k' e :
  send_cap_attempt read_word k idx msg cap = Done (r, k', e) -> ep_step read_word k idx k'.
Proof.
  unfold send_cap_attempt. destruct (is_eps k !! idx) as [ep|] eqn:He; [|done].
  destruct (_ <? _); [intros [= _ <- _]; apply push_round_step; [done|waits]|].
  destruct (current_task_id _) as [c|] eqn:Hc; [|done].
  intros (t' & -> & Hs)%block_here_step. eapply wait_round_step; [done|done|waits|by left].
Qed.

Lemma recv_attempt_step read_word k idx n r k' e :
  recv_attempt read_word k idx n = Done (r, k', e) -> ep_step read_word k idx k'.
Proof.
  unfold recv_attempt. destruct (is_eps k !! idx) as [ep|] eqn:He; [|done].
  destruct (negb _); [intros [= _ <- _]; apply pop_round_step; [done|waits]|].
  destruct (current_task_id _) as [c|] eqn:Hc; [|done].
  intros (t' & -> & Hs)%block_here_step. eapply wait_round_step; [done|done|waits|by left].
Qed.

Lemma recv_cap_attempt_step read_word k idx n r k' e :
  recv_cap_attempt read_word k idx n = Done (r, k', e) -> ep_step read_word k idx k'.
Proof.
  unfold recv_cap_attempt. destruct (is_eps k !! idx) as [ep|] eqn:He; [|done].
  destruct (negb _); [intros [= _ <- _]; apply pop_round_step; [done|waits]|].
  destruct (current_task_id _) as [c|] eqn:Hc; [|done].
  intros (t' & -> & Hs)%block_here_step. eapply wait_round_step; [done|done|waits|by left].
Qed.

Lemma recv_timeout_attempt_step read_word k idx n d now r k' e :
  recv_timeout_attempt read_word k idx n d now = Done (r, k', e) -> ep_step read_word k idx k'.
Proof.
  unfold recv_timeout_attempt. destruct (is_eps k !! idx) as [ep|] eqn:He; [|done].
  destruct (negb _); [intros [= _ <- _]; apply pop_round_step; [done|waits]|].
  destruct (current_task_id _) as [c|] eqn:Hc; [|done]. destruct (d <=? now).
  - intros [= _ <- _]. apply (keep_round_step _ _ _ ep); [done|]. case_bool_decide; waits.
  - intros (t' & -> & Hs)%sleep_here_step. eapply wait_round_step; [done|done|waits|eauto].
Qed.

Lemma send_timeout_attempt_step read_word k idx msg d now r k' e :
  send_timeout_attempt read_word k idx msg d now = Done (r, k', e) -> ep_step read_word k idx k'.
Proof.
  unfold send_timeout_attempt. destruct (is_eps k !! idx) as [ep|] eqn:He; [|done].
  destruct (_ <? _); [intros [= _ <- _]; apply push_round_step; [done|waits]|].
  destruct (current_task_id _) as [c|] eqn:Hc; [|done]. destruct (d <=? now).
  - intros [= _ <- _]. apply (keep_round_step _ _ _ ep); [done|]. case_bool_decide; waits.
  - intros (t' & -> & Hs)%sleep_here_step. eapply wait_round_step; [done|done|waits|eauto].
Qed.

Lemma try_recv_step read_word k idx n o k' :
  try_recv k idx n = Done (o, k') -> k' = k \/ ep_step read_word k idx k'.
Proof.
  unfold try_recv. destruct (is_eps k !! idx) as [ep|] eqn:He; [|done].
  destruct (_ =? _); [intros [= _ <-]; by left|].
  destruct (ring_pop _ _) as [bytes ring']. intros [= _ <-]. right. apply pop_round_step; [done|waits].
Qed.

(** The kernel seen from IPC: scheduler operations, and rounds of the IPC
    operations by whichever task is running. *)
Inductive ipc_step (read_word : Z -> Z) : option label -> IpcSys -> IpcSys -> Prop :=
| istep_tasks l k tasks' :
    sys_step read_word l (is_tasks k) tasks' ->
    ipc_step read_word (Some l) k (mkIpc tasks' (is_eps k) (is_names k))
| istep_create k frame base idx eps' :
    create_endpoint (is_eps k) frame base = Done (idx, eps') ->
    ipc_step read_word None k (mkIpc (is_tasks k) eps' (is_names k))
| istep_bind k name idx b names' :
    bind_name (is_names k) name idx = (b, names') ->
    ipc_step read_word None k (mkIpc (is_tasks k) (is_eps k) names')
| istep_send k idx msg r k' e :
    send_attempt read_word k idx msg = Done (r, k', e) -> ipc_step read_word None k k'
| istep_send_cap k idx msg cap r k' e :
    send_cap_attempt read_word k idx msg cap = Done (r, k', e) -> ipc_step read_word None k k'
| istep_recv k idx n r k' e :
    recv_attempt read_word k idx n = Done (r, k', e) -> ipc_step read_word None k k'
| istep_recv_cap k idx n r k' e :
    recv_cap_attempt read_word k idx n = Done (r, k', e) -> ipc_step read_word None k k'
| istep_recv_timeout k idx n d now r k' e :
    recv_timeout_attempt read_word k idx n d now = Done (r, k', e) -> ipc_step read_word None k k'
| istep_send_timeout k idx msg d now r k' e :
    send_timeout_attempt read_word k idx msg d now = Done (r, k', e) -> ipc_step read_word None k k'
| istep_try_recv k idx n o k' :
    try_recv k idx n = Done (o, k') -> ipc_step read_word None k k'.

(** Task [w] is Blocked and neither the scheduler's tables nor any endpoint
    knows about it. *)
Definition unreachable_waiter (w : Z) (k : IpcSys) : Prop :=
  sys_wf (is_tasks k) /\ forgotten w (is_tasks k) /\
  (forall i ep, is_eps k !! i = Some ep -> ~ waits_for ep w).

Lemma ep_step_unreachable read_word w k idx k' :
  unreachable_waiter w k -> ep_step read_word k idx k' -> unreachable_waiter w k'.
Proof.
  intros (Hwf & Hf & Hno) Hs. destruct Hs as [ep ep' tasks' He Ht Hw].
  assert (sys_wf tasks' /\ forgotten w tasks') as [Hwf' Hf'].
  { destruct Ht as [->|[(id & Hid & Hs)|[Hs|(d & Hs)]]]; [done|..];
      (split; [by eapply sys_step_wf|eapply step_forgotten; [exact Hs|done|done|..]; try done]).
    intros [= ->]. by apply (Hno idx ep). }
  split; [done|]. split; [done|]. cbn. intros i ep0 Hi.
  destruct (decide (i = idx)) as [->|Hne].
  - rewrite list_lookup_insert_eq in Hi by (by eapply lookup_lt_Some). injection Hi as <-.
    intros [?|Hc]%Hw; [by apply (Hno idx ep)|].
    unfold current_task_id in Hc. apply fmap_Some in Hc as (cur & Hcur & ->).
    by eapply blocked_not_current; [apply yw_sched|apply Hf|exact Hcur|].
  - rewrite list_lookup_insert_ne in Hi by done. by eapply Hno.
Qed.

Lemma ipc_step_unreachable read_word w o k k' :
  unreachable_waiter w k -> ipc_step read_word o k k' ->
  o <> Some (LWake w) -> o <> Some (LKill w) -> unreachable_waiter w k'.
Proof.
  intros Hu Hs H1 H2. pose proof Hu as (Hwf & Hf & Hno).
  destruct Hs as [l k tasks' Hl|k frame base idx eps' Hc|k name idx b names' _|k idx msg r k' e Hr
    |k idx msg cap r k' e Hr|k idx n r k' e Hr|k idx n r k' e Hr|k idx n d now r k' e Hr
    |k idx msg d now r k' e Hr|k idx n o k' Hr].
  - split; [by eapply sys_step_wf|]. split; [|done].
    eapply step_forgotten; [exact Hl|done|done|congruence|congruence].
  - split; [done|]. split; [done|]. cbn. unfold create_endpoint in Hc.
    destruct (_ <=? _)%nat; [by simplify_eq|]. destruct frame as [phys|]; [|done].
    injection Hc as _ <-. intros i ep [Hi|[_ Hi]]%lookup_app_Some; [by eapply Hno|].
    apply list_lookup_singleton_Some in Hi as [_ <-]. unfold waits_for. cbn. naive_solver.
  - done.
  - by eapply ep_step_unreachable, send_attempt_step.
  - by eapply ep_step_unreachable, send_cap_attempt_step.
  - by eapply ep_step_unreachable, recv_attempt_step.
  - by eapply ep_step_unreachable, recv_cap_attempt_step.
  - by eapply ep_step_unreachable, recv_timeout_attempt_step.
  - by eapply ep_step_unreachable, send_timeout_attempt_step.
  - destruct (try_recv_step read_word _ _ _ _ _ Hr) as [->|?]; [done|].
    by eapply ep_step_unreachable.
Qed.

(** A round of [recv] on an empty ring: the caller is Blocked and it alone is
    registered as the receiver. *)
Lemma recv_attempt_waits read_word k idx n ep cur k' e :
  sys_wf (is_tasks k) -> is_eps k !! idx = Some ep ->
  sc_tasks (ts_sched (is_tasks k)) !! sc_current (ts_sched (is_tasks k)) = Some cur ->
  recv_attempt read_word k idx n = Done (Waiting, k', e) ->
  blocked_in (t_id cur) (sc_tasks (ts_sched (is_tasks k'))) /\
  is_eps k' = <[idx := with_receiver (Some (t_id cur)) ep]> (is_eps k) /\
  ts_waiters (is_tasks k') = ts_waiters (is_tasks k) /\
  ts_sleep_queue (is_tasks k') = ts_sleep_queue (is_tasks k) /\
  sys_step read_word LBlock (is_tasks k) (is_tasks k').
Proof.
  intros Hwf He Hcur. unfold recv_attempt. rewrite He. destruct (negb _); [done|].
  unfold current_task_id. rewrite Hcur. cbn [fmap option_fmap option_map]. unfold block_here. cbn.
  destruct (block_and_yield _ _) as [ [s' e']| |] eqn:Eb; [|done..]. intros [= <- _]. cbn.
  split; [by eapply block_and_yield_self; [apply yw_sched| |exact Eb]|].
  do 3 (split; [done|]). by econstructor.
Qed.

(** An endpoint remembers one blocked receiver only. If task [A] blocks in
    [recv] and then another task blocks in [recv] on the same endpoint, [A] is
    no longer registered anywhere, and no later send, receive, timeout, exit or
    tick makes it runnable: it stays Blocked however many messages arrive. *)
Theorem second_receiver_strands_first read_word k idx n1 n2 ep a b k1 e1 k2 e2 k3 :
  sys_wf (is_tasks k) ->
  is_eps k !! idx = Some ep ->
  sc_tasks (ts_sched (is_tasks k)) !! sc_current (ts_sched (is_tasks k)) = Some a ->
  (forall x, Some (t_id a, x) ∉ ts_waiters (is_tasks k)) ->
  (forall x, Some (t_id a, x) ∉ ts_sleep_queue (is_tasks k)) ->
  (forall i ep', is_eps k !! i = Some ep' -> ~ waits_for ep' (t_id a)) ->
  recv_attempt read_word k idx n1 = Done (Waiting, k1, e1) ->
  sc_tasks (ts_sched (is_tasks k1)) !! sc_current (ts_sched (is_tasks k1)) = Some b ->
  recv_attempt read_word k1 idx n2 = Done (Waiting, k2, e2) ->
  rtc (fun x y => exists rw o, ipc_step rw o x y /\
         o <> Some (LWake (t_id a)) /\ o <> Some (LKill (t_id a))) k2 k3 ->
  blocked_in (t_id a) (sc_tasks (ts_sched (is_tasks k3))).
Proof.
  intros Hwf He Ha Hw Hq Hno E1 Hb E2 Hrun.
  destruct (recv_attempt_waits _ _ _ _ _ _ _ _ Hwf He Ha E1) as (Hb1 & Heps1 & Hw1 & Hq1 & Hs1).
  assert (sys_wf (is_tasks k1)) as Hwf1 by (by eapply sys_step_wf).
  assert (t_id b <> t_id a) as Hne by (eapply blocked_not_current; [apply yw_sched| |]; done).
  assert (is_eps k1 !! idx = Some (with_receiver (Some (t_id a)) ep)) as He1.
  { rewrite Heps1. apply list_lookup_insert_eq. by eapply lookup_lt_Some. }
  destruct (recv_attempt_waits _ _ _ _ _ _ _ _ Hwf1 He1 Hb E2) as (_ & Heps2 & Hw2 & Hq2 & Hs2).
  assert (unreachable_waiter (t_id a) k2) as Hu.
  { split; [by eapply sys_step_wf|]. split.
    - eapply step_forgotten; [exact Hs2|done| |done|done]. split; [done|]. by rewrite Hw1, Hq1.
    - rewrite Heps2, Heps1, list_insert_insert_eq. intros i ep' Hi.
      destruct (decide (i = idx)) as [->|Hni].
      + rewrite list_lookup_insert_eq in Hi by (by eapply lookup_lt_Some). injection Hi as <-.
        unfold waits_for. cbn. intros [?|?]; [|congruence]. by apply (Hno idx ep); [|left].
      + rewrite list_lookup_insert_ne in Hi by done. by eapply Hno. }
  revert Hu. clear -Hrun. induction Hrun as [k|x y z (rw & o & Hs & H1 & H2) _ IH].
  - intros (_ & [? _] & _). done.
  - intros Hu. apply IH. by eapply ipc_step_unreachable.
Qed.

Definition done_sys {A} (d : IpcSys) (o : outcome (A * IpcSys * list effect)) : IpcSys :=
  match o with Done (_, k, _) => k | _ => d end.
Definition done_effs {A} (o : outcome (A * IpcSys * list effect)) : list effect :=
  match o with Done (_, _, e) => e | _ => [] end.
Definition current_of (k : IpcSys) : Task :=
  default (demo_task 0 0 Dead) (sc_tasks (ts_sched (is_tasks k)) !! sc_current (ts_sched (is_tasks k))).


(** Tasks 0 and 1 receive on endpoint 0, then task 2 sends twice. *)
Definition demo_rx0 : IpcSys :=
  mkIpc (demo_run task_init [LSpawnKernel 4096 100; LSpawnKernel 131072 100])
        [mkEp 0 0 None None None ring_zeroed] ∅.
Definition demo_rx1 : IpcSys := done_sys demo_rx0 (recv_attempt demo_memory demo_rx0 0 64).
Definition demo_rx2 : IpcSys := done_sys demo_rx1 (recv_attempt demo_memory demo_rx1 0 64).
Definition demo_rx3 : IpcSys := done_sys demo_rx2 (send_attempt demo_memory demo_rx2 0 [1]).
Definition demo_rx4 : IpcSys := done_sys demo_rx3 (send_attempt demo_memory demo_rx3 0 [2]).

Lemma second_receiver_strands_first_witness :
  blocked_in 0 (sc_tasks (ts_sched (is_tasks demo_rx4))) /\
  (ring_queue ∘ ep_ring <$> is_eps demo_rx4) = [[pad [1]; pad [2]]].
Proof.
  split; [|vm_compute; reflexivity].
  assert (t_id (current_of demo_rx0) = 0) as Hid by (vm_compute; reflexivity). rewrite <- Hid.
  refine (second_receiver_strands_first demo_memory demo_rx0 0 64 64 (mkEp 0 0 None None None ring_zeroed)
    (current_of demo_rx0) (current_of demo_rx1) demo_rx1
    (done_effs (recv_attempt demo_memory demo_rx0 0 64)) demo_rx2
    (done_effs (recv_attempt demo_memory demo_rx1 0 64)) demo_rx4 _ _ _ _ _ _ _ _ _ _).
  - apply reachable_wf, demo_run_reachable.
  - reflexivity.
  - vm_compute. reflexivity.
  - intros x Hx. vm_compute in Hx. repeat (apply elem_of_cons in Hx as [Hx|Hx]; [discriminate Hx|]).
    by apply elem_of_nil in Hx.
  - intros x Hx. vm_compute in Hx. repeat (apply elem_of_cons in Hx as [Hx|Hx]; [discriminate Hx|]).
    by apply elem_of_nil in Hx.
  - intros [|i] ep' Hi; [|by destruct i]. injection Hi as <-. intros [H|H]; discriminate H.
  - vm_compute. reflexivity.
  - vm_compute. reflexivity.
  - vm_compute. reflexivity.
  - eapply (rtc_l _ _ demo_rx3); [|eapply (rtc_l _ _ demo_rx4); [|apply rtc_refl]];
      (exists demo_memory, None; split; [|done]).
    + refine (istep_send demo_memory demo_rx2 0 [1] (Returned tt) demo_rx3 [] _). vm_compute. reflexivity.
    + refine (istep_send demo_memory demo_rx3 0 [2] (Returned tt) demo_rx4 [] _). vm_compute. reflexivity.
Defined.

(** ** The system calls *)

Lemma resolve_ipc_Ok ko table h right idx :
  resolve_ipc ko table h right = Ok idx ->
  exists c, CapabilityTable_get table h = Ok c /\ cap_kind c = KIpc /\
    rights_has (cap_rights c) right = true /\ KoTable_get ko (cap_object c) = Some (KoIpc idx).
Proof.
  unfold resolve_ipc. destruct (CapabilityTable_get table h) as [c|] eqn:Eg; [|done].
  case_bool_decide as Hk; [|done]. destruct (rights_has _ _) eqn:Hr; [|done]. cbn.
  destruct (KoTable_get _ _) as [ [| | | |]|] eqn:Eo; intros [= <-]. by exists c.
Qed.

Lemma resolve_ipc_Err ko table h right e : resolve_ipc ko table h right = Err e -> is_err e = true.
Proof.
  unfold resolve_ipc. destruct (CapabilityTable_get table h); [|by intros [= <-]].
  destruct (_ && _); [|by intros [= <-]]. destruct (KoTable_get _ _) as [ [| | | |]|]; by intros [= <-].
Qed.

Lemma checked_endpoint_Err k h right e : checked_endpoint k h right = Err e -> is_err e = true.
Proof.
  unfold checked_endpoint. destruct (current_table k) as [ [id table]|]; [|by intros [= <-]].
  apply resolve_ipc_Err.
Qed.

(** The caller holds an IPC capability for endpoint [idx] with this right. *)
Definition holds_endpoint (k : IpcKernel) (handle right : Z) (idx : nat) : Prop :=
  exists id table c, current_table k = Some (id, table) /\
    CapabilityTable_get table handle = Ok c /\ cap_kind c = KIpc /\
    rights_has (cap_rights c) right = true /\ KoTable_get (k_ko k) (cap_object c) = Some (KoIpc idx).

(** An IPC call by a task that may not make it answers an error and changes
    nothing; any other touches at most one endpoint, one the caller holds. *)
Definition call_confined (k : IpcKernel) (handle right : Z) (r : attempt Sysret) (k' : IpcKernel)
  : Prop :=
  (exists e, r = Returned (rax e) /\ is_err e = true /\ k' = k) \/
  (exists idx, holds_endpoint k handle right idx /\
     k_ko k' = k_ko k /\ k_next_cap k' = k_next_cap k /\ is_names (k_ipc k') = is_names (k_ipc k) /\
     forall j, j <> idx -> is_eps (k_ipc k') !! j = is_eps (k_ipc k) !! j).

Lemma checked_endpoint_Ok k h right idx :
  checked_endpoint k h right = Ok idx -> holds_endpoint k h right idx.
Proof.
  unfold checked_endpoint. destruct (current_table k) as [ [id table]|] eqn:Et; [|done].
  intros (c & ? & ? & ? & ?)%resolve_ipc_Ok. by exists id, table, c.
Qed.

Lemma finish_confined {A} rw k handle right idx (o : outcome (attempt A * IpcSys * list effect)) f r k' e :
  holds_endpoint k handle right idx ->
  (forall x k1 e1, o = Done (x, k1, e1) -> ep_step rw (k_ipc k) idx k1) ->
  finish k o (fun a k1 => (f a, k1)) = Done (r, k', e) -> call_confined k handle right r k'.
Proof.
  intros Hh Ho. unfold finish. destruct o as [ [[x k1] e1]| |]; [|done..].
  specialize (Ho _ _ _ eq_refl). intros Hd. right. exists idx. split; [done|].
  assert (k_ipc k' = k1 /\ k_ko k' = k_ko k /\ k_next_cap k' = k_next_cap k) as (-> & -> & ->).
  { destruct x; by injection Hd as <- <- _. }
  destruct Ho as [ep ep' tasks' _ _ _]. do 3 (split; [done|]). cbn.
  intros j Hj. by rewrite list_lookup_insert_ne.
Qed.

Lemma fail_confined k handle right v r k' e :
  is_err v = true -> fail k v = Done (r, k', e) -> call_confined k handle right r k'.
Proof. intros Hv [= <- <- _]. left. by exists v. Qed.


Lemma ring_queue_length r m : ring_linear r -> m ∈ ring_queue r -> length m = 64%nat.
Proof.
  intros Hl (c & -> & _)%list_elem_of_fmap. apply length_slice.
  pose proof (slot_off_bound c). rewrite (rl_len _ Hl). lia.
Qed.

(** [SYS_IPC_RECV] answers 64 whatever the size of the caller's buffer: with
    a buffer of [a3 < 64] bytes and a message waiting, exactly [a3] bytes are
    stored, the other [64 - a3] are discarded, and RAX is 64, not the number of
    bytes copied. *)
Theorem sys_ipc_recv_short_buffer rw k a1 a2 a3 idx ep m q :
  checked_endpoint k a1 READ = Ok idx -> endpoint_at (k_ipc k) idx ep (m :: q) ->
  0 <= a3 < 64 -> valid_user_range a2 a3 = true ->
  exists k' ep', sys_ipc_recv rw k a1 a2 a3 = Done (Returned (mkRet 64 [(a2, take (Z.to_nat a3) m)]), k', [])
    /\ length (take (Z.to_nat a3) m) = Z.to_nat a3 /\ endpoint_at (k_ipc k') idx ep' q.
Proof.
  intros Hc Hat Ha Hv. unfold sys_ipc_recv. change MSG_SIZE with 64.
  rewrite Z.min_l, Hv, Hc by lia. cbn [negb].
  destruct (recv_attempt_ok rw _ _ _ _ _ (Z.to_nat 64) Hat) as [-> H2].
  assert (length m = 64%nat) as Hm.
  { eapply ring_queue_length; [apply Hat|]. rewrite (ea_queue _ _ _ _ Hat). apply list_elem_of_here. }
  replace (take (Nat.min (Z.to_nat 64) 64) m) with m by (by rewrite take_ge by (rewrite Hm; cbn; lia)).
  unfold finish, deliver. rewrite Hm. do 2 eexists. split; [reflexivity|].
  split; [rewrite length_take; lia|exact H2].
Qed.

(** Task 1 creates an endpoint and sends one message to it. *)
Definition demo_user (ptr len : Z) : list Z := replicate (Z.to_nat len) (wrap 8 ptr).

Definition done_kern {A} (d : IpcKernel) (o : outcome (A * IpcKernel * list effect)) : IpcKernel :=
  match o with Done (_, k, _) => k | _ => d end.

Definition demo_k0 : IpcKernel := mkKern (mkIpc demo_switched [] ∅) [] 1.
Definition demo_k1 : IpcKernel := done_kern demo_k0 (sys_ipc_create demo_k0 (Some 20480) 0).
Definition demo_k2 : IpcKernel :=
  done_kern demo_k1 (sys_ipc_send demo_memory demo_user demo_k1 0 1000 3).


Lemma sys_ipc_recv_short_buffer_witness :
  exists k', sys_ipc_recv demo_memory demo_k2 0 5000 2
    = Done (Returned (mkRet 64 [(5000, [232; 232])]), k', []).
Proof.
  pose (ep := default (mkEp 0 0 None None None ring_zeroed) (is_eps (k_ipc demo_k2) !! 0%nat)).
  destruct (sys_ipc_recv_short_buffer demo_memory demo_k2 0 5000 2 0 ep (pad [232; 232; 232]) [])
    as (k' & ep' & H & _).
  - vm_compute. reflexivity.
  - split; [vm_compute; reflexivity| |vm_compute; reflexivity].
    split; [vm_compute; reflexivity|vm_compute; split; discriminate|vm_compute; reflexivity|
            vm_compute; discriminate].
  - lia.
  - reflexivity.
  - exists k'. exact H.
Defined.

(** ** Names *)

Lemma current_table_set k id table table' :
  current_table k = Some (id, table) -> current_table (set_table k id table') = Some (id, table').
Proof.
  unfold current_table, set_table. destruct (current_task_id (k_sched k)) as [c|] eqn:Ec; [|done].
  unfold cap_table_of. rewrite find_position. intros H.
  apply fmap_Some in H as (t0 & Ht0 & [= -> ->]).
  destruct (position _ (sc_tasks (k_sched k))) as [i|] eqn:Ep; [|done].
  apply fmap_Some in Ht0 as (t & Hi & ->). cbn.
  assert (current_task_id (mkSched (alter (with_cap_table table') i (sc_tasks (k_sched k)))
    (sc_current (k_sched k)) (sc_next_id (k_sched k))) = Some c) as Hc.
  { revert Ec. unfold current_task_id. cbn. destruct (decide (i = sc_current (k_sched k))) as [->|Hne].
    - by rewrite list_lookup_alter_eq, Hi.
    - by rewrite list_lookup_alter_ne. }
  rewrite Hc, find_position, position_alter by done. rewrite Ep, list_lookup_alter_eq, Hi. done.
Qed.

Lemma lookup_rights_spec a3 :
  lookup_rights a3 <> 0 /\ rights_has (Z.lor READ WRITE) (lookup_rights a3) = true.
Proof.
  unfold lookup_rights, rights_has. change (Z.lor READ WRITE) with 3.
  destruct (Z.eqb_spec (Z.land (wrap 8 a3) 3) 0); [by split|]. split; [done|].
  apply Z.eqb_eq. rewrite (Z.land_comm 3), <- Z.land_assoc. done.
Qed.

Lemma is_err_0 e : is_err e = true -> e <> 0.
Proof. intros He ->. discriminate He. Qed.

Lemma sys_ipc_bind_ok ru k a1 a2 a3 k1 e :
  sys_ipc_bind ru k a1 a2 a3 = Done (Returned (rax 0), k1, e) ->
  exists idx, holds_endpoint k a1 GRANT idx /\ utf8_valid (ru a2 a3) = true /\
    is_names (k_ipc k1) !! ru a2 a3 = Some idx.
Proof.
  assert (forall k0 v k' e', is_err v = true -> fail k0 v <> Done (Returned (rax 0), k', e')) as Hf.
  { intros k0 v k' e' Hv [= He _ _]. by apply is_err_0 in Hv. }
  unfold sys_ipc_bind. destruct (_ || _); [intros H; by apply Hf in H|].
  destruct (negb (valid_user_range _ _)); [intros H; by apply Hf in H|].
  destruct (checked_endpoint _ _ _) as [idx|v] eqn:Ec.
  2:{ intros H. apply Hf in H; [done|by eapply checked_endpoint_Err]. }
  destruct (utf8_valid (ru a2 a3)); cbn [negb]; [|intros H; by apply Hf in H].
  intros H. exists idx. split; [by apply checked_endpoint_Ok|]. split; [done|].
  unfold bind_name in H. destruct (is_names (k_ipc k) !! ru a2 a3) as [idx'|] eqn:En.
  - destruct (Nat.eqb_spec idx' idx) as [->|]; [|discriminate H]. injection H as <- _. done.
  - injection H as <- _. cbn. by rewrite lookup_insert_eq.
Qed.

Lemma KoTable_create_ok t obj :
  Z.of_nat (length t) < 2 ^ 32 -> exists r t', KoTable_create t obj = (Ok r, t').
Proof.
  intros Hlen. unfold KoTable_create. destruct (reuse_vacant t 0 obj) as [ [t' r]|]; [eauto|].
  change U32_MAX with (2 ^ 32 - 1). destruct (Z.ltb_spec (2 ^ 32 - 1) (Z.of_nat (length t))); [lia|eauto].
Qed.

Lemma create_root_cap_ok n table kind rights obj :
  table_wf table -> has_room table ->
  exists table' h n' c, create_root_cap n table kind rights obj = (table', h, n') /\
    CapabilityTable_get table' h = Ok c /\ cap_kind c = kind /\ cap_rights c = rights /\
    cap_object c = obj.
Proof.
  intros Hwf Hroom. unfold create_root_cap. cbn [alloc_cap_id].
  set (c := mkCap n kind rights obj None []).
  destruct (CapabilityTable_insert table c) as [table' h] eqn:E.
  destruct (slots_insert_spec _ _ _ _ Hwf Hroom E) as (_ & _ & Hat & _ & _).
  do 4 eexists. split; [done|]. split; [by apply CapabilityTable_get_Ok|done].
Qed.

Lemma set_table_parts k id table :
  k_ko (set_table k id table) = k_ko k /\ is_names (k_ipc (set_table k id table)) = is_names (k_ipc k).
Proof. unfold set_table. by destruct (position _ _). Qed.

(** Names lead back to what was bound. If [SYS_IPC_BIND] answers 0, the
    caller held the endpoint with GRANT, and from then on a [SYS_IPC_LOOKUP] of
    that name by any task with room in its table answers a handle to that very
    endpoint, with the requested part of READ and WRITE (both by default) and
    never GRANT or REVOKE; a later bind of the name to another endpoint is
    refused and leaves the name alone. *)
Theorem bind_then_lookup ru k a1 a2 a3 k1 e k2 b1 b2 b3 id table :
  sys_ipc_bind ru k a1 a2 a3 = Done (Returned (rax 0), k1, e) ->
  is_names (k_ipc k2) = is_names (k_ipc k1) ->
  current_table k2 = Some (id, table) -> table_wf table -> has_room table ->
  table_wf (k_ko k2) -> Z.of_nat (length (k_ko k2)) < 2 ^ 32 ->
  0 < b2 <= 128 -> valid_user_range b1 b2 = true -> ru b1 b2 = ru a2 a3 ->
  exists idx k3 h c table',
    holds_endpoint k a1 GRANT idx /\
    sys_ipc_lookup ru k2 b1 b2 b3 = Done (Returned (rax h), k3, []) /\
    current_table k3 = Some (id, table') /\ CapabilityTable_get table' h = Ok c /\
    cap_rights c = lookup_rights b3 /\ rights_has (Z.lor READ WRITE) (cap_rights c) = true /\
    KoTable_get (k_ko k3) (cap_object c) = Some (KoIpc idx) /\
    (forall idx', idx' <> idx -> bind_name (is_names (k_ipc k3)) (ru a2 a3) idx'
                                 = (false, is_names (k_ipc k3))).
Proof.
  intros Hb Hn Ht Hwf Hroom Hko Hkl Hb2 Hv Hru.
  apply sys_ipc_bind_ok in Hb as (idx & Hh & Hutf & Hname). rewrite <- Hn in Hname.
  unfold sys_ipc_lookup. rewrite (proj2 (Z.eqb_neq b2 0)), (proj2 (Z.ltb_ge 128 b2)) by lia.
  rewrite Hv, Hru, Hutf. cbn [negb orb]. unfold lookup_name. rewrite Hname.
  destruct (KoTable_create_ok (k_ko k2) (KoIpc idx) Hkl) as (obj & ko' & Eko). rewrite Eko.
  destruct (KoTable_create_spec _ _ _ _ Hko Eko) as (_ & Hobj & _).
  set (k2' := mkKern (k_ipc k2) ko' (k_next_cap k2)).
  change (current_table k2') with (current_table k2). rewrite Ht.
  destruct (create_root_cap_ok (k_next_cap k2') table KIpc (lookup_rights b3) obj Hwf Hroom)
    as (table' & h & n' & c & -> & Hget & _ & Hrights & Ho).
  destruct (set_table_parts k2' id table') as [Hko' Hnames].
  do 5 eexists. split; [exact Hh|]. split; [reflexivity|].
  split; [exact (current_table_set k2' id table table' Ht)|]. split; [exact Hget|].
  split; [done|]. split; [rewrite Hrights; apply lookup_rights_spec|]. cbn [k_ko k_ipc].
  rewrite Hko', Hnames. split.
  - unfold KoTable_get. cbn. rewrite Ho, Hobj. cbn. by rewrite Z.eqb_refl.
  - intros idx' Hne. unfold bind_name. cbn. rewrite Hname. f_equal. by apply Nat.eqb_neq.
Qed.

(** Task 1 binds its endpoint and looks it up again, write only. *)
Definition demo_k3 : IpcKernel := done_kern demo_k1 (sys_ipc_bind demo_user demo_k1 0 1121 3).

Lemma bind_then_lookup_witness :
  exists k3 h c table',
    sys_ipc_lookup demo_user demo_k3 1121 3 2 = Done (Returned (rax h), k3, []) /\
    current_table k3 = Some (1, table') /\ CapabilityTable_get table' h = Ok c /\ cap_rights c = WRITE.
Proof.
  pose (table := match current_table demo_k3 with Some (_, t) => t | None => [] end).
  destruct (bind_then_lookup demo_user demo_k1 0 1121 3 demo_k3 [] demo_k3 1121 3 2 1 table)
    as (idx & k3 & h & c & table' & _ & H1 & H2 & H3 & H4 & _).
  - vm_compute. reflexivity.
  - reflexivity.
  - vm_compute. reflexivity.
  - split; [vm_compute; discriminate|]. repeat constructor; vm_compute; try discriminate; reflexivity.
  - left. vm_compute. reflexivity.
  - split; [vm_compute; discriminate|]. repeat constructor; vm_compute; try discriminate; reflexivity.
  - vm_compute. reflexivity.
  - lia.
  - reflexivity.
  - reflexivity.
  - exists k3, h, c, table'. split; [exact H1|]. split; [exact H2|]. split; [exact H3|exact H4].
Defined.
