(* ===== verification/Pmm.v ===== *)
(** * Physical frames (kernel/src/pmm.rs)

    A bitmap of 16384 64-bit words, one bit per 4 KiB frame of the first 4 GiB
    (bit set: used), with a counter of free frames.  The theorems relate it to
    the set of used frames: what the boot-time initialisation leaves free, that
    allocation takes the lowest free frame (or the first free run), and that
    two allocations that are alive never share a frame. *)

From S2P Require Import Prelude.

#[local] Open Scope Z_scope.

Definition FRAME_SIZE : Z := 4096.
Definition MAX_FRAMES : Z := 4 * 1024 * 1024 * 1024 / FRAME_SIZE.
Definition BITMAP_WORDS : Z := MAX_FRAMES / 64.
Definition LIMINE_MMAP_USABLE : Z := 0.

(** Raw accesses [word.add(frame / 64)]; callers keep [frame] in range, see
    [frames_in_range] below. *)
Abbreviation Bitmap := (list Z).

Definition word_index (frame : Z) : nat := Z.to_nat (frame / 64).
Definition frame_bit (frame : Z) : Z := Z.shiftl 1 (frame mod 64).

Definition set_used (bm : Bitmap) (frame : Z) : Bitmap :=
  alter (fun w => Z.lor w (frame_bit frame)) (word_index frame) bm.

Definition set_free (bm : Bitmap) (frame : Z) : Bitmap :=
  alter (fun w => Z.land w (not_u 64 (frame_bit frame))) (word_index frame) bm.

Definition is_used (bm : Bitmap) (frame : Z) : bool :=
  match bm !! word_index frame with
  | Some w => negb (Z.land w (frame_bit frame) =? 0)
  | None => false
  end.

(** [for i in first..last] *)
Definition for_range (first last : Z) (f : Bitmap -> Z -> Bitmap) (bm : Bitmap) : Bitmap :=
  foldl f bm (seqZ first (last - first)).

Definition mark_range_free (bm : Bitmap) (start stop : Z) : Bitmap :=
  if stop <=? start then bm
  else
    let first := wrap 64 (start + FRAME_SIZE - 1) / FRAME_SIZE in
    let last := stop / FRAME_SIZE in
    for_range first (Z.min last MAX_FRAMES) set_free bm.

Definition mark_range_used (bm : Bitmap) (start stop : Z) : Bitmap :=
  if stop <=? start then bm
  else
    let first := start / FRAME_SIZE in
    let last := wrap 64 (stop + FRAME_SIZE - 1) / FRAME_SIZE in
    for_range first (Z.min last MAX_FRAMES) set_used bm.

(** [u64::count_zeros] and [u64::trailing_ones]. *)
Definition count_zeros (w : Z) : Z :=
  Z.of_nat (length (List.filter (fun i => negb (Z.testbit w i)) (seqZ 0 64))).

Fixpoint trailing_ones_from (w : Z) (left : nat) (i : Z) : Z :=
  match left with
  | O => i
  | S left' => if Z.testbit w i then trailing_ones_from w left' (i + 1) else i
  end.

Definition trailing_ones (w : Z) : Z := trailing_ones_from w 64 0.

Record Pmm : Type := mkPmm {
  pm_bitmap : Bitmap;
  pm_free : Z
}.

Definition sum_zeros (bm : Bitmap) : Z := foldr (fun w acc => count_zeros w + acc) 0 bm.

Definition init_from_limine (entries : list (Z * Z * Z)) (kernel_phys_base kernel_phys_end : Z)
  : Pmm :=
  let bm0 := replicate (Z.to_nat BITMAP_WORDS) U64_MAX in
  let bm1 := foldl (fun bm e =>
               let '(base, length, typ) := e in
               if typ =? LIMINE_MMAP_USABLE then mark_range_free bm base (wrap 64 (base + length))
               else bm) bm0 entries in
  let bm2 := mark_range_used bm1 kernel_phys_base kernel_phys_end in
  let bm3 := set_used bm2 0 in
  mkPmm bm3 (sum_zeros bm3).

(** The word loop of [alloc_frame]: index and bit of the first word that is
    not all ones, with the bitmap after the update. *)
Fixpoint alloc_scan (words : Bitmap) (wi : Z) : option (Z * Bitmap) :=
  match words with
  | [] => None
  | w :: ws =>
      if w =? U64_MAX then
        match alloc_scan ws (wi + 1) with
        | Some (frame, ws') => Some (frame, w :: ws')
        | None => None
        end
      else
        let bit := trailing_ones w in
        Some (wi * 64 + bit, Z.lor w (Z.shiftl 1 bit) :: ws)
  end.

Definition alloc_frame (p : Pmm) : option (Z * Pmm) :=
  match alloc_scan (pm_bitmap p) 0 with
  | Some (frame, bm) => Some (frame * FRAME_SIZE, mkPmm bm (pm_free p - 1))
  | None => None
  end.

(** [None] is a failed assertion: unaligned, out of range or already free. *)
Definition free_frame (p : Pmm) (addr : Z) : option Pmm :=
  if negb (addr mod FRAME_SIZE =? 0) then None
  else
    let frame := addr / FRAME_SIZE in
    if negb (frame <? MAX_FRAMES) then None
    else if negb (is_used (pm_bitmap p) frame) then None
    else Some (mkPmm (set_free (pm_bitmap p) frame) (pm_free p + 1)).

Definition free_frame_count (p : Pmm) : Z := pm_free p.

(** The inner loop: offset of the first used frame of the run, if any. *)
Fixpoint first_used (bm : Bitmap) (start : Z) (left : nat) (i : Z) : option Z :=
  match left with
  | O => None
  | S left' => if is_used bm (start + i) then Some i else first_used bm start left' (i + 1)
  end.

(** The [while] loop; [start] grows in every round that goes on, so
    [MAX_FRAMES] rounds are enough. *)
Fixpoint find_run (fuel : nat) (bm : Bitmap) (n start : Z) : option Z :=
  match fuel with
  | O => None
  | S fuel' =>
      if start + n <=? MAX_FRAMES then
        match first_used bm start (Z.to_nat n) 0 with
        | Some i => find_run fuel' bm n (start + i + 1)
        | None => Some start
        end
      else None
  end.

Definition alloc_frames_contiguous (p : Pmm) (n : Z) : option (Z * Pmm) :=
  if n =? 0 then None
  else
    match find_run (Z.to_nat MAX_FRAMES + 1) (pm_bitmap p) n 0 with
    | Some start =>
        let bm := foldl (fun bm i => set_used bm (start + i)) (pm_bitmap p) (seqZ 0 n) in
        Some (start * FRAME_SIZE, mkPmm bm (pm_free p - n))
    | None => None
    end.

Definition free_frames_contiguous (p : Pmm) (addr n : Z) : option Pmm :=
  foldl (fun acc i =>
           match acc with
           | Some p => free_frame p (wrap 64 (addr + i * FRAME_SIZE))
           | None => None
           end) (Some p) (seqZ 0 n).

(** ** Bits *)

Definition bitmap_wf (bm : Bitmap) : Prop :=
  length bm = Z.to_nat BITMAP_WORDS /\ Forall (in_u 64) bm.

Lemma word_index_inj f g :
  0 <= f -> 0 <= g -> word_index f = word_index g -> f mod 64 = g mod 64 -> f = g.
Proof.
  unfold word_index. intros Hf Hg Hi Hm.
  assert (f / 64 = g / 64) by (apply Z2Nat.inj; [apply Z.div_pos; lia..|done]).
  pose proof (Z.div_mod f 64). pose proof (Z.div_mod g 64). lia.
Qed.

Lemma land_frame_bit w f : negb (Z.land w (frame_bit f) =? 0) = Z.testbit w (f mod 64).
Proof.
  unfold frame_bit. pose proof (Z.mod_pos_bound f 64).
  assert (forall n, 0 <= n -> Z.testbit (Z.land w (Z.shiftl 1 (f mod 64))) n
            = (Z.testbit w n && (n =? f mod 64))) as Hb.
  { intros n Hn. rewrite Z.land_spec, Z.shiftl_spec by done. f_equal.
    destruct (Z.eqb_spec n (f mod 64)) as [->|Hne].
    - by rewrite Z.sub_diag.
    - destruct (decide (n < f mod 64)); [by apply Z.testbit_neg_r; lia|].
      apply (Z.bits_above_log2 1); [lia|]. cbn. lia. }
  destruct (Z.eqb_spec (Z.land w (Z.shiftl 1 (f mod 64))) 0) as [He|Hne].
  - specialize (Hb (f mod 64) ltac:(lia)). rewrite He, Z.bits_0, Z.eqb_refl, andb_true_r in Hb. done.
  - cbn. destruct (Z.testbit w (f mod 64)) eqn:Ht; [done|]. exfalso. apply Hne.
    apply Z.bits_inj'. intros n Hn. rewrite Hb, Z.bits_0 by done.
    destruct (Z.eqb_spec n (f mod 64)) as [->|]; [by rewrite Ht|apply andb_false_r].
Qed.

Lemma testbit_set w b n :
  0 <= n -> 0 <= b -> Z.testbit (Z.lor w (Z.shiftl 1 b)) n = (n =? b) || Z.testbit w n.
Proof.
  intros Hn Hb. rewrite Z.lor_spec, Z.shiftl_spec by done. rewrite orb_comm. f_equal.
  destruct (Z.eqb_spec n b) as [->|Hne]; [by rewrite Z.sub_diag|].
  destruct (decide (n < b)); [by apply Z.testbit_neg_r; lia|].
  apply (Z.bits_above_log2 1); [lia|]. cbn. lia.
Qed.

Lemma testbit_clear w b n :
  0 <= n < 64 -> 0 <= b < 64 ->
  Z.testbit (Z.land w (not_u 64 (Z.shiftl 1 b))) n = negb (n =? b) && Z.testbit w n.
Proof.
  intros Hn Hb. rewrite Z.land_spec, andb_comm. f_equal. unfold not_u.
  replace (2 ^ 64 - 1 - Z.shiftl 1 b) with (Z.ldiff (Z.ones 64) (Z.shiftl 1 b)).
  - rewrite Z.ldiff_spec, Z.testbit_ones_nonneg by lia. rewrite Z.shiftl_spec by lia.
    rewrite (proj2 (Z.ltb_lt n 64)) by lia. cbn. f_equal.
    destruct (Z.eqb_spec n b) as [->|]; [by rewrite Z.sub_diag|].
    destruct (decide (n < b)); [by apply Z.testbit_neg_r; lia|].
    apply (Z.bits_above_log2 1); [lia|]. cbn. lia.
  - rewrite <- Z.sub_nocarry_ldiff; [by rewrite Z.ones_equiv|].
    apply Z.bits_inj'. intros m Hm. rewrite Z.ldiff_spec, Z.bits_0, Z.shiftl_spec by lia.
    rewrite Z.testbit_ones_nonneg by lia. destruct (Z.ltb_spec m 64); [apply andb_false_r|].
    rewrite (Z.bits_above_log2 1); [done|lia|]. cbn. lia.
Qed.

Lemma in_u_set w b : in_u 64 w -> 0 <= b < 64 -> in_u 64 (Z.lor w (Z.shiftl 1 b)).
Proof.
  unfold in_u. intros Hw Hb. assert (0 < 2 ^ b) by (apply Z.pow_pos_nonneg; lia).
  rewrite Z.shiftl_mul_pow2, Z.mul_1_l by lia. split; [apply Z.lor_nonneg; lia|].
  assert (0 < Z.lor w (2 ^ b)).
  { assert (0 <= Z.lor w (2 ^ b)) by (apply Z.lor_nonneg; lia).
    destruct (Z.eq_dec (Z.lor w (2 ^ b)) 0) as [E|]; [|lia]. apply Z.lor_eq_0_iff in E. lia. }
  apply Z.log2_lt_pow2; [done|]. rewrite Z.log2_lor by lia. apply Z.max_lub_lt.
  - destruct (Z.eq_dec w 0) as [->|]; [cbn; lia|]. apply Z.log2_lt_pow2; lia.
  - rewrite Z.log2_pow2; lia.
Qed.

Lemma in_u_clear w m : in_u 64 w -> 0 <= m -> in_u 64 (Z.land w m).
Proof.
  unfold in_u. intros Hw Hm. split; [apply Z.land_nonneg; lia|].
  destruct (Z.eq_dec (Z.land w m) 0) as [->|]; [lia|].
  assert (0 < Z.land w m) by (assert (0 <= Z.land w m) by (apply Z.land_nonneg; lia); lia).
  apply Z.log2_lt_pow2; [done|]. eapply Z.le_lt_trans; [apply Z.log2_land; lia|].
  apply Z.min_lt_iff. left. apply Z.log2_lt_pow2; [|lia].
  destruct (Z.eq_dec w 0) as [->|]; [by rewrite Z.land_0_l in *|lia].
Qed.

Definition in_range (bm : Bitmap) (f : Z) : Prop := 0 <= f < 64 * Z.of_nat (length bm).

Lemma word_index_lt bm f : in_range bm f -> (word_index f < length bm)%nat.
Proof.
  unfold in_range, word_index. intros Hf.
  assert (f / 64 < Z.of_nat (length bm)) by (apply Z.div_lt_upper_bound; lia).
  assert (0 <= f / 64) by (apply Z.div_pos; lia). lia.
Qed.

(** Two frames of the same word with the same bit are one frame. *)
Lemma same_bit f g :
  0 <= f -> 0 <= g -> word_index f = word_index g -> (g mod 64 =? f mod 64) = (f =? g).
Proof.
  intros Hf Hg Hi. destruct (Z.eqb_spec f g) as [->|Hne]; [apply Z.eqb_refl|].
  apply Z.eqb_neq. intros Hm. by apply Hne, word_index_inj.
Qed.

Lemma is_used_set_used bm f g :
  in_range bm f -> 0 <= g -> is_used (set_used bm f) g = (f =? g) || is_used bm g.
Proof.
  intros Hf Hg. pose proof (word_index_lt _ _ Hf) as Hlt. unfold is_used, set_used.
  pose proof (Z.mod_pos_bound f 64). pose proof (Z.mod_pos_bound g 64).
  destruct (decide (word_index f = word_index g)) as [Heq|Hne].
  - rewrite <- Heq, list_lookup_alter_eq. destruct (lookup_lt_is_Some_2 _ _ Hlt) as [w ->]. cbn.
    rewrite !land_frame_bit. unfold frame_bit. rewrite testbit_set by lia.
    rewrite same_bit by (first [done | apply Hf | lia]). done.
  - rewrite list_lookup_alter_ne by done.
    rewrite (proj2 (Z.eqb_neq f g)) by congruence. done.
Qed.

Lemma is_used_set_free bm f g :
  in_range bm f -> 0 <= g -> is_used (set_free bm f) g = negb (f =? g) && is_used bm g.
Proof.
  intros Hf Hg. pose proof (word_index_lt _ _ Hf) as Hlt. unfold is_used, set_free.
  pose proof (Z.mod_pos_bound f 64). pose proof (Z.mod_pos_bound g 64).
  destruct (decide (word_index f = word_index g)) as [Heq|Hne].
  - rewrite <- Heq, list_lookup_alter_eq. destruct (lookup_lt_is_Some_2 _ _ Hlt) as [w ->]. cbn.
    rewrite !land_frame_bit. unfold frame_bit. rewrite testbit_clear by lia.
    rewrite same_bit by (first [done | apply Hf | lia]). done.
  - rewrite list_lookup_alter_ne by done.
    rewrite (proj2 (Z.eqb_neq f g)) by congruence. done.
Qed.

Lemma length_set_used bm f : length (set_used bm f) = length bm.
Proof. apply length_alter. Qed.

Lemma length_set_free bm f : length (set_free bm f) = length bm.
Proof. apply length_alter. Qed.

Lemma set_used_wf bm f : bitmap_wf bm -> bitmap_wf (set_used bm f).
Proof.
  intros [Hl Hw]. split; [by rewrite length_set_used|].
  apply Forall_alter; [done|]. intros w _ Hin. apply in_u_set; [done|].
  apply Z.mod_pos_bound. lia.
Qed.

Lemma set_free_wf bm f : bitmap_wf bm -> bitmap_wf (set_free bm f).
Proof.
  intros [Hl Hw]. split; [by rewrite length_set_free|].
  apply Forall_alter; [done|]. intros w _ Hin. apply in_u_clear; [done|].
  unfold not_u, frame_bit. pose proof (Z.mod_pos_bound f 64).
  rewrite Z.shiftl_mul_pow2 by lia. assert (2 ^ (f mod 64) <= 2 ^ 63) by (apply Z.pow_le_mono_r; lia). lia.
Qed.

(** ** Counting *)

Definition frames (bm : Bitmap) : list Z := seqZ 0 (64 * Z.of_nat (length bm)).

Definition free_list (bm : Bitmap) : list Z := List.filter (fun f => negb (is_used bm f)) (frames bm).

Lemma filter_ext_in {A} (p q : A -> bool) (l : list A) :
  (forall x, x ∈ l -> p x = q x) -> List.filter p l = List.filter q l.
Proof.
  intros H. induction l as [|x l IH]; [done|]. cbn. rewrite (H x) by apply list_elem_of_here.
  rewrite IH; [done|]. intros y Hy. apply H. by right.
Qed.

Lemma length_filter_map {A B} (g : A -> B) (p : B -> bool) (l : list A) :
  length (List.filter p (g <$> l)) = length (List.filter (fun x => p (g x)) l).
Proof. induction l as [|x l IH]; [done|]. cbn. destruct (p (g x)); cbn; by rewrite IH. Qed.

Lemma is_used_cons_lt w bm f : 0 <= f < 64 -> is_used (w :: bm) f = Z.testbit w f.
Proof.
  intros Hf. unfold is_used, word_index. rewrite Z.div_small by done.
  change ((w :: bm) !! Z.to_nat 0) with (Some w). cbv iota beta. rewrite land_frame_bit. by rewrite Z.mod_small.
Qed.

Lemma is_used_cons_ge w bm f : 0 <= f -> is_used (w :: bm) (64 + f) = is_used bm f.
Proof.
  intros Hf. unfold is_used, word_index, frame_bit.
  replace (64 + f) with (f + 1 * 64) by lia. rewrite Z.div_add, Z_mod_plus_full by lia.
  rewrite Z2Nat.inj_add by (try lia; apply Z.div_pos; lia). change (Z.to_nat 1) with 1%nat.
  rewrite Nat.add_1_r. done.
Qed.

Lemma seqZ_fmap_add m n : seqZ m n = (fun x => m + x) <$> seqZ 0 n.
Proof.
  unfold seqZ. rewrite <- list_fmap_compose. apply list_fmap_ext. intros. cbn. lia.
Qed.

(** The sum of the words' zero bits is the number of free frames. *)
Lemma sum_zeros_free bm : sum_zeros bm = Z.of_nat (length (free_list bm)).
Proof.
  unfold free_list, frames. induction bm as [|w bm IH]; [done|].
  cbn [sum_zeros foldr]. unfold sum_zeros in IH. rewrite IH. cbn [length].
  replace (64 * Z.of_nat (S (length bm))) with (64 + 64 * Z.of_nat (length bm)) by lia.
  rewrite seqZ_app, List.filter_app, length_app, Nat2Z.inj_add by lia. f_equal.
  - unfold count_zeros. do 2 f_equal. apply filter_ext_in. intros f Hf%elem_of_seqZ.
    by rewrite is_used_cons_lt.
  - rewrite (seqZ_fmap_add (0 + 64)), length_filter_map. do 2 f_equal.
    apply filter_ext_in. intros f Hf%elem_of_seqZ. cbn. by rewrite is_used_cons_ge by lia.
Qed.

Lemma elem_of_frames bm f : f ∈ frames bm <-> in_range bm f.
Proof. unfold frames, in_range. rewrite elem_of_seqZ. lia. Qed.

Lemma free_list_used bm f :
  in_range bm f -> is_used bm f = false ->
  length (free_list bm) = S (length (free_list (set_used bm f))).
Proof.
  intros Hf Hu. unfold free_list.
  replace (frames (set_used bm f)) with (frames bm) by (unfold frames; by rewrite length_set_used).
  rewrite (filter_ext_in (fun x => negb (is_used (set_used bm f) x))
             (fun x => negb ((f =? x) || is_used bm x))).
  - apply (filter_length_flip _ _ _ f); [apply NoDup_seqZ|by apply elem_of_frames|by rewrite Hu|
      by rewrite Z.eqb_refl|].
    intros x Hx. by rewrite (proj2 (Z.eqb_neq f x)) by congruence.
  - intros x Hx%elem_of_frames. rewrite is_used_set_used; [done|done|apply Hx].
Qed.

Lemma free_list_free bm f :
  in_range bm f -> is_used bm f = true ->
  length (free_list (set_free bm f)) = S (length (free_list bm)).
Proof.
  intros Hf Hu. unfold free_list.
  replace (frames (set_free bm f)) with (frames bm) by (unfold frames; by rewrite length_set_free).
  rewrite (filter_ext_in (fun x => negb (is_used (set_free bm f) x))
             (fun x => negb (negb (f =? x) && is_used bm x))).
  - apply (filter_length_flip _ _ _ f); [apply NoDup_seqZ|by apply elem_of_frames|
      by rewrite Z.eqb_refl|by rewrite Hu|].
    intros x Hx. by rewrite (proj2 (Z.eqb_neq f x)) by congruence.
  - intros x Hx%elem_of_frames. rewrite is_used_set_free; [done|done|apply Hx].
Qed.

(** ** Allocation of one frame *)

Lemma all_ones w : in_u 64 w -> (forall i, 0 <= i < 64 -> Z.testbit w i = true) -> w = U64_MAX.
Proof.
  intros Hw Ht. change U64_MAX with (Z.ones 64). apply Z.bits_inj'. intros n Hn.
  rewrite Z.testbit_ones_nonneg by lia. destruct (Z.ltb_spec n 64); [by apply Ht|].
  unfold in_u in Hw. destruct (Z.eq_dec w 0) as [->|]; [apply Z.bits_0|].
  apply Z.bits_above_log2; [lia|]. assert (Z.log2 w < 64) by (apply Z.log2_lt_pow2; lia). lia.
Qed.

Lemma trailing_ones_from_spec w : forall left i,
  (forall j, 0 <= j < i -> Z.testbit w j = true) -> 0 <= i ->
  let b := trailing_ones_from w left i in
  i <= b <= i + Z.of_nat left /\ (forall j, 0 <= j < b -> Z.testbit w j = true) /\
  (b < i + Z.of_nat left -> Z.testbit w b = false).
Proof.
  induction left as [|left IH]; intros i Hlo Hi; cbn [trailing_ones_from].
  - split; [lia|]. split; [done|lia].
  - destruct (Z.testbit w i) eqn:Ht.
    + destruct (IH (i + 1)) as (H1 & H2 & H3); [|lia|].
      { intros j Hj. destruct (decide (j = i)) as [->|]; [done|]. apply Hlo. lia. }
      split; [lia|]. split; [done|]. intros. apply H3. lia.
    + split; [lia|]. split; [done|]. done.
Qed.

Lemma trailing_ones_spec w :
  in_u 64 w -> w <> U64_MAX ->
  let b := trailing_ones w in
  0 <= b < 64 /\ Z.testbit w b = false /\ forall j, 0 <= j < b -> Z.testbit w j = true.
Proof.
  intros Hw Hne. unfold trailing_ones.
  destruct (trailing_ones_from_spec w 64 0) as (H1 & H2 & H3); [lia|lia|].
  assert (trailing_ones_from w 64 0 < 64).
  { destruct (decide (trailing_ones_from w 64 0 = 64)) as [He|]; [|lia].
    exfalso. apply Hne, all_ones; [done|]. rewrite He in H2. done. }
  split; [lia|]. split; [apply H3; lia|done].
Qed.

Lemma set_used_cons_ge w ws f : 0 <= f -> set_used (w :: ws) (64 + f) = w :: set_used ws f.
Proof.
  intros Hf. unfold set_used, word_index, frame_bit.
  replace (64 + f) with (f + 1 * 64) by lia. rewrite Z.div_add, Z_mod_plus_full by lia.
  rewrite Z2Nat.inj_add by (try lia; apply Z.div_pos; lia). change (Z.to_nat 1) with 1%nat.
  rewrite Nat.add_1_r. done.
Qed.

Lemma alloc_scan_spec words : forall wi,
  Forall (in_u 64) words ->
  match alloc_scan words wi with
  | Some (frame, words') => exists f, frame = wi * 64 + f /\ in_range words f /\
      is_used words f = false /\ (forall g, 0 <= g < f -> is_used words g = true) /\
      words' = set_used words f
  | None => forall f, in_range words f -> is_used words f = true
  end.
Proof.
  induction words as [|w ws IH]; intros wi Hw; cbn [alloc_scan].
  { intros f Hf. unfold in_range in Hf. cbn in Hf. lia. }
  apply Forall_cons in Hw as [Hw Hws]. unfold in_range in *. cbn [length].
  destruct (Z.eqb_spec w U64_MAX) as [->|Hne].
  - assert (forall g, 0 <= g < 64 -> is_used (U64_MAX :: ws) g = true) as Hall.
    { intros g Hg. rewrite is_used_cons_lt by done. change U64_MAX with (Z.ones 64).
      by apply Z.ones_spec_low. }
    specialize (IH (wi + 1) Hws). destruct (alloc_scan ws (wi + 1)) as [ [frame ws']|].
    + destruct IH as (f & -> & Hf & Hfree & Hlow & ->). exists (64 + f).
      split; [lia|]. split; [lia|]. rewrite is_used_cons_ge, set_used_cons_ge by lia.
      split; [done|]. split; [|done]. intros g Hg. destruct (decide (g < 64)); [by apply Hall; lia|].
      replace g with (64 + (g - 64)) by lia. rewrite is_used_cons_ge by lia. apply Hlow. lia.
    + intros f Hf. destruct (decide (f < 64)); [apply Hall; lia|].
      replace f with (64 + (f - 64)) by lia. rewrite is_used_cons_ge by lia. apply IH. lia.
  - destruct (trailing_ones_spec w Hw Hne) as (Hb & Hfree & Hlow). exists (trailing_ones w).
    split; [done|]. split; [lia|]. rewrite is_used_cons_lt by done. split; [done|]. split.
    + intros g Hg. rewrite is_used_cons_lt by lia. by apply Hlow.
    + unfold set_used, word_index, frame_bit. rewrite Z.div_small, Z.mod_small by done. done.
Qed.

Record pmm_wf (p : Pmm) : Prop := {
  pw_bitmap : bitmap_wf (pm_bitmap p);
  pw_free : pm_free p = Z.of_nat (length (free_list (pm_bitmap p)))
}.

Lemma wf_in_range bm f : bitmap_wf bm -> (in_range bm f <-> 0 <= f < MAX_FRAMES).
Proof.
  intros [Hl _]. unfold in_range. rewrite Hl. change BITMAP_WORDS with 16384.
  change MAX_FRAMES with 1048576. rewrite Z2Nat.id by lia. lia.
Qed.

Lemma set_used_pmm p f :
  pmm_wf p -> 0 <= f < MAX_FRAMES -> is_used (pm_bitmap p) f = false ->
  pmm_wf (mkPmm (set_used (pm_bitmap p) f) (pm_free p - 1)).
Proof.
  intros [Hbm Hc] Hf Hu. apply (wf_in_range _ _ Hbm) in Hf.
  split; [by apply set_used_wf|]. cbn. rewrite Hc, (free_list_used _ _ Hf Hu). lia.
Qed.

Lemma set_free_pmm p f :
  pmm_wf p -> 0 <= f < MAX_FRAMES -> is_used (pm_bitmap p) f = true ->
  pmm_wf (mkPmm (set_free (pm_bitmap p) f) (pm_free p + 1)).
Proof.
  intros [Hbm Hc] Hf Hu. apply (wf_in_range _ _ Hbm) in Hf.
  split; [by apply set_free_wf|]. cbn. rewrite Hc, (free_list_free _ _ Hf Hu). lia.
Qed.

Lemma alloc_frame_spec p :
  pmm_wf p ->
  match alloc_frame p with
  | Some (addr, p') => exists f, addr = f * FRAME_SIZE /\ 0 <= f < MAX_FRAMES /\
      is_used (pm_bitmap p) f = false /\
      (forall g, 0 <= g < f -> is_used (pm_bitmap p) g = true) /\
      (forall g, 0 <= g -> is_used (pm_bitmap p') g = (f =? g) || is_used (pm_bitmap p) g) /\
      pmm_wf p' /\ pm_free p' = pm_free p - 1
  | None => pm_free p = 0 /\ forall g, 0 <= g < MAX_FRAMES -> is_used (pm_bitmap p) g = true
  end.
Proof.
  intros Hwf. pose proof Hwf as [Hbm Hc]. unfold alloc_frame.
  pose proof (alloc_scan_spec (pm_bitmap p) 0 (proj2 Hbm)) as Hs.
  destruct (alloc_scan _ _) as [ [frame bm']|].
  - destruct Hs as (f & -> & Hf & Hfree & Hlow & ->). exists f. split; [done|].
    pose proof (proj1 (wf_in_range _ _ Hbm) Hf) as Hf'. do 3 (split; [done|]).
    split; [intros g Hg; by apply is_used_set_used|]. split; [by apply set_used_pmm|done].
  - split; [|intros g Hg; by apply Hs, (wf_in_range _ _ Hbm)].
    rewrite Hc. unfold free_list. rewrite (filter_ext_in _ (fun _ => false)).
    + by induction (frames (pm_bitmap p)).
    + intros g Hg%elem_of_frames. by rewrite Hs.
Qed.

(** ** Runs of frames *)

Lemma first_used_spec bm start : forall left i,
  match first_used bm start left i with
  | Some j => i <= j < i + Z.of_nat left /\ is_used bm (start + j) = true /\
      forall k, i <= k < j -> is_used bm (start + k) = false
  | None => forall k, i <= k < i + Z.of_nat left -> is_used bm (start + k) = false
  end.
Proof.
  induction left as [|left IH]; intros i; cbn [first_used]; [lia|].
  destruct (is_used bm (start + i)) eqn:Hu; [split; [lia|]; split; [done|lia]|].
  assert (forall k, i <= k -> ~ i + 1 <= k -> is_used bm (start + k) = false) as Hi.
  { intros k ? ?. by replace k with i by lia. }
  specialize (IH (i + 1)). destruct (first_used bm start left (i + 1)) as [j|].
  - destruct IH as (Hj & Hju & Hlow). split; [lia|]. split; [done|]. intros k Hk.
    destruct (decide (i + 1 <= k)); [apply Hlow; lia|apply Hi; lia].
  - intros k Hk. destruct (decide (i + 1 <= k)); [apply IH; lia|apply Hi; lia].
Qed.

(** [n] free frames from [s] on. *)
Definition free_run (bm : Bitmap) (s n : Z) : Prop :=
  forall k, 0 <= k < n -> is_used bm (s + k) = false.

Lemma find_run_spec bm n : 0 < n -> forall fuel start,
  (Z.to_nat (MAX_FRAMES - start) < fuel)%nat ->
  match find_run fuel bm n start with
  | Some s => start <= s /\ s + n <= MAX_FRAMES /\ free_run bm s n /\
      forall s', start <= s' < s -> ~ free_run bm s' n
  | None => forall s', start <= s' -> s' + n <= MAX_FRAMES -> ~ free_run bm s' n
  end.
Proof.
  intros Hn. induction fuel as [|fuel IH]; intros start Hf; [lia|]. cbn [find_run].
  destruct (Z.leb_spec (start + n) MAX_FRAMES) as [Hle|Hgt]; [|intros; lia].
  pose proof (first_used_spec bm start (Z.to_nat n) 0) as Hs.
  destruct (first_used _ _ _ _) as [i|].
  - destruct Hs as (Hi & Hu & _).
    assert (forall s', start <= s' <= start + i -> ~ free_run bm s' n) as Hskip.
    { intros s' Hs' Hrun. specialize (Hrun (start + i - s') ltac:(lia)).
      replace (s' + (start + i - s')) with (start + i) in Hrun by lia. congruence. }
    specialize (IH (start + i + 1) ltac:(lia)). destruct (find_run fuel bm n _) as [s|].
    + destruct IH as (Hs & Hsn & Hrun & Hmin). split; [lia|]. do 2 (split; [done|]).
      intros s' Hs'. destruct (decide (s' <= start + i)); [apply Hskip; lia|apply Hmin; lia].
    + intros s' Hs' Hn'. destruct (decide (s' <= start + i)); [apply Hskip; lia|apply IH; lia].
  - split; [lia|]. split; [done|]. split; [|lia]. intros k Hk. apply Hs. lia.
Qed.

Lemma set_run_spec start n : forall p,
  pmm_wf p -> 0 <= start -> 0 <= Z.of_nat n -> start + Z.of_nat n <= MAX_FRAMES ->
  free_run (pm_bitmap p) start (Z.of_nat n) ->
  let bm := foldl (fun bm i => set_used bm (start + i)) (pm_bitmap p) (seqZ 0 (Z.of_nat n)) in
  pmm_wf (mkPmm bm (pm_free p - Z.of_nat n)) /\
  forall g, 0 <= g -> is_used bm g = ((start <=? g) && (g <? start + Z.of_nat n)) || is_used (pm_bitmap p) g.
Proof.
  induction n as [|n IH]; intros p Hwf Hs _ Hmax Hrun bm.
  - subst bm. change (seqZ 0 (Z.of_nat 0)) with (@nil Z). change (Z.of_nat 0) with 0.
    cbn [foldl]. rewrite Z.sub_0_r, Z.add_0_r. split; [by destruct p|]. intros g Hg.
    destruct (Z.leb_spec start g), (Z.ltb_spec g start); first [lia|done].
  - subst bm. replace (Z.of_nat (S n)) with (Z.of_nat n + 1) in * by lia.
    rewrite seqZ_app, foldl_app by lia. change (seqZ (0 + Z.of_nat n) 1) with [0 + (0 + Z.of_nat n)].
    cbn [foldl]. rewrite !Z.add_0_l.
    destruct (IH p Hwf Hs) as [Hwf' Hu']; [lia|lia|intros k Hk; apply Hrun; lia|].
    set (bm := foldl _ _ _) in *. set (f := start + Z.of_nat n).
    assert (is_used bm f = false) as Hfree.
    { rewrite Hu' by lia. pose proof (Hrun (Z.of_nat n) ltac:(lia)) as Hn. fold f in Hn. rewrite Hn.
      rewrite (proj2 (Z.ltb_ge f (start + Z.of_nat n))) by lia. by rewrite andb_false_r. }
    split.
    + pose proof (set_used_pmm _ f Hwf' ltac:(lia) Hfree) as H. cbn in H.
      replace (pm_free p - (Z.of_nat n + 1)) with (pm_free p - Z.of_nat n - 1) by lia. done.
    + intros g Hg. rewrite is_used_set_used; [|apply (wf_in_range _ _ (pw_bitmap _ Hwf')); lia|done].
      rewrite Hu' by done. rewrite orb_assoc. f_equal.
      destruct (Z.eqb_spec f g), (Z.leb_spec start g), (Z.ltb_spec g (start + Z.of_nat n)),
        (Z.ltb_spec g (start + (Z.of_nat n + 1))); try done; lia.
Qed.

Lemma alloc_frames_contiguous_spec p n :
  pmm_wf p -> 0 < n ->
  match alloc_frames_contiguous p n with
  | Some (addr, p') => exists s, addr = s * FRAME_SIZE /\ 0 <= s /\ s + n <= MAX_FRAMES /\
      free_run (pm_bitmap p) s n /\ (forall s', 0 <= s' < s -> ~ free_run (pm_bitmap p) s' n) /\
      (forall g, 0 <= g ->
         is_used (pm_bitmap p') g = ((s <=? g) && (g <? s + n)) || is_used (pm_bitmap p) g) /\
      pmm_wf p' /\ pm_free p' = pm_free p - n
  | None => forall s, 0 <= s -> s + n <= MAX_FRAMES -> ~ free_run (pm_bitmap p) s n
  end.
Proof.
  intros Hwf Hn. unfold alloc_frames_contiguous. rewrite (proj2 (Z.eqb_neq n 0)) by lia.
  pose proof (find_run_spec (pm_bitmap p) n Hn (Z.to_nat MAX_FRAMES + 1) 0 ltac:(lia)) as Hs.
  destruct (find_run _ _ _ _) as [s|]; [|done]. destruct Hs as (Hs & Hmax & Hrun & Hmin).
  pose proof (set_run_spec s (Z.to_nat n) p Hwf Hs) as H. rewrite Z2Nat.id in H by lia.
  destruct (H ltac:(lia) Hmax Hrun) as [Hwf' Hu]. exists s. do 5 (split; [done|]). split; [done|]. split; [done|done].
Qed.

(** ** Freeing *)

Lemma free_frame_spec p f :
  pmm_wf p -> 0 <= f < MAX_FRAMES ->
  if is_used (pm_bitmap p) f
  then exists p', free_frame p (f * FRAME_SIZE) = Some p' /\ pmm_wf p' /\
         pm_free p' = pm_free p + 1 /\
         forall g, 0 <= g -> is_used (pm_bitmap p') g = negb (f =? g) && is_used (pm_bitmap p) g
  else free_frame p (f * FRAME_SIZE) = None.
Proof.
  intros Hwf Hf. unfold free_frame. change FRAME_SIZE with 4096.
  rewrite Z.mod_mul, Z.div_mul, Z.eqb_refl by lia. rewrite (proj2 (Z.ltb_lt f MAX_FRAMES)) by lia.
  cbn [negb]. destruct (is_used (pm_bitmap p) f) eqn:Hu; cbn [negb]; [|done].
  eexists. split; [done|]. split; [by apply set_free_pmm|]. split; [done|].
  intros g Hg. apply is_used_set_free; [|done]. by apply (wf_in_range _ _ (pw_bitmap _ Hwf)).
Qed.

Definition used_run (bm : Bitmap) (s n : Z) : Prop :=
  forall k, 0 <= k < n -> is_used bm (s + k) = true.

Lemma free_run_spec s n : forall p,
  pmm_wf p -> 0 <= s -> s + Z.of_nat n <= MAX_FRAMES -> used_run (pm_bitmap p) s (Z.of_nat n) ->
  exists p', free_frames_contiguous p (s * FRAME_SIZE) (Z.of_nat n) = Some p' /\ pmm_wf p' /\
    pm_free p' = pm_free p + Z.of_nat n /\
    forall g, 0 <= g ->
      is_used (pm_bitmap p') g = negb ((s <=? g) && (g <? s + Z.of_nat n)) && is_used (pm_bitmap p) g.
Proof.
  unfold free_frames_contiguous. induction n as [|n IH]; intros p Hwf Hs Hmax Hrun.
  - change (seqZ 0 (Z.of_nat 0)) with (@nil Z). change (Z.of_nat 0) with 0. exists p.
    rewrite !Z.add_0_r. do 3 (split; [done|]). intros g Hg.
    destruct (Z.leb_spec s g), (Z.ltb_spec g s); first [lia|done].
  - replace (Z.of_nat (S n)) with (Z.of_nat n + 1) in * by lia.
    rewrite seqZ_app, foldl_app by lia. change (seqZ (0 + Z.of_nat n) 1) with [0 + (0 + Z.of_nat n)].
    destruct (IH p Hwf Hs) as (p1 & -> & Hwf1 & Hc1 & Hu1); [lia|intros k Hk; apply Hrun; lia|].
    cbn [foldl]. rewrite !Z.add_0_l. set (f := s + Z.of_nat n).
    assert (wrap 64 (s * FRAME_SIZE + Z.of_nat n * FRAME_SIZE) = f * FRAME_SIZE) as ->.
    { subst f. rewrite <- Z.mul_add_distr_r. apply wrap_small. unfold in_u.
      change FRAME_SIZE with 4096. change MAX_FRAMES with 1048576 in Hmax. lia. }
    pose proof (free_frame_spec p1 f Hwf1 ltac:(lia)) as Hf.
    assert (is_used (pm_bitmap p1) f = true) as Hfu.
    { rewrite Hu1 by lia. pose proof (Hrun (Z.of_nat n) ltac:(lia)) as Hn. fold f in Hn. rewrite Hn.
      rewrite (proj2 (Z.ltb_ge f (s + Z.of_nat n))) by lia. by rewrite andb_false_r. }
    rewrite Hfu in Hf. destruct Hf as (p2 & -> & Hwf2 & Hc2 & Hu2). exists p2.
    split; [done|]. split; [done|]. split; [lia|]. intros g Hg. rewrite Hu2, Hu1 by done.
    rewrite andb_assoc. f_equal.
    destruct (Z.eqb_spec f g), (Z.leb_spec s g), (Z.ltb_spec g (s + Z.of_nat n)),
      (Z.ltb_spec g (s + (Z.of_nat n + 1))); try done; lia.
Qed.

(** ** Allocations that are alive *)

(** The allocator with the list of live allocations, each (first frame, count). *)
Inductive pmm_step : Pmm * list (Z * Z) -> Pmm * list (Z * Z) -> Prop :=
| pstep_alloc p live addr p' :
    alloc_frame p = Some (addr, p') -> pmm_step (p, live) (p', (addr / FRAME_SIZE, 1) :: live)
| pstep_alloc_run p live n addr p' :
    0 < n -> alloc_frames_contiguous p n = Some (addr, p') ->
    pmm_step (p, live) (p', (addr / FRAME_SIZE, n) :: live)
| pstep_free p live1 s live2 p' :
    free_frame p (s * FRAME_SIZE) = Some p' ->
    pmm_step (p, live1 ++ (s, 1) :: live2) (p', live1 ++ live2)
| pstep_free_run p live1 s n live2 p' :
    free_frames_contiguous p (s * FRAME_SIZE) n = Some p' ->
    pmm_step (p, live1 ++ (s, n) :: live2) (p', live1 ++ live2).

Definition live_frames (live : list (Z * Z)) : list Z :=
  concat ((fun r => seqZ r.1 r.2) <$> live).

Definition total_live (live : list (Z * Z)) : Z := foldr (fun r acc => r.2 + acc) 0 live.

Record live_ok (total : Z) (st : Pmm * list (Z * Z)) : Prop := {
  lo_wf : pmm_wf st.1;
  lo_nodup : NoDup (live_frames st.2);
  lo_ranges : Forall (fun r => 0 <= r.1 /\ 0 < r.2 /\ r.1 + r.2 <= MAX_FRAMES) st.2;
  lo_used : Forall (fun r => used_run (pm_bitmap st.1) r.1 r.2) st.2;
  lo_total : pm_free st.1 + total_live st.2 = total
}.

Lemma elem_of_live_frames live f :
  f ∈ live_frames live <-> exists r, r ∈ live /\ r.1 <= f < r.1 + r.2.
Proof.
  unfold live_frames. rewrite list_elem_of_In, in_concat. setoid_rewrite <- list_elem_of_In.
  setoid_rewrite list_elem_of_fmap. split.
  - intros (l & (r & -> & Hr) & Hf). exists r. split; [done|]. apply elem_of_seqZ in Hf. lia.
  - intros (r & Hr & Hf). exists (seqZ r.1 r.2). split; [by exists r|apply elem_of_seqZ; lia].
Qed.

Lemma live_ok_alloc total p live s n p' :
  live_ok total (p, live) -> 0 <= s -> 0 < n -> s + n <= MAX_FRAMES ->
  free_run (pm_bitmap p) s n -> pmm_wf p' -> pm_free p' = pm_free p - n ->
  (forall g, 0 <= g -> is_used (pm_bitmap p') g = ((s <=? g) && (g <? s + n)) || is_used (pm_bitmap p) g) ->
  live_ok total (p', (s, n) :: live).
Proof.
  intros [Hwf Hnd Hr Hu Ht] Hs Hn Hmax Hfree Hwf' Hc Hused. cbn in *. split; cbn.
  - done.
  - unfold live_frames. cbn. apply NoDup_app. split; [apply NoDup_seqZ|]. split; [|done].
    intros f Hf%elem_of_seqZ Hin. apply elem_of_live_frames in Hin as (r & Hin & Hfr).
    rewrite Forall_forall in Hu. specialize (Hu r Hin (f - r.1) ltac:(lia)).
    specialize (Hfree (f - s) ltac:(lia)).
    replace (r.1 + (f - r.1)) with f in Hu by lia. replace (s + (f - s)) with f in Hfree by lia. congruence.
  - by constructor.
  - constructor.
    + cbn. intros k Hk. rewrite Hused by lia.
      rewrite (proj2 (Z.leb_le s (s + k))), (proj2 (Z.ltb_lt (s + k) (s + n))) by lia. done.
    + rewrite Forall_forall in Hu, Hr |- *. intros r Hin k Hk. specialize (Hr r Hin).
      rewrite Hused by lia. rewrite (Hu r Hin k Hk). apply orb_true_r.
  - unfold total_live in *. cbn. lia.
Qed.

Lemma live_ok_free total p live1 s n live2 p' :
  live_ok total (p, live1 ++ (s, n) :: live2) -> pmm_wf p' -> pm_free p' = pm_free p + n ->
  (forall g, 0 <= g -> is_used (pm_bitmap p') g
     = negb ((s <=? g) && (g <? s + n)) && is_used (pm_bitmap p) g) ->
  live_ok total (p', live1 ++ live2).
Proof.
  intros [Hwf Hnd Hr Hu Ht] Hwf' Hc Hused. cbn in *.
  assert (live1 ++ (s, n) :: live2 ≡ₚ (s, n) :: (live1 ++ live2)) as Hp by (by rewrite Permutation_middle).
  assert (NoDup (live_frames ((s, n) :: (live1 ++ live2)))) as Hnd'.
  { unfold live_frames in *. by rewrite <- Hp. }
  rewrite Hp in Hr, Hu. apply Forall_cons in Hr as [_ Hr]. apply Forall_cons in Hu as [_ Hu].
  unfold live_frames in Hnd'. cbn in Hnd'. apply NoDup_app in Hnd' as (_ & Hdis & Hnd').
  split; cbn; [done|done|done| |].
  - rewrite Forall_forall in Hu, Hr |- *. intros r Hin k Hk. specialize (Hr r Hin).
    rewrite Hused, (Hu r Hin k Hk) by lia.
    destruct (Z.leb_spec s (r.1 + k)), (Z.ltb_spec (r.1 + k) (s + n)); try done. exfalso.
    apply (Hdis (r.1 + k)); [apply elem_of_seqZ; lia|].
    apply elem_of_live_frames. exists r. split; [done|lia].
  - unfold total_live in *. rewrite foldr_app in *. cbn in Ht.
    assert (forall l a b, foldr (fun (r : Z * Z) acc => r.2 + acc) (a + b) l
              = a + foldr (fun (r : Z * Z) acc => r.2 + acc) b l) as Hf.
    { intros l a b. induction l as [|x l IH]; cbn; [done|]. rewrite IH. lia. }
    rewrite Hf in Ht. lia.
Qed.

Lemma live_ok_step total a b : live_ok total a -> pmm_step a b -> live_ok total b.
Proof.
  intros Ha Hs.
  destruct Hs as [p live addr p' E|p live n addr p' Hn E|p live1 s live2 p' E|p live1 s n live2 p' E].
  - pose proof (alloc_frame_spec p (lo_wf _ _ Ha)) as Hs. rewrite E in Hs.
    destruct Hs as (f & -> & Hf & Hfree & _ & Hu & Hwf' & Hc).
    rewrite Z.div_mul by done. eapply live_ok_alloc; try done; try lia.
    + intros k Hk. by replace (f + k) with f by lia.
    + intros g Hg. rewrite Hu by done. f_equal.
      destruct (Z.eqb_spec f g), (Z.leb_spec f g), (Z.ltb_spec g (f + 1)); try done; lia.
  - pose proof (alloc_frames_contiguous_spec p n (lo_wf _ _ Ha) Hn) as Hs. rewrite E in Hs.
    destruct Hs as (s & -> & Hs & Hmax & Hfree & _ & Hu & Hwf' & Hc).
    rewrite Z.div_mul by done. by eapply live_ok_alloc.
  - pose proof (lo_ranges _ _ Ha) as Hr. pose proof (lo_used _ _ Ha) as Hu. cbn in Hr, Hu.
    apply Forall_app in Hr as [_ [Hr _]%Forall_cons]. apply Forall_app in Hu as [_ [Hu _]%Forall_cons].
    cbn in Hr, Hu. pose proof (free_frame_spec p s (lo_wf _ _ Ha) ltac:(lia)) as Hs.
    pose proof (Hu 0 ltac:(lia)) as Hu0. rewrite Z.add_0_r in Hu0. rewrite Hu0 in Hs.
    destruct Hs as (p1 & E1 & Hwf' & Hc & Hused). rewrite E1 in E. injection E as <-.
    eapply live_ok_free; [exact Ha|done|done|]. intros g Hg. rewrite Hused by done. do 2 f_equal.
    destruct (Z.eqb_spec s g), (Z.leb_spec s g), (Z.ltb_spec g (s + 1)); try done; lia.
  - pose proof (lo_ranges _ _ Ha) as Hr. pose proof (lo_used _ _ Ha) as Hu. cbn in Hr, Hu.
    apply Forall_app in Hr as [_ [Hr _]%Forall_cons]. apply Forall_app in Hu as [_ [Hu _]%Forall_cons].
    cbn in Hr, Hu. pose proof (free_run_spec s (Z.to_nat n) p (lo_wf _ _ Ha)) as Hs.
    rewrite Z2Nat.id in Hs by lia.
    destruct (Hs ltac:(lia) ltac:(lia) Hu) as (p1 & E1 & Hwf' & Hc & Hused).
    rewrite E1 in E. injection E as <-. by eapply live_ok_free.
Qed.

(** C10. Live allocations never share a frame, whatever the order of the
    allocations (single frames and runs) and of their releases: in every state
    reached from a well-formed allocator the frames of the live allocations are
    pairwise distinct, in range and marked used, the free counter is exact and
    free plus live frames stay constant, and every live allocation can be
    freed (no assertion fires). *)
Theorem live_allocations_disjoint p0 st :
  pmm_wf p0 -> rtc pmm_step (p0, []) st ->
  live_ok (pm_free p0) st /\
  forall s n, (s, n) ∈ st.2 -> is_Some (free_frames_contiguous st.1 (s * FRAME_SIZE) n).
Proof.
  intros Hwf0 Hrun.
  assert (live_ok (pm_free p0) (p0, [])) as H0.
  { split; cbn; [done|apply NoDup_nil_2|done|done|lia]. }
  assert (live_ok (pm_free p0) st) as Hok.
  { revert H0. induction Hrun as [|a b c Hs _ IH]; [done|]. intros Ha. apply IH.
    by eapply live_ok_step. }
  split; [done|]. intros s n Hin. pose proof (lo_ranges _ _ Hok) as Hr. pose proof (lo_used _ _ Hok) as Hu.
  rewrite Forall_forall in Hr, Hu. specialize (Hr _ Hin). specialize (Hu _ Hin). cbn in Hr, Hu.
  pose proof (free_run_spec s (Z.to_nat n) st.1 (lo_wf _ _ Hok)) as Hs. rewrite Z2Nat.id in Hs by lia.
  destruct (Hs ltac:(lia) ltac:(lia) Hu) as (p1 & -> & _). eauto.
Qed.

(** Single-frame allocation takes the lowest free frame and marks exactly
    that frame used; it fails only when every frame is used, and then the free
    counter is 0.  Freeing the frame right away restores every mark and the
    counter. *)
Theorem alloc_frame_lowest p :
  pmm_wf p ->
  match alloc_frame p with
  | Some (addr, p') => exists f, addr = f * FRAME_SIZE /\ 0 <= f < MAX_FRAMES /\
      is_used (pm_bitmap p) f = false /\
      (forall g, 0 <= g < f -> is_used (pm_bitmap p) g = true) /\
      (forall g, 0 <= g -> is_used (pm_bitmap p') g = (f =? g) || is_used (pm_bitmap p) g) /\
      pmm_wf p' /\ pm_free p' = pm_free p - 1 /\
      exists p'', free_frame p' addr = Some p'' /\ pm_free p'' = pm_free p /\
        forall g, 0 <= g -> is_used (pm_bitmap p'') g = is_used (pm_bitmap p) g
  | None => pm_free p = 0 /\ forall g, 0 <= g < MAX_FRAMES -> is_used (pm_bitmap p) g = true
  end.
Proof.
  intros Hwf. pose proof (alloc_frame_spec p Hwf) as Hs. destruct (alloc_frame p) as [ [addr p']|]; [|done].
  destruct Hs as (f & -> & Hf & Hfree & Hlow & Hu & Hwf' & Hc). exists f. do 7 (split; [done|]).
  pose proof (free_frame_spec p' f Hwf' Hf) as Hff. rewrite Hu, Z.eqb_refl in Hff by lia.
  destruct Hff as (p'' & E & _ & Hc' & Hu'). exists p''. split; [done|]. split; [lia|].
  intros g Hg. rewrite Hu', Hu by done. destruct (Z.eqb_spec f g) as [->|]; [by rewrite Hfree|done].
Qed.

(** A contiguous allocation of [n] frames takes the first run of [n] free
    frames, marks exactly that run used and lowers the counter by [n]; it fails
    only when memory has no such run: skipping past a used frame loses none. *)
Theorem alloc_contiguous_first_fit p n :
  pmm_wf p -> 0 < n ->
  match alloc_frames_contiguous p n with
  | Some (addr, p') => exists s, addr = s * FRAME_SIZE /\ 0 <= s /\ s + n <= MAX_FRAMES /\
      free_run (pm_bitmap p) s n /\ (forall s', 0 <= s' < s -> ~ free_run (pm_bitmap p) s' n) /\
      (forall g, 0 <= g ->
         is_used (pm_bitmap p') g = ((s <=? g) && (g <? s + n)) || is_used (pm_bitmap p) g) /\
      pmm_wf p' /\ pm_free p' = pm_free p - n
  | None => forall s, 0 <= s -> s + n <= MAX_FRAMES -> ~ free_run (pm_bitmap p) s n
  end.
Proof. apply alloc_frames_contiguous_spec. Qed.

(** ** Initialisation *)

Lemma for_range_spec (f : Bitmap -> Z -> Bitmap) (q : Z -> Z -> bool -> bool) first last :
  (forall bm i, bitmap_wf bm -> 0 <= i < MAX_FRAMES ->
     bitmap_wf (f bm i) /\ forall g, 0 <= g -> is_used (f bm i) g = q i g (is_used bm g)) ->
  0 <= first -> last <= MAX_FRAMES -> forall bm, bitmap_wf bm ->
  bitmap_wf (for_range first last f bm) /\
  forall g, 0 <= g ->
    is_used (for_range first last f bm) g = foldl (fun u i => q i g u) (is_used bm g) (seqZ first (last - first)).
Proof.
  intros Hf Hfirst Hlast. unfold for_range.
  assert (Forall (fun i => 0 <= i < MAX_FRAMES) (seqZ first (last - first))) as Hall.
  { apply Forall_forall. intros i Hi%elem_of_seqZ. lia. }
  induction Hall as [|i l Hi _ IH]; intros bm Hwf; cbn [foldl]; [done|].
  destruct (Hf bm i Hwf Hi) as [Hwf' Hu]. destruct (IH _ Hwf') as [Hwf'' Hu''].
  split; [done|]. intros g Hg. by rewrite Hu'', Hu.
Qed.

Lemma fold_clear g l : forall u,
  foldl (fun u i => negb (i =? g) && u) u l = negb (bool_decide (g ∈ l)) && u.
Proof.
  induction l as [|i l IH]; intros u; cbn [foldl].
  - by rewrite bool_decide_eq_false_2 by apply not_elem_of_nil.
  - rewrite IH. destruct (Z.eqb_spec i g) as [->|Hne].
    + rewrite (bool_decide_eq_true_2 (g ∈ g :: l)) by apply list_elem_of_here. cbn. by rewrite andb_false_r.
    + cbn. f_equal. f_equal. apply bool_decide_ext. rewrite elem_of_cons. naive_solver.
Qed.

Lemma fold_set g l : forall u,
  foldl (fun u i => (i =? g) || u) u l = bool_decide (g ∈ l) || u.
Proof.
  induction l as [|i l IH]; intros u; cbn [foldl].
  - by rewrite bool_decide_eq_false_2 by apply not_elem_of_nil.
  - rewrite IH. destruct (Z.eqb_spec i g) as [->|Hne].
    + rewrite (bool_decide_eq_true_2 (g ∈ g :: l)) by apply list_elem_of_here. cbn. by rewrite orb_true_r.
    + cbn. f_equal. apply bool_decide_ext. rewrite elem_of_cons. naive_solver.
Qed.

(** Frame [g] lies wholly inside, resp. overlaps, the byte range. *)
Definition inside (g start stop : Z) : Prop := start <= g * FRAME_SIZE /\ (g + 1) * FRAME_SIZE <= stop.
Definition touches (g start stop : Z) : Prop :=
  start < stop /\ start < (g + 1) * FRAME_SIZE /\ g * FRAME_SIZE < stop.

#[local] Instance inside_dec g a b : Decision (inside g a b).
Proof. unfold inside. apply _. Defined.
#[local] Instance touches_dec g a b : Decision (touches g a b).
Proof. unfold touches. apply _. Defined.

Lemma mark_range_free_spec bm start stop :
  bitmap_wf bm -> 0 <= start -> start + FRAME_SIZE - 1 < 2 ^ 64 ->
  bitmap_wf (mark_range_free bm start stop) /\
  forall g, 0 <= g < MAX_FRAMES ->
    is_used (mark_range_free bm start stop) g = negb (bool_decide (inside g start stop)) && is_used bm g.
Proof.
  intros Hwf Hs Ho. unfold mark_range_free. destruct (Z.leb_spec stop start) as [Hle|Hgt].
  { split; [done|]. intros g Hg. rewrite bool_decide_eq_false_2; [done|].
    unfold inside. change FRAME_SIZE with 4096. lia. }
  rewrite wrap_small by (unfold in_u; change FRAME_SIZE with 4096 in *; lia).
  set (first := (start + FRAME_SIZE - 1) / FRAME_SIZE).
  assert (0 <= first) by (apply Z.div_pos; change FRAME_SIZE with 4096; lia).
  destruct (for_range_spec set_free (fun i g u => negb (i =? g) && u) first
    (Z.min (stop / FRAME_SIZE) MAX_FRAMES)) with (bm := bm) as [Hwf' Hu]; [|done|lia|done|].
  { intros bm' i Hwf' Hi. split; [by apply set_free_wf|]. intros g Hg.
    apply is_used_set_free; [by apply wf_in_range|done]. }
  split; [done|]. intros g Hg. rewrite Hu, fold_clear by lia. f_equal. f_equal.
  apply bool_decide_ext. rewrite elem_of_seqZ. unfold inside. subst first.
  change FRAME_SIZE with 4096 in *.
  pose proof (Z.div_mod (start + 4096 - 1) 4096). pose proof (Z.mod_pos_bound (start + 4096 - 1) 4096).
  pose proof (Z.div_mod stop 4096). pose proof (Z.mod_pos_bound stop 4096). lia.
Qed.

Lemma mark_range_used_spec bm start stop :
  bitmap_wf bm -> 0 <= start -> stop + FRAME_SIZE - 1 < 2 ^ 64 ->
  bitmap_wf (mark_range_used bm start stop) /\
  forall g, 0 <= g < MAX_FRAMES ->
    is_used (mark_range_used bm start stop) g = bool_decide (touches g start stop) || is_used bm g.
Proof.
  intros Hwf Hs Ho. unfold mark_range_used. destruct (Z.leb_spec stop start) as [Hle|Hgt].
  { split; [done|]. intros g Hg. rewrite bool_decide_eq_false_2; [done|]. unfold touches. lia. }
  rewrite wrap_small by (unfold in_u; change FRAME_SIZE with 4096 in *; lia).
  assert (0 <= start / FRAME_SIZE) by (apply Z.div_pos; change FRAME_SIZE with 4096; lia).
  destruct (for_range_spec set_used (fun i g u => (i =? g) || u) (start / FRAME_SIZE)
    (Z.min ((stop + FRAME_SIZE - 1) / FRAME_SIZE) MAX_FRAMES)) with (bm := bm) as [Hwf' Hu];
    [|done|lia|done|].
  { intros bm' i Hwf' Hi. split; [by apply set_used_wf|]. intros g Hg.
    apply is_used_set_used; [by apply wf_in_range|done]. }
  split; [done|]. intros g Hg. rewrite Hu, fold_set by lia. f_equal.
  apply bool_decide_ext. rewrite elem_of_seqZ. unfold touches. change FRAME_SIZE with 4096 in *.
  pose proof (Z.div_mod (stop + 4096 - 1) 4096). pose proof (Z.mod_pos_bound (stop + 4096 - 1) 4096).
  pose proof (Z.div_mod start 4096). pose proof (Z.mod_pos_bound start 4096). lia.
Qed.

(** Entries of the memory map that do not run past the address space. *)
Definition entry_ok (e : Z * Z * Z) : Prop :=
  let '(base, length, _) := e in 0 <= base /\ 0 <= length /\ base + length + FRAME_SIZE - 1 < 2 ^ 64.

Definition usable (g : Z) (e : Z * Z * Z) : Prop :=
  let '(base, length, typ) := e in typ = LIMINE_MMAP_USABLE /\ inside g base (base + length).

#[local] Instance usable_dec g e : Decision (usable g e).
Proof. destruct e as [[b l] t]. unfold usable. apply _. Defined.

Lemma mark_entries_spec entries : forall bm,
  bitmap_wf bm -> Forall entry_ok entries ->
  let bm' := foldl (fun bm e =>
               let '(base, length, typ) := e in
               if typ =? LIMINE_MMAP_USABLE then mark_range_free bm base (wrap 64 (base + length))
               else bm) bm entries in
  bitmap_wf bm' /\
  forall g, 0 <= g < MAX_FRAMES ->
    is_used bm' g = negb (bool_decide (Exists (usable g) entries)) && is_used bm g.
Proof.
  induction entries as [|[[base len] typ] entries IH]; intros bm Hwf Hok bm'; subst bm'; cbn [foldl].
  { split; [done|]. intros g Hg. rewrite bool_decide_eq_false_2; [done|]. by intros ?%Exists_nil. }
  apply Forall_cons in Hok as [(Hb & Hl & Ho) Hok].
  assert (forall g, bool_decide (Exists (usable g) ((base, len, typ) :: entries))
     = bool_decide (usable g (base, len, typ)) || bool_decide (Exists (usable g) entries)) as Hex.
  { intros g. rewrite <- bool_decide_or. apply bool_decide_ext, Exists_cons. }
  destruct (Z.eqb_spec typ LIMINE_MMAP_USABLE) as [->|Hne].
  - change FRAME_SIZE with 4096 in Ho. rewrite wrap_small by (unfold in_u; lia).
    destruct (mark_range_free_spec bm base (base + len) Hwf Hb) as [Hwf' Hu];
      [change FRAME_SIZE with 4096; lia|].
    destruct (IH _ Hwf' Hok) as [Hwf'' Hu'']. split; [done|]. intros g Hg.
    rewrite Hu'', Hu, Hex by done. rewrite andb_assoc, <- negb_orb, (orb_comm (bool_decide (usable _ _))). do 3 f_equal.
    apply bool_decide_ext. unfold usable. tauto.
  - destruct (IH _ Hwf Hok) as [Hwf' Hu]. split; [done|]. intros g Hg. rewrite Hu, Hex by done.
    rewrite (bool_decide_eq_false_2 (usable _ _)); [done|]. unfold usable. tauto.
Qed.

Lemma full_bitmap_wf : bitmap_wf (replicate (Z.to_nat BITMAP_WORDS) U64_MAX).
Proof.
  split; [apply length_replicate|]. apply Forall_replicate. unfold in_u. by vm_compute.
Qed.

Lemma init_from_limine_wf entries kbase kend :
  Forall entry_ok entries -> 0 <= kbase -> kend + FRAME_SIZE - 1 < 2 ^ 64 ->
  pmm_wf (init_from_limine entries kbase kend).
Proof.
  intros Hok Hk Ho. destruct (mark_entries_spec entries _ full_bitmap_wf Hok) as [Hwf1 _].
  destruct (mark_range_used_spec _ kbase kend Hwf1 Hk Ho) as [Hwf2 _].
  split; [by apply set_used_wf|]. apply sum_zeros_free.
Qed.

(** After [init_from_limine] a frame is free exactly when it lies wholly
    inside a USABLE region of the memory map, does not overlap the kernel image
    and is not frame 0; the free counter is the number of such frames. *)
Theorem init_from_limine_frees entries kbase kend :
  Forall entry_ok entries -> 0 <= kbase -> kend + FRAME_SIZE - 1 < 2 ^ 64 ->
  let p := init_from_limine entries kbase kend in
  pmm_wf p /\
  forall g, 0 <= g < MAX_FRAMES ->
    (is_used (pm_bitmap p) g = false <->
     Exists (usable g) entries /\ ~ touches g kbase kend /\ g <> 0).
Proof.
  intros Hok Hk Ho. pose proof full_bitmap_wf as Hwf0.
  destruct (mark_entries_spec entries _ Hwf0 Hok) as [Hwf1 Hu1].
  destruct (mark_range_used_spec _ kbase kend Hwf1 Hk Ho) as [Hwf2 Hu2].
  split; [by apply init_from_limine_wf|]. unfold init_from_limine.
  set (bm2 := mark_range_used _ kbase kend) in *. cbn zeta.
  - intros g Hg. cbn [pm_bitmap].
    assert (in_range bm2 0) as H0 by (apply (wf_in_range _ _ Hwf2); change MAX_FRAMES with 1048576; lia).
    rewrite (is_used_set_used bm2 0 g H0) by lia.
    rewrite Hu2, Hu1 by done.
    assert (is_used (replicate (Z.to_nat BITMAP_WORDS) U64_MAX) g = true) as ->.
    { unfold is_used. rewrite lookup_replicate_2.
      2:{ pose proof (word_index_lt _ g (proj2 (wf_in_range _ g Hwf0) Hg)) as H.
          by rewrite length_replicate in H. }
      rewrite land_frame_bit. change U64_MAX with (Z.ones 64). apply Z.ones_spec_low.
      apply Z.mod_pos_bound. lia. }
    rewrite andb_true_r, !orb_false_iff, negb_false_iff, Z.eqb_neq, bool_decide_eq_true,
      bool_decide_eq_false. clear. generalize (Exists (usable g) entries) (touches g kbase kend).
    intros P Q. split; intros (H1 & H2 & H3); repeat split; solve [done | congruence].
Qed.

(** 16 usable frames from 1 MiB on, two of them under the kernel image. *)
Definition demo_entries : list (Z * Z * Z) := [(1048576, 65536, 0); (0, 4096, 0); (2097152, 4096, 1)].
Definition demo_pmm : Pmm := init_from_limine demo_entries 1052672 1060000.

Lemma demo_entries_ok : Forall entry_ok demo_entries.
Proof. repeat constructor; vm_compute; try discriminate; reflexivity. Defined.

Lemma demo_pmm_wf : pmm_wf demo_pmm.
Proof.
  apply init_from_limine_wf; [exact demo_entries_ok|lia|vm_compute; reflexivity].
Defined.

#[local] Opaque demo_pmm.

Lemma init_from_limine_frees_witness :
  is_used (pm_bitmap demo_pmm) 256 = false /\
  pmm_wf (init_from_limine demo_entries 1052672 1060000).
Proof.
  split; [vm_cast_no_check (eq_refl (is_used (pm_bitmap demo_pmm) 256))|].
  refine (proj1 (init_from_limine_frees demo_entries 1052672 1060000 demo_entries_ok _ _)).
  - lia.
  - vm_compute. reflexivity.
Defined.

Lemma alloc_frame_lowest_witness :
  exists p', alloc_frame demo_pmm = Some (256 * FRAME_SIZE, p') /\ pm_free p' = pm_free demo_pmm - 1.
Proof.
  assert (fst <$> alloc_frame demo_pmm = Some (256 * FRAME_SIZE)) as Ha
    by (vm_cast_no_check (eq_refl (fst <$> alloc_frame demo_pmm))).
  pose proof (alloc_frame_lowest demo_pmm demo_pmm_wf) as H.
  destruct (alloc_frame demo_pmm) as [ [addr p']|]; [|discriminate Ha].
  destruct H as (f & _ & _ & _ & _ & _ & _ & Hc & _). exists p'.
  split; [|exact Hc]. injection Ha as ->. reflexivity.
Defined.

Lemma alloc_contiguous_first_fit_witness :
  exists p', alloc_frames_contiguous demo_pmm 3 = Some (259 * FRAME_SIZE, p') /\ pm_free p' = pm_free demo_pmm - 3.
Proof.
  assert (fst <$> alloc_frames_contiguous demo_pmm 3 = Some (259 * FRAME_SIZE)) as Ha
    by (vm_cast_no_check (eq_refl (fst <$> alloc_frames_contiguous demo_pmm 3))).
  assert (0 < 3) as Hn by lia.
  pose proof (alloc_contiguous_first_fit demo_pmm 3 demo_pmm_wf Hn) as H.
  destruct (alloc_frames_contiguous demo_pmm 3) as [ [addr p']|]; [|discriminate Ha].
  destruct H as (s & _ & _ & _ & _ & _ & _ & _ & Hc). exists p'.
  split; [|exact Hc]. injection Ha as ->. reflexivity.
Defined.

Lemma live_allocations_disjoint_witness :
  exists st, rtc pmm_step (demo_pmm, []) st /\ NoDup (live_frames st.2) /\
    live_frames st.2 = [259; 260; 261].
Proof.
  assert (fst <$> alloc_frames_contiguous demo_pmm 3 = Some (259 * FRAME_SIZE)) as Ha
    by (vm_cast_no_check (eq_refl (fst <$> alloc_frames_contiguous demo_pmm 3))).
  assert (0 < 3) as Hn by lia.
  destruct (alloc_frames_contiguous demo_pmm 3) as [ [addr p']|] eqn:E; [|discriminate Ha].
  pose proof (rtc_once _ _ (pstep_alloc_run demo_pmm [] 3 addr p' Hn E)) as Hrun.
  destruct (live_allocations_disjoint demo_pmm _ demo_pmm_wf Hrun) as [Hok _].
  exists (p', [(addr / FRAME_SIZE, 3)]). split; [exact Hrun|].
  split; [exact (lo_nodup _ _ Hok)|]. injection Ha as ->. reflexivity.
Defined.
