(* ===== verification/Heap.v ===== *)
(** * The kernel heap (kernel/src/heap.rs)

    The allocator of the kernel is a singly linked free list threaded through
    the free memory itself, sorted by address and coalesced on release.
    [alloc] and [dealloc] are modelled on a memory of block headers, with the
    link updates of the code; [alloc_list] and [dealloc_list] say what they do
    to the list of free blocks, and the refinement theorems relate the two.
    On top of that: the blocks handed out never overlap, the free list stays
    sorted and fully coalesced, and where the code loses memory. *)

From stdpp Require Import sorting.
From S2P Require Import Prelude.

#[local] Open Scope Z_scope.

Definition HEADER : Z := 16.
Definition ALIGN : Z := 16.
Definition HEAP_INIT_PAGES : Z := 512.

Record FreeBlock : Type := mkFB {
  fb_size : Z;
  fb_next : Z
}.

(** The headers in heap memory, by address; null is 0. *)
Record Heap : Type := mkHeap {
  h_head : Z;
  h_mem : gmap Z FreeBlock
}.

Definition load (h : Heap) (a : Z) : FreeBlock := default (mkFB 0 0) (h_mem h !! a).
Definition store (h : Heap) (a : Z) (b : FreeBlock) : Heap := mkHeap (h_head h) (<[a := b]> (h_mem h)).
Definition set_size (h : Heap) (a s : Z) : Heap := store h a (mkFB s (fb_next (load h a))).
Definition set_next (h : Heap) (a n : Z) : Heap := store h a (mkFB (fb_size (load h a)) n).
Definition set_head (h : Heap) (a : Z) : Heap := mkHeap a (h_mem h).

Definition align_up (val align : Z) : Z := Z.land (val + align - 1) (not_u 64 (align - 1)).

(** [prev_next]: the head pointer or the [next] field of a block. *)
Inductive link : Type :=
| LHead
| LNext (a : Z).

Definition write_link (h : Heap) (l : link) (v : Z) : Heap :=
  match l with LHead => set_head h v | LNext a => set_next h a v end.

(** The first-fit walk; [None] means out of fuel. *)
Fixpoint alloc_walk (fuel : nat) (h : Heap) (prev_next : link) (curr size : Z)
  : option (Z * Heap) :=
  match fuel with
  | O => None
  | S fuel' =>
      if curr =? 0 then Some (0, h)
      else
        let block_size := fb_size (load h curr) in
        if size <=? block_size then
          let leftover := block_size - size in
          let h' :=
            if HEADER + ALIGN <=? leftover then
              let new_blk := curr + HEADER + size in
              let h1 := set_size h new_blk (leftover - HEADER) in
              let h2 := set_next h1 new_blk (fb_next (load h1 curr)) in
              write_link h2 prev_next new_blk
            else write_link h prev_next (fb_next (load h curr)) in
          Some (curr + HEADER, h')
        else alloc_walk fuel' h (LNext curr) (fb_next (load h curr)) size
  end.

(** The list has at most one block per 32 bytes of heap. *)
Definition heap_fuel : nat := Z.to_nat (HEAP_INIT_PAGES * 4096 / 32) + 2.

Definition round_size (layout_size : Z) : Z := align_up (Z.max layout_size 1) ALIGN.

(** [None]: the alignment assertion. *)
Definition alloc (h : Heap) (layout_size layout_align : Z) : option (Z * Heap) :=
  if negb (layout_align <=? ALIGN) then None
  else alloc_walk heap_fuel h LHead (h_head h) (round_size layout_size).

(** The search for the insertion point of [dealloc]. *)
Fixpoint dealloc_find (fuel : nat) (h : Heap) (prev curr block : Z) : option (Z * Z) :=
  match fuel with
  | O => None
  | S fuel' =>
      if negb (curr =? 0) && (curr <? block)
      then dealloc_find fuel' h curr (fb_next (load h curr)) block
      else Some (prev, curr)
  end.

Definition dealloc (h : Heap) (ptr layout_size : Z) : option Heap :=
  let block := ptr - HEADER in
  let size := round_size layout_size in
  let h0 := set_size h block size in
  match dealloc_find heap_fuel h0 0 (h_head h0) block with
  | None => None
  | Some (prev, curr) =>
      let h1 := set_next h0 block curr in
      let h2 := if prev =? 0 then set_head h1 block else set_next h1 prev block in
      let h3 :=
        if negb (curr =? 0) && (block + HEADER + fb_size (load h2 block) =? curr) then
          let h' := set_size h2 block (fb_size (load h2 block) + (HEADER + fb_size (load h2 curr))) in
          set_next h' block (fb_next (load h' curr))
        else h2 in
      let h4 :=
        if negb (prev =? 0) && (prev + HEADER + fb_size (load h3 prev) =? block) then
          let h' := set_size h3 prev (fb_size (load h3 prev) + (HEADER + fb_size (load h3 block))) in
          set_next h' prev (fb_next (load h' block))
        else h3 in
      Some h4
  end.

(** [init]: one block over the whole region at [base]. *)
Definition heap_init (base : Z) : Heap :=
  mkHeap base {[ base := mkFB (HEAP_INIT_PAGES * 4096 - HEADER) 0 ]}.

(** [free_list_stats]: block count, free bytes with headers, largest block. *)
Fixpoint stats_walk (fuel : nat) (h : Heap) (scan : Z) (acc : Z * Z * Z) : option (Z * Z * Z) :=
  match fuel with
  | O => None
  | S fuel' =>
      if scan =? 0 then Some acc
      else
        let '(count, total, largest) := acc in
        let s := fb_size (load h scan) in
        stats_walk fuel' h (fb_next (load h scan))
          (count + 1, total + (s + HEADER), if largest <? s then s else largest)
  end.

Definition free_list_stats (h : Heap) : option (Z * Z * Z) :=
  stats_walk heap_fuel h (h_head h) (0, 0, 0).

Definition free_bytes (h : Heap) : option Z :=
  match free_list_stats h with Some (_, total, _) => Some total | None => None end.

(** ** What the operations do to the list of free blocks, (address, size) *)

Fixpoint alloc_list (blocks : list (Z * Z)) (size : Z) : option (Z * list (Z * Z)) :=
  match blocks with
  | [] => None
  | (a, s) :: rest =>
      if size <=? s then
        Some (a + 16, if 32 <=? s - size then (a + 16 + size, s - size - 16) :: rest else rest)
      else
        match alloc_list rest size with
        | Some (p, rest') => Some (p, (a, s) :: rest')
        | None => None
        end
  end.

(** Block [b] in front of [after], merged with its first block if adjacent. *)
Definition merge_after (b : Z * Z) (after : list (Z * Z)) : list (Z * Z) :=
  match after with
  | (c, cs) :: rest => if b.1 + 16 + b.2 =? c then (b.1, b.2 + (16 + cs)) :: rest else b :: after
  | [] => [b]
  end.

Fixpoint dealloc_list (blocks : list (Z * Z)) (b : Z * Z) : list (Z * Z) :=
  match blocks with
  | [] => [b]
  | (a, s) :: rest =>
      if a <? b.1 then
        match rest with
        | (a', _) :: _ =>
            if a' <? b.1 then (a, s) :: dealloc_list rest b
            else merge_after (a, s) (merge_after b rest)
        | [] => merge_after (a, s) [b]
        end
      else merge_after b blocks
  end.

(** ** The list in memory *)

Fixpoint lseg (m : gmap Z FreeBlock) (p : Z) (bs : list (Z * Z)) (q : Z) : Prop :=
  match bs with
  | [] => p = q
  | (a, s) :: bs' => p = a /\ a <> 0 /\ exists nx, m !! a = Some (mkFB s nx) /\ lseg m nx bs' q
  end.

Definition repr (h : Heap) (blocks : list (Z * Z)) : Prop := lseg (h_mem h) (h_head h) blocks 0.

Lemma lseg_frame m p bs q a v : a ∉ bs.*1 -> lseg m p bs q -> lseg (<[a := v]> m) p bs q.
Proof.
  revert p. induction bs as [|[b s] bs IH]; intros p Hni; cbn; [done|].
  cbn in Hni. apply not_elem_of_cons in Hni as [Hne Hni].
  intros (-> & Hb & nx & Hm & Hs). split; [done|]. split; [done|]. exists nx.
  rewrite lookup_insert_ne by done. split; [done|]. by apply IH.
Qed.

Lemma lseg_app m p bs1 bs2 q :
  lseg m p (bs1 ++ bs2) q <-> exists r, lseg m p bs1 r /\ lseg m r bs2 q.
Proof.
  revert p. induction bs1 as [|[a s] bs1 IH]; intros p; cbn.
  - split; [intros; by exists p|]. by intros (r & -> & ?).
  - split.
    + intros (-> & Ha & nx & Hm & (r & H1 & H2)%IH). exists r. split; [|done].
      split; [done|]. split; [done|]. by exists nx.
    + intros (r & (-> & Ha & nx & Hm & H1) & H2). split; [done|]. split; [done|].
      exists nx. split; [done|]. apply IH. by exists r.
Qed.

Definition link_of (done : list (Z * Z)) : link :=
  match last done with Some (a, _) => LNext a | None => LHead end.

(** Redirecting the link after the blocks [done]. *)
Lemma write_link_seg h done q v :
  NoDup done.*1 -> lseg (h_mem h) (h_head h) done q ->
  let h' := write_link h (link_of done) v in
  lseg (h_mem h') (h_head h') done v /\
  forall a, a ∉ done.*1 -> h_mem h' !! a = h_mem h !! a.
Proof.
  intros Hnd Hs. destruct done as [|[a s] done _] using rev_ind.
  { unfold link_of. cbn in *. done. }
  unfold link_of. rewrite last_snoc. cbn [write_link].
  rewrite fmap_app in Hnd. cbn in Hnd. apply NoDup_app in Hnd as (Hnd & Hdis & _).
  apply lseg_app in Hs as (r & Hs1 & (-> & Ha & nx & Hm & ->)).
  unfold set_next, load. rewrite Hm. cbn. split.
  - apply lseg_app. exists a. split.
    + apply lseg_frame; [|done]. intros Hin. apply (Hdis a Hin). apply list_elem_of_here.
    + cbn. split; [done|]. split; [done|]. exists v. by rewrite lookup_insert_eq.
  - intros b Hb. rewrite lookup_insert_ne; [done|]. intros ->. apply Hb.
    rewrite fmap_app. apply elem_of_app. right. apply list_elem_of_here.
Qed.

(** Segments only read their own headers. *)
Lemma lseg_ext m m' p bs q :
  (forall a, a ∈ bs.*1 -> m' !! a = m !! a) -> lseg m p bs q -> lseg m' p bs q.
Proof.
  revert p. induction bs as [|[b s] bs IH]; intros p Hm; cbn; [done|].
  intros (-> & Hb & nx & Hl & Hs). split; [done|]. split; [done|]. exists nx.
  rewrite Hm by apply list_elem_of_here. split; [done|]. apply IH; [|done].
  intros a Ha. apply Hm. cbn. by right.
Qed.

(** ** Well-formed free lists *)

(** One block inside [lo, hi): header and payload on 16-byte boundaries. *)
Definition block_ok (lo hi : Z) (b : Z * Z) : Prop :=
  lo <= b.1 /\ b.1 + 16 + b.2 <= hi /\ b.1 mod 16 = 0 /\ b.2 mod 16 = 0 /\ 16 <= b.2.

(** [x] ends strictly before [y]: disjoint, and not adjacent. *)
Definition apart (x y : Z * Z) : Prop := x.1 + 16 + x.2 < y.1.

Record free_wf (lo hi : Z) (blocks : list (Z * Z)) : Prop := {
  fw_lo : 0 < lo;
  fw_ok : Forall (block_ok lo hi) blocks;
  fw_sorted : StronglySorted apart blocks
}.

Lemma free_wf_app lo hi l1 l2 :
  free_wf lo hi (l1 ++ l2) <->
  free_wf lo hi l1 /\ free_wf lo hi l2 /\ (forall x y, x ∈ l1 -> y ∈ l2 -> apart x y).
Proof.
  split.
  - intros [H0 H1 H2]. apply Forall_app in H1 as [? ?]. apply StronglySorted_app in H2 as (? & ? & ?).
    repeat split; auto.
  - intros ([H0 H1 H2] & [_ H3 H4] & H5). split; [done|by apply Forall_app|].
    apply StronglySorted_app. auto.
Qed.

Lemma free_wf_cons lo hi x l :
  free_wf lo hi (x :: l) <->
  0 < lo /\ block_ok lo hi x /\ (forall y, y ∈ l -> apart x y) /\ free_wf lo hi l.
Proof.
  split.
  - intros [H0 [H1 H2]%Forall_cons [H3 H4]%StronglySorted_cons].
    rewrite Forall_forall in H3. repeat split; auto; apply H1.
  - intros (H0 & H1 & H3 & [_ H2 H4]). split; [done|by constructor|].
    apply StronglySorted_cons. split; [by apply Forall_forall|done].
Qed.

(** Two different blocks of a list do not meet, headers included. *)
Lemma free_wf_disjoint lo hi blocks x y :
  free_wf lo hi blocks -> x ∈ blocks -> y ∈ blocks -> x = y \/ apart x y \/ apart y x.
Proof.
  intros Hwf. induction blocks as [|b blocks IH]; [set_solver|].
  apply free_wf_cons in Hwf as (_ & _ & Hap & Hwf). rewrite !elem_of_cons.
  intros [->|Hx] [->|Hy]; auto.
Qed.

Lemma free_wf_nodup lo hi blocks : free_wf lo hi blocks -> NoDup blocks.*1.
Proof.
  induction blocks as [|b blocks IH]; [intros; apply NoDup_nil_2|].
  intros (_ & Hok & Hap & Hwf)%free_wf_cons. cbn. apply NoDup_cons. split; [|auto].
  intros (y & Hy & Hin)%list_elem_of_fmap. specialize (Hap y Hin). unfold apart, block_ok in *. lia.
Qed.

(** An address strictly inside a block is no block's header. *)
Lemma inside_not_header lo hi blocks b a :
  free_wf lo hi blocks -> b ∈ blocks -> b.1 < a <= b.1 + 16 + b.2 -> a ∉ blocks.*1.
Proof.
  intros Hwf Hb Ha (y & -> & Hy)%list_elem_of_fmap.
  pose proof (fw_ok _ _ _ Hwf) as Hok. rewrite Forall_forall in Hok. specialize (Hok y Hy).
  destruct (free_wf_disjoint _ _ _ b y Hwf Hb Hy) as [->|[?|?]]; unfold apart, block_ok in *; lia.
Qed.

Lemma lseg_head m p b bs q : lseg m p (b :: bs) q -> p = b.1 /\ b.1 <> 0 /\
  exists nx, m !! b.1 = Some (mkFB b.2 nx) /\ lseg m nx bs q.
Proof. by destruct b as [a s]. Qed.

(** ** [alloc] refines first fit on the list *)

Lemma alloc_walk_refines lo hi size : 0 < size -> forall todo done fuel h curr,
  (length todo < fuel)%nat -> free_wf lo hi (done ++ todo) ->
  lseg (h_mem h) (h_head h) done curr -> lseg (h_mem h) curr todo 0 ->
  match alloc_list todo size with
  | Some (p, todo') => exists h', alloc_walk fuel h (link_of done) curr size = Some (p, h') /\
      repr h' (done ++ todo') /\
      (forall a, a ∉ (done ++ todo).*1 -> a ∉ (done ++ todo').*1 -> h_mem h' !! a = h_mem h !! a)
  | None => alloc_walk fuel h (link_of done) curr size = Some (0, h)
  end.
Proof.
  intros Hsize. induction todo as [|[a s] todo IH]; intros done fuel h curr Hf Hwf Hd Ht;
    (destruct fuel as [|fuel]; [cbn in Hf; lia|]); cbn [alloc_list alloc_walk].
  { cbn in Ht. by rewrite Ht. }
  apply lseg_head in Ht as (-> & Ha & nx & Hm & Ht). cbn [fst snd] in *.
  rewrite (proj2 (Z.eqb_neq a 0)) by done.
  assert (load h a = mkFB s nx) as Hload by (unfold load; by rewrite Hm). rewrite Hload. cbn [fb_size fb_next].
  pose proof (free_wf_nodup _ _ _ Hwf) as Hnd. rewrite fmap_app in Hnd. cbn in Hnd.
  apply NoDup_app in Hnd as (Hnd & Hdis & [Hnat Hndt]%NoDup_cons).
  destruct (Z.leb_spec size s) as [Hle|Hgt].
  - change (HEADER + ALIGN) with 32. change HEADER with 16. eexists. split; [reflexivity|].
    destruct (Z.leb_spec 32 (s - size)) as [Hsplit|Hwhole].
    + set (nb := a + 16 + size).
      assert (nb ∉ (done ++ (a, s) :: todo).*1) as Hnb.
      { eapply (inside_not_header lo hi _ (a, s)); [done|apply elem_of_app; right; apply list_elem_of_here|].
        cbn. subst nb. lia. }
      rewrite fmap_app in Hnb. cbn in Hnb.
      apply not_elem_of_app in Hnb as [Hnbd [Hnba Hnbt]%not_elem_of_cons].
      set (h1 := set_size h nb (s - size - 16)).
      assert (load h1 a = mkFB s nx) as ->.
      { unfold h1, set_size, store, load. cbn. rewrite lookup_insert_ne by done. by rewrite Hm. }
      cbn [fb_next]. set (h2 := set_next h1 nb nx).
      assert (h_mem h2 !! nb = Some (mkFB (s - size - 16) nx)) as Hnew.
      { unfold h2, h1, set_next, set_size, store, load. cbn. rewrite !lookup_insert_eq. done. }
      assert (forall x, x <> nb -> h_mem h2 !! x = h_mem h !! x) as Hother.
      { intros x Hx. unfold h2, h1, set_next, set_size, store. cbn. by rewrite !lookup_insert_ne. }
      destruct (write_link_seg h2 done a nb Hnd) as [Hd' Hm'].
      { eapply lseg_ext; [|exact Hd]. intros x Hx. apply Hother. by intros ->. }
      split.
      * apply lseg_app. exists nb. split; [done|]. cbn. split; [done|]. split.
        { pose proof (fw_ok _ _ _ Hwf) as Hok. pose proof (fw_lo _ _ _ Hwf).
          apply Forall_app in Hok as [_ [Hok _]%Forall_cons].
          unfold block_ok in Hok. cbn in Hok. subst nb. lia. }
        exists nx. rewrite Hm' by done. split; [done|]. eapply lseg_ext; [|exact Ht].
        intros x Hx. rewrite Hm'; [apply Hother; by intros ->|].
        intros Hxd. apply (Hdis x Hxd). by right.
      * intros x Hx Hx'. rewrite fmap_app in Hx, Hx'. cbn in Hx, Hx'.
        apply not_elem_of_app in Hx as [Hx _]. apply not_elem_of_app in Hx' as [_ Hx'].
        apply not_elem_of_cons in Hx' as [Hx' _]. rewrite Hm' by done. by apply Hother.
    + destruct (write_link_seg h done a nx Hnd Hd) as [Hd' Hm']. split.
      * apply lseg_app. exists nx. split; [done|]. eapply lseg_ext; [|exact Ht].
        intros x Hx. apply Hm'. intros Hxd. apply (Hdis x Hxd). by right.
      * intros x Hx Hx'. apply Hm'. rewrite fmap_app in Hx. by apply not_elem_of_app in Hx as [? _].
  - assert (link_of (done ++ [(a, s)]) = LNext a) as Hlink by (unfold link_of; by rewrite last_snoc).
    rewrite <- Hlink. specialize (IH (done ++ [(a, s)]) fuel h nx).
    rewrite <- app_assoc in IH. cbn [app] in IH.
    assert (lseg (h_mem h) (h_head h) (done ++ [(a, s)]) nx) as Hd'.
    { apply lseg_app. exists a. split; [done|]. cbn. split; [done|]. split; [done|]. by exists nx. }
    specialize (IH ltac:(cbn in Hf; lia) Hwf Hd' Ht).
    destruct (alloc_list todo size) as [ [p todo']|]; [|done].
    rewrite <- app_assoc in IH. done.
Qed.

(** ** [dealloc] refines ordered insertion with merging *)

Definition prev_of (done : list (Z * Z)) : Z := match last done with Some (a, _) => a | None => 0 end.
Definition head_of (todo : list (Z * Z)) : Z := match todo with (a, _) :: _ => a | [] => 0 end.

Lemma lseg_head_of m p bs : lseg m p bs 0 -> p = head_of bs.
Proof. destruct bs as [|[a s] bs]; cbn; [done|]. by intros (-> & _). Qed.

Lemma dealloc_find_spec m0 block : forall todo done fuel h curr,
  h_mem h = m0 -> (length todo < fuel)%nat ->
  lseg m0 (h_head h) done curr -> lseg m0 curr todo 0 -> Forall (fun x => x.1 < block) done ->
  exists before after, done ++ todo = before ++ after /\
    dealloc_find fuel h (prev_of done) curr block = Some (prev_of before, head_of after) /\
    Forall (fun x => x.1 < block) before /\
    match after with x :: _ => block <= x.1 | [] => True end.
Proof.
  induction todo as [|[a s] todo IH]; intros done fuel h curr Hm Hf Hd Ht Hlt;
    (destruct fuel as [|fuel]; [cbn in Hf; lia|]); cbn [dealloc_find].
  { cbn in Ht. subst curr. exists done, []. rewrite Z.eqb_refl. done. }
  apply lseg_head in Ht as (-> & Ha & nx & Hl & Ht). cbn [fst snd] in *.
  rewrite (proj2 (Z.eqb_neq a 0)) by done. cbn [negb andb].
  destruct (Z.ltb_spec a block).
  - assert (fb_next (load h a) = nx) as -> by (unfold load; rewrite Hm, Hl; done).
    assert (prev_of (done ++ [(a, s)]) = a) as Hp by (unfold prev_of; by rewrite last_snoc).
    destruct (IH (done ++ [(a, s)]) fuel h nx Hm) as (before & after & Heq & Hfind & Hb & Hafter).
    + cbn in Hf. lia.
    + apply lseg_app. exists a. split; [done|]. cbn. split; [done|]. split; [done|]. by exists nx.
    + done.
    + apply Forall_app. split; [done|]. by apply Forall_singleton.
    + rewrite Hp in Hfind. exists before, after. rewrite <- app_assoc in Heq. done.
  - by exists done, ((a, s) :: todo).
Qed.

Lemma dealloc_list_split before after b :
  Forall (fun x => x.1 < b.1) before -> match after with x :: _ => b.1 <= x.1 | [] => True end ->
  dealloc_list (before ++ after) b =
  match last before with
  | None => merge_after b after
  | Some x => removelast before ++ merge_after x (merge_after b after)
  end.
Proof.
  intros Hb Hafter. destruct before as [|x before _] using rev_ind.
  { destruct after as [|[c cs] after]; cbn; [done|]. cbn in Hafter.
    by rewrite (proj2 (Z.ltb_ge c b.1)) by lia. }
  rewrite last_snoc, removelast_last, <- app_assoc. cbn [app].
  apply Forall_app in Hb as [Hb [Hx _]%Forall_cons].
  induction before as [|[a s] before IH]; cbn [app].
  - destruct x as [a s]. cbn [dealloc_list] in *. cbn in Hx. rewrite (proj2 (Z.ltb_lt a b.1)) by lia.
    destruct after as [|[c cs] after]; [done|]. cbn in Hafter.
    by rewrite (proj2 (Z.ltb_ge c b.1)) by lia.
  - apply Forall_cons in Hb as [Ha Hb]. rewrite <- IH by done. cbn [dealloc_list]. cbn in Ha.
    rewrite (proj2 (Z.ltb_lt a b.1)) by lia.
    destruct before as [|[a' s'] before]; cbn [app].
    + destruct x as [a' s']. cbn in Hx. by rewrite (proj2 (Z.ltb_lt a' b.1)) by lia.
    + apply Forall_cons in Hb as [Ha' _]. cbn in Ha'. by rewrite (proj2 (Z.ltb_lt a' b.1)) by lia.
Qed.

(** Absorbing the next block of the list. *)
Lemma absorb_next h l a s b t r :
  NoDup (l ++ (a, s) :: (b, t) :: r).*1 -> repr h (l ++ (a, s) :: (b, t) :: r) ->
  let h' := set_size h a (s + (HEADER + fb_size (load h b))) in
  repr (set_next h' a (fb_next (load h' b))) (l ++ (a, s + (16 + t)) :: r).
Proof.
  intros Hnd Hrep. rewrite fmap_app in Hnd. cbn in Hnd.
  apply NoDup_app in Hnd as (_ & Hdis & [Ha Hnd]%NoDup_cons).
  apply not_elem_of_cons in Ha as [Hab Har].
  apply lseg_app in Hrep as (q & Hl & (-> & Ha0 & nx & Hma & (-> & Hb0 & nx' & Hmb & Hr))).
  cbn zeta. unfold set_next, set_size, store, load. cbn.
  rewrite Hmb, lookup_insert_eq, (lookup_insert_ne _ a b), Hmb by done. cbn.
  rewrite insert_insert_eq. apply lseg_app. exists a. split.
  - apply lseg_frame; [|done]. intros Hin. apply (Hdis a Hin). apply list_elem_of_here.
  - cbn. split; [done|]. split; [done|]. exists nx'. rewrite lookup_insert_eq. split; [done|].
    by apply lseg_frame.
Qed.

(** One conditional merge of the code, seen on the list. *)
Lemma merge_step h l a s after :
  NoDup (l ++ (a, s) :: after).*1 -> Forall (fun x => x.1 <> 0) after -> repr h (l ++ (a, s) :: after) ->
  let next := head_of after in
  let h' := set_size h a (fb_size (load h a) + (HEADER + fb_size (load h next))) in
  repr (if negb (next =? 0) && (a + HEADER + fb_size (load h a) =? next)
        then set_next h' a (fb_next (load h' next)) else h)
       (l ++ merge_after (a, s) after).
Proof.
  intros Hnd Hnz Hrep. cbn zeta.
  assert (load h a = mkFB s (head_of after)) as Hload.
  { unfold load. pose proof Hrep as (q & _ & (-> & _ & nx & -> & Hs))%lseg_app.
    by rewrite (lseg_head_of _ _ _ Hs). }
  rewrite Hload. cbn [fb_size]. change (a + HEADER + s) with (a + 16 + s).
  destruct after as [|[c cs] after]; cbn [head_of merge_after fst snd]; [done|].
  apply Forall_cons in Hnz as [Hc _]. cbn in Hc. rewrite (proj2 (Z.eqb_neq c 0)) by done. cbn [negb andb].
  destruct (a + 16 + s =? c); [|done].
  apply (absorb_next h l a s c cs after) in Hrep; [|done]. cbn zeta in Hrep. exact Hrep.
Qed.

Lemma merge_after_head b after : head_of (merge_after b after) = b.1.
Proof. destruct b as [a s], after as [|[c cs] after]; cbn; [done|]. by destruct (_ =? _). Qed.

Lemma merge_after_addrs b after : (merge_after b after).*1 `sublist_of` b.1 :: after.*1.
Proof.
  destruct after as [|[c cs] after]; cbn; [done|]. destruct (_ =? _); cbn.
  - constructor. by constructor.
  - done.
Qed.

Lemma elem_of_sublist {A} (l1 l2 : list A) x : l1 `sublist_of` l2 -> x ∈ l1 -> x ∈ l2.
Proof. induction 1; rewrite ?elem_of_cons; naive_solver. Qed.

Lemma insert_link_eq h before block :
  Forall (fun x => x.1 <> 0) before ->
  (if prev_of before =? 0 then set_head h block else set_next h (prev_of before) block)
  = write_link h (link_of before) block.
Proof.
  intros Hnz. unfold prev_of, link_of. destruct (last before) as [[a s]|] eqn:E; [|done].
  apply last_Some_elem_of in E. rewrite Forall_forall in Hnz. specialize (Hnz _ E). cbn in Hnz.
  by rewrite (proj2 (Z.eqb_neq a 0)).
Qed.

(** The block linked in between [before] and [after]. *)
Lemma insert_block h before after block size :
  NoDup (before ++ after).*1 -> block ∉ (before ++ after).*1 -> block <> 0 ->
  Forall (fun x => x.1 <> 0) before -> repr h (before ++ after) ->
  let h1 := set_next (set_size h block size) block (head_of after) in
  repr (write_link h1 (link_of before) block) (before ++ (block, size) :: after).
Proof.
  intros Hnd Hni Hb0 Hnz Hrep h1. rewrite fmap_app in Hnd, Hni.
  apply NoDup_app in Hnd as (Hnd & Hdis & _). apply not_elem_of_app in Hni as [Hnb Hna].
  apply lseg_app in Hrep as (q & Hl & Hr). pose proof (lseg_head_of _ _ _ Hr) as Hq. subst q.
  assert (h_mem h1 = <[block := mkFB size (head_of after)]> (h_mem h)) as Hm1.
  { unfold h1, set_next, set_size, store, load. cbn. rewrite lookup_insert_eq. cbn. apply insert_insert_eq. }
  destruct (write_link_seg h1 before (head_of after) block Hnd) as [Hl' Hm'].
  { change (h_head h1) with (h_head h). rewrite Hm1. by apply lseg_frame. }
  apply lseg_app. exists block. split; [done|]. cbn. split; [done|]. split; [done|].
  exists (head_of after). rewrite (Hm' block) by done. rewrite Hm1, lookup_insert_eq. split; [done|].
  eapply (lseg_ext (h_mem h)); [|exact Hr]. intros x Hx.
  assert (x ∉ before.*1) by (intros Hxb; by apply (Hdis x)). rewrite Hm', Hm1 by done.
  apply lookup_insert_ne. by intros ->.
Qed.

Lemma dealloc_refines lo hi blocks h block layout_size :
  free_wf lo hi blocks -> (length blocks < heap_fuel)%nat -> repr h blocks ->
  block ∉ blocks.*1 -> block <> 0 ->
  exists h', dealloc h (block + 16) layout_size = Some h' /\
    repr h' (dealloc_list blocks (block, round_size layout_size)).
Proof.
  intros Hwf Hfuel Hrep Hni Hb0. unfold dealloc. change (block + 16 - HEADER) with (block + 16 - 16).
  replace (block + 16 - 16) with block by lia. set (size := round_size layout_size).
  set (h0 := set_size h block size).
  destruct (dealloc_find_spec (h_mem h0) block blocks [] heap_fuel h0 (h_head h0))
    as (before & after & Heq & Hfind & Hlt & Hafter); [done|done|done| |done|].
  { cbn. apply lseg_frame; [|exact Hrep]. done. }
  cbn [app] in Heq. subst blocks.
  cbn [prev_of last] in Hfind. change (prev_of []) with 0 in Hfind. rewrite Hfind.
  pose proof (free_wf_nodup _ _ _ Hwf) as Hnd.
  assert (Forall (fun x => x.1 <> 0) (before ++ after)) as Hnz.
  { eapply Forall_impl; [apply Hwf|]. pose proof (fw_lo _ _ _ Hwf).
    unfold block_ok. cbn. intros [x y]. cbn. lia. }
  apply Forall_app in Hnz as [Hnzb Hnza].
  pose proof (insert_block h before after block size Hnd Hni Hb0 Hnzb Hrep) as Hins. cbn zeta in Hins.
  fold h0 in Hins. rewrite insert_link_eq by done.
  set (h2 := write_link _ _ block) in *.
  assert (NoDup (before ++ (block, size) :: after).*1) as Hnd2.
  { rewrite fmap_app. cbn. rewrite <- Permutation_middle, <- fmap_app. by apply NoDup_cons. }
  pose proof (merge_step h2 before block size after Hnd2 Hnza Hins) as H3. cbn zeta in H3.
  eexists. split; [reflexivity|]. set (h3 := if negb (head_of after =? 0) && _ then _ else h2) in *.
  rewrite dealloc_list_split by done. clear Hins Hfind.
  destruct before as [|[a s] d _] using rev_ind; [done|].
  rewrite last_snoc, removelast_last. unfold prev_of. rewrite last_snoc.
  apply Forall_app in Hnzb as [_ [Ha0 _]%Forall_cons]. cbn in Ha0.
  rewrite <- app_assoc in H3. cbn [app] in H3.
  rewrite (proj2 (Z.eqb_neq a 0)) by done. cbn [negb andb].
  assert (NoDup (d ++ (a, s) :: merge_after (block, size) after).*1) as Hnd3.
  { eapply sublist_NoDup; [exact Hnd2|]. rewrite <- app_assoc, !fmap_app. cbn.
    apply sublist_app; [done|]. constructor. apply (merge_after_addrs (block, size)). }
  assert (Forall (fun x => x.1 <> 0) (merge_after (block, size) after)) as Hnz3.
  { apply Forall_forall. intros [x t] Hx. apply (list_elem_of_fmap_2 fst) in Hx.
    eapply elem_of_sublist in Hx; [|apply merge_after_addrs]. cbn in Hx |- *.
    apply elem_of_cons in Hx as [->|(y & -> & Hy)%list_elem_of_fmap]; [done|].
    rewrite Forall_forall in Hnza. by apply Hnza. }
  pose proof (merge_step h3 d a s _ Hnd3 Hnz3 H3) as H4. cbn zeta in H4.
  rewrite merge_after_head in H4. cbn [fst] in H4. rewrite (proj2 (Z.eqb_neq block 0)) in H4 by done.
  exact H4.
Qed.

(** ** Live allocations *)

(** Two blocks (headers included) do not meet. *)
Definition disj (x y : Z * Z) : Prop := x.1 + 16 + x.2 <= y.1 \/ y.1 + 16 + y.2 <= x.1.

Lemma round_size_spec n :
  0 <= n < 2 ^ 63 -> n <= round_size n < n + 17 /\ round_size n mod 16 = 0 /\ 16 <= round_size n.
Proof.
  intros Hn. unfold round_size, align_up. change ALIGN with 16.
  pose proof (align_up_spec 64 4 (Z.max n 1)) as H. cbn zeta in H.
  change (2 ^ 4) with 16 in H. destruct H as [H1 H2]; [lia|lia|lia|].
  split; [lia|]. split; [done|]. set (y := Z.land _ _) in *.
  pose proof (Z.div_mod y 16). lia.
Qed.

(** What first fit takes and leaves. *)
Lemma alloc_list_spec lo hi size : 16 <= size -> size mod 16 = 0 -> forall blocks,
  free_wf lo hi blocks ->
  match alloc_list blocks size with
  | Some (p, blocks') => exists a s, (a, s) ∈ blocks /\ p = a + 16 /\ size <= s /\ free_wf lo hi blocks' /\
      forall x, x ∈ blocks' ->
        (x ∈ blocks /\ disj (a, s) x) \/ (x.1 = a + 16 + size /\ x.1 + 16 + x.2 = a + 16 + s)
  | None => Forall (fun x => x.2 < size) blocks
  end.
Proof.
  intros Hs16 Hsm. induction blocks as [|[a s] blocks IH]; intros Hwf; cbn [alloc_list]; [done|].
  apply free_wf_cons in Hwf as (Hlo & Hok & Hap & Hwf).
  assert (forall x, x ∈ blocks -> disj (a, s) x) as Hdis.
  { intros x Hx. specialize (Hap x Hx). unfold apart, disj in *. cbn in *. lia. }
  destruct (Z.leb_spec size s) as [Hle|Hgt].
  - exists a, s. split; [apply list_elem_of_here|]. split; [done|]. split; [done|].
    unfold block_ok, apart in *. cbn in Hok, Hap.
    assert ((s - size) mod 16 = 0).
    { rewrite Zminus_mod. destruct Hok as (_ & _ & _ & -> & _). by rewrite Hsm. }
    destruct (Z.leb_spec 32 (s - size)).
    + split.
      * apply free_wf_cons. split; [done|]. split; [|split; [|done]].
        -- unfold block_ok. cbn. destruct Hok as (H1 & H2 & H3 & H4 & H5).
           split; [lia|]. split; [lia|]. split; [|split; [|lia]].
           ++ replace (a + 16 + size) with (a + size + 1 * 16) by lia. rewrite Z_mod_plus_full, Zplus_mod.
              by rewrite H3, Hsm.
           ++ replace (s - size - 16) with (s - size + (-1) * 16) by lia. by rewrite Z_mod_plus_full.
        -- intros y Hy. specialize (Hap y Hy). unfold apart. cbn. lia.
      * intros x [->|Hx]%elem_of_cons; [right; cbn; lia|left; split; [by right|by apply Hdis]].
    + split; [done|]. intros x Hx. left. split; [by right|by apply Hdis].
  - specialize (IH Hwf). destruct (alloc_list blocks size) as [ [p blocks']|].
    + destruct IH as (a' & s' & Hin & -> & Hle & Hwf' & Hnew). exists a', s'.
      split; [by right|]. split; [done|]. split; [done|].
      pose proof (Hap _ Hin) as Hap'. unfold apart in Hap'. cbn in Hap'. split.
      * apply free_wf_cons. do 2 (split; [done|]). split; [|done]. intros y Hy.
        destruct (Hnew y Hy) as [[Hy' _]|[Hy1 Hy2]]; [by apply Hap|]. unfold apart. cbn. lia.
      * intros x [->|Hx]%elem_of_cons.
        -- left. split; [apply list_elem_of_here|]. unfold disj. cbn. lia.
        -- destruct (Hnew x Hx) as [[? ?]|?]; [left; split; [by right|done]|by right].
    + constructor; [cbn; lia|done].
Qed.

Lemma merge_after_wf lo hi b after :
  0 < lo -> block_ok lo hi b -> free_wf lo hi after -> (forall y, y ∈ after -> b.1 + 16 + b.2 <= y.1) ->
  free_wf lo hi (merge_after b after).
Proof.
  intros Hlo Hb Hwf Hle. destruct after as [|[c cs] after]; cbn [merge_after].
  { apply free_wf_cons. split; [done|]. split; [done|]. split; [set_solver|done]. }
  pose proof Hwf as (_ & Hc & Hap & Hwf')%free_wf_cons. pose proof (Hle (c, cs) (list_elem_of_here _ _)) as Hbc.
  unfold block_ok, apart in *. cbn in *. destruct (Z.eqb_spec (b.1 + 16 + b.2) c) as [Heq|Hne].
  - apply free_wf_cons. split; [done|]. split; [|split; [|done]].
    + unfold block_ok. cbn. destruct Hb as (? & ? & ? & Hb4 & ?), Hc as (? & ? & ? & Hc4 & ?).
      split; [lia|]. split; [lia|]. split; [done|]. split; [|lia].
      replace (b.2 + (16 + cs)) with (b.2 + cs + 1 * 16) by lia. rewrite Z_mod_plus_full, Zplus_mod.
      by rewrite Hb4, Hc4.
    + intros y Hy. specialize (Hap y Hy). unfold apart. cbn. lia.
  - apply free_wf_cons. split; [done|]. split; [done|]. split; [|done].
    intros y [->|Hy]%elem_of_cons; unfold apart; cbn; [lia|].
    specialize (Hap y Hy). lia.
Qed.

(** A block that meets neither [b] nor any of [after] meets no merged block. *)
Lemma merge_after_disj b after y :
  0 <= y.2 -> disj b y -> (forall x, x ∈ after -> disj x y) ->
  forall x, x ∈ merge_after b after -> disj x y.
Proof.
  intros Hy Hb Ha x. destruct after as [|[c cs] after]; cbn [merge_after].
  { intros ->%list_elem_of_singleton. done. }
  pose proof (Ha (c, cs) (list_elem_of_here _ _)) as Hc.
  destruct (Z.eqb_spec (b.1 + 16 + b.2) c) as [Heq|Hne].
  - intros [->|Hx]%elem_of_cons; [|apply Ha; by right]. unfold disj in *. cbn in *. lia.
  - intros [->|Hx]%elem_of_cons; [done|]. by apply Ha.
Qed.

Lemma merge_after_first b after y : y ∈ merge_after b after -> b.1 <= y.1 \/ y ∈ after.
Proof.
  destruct after as [|[c cs] after]; cbn [merge_after]; [intros ->%list_elem_of_singleton; lia|].
  destruct (_ =? _); intros [->|?]%elem_of_cons; cbn; [lia|right; by right|lia|by right].
Qed.

Lemma split_blocks (blocks : list (Z * Z)) (block : Z) :
  exists before after, blocks = before ++ after /\ Forall (fun x => x.1 < block) before /\
    match after with x :: _ => block <= x.1 | [] => True end.
Proof.
  induction blocks as [|x blocks (before & after & -> & Hb & Ha)]; [by exists [], []|].
  destruct (decide (x.1 < block)).
  - exists (x :: before), after. split; [done|]. split; [by constructor|done].
  - exists [], (x :: before ++ after). split; [done|]. split; [done|lia].
Qed.

Lemma dealloc_list_spec lo hi blocks b :
  free_wf lo hi blocks -> block_ok lo hi b -> (forall x, x ∈ blocks -> disj x b) ->
  free_wf lo hi (dealloc_list blocks b) /\
  forall y, 0 <= y.2 -> disj b y -> (forall x, x ∈ blocks -> disj x y) ->
    forall x, x ∈ dealloc_list blocks b -> disj x y.
Proof.
  intros Hwf Hb Hdis. pose proof (fw_lo _ _ _ Hwf) as Hlo.
  destruct (split_blocks blocks b.1) as (before & after & -> & Hlt & Hge).
  rewrite dealloc_list_split by done. pose proof Hwf as (Hwf1 & Hwf2 & Hap)%free_wf_app.
  assert (forall y, y ∈ after -> b.1 + 16 + b.2 <= y.1) as Hafter.
  { assert (forall y, y ∈ after -> b.1 <= y.1) as Hle.
    { destruct after as [|c after]; [set_solver|]. apply free_wf_cons in Hwf2 as (_ & Hc & Hcap & _).
      intros y [->|Hy]%elem_of_cons; [done|]. specialize (Hcap y Hy).
      unfold apart, block_ok in *. lia. }
    intros y Hy. pose proof (Hle y Hy). pose proof (fw_ok _ _ _ Hwf2) as Hok.
    rewrite Forall_forall in Hok. specialize (Hok y Hy).
    destruct (Hdis y) as [Hd|Hd]; [apply elem_of_app; by right| |]; unfold block_ok in *; lia. }
  pose proof (merge_after_wf lo hi b after Hlo Hb Hwf2 Hafter) as Hm.
  destruct before as [|x d _] using rev_ind.
  { split; [done|]. intros y Hy Hby Hxy. apply merge_after_disj; [done|done|].
    intros x Hx. by apply Hxy. }
  rewrite last_snoc, removelast_last.
  apply free_wf_app in Hwf1 as (Hwd & Hwx & Hdx). apply Forall_app in Hlt as [Hltd [Hltx _]%Forall_cons].
  assert (block_ok lo hi x) as Hxok by (apply free_wf_cons in Hwx; tauto).
  assert (x.1 + 16 + x.2 <= b.1) as Hxb.
  { destruct (Hdis x) as [Hd|Hd]; [|lia|unfold block_ok in *; lia].
    rewrite !elem_of_app. left. right. apply list_elem_of_here. }
  assert (free_wf lo hi (merge_after x (merge_after b after))) as Hmm.
  { apply merge_after_wf; [done|done|done|]. intros y [?|Hy]%merge_after_first; [lia|].
    assert (apart x y) as Hxy; [|unfold apart in Hxy; lia].
    apply Hap; [apply elem_of_app; right; apply list_elem_of_here|done]. }
  split.
  - apply free_wf_app. split; [done|]. split; [done|]. intros y z Hy Hz.
    assert (apart y x) as Hyx by (apply Hdx; [done|apply list_elem_of_here]).
    destruct (merge_after_first _ _ _ Hz) as [Hxz|Hz']; [unfold apart in *; lia|].
    destruct (merge_after_first _ _ _ Hz') as [Hbz|Hz'']; [unfold apart, block_ok in *; lia|].
    apply Hap; [apply elem_of_app; by left|done].
  - intros y Hy Hby Hxy z [Hz|Hz]%elem_of_app; [apply Hxy; rewrite !elem_of_app; tauto|].
    revert z Hz. apply merge_after_disj; [done| |].
    + apply Hxy. rewrite !elem_of_app. left. right. apply list_elem_of_here.
    + apply merge_after_disj; [done|done|]. intros w Hw. apply Hxy. rewrite elem_of_app. by right.
Qed.

(** ** Runs of the allocator *)

(** The heap with the live allocations (header address, rounded size).  Owners
    may write anything into their payload. *)
Inductive heap_step : Heap * list (Z * Z) -> Heap * list (Z * Z) -> Prop :=
| hstep_alloc h live n al p h' :
    0 <= n < 2 ^ 63 -> alloc h n al = Some (p, h') -> p <> 0 ->
    heap_step (h, live) (h', (p - 16, round_size n) :: live)
| hstep_null h live n al h' :
    0 <= n < 2 ^ 63 -> alloc h n al = Some (0, h') -> heap_step (h, live) (h', live)
| hstep_dealloc h live1 b n live2 h' :
    dealloc h (b + 16) n = Some h' ->
    heap_step (h, live1 ++ (b, round_size n) :: live2) (h', live1 ++ live2)
| hstep_write h live b s a v :
    (b, s) ∈ live -> b + 16 <= a < b + 16 + s -> heap_step (h, live) (store h a v, live).

Record heap_inv (lo hi : Z) (h : Heap) (live free : list (Z * Z)) : Prop := {
  hi_repr : repr h free;
  hi_free : free_wf lo hi free;
  hi_live : Forall (block_ok lo hi) live;
  hi_live_disj : StronglySorted disj live;
  hi_disj : forall x y, x ∈ free -> y ∈ live -> disj x y
}.

(** At most one free block per 32 bytes. *)
Lemma free_wf_length lo hi blocks :
  free_wf lo hi blocks -> 32 * Z.of_nat (length blocks) <= Z.max 0 (hi - lo).
Proof.
  intros Hwf. assert (forall l, free_wf lo hi l -> forall top, Forall (fun x => top <= x.1) l ->
    32 * Z.of_nat (length l) <= Z.max 0 (hi - top)) as H.
  { induction l as [|x l IH]; intros Hl top Htop; cbn [length]; [lia|].
    apply free_wf_cons in Hl as (_ & Hok & Hap & Hl). apply Forall_cons in Htop as [Hx _].
    assert (Forall (fun y => x.1 + 32 <= y.1) l) as Hnext.
    { apply Forall_forall. intros y Hy. specialize (Hap y Hy). unfold apart, block_ok in *. lia. }
    specialize (IH Hl (x.1 + 32) Hnext). unfold block_ok in Hok. lia. }
  apply H; [done|]. eapply Forall_impl; [apply Hwf|]. unfold block_ok. cbn. tauto.
Qed.

Lemma heap_fuel_enough lo hi h live free :
  heap_inv lo hi h live free -> hi - lo = HEAP_INIT_PAGES * 4096 -> (length free < heap_fuel)%nat.
Proof.
  intros Hinv Hsz. pose proof (free_wf_length _ _ _ (hi_free _ _ _ _ _ Hinv)) as Hl.
  rewrite Hsz in Hl. change (HEAP_INIT_PAGES * 4096) with 2097152 in Hl.
  apply Nat2Z.inj_lt. unfold heap_fuel. rewrite Nat2Z.inj_add, Z2Nat.id by (vm_compute; discriminate).
  change (HEAP_INIT_PAGES * 4096 / 32) with 65536. lia.
Qed.

Lemma alloc_total lo hi h live free n al :
  heap_inv lo hi h live free -> hi - lo = HEAP_INIT_PAGES * 4096 -> 0 <= n < 2 ^ 63 -> al <= ALIGN ->
  match alloc_list free (round_size n) with
  | Some (p, free') => exists h', alloc h n al = Some (p, h') /\ repr h' free' /\
      (forall a, a ∉ free.*1 -> a ∉ free'.*1 -> h_mem h' !! a = h_mem h !! a)
  | None => alloc h n al = Some (0, h)
  end.
Proof.
  intros Hinv Hsz Hn Hal. unfold alloc. rewrite (proj2 (Z.leb_le al ALIGN)) by done. cbn [negb].
  destruct (round_size_spec n Hn) as (_ & _ & H16).
  apply (alloc_walk_refines lo hi (round_size n) ltac:(lia) free [] heap_fuel h (h_head h));
    [by eapply heap_fuel_enough|apply Hinv|done|apply Hinv].
Qed.

Lemma disj_sym x y : disj x y -> disj y x.
Proof. unfold disj. tauto. Qed.

Lemma inv_alloc lo hi h live free a s size h' free' :
  heap_inv lo hi h live free -> (a, s) ∈ free -> 16 <= size <= s -> size mod 16 = 0 ->
  repr h' free' -> free_wf lo hi free' ->
  (forall x, x ∈ free' ->
     (x ∈ free /\ disj (a, s) x) \/ (x.1 = a + 16 + size /\ x.1 + 16 + x.2 = a + 16 + s)) ->
  heap_inv lo hi h' ((a, size) :: live) free'.
Proof.
  intros [Hrep Hwf Hl Hld Hd] Hin Hsz Hsm Hrep' Hwf' Hnew.
  pose proof (fw_ok _ _ _ Hwf) as Hok. rewrite Forall_forall in Hok. specialize (Hok _ Hin).
  assert (forall y, y ∈ live -> disj (a, s) y) as Has by (intros y; by apply Hd).
  split; [done|done| | |].
  - constructor; [|done]. unfold block_ok in *. cbn in *.
    destruct Hok as (? & ? & ? & ? & ?). repeat split; (done || lia).
  - apply StronglySorted_cons. split; [|done]. apply Forall_forall. intros y Hy.
    specialize (Has y Hy). unfold disj in *. cbn in *. lia.
  - intros x y Hx [->|Hy]%elem_of_cons.
    + destruct (Hnew x Hx) as [[_ Hx']|[? ?]]; unfold disj in *; cbn in *; lia.
    + destruct (Hnew x Hx) as [[Hx' _]|[Hx1 Hx2]]; [by apply Hd|].
      specialize (Has y Hy). rewrite Forall_forall in Hl. specialize (Hl y Hy).
      unfold disj, block_ok in *. cbn in *. lia.
Qed.

Lemma live_not_header lo hi h live free b s a :
  heap_inv lo hi h live free -> (b, s) ∈ live -> b <= a < b + 16 + s -> a ∉ free.*1.
Proof.
  intros Hinv Hin Ha (x & -> & Hx)%list_elem_of_fmap.
  pose proof (hi_disj _ _ _ _ _ Hinv x (b, s) Hx Hin) as Hd.
  pose proof (fw_ok _ _ _ (hi_free _ _ _ _ _ Hinv)) as Hok. rewrite Forall_forall in Hok.
  specialize (Hok x Hx). unfold disj, block_ok in *. cbn in *. lia.
Qed.

Lemma heap_inv_dealloc lo hi h live1 b n live2 free :
  heap_inv lo hi h (live1 ++ (b, round_size n) :: live2) free -> hi - lo = HEAP_INIT_PAGES * 4096 ->
  exists h', dealloc h (b + 16) n = Some h' /\
    heap_inv lo hi h' (live1 ++ live2) (dealloc_list free (b, round_size n)).
Proof.
  intros Hinv Hsz. pose proof Hinv as [Hrep Hwf Hl Hld Hd].
  assert ((b, round_size n) ∈ live1 ++ (b, round_size n) :: live2) as Hin
    by (apply elem_of_app; right; apply list_elem_of_here).
  rewrite Forall_forall in Hl. pose proof (Hl _ Hin) as Hbok. pose proof (fw_lo _ _ _ Hwf).
  destruct (dealloc_refines lo hi free h b n Hwf) as (h1 & E & Hrep1);
    [by eapply heap_fuel_enough|done| |unfold block_ok in Hbok; cbn in Hbok; lia|].
  { eapply live_not_header; [exact Hinv|exact Hin|]. unfold block_ok in Hbok. cbn in Hbok. lia. }
  exists h1. split; [done|].
  destruct (dealloc_list_spec lo hi free (b, round_size n) Hwf Hbok) as [Hwf1 Hdis1].
  { intros x Hx. by apply Hd. }
  apply StronglySorted_app in Hld as (Hcross & Hl1 & [Hb2 Hl2]%StronglySorted_cons).
  rewrite Forall_forall in Hb2.
  assert (forall y, y ∈ live1 ++ live2 -> y ∈ live1 ++ (b, round_size n) :: live2) as Hsub.
  { intros y. rewrite !elem_of_app, elem_of_cons. tauto. }
  split; [done|done| | |].
  - apply Forall_forall. intros y Hy. by apply Hl, Hsub.
  - apply StronglySorted_app. split; [|done]. intros x y Hx Hy. apply Hcross; [done|by right].
  - intros x y Hx Hy. revert x Hx. apply Hdis1.
    + pose proof (Hl y (Hsub y Hy)) as Hyok. unfold block_ok in Hyok. lia.
    + apply elem_of_app in Hy as [Hy|Hy]; [|by apply Hb2].
      apply disj_sym, Hcross; [done|apply list_elem_of_here].
    + intros x Hx. apply Hd; [done|by apply Hsub].
Qed.

Lemma heap_inv_step lo hi h live free st' :
  heap_inv lo hi h live free -> hi - lo = HEAP_INIT_PAGES * 4096 -> heap_step (h, live) st' ->
  exists free', heap_inv lo hi st'.1 st'.2 free'.
Proof.
  intros Hinv Hsz Hs. inversion Hs as [h0 live0 n al p h' Hn Ha Hp|h0 live0 n al h' Hn Ha|
    h0 live1 b n live2 h' Ha|h0 live0 b s a v Hin Hav]; subst; cbn [fst snd].
  - assert (al <= ALIGN) as Hal.
    { unfold alloc in Ha. destruct (Z.leb_spec al ALIGN); [done|]. done. }
    destruct (round_size_spec n Hn) as (_ & Hm & H16).
    pose proof (alloc_total lo hi h live free n al Hinv Hsz Hn Hal) as Ht.
    pose proof (alloc_list_spec lo hi (round_size n) H16 Hm free (hi_free _ _ _ _ _ Hinv)) as Hspec.
    destruct (alloc_list free (round_size n)) as [ [p' free']|]; [|congruence].
    destruct Ht as (h1 & E & Hrep1 & _). rewrite E in Ha. injection Ha as -> ->.
    destruct Hspec as (a & s & Hin & -> & Hle & Hwf' & Hnew). exists free'.
    replace (a + 16 - 16) with a by lia. by eapply inv_alloc.
  - assert (al <= ALIGN) as Hal.
    { unfold alloc in Ha. destruct (Z.leb_spec al ALIGN); [done|]. done. }
    destruct (round_size_spec n Hn) as (_ & Hm & H16).
    pose proof (alloc_total lo hi h live free n al Hinv Hsz Hn Hal) as Ht.
    pose proof (alloc_list_spec lo hi (round_size n) H16 Hm free (hi_free _ _ _ _ _ Hinv)) as Hspec.
    destruct (alloc_list free (round_size n)) as [ [p' free']|]; [|exists free; congruence].
    destruct Ht as (h1 & E & _). rewrite E in Ha. injection Ha as -> ->.
    destruct Hspec as (a & s & Hin & Hp & _). pose proof (fw_ok _ _ _ (hi_free _ _ _ _ _ Hinv)) as Hok.
    rewrite Forall_forall in Hok. specialize (Hok _ Hin).
    pose proof (fw_lo _ _ _ (hi_free _ _ _ _ _ Hinv)). unfold block_ok in Hok. cbn in Hok. lia.
  - destruct (heap_inv_dealloc lo hi h live1 b n live2 free Hinv Hsz) as (h1 & E & Hinv').
    rewrite E in Ha. injection Ha as ->. by eexists.
  - exists free. destruct Hinv as [Hrep Hwf Hl Hld Hd]. split; try done.
    apply lseg_frame; [|done]. eapply (live_not_header lo hi h live free b s); [by split|done|lia].
Qed.

Lemma heap_init_inv base :
  0 < base -> base mod 16 = 0 ->
  heap_inv base (base + HEAP_INIT_PAGES * 4096) (heap_init base) [] [(base, HEAP_INIT_PAGES * 4096 - 16)].
Proof.
  intros Hb Hm. split.
  - unfold repr, heap_init. cbn. split; [done|]. split; [lia|]. exists 0.
    by rewrite lookup_singleton_eq.
  - apply free_wf_cons. split; [done|]. split; [|split; [set_solver|]].
    + unfold block_ok. cbn [fst snd]. change (HEAP_INIT_PAGES * 4096) with 2097152.
      repeat split; try lia; done.
    + split; [done|done|constructor].
  - done.
  - constructor.
  - set_solver.
Qed.

(** C11. Every state of the kernel heap, through any sequence of allocations,
    releases and writes into allocated memory: the live blocks lie inside the
    heap on 16-byte boundaries and do not overlap, the free list threaded
    through memory is intact, sorted, fully coalesced and disjoint from the
    live blocks; an allocation always terminates, fails only if no free block
    is large enough, and every live block can be released. *)
Theorem heap_allocations_disjoint base h live :
  0 < base -> base mod 16 = 0 -> rtc heap_step (heap_init base, []) (h, live) ->
  let top := base + HEAP_INIT_PAGES * 4096 in
  exists free, heap_inv base top h live free /\
    (forall n al, 0 <= n < 2 ^ 63 -> al <= ALIGN ->
       exists p h', alloc h n al = Some (p, h') /\
         (p = 0 -> Forall (fun x => x.2 < round_size n) free)) /\
    (forall b n, (b, round_size n) ∈ live -> is_Some (dealloc h (b + 16) n)).
Proof.
  intros Hb Hm Hrun top. assert (top - base = HEAP_INIT_PAGES * 4096) as Hsz by (subst top; lia).
  assert (exists free, heap_inv base top h live free) as (free & Hinv).
  { refine (rtc_ind_r (fun st => exists free, heap_inv base top st.1 st.2 free)
      (heap_init base, []) _ _ (h, live) Hrun).
    - eexists. by apply heap_init_inv.
    - intros [h1 live1] st' _ Hs (free & Hinv). by eapply heap_inv_step. }
  exists free. split; [done|]. split.
  - intros n al Hn Hal. pose proof (alloc_total base top h live free n al Hinv Hsz Hn Hal) as Ht.
    destruct (round_size_spec n Hn) as (_ & Hm16 & H16).
    pose proof (alloc_list_spec base top (round_size n) H16 Hm16 free (hi_free _ _ _ _ _ Hinv)) as Hspec.
    destruct (alloc_list free (round_size n)) as [ [p free']|].
    + destruct Ht as (h' & E & _). exists p, h'. split; [done|]. intros ->. exfalso.
      destruct Hspec as (a & s & Hin & Hp & _). pose proof (fw_ok _ _ _ (hi_free _ _ _ _ _ Hinv)) as Hok.
      rewrite Forall_forall in Hok. specialize (Hok _ Hin). unfold block_ok in Hok. cbn in Hok. lia.
    + exists 0, h. done.
  - intros b n (l1 & l2 & ->)%list_elem_of_split.
    destruct (heap_inv_dealloc base top h l1 b n l2 free Hinv Hsz) as (h' & -> & _). eauto.
Qed.

(** ** Accounting *)

Lemma stats_walk_spec blocks : forall fuel h scan acc,
  (length blocks < fuel)%nat -> lseg (h_mem h) scan blocks 0 ->
  stats_walk fuel h scan acc = Some
    (acc.1.1 + Z.of_nat (length blocks),
     acc.1.2 + foldr (fun b t => b.2 + 16 + t) 0 blocks,
     foldl (fun m b => Z.max m b.2) acc.2 blocks).
Proof.
  induction blocks as [|[a s] blocks IH]; intros fuel h scan [[c t] m] Hf Hs;
    (destruct fuel as [|fuel]; [cbn in Hf; lia|]); cbn [stats_walk].
  { cbn in Hs. subst scan. cbn. by rewrite !Z.add_0_r. }
  apply lseg_head in Hs as (-> & Ha & nx & Hl & Hs). cbn [fst snd] in *.
  rewrite (proj2 (Z.eqb_neq a 0)) by done. assert (load h a = mkFB s nx) as -> by (unfold load; by rewrite Hl).
  cbn [fb_size fb_next]. change HEADER with 16. rewrite IH; [|cbn in Hf; lia|done]. cbn [fst snd length foldr foldl].
  assert ((if m <? s then s else m) = Z.max m s) as -> by (destruct (Z.ltb_spec m s); lia).
  f_equal. f_equal. f_equal; lia.
Qed.

(** The reported statistics are those of the free list: block count, bytes
    with headers, largest block. *)
Theorem free_list_stats_exact lo hi h live free :
  heap_inv lo hi h live free -> hi - lo = HEAP_INIT_PAGES * 4096 ->
  free_list_stats h = Some (Z.of_nat (length free), foldr (fun b t => b.2 + 16 + t) 0 free,
                            foldl (fun m b => Z.max m b.2) 0 free).
Proof.
  intros Hinv Hsz. unfold free_list_stats. rewrite (stats_walk_spec free).
  - done.
  - by eapply heap_fuel_enough.
  - apply Hinv.
Qed.

Lemma round_size_exact s : 16 <= s < 2 ^ 63 -> s mod 16 = 0 -> round_size s = s.
Proof.
  intros Hs Hm. unfold round_size, align_up. change ALIGN with 16.
  pose proof (align_up_spec 64 4 (Z.max s 1)) as H. cbn zeta in H. change (2 ^ 4) with 16 in H.
  destruct H as [H1 H2]; [lia|lia|lia|]. set (y := Z.land _ _) in *.
  pose proof (Z.div_mod y 16). pose proof (Z.div_mod s 16). lia.
Qed.

(** Asking for all but 16 bytes of the only free block takes the whole block;
    the release gives 16 bytes less back. *)
Lemma leak_round base h s :
  0 < base -> base mod 16 = 0 -> s mod 16 = 0 -> 32 <= s <= HEAP_INIT_PAGES * 4096 - 16 ->
  heap_inv base (base + HEAP_INIT_PAGES * 4096) h [] [(base, s)] ->
  exists h', rtc heap_step (h, []) (h', []) /\
    heap_inv base (base + HEAP_INIT_PAGES * 4096) h' [] [(base, s - 16)].
Proof.
  intros Hb Hm Hs Hle Hinv. change (HEAP_INIT_PAGES * 4096 - 16) with 2097136 in Hle.
  set (top := base + HEAP_INIT_PAGES * 4096) in *.
  assert (top - base = HEAP_INIT_PAGES * 4096) as Hsz by (subst top; lia).
  assert ((s - 16) mod 16 = 0) as Hm'.
  { replace (s - 16) with (s + (-1) * 16) by lia. by rewrite Z_mod_plus_full. }
  assert (round_size (s - 16) = s - 16) as Hr by (apply round_size_exact; [lia|done]).
  pose proof (alloc_total base top h [] [(base, s)] (s - 16) 16 Hinv Hsz ltac:(lia) ltac:(done)) as Ha.
  rewrite Hr in Ha. cbn [alloc_list] in Ha. rewrite (proj2 (Z.leb_le (s - 16) s)) in Ha by lia.
  rewrite (proj2 (Z.leb_gt 32 (s - (s - 16)))) in Ha by lia.
  destruct Ha as (h1 & E1 & Hrep1 & _).
  assert (heap_step (h, []) (h1, [(base, s - 16)])) as Hs1.
  { pose proof (hstep_alloc h [] (s - 16) 16 _ h1 ltac:(lia) E1 ltac:(lia)) as H.
    rewrite Hr in H. by replace (base + 16 - 16) with base in H by lia. }
  assert (heap_inv base top h1 [(base, s - 16)] []) as Hinv1.
  { eapply (inv_alloc base top h [] [(base, s)] base s); [done|apply list_elem_of_here|lia|done|done| |].
    - split; [done|done|constructor].
    - set_solver. }
  pose proof (heap_inv_dealloc base top h1 [] base (s - 16) [] []) as Hd. rewrite Hr in Hd.
  destruct (Hd Hinv1 Hsz) as (h2 & E2 & Hinv2). exists h2. split; [|done].
  eapply rtc_l; [exact Hs1|]. apply rtc_once.
  pose proof (hstep_dealloc h1 [] base (s - 16) [] h2 E2) as H. by rewrite Hr in H.
Qed.

(** The heap loses memory for good: when the remainder of a block is 16
    bytes, too small to split, the whole block is handed out, but its release
    puts back only the rounded request. For every [n] up to 131069 there is
    a run after which nothing is allocated and the free bytes have gone down by
    [16 * n]; with the largest [n] the 2 MiB heap has 48 bytes left. *)
Theorem unsplit_remainder_leaks base n :
  0 < base -> base mod 16 = 0 -> 0 <= n <= 131069 ->
  exists h, rtc heap_step (heap_init base, []) (h, []) /\
    free_bytes (heap_init base) = Some (HEAP_INIT_PAGES * 4096) /\
    free_bytes h = Some (HEAP_INIT_PAGES * 4096 - 16 * n).
Proof.
  intros Hb Hm. set (top := base + HEAP_INIT_PAGES * 4096).
  assert (top - base = HEAP_INIT_PAGES * 4096) as Hsz by (subst top; lia).
  assert (forall h s, heap_inv base top h [] [(base, s)] -> free_bytes h = Some (s + 16)) as Hfree.
  { intros h s Hinv. unfold free_bytes, free_list_stats. rewrite (stats_walk_spec [(base, s)]).
    - cbn. f_equal. lia.
    - by eapply heap_fuel_enough.
    - apply Hinv. }
  intros Hn.
  assert (exists h, rtc heap_step (heap_init base, []) (h, []) /\
    heap_inv base top h [] [(base, HEAP_INIT_PAGES * 4096 - 16 - 16 * n)]) as (h & Hrun & Hinv).
  { destruct Hn as [Hn0 Hn1]. revert n Hn0 Hn1. apply (natlike_ind (fun n => n <= 131069 -> _)).
    - intros _. exists (heap_init base). split; [done|]. rewrite Z.sub_0_r. by apply heap_init_inv.
    - intros n Hn IH Hle. destruct IH as (h & Hrun & Hinv); [lia|].
      change (HEAP_INIT_PAGES * 4096 - 16) with 2097136 in *.
      destruct (leak_round base h (2097136 - 16 * n)) as (h' & Hr' & Hinv').
      + done.
      + done.
      + replace (2097136 - 16 * n) with ((131071 - n) * 16) by lia. by rewrite Z.mod_mul.
      + change (HEAP_INIT_PAGES * 4096 - 16) with 2097136. lia.
      + done.
      + exists h'. split; [by etrans|].
        by replace (2097136 - 16 * Z.succ n) with (2097136 - 16 * n - 16) by lia. }
  exists h. split; [done|]. split.
  - rewrite (Hfree _ (HEAP_INIT_PAGES * 4096 - 16)) by (by apply heap_init_inv). done.
  - rewrite (Hfree _ _ Hinv). f_equal. lia.
Qed.

(** Two allocations and a release in a heap at 64 KiB. *)
Definition demo_h0 : Heap := heap_init 65536.
Definition demo_h1 : Heap := from_option snd demo_h0 (alloc demo_h0 100 8).
Definition demo_h2 : Heap := from_option snd demo_h1 (alloc demo_h1 10 16).
Definition demo_h3 : Heap := default demo_h2 (dealloc demo_h2 65552 100).

Lemma demo_heap_run : rtc heap_step (demo_h0, []) (demo_h3, [(65664, 16)]).
Proof.
  eapply (rtc_l _ _ (demo_h1, [(65536, 112)])).
  { refine (hstep_alloc demo_h0 [] 100 8 65552 demo_h1 _ _ _); [lia|vm_compute; reflexivity|lia]. }
  eapply (rtc_l _ _ (demo_h2, [(65664, 16); (65536, 112)])).
  { refine (hstep_alloc demo_h1 [(65536, 112)] 10 16 65680 demo_h2 _ _ _); [lia|vm_compute; reflexivity|lia]. }
  apply rtc_once. refine (hstep_dealloc demo_h2 [(65664, 16)] 65536 100 [] demo_h3 _).
  vm_compute. reflexivity.
Defined.

Lemma heap_allocations_disjoint_witness :
  exists free, heap_inv 65536 (65536 + HEAP_INIT_PAGES * 4096) demo_h3 [(65664, 16)] free.
Proof.
  destruct (heap_allocations_disjoint 65536 demo_h3 [(65664, 16)]) as (free & H & _).
  - lia.
  - reflexivity.
  - exact demo_heap_run.
  - exists free. exact H.
Defined.

Lemma free_list_stats_exact_witness :
  free_list_stats demo_h0 = Some (1, 2097152, 2097136).
Proof.
  rewrite (free_list_stats_exact 65536 (65536 + HEAP_INIT_PAGES * 4096) demo_h0 []
             [(65536, HEAP_INIT_PAGES * 4096 - 16)]).
  - reflexivity.
  - apply heap_init_inv; [lia|reflexivity].
  - reflexivity.
Defined.

Lemma unsplit_remainder_leaks_witness :
  exists h, rtc heap_step (heap_init 65536, []) (h, []) /\
    free_bytes h = Some (HEAP_INIT_PAGES * 4096 - 16 * 131069).
Proof.
  destruct (unsplit_remainder_leaks 65536 131069) as (h & H1 & _ & H2).
  - lia.
  - reflexivity.
  - lia.
  - exists h. split; [exact H1|exact H2].
Defined.
