(* ===== verification/Vmm.v ===== *)
(** * The page tables (kernel/src/vmm.rs)

    Four-level x86-64 page tables in physical memory. The words of physical
    memory are a finite map from byte addresses (multiples of 8) to 64-bit
    values, a word that is not in it being 0; tables are read and written
    through the kernel's direct map, which ends at [vm_window]. The operations
    run in a small monad over that memory, the frame allocator and the root
    table, and stop the way the code stops: no frame for a table, a huge-page
    entry on the way, an access beyond the direct map, or a failed assertion of
    the frame allocator.

    The proofs about these definitions are in VmmTree.v. The TLB
    ([invlpg], the shootdown interrupt) and the setting of EFER and CR3 have no
    counterpart in the model. *)

From S2P Require Import Prelude Pmm.

#[local] Open Scope Z_scope.

(** ** Addresses, flags and entries *)

Definition p4_idx (va : Z) : Z := Z.land (Z.shiftr va 39) 511.
Definition p3_idx (va : Z) : Z := Z.land (Z.shiftr va 30) 511.
Definition p2_idx (va : Z) : Z := Z.land (Z.shiftr va 21) 511.
Definition p1_idx (va : Z) : Z := Z.land (Z.shiftr va 12) 511.

Definition PF_PRESENT : Z := Z.shiftl 1 0.
Definition PF_WRITABLE : Z := Z.shiftl 1 1.
Definition PF_USER : Z := Z.shiftl 1 2.
Definition PF_NO_CACHE : Z := Z.shiftl 1 4.
Definition PF_MMIO_NOFREE : Z := Z.shiftl 1 9.
Definition PF_NX : Z := Z.shiftl 1 63.
Definition KERNEL_RW : Z := Z.lor (Z.lor PF_PRESENT PF_WRITABLE) PF_NX.
Definition KERNEL_RO : Z := Z.lor PF_PRESENT PF_NX.
Definition KERNEL_RWX : Z := Z.lor PF_PRESENT PF_WRITABLE.
Definition USER_RX : Z := Z.lor PF_PRESENT PF_USER.
Definition USER_RW : Z := Z.lor (Z.lor (Z.lor PF_PRESENT PF_WRITABLE) PF_USER) PF_NX.

Definition PHYS_ADDR_MASK : Z := 0x000FFFFFFFFFF000.

Definition pte_is_present (e : Z) : bool := negb (Z.land e 1 =? 0).
Definition pte_is_huge (e : Z) : bool := negb (Z.land e (Z.shiftl 1 7) =? 0).
Definition pte_set (phys flags : Z) : Z := Z.lor (Z.land phys PHYS_ADDR_MASK) flags.
Definition pte_address (e : Z) : Z := Z.land e PHYS_ADDR_MASK.
Definition pte_table (phys : Z) : Z := Z.lor phys 3.

Definition IDENTITY_MAP_LIMIT : Z := Z.shiftl 1 30.

(** ** Memory and the monad *)

Abbreviation Mem := (gmap Z Z) (only parsing).

Definition word (m : Mem) (t i : Z) : Z := default 0 (m !! (t + 8 * i)).
Definition put_word (t i v : Z) (m : Mem) : Mem := <[t + 8 * i := v]> m.

(** [write_bytes(table, 0, 4096)] *)
Definition zero_frame (t : Z) (m : Mem) : Mem := foldr (fun i => put_word t i 0) m (seqZ 0 512).

(** Why an operation does not return. *)
Inductive VmStop : Type :=
| OutOfMemory
| HugePage
| PageFault
| BadFree.

Record Vm : Type := mkVm {
  vm_mem : Mem;
  vm_pmm : Pmm;
  vm_pml4 : Z;
  vm_window : Z
}.

Definition with_mem (m : Mem) (s : Vm) : Vm := mkVm m (vm_pmm s) (vm_pml4 s) (vm_window s).
Definition with_pmm (p : Pmm) (s : Vm) : Vm := mkVm (vm_mem s) p (vm_pml4 s) (vm_window s).

Definition MM (A : Type) : Type := Vm -> result (A * Vm) VmStop.

#[export] Instance mm_ret : MRet MM := fun A a s => Ok (a, s).
#[export] Instance mm_bind : MBind MM := fun A B k m s =>
  match m s with
  | Ok (a, s') => k a s'
  | Err e => Err e
  end.

Definition stop {A} (e : VmStop) : MM A := fun _ => Err e.

Definition load_entry (t i : Z) : MM Z := fun s =>
  if t <? vm_window s then Ok (word (vm_mem s) t i, s) else Err PageFault.

Definition store_entry (t i v : Z) : MM unit := fun s =>
  if t <? vm_window s then Ok (tt, with_mem (put_word t i v (vm_mem s)) s) else Err PageFault.

Definition free_frame_mm (f : Z) : MM unit := fun s =>
  match free_frame (vm_pmm s) f with
  | Some p => Ok (tt, with_pmm p s)
  | None => Err BadFree
  end.

(** A [for] loop over a range of indices. *)
Fixpoint for_each_idx (l : list Z) (body : Z -> MM unit) : MM unit :=
  match l with
  | [] => mret tt
  | i :: l' => body i ≫= fun _ => for_each_idx l' body
  end.

(** ** Table walks *)

Definition alloc_table : MM Z := fun s =>
  match alloc_frame (vm_pmm s) with
  | None => Err OutOfMemory
  | Some (frame, p) =>
      if frame <? vm_window s
      then Ok (frame, with_mem (zero_frame frame (vm_mem s)) (with_pmm p s))
      else Err PageFault
  end.

(** The [descend!] macro of [walk_or_create]. *)
Definition descend_create (user : bool) (parent idx : Z) : MM Z :=
  entry0 ← load_entry parent idx;
  entry1 ← (if pte_is_present entry0 then mret entry0
            else frame ← alloc_table;
                 _ ← store_entry parent idx (pte_table frame);
                 mret (pte_table frame));
  entry2 ← (if user then
              _ ← store_entry parent idx (Z.lor entry1 (Z.shiftl 1 2));
              mret (Z.lor entry1 (Z.shiftl 1 2))
            else mret entry1);
  if pte_is_huge entry2 then stop HugePage else mret (pte_address entry2).

(** The leaf entry, as the P1 table and the index in it. *)
Definition walk_or_create (pml4 virt : Z) (user : bool) : MM (Z * Z) :=
  p3 ← descend_create user pml4 (p4_idx virt);
  p2 ← descend_create user p3 (p3_idx virt);
  p1 ← descend_create user p2 (p2_idx virt);
  mret (p1, p1_idx virt).

(** The [descend!] macro of [walk_existing], with the rest of the walk. *)
Definition descend_existing {A} (parent idx : Z) (k : Z -> MM (option A)) : MM (option A) :=
  entry ← load_entry parent idx;
  if pte_is_present entry then k (pte_address entry) else mret None.

Definition walk_existing (pml4 virt : Z) : MM (option (Z * Z)) :=
  descend_existing pml4 (p4_idx virt) (fun p3 =>
  descend_existing p3 (p3_idx virt) (fun p2 =>
  descend_existing p2 (p2_idx virt) (fun p1 => mret (Some (p1, p1_idx virt))))).

(** ** Mapping *)

Definition map_page_in (pml4 virt phys flags : Z) : MM unit :=
  let user := negb (Z.land flags (Z.shiftl 1 2) =? 0) in
  '(p1, i) ← walk_or_create pml4 virt user;
  store_entry p1 i (pte_set phys flags).

Definition query_page_in (pml4 virt : Z) : MM (option Z) :=
  w ← walk_existing pml4 virt;
  match w with
  | None => mret None
  | Some (p1, i) =>
      entry ← load_entry p1 i;
      mret (if pte_is_present entry then Some (pte_address entry) else None)
  end.

Definition update_page_flags_in (pml4 virt flags : Z) : MM unit :=
  w ← walk_existing pml4 virt;
  match w with
  | None => mret tt
  | Some (p1, i) =>
      entry ← load_entry p1 i;
      if pte_is_present entry then store_entry p1 i (pte_set (pte_address entry) flags) else mret tt
  end.

Definition unmap_page_in (pml4 virt : Z) : MM (option Z) :=
  w ← walk_existing pml4 virt;
  match w with
  | None => mret None
  | Some (p1, i) =>
      entry ← load_entry p1 i;
      if negb (pte_is_present entry) then mret None
      else _ ← store_entry p1 i 0; mret (Some (pte_address entry))
  end.

Definition kernel_pml4 (s : Vm) : Z := vm_pml4 s.

Definition root : MM Z := fun s => Ok (kernel_pml4 s, s).

Definition map_page (virt phys flags : Z) : MM unit :=
  pml4 ← root;
  let user := negb (Z.land flags (Z.shiftl 1 2) =? 0) in
  '(p1, i) ← walk_or_create pml4 virt user;
  store_entry p1 i (pte_set phys flags).

Definition query_page (virt : Z) : MM (option Z) := pml4 ← root; query_page_in pml4 virt.

Definition update_page_flags (virt flags : Z) : MM unit :=
  pml4 ← root; update_page_flags_in pml4 virt flags.

Definition unmap_page (virt : Z) : MM unit :=
  pml4 ← root;
  w ← walk_existing pml4 virt;
  match w with
  | None => mret tt
  | Some (p1, i) => store_entry p1 i 0
  end.

(** ** User address spaces *)

Definition identity_pd : MM Z :=
  pml4 ← root;
  e4 ← load_entry pml4 0;
  e3 ← load_entry (pte_address e4) 0;
  mret (pte_address e3).

Definition create_user_page_table : MM Z :=
  kern_p4 ← root;
  p2_phys ← identity_pd;
  user_p3_phys ← alloc_table;
  _ ← store_entry user_p3_phys 0 (pte_table p2_phys);
  new_pml4_phys ← alloc_table;
  _ ← store_entry new_pml4_phys 0 (Z.lor user_p3_phys 7);
  _ ← for_each_idx (seqZ 256 256) (fun i =>
        e ← load_entry kern_p4 i; store_entry new_pml4_phys i e);
  mret new_pml4_phys.

(** The loop over a P1 table. *)
Definition free_p1 (p1_phys : Z) : MM unit :=
  for_each_idx (seqZ 0 512) (fun l =>
    p1e ← load_entry p1_phys l;
    if pte_is_present p1e && (Z.land p1e PF_MMIO_NOFREE =? 0)
    then free_frame_mm (pte_address p1e) else mret tt).

(** The loop over a P2 table. *)
Definition free_p2 (p2_phys : Z) : MM unit :=
  for_each_idx (seqZ 0 512) (fun k =>
    p2e ← load_entry p2_phys k;
    if negb (pte_is_present p2e) then mret tt
    else if pte_is_huge p2e then
      if Z.land p2e PF_MMIO_NOFREE =? 0 then free_frame_mm (pte_address p2e) else mret tt
    else
      _ ← free_p1 (pte_address p2e);
      free_frame_mm (pte_address p2e)).

(** The loop over a P3 table. *)
Definition free_p3 (shared_p2 p3_phys : Z) : MM unit :=
  for_each_idx (seqZ 0 512) (fun j =>
    p3e ← load_entry p3_phys j;
    if negb (pte_is_present p3e) then mret tt
    else if pte_address p3e =? shared_p2 then mret tt
    else
      _ ← free_p2 (pte_address p3e);
      free_frame_mm (pte_address p3e)).

Definition free_user_page_table (pml4 : Z) : MM unit :=
  shared_p2 ← identity_pd;
  _ ← for_each_idx (seqZ 0 256) (fun i =>
        p4e ← load_entry pml4 i;
        if negb (pte_is_present p4e) then mret tt
        else
          _ ← free_p3 shared_p2 (pte_address p4e);
          free_frame_mm (pte_address p4e));
  free_frame_mm pml4.

(** ** Initialisation *)

(** [while pa < end { map_page(va, pa, KERNEL_RWX); .. }]; one round per page
    of the kernel image. *)
Definition map_kernel (phys_base virt_base phys_end_aligned : Z) : MM unit :=
  for_each_idx (seqZ 0 ((phys_end_aligned - phys_base + FRAME_SIZE - 1) / FRAME_SIZE)) (fun n =>
    map_page (wrap 64 (virt_base + n * FRAME_SIZE)) (phys_base + n * FRAME_SIZE) KERNEL_RWX).

Definition set_root (pml4 : Z) : MM unit := fun s =>
  Ok (tt, mkVm (vm_mem s) (vm_pmm s) pml4 (vm_window s)).

(** Loading CR3 leaves the aliases of the first GiB as the only direct map. *)
Definition load_cr3 : MM unit := fun s =>
  Ok (tt, mkVm (vm_mem s) (vm_pmm s) (vm_pml4 s) IDENTITY_MAP_LIMIT).

(** Steps 2 and 3: the root table and the identity map. *)
Definition init_identity : MM Z :=
  pml4_phys ← alloc_table;
  _ ← set_root pml4_phys;
  p3_phys ← alloc_table;
  p2_phys ← alloc_table;
  _ ← store_entry pml4_phys 0 (pte_table p3_phys);
  _ ← store_entry p3_phys 0 (pte_table p2_phys);
  _ ← for_each_idx (seqZ 0 (IDENTITY_MAP_LIMIT / (2 * 1024 * 1024))) (fun i =>
        store_entry p2_phys i (Z.lor (i * (2 * 1024 * 1024)) 0x83));
  mret p2_phys.

(** Step 3.5: the alias of the identity map at the HHDM offset. *)
Definition init_hhdm (p2_phys hhdm_off : Z) : MM unit :=
  let hhdm_p4_idx := Z.land (Z.shiftr hhdm_off 39) 511 in
  if negb (hhdm_p4_idx =? 0) then
    hhdm_p3_phys ← alloc_table;
    _ ← store_entry hhdm_p3_phys 0 (pte_table p2_phys);
    pml4_phys ← root;
    store_entry pml4_phys hhdm_p4_idx (pte_table hhdm_p3_phys)
  else mret tt.

Definition init (kernel_phys_base kernel_virt_base kernel_phys_end hhdm_off : Z) : MM unit :=
  p2_phys ← init_identity;
  _ ← init_hhdm p2_phys hhdm_off;
  let kernel_phys_end_aligned := Z.land (wrap 64 (kernel_phys_end + FRAME_SIZE - 1)) (not_u 64 (FRAME_SIZE - 1)) in
  _ ← map_kernel kernel_phys_base kernel_virt_base kernel_phys_end_aligned;
  load_cr3.
