(* ===== verification/VmmTree.v ===== *)
(** * Page tables as trees (kernel/src/vmm.rs)

    A page table is read here as a tree of frames. [owned] lists the frames of
    the tree below a table, in the order [free_user_page_table] releases them;
    [entry_at] is the word a path of indices leads to, 0 where a table on the
    path is missing. A table walk that creates what is missing changes no
    [entry_at] ([create_spec]); the store that follows it changes exactly one
    ([put_leaf]). VmmSpaces.v applies this to the calls of the kernel. *)

From S2P Require Import Prelude Pmm Vmm.

#[local] Open Scope Z_scope.

(** ** Entries *)

Definition aligned (f : Z) : Prop := f mod 4096 = 0.

Lemma mask_bit i : 0 <= i -> Z.testbit PHYS_ADDR_MASK i = (12 <=? i) && (i <? 52).
Proof.
  intros Hi. change PHYS_ADDR_MASK with (Z.shiftl (Z.ones 40) 12).
  rewrite Z.shiftl_spec by done. destruct (Z.leb_spec 12 i); cbn [andb].
  - rewrite Z.testbit_ones_nonneg by lia. destruct (Z.ltb_spec (i - 12) 40), (Z.ltb_spec i 52); lia || done.
  - apply Z.testbit_neg_r. lia.
Qed.

Lemma address_bit e i : 0 <= i -> Z.testbit (pte_address e) i = Z.testbit e i && (12 <=? i) && (i <? 52).
Proof. intros Hi. unfold pte_address. by rewrite Z.land_spec, mask_bit, andb_assoc. Qed.

Lemma present_bit e : pte_is_present e = Z.testbit e 0.
Proof. exact (land_frame_bit e 0). Qed.

Lemma huge_bit e : pte_is_huge e = Z.testbit e 7.
Proof. exact (land_frame_bit e 7). Qed.

Lemma aligned_bit f i : aligned f -> 0 <= i < 12 -> Z.testbit f i = false.
Proof.
  intros Hf Hi. rewrite <- (Z.mod_pow2_bits_low f 12 i) by lia.
  change (2 ^ 12) with 4096. rewrite Hf. apply Z.bits_0.
Qed.

Lemma address_aligned e : aligned (pte_address e).
Proof.
  unfold aligned. apply Z.bits_inj'. intros i Hi. rewrite Z.bits_0. change 4096 with (2 ^ 12).
  destruct (decide (i < 12)).
  - rewrite Z.mod_pow2_bits_low, address_bit by lia. destruct (Z.leb_spec 12 i); [lia|].
    by rewrite andb_false_r.
  - apply Z.mod_pow2_bits_high. lia.
Qed.

Lemma address_nonneg e : 0 <= pte_address e.
Proof. unfold pte_address. apply Z.land_nonneg. right. done. Qed.

Lemma address_lor f flags :
  aligned f -> 0 <= f < 2 ^ 52 -> Z.land flags PHYS_ADDR_MASK = 0 -> pte_address (Z.lor f flags) = f.
Proof.
  intros Hf Hr Hfl. unfold pte_address. rewrite Z.land_lor_distr_l, Hfl, Z.lor_0_r.
  apply Z.bits_inj'. intros i Hi. rewrite Z.land_spec, mask_bit by done.
  destruct (Z.leb_spec 12 i); cycle 1.
  { rewrite andb_false_r. by rewrite (aligned_bit f i) by (done || lia). }
  destruct (Z.ltb_spec i 52); [by rewrite andb_true_r|].
  destruct (decide (f = 0)) as [->|]; [by rewrite Z.bits_0|]. rewrite Z.bits_above_log2, andb_false_r; [done|lia|].
  apply Z.log2_lt_pow2; [lia|]. apply Z.lt_le_trans with (2 ^ 52); [lia|]. apply Z.pow_le_mono_r; lia.
Qed.

Lemma low_bit f flags i : aligned f -> 0 <= i < 12 -> Z.testbit (Z.lor f flags) i = Z.testbit flags i.
Proof. intros Hf Hi. by rewrite Z.lor_spec, (aligned_bit f i). Qed.

(** What a store of the U/S bit keeps. *)
Lemma lor_user e :
  pte_is_present (Z.lor e (Z.shiftl 1 2)) = pte_is_present e /\
  pte_is_huge (Z.lor e (Z.shiftl 1 2)) = pte_is_huge e /\
  pte_address (Z.lor e (Z.shiftl 1 2)) = pte_address e.
Proof.
  rewrite !present_bit, !huge_bit, !testbit_set by lia. do 2 (split; [done|]).
  apply Z.bits_inj'. intros i Hi. rewrite !address_bit, testbit_set by lia.
  destruct (Z.eqb_spec i 2) as [->|]; [|done]. cbn. by rewrite andb_false_r.
Qed.

Definition frame_addr (f : Z) : Prop := exists k, f = k * FRAME_SIZE /\ 0 <= k < MAX_FRAMES.

Lemma frame_addr_range f : frame_addr f -> aligned f /\ 0 <= f < 2 ^ 52.
Proof.
  intros (k & -> & Hk). change MAX_FRAMES with 1048576 in Hk. change FRAME_SIZE with 4096.
  split; [apply Z.mod_mul; lia|]. lia.
Qed.

Lemma table_entry f : frame_addr f ->
  pte_is_present (pte_table f) = true /\ pte_is_huge (pte_table f) = false /\ pte_address (pte_table f) = f.
Proof.
  intros [Ha Hr]%frame_addr_range. unfold pte_table.
  rewrite present_bit, huge_bit, !low_bit by (done || lia). do 2 (split; [done|]).
  by apply address_lor.
Qed.

(** The entry of a fresh page: the frame and flags outside the address bits. *)
Lemma page_entry_bits f flags : frame_addr f -> Z.land flags PHYS_ADDR_MASK = 0 ->
  pte_set f flags = Z.lor f flags /\ pte_address (pte_set f flags) = f /\
  forall i, 0 <= i < 12 -> Z.testbit (pte_set f flags) i = Z.testbit flags i.
Proof.
  intros [Ha Hr]%frame_addr_range Hfl.
  assert (Z.land f PHYS_ADDR_MASK = f) as Hf.
  { pose proof (address_lor f 0 Ha Hr eq_refl) as H. by rewrite Z.lor_0_r in H. }
  unfold pte_set. rewrite Hf. split; [done|]. split; [by apply address_lor|]. intros i Hi. by apply low_bit.
Qed.

(** ** Words *)

Definition idx (i : Z) : Prop := 0 <= i < 512.

Lemma word_addr_inj f g i j : aligned f -> aligned g -> idx i -> idx j ->
  f + 8 * i = g + 8 * j -> f = g /\ i = j.
Proof.
  unfold aligned, idx. intros Hf Hg Hi Hj He.
  pose proof (Z.div_mod f 4096). pose proof (Z.div_mod g 4096). lia.
Qed.

Lemma word_put m f g i j v : aligned f -> aligned g -> idx i -> idx j ->
  word (put_word f i v m) g j = if decide (f = g /\ i = j) then v else word m g j.
Proof.
  intros Hf Hg Hi Hj. unfold word, put_word. case_decide as Hd.
  - destruct Hd as [-> ->]. by rewrite lookup_insert_eq.
  - rewrite lookup_insert_ne; [done|]. intros He. apply Hd. by apply word_addr_inj.
Qed.

Lemma word_zero m f g j : aligned f -> aligned g -> idx j ->
  word (zero_frame f m) g j = if decide (f = g) then 0 else word m g j.
Proof.
  intros Hf Hg Hj. unfold zero_frame.
  assert (forall l, Forall idx l -> word (foldr (fun i => put_word f i 0) m l) g j
            = if decide (f = g /\ j ∈ l) then 0 else word m g j) as H.
  { induction l as [|i l IH]; intros Hl; cbn [foldr].
    - case_decide as Hd; [|done]. destruct Hd as [_ Hd]. by apply elem_of_nil in Hd.
    - apply Forall_cons in Hl as [Hi Hl]. rewrite word_put, IH by done.
      repeat case_decide; set_solver. }
  rewrite H by (apply Forall_forall; intros i Hi%elem_of_seqZ; unfold idx; lia).
  assert (j ∈ seqZ 0 512) by (apply elem_of_seqZ; unfold idx in Hj; lia).
  repeat case_decide; naive_solver.
Qed.

#[global] Opaque zero_frame.

Lemma bind_nil_in {A B} (f : A -> list B) (l : list A) : (forall x, x ∈ l -> f x = []) -> l ≫= f = [].
Proof. induction l as [|x l IH]; intros Hf; [done|]. rewrite bind_cons, Hf, IH by set_solver. done. Qed.

Definition all_idx : list Z := seqZ 0 512.

Lemma all_idx_eq : all_idx = seqZ 0 512.
Proof. done. Qed.

Lemma elem_of_all_idx i : i ∈ all_idx <-> idx i.
Proof. unfold all_idx, idx. rewrite elem_of_seqZ. lia. Qed.

Lemma all_idx_nodup : NoDup all_idx.
Proof. apply NoDup_seqZ. Qed.

#[global] Opaque all_idx.

Lemma bind_ext_in {A B} (f g : A -> list B) (l : list A) :
  (forall x, x ∈ l -> f x = g x) -> l ≫= f = l ≫= g.
Proof.
  induction l as [|x l IH]; intros H; [done|]. rewrite !bind_cons, H, IH by set_solver. done.
Qed.

(** ** Frames of the allocator *)

Definition used (p : Pmm) (f : Z) : Prop :=
  exists k, f = k * FRAME_SIZE /\ 0 <= k < MAX_FRAMES /\ is_used (pm_bitmap p) k = true.
Definition free (p : Pmm) (f : Z) : Prop :=
  exists k, f = k * FRAME_SIZE /\ 0 <= k < MAX_FRAMES /\ is_used (pm_bitmap p) k = false.

Lemma used_frame p f : used p f -> frame_addr f.
Proof. intros (k & ? & ? & _). by exists k. Qed.

Lemma free_frame_addr p f : free p f -> frame_addr f.
Proof. intros (k & ? & ? & _). by exists k. Qed.

Lemma used_not_free p f : used p f -> ~ free p f.
Proof.
  intros (k & -> & _ & Hu) (k' & He & _ & Hf). change FRAME_SIZE with 4096 in He.
  assert (k = k') by lia. congruence.
Qed.

(** [p'] is [p] with the frames [new], which were free, taken. *)
Record takes (p : Pmm) (new : list Z) (p' : Pmm) : Prop := {
  tk_wf : pmm_wf p';
  tk_nodup : NoDup new;
  tk_free : forall f, f ∈ new -> free p f;
  tk_used : forall f, used p' f <-> used p f \/ f ∈ new;
  tk_left : forall f, free p' f <-> free p f /\ f ∉ new;
  tk_count : pm_free p' = pm_free p - Z.of_nat (length new)
}.

Lemma takes_nil p : pmm_wf p -> takes p [] p.
Proof. intros Hw. split; [done|constructor|set_solver|set_solver|set_solver|cbn; lia]. Qed.

Lemma takes_app p p1 p2 new1 new2 :
  takes p new1 p1 -> takes p1 new2 p2 -> takes p (new2 ++ new1) p2.
Proof.
  intros H1 H2. split.
  - apply H2.
  - apply NoDup_app. split; [apply H2|split; [|apply H1]]. intros f Hf.
    by apply (tk_free _ _ _ H2), (tk_left _ _ _ H1) in Hf as [_ ?].
  - intros f [Hf|Hf]%elem_of_app; [|by apply H1].
    by apply (tk_free _ _ _ H2), (tk_left _ _ _ H1) in Hf as [? _].
  - intros f. rewrite (tk_used _ _ _ H2), (tk_used _ _ _ H1). set_solver.
  - intros f. rewrite (tk_left _ _ _ H2), (tk_left _ _ _ H1). set_solver.
  - rewrite (tk_count _ _ _ H2), (tk_count _ _ _ H1), length_app. lia.
Qed.

Lemma alloc_frame_takes p : pmm_wf p ->
  match alloc_frame p with
  | Some (f, p') => takes p [f] p'
  | None => pm_free p = 0
  end.
Proof.
  intros Hw. pose proof (alloc_frame_spec p Hw) as Hs. destruct (alloc_frame p) as [ [f p']|]; [|by destruct Hs].
  destruct Hs as (k & -> & Hk & Hfree & _ & Hu & Hw' & Hc).
  assert (forall g, g * FRAME_SIZE = k * FRAME_SIZE <-> g = k) as Hinj by (change FRAME_SIZE with 4096; lia).
  assert (free p (k * FRAME_SIZE)) as Hf by by exists k.
  split.
  - done.
  - apply NoDup_singleton.
  - intros f Hf'. by apply list_elem_of_singleton in Hf' as ->.
  - intros f. rewrite list_elem_of_singleton. split.
    + intros (g & -> & Hg & Hug). rewrite Hu in Hug by lia. rewrite Hinj.
      destruct (Z.eqb_spec k g); [by right|left; by exists g].
    + intros [(g & -> & Hg & Hug)| ->]; [exists g|exists k]; (split; [done|split; [done|]]); rewrite Hu by lia.
      * by rewrite Hug, orb_true_r.
      * by rewrite Z.eqb_refl.
  - intros f. rewrite list_elem_of_singleton. split.
    + intros (g & -> & Hg & Hug). rewrite Hu in Hug by lia. apply orb_false_iff in Hug as [Hne Hug].
      apply Z.eqb_neq in Hne. split; [by exists g|]. rewrite Hinj. lia.
    + intros [(g & -> & Hg & Hug) Hne]. rewrite Hinj in Hne. exists g. do 2 (split; [done|]).
      rewrite Hu, Hug by lia. rewrite orb_false_r. apply Z.eqb_neq. lia.
  - cbn. lia.
Qed.

(** ** One level of a walk *)

(** Steps of the monad. *)
Lemma mm_bind_ok {A B} (x : MM A) (k : A -> MM B) s a s' :
  x s = Ok (a, s') -> (x ≫= k) s = k a s'.
Proof. intros H. unfold mbind, mm_bind. by rewrite H. Qed.

Lemma mm_bind_err {A B} (x : MM A) (k : A -> MM B) s e :
  x s = Err e -> (x ≫= k) s = Err e.
Proof. intros H. unfold mbind, mm_bind. by rewrite H. Qed.

Lemma load_entry_ok t i s : t < vm_window s -> load_entry t i s = Ok (word (vm_mem s) t i, s).
Proof. intros H. unfold load_entry. by rewrite (proj2 (Z.ltb_lt _ _) H). Qed.

Lemma store_entry_ok t i v s :
  t < vm_window s -> store_entry t i v s = Ok (tt, with_mem (put_word t i v (vm_mem s)) s).
Proof. intros H. unfold store_entry. by rewrite (proj2 (Z.ltb_lt _ _) H). Qed.

(** Frames an allocation for a table cannot use. *)
Definition beyond (s : Vm) : Prop := exists f, free (vm_pmm s) f /\ vm_window s <= f.

Lemma alloc_table_spec s : pmm_wf (vm_pmm s) ->
  match alloc_table s with
  | Ok (f, s') => takes (vm_pmm s) [f] (vm_pmm s') /\ f < vm_window s /\
      s' = with_mem (zero_frame f (vm_mem s)) (with_pmm (vm_pmm s') s)
  | Err OutOfMemory => pm_free (vm_pmm s) = 0
  | Err PageFault => beyond s
  | Err _ => False
  end.
Proof.
  intros Hw. unfold alloc_table. pose proof (alloc_frame_takes _ Hw) as Ht.
  destruct (alloc_frame _) as [ [f p']|]; [|done]. destruct (Z.ltb_spec f (vm_window s)); [done|].
  exists f. split; [apply Ht; set_solver|done].
Qed.

(** One level of [walk_or_create]: the entry leads to a table afterwards,
    which is the old one or a new, empty one, and no other word changed. *)
Record descends (t j : Z) (s : Vm) (t1 : Z) (s1 : Vm) (new : list Z) : Prop := {
  ds_takes : takes (vm_pmm s) new (vm_pmm s1);
  ds_root : vm_pml4 s1 = vm_pml4 s;
  ds_window : vm_window s1 = vm_window s;
  ds_present : pte_is_present (word (vm_mem s1) t j) = true;
  ds_huge : pte_is_huge (word (vm_mem s1) t j) = false;
  ds_address : pte_address (word (vm_mem s1) t j) = t1;
  ds_old : if pte_is_present (word (vm_mem s) t j)
           then new = [] /\ pte_address (word (vm_mem s) t j) = t1
           else new = [t1] /\ t1 < vm_window s /\ forall i, idx i -> word (vm_mem s1) t1 i = 0;
  ds_words : forall f i, aligned f -> idx i -> f ∉ new -> ~ (f = t /\ i = j) ->
    word (vm_mem s1) f i = word (vm_mem s) f i
}.

Definition stops (n : Z) (s : Vm) (e : VmStop) : Prop :=
  match e with
  | OutOfMemory => pm_free (vm_pmm s) < n
  | PageFault => beyond s
  | _ => False
  end.

(** The part of [descend_create] that follows the choice of the entry. *)
Definition descend_tail (user : bool) (parent j entry1 : Z) : MM Z :=
  entry2 ← (if user then
              _ ← store_entry parent j (Z.lor entry1 (Z.shiftl 1 2));
              mret (Z.lor entry1 (Z.shiftl 1 2))
            else mret entry1);
  if pte_is_huge entry2 then stop HugePage else mret (pte_address entry2).

Lemma descend_tail_spec user t j s : aligned t -> idx j -> t < vm_window s ->
  pte_is_huge (word (vm_mem s) t j) = false ->
  exists e2, descend_tail user t j (word (vm_mem s) t j) s
    = Ok (pte_address e2, with_mem (if user then put_word t j e2 (vm_mem s) else vm_mem s) s) /\
    (user = false -> e2 = word (vm_mem s) t j) /\
    pte_is_present e2 = pte_is_present (word (vm_mem s) t j) /\ pte_is_huge e2 = false /\
    pte_address e2 = pte_address (word (vm_mem s) t j).
Proof.
  intros Ha Hj Ht Hh. unfold descend_tail. destruct user.
  - exists (Z.lor (word (vm_mem s) t j) (Z.shiftl 1 2)).
    destruct (lor_user (word (vm_mem s) t j)) as (-> & -> & He).
    erewrite mm_bind_ok by exact (mm_bind_ok _ _ _ _ _ (store_entry_ok t j _ s Ht)).
    cbn beta. rewrite (proj1 (proj2 (lor_user _))), Hh. done.
  - exists (word (vm_mem s) t j). erewrite mm_bind_ok by reflexivity. cbn beta. rewrite Hh. by destruct s.
Qed.

Lemma descend_create_present user t j s :
  pte_is_present (word (vm_mem s) t j) = true -> t < vm_window s ->
  descend_create user t j s = descend_tail user t j (word (vm_mem s) t j) s.
Proof.
  intros Hp Ht. unfold descend_create. erewrite mm_bind_ok by by apply load_entry_ok. cbn beta.
  rewrite Hp. erewrite mm_bind_ok by reflexivity. done.
Qed.

Lemma descend_create_absent user t j s f s1 :
  pte_is_present (word (vm_mem s) t j) = false -> t < vm_window s ->
  alloc_table s = Ok (f, s1) -> vm_window s1 = vm_window s ->
  descend_create user t j s
  = descend_tail user t j (pte_table f) (with_mem (put_word t j (pte_table f) (vm_mem s1)) s1).
Proof.
  intros Hp Ht Ef Hw. unfold descend_create. erewrite mm_bind_ok by by apply load_entry_ok. cbn beta.
  rewrite Hp. erewrite mm_bind_ok; [reflexivity|]. erewrite mm_bind_ok by exact Ef.
  erewrite mm_bind_ok; [reflexivity|]. apply store_entry_ok. lia.
Qed.

Lemma descend_create_old user t j s :
  pmm_wf (vm_pmm s) -> aligned t -> idx j -> t < vm_window s ->
  pte_is_present (word (vm_mem s) t j) = true -> pte_is_huge (word (vm_mem s) t j) = false ->
  exists s1, descend_create user t j s = Ok (pte_address (word (vm_mem s) t j), s1) /\
    descends t j s (pte_address (word (vm_mem s) t j)) s1 [].
Proof.
  intros Hw Ha Hj Ht Hp Hh. rewrite descend_create_present by done.
  destruct (descend_tail_spec user t j s Ha Hj Ht Hh) as (e2 & -> & He & Hp2 & Hh2 & Ha2).
  rewrite Hp in Hp2. rewrite Ha2. eexists. split; [done|].
  split; cbn [with_mem vm_mem vm_pmm vm_pml4 vm_window]; [by apply takes_nil|done|done|..].
  1-3: destruct user; [|by rewrite ?He in *]; rewrite word_put, decide_True by done; congruence.
  - by rewrite Hp.
  - intros f i Hf Hi _ Hne. destruct user; [|done]. rewrite word_put by done. rewrite decide_False; [done|].
    intros [-> ->]. by apply Hne.
Qed.

Lemma descend_create_new user t j s f s1 :
  frame_addr t -> ~ free (vm_pmm s) t -> idx j -> t < vm_window s ->
  pte_is_present (word (vm_mem s) t j) = false ->
  alloc_table s = Ok (f, s1) -> takes (vm_pmm s) [f] (vm_pmm s1) -> f < vm_window s ->
  s1 = with_mem (zero_frame f (vm_mem s)) (with_pmm (vm_pmm s1) s) ->
  exists s2, descend_create user t j s = Ok (f, s2) /\ descends t j s f s2 [f].
Proof.
  intros Hfa Hnf Hj Ht Hp Ef Htk Hfw Es1. assert (free (vm_pmm s) f) as Hff by (apply Htk; set_solver).
  assert (f <> t) as Hft by congruence. pose proof (free_frame_addr _ _ Hff) as Hffa.
  destruct (table_entry f Hffa) as (Hpf & Hhf & Haf). destruct (frame_addr_range f Hffa) as [Hfal _].
  destruct (frame_addr_range t Hfa) as [Ha _].
  rewrite (descend_create_absent user t j s f s1) by (done || by rewrite Es1).
  set (s2 := with_mem _ s1).
  assert (word (vm_mem s2) t j = pte_table f) as Hw2 by (cbn; by rewrite word_put, decide_True by done).
  destruct (descend_tail_spec user t j s2 Ha Hj) as (e2 & E2 & He & Hp2 & Hh2 & Ha2);
    [by subst s2; rewrite Es1|by rewrite Hw2|].
  rewrite Hw2 in *. rewrite E2, Ha2, Haf. eexists. split; [done|].
  set (m' := if user then _ else _).
  assert (word m' t j = e2) as Hwe.
  { subst m'. destruct user; [by rewrite word_put, decide_True by done|]. by rewrite He, Hw2. }
  assert (forall g i, aligned g -> idx i -> ~ (g = t /\ i = j) -> word m' g i = word (vm_mem s1) g i) as Hwo.
  { intros g i Hg Hi Hne. subst m' s2. destruct user; cbn; rewrite !word_put by done; rewrite !decide_False; naive_solver. }
  split; cbn [with_mem vm_mem vm_pmm vm_pml4 vm_window].
  - done.
  - subst s2. by rewrite Es1.
  - subst s2. by rewrite Es1.
  - by rewrite Hwe, Hp2.
  - by rewrite Hwe.
  - by rewrite Hwe, Ha2.
  - rewrite Hp. do 2 (split; [done|]). intros i Hi.
    rewrite Hwo by naive_solver. rewrite Es1. cbn. by rewrite word_zero, decide_True by done.
  - intros g i Hg Hi Hn Hne. rewrite Hwo by done. rewrite Es1. cbn. rewrite word_zero by done.
    rewrite decide_False; [done|set_solver].
Qed.

Lemma descend_create_spec user t j s :
  pmm_wf (vm_pmm s) -> frame_addr t -> ~ free (vm_pmm s) t -> idx j -> t < vm_window s ->
  (pte_is_present (word (vm_mem s) t j) = true -> pte_is_huge (word (vm_mem s) t j) = false) ->
  match descend_create user t j s with
  | Ok (t1, s1) => exists new, descends t j s t1 s1 new
  | Err e => stops 1 s e
  end.
Proof.
  intros Hw Hfa Hnf Hj Ht Hh. destruct (frame_addr_range t Hfa) as [Ha _].
  destruct (pte_is_present (word (vm_mem s) t j)) eqn:Hp.
  - destruct (descend_create_old user t j s) as (s1 & -> & Hd); eauto.
  - pose proof (alloc_table_spec s Hw) as Hat. destruct (alloc_table s) as [ [f s1]|e] eqn:Ef.
    + destruct Hat as (Htk & Hfw & Es1).
      destruct (descend_create_new user t j s f s1) as (s2 & -> & Hd); eauto.
    + unfold descend_create. erewrite mm_bind_ok by by apply load_entry_ok. cbn beta. rewrite Hp.
      erewrite mm_bind_err; [|erewrite mm_bind_err; [reflexivity|exact Ef] ]. destruct e; cbn; lia || done.
Qed.

(** ** Trees

    [allowed path] are the indices of the table at [path] that belong to the
    tree; the other entries of that table lead elsewhere. A table has [n]
    levels of tables below it; the tables of level 0 hold the leaf entries. *)

Definition leaf_frame (e : Z) : list Z :=
  if pte_is_present e && (Z.land e PF_MMIO_NOFREE =? 0) then [pte_address e] else [].

(** The word at the end of a path of indices. *)
Fixpoint entry_at (m : Mem) (t : Z) (js : list Z) : Z :=
  match js with
  | [] => 0
  | [j] => word m t j
  | j :: r => if pte_is_present (word m t j) then entry_at m (pte_address (word m t j)) r else 0
  end.

(** The table and index of that word, where every table on the path exists. *)
Fixpoint slot_at (m : Mem) (t : Z) (js : list Z) : option (Z * Z) :=
  match js with
  | [] => None
  | [j] => Some (t, j)
  | j :: r => if pte_is_present (word m t j) then slot_at m (pte_address (word m t j)) r else None
  end.

Section tree.
Variable allowed : list Z -> list Z.
Hypothesis allowed_nodup : forall path, NoDup (allowed path).
Hypothesis allowed_idx : forall path i, i ∈ allowed path -> idx i.

Fixpoint owned (n : nat) (path : list Z) (m : Mem) (t : Z) : list Z :=
  match n with
  | O => all_idx ≫= fun i => leaf_frame (word m t i)
  | S n' => allowed path ≫= fun i =>
      if pte_is_present (word m t i)
      then owned n' (path ++ [i]) m (pte_address (word m t i)) ++ [pte_address (word m t i)]
      else []
  end.

(** No entry of the tree is a huge page, and every table can be reached
    through the direct map. *)
Fixpoint shape (n : nat) (path : list Z) (w : Z) (m : Mem) (t : Z) : Prop :=
  t < w /\
  match n with
  | O => True
  | S n' => forall i, i ∈ allowed path -> pte_is_present (word m t i) = true ->
      pte_is_huge (word m t i) = false /\ shape n' (path ++ [i]) w m (pte_address (word m t i))
  end.

(** The paths into the tree that end in a leaf entry or in an entry that is
    not of the tree. *)
Fixpoint zone (n : nat) (path : list Z) (js : list Z) : Prop :=
  match n with
  | O => exists j, js = [j] /\ idx j
  | S n' => (exists j, js = [j] /\ idx j /\ j ∉ allowed path) \/
      (exists j r, js = j :: r /\ j ∈ allowed path /\ zone n' (path ++ [j]) r)
  end.

(** The paths to leaf entries. *)
Fixpoint leaf_path (n : nat) (path : list Z) (js : list Z) : Prop :=
  match n with
  | O => exists j, js = [j] /\ idx j
  | S n' => exists j r, js = j :: r /\ j ∈ allowed path /\ leaf_path n' (path ++ [j]) r
  end.

Lemma leaf_path_zone n : forall path js, leaf_path n path js -> zone n path js.
Proof. induction n; cbn; naive_solver. Qed.

Lemma zone_cons n path js : zone n path js -> exists j r, js = j :: r /\ idx j.
Proof.
  destruct n; cbn; [naive_solver|]. intros [(j & -> & Hj & _)|(j & r & -> & Hj & _)]; [by exists j, []|].
  exists j, r. split; [done|]. by eapply allowed_idx.
Qed.

Lemma entry_at_cons m t j r : r <> [] ->
  entry_at m t (j :: r) = if pte_is_present (word m t j) then entry_at m (pte_address (word m t j)) r else 0.
Proof. by destruct r. Qed.

Lemma slot_at_cons m t j r : r <> [] ->
  slot_at m t (j :: r) = if pte_is_present (word m t j) then slot_at m (pte_address (word m t j)) r else None.
Proof. by destruct r. Qed.

Lemma zone_nonempty n path js : zone n path js -> js <> [].
Proof. intros (j & r & -> & _)%zone_cons. done. Qed.

(** Two memories that agree on a list of frames. *)
Definition agree (fs : list Z) (m m' : Mem) : Prop :=
  forall f i, f ∈ fs -> idx i -> word m' f i = word m f i.

Lemma agree_incl fs gs m m' : (forall f, f ∈ gs -> f ∈ fs) -> agree fs m m' -> agree gs m m'.
Proof. intros Hi Ha f i Hf. apply Ha. by apply Hi. Qed.

(** The frames of child [i]. *)
Definition child (n : nat) (path : list Z) (m : Mem) (t i : Z) : list Z :=
  if pte_is_present (word m t i)
  then owned n (path ++ [i]) m (pte_address (word m t i)) ++ [pte_address (word m t i)]
  else [].

Lemma owned_0 path m t : owned 0 path m t = all_idx ≫= fun i => leaf_frame (word m t i).
Proof. done. Qed.

Lemma shape_S n path w m t i : shape (S n) path w m t -> i ∈ allowed path -> pte_is_present (word m t i) = true ->
  pte_is_huge (word m t i) = false /\ shape n (path ++ [i]) w m (pte_address (word m t i)).
Proof. intros [_ H]. apply H. Qed.

Lemma shape_S_intro n path w m t : t < w ->
  (forall i, i ∈ allowed path -> pte_is_present (word m t i) = true ->
     pte_is_huge (word m t i) = false /\ shape n (path ++ [i]) w m (pte_address (word m t i))) ->
  shape (S n) path w m t.
Proof. by split. Qed.

Lemma shape_window n path w m t : shape n path w m t -> t < w.
Proof. destruct n; by intros [? _]. Qed.

Lemma owned_S n path m t : owned (S n) path m t = allowed path ≫= child n path m t.
Proof. done. Qed.

Lemma elem_of_child n path m t i f : i ∈ allowed path -> f ∈ child n path m t i -> f ∈ owned (S n) path m t.
Proof. intros Hi Hf. rewrite owned_S. apply list_elem_of_bind. by exists i. Qed.

Lemma elem_of_child_sub n path m t i f : pte_is_present (word m t i) = true ->
  f ∈ pte_address (word m t i) :: owned n (path ++ [i]) m (pte_address (word m t i)) <->
  f ∈ child n path m t i.
Proof. intros Hp. unfold child. rewrite Hp. set_solver. Qed.

(** A tree depends on the words of its own frames only. *)
Lemma tree_agree n : forall path w m m' t,
  agree (t :: owned n path m t) m m' ->
  owned n path m' t = owned n path m t /\
  (shape n path w m t -> shape n path w m' t) /\
  (forall js, zone n path js -> entry_at m' t js = entry_at m t js /\ slot_at m' t js = slot_at m t js).
Proof.
  induction n as [|n IH]; intros path w m m' t Ha.
  - assert (forall i, idx i -> word m' t i = word m t i) as Hw by (intros i; apply Ha; set_solver).
    split; [|split; [done|]].
    + cbn [owned]. apply bind_ext_in. intros i Hi%elem_of_all_idx. by rewrite Hw.
    + intros js (j & -> & Hj). cbn. by rewrite Hw.
  - assert (forall i, idx i -> word m' t i = word m t i) as Hw by (intros i; apply Ha; set_solver).
    assert (forall i, i ∈ allowed path -> pte_is_present (word m t i) = true ->
      agree (pte_address (word m t i) :: owned n (path ++ [i]) m (pte_address (word m t i))) m m') as Hc.
    { intros i Hi Hp. eapply agree_incl; [|exact Ha]. intros f Hf. apply elem_of_cons. right.
      eapply elem_of_child; [exact Hi|]. by apply elem_of_child_sub. }
    split; [|split].
    + rewrite !owned_S. apply bind_ext_in. intros i Hi. unfold child.
      rewrite Hw by by eapply allowed_idx. destruct (pte_is_present _) eqn:Hp; [|done].
      destruct (IH (path ++ [i]) w m m' _ (Hc i Hi Hp)) as [-> _]. done.
    + intros [Ht Hs]. split; [done|]. intros i Hi. rewrite Hw by by eapply allowed_idx. intros Hp.
      destruct (Hs i Hi Hp) as [Hh Hsub]. split; [done|].
      by apply (IH (path ++ [i]) w m m' _ (Hc i Hi Hp)).
    + intros js [(j & -> & Hj & _)|(j & r & -> & Hj & Hr)]; [cbn [entry_at slot_at]; by rewrite Hw|].
      pose proof (zone_nonempty _ _ _ Hr). rewrite !entry_at_cons, !slot_at_cons, Hw by (done || by eapply allowed_idx).
      destruct (pte_is_present _) eqn:Hp; [|done].
      by apply (IH (path ++ [j]) w m m' _ (Hc j Hj Hp)).
Qed.

Lemma bind_pick (l : list Z) i : NoDup l -> i ∈ l ->
  exists l', (forall x, x ∈ l' <-> x ∈ l /\ x <> i) /\
    forall f : Z -> list Z, l ≫= f ≡ₚ f i ++ (l' ≫= f).
Proof.
  intros Hn (l1 & l2 & ->)%list_elem_of_split. exists (l1 ++ l2).
  apply NoDup_app in Hn as (_ & H1 & [H2 _]%NoDup_cons). split; [set_solver|].
  intros f. rewrite !bind_app, bind_cons. apply Permutation_app_swap_app.
Qed.

(** What changes in a table when one child of it changes. *)
Lemma child_change n path w m m' t i :
  i ∈ allowed path -> NoDup (t :: owned (S n) path m t) ->
  (forall j, idx j -> j <> i -> word m' t j = word m t j) ->
  (forall f j, f ∈ owned (S n) path m t -> f ∉ child n path m t i -> idx j -> word m' f j = word m f j) ->
  (exists rest, owned (S n) path m t ≡ₚ child n path m t i ++ rest /\
     owned (S n) path m' t ≡ₚ child n path m' t i ++ rest) /\
  (forall j r, zone (S n) path (j :: r) -> j <> i ->
     entry_at m' t (j :: r) = entry_at m t (j :: r) /\ slot_at m' t (j :: r) = slot_at m t (j :: r)) /\
  (shape (S n) path w m t ->
   (pte_is_present (word m' t i) = true -> pte_is_huge (word m' t i) = false /\
      shape n (path ++ [i]) w m' (pte_address (word m' t i))) ->
   shape (S n) path w m' t).
Proof.
  intros Hi Hnd Hw Hother.
  destruct (bind_pick _ i (allowed_nodup path) Hi) as (l' & Hl' & Hperm).
  assert (forall j f, j ∈ l' -> f ∈ child n path m t j -> f ∉ child n path m t i) as Hdis.
  { intros j f Hj Hf Hf'. apply NoDup_cons in Hnd as [_ Hnd]. rewrite owned_S, Hperm in Hnd.
    apply NoDup_app in Hnd as (_ & Hd & _). apply (Hd f Hf'). apply list_elem_of_bind. by exists j. }
  assert (forall j, j ∈ l' -> pte_is_present (word m t j) = true ->
    agree (pte_address (word m t j) :: owned n (path ++ [j]) m (pte_address (word m t j))) m m') as Hag.
  { intros j Hj Hp f k Hf. apply (elem_of_child_sub n path m t j f Hp) in Hf.
    apply Hother; [|by eapply Hdis]. eapply elem_of_child; [by apply Hl'|done]. }
  assert (forall j, j ∈ l' -> word m' t j = word m t j) as Hwj.
  { intros j [Hj Hne]%Hl'. apply Hw; [by eapply allowed_idx|done]. }
  split; [|split].
  - exists (l' ≫= child n path m t). split; [by rewrite owned_S, Hperm|].
    rewrite owned_S, Hperm. apply reflexive_eq. f_equal. apply bind_ext_in. intros j Hj. unfold child.
    rewrite Hwj by done. destruct (pte_is_present _) eqn:Hp; [|done].
    by destruct (tree_agree n (path ++ [j]) w m m' _ (Hag j Hj Hp)) as [-> _].
  - intros j r Hz Hne. destruct Hz as [(k & [= <- ->] & Hk & _)|(k & r' & [= <- <-] & Hk & Hz)].
    + cbn [entry_at slot_at]. by rewrite Hw.
    + assert (j ∈ l') as Hj by by apply Hl'. pose proof (zone_nonempty _ _ _ Hz).
      rewrite !entry_at_cons, !slot_at_cons, Hwj by done. destruct (pte_is_present _) eqn:Hp; [|done].
      by apply (tree_agree n (path ++ [j]) w m m' _ (Hag j Hj Hp)).
  - intros [Ht Hs] Hsi. split; [done|]. intros j Hj. destruct (decide (j = i)) as [->|Hne]; [done|].
    assert (j ∈ l') as Hj' by by apply Hl'. rewrite Hwj by done. intros Hp.
    destruct (Hs j Hj Hp) as [Hh Hsub]. split; [done|].
    by apply (tree_agree n (path ++ [j]) w m m' _ (Hag j Hj' Hp)).
Qed.

(** A zeroed frame is the empty table. *)
Lemma tree_zero n path w m t : (forall i, idx i -> word m t i = 0) ->
  owned n path m t = [] /\ (t < w -> shape n path w m t) /\
  (forall js, zone n path js -> entry_at m t js = 0).
Proof.
  intros Hz. destruct n as [|n].
  - split; [|split; [done|]].
    + cbn [owned]. apply bind_nil_in. intros i Hi%elem_of_all_idx. by rewrite Hz.
    + intros js (j & -> & Hj). by apply Hz.
  - split; [|split].
    + rewrite owned_S. apply bind_nil_in. intros i Hi. unfold child. by rewrite Hz by by eapply allowed_idx.
    + intros Ht. split; [done|]. intros i Hi. by rewrite Hz by by eapply allowed_idx.
    + intros js [(j & -> & Hj & _)|(j & r & -> & Hj & Hr)]; [by apply Hz|].
      rewrite entry_at_cons by by eapply zone_nonempty. by rewrite Hz by by eapply allowed_idx.
Qed.

(** ** Growing a tree *)

(** The walk as one recursion over the indices. *)
Fixpoint create (user : bool) (t : Z) (js : list Z) : MM (Z * Z) :=
  match js with
  | [] => stop PageFault
  | [j] => mret (t, j)
  | j :: r => t1 ← descend_create user t j; create user t1 r
  end.

(** The tree below [t] grew by the frames [new]: its entries say what they
    said, and no word outside it changed. *)
Record grown (n : nat) (path : list Z) (t : Z) (s s' : Vm) (new : list Z) : Prop := {
  gr_takes : takes (vm_pmm s) new (vm_pmm s');
  gr_root : vm_pml4 s' = vm_pml4 s;
  gr_window : vm_window s' = vm_window s;
  gr_owned : owned n path (vm_mem s') t ≡ₚ new ++ owned n path (vm_mem s) t;
  gr_shape : shape n path (vm_window s') (vm_mem s') t;
  gr_entry : forall js, zone n path js -> entry_at (vm_mem s') t js = entry_at (vm_mem s) t js;
  gr_words : forall f i, aligned f -> idx i -> f ∉ t :: owned n path (vm_mem s) t -> f ∉ new ->
    word (vm_mem s') f i = word (vm_mem s) f i
}.

(** A tree whose frames are in use and distinct. *)
Record tree (n : nat) (path : list Z) (s : Vm) (t : Z) : Prop := {
  tr_nodup : NoDup (t :: owned n path (vm_mem s) t);
  tr_used : forall f, f ∈ t :: owned n path (vm_mem s) t -> used (vm_pmm s) f;
  tr_shape : shape n path (vm_window s) (vm_mem s) t
}.

Lemma owned_sub n path m t j f : j ∈ allowed path -> pte_is_present (word m t j) = true ->
  f ∈ pte_address (word m t j) :: owned n (path ++ [j]) m (pte_address (word m t j)) ->
  f ∈ owned (S n) path m t.
Proof. intros Hj Hp Hf. eapply elem_of_child; [exact Hj|]. by apply elem_of_child_sub. Qed.

(** The subtree a walk enters, after the step to it. *)
Lemma descends_sub n path t j s t1 s1 new :
  tree (S n) path s t -> j ∈ allowed path -> descends t j s t1 s1 new ->
  tree n (path ++ [j]) s1 t1 /\
  child n path (vm_mem s) t j ++ new ≡ₚ owned n (path ++ [j]) (vm_mem s1) t1 ++ [t1] /\
  (forall r, zone n (path ++ [j]) r -> entry_at (vm_mem s1) t1 r = entry_at (vm_mem s) t (j :: r)).
Proof.
  intros [Hnd Hu [Ht Hs]] Hj Hd. pose proof (ds_old _ _ _ _ _ _ Hd) as Hold.
  destruct (pte_is_present (word (vm_mem s) t j)) eqn:Hp.
  - destruct Hold as [-> Ht1]. destruct (Hs j Hj Hp) as [_ Hsub]. rewrite Ht1 in Hsub.
    assert (forall f, f ∈ t1 :: owned n (path ++ [j]) (vm_mem s) t1 -> f ∈ owned (S n) path (vm_mem s) t) as Hin.
    { intros f. rewrite <- Ht1. by apply owned_sub. }
    assert (agree (t1 :: owned n (path ++ [j]) (vm_mem s) t1) (vm_mem s) (vm_mem s1)) as Hag.
    { intros f i Hf%Hin Hi. apply (ds_words _ _ _ _ _ _ Hd); [|done|set_solver|].
      - apply frame_addr_range, (used_frame (vm_pmm s)), Hu. set_solver.
      - intros [-> _]. apply NoDup_cons in Hnd as [? _]. done. }
    destruct (tree_agree n (path ++ [j]) (vm_window s) _ _ t1 Hag) as (Ho & Hsh & He).
    assert (child n path (vm_mem s) t j = owned n (path ++ [j]) (vm_mem s) t1 ++ [t1]) as Hc
      by (unfold child; by rewrite Hp, Ht1).
    split; [split|split].
    + rewrite Ho, Permutation_cons_append, <- Hc. apply NoDup_cons in Hnd as [_ Hnd].
      destruct (bind_pick _ j (allowed_nodup path) Hj) as (l' & _ & Hperm).
      rewrite owned_S, Hperm in Hnd. by apply NoDup_app in Hnd as [? _].
    + rewrite Ho. intros f Hf. apply (tk_used _ _ _ (ds_takes _ _ _ _ _ _ Hd)). left. apply Hu. set_solver.
    + rewrite (ds_window _ _ _ _ _ _ Hd). auto.
    + by rewrite app_nil_r, Ho, Hc.
    + intros r Hr. rewrite (proj1 (He r Hr)), entry_at_cons, Hp, Ht1 by by eapply zone_nonempty. done.
  - destruct Hold as (-> & Hw1 & Hz).
    destruct (tree_zero n (path ++ [j]) (vm_window s) _ _ Hz) as (Ho & Hsh & He).
    split; [split|split].
    + rewrite Ho. apply NoDup_singleton.
    + rewrite Ho. intros f Hf. apply (tk_used _ _ _ (ds_takes _ _ _ _ _ _ Hd)). set_solver.
    + rewrite (ds_window _ _ _ _ _ _ Hd). auto.
    + unfold child. by rewrite Hp, Ho.
    + intros r Hr. rewrite He, entry_at_cons, Hp by (done || by eapply zone_nonempty). done.
Qed.

Section step.
Context (n : nat) (path : list Z) (t j : Z) (s s1 s' : Vm) (t1 : Z) (new1 new2 : list Z).
Hypothesis Htree : tree (S n) path s t.
Hypothesis Hj : j ∈ allowed path.
Hypothesis Hd : descends t j s t1 s1 new1.
Hypothesis Hg : grown n (path ++ [j]) t1 s1 s' new2.

Let Hsub := descends_sub n path t j s t1 s1 new1 Htree Hj Hd.

Lemma step_elem f : f ∈ t1 :: owned n (path ++ [j]) (vm_mem s1) t1 <-> f ∈ child n path (vm_mem s) t j \/ f ∈ new1.
Proof.
  destruct Hsub as (_ & Hp & _). rewrite <- elem_of_app, Hp, elem_of_app, elem_of_cons, list_elem_of_singleton. tauto.
Qed.

Lemma step_words f i : aligned f -> idx i -> used (vm_pmm s) f -> ~ (f = t /\ i = j) ->
  f ∉ child n path (vm_mem s) t j -> word (vm_mem s') f i = word (vm_mem s) f i.
Proof.
  intros Hf Hi Hu Hne Hc.
  assert (f ∉ new1) as H1 by (intros H%(tk_free _ _ _ (ds_takes _ _ _ _ _ _ Hd)); by eapply used_not_free).
  rewrite (gr_words _ _ _ _ _ _ Hg); [by apply (ds_words _ _ _ _ _ _ Hd)|done|done|rewrite step_elem; tauto|].
  intros H%(tk_free _ _ _ (gr_takes _ _ _ _ _ _ Hg)). revert H. apply used_not_free.
  apply (tk_used _ _ _ (ds_takes _ _ _ _ _ _ Hd)). by left.
Qed.

Lemma step_top : word (vm_mem s') t j = word (vm_mem s1) t j.
Proof.
  assert (used (vm_pmm s) t) as Hu by (apply (tr_used _ _ _ _ Htree); set_solver).
  apply (gr_words _ _ _ _ _ _ Hg).
  - by apply frame_addr_range, (used_frame (vm_pmm s)).
  - by eapply allowed_idx.
  - rewrite step_elem. intros [Hc|Hc].
    + pose proof (tr_nodup _ _ _ _ Htree) as [Hn _]%NoDup_cons. apply Hn. by eapply elem_of_child.
    + apply (tk_free _ _ _ (ds_takes _ _ _ _ _ _ Hd)) in Hc. by eapply used_not_free.
  - intros H%(tk_free _ _ _ (gr_takes _ _ _ _ _ _ Hg)). revert H. apply used_not_free.
    apply (tk_used _ _ _ (ds_takes _ _ _ _ _ _ Hd)). by left.
Qed.

Lemma step_grown : grown (S n) path t s s' (new2 ++ new1).
Proof.
  pose proof step_top as Htop. pose proof (ds_present _ _ _ _ _ _ Hd) as Hp1.
  pose proof (ds_huge _ _ _ _ _ _ Hd) as Hh1. pose proof (ds_address _ _ _ _ _ _ Hd) as Ha1.
  assert (forall f, f ∈ t :: owned (S n) path (vm_mem s) t -> used (vm_pmm s) f /\ aligned f) as Hu.
  { intros f Hf%(tr_used _ _ _ _ Htree). split; [done|]. by apply frame_addr_range, (used_frame (vm_pmm s)). }
  destruct (child_change n path (vm_window s) (vm_mem s) (vm_mem s') t j Hj (tr_nodup _ _ _ _ Htree))
    as ((rest & Hr & Hr') & He & Hs).
  { intros k Hk Hne. pose proof (tr_nodup _ _ _ _ Htree) as [Hn _]%NoDup_cons. apply step_words.
    - apply Hu. set_solver.
    - done.
    - apply Hu. set_solver.
    - intros [_ ->]. done.
    - contradict Hn. by eapply elem_of_child. }
  { intros f k Hf Hc Hk. pose proof (tr_nodup _ _ _ _ Htree) as [Hn _]%NoDup_cons. apply step_words; [apply Hu; set_solver|done|apply Hu; set_solver| |done].
    intros [-> _]. done. }
  split.
  - eapply takes_app; [apply Hd|apply Hg].
  - by rewrite (gr_root _ _ _ _ _ _ Hg), (ds_root _ _ _ _ _ _ Hd).
  - by rewrite (gr_window _ _ _ _ _ _ Hg), (ds_window _ _ _ _ _ _ Hd).
  - rewrite Hr', Hr. unfold child at 1. rewrite Htop, Hp1, Ha1, (gr_owned _ _ _ _ _ _ Hg).
    destruct Hsub as (_ & Hc & _). rewrite <- (app_assoc new2 (owned _ _ _ _)), <- Hc. solve_Permutation.
  - rewrite (gr_window _ _ _ _ _ _ Hg), (ds_window _ _ _ _ _ _ Hd). apply Hs; [apply Htree|].
    rewrite Htop, Ha1. intros _. split; [done|]. rewrite <- (ds_window _ _ _ _ _ _ Hd), <- (gr_window _ _ _ _ _ _ Hg).
    apply Hg.
  - intros js Hz. destruct (zone_cons _ _ _ Hz) as (k & r & -> & _). destruct (decide (k = j)) as [->|Hne]; [|by apply He].
    destruct Hz as [(? & [= <- ->] & _ & ?)|(? & ? & [= <- <-] & _ & Hz)]; [done|].
    destruct Hsub as (_ & _ & Hse). rewrite <- Hse by done. rewrite entry_at_cons, Htop, Hp1, Ha1 by by eapply zone_nonempty.
    by apply Hg.
  - intros f i Hf Hi Hn Hnew.
    rewrite (gr_words _ _ _ _ _ _ Hg); [apply (ds_words _ _ _ _ _ _ Hd); [done|done|set_solver|]|done|done| |set_solver].
    + intros [-> _]. set_solver.
    + rewrite step_elem. intros [Hc|Hc]; [|set_solver]. apply Hn, elem_of_cons. right. by eapply elem_of_child.
Qed.

End step.

Lemma grown_refl path t s : pmm_wf (vm_pmm s) -> tree 0 path s t -> grown 0 path t s s [].
Proof. intros Hw Ht. split; [by apply takes_nil|done|done|done|apply Ht|done|done]. Qed.

Lemma grown_tree n path t s s' new : tree n path s t -> grown n path t s s' new -> tree n path s' t.
Proof.
  intros [Hnd Hu _] Hg. pose proof (gr_takes _ _ _ _ _ _ Hg) as Ht.
  assert (forall f, f ∈ new -> f ∉ t :: owned n path (vm_mem s) t) as Hdis.
  { intros f Hf%(tk_free _ _ _ Ht) Hin%Hu. by eapply used_not_free. }
  assert (t :: owned n path (vm_mem s') t ≡ₚ new ++ t :: owned n path (vm_mem s) t) as Hp
    by (rewrite (gr_owned _ _ _ _ _ _ Hg); apply Permutation_middle).
  split; [|intros f|apply Hg]; rewrite Hp.
  - apply NoDup_app. split; [apply Ht|]. by split.
  - rewrite (tk_used _ _ _ Ht), elem_of_app. intros [?|?%Hu]; [by right|by left].
Qed.

Lemma leaf_path_nonempty n path js : leaf_path n path js -> js <> [].
Proof. destruct n; cbn; [|]; intros ?; destruct_and?; naive_solver. Qed.

(** The walk succeeds unless a table cannot be had, and only grows the tree. *)
Lemma create_spec user n : forall path t s js,
  pmm_wf (vm_pmm s) -> tree n path s t -> leaf_path n path js ->
  match create user t js s with
  | Ok (slot, s') => exists new, grown n path t s s' new /\ slot_at (vm_mem s') t js = Some slot
  | Err e => stops (Z.of_nat n) s e
  end.
Proof.
  induction n as [|n IH]; intros path t s js Hw Htree Hjs.
  - destruct Hjs as (j & -> & Hj). cbn. exists []. split; [by apply grown_refl|done].
  - destruct Hjs as (j & r & -> & Hj & Hr). pose proof (leaf_path_nonempty _ _ _ Hr) as Hne.
    replace (create user t (j :: r)) with (descend_create user t j ≫= fun t1 => create user t1 r) by by destruct r.
    assert (used (vm_pmm s) t) as Hu by (apply (tr_used _ _ _ _ Htree); set_solver).
    pose proof (descend_create_spec user t j s Hw (used_frame _ _ Hu) (used_not_free _ _ Hu)
      (allowed_idx _ _ Hj) (proj1 (tr_shape _ _ _ _ Htree))
      (fun Hp => proj1 (proj2 (tr_shape _ _ _ _ Htree) j Hj Hp))) as Hd.
    destruct (descend_create user t j s) as [ [t1 s1]|e] eqn:Ed; cycle 1.
    { rewrite (mm_bind_err _ _ _ _ Ed). destruct e; cbn in Hd |- *; try done. lia. }
    destruct Hd as [new1 Hd]. rewrite (mm_bind_ok _ _ _ _ _ Ed).
    destruct (descends_sub n path t j s t1 s1 new1 Htree Hj Hd) as (Hsub & _).
    specialize (IH (path ++ [j]) t1 s1 r (tk_wf _ _ _ (ds_takes _ _ _ _ _ _ Hd)) Hsub Hr).
    destruct (create user t1 r s1) as [ [slot s']|e] eqn:Ec.
    + destruct IH as (new2 & Hg & Hsl). exists (new2 ++ new1). split; [by eapply step_grown|].
      rewrite slot_at_cons, (step_top n path t j s s1 s' t1 new1 new2), (ds_present _ _ _ _ _ _ Hd), (ds_address _ _ _ _ _ _ Hd) by done.
      done.
    + destruct e; cbn in IH |- *; try done.
      * rewrite (tk_count _ _ _ (ds_takes _ _ _ _ _ _ Hd)) in IH. pose proof (ds_old _ _ _ _ _ _ Hd) as Ho.
        destruct (pte_is_present _); destruct Ho as [-> _]; cbn in IH; lia.
      * destruct IH as (f & Hf & Hw'). exists f. rewrite <- (ds_window _ _ _ _ _ _ Hd). split; [|done].
        by apply (tk_left _ _ _ (ds_takes _ _ _ _ _ _ Hd)).
Qed.

(** ** The store into a leaf *)

(** The words of a tree with one leaf entry replaced. *)
Record leaf_set (n : nat) (path : list Z) (w : Z) (m : Mem) (t : Z) (js : list Z) (v : Z) (m' : Mem) : Prop := {
  ls_owned : exists rest, owned n path m t ≡ₚ leaf_frame (entry_at m t js) ++ rest /\
    owned n path m' t ≡ₚ leaf_frame v ++ rest;
  ls_shape : shape n path w m t -> shape n path w m' t;
  ls_entry : forall ks, zone n path ks ->
    entry_at m' t ks = if decide (ks = js) then v else entry_at m t ks;
  ls_slot : forall ks, zone n path ks -> slot_at m' t ks = slot_at m t ks
}.

Lemma slot_at_elem n : forall path m t js p1 i, leaf_path n path js ->
  slot_at m t js = Some (p1, i) -> idx i /\ p1 ∈ t :: owned n path m t.
Proof.
  induction n as [|n IH]; intros path m t js p1 i Hjs.
  - destruct Hjs as (j & -> & Hj). cbn. intros [= <- <-]. set_solver.
  - destruct Hjs as (j & r & -> & Hj & Hr). rewrite slot_at_cons by by eapply leaf_path_nonempty.
    destruct (pte_is_present _) eqn:Hp; [|done]. intros Hs.
    destruct (IH _ _ _ _ _ _ Hr Hs) as [Hi He]. split; [done|]. apply elem_of_cons. right. by eapply owned_sub.
Qed.

Lemma slot_at_window n : forall path w m t js p1 i, shape n path w m t -> leaf_path n path js ->
  slot_at m t js = Some (p1, i) -> p1 < w.
Proof.
  induction n as [|n IH]; intros path w m t js p1 i [Ht Hs] Hjs.
  - destruct Hjs as (j & -> & _). by intros [= <- _].
  - destruct Hjs as (j & r & -> & Hj & Hr). rewrite slot_at_cons by by eapply leaf_path_nonempty.
    destruct (pte_is_present _) eqn:Hp; [|done]. eapply IH; [by apply Hs|done].
Qed.

(** Walking without creating finds the slot. *)
Fixpoint existing (t : Z) (js : list Z) : MM (option (Z * Z)) :=
  match js with
  | [] => mret None
  | [j] => mret (Some (t, j))
  | j :: r => descend_existing t j (fun t1 => existing t1 r)
  end.

Lemma existing_spec n : forall path t s js, shape n path (vm_window s) (vm_mem s) t -> leaf_path n path js ->
  existing t js s = Ok (slot_at (vm_mem s) t js, s).
Proof.
  induction n as [|n IH]; intros path t s js [Ht Hs] Hjs.
  - by destruct Hjs as (j & -> & _).
  - destruct Hjs as (j & r & -> & Hj & Hr). pose proof (leaf_path_nonempty _ _ _ Hr).
    rewrite slot_at_cons by done.
    replace (existing t (j :: r)) with (descend_existing t j (fun t1 => existing t1 r)) by by destruct r.
    unfold descend_existing. erewrite mm_bind_ok by by apply load_entry_ok. cbn beta.
    destruct (pte_is_present _) eqn:Hp; [|done]. by eapply IH; [apply Hs|].
Qed.

Lemma slot_at_None m t js : slot_at m t js = None -> entry_at m t js = 0.
Proof.
  revert t. induction js as [|j [|k r] IH]; intros t; [done|done|].
  rewrite slot_at_cons, entry_at_cons by done. destruct (pte_is_present _); [apply IH|done].
Qed.

(** The page of a leaf entry belongs to the tree. *)
Lemma leaf_owned n : forall path m t js f, leaf_path n path js ->
  f ∈ leaf_frame (entry_at m t js) -> f ∈ owned n path m t.
Proof.
  induction n as [|n IH]; intros path m t js f Hjs.
  - destruct Hjs as (j & -> & Hj). cbn [entry_at owned]. intros Hf. apply list_elem_of_bind.
    exists j. split; [done|by apply elem_of_all_idx].
  - destruct Hjs as (j & r & -> & Hj & Hr). rewrite entry_at_cons by by eapply leaf_path_nonempty.
    destruct (pte_is_present _) eqn:Hp; [|by intros ?%elem_of_nil]. intros Hf.
    eapply owned_sub; [exact Hj|done|]. apply elem_of_cons. right. by eapply IH.
Qed.

Lemma leaf_frame_aligned e f : f ∈ leaf_frame e -> aligned f.
Proof.
  unfold leaf_frame. destruct (_ && _); [|set_solver].
  intros Hf. apply list_elem_of_singleton in Hf as ->. apply address_aligned.
Qed.

Lemma owned_aligned n : forall path m t f, f ∈ owned n path m t -> aligned f.
Proof.
  induction n as [|n IH]; intros path m t f; cbn [owned]; intros (i & Hf & _)%list_elem_of_bind.
  - by eapply leaf_frame_aligned.
  - destruct (pte_is_present _); [|set_solver]. apply elem_of_app in Hf as [Hf|Hf]; [by eapply IH|].
    apply list_elem_of_singleton in Hf as ->. apply address_aligned.
Qed.

Lemma put_leaf_0 path w m t j v : aligned t -> idx j ->
  leaf_set 0 path w m t [j] v (put_word t j v m).
Proof.
  intros Ha Hj. destruct (bind_pick _ j all_idx_nodup (proj2 (elem_of_all_idx j) Hj)) as (l' & Hl' & Hperm).
  assert (forall k, idx k -> word (put_word t j v m) t k = if decide (k = j) then v else word m t k) as Hw.
  { intros k Hk. rewrite word_put by done. repeat case_decide; naive_solver. }
  split.
  - exists (l' ≫= fun i => leaf_frame (word m t i)). cbn [owned entry_at]. rewrite !Hperm. split; [done|].
    rewrite Hw, decide_True by done. apply reflexive_eq. f_equal. apply bind_ext_in.
    intros k [Hk%elem_of_all_idx Hne]%Hl'. by rewrite Hw, decide_False by done.
  - done.
  - intros ks (k & -> & Hk). cbn [entry_at]. rewrite Hw by done. repeat case_decide; naive_solver.
  - intros ks (k & -> & Hk). done.
Qed.

Lemma put_leaf n : forall path w m t js p1 i v,
  aligned t -> NoDup (t :: owned n path m t) -> leaf_path n path js -> slot_at m t js = Some (p1, i) ->
  leaf_set n path w m t js v (put_word p1 i v m).
Proof.
  induction n as [|n IH]; intros path w m t js p1 i v Ha Hnd Hjs Hs.
  - destruct Hjs as (j & -> & Hj). injection Hs as <- <-. by apply put_leaf_0.
  - pose proof (slot_at_elem _ _ _ _ _ _ _ Hjs Hs) as [Hi _].
    destruct Hjs as (j & r & -> & Hj & Hr). pose proof (leaf_path_nonempty _ _ _ Hr) as Hne.
    rewrite slot_at_cons in Hs by done. destruct (pte_is_present (word m t j)) eqn:Hp; [|done].
    set (t1 := pte_address (word m t j)) in *. set (m' := put_word p1 i v m).
    destruct (slot_at_elem _ _ _ _ _ _ _ Hr Hs) as [_ Hp1].
    assert (p1 ∈ child n path m t j) as Hc by by apply elem_of_child_sub.
    assert (aligned p1) as Hap by (eapply (owned_aligned (S n)), elem_of_child; done).
    assert (forall f k, aligned f -> idx k -> f <> p1 -> word m' f k = word m f k) as Hwo.
    { intros f k Hf Hk Hfp. subst m'. rewrite word_put, decide_False by naive_solver. done. }
    pose proof Hnd as [Hnt Hnd']%NoDup_cons.
    assert (t <> p1) as Htp by (intros ->; apply Hnt; by eapply elem_of_child).
    assert (word m' t j = word m t j) as Htj by (apply Hwo; [done|by eapply allowed_idx|done]).
    destruct (IH (path ++ [j]) w m t1 r p1 i v (address_aligned _)) as [ (rest1 & Ho1 & Ho1') Hsh He Hsl]; [|done|done|].
    { destruct (bind_pick _ j (allowed_nodup path) Hj) as (l' & _ & Hperm). rewrite owned_S, Hperm in Hnd'.
      apply NoDup_app in Hnd' as [Hc' _]. unfold child in Hc'. rewrite Hp in Hc'. fold t1 in Hc'.
      by rewrite Permutation_cons_append. }
    fold m' in Ho1', Hsh, He, Hsl.
    destruct (child_change n path w m m' t j Hj Hnd) as ((rest & Hrest & Hrest') & Hce & Hcs).
    { intros k Hk _. by apply Hwo. }
    { intros f k Hf Hfc Hk. apply Hwo; [by eapply owned_aligned|done|]. intros ->. done. }
    split.
    + exists (rest1 ++ [t1] ++ rest). rewrite Hrest, Hrest'. unfold child. rewrite Htj, Hp. fold t1.
      rewrite Ho1', Ho1, entry_at_cons, Hp by done. fold t1. split; solve_Permutation.
    + intros [Ht Hsub]. apply Hcs; [by split|]. rewrite Htj. fold t1. intros _.
      destruct (Hsub j Hj Hp) as [Hh Hs1]. auto.
    + intros ks Hz. destruct (zone_cons _ _ _ Hz) as (k & q & -> & _). destruct (decide (k = j)) as [->|Hkj]; cycle 1.
      { rewrite decide_False by congruence. by apply Hce. }
      destruct Hz as [(? & [= <- ->] & _ & ?)|(? & ? & [= <- <-] & _ & Hz)]; [done|].
      rewrite !entry_at_cons, Htj, Hp by by eapply zone_nonempty. fold t1. rewrite He by done.
      repeat case_decide; congruence.
    + intros ks Hz. destruct (zone_cons _ _ _ Hz) as (k & q & -> & _). destruct (decide (k = j)) as [->|Hkj]; cycle 1.
      { by apply Hce. }
      destruct Hz as [(? & [= <- ->] & _ & ?)|(? & ? & [= <- <-] & _ & Hz)]; [done|].
      rewrite !slot_at_cons, Htj, Hp by by eapply zone_nonempty. fold t1. by rewrite Hsl.
Qed.

(** The word at a slot is the entry of its path. *)
Lemma slot_at_entry m t js p1 i : slot_at m t js = Some (p1, i) -> word m p1 i = entry_at m t js.
Proof.
  revert t. induction js as [|j [|k r] IH]; intros t; [done|by intros [= -> ->]|].
  rewrite slot_at_cons, entry_at_cons by done. destruct (pte_is_present _); [apply IH|done].
Qed.

End tree.
