(* ===== verification/VmmSpaces.v ===== *)
(** * User address spaces (kernel/src/vmm.rs)

    The page tables of all user tasks side by side. A mapping call changes one
    page of one address space and nothing of any other; a new address space is
    empty; the release of an address space frees each of its frames once, and
    no other frame. *)

From S2P Require Import Prelude Pmm Vmm VmmTree.

#[local] Open Scope Z_scope.

(** ** User address spaces

    The tree of an address space is below the entries 0..255 of its PML4,
    without the entry 0 of the first P3 table, which leads to the identity map
    shared by all. *)

Definition user_allowed (path : list Z) : list Z :=
  if decide (path = []) then seqZ 0 256 else if decide (path = [0]) then seqZ 1 511 else all_idx.

Lemma user_allowed_nodup path : NoDup (user_allowed path).
Proof. unfold user_allowed. repeat case_decide; [apply NoDup_seqZ..|apply all_idx_nodup]. Qed.

Lemma user_allowed_idx path i : i ∈ user_allowed path -> idx i.
Proof.
  unfold user_allowed, idx. repeat case_decide; [intros ?%elem_of_seqZ; lia..|by intros ?%elem_of_all_idx].
Qed.

Definition user_va (va : Z) : Prop := 2 ^ 30 <= va < 2 ^ 47.

Definition idxs (va : Z) : list Z := [p4_idx va; p3_idx va; p2_idx va; p1_idx va].

Lemma idx_div va k : 0 <= k -> Z.land (Z.shiftr va k) 511 = (va / 2 ^ k) mod 512.
Proof. intros Hk. change 511 with (Z.ones 9). by rewrite Z.land_ones, Z.shiftr_div_pow2 by lia. Qed.

Lemma idxs_range va : idx (p4_idx va) /\ idx (p3_idx va) /\ idx (p2_idx va) /\ idx (p1_idx va).
Proof.
  unfold p4_idx, p3_idx, p2_idx, p1_idx, idx. rewrite !idx_div by lia.
  repeat split; apply Z.mod_pos_bound; lia.
Qed.

Lemma user_va_path va : user_va va -> leaf_path user_allowed 3 [] (idxs va).
Proof.
  unfold user_va. intros Hv. pose proof (idxs_range va) as (H4 & H3 & H2 & H1).
  assert (p4_idx va = va / 2 ^ 39) as E4.
  { unfold p4_idx. rewrite idx_div by lia. apply Z.mod_small. split; [apply Z.div_pos; lia|].
    apply Z.div_lt_upper_bound; lia. }
  exists (p4_idx va), [p3_idx va; p2_idx va; p1_idx va]. split; [done|]. split.
  { unfold user_allowed. cbn. apply elem_of_seqZ. rewrite E4. split; [apply Z.div_pos; lia|].
    apply Z.div_lt_upper_bound; lia. }
  exists (p3_idx va), [p2_idx va; p1_idx va]. split; [done|]. split.
  { unfold user_allowed. rewrite decide_False by done. case_decide as Hd; [|by apply elem_of_all_idx].
    injection Hd as Hd. apply elem_of_seqZ. unfold idx in H3. split; [|lia].
    assert (va < 2 ^ 39). { rewrite E4 in Hd. pose proof (Z.div_mod va (2 ^ 39)). pose proof (Z.mod_pos_bound va (2 ^ 39)). lia. }
    unfold p3_idx. rewrite idx_div, Z.mod_small by (lia || (split; [apply Z.div_pos; lia|apply Z.div_lt_upper_bound; lia])).
    apply Z.div_le_lower_bound; lia. }
  exists (p2_idx va), [p1_idx va]. split; [done|]. split; [|by exists (p1_idx va)].
  unfold user_allowed. rewrite !decide_False by done. by apply elem_of_all_idx.
Qed.

Lemma idxs_inj va va' : 0 <= va < 2 ^ 48 -> 0 <= va' < 2 ^ 48 -> idxs va = idxs va' <-> va / 4096 = va' / 4096.
Proof.
  intros Hv Hv'. unfold idxs, p4_idx, p3_idx, p2_idx, p1_idx. rewrite !idx_div by lia.
  change (2 ^ 12) with 4096. change (2 ^ 21) with (4096 * 512). change (2 ^ 30) with (4096 * 262144).
  change (2 ^ 39) with (4096 * 134217728). rewrite <- !Z.div_div by lia. split; [|by intros ->].
  intros [= E4 E3 E2 E1].
  assert (0 <= va / 4096 < 2 ^ 36) by (split; [apply Z.div_pos; lia|apply Z.div_lt_upper_bound; lia]).
  assert (0 <= va' / 4096 < 2 ^ 36) by (split; [apply Z.div_pos; lia|apply Z.div_lt_upper_bound; lia]).
  generalize dependent (va / 4096). generalize dependent (va' / 4096). intros x Hx E1 y. intros. Z.div_mod_to_equations. lia.
Qed.

(** The entry of the shared identity map, and those of the kernel half, are
    not of the tree. *)
Lemma identity_path : zone user_allowed 3 [] [0; 0].
Proof.
  right. exists 0, [0]. split; [done|]. split; [by apply elem_of_seqZ|]. left. exists 0.
  split; [done|]. split; [unfold idx; lia|]. intros Hz%elem_of_seqZ. lia.
Qed.

Lemma kernel_half_path i : 256 <= i < 512 -> zone user_allowed 3 [] [i].
Proof.
  intros Hi. left. exists i. split; [done|]. split; [unfold idx; lia|]. intros Hz%elem_of_seqZ. lia.
Qed.

Lemma user_allowed_top : user_allowed [] = seqZ 0 256.
Proof. done. Qed.

Lemma user_allowed_first : user_allowed [0] = seqZ 1 511.
Proof. done. Qed.

Lemma user_allowed_p3 i : i <> 0 -> user_allowed [i] = seqZ 0 512.
Proof. intros Hi. unfold user_allowed. rewrite !decide_False by congruence. apply all_idx_eq. Qed.

Lemma user_allowed_p2 i j : user_allowed [i; j] = seqZ 0 512.
Proof. unfold user_allowed. rewrite !decide_False by done. apply all_idx_eq. Qed.

#[global] Opaque user_allowed owned shape.

(** The leaf entry of a page. *)
Definition page_entry (s : Vm) (p va : Z) : Z := entry_at (vm_mem s) p (idxs va).

Definition space_frames (m : Mem) (p : Z) : list Z := p :: owned user_allowed 3 [] m p.

(** The frame of the shared identity map. *)
Definition identity_frames (s : Vm) : list Z :=
  let p3 := pte_address (word (vm_mem s) (vm_pml4 s) 0) in
  [vm_pml4 s; p3; pte_address (word (vm_mem s) p3 0)].

Definition shared_pd (s : Vm) : Z :=
  pte_address (word (vm_mem s) (pte_address (word (vm_mem s) (vm_pml4 s) 0)) 0).

(** The address spaces [ps] beside the frames [ks] of the kernel: all their
    frames are in use and distinct, so no two spaces share a page or a table. *)
Record spaces (ks ps : list Z) (s : Vm) : Prop := {
  sp_pmm : pmm_wf (vm_pmm s);
  sp_nodup : NoDup (ks ++ (ps ≫= space_frames (vm_mem s)));
  sp_used : forall f, f ∈ ks ++ (ps ≫= space_frames (vm_mem s)) -> used (vm_pmm s) f;
  sp_shape : forall p, p ∈ ps -> shape user_allowed 3 [] (vm_window s) (vm_mem s) p;
  sp_shared : forall p, p ∈ ps -> pte_is_present (entry_at (vm_mem s) p [0; 0]) = true /\
    pte_address (entry_at (vm_mem s) p [0; 0]) = shared_pd s;
  sp_kernel : forall f, f ∈ identity_frames s -> f ∈ ks /\ f < vm_window s
}.

(** ** Changing one address space *)

Lemma elem_of_spaces ps m f : f ∈ ps ≫= space_frames m <-> exists p, p ∈ ps /\ f ∈ space_frames m p.
Proof. rewrite list_elem_of_bind. naive_solver. Qed.

Lemma spaces_disjoint ks ps s p q f : spaces ks ps s -> p ∈ ps -> q ∈ ps ->
  f ∈ space_frames (vm_mem s) p -> f ∈ space_frames (vm_mem s) q -> p = q.
Proof.
  intros Hs Hp Hq Hfp Hfq. destruct (decide (p = q)); [done|exfalso].
  pose proof (sp_nodup _ _ _ Hs) as (_ & _ & Hnd)%NoDup_app.
  apply list_elem_of_split in Hp as (l1 & l2 & ->). rewrite bind_app, bind_cons in Hnd.
  apply NoDup_app in Hnd as (_ & Hd1 & (_ & Hd2 & _)%NoDup_app).
  apply elem_of_app in Hq as [Hq|Hq].
  - apply (Hd1 f); [by apply elem_of_spaces; exists q|set_solver].
  - apply elem_of_cons in Hq as [?|Hq]; [done|]. apply (Hd2 f Hfp). apply elem_of_spaces. by exists q.
Qed.

Lemma spaces_tree ks ps s p : spaces ks ps s -> p ∈ ps -> tree user_allowed 3 [] s p.
Proof.
  intros Hs Hp. split.
  - pose proof (sp_nodup _ _ _ Hs) as (_ & _ & Hnd)%NoDup_app.
    apply list_elem_of_split in Hp as (l1 & l2 & ->). rewrite bind_app, bind_cons in Hnd.
    by apply NoDup_app in Hnd as (_ & _ & (? & _)%NoDup_app).
  - intros f Hf. apply (sp_used _ _ _ Hs), elem_of_app. right. apply elem_of_spaces. by exists p.
  - by apply Hs.
Qed.

Abbreviation tree_agree_user := (tree_agree user_allowed user_allowed_nodup user_allowed_idx).

(** All frames that belong to someone. *)
Definition held (ks ps : list Z) (s : Vm) : list Z := ks ++ (ps ≫= space_frames (vm_mem s)).

Section change.
Context (ks ps : list Z) (s s' : Vm) (p : Z) (gone new rest : list Z).
Hypothesis Hs : spaces ks ps s.
Hypothesis Hp : p ∈ ps.
Hypothesis Hpmm : pmm_wf (vm_pmm s').
Hypothesis Hroot : vm_pml4 s' = vm_pml4 s.
Hypothesis Hwin : vm_window s' = vm_window s.
Hypothesis Hold : owned user_allowed 3 [] (vm_mem s) p ≡ₚ gone ++ rest.
Hypothesis Hnow : owned user_allowed 3 [] (vm_mem s') p ≡ₚ new ++ rest.
Hypothesis Hnd : NoDup new.
Hypothesis Hnew : forall f, f ∈ new -> used (vm_pmm s') f /\ (f ∈ held ks ps s -> f ∈ gone).
Hypothesis Hused : forall f, f ∈ held ks ps s -> f ∉ gone -> used (vm_pmm s') f.
Hypothesis Hwords : forall f i, aligned f -> idx i -> f ∉ space_frames (vm_mem s) p -> f ∉ new ->
  word (vm_mem s') f i = word (vm_mem s) f i.
Hypothesis Hshape : shape user_allowed 3 [] (vm_window s) (vm_mem s') p.
Hypothesis Hshared : entry_at (vm_mem s') p [0; 0] = entry_at (vm_mem s) p [0; 0].

Lemma change_other f i : f ∈ held ks ps s -> f ∉ space_frames (vm_mem s) p -> idx i ->
  word (vm_mem s') f i = word (vm_mem s) f i.
Proof.
  intros Hf Hnp Hi. apply Hwords; [|done|done|].
  - by apply frame_addr_range, (used_frame (vm_pmm s)), Hs.
  - intros [_ Hg]%Hnew. apply Hnp. unfold space_frames. rewrite Hold. set_solver.
Qed.

Lemma change_kernel f i : f ∈ ks -> idx i -> word (vm_mem s') f i = word (vm_mem s) f i.
Proof.
  intros Hf. apply change_other; [by apply elem_of_app; left|]. intros Hfp.
  pose proof (sp_nodup _ _ _ Hs) as (_ & Hd & _)%NoDup_app. apply (Hd f Hf), elem_of_spaces. by exists p.
Qed.

Lemma change_agree q : q ∈ ps -> q <> p -> agree (space_frames (vm_mem s) q) (vm_mem s) (vm_mem s').
Proof.
  intros Hq Hne f i Hf. apply change_other.
  - apply elem_of_app. right. apply elem_of_spaces. by exists q.
  - intros Hfp. apply Hne. by eapply spaces_disjoint.
Qed.

Lemma change_frames q : q ∈ ps -> q <> p -> space_frames (vm_mem s') q = space_frames (vm_mem s) q.
Proof.
  intros Hq Hne. unfold space_frames.
  by destruct (tree_agree_user 3 [] 0 _ _ q (change_agree q Hq Hne)) as [-> _].
Qed.

Lemma change_entry q js : q ∈ ps -> q <> p -> zone user_allowed 3 [] js ->
  entry_at (vm_mem s') q js = entry_at (vm_mem s) q js.
Proof. intros Hq Hne Hz. by apply (tree_agree_user 3 [] 0 _ _ q (change_agree q Hq Hne)). Qed.

Lemma change_identity : identity_frames s' = identity_frames s /\ shared_pd s' = shared_pd s.
Proof.
  assert (idx 0) as H0 by (unfold idx; lia).
  unfold identity_frames, shared_pd. rewrite Hroot.
  rewrite !(change_kernel (vm_pml4 s) 0) by (done || apply (sp_kernel _ _ _ Hs); set_solver).
  rewrite !(change_kernel (pte_address (word (vm_mem s) (vm_pml4 s) 0)) 0) by (done || apply (sp_kernel _ _ _ Hs); set_solver).
  done.
Qed.

(** What is held changes by [gone] and [new]. *)
Lemma change_held : exists rest',
  held ks ps s ≡ₚ gone ++ rest' /\ held ks ps s' ≡ₚ new ++ rest'.
Proof.
  pose proof (sp_nodup _ _ _ Hs) as (_ & _ & Hd)%NoDup_app. pose proof Hp as (l1 & l2 & El)%list_elem_of_split.
  assert (forall q, q ∈ l1 ++ l2 -> q <> p) as Hne.
  { intros q Hq ->. rewrite El, bind_app, bind_cons in Hd. apply NoDup_app in Hd as (_ & Hd1 & (_ & Hd2 & _)%NoDup_app).
    assert (p ∈ space_frames (vm_mem s) p) as Hpp by (unfold space_frames; set_solver).
    apply elem_of_app in Hq as [Hq|Hq].
    - apply (Hd1 p); [apply elem_of_spaces; by exists p|set_solver].
    - apply (Hd2 p Hpp). apply elem_of_spaces. by exists p. }
  assert (forall l, (forall q, q ∈ l -> q ∈ l1 ++ l2) ->
    l ≫= space_frames (vm_mem s') = l ≫= space_frames (vm_mem s)) as Hsame.
  { intros l Hl. apply bind_ext_in. intros q Hq. apply change_frames; [|by apply Hne, Hl].
    rewrite El. apply Hl in Hq. set_solver. }
  exists (ks ++ [p] ++ rest ++ ((l1 ++ l2) ≫= space_frames (vm_mem s))).
  unfold held. rewrite El, !bind_app, !bind_cons, (Hsame l1), (Hsame l2) by set_solver.
  assert (space_frames (vm_mem s) p ≡ₚ p :: gone ++ rest) as -> by (unfold space_frames; by rewrite Hold).
  assert (space_frames (vm_mem s') p ≡ₚ p :: new ++ rest) as -> by (unfold space_frames; by rewrite Hnow).
  split; solve_Permutation.
Qed.

Lemma change_spaces : spaces ks ps s'.
Proof.
  destruct change_identity as [Hi Hsp]. destruct change_held as (rest' & Hh & Hh').
  pose proof (sp_nodup _ _ _ Hs) as Hnd0. fold (held ks ps s) in Hnd0. rewrite Hh in Hnd0.
  apply NoDup_app in Hnd0 as (_ & Hdis & Hndr).
  assert (forall f, f ∈ rest' -> f ∈ held ks ps s) as Hin by (intros f Hf; rewrite Hh; set_solver).
  split.
  - done.
  - fold (held ks ps s'). rewrite Hh'. apply NoDup_app. split; [done|split; [|done]].
    intros f [_ Hf]%Hnew Hr. by apply (Hdis f); [apply Hf, Hin|].
  - fold (held ks ps s'). intros f. rewrite Hh'. intros [Hf|Hf]%elem_of_app; [by apply Hnew|].
    apply Hused; [by apply Hin|]. intros Hg. by apply (Hdis f).
  - intros q Hq. rewrite Hwin. destruct (decide (q = p)) as [->|Hne]; [done|].
    apply (tree_agree_user 3 [] (vm_window s) _ _ q (change_agree q Hq Hne)). by apply Hs.
  - intros q Hq. rewrite Hsp. destruct (decide (q = p)) as [->|Hne]; [rewrite Hshared; by apply Hs|].
    rewrite change_entry by (done || apply identity_path). by apply Hs.
  - intros f. rewrite Hi, Hwin. apply Hs.
Qed.

End change.

(** The effect of a store of [v] into the leaf entry of the page [va] of
    space [p], with [new] frames taken for tables on the way: every other entry
    of every space is as before, and so is every word of the kernel's frames. *)
Record page_set (ks ps : list Z) (s s' : Vm) (p va v : Z) (new : list Z) : Prop := {
  ps_spaces : spaces ks ps s';
  ps_takes : takes (vm_pmm s) new (vm_pmm s');
  ps_root : vm_pml4 s' = vm_pml4 s;
  ps_window : vm_window s' = vm_window s;
  ps_entry : forall q js, q ∈ ps -> zone user_allowed 3 [] js ->
    entry_at (vm_mem s') q js = if decide (q = p /\ js = idxs va) then v else entry_at (vm_mem s) q js;
  ps_words : forall f i, aligned f -> idx i -> f ∉ space_frames (vm_mem s) p -> f ∉ new ->
    word (vm_mem s') f i = word (vm_mem s) f i;
  ps_held : forall f, f ∈ held ks ps s' <->
    f ∈ leaf_frame v \/ f ∈ new \/ (f ∈ held ks ps s /\ f ∉ leaf_frame (page_entry s p va))
}.

Lemma leaf_frame_nodup v : NoDup (leaf_frame v).
Proof. unfold leaf_frame. destruct (_ && _); [apply NoDup_singleton|constructor]. Qed.

Lemma grown_spaces ks ps s s' p new :
  spaces ks ps s -> p ∈ ps -> grown user_allowed 3 [] p s s' new ->
  spaces ks ps s' /\ held ks ps s' ≡ₚ new ++ held ks ps s /\
  (forall q js, q ∈ ps -> zone user_allowed 3 [] js -> entry_at (vm_mem s') q js = entry_at (vm_mem s) q js).
Proof.
  intros Hs Hp Hg. set (rest := owned user_allowed 3 [] (vm_mem s) p).
  assert (forall f, f ∈ new -> used (vm_pmm s') f /\ (f ∈ held ks ps s -> f ∈ @nil Z)) as Hnew.
  { intros f Hf. split; [apply (tk_used _ _ _ (gr_takes _ _ _ _ _ _ _ Hg)); by right|].
    intros Hh%(sp_used _ _ _ Hs). exfalso. eapply used_not_free; [done|].
    by apply (tk_free _ _ _ (gr_takes _ _ _ _ _ _ _ Hg)). }
  assert (forall f, f ∈ held ks ps s -> f ∉ @nil Z -> used (vm_pmm s') f) as Hused.
  { intros f Hf%(sp_used _ _ _ Hs) _. apply (tk_used _ _ _ (gr_takes _ _ _ _ _ _ _ Hg)). by left. }
  assert (forall js, zone user_allowed 3 [] js -> entry_at (vm_mem s') p js = entry_at (vm_mem s) p js) as He by apply Hg.
  assert (shape user_allowed 3 [] (vm_window s) (vm_mem s') p) as Hsh
    by (rewrite <- (gr_window _ _ _ _ _ _ _ Hg); apply Hg).
  assert (spaces ks ps s') as Hs'.
  { apply (change_spaces ks ps s s' p [] new rest); try done; try apply Hg. apply identity_path. }
  split; [done|]. split.
  - destruct (change_held ks ps s s' p [] new rest) as (rest' & H1 & H2);
      [first [done|by apply Hg|by apply He, identity_path]..|]. by rewrite H1, H2.
  - intros q js Hq Hz. destruct (decide (q = p)) as [->|Hne]; [by apply He|].
    apply (change_entry ks ps s s' p [] new rest); first [done|by apply Hg|by apply He, identity_path].
Qed.

Lemma put_spaces ks ps s p va p1 i v :
  spaces ks ps s -> p ∈ ps -> user_va va -> slot_at (vm_mem s) p (idxs va) = Some (p1, i) ->
  (forall f, f ∈ leaf_frame v -> used (vm_pmm s) f /\ (f ∈ held ks ps s -> f ∈ leaf_frame (page_entry s p va))) ->
  page_set ks ps s (with_mem (put_word p1 i v (vm_mem s)) s) p va v [].
Proof.
  intros Hs Hp Hva Hsl Hv. set (s' := with_mem _ s). pose proof (spaces_tree _ _ _ _ Hs Hp) as Ht.
  pose proof (user_va_path va Hva) as Hpath.
  assert (aligned p) as Hap by (apply frame_addr_range, (used_frame (vm_pmm s)), (tr_used _ _ _ _ _ Ht); set_solver).
  destruct (put_leaf user_allowed user_allowed_nodup user_allowed_idx 3 [] (vm_window s) (vm_mem s) p (idxs va) p1 i v)
    as [(rest & Ho & Ho') Hsh He _]; [done|apply Ht|done|done|].
  destruct (slot_at_elem user_allowed user_allowed_nodup user_allowed_idx _ _ _ _ _ _ _ Hpath Hsl) as [Hi Hp1].
  assert (aligned p1) as Hap1.
  { apply elem_of_cons in Hp1 as [->|Hp1]; [done|].
    by eapply (owned_aligned user_allowed user_allowed_nodup user_allowed_idx). }
  assert (forall f j, aligned f -> idx j -> f ∉ space_frames (vm_mem s) p -> word (vm_mem s') f j = word (vm_mem s) f j) as Hw.
  { intros f j Hf Hj Hn. cbn [vm_mem with_mem s']. rewrite word_put by done. rewrite decide_False; [done|].
    intros [-> _]. by apply Hn. }
  assert (entry_at (vm_mem s') p [0; 0] = entry_at (vm_mem s) p [0; 0]) as H00.
  { cbn [vm_mem with_mem s']. rewrite He, decide_False; [done|done|apply identity_path]. }
  assert (forall f, f ∈ held ks ps s -> f ∉ leaf_frame (entry_at (vm_mem s) p (idxs va)) -> used (vm_pmm s') f) as Hu
    by (intros f Hf _; by apply Hs).
  assert (forall f j, aligned f -> idx j -> f ∉ space_frames (vm_mem s) p -> f ∉ leaf_frame v ->
    word (vm_mem s') f j = word (vm_mem s) f j) as Hw' by auto.
  pose proof (leaf_frame_nodup v) as Hnd. pose proof (Hsh (tr_shape _ _ _ _ _ Ht)) as Hsh'.
  pose proof (sp_pmm _ _ _ Hs) as Hpmm. split.
  - by eapply (change_spaces ks ps s s' p _ _ rest).
  - apply takes_nil, Hs.
  - done.
  - done.
  - intros q js Hq Hz. destruct (decide (q = p)) as [->|Hne].
    + cbn [vm_mem with_mem s']. rewrite He by done. repeat case_decide; naive_solver.
    + rewrite decide_False by naive_solver. by eapply (change_entry ks ps s s' p _ _ rest).
  - intros f j Hf Hj Hn _. by apply Hw.
  - destruct (change_held ks ps s s' p (leaf_frame (page_entry s p va)) (leaf_frame v) rest) as (rest' & H1 & H2); [done..|].
    pose proof (sp_nodup _ _ _ Hs) as Hnd0. fold (held ks ps s) in Hnd0. rewrite H1 in Hnd0.
    apply NoDup_app in Hnd0 as (_ & Hdis & _).
    intros f. rewrite H1, H2, !elem_of_app. specialize (Hdis f). set_solver.
Qed.

Lemma page_frame_held ks ps s p va f : spaces ks ps s -> p ∈ ps -> user_va va ->
  f ∈ leaf_frame (page_entry s p va) -> f ∈ held ks ps s.
Proof.
  intros Hs Hp Hva Hf. apply elem_of_app. right. apply elem_of_spaces. exists p. split; [done|].
  apply elem_of_cons. right. by eapply leaf_owned; [apply user_allowed_nodup|apply user_allowed_idx|apply user_va_path|].
Qed.

(** ** The calls *)

Lemma walk_or_create_eq pml4 va user s : walk_or_create pml4 va user s = create user pml4 (idxs va) s.
Proof. reflexivity. Qed.

Lemma page_entry_set ks ps s s' p va v new q va' :
  page_set ks ps s s' p va v new -> q ∈ ps -> user_va va -> user_va va' ->
  page_entry s' q va' = if decide (q = p /\ va' / 4096 = va / 4096) then v else page_entry s q va'.
Proof.
  intros Hset Hq Hva Hva'. unfold page_entry. rewrite (ps_entry _ _ _ _ _ _ _ _ Hset); [|done|].
  - assert (idxs va' = idxs va <-> va' / 4096 = va / 4096) as Hi by (unfold user_va in *; apply idxs_inj; lia).
    repeat case_decide; tauto || done.
  - apply leaf_path_zone. by apply user_va_path.
Qed.

Lemma grown_page_set ks ps s s1 s' p va v new :
  spaces ks ps s -> p ∈ ps -> user_va va -> grown user_allowed 3 [] p s s1 new ->
  page_set ks ps s1 s' p va v [] -> page_set ks ps s s' p va v new.
Proof.
  intros Hs Hp Hva Hg Hset. destruct (grown_spaces _ _ _ _ _ _ Hs Hp Hg) as (Hs1 & Hh1 & He1).
  assert (page_entry s1 p va = page_entry s p va) as Hpe by (apply He1; [done|by apply leaf_path_zone, user_va_path]).
  split.
  - apply Hset.
  - exact (takes_app _ _ _ _ _ (gr_takes _ _ _ _ _ _ _ Hg) (ps_takes _ _ _ _ _ _ _ _ Hset)).
  - by rewrite (ps_root _ _ _ _ _ _ _ _ Hset), (gr_root _ _ _ _ _ _ _ Hg).
  - by rewrite (ps_window _ _ _ _ _ _ _ _ Hset), (gr_window _ _ _ _ _ _ _ Hg).
  - intros q js Hq Hz. rewrite (ps_entry _ _ _ _ _ _ _ _ Hset) by done. by rewrite He1.
  - intros f i Hf Hi Hn Hnew. rewrite (ps_words _ _ _ _ _ _ _ _ Hset); [by apply Hg|done|done| |set_solver].
    unfold space_frames in *. rewrite (gr_owned _ _ _ _ _ _ _ Hg). set_solver.
  - intros f. rewrite (ps_held _ _ _ _ _ _ _ _ Hset), Hh1, Hpe, elem_of_app.
    assert (f ∈ new -> f ∉ leaf_frame (page_entry s p va)); [|set_solver].
    intros Hn%(tk_free _ _ _ (gr_takes _ _ _ _ _ _ _ Hg)) Hl%(page_frame_held _ _ _ _ _ _ Hs Hp Hva).
    by eapply used_not_free; [apply Hs|].
Qed.

Lemma map_page_in_spec ks ps s p va pa flags :
  spaces ks ps s -> p ∈ ps -> user_va va ->
  (forall f, f ∈ leaf_frame (pte_set pa flags) -> used (vm_pmm s) f /\
     (f ∈ held ks ps s -> f ∈ leaf_frame (page_entry s p va))) ->
  match map_page_in p va pa flags s with
  | Ok (_, s') => exists new, page_set ks ps s s' p va (pte_set pa flags) new
  | Err e => stops 3 s e
  end.
Proof.
  intros Hs Hp Hva Hv. unfold map_page_in. set (user := negb _).
  pose proof (create_spec user_allowed user_allowed_nodup user_allowed_idx user 3 [] p s (idxs va)
    (sp_pmm _ _ _ Hs) (spaces_tree _ _ _ _ Hs Hp) (user_va_path va Hva)) as Hc.
  destruct (create user p (idxs va) s) as [ [ [p1 i] s1]|e] eqn:Ec; cycle 1.
  { erewrite mm_bind_err by by rewrite walk_or_create_eq. done. }
  destruct Hc as (new & Hg & Hsl). erewrite mm_bind_ok by by rewrite walk_or_create_eq. cbn beta iota.
  destruct (grown_spaces _ _ _ _ _ _ Hs Hp Hg) as (Hs1 & Hh1 & He1).
  rewrite store_entry_ok by (eapply (slot_at_window user_allowed); [by apply Hs1|by apply user_va_path|done]).
  exists new. eapply grown_page_set; [done..|]. apply put_spaces; [done..|].
  intros f Hf. destruct (Hv f Hf) as [Hu Hh]. split.
  - apply (tk_used _ _ _ (gr_takes _ _ _ _ _ _ _ Hg)). by left.
  - rewrite Hh1. unfold page_entry. rewrite He1 by (done || apply leaf_path_zone, user_va_path; done).
    intros [Hn|Hn]%elem_of_app; [|by apply Hh]. exfalso. eapply used_not_free; [exact Hu|].
    by apply (tk_free _ _ _ (gr_takes _ _ _ _ _ _ _ Hg)).
Qed.

Lemma walk_existing_ok ks ps s p va : spaces ks ps s -> p ∈ ps -> user_va va ->
  walk_existing p va s = Ok (slot_at (vm_mem s) p (idxs va), s).
Proof.
  intros Hs Hp Hva. change (walk_existing p va s) with (existing p (idxs va) s).
  apply (existing_spec user_allowed 3 []); [by apply Hs|by apply user_va_path].
Qed.

(** A walk that found its slot, and the load of the entry there. *)
Lemma walk_load ks ps s p va {A} (none : MM A) (k : Z -> Z -> Z -> MM A) :
  spaces ks ps s -> p ∈ ps -> user_va va ->
  (w ← walk_existing p va;
   match w with None => none | Some (p1, i) => entry ← load_entry p1 i; k p1 i entry end) s
  = match slot_at (vm_mem s) p (idxs va) with
    | None => none s
    | Some (p1, i) => k p1 i (page_entry s p va) s
    end.
Proof.
  intros Hs Hp Hva. erewrite mm_bind_ok by by eapply walk_existing_ok.
  destruct (slot_at _ _ _) as [ [p1 i]|] eqn:Hsl; [|done].
  erewrite mm_bind_ok by (apply load_entry_ok; eapply (slot_at_window user_allowed);
    [by apply Hs|by apply user_va_path|done]).
  unfold page_entry. by erewrite slot_at_entry.
Qed.

(** The frame an entry maps, if any. *)
Definition maps (e : Z) : option Z := if pte_is_present e then Some (pte_address e) else None.

Lemma query_page_in_spec ks ps s p va : spaces ks ps s -> p ∈ ps -> user_va va ->
  query_page_in p va s = Ok (maps (page_entry s p va), s).
Proof.
  intros Hs Hp Hva. unfold query_page_in. erewrite walk_load by done.
  destruct (slot_at _ _ _) as [ [p1 i]|] eqn:Hsl; [done|].
  unfold page_entry. by rewrite (slot_at_None _ _ _ Hsl).
Qed.

Lemma unmap_page_in_spec ks ps s p va : spaces ks ps s -> p ∈ ps -> user_va va ->
  exists s', unmap_page_in p va s = Ok (maps (page_entry s p va), s') /\
    (if pte_is_present (page_entry s p va) then page_set ks ps s s' p va 0 [] else s' = s).
Proof.
  intros Hs Hp Hva. unfold unmap_page_in. erewrite walk_load by done. unfold maps.
  destruct (slot_at _ _ _) as [ [p1 i]|] eqn:Hsl; cycle 1.
  { exists s. unfold page_entry. by rewrite (slot_at_None _ _ _ Hsl). }
  destruct (pte_is_present (page_entry s p va)) eqn:Hpr; cbn [negb]; [|by exists s].
  assert (p1 < vm_window s) as Hw by (eapply (slot_at_window user_allowed);
    [by apply Hs|by apply user_va_path|done]).
  erewrite mm_bind_ok by by apply store_entry_ok. eexists. split; [done|].
  apply put_spaces; [done..|]. by intros f Hf%elem_of_nil.
Qed.

Lemma update_page_flags_in_spec ks ps s p va flags : spaces ks ps s -> p ∈ ps -> user_va va ->
  let v := pte_set (pte_address (page_entry s p va)) flags in
  (forall f, f ∈ leaf_frame v -> f ∈ leaf_frame (page_entry s p va)) ->
  exists s', update_page_flags_in p va flags s = Ok (tt, s') /\
    (if pte_is_present (page_entry s p va) then page_set ks ps s s' p va v [] else s' = s).
Proof.
  intros Hs Hp Hva v Hv. unfold update_page_flags_in. erewrite walk_load by done.
  destruct (slot_at _ _ _) as [ [p1 i]|] eqn:Hsl; cycle 1.
  { exists s. unfold page_entry. by rewrite (slot_at_None _ _ _ Hsl). }
  destruct (pte_is_present (page_entry s p va)) eqn:Hpr; [|by exists s].
  assert (p1 < vm_window s) as Hw by (eapply (slot_at_window user_allowed);
    [by apply Hs|by apply user_va_path|done]).
  rewrite store_entry_ok by done. eexists. split; [done|].
  apply put_spaces; [done..|]. intros f Hf%Hv. split; [|done]. apply (sp_used _ _ _ Hs). by eapply page_frame_held.
Qed.

(** C0. Page tables implement a map from pages to entries. [map_page_in]
    stores the requested entry for its page in its address space and leaves the
    entry of every other page, of this and of every other address space, as it
    was, together with the kernel half of every PML4 and all tables of the
    kernel; a lookup then answers from that map, and all frames of all spaces
    stay in use and distinct. It stops only if fewer than three frames are left
    for tables, or if one of those is beyond the direct map. *)
Theorem map_page_in_exact ks ps s p va pa flags :
  spaces ks ps s -> p ∈ ps -> user_va va ->
  (forall f, f ∈ leaf_frame (pte_set pa flags) -> used (vm_pmm s) f /\ f ∉ held ks ps s) ->
  match map_page_in p va pa flags s with
  | Ok (_, s') => spaces ks ps s' /\
      (forall q va', q ∈ ps -> user_va va' ->
         page_entry s' q va' = (if decide (q = p /\ va' / 4096 = va / 4096) then pte_set pa flags
                                else page_entry s q va') /\
         query_page_in q va' s' = Ok (maps (page_entry s' q va'), s')) /\
      (forall q i, q ∈ ps -> 256 <= i < 512 -> word (vm_mem s') q i = word (vm_mem s) q i) /\
      (forall f i, f ∈ ks -> idx i -> word (vm_mem s') f i = word (vm_mem s) f i)
  | Err e => stops 3 s e
  end.
Proof.
  intros Hs Hp Hva Hv. pose proof (map_page_in_spec ks ps s p va pa flags Hs Hp Hva) as Hm.
  destruct (map_page_in p va pa flags s) as [ [u s']|e]; cycle 1.
  { apply Hm. intros f Hf. destruct (Hv f Hf). by split. }
  destruct Hm as [new Hset]; [intros f Hf; destruct (Hv f Hf); by split|].
  split; [apply Hset|]. split; [|split].
  - intros q va' Hq Hva'. split; [by eapply page_entry_set|].
    eapply query_page_in_spec; [apply Hset|done|done].
  - intros q i Hq Hi. pose proof (ps_entry _ _ _ _ _ _ _ _ Hset q [i] Hq (kernel_half_path i Hi)) as He.
    rewrite decide_False in He by (intros [_ ?]; discriminate). exact He.
  - intros f i Hf Hi. assert (used (vm_pmm s) f) as Hu by (apply Hs, elem_of_app; by left).
    apply (ps_words _ _ _ _ _ _ _ _ Hset); [by apply frame_addr_range, (used_frame (vm_pmm s))|done| |].
    + intros Hfp. pose proof (sp_nodup _ _ _ Hs) as (_ & Hd & _)%NoDup_app. apply (Hd f Hf), elem_of_spaces. by exists p.
    + intros Hn%(tk_free _ _ _ (ps_takes _ _ _ _ _ _ _ _ Hset)). by eapply used_not_free.
Qed.
