(* ===== verification/VmmPages.v ===== *)
(** * The contents of user pages

    Bytes of physical memory, and what a write into the frame of a user page
    leaves alone: page tables are made of other frames, so the address spaces
    and all their entries stay as they are. *)

From S2P Require Import Prelude Pmm Vmm VmmTree VmmSpaces.

#[local] Open Scope Z_scope.

(** ** Bytes *)

(** The byte [k] of a word. *)
Definition word_byte (w k : Z) : Z := w / 256 ^ k mod 256.

Definition set_word_byte (w k b : Z) : Z := w + (b - word_byte w k) * 256 ^ k.

(** The word that holds the byte at [a]. *)
Definition byte_at (m : Mem) (a : Z) : Z := word_byte (default 0 (m !! (8 * (a / 8)))) (a mod 8).

Definition put_byte (a b : Z) (m : Mem) : Mem :=
  <[8 * (a / 8) := set_word_byte (default 0 (m !! (8 * (a / 8)))) (a mod 8) b]> m.

(** [copy_nonoverlapping] of [bs] to [a] on. *)
Fixpoint put_bytes (a : Z) (bs : list Z) (m : Mem) : Mem :=
  match bs with
  | [] => m
  | b :: bs' => put_bytes (a + 1) bs' (put_byte a b m)
  end.

Lemma word_byte_set w k b k' : 0 <= b < 256 -> 0 <= k -> 0 <= k' ->
  word_byte (set_word_byte w k b) k' = if decide (k' = k) then b else word_byte w k'.
Proof.
  intros Hb Hk Hk'. unfold set_word_byte, word_byte at 1.
  assert (0 < 256 ^ k) as Hp by (apply Z.pow_pos_nonneg; lia).
  pose proof (Z.div_mod w (256 ^ k) ltac:(lia)) as Hw. pose proof (Z.mod_pos_bound w (256 ^ k) Hp) as Hr.
  destruct (decide (k' = k)) as [->|Hne].
  { rewrite Z.div_add by lia. unfold word_byte. rewrite Z.add_mod, Zminus_mod, !Z.mod_mod, <- Zminus_mod, <- Z.add_mod by lia.
    replace (w / 256 ^ k + (b - w / 256 ^ k)) with b by lia. by apply Z.mod_small. }
  destruct (Z.lt_total k' k) as [Hlt|[?|Hlt] ]; [|lia|].
  - replace (256 ^ k) with (256 ^ (k - k' - 1) * 256 * 256 ^ k').
    2:{ change 256 with (256 ^ 1) at 2. rewrite <- !Z.pow_add_r by lia. f_equal. lia. }
    rewrite Z.mul_assoc, Z.div_add by (apply Z.pow_nonzero; lia). rewrite Z.mul_assoc, Z.mod_add by lia. done.
  - assert (256 ^ k' = 256 ^ (k + 1) * 256 ^ (k' - k - 1)) as -> by (rewrite <- Z.pow_add_r by lia; f_equal; lia).
    assert (0 < 256 ^ (k' - k - 1)) by (apply Z.pow_pos_nonneg; lia).
    unfold word_byte at 2. assert (256 ^ k' = 256 ^ (k + 1) * 256 ^ (k' - k - 1)) as -> by (rewrite <- Z.pow_add_r by lia; f_equal; lia).
    rewrite <- !Z.div_div by lia. do 2 f_equal.
    rewrite Z.pow_add_r, <- !Z.div_div by lia. rewrite Z.div_add by lia. unfold word_byte. rewrite Z.pow_1_r.
    set (q := w / 256 ^ k). pose proof (Z.div_mod q 256). pose proof (Z.mod_pos_bound q 256).
    replace (q + (b - q mod 256)) with (b + q / 256 * 256) by lia. rewrite Z.div_add, (Z.div_small b) by lia. lia.
Qed.

Lemma byte_at_put m a b a' : 0 <= b < 256 -> byte_at (put_byte a b m) a' = if decide (a' = a) then b else byte_at m a'.
Proof.
  intros Hb. unfold byte_at, put_byte. pose proof (Z.mod_pos_bound a 8). pose proof (Z.mod_pos_bound a' 8).
  pose proof (Z.div_mod a 8). pose proof (Z.div_mod a' 8). destruct (decide (a' / 8 = a / 8)) as [E|E].
  - rewrite E, lookup_insert_eq. cbn [from_option]. change (id ?x) with x. rewrite word_byte_set by lia. repeat case_decide; try done; lia.
  - rewrite lookup_insert_ne by lia. rewrite decide_False by congruence. done.
Qed.

Lemma byte_at_puts bs : forall m a a', Forall (fun b => 0 <= b < 256) bs ->
  byte_at (put_bytes a bs m) a' = if decide (a <= a' < a + Z.of_nat (length bs)) then nth (Z.to_nat (a' - a)) bs 0 else byte_at m a'.
Proof.
  induction bs as [|b bs IH]; intros m a a' Hb; [by rewrite decide_False by (cbn; lia)|]. apply Forall_cons in Hb as [Hb Hbs].
  cbn [put_bytes length]. rewrite IH, byte_at_put by done. destruct (decide (a' = a)) as [->|Hne].
  - rewrite decide_False, decide_True by lia. by rewrite Z.sub_diag.
  - destruct (decide (a + 1 <= a' < a + 1 + Z.of_nat (length bs))).
    + rewrite decide_True by lia. replace (Z.to_nat (a' - a)) with (S (Z.to_nat (a' - (a + 1)))) by lia. done.
    + by rewrite decide_False by lia.
Qed.

Lemma put_bytes_app x : forall a y m, put_bytes a (x ++ y) m = put_bytes (a + Z.of_nat (length x)) y (put_bytes a x m).
Proof.
  induction x as [|b x IH]; intros a y m; cbn [app put_bytes length]; [by rewrite Z.add_0_r|]. rewrite IH. f_equal. lia.
Qed.

(** The words of the other frames. *)
Lemma word_put_byte m a b g i : aligned g -> idx i -> ~ (g <= a < g + 4096) -> word (put_byte a b m) g i = word m g i.
Proof.
  intros Hg Hi Ha. unfold word, put_byte. rewrite lookup_insert_ne; [done|]. unfold aligned, idx in *.
  pose proof (Z.div_mod a 8). pose proof (Z.mod_pos_bound a 8). pose proof (Z.div_mod g 4096). lia.
Qed.

Lemma word_puts bs : forall m a f g i, aligned f -> aligned g -> idx i -> g <> f -> f <= a -> a + Z.of_nat (length bs) <= f + 4096 ->
  word (put_bytes a bs m) g i = word m g i.
Proof.
  induction bs as [|b bs IH]; intros m a f g i Hf Hg Hi Hne Ha Hl; [done|]. cbn [put_bytes length] in *.
  rewrite (IH _ _ f) by (done || lia). apply word_put_byte; [done|done|]. unfold aligned in *.
  pose proof (Z.div_mod f 4096). pose proof (Z.div_mod g 4096). lia.
Qed.

Lemma word_byte_0 k : word_byte 0 k = 0.
Proof. unfold word_byte. by rewrite Zdiv_0_l. Qed.

(** A zeroed frame. *)
Lemma byte_at_zero f m a : aligned f -> f <= a < f + 4096 -> byte_at (zero_frame f m) a = 0.
Proof.
  intros Hf Ha. unfold byte_at. assert (8 * (a / 8) = f + 8 * ((a - f) / 8)) as ->.
  { unfold aligned in Hf. pose proof (Z.div_mod f 4096). pose proof (Z.div_mod a 8). pose proof (Z.div_mod (a - f) 8).
    pose proof (Z.mod_pos_bound a 8). pose proof (Z.mod_pos_bound (a - f) 8). lia. }
  change (default 0 (zero_frame f m !! (f + 8 * ((a - f) / 8)))) with (word (zero_frame f m) f ((a - f) / 8)).
  pose proof (Z.div_mod (a - f) 8). pose proof (Z.mod_pos_bound (a - f) 8).
  rewrite word_zero, decide_True; [apply word_byte_0|done|done|done|]. unfold idx. lia.
Qed.

(** ** The frames of tables and those of pages *)

Section tables.
Variable allowed : list Z -> list Z.
Hypothesis allowed_nodup : forall path, NoDup (allowed path).
Hypothesis allowed_idx : forall path i, i ∈ allowed path -> idx i.

(** The tables below [t]. *)
Fixpoint tables (n : nat) (path : list Z) (m : Mem) (t : Z) : list Z :=
  match n with
  | O => []
  | S n' => allowed path ≫= fun i =>
      if pte_is_present (word m t i) then tables n' (path ++ [i]) m (pte_address (word m t i)) ++ [pte_address (word m t i)] else []
  end.

Lemma tables_owned n : forall path m t f, f ∈ tables n path m t -> f ∈ owned allowed n path m t.
Proof.
  induction n as [|n IH]; intros path m t f; [by intros ?%elem_of_nil|]. cbn [tables]. rewrite owned_S. intros (i & Hf & Hi)%list_elem_of_bind.
  apply list_elem_of_bind. exists i. split; [|done]. unfold child. destruct (pte_is_present _); [|done].
  apply elem_of_app in Hf as [Hf|Hf]; apply elem_of_app; [left; by apply IH|by right].
Qed.

(** A tree depends on the words of its tables only. *)
Lemma tables_agree n : forall path w m m' t,
  agree (t :: tables n path m t) m m' ->
  owned allowed n path m' t = owned allowed n path m t /\
  (shape allowed n path w m t -> shape allowed n path w m' t) /\
  (forall js, zone allowed n path js -> entry_at m' t js = entry_at m t js) /\
  tables n path m' t = tables n path m t.
Proof.
  induction n as [|n IH]; intros path w m m' t Ha;
    assert (forall i, idx i -> word m' t i = word m t i) as Hw by (intros i; apply Ha; apply list_elem_of_here).
  - split; [|split; [done|split; [|done] ] ].
    + rewrite !owned_0. apply bind_ext_in. intros i Hi%elem_of_all_idx. by rewrite Hw.
    + intros js (j & -> & Hj). cbn. by rewrite Hw.
  - assert (forall i, i ∈ allowed path -> pte_is_present (word m t i) = true ->
      agree (pte_address (word m t i) :: tables n (path ++ [i]) m (pte_address (word m t i))) m m') as Hc.
    { intros i Hi Hp. eapply agree_incl; [|exact Ha]. intros f Hf. apply elem_of_cons. right. cbn [tables].
      apply list_elem_of_bind. exists i. split; [|done]. rewrite Hp, elem_of_app, list_elem_of_singleton. apply elem_of_cons in Hf. tauto. }
    split; [|split; [|split] ].
    + rewrite !owned_S. apply bind_ext_in. intros i Hi. unfold child. rewrite Hw by by eapply allowed_idx.
      destruct (pte_is_present _) eqn:Hp; [|done]. destruct (IH (path ++ [i]) w m m' _ (Hc i Hi Hp)) as [-> _]. done.
    + intros Hsh. apply shape_S_intro; [by eapply shape_window|]. intros i Hi. rewrite Hw by by eapply allowed_idx. intros Hp.
      destruct (shape_S _ _ _ _ _ _ _ Hsh Hi Hp) as [Hh Hsub]. split; [done|]. by apply (IH (path ++ [i]) w m m' _ (Hc i Hi Hp)).
    + intros js [(j & -> & Hj & _)|(j & r & -> & Hj & Hr)]; [cbn [entry_at]; by rewrite Hw|].
      pose proof (zone_nonempty _ allowed_idx _ _ _ Hr). rewrite !entry_at_cons, Hw by (done || by eapply allowed_idx).
      destruct (pte_is_present _) eqn:Hp; [|done]. by apply (IH (path ++ [j]) w m m' _ (Hc j Hj Hp)).
    + cbn [tables]. apply bind_ext_in. intros i Hi. rewrite Hw by by eapply allowed_idx.
      destruct (pte_is_present _) eqn:Hp; [|done]. by destruct (IH (path ++ [i]) w m m' _ (Hc i Hi Hp)) as (_ & _ & _ & ->).
Qed.

Lemma bind_same {A B} (l : list A) (f : A -> list B) i j x : NoDup (l ≫= f) -> i ∈ l -> j ∈ l -> x ∈ f i -> x ∈ f j -> i = j.
Proof.
  intros Hnd Hi Hj Hx Hy. induction l as [|a l IH]; [by apply elem_of_nil in Hi|].
  change (NoDup (f a ++ (l ≫= f))) in Hnd. apply NoDup_app in Hnd as (_ & Hd & Hnd).
  apply elem_of_cons in Hi as [->|Hi], Hj as [->|Hj]; [done| | |by apply IH].
  - destruct (Hd x Hx). apply list_elem_of_bind. by exists j.
  - destruct (Hd x Hy). apply list_elem_of_bind. by exists i.
Qed.

Lemma bind_nodup {A B} (l : list A) (f : A -> list B) i : NoDup (l ≫= f) -> i ∈ l -> NoDup (f i).
Proof.
  intros Hnd Hi. induction l as [|a l IH]; [by apply elem_of_nil in Hi|]. change (NoDup (f a ++ (l ≫= f))) in Hnd.
  apply NoDup_app in Hnd as (Ha & _ & Hnd). apply elem_of_cons in Hi as [->|Hi]; auto.
Qed.

(** The frame of a page is none of the tables, and of one page only. *)
Lemma leaf_frames n : forall path m t js js' f, NoDup (t :: owned allowed n path m t) ->
  leaf_path allowed n path js -> f ∈ leaf_frame (entry_at m t js) ->
  (f ∉ t :: tables n path m t) /\
  (leaf_path allowed n path js' -> f ∈ leaf_frame (entry_at m t js') -> js' = js).
Proof.
  induction n as [|n IH]; intros path m t js js' f Hnd Hjs Hf; pose proof (proj1 (NoDup_cons _ _) Hnd) as [Ht Hnd'].
  - destruct Hjs as (j & -> & Hj). cbn [entry_at tables] in *.
    assert (forall i, idx i -> f ∈ leaf_frame (word m t i) -> f ∈ owned allowed 0 path m t) as Hin.
    { intros i Hi Hfi. rewrite owned_0. apply list_elem_of_bind. exists i. split; [done|by apply elem_of_all_idx]. }
    split; [intros [->|Hn]%elem_of_cons; [by apply Ht, (Hin j)|by apply elem_of_nil in Hn]|].
    intros (j' & -> & Hj') Hf'. cbn [entry_at] in Hf'. rewrite owned_0 in Hnd'. f_equal.
    eapply (bind_same _ _ j' j f Hnd'); [by apply elem_of_all_idx..|done|done].
  - destruct Hjs as (j & r & -> & Hj & Hr). pose proof (zone_nonempty _ allowed_idx _ _ _ (leaf_path_zone _ _ _ _ Hr)) as Hne.
    rewrite entry_at_cons in Hf by done. destruct (pte_is_present (word m t j)) eqn:Hp; [|by apply elem_of_nil in Hf].
    assert (forall i q, i ∈ allowed path -> pte_is_present (word m t i) = true -> leaf_path allowed n (path ++ [i]) q ->
      f ∈ leaf_frame (entry_at m (pte_address (word m t i)) q) -> f ∈ child allowed n path m t i) as Hc.
    { intros i q Hi Hpi Hq Hfi. unfold child. rewrite Hpi. apply elem_of_app. left. by eapply leaf_owned. }
    pose proof (Hc j r Hj Hp Hr Hf) as Hcj.
    assert (forall i, i ∈ allowed path -> f ∈ child allowed n path m t i -> i = j) as Hsame.
    { intros i Hi Hfi. rewrite owned_S in Hnd'. by eapply (bind_same _ _ i j f Hnd'). }
    assert (NoDup (pte_address (word m t j) :: owned allowed n (path ++ [j]) m (pte_address (word m t j)))) as Hsub.
    { rewrite owned_S in Hnd'. pose proof (bind_nodup _ _ j Hnd' Hj) as Hn. unfold child in Hn. rewrite Hp in Hn.
      by rewrite (Permutation_app_comm _ [_]) in Hn. }
    destruct (IH (path ++ [j]) m _ r (tail js') f Hsub Hr Hf) as [Hnt Huniq]. split.
    + intros [->|Hin]%elem_of_cons; [by apply Ht, (elem_of_child _ _ _ _ _ j)|]. cbn [tables] in Hin.
      apply list_elem_of_bind in Hin as (i & Hin & Hi). destruct (pte_is_present (word m t i)) eqn:Hpi; [|by apply elem_of_nil in Hin].
      rewrite elem_of_app, list_elem_of_singleton in Hin. assert (i = j) as ->.
      { apply Hsame; [done|]. unfold child. rewrite Hpi, elem_of_app, list_elem_of_singleton. destruct Hin as [Hin|Hin]; [left|by right].
        by apply tables_owned. }
      apply Hnt, elem_of_cons. tauto.
    + intros (j' & r' & -> & Hj' & Hr') Hf'. pose proof (zone_nonempty _ allowed_idx _ _ _ (leaf_path_zone _ _ _ _ Hr')) as Hne'.
      rewrite entry_at_cons in Hf' by done. destruct (pte_is_present (word m t j')) eqn:Hp'; [|by apply elem_of_nil in Hf'].
      assert (j' = j) as -> by (apply Hsame; [done|]; by eapply Hc). f_equal. by apply Huniq.
Qed.

(** A walk ends in a table. *)
Lemma slot_table n : forall path m t js t1 i, leaf_path allowed n path js -> slot_at m t js = Some (t1, i) ->
  t1 ∈ t :: tables n path m t /\ idx i.
Proof.
  induction n as [|n IH]; intros path m t js t1 i Hjs Hsl.
  - destruct Hjs as (j & -> & Hj). injection Hsl as <- <-. split; [apply list_elem_of_here|done].
  - destruct Hjs as (j & r & -> & Hj & Hr). rewrite slot_at_cons in Hsl by by eapply zone_nonempty, leaf_path_zone.
    destruct (pte_is_present (word m t j)) eqn:Hp; [|done]. destruct (IH _ _ _ _ _ _ Hr Hsl) as [Ht Hi]. split; [|done].
    apply elem_of_cons. right. cbn [tables]. apply list_elem_of_bind. exists j. split; [|done].
    rewrite Hp, elem_of_app, list_elem_of_singleton. apply elem_of_cons in Ht. tauto.
Qed.

(** A walk that creates what is missing writes to tables only. *)
Lemma create_words user n : forall path t s js slot s', pmm_wf (vm_pmm s) -> tree allowed n path s t -> leaf_path allowed n path js ->
  create user t js s = Ok (slot, s') ->
  forall f i, used (vm_pmm s) f -> idx i -> f ∉ t :: tables n path (vm_mem s) t -> word (vm_mem s') f i = word (vm_mem s) f i.
Proof.
  induction n as [|n IH]; intros path t s js slot s' Hw Htree Hjs Hc f i Hf Hi Hnt.
  - destruct Hjs as (j & -> & Hj). by injection Hc as _ <-.
  - destruct Hjs as (j & r & -> & Hj & Hr). pose proof (zone_nonempty _ allowed_idx _ _ _ (leaf_path_zone _ _ _ _ Hr)) as Hne.
    replace (create user t (j :: r)) with (descend_create user t j ≫= fun t1 => create user t1 r) in Hc by by destruct r.
    assert (used (vm_pmm s) t) as Hu by (apply (tr_used _ _ _ _ _ Htree); apply list_elem_of_here).
    pose proof (descend_create_spec user t j s Hw (used_frame _ _ Hu) (used_not_free _ _ Hu)
      (allowed_idx _ _ Hj) (shape_window _ _ _ _ _ _ (tr_shape _ _ _ _ _ Htree))
      (fun Hp => proj1 (shape_S _ _ _ _ _ _ _ (tr_shape _ _ _ _ _ Htree) Hj Hp))) as Hd.
    destruct (descend_create user t j s) as [ [t1 s1]|e] eqn:Ed; [|by rewrite (mm_bind_err _ _ _ _ Ed) in Hc].
    rewrite (mm_bind_ok _ _ _ _ _ Ed) in Hc. destruct Hd as [new1 Hd].
    destruct (descends_sub _ allowed_nodup allowed_idx n path t j s t1 s1 new1 Htree Hj Hd) as (Hsub & _).
    pose proof (ds_takes _ _ _ _ _ _ Hd) as Htk. pose proof (used_frame _ _ Hf) as Hfa. pose proof (proj1 (frame_addr_range _ Hfa)) as Hal.
    assert (f ∉ new1) as Hn1 by (intros H%(tk_free _ _ _ Htk); exact (used_not_free _ _ Hf H)).
    assert (f <> t) as Hft by (intros ->; apply Hnt, list_elem_of_here).
    rewrite (IH _ _ _ _ _ _ (tk_wf _ _ _ Htk) Hsub Hr Hc f i); [|by apply (tk_used _ _ _ Htk); left|done|].
    { apply (ds_words _ _ _ _ _ _ Hd); [done|done|done|naive_solver]. }
    pose proof (ds_old _ _ _ _ _ _ Hd) as Ho. destruct (pte_is_present (word (vm_mem s) t j)) eqn:Hp.
    + destruct Ho as [-> Ht1].
      assert (forall g, g ∈ t1 :: tables n (path ++ [j]) (vm_mem s) t1 -> g ∈ tables (S n) path (vm_mem s) t) as Hin.
      { intros g Hg. cbn [tables]. apply list_elem_of_bind. exists j. split; [|done]. rewrite Hp, Ht1, elem_of_app, list_elem_of_singleton.
        apply elem_of_cons in Hg. tauto. }
      assert (agree (t1 :: tables n (path ++ [j]) (vm_mem s) t1) (vm_mem s) (vm_mem s1)) as Hag.
      { intros g k Hg%Hin%tables_owned Hk. apply (ds_words _ _ _ _ _ _ Hd); [|done|apply not_elem_of_nil|].
        - apply frame_addr_range, (used_frame (vm_pmm s)), (tr_used _ _ _ _ _ Htree), elem_of_cons. by right.
        - intros [-> _]. by pose proof (tr_nodup _ _ _ _ _ Htree) as [Hn _]%NoDup_cons. }
      destruct (tables_agree n (path ++ [j]) 0 _ _ t1 Hag) as (_ & _ & _ & ->).
      intros Hg%Hin. apply Hnt, elem_of_cons. by right.
    + destruct Ho as (-> & _ & Hz). intros [->|Hg]%elem_of_cons; [by apply Hn1, list_elem_of_here|]. destruct n as [|n]; [by apply elem_of_nil in Hg|].
      cbn [tables] in Hg. apply list_elem_of_bind in Hg as (k & Hg & Hk). rewrite Hz in Hg by by eapply allowed_idx. by apply elem_of_nil in Hg.
Qed.

End tables.

(** ** Writing to a page *)

Section write.
Context (ks ps : list Z) (s : Vm) (p va f : Z) (m' : Mem).
Hypothesis Hs : spaces ks ps s.
Hypothesis Hp : p ∈ ps.
Hypothesis Hva : user_va va.
Hypothesis Hf : f ∈ leaf_frame (page_entry s p va).
Hypothesis Hw : forall g i, aligned g -> idx i -> g <> f -> word m' g i = word (vm_mem s) g i.

Lemma write_frame : f ∈ space_frames (vm_mem s) p.
Proof. apply elem_of_cons. right. by eapply leaf_owned; [apply user_allowed_nodup|apply user_allowed_idx|apply user_va_path|]. Qed.

Lemma held_aligned g : g ∈ held ks ps s -> aligned g.
Proof. intros Hg%(sp_used _ _ _ Hs)%used_frame. by apply frame_addr_range. Qed.

Lemma write_agree q : q ∈ ps -> agree (q :: tables user_allowed 3 [] (vm_mem s) q) (vm_mem s) m'.
Proof.
  intros Hq g i Hg Hi. assert (g ∈ space_frames (vm_mem s) q) as Hgq.
  { apply elem_of_cons in Hg as [->|Hg]; apply elem_of_cons; [by left|right]. by apply tables_owned. }
  apply Hw; [|done|].
  - apply held_aligned. apply elem_of_app. right. apply elem_of_spaces. by exists q.
  - intros ->. assert (p = q) as <- by by eapply spaces_disjoint; [..|exact write_frame|exact Hgq].
    destruct (leaf_frames user_allowed user_allowed_nodup user_allowed_idx 3 [] (vm_mem s) p (idxs va) (idxs va) f
      (tr_nodup _ _ _ _ _ (spaces_tree ks ps s p Hs Hp)) (user_va_path va Hva) Hf) as [Hn _]. exact (Hn Hg).
Qed.

Lemma write_space q : q ∈ ps -> space_frames m' q = space_frames (vm_mem s) q /\
  (shape user_allowed 3 [] (vm_window s) (vm_mem s) q -> shape user_allowed 3 [] (vm_window s) m' q) /\
  forall js, zone user_allowed 3 [] js -> entry_at m' q js = entry_at (vm_mem s) q js.
Proof.
  intros Hq. destruct (tables_agree user_allowed user_allowed_idx 3 [] (vm_window s) (vm_mem s) m' q (write_agree q Hq)) as (Ho & Hsh & He & _).
  split; [|done]. unfold space_frames. by rewrite Ho.
Qed.

Lemma write_kernel g i : g ∈ ks -> idx i -> word m' g i = word (vm_mem s) g i.
Proof.
  intros Hg Hi. apply Hw; [apply held_aligned, elem_of_app; by left|done|]. intros ->.
  pose proof (sp_nodup _ _ _ Hs) as (_ & Hd & _)%NoDup_app. apply (Hd f Hg), elem_of_spaces. exists p. split; [done|exact write_frame].
Qed.

Lemma write_held : held ks ps (with_mem m' s) = held ks ps s.
Proof. unfold held. cbn [vm_mem with_mem]. f_equal. apply bind_ext_in. intros q Hq. by apply write_space. Qed.

(** A write to the frame of a page changes no address space. *)
Lemma write_spaces : spaces ks ps (with_mem m' s) /\
  forall q js, q ∈ ps -> zone user_allowed 3 [] js -> entry_at m' q js = entry_at (vm_mem s) q js.
Proof.
  split; [|intros q js Hq; by apply write_space]. assert (idx 0) as H0 by (unfold idx; lia).
  assert (identity_frames (with_mem m' s) = identity_frames s /\ shared_pd (with_mem m' s) = shared_pd s) as [Hid Hpd].
  { unfold identity_frames, shared_pd. cbn [vm_mem vm_pml4 with_mem].
    rewrite !(write_kernel (vm_pml4 s) 0) by (done || apply (sp_kernel _ _ _ Hs); set_solver).
    by rewrite !(write_kernel (pte_address (word (vm_mem s) (vm_pml4 s) 0)) 0) by (done || apply (sp_kernel _ _ _ Hs); set_solver). }
  pose proof write_held as Hh. unfold held in Hh. destruct Hs as [H1 H2 H3 H4 H5 H6].
  split; cbn [vm_pmm vm_window vm_mem with_mem] in *; [done|by rewrite Hh|by rewrite Hh| | |by rewrite Hid].
  - intros q Hq. by apply write_space, H4.
  - intros q Hq. rewrite Hpd. destruct (write_space q Hq) as (_ & _ & He). rewrite He by apply identity_path. by apply H5.
Qed.

End write.

(** No two pages of a space share a frame. *)
Lemma page_frame_unique ks ps s p va va' f : spaces ks ps s -> p ∈ ps -> user_va va -> user_va va' ->
  f ∈ leaf_frame (page_entry s p va) -> f ∈ leaf_frame (page_entry s p va') -> va' / 4096 = va / 4096.
Proof.
  intros Hs Hp Hva Hva' Hf Hf'. apply idxs_inj; [unfold user_va in *; lia..|].
  destruct (leaf_frames user_allowed user_allowed_nodup user_allowed_idx 3 [] (vm_mem s) p (idxs va) (idxs va') f
    (tr_nodup _ _ _ _ _ (spaces_tree ks ps s p Hs Hp)) (user_va_path va Hva) Hf) as [_ Hu].
  exact (Hu (user_va_path va' Hva') Hf').
Qed.

(** ** Mapping does not touch the contents of pages *)

Section keeps.
Context (ks ps : list Z) (s : Vm) (p : Z).
Hypothesis Hs : spaces ks ps s.
Hypothesis Hp : p ∈ ps.

Lemma page_not_table va f : user_va va -> f ∈ leaf_frame (page_entry s p va) -> f ∉ p :: tables user_allowed 3 [] (vm_mem s) p.
Proof.
  intros Hva Hf. exact (proj1 (leaf_frames user_allowed user_allowed_nodup user_allowed_idx 3 [] (vm_mem s) p (idxs va) (idxs va) f
    (tr_nodup _ _ _ _ _ (spaces_tree ks ps s p Hs Hp)) (user_va_path va Hva) Hf)).
Qed.

(** A store into a slot of the tables. *)
Lemma slot_store_keeps va v t1 i va2 f k : user_va va -> user_va va2 -> slot_at (vm_mem s) p (idxs va) = Some (t1, i) ->
  f ∈ leaf_frame (page_entry s p va2) -> idx k -> word (put_word t1 i v (vm_mem s)) f k = word (vm_mem s) f k.
Proof.
  intros Hva Hva2 Hsl Hf Hk. destruct (slot_table user_allowed user_allowed_idx 3 [] _ _ _ _ _ (user_va_path va Hva) Hsl) as [Ht Hi].
  assert (forall g, g ∈ space_frames (vm_mem s) p -> aligned g) as Hal.
  { intros g Hg. apply (held_aligned ks ps s Hs), elem_of_app. right. apply elem_of_spaces. by exists p. }
  rewrite word_put, decide_False; [done| | | |done|done].
  - intros [<- _]. exact (page_not_table va2 t1 Hva2 Hf Ht).
  - apply Hal. apply elem_of_cons in Ht as [->|Ht]; apply elem_of_cons; [by left|right]. by apply tables_owned.
  - by eapply Hal, write_frame.
Qed.

End keeps.

Lemma map_page_keeps ks ps s p va pa flags s' va2 f k : spaces ks ps s -> p ∈ ps -> user_va va -> user_va va2 ->
  map_page_in p va pa flags s = Ok (tt, s') -> f ∈ leaf_frame (page_entry s p va2) -> idx k -> word (vm_mem s') f k = word (vm_mem s) f k.
Proof.
  intros Hs Hp Hva Hva2 Hm Hf Hk. unfold map_page_in in Hm. set (user := negb _) in Hm.
  pose proof (spaces_tree _ _ _ _ Hs Hp) as Htree. pose proof (sp_pmm _ _ _ Hs) as Hw. pose proof (user_va_path va Hva) as Hpath.
  pose proof (create_spec user_allowed user_allowed_nodup user_allowed_idx user 3 [] p s (idxs va) Hw Htree Hpath) as Hc.
  destruct (create user p (idxs va) s) as [ [ [p1 i] s1]|e] eqn:Ec; cycle 1.
  { erewrite mm_bind_err in Hm by by rewrite walk_or_create_eq. done. }
  destruct Hc as (new & Hg & Hsl). erewrite mm_bind_ok in Hm by by rewrite walk_or_create_eq. cbn beta iota in Hm.
  destruct (grown_spaces _ _ _ _ _ _ Hs Hp Hg) as (Hs1 & Hh1 & He1).
  assert (p1 < vm_window s1) as Hwin by (eapply (slot_at_window user_allowed); [by apply Hs1|exact Hpath|exact Hsl]).
  rewrite store_entry_ok in Hm by done. injection Hm as <-. cbn [vm_mem with_mem].
  assert (page_entry s1 p va2 = page_entry s p va2) as Hpe by (apply He1; [done|]; by apply leaf_path_zone, user_va_path).
  assert (f ∈ leaf_frame (page_entry s1 p va2)) as Hf1 by by rewrite Hpe.
  rewrite (slot_store_keeps ks ps s1 p Hs1 Hp va _ p1 i va2 f k Hva Hva2 Hsl Hf1 Hk).
  apply (create_words user_allowed user_allowed_nodup user_allowed_idx user 3 [] p s (idxs va) _ _ Hw Htree Hpath Ec); [|done|].
  - apply (sp_used _ _ _ Hs). by eapply page_frame_held.
  - by eapply page_not_table.
Qed.

Lemma update_flags_keeps ks ps s p va flags s' va2 f k : spaces ks ps s -> p ∈ ps -> user_va va -> user_va va2 ->
  update_page_flags_in p va flags s = Ok (tt, s') -> f ∈ leaf_frame (page_entry s p va2) -> idx k ->
  word (vm_mem s') f k = word (vm_mem s) f k.
Proof.
  intros Hs Hp Hva Hva2 Hu Hf Hk. unfold update_page_flags_in in Hu. erewrite walk_load in Hu by done.
  destruct (slot_at (vm_mem s) p (idxs va)) as [ [p1 i]|] eqn:Hsl; [|by injection Hu as <-].
  destruct (pte_is_present (page_entry s p va)); [|by injection Hu as <-].
  assert (p1 < vm_window s) as Hw by (eapply (slot_at_window user_allowed); [by apply Hs|exact (user_va_path va Hva)|exact Hsl]).
  rewrite store_entry_ok in Hu by done. injection Hu as <-. cbn [vm_mem with_mem].
  exact (slot_store_keeps ks ps s p Hs Hp va _ p1 i va2 f k Hva Hva2 Hsl Hf Hk).
Qed.

(** ** How many frames a mapping takes *)

(** [d] frames at most were taken since [s0], and none given back. *)
Definition drawn (s0 s : Vm) (d : Z) : Prop :=
  pm_free (vm_pmm s0) <= pm_free (vm_pmm s) + d /\ forall f, free (vm_pmm s) f -> free (vm_pmm s0) f.

Lemma drawn_takes s0 s d new q s' : drawn s0 s d -> takes (vm_pmm s) new q -> vm_pmm s' = q -> drawn s0 s' (d + Z.of_nat (length new)).
Proof.
  intros [Hc Hf] Ht <-. split; [rewrite (tk_count _ _ _ Ht); lia|]. intros f [Hin _]%(tk_left _ _ _ Ht). by apply Hf.
Qed.

Lemma drawn_none s0 s d s' : drawn s0 s d -> takes (vm_pmm s) [] (vm_pmm s') -> drawn s0 s' d.
Proof. intros Hd Ht. pose proof (drawn_takes _ _ _ _ _ _ Hd Ht eq_refl) as H. cbn in H. by rewrite Z.add_0_r in H. Qed.

Lemma drawn_mono s0 s d d' : drawn s0 s d -> d <= d' -> drawn s0 s d'.
Proof. intros [Hc Hf] Hd. split; [lia|done]. Qed.

Lemma create_takes allowed user n : (forall path, NoDup (allowed path)) -> (forall path i, i ∈ allowed path -> idx i) ->
  forall path t s js slot s', pmm_wf (vm_pmm s) -> tree allowed n path s t -> leaf_path allowed n path js ->
  create user t js s = Ok (slot, s') -> exists new, takes (vm_pmm s) new (vm_pmm s') /\ (length new <= n)%nat.
Proof.
  intros Hnd Hidx. induction n as [|n IH]; intros path t s js slot s' Hw Htree Hjs Hc.
  - destruct Hjs as (j & -> & Hj). injection Hc as _ <-. exists []. split; [by apply takes_nil|done].
  - destruct Hjs as (j & r & -> & Hj & Hr). pose proof (zone_nonempty _ Hidx _ _ _ (leaf_path_zone _ _ _ _ Hr)) as Hne.
    replace (create user t (j :: r)) with (descend_create user t j ≫= fun t1 => create user t1 r) in Hc by by destruct r.
    assert (used (vm_pmm s) t) as Hu by (apply (tr_used _ _ _ _ _ Htree); apply list_elem_of_here).
    pose proof (descend_create_spec user t j s Hw (used_frame _ _ Hu) (used_not_free _ _ Hu)
      (Hidx _ _ Hj) (shape_window _ _ _ _ _ _ (tr_shape _ _ _ _ _ Htree))
      (fun Hp => proj1 (shape_S _ _ _ _ _ _ _ (tr_shape _ _ _ _ _ Htree) Hj Hp))) as Hd.
    destruct (descend_create user t j s) as [ [t1 s1]|e] eqn:Ed; [|by rewrite (mm_bind_err _ _ _ _ Ed) in Hc].
    rewrite (mm_bind_ok _ _ _ _ _ Ed) in Hc. destruct Hd as [new1 Hd].
    destruct (descends_sub _ Hnd Hidx n path t j s t1 s1 new1 Htree Hj Hd) as (Hsub & _). pose proof (ds_takes _ _ _ _ _ _ Hd) as Htk.
    destruct (IH _ _ _ _ _ _ (tk_wf _ _ _ Htk) Hsub Hr Hc) as (new2 & Ht2 & Hl2). exists (new2 ++ new1). split; [by eapply takes_app|].
    rewrite length_app. pose proof (ds_old _ _ _ _ _ _ Hd) as Ho. destruct (pte_is_present _); destruct Ho as [-> _]; cbn; lia.
Qed.

Lemma map_page_takes ks ps s p va pa flags s' : spaces ks ps s -> p ∈ ps -> user_va va -> map_page_in p va pa flags s = Ok (tt, s') ->
  exists new, takes (vm_pmm s) new (vm_pmm s') /\ (length new <= 3)%nat.
Proof.
  intros Hs Hp Hva Hm. unfold map_page_in in Hm. set (user := negb _) in Hm.
  destruct (create user p (idxs va) s) as [ [ [p1 i] s1]|e] eqn:Ec; cycle 1.
  { erewrite mm_bind_err in Hm by by rewrite walk_or_create_eq. done. }
  erewrite mm_bind_ok in Hm by by rewrite walk_or_create_eq. cbn beta iota in Hm. unfold store_entry in Hm. destruct (_ <? _); [|done].
  injection Hm as <-. exact (create_takes user_allowed user 3 user_allowed_nodup user_allowed_idx [] p s (idxs va) _ s1 (sp_pmm _ _ _ Hs)
    (spaces_tree _ _ _ _ Hs Hp) (user_va_path va Hva) Ec).
Qed.
