(* ===== verification/VmmLife.v ===== *)
(** * Creating and releasing address spaces (kernel/src/vmm.rs)

    [create_user_page_table] yields an address space with no pages that shares
    the kernel's mappings; [free_user_page_table] returns exactly the frames of
    one address space to the frame allocator, each once, and never trips its
    assertions. *)

From S2P Require Import Prelude Pmm Vmm VmmTree VmmSpaces.

#[local] Open Scope Z_scope.

(** ** Releasing frames *)

(** [p'] is [p] with the frames [l] given back. *)
Record releases (p : Pmm) (l : list Z) (p' : Pmm) : Prop := {
  rl_wf : pmm_wf p';
  rl_used : forall f, used p' f <-> used p f /\ f ∉ l;
  rl_free : forall f, free p' f <-> free p f \/ f ∈ l;
  rl_count : pm_free p' = pm_free p + Z.of_nat (length l)
}.

Lemma free_frame_releases p f : pmm_wf p -> used p f ->
  exists p', free_frame p f = Some p' /\ releases p [f] p'.
Proof.
  intros Hw (k & -> & Hk & Hu). pose proof (free_frame_spec p k Hw Hk) as Hs. rewrite Hu in Hs.
  destruct Hs as (p' & -> & Hw' & Hc & Hu'). exists p'. split; [done|].
  assert (forall g, g * FRAME_SIZE = k * FRAME_SIZE <-> g = k) as Hinj by (change FRAME_SIZE with 4096; lia).
  split; [done| | |cbn; lia]; intros f; rewrite list_elem_of_singleton; split.
  - intros (g & -> & Hg & Hug). rewrite Hu' in Hug by lia. apply andb_true_iff in Hug as [Hne Hug].
    apply negb_true_iff, Z.eqb_neq in Hne. rewrite Hinj. split; [by exists g|lia].
  - intros [(g & -> & Hg & Hug) Hne]. rewrite Hinj in Hne. exists g. do 2 (split; [done|]).
    rewrite Hu', Hug by lia. rewrite andb_true_r. apply negb_true_iff, Z.eqb_neq. lia.
  - intros (g & -> & Hg & Hug). rewrite Hu' in Hug by lia. rewrite Hinj.
    destruct (Z.eqb_spec k g); [by right|left; by exists g].
  - intros [(g & -> & Hg & Hug)| ->]; [exists g|exists k]; (split; [done|split; [done|]]); rewrite Hu' by lia.
    + by rewrite Hug, andb_false_r.
    + by rewrite Z.eqb_refl.
Qed.

(** A list of frames released in order. *)
Definition free_frames (l : list Z) : MM unit := for_each_idx l free_frame_mm.

Lemma mm_bind_assoc {A B C} (x : MM A) (k1 : A -> MM B) (k2 : B -> MM C) s :
  ((x ≫= k1) ≫= k2) s = (x ≫= fun a => k1 a ≫= k2) s.
Proof. unfold mbind, mm_bind. by destruct (x s) as [ [a s']|]. Qed.

Lemma mm_bind_ext {A B} (x : MM A) (k1 k2 : A -> MM B) s :
  (forall a s', x s = Ok (a, s') -> k1 a s' = k2 a s') -> (x ≫= k1) s = (x ≫= k2) s.
Proof. intros H. unfold mbind, mm_bind. destruct (x s) as [ [a s']|]; [by apply H|done]. Qed.

Lemma free_frames_app l1 l2 s : free_frames (l1 ++ l2) s = (free_frames l1 ≫= fun _ => free_frames l2) s.
Proof.
  revert s. induction l1 as [|f l1 IH]; intros s; [done|]. unfold free_frames in *. cbn [app for_each_idx].
  rewrite mm_bind_assoc. apply mm_bind_ext. intros _ s' _. apply IH.
Qed.

Lemma free_frames_keeps l s s' : free_frames l s = Ok (tt, s') ->
  vm_mem s' = vm_mem s /\ vm_window s' = vm_window s /\ vm_pml4 s' = vm_pml4 s.
Proof.
  revert s. induction l as [|f l IH]; intros s; [by intros [= <-]|].
  unfold free_frames. cbn [for_each_idx]. unfold mbind, mm_bind, free_frame_mm at 1.
  destruct (free_frame _ f); [|done]. by intros (-> & -> & ->)%IH.
Qed.

Lemma free_frames_ok l : forall s, pmm_wf (vm_pmm s) -> NoDup l -> (forall f, f ∈ l -> used (vm_pmm s) f) ->
  exists p', free_frames l s = Ok (tt, with_pmm p' s) /\ releases (vm_pmm s) l p'.
Proof.
  induction l as [|f l IH]; intros s Hw Hnd Hu.
  - exists (vm_pmm s). split; [by destruct s|]. split; [done|set_solver|set_solver|cbn; lia].
  - apply NoDup_cons in Hnd as [Hf Hnd].
    destruct (free_frame_releases (vm_pmm s) f Hw) as (p1 & E1 & H1); [apply Hu; set_solver|].
    destruct (IH (with_pmm p1 s)) as (p2 & E2 & H2); [apply H1|done| |].
    { intros g Hg. apply H1. split; [apply Hu; set_solver|]. set_solver. }
    exists p2. split.
    + unfold free_frames. cbn [for_each_idx]. unfold mbind, mm_bind, free_frame_mm at 1. rewrite E1. exact E2.
    + cbn in H2. split.
      * apply H2.
      * intros g. rewrite (rl_used _ _ _ H2), (rl_used _ _ _ H1). set_solver.
      * intros g. rewrite (rl_free _ _ _ H2), (rl_free _ _ _ H1). set_solver.
      * rewrite (rl_count _ _ _ H2), (rl_count _ _ _ H1). cbn. lia.
Qed.

(** A loop whose rounds release frames that depend on the tables only. *)
Lemma for_each_free l body (fr : Z -> list Z) s :
  (forall i s', i ∈ l -> vm_mem s' = vm_mem s -> vm_window s' = vm_window s -> body i s' = free_frames (fr i) s') ->
  for_each_idx l body s = free_frames (l ≫= fr) s.
Proof.
  revert s. induction l as [|i l IH]; intros s H; [done|]. rewrite bind_cons, free_frames_app.
  cbn [for_each_idx]. transitivity ((free_frames (fr i) ≫= fun _ => for_each_idx l body) s).
  - unfold mbind, mm_bind. rewrite H by (done || set_solver). done.
  - apply mm_bind_ext. intros [] s' (Hm & Hw & _)%free_frames_keeps. apply IH.
    intros j s2 Hj Hm2 Hw2. apply H; [set_solver|congruence..].
Qed.

(** ** The release loops *)

Lemma free_frames_single f s : free_frames [f] s = free_frame_mm f s.
Proof. unfold free_frames. cbn. unfold mbind, mm_bind, free_frame_mm. by destruct (free_frame _ f). Qed.

Lemma free_p1_eq path t s : t < vm_window s ->
  free_p1 t s = free_frames (owned user_allowed 0 path (vm_mem s) t) s.
Proof.
  intros Ht. rewrite owned_0, all_idx_eq. apply for_each_free. intros i s' _ Hm Hw.
  erewrite mm_bind_ok by (apply load_entry_ok; by rewrite Hw). rewrite Hm. unfold leaf_frame.
  destruct (_ && _); [by rewrite free_frames_single|done].
Qed.

(** The two steps that release a subtree and its table. *)
Lemma free_sub (x : MM unit) l f s : x s = free_frames l s ->
  (x ≫= fun _ => free_frame_mm f) s = free_frames (l ++ [f]) s.
Proof.
  intros Hx. rewrite free_frames_app. unfold mbind, mm_bind. rewrite Hx.
  destruct (free_frames l s) as [ [? ?]|]; [|done]. by rewrite free_frames_single.
Qed.

Lemma free_p2_eq i j t s : shape user_allowed 1 [i; j] (vm_window s) (vm_mem s) t ->
  free_p2 t s = free_frames (owned user_allowed 1 [i; j] (vm_mem s) t) s.
Proof.
  intros Hs. rewrite owned_S, user_allowed_p2. apply for_each_free. intros k s' Hk Hm Hw.
  rewrite <- (user_allowed_p2 i j) in Hk.
  erewrite mm_bind_ok by (apply load_entry_ok; rewrite Hw; exact (shape_window _ _ _ _ _ _ Hs)).
  rewrite Hm. unfold child. destruct (pte_is_present _) eqn:Hp; cbn [negb]; [|done].
  destruct (shape_S _ _ _ _ _ _ _ Hs Hk Hp) as [-> Hsub]. apply free_sub.
  etrans; [apply free_p1_eq; rewrite Hw; exact (shape_window _ _ _ _ _ _ Hsub)|by rewrite Hm].
Qed.

(** The loop over a P3 table skips the shared identity map, which only the
    first table has. *)
Lemma free_p3_eq shared i t s : shape user_allowed 2 [i] (vm_window s) (vm_mem s) t ->
  (i = 0 -> pte_address (word (vm_mem s) t 0) = shared) ->
  shared ∉ owned user_allowed 2 [i] (vm_mem s) t ->
  free_p3 shared t s = free_frames (owned user_allowed 2 [i] (vm_mem s) t) s.
Proof.
  intros Hs H0 Hsh.
  set (fr := fun j => if decide (j ∈ user_allowed [i]) then child user_allowed 1 [i] (vm_mem s) t j else []).
  transitivity (free_frames (seqZ 0 512 ≫= fr) s).
  - apply for_each_free. intros j s' Hj Hm Hw. subst fr. cbn beta.
    erewrite mm_bind_ok by (apply load_entry_ok; rewrite Hw; exact (shape_window _ _ _ _ _ _ Hs)).
    rewrite Hm. unfold child. destruct (pte_is_present _) eqn:Hp; cbn [negb]; [|by case_decide].
    case_decide as Hd.
    + destruct (shape_S _ _ _ _ _ _ _ Hs Hd Hp) as [_ Hsub]. destruct (Z.eqb_spec (pte_address (word (vm_mem s) t j)) shared) as [He|He].
      { exfalso. apply Hsh. rewrite <- He. eapply (owned_sub user_allowed user_allowed_nodup user_allowed_idx); [exact Hd|done|set_solver]. }
      apply free_sub. etrans; [apply (free_p2_eq i j); rewrite Hm, Hw; exact Hsub|by rewrite Hm].
    + assert (i = 0 /\ j = 0) as [-> ->].
      { destruct (decide (i = 0)) as [->|Hi]; [|by rewrite user_allowed_p3 in Hd]. split; [done|].
        rewrite user_allowed_first in Hd. apply elem_of_seqZ in Hj.
        destruct (decide (j = 0)); [done|]. exfalso. apply Hd, elem_of_seqZ. lia. }
      by rewrite H0, Z.eqb_refl.
  - f_equal. rewrite owned_S. subst fr. destruct (decide (i = 0)) as [->|Hi].
    + change (seqZ 0 512) with (0 :: seqZ 1 511). rewrite bind_cons, decide_False, user_allowed_first; [|rewrite user_allowed_first; intros ?%elem_of_seqZ; lia].
      apply bind_ext_in. intros j Hj. by rewrite decide_True.
    + rewrite user_allowed_p3 by done. apply bind_ext_in. intros j Hj. by rewrite decide_True.
Qed.

Lemma identity_pd_ok ks ps s : spaces ks ps s -> identity_pd s = Ok (shared_pd s, s).
Proof.
  intros Hs. unfold identity_pd, shared_pd. erewrite mm_bind_ok by reflexivity. unfold kernel_pml4.
  erewrite mm_bind_ok by (apply load_entry_ok, (sp_kernel _ _ _ Hs); set_solver).
  erewrite mm_bind_ok by (apply load_entry_ok, (sp_kernel _ _ _ Hs); set_solver). done.
Qed.

Lemma free_user_page_table_eq ks ps s p : spaces ks ps s -> p ∈ ps ->
  free_user_page_table p s = free_frames (owned user_allowed 3 [] (vm_mem s) p ++ [p]) s.
Proof.
  intros Hs Hp. unfold free_user_page_table. erewrite mm_bind_ok by by eapply identity_pd_ok. cbn beta.
  pose proof (sp_shape _ _ _ Hs p Hp) as Hsh. apply free_sub. rewrite owned_S, user_allowed_top.
  assert (shared_pd s ∉ owned user_allowed 3 [] (vm_mem s) p) as Hnot.
  { intros Hin. pose proof (sp_nodup _ _ _ Hs) as (_ & Hd & _)%NoDup_app.
    apply (Hd (shared_pd s)); [apply (sp_kernel _ _ _ Hs); unfold identity_frames, shared_pd; set_solver|].
    apply elem_of_spaces. exists p. unfold space_frames. set_solver. }
  apply for_each_free. intros i s' Hi Hm Hw. rewrite <- user_allowed_top in Hi.
  erewrite mm_bind_ok by (apply load_entry_ok; rewrite Hw; exact (shape_window _ _ _ _ _ _ Hsh)).
  rewrite Hm. unfold child. destruct (pte_is_present _) eqn:Hpr; cbn [negb]; [|done].
  destruct (shape_S _ _ _ _ _ _ _ Hsh Hi Hpr) as [_ Hsub]. apply free_sub.
  etrans; [apply (free_p3_eq _ i)|by rewrite Hm]; rewrite ?Hm, ?Hw; [done| |].
  - intros ->. destruct (sp_shared _ _ _ Hs p Hp) as [_ H0]. cbn [entry_at] in H0. by rewrite Hpr in H0.
  - intros Hin. apply Hnot. eapply (owned_sub user_allowed user_allowed_nodup user_allowed_idx); [exact Hi|done|set_solver].
Qed.

(** ** Releasing an address space *)

#[global] Instance spaces_Proper ks : Proper ((≡ₚ) ==> (=) ==> iff) (spaces ks).
Proof.
  assert (forall ps ps' s, ps ≡ₚ ps' -> spaces ks ps s -> spaces ks ps' s) as H.
  { intros ps ps' s Hp [H1 H2 H3 H4 H5 H6].
    split; [done|by rewrite <- Hp|intros f; rewrite <- Hp; apply H3|intros q; rewrite <- Hp; apply H4
           |intros q; rewrite <- Hp; apply H5|done]. }
  intros ps ps' Hp s ? <-. split; apply H; [done|by symmetry].
Qed.

Lemma free_user_page_table_spec ks ps s p : spaces ks (p :: ps) s ->
  exists q, free_user_page_table p s = Ok (tt, with_pmm q s) /\ spaces ks ps (with_pmm q s) /\
    releases (vm_pmm s) (space_frames (vm_mem s) p) q.
Proof.
  intros Hs. assert (p ∈ p :: ps) as Hp by set_solver. pose proof (spaces_tree _ _ _ _ Hs Hp) as Ht.
  rewrite (free_user_page_table_eq ks (p :: ps)) by done.
  destruct (free_frames_ok (owned user_allowed 3 [] (vm_mem s) p ++ [p]) s) as (q & Eq & Hr).
  { apply Hs. }
  { rewrite <- Permutation_cons_append. apply Ht. }
  { intros f. rewrite <- Permutation_cons_append. apply Ht. }
  exists q. split; [done|].
  assert (releases (vm_pmm s) (space_frames (vm_mem s) p) q) as Hr'.
  { destruct Hr as [H1 H2 H3 H4]. unfold space_frames. split; [done|..].
    - intros f. by rewrite H2, <- Permutation_cons_append.
    - intros f. by rewrite H3, <- Permutation_cons_append.
    - by rewrite H4, <- Permutation_cons_append. }
  split; [|done]. pose proof (sp_nodup _ _ _ Hs) as Hnd. rewrite bind_cons in Hnd.
  split.
  - apply Hr'.
  - cbn. apply NoDup_app in Hnd as (H1 & H2 & (_ & _ & H3)%NoDup_app). apply NoDup_app. set_solver.
  - cbn. intros f Hf. apply Hr'. split; [apply Hs; rewrite bind_cons; set_solver|].
    rewrite Permutation_app_swap_app in Hnd. apply NoDup_app in Hnd as (_ & Hd & _). intros Hin. by apply (Hd f).
  - intros r Hr0. apply Hs. set_solver.
  - intros r Hr0. apply (sp_shared _ _ _ Hs). set_solver.
  - apply Hs.
Qed.

(** ** Creating an address space *)

Lemma copy_loop l r f : forall s, r <> f -> aligned r -> aligned f -> r < vm_window s -> f < vm_window s -> Forall idx l ->
  exists m, for_each_idx l (fun i => e ← load_entry r i; store_entry f i e) s = Ok (tt, with_mem m s) /\
    forall g j, aligned g -> idx j ->
      word m g j = if decide (g = f /\ j ∈ l) then word (vm_mem s) r j else word (vm_mem s) g j.
Proof.
  induction l as [|i l IH]; intros s Hrf Har Haf Hr Hf Hl.
  - exists (vm_mem s). split; [by destruct s|]. intros g j _ _. rewrite decide_False; [done|set_solver].
  - apply Forall_cons in Hl as [Hi Hl]. set (s1 := with_mem (put_word f i (word (vm_mem s) r i) (vm_mem s)) s).
    destruct (IH s1) as (m & Em & Hm); [done..|]. exists m. split.
    + cbn [for_each_idx]. erewrite mm_bind_ok; [exact Em|].
      erewrite mm_bind_ok by by apply load_entry_ok. by apply store_entry_ok.
    + intros g j Hg Hj. rewrite Hm by done. cbn [vm_mem with_mem s1]. rewrite !word_put by done.
      repeat case_decide; set_solver.
Qed.

(** The two tables of a new address space. *)
Record new_space (r sh f1 f2 : Z) (m m' : Mem) : Prop := {
  nw_p3 : forall j, idx j -> word m' f1 j = if decide (j = 0) then pte_table sh else 0;
  nw_p4 : forall j, idx j -> word m' f2 j =
    if decide (j = 0) then Z.lor f1 7 else if decide (256 <= j) then word m r j else 0;
  nw_other : forall g j, aligned g -> idx j -> g <> f1 -> g <> f2 -> word m' g j = word m g j
}.

Lemma new_space_words r sh f1 f2 m m' :
  aligned r -> aligned f1 -> aligned f2 -> f1 <> f2 -> r <> f1 -> r <> f2 ->
  let m4 := put_word f2 0 (Z.lor f1 7) (zero_frame f2 (put_word f1 0 (pte_table sh) (zero_frame f1 m))) in
  (forall g j, aligned g -> idx j ->
     word m' g j = if decide (g = f2 /\ j ∈ seqZ 256 256) then word m4 r j else word m4 g j) ->
  new_space r sh f1 f2 m m'.
Proof.
  intros Har H1 H2 Hne Hr1 Hr2 m4 Hm. assert (idx 0) as H0 by (unfold idx; lia).
  assert (forall g j, aligned g -> idx j -> word m4 g j =
    if decide (g = f2) then if decide (j = 0) then Z.lor f1 7 else 0
    else if decide (g = f1) then if decide (j = 0) then pte_table sh else 0 else word m g j) as H4.
  { intros g j Hg Hj. subst m4. rewrite word_put, word_zero, word_put, word_zero by done. clear Hm.
    repeat case_decide; intuition congruence. }
  split.
  - intros j Hj. rewrite Hm, !H4, (decide_False (P := f1 = f2 /\ _)), (decide_False (P := f1 = f2)), (decide_True (P := f1 = f1)) by intuition congruence. done.
  - intros j Hj. rewrite Hm, !H4, (decide_False (P := r = f2)), (decide_False (P := r = f1)), (decide_True (P := f2 = f2)) by done.
    pose proof (elem_of_seqZ 256 256 j). unfold idx in Hj.
    destruct (decide (j = 0)), (decide (256 <= j)), (decide (f2 = f2 /\ j ∈ seqZ 256 256)); done || (exfalso; intuition lia).
  - intros g j Hg Hj Hg1 Hg2. rewrite Hm, !H4, (decide_False (P := g = f2 /\ _)), (decide_False (P := g = f2)), (decide_False (P := g = f1)) by intuition congruence. done.
Qed.

Lemma create_run ks ps s : spaces ks ps s ->
  match create_user_page_table s with
  | Ok (f2, s') => exists f1, takes (vm_pmm s) [f2; f1] (vm_pmm s') /\ vm_pml4 s' = vm_pml4 s /\
      vm_window s' = vm_window s /\ f1 < vm_window s /\ f2 < vm_window s /\
      new_space (vm_pml4 s) (shared_pd s) f1 f2 (vm_mem s) (vm_mem s')
  | Err e => stops 2 s e
  end.
Proof.
  intros Hs. unfold create_user_page_table. erewrite mm_bind_ok by reflexivity. unfold kernel_pml4.
  erewrite mm_bind_ok by by eapply identity_pd_ok.
  assert (vm_pml4 s ∈ identity_frames s) as Hid by set_solver. apply (sp_kernel _ _ _ Hs) in Hid as [Hk Hrw].
  assert (used (vm_pmm s) (vm_pml4 s)) as Hru by (apply Hs; set_solver).
  pose proof (alloc_table_spec s (sp_pmm _ _ _ Hs)) as Ha1.
  destruct (alloc_table s) as [ [f1 [m1 p1 r1 w1] ]|e] eqn:E1; cycle 1.
  { erewrite mm_bind_err by done. destruct e; cbn; lia || done. }
  destruct Ha1 as (Ht1 & Hw1 & [= -> -> ->]). erewrite mm_bind_ok by done.
  erewrite mm_bind_ok by by apply store_entry_ok. set (s2 := with_mem _ _).
  pose proof (alloc_table_spec s2 (tk_wf _ _ _ Ht1)) as Ha2.
  destruct (alloc_table s2) as [ [f2 [m3 p3 r3 w3] ]|e] eqn:E2; cycle 1.
  { erewrite mm_bind_err by done. destruct e; cbn in Ha2 |- *; try done.
    - pose proof (tk_count _ _ _ Ht1) as Hc. cbn in Hc. lia.
    - destruct Ha2 as (f & Hf & Hwf). exists f. split; [|done]. by apply (tk_left _ _ _ Ht1). }
  destruct Ha2 as (Ht2 & Hw2 & [= -> -> ->]). erewrite mm_bind_ok by done.
  erewrite mm_bind_ok by by apply store_entry_ok. set (s4 := with_mem _ _).
  pose proof (takes_app _ _ _ _ _ Ht1 Ht2) as Ht. cbn [app vm_pmm] in Ht.
  assert (free (vm_pmm s) f1 /\ free (vm_pmm s) f2) as [Hf1 Hf2] by (split; apply Ht; set_solver).
  assert (f1 <> f2 /\ vm_pml4 s <> f1 /\ vm_pml4 s <> f2) as (Hne & Hr1 & Hr2).
  { pose proof (tk_nodup _ _ _ Ht) as [? _]%NoDup_cons. split; [set_solver|].
    split; intros He; rewrite He in Hru; by eapply used_not_free. }
  pose proof (proj1 (frame_addr_range _ (free_frame_addr _ _ Hf1))) as Ha1.
  pose proof (proj1 (frame_addr_range _ (free_frame_addr _ _ Hf2))) as Ha2.
  pose proof (proj1 (frame_addr_range _ (used_frame _ _ Hru))) as Har.
  destruct (copy_loop (seqZ 256 256) (vm_pml4 s) f2 s4) as (m & Em & Hm); [done..| |].
  { apply Forall_forall. intros i Hi%elem_of_seqZ. unfold idx. lia. }
  erewrite mm_bind_ok by exact Em. exists f1. do 5 (split; [done|]). by apply new_space_words.
Qed.

Section created.
Context (ks ps : list Z) (s s' : Vm) (f1 f2 : Z).
Hypothesis Hs : spaces ks ps s.
Hypothesis Ht : takes (vm_pmm s) [f2; f1] (vm_pmm s').
Hypothesis Hroot : vm_pml4 s' = vm_pml4 s.
Hypothesis Hwin : vm_window s' = vm_window s.
Hypothesis Hw1 : f1 < vm_window s.
Hypothesis Hw2 : f2 < vm_window s.
Hypothesis Hn : new_space (vm_pml4 s) (shared_pd s) f1 f2 (vm_mem s) (vm_mem s').

Lemma created_frames : frame_addr f1 /\ f1 <> f2.
Proof.
  split; [apply (free_frame_addr (vm_pmm s)), Ht; set_solver|].
  pose proof (tk_nodup _ _ _ Ht) as [? _]%NoDup_cons. set_solver.
Qed.

Lemma created_held f i : f ∈ held ks ps s -> idx i -> word (vm_mem s') f i = word (vm_mem s) f i.
Proof.
  intros Hf Hi. pose proof (sp_used _ _ _ Hs f Hf) as Hu.
  assert (f ∉ [f2; f1]) as Hne by (intros H%(tk_free _ _ _ Ht); by eapply used_not_free).
  apply Hn; [by apply frame_addr_range, (used_frame (vm_pmm s))|done|set_solver..].
Qed.

Lemma created_agree q : q ∈ ps -> agree (space_frames (vm_mem s) q) (vm_mem s) (vm_mem s').
Proof. intros Hq f i Hf. apply created_held, elem_of_app. right. apply elem_of_spaces. by exists q. Qed.

Lemma created_old q : q ∈ ps -> space_frames (vm_mem s') q = space_frames (vm_mem s) q /\
  shape user_allowed 3 [] (vm_window s') (vm_mem s') q /\
  forall js, zone user_allowed 3 [] js -> entry_at (vm_mem s') q js = entry_at (vm_mem s) q js.
Proof.
  intros Hq. destruct (tree_agree_user 3 [] (vm_window s) _ _ q (created_agree q Hq)) as (Ho & Hsh & He).
  unfold space_frames. rewrite Ho, Hwin. split; [done|]. split; [by apply Hsh, Hs|]. intros js Hz. by apply He.
Qed.

(** The entry of the new PML4 that leads to the new P3 table. *)
Lemma created_entry0 : word (vm_mem s') f2 0 = Z.lor f1 7 /\ pte_is_present (Z.lor f1 7) = true /\
  pte_is_huge (Z.lor f1 7) = false /\ pte_address (Z.lor f1 7) = f1.
Proof.
  destruct created_frames as [Hfa _]. apply frame_addr_range in Hfa as [Ha Hr].
  rewrite (nw_p4 _ _ _ _ _ _ Hn), decide_True by (unfold idx; lia || done).
  rewrite present_bit, huge_bit, !low_bit by (done || lia). do 3 (split; [done|]).
  by apply address_lor.
Qed.

Lemma created_p4 i : i ∈ user_allowed [] -> i <> 0 -> word (vm_mem s') f2 i = 0.
Proof.
  rewrite user_allowed_top. intros Hi%elem_of_seqZ Hne.
  rewrite (nw_p4 _ _ _ _ _ _ Hn), !decide_False by (unfold idx; lia). done.
Qed.

Lemma created_p3 i : i ∈ user_allowed [0] -> word (vm_mem s') f1 i = 0.
Proof.
  rewrite user_allowed_first. intros Hi%elem_of_seqZ.
  rewrite (nw_p3 _ _ _ _ _ _ Hn), decide_False by (unfold idx; lia). done.
Qed.

Lemma created_owned : owned user_allowed 3 [] (vm_mem s') f2 = [f1].
Proof.
  destruct created_entry0 as (H0 & Hp & _ & Ha).
  assert (owned user_allowed 2 [0] (vm_mem s') f1 = []) as Hsub.
  { rewrite owned_S. apply bind_nil_in. intros i Hi. unfold child. by rewrite created_p3. }
  pose proof user_allowed_top as Htop. change (seqZ 0 256) with (0 :: seqZ 1 255) in Htop.
  rewrite owned_S. rewrite Htop at 1. rewrite bind_cons. unfold child at 1. rewrite H0, Hp, Ha. cbn [app].
  rewrite Hsub, bind_nil_in; [done|]. intros i Hi.
  unfold child. rewrite created_p4; [done|rewrite Htop; set_solver|]. apply elem_of_seqZ in Hi. lia.
Qed.

Lemma created_shape : shape user_allowed 3 [] (vm_window s') (vm_mem s') f2.
Proof.
  destruct created_entry0 as (H0 & Hp & Hh & Ha). rewrite Hwin.
  apply shape_S_intro; [done|]. intros i Hi. destruct (decide (i = 0)) as [->|Hne]; [|by rewrite created_p4].
  rewrite H0, Hh, Ha. intros _. split; [done|]. apply shape_S_intro; [done|].
  intros j Hj. by rewrite created_p3.
Qed.

Lemma created_page js : zone user_allowed 3 [] js -> (1 < length js)%nat -> js <> [0; 0] ->
  entry_at (vm_mem s') f2 js = 0.
Proof.
  destruct created_entry0 as (H0 & Hp & _ & Ha).
  intros [(j & -> & _)|(j & r & -> & Hj & Hz)] Hl Hne; [cbn in Hl; lia|].
  pose proof (zone_nonempty user_allowed user_allowed_idx _ _ _ Hz) as Hr.
  rewrite entry_at_cons by done. destruct (decide (j = 0)) as [->|Hj0]; [|by rewrite created_p4].
  rewrite H0, Hp, Ha. destruct Hz as [(k & -> & Hk & Hk')|(k & q & -> & Hk & Hz)].
  - cbn. rewrite (nw_p3 _ _ _ _ _ _ Hn), decide_False; [done|congruence|done].
  - rewrite entry_at_cons by by eapply (zone_nonempty user_allowed user_allowed_idx).
    by rewrite created_p3.
Qed.

Lemma created_spaces : spaces ks (f2 :: ps) s'.
Proof.
  assert (ps ≫= space_frames (vm_mem s') = ps ≫= space_frames (vm_mem s)) as Hps
    by (apply bind_ext_in; intros q Hq; by destruct (created_old q Hq)).
  assert (idx 0) as Hi0 by (unfold idx; lia).
  assert (forall f, f ∈ identity_frames s -> f ∈ held ks ps s) as Hik.
  { intros f [Hf _]%(sp_kernel _ _ _ Hs). apply elem_of_app. by left. }
  assert (identity_frames s' = identity_frames s /\ shared_pd s' = shared_pd s) as [Hid Hsp].
  { unfold identity_frames, shared_pd. rewrite Hroot, !(created_held (vm_pml4 s)) by (done || apply Hik; set_solver).
    rewrite !(created_held (pte_address (word (vm_mem s) (vm_pml4 s) 0))) by (done || apply Hik; set_solver). done. }
  assert (space_frames (vm_mem s') f2 = [f2; f1]) as Hf by (unfold space_frames; by rewrite created_owned).
  split.
  - apply Ht.
  - rewrite bind_cons, Hf, Hps, Permutation_app_swap_app. apply NoDup_app. split; [apply Ht|]. split; [|apply Hs].
    intros f H%(tk_free _ _ _ Ht) Hin. eapply used_not_free; [by apply Hs|done].
  - rewrite bind_cons, Hf, Hps. intros f. rewrite Permutation_app_swap_app, elem_of_app, (tk_used _ _ _ Ht).
    intros [H|H]; [by right|left; by apply Hs].
  - intros q [->|Hq]%elem_of_cons; [apply created_shape|by destruct (created_old q Hq) as (_ & ? & _)].
  - rewrite Hsp. intros q [->|Hq]%elem_of_cons; [|rewrite (proj2 (proj2 (created_old q Hq))) by apply identity_path; by apply Hs].
    destruct created_entry0 as (H0 & Hp & _ & Ha). cbn [entry_at]. rewrite H0, Hp, Ha, (nw_p3 _ _ _ _ _ _ Hn), decide_True by done.
    assert (shared_pd s ∈ identity_frames s) as Hin by (unfold shared_pd, identity_frames; set_solver).
    destruct (table_entry (shared_pd s)) as (-> & _ & ->); [|done]. apply (used_frame (vm_pmm s)), Hs, Hik, Hin.
  - intros f. rewrite Hid, Hwin. apply Hs.
Qed.

End created.

Lemma created_user ks ps s p s' : spaces ks ps s -> create_user_page_table s = Ok (p, s') ->
  spaces ks (p :: ps) s' /\ forall va, user_va va -> page_entry s' p va = 0.
Proof.
  intros Hs E. pose proof (create_run ks ps s Hs) as Hc. rewrite E in Hc.
  destruct Hc as (p3 & Ht & Hr & Hw & Hw1 & Hw2 & Hn). split; [by eapply created_spaces|].
  intros va Hva. eapply (created_page ks ps s s' p3 p); [done..| |cbn; lia|done]. by apply leaf_path_zone, user_va_path.
Qed.

(** A new address space is empty and takes exactly two frames: no user
    page of it is mapped, its kernel half is a copy of the kernel's, and it
    stands beside the existing address spaces, none of which changes. The call
    stops only if two frames are not to be had within the direct map. *)
Theorem create_user_page_table_empty ks ps s :
  spaces ks ps s ->
  match create_user_page_table s with
  | Ok (p, s') => spaces ks (p :: ps) s' /\
      (forall va, user_va va -> page_entry s' p va = 0 /\ query_page_in p va s' = Ok (None, s')) /\
      (forall i, 256 <= i < 512 -> word (vm_mem s') p i = word (vm_mem s) (kernel_pml4 s) i) /\
      (forall q va, q ∈ ps -> user_va va -> page_entry s' q va = page_entry s q va) /\
      (exists p3, space_frames (vm_mem s') p = [p; p3] /\ takes (vm_pmm s) [p; p3] (vm_pmm s'))
  | Err e => stops 2 s e
  end.
Proof.
  intros Hs. pose proof (create_run ks ps s Hs) as Hc.
  destruct (create_user_page_table s) as [ [p s']|e] eqn:E; [|done].
  destruct Hc as (p3 & Ht & Hr & Hw & Hw1 & Hw2 & Hn). destruct (created_user ks ps s p s' Hs E) as [Hs' Hz].
  split; [done|]. split; [|split; [|split]].
  - intros va Hva. split; [by apply Hz|]. erewrite query_page_in_spec; [|exact Hs'|set_solver|done]. by rewrite Hz.
  - intros i Hi. rewrite (nw_p4 _ _ _ _ _ _ Hn), decide_False, decide_True by (unfold idx; lia). done.
  - intros q va Hq Hva. destruct (created_old ks ps s s' p3 p) with (q := q) as (_ & _ & He); [done..|].
    by apply He, leaf_path_zone, user_va_path.
  - exists p3. split; [|done]. unfold space_frames. erewrite (created_owned ks ps s s' p3 p); done.
Qed.

(** C0. The release of an address space always succeeds: it gives back its
    tables and pages, each once, so no assertion of the frame allocator fails;
    every other frame stays as it was, and the other address spaces and the
    kernel keep all of theirs. *)
Theorem free_user_page_table_exact ks ps s p :
  spaces ks (p :: ps) s ->
  exists s', free_user_page_table p s = Ok (tt, s') /\ vm_mem s' = vm_mem s /\ spaces ks ps s' /\
    releases (vm_pmm s) (space_frames (vm_mem s) p) (vm_pmm s').
Proof.
  intros Hs. destruct (free_user_page_table_spec ks ps s p Hs) as (q & E & Hs' & Hr). by exists (with_pmm q s).
Qed.
