(* ===== verification/VmmInit.v ===== *)
(** * The kernel's page tables at boot (kernel/src/vmm.rs)

    What [init] builds: the identity map of the first GiB, its alias at the
    HHDM offset, and the kernel image at its link address. [translate] is the
    address translation of the processor. The state after [init] satisfies the
    invariant of VmmSpaces.v with no address spaces yet. *)

From S2P Require Import Prelude Pmm Vmm VmmTree VmmSpaces VmmLife.

#[local] Open Scope Z_scope.

(** ** The translation of the processor *)

Definition translate (m : Mem) (r va : Z) : option Z :=
  let e4 := word m r (p4_idx va) in
  if negb (pte_is_present e4) then None
  else
    let e3 := word m (pte_address e4) (p3_idx va) in
    if negb (pte_is_present e3) then None
    else
      let e2 := word m (pte_address e3) (p2_idx va) in
      if negb (pte_is_present e2) then None
      else if pte_is_huge e2 then Some (pte_address e2 + va mod 2 ^ 21)
      else
        let e1 := word m (pte_address e2) (p1_idx va) in
        if pte_is_present e1 then Some (pte_address e1 + va mod 2 ^ 12) else None.

(** The whole of memory is mapped while the boot loader's tables are active. *)
Definition all_mapped (s : Vm) : Prop := MAX_FRAMES * FRAME_SIZE <= vm_window s.

Lemma all_mapped_frame s f : all_mapped s -> frame_addr f -> f < vm_window s.
Proof. intros Hw (k & -> & Hk). unfold all_mapped in Hw. change FRAME_SIZE with 4096 in *. lia. Qed.

Lemma all_mapped_beyond s : all_mapped s -> ~ beyond s.
Proof.
  intros Hw (f & Hf & Hb). pose proof (all_mapped_frame s f Hw (free_frame_addr _ _ Hf)). lia.
Qed.

(** ** The fixed tables *)

(** The words that steps 2 to 3.5 leave in the tables [r], [p3], [p2]. *)
Record identity_tables (r p3 p2 : Z) (m : Mem) : Prop := {
  it_p4 : word m r 0 = pte_table p3;
  it_p3 : word m p3 0 = pte_table p2;
  it_p2 : forall i, idx i -> word m p2 i = Z.lor (i * (2 * 1024 * 1024)) 0x83
}.

Lemma fill_loop l f v : forall s, aligned f -> f < vm_window s -> Forall idx l -> NoDup l ->
  exists m, for_each_idx l (fun i => store_entry f i (v i)) s = Ok (tt, with_mem m s) /\
    forall g j, aligned g -> idx j -> word m g j = if decide (g = f /\ j ∈ l) then v j else word (vm_mem s) g j.
Proof.
  induction l as [|i l IH]; intros s Ha Hf Hl Hnd.
  - exists (vm_mem s). split; [by destruct s|]. intros g j _ _. rewrite decide_False; [done|set_solver].
  - apply Forall_cons in Hl as [Hi Hl]. apply NoDup_cons in Hnd as [Hni Hnd].
    destruct (IH (with_mem (put_word f i (v i) (vm_mem s)) s)) as (m & Em & Hm); [done..|].
    exists m. split.
    + cbn [for_each_idx]. erewrite mm_bind_ok by by apply store_entry_ok. exact Em.
    + intros g j Hg Hj. rewrite Hm by done. cbn [vm_mem with_mem]. rewrite word_put by done.
      repeat case_decide; set_solver.
Qed.

Lemma alloc_boot s : pmm_wf (vm_pmm s) -> all_mapped s -> 0 < pm_free (vm_pmm s) ->
  exists f p, alloc_table s = Ok (f, with_mem (zero_frame f (vm_mem s)) (with_pmm p s)) /\
    takes (vm_pmm s) [f] p /\ frame_addr f /\ f < vm_window s.
Proof.
  intros Hw Ha Hf. pose proof (alloc_table_spec s Hw) as Hs. destruct (alloc_table s) as [ [f s']|e].
  - destruct Hs as (Ht & Hlt & ->). exists f, (vm_pmm s'). do 2 (split; [done|]). split; [|done].
    eapply free_frame_addr, Ht. set_solver.
  - destruct e; [lia|done|by destruct (all_mapped_beyond s Ha)|done].
Qed.

Definition huge_entry (i : Z) : Z := Z.lor (i * (2 * 1024 * 1024)) 0x83.

Lemma init_identity_spec s : pmm_wf (vm_pmm s) -> all_mapped s -> 3 <= pm_free (vm_pmm s) ->
  exists r p3 p2 m p, init_identity s = Ok (p2, mkVm m p r (vm_window s)) /\
    takes (vm_pmm s) [p2; p3; r] p /\ identity_tables r p3 p2 m /\
    (forall i, idx i -> i <> 0 -> word m r i = 0) /\ (forall i, idx i -> i <> 0 -> word m p3 i = 0).
Proof.
  intros Hw Ha Hf. unfold init_identity.
  destruct (alloc_boot s Hw Ha ltac:(lia)) as (r & q1 & E1 & T1 & Fr & Wr). erewrite mm_bind_ok by exact E1.
  pose proof (tk_count _ _ _ T1) as C1. cbn in C1.
  erewrite mm_bind_ok by reflexivity. set (s1 := mkVm _ _ _ _).
  destruct (alloc_boot s1 (tk_wf _ _ _ T1) Ha ltac:(cbn; lia)) as (p3 & q2 & E2 & T2 & F3 & W3).
  erewrite mm_bind_ok by exact E2. pose proof (tk_count _ _ _ T2) as C2. cbn in C2.
  set (s2 := with_mem (zero_frame p3 (vm_mem s1)) (with_pmm q2 s1)) in *.
  destruct (alloc_boot s2 (tk_wf _ _ _ T2) Ha ltac:(cbn; lia)) as (p2 & q3 & E3 & T3 & F2 & W2).
  erewrite mm_bind_ok by exact E3.
  set (s3 := with_mem (zero_frame p2 (vm_mem s2)) (with_pmm q3 s2)) in *.
  pose proof (takes_app _ _ _ _ _ (takes_app _ _ _ _ _ T1 T2) T3) as T. cbn [app] in T.
  pose proof (tk_nodup _ _ _ T) as ND. apply NoDup_cons in ND as [N1 [N2 _]%NoDup_cons].
  assert (p2 <> p3 /\ p2 <> r /\ p3 <> r) as (Hn1 & Hn2 & Hn3) by set_solver.
  apply frame_addr_range in Fr as [Ar _]. apply frame_addr_range in F3 as [A3 _]. apply frame_addr_range in F2 as [A2 _].
  erewrite mm_bind_ok by by apply store_entry_ok. erewrite mm_bind_ok by by apply store_entry_ok.
  change (IDENTITY_MAP_LIMIT / (2 * 1024 * 1024)) with 512. set (s4 := with_mem _ (with_mem _ _)).
  destruct (fill_loop (seqZ 0 512) p2 huge_entry s4 A2 W2) as (m & Em & Hm).
  { apply Forall_forall. intros i Hi%elem_of_seqZ. unfold idx. lia. } { apply NoDup_seqZ. }
  unfold huge_entry in Em at 1. erewrite mm_bind_ok by exact Em.
  assert (idx 0) as H0 by (unfold idx; lia).
  assert (forall g i, aligned g -> idx i -> g <> p2 -> word m g i =
    if decide (p3 = g /\ 0 = i) then pte_table p2 else if decide (r = g /\ 0 = i) then pte_table p3
    else if decide (p3 = g) then 0 else if decide (r = g) then 0 else word (vm_mem s) g i) as Hword.
  { intros g i Hg Hi Hg2. rewrite Hm, decide_False by (done || intros [? _]; done). subst s4 s3 s2 s1.
    cbn [vm_mem with_mem with_pmm]. rewrite !word_put, !word_zero by done. rewrite (decide_False (P := p2 = g)) by congruence. done. }
  exists r, p3, p2, m, q3. split; [done|]. split; [done|]. split; [split|split].
  - rewrite Hword by congruence. rewrite decide_False, decide_True by intuition congruence. done.
  - rewrite Hword by congruence. by rewrite decide_True.
  - intros i Hi. rewrite Hm, decide_True; [done| |done|done]. split; [done|]. apply elem_of_seqZ. unfold idx in Hi. lia.
  - intros i Hi Hne. rewrite Hword by congruence. repeat case_decide; intuition congruence.
  - intros i Hi Hne. rewrite Hword by congruence. repeat case_decide; intuition congruence.
Qed.

Lemma init_hhdm_spec p2 off s : pmm_wf (vm_pmm s) -> all_mapped s -> 0 < pm_free (vm_pmm s) ->
  used (vm_pmm s) (vm_pml4 s) -> p4_idx off <> 0 ->
  exists h3 m p, init_hhdm p2 off s = Ok (tt, mkVm m p (vm_pml4 s) (vm_window s)) /\
    takes (vm_pmm s) [h3] p /\ word m (vm_pml4 s) (p4_idx off) = pte_table h3 /\
    (forall i, idx i -> word m h3 i = if decide (i = 0) then pte_table p2 else 0) /\
    (forall g i, aligned g -> idx i -> g <> h3 -> ~ (g = vm_pml4 s /\ i = p4_idx off) -> word m g i = word (vm_mem s) g i).
Proof.
  intros Hw Ha Hf Hu Hne. unfold init_hhdm. fold (p4_idx off).
  rewrite (proj2 (Z.eqb_neq _ _) Hne). cbn [negb].
  destruct (alloc_boot s Hw Ha Hf) as (h3 & q & E & T & Fh & Wh). erewrite mm_bind_ok by exact E.
  erewrite mm_bind_ok by by apply store_entry_ok. erewrite mm_bind_ok by reflexivity. cbn [kernel_pml4 vm_pml4 with_mem with_pmm].
  pose proof (used_frame _ _ Hu) as Fr. rewrite store_entry_ok by by apply all_mapped_frame.
  pose proof (idxs_range off) as (Hi4 & _). assert (idx 0) as H0 by (unfold idx; lia).
  assert (vm_pml4 s <> h3) as Hrh.
  { intros He. rewrite He in Hu. eapply used_not_free; [exact Hu|]. apply T. set_solver. }
  apply frame_addr_range in Fr as [Ar _]. apply frame_addr_range in Fh as [Ah _].
  eexists h3, _, q. split; [done|]. split; [done|]. cbn [vm_mem with_mem with_pmm]. split; [|split].
  - by rewrite word_put, decide_True by done.
  - intros i Hi. rewrite !word_put, word_zero by done. rewrite decide_False by (intros [? _]; done).
    destruct (decide (i = 0)) as [->|]; [by rewrite decide_True|]. rewrite decide_False by (intros [_ ?]; congruence).
    by rewrite decide_True.
  - intros g i Hg Hi Hgh Hn. rewrite !word_put, word_zero by done.
    rewrite !decide_False; first [done|congruence|intros [? _]; congruence|intros [? ?]; apply Hn; split; congruence].
Qed.

(** ** The kernel image *)

(** The kernel's own tree: every top-level entry but those of the fixed
    tables. *)
Definition kernel_allowed (h : Z) (path : list Z) : list Z :=
  if decide (path = []) then filter (fun i => i <> 0 /\ i <> h) all_idx else all_idx.

Lemma kernel_allowed_nodup h path : NoDup (kernel_allowed h path).
Proof. unfold kernel_allowed. case_decide; [apply NoDup_filter|]; apply all_idx_nodup. Qed.

Lemma kernel_allowed_idx h path i : i ∈ kernel_allowed h path -> idx i.
Proof.
  unfold kernel_allowed. case_decide; [|by intros ?%elem_of_all_idx].
  intros [_ ?%elem_of_all_idx]%list_elem_of_filter. done.
Qed.

Lemma kernel_path h va : p4_idx va <> 0 -> p4_idx va <> h -> leaf_path (kernel_allowed h) 3 [] (idxs va).
Proof.
  intros H0 Hh. pose proof (idxs_range va) as (H4 & H3 & H2 & H1).
  assert (forall path i, path <> [] -> idx i -> i ∈ kernel_allowed h path) as Hdeep.
  { intros path i Hp Hi. unfold kernel_allowed. rewrite decide_False by done. by apply elem_of_all_idx. }
  exists (p4_idx va), [p3_idx va; p2_idx va; p1_idx va]. split; [done|]. split.
  { unfold kernel_allowed. rewrite decide_True by done. apply list_elem_of_filter. by rewrite elem_of_all_idx. }
  exists (p3_idx va), [p2_idx va; p1_idx va]. split; [done|]. split; [by apply Hdeep|].
  exists (p2_idx va), [p1_idx va]. split; [done|]. split; [by apply Hdeep|]. by exists (p1_idx va).
Qed.

Lemma kernel_top h i : idx i -> i = 0 \/ i = h -> zone (kernel_allowed h) 3 [] [i].
Proof.
  intros Hi Ho. left. exists i. split; [done|]. split; [done|]. unfold kernel_allowed. rewrite decide_True by done.
  intros [? _]%list_elem_of_filter. lia.
Qed.

Lemma kernel_allowed_top h i : i ∈ kernel_allowed h [] -> idx i /\ i <> 0 /\ i <> h.
Proof.
  unfold kernel_allowed. rewrite decide_True by done. intros [? ?%elem_of_all_idx]%list_elem_of_filter. done.
Qed.

#[global] Opaque kernel_allowed.

(** The state of the loop after [j] pages, from state [s2] on. *)
Section image.
Context (h r : Z) (s2 : Vm) (fixed : list Z) (pa va : Z -> Z) (n : Z).
Hypothesis Hpa : forall i, 0 <= i < n -> used (vm_pmm s2) (pa i) /\ pa i <> r /\ pa i ∉ fixed.
Hypothesis Hpa_inj : forall i j, 0 <= i < n -> 0 <= j < n -> pa i = pa j -> i = j.
Hypothesis Hva : forall i, 0 <= i < n -> p4_idx (va i) <> 0 /\ p4_idx (va i) <> h.
Hypothesis Hva_inj : forall i j, 0 <= i < n -> 0 <= j < n -> idxs (va i) = idxs (va j) -> i = j.
Hypothesis Hfixed : forall f, f ∈ fixed -> used (vm_pmm s2) f /\ f <> r.
Hypothesis Hroot : vm_pml4 s2 = r.

Record image_inv (j : Z) (s : Vm) : Prop := {
  im_tree : tree (kernel_allowed h) 3 [] s r;
  im_root : vm_pml4 s = r;
  im_window : vm_window s = vm_window s2;
  im_takes : exists new, takes (vm_pmm s2) new (vm_pmm s) /\
    forall f, f ∈ owned (kernel_allowed h) 3 [] (vm_mem s) r -> f ∈ new \/ exists i, 0 <= i < j /\ f = pa i;
  im_fixed : forall f i, f ∈ fixed -> idx i -> word (vm_mem s) f i = word (vm_mem s2) f i;
  im_top : forall i, idx i -> i = 0 \/ i = h -> word (vm_mem s) r i = word (vm_mem s2) r i;
  im_pages : forall i, 0 <= i < j -> entry_at (vm_mem s) r (idxs (va i)) = pte_set (pa i) KERNEL_RWX
}.

Lemma kernel_entry f : frame_addr f ->
  pte_address (pte_set f KERNEL_RWX) = f /\ leaf_frame (pte_set f KERNEL_RWX) = [f] /\
  pte_is_present (pte_set f KERNEL_RWX) = true.
Proof.
  intros Hf. destruct (page_entry_bits f KERNEL_RWX Hf eq_refl) as (_ & Ha & Hb).
  assert ((Z.land (pte_set f KERNEL_RWX) PF_MMIO_NOFREE =? 0) = true) as Hn.
  { pose proof (land_frame_bit (pte_set f KERNEL_RWX) 9) as H. change (9 mod 64) with 9 in H.
    rewrite Hb in H by lia. by apply negb_false_iff in H. }
  unfold leaf_frame. rewrite present_bit, Hb, Hn, Ha by lia. done.
Qed.

Abbreviation kcreate := (create_spec (kernel_allowed h) (kernel_allowed_nodup h) (kernel_allowed_idx h)).
Abbreviation kput := (put_leaf (kernel_allowed h) (kernel_allowed_nodup h) (kernel_allowed_idx h)).

(** The page of step [j] is not yet in the tree. *)
Lemma image_fresh j s : 0 <= j < n -> image_inv j s -> used (vm_pmm s) (pa j) /\ pa j ∉ r :: owned (kernel_allowed h) 3 [] (vm_mem s) r.
Proof.
  intros Hj Hi. destruct (Hpa j Hj) as (Hu & Hr & _). destruct (im_takes _ _ Hi) as (new & Ht & Ho).
  split; [apply (tk_used _ _ _ Ht); by left|]. intros [?|Hin]%elem_of_cons; [done|].
  destruct (Ho _ Hin) as [Hn%(tk_free _ _ _ Ht)|(i & Hi' & He)]; [by eapply used_not_free|].
  apply Hpa_inj in He; lia.
Qed.

(** A leaf stored in a kernel tree. *)
Lemma image_put j s p1 i : 0 <= j < n -> image_inv j s -> slot_at (vm_mem s) r (idxs (va j)) = Some (p1, i) ->
  image_inv (j + 1) (with_mem (put_word p1 i (pte_set (pa j) KERNEL_RWX) (vm_mem s)) s).
Proof.
  intros Hj Hi Hsl. destruct (image_fresh j s Hj Hi) as [Hu Hnin]. destruct (Hpa j Hj) as (Hu2 & _ & _).
  destruct (kernel_entry (pa j) (used_frame _ _ Hu)) as (_ & Hlf & _).
  pose proof (im_tree _ _ Hi) as [Hnd Hus Hsh]. destruct (Hva j Hj) as [Hv0 Hvh].
  pose proof (kernel_path h (va j) Hv0 Hvh) as Hpath.
  assert (aligned r) as Har by (eapply frame_addr_range, used_frame, Hus; set_solver).
  destruct (kput 3 [] (vm_window s) (vm_mem s) r (idxs (va j)) p1 i (pte_set (pa j) KERNEL_RWX) Har Hnd Hpath Hsl)
    as [(rest & Ho & Ho') Hsh' He _]. rewrite Hlf in Ho'. cbn [app] in Ho'.
  destruct (slot_at_elem (kernel_allowed h) (kernel_allowed_nodup h) (kernel_allowed_idx h) _ _ _ _ _ _ _ Hpath Hsl) as [Hii Hp1].
  assert (aligned p1) as Hap by (eapply frame_addr_range, used_frame, Hus; done).
  assert (forall f, f ∈ rest -> f ∈ owned (kernel_allowed h) 3 [] (vm_mem s) r) as Hrest by (intros f Hf; rewrite Ho; set_solver).
  destruct (im_takes _ _ Hi) as (new & Ht & Hown).
  split; cbn [vm_mem vm_pml4 vm_window vm_pmm with_mem].
  - split; cbn [vm_mem vm_window vm_pmm with_mem]; [| |by apply Hsh'].
    + rewrite Ho'. apply NoDup_cons in Hnd as [Hrn Hnd]. rewrite Ho in Hnd, Hrn. apply NoDup_app in Hnd as (_ & _ & Hnr).
      apply NoDup_cons. split; [set_solver|]. apply NoDup_cons. split; [|done]. intros Hin%Hrest. set_solver.
    + intros f. rewrite Ho'. intros [->|[->|Hf%Hrest]%elem_of_cons]%elem_of_cons; [apply Hus; set_solver|done|apply Hus; set_solver].
  - apply Hi.
  - apply Hi.
  - exists new. split; [done|]. intros f. rewrite Ho'. intros [->|Hf%Hrest%Hown]%elem_of_cons; [right; exists j; split; [lia|done]|].
    destruct Hf as [?|(k & Hk & ->)]; [by left|right; exists k; split; [lia|done] ].
  - intros f k Hf Hk. destruct (Hfixed f Hf) as [Hfu Hfr].
    assert (aligned f) as Haf by by apply frame_addr_range, (used_frame (vm_pmm s2)).
    rewrite word_put by done. rewrite decide_False; [by apply (im_fixed _ _ Hi)|].
    intros [-> _]. apply elem_of_cons in Hp1 as [->|Hp1]; [done|].
    destruct (Hown _ Hp1) as [Hn%(tk_free _ _ _ Ht)|(k' & Hk' & He')]; [by eapply used_not_free|].
    destruct (Hpa k') as (_ & _ & Hk''); [lia|]. by rewrite <- He' in Hk''.
  - intros k Hk Hor. pose proof (He [k] (kernel_top h k Hk Hor)) as Hek. cbn [entry_at] in Hek.
    rewrite Hek, decide_False by done. by apply (im_top _ _ Hi).
  - intros k Hk. destruct (Hva k) as [Hk0 Hkh]; [lia|]. rewrite He by by apply leaf_path_zone, kernel_path.
    case_decide as Hd; [|apply (im_pages _ _ Hi); assert (k <> j) by congruence; lia]. apply Hva_inj in Hd; [by subst|lia|lia].
Qed.

Lemma fixed_outside j s f : j <= n -> image_inv j s -> f ∈ fixed ->
  used (vm_pmm s) f /\ f ∉ r :: owned (kernel_allowed h) 3 [] (vm_mem s) r.
Proof.
  intros Hj Hi Hf. destruct (Hfixed f Hf) as [Hu Hr]. destruct (im_takes _ _ Hi) as (new & Ht & Hown).
  split; [apply (tk_used _ _ _ Ht); by left|]. intros [?|Hin]%elem_of_cons; [done|].
  destruct (Hown _ Hin) as [Hn%(tk_free _ _ _ Ht)|(k & Hk & ->)]; [by eapply used_not_free|].
  by destruct (Hpa k) as (_ & _ & ?); [lia|].
Qed.

Lemma image_grown j s s1 new1 : j <= n -> image_inv j s -> grown (kernel_allowed h) 3 [] r s s1 new1 -> image_inv j s1.
Proof.
  intros Hj Hi Hg. destruct (im_takes _ _ Hi) as (new & Ht & Hown). split.
  - eapply grown_tree; [apply Hi|done].
  - by rewrite (gr_root _ _ _ _ _ _ _ Hg), (im_root _ _ Hi).
  - by rewrite (gr_window _ _ _ _ _ _ _ Hg), (im_window _ _ Hi).
  - exists (new1 ++ new). split; [exact (takes_app _ _ _ _ _ Ht (gr_takes _ _ _ _ _ _ _ Hg))|].
    intros f. rewrite (gr_owned _ _ _ _ _ _ _ Hg), !elem_of_app. intros [?|Hf]; [by left; left|].
    destruct (Hown f Hf); [by left; right|by right].
  - intros f k Hf Hk. destruct (fixed_outside j s f Hj Hi Hf) as [Hu Hn].
    rewrite (gr_words _ _ _ _ _ _ _ Hg); [by apply (im_fixed _ _ Hi)|by apply frame_addr_range, (used_frame (vm_pmm s))|done|done|].
    intros Hf1%(tk_free _ _ _ (gr_takes _ _ _ _ _ _ _ Hg)). by eapply used_not_free.
  - intros k Hk Hor. rewrite <- (im_top _ _ Hi) by done.
    exact (gr_entry _ _ _ _ _ _ _ Hg [k] (kernel_top h k Hk Hor)).
  - intros k Hk. destruct (Hva k) as [Hk0 Hkh]; [lia|]. rewrite <- (im_pages _ _ Hi) by done.
    apply (gr_entry _ _ _ _ _ _ _ Hg). by apply leaf_path_zone, kernel_path.
Qed.

Lemma image_step j s : 0 <= j < n -> image_inv j s ->
  match map_page (va j) (pa j) KERNEL_RWX s with
  | Ok (_, s') => image_inv (j + 1) s'
  | Err e => stops 3 s e
  end.
Proof.
  intros Hj Hi. unfold map_page. erewrite mm_bind_ok by reflexivity. unfold kernel_pml4. rewrite (im_root _ _ Hi).
  destruct (Hva j Hj) as [Hv0 Hvh]. pose proof (kernel_path h (va j) Hv0 Hvh) as Hpath. cbn zeta. set (user := negb _).
  destruct (im_takes _ _ Hi) as (new & Ht & _).
  pose proof (kcreate user 3 [] r s (idxs (va j)) (tk_wf _ _ _ Ht) (im_tree _ _ Hi) Hpath) as Hc.
  destruct (create user r (idxs (va j)) s) as [ [ [p1 i] s1]|e] eqn:Ec; cycle 1.
  { erewrite mm_bind_err by by rewrite walk_or_create_eq. done. }
  destruct Hc as (new1 & Hg & Hsl). erewrite mm_bind_ok by by rewrite walk_or_create_eq. cbn beta iota.
  assert (image_inv j s1) as Hi1 by (eapply image_grown; [lia|done..]).
  rewrite store_entry_ok by (eapply (slot_at_window (kernel_allowed h)); [apply Hi1|done|done]).
  by apply image_put.
Qed.

Lemma image_loop (count : nat) j s : all_mapped s2 -> 0 <= j -> j + Z.of_nat count = n -> image_inv j s ->
  match for_each_idx (seqZ j (Z.of_nat count)) (fun i => map_page (va i) (pa i) KERNEL_RWX) s with
  | Ok (_, s') => image_inv n s'
  | Err e => e = OutOfMemory
  end.
Proof.
  intros Hall. revert j s. induction count as [|count IH]; intros j s Hj Hn Hi.
  - cbn. replace n with j by lia. done.
  - rewrite seqZ_cons by lia. cbn [for_each_idx]. pose proof (image_step j s ltac:(lia) Hi) as Hs.
    destruct (map_page _ _ _ s) as [ [u s1]|e] eqn:E; cycle 1.
    { erewrite mm_bind_err by exact E. destruct e; cbn in Hs; [done|done| |done].
      destruct (all_mapped_beyond s); [|done]. unfold all_mapped. by rewrite (im_window _ _ Hi). }
    erewrite mm_bind_ok by exact E. replace (Z.pred (Z.of_nat (S count))) with (Z.of_nat count) by lia.
    apply IH; [lia|lia|]. replace (Z.succ j) with (j + 1) by lia. done.
Qed.

End image.

Lemma image_start h r s2 fixed pa va : tree (kernel_allowed h) 3 [] s2 r ->
  owned (kernel_allowed h) 3 [] (vm_mem s2) r = [] -> pmm_wf (vm_pmm s2) -> vm_pml4 s2 = r ->
  image_inv h r s2 fixed pa va 0 s2.
Proof.
  intros Ht Ho Hw Hr. split; [done|done|done| |done|done|intros; lia].
  exists []. split; [by apply takes_nil|]. rewrite Ho. set_solver.
Qed.

(** ** Initialisation *)

(** Where the boot loader put the kernel: [n] page frames from [kb], which the
    frame allocator does not hand out, linked in the last 2 GiB; and the HHDM
    offset in the upper half, in another slot of the root table. *)
Record boot_info (kb kv ke off n : Z) (s : Vm) : Prop := {
  bi_pmm : pmm_wf (vm_pmm s);
  bi_mapped : all_mapped s;
  bi_free : 4 <= pm_free (vm_pmm s);
  bi_count : n = (Z.land (wrap 64 (ke + FRAME_SIZE - 1)) (not_u 64 (FRAME_SIZE - 1)) - kb + FRAME_SIZE - 1) / FRAME_SIZE;
  bi_pos : 0 <= n;
  bi_used : forall i, 0 <= i < n -> used (vm_pmm s) (kb + i * FRAME_SIZE);
  bi_virt : 0xFFFFFFFF80000000 <= kv /\ kv mod 4096 = 0 /\ kv + n * 4096 <= 2 ^ 64;
  bi_hhdm : p4_idx off <> 0 /\ p4_idx off <> 511
}.

(** What [init] leaves. *)
Record booted (kb kv off n : Z) (s' : Vm) (p3 p2 h3 : Z) : Prop := {
  bt_pmm : pmm_wf (vm_pmm s');
  bt_window : vm_window s' = IDENTITY_MAP_LIMIT;
  bt_nodup : NoDup [vm_pml4 s'; p3; p2; h3];
  bt_used : forall f, f ∈ [vm_pml4 s'; p3; p2; h3] -> used (vm_pmm s') f;
  bt_identity : identity_tables (vm_pml4 s') p3 p2 (vm_mem s');
  bt_hhdm : word (vm_mem s') (vm_pml4 s') (p4_idx off) = pte_table h3;
  bt_h3 : forall i, idx i -> word (vm_mem s') h3 i = if decide (i = 0) then pte_table p2 else 0;
  bt_shape : exists w, shape (kernel_allowed (p4_idx off)) 3 [] w (vm_mem s') (vm_pml4 s');
  bt_pages : forall i, 0 <= i < n ->
    entry_at (vm_mem s') (vm_pml4 s') (idxs (kv + i * 4096)) = pte_set (kb + i * 4096) KERNEL_RWX
}.

(** The tree of the root table before the kernel image is mapped. *)
Lemma empty_root h s r : used (vm_pmm s) r -> r < vm_window s ->
  (forall i, idx i -> i <> 0 -> i <> h -> word (vm_mem s) r i = 0) ->
  tree (kernel_allowed h) 3 [] s r /\ owned (kernel_allowed h) 3 [] (vm_mem s) r = [].
Proof.
  intros Hu Hw Hz.
  assert (forall i, i ∈ kernel_allowed h [] -> word (vm_mem s) r i = 0) as Hnil.
  { intros i (Hx & H0 & H1)%kernel_allowed_top. by apply Hz. }
  assert (owned (kernel_allowed h) 3 [] (vm_mem s) r = []) as Ho.
  { rewrite owned_S. apply bind_nil_in. intros i Hi. unfold child. by rewrite Hnil. }
  split; [|done]. split; rewrite ?Ho.
  - apply NoDup_singleton.
  - intros f Hf. by apply list_elem_of_singleton in Hf as ->.
  - apply shape_S_intro; [done|]. intros i Hi. by rewrite Hnil.
Qed.

Lemma kernel_va kv n i : 0xFFFFFFFF80000000 <= kv -> kv mod 4096 = 0 -> kv + n * 4096 <= 2 ^ 64 -> 0 <= i < n ->
  wrap 64 (kv + i * FRAME_SIZE) = kv + i * 4096 /\ p4_idx (kv + i * 4096) = 511.
Proof.
  intros H1 H2 H3 Hi. change FRAME_SIZE with 4096. split; [apply wrap_small; unfold in_u; lia|].
  unfold p4_idx. rewrite idx_div by lia.
  assert ((kv + i * 4096) / 2 ^ 39 = 2 ^ 25 - 1) as ->; [|done].
  symmetry. apply Z.div_unique with (kv + i * 4096 - (2 ^ 25 - 1) * 2 ^ 39); lia.
Qed.

Lemma idxs_mod va : idxs va = idxs (va mod 2 ^ 48).
Proof.
  unfold idxs, p4_idx, p3_idx, p2_idx, p1_idx. rewrite !idx_div by lia.
  assert (forall k, 0 <= k <= 39 -> (va / 2 ^ k) mod 512 = ((va mod 2 ^ 48) / 2 ^ k) mod 512) as H.
  { intros k Hk. rewrite (Z.div_mod va (2 ^ 48)) at 1 by lia.
    replace (2 ^ 48 * (va / 2 ^ 48)) with (va / 2 ^ 48 * 2 ^ (39 - k) * 512 * 2 ^ k); cycle 1.
    { rewrite <- !Z.mul_assoc. change 512 with (2 ^ 9). rewrite <- !Z.pow_add_r by lia.
      replace (39 - k + (9 + k)) with 48 by lia. lia. }
    rewrite Z.add_comm, Z.div_add by (apply Z.pow_nonzero; lia). by rewrite Z.mod_add by lia. }
  by rewrite !H by lia.
Qed.

Lemma kernel_va_inj kv n i j : 0xFFFFFFFF80000000 <= kv -> kv + n * 4096 <= 2 ^ 64 ->
  0 <= i < n -> 0 <= j < n -> idxs (kv + i * 4096) = idxs (kv + j * 4096) -> i = j.
Proof.
  intros H1 H3 Hi Hj. rewrite (idxs_mod (kv + i * 4096)), (idxs_mod (kv + j * 4096)), idxs_inj by (apply Z.mod_pos_bound; lia).
  assert (forall k, 0 <= k < n -> (kv + k * 4096) mod 2 ^ 48 = kv + k * 4096 - (2 ^ 16 - 1) * 2 ^ 48) as Hm.
  { intros k Hk. symmetry. apply Z.mod_unique with (2 ^ 16 - 1); lia. }
  rewrite !Hm, !(Z.add_sub_swap kv), !Z.div_add by (done || lia). lia.
Qed.

(** The tables before the kernel image is mapped. *)
Record fixed_tables (off : Z) (s s2 : Vm) (p3 p2 h3 : Z) : Prop := {
  fx_takes : takes (vm_pmm s) [h3; p2; p3; vm_pml4 s2] (vm_pmm s2);
  fx_window : vm_window s2 = vm_window s;
  fx_identity : identity_tables (vm_pml4 s2) p3 p2 (vm_mem s2);
  fx_hhdm : word (vm_mem s2) (vm_pml4 s2) (p4_idx off) = pte_table h3;
  fx_h3 : forall i, idx i -> word (vm_mem s2) h3 i = if decide (i = 0) then pte_table p2 else 0;
  fx_zero : forall i, idx i -> i <> 0 -> i <> p4_idx off -> word (vm_mem s2) (vm_pml4 s2) i = 0
}.

Lemma fixed_run off s : pmm_wf (vm_pmm s) -> all_mapped s -> 4 <= pm_free (vm_pmm s) -> p4_idx off <> 0 ->
  exists p3 p2 h3 s1 s2, init_identity s = Ok (p2, s1) /\ init_hhdm p2 off s1 = Ok (tt, s2) /\
    fixed_tables off s s2 p3 p2 h3.
Proof.
  intros Hw Ha Hf Ho.
  destruct (init_identity_spec s Hw Ha ltac:(lia)) as (r & p3 & p2 & m1 & q1 & E1 & T1 & [I4 I3 I2] & Z4 & Z3).
  set (s1 := mkVm m1 q1 r (vm_window s)) in *. pose proof (tk_count _ _ _ T1) as C1. cbn in C1.
  assert (used q1 r) as Hur by (apply T1; set_solver).
  destruct (init_hhdm_spec p2 off s1 (tk_wf _ _ _ T1) Ha ltac:(cbn; lia) Hur Ho) as (h3 & m2 & q2 & E2 & T2 & Hh & Hh3 & Hw2).
  cbn [vm_pml4 vm_window vm_pmm vm_mem s1] in *. exists p3, p2, h3, s1, (mkVm m2 q2 r (vm_window s)).
  split; [done|]. split; [done|]. pose proof (takes_app _ _ _ _ _ T1 T2) as T. cbn [app] in T.
  pose proof (tk_nodup _ _ _ T) as [N1 [N2 [N3 _]%NoDup_cons]%NoDup_cons]%NoDup_cons.
  assert (forall f, f ∈ [h3; p2; p3; r] -> aligned f) as Hal
    by (intros f Hf'; eapply frame_addr_range, free_frame_addr, T; done).
  assert (idx 0) as H0 by (unfold idx; lia).
  assert (forall f i, f ∈ [p2; p3] -> idx i -> word m2 f i = word m1 f i) as Hkeep.
  { intros f i Hf' Hi. apply Hw2; [apply Hal; set_solver|done|set_solver|]. intros [-> _]. set_solver. }
  assert (forall i, idx i -> i <> p4_idx off -> word m2 r i = word m1 r i) as Hr12.
  { intros i Hi Hne. apply Hw2; [apply Hal; set_solver|done|set_solver|]. by intros [_ ?]. }
  split; cbn [vm_pml4 vm_window vm_pmm vm_mem]; [done|done| |done|done|].
  - split; [by rewrite Hr12 by done|rewrite Hkeep by set_solver; done|].
    intros i Hi. rewrite Hkeep by set_solver. by apply I2.
  - intros i Hi Hi0 Hih. rewrite Hr12 by done. by apply Z4.
Qed.

Lemma fixed_distinct off s s2 p3 p2 h3 : fixed_tables off s s2 p3 p2 h3 ->
  NoDup [vm_pml4 s2; p3; p2; h3] /\ forall f, f ∈ [p3; p2; h3] -> f <> vm_pml4 s2.
Proof.
  intros Hx. pose proof (tk_nodup _ _ _ (fx_takes _ _ _ _ _ _ Hx)) as Hnd.
  assert (NoDup [vm_pml4 s2; p3; p2; h3]) as Hnd'.
  { replace [vm_pml4 s2; p3; p2; h3] with (reverse [h3; p2; p3; vm_pml4 s2]) by done. by rewrite reverse_Permutation. }
  split; [done|]. apply NoDup_cons in Hnd' as [Hn _]. intros f Hf ->. done.
Qed.

Lemma init_run kb kv ke off n s : boot_info kb kv ke off n s ->
  match init kb kv ke off s with
  | Ok (_, s') => exists p3 p2 h3, booted kb kv off n s' p3 p2 h3
  | Err e => e = OutOfMemory
  end.
Proof.
  intros [Hw Ha Hf Hn Hn0 Hused [Hv1 [Hv2 Hv3] ] [Ho1 Ho2] ]. unfold init.
  destruct (fixed_run off s Hw Ha Hf Ho1) as (p3 & p2 & h3 & s1 & s2 & E1 & E2 & Hx).
  erewrite mm_bind_ok by exact E1. erewrite mm_bind_ok by exact E2. cbn zeta. unfold map_kernel. rewrite <- Hn.
  pose proof (fx_takes _ _ _ _ _ _ Hx) as T. destruct (fixed_distinct _ _ _ _ _ _ Hx) as [Hnd Hne].
  assert (all_mapped s2) as Ha2 by (unfold all_mapped; by rewrite (fx_window _ _ _ _ _ _ Hx)).
  assert (forall f, f ∈ [h3; p2; p3; vm_pml4 s2] -> used (vm_pmm s2) f) as Hnew by (intros f Hf'; apply T; by right).
  assert (forall i, 0 <= i < n -> kb + i * FRAME_SIZE ∉ [h3; p2; p3; vm_pml4 s2]) as Himg.
  { intros i Hi Hin%(tk_free _ _ _ T). eapply used_not_free; [by apply Hused|done]. }
  pose proof (fun i (Hi : 0 <= i < n) => kernel_va kv n i Hv1 Hv2 Hv3 Hi) as Hkva.
  destruct (empty_root (p4_idx off) s2 (vm_pml4 s2)) as [Ht2 Howned].
  { apply Hnew. set_solver. } { apply all_mapped_frame; [done|]. eapply used_frame, Hnew. set_solver. } { apply Hx. }
  pose proof (image_loop (p4_idx off) (vm_pml4 s2) s2 [p3; p2; h3] (fun i => kb + i * FRAME_SIZE)
    (fun i => wrap 64 (kv + i * FRAME_SIZE)) n) as Hloop. cbn beta in Hloop.
  specialize (Hloop ltac:(intros i Hi; pose proof (Himg i Hi); split; [apply T; left; by apply Hused|set_solver])).
  specialize (Hloop ltac:(change FRAME_SIZE with 4096; intros; lia)).
  specialize (Hloop ltac:(intros i Hi; destruct (Hkva i Hi) as [-> ->]; split; [done|congruence])).
  specialize (Hloop ltac:(intros i j Hi Hj; rewrite (proj1 (Hkva i Hi)), (proj1 (Hkva j Hj)); by eapply kernel_va_inj)).
  specialize (Hloop ltac:(intros f Hf'; split; [apply Hnew; set_solver|by apply Hne])).
  specialize (Hloop eq_refl (Z.to_nat n) 0 s2 Ha2 ltac:(lia) ltac:(lia)). rewrite Z2Nat.id in Hloop by lia.
  specialize (Hloop (image_start _ _ _ _ _ _ Ht2 Howned (tk_wf _ _ _ T) eq_refl)).
  destruct (for_each_idx _ _ s2) as [ [u s3]|e] eqn:E3; [|by erewrite mm_bind_err by exact E3].
  erewrite mm_bind_ok by exact E3. exists p3, p2, h3. destruct (im_takes _ _ _ _ _ _ _ _ Hloop) as (new & T3 & _).
  pose proof (im_root _ _ _ _ _ _ _ _ Hloop) as Hr3. pose proof (im_fixed _ _ _ _ _ _ _ _ Hloop) as Hfx.
  pose proof (idxs_range off) as (Hoff & _). assert (idx 0) as H0 by (unfold idx; lia).
  destruct (fx_identity _ _ _ _ _ _ Hx) as [I4 I3 I2].
  split; cbn [vm_pmm vm_window vm_pml4 vm_mem]; rewrite ?Hr3.
  - apply T3.
  - done.
  - done.
  - intros f Hf'. apply T3. left. apply Hnew. set_solver.
  - split; [by rewrite (im_top _ _ _ _ _ _ _ _ Hloop) by (done || by left)|by rewrite Hfx by (done || set_solver)|].
    intros i Hi. rewrite Hfx by (done || set_solver). by apply I2.
  - rewrite (im_top _ _ _ _ _ _ _ _ Hloop) by (done || by right). apply Hx.
  - intros i Hi. rewrite Hfx by (done || set_solver). by apply Hx.
  - eexists. apply (im_tree _ _ _ _ _ _ _ _ Hloop).
  - intros i Hi. rewrite <- (proj1 (Hkva i Hi)). exact (im_pages _ _ _ _ _ _ _ _ Hloop i Hi).
Qed.

(** ** Translations *)

Lemma huge_entry_bits i : idx i ->
  pte_is_present (huge_entry i) = true /\ pte_is_huge (huge_entry i) = true /\
  pte_address (huge_entry i) = i * 2 ^ 21.
Proof.
  unfold idx. intros Hi. assert (aligned (i * (2 * 1024 * 1024))) as Ha.
  { unfold aligned. replace (i * (2 * 1024 * 1024)) with (i * 512 * 4096) by lia. apply Z.mod_mul. lia. }
  unfold huge_entry. rewrite present_bit, huge_bit, !low_bit by (done || lia). do 2 (split; [done|]).
  rewrite address_lor by (done || lia). lia.
Qed.

Lemma low_idxs base a : 0 <= a < 2 ^ 30 -> base mod 2 ^ 39 = 0 ->
  p4_idx (base + a) = p4_idx base /\ p3_idx (base + a) = 0 /\ p2_idx (base + a) = a / 2 ^ 21 /\
  (base + a) mod 2 ^ 21 = a mod 2 ^ 21.
Proof.
  intros Ha Hb. pose proof (Z.div_mod base (2 ^ 39)) as Hd. rewrite Hb in Hd.
  unfold p4_idx, p3_idx, p2_idx. rewrite !idx_div by lia.
  replace base with (base / 2 ^ 39 * 2 ^ 39) by lia. generalize (base / 2 ^ 39). intros q.
  split; [|split; [|split] ].
  - rewrite Z.add_comm, Z.div_add, Z.div_mul, (Z.div_small a) by lia. done.
  - replace (q * 2 ^ 39) with (q * 512 * 2 ^ 30) by lia. rewrite Z.add_comm, Z.div_add, (Z.div_small a) by lia.
    apply Z.mod_mul. lia.
  - replace (q * 2 ^ 39) with (q * 512 * 512 * 2 ^ 21) by lia. rewrite Z.add_comm, Z.div_add, Z.mod_add by lia.
    apply Z.mod_small. split; [apply Z.div_pos; lia|apply Z.div_lt_upper_bound; lia].
  - replace (q * 2 ^ 39) with (q * 2 ^ 18 * 2 ^ 21) by lia. by rewrite Z.add_comm, Z.mod_add by lia.
Qed.

(** A window on the identity map through a P3 table whose entry 0 leads to
    it. *)
Lemma translate_window m r p2 e base a : 0 <= a < 2 ^ 30 -> base mod 2 ^ 39 = 0 -> frame_addr p2 ->
  word m r (p4_idx base) = pte_table e -> frame_addr e -> word m e 0 = pte_table p2 ->
  (forall i, idx i -> word m p2 i = huge_entry i) -> translate m r (base + a) = Some a.
Proof.
  intros Ha Hb Hp2 H4 He H3 H2. destruct (low_idxs base a Ha Hb) as (E4 & E3 & E2 & Em).
  unfold translate. rewrite E4, E3, E2, Em, H4.
  destruct (table_entry e He) as (-> & _ & ->). cbn [negb]. rewrite H3.
  destruct (table_entry p2 Hp2) as (-> & _ & ->). cbn [negb].
  assert (idx (a / 2 ^ 21)) as Hi by (unfold idx; split; [apply Z.div_pos; lia|apply Z.div_lt_upper_bound; lia]).
  rewrite H2 by done. destruct (huge_entry_bits _ Hi) as (-> & -> & ->). cbn [negb].
  f_equal. pose proof (Z.div_mod a (2 ^ 21)). lia.
Qed.

(** A small page of a tree. *)
Lemma translate_page allowed w m r va : (forall path i, i ∈ allowed path -> idx i) ->
  shape allowed 3 [] w m r -> leaf_path allowed 3 [] (idxs va) ->
  pte_is_present (entry_at m r (idxs va)) = true ->
  translate m r va = Some (pte_address (entry_at m r (idxs va)) + va mod 2 ^ 12).
Proof.
  intros Hidx Hs (j4 & ? & [= <- <-] & H4 & j3 & ? & [= <- <-] & H3 & j2 & ? & [= <- <-] & H2 & _) Hp.
  unfold translate. cbn [idxs entry_at] in Hp |- *.
  destruct (pte_is_present (word m r (p4_idx va))) eqn:P4; [cbn [negb]|done].
  destruct (shape_S _ _ _ _ _ _ _ Hs H4 P4) as [_ Hs3].
  destruct (pte_is_present (word m (pte_address (word m r (p4_idx va))) (p3_idx va))) eqn:P3; [cbn [negb]|done].
  destruct (shape_S _ _ _ _ _ _ _ Hs3 H3 P3) as [_ Hs2].
  destruct (pte_is_present (word m _ (p2_idx va))) eqn:P2; [cbn [negb]|done].
  destruct (shape_S _ _ _ _ _ _ _ Hs2 H2 P2) as [-> _]. by rewrite Hp.
Qed.

Lemma idxs_offset va a : va mod 4096 = 0 -> 0 <= a < 4096 -> idxs (va + a) = idxs va /\ (va + a) mod 2 ^ 12 = a.
Proof.
  intros Hv Ha. pose proof (Z.div_mod va 4096) as Hd. rewrite Hv in Hd. split.
  - unfold idxs, p4_idx, p3_idx, p2_idx, p1_idx. rewrite !idx_div by lia.
    change (2 ^ 12) with 4096. change (2 ^ 21) with (4096 * 512). change (2 ^ 30) with (4096 * 262144).
    change (2 ^ 39) with (4096 * 134217728). rewrite <- !Z.div_div by lia.
    replace ((va + a) / 4096) with (va / 4096); [done|]. apply Z.div_unique with a; lia.
  - change (2 ^ 12) with 4096. symmetry. apply Z.mod_unique with (va / 4096); lia.
Qed.

Lemma booted_spaces kb kv off n s' p3 p2 h3 : booted kb kv off n s' p3 p2 h3 ->
  (forall f, f ∈ identity_frames s' -> f < IDENTITY_MAP_LIMIT) -> spaces (identity_frames s') [] s'.
Proof.
  intros [Hpmm Hwin Hnd Hused [I4 I3 I2] _ _ _ _].
  assert (forall f, f ∈ [vm_pml4 s'; p3; p2; h3] -> frame_addr f) as Hfa by (intros f Hf; by eapply used_frame, Hused).
  assert (identity_frames s' = [vm_pml4 s'; p3; p2]) as Hif.
  { unfold identity_frames. rewrite I4. destruct (table_entry p3) as (_ & _ & ->); [apply Hfa; set_solver|].
    rewrite I3. destruct (table_entry p2) as (_ & _ & ->); [apply Hfa; set_solver|done]. }
  rewrite Hif. intros Hlt. split; rewrite ?app_nil_r; [done| |intros f Hf; apply Hused; set_solver|set_solver|set_solver|].
  - change [vm_pml4 s'; p3; p2; h3] with ([vm_pml4 s'; p3; p2] ++ [h3]) in Hnd. cbn. by apply NoDup_app in Hnd as [? _].
  - rewrite Hif, Hwin. intros f Hf. split; [done|by apply Hlt].
Qed.


(** The alias at the HHDM offset uses entry 0 of its P3 table. For an offset
    that is a multiple of 1 GiB, the guarantee the code relies on, but whose P3
    index is not 0, nothing at all is mapped at the offset: the first access
    through the direct map after the switch of tables would fault. *)
Theorem hhdm_alias_misses kb kv ke off n s s' a :
  boot_info kb kv ke off n s -> init kb kv ke off s = Ok (tt, s') ->
  off mod 2 ^ 30 = 0 -> p3_idx off <> 0 -> 0 <= a < 2 ^ 30 ->
  translate (vm_mem s') (kernel_pml4 s') (off + a) = None.
Proof.
  intros Hb E Hoff H3 Ha. pose proof (init_run _ _ _ _ _ _ Hb) as Hr. rewrite E in Hr.
  destruct Hr as (p3 & p2 & h3 & [_ _ _ Hused _ Hh Hh3 _ _]).
  pose proof (Z.div_mod off (2 ^ 30)) as Hd. rewrite Hoff in Hd.
  assert ((off + a) / 2 ^ 30 = off / 2 ^ 30) as E30 by (symmetry; apply Z.div_unique with a; lia).
  assert (p4_idx (off + a) = p4_idx off /\ p3_idx (off + a) = p3_idx off) as [E4 E3].
  { unfold p4_idx, p3_idx. rewrite !idx_div by lia. change (2 ^ 39) with (2 ^ 30 * 512).
    rewrite <- !Z.div_div by lia. by rewrite E30. }
  unfold translate, kernel_pml4. rewrite E4, E3, Hh.
  destruct (table_entry h3) as (-> & _ & ->); [eapply used_frame, Hused; set_solver|]. cbn [negb].
  pose proof (idxs_range off) as (_ & Hi3 & _). by rewrite Hh3, decide_False by done.
Qed.
