(* ===== verification/MemCalls.v ===== *)
(** * The memory system calls (kernel/src/syscall.rs)

    [SYS_MMAP], [SYS_MUNMAP] and [SYS_BRK] on the scheduler and the page tables.
    A call answers the value of RAX; it does not return when the kernel stops:
    an operation of the page tables stopped, or there is no current task. *)

From S2P Require Import Prelude Abi Cap Task Pmm Vmm VmmTree VmmSpaces VmmLife.

#[local] Open Scope Z_scope.

Record MemSys : Type := mkMS {
  ms_sched : Scheduler;
  ms_vm : Vm
}.

Inductive MemStop : Type :=
| VmStopped (e : VmStop)
| NoCurrent.

Definition MS (A : Type) : Type := MemSys -> result (A * MemSys) MemStop.

#[export] Instance ms_ret : MRet MS := fun A a k => Ok (a, k).
#[export] Instance ms_bind : MBind MS := fun A B f m k =>
  match m k with
  | Ok (a, k') => f a k'
  | Err e => Err e
  end.

(** An operation of the page tables. *)
Definition on_vm {A} (m : MM A) : MS A := fun k =>
  match m (ms_vm k) with
  | Ok (a, s) => Ok (a, mkMS (ms_sched k) s)
  | Err e => Err (VmStopped e)
  end.

(** An operation of the scheduler; [None] is an index out of bounds. *)
Definition on_sched {A} (f : Scheduler -> option (A * Scheduler)) : MS A := fun k =>
  match f (ms_sched k) with
  | Some (a, s) => Ok (a, mkMS s (ms_vm k))
  | None => Err NoCurrent
  end.

Definition ask {A} (f : Scheduler -> option A) : MS A := on_sched (fun s => (fun a => (a, s)) <$> f s).

Definition alloc_frame_ms : MS (option Z) := on_vm (fun s =>
  match alloc_frame (vm_pmm s) with
  | Some (f, p) => Ok (Some f, with_pmm p s)
  | None => Ok (None, s)
  end).

Definition current_page_table (s : Scheduler) : option (option Z) := t_page_table <$> sc_tasks s !! sc_current s.

(** The check of the calls for a [Memory] capability with [WRITE]. *)
Definition has_memory_cap (s : Scheduler) : option bool :=
  match current_task_id s with
  | None => None
  | Some id =>
      Some (match cap_table_of s id with
            | None => false
            | Some table => CapabilityTable_has_kind_with_rights table KMemory WRITE
            end)
  end.

(** [map_page_in] for a user task, [map_page] for a kernel task. *)
Definition map_current (virt phys flags : Z) : MS unit :=
  pt ← ask current_page_table;
  match pt with
  | Some pml4 => on_vm (map_page_in pml4 virt phys flags)
  | None => on_vm (map_page virt phys flags)
  end.

Definition MMAP_ALLOWED : Z := Z.lor (Z.lor (Z.lor PF_PRESENT PF_WRITABLE) PF_USER) PF_NX.

Definition mmap_flags (a3 : Z) : Z := Z.lor (Z.land a3 MMAP_ALLOWED) PF_USER.

Definition user_page (a1 : Z) : bool :=
  (Z.land a1 0xFFF =? 0) && negb ((a1 <? 0x40000000) || (0x800000000000 <=? a1)).

Definition sys_mmap (a1 a3 : Z) : MS Z :=
  if negb (user_page a1) then mret EINVAL
  else
    cap ← ask has_memory_cap;
    if negb cap then mret ENOPERM
    else
      ok ← on_sched (fun s => vma_insert s a1);
      if negb ok then mret EINVAL
      else
        frame ← alloc_frame_ms;
        match frame with
        | None => _ ← on_sched (fun s => vma_remove s a1); mret EINVAL
        | Some phys => _ ← map_current a1 phys (mmap_flags a3); mret 0
        end.

Definition free_mapped (r : option Z) : MS unit :=
  match r with
  | Some phys => on_vm (free_frame_mm phys)
  | None => mret tt
  end.

Definition sys_munmap (a1 : Z) : MS Z :=
  if negb (user_page a1) then mret EINVAL
  else
    ok ← on_sched (fun s => vma_remove s a1);
    if negb ok then mret EINVAL
    else
      pt ← ask current_page_table;
      match pt with
      | Some pml4 => r ← on_vm (unmap_page_in pml4 a1); _ ← free_mapped r; mret 0
      | None => _ ← on_vm (unmap_page a1); mret 0
      end.

Definition HEAP_BASE : Z := 0x400000000.
Definition STACK_GUARD : Z := 0x7FFE00000000.

Definition page_up (a : Z) : Z := Z.land (wrap 64 (a + 0xFFF)) (not_u 64 0xFFF).

Definition BRK_FLAGS : Z := Z.lor (Z.lor (Z.lor PF_PRESENT PF_WRITABLE) PF_USER) PF_NX.

Definition set_brk (a : Z) : MS unit := on_sched (fun s => (fun s' => (tt, s')) <$> set_current_task_brk s a).

(** [while va < new_page_top], [n] rounds; [Some va] is the early return. *)
Fixpoint brk_grow (n : nat) (va : Z) : MS (option Z) :=
  match n with
  | O => mret None
  | S n' =>
      frame ← alloc_frame_ms;
      match frame with
      | None => _ ← set_brk va; mret (Some va)
      | Some phys => _ ← map_current va phys BRK_FLAGS; brk_grow n' (va + 0x1000)
      end
  end.

(** [while va < old_top], [n] rounds. *)
Fixpoint brk_shrink (n : nat) (pml4 va : Z) : MS unit :=
  match n with
  | O => mret tt
  | S n' =>
      r ← on_vm (unmap_page_in pml4 va);
      _ ← free_mapped r;
      brk_shrink n' pml4 (va + 0x1000)
  end.

(** Rounds of a loop over pages from [a] to [b]. *)
Definition page_rounds (a b : Z) : nat := Z.to_nat ((b - a + 0xFFF) / 0x1000).

Definition sys_brk (a1 : Z) : MS Z :=
  cap ← ask has_memory_cap;
  if negb cap then mret ENOPERM
  else
    b ← ask current_task_brk;
    let cur_brk := if b =? 0 then HEAP_BASE else b in
    if a1 =? 0 then _ ← set_brk cur_brk; mret cur_brk
    else if a1 <=? cur_brk then
      if a1 <? HEAP_BASE then mret EINVAL
      else
        pt ← ask current_page_table;
        _ ← match pt with
            | Some pml4 => brk_shrink (page_rounds (page_up a1) (page_up cur_brk)) pml4 (page_up a1)
            | None => mret tt
            end;
        _ ← set_brk a1;
        mret a1
    else if STACK_GUARD <=? a1 then mret EINVAL
    else
      r ← brk_grow (page_rounds (page_up cur_brk) (page_up a1)) (page_up cur_brk);
      match r with
      | Some va => mret va
      | None => _ ← set_brk a1; mret a1
      end.

(** ** Steps of the monad *)

Lemma ms_bind_ok {A B} (x : MS A) (f : A -> MS B) k a k' : x k = Ok (a, k') -> (x ≫= f) k = f a k'.
Proof. intros H. unfold mbind, ms_bind. by rewrite H. Qed.

Lemma ms_bind_err {A B} (x : MS A) (f : A -> MS B) k e : x k = Err e -> (x ≫= f) k = Err e.
Proof. intros H. unfold mbind, ms_bind. by rewrite H. Qed.

Lemma on_vm_ok {A} (m : MM A) k a s : m (ms_vm k) = Ok (a, s) -> on_vm m k = Ok (a, mkMS (ms_sched k) s).
Proof. intros H. unfold on_vm. by rewrite H. Qed.

Lemma ask_ok {A} (f : Scheduler -> option A) k a : f (ms_sched k) = Some a -> ask f k = Ok (a, k).
Proof. intros H. unfold ask, on_sched. rewrite H. by destruct k. Qed.

(** ** Frames and address spaces *)

Lemma spaces_takes ks ps s new p : spaces ks ps s -> takes (vm_pmm s) new p -> spaces ks ps (with_pmm p s).
Proof.
  intros [H1 H2 H3 H4 H5 H6] Ht. split; [apply Ht|done| |done|done|done].
  intros f Hf. apply (tk_used _ _ _ Ht). left. by apply H3.
Qed.

Lemma spaces_releases ks ps s l p : spaces ks ps s -> releases (vm_pmm s) l p ->
  (forall f, f ∈ l -> f ∉ held ks ps s) -> spaces ks ps (with_pmm p s).
Proof.
  intros [H1 H2 H3 H4 H5 H6] Hr Hl. split; [apply Hr|done| |done|done|done].
  intros f Hf. apply (rl_used _ _ _ Hr). split; [by apply H3|]. intros Hin. by apply (Hl f).
Qed.

(** Flags with neither address bits nor the mark of device pages. *)
Definition plain_flags (flags : Z) : Prop :=
  Z.land flags PHYS_ADDR_MASK = 0 /\ Z.land flags PF_MMIO_NOFREE = 0.

Lemma nofree_bit e : (Z.land e PF_MMIO_NOFREE =? 0) = negb (Z.testbit e 9).
Proof.
  pose proof (land_frame_bit e 9) as H. change (9 mod 64) with 9 in H. change (frame_bit 9) with PF_MMIO_NOFREE in H.
  rewrite <- H. by rewrite negb_involutive.
Qed.

Lemma plain_entry f flags : frame_addr f -> plain_flags flags ->
  pte_is_present (pte_set f flags) = Z.testbit flags 0 /\
  maps (pte_set f flags) = (if Z.testbit flags 0 then Some f else None) /\
  leaf_frame (pte_set f flags) = (if Z.testbit flags 0 then [f] else []).
Proof.
  intros Hf [Hm Hn]. destruct (page_entry_bits f flags Hf Hm) as (_ & Ha & Hb).
  unfold maps, leaf_frame. rewrite nofree_bit, present_bit, !Hb, Ha by lia.
  apply Z.eqb_eq in Hn. rewrite nofree_bit in Hn. rewrite Hn, andb_true_r. by destruct (Z.testbit flags 0).
Qed.

Lemma mmap_flags_plain a3 : plain_flags (mmap_flags a3) /\ Z.testbit (mmap_flags a3) 0 = Z.testbit a3 0.
Proof.
  unfold plain_flags, mmap_flags. rewrite !Z.land_lor_distr_l, <- !Z.land_assoc, Z.lor_spec, Z.land_spec.
  change (Z.land MMAP_ALLOWED PHYS_ADDR_MASK) with 0. change (Z.land MMAP_ALLOWED PF_MMIO_NOFREE) with 0.
  rewrite !Z.land_0_r. split; [done|]. change (Z.testbit MMAP_ALLOWED 0) with true.
  change (Z.testbit PF_USER 0) with false. by rewrite andb_true_r, orb_false_r.
Qed.

(** A page of [p] newly backed by the frame [f], which was free; [new] are
    frames for tables. *)
Record fresh_page (ks ps : list Z) (s s' : Vm) (p va flags f : Z) (new : list Z) : Prop := {
  fp_spaces : spaces ks ps s';
  fp_takes : takes (vm_pmm s) (new ++ [f]) (vm_pmm s');
  fp_root : vm_pml4 s' = vm_pml4 s;
  fp_window : vm_window s' = vm_window s;
  fp_entry : forall q va', q ∈ ps -> user_va va' ->
    page_entry s' q va' = if decide (q = p /\ va' / 4096 = va / 4096) then pte_set f flags else page_entry s q va';
  fp_words : forall i, idx i -> word (vm_mem s') f i = word (vm_mem s) f i;
  fp_held : forall g, g ∈ held ks ps s' <->
    g ∈ leaf_frame (pte_set f flags) \/ g ∈ new \/ (g ∈ held ks ps s /\ g ∉ leaf_frame (page_entry s p va));
  fp_others : forall g i, aligned g -> idx i -> g ∉ space_frames (vm_mem s) p -> g ∉ new ->
    word (vm_mem s') g i = word (vm_mem s) g i
}.

Lemma map_fresh ks ps s p va flags f q :
  spaces ks ps s -> p ∈ ps -> user_va va -> plain_flags flags -> takes (vm_pmm s) [f] q ->
  match map_page_in p va f flags (with_pmm q s) with
  | Ok (_, s') => exists new, fresh_page ks ps s s' p va flags f new
  | Err e => stops 4 s e
  end.
Proof.
  intros Hs Hp Hva Hfl Ht. assert (free (vm_pmm s) f) as Hf by (apply Ht; set_solver).
  pose proof (free_frame_addr _ _ Hf) as Hfa. destruct (plain_entry f flags Hfa Hfl) as (_ & _ & Hlf).
  assert (f ∉ held ks ps s) as Hnh by (intros Hh%(sp_used _ _ _ Hs); by eapply used_not_free).
  pose proof (map_page_in_spec ks ps (with_pmm q s) p va f flags (spaces_takes _ _ _ _ _ Hs Ht) Hp Hva) as Hm.
  destruct (map_page_in _ _ _ _ _) as [ [u s']|e]; cycle 1.
  { specialize (Hm ltac:(rewrite Hlf; intros g Hg; destruct (Z.testbit flags 0); [|by apply elem_of_nil in Hg];
      apply list_elem_of_singleton in Hg as ->; split; [apply Ht; set_solver|done])).
    destruct e; cbn in Hm |- *; try done.
    - pose proof (tk_count _ _ _ Ht) as Hc. cbn in Hc. lia.
    - destruct Hm as (g & Hg & Hw). exists g. split; [|done]. by apply (tk_left _ _ _ Ht). }
  destruct Hm as [new Hset].
  { rewrite Hlf. intros g Hg. destruct (Z.testbit flags 0); [|by apply elem_of_nil in Hg].
    apply list_elem_of_singleton in Hg as ->. split; [apply Ht; set_solver|done]. }
  exists new. split.
  - apply Hset.
  - exact (takes_app _ _ _ _ _ Ht (ps_takes _ _ _ _ _ _ _ _ Hset)).
  - apply (ps_root _ _ _ _ _ _ _ _ Hset).
  - apply (ps_window _ _ _ _ _ _ _ _ Hset).
  - intros r va' Hr Hva'. exact (page_entry_set _ _ _ _ _ _ _ _ _ _ Hset Hr Hva Hva').
  - intros i Hi. apply (ps_words _ _ _ _ _ _ _ _ Hset); [by apply frame_addr_range|done| |].
    + intros Hin. apply Hnh, elem_of_app. right. apply elem_of_spaces. by exists p.
    + intros Hin%(tk_free _ _ _ (ps_takes _ _ _ _ _ _ _ _ Hset)). apply (tk_left _ _ _ Ht) in Hin as [_ Hin]. set_solver.
  - exact (ps_held _ _ _ _ _ _ _ _ Hset).
  - exact (ps_words _ _ _ _ _ _ _ _ Hset).
Qed.

(** ** Mapping and unmapping a page *)

(** The running task is the user task [cur] with address space [p]. *)
Record mem_ok (ks ps : list Z) (k : MemSys) (cur : Task) (p : Z) : Prop := {
  mo_cur : sc_tasks (ms_sched k) !! sc_current (ms_sched k) = Some cur;
  mo_table : t_page_table cur = Some p;
  mo_in : p ∈ ps;
  mo_spaces : spaces ks ps (ms_vm k);
  mo_vmas : vmas_wf (t_vma_list cur)
}.

Lemma user_page_va a1 : user_page a1 = true -> user_va a1 /\ a1 mod 4096 = 0.
Proof.
  unfold user_page, user_va. intros [Ha [H1 H2]%negb_true_iff%orb_false_iff]%andb_true_iff.
  apply Z.eqb_eq in Ha. apply Z.ltb_ge in H1. apply Z.leb_gt in H2.
  change 0xFFF with (Z.ones 12) in Ha. rewrite Z.land_ones in Ha by lia. split; [lia|done].
Qed.

Lemma vmas_wf_cons r l : vmas_wf (r :: l) -> vmas_wf l /\ r.1 < r.2 /\ forall b, b ∈ l -> r.2 <= b.1.
Proof.
  intros H. pose proof H as [Hp _]. apply Forall_cons in Hp as [Hr _].
  apply (vmas_wf_app [r]) in H as (_ & H1 & H2). split; [done|]. split; [unfold PAGE in Hr; lia|].
  intros b Hb. apply H2; [set_solver|done].
Qed.

(** A list of ranges is determined by its members. *)
Lemma vmas_wf_unique l : forall l', vmas_wf l -> vmas_wf l' -> l ≡ₚ l' -> l = l'.
Proof.
  induction l as [|a l IH]; intros l' Hl Hl' Hp.
  - by apply Permutation_nil_l in Hp as ->.
  - destruct l' as [|b l']; [by apply Permutation_nil_r in Hp|].
    apply vmas_wf_cons in Hl as (Hl & Ha & Hal). apply vmas_wf_cons in Hl' as (Hl' & Hb & Hbl).
    assert (a = b) as ->.
    { assert (a ∈ b :: l') as [->|Ha']%elem_of_cons by (rewrite <- Hp; set_solver); [done|].
      assert (b ∈ a :: l) as [->|Hb']%elem_of_cons by (rewrite Hp; set_solver); [done|].
      pose proof (Hal b Hb'). pose proof (Hbl a Ha'). lia. }
    f_equal. apply IH; [done|done|]. by apply Permutation_cons_inv in Hp.
Qed.

Lemma alter_current_id {A} (f : A -> A) (l : list A) i x : l !! i = Some x -> f x = x -> alter f i l = l.
Proof.
  intros Hi Hf. apply list_eq. intros j. destruct (decide (i = j)) as [<-|Hne].
  - by rewrite list_lookup_alter_eq, Hi; cbn; rewrite Hf.
  - by rewrite list_lookup_alter_ne.
Qed.

Lemma with_current_vmas_again s v w : with_current_vmas (with_current_vmas s v) w = with_current_vmas s w.
Proof.
  unfold with_current_vmas. cbn. f_equal. rewrite list_alter_alter_eq. by apply list_alter_ext.
Qed.

Lemma with_current_vmas_same s cur : sc_tasks s !! sc_current s = Some cur -> with_current_vmas s (t_vma_list cur) = s.
Proof.
  intros Hc. destruct s as [ts c n]. unfold with_current_vmas. cbn in *. f_equal.
  eapply alter_current_id; [done|]. by destruct cur.
Qed.

Lemma current_with_vmas s cur v : sc_tasks s !! sc_current s = Some cur ->
  sc_tasks (with_current_vmas s v) !! sc_current (with_current_vmas s v) = Some (with_vma_list v cur).
Proof. intros Hc. cbn. by rewrite list_lookup_alter_eq, Hc. Qed.

Lemma vma_insert_eq s cur va : sc_tasks s !! sc_current s = Some cur ->
  vma_insert s va = Some (let '(ok, v) := vma_insert_list (t_vma_list cur) va in (ok, with_current_vmas s v)).
Proof. intros Hc. unfold vma_insert, on_current_vmas. rewrite Hc. by destruct (vma_insert_list _ _). Qed.

Lemma vma_remove_eq s cur va : sc_tasks s !! sc_current s = Some cur ->
  vma_remove s va = Some (let '(ok, v) := vma_remove_list (t_vma_list cur) va in (ok, with_current_vmas s v)).
Proof. intros Hc. unfold vma_remove, on_current_vmas. rewrite Hc. by destruct (vma_remove_list _ _). Qed.

Lemma has_memory_cap_Some s cur : sc_tasks s !! sc_current s = Some cur -> exists b, has_memory_cap s = Some b.
Proof. intros Hc. unfold has_memory_cap, current_task_id. rewrite Hc. by eexists. Qed.

(** [vma_remove] undoes [vma_insert]. *)
Lemma vma_insert_remove s cur va v : sc_tasks s !! sc_current s = Some cur -> vmas_wf (t_vma_list cur) ->
  vma_insert_list (t_vma_list cur) va = (true, v) -> vma_remove (with_current_vmas s v) va = Some (true, s).
Proof.
  intros Hc Hwf Hi. pose proof (vma_insert_list_spec _ va Hwf) as Hs. rewrite Hi in Hs.
  destruct Hs as [(_ & _ & Hv & Hp)|[? _] ]; [|done].
  rewrite (vma_remove_eq _ (with_vma_list v cur)) by by apply current_with_vmas.
  change (t_vma_list (with_vma_list v cur)) with v.
  pose proof (vma_remove_list_spec v va Hv) as Hr. destruct (vma_remove_list v va) as [ok v'].
  destruct Hr as [(-> & Hv' & Hp')|(_ & _ & Hn)]; [|exfalso; apply Hn; rewrite Hp; set_solver].
  rewrite with_current_vmas_again. rewrite (vmas_wf_unique v' (t_vma_list cur)), with_current_vmas_same; [done..|].
  apply (Permutation_cons_inv (a := (va, va + PAGE))). by rewrite <- Hp', Hp.
Qed.

Lemma alloc_frame_ms_eq k : alloc_frame_ms k =
  match alloc_frame (vm_pmm (ms_vm k)) with
  | Some (f, p) => Ok (Some f, mkMS (ms_sched k) (with_pmm p (ms_vm k)))
  | None => Ok (None, k)
  end.
Proof. unfold alloc_frame_ms, on_vm. destruct (alloc_frame _) as [ [f p]|]; [done|]. by destruct k. Qed.

Lemma current_page_table_ok k cur p : sc_tasks (ms_sched k) !! sc_current (ms_sched k) = Some cur ->
  t_page_table cur = Some p -> ask current_page_table k = Ok (Some p, k).
Proof. intros Hc Hp. apply ask_ok. unfold current_page_table. by rewrite Hc; cbn; rewrite Hp. Qed.

Lemma map_current_user k cur p va f flags : sc_tasks (ms_sched k) !! sc_current (ms_sched k) = Some cur ->
  t_page_table cur = Some p -> map_current va f flags k = on_vm (map_page_in p va f flags) k.
Proof. intros Hc Hp. unfold map_current. by erewrite ms_bind_ok by by eapply current_page_table_ok. Qed.

Lemma sys_mmap_spec ks ps k cur p a1 a3 :
  mem_ok ks ps k cur p ->
  (user_page a1 = false -> sys_mmap a1 a3 k = Ok (EINVAL, k)) /\
  (user_page a1 = true -> has_memory_cap (ms_sched k) <> Some true -> sys_mmap a1 a3 k = Ok (ENOPERM, k)) /\
  (user_page a1 = true -> has_memory_cap (ms_sched k) = Some true ->
   (exists r, r ∈ t_vma_list cur /\ overlaps a1 r) -> sys_mmap a1 a3 k = Ok (EINVAL, k)) /\
  (user_page a1 = true -> has_memory_cap (ms_sched k) = Some true ->
   Forall (fun r => ~ overlaps a1 r) (t_vma_list cur) ->
   match alloc_frame (vm_pmm (ms_vm k)) with
   | None => sys_mmap a1 a3 k = Ok (EINVAL, k)
   | Some (f, _) =>
       match sys_mmap a1 a3 k with
       | Ok (r, k') => r = 0 /\ exists vmas new, ms_sched k' = with_current_vmas (ms_sched k) vmas /\
           vmas_wf vmas /\ vmas ≡ₚ (a1, a1 + PAGE) :: t_vma_list cur /\
           fresh_page ks ps (ms_vm k) (ms_vm k') p a1 (mmap_flags a3) f new
       | Err e => exists v, e = VmStopped v /\ stops 4 (ms_vm k) v
       end
   end).
Proof.
  intros [Hc Hpt Hp Hs Hv]. unfold sys_mmap. split; [by intros ->|].
  destruct (user_page a1) eqn:Hu; [|done]. cbn [negb]. apply user_page_va in Hu as [Hva _].
  destruct (has_memory_cap_Some _ _ Hc) as [b Hb].
  erewrite !ms_bind_ok by by apply ask_ok. rewrite Hb.
  destruct b; cbn [negb]; cycle 1. { split; [done|]. split; intros; congruence. }
  split; [congruence|].
  pose proof (vma_insert_list_spec _ a1 Hv) as Hi. destruct (vma_insert_list _ a1) as [ok v] eqn:Ei.
  erewrite !ms_bind_ok by (unfold on_sched; rewrite (vma_insert_eq _ cur), Ei by done; reflexivity).
  destruct Hi as [(-> & Hno & Hv' & Hpm)|(-> & -> & Hov)]; cbn [negb]; cycle 1.
  { rewrite with_current_vmas_same by done. split; [by destruct k|]. intros _ _ Hn. destruct Hov as (r & Hr & Hro).
    rewrite Forall_forall in Hn. by destruct (Hn r Hr). }
  split.
  { intros _ _ (r & Hr & Hro). rewrite Forall_forall in Hno. by destruct (Hno r Hr). }
  intros _ _ _. set (k1 := mkMS _ (ms_vm k)).
  pose proof (alloc_frame_takes _ (sp_pmm _ _ _ Hs)) as Ht.
  pose proof (alloc_frame_ms_eq k1) as Ea. cbn [ms_vm k1] in Ea. destruct (alloc_frame _) as [ [f q]|]; cycle 1.
  { rewrite (ms_bind_ok _ _ _ _ _ Ea). cbn beta iota. unfold on_sched. unfold mbind, ms_bind.
    subst k1. cbn [ms_sched]. erewrite vma_insert_remove by done. by destruct k. }
  rewrite (ms_bind_ok _ _ _ _ _ Ea). cbn beta iota.
  pose proof (map_fresh ks ps (ms_vm k) p a1 (mmap_flags a3) f q Hs Hp Hva (proj1 (mmap_flags_plain a3)) Ht) as Hm.
  unfold mbind, ms_bind at 1. erewrite map_current_user; [|by apply current_with_vmas|done].
  unfold on_vm. cbn [ms_vm]. destruct (map_page_in _ _ _ _ _) as [ [u s']|e]; [|by exists e].
  destruct Hm as [new Hf]. split; [done|]. by exists v, new.
Qed.

(** The frame behind an entry that is being removed. *)
Lemma free_frame_unused p f : aligned f -> 0 <= f -> ~ used p f -> free_frame p f = None.
Proof.
  unfold aligned. intros Ha Hf Hu. unfold free_frame. change FRAME_SIZE with 4096 in *.
  rewrite Ha. change (0 =? 0) with true. cbn [negb].
  destruct (Z.ltb_spec (f / 4096) MAX_FRAMES) as [Hlt|]; [cbn [negb]|done].
  destruct (is_used (pm_bitmap p) (f / 4096)) eqn:E; [|done]. exfalso. apply Hu. exists (f / 4096).
  change FRAME_SIZE with 4096. split; [pose proof (Z.div_mod f 4096); lia|]. split; [|done].
  split; [apply Z.div_pos; lia|done].
Qed.

(** The page [va] of [p] removed and the frame behind it, if any, given back. *)
Record page_gone (ks ps : list Z) (s s' : Vm) (p va : Z) : Prop := {
  pg_entry : forall q va', q ∈ ps -> user_va va' ->
    page_entry s' q va' = if decide (q = p /\ va' / 4096 = va / 4096) then 0 else page_entry s q va';
  pg_frames : match maps (page_entry s p va) with
              | Some f => releases (vm_pmm s) [f] (vm_pmm s')
              | None => vm_pmm s' = vm_pmm s
              end;
  pg_root : vm_pml4 s' = vm_pml4 s;
  pg_window : vm_window s' = vm_window s;
  pg_spaces : leaf_frame (page_entry s p va) = option_list (maps (page_entry s p va)) -> spaces ks ps s';
  pg_held : forall f, f ∈ held ks ps s' <-> f ∈ held ks ps s /\ f ∉ leaf_frame (page_entry s p va)
}.

(** [unmap_page_in] followed by the release of the frame. *)
Definition unmap_free (p va : Z) : MS unit := r ← on_vm (unmap_page_in p va); free_mapped r.

Lemma maps_present e : pte_is_present e = false -> maps e = None /\ leaf_frame e = [].
Proof. intros H. unfold maps, leaf_frame. by rewrite H. Qed.

Lemma unmap_free_spec ks ps sch s p va : spaces ks ps s -> p ∈ ps -> user_va va ->
  match maps (page_entry s p va) with
  | Some f =>
      (used (vm_pmm s) f -> exists s', unmap_free p va (mkMS sch s) = Ok (tt, mkMS sch s') /\ page_gone ks ps s s' p va) /\
      (~ used (vm_pmm s) f -> unmap_free p va (mkMS sch s) = Err (VmStopped BadFree))
  | None => unmap_free p va (mkMS sch s) = Ok (tt, mkMS sch s)
  end.
Proof.
  intros Hs Hp Hva. destruct (unmap_page_in_spec ks ps s p va Hs Hp Hva) as (s1 & E & H1).
  unfold unmap_free. erewrite ms_bind_ok by (apply on_vm_ok; exact E). unfold maps.
  destruct (pte_is_present (page_entry s p va)) eqn:Hpr; [|by subst s1].
  set (f := pte_address (page_entry s p va)) in *. cbn [free_mapped ms_sched].
  pose proof (ps_takes _ _ _ _ _ _ _ _ H1) as Ht.
  assert (forall g, used (vm_pmm s1) g <-> used (vm_pmm s) g) as Hus
    by (intros g; rewrite (tk_used _ _ _ Ht); set_solver).
  split; intros Hu; rewrite <- Hus in Hu; unfold on_vm, free_frame_mm; cbn [ms_vm ms_sched].
  - destruct (free_frame_releases (vm_pmm s1) f (sp_pmm _ _ _ (ps_spaces _ _ _ _ _ _ _ _ H1)) Hu) as (q & -> & Hr).
    exists (with_pmm q s1). split; [done|].
    assert (forall g, g ∈ held ks ps s1 <-> g ∈ held ks ps s /\ g ∉ leaf_frame (page_entry s p va)) as Hh
      by (intros g; rewrite (ps_held _ _ _ _ _ _ _ _ H1); set_solver).
    split.
    + intros q' va' Hq' Hva'. exact (page_entry_set _ _ _ _ _ _ _ _ _ _ H1 Hq' Hva Hva').
    + unfold maps. rewrite Hpr. fold f. cbn [vm_pmm with_pmm]. destruct Hr as [Ha Hb Hc Hd]. split.
      * done.
      * intros g. by rewrite Hb, Hus.
      * intros g. rewrite Hc, (tk_left _ _ _ Ht). set_solver.
      * rewrite Hd, (tk_count _ _ _ Ht). cbn. lia.
    + apply (ps_root _ _ _ _ _ _ _ _ H1).
    + apply (ps_window _ _ _ _ _ _ _ _ H1).
    + intros Hl. eapply spaces_releases; [apply H1|exact Hr|]. intros g Hg. apply list_elem_of_singleton in Hg as ->.
      rewrite Hh, Hl. unfold maps. rewrite Hpr. fold f. set_solver.
    + exact Hh.
  - rewrite free_frame_unused; [done|apply address_aligned|apply address_nonneg|done].
Qed.

(** [SYS_MUNMAP] of the running user task. A bad address or a page the
    task has not recorded gives [EINVAL] and changes nothing. Otherwise the
    record and the entry of that page go, no other page of any task changes,
    and the frame behind the page is given back; the call fails an assertion
    exactly if that frame is not one the allocator has handed out. *)
Lemma sys_munmap_spec ks ps k cur p a1 :
  mem_ok ks ps k cur p ->
  (user_page a1 = false \/ (a1, a1 + PAGE) ∉ t_vma_list cur -> sys_munmap a1 k = Ok (EINVAL, k)) /\
  (user_page a1 = true -> (a1, a1 + PAGE) ∈ t_vma_list cur ->
   exists vmas, vmas_wf vmas /\ t_vma_list cur ≡ₚ (a1, a1 + PAGE) :: vmas /\
   let sch := with_current_vmas (ms_sched k) vmas in
   match maps (page_entry (ms_vm k) p a1) with
   | Some f =>
       (used (vm_pmm (ms_vm k)) f ->
          exists s', sys_munmap a1 k = Ok (0, mkMS sch s') /\ page_gone ks ps (ms_vm k) s' p a1) /\
       (~ used (vm_pmm (ms_vm k)) f -> sys_munmap a1 k = Err (VmStopped BadFree))
   | None => sys_munmap a1 k = Ok (0, mkMS sch (ms_vm k))
   end).
Proof.
  intros [Hc Hpt Hp Hs Hv]. unfold sys_munmap.
  destruct (user_page a1) eqn:Hu; cbn [negb]; [|by split].
  apply user_page_va in Hu as [Hva _]. pose proof (vma_remove_list_spec _ a1 Hv) as Hr.
  destruct (vma_remove_list _ a1) as [ok v] eqn:Er.
  erewrite !ms_bind_ok by (unfold on_sched; rewrite (vma_remove_eq _ cur), Er by done; reflexivity).
  destruct Hr as [(-> & Hv' & Hpm)|(-> & -> & Hn)]; cbn [negb]; cycle 1.
  { rewrite with_current_vmas_same by done. split; [by destruct k|done]. }
  split. { intros [?|Hn]; [done|]. exfalso. apply Hn. rewrite Hpm. set_solver. }
  intros _ _. exists v. split; [done|]. split; [done|]. cbn zeta. set (sch := with_current_vmas _ _).
  erewrite ms_bind_ok by (eapply current_page_table_ok; [by apply current_with_vmas|done]). cbn beta iota.
  pose proof (unmap_free_spec ks ps sch (ms_vm k) p a1 Hs Hp Hva) as Hun.
  assert (forall r k', unmap_free p a1 (mkMS sch (ms_vm k)) = Ok (r, k') ->
    (r0 ← on_vm (unmap_page_in p a1); _ ← free_mapped r0; mret 0) (mkMS sch (ms_vm k)) = Ok (0, k')) as Hok.
  { intros r k'. unfold unmap_free, mbind, ms_bind. destruct (on_vm _ _) as [ [r0 k0]|]; [|done].
    destruct (free_mapped r0 k0) as [ [u k2]|]; [|done]. by intros [= _ ->]. }
  destruct (maps _) as [f|]; [|by eapply Hok]. destruct Hun as [H1 H2]. split.
  - intros Hus. destruct (H1 Hus) as (s' & E & Hg). exists s'. split; [by eapply Hok|done].
  - intros Hus. specialize (H2 Hus). unfold unmap_free, mbind, ms_bind in *. destruct (on_vm _ _) as [ [r0 k0]|]; [|by injection H2 as ->].
    by rewrite H2.
Qed.

(** C0. [SYS_MMAP] of the running user task. A bad address, a missing
    capability, a page that overlaps a recorded one, or no free frame give the
    documented error and change nothing at all. Otherwise the page gets a frame
    that was free, with the user-safe bits of the requested flags and USER; it
    is recorded for the task; no other page of any task changes; and the words
    of the frame are left as they are. The kernel stops only for want of frames
    for tables. *)
Theorem sys_mmap_effect ks ps k cur p a1 a3 :
  mem_ok ks ps k cur p ->
  (user_page a1 = false -> sys_mmap a1 a3 k = Ok (EINVAL, k)) /\
  (user_page a1 = true -> has_memory_cap (ms_sched k) <> Some true -> sys_mmap a1 a3 k = Ok (ENOPERM, k)) /\
  (user_page a1 = true -> has_memory_cap (ms_sched k) = Some true ->
   (exists r, r ∈ t_vma_list cur /\ overlaps a1 r) -> sys_mmap a1 a3 k = Ok (EINVAL, k)) /\
  (user_page a1 = true -> has_memory_cap (ms_sched k) = Some true ->
   Forall (fun r => ~ overlaps a1 r) (t_vma_list cur) ->
   match alloc_frame (vm_pmm (ms_vm k)) with
   | None => sys_mmap a1 a3 k = Ok (EINVAL, k)
   | Some (f, _) =>
       match sys_mmap a1 a3 k with
       | Ok (r, k') => r = 0 /\ exists vmas new, ms_sched k' = with_current_vmas (ms_sched k) vmas /\
           vmas_wf vmas /\ vmas ≡ₚ (a1, a1 + PAGE) :: t_vma_list cur /\
           fresh_page ks ps (ms_vm k) (ms_vm k') p a1 (mmap_flags a3) f new
       | Err e => exists v, e = VmStopped v /\ stops 4 (ms_vm k) v
       end
   end).
Proof. apply sys_mmap_spec. Qed.

(** What a successful [SYS_MMAP] leaves behind. *)
Lemma sys_mmap_done ks ps k cur p a1 a3 k1 :
  mem_ok ks ps k cur p -> sys_mmap a1 a3 k = Ok (0, k1) ->
  user_page a1 = true /\ exists f vmas new, free (vm_pmm (ms_vm k)) f /\
    ms_sched k1 = with_current_vmas (ms_sched k) vmas /\ vmas_wf vmas /\
    vmas ≡ₚ (a1, a1 + PAGE) :: t_vma_list cur /\
    fresh_page ks ps (ms_vm k) (ms_vm k1) p a1 (mmap_flags a3) f new.
Proof.
  intros Hk E. destruct (sys_mmap_spec ks ps k cur p a1 a3 Hk) as (H1 & H2 & H3 & H4).
  destruct (user_page a1); [|by rewrite H1 in E]. split; [done|].
  destruct (decide (has_memory_cap (ms_sched k) = Some true)) as [Hc|Hc]; [|by rewrite H2 in E].
  pose proof (vma_insert_list_spec _ a1 (mo_vmas _ _ _ _ _ Hk)) as Hi.
  destruct (vma_insert_list _ a1) as [ok v]. destruct Hi as [(_ & Hno & _)|(_ & _ & Hov)]; [|by rewrite H3 in E].
  specialize (H4 eq_refl Hc Hno).
  destruct (alloc_frame _) as [ [f q]|]; [|by rewrite H4 in E]. rewrite E in H4.
  destruct H4 as (_ & vmas & new & Hsc & Hv & Hp & Hf). exists f, vmas, new. split; [|done].
  apply (tk_free _ _ _ (fp_takes _ _ _ _ _ _ _ _ _ Hf)). set_solver.
Qed.


(** ** The program break *)

Definition with_brk (b : Z) (t : Task) : Task := with_ids b (t_uid t) (t_gid t) t.

Definition set_current (s : Scheduler) (f : Task -> Task) : Scheduler :=
  mkSched (alter f (sc_current s) (sc_tasks s)) (sc_current s) (sc_next_id s).

Lemma set_brk_ok k cur b : sc_tasks (ms_sched k) !! sc_current (ms_sched k) = Some cur ->
  set_brk b k = Ok (tt, mkMS (set_current (ms_sched k) (with_brk b)) (ms_vm k)).
Proof. intros Hc. unfold set_brk, on_sched, set_current_task_brk, on_current. by rewrite Hc. Qed.

Lemma mem_ok_brk ks ps k cur p b s' : mem_ok ks ps k cur p -> spaces ks ps s' ->
  mem_ok ks ps (mkMS (set_current (ms_sched k) (with_brk b)) s') (with_brk b cur) p.
Proof. intros [Hc Hpt Hp Hs Hv] Hs'. split; [cbn; by rewrite list_lookup_alter_eq, Hc|done..]. Qed.

Lemma mem_ok_vm ks ps k cur p s' : mem_ok ks ps k cur p -> spaces ks ps s' -> mem_ok ks ps (mkMS (ms_sched k) s') cur p.
Proof. by intros [Hc Hpt Hp Hs Hv] Hs'. Qed.

Lemma brk_flags_plain : plain_flags BRK_FLAGS.
Proof. done. Qed.

(** An entry of a heap page: a user page, writable, not executable. *)
Definition heap_entry (e : Z) : Prop := exists f, frame_addr f /\ e = pte_set f BRK_FLAGS.

(** [m] pages from [va] on, in space [p]. *)
Definition in_run (p va m q va' : Z) : Prop := q = p /\ va <= va' < va + 4096 * m.

#[global] Instance in_run_dec p va m q va' : Decision (in_run p va m q va').
Proof. unfold in_run. apply _. Defined.

(** The heap of [p] grown by the [m] pages from [va] on. *)
Record heap_grown (ks ps : list Z) (s s' : Vm) (p va m : Z) : Prop := {
  hg_spaces : spaces ks ps s';
  hg_in : forall va', user_va va' -> in_run p va m p va' -> heap_entry (page_entry s' p va');
  hg_out : forall q va', q ∈ ps -> user_va va' -> ~ in_run p va m q va' ->
    page_entry s' q va' = page_entry s q va'
}.

Definition stopped (e : MemStop) : Prop := e = VmStopped OutOfMemory \/ e = VmStopped PageFault.

Lemma stops_stopped n s v : stops n s v -> stopped (VmStopped v).
Proof. unfold stopped. destruct v; cbn; tauto. Qed.

Lemma same_page va va' : va mod 4096 = 0 -> va <= va' < va + 4096 <-> va' / 4096 = va / 4096.
Proof.
  intros Ha. pose proof (Z.div_mod va 4096). pose proof (Z.div_mod va' 4096). pose proof (Z.mod_pos_bound va' 4096). lia.
Qed.

Lemma heap_grown_step ks ps s s1 s' p va f new m :
  0 <= m -> va mod 4096 = 0 -> user_va va -> p ∈ ps -> frame_addr f ->
  fresh_page ks ps s s1 p va BRK_FLAGS f new -> heap_grown ks ps s1 s' p (va + 4096) m ->
  heap_grown ks ps s s' p va (m + 1).
Proof.
  intros Hm Ha Hva Hp Hf H1 [Hs Hin Hout]. split; [done|..].
  - intros va' Hva' [_ Hr]. destruct (decide (va' < va + 4096)) as [Hlt|Hge].
    + rewrite Hout; [|done|done|unfold in_run; lia].
      rewrite (fp_entry _ _ _ _ _ _ _ _ _ H1) by done. rewrite decide_True; [by exists f|].
      split; [done|]. apply same_page; [done|lia].
    + apply Hin; [done|]. unfold in_run. split; [done|lia].
  - intros q va' Hq Hva' Hr. rewrite Hout; [|done|done|unfold in_run in *; lia].
    rewrite (fp_entry _ _ _ _ _ _ _ _ _ H1), decide_False; [done| |done|done].
    intros [-> Hpg]. apply same_page in Hpg; [|done]. apply Hr. unfold in_run. lia.
Qed.

Lemma brk_grow_spec ks ps cur p n : forall k va,
  mem_ok ks ps k cur p -> va mod 4096 = 0 -> 2 ^ 30 <= va -> va + 4096 * Z.of_nat n <= 2 ^ 47 ->
  match brk_grow n va k with
  | Ok (None, k') => ms_sched k' = ms_sched k /\ heap_grown ks ps (ms_vm k) (ms_vm k') p va (Z.of_nat n)
  | Ok (Some b, k') => exists m, 0 <= m < Z.of_nat n /\ b = va + 4096 * m /\
      ms_sched k' = set_current (ms_sched k) (with_brk b) /\ heap_grown ks ps (ms_vm k) (ms_vm k') p va m
  | Err e => stopped e
  end.
Proof.
  induction n as [|n IH]; intros k va Hk Ha Hlo Hhi.
  - cbn. split; [done|]. split; [apply Hk|unfold in_run; lia|done].
  - cbn [brk_grow]. pose proof Hk as [Hc Hpt Hp Hs Hv]. pose proof (alloc_frame_takes _ (sp_pmm _ _ _ Hs)) as Ht.
    pose proof (alloc_frame_ms_eq k) as Ea. destruct (alloc_frame _) as [ [f q]|]; rewrite (ms_bind_ok _ _ _ _ _ Ea); cycle 1.
    { erewrite ms_bind_ok by by eapply set_brk_ok. exists 0. cbn. do 3 (split; [lia || done|]).
      split; [done|unfold in_run; lia|done]. }
    assert (user_va va) as Hva by (unfold user_va; lia).
    pose proof (map_fresh ks ps (ms_vm k) p va BRK_FLAGS f q Hs Hp Hva brk_flags_plain Ht) as Hm.
    unfold mbind, ms_bind at 1. erewrite map_current_user; [|exact Hc|done]. unfold on_vm. cbn [ms_vm ms_sched].
    destruct (map_page_in _ _ _ _ _) as [ [u s1]|v] eqn:Em; [|by eapply stops_stopped].
    destruct Hm as [new Hf]. assert (frame_addr f) as Hfa by (eapply free_frame_addr, Ht; set_solver).
    specialize (IH (mkMS (ms_sched k) s1) (va + 4096) (mem_ok_vm _ _ _ _ _ _ Hk (fp_spaces _ _ _ _ _ _ _ _ _ Hf))).
    change 0x1000 with 4096. rewrite Z.add_mod, Ha in IH by lia. specialize (IH eq_refl ltac:(lia) ltac:(lia)).
    destruct (brk_grow n (va + 4096) _) as [ [ [b|] k']|e]; [| |done].
    + destruct IH as (m & Hmn & -> & Hsc & Hg). exists (m + 1). split; [lia|]. split; [lia|]. split; [done|].
      eapply heap_grown_step; [lia|done..].
    + destruct IH as [Hsc Hg]. split; [done|]. replace (Z.of_nat (S n)) with (Z.of_nat n + 1) by lia.
      eapply heap_grown_step; [lia|done..].
Qed.

(** A page whose frame, if any, is one of the allocator's. *)
Definition plain_page (e : Z) : Prop := leaf_frame e = option_list (maps e).

(** The [m] pages of [p] from [va] on unmapped and their frames given back. *)
Record heap_cut (ks ps : list Z) (s s' : Vm) (p va m : Z) : Prop := {
  hc_spaces : spaces ks ps s';
  hc_in : forall va', user_va va' -> in_run p va m p va' -> maps (page_entry s' p va') = None;
  hc_freed : forall va' f, user_va va' -> in_run p va m p va' ->
    maps (page_entry s p va') = Some f -> free (vm_pmm s') f;
  hc_free : forall f, free (vm_pmm s) f -> free (vm_pmm s') f;
  hc_out : forall q va', q ∈ ps -> user_va va' -> ~ in_run p va m q va' ->
    page_entry s' q va' = page_entry s q va'
}.

Lemma page_entry_page s q va va' : user_va va -> user_va va' -> va' / 4096 = va / 4096 ->
  page_entry s q va' = page_entry s q va.
Proof. intros H1 H2 He. unfold page_entry. f_equal. unfold user_va in *. apply idxs_inj; lia. Qed.

(** One round of the loop. *)
Lemma unmap_free_cut ks ps sch s p va : spaces ks ps s -> p ∈ ps -> user_va va -> va mod 4096 = 0 ->
  plain_page (page_entry s p va) ->
  exists s', unmap_free p va (mkMS sch s) = Ok (tt, mkMS sch s') /\ heap_cut ks ps s s' p va 1.
Proof.
  intros Hs Hp Hva Ha Hpl. pose proof (unmap_free_spec ks ps sch s p va Hs Hp Hva) as Hu.
  destruct (maps (page_entry s p va)) as [f|] eqn:Hm.
  - destruct Hu as [Hu _]. destruct Hu as (s' & E & Hg).
    { apply (sp_used _ _ _ Hs). eapply (page_frame_held _ _ _ _ _ _ Hs Hp Hva). rewrite Hpl, Hm. set_solver. }
    exists s'. split; [done|]. pose proof (pg_frames _ _ _ _ _ _ Hg) as Hr. rewrite Hm in Hr. split.
    + by apply (pg_spaces _ _ _ _ _ _ Hg).
    + intros va' Hva' [_ Hin]. rewrite (pg_entry _ _ _ _ _ _ Hg), decide_True; [done| |done|done].
      split; [done|]. apply same_page; [done|lia].
    + intros va' g Hva' [_ Hin]. rewrite (page_entry_page s p va va') by first [done|apply same_page; [done|lia] ].
      rewrite Hm. intros [= <-]. apply (rl_free _ _ _ Hr). set_solver.
    + intros g Hg'. apply (rl_free _ _ _ Hr). by left.
    + intros q va' Hq Hva' Hn. rewrite (pg_entry _ _ _ _ _ _ Hg), decide_False; [done| |done|done].
      intros [-> Hpg]. apply Hn. apply same_page in Hpg; [|done]. unfold in_run. lia.
  - exists s. split; [done|]. split; [done| | |done|done].
    + intros va' Hva' [_ Hin]. by rewrite (page_entry_page s p va va') by first [done|apply same_page; [done|lia] ].
    + intros va' g Hva' [_ Hin]. rewrite (page_entry_page s p va va') by first [done|apply same_page; [done|lia] ]. by rewrite Hm.
Qed.

Lemma heap_cut_step ks ps s s1 s' p va m : 0 <= m -> p ∈ ps ->
  heap_cut ks ps s s1 p va 1 -> heap_cut ks ps s1 s' p (va + 4096) m -> heap_cut ks ps s s' p va (m + 1).
Proof.
  intros Hm Hp H1 H2. split.
  - apply H2.
  - intros va' Hva' [_ Hr]. destruct (decide (va' < va + 4096)).
    + rewrite (hc_out _ _ _ _ _ _ _ H2) by (done || unfold in_run; lia). apply H1; [done|]. unfold in_run. split; [done|lia].
    + apply H2; [done|]. unfold in_run. split; [done|lia].
  - intros va' f Hva' [_ Hr] Hf. destruct (decide (va' < va + 4096)).
    + apply (hc_free _ _ _ _ _ _ _ H2). eapply (hc_freed _ _ _ _ _ _ _ H1); [exact Hva'|unfold in_run; split; [done|lia]|done].
    + eapply (hc_freed _ _ _ _ _ _ _ H2); [exact Hva'|unfold in_run; split; [done|lia]|].
      rewrite (hc_out _ _ _ _ _ _ _ H1) by (done || unfold in_run; lia). done.
  - intros f Hf. by apply (hc_free _ _ _ _ _ _ _ H2), (hc_free _ _ _ _ _ _ _ H1).
  - intros q va' Hq Hva' Hn. rewrite (hc_out _ _ _ _ _ _ _ H2), (hc_out _ _ _ _ _ _ _ H1); [done|done|done| |done|done|];
      unfold in_run in *; lia.
Qed.

Lemma brk_shrink_spec ks ps sch p n : forall s va,
  spaces ks ps s -> p ∈ ps -> va mod 4096 = 0 -> 2 ^ 30 <= va -> va + 4096 * Z.of_nat n <= 2 ^ 47 ->
  (forall va', user_va va' -> in_run p va (Z.of_nat n) p va' -> plain_page (page_entry s p va')) ->
  exists s', brk_shrink n p va (mkMS sch s) = Ok (tt, mkMS sch s') /\ heap_cut ks ps s s' p va (Z.of_nat n).
Proof.
  induction n as [|n IH]; intros s va Hs Hp Ha Hlo Hhi Hpl.
  - exists s. split; [done|]. split; [done|unfold in_run; lia|unfold in_run; lia|done|done].
  - assert (user_va va) as Hva by (unfold user_va; lia).
    destruct (unmap_free_cut ks ps sch s p va Hs Hp Hva Ha) as (s1 & E1 & H1).
    { apply Hpl; [done|]. unfold in_run. split; [done|lia]. }
    destruct (IH s1 (va + 4096)) as (s' & E' & H'); [apply H1|done|by rewrite Z.add_mod, Ha by lia|lia|lia| |].
    { intros va' Hva' [_ Hr]. rewrite (hc_out _ _ _ _ _ _ _ H1) by (done || unfold in_run; lia).
      apply Hpl; [done|]. unfold in_run. split; [done|lia]. }
    exists s'. split.
    + cbn [brk_shrink]. unfold unmap_free in E1. unfold mbind, ms_bind in *. destruct (on_vm _ _) as [ [r0 k0]|]; [|done].
      rewrite E1. exact E'.
    + replace (Z.of_nat (S n)) with (Z.of_nat n + 1) by lia. by eapply heap_cut_step; [lia|..].
Qed.

Definition cur_brk (cur : Task) : Z := if t_brk cur =? 0 then HEAP_BASE else t_brk cur.

(** The break is unset or in the heap region. *)
Definition brk_ok (cur : Task) : Prop := t_brk cur = 0 \/ HEAP_BASE <= t_brk cur < STACK_GUARD.

(** Pages between two breaks. *)
Definition pages (a b : Z) : Z := (page_up b - page_up a) / 4096.

Lemma page_up_spec a : 0 <= a < 2 ^ 48 -> a <= page_up a < a + 4096 /\ page_up a mod 4096 = 0.
Proof.
  intros Ha. destruct (align_up_spec 64 12 a) as (H1 & H2); [lia..|]. unfold page_up.
  rewrite wrap_small by (unfold in_u; lia). change 0xFFF with (2 ^ 12 - 1). rewrite Z.add_sub_assoc.
  split; [exact H1|exact H2].
Qed.

Lemma page_up_aligned a : 0 <= a < 2 ^ 48 -> a mod 4096 = 0 -> page_up a = a.
Proof.
  intros Ha Hm. destruct (page_up_spec a Ha) as [H1 H2].
  pose proof (Z.div_mod a 4096). pose proof (Z.div_mod (page_up a) 4096). lia.
Qed.

Lemma page_rounds_eq a b : a mod 4096 = 0 -> b mod 4096 = 0 -> a <= b ->
  Z.of_nat (page_rounds a b) = (b - a) / 4096 /\ 4096 * ((b - a) / 4096) = b - a.
Proof.
  intros Ha Hb Hab. unfold page_rounds. pose proof (Z.div_mod a 4096). pose proof (Z.div_mod b 4096).
  change 0x1000 with 4096. change 0xFFF with 4095. rewrite Z2Nat.id by (apply Z.div_pos; lia).
  Z.div_mod_to_equations. lia.
Qed.

Lemma cur_brk_range cur : brk_ok cur -> HEAP_BASE <= cur_brk cur < STACK_GUARD.
Proof. unfold brk_ok, cur_brk, HEAP_BASE, STACK_GUARD. destruct (Z.eqb_spec (t_brk cur) 0); lia. Qed.

(** The calls that move the break down, and up. *)
Lemma brk_down ks ps k cur p a1 :
  mem_ok ks ps k cur p -> brk_ok cur -> HEAP_BASE <= a1 <= cur_brk cur ->
  (forall va, user_va va -> HEAP_BASE <= va < STACK_GUARD -> plain_page (page_entry (ms_vm k) p va)) ->
  exists s', brk_shrink (page_rounds (page_up a1) (page_up (cur_brk cur))) p (page_up a1) k
    = Ok (tt, mkMS (ms_sched k) s') /\ heap_cut ks ps (ms_vm k) s' p (page_up a1) (pages a1 (cur_brk cur)).
Proof.
  intros Hk Hb Ha Hpl. pose proof (cur_brk_range cur Hb) as Hc. unfold HEAP_BASE, STACK_GUARD in *.
  destruct (page_up_spec a1) as [H1 H2]; [lia|]. destruct (page_up_spec (cur_brk cur)) as [H3 H4]; [lia|].
  assert (page_up (cur_brk cur) <= 0x7FFE00000000) as Htop.
  { pose proof (Z.div_mod (page_up (cur_brk cur)) 4096). lia. }
  assert (page_up a1 <= page_up (cur_brk cur)) as Hle.
  { pose proof (Z.div_mod (page_up (cur_brk cur)) 4096). pose proof (Z.div_mod (page_up a1) 4096). lia. }
  destruct (page_rounds_eq _ _ H2 H4 Hle) as [Hr Hr']. destruct k as [sch s]. cbn [ms_sched ms_vm] in *.
  destruct (brk_shrink_spec ks ps sch p (page_rounds (page_up a1) (page_up (cur_brk cur))) s (page_up a1)) as (s' & E & Hcut);
    [apply Hk|apply Hk|done|lia|lia| |].
  { intros va Hva [_ Hin]. apply Hpl; [done|lia]. }
  exists s'. split; [done|]. unfold pages. by rewrite <- Hr.
Qed.

Lemma brk_up ks ps k cur p a1 :
  mem_ok ks ps k cur p -> brk_ok cur -> cur_brk cur < a1 < STACK_GUARD ->
  match brk_grow (page_rounds (page_up (cur_brk cur)) (page_up a1)) (page_up (cur_brk cur)) k with
  | Ok (None, k') => ms_sched k' = ms_sched k /\
      heap_grown ks ps (ms_vm k) (ms_vm k') p (page_up (cur_brk cur)) (pages (cur_brk cur) a1)
  | Ok (Some b, k') => cur_brk cur <= b < a1 /\ ms_sched k' = set_current (ms_sched k) (with_brk b) /\
      heap_grown ks ps (ms_vm k) (ms_vm k') p (page_up (cur_brk cur)) (pages (cur_brk cur) b)
  | Err e => stopped e
  end.
Proof.
  intros Hk Hb Ha. pose proof (cur_brk_range cur Hb) as Hc. unfold HEAP_BASE, STACK_GUARD in *.
  destruct (page_up_spec a1) as [H1 H2]; [lia|]. destruct (page_up_spec (cur_brk cur)) as [H3 H4]; [lia|].
  assert (page_up a1 <= 0x7FFE00000000) as Htop by (pose proof (Z.div_mod (page_up a1) 4096); lia).
  assert (page_up (cur_brk cur) <= page_up a1) as Hle.
  { pose proof (Z.div_mod (page_up (cur_brk cur)) 4096). pose proof (Z.div_mod (page_up a1) 4096). lia. }
  destruct (page_rounds_eq _ _ H4 H2 Hle) as [Hr Hr'].
  pose proof (brk_grow_spec ks ps cur p (page_rounds (page_up (cur_brk cur)) (page_up a1)) k (page_up (cur_brk cur))
    Hk H4 ltac:(lia) ltac:(lia)) as Hg.
  destruct (brk_grow _ _ k) as [ [ [b|] k']|e]; [| |done].
  - destruct Hg as (m & Hm & -> & Hsc & Hg).
    assert ((page_up (cur_brk cur) + 4096 * m) mod 4096 = 0) as Hal by (rewrite Z.mul_comm, Z.mod_add by lia; done).
    split; [lia|]. split; [done|]. unfold pages. rewrite (page_up_aligned (_ + _)) by (done || lia).
    replace ((page_up (cur_brk cur) + 4096 * m - page_up (cur_brk cur)) / 4096) with m; [done|].
    rewrite Z.add_simpl_l, Z.mul_comm. symmetry. apply Z.div_mul. lia.
  - destruct Hg as [Hsc Hg]. split; [done|]. unfold pages. by rewrite <- Hr.
Qed.

(** C0. [SYS_BRK] of the running user task keeps the program break and all
    memory it touches between the heap base and the stack guard, for every
    64-bit argument. Errors change nothing. A query answers the break; a lower
    break unmaps exactly the whole pages above it and gives their frames back;
    a higher break maps exactly the pages it reaches into, read-write and not
    executable, and stops early, at the page it could not get, when memory runs
    out. No page of another task, and none outside that run, changes. *)
Theorem sys_brk_bounds ks ps k cur p a1 :
  mem_ok ks ps k cur p -> brk_ok cur -> in_u 64 a1 ->
  (forall va, user_va va -> HEAP_BASE <= va < STACK_GUARD -> plain_page (page_entry (ms_vm k) p va)) ->
  match sys_brk a1 k with
  | Err e => stopped e
  | Ok (r, k') =>
      (r = ENOPERM /\ k' = k /\ has_memory_cap (ms_sched k) <> Some true) \/
      (r = EINVAL /\ k' = k /\ (0 < a1 < HEAP_BASE \/ STACK_GUARD <= a1)) \/
      (HEAP_BASE <= r < STACK_GUARD /\ ms_sched k' = set_current (ms_sched k) (with_brk r) /\
       (a1 = 0 -> r = cur_brk cur /\ ms_vm k' = ms_vm k) /\
       (0 < a1 <= cur_brk cur ->
          r = a1 /\ heap_cut ks ps (ms_vm k) (ms_vm k') p (page_up a1) (pages a1 (cur_brk cur))) /\
       (cur_brk cur < a1 -> cur_brk cur <= r <= a1 /\
          heap_grown ks ps (ms_vm k) (ms_vm k') p (page_up (cur_brk cur)) (pages (cur_brk cur) r)))
  end.
Proof.
  intros Hk Hb Ha Hpl. pose proof Hk as [Hc Hpt Hp Hs Hv]. pose proof (cur_brk_range cur Hb) as Hr.
  unfold in_u in Ha. unfold sys_brk. destruct (has_memory_cap_Some _ _ Hc) as [c Hcap].
  erewrite ms_bind_ok by by apply ask_ok. destruct c; cbn [negb]; [|left; split; [done|split; [done|congruence] ] ].
  erewrite ms_bind_ok by (apply ask_ok; unfold current_task_brk; rewrite Hc; reflexivity). cbn zeta. fold (cur_brk cur).
  destruct (Z.eqb_spec a1 0) as [->|Hne].
  { erewrite ms_bind_ok by by eapply set_brk_ok. right. right. do 2 (split; [done|]).
    split; [done|]. split; intros; unfold HEAP_BASE in Hr; lia. }
  destruct (Z.leb_spec a1 (cur_brk cur)) as [Hle|Hgt].
  - destruct (Z.ltb_spec a1 HEAP_BASE); [right; left; split; [done|split; [done|lia] ]|].
    erewrite ms_bind_ok by by eapply current_page_table_ok.
    destruct (brk_down ks ps k cur p a1 Hk Hb ltac:(lia) Hpl) as (s' & E & Hcut).
    erewrite ms_bind_ok by exact E. erewrite ms_bind_ok by (eapply set_brk_ok; exact Hc). right. right.
    split; [lia|]. split; [done|]. split; [intros; lia|]. split; [done|intros; lia].
  - destruct (Z.leb_spec STACK_GUARD a1); [right; left; split; [done|split; [done|lia] ]|].
    pose proof (brk_up ks ps k cur p a1 Hk Hb ltac:(lia)) as Hup.
    destruct (brk_grow _ _ k) as [ [ [b|] k']|e] eqn:Eg; [| |by erewrite ms_bind_err by exact Eg].
    + erewrite ms_bind_ok by exact Eg. destruct Hup as (Hb' & Hsc & Hg). right. right.
      split; [lia|]. split; [done|]. split; [intros; lia|]. split; [intros; lia|]. intros _. split; [lia|done].
    + erewrite ms_bind_ok by exact Eg. destruct Hup as (Hsc & Hg).
      erewrite ms_bind_ok by (eapply set_brk_ok; rewrite Hsc; exact Hc). rewrite Hsc. right. right.
      split; [lia|]. split; [done|]. split; [intros; lia|]. split; [intros; lia|]. intros _. split; [lia|done].
Qed.

(** ** Where the calls fall short of their description *)

(** [SYS_MMAP] accepts a page that is mapped already when the mapping is not
    one of its own: only pages it recorded itself are refused, and those of the
    heap, the stack and the program image are not recorded. The frame behind
    the old mapping then belongs to no address space but stays allocated. *)
Theorem mmap_over_mapped_page_loses_frame ks ps k cur p a1 a3 k1 f :
  mem_ok ks ps k cur p -> f ∈ leaf_frame (page_entry (ms_vm k) p a1) -> sys_mmap a1 a3 k = Ok (0, k1) ->
  used (vm_pmm (ms_vm k1)) f /\ f ∉ held ks ps (ms_vm k1).
Proof.
  intros Hk Hf E. destruct (sys_mmap_done _ _ _ _ _ _ _ _ Hk E) as (Hu & g & v & new & Hg & _ & _ & _ & Hfp).
  pose proof (user_page_va a1 Hu) as [Hva _]. destruct Hk as [_ _ Hp Hs _].
  pose proof (sp_used _ _ _ Hs f (page_frame_held _ _ _ _ _ _ Hs Hp Hva Hf)) as Hfu.
  pose proof (fp_takes _ _ _ _ _ _ _ _ _ Hfp) as Ht. split; [apply (tk_used _ _ _ Ht); by left|].
  assert (f ∉ new ++ [g]) as Hn by (intros H%(tk_free _ _ _ Ht); by eapply used_not_free).
  rewrite (fp_held _ _ _ _ _ _ _ _ _ Hfp).
  destruct (plain_entry g (mmap_flags a3) (free_frame_addr _ _ Hg) (proj1 (mmap_flags_plain a3))) as (_ & _ & ->).
  destruct (Z.testbit _ 0); set_solver.
Qed.

Lemma alloc_frame_none p : pmm_wf p -> pm_free p = 0 -> alloc_frame p = None.
Proof.
  intros Hw Hf. pose proof (alloc_frame_takes p Hw) as Ht. destruct (alloc_frame p) as [ [f q]|]; [|done].
  pose proof (tk_count _ _ _ Ht) as Hc. pose proof (pw_free _ (tk_wf _ _ _ Ht)). cbn in Hc. lia.
Qed.

Lemma map_page_in_out_of_memory p va pa flags s : pmm_wf (vm_pmm s) -> pm_free (vm_pmm s) = 0 -> p < vm_window s ->
  pte_is_present (word (vm_mem s) p (p4_idx va)) = false -> map_page_in p va pa flags s = Err OutOfMemory.
Proof.
  intros Hw Hf Hp Hpr. unfold map_page_in, walk_or_create, descend_create, mbind, mm_bind.
  rewrite load_entry_ok, Hpr by done. unfold alloc_table. by rewrite alloc_frame_none.
Qed.

(** [SYS_MMAP] checks that there is a frame for the page, not for the tables
    that lead to it. With one frame left and no table for the 512 GiB around the
    address, the call passes all checks and the kernel panics. *)
Theorem mmap_last_frame_panics ks ps k cur p a1 a3 :
  mem_ok ks ps k cur p -> user_page a1 = true -> has_memory_cap (ms_sched k) = Some true ->
  Forall (fun r => ~ overlaps a1 r) (t_vma_list cur) ->
  pm_free (vm_pmm (ms_vm k)) = 1 -> pte_is_present (word (vm_mem (ms_vm k)) p (p4_idx a1)) = false ->
  sys_mmap a1 a3 k = Err (VmStopped OutOfMemory).
Proof.
  intros [Hc Hpt Hp Hs Hv] Hu Hcap Hno Hf Hpr. unfold sys_mmap. rewrite Hu. cbn [negb].
  erewrite ms_bind_ok by by apply ask_ok. cbn [negb].
  pose proof (vma_insert_list_spec _ a1 Hv) as Hi. destruct (vma_insert_list _ a1) as [ok v] eqn:Ei.
  destruct Hi as [(-> & _)|(_ & _ & r & Hr & Hro)]; [|rewrite Forall_forall in Hno; by destruct (Hno r Hr)].
  erewrite ms_bind_ok by (unfold on_sched; rewrite (vma_insert_eq _ cur), Ei by done; reflexivity). cbn [negb].
  set (k1 := mkMS _ (ms_vm k)). pose proof (alloc_frame_takes _ (sp_pmm _ _ _ Hs)) as Ht.
  pose proof (alloc_frame_ms_eq k1) as Ea. cbn [ms_vm k1] in Ea. destruct (alloc_frame _) as [ [f q]|]; [|lia].
  rewrite (ms_bind_ok _ _ _ _ _ Ea). cbn beta iota. apply ms_bind_err.
  erewrite map_current_user; [|by apply current_with_vmas|done]. unfold on_vm. cbn [ms_vm].
  rewrite map_page_in_out_of_memory; [done|apply Ht| |cbn; exact (shape_window _ _ _ _ _ _ (sp_shape _ _ _ Hs p Hp))|done].
  pose proof (tk_count _ _ _ Ht) as Hct. cbn in Hct. cbn. lia.
Qed.
