(* ===== verification/Elf.v ===== *)
(** * The program loader (kernel/src/elf.rs and SYS_EXEC)

    [exec] reads the program headers of an ELF64 image, maps its segments and a
    stack into a new address space, writes the first stack frame and creates
    the task.  The loader writes to frames through the direct map, byte by
    byte.  A copy that would read beyond the image, which the code does not
    exclude when its sums wrap around, is the separate outcome [WildRead]. *)

From S2P Require Import Prelude Abi Paths Text Cap Task Pmm Vmm VmmTree VmmSpaces VmmPages.

#[local] Open Scope Z_scope.

Definition ELFMAG : list Z := [0x7F; 69; 76; 70].
Definition ELFCLASS64 : Z := 2.
Definition ELFDATA2LSB : Z := 1.
Definition ET_EXEC : Z := 2.
Definition EM_X86_64 : Z := 62.
Definition PT_LOAD : Z := 1.
Definition PF_X : Z := 1.
Definition PF_W : Z := 2.

Record Elf64Ehdr : Type := mkEhdr {
  e_ident : list Z;
  e_type : Z;
  e_machine : Z;
  e_version : Z;
  e_entry : Z;
  e_phoff : Z;
  e_shoff : Z;
  e_flags : Z;
  e_ehsize : Z;
  e_phentsize : Z;
  e_phnum : Z;
  e_shentsize : Z;
  e_shnum : Z;
  e_shstrndx : Z
}.

Definition ELF64_EHDR_SIZE : Z := 64.

Record Elf64Phdr : Type := mkPhdr {
  p_type : Z;
  p_flags : Z;
  p_offset : Z;
  p_vaddr : Z;
  p_paddr : Z;
  p_filesz : Z;
  p_memsz : Z;
  p_align : Z
}.

Definition ELF64_PHDR_SIZE : Z := 56.

Inductive ElfError : Type :=
| TooSmall | BadMagic | Not64Bit | NotLittleEndian | UnsupportedType | UnsupportedMachine
| BadProgramHeader | SegmentOutOfBounds | ElfOutOfMemory | StackExhausted | ArgvTooLarge.

#[export] Instance ElfError_eq_dec : EqDecision ElfError.
Proof. solve_decision. Defined.

Definition STACK_GUARD_VA : Z := 0x00007FFF00000000.
Definition USER_STACK_PAGES : Z := 64.
Definition STACK_SLOT_PAGES : Z := USER_STACK_PAGES + 2.
Definition MAX_STACK_SLOTS : Z := (0x100000000 / 0x1000) / STACK_SLOT_PAGES.

(** ** Headers *)

(** The little-endian number of [n] bytes at [off]. *)
Definition field (data : list Z) (off n : nat) : Z := le_num (slice off n data).

Definition read_ehdr (data : list Z) : result Elf64Ehdr ElfError :=
  if Z.of_nat (length data) <? ELF64_EHDR_SIZE then Err TooSmall
  else Ok (mkEhdr (slice 0 16 data) (field data 16 2) (field data 18 2) (field data 20 4) (field data 24 8) (field data 32 8)
             (field data 40 8) (field data 48 4) (field data 52 2) (field data 54 2) (field data 56 2) (field data 58 2)
             (field data 60 2) (field data 62 2)).

Definition phdr_at (data : list Z) (o : nat) : Elf64Phdr :=
  mkPhdr (field data o 4) (field data (o + 4) 4) (field data (o + 8) 8) (field data (o + 16) 8) (field data (o + 24) 8)
    (field data (o + 32) 8) (field data (o + 40) 8) (field data (o + 48) 8).

(** What the loader can do instead of returning. *)
Inductive ElfStop : Type :=
| ElfVm (e : VmStop)
| WildRead
| ElfPanic.

(** The sums are of [usize] and wrap around. *)
Definition read_phdr (data : list Z) (phoff phentsize n : Z) : result (result Elf64Phdr ElfError) ElfStop :=
  let off := wrap 64 (phoff + wrap 64 (n * phentsize)) in
  if Z.of_nat (length data) <? wrap 64 (off + ELF64_PHDR_SIZE) then Ok (Err BadProgramHeader)
  else if off + ELF64_PHDR_SIZE <=? Z.of_nat (length data) then Ok (Ok (phdr_at data (Z.to_nat off)))
  else Err WildRead.

Definition segment_flags (p_flags : Z) : Z :=
  let exec := negb (Z.land p_flags PF_X =? 0) in
  let write := negb (Z.land p_flags PF_W =? 0) in
  match exec, write with
  | true, false => USER_RX
  | false, true => USER_RW
  | true, true => Z.lor (Z.lor PF_PRESENT PF_USER) PF_WRITABLE
  | false, false => Z.lor (Z.lor PF_PRESENT PF_USER) PF_NX
  end.

(** ** The loader's state *)

Record ElfSys : Type := mkElfSys {
  es_vm : Vm;
  es_sched : Scheduler;
  es_next_slot : Z;
  es_next_cap : Z
}.

Definition EM (A : Type) : Type := ElfSys -> result (A * ElfSys) ElfStop.

#[export] Instance em_ret : MRet EM := fun A a k => Ok (a, k).
#[export] Instance em_bind : MBind EM := fun A B f m k =>
  match m k with
  | Ok (a, k') => f a k'
  | Err e => Err e
  end.

(** The [?] operator. *)
Definition em_try {A B} (m : EM (result A ElfError)) (f : A -> EM (result B ElfError)) : EM (result B ElfError) :=
  r ← m; match r with Ok a => f a | Err e => mret (Err e) end.

Declare Scope elf_scope.
Notation "x ←! m ; k" := (em_try m (fun x => k)) (at level 20, m at level 100, k at level 200, right associativity) : elf_scope.
#[local] Open Scope elf_scope.

Definition on_elf_vm {A} (m : MM A) : EM A := fun k =>
  match m (es_vm k) with
  | Ok (a, s) => Ok (a, mkElfSys s (es_sched k) (es_next_slot k) (es_next_cap k))
  | Err e => Err (ElfVm e)
  end.

Definition lift_elf {A} (r : result A ElfStop) : EM A := fun k => match r with Ok a => Ok (a, k) | Err e => Err e end.

(** [pmm::alloc_frame().ok_or(OutOfMemory)?] *)
Definition alloc_elf : EM (result Z ElfError) := on_elf_vm (fun s =>
  match alloc_frame (vm_pmm s) with
  | Some (f, p) => Ok (Ok f, with_pmm p s)
  | None => Ok (Err ElfOutOfMemory, s)
  end).

(** [write_bytes(frame, 0, 0x1000)] through the direct map. *)
Definition clear_frame (f : Z) : MM unit := fun s =>
  if f <? vm_window s then Ok (tt, with_mem (zero_frame f (vm_mem s)) s) else Err PageFault.

(** A copy into a frame, through the direct map. *)
Definition copy_into (f off : Z) (bs : list Z) : MM unit := fun s =>
  if f <? vm_window s then Ok (tt, with_mem (put_bytes (f + off) bs (vm_mem s)) s) else Err PageFault.

(** ** Segments *)

Definition PAGE_MASK : Z := not_u 64 0xFFF.

(** The frame of a page, mapped if it is not. *)
Definition frame_for (pml4 page_va flags : Z) : EM (result Z ElfError) :=
  q ← on_elf_vm (query_page_in pml4 page_va);
  match q with
  | Some p => _ ← on_elf_vm (update_page_flags_in pml4 page_va flags); mret (Ok p)
  | None =>
      f ←! alloc_elf;
      _ ← on_elf_vm (map_page_in pml4 page_va f flags);
      _ ← on_elf_vm (clear_frame f);
      mret (Ok f)
  end.

(** The body of the loop over the pages of a segment. *)
Definition load_page (data : list Z) (phdr : Elf64Phdr) (pml4 page_va : Z) : EM (result unit ElfError) :=
  frame ←! frame_for pml4 page_va (segment_flags (p_flags phdr));
  let seg_file_end := wrap 64 (p_vaddr phdr + p_filesz phdr) in
  let copy_va_start := Z.max (p_vaddr phdr) page_va in
  let copy_va_end := Z.min seg_file_end (wrap 64 (page_va + 0x1000)) in
  if copy_va_start <? copy_va_end then
    let file_src_off := wrap 64 (p_offset phdr + (copy_va_start - p_vaddr phdr)) in
    let copy_len := copy_va_end - copy_va_start in
    if file_src_off + copy_len <=? Z.of_nat (length data) then
      _ ← on_elf_vm (copy_into frame (copy_va_start - page_va) (slice (Z.to_nat file_src_off) (Z.to_nat copy_len) data));
      mret (Ok tt)
    else lift_elf (Err WildRead)
  else mret (Ok tt).

Fixpoint load_pages (n : nat) (data : list Z) (phdr : Elf64Phdr) (pml4 page_start i : Z) : EM (result unit ElfError) :=
  match n with
  | O => mret (Ok tt)
  | S n' =>
      _ ←! load_page data phdr pml4 (wrap 64 (page_start + i * 0x1000));
      load_pages n' data phdr pml4 page_start (i + 1)
  end.

Definition load_segment_into (data : list Z) (phdr : Elf64Phdr) (pml4 : Z) : EM (result unit ElfError) :=
  if Z.of_nat (length data) <? wrap 64 (p_offset phdr + p_filesz phdr) then mret (Err SegmentOutOfBounds)
  else if p_memsz phdr =? 0 then mret (Ok tt)
  else
    let vaddr_end := wrap 64 (p_vaddr phdr + p_memsz phdr) in
    let page_start := Z.land (p_vaddr phdr) PAGE_MASK in
    let page_end := Z.land (wrap 64 (vaddr_end + 0xFFF)) PAGE_MASK in
    let page_count := wrap 64 (page_end - page_start) / 0x1000 in
    load_pages (Z.to_nat page_count) data phdr pml4 page_start 0.

(** The loop of [exec] over the program headers. *)
Fixpoint load_segments (n : nat) (data : list Z) (phoff phentsize pml4 i : Z) : EM (result unit ElfError) :=
  match n with
  | O => mret (Ok tt)
  | S n' =>
      phdr ←! lift_elf (read_phdr data phoff phentsize i);
      _ ←! (if p_type phdr =? PT_LOAD then load_segment_into data phdr pml4 else mret (Ok tt));
      load_segments n' data phoff phentsize pml4 (i + 1)
  end.

(** ** The stack *)

(** [NEXT_STACK_SLOT.fetch_add(1)] *)
Definition next_slot : EM Z := fun k =>
  Ok (es_next_slot k, mkElfSys (es_vm k) (es_sched k) (wrap 64 (es_next_slot k + 1)) (es_next_cap k)).

Definition stack_page (pml4 va flags : Z) : EM (result Z ElfError) :=
  frame ←! alloc_elf;
  _ ← on_elf_vm (map_page_in pml4 va frame flags);
  _ ← on_elf_vm (clear_frame frame);
  mret (Ok frame).

(** The loop over the usable pages, [i] being the next one. *)
Fixpoint stack_pages (n : nat) (pml4 slot_base i last_frame : Z) : EM (result Z ElfError) :=
  match n with
  | O => mret (Ok last_frame)
  | S n' =>
      frame ←! stack_page pml4 (slot_base + i * 0x1000) USER_RW;
      stack_pages n' pml4 slot_base (i + 1) (if i =? USER_STACK_PAGES then frame else last_frame)
  end.

Definition alloc_user_stack_into (pml4 : Z) : EM (result (Z * Z) ElfError) :=
  slot ← next_slot;
  if MAX_STACK_SLOTS <=? slot then mret (Err StackExhausted)
  else
    let slot_base := STACK_GUARD_VA + slot * STACK_SLOT_PAGES * 0x1000 in
    _ ←! stack_page pml4 slot_base (Z.lor PF_PRESENT PF_NX);
    last_frame ←! stack_pages (Z.to_nat USER_STACK_PAGES) pml4 slot_base 1 0;
    mret (Ok (slot_base + (USER_STACK_PAGES + 1) * 0x1000, last_frame)).

(** The addresses of the strings, the first at [va]. *)
Fixpoint string_addresses (va : Z) (argv : list str) : list Z :=
  match argv with
  | [] => []
  | s :: argv' => va :: string_addresses (va + Z.of_nat (length s + 1)) argv'
  end.

Definition header_bytes (argv : list str) : Z := 8 * (Z.of_nat (length argv) + 7).
Definition str_bytes (argv : list str) : Z := foldr (fun s n => Z.of_nat (length s + 1) + n) 0 argv.

(** The words of the table and then the strings, in the order of the writes. *)
Definition frame_chunks (rsp : Z) (argv : list str) : list (list Z) :=
  (le_bytes 8 <$> (Z.of_nat (length argv) :: string_addresses (rsp + header_bytes argv) argv ++ [0; 0; 6; 4096; 0; 0])) ++
  (argv ≫= fun s => [s; [0] ]).

(** Consecutive writes. *)
Fixpoint put_chunks (f off : Z) (chunks : list (list Z)) : MM unit :=
  match chunks with
  | [] => mret tt
  | c :: chunks' => _ ← copy_into f off c; put_chunks f (off + Z.of_nat (length c)) chunks'
  end.

Definition write_initial_stack_frame (stack_top last_page_phys : Z) (argv : list str) : EM (result Z ElfError) :=
  let total_bytes := header_bytes argv + str_bytes argv in
  if 4080 <? total_bytes then mret (Err ArgvTooLarge)
  else
    let rsp := Z.land (stack_top - total_bytes) (not_u 64 0xF) in
    _ ← on_elf_vm (put_chunks last_page_phys (Z.land rsp 0xFFF) (frame_chunks rsp argv));
    mret (Ok rsp).

(** ** [exec] *)

Definition check_ehdr (ehdr : Elf64Ehdr) : result unit ElfError :=
  if negb (bool_decide (take 4 (e_ident ehdr) = ELFMAG)) then Err BadMagic
  else if negb (nth 4 (e_ident ehdr) 0 =? ELFCLASS64) then Err Not64Bit
  else if negb (nth 5 (e_ident ehdr) 0 =? ELFDATA2LSB) then Err NotLittleEndian
  else if negb (e_type ehdr =? ET_EXEC) then Err UnsupportedType
  else if negb (e_machine ehdr =? EM_X86_64) then Err UnsupportedMachine
  else Ok tt.

Section exec.
(** The kernel stack of the new task, and the code it starts in. *)
Context (stack_base exec_trampoline : Z).

(** [spawn_userspace_task], with the kernel's page table to find the guard
    page of the kernel stack; its writes to that stack are effects. *)
Definition spawn (entry sp : Z) (caps : list Z) (pml4 : Z) (name : str) : EM Z := fun k =>
  let query va := match query_page va (es_vm k) with Ok (r, _) => r | Err _ => None end in
  match spawn_userspace_task (es_sched k) (es_next_cap k) stack_base query entry sp caps exec_trampoline pml4 name with
  | Done (id, sched, n, _) => Ok (id, mkElfSys (es_vm k) sched (es_next_slot k) n)
  | _ => Err ElfPanic
  end.

Definition exec (elf_data : list Z) (caps : list Z) (argv : list str) : EM (result Z ElfError) :=
  ehdr ←! mret (read_ehdr elf_data);
  _ ←! mret (check_ehdr ehdr);
  user_pml4 ← on_elf_vm create_user_page_table;
  _ ←! load_segments (Z.to_nat (e_phnum ehdr)) elf_data (e_phoff ehdr) (e_phentsize ehdr) user_pml4 0;
  stack ←! alloc_user_stack_into user_pml4;
  initial_sp ←! write_initial_stack_frame stack.1 stack.2 argv;
  let task_name := default (lit "user") (head argv) in
  task_id ← spawn (e_entry ehdr) initial_sp caps user_pml4 task_name;
  mret (Ok task_id).

(** ** SYS_EXEC *)

(** The bytes of user memory, as far as the call copies them. *)
Context (user : Z -> nat -> list Z).

Fixpoint words_of (bytes : list Z) (n : nat) : list Z :=
  match n with O => [] | S n' => le_num (take 8 bytes) :: words_of (drop 8 bytes) n' end.

Definition sys_exec (a1 a2 a3 a4 a5 a6 : Z) : EM Z :=
  let caps_bytes := Z.min (2 ^ 64 - 1) (a4 * 8) in
  if negb (valid_user_range a1 a2) then mret EINVAL
  else if (0 <? a4) && negb (valid_user_range a3 caps_bytes) then mret EINVAL
  else if (0 <? a6) && negb (valid_user_range a5 a6) then mret EINVAL
  else if 4000 <? a6 then mret EINVAL
  else
    let elf_buf := user a1 (Z.to_nat a2) in
    let caps := words_of (user a3 (Z.to_nat caps_bytes)) (Z.to_nat a4) in
    let argv := if (a6 =? 0) || (a5 =? 0) then []
                else List.filter utf8_valid (List.filter nonempty (split_on 0 (user a5 (Z.to_nat a6)))) in
    r ← exec elf_buf caps argv;
    mret (match r with Ok task_id => task_id | Err _ => EINVAL end).

End exec.
