(* ===== verification/ElfLoad.v ===== *)
(** * What the loader builds

    For an image whose segments lie in the user half, above the identity map
    and below the stacks, [exec] builds exactly the address space the image
    describes, beside the existing ones: [exec_loads]. *)

From S2P Require Import Prelude Abi Paths Text Cap Task Pmm Vmm VmmTree VmmSpaces VmmPages VmmLife MemCalls Elf.

#[local] Open Scope Z_scope.
#[local] Open Scope elf_scope.

(** ** What is left alone *)

(** The frames of the kernel and of the address spaces [ps] are as they were. *)
Record kept (ks ps : list Z) (s s' : Vm) : Prop := {
  kp_root : vm_pml4 s' = vm_pml4 s;
  kp_window : vm_window s' = vm_window s;
  kp_words : forall f i, f ∈ held ks ps s -> idx i -> word (vm_mem s') f i = word (vm_mem s) f i
}.

Lemma kept_held ks ps s s' : kept ks ps s s' -> held ks ps s' = held ks ps s.
Proof.
  intros Hk. unfold held. f_equal. apply bind_ext_in. intros q Hq. unfold space_frames. f_equal.
  apply (tree_agree_user 3 [] 0). intros f i Hf. apply (kp_words _ _ _ _ Hk), elem_of_app. right. apply elem_of_spaces. by exists q.
Qed.

Lemma kept_trans ks ps s1 s2 s3 : kept ks ps s1 s2 -> kept ks ps s2 s3 -> kept ks ps s1 s3.
Proof.
  intros H12 H23. pose proof (kept_held _ _ _ _ H12) as Hh. destruct H12 as [R1 W1 M1], H23 as [R2 W2 M2]. split; [congruence|congruence|].
  intros f i Hf Hi. rewrite M2, M1; [done|done|done| |done]. by rewrite Hh.
Qed.

Lemma kept_refl ks ps s : kept ks ps s s.
Proof. done. Qed.

(** The pages of the other address spaces. *)
Lemma kept_entry ks ps s s' q va : kept ks ps s s' -> q ∈ ps -> user_va va -> page_entry s' q va = page_entry s q va.
Proof.
  intros Hk Hq Hva. unfold page_entry. apply (tree_agree_user 3 [] 0).
  - intros f i Hf. apply (kp_words _ _ _ _ Hk), elem_of_app. right. apply elem_of_spaces. by exists q.
  - by apply leaf_path_zone, user_va_path.
Qed.

(** The frames of the new space are none of theirs. *)
Lemma spaces_apart ks p ps s f : spaces ks (p :: ps) s -> f ∈ held ks ps s -> f ∉ space_frames (vm_mem s) p.
Proof.
  intros Hs Hf Hp. pose proof (sp_nodup _ _ _ Hs) as (_ & Hk & Hnd)%NoDup_app. rewrite bind_cons in Hk, Hnd.
  apply NoDup_app in Hnd as (_ & Hd & _). apply elem_of_app in Hf as [Hf|Hf]; [|by apply (Hd f)].
  apply (Hk f Hf), elem_of_app. by left.
Qed.

Lemma held_used ks p ps s f : spaces ks (p :: ps) s -> f ∈ held ks ps s -> used (vm_pmm s) f.
Proof.
  intros Hs Hf. apply (sp_used _ _ _ Hs). apply elem_of_app in Hf as [Hf|Hf]; apply elem_of_app; [by left|right].
  rewrite bind_cons. apply elem_of_app. by right.
Qed.

(** ** The address space that is built *)

(** [fl] are the flags of the pages that are mapped, [by'] the bytes in them. *)
Definition loaded (s : Vm) (p : Z) (fl : Z -> option Z) (bytes : Z -> Z) : Prop :=
  forall va, user_va va ->
    match fl (va / 4096) with
    | None => page_entry s p va = 0 /\ bytes va = 0
    | Some flags => plain_flags flags /\ Z.testbit flags 0 = true /\
        exists f, frame_addr f /\ f < vm_window s /\ page_entry s p va = pte_set f flags /\ byte_at (vm_mem s) (f + va mod 4096) = bytes va
    end.

Definition set_page (n flags : Z) (fl : Z -> option Z) : Z -> option Z := fun n' => if decide (n' = n) then Some flags else fl n'.

Lemma loaded_ext s p fl fl' bytes bytes' : (forall n, fl' n = fl n) -> (forall va, user_va va -> bytes' va = bytes va) -> loaded s p fl bytes -> loaded s p fl' bytes'.
Proof. intros Hf Hb Hl va Hva. specialize (Hl va Hva). by rewrite Hf, Hb. Qed.

(** The new space beside the old ones, [d] frames after [s0]. *)
Record load_inv (ks ps : list Z) (p : Z) (s0 : Vm) (d : Z) (s : Vm) (fl : Z -> option Z) (bytes : Z -> Z) : Prop := {
  li_spaces : spaces ks (p :: ps) s;
  li_kept : kept ks ps s0 s;
  li_drawn : drawn s0 s d;
  li_loaded : loaded s p fl bytes
}.

Lemma inv_ext ks ps p s0 d d' s fl fl' bytes bytes' : load_inv ks ps p s0 d s fl bytes -> d <= d' -> (forall n, fl' n = fl n) ->
  (forall va, user_va va -> bytes' va = bytes va) -> load_inv ks ps p s0 d' s fl' bytes'.
Proof. intros [H1 H2 H3 H4] Hd Hf Hb. split; [done|done|by eapply drawn_mono|by eapply loaded_ext]. Qed.

(** The machine [s0] has fewer than [N] free frames, or one that the direct map does not reach. *)
Definition starved (s0 : Vm) (N : Z) (e : ElfStop) : Prop :=
  match e with
  | ElfVm OutOfMemory => pm_free (vm_pmm s0) < N
  | ElfVm PageFault => beyond s0
  | _ => False
  end.

(** A page and the start of it. *)
Lemma page_of va va' : va mod 4096 = 0 -> va' / 4096 = va / 4096 -> va' = va + va' mod 4096 /\ 0 <= va' mod 4096 < 4096.
Proof. intros Ha E. pose proof (Z.div_mod va 4096). pose proof (Z.div_mod va' 4096). pose proof (Z.mod_pos_bound va' 4096). lia. Qed.

(** The bytes of a frame whose words are as they were. *)
Lemma byte_at_words m m' f a : aligned f -> 0 <= a < 4096 -> (forall i, idx i -> word m' f i = word m f i) -> byte_at m' (f + a) = byte_at m (f + a).
Proof.
  intros Hf Ha Hw. unfold byte_at. assert (8 * ((f + a) / 8) = f + 8 * (a / 8)) as ->.
  { unfold aligned in Hf. pose proof (Z.div_mod f 4096). pose proof (Z.div_mod a 8). pose proof (Z.div_mod (f + a) 8).
    pose proof (Z.mod_pos_bound a 8). pose proof (Z.mod_pos_bound (f + a) 8). lia. }
  specialize (Hw (a / 8)). unfold word in Hw. rewrite Hw; [done|]. unfold idx. pose proof (Z.div_mod a 8). pose proof (Z.mod_pos_bound a 8). lia.
Qed.

Section steps.
Context (ks ps : list Z) (p : Z).

(** The machine at the start, and the frames that may be taken from then on. *)
Context (s0 : Vm) (N : Z).

Lemma here : p ∈ p :: ps.
Proof. apply list_elem_of_here. Qed.

Lemma loaded_frame s fl bytes va flags : loaded s p fl bytes -> user_va va -> fl (va / 4096) = Some flags ->
  exists f, frame_addr f /\ f < vm_window s /\ page_entry s p va = pte_set f flags /\ leaf_frame (page_entry s p va) = [f] /\
    maps (page_entry s p va) = Some f /\ plain_flags flags /\ Z.testbit flags 0 = true /\
    forall va', user_va va' -> va' / 4096 = va / 4096 -> byte_at (vm_mem s) (f + va' mod 4096) = bytes va'.
Proof.
  intros Hl Hva Hfl. pose proof (Hl va Hva) as Hp. rewrite Hfl in Hp. destruct Hp as (Hpl & H0 & f & Hf & Hw & He & Hb).
  exists f. destruct (plain_entry f flags Hf Hpl) as (_ & Hm & Hlf). rewrite H0 in Hm, Hlf. rewrite He.
  do 7 (split; [done|]). intros va' Hva' Epg. pose proof (Hl va' Hva') as Hp. rewrite Epg, Hfl in Hp.
  destruct Hp as (_ & _ & f' & Hf' & _ & He' & Hb').
  assert (f' = f) as ->; [|done]. rewrite (page_entry_page s p va va' Hva Hva' Epg), He in He'.
  destruct (plain_entry f' flags Hf' Hpl) as (_ & Hm' & _). rewrite H0, <- He', Hm in Hm'. congruence.
Qed.

(** A write into one page. *)
Lemma write_inv d s fl bytes va f flags m' bytes' : load_inv ks ps p s0 d s fl bytes -> user_va va -> fl (va / 4096) = Some flags ->
  page_entry s p va = pte_set f flags -> frame_addr f ->
  (forall g i, aligned g -> idx i -> g <> f -> word m' g i = word (vm_mem s) g i) ->
  (forall va', user_va va' -> va' / 4096 = va / 4096 -> byte_at m' (f + va' mod 4096) = bytes' va') ->
  (forall va', va' / 4096 <> va / 4096 -> bytes' va' = bytes va') ->
  load_inv ks ps p s0 d (with_mem m' s) fl bytes'.
Proof.
  intros [Hs Hk Hdr Hl] Hva Hfl He Hf Hw Hin Hout. destruct (loaded_frame _ _ _ _ _ Hl Hva Hfl) as (f1 & Hf1 & Hwin & He1 & Hlf & Hm & Hpl & H0 & _).
  destruct (plain_entry f flags Hf Hpl) as (_ & _ & Hlf'). rewrite H0, <- He, Hlf in Hlf'. injection Hlf' as ->.
  assert (f ∈ leaf_frame (page_entry s p va)) as Hfl' by (rewrite Hlf; apply list_elem_of_here).
  destruct (write_spaces ks (p :: ps) s p va f m' Hs here Hva Hfl' Hw) as [Hs' Hes].
  assert (forall va', user_va va' -> page_entry (with_mem m' s) p va' = page_entry s p va') as Hpe.
  { intros va' Hva'. apply Hes; [apply here|]. by apply leaf_path_zone, user_va_path. }
  split; [done| |done|].
  - eapply kept_trans; [exact Hk|]. split; [done|done|]. intros g i Hg Hi. apply Hw; [|done|].
    + apply frame_addr_range, (used_frame (vm_pmm s)). by eapply held_used.
    + intros ->. eapply spaces_apart; [exact Hs|exact Hg|]. by eapply write_frame.
  - intros va' Hva'. rewrite Hpe by done. destruct (decide (va' / 4096 = va / 4096)) as [E|E].
    + rewrite E, Hfl. do 2 (split; [done|]). exists f. do 2 (split; [done|]). split; [by rewrite (page_entry_page s p va va' Hva Hva' E)|]. by apply Hin.
    + rewrite Hout by done. pose proof (Hl va' Hva') as Hp. destruct (fl (va' / 4096)) as [fl'|] eqn:Efl; [|done].
      destruct (loaded_frame _ _ _ _ _ Hl Hva' Efl) as (f' & Hf' & Hw' & He' & Hlf' & _ & Hpl' & H0' & Hb').
      do 2 (split; [done|]). exists f'. do 3 (split; [done|]). cbn [vm_mem with_mem]. rewrite <- Hb' by done.
      apply byte_at_words; [by apply frame_addr_range|apply Z.mod_pos_bound; lia|]. intros i Hi.
      apply Hw; [by apply frame_addr_range|done|]. intros ->. apply E.
      eapply (page_frame_unique ks (p :: ps) s p va va' f); [done|apply here|done|done|done|]. rewrite Hlf'. apply list_elem_of_here.
Qed.

(** The bytes with those of the page of [va] taken from the frame [f]. *)
Definition page_bytes (m : Mem) (va f : Z) (bytes : Z -> Z) : Z -> Z :=
  fun va' => if decide (va' / 4096 = va / 4096) then byte_at m (f + va' mod 4096) else bytes va'.

(** The contents of the pages, after a change of the tables. *)
Lemma remapped_inv d d' s s' fl bytes va f flags : load_inv ks ps p s0 d s fl bytes -> user_va va -> frame_addr f -> f < vm_window s' -> drawn s0 s' d' ->
  plain_flags flags -> Z.testbit flags 0 = true -> spaces ks (p :: ps) s' -> kept ks ps s s' ->
  (forall va', user_va va' -> page_entry s' p va' = if decide (va' / 4096 = va / 4096) then pte_set f flags else page_entry s p va') ->
  (forall va' g i, user_va va' -> va' / 4096 <> va / 4096 -> g ∈ leaf_frame (page_entry s p va') -> idx i -> word (vm_mem s') g i = word (vm_mem s) g i) ->
  load_inv ks ps p s0 d' s' (set_page (va / 4096) flags fl) (page_bytes (vm_mem s') va f bytes).
Proof.
  intros [Hs Hk Hdr Hl] Hva Hf Hwin Hdr' Hpl H0 Hs' Hk' He Hw. split; [done|by eapply kept_trans|done|].
  intros va' Hva'. rewrite He by done. unfold set_page, page_bytes. destruct (decide (va' / 4096 = va / 4096)) as [E|E].
  - do 2 (split; [done|]). by exists f.
  - pose proof (Hl va' Hva') as Hp. destruct (fl (va' / 4096)) as [fl'|] eqn:Efl; [|done].
    destruct (loaded_frame _ _ _ _ _ Hl Hva' Efl) as (f' & Hf' & Hw' & He' & Hlf' & _ & Hpl' & H0' & Hb').
    do 2 (split; [done|]). exists f'. split; [done|]. split; [by rewrite (kp_window _ _ _ _ Hk')|]. split; [done|]. rewrite <- Hb' by done.
    apply byte_at_words; [by apply frame_addr_range|apply Z.mod_pos_bound; lia|]. intros i Hi. apply (Hw va'); [done|done| |done].
    rewrite Hlf'. apply list_elem_of_here.
Qed.

Lemma map_inv d s fl bytes va flags f q : load_inv ks ps p s0 d s fl bytes -> user_va va -> plain_flags flags -> Z.testbit flags 0 = true ->
  takes (vm_pmm s) [f] q ->
  match map_page_in p va f flags (with_pmm q s) with
  | Ok (_, s') => vm_window s' = vm_window s /\ page_entry s' p va = pte_set f flags /\
      (f < vm_window s -> load_inv ks ps p s0 (d + 4) s' (set_page (va / 4096) flags fl) (page_bytes (vm_mem s') va f bytes))
  | Err e => stops 4 s e
  end.
Proof.
  intros Hi Hva Hpl H0 Ht. pose proof Hi as [Hs Hk Hdr Hl]. pose proof (map_fresh ks (p :: ps) s p va flags f q Hs here Hva Hpl Ht) as Hm.
  destruct (map_page_in p va f flags (with_pmm q s)) as [ [ [] s']|e] eqn:Em; [|done]. destruct Hm as [new Hfp].
  assert (frame_addr f) as Hf by (eapply free_frame_addr, Ht; apply list_elem_of_here).
  assert (forall g, used (vm_pmm s) g -> g ∉ new) as Hnew.
  { intros g Hg Hin. eapply used_not_free; [exact Hg|]. apply (fp_takes _ _ _ _ _ _ _ _ _ Hfp), elem_of_app. by left. }
  split; [by apply (fp_window _ _ _ _ _ _ _ _ _ Hfp)|].
  split; [rewrite (fp_entry _ _ _ _ _ _ _ _ _ Hfp) by (done || apply here); by rewrite decide_True|]. intros Hwin.
  assert (drawn s0 s' (d + 4)) as Hdr'.
  { destruct (map_page_takes ks (p :: ps) (with_pmm q s) p va f flags s') as (new' & Ht' & Hl'); [by eapply spaces_takes|apply here|done|done|].
    pose proof (drawn_takes s0 (with_pmm q s) (d + 1) new' _ s' (drawn_takes s0 s d [f] q (with_pmm q s) Hdr Ht eq_refl) Ht' eq_refl) as Hd2.
    eapply drawn_mono; [exact Hd2|lia]. }
  apply (remapped_inv d (d + 4) s s'); [done|done|done|by rewrite (fp_window _ _ _ _ _ _ _ _ _ Hfp)|done|done|done|by apply (fp_spaces _ _ _ _ _ _ _ _ _ Hfp)| | |].
  - split; [by apply (fp_root _ _ _ _ _ _ _ _ _ Hfp)|by apply (fp_window _ _ _ _ _ _ _ _ _ Hfp)|]. intros g i Hg Hi'.
    pose proof (held_used _ _ _ _ _ Hs Hg) as Hu. apply (fp_others _ _ _ _ _ _ _ _ _ Hfp); [|done|by eapply spaces_apart|by apply Hnew].
    by apply frame_addr_range, (used_frame (vm_pmm s)).
  - intros va' Hva'. rewrite (fp_entry _ _ _ _ _ _ _ _ _ Hfp) by (done || apply here). repeat case_decide; tauto.
  - intros va' g i Hva' _ Hg Hi'. eapply (map_page_keeps ks (p :: ps) (with_pmm q s) p va f flags s' va' g i); [|apply here|done|done|exact Em|exact Hg|done].
    by eapply spaces_takes.
Qed.

Lemma flags_inv d s fl bytes va old flags : load_inv ks ps p s0 d s fl bytes -> user_va va -> fl (va / 4096) = Some old ->
  plain_flags flags -> Z.testbit flags 0 = true ->
  exists f s', maps (page_entry s p va) = Some f /\ frame_addr f /\ update_page_flags_in p va flags s = Ok (tt, s') /\
    load_inv ks ps p s0 d s' (set_page (va / 4096) flags fl) bytes /\ page_entry s' p va = pte_set f flags.
Proof.
  intros Hi Hva Hfl Hpl H0. pose proof Hi as [Hs Hk Hdr Hl].
  destruct (loaded_frame _ _ _ _ _ Hl Hva Hfl) as (f & Hf & Hwin & He & Hlf & Hm & Hplo & H0o & Hb).
  destruct (plain_entry f flags Hf Hpl) as (Hpr & _ & Hlf'). rewrite H0 in Hlf'.
  destruct (page_entry_bits f old Hf (proj1 Hplo)) as (_ & Ha & _).
  pose proof (update_page_flags_in_spec ks (p :: ps) s p va flags Hs here Hva) as Hu. rewrite He, Ha in Hu. cbv zeta in Hu.
  destruct Hu as (s' & Eu & Hset); [rewrite <- He, Hlf, Hlf'; done|].
  destruct (plain_entry f old Hf Hplo) as (Hpro & _ & _). rewrite Hpro, H0o in Hset.
  exists f, s'. do 3 (split; [done|]).
  assert (page_entry s' p va = pte_set f flags) as Hpe.
  { rewrite (page_entry_set _ _ _ _ _ _ _ _ _ _ Hset here Hva Hva). by rewrite decide_True. }
  split; [|done].
  assert (load_inv ks ps p s0 d s' (set_page (va / 4096) flags fl) (page_bytes (vm_mem s') va f bytes)) as Hli.
  { apply (remapped_inv d d s s'); [done|done|done|by rewrite (ps_window _ _ _ _ _ _ _ _ Hset)|exact (drawn_none _ _ _ _ Hdr (ps_takes _ _ _ _ _ _ _ _ Hset))|done|done|by apply (ps_spaces _ _ _ _ _ _ _ _ Hset)| | |].
    - split; [by apply (ps_root _ _ _ _ _ _ _ _ Hset)|by apply (ps_window _ _ _ _ _ _ _ _ Hset)|]. intros g i Hg Hi'.
      pose proof (held_used _ _ _ _ _ Hs Hg) as Hug. apply (ps_words _ _ _ _ _ _ _ _ Hset); [|done|by eapply spaces_apart|apply not_elem_of_nil].
      by apply frame_addr_range, (used_frame (vm_pmm s)).
    - intros va' Hva'. rewrite (page_entry_set _ _ _ _ _ _ _ _ _ _ Hset here Hva Hva'). repeat case_decide; tauto.
    - intros va' g i Hva' _ Hg Hi'. by eapply (update_flags_keeps ks (p :: ps) s p va flags s' va' g i); [..|exact Eu|exact Hg|]; try apply here. }
  eapply inv_ext; [exact Hli|done|done|]. intros va' Hva'. unfold page_bytes.
  case_decide as E; [|done]. rewrite <- Hb by done. symmetry. apply byte_at_words; [by apply frame_addr_range|apply Z.mod_pos_bound; lia|].
  intros i Hi'. eapply (update_flags_keeps ks (p :: ps) s p va flags s' va f i); [done|apply here|done|done|exact Eu| |done].
  rewrite Hlf. apply list_elem_of_here.
Qed.


(** ** Running the loader *)

Lemma stops_starved n d s e : stops n s e -> drawn s0 s d -> d + n <= N -> vm_window s = vm_window s0 -> starved s0 N (ElfVm e).
Proof.
  intros Hst [Hc Hf] Hn Hw. destruct e; cbn in *; try done; [lia|]. destruct Hst as (f & Hfr & Hle). exists f. rewrite <- Hw. auto.
Qed.

(** A reason for each error: too few frames for [ElfOutOfMemory]. *)
Context (why : ElfError -> Prop) (why_frames : pm_free (vm_pmm s0) < N -> why ElfOutOfMemory).

Definition runs {A} (m : EM (result A ElfError)) (k : ElfSys) (Q : A -> ElfSys -> Prop) (R : ElfError -> ElfSys -> Prop) : Prop :=
  match m k with
  | Ok (Ok a, k') => Q a k'
  | Ok (Err e, k') => R e k'
  | Err e => starved s0 N e
  end.

Lemma runs_try {A B} (m : EM (result A ElfError)) (f : A -> EM (result B ElfError)) k Q R :
  runs m k (fun a k' => runs (f a) k' Q R) R -> runs (a ←! m; f a) k Q R.
Proof. unfold runs, em_try, mbind, em_bind. destruct (m k) as [ [ [a|e] k']|e]; done. Qed.

Lemma runs_ret {A} (a : A) k (Q : A -> ElfSys -> Prop) R : Q a k -> runs (mret (Ok a)) k Q R.
Proof. done. Qed.

Lemma runs_mono {A} (m : EM (result A ElfError)) k (Q Q' : A -> ElfSys -> Prop) (R R' : ElfError -> ElfSys -> Prop) :
  runs m k Q R -> (forall a k', Q a k' -> Q' a k') -> (forall e k', R e k' -> R' e k') -> runs m k Q' R'.
Proof. unfold runs. intros Hm HQ HR. destruct (m k) as [ [ [a|e] k']|e]; auto. Qed.

Definition with_vm (k : ElfSys) (s : Vm) : ElfSys := mkElfSys s (es_sched k) (es_next_slot k) (es_next_cap k).

(** An operation of the page tables. *)
Lemma runs_vm {A B} (m : MM A) (f : A -> EM (result B ElfError)) k Q R :
  match m (es_vm k) with
  | Ok (a, s) => runs (f a) (with_vm k s) Q R
  | Err e => starved s0 N (ElfVm e)
  end -> runs (a ← on_elf_vm m; f a) k Q R.
Proof.
  unfold runs, mbind, em_bind, on_elf_vm, with_vm. by destruct (m (es_vm k)) as [ [a s]|e].
Qed.

Lemma runs_alloc {B} (f : Z -> EM (result B ElfError)) k Q R : pmm_wf (vm_pmm (es_vm k)) -> (pm_free (vm_pmm (es_vm k)) = 0 -> R ElfOutOfMemory k) ->
  (forall g q, takes (vm_pmm (es_vm k)) [g] q -> runs (f g) (with_vm k (with_pmm q (es_vm k))) Q R) ->
  runs (g ←! alloc_elf; f g) k Q R.
Proof.
  intros Hw HR Hf. apply runs_try. pose proof (alloc_frame_takes _ Hw) as Ht. unfold runs at 1, alloc_elf, on_elf_vm.
  destruct (alloc_frame (vm_pmm (es_vm k))) as [ [g q]|]; [by apply Hf|]. destruct k. by apply HR.
Qed.

Lemma runs_clear {B} (f : unit -> EM (result B ElfError)) g k Q R :
  g < vm_window (es_vm k) -> runs (f tt) (with_vm k (with_mem (zero_frame g (vm_mem (es_vm k))) (es_vm k))) Q R ->
  runs (u ← on_elf_vm (clear_frame g); f u) k Q R.
Proof.
  intros Hw Hf. apply runs_vm. unfold clear_frame. by rewrite (proj2 (Z.ltb_lt _ _) Hw).
Qed.

(** A page that is not mapped gets a cleared frame. *)
Lemma new_page_spec d k fl bytes va flags : load_inv ks ps p s0 d (es_vm k) fl bytes -> d + 4 <= N -> user_va va -> va mod 4096 = 0 -> fl (va / 4096) = None ->
  plain_flags flags -> Z.testbit flags 0 = true ->
  runs (f ←! alloc_elf; _ ← on_elf_vm (map_page_in p va f flags); _ ← on_elf_vm (clear_frame f); mret (Ok f)) k
    (fun f k' => exists s', k' = with_vm k s' /\ load_inv ks ps p s0 (d + 4) s' (set_page (va / 4096) flags fl) bytes /\
       page_entry s' p va = pte_set f flags /\ frame_addr f)
    (fun e k' => why e /\ k' = k).
Proof.
  intros Hi Hroom Hva Ha Hfl Hpl H0. pose proof Hi as [Hs Hk Hdr Hl]. pose proof (kp_window _ _ _ _ Hk) as Hwk.
  apply runs_alloc; [by apply Hs|intros E0; split; [|done]; apply why_frames; destruct Hdr; lia|]. intros f q Ht. apply runs_vm.
  pose proof (map_inv d (es_vm k) fl bytes va flags f q Hi Hva Hpl H0 Ht) as Hm. cbn [es_vm with_vm].
  destruct (map_page_in p va f flags (with_pmm q (es_vm k))) as [ [ [] s']|e]; [|by eapply stops_starved]. destruct Hm as (Hws & He & Hi').
  destruct (decide (f < vm_window (es_vm k))) as [Hwin|Hwin]; cycle 1.
  { apply runs_vm. unfold clear_frame. cbn [es_vm with_vm]. rewrite (proj2 (Z.ltb_ge _ _)) by lia. exists f. split; [|lia].
    apply (proj2 Hdr), (tk_free _ _ _ Ht), list_elem_of_here. }
  specialize (Hi' Hwin).
  assert (frame_addr f) as Hf by (eapply free_frame_addr, Ht; apply list_elem_of_here). pose proof (proj1 (frame_addr_range _ Hf)) as Hal.
  apply runs_clear; [cbn; lia|]. apply runs_ret. eexists. split; [done|]. cbn [es_vm with_vm] in *. split; [|split; [|done] ].
  - eapply (write_inv (d + 4) s' _ _ va f flags); [exact Hi'|done|unfold set_page; by rewrite decide_True|done|done| | |].
    + intros g i Hg Hi2 Hne. rewrite word_zero, decide_False by done. done.
    + intros va' Hva' E. destruct (page_of va va' Ha E) as [_ Hr]. rewrite byte_at_zero by (done || lia).
      specialize (Hl va' Hva'). rewrite E, Hfl in Hl. by destruct Hl as [_ ->].
    + intros va' E. unfold page_bytes. by rewrite decide_False.
  - rewrite <- He. assert (f ∈ leaf_frame (page_entry s' p va)) as Hlf.
    { rewrite He. destruct (plain_entry f flags Hf Hpl) as (_ & _ & ->). rewrite H0. apply list_elem_of_here. }
    apply (write_spaces ks (p :: ps) s' p va f (zero_frame f (vm_mem s')) (li_spaces _ _ _ _ _ _ _ _ Hi') here Hva Hlf); [|apply here|by apply leaf_path_zone, user_va_path].
    intros g i Hg Hi2 Hne. by rewrite word_zero, decide_False.
Qed.

Lemma frame_for_spec d k fl bytes va flags : load_inv ks ps p s0 d (es_vm k) fl bytes -> d + 4 <= N -> user_va va -> va mod 4096 = 0 ->
  plain_flags flags -> Z.testbit flags 0 = true ->
  runs (frame_for p va flags) k
    (fun f k' => exists s', k' = with_vm k s' /\ load_inv ks ps p s0 (d + 4) s' (set_page (va / 4096) flags fl) bytes /\
       page_entry s' p va = pte_set f flags /\ frame_addr f)
    (fun e k' => why e /\ k' = k).
Proof.
  intros Hi Hroom Hva Ha Hpl H0. pose proof Hi as [Hs _ _ Hl]. unfold frame_for. apply runs_vm.
  rewrite (query_page_in_spec ks (p :: ps) (es_vm k) p va Hs here Hva).
  assert (with_vm k (es_vm k) = k) as -> by by destruct k.
  destruct (fl (va / 4096)) as [old|] eqn:Hfl.
  - destruct (flags_inv d (es_vm k) fl bytes va old flags Hi Hva Hfl Hpl H0) as (f & s' & -> & Hf & Hu & Hi' & He).
    apply runs_vm. rewrite Hu. apply runs_ret. exists s'. split; [done|]. split; [|done]. eapply inv_ext; [exact Hi'|lia|done|done].
  - specialize (Hl va Hva). rewrite Hfl in Hl. destruct Hl as [-> _]. by apply new_page_spec.
Qed.


(** ** Segments *)

(** The segment [h] lies above the identity map and below the stacks, and its
    part of the file is where the header says. *)
Record placed (h : Elf64Phdr) : Prop := {
  pl_offset : 0 <= p_offset h;
  pl_filesz : 0 <= p_filesz h <= p_memsz h;
  pl_wrap : p_offset h + p_filesz h < 2 ^ 64;
  pl_low : p_memsz h <> 0 -> 2 ^ 30 <= p_vaddr h;
  pl_high : p_memsz h <> 0 -> p_vaddr h + p_memsz h <= STACK_GUARD_VA
}.

Lemma segment_flags_plain x : plain_flags (segment_flags x) /\ Z.testbit (segment_flags x) 0 = true.
Proof. unfold segment_flags. destruct (negb _), (negb _); by vm_compute. Qed.

(** The bytes of the file that [h] puts into the pages from [a] on, [n] of them. *)
Definition in_file (h : Elf64Phdr) (a n va : Z) : Prop := p_vaddr h <= va < p_vaddr h + p_filesz h /\ a <= va / 4096 < a + n.

#[local] Instance in_file_dec h a n va : Decision (in_file h a n va).
Proof. unfold in_file. apply _. Defined.

Definition file_bytes (data : list Z) (h : Elf64Phdr) (a n : Z) (bytes : Z -> Z) : Z -> Z := fun va =>
  if decide (in_file h a n va) then nth (Z.to_nat (p_offset h + (va - p_vaddr h))) data 0 else bytes va.

Definition page_run (a n flags : Z) (fl : Z -> option Z) : Z -> option Z := fun m => if decide (a <= m < a + n) then Some flags else fl m.

Lemma copy_spec {B} d k fl bytes va f flags off bs (g : unit -> EM (result B ElfError)) Q R :
  load_inv ks ps p s0 d (es_vm k) fl bytes -> user_va va -> va mod 4096 = 0 -> fl (va / 4096) = Some flags ->
  page_entry (es_vm k) p va = pte_set f flags -> frame_addr f -> 0 <= off -> off + Z.of_nat (length bs) <= 4096 -> Forall (fun b => 0 <= b < 256) bs ->
  (forall s', load_inv ks ps p s0 d s' fl (fun x => if decide (va + off <= x < va + off + Z.of_nat (length bs)) then nth (Z.to_nat (x - (va + off))) bs 0 else bytes x) ->
     runs (g tt) (with_vm k s') Q R) ->
  runs (u ← on_elf_vm (copy_into f off bs); g u) k Q R.
Proof.
  intros Hi Hva Ha Hfl He Hf Ho Hl Hb Hg. apply runs_vm. unfold copy_into.
  destruct (loaded_frame _ _ _ _ _ (li_loaded _ _ _ _ _ _ _ _ Hi) Hva Hfl) as (f1 & Hf1 & Hwin & He1 & _ & Hm & Hpl & H0 & Hb1).
  assert (f1 = f) as ->.
  { destruct (plain_entry f flags Hf Hpl) as (_ & Hm' & _). rewrite H0, <- He, Hm in Hm'. congruence. }
  rewrite (proj2 (Z.ltb_lt _ _)) by done.
  pose proof (proj1 (frame_addr_range _ Hf)) as Hal.
  apply Hg. eapply (write_inv d (es_vm k) fl bytes va f flags); [done..| | |].
  - intros x i Hx Hi2 Hne. apply (word_puts bs _ _ f); [done|done|done|done|lia|lia].
  - intros va' Hva' E. destruct (page_of va va' Ha E) as [Ev Hr]. rewrite byte_at_puts by done.
    destruct (decide (va + off <= va' < va + off + Z.of_nat (length bs))).
    + rewrite decide_True by lia. f_equal. lia.
    + rewrite decide_False by lia. by apply Hb1.
  - intros va' E. rewrite decide_False; [done|]. intros Hin. apply E. apply same_page; [done|lia].
Qed.

Lemma Forall_slice {A} (P : A -> Prop) off n l : Forall P l -> Forall P (slice off n l).
Proof. intros Hl. unfold slice. by apply Forall_take, Forall_drop. Qed.

Lemma load_page_spec d k fl bytes data h n : load_inv ks ps p s0 d (es_vm k) fl bytes -> d + 4 <= N -> Forall (fun b => 0 <= b < 256) data ->
  placed h -> p_memsz h <> 0 -> p_offset h + p_filesz h <= Z.of_nat (length data) -> user_va (n * 4096) ->
  runs (load_page data h p (n * 4096)) k
    (fun _ k' => exists s', k' = with_vm k s' /\ load_inv ks ps p s0 (d + 4) s' (page_run n 1 (segment_flags (p_flags h)) fl) (file_bytes data h n 1 bytes))
    (fun e k' => why e /\ k' = k).
Proof.
  intros Hi Hroom Hd [Po Pf Pw Pl Ph] Hm Hlen Hva. specialize (Pl Hm). specialize (Ph Hm). unfold load_page. apply runs_try.
  destruct (segment_flags_plain (p_flags h)) as [Hpl H0]. assert ((n * 4096) mod 4096 = 0) as Ha by (apply Z.mod_mul; lia).
  assert (n * 4096 / 4096 = n) as Hn by (apply Z.div_mul; lia).
  eapply runs_mono; [by apply (frame_for_spec d k fl bytes (n * 4096) (segment_flags (p_flags h)))| |done].
  intros f k' (s' & -> & Hi' & He & Hf). rewrite Hn in Hi'.
  unfold user_va, STACK_GUARD_VA in *.
  rewrite !(wrap_small 64) by (unfold in_u; lia).
  assert (forall va, in_file h n 1 va <-> Z.max (p_vaddr h) (n * 4096) <= va < Z.min (p_vaddr h + p_filesz h) (n * 4096 + 4096)) as Hin.
  { intros va. unfold in_file. pose proof (Z.div_mod va 4096). pose proof (Z.mod_pos_bound va 4096). lia. }
  assert (forall m, page_run n 1 (segment_flags (p_flags h)) fl m = set_page n (segment_flags (p_flags h)) fl m) as Hrun.
  { intros m. unfold page_run, set_page. repeat case_decide; done || lia. }
  change 0x1000 with 4096. set (va1 := Z.max _ _) in *. set (va2 := Z.min _ _) in *.
  destruct (Z.ltb_spec va1 va2) as [Hlt|Hge]; cycle 1.
  { apply runs_ret. exists s'. split; [done|]. eapply inv_ext; [exact Hi'|done|exact Hrun|].
    intros va _. unfold file_bytes. rewrite decide_False; [done|]. rewrite Hin. lia. }
  rewrite wrap_small by (unfold in_u; lia). destruct (Z.leb_spec (p_offset h + (va1 - p_vaddr h) + (va2 - va1)) (Z.of_nat (length data))); [|lia].
  eapply (copy_spec (d + 4) (with_vm k s') _ bytes (n * 4096) f (segment_flags (p_flags h))); [exact Hi'|done|done| |done|done|lia| |by apply Forall_slice|].
  { rewrite Hn. unfold set_page. by rewrite decide_True. }
  { unfold slice. rewrite length_take, length_drop. lia. }
  intros s2 Hi2'. apply runs_ret. exists s2. split; [done|]. eapply inv_ext; [exact Hi2'|done|exact Hrun|].
  intros va _. unfold file_bytes. cbn beta.
  assert (length (slice (Z.to_nat (p_offset h + (va1 - p_vaddr h))) (Z.to_nat (va2 - va1)) data) = Z.to_nat (va2 - va1)) as Hsl
    by (unfold slice; rewrite length_take, length_drop; lia).
  rewrite Hsl. destruct (decide (in_file h n 1 va)) as [Hi2|Hi2]; rewrite Hin in Hi2.
  - rewrite decide_True by lia. unfold slice. rewrite !nth_lookup, lookup_take_lt, lookup_drop by lia. do 2 f_equal. lia.
  - rewrite decide_False by lia. done.
Qed.


(** An error leaves the new space as far as it got. *)
Definition given_up (k : ElfSys) (e : ElfError) (k' : ElfSys) : Prop :=
  why e /\ exists s' d fl bytes, k' = with_vm k s' /\ load_inv ks ps p s0 d s' fl bytes.

Lemma given_up_now k e d fl bytes : load_inv ks ps p s0 d (es_vm k) fl bytes -> why e -> given_up k e k.
Proof. intros Hi He. split; [done|]. exists (es_vm k), d, fl, bytes. split; [by destruct k|done]. Qed.

Lemma given_up_later k k1 e k' : with_vm k (es_vm k1) = k1 -> given_up k1 e k' -> given_up k e k'.
Proof. intros E (He & s' & d & fl & b & -> & Hi). split; [done|]. exists s', d, fl, b. split; [by rewrite <- E|done]. Qed.

Lemma load_pages_spec data h a : Forall (fun b => 0 <= b < 256) data ->
  placed h -> p_memsz h <> 0 -> p_offset h + p_filesz h <= Z.of_nat (length data) ->
  forall n d k fl bytes i, load_inv ks ps p s0 d (es_vm k) fl bytes -> d + 4 * Z.of_nat n <= N -> 0 <= i ->
  2 ^ 30 <= a * 4096 -> (a + i + Z.of_nat n) * 4096 <= STACK_GUARD_VA ->
  runs (load_pages n data h p (a * 4096) i) k
    (fun _ k' => exists s', k' = with_vm k s' /\
       load_inv ks ps p s0 (d + 4 * Z.of_nat n) s' (page_run (a + i) (Z.of_nat n) (segment_flags (p_flags h)) fl) (file_bytes data h (a + i) (Z.of_nat n) bytes))
    (given_up k).
Proof.
  intros Hd Hpl Hm Hlen. induction n as [|n IH]; intros d k fl bytes i Hi Hroom H0 Hlo Hhi; cbn [load_pages].
  - apply runs_ret. exists (es_vm k). split; [by destruct k|].
    eapply inv_ext; [exact Hi|lia|..]; intros x; [|intros _]; unfold page_run, file_bytes, in_file; by rewrite decide_False by lia.
  - apply runs_try. unfold STACK_GUARD_VA in *. change 0x1000 with 4096. rewrite wrap_small by (unfold in_u; lia).
    replace (a * 4096 + i * 4096) with ((a + i) * 4096) by lia.
    eapply runs_mono; [apply (load_page_spec d k fl bytes data h (a + i)); [done|lia|done..|]| |].
    { unfold user_va. lia. }
    + intros _ k' (s1 & -> & Hi1). eapply runs_mono; [apply (IH (d + 4) (with_vm k s1) _ _ (i + 1) Hi1); lia| |].
      * intros _ k' (s2 & -> & Hi2). exists s2. split; [done|].
        eapply inv_ext; [exact Hi2|lia|..]; intros x; [|intros _]; unfold page_run, file_bytes, in_file.
        -- repeat case_decide; done || lia.
        -- destruct (decide (p_vaddr h <= x < p_vaddr h + p_filesz h)); repeat case_decide; done || lia.
      * intros e k'. by apply given_up_later.
    + intros e k' (He & ->). by eapply given_up_now.
Qed.

(** What a segment adds. *)
Definition seg_count (h : Elf64Phdr) : Z :=
  if p_memsz h =? 0 then 0 else (p_vaddr h + p_memsz h - 1) / 4096 - p_vaddr h / 4096 + 1.

Definition seg_pages (h : Elf64Phdr) (fl : Z -> option Z) : Z -> option Z := fun n =>
  if decide (p_memsz h <> 0 /\ p_vaddr h / 4096 <= n <= (p_vaddr h + p_memsz h - 1) / 4096) then Some (segment_flags (p_flags h)) else fl n.

Definition seg_bytes (data : list Z) (h : Elf64Phdr) (bytes : Z -> Z) : Z -> Z := fun va =>
  if decide (p_vaddr h <= va < p_vaddr h + p_filesz h) then nth (Z.to_nat (p_offset h + (va - p_vaddr h))) data 0 else bytes va.

Lemma load_segment_spec d data h k fl bytes : Forall (fun b => 0 <= b < 256) data -> placed h -> in_u 64 (p_vaddr h) -> load_inv ks ps p s0 d (es_vm k) fl bytes ->
  d + 4 * seg_count h <= N -> (Z.of_nat (length data) < p_offset h + p_filesz h -> why SegmentOutOfBounds) ->
  runs (load_segment_into data h p) k
    (fun _ k' => exists s', k' = with_vm k s' /\ load_inv ks ps p s0 (d + 4 * seg_count h) s' (seg_pages h fl) (seg_bytes data h bytes))
    (given_up k).
Proof.
  intros Hd Hpl Hu Hi Hroom Hwhy. unfold seg_count in *. pose proof Hpl as [Po Pf Pw Pl Ph]. unfold load_segment_into. rewrite (wrap_small 64 (p_offset h + p_filesz h)) by (unfold in_u; lia).
  destruct (Z.ltb_spec (Z.of_nat (length data)) (p_offset h + p_filesz h)).
  { eapply given_up_now; [exact Hi|auto]. }
  destruct (Z.eqb_spec (p_memsz h) 0) as [Hm|Hm].
  { apply runs_ret. exists (es_vm k). split; [by destruct k|].
    eapply inv_ext; [exact Hi|lia|..]; intros x; [|intros _]; unfold seg_pages, seg_bytes; rewrite decide_False; done || lia. }
  specialize (Pl Hm). specialize (Ph Hm). unfold STACK_GUARD_VA in *.
  set (b := p_vaddr h + p_memsz h) in *. rewrite (wrap_small 64 b) by (unfold in_u; lia). rewrite (wrap_small 64 (b + 0xFFF)) by (unfold in_u; lia).
  unfold PAGE_MASK. change 0xFFF with (2 ^ 12 - 1). rewrite !land_not_mask by (unfold in_u; lia). change (2 ^ 12) with 4096.
  set (a := p_vaddr h / 4096). set (c := (b + (4096 - 1)) / 4096).
  assert (a * 4096 <= p_vaddr h < a * 4096 + 4096) as Hva by (pose proof (Z.div_mod (p_vaddr h) 4096); pose proof (Z.mod_pos_bound (p_vaddr h) 4096); lia).
  assert (c * 4096 <= b + 4095 < c * 4096 + 4096) as Hc by (pose proof (Z.div_mod (b + (4096 - 1)) 4096); pose proof (Z.mod_pos_bound (b + (4096 - 1)) 4096); lia).
  assert ((b - 1) / 4096 = c - 1) as Hlast by (symmetry; apply Z.div_unique with (b - 1 - 4096 * (c - 1)); lia).
  rewrite wrap_small by (unfold in_u; lia). change 0x1000 with 4096.
  replace ((4096 * c - 4096 * a) / 4096) with (c - a) by (rewrite <- Z.mul_sub_distr_l, Z.mul_comm, Z.div_mul; lia).
  replace (4096 * a) with (a * 4096) by lia.
  eapply runs_mono; [apply (load_pages_spec data h a); [done|done|done|done|exact Hi|lia|lia|lia|unfold STACK_GUARD_VA; lia]| |done].
  intros _ k' (s' & -> & Hi'). exists s'. split; [done|].
  eapply inv_ext; [exact Hi'|lia|..]; intros x; [|intros _]; unfold seg_pages, seg_bytes, page_run, file_bytes, in_file; fold b a.
  - rewrite Hlast. repeat case_decide; done || lia.
  - pose proof (Z.div_mod x 4096). pose proof (Z.mod_pos_bound x 4096). repeat case_decide; done || lia.
Qed.

(** The headers of the table, from the [i]-th on. *)
Fixpoint headers (data : list Z) (phoff phentsize i : Z) (n : nat) : list Elf64Phdr :=
  match n with
  | O => []
  | S n' => phdr_at data (Z.to_nat (phoff + i * phentsize)) :: headers data phoff phentsize (i + 1) n'
  end.

Definition loadable (h : Elf64Phdr) : bool := p_type h =? PT_LOAD.

Definition image_pages (hs : list Elf64Phdr) (fl : Z -> option Z) : Z -> option Z :=
  foldl (fun fl h => if loadable h then seg_pages h fl else fl) fl hs.

Definition image_bytes (data : list Z) (hs : list Elf64Phdr) (bytes : Z -> Z) : Z -> Z :=
  foldl (fun bytes h => if loadable h then seg_bytes data h bytes else bytes) bytes hs.

(** The pages of the segments, one counted once for each segment it is in. *)
Definition image_count (hs : list Elf64Phdr) : Z := foldr (fun h n => (if loadable h then seg_count h else 0) + n) 0 hs.

Lemma image_count_nonneg hs : Forall (fun h => loadable h = true -> placed h) hs -> 0 <= image_count hs.
Proof.
  induction 1 as [|h hs Hh _ IH]; [done|]. cbn [image_count foldr]. fold (image_count hs). destruct (loadable h); [|lia]. specialize (Hh eq_refl).
  unfold seg_count. destruct (Z.eqb_spec (p_memsz h) 0) as [|Hm]; [lia|]. pose proof (pl_filesz h Hh).
  assert (p_vaddr h / 4096 <= (p_vaddr h + p_memsz h - 1) / 4096) by (apply Z.div_le_mono; lia). lia.
Qed.

Lemma field_range data off n : Forall (fun b => 0 <= b < 256) data -> 0 <= field data off n < 256 ^ Z.of_nat n.
Proof.
  intros Hd. unfold field. pose proof (le_num_range _ (Forall_slice _ off n _ Hd)) as Hr. split; [lia|]. eapply Z.lt_le_trans; [apply Hr|].
  apply Z.pow_le_mono_r; [lia|]. unfold slice. rewrite length_take. lia.
Qed.

Lemma load_segments_spec data phoff phentsize : Forall (fun b => 0 <= b < 256) data -> 0 <= phoff -> 0 <= phentsize ->
  forall n d k fl bytes i, 0 <= i -> phoff + (i + Z.of_nat n) * phentsize + ELF64_PHDR_SIZE < 2 ^ 64 ->
  Forall (fun h => loadable h = true -> placed h) (headers data phoff phentsize i n) ->
  load_inv ks ps p s0 d (es_vm k) fl bytes -> d + 4 * image_count (headers data phoff phentsize i n) <= N ->
  (forall h, h ∈ headers data phoff phentsize i n -> loadable h = true -> Z.of_nat (length data) < p_offset h + p_filesz h -> why SegmentOutOfBounds) ->
  (Z.of_nat (length data) < phoff + (i + Z.of_nat n - 1) * phentsize + ELF64_PHDR_SIZE -> why BadProgramHeader) ->
  runs (load_segments n data phoff phentsize p i) k
    (fun _ k' => exists s', k' = with_vm k s' /\
       load_inv ks ps p s0 (d + 4 * image_count (headers data phoff phentsize i n)) s' (image_pages (headers data phoff phentsize i n) fl) (image_bytes data (headers data phoff phentsize i n) bytes))
    (given_up k).
Proof.
  intros Hd H1 H2. unfold ELF64_PHDR_SIZE. induction n as [|n IH]; intros d k fl bytes i H0 Hw Hh Hi Hroom Hseg Htab; cbn [load_segments headers].
  { apply runs_ret. exists (es_vm k). split; [by destruct k|]. eapply inv_ext; [exact Hi|cbn; lia|done|done]. }
  cbn [headers] in Hh, Hroom, Hseg. apply Forall_cons in Hh as [Hh Hhs]. set (h := phdr_at _ _) in *. cbn [image_count foldr] in Hroom |- *.
  fold (image_count (headers data phoff phentsize (i + 1) n)) in *. set (hs := headers _ _ _ (i + 1) n) in *.
  assert (0 <= i * phentsize) by (apply Z.mul_nonneg_nonneg; lia). assert (0 <= Z.of_nat n * phentsize) by (apply Z.mul_nonneg_nonneg; lia).
  apply runs_try. unfold read_phdr, ELF64_PHDR_SIZE. rewrite (wrap_small 64 (i * phentsize)) by (unfold in_u; lia).
  rewrite (wrap_small 64 (phoff + _)), (wrap_small 64 (phoff + _ + _)) by (unfold in_u; lia).
  destruct (Z.ltb_spec (Z.of_nat (length data)) (phoff + i * phentsize + 56)).
  { eapply given_up_now; [exact Hi|]. apply Htab. lia. }
  destruct (Z.leb_spec (phoff + i * phentsize + 56) (Z.of_nat (length data))); [|lia].
  fold h. unfold runs at 1, lift_elf. apply runs_try. cbn [image_pages image_bytes foldl]. fold (loadable h).
  assert (0 <= image_count hs) as Hnn by (apply image_count_nonneg; subst hs; eapply Forall_impl; [exact Hhs|done]).
  assert (forall d1 k1 fl1 bytes1, load_inv ks ps p s0 d1 (es_vm k1) fl1 bytes1 -> with_vm k (es_vm k1) = k1 -> d1 + 4 * image_count hs <= N ->
    runs (load_segments n data phoff phentsize p (i + 1)) k1 (fun _ k' => exists s', k' = with_vm k s' /\
      load_inv ks ps p s0 (d1 + 4 * image_count hs) s' (image_pages hs fl1) (image_bytes data hs bytes1)) (given_up k)) as Hgo.
  { intros d1 k1 fl1 bytes1 Hi1 Ek Hr1. eapply runs_mono; [apply (IH d1 k1 fl1 bytes1 (i + 1)); [lia|lia|done|done|done| |]| |].
    - intros x Hx. apply Hseg. by apply list_elem_of_further.
    - intros Hx. apply Htab. lia.
    - intros _ k' (s' & -> & Hi'). exists s'. split; [by rewrite <- Ek|done].
    - intros e k'. by apply given_up_later. }
  destruct (loadable h) eqn:El; [|apply runs_ret, Hgo; [done|by destruct k|lia] ].
  eapply runs_mono; [apply (load_segment_spec d data h k fl bytes Hd (Hh eq_refl)); [|done|lia|]| |done].
  { apply (field_range data _ 8 Hd). }
  { apply Hseg; [apply list_elem_of_here|done]. }
  intros _ k' (s' & -> & Hi'). rewrite Z.mul_add_distr_l, Z.add_assoc. apply Hgo; [done|done|lia].
Qed.

(** ** The stack *)

(** The first page of a slot, which is the guard. *)
Definition slot_page (slot : Z) : Z := STACK_GUARD_VA / 4096 + slot * STACK_SLOT_PAGES.

Definition stack_layout (slot : Z) (fl : Z -> option Z) : Z -> option Z :=
  page_run (slot_page slot + 1) USER_STACK_PAGES USER_RW (set_page (slot_page slot) (Z.lor PF_PRESENT PF_NX) fl).

Lemma user_rw_plain : plain_flags USER_RW /\ Z.testbit USER_RW 0 = true.
Proof. by vm_compute. Qed.

Lemma guard_plain : plain_flags (Z.lor PF_PRESENT PF_NX) /\ Z.testbit (Z.lor PF_PRESENT PF_NX) 0 = true.
Proof. by vm_compute. Qed.

Lemma stack_pages_spec b : 2 ^ 30 <= b * 4096 -> (b + 65) * 4096 <= 2 ^ 47 ->
  forall n d k fl bytes i last, (0 < n)%nat -> 1 <= i -> i + Z.of_nat n = USER_STACK_PAGES + 1 -> load_inv ks ps p s0 d (es_vm k) fl bytes ->
  d + 4 * Z.of_nat n <= N ->
  (forall m, b + i <= m < b + i + Z.of_nat n -> fl m = None) ->
  runs (stack_pages n p (b * 4096) i last) k
    (fun f k' => exists s', k' = with_vm k s' /\ load_inv ks ps p s0 (d + 4 * Z.of_nat n) s' (page_run (b + i) (Z.of_nat n) USER_RW fl) bytes /\
       page_entry s' p ((b + USER_STACK_PAGES) * 4096) = pte_set f USER_RW /\ frame_addr f)
    (given_up k).
Proof.
  unfold USER_STACK_PAGES. intros Hlo Hhi. induction n as [|n IH]; intros d k fl bytes i last H0 Hi1 Hin Hi Hroom Hno; [lia|]. cbn [stack_pages].
  destruct user_rw_plain as [Hpl Hp0]. change 0x1000 with 4096. replace (b * 4096 + i * 4096) with ((b + i) * 4096) by lia.
  assert ((b + i) * 4096 / 4096 = b + i) as Epg by (apply Z.div_mul; lia).
  apply runs_try. eapply runs_mono; [apply (new_page_spec d k fl bytes ((b + i) * 4096) USER_RW Hi)| |].
  - lia.
  - unfold user_va. lia.
  - apply Z.mod_mul. lia.
  - rewrite Epg. apply Hno. lia.
  - done.
  - done.
  - intros f k' (s1 & -> & Hi1' & He & Hf). rewrite Epg in Hi1'. destruct n as [|n].
    + cbn [stack_pages]. unfold USER_STACK_PAGES. rewrite (proj2 (Z.eqb_eq i 64)) by lia. apply runs_ret. exists s1. split; [done|].
      split; [|split; [|done] ].
      * eapply inv_ext; [exact Hi1'|lia| |done]; intros x.
        unfold page_run, set_page. repeat case_decide; done || lia.
      * rewrite <- He. do 2 f_equal. lia.
    + eapply runs_mono; [apply (IH (d + 4) (with_vm k s1) (set_page (b + i) USER_RW fl) bytes (i + 1)); [lia|lia|lia|exact Hi1'|lia|]| |].
      * intros m Hm. unfold set_page. rewrite decide_False by lia. apply Hno. lia.
      * intros g k' (s2 & -> & Hi2 & He2 & Hg). exists s2. split; [done|]. split; [|done].
        eapply inv_ext; [exact Hi2|lia| |done]; intros x. unfold page_run, set_page. repeat case_decide; done || lia.
      * intros e k'. by apply given_up_later.
  - intros e k' (He & ->). by eapply given_up_now.
Qed.

Definition bump (k : ElfSys) : ElfSys := mkElfSys (es_vm k) (es_sched k) (wrap 64 (es_next_slot k + 1)) (es_next_cap k).

(** The pages of a slot, if there is one left. *)
Lemma slot_range slot : 0 <= slot < MAX_STACK_SLOTS -> STACK_GUARD_VA <= slot_page slot * 4096 /\ (slot_page slot + 66) * 4096 <= 2 ^ 47.
Proof.
  unfold slot_page. change (STACK_GUARD_VA / 4096) with 0x7FFF00000. change MAX_STACK_SLOTS with 15887. change STACK_SLOT_PAGES with 66.
  change STACK_GUARD_VA with 0x7FFF00000000. lia.
Qed.

(** The guard and the pages of a stack. *)
Definition STACK_FRAMES : Z := 4 * (USER_STACK_PAGES + 1).

Lemma alloc_user_stack_spec d k fl bytes : load_inv ks ps p s0 d (es_vm k) fl bytes -> 0 <= es_next_slot k -> d + STACK_FRAMES <= N ->
  (MAX_STACK_SLOTS <= es_next_slot k -> why StackExhausted) ->
  (forall m, STACK_GUARD_VA / 4096 <= m < 2 ^ 47 / 4096 -> fl m = None) ->
  runs (alloc_user_stack_into p) k
    (fun st k' => exists s', k' = with_vm (bump k) s' /\ load_inv ks ps p s0 (d + STACK_FRAMES) s' (stack_layout (es_next_slot k) fl) bytes /\
       es_next_slot k < MAX_STACK_SLOTS /\ st.1 = (slot_page (es_next_slot k) + USER_STACK_PAGES + 1) * 4096 /\
       page_entry s' p ((slot_page (es_next_slot k) + USER_STACK_PAGES) * 4096) = pte_set st.2 USER_RW /\ frame_addr st.2)
    (given_up (bump k)).
Proof.
  intros Hi H0 Hroom Hfull Hno. unfold alloc_user_stack_into. change STACK_FRAMES with 260 in *.
  set (slot := es_next_slot k) in *.
  assert (runs (if MAX_STACK_SLOTS <=? slot then mret (Err StackExhausted)
    else _ ←! stack_page p (STACK_GUARD_VA + slot * STACK_SLOT_PAGES * 0x1000) (Z.lor PF_PRESENT PF_NX);
      last_frame ←! stack_pages (Z.to_nat USER_STACK_PAGES) p (STACK_GUARD_VA + slot * STACK_SLOT_PAGES * 0x1000) 1 0;
      mret (Ok (STACK_GUARD_VA + slot * STACK_SLOT_PAGES * 0x1000 + (USER_STACK_PAGES + 1) * 0x1000, last_frame))) (bump k)
    (fun st k' => exists s', k' = with_vm (bump k) s' /\ load_inv ks ps p s0 (d + STACK_FRAMES) s' (stack_layout slot fl) bytes /\
       slot < MAX_STACK_SLOTS /\ st.1 = (slot_page slot + USER_STACK_PAGES + 1) * 4096 /\
       page_entry s' p ((slot_page slot + USER_STACK_PAGES) * 4096) = pte_set st.2 USER_RW /\ frame_addr st.2)
    (given_up (bump k))) as Hrun; [|exact Hrun].
  destruct (Z.leb_spec MAX_STACK_SLOTS slot) as [Hmax|Hmax]; [eapply given_up_now; [exact Hi|auto]|]. destruct (slot_range slot) as [Hlo Hhi]; [lia|].
  change 0x1000 with 4096. set (b := slot_page slot) in *.
  assert (STACK_GUARD_VA + slot * STACK_SLOT_PAGES * 4096 = b * 4096) as ->.
  { subst b. unfold slot_page. change (STACK_GUARD_VA / 4096) with 0x7FFF00000. change STACK_GUARD_VA with 0x7FFF00000000. change STACK_SLOT_PAGES with 66. lia. }
  change (STACK_GUARD_VA / 4096) with 0x7FFF00000 in Hno. change (2 ^ 47 / 4096) with (2 ^ 35) in Hno. unfold STACK_GUARD_VA in Hlo.
  destruct guard_plain as [Hpl Hp0]. assert (b * 4096 / 4096 = b) as Epg by (apply Z.div_mul; lia).
  apply runs_try. eapply runs_mono; [apply (new_page_spec d (bump k) fl bytes (b * 4096) (Z.lor PF_PRESENT PF_NX))| |].
  - exact Hi.
  - lia.
  - unfold user_va. lia.
  - apply Z.mod_mul. lia.
  - rewrite Epg. apply Hno. lia.
  - done.
  - done.
  - intros f k' (s1 & -> & Hi1 & _). rewrite Epg in Hi1. apply runs_try.
    eapply runs_mono; [apply (stack_pages_spec b); [lia|lia| | | |exact Hi1| |]| |].
    + unfold USER_STACK_PAGES. lia.
    + lia.
    + unfold USER_STACK_PAGES. lia.
    + unfold USER_STACK_PAGES. lia.
    + intros m Hm. unfold USER_STACK_PAGES in Hm. unfold set_page. rewrite decide_False by lia. apply Hno. lia.
    + intros g k' (s2 & -> & Hi2 & He & Hg). apply runs_ret. exists s2. split; [done|]. split; [eapply inv_ext; [exact Hi2|unfold STACK_FRAMES, USER_STACK_PAGES; lia|done|done]|]. split; [done|].
      split; [cbn; lia|]. done.
    + intros e k'. by apply given_up_later.
  - intros e k' (He & ->). by eapply given_up_now.
Qed.

(** ** The first stack frame *)

Lemma put_chunks_copy f chunks : forall off s, chunks <> [] -> put_chunks f off chunks s = copy_into f off (concat chunks) s.
Proof.
  induction chunks as [|c chunks IH]; intros off s Hne; [done|]. cbn [put_chunks concat]. unfold mbind, mm_bind, copy_into at 1.
  destruct (Z.ltb_spec f (vm_window s)) as [Hlt|Hge]; cycle 1.
  { unfold copy_into. by rewrite (proj2 (Z.ltb_ge _ _)). }
  destruct chunks as [|c' chunks].
  { cbn [put_chunks concat]. rewrite app_nil_r. unfold copy_into. by rewrite (proj2 (Z.ltb_lt _ _)). }
  rewrite IH by done. unfold copy_into. cbn [vm_window with_mem vm_mem vm_pmm vm_pml4]. rewrite (proj2 (Z.ltb_lt _ _)) by done.
  rewrite put_bytes_app, Z.add_assoc. done.
Qed.

Lemma runs_vm_eq {A B} (m1 m2 : MM A) (f : A -> EM (result B ElfError)) k Q R : m2 (es_vm k) = m1 (es_vm k) ->
  runs (a ← on_elf_vm m1; f a) k Q R -> runs (a ← on_elf_vm m2; f a) k Q R.
Proof. intros E. unfold runs, mbind, em_bind, on_elf_vm. by rewrite E. Qed.

Definition total_bytes (argv : list str) : Z := header_bytes argv + str_bytes argv.

Definition frame_image (rsp : Z) (argv : list str) : list Z := concat (frame_chunks rsp argv).

Lemma length_string_addresses argv : forall va, length (string_addresses va argv) = length argv.
Proof. induction argv as [|s argv IH]; intros va; [done|]. cbn. by rewrite IH. Qed.

Lemma length_concat_words l : length (concat (le_bytes 8 <$> l)) = (8 * length l)%nat.
Proof. induction l as [|x l IH]; [done|]. cbn [fmap list_fmap concat length]. rewrite length_app, length_le_bytes, IH. lia. Qed.

Lemma length_concat_strings (argv : list str) : Z.of_nat (length (concat (argv ≫= fun s => [s; [0] ]))) = str_bytes argv.
Proof.
  induction argv as [|s argv IH]; [done|]. rewrite bind_cons. cbn [app concat str_bytes foldr]. fold (str_bytes argv).
  rewrite !length_app. cbn [length]. lia.
Qed.

Lemma length_frame_image rsp argv : Z.of_nat (length (frame_image rsp argv)) = total_bytes argv.
Proof.
  unfold frame_image, frame_chunks, total_bytes, header_bytes. rewrite concat_app, length_app, Nat2Z.inj_add, length_concat_strings, length_concat_words.
  cbn [length]. rewrite length_app, length_string_addresses. cbn [length]. lia.
Qed.

Lemma frame_image_bytes rsp argv : Forall (Forall (fun b => 0 <= b < 256)) argv -> Forall (fun b => 0 <= b < 256) (frame_image rsp argv).
Proof.
  intros Ha. unfold frame_image, frame_chunks. apply Forall_concat, Forall_app. split.
  - apply Forall_fmap, Forall_forall. intros x _. apply le_bytes_range.
  - induction Ha as [|s argv Hs _ IH]; [by apply Forall_nil|]. rewrite bind_cons. apply Forall_app. split; [|done].
    apply Forall_cons_2; [done|]. apply Forall_singleton, Forall_singleton. lia.
Qed.

Definition frame_bytes (rsp : Z) (argv : list str) (bytes : Z -> Z) : Z -> Z := fun x =>
  if decide (rsp <= x < rsp + total_bytes argv) then nth (Z.to_nat (x - rsp)) (frame_image rsp argv) 0 else bytes x.

Lemma stack_frame_spec d k fl bytes b f argv : (4080 < total_bytes argv -> why ArgvTooLarge) -> load_inv ks ps p s0 d (es_vm k) fl bytes -> Forall (Forall (fun b => 0 <= b < 256)) argv ->
  2 ^ 30 <= b * 4096 -> (b + 1) * 4096 <= 2 ^ 47 -> fl b = Some USER_RW -> page_entry (es_vm k) p (b * 4096) = pte_set f USER_RW -> frame_addr f ->
  runs (write_initial_stack_frame ((b + 1) * 4096) f argv) k
    (fun rsp k' => exists s', k' = with_vm k s' /\ load_inv ks ps p s0 d s' fl (frame_bytes rsp argv bytes) /\
       rsp mod 16 = 0 /\ b * 4096 <= rsp /\ rsp + total_bytes argv <= (b + 1) * 4096)
    (fun e k' => why e /\ k' = k).
Proof.
  intros Hlong Hi Hargv Hlo Hhi Hfl He Hf. unfold write_initial_stack_frame. fold (total_bytes argv).
  destruct (Z.ltb_spec 4080 (total_bytes argv)) as [|Hsz]; [split; [auto|done]|].
  assert (0 < total_bytes argv) as H0 by (unfold total_bytes, header_bytes; rewrite <- length_concat_strings; lia).
  change 0xF with (2 ^ 4 - 1). rewrite land_not_mask by (unfold in_u; lia). change (2 ^ 4) with 16.
  set (top := (b + 1) * 4096 - total_bytes argv). set (rsp := 16 * (top / 16)).
  assert (top - 15 <= rsp <= top) as Hrsp by (subst rsp; pose proof (Z.div_mod top 16); pose proof (Z.mod_pos_bound top 16); lia).
  assert (b * 4096 <= rsp) as Hb.
  { subst rsp. assert (b * 4096 / 16 <= top / 16) as Hd by (apply Z.div_le_mono; lia).
    replace (b * 4096) with (b * 256 * 16) in Hd |- * by lia. rewrite Z.div_mul in Hd by lia. lia. }
  assert (Z.land rsp 0xFFF = rsp - b * 4096) as Hoff.
  { change 0xFFF with (Z.ones 12). rewrite Z.land_ones by lia. change (2 ^ 12) with 4096.
    symmetry. apply Z.mod_unique with b; lia. }
  rewrite Hoff. eapply runs_vm_eq; [by apply put_chunks_copy|].
  eapply (copy_spec d k fl bytes (b * 4096) f USER_RW); [done|unfold user_va; lia|apply Z.mod_mul; lia|by rewrite Z.div_mul by lia|done|done|lia| |by apply frame_image_bytes|].
  { fold (frame_image rsp argv). rewrite length_frame_image. lia. }
  intros s' Hi'. apply runs_ret. exists s'. split; [done|]. split; [|split; [subst rsp; rewrite Z.mul_comm; apply Z.mod_mul; lia|lia] ].
  eapply inv_ext; [exact Hi'|lia|done|]. intros x _. unfold frame_bytes. fold (frame_image rsp argv). rewrite length_frame_image.
  replace (b * 4096 + (rsp - b * 4096)) with rsp by lia. done.
Qed.

End steps.

(** ** [exec] *)

(** The headers of the image. *)
Definition image_headers (data : list Z) (ehdr : Elf64Ehdr) : list Elf64Phdr :=
  headers data (e_phoff ehdr) (e_phentsize ehdr) 0 (Z.to_nat (e_phnum ehdr)).

(** Two frames for the root, and a frame and at most three tables for each page. *)
Definition exec_frames (data : list Z) (ehdr : Elf64Ehdr) : Z := 2 + 4 * image_count (image_headers data ehdr) + STACK_FRAMES.

(** Bytes, a table of headers whose end does not wrap around, and segments in
    their place. *)
Record image_ok (data : list Z) : Prop := {
  im_bytes : Forall (fun b => 0 <= b < 256) data;
  im_table : forall ehdr, read_ehdr data = Ok ehdr -> e_phoff ehdr + e_phnum ehdr * e_phentsize ehdr + ELF64_PHDR_SIZE < 2 ^ 64;
  im_placed : forall ehdr, read_ehdr data = Ok ehdr ->
    Forall (fun h => loadable h = true -> placed h) (image_headers data ehdr)
}.

Lemma read_ehdr_range data ehdr : Forall (fun b => 0 <= b < 256) data -> read_ehdr data = Ok ehdr ->
  0 <= e_phoff ehdr /\ 0 <= e_phentsize ehdr /\ 0 <= e_phnum ehdr.
Proof.
  intros Hd. unfold read_ehdr. destruct (_ <? _); [done|]. intros [= <-]. cbn [e_phoff e_phentsize e_phnum].
  pose proof (field_range data 32 8 Hd). pose proof (field_range data 54 2 Hd). pose proof (field_range data 56 2 Hd). lia.
Qed.

(** Segments stay below the stacks. *)
Lemma image_pages_below hs : Forall (fun h => loadable h = true -> placed h) hs -> forall fl m, STACK_GUARD_VA / 4096 <= m ->
  image_pages hs fl m = fl m.
Proof.
  induction 1 as [|h hs Hh _ IH]; intros fl m Hm; [done|]. change (image_pages hs (if loadable h then seg_pages h fl else fl) m = fl m). rewrite IH by done.
  destruct (loadable h); [|done]. specialize (Hh eq_refl). unfold seg_pages. rewrite decide_False; [done|]. intros [Hsz Hin].
  pose proof (pl_high h Hh Hsz) as Hhi. pose proof (pl_filesz h Hh) as Hf.
  assert ((p_vaddr h + p_memsz h - 1) / 4096 < STACK_GUARD_VA / 4096); [|lia].
  apply Z.div_lt_upper_bound; [lia|]. change (4096 * (STACK_GUARD_VA / 4096)) with STACK_GUARD_VA. lia.
Qed.

(** The loaded program: its image, a stack in slot [slot], and the first frame at [rsp]. *)
Definition program_pages (data : list Z) (ehdr : Elf64Ehdr) (slot : Z) : Z -> option Z :=
  stack_layout slot (image_pages (image_headers data ehdr) (fun _ => None)).

Definition program_bytes (data : list Z) (ehdr : Elf64Ehdr) (rsp : Z) (argv : list str) : Z -> Z :=
  frame_bytes rsp argv (image_bytes data (image_headers data ehdr) (fun _ => 0)).

Lemma created_inv ks ps s p s' : spaces ks ps s -> create_user_page_table s = Ok (p, s') -> load_inv ks ps p s 2 s' (fun _ => None) (fun _ => 0).
Proof.
  intros Hs E. destruct (created_user _ _ _ _ _ Hs E) as [Hs' Hz]. pose proof (create_run ks ps s Hs) as Hc. rewrite E in Hc.
  destruct Hc as (p3 & Ht & Hr & Hw & Hw1 & Hw2 & Hn). split; [done| | |].
  - split; [done|done|]. intros f i Hf Hi. by eapply created_held.
  - apply (drawn_takes s s 0 [p; p3] (vm_pmm s') s'); [split; [lia|done]|done|done].
  - intros va Hva. split; [by apply Hz|done].
Qed.

(** The steps of [exec] up to the creation of the task. *)
Definition build (data : list Z) (ehdr : Elf64Ehdr) (argv : list str) : EM (result (Z * Z) ElfError) :=
  user_pml4 ← on_elf_vm create_user_page_table;
  _ ←! load_segments (Z.to_nat (e_phnum ehdr)) data (e_phoff ehdr) (e_phentsize ehdr) user_pml4 0;
  stack ←! alloc_user_stack_into user_pml4;
  initial_sp ←! write_initial_stack_frame stack.1 stack.2 argv;
  mret (Ok (user_pml4, initial_sp)).

Lemma exec_eq stack_base exec_trampoline data caps argv k :
  exec stack_base exec_trampoline data caps argv k =
  match read_ehdr data with
  | Err e => Ok (Err e, k)
  | Ok ehdr =>
      match check_ehdr ehdr with
      | Err e => Ok (Err e, k)
      | Ok _ =>
          match build data ehdr argv k with
          | Ok (Ok (p, sp), k1) =>
              (id ← spawn stack_base exec_trampoline (e_entry ehdr) sp caps p (default (lit "user") (head argv)); mret (Ok id)) k1
          | Ok (Err e, k1) => Ok (Err e, k1)
          | Err e => Err e
          end
      end
  end.
Proof.
  unfold exec, build, em_try, mbind, em_bind, mret, em_ret. destruct (read_ehdr data) as [ehdr|e]; [|done].
  destruct (check_ehdr ehdr) as [u|e]; [|done]. destruct (on_elf_vm create_user_page_table k) as [ [p k0]|e]; [|done].
  destruct (load_segments _ _ _ _ _ _ k0) as [ [ [u'|e] k1]|e]; [|done|done].
  destruct (alloc_user_stack_into p k1) as [ [ [st|e] k2]|e]; [|done|done].
  by destruct (write_initial_stack_frame st.1 st.2 argv k2) as [ [ [sp|e] k3]|e].
Qed.

(** What the steps give up on. *)
Definition exec_refuses (k : ElfSys) (data : list Z) (ehdr : Elf64Ehdr) (argv : list str) (e : ElfError) : Prop :=
  match e with
  | ElfOutOfMemory => pm_free (vm_pmm (es_vm k)) < exec_frames data ehdr
  | BadProgramHeader => Z.of_nat (length data) < e_phoff ehdr + (e_phnum ehdr - 1) * e_phentsize ehdr + ELF64_PHDR_SIZE
  | SegmentOutOfBounds => exists h, h ∈ image_headers data ehdr /\ loadable h = true /\ Z.of_nat (length data) < p_offset h + p_filesz h
  | StackExhausted => MAX_STACK_SLOTS <= es_next_slot k
  | ArgvTooLarge => 4080 < total_bytes argv
  | _ => False
  end.

(** What the steps before the creation of the task achieve. *)
Lemma build_spec ks ps k data ehdr argv : spaces ks ps (es_vm k) -> image_ok data -> read_ehdr data = Ok ehdr ->
  Forall (Forall (fun b => 0 <= b < 256)) argv -> 0 <= es_next_slot k ->
  runs (es_vm k) (exec_frames data ehdr) (build data ehdr argv) k
    (fun r k' => es_sched k' = es_sched k /\ load_inv ks ps r.1 (es_vm k) (exec_frames data ehdr) (es_vm k') (program_pages data ehdr (es_next_slot k)) (program_bytes data ehdr r.2 argv) /\
       r.2 mod 16 = 0 /\ (slot_page (es_next_slot k) + USER_STACK_PAGES) * 4096 <= r.2 /\
       r.2 + total_bytes argv <= (slot_page (es_next_slot k) + USER_STACK_PAGES + 1) * 4096)
    (fun e k' => exec_refuses k data ehdr argv e /\ es_sched k' = es_sched k /\ exists p d fl bytes, load_inv ks ps p (es_vm k) d (es_vm k') fl bytes).
Proof.
  intros Hs [Hd Ht Hp] Eh Hargv Hslot. specialize (Ht _ Eh). specialize (Hp _ Eh). destruct (read_ehdr_range _ _ Hd Eh) as (R1 & R2 & R3).
  set (N := exec_frames data ehdr). set (why := exec_refuses k data ehdr argv).
  assert (pm_free (vm_pmm (es_vm k)) < N -> why ElfOutOfMemory) as Hoom by done.
  assert (N = 2 + 4 * image_count (image_headers data ehdr) + STACK_FRAMES) as EN by done.
  pose proof (image_count_nonneg _ Hp) as Hnn. assert (STACK_FRAMES = 260) as ESF by done.
  unfold build. apply runs_vm. pose proof (create_run ks ps (es_vm k) Hs) as Hst.
  destruct (create_user_page_table (es_vm k)) as [ [p s1]|e] eqn:Ecr; cycle 1.
  { eapply (stops_starved (es_vm k) N 2 0); [done|split; [lia|done]|lia|done]. }
  pose proof (created_inv _ _ _ _ _ Hs Ecr) as Hi1. set (k1 := with_vm k s1).
  assert (forall k0 e k', es_sched k0 = es_sched k -> given_up ks ps p (es_vm k) why k0 e k' ->
    why e /\ es_sched k' = es_sched k /\ exists p d fl bytes, load_inv ks ps p (es_vm k) d (es_vm k') fl bytes) as Hgu.
  { intros k0 e k' Hk0 (He & s' & d & fl & b & -> & Hi). split; [done|]. split; [done|]. by exists p, d, fl, b. }
  apply runs_try. eapply runs_mono; [apply (load_segments_spec ks ps p (es_vm k) N why Hoom data (e_phoff ehdr) (e_phentsize ehdr) Hd R1 R2 _ 2 k1 (fun _ => None) (fun _ => 0) 0)| |].
  { done. }
  { rewrite Z2Nat.id by done. done. }
  { done. }
  { done. }
  { fold (image_headers data ehdr). lia. }
  { intros h Hh Hl Hlen. by exists h. }
  { rewrite Z2Nat.id by done. done. }
  2:{ intros e k'. by apply Hgu. }
  intros _ k' (s2 & -> & Hi2). fold (image_headers data ehdr) in Hi2.
  apply runs_try. eapply runs_mono; [apply (alloc_user_stack_spec ks ps p (es_vm k) N why Hoom _ (with_vm k1 s2) _ _ Hi2 Hslot); [lia|done|]| |].
  { intros m [Hm _]. by rewrite (image_pages_below _ Hp). }
  2:{ intros e k'. by apply Hgu. }
  cbn [es_next_slot with_vm k1]. intros [top f] k' (s3 & -> & Hi3 & Hmax & Etop & He & Hf). cbn [fst snd] in *. subst top.
  destruct (slot_range (es_next_slot k)) as [Hlo Hhi]; [lia|]. unfold STACK_GUARD_VA, USER_STACK_PAGES in *.
  apply runs_try. eapply runs_mono; [apply (stack_frame_spec ks ps p (es_vm k) N why _ (with_vm (bump (with_vm k1 s2)) s3) _ _ (slot_page (es_next_slot k) + 64) f argv (fun H => H) Hi3)| |].
  - done.
  - lia.
  - lia.
  - unfold stack_layout, page_run. rewrite decide_True; [done|]. unfold USER_STACK_PAGES. lia.
  - done.
  - done.
  - intros rsp k' (s4 & -> & Hi4 & H16 & Hr1 & Hr2). apply runs_ret. split; [done|]. cbn [fst snd es_vm with_vm]. split; [exact Hi4|]. done.
  - intros e k' (Hw & ->). split; [done|]. split; [done|]. eexists p, _, _, _. exact Hi3.
Qed.


(** ** Segments elsewhere *)

Lemma walk_existing_pure t va s r s' : walk_existing t va s = Ok (r, s') -> s' = s.
Proof.
  unfold walk_existing, descend_existing, load_entry, mbind, mm_bind. intros E.
  repeat (match type of E with context [if ?b then _ else _] => destruct b end; try done); by injection E as _ <-.
Qed.

(** A page that is mapped, and the change of its flags. *)
Lemma query_slot t va s f s' : query_page_in t va s = Ok (Some f, s') -> s' = s /\
  exists t1 i, walk_existing t va s = Ok (Some (t1, i), s) /\
    forall flags, update_page_flags_in t va flags s = Ok (tt, with_mem (put_word t1 i (pte_set f flags) (vm_mem s)) s).
Proof.
  unfold query_page_in, update_page_flags_in, mbind, mm_bind. destruct (walk_existing t va s) as [ [ [ [t1 i]|] s1]|e] eqn:Ew; [|done|done].
  pose proof (walk_existing_pure _ _ _ _ _ Ew) as ->. unfold load_entry, store_entry. destruct (t1 <? vm_window s) eqn:Hw; [|done].
  destruct (pte_is_present _); [|done]. intros [= <- <-]. split; [done|]. exists t1, i. split; [done|]. by rewrite Hw.
Qed.

