(* ===== verification/VmmDemo.v ===== *)
(** * A booted machine with one user task

    A concrete run of [init] and [create_user_page_table] on 512 free frames,
    with the theorems of VmmSpaces.v, VmmLife.v, VmmInit.v and MemCalls.v applied
    to it. *)

From S2P Require Import Prelude Abi Cap Task Pmm Vmm VmmTree VmmSpaces VmmLife VmmInit MemCalls.

#[local] Open Scope Z_scope.

(** 512 usable frames from 4 MiB on; the kernel's two pages lie at 2 MiB. *)
Definition boot_bitmap : Bitmap := replicate 16 U64_MAX ++ replicate 8 0 ++ replicate (Z.to_nat 16360) U64_MAX.
Definition boot_pmm : Pmm := mkPmm boot_bitmap 512.
Definition boot_vm : Vm := mkVm ∅ boot_pmm 0 (2 ^ 32).
Definition boot_init : result (unit * Vm) VmStop :=
  init 0x200000 0xFFFFFFFF80000000 0x202000 0xFFFF800000000000 boot_vm.
Definition state_of {A S E : Type} (d : S) (r : result (A * S) E) : S := match r with Ok (_, s) => s | Err _ => d end.
Definition value_of {A S E : Type} (d : A) (r : result (A * S) E) : A := match r with Ok (a, _) => a | Err _ => d end.
Definition booted_vm : Vm := state_of boot_vm boot_init.
Definition user_run : result (Z * Vm) VmStop := create_user_page_table booted_vm.
Definition user_vm : Vm := state_of booted_vm user_run.
Definition user_p4 : Z := value_of 0 user_run.
Definition user_ks : list Z := identity_frames booted_vm.

Definition user_task : Task :=
  mkTask 7 1 Running 0 2 (make_name []) [mkSlot 0 (Some demo_root)] (0, 0) 0 None (Some 0x40000000) (Some 0x7FFF00000000)
    (Some user_p4) [] 0 0 0.
Definition user_sys : MemSys := mkMS (mkSched [user_task] 0 8) user_vm.

Definition answered {A B E : Type} (r : result (A * B) E) : bool := match r with Ok _ => true | Err _ => false end.

Lemma sum_zeros_full n bm : sum_zeros (replicate n U64_MAX ++ bm) = sum_zeros bm.
Proof. induction n as [|n IH]; [done|]. unfold sum_zeros in *. cbn [replicate app foldr]. by rewrite IH. Qed.

Lemma sum_zeros_hole n k : sum_zeros (replicate n U64_MAX ++ replicate 8 0 ++ replicate k U64_MAX) = 512.
Proof.
  rewrite sum_zeros_full, <- (app_nil_r (replicate k U64_MAX)). pose proof (sum_zeros_full k []) as E. revert E.
  generalize (replicate k U64_MAX ++ []). intros l E. unfold sum_zeros in *. cbn [replicate app foldr] in *. rewrite E. by vm_compute.
Qed.

Lemma boot_pmm_wf : pmm_wf boot_pmm.
Proof.
  assert (forall n, Forall (in_u 64) (replicate n U64_MAX)) as Hf.
  { intros n. apply Forall_replicate. unfold in_u. by vm_compute. }
  split; [split|].
  - unfold boot_pmm, boot_bitmap. cbn [pm_bitmap]. rewrite !length_app, !length_replicate.
    change BITMAP_WORDS with 16384. lia.
  - apply Forall_app. split; [apply Hf|]. apply Forall_app. split; [|apply Hf]. apply Forall_replicate. unfold in_u. lia.
  - rewrite <- sum_zeros_free. apply eq_sym, sum_zeros_hole.
Qed.

Lemma boot_frame i : 0 <= i < 2 -> used boot_pmm (0x200000 + i * FRAME_SIZE).
Proof.
  intros Hi. exists (512 + i). change FRAME_SIZE with 4096. change MAX_FRAMES with 1048576. split; [lia|]. split; [lia|].
  assert (i = 0 \/ i = 1) as [-> | ->] by lia; by vm_compute.
Qed.

Lemma boot_vm_info : boot_info 0x200000 0xFFFFFFFF80000000 0x202000 0xFFFF800000000000 2 boot_vm.
Proof.
  split; [exact boot_pmm_wf|by vm_compute|by vm_compute|by vm_compute|done|exact boot_frame|done|by vm_compute].
Qed.

#[local] Opaque boot_pmm.

Lemma boot_init_ok : init 0x200000 0xFFFFFFFF80000000 0x202000 0xFFFF800000000000 boot_vm = Ok (tt, booted_vm).
Proof.
  fold boot_init.
  assert (answered boot_init = true) as Ha by by vm_compute.
  unfold booted_vm. by destruct boot_init as [ [ [] s]|e].
Qed.

Lemma user_run_ok : create_user_page_table booted_vm = Ok (user_p4, user_vm).
Proof.
  fold user_run.
  assert (answered user_run = true) as Ha by by vm_compute.
  unfold user_p4, user_vm. by destruct user_run as [ [p s]|e].
Qed.

Lemma user_ks_low : Forall (fun f => f < IDENTITY_MAP_LIMIT) user_ks.
Proof. apply (bool_decide_unpack _). by vm_compute. Qed.

#[local] Opaque boot_init user_run booted_vm user_vm user_p4.

Lemma booted_vm_spaces : spaces user_ks [] booted_vm.
Proof.
  pose proof (init_run _ _ _ _ _ _ boot_vm_info) as Hr. rewrite boot_init_ok in Hr.
  destruct Hr as (p3 & p2 & h3 & Hb). eapply booted_spaces; [exact Hb|].
  intros f Hf. pose proof user_ks_low as Hl. rewrite Forall_forall in Hl. by apply Hl.
Qed.

Lemma user_vm_spaces : spaces user_ks [user_p4] user_vm /\
  forall va, user_va va -> page_entry user_vm user_p4 va = 0.
Proof. exact (created_user _ _ _ _ _ booted_vm_spaces user_run_ok). Qed.

Lemma user_mem_ok : mem_ok user_ks [user_p4] user_sys user_task user_p4.
Proof. split; [done|done|set_solver|apply user_vm_spaces|]. by repeat constructor. Qed.

(** ** The theorems on this machine *)

Lemma map_page_in_exact_witness :
  exists s', map_page_in user_p4 0x40000000 0x200000 USER_RX user_vm = Ok (tt, s') /\
    page_entry s' user_p4 0x40000000 = pte_set 0x200000 USER_RX /\ page_entry s' user_p4 0x40001000 = 0.
Proof.
  destruct user_vm_spaces as [Hs Hz].
  assert (answered (map_page_in user_p4 0x40000000 0x200000 USER_RX user_vm) = true) as Ha by (vm_compute; reflexivity).
  assert (user_va 0x40000000 /\ user_va 0x40001000) as [V0 V1] by (unfold user_va; lia).
  assert (0x200000 ∉ held user_ks [user_p4] user_vm) as Hfresh.
  { apply (bool_decide_unpack _). vm_compute. reflexivity. }
  pose proof (map_page_in_exact user_ks [user_p4] user_vm user_p4 0x40000000 0x200000 USER_RX Hs
    (list_elem_of_here _ _) V0) as Hm.
  destruct (map_page_in _ _ _ _ _) as [ [ [] s']|e]; [|discriminate Ha]. exists s'. split; [reflexivity|].
  destruct Hm as (_ & Hm & _).
  { change (leaf_frame (pte_set 0x200000 USER_RX)) with [0x200000]. intros f Hf%list_elem_of_singleton. subst f.
    split; [|exact Hfresh]. exists 512. split; [reflexivity|]. split; [vm_compute; split; congruence|].
    vm_compute. reflexivity. }
  destruct (Hm user_p4 0x40000000 (list_elem_of_here _ _) V0) as [-> _].
  destruct (Hm user_p4 0x40001000 (list_elem_of_here _ _) V1) as [-> _].
  rewrite decide_True by (split; reflexivity). rewrite decide_False by (intros [_ H]; vm_compute in H; discriminate H).
  split; [reflexivity|]. exact (Hz 0x40001000 V1).
Defined.

Lemma create_user_page_table_empty_witness :
  exists p s', create_user_page_table user_vm = Ok (p, s') /\ spaces user_ks [p; user_p4] s'.
Proof.
  assert (answered (create_user_page_table user_vm) = true) as Ha by (vm_compute; reflexivity).
  pose proof (create_user_page_table_empty user_ks [user_p4] user_vm (proj1 user_vm_spaces)) as Hc.
  destruct (create_user_page_table user_vm) as [ [p s']|e]; [|discriminate Ha].
  exists p, s'. split; [reflexivity|]. exact (proj1 Hc).
Defined.

Lemma free_user_page_table_exact_witness :
  exists s', free_user_page_table user_p4 user_vm = Ok (tt, s') /\ spaces user_ks [] s'.
Proof.
  destruct (free_user_page_table_exact user_ks [] user_vm user_p4 (proj1 user_vm_spaces)) as (s' & E & _ & Hs & _).
  exists s'. exact (conj E Hs).
Defined.


Lemma sys_mmap_effect_witness :
  sys_mmap 0x1000 3 user_sys = Ok (EINVAL, user_sys) /\
  exists k', sys_mmap 0x40000000 3 user_sys = Ok (0, k').
Proof.
  destruct (sys_mmap_effect user_ks [user_p4] user_sys user_task user_p4 0x1000 3 user_mem_ok) as [H1 _].
  split; [exact (H1 eq_refl)|].
  assert (match sys_mmap 0x40000000 3 user_sys with Ok (0, _) => true | _ => false end = true) as Ha
    by (vm_compute; reflexivity).
  destruct (sys_mmap_effect user_ks [user_p4] user_sys user_task user_p4 0x40000000 3 user_mem_ok) as (_ & _ & _ & H4).
  specialize (H4 eq_refl eq_refl (Forall_nil_2 _)). destruct (alloc_frame (vm_pmm (ms_vm user_sys))) as [ [f q]|]; cycle 1.
  { rewrite H4 in Ha. discriminate Ha. }
  destruct (sys_mmap 0x40000000 3 user_sys) as [ [r k']|e]; [|discriminate Ha]. destruct H4 as [-> _]. exists k'. reflexivity.
Defined.


Lemma sys_brk_bounds_witness :
  exists k', sys_brk 0x400001234 user_sys = Ok (0x400001234, k') /\
    heap_grown user_ks [user_p4] user_vm (ms_vm k') user_p4 0x400000000 2.
Proof.
  assert (match sys_brk 0x400001234 user_sys with Ok (r, _) => r =? 0x400001234 | Err _ => false end = true) as Ha
    by (vm_compute; reflexivity).
  assert (in_u 64 0x400001234) as Hu by (unfold in_u; lia).
  pose proof (sys_brk_bounds user_ks [user_p4] user_sys user_task user_p4 0x400001234 user_mem_ok
    (or_introl eq_refl) Hu) as Hb.
  destruct (sys_brk 0x400001234 user_sys) as [ [r k']|e]; [|discriminate Ha]. apply Z.eqb_eq in Ha. subst r. exists k'.
  split; [reflexivity|]. destruct Hb as [(H & _)|[(H & _)|(_ & _ & _ & _ & Hg)] ].
  - intros va Hva _. destruct user_vm_spaces as [_ Hz]. unfold plain_page. change (ms_vm user_sys) with user_vm.
    rewrite (Hz va Hva). reflexivity.
  - vm_compute in H. discriminate H.
  - vm_compute in H. discriminate H.
  - apply Hg. reflexivity.
Defined.
