(* ===== verification/ElfDemo.v ===== *)
(** * Loading the smoke-test program

    [SMOKE_ELF] of elf.rs on the booted machine of VmmDemo.v, and a segment
    placed over a page of the kernel. *)

From S2P Require Import Prelude Abi Paths Text Cap Task Pmm Vmm VmmTree VmmSpaces VmmPages VmmLife VmmInit MemCalls Elf ElfLoad VmmDemo.

#[local] Open Scope Z_scope.
#[local] Open Scope elf_scope.

Definition SMOKE_ELF : list Z :=
  (* the header of the file *)
  ELFMAG ++ [ELFCLASS64; ELFDATA2LSB; 1] ++ replicate 9 0 ++
  le_bytes 2 ET_EXEC ++ le_bytes 2 EM_X86_64 ++ le_bytes 4 1 ++ le_bytes 8 0x100000078 ++ le_bytes 8 64 ++ le_bytes 8 0 ++
  le_bytes 4 0 ++ le_bytes 2 64 ++ le_bytes 2 56 ++ le_bytes 2 1 ++ le_bytes 2 64 ++ le_bytes 2 0 ++ le_bytes 2 0 ++
  (* the header of the segment *)
  le_bytes 4 PT_LOAD ++ le_bytes 4 5 ++ le_bytes 8 0 ++ le_bytes 8 0x100000000 ++ le_bytes 8 0x100000000 ++
  le_bytes 8 128 ++ le_bytes 8 128 ++ le_bytes 8 0x1000 ++
  (* mov eax, 1; syscall; hlt *)
  0xB8 :: le_bytes 4 1 ++ [0x0F; 0x05; 0xF4].

Definition smoke_ehdr : Elf64Ehdr := mkEhdr (slice 0 16 SMOKE_ELF) 2 62 1 0x100000078 64 0 0 64 56 1 64 0 0.

Lemma smoke_header : read_ehdr SMOKE_ELF = Ok smoke_ehdr.
Proof. reflexivity. Qed.

(** A scheduler with one task, and a guard page that is mapped. *)
Definition elf_sys : ElfSys := mkElfSys booted_vm (mkSched [user_task] 0 8) 0 1.
Definition KERNEL_VA : Z := 0xFFFFFFFF80000000.

(** The tables on the way to that page. *)
Definition guard_tables : list Z :=
  let m := vm_mem booted_vm in
  let p3 := pte_address (word m (vm_pml4 booted_vm) (p4_idx KERNEL_VA)) in
  let p2 := pte_address (word m p3 (p3_idx KERNEL_VA)) in
  [p3; p2; pte_address (word m p2 (p2_idx KERNEL_VA))].
Definition elf_ks : list Z := user_ks ++ guard_tables.

Lemma smoke_ok : image_ok SMOKE_ELF.
Proof.
  split.
  - apply (bool_decide_unpack _). by vm_compute.
  - intros ehdr [= <-]. by vm_compute.
  - intros ehdr [= <-]. apply Forall_cons. split; [|by apply Forall_nil]. intros _. split; cbn; try lia; by vm_compute.
Qed.

(** A frame that is in use and below the end of the direct map. *)
Definition in_use (s : Vm) (f : Z) : bool :=
  let k := f / FRAME_SIZE in
  (f =? k * FRAME_SIZE) && (0 <=? k) && (k <? MAX_FRAMES) && is_used (pm_bitmap (vm_pmm s)) k && (f <? vm_window s).

Lemma in_use_used s f : in_use s f = true -> used (vm_pmm s) f /\ f < vm_window s.
Proof.
  unfold in_use. rewrite !andb_true_iff, Z.eqb_eq, Z.leb_le, !Z.ltb_lt. intros ((((H1 & H2) & H3) & H4) & H5).
  split; [|done]. by exists (f / FRAME_SIZE).
Qed.

Lemma elf_ks_used : forallb (in_use booted_vm) elf_ks = true.
Proof. vm_compute. reflexivity. Qed.

Lemma elf_ks_nodup : NoDup elf_ks.
Proof. apply (bool_decide_unpack _). vm_compute. reflexivity. Qed.

(** The page at [va] is mapped, in the tables [t4], [t3], [t2] and [t1]. *)
Definition walked (s : Vm) (t4 t3 t2 t1 va : Z) : bool :=
  let e4 := word (vm_mem s) t4 (p4_idx va) in
  let e3 := word (vm_mem s) t3 (p3_idx va) in
  let e2 := word (vm_mem s) t2 (p2_idx va) in
  pte_is_present e4 && (pte_address e4 =? t3) && pte_is_present e3 && (pte_address e3 =? t2) &&
  pte_is_present e2 && (pte_address e2 =? t1) && pte_is_present (word (vm_mem s) t1 (p1_idx va)).

Lemma guard_walked : exists t3 t2 t1, guard_tables = [t3; t2; t1] /\ walked booted_vm (vm_pml4 booted_vm) t3 t2 t1 KERNEL_VA = true.
Proof. do 3 eexists. split; [reflexivity|]. vm_compute. reflexivity. Qed.

Lemma root_in_ks : vm_pml4 booted_vm ∈ elf_ks.
Proof. apply list_elem_of_here. Qed.

Lemma user_ks_in f : f ∈ user_ks -> f ∈ elf_ks.
Proof. intros Hf. apply elem_of_app. by left. Qed.

Lemma guard_tables_in f : f ∈ guard_tables -> f ∈ elf_ks.
Proof. intros Hf. apply elem_of_app. by right. Qed.

#[local] Opaque booted_vm elf_ks guard_tables user_ks.

Lemma elf_spaces : spaces elf_ks [] booted_vm.
Proof.
  destruct booted_vm_spaces as [H1 _ _ _ _ H6]. pose proof elf_ks_used as Hu. rewrite forallb_forall in Hu.
  assert (forall q : Z, q ∈ [] -> False) as Hno by exact not_elem_of_nil.
  split; [exact H1|by rewrite app_nil_r; exact elf_ks_nodup| |intros q Hq; destruct (Hno q Hq)..|].
  - intros f Hf. rewrite app_nil_r in Hf. apply in_use_used, Hu. by apply list_elem_of_In.
  - intros f Hf. destruct (H6 f Hf) as [Hk Hw]. split; [by apply user_ks_in|exact Hw].
Qed.

Lemma walked_query s t4 t3 t2 t1 va : walked s t4 t3 t2 t1 va = true -> Forall (fun t => t < vm_window s) [t4; t3; t2; t1] ->
  query_page_in t4 va s = Ok (Some (pte_address (word (vm_mem s) t1 (p1_idx va))), s).
Proof.
  unfold walked. rewrite !andb_true_iff, !Z.eqb_eq. intros ((((((P4 & E4) & P3) & E3) & P2) & E2) & P1).
  rewrite !Forall_cons. intros (W4 & W3 & W2 & W1 & _). unfold query_page_in, walk_existing, descend_existing, load_entry, mbind, mm_bind.
  rewrite (proj2 (Z.ltb_lt _ _) W4), P4, E4, (proj2 (Z.ltb_lt _ _) W3), P3, E3, (proj2 (Z.ltb_lt _ _) W2), P2, E2.
  cbn. by rewrite (proj2 (Z.ltb_lt _ _) W1), P1.
Qed.

(** The guard page stays mapped. *)
Lemma guard_kept s' : kept elf_ks [] booted_vm s' -> exists f, query_page KERNEL_VA s' = Ok (Some f, s').
Proof.
  intros [Hr Hw Hm]. pose proof elf_ks_used as Hu. rewrite forallb_forall in Hu.
  destruct guard_walked as (t3 & t2 & t1 & Eg & Hwalk). destruct (idxs_range KERNEL_VA) as (I4 & I3 & I2 & I1).
  assert (forall t, t ∈ [vm_pml4 booted_vm; t3; t2; t1] -> t ∈ elf_ks) as Hin.
  { intros t [->|Ht]%elem_of_cons; [exact root_in_ks|]. apply guard_tables_in. by rewrite Eg. }
  assert (forall t i, t ∈ elf_ks -> idx i -> word (vm_mem s') t i = word (vm_mem booted_vm) t i) as Hsame.
  { intros t i Ht Hi. apply Hm; [|done]. apply elem_of_app. by left. }
  eexists. unfold query_page, root, kernel_pml4, mbind, mm_bind. rewrite Hr. apply (walked_query s' (vm_pml4 booted_vm) t3 t2 t1).
  - assert (t3 ∈ elf_ks /\ t2 ∈ elf_ks /\ t1 ∈ elf_ks) as (K3 & K2 & K1).
    { split; [apply Hin; right; left|split; [apply Hin; right; right; left|apply Hin; right; right; right; left] ]. }
    unfold walked. rewrite (Hsame _ _ root_in_ks I4), (Hsame _ _ K3 I3), (Hsame _ _ K2 I2), (Hsame _ _ K1 I1). exact Hwalk.
  - apply Forall_forall. intros t Ht. rewrite Hw. apply in_use_used, Hu, list_elem_of_In, Hin, Ht.
Qed.

Lemma booted_frames : 400 <= pm_free (vm_pmm booted_vm).
Proof. apply (bool_decide_unpack _). vm_compute. reflexivity. Qed.

Lemma booted_window : vm_window booted_vm = 2 ^ 30.
Proof. vm_compute. reflexivity. Qed.

(** Words that are all ones. *)
Lemma full_used bm n k : forallb (Z.eqb U64_MAX) (drop n bm) = true -> Z.of_nat n <= k / 64 < Z.of_nat (length bm) -> is_used bm k = true.
Proof.
  intros Hh Hk. unfold is_used, word_index. rewrite forallb_forall in Hh.
  destruct (lookup_lt_is_Some_2 bm (Z.to_nat (k / 64))) as [w E]; [lia|]. rewrite E, land_frame_bit.
  assert (U64_MAX = w) as <-.
  { apply Z.eqb_eq, Hh, list_elem_of_In, list_elem_of_lookup. exists (Z.to_nat (k / 64) - n)%nat. rewrite lookup_drop.
    by replace (n + (Z.to_nat (k / 64) - n))%nat with (Z.to_nat (k / 64)) by lia. }
  change U64_MAX with (Z.ones 64). pose proof (Z.mod_pos_bound k 64). by rewrite Z.ones_spec_low by lia.
Qed.

(** Only frames below 1 GiB are free. *)
Lemma booted_high : forallb (Z.eqb U64_MAX) (drop (Z.to_nat 4096) (pm_bitmap (vm_pmm booted_vm))) = true.
Proof. vm_compute. reflexivity. Qed.

Lemma booted_length : Z.of_nat (length (pm_bitmap (vm_pmm booted_vm))) = 16384.
Proof. vm_compute. reflexivity. Qed.

Lemma booted_reached : ~ beyond booted_vm.
Proof.
  intros (f & (k & -> & Hk & Hfree) & Hw). rewrite booted_window in Hw. revert Hk Hw. change FRAME_SIZE with 4096. change MAX_FRAMES with (2 ^ 20).
  intros Hk Hw. pose proof (full_used _ _ k booted_high) as Hu. rewrite booted_length, Z2Nat.id, Hfree in Hu by lia.
  discriminate Hu. split; [apply Z.div_le_lower_bound|apply Z.div_lt_upper_bound]; lia.
Qed.

(** The program needs 266 frames at most, and nothing is missing. *)
Lemma smoke_fits e : exec_refuses elf_sys SMOKE_ELF smoke_ehdr [lit "init"] e -> False.
Proof.
  pose proof booted_frames as Hf. assert (image_headers SMOKE_ELF smoke_ehdr = [phdr_at SMOKE_ELF 64]) as E by reflexivity.
  assert (exec_frames SMOKE_ELF smoke_ehdr = 266) as EN by reflexivity.
  destruct e; unfold exec_refuses; [intros []..| | | | |]; intros H.
  - vm_compute in H. discriminate H.
  - destruct H as (h & Hh & _ & Hl). rewrite E in Hh. apply list_elem_of_singleton in Hh as ->. vm_compute in Hl. discriminate Hl.
  - rewrite EN in H. change (pm_free (vm_pmm booted_vm) < 266) in H. lia.
  - apply H. reflexivity.
  - vm_compute in H. discriminate H.
Qed.


(** A program header that asks for the first page of the kernel. *)
Definition kernel_phdr : Elf64Phdr := mkPhdr PT_LOAD (Z.lor PF_X PF_W) 0 KERNEL_VA KERNEL_VA 2 2 4096.
Definition kernel_code : list Z := [0xEB; 0xFE].

Lemma kernel_page : walked user_vm user_p4 (nth 0 guard_tables 0) (nth 1 guard_tables 0) (nth 2 guard_tables 0) KERNEL_VA = true.
Proof. vm_compute. reflexivity. Qed.

Lemma kernel_page_window : Forall (fun t => t < vm_window user_vm) (user_p4 :: guard_tables).
Proof. apply (bool_decide_unpack _). vm_compute. reflexivity. Qed.

Lemma kernel_page_frame : pte_address (word (vm_mem user_vm) (nth 2 guard_tables 0) (p1_idx KERNEL_VA)) = 0x200000.
Proof. vm_compute. reflexivity. Qed.

Lemma user_window : 0x200000 < vm_window user_vm.
Proof. vm_compute. reflexivity. Qed.

#[local] Opaque user_vm user_p4.

Lemma kernel_query : query_page_in user_p4 KERNEL_VA user_vm = Ok (Some 0x200000, user_vm).
Proof.
  rewrite <- kernel_page_frame. pose proof kernel_page as Hk. pose proof kernel_page_window as Hw.
  destruct guard_walked as (t3 & t2 & t1 & Eg & _). rewrite Eg in *. exact (walked_query _ _ _ _ _ _ Hk Hw).
Qed.

