(* ===== verification/VfsCore.v ===== *)
(** * Mount routing and sealing (fs/vfs-core)

    The kernel's file-system calls go through this crate: paths are routed to
    the mounted backend with the longest matching prefix, backends live in a
    store of their own under ids that are never reused, and a guard keeps the
    realized entries of a store mount immutable.  The trait [FsBackend] is the
    class of the same name; nothing here depends on a particular backend.
    Paths are byte lists. *)

From S2P Require Import Prelude Paths.

#[local] Open Scope Z_scope.

(** ** Paths *)

Definition components (path : str) : option (list str) :=
  if starts_with_slash path then Some (comps_of path) else None.

Fixpoint is_prefix (prefix full : list str) : bool :=
  match prefix, full with
  | [], _ => true
  | _ :: _, [] => false
  | a :: p, b :: f => bool_decide (a = b) && is_prefix p f
  end.

(** ** backend.rs *)

Inductive FsError : Type :=
| FsNotFound | FsExists | FsNotDir | FsIsDir | FsNotEmpty | FsNoSpace | FsInvalid | FsReadOnly
| FsDevice.

#[export] Instance FsError_eq_dec : EqDecision FsError.
Proof. solve_decision. Defined.

Record InodeMeta : Type := mkMeta {
  m_ino : Z; m_size : Z; m_is_dir : bool; m_is_symlink : bool; m_mode : Z;
  m_uid : Z; m_gid : Z; m_nlink : Z; m_mtime : Z; m_ctime : Z
}.

Record DirEntry : Type := mkDirEntry { de_ino : Z; de_file_type : Z; de_name : str }.

(** Methods on [&mut self] return the new backend, also when they fail.
    [be_read_at] returns the bytes it put at the front of the buffer. *)
Class FsBackend (B : Type) : Type := {
  be_lookup : B -> str -> result Z FsError * B;
  be_stat : B -> str -> result InodeMeta FsError * B;
  be_readlink : B -> str -> result str FsError * B;
  be_symlink : B -> str -> str -> result Z FsError * B;
  be_read_at : B -> Z -> Z -> nat -> result (list Z) FsError * B;
  be_write_at : B -> Z -> Z -> list Z -> result unit FsError * B;
  be_create : B -> str -> result Z FsError * B;
  be_mkdir : B -> str -> result Z FsError * B;
  be_unlink : B -> str -> result unit FsError * B;
  be_rmdir : B -> str -> result unit FsError * B;
  be_rename : B -> str -> str -> result unit FsError * B;
  be_readdir : B -> str -> result (list DirEntry) FsError * B;
  be_pin : B -> Z -> result unit FsError * B;
  be_unpin : B -> Z -> result unit FsError * B;
  be_commit : B -> result unit FsError * B;
  be_has_staged_changes : B -> bool;
  be_generation : B -> Z
}.

(** ** mount.rs *)

Inductive MountError : Type :=
| MInvalid | MAlreadyMounted | MNoSuchPath | MNotDir | MNotMounted | MBackend (e : FsError).

Record BackendStore (B : Type) : Type := mkStore {
  bs_backends : gmap Z B;
  bs_next_id : Z
}.
Arguments mkStore {B}.
Arguments bs_backends {B}.
Arguments bs_next_id {B}.

Definition BackendStore_new {B} : BackendStore B := mkStore ∅ 0.

Definition BackendStore_insert {B} (s : BackendStore B) (b : B) : Z * BackendStore B :=
  let id := bs_next_id s in
  (id, mkStore (<[id := b]> (bs_backends s)) (wrap 64 (bs_next_id s + 1))).

Definition BackendStore_get {B} (s : BackendStore B) (id : Z) : option B := bs_backends s !! id.

(** The store after an operation on [id] through [get]'s reference. *)
Definition BackendStore_put {B} (s : BackendStore B) (id : Z) (b : B) : BackendStore B :=
  mkStore (<[id := b]> (bs_backends s)) (bs_next_id s).

Definition BackendStore_remove {B} (s : BackendStore B) (id : Z) : option B * BackendStore B :=
  (bs_backends s !! id, mkStore (delete id (bs_backends s)) (bs_next_id s)).

Definition BackendStore_contains {B} (s : BackendStore B) (id : Z) : bool :=
  bool_decide (is_Some (bs_backends s !! id)).

Record Mount : Type := mkMount { mt_at : list str; mt_backend : Z }.

#[export] Instance Mount_eq_dec : EqDecision Mount.
Proof. solve_decision. Defined.

Abbreviation MountTable := (list Mount).

Fixpoint covering_loop (t ms : MountTable) (comps : list str) (i : nat) (best : option nat)
  : option nat :=
  match ms with
  | [] => best
  | m :: ms' =>
      let best' :=
        if is_prefix (mt_at m) comps then
          let better := match best with
                        | None => true
                        | Some b => (length (default [] (mt_at <$> t !! b)) <? length (mt_at m))%nat
                        end in
          if better then Some i else best
        else best in
      covering_loop t ms' comps (S i) best'
  end.

Definition covering_index (t : MountTable) (comps : list str) : option nat :=
  covering_loop t t comps 0 None.

(** [&self.mounts[idx]] for that index; it is always in range. *)
Definition covering (t : MountTable) (comps : list str) : option Mount :=
  covering_index t comps ≫= fun i => t !! i.

Definition MountTable_resolve (t : MountTable) (path : str) : result (Z * str) MountError :=
  match components path with
  | None => Err MInvalid
  | Some comps =>
      match covering t comps with
      | None => Err MNotMounted
      | Some m => Ok (mt_backend m, rel_path (drop (length (mt_at m)) comps))
      end
  end.

Definition MountTable_routes_to (t : MountTable) (id : Z) : bool :=
  existsb (fun m => mt_backend m =? id) t.

Definition mounted_at (t : MountTable) (at_ : list str) : bool :=
  existsb (fun m => bool_decide (mt_at m = at_)) t.

Definition MountTable_is_mounted_at (t : MountTable) (at_ : str) : bool :=
  match components at_ with Some comps => mounted_at t comps | None => false end.

Definition MountTable_unmount (t : MountTable) (at_ : str) : result (Z * MountTable) MountError :=
  match components at_ with
  | None => Err MInvalid
  | Some comps =>
      match position (fun m => bool_decide (mt_at m = comps)) t with
      | None => Err MNotMounted
      | Some pos =>
          match t !! pos with
          | None => Err MNotMounted
          | Some m => Ok (mt_backend m, delete pos t)
          end
      end
  end.

(** ** namespace.rs *)

Record Namespace : Type := mkNs { ns_table : MountTable; ns_refcount : Z }.

Record Namespaces : Type := mkNamespaces { nss_map : gmap Z Namespace; nss_next_id : Z }.

Definition ROOT_NS : Z := 0.

Definition Namespaces_new : Namespaces := mkNamespaces {[ ROOT_NS := mkNs [] 1 ]} (ROOT_NS + 1).

Definition Namespaces_resolve (n : Namespaces) (ns : Z) (path : str)
  : result (Z * str) MountError :=
  match nss_map n !! ns with
  | None => Err MNotMounted
  | Some x => MountTable_resolve (ns_table x) path
  end.

Definition set_table (n : Namespaces) (ns : Z) (t : MountTable) : Namespaces :=
  mkNamespaces (alter (fun x => mkNs t (ns_refcount x)) ns (nss_map n)) (nss_next_id n).

Definition Namespaces_unmount (n : Namespaces) (ns : Z) (at_ : str)
  : result Z MountError * Namespaces :=
  match nss_map n !! ns with
  | None => (Err MNotMounted, n)
  | Some x =>
      match MountTable_unmount (ns_table x) at_ with
      | Ok (id, t') => (Ok id, set_table n ns t')
      | Err e => (Err e, n)
      end
  end.

Definition Namespaces_is_mounted_at (n : Namespaces) (ns : Z) (at_ : str) : bool :=
  match nss_map n !! ns with
  | Some x => MountTable_is_mounted_at (ns_table x) at_
  | None => false
  end.

Definition Namespaces_any_routes_to (n : Namespaces) (id : Z) : bool :=
  existsb (fun kx : Z * Namespace => MountTable_routes_to (ns_table kx.2) id)
          (map_to_list (nss_map n)).

Section mounting.
Context {B : Type} `{FsBackend B}.

(** The new table is the old one unless the answer is [Ok]; the covering
    backend's [stat] runs either way. *)
Definition MountTable_mount (t : MountTable) (at_ : str) (backend : B) (store : BackendStore B)
  : result Z MountError * MountTable * BackendStore B :=
  match components at_ with
  | None => (Err MInvalid, t, store)
  | Some owned =>
      if mounted_at t owned then (Err MAlreadyMounted, t, store)
      else
        let '(checked, store) :=
          match owned with
          | [] => (Ok tt, store)
          | _ =>
              match covering t owned with
              | None => (Err MNoSuchPath, store)
              | Some cover =>
                  let cover_id := mt_backend cover in
                  let rel := rel_path (drop (length (mt_at cover)) owned) in
                  match BackendStore_get store cover_id with
                  | None => (Err MNoSuchPath, store)
                  | Some cover_be =>
                      let '(r, cover_be') := be_stat cover_be rel in
                      let store' := BackendStore_put store cover_id cover_be' in
                      match r with
                      | Ok meta => if m_is_dir meta then (Ok tt, store') else (Err MNotDir, store')
                      | Err FsNotFound | Err FsNotDir => (Err MNoSuchPath, store')
                      | Err e => (Err (MBackend e), store')
                      end
                  end
              end
          end in
        match checked with
        | Err e => (Err e, t, store)
        | Ok _ =>
            let '(id, store) := BackendStore_insert store backend in
            (Ok id, t ++ [mkMount owned id], store)
        end
  end.

Definition Namespaces_mount (n : Namespaces) (ns : Z) (at_ : str) (backend : B)
    (store : BackendStore B) : result Z MountError * Namespaces * BackendStore B :=
  match nss_map n !! ns with
  | None => (Err MNotMounted, n, store)
  | Some x =>
      let '(r, t', store') := MountTable_mount (ns_table x) at_ backend store in
      (r, set_table n ns t', store')
  end.

End mounting.

(** ** realize.rs *)

Abbreviation RealizeGuard := (gset str).

Inductive RenameOutcome : Type :=
| Proceed (store_name : str)
| NoOp.

Definition top_component (rel : str) : option str := List.find nonempty (split_on SLASH rel).

Definition is_nested (rel : str) : bool := (1 <? length (comps_of rel))%nat.

Definition RealizeGuard_new : RealizeGuard := ∅.
Definition is_sealed_name (g : RealizeGuard) (name : str) : bool := bool_decide (name ∈ g).

Definition is_sealed_path (g : RealizeGuard) (rel : str) : bool :=
  match top_component rel with Some c => is_sealed_name g c | None => false end.

Definition sealed_count (g : RealizeGuard) : nat := size g.
Definition seal (g : RealizeGuard) (name : str) : RealizeGuard := {[ name ]} ∪ g.
Definition forget (g : RealizeGuard) (name : str) : RealizeGuard := g ∖ {[ name ]}.

Definition check_mutate (g : RealizeGuard) (rel : str) : result unit FsError :=
  if is_sealed_path g rel then Err FsReadOnly else Ok tt.

Definition check_rename (g : RealizeGuard) (src_rel dst_rel : str) : result RenameOutcome FsError :=
  if is_sealed_path g src_rel then Err FsReadOnly
  else
    match top_component dst_rel with
    | None => Err FsInvalid
    | Some dst_name =>
        if is_sealed_name g dst_name then
          if is_nested dst_rel then Err FsReadOnly else Ok NoOp
        else Ok (Proceed dst_name)
    end.

(** ** Lemmas on paths *)

Lemma top_component_head rel : top_component rel = head (comps_of rel).
Proof.
  unfold top_component, comps_of. induction (split_on SLASH rel) as [|c l IH]; [done|].
  cbn. by destruct (nonempty c).
Qed.

Lemma components_Some path comps :
  components path = Some comps <-> starts_with_slash path = true /\ comps = comps_of path.
Proof. unfold components. destruct (starts_with_slash path); naive_solver. Qed.

(** ** Routing *)

Lemma is_prefix_spec p f : is_prefix p f = true <-> p `prefix_of` f.
Proof.
  revert f. induction p as [|a p IH]; intros f; cbn.
  - split; [intros _; apply prefix_nil|done].
  - destruct f as [|b f].
    + split; [done|]. intros H. by apply prefix_nil_not in H.
    + rewrite andb_true_iff, bool_decide_eq_true, IH. split.
      * intros [-> H]. by apply prefix_cons.
      * intros H. split; [by eapply prefix_cons_inv_1|by eapply prefix_cons_inv_2].
Qed.

(** [m], at index [i], is the first longest match among the first [n] mounts. *)
Definition best_of (t : MountTable) (comps : list str) (n : nat) (best : option nat) : Prop :=
  match best with
  | None => forall j m, (j < n)%nat -> t !! j = Some m -> ~ mt_at m `prefix_of` comps
  | Some i => exists m, (i < n)%nat /\ t !! i = Some m /\ mt_at m `prefix_of` comps /\
      forall j m', (j < n)%nat -> t !! j = Some m' -> mt_at m' `prefix_of` comps ->
        (length (mt_at m') <= length (mt_at m))%nat
  end.

Lemma best_of_step t comps n best m :
  t !! n = Some m -> best_of t comps n best ->
  best_of t comps (S n)
    (if is_prefix (mt_at m) comps then
       if match best with
          | None => true
          | Some b => (length (default [] (mt_at <$> t !! b)) <? length (mt_at m))%nat
          end then Some n else best
     else best).
Proof.
  intros Hm Hb. unfold best_of in *. destruct (is_prefix (mt_at m) comps) eqn:Hp.
  - apply is_prefix_spec in Hp. destruct best as [b|].
    + destruct Hb as (mb & Hlt & Hlb & Hpb & Hmax). rewrite Hlb. cbn [fmap option_fmap option_map default from_option id].
      destruct (length (mt_at mb) <? length (mt_at m))%nat eqn:Hlen.
      * apply Nat.ltb_lt in Hlen. exists m.
        split_and!; [lia|done|done|]. intros j m' Hj Hl Hp'.
        destruct (decide (j = n)) as [-> |]; [by simplify_eq|].
        assert (length (mt_at m') <= length (mt_at mb))%nat by (apply (Hmax j); [lia|done|done]). lia.
      * apply Nat.ltb_ge in Hlen. exists mb.
        split_and!; [lia|done|done|]. intros j m' Hj Hl Hp'.
        destruct (decide (j = n)) as [-> |]; [by simplify_eq|]. apply (Hmax j); [lia|done|done].
    + exists m. split_and!; [lia|done|done|]. intros j m' Hj Hl Hp'.
      destruct (decide (j = n)) as [-> |]; [by simplify_eq|].
      exfalso. eapply (Hb j m'); [lia|done|done].
  - assert (Hnp : ~ mt_at m `prefix_of` comps) by (rewrite <- is_prefix_spec; congruence).
    destruct best as [b|].
    + destruct Hb as (mb & Hlt & Hlb & Hpb & Hmax). exists mb. split_and!; [lia|done|done|].
      intros j m' Hj Hl Hp'. destruct (decide (j = n)) as [-> |]; [by simplify_eq|].
      apply (Hmax j); [lia|done|done].
    + intros j m' Hj Hl. destruct (decide (j = n)) as [-> |]; [by simplify_eq|].
      apply (Hb j); [lia|done].
Qed.

Lemma covering_loop_best t comps : forall ms i best,
  drop i t = ms -> best_of t comps i best -> (i <= length t)%nat ->
  best_of t comps (length t) (covering_loop t ms comps i best).
Proof.
  induction ms as [|m ms IH]; intros i best Hd Hb Hi; cbn [covering_loop].
  - assert (length (drop i t) = 0)%nat as Hl by (by rewrite Hd). rewrite length_drop in Hl.
    by replace (length t) with i by lia.
  - assert (Hm : t !! i = Some m).
    { replace i with (i + 0)%nat by lia. by rewrite <- lookup_drop, Hd. }
    apply IH.
    + replace (S i) with (i + 1)%nat by lia. by rewrite <- drop_drop, Hd.
    + by apply best_of_step.
    + apply lookup_lt_Some in Hm. lia.
Qed.

Lemma covering_index_best t comps : best_of t comps (length t) (covering_index t comps).
Proof. apply covering_loop_best; [by rewrite drop_0| |lia]. intros j m Hj. lia. Qed.

(** The covering mount is the one with the longest prefix, if any covers. *)
Lemma covering_spec t comps :
  match covering t comps with
  | Some m => m ∈ t /\ mt_at m `prefix_of` comps /\
      forall m', m' ∈ t -> mt_at m' `prefix_of` comps ->
        (length (mt_at m') <= length (mt_at m))%nat
  | None => forall m, m ∈ t -> ~ mt_at m `prefix_of` comps
  end.
Proof.
  pose proof (covering_index_best t comps) as Hb. unfold covering, best_of in *.
  destruct (covering_index t comps) as [i|]; cbn.
  - destruct Hb as (m & Hi & Hm & Hp & Hmax). rewrite Hm. cbn. split_and!.
    + by eapply list_elem_of_lookup_2.
    + done.
    + intros m' [j Hj]%list_elem_of_lookup Hp'. apply (Hmax j); [by eapply lookup_lt_Some|done|done].
  - intros m [j Hj]%list_elem_of_lookup. apply (Hb j); [by eapply lookup_lt_Some|done].
Qed.

(** Two prefixes of the same length of one list are equal. *)
Lemma prefix_same_length {A} (p q l : list A) :
  p `prefix_of` l -> q `prefix_of` l -> length p = length q -> p = q.
Proof.
  intros [k ->] [k' Hk] Hlen. by apply app_inj_1 in Hk as [-> _].
Qed.

(** With distinct mount points, [covering] is determined by its specification. *)
Lemma covering_unique t comps m :
  NoDup (mt_at <$> t) -> m ∈ t -> mt_at m `prefix_of` comps ->
  (forall m', m' ∈ t -> mt_at m' `prefix_of` comps ->
     (length (mt_at m') <= length (mt_at m))%nat) ->
  covering t comps = Some m.
Proof.
  intros Hnd Hm Hp Hmax. pose proof (covering_spec t comps) as Hc.
  destruct (covering t comps) as [c|]; [|by destruct (Hc m)].
  destruct Hc as (Hin & Hpc & Hmaxc). f_equal.
  assert (Hat : mt_at c = mt_at m).
  { apply (prefix_same_length _ _ comps); [done..|].
    pose proof (Hmax c Hin Hpc). pose proof (Hmaxc m Hm Hp). lia. }
  apply list_elem_of_lookup in Hin as [i Hi], Hm as [j Hj].
  assert (i = j) as ->; [|congruence].
  apply (NoDup_lookup _ _ _ (mt_at m) Hnd); rewrite list_lookup_fmap.
  - by rewrite Hi, <- Hat.
  - by rewrite Hj.
Qed.

Lemma mounted_at_spec t c : mounted_at t c = true <-> c ∈ (mt_at <$> t).
Proof.
  unfold mounted_at. rewrite existsb_exists, list_elem_of_fmap. split.
  - intros (m & Hm & He%bool_decide_eq_true). exists m. by rewrite list_elem_of_In.
  - intros (m & -> & Hm%list_elem_of_In). exists m. by rewrite bool_decide_eq_true.
Qed.

Lemma resolve_Ok t path id rel :
  MountTable_resolve t path = Ok (id, rel) <->
  starts_with_slash path = true /\
  exists m, covering t (comps_of path) = Some m /\ mt_backend m = id /\
    rel = rel_path (drop (length (mt_at m)) (comps_of path)).
Proof.
  unfold MountTable_resolve, components. destruct (starts_with_slash path).
  - destruct (covering t (comps_of path)) as [m|]; naive_solver.
  - naive_solver.
Qed.

Lemma covering_comps t comps m :
  covering t comps = Some m -> Forall good_comp comps ->
  comps = mt_at m ++ comps_of (rel_path (drop (length (mt_at m)) comps)).
Proof.
  intros Hc Hg. pose proof (covering_spec t comps) as Hs. rewrite Hc in Hs.
  destruct Hs as (_ & [k ->] & _). rewrite drop_app_length, comps_of_rel_path; [done|].
  by apply Forall_app in Hg as [_ ?].
Qed.

(** C19. Routing is by longest component prefix.  With distinct mount points, a
    successful resolution names the backend of the mount whose point, followed
    by the components of the returned backend-relative path, is exactly the
    requested path, and every other mount covering that path has a strictly
    shorter point; [NotMounted] means that no mount covers the path and
    [Invalid] that it is not absolute. *)
Theorem resolve_longest_prefix t path :
  NoDup (mt_at <$> t) ->
  match MountTable_resolve t path with
  | Ok (id, rel) =>
      starts_with_slash path = true /\ starts_with_slash rel = true /\
      exists m, m ∈ t /\ mt_backend m = id /\ comps_of path = mt_at m ++ comps_of rel /\
        forall m', m' ∈ t -> mt_at m' `prefix_of` comps_of path ->
          m' = m \/ (length (mt_at m') < length (mt_at m))%nat
  | Err MNotMounted =>
      starts_with_slash path = true /\
      forall m, m ∈ t -> ~ mt_at m `prefix_of` comps_of path
  | Err MInvalid => starts_with_slash path = false
  | Err _ => False
  end.
Proof.
  intros Hnd. unfold MountTable_resolve, components.
  destruct (starts_with_slash path); [|done].
  pose proof (covering_spec t (comps_of path)) as Hc.
  destruct (covering t (comps_of path)) as [m|] eqn:Hcov; [|done].
  destruct Hc as (Hin & Hp & Hmax). split_and!; [done|apply rel_path_absolute|].
  exists m. split_and!; [done|done|by eapply covering_comps, comps_of_good|].
  intros m' Hin' Hp'. pose proof (Hmax m' Hin' Hp') as Hle.
  destruct (decide (length (mt_at m') = length (mt_at m))) as [He|]; [left|right; lia].
  assert (covering t (comps_of path) = Some m') as Hc'; [|congruence].
  apply covering_unique; [done..|]. intros m'' Hin'' Hp''. rewrite He. by apply Hmax.
Qed.

Definition demo_table : MountTable :=
  [mkMount [] 0; mkMount [[115]; [116]] 1; mkMount [[115]] 2].

Lemma resolve_longest_prefix_witness :
  exists m, m ∈ demo_table /\ mt_backend m = 1 /\
    comps_of [47; 115; 47; 116; 47; 47; 97] = mt_at m ++ comps_of [47; 97].
Proof.
  assert (Hnd : NoDup (mt_at <$> demo_table)) by (apply (bool_decide_unpack _); vm_compute; exact I).
  pose proof (resolve_longest_prefix demo_table [47; 115; 47; 116; 47; 47; 97] Hnd) as H.
  assert (MountTable_resolve demo_table [47; 115; 47; 116; 47; 47; 97] = Ok (1, [47; 97])) as Hr
    by (vm_compute; reflexivity).
  rewrite Hr in H. destruct H as (_ & _ & m & H1 & H2 & H3 & _). exists m. auto.
Defined.

(** ** Mounting and unmounting *)

(** Adding a route at the end: it wins exactly where it covers and no other
    route is longer. *)
Lemma covering_snoc t m comps :
  NoDup (mt_at <$> (t ++ [m])) ->
  covering (t ++ [m]) comps =
    if is_prefix (mt_at m) comps then
      match covering t comps with
      | Some c => if (length (mt_at c) <? length (mt_at m))%nat then Some m else Some c
      | None => Some m
      end
    else covering t comps.
Proof.
  intros Hnd. pose proof (covering_spec t comps) as Hc.
  assert (Hin : forall m', m' ∈ t ++ [m] <-> m' ∈ t \/ m' = m)
    by (intros; rewrite elem_of_app, list_elem_of_singleton; done).
  destruct (is_prefix (mt_at m) comps) eqn:Hp.
  - apply is_prefix_spec in Hp. destruct (covering t comps) as [c|].
    + destruct Hc as (Hic & Hpc & Hmax). destruct (Nat.ltb_spec (length (mt_at c)) (length (mt_at m))).
      all: apply covering_unique; [done|apply Hin; auto|done|].
      all: intros m' [Hm'| ->]%Hin Hp'; [|lia]; specialize (Hmax m' Hm' Hp'); lia.
    + apply covering_unique; [done|apply Hin; auto|done|].
      intros m' [Hm'| ->]%Hin Hp'; [|lia]. by destruct (Hc m').
  - assert (Hnp : ~ mt_at m `prefix_of` comps) by (rewrite <- is_prefix_spec; congruence).
    destruct (covering t comps) as [c|].
    + destruct Hc as (Hic & Hpc & Hmax). apply covering_unique; [done|apply Hin; auto|done|].
      intros m' [Hm'| ->]%Hin Hp'; [by apply Hmax|done].
    + pose proof (covering_spec (t ++ [m]) comps) as Hc'.
      destruct (covering (t ++ [m]) comps) as [c|]; [|done].
      destruct Hc' as ([Hic| ->]%Hin & Hpc & _); [by destruct (Hc c)|done].
Qed.

Lemma unmount_snoc t m at_ :
  NoDup (mt_at <$> (t ++ [m])) -> starts_with_slash at_ = true -> comps_of at_ = mt_at m ->
  MountTable_unmount (t ++ [m]) at_ = Ok (mt_backend m, t).
Proof.
  intros Hnd Ha Hc. unfold MountTable_unmount, components. rewrite Ha, Hc.
  assert (position (fun x => bool_decide (mt_at x = mt_at m)) (t ++ [m]) = Some (length t)) as ->.
  { apply position_Some. exists m. split_and!.
    - by apply list_lookup_middle.
    - by apply bool_decide_eq_true.
    - intros j y Hj Hy. apply bool_decide_eq_false. intros He.
      assert (j = length t); [|lia].
      apply (NoDup_lookup _ _ _ (mt_at m) Hnd); rewrite list_lookup_fmap.
      + by rewrite Hy, <- He.
      + by rewrite list_lookup_middle. }
  rewrite list_lookup_middle by done. by rewrite delete_middle, app_nil_r.
Qed.

Section mounting_lemmas.
Context {B : Type} `{FsBackend B}.

(** What a successful [mount] did. *)
Lemma MountTable_mount_Ok t at_ backend store id t' store' :
  MountTable_mount t at_ backend store = (Ok id, t', store') ->
  exists store1,
    starts_with_slash at_ = true /\ (comps_of at_ ∉ (mt_at <$> t)) /\
    t' = t ++ [mkMount (comps_of at_) id] /\ (id, store') = BackendStore_insert store1 backend /\
    bs_next_id store1 = bs_next_id store /\
    dom (bs_backends store1) = dom (bs_backends store).
Proof.
  unfold MountTable_mount, components. destruct (starts_with_slash at_); [|done].
  destruct (mounted_at t (comps_of at_)) eqn:Hm; [done|].
  assert (comps_of at_ ∉ (mt_at <$> t)) by (rewrite <- mounted_at_spec; congruence).
  destruct (comps_of at_) as [|c cs] eqn:Hcs.
  { cbn. intros [= <- <- <-]. by exists store. }
  destruct (covering t (c :: cs)) as [cv|]; [|done].
  destruct (BackendStore_get store (mt_backend cv)) as [be|] eqn:Hg; [|done].
  destruct (be_stat be _) as [[meta|[]] be']; try done.
  destruct (m_is_dir meta); [|done]. cbn. intros [= <- <- <-].
  exists (BackendStore_put store (mt_backend cv) be'). split_and!; try done.
  unfold BackendStore_get in Hg. cbn. apply elem_of_dom_2 in Hg. set_solver.
Qed.

(** A failed [mount] changes no route and frees no backend. *)
Lemma MountTable_mount_Err t at_ backend store e t' store' :
  MountTable_mount t at_ backend store = (Err e, t', store') ->
  t' = t /\ bs_next_id store' = bs_next_id store /\
  dom (bs_backends store') = dom (bs_backends store).
Proof.
  unfold MountTable_mount, components. destruct (starts_with_slash at_); [|naive_solver].
  destruct (mounted_at t (comps_of at_)) eqn:Hm; [naive_solver|].
  destruct (comps_of at_) as [|c cs] eqn:Hcs; [done|].
  destruct (covering t (c :: cs)) as [cv|]; [|naive_solver].
  destruct (BackendStore_get store (mt_backend cv)) as [be|] eqn:Hg; [|naive_solver].
  assert (Hd : forall be', dom (bs_backends (BackendStore_put store (mt_backend cv) be')) =
      dom (bs_backends store)).
  { intros be'. unfold BackendStore_get in Hg. cbn. apply elem_of_dom_2 in Hg. set_solver. }
  destruct (be_stat be _) as [[meta|[]] be']; [destruct (m_is_dir meta)|..]; cbn;
    intros [= <- <- <-]; split_and!; try done; apply Hd.
Qed.

(** Mounting changes routing below the mount point and nowhere else: after
    a successful [mount] at [at_], a path goes to the new backend when [at_]
    covers it and no longer mount point does, and is routed as before
    otherwise; [unmount] at the same path then answers the new id and restores
    the table. *)
Theorem mount_shadows_exactly t at_ backend store id t' store' :
  NoDup (mt_at <$> t) ->
  MountTable_mount t at_ backend store = (Ok id, t', store') ->
  (forall path, starts_with_slash path = true ->
     MountTable_resolve t' path =
       if is_prefix (comps_of at_) (comps_of path) &&
          match covering t (comps_of path) with
          | Some c => (length (mt_at c) <? length (comps_of at_))%nat
          | None => true
          end
       then Ok (id, rel_path (drop (length (comps_of at_)) (comps_of path)))
       else MountTable_resolve t path) /\
  MountTable_unmount t' at_ = Ok (id, t) /\
  BackendStore_get store' id = Some backend /\ NoDup (mt_at <$> t').
Proof.
  intros Hnd (store1 & Ha & Hfresh & -> & Hins & Hnext & Hdom)%MountTable_mount_Ok.
  injection Hins as -> ->.
  assert (Hnd' : NoDup (mt_at <$> (t ++ [mkMount (comps_of at_) (bs_next_id store1)]))).
  { rewrite fmap_app. apply NoDup_app. split_and!; [done| |apply NoDup_singleton].
    intros c Hc ->%list_elem_of_singleton. done. }
  split_and!; [|by apply unmount_snoc|apply lookup_insert_eq|done].
  intros path Hp. unfold MountTable_resolve, components. rewrite Hp, covering_snoc by done.
  cbn [mt_at mt_backend]. destruct (is_prefix (comps_of at_) (comps_of path)); cbn [andb]; [|done].
  destruct (covering t (comps_of path)) as [c|]; [|done].
  by destruct (length (mt_at c) <? length (comps_of at_))%nat.
Qed.

End mounting_lemmas.

(** ** Sealing *)

Lemma is_sealed_path_spec g rel :
  is_sealed_path g rel = true <-> exists c, head (comps_of rel) = Some c /\ c ∈ g.
Proof.
  unfold is_sealed_path, is_sealed_name. rewrite top_component_head.
  destruct (head (comps_of rel)) as [c|].
  - rewrite bool_decide_eq_true. naive_solver.
  - naive_solver.
Qed.
