(* ===== verification/Vfs.v ===== *)
(** * The kernel's VFS (kernel/src/vfs.rs)

    The open-file table, symbolic-link resolution over the mount table, the
    file operations behind the system calls, mounting, and the realize guard
    of store mounts.  Every operation is a computation [VM A] on the [Vfs]
    record that ends in a value or in the negative errno the source returns;
    the backends are any instance of [FsBackend].  Block devices, formatting,
    and the key derivation behind [mount] are fields of [Env]. *)

From S2P Require Import Prelude Paths VfsCore.

#[local] Open Scope Z_scope.

(** ** Error codes *)

Definition EINVAL : Z := -4.
Definition ENOENT : Z := -5.
Definition EBADF : Z := -6.
Definition ENOTDIR : Z := -8.
Definition ENOMNT : Z := -9.
Definition EMFILE : Z := -10.
Definition EEXIST : Z := -11.
Definition ENOSPC : Z := -12.
Definition EMOUNTED : Z := -13.
Definition EROFS : Z := -14.
Definition EISDIR : Z := -15.
Definition ENOTEMPTY : Z := -16.
Definition EIO : Z := -17.

Definition errno_fs (e : FsError) : Z :=
  match e with
  | FsNotFound => ENOENT
  | FsExists => EEXIST
  | FsNotDir => ENOTDIR
  | FsIsDir => EISDIR
  | FsNoSpace => ENOSPC
  | FsInvalid => EINVAL
  | FsNotEmpty => ENOTEMPTY
  | FsReadOnly => EROFS
  | FsDevice => EIO
  end.

Definition errno_mount (e : MountError) : Z :=
  match e with
  | MInvalid => EINVAL
  | MAlreadyMounted => EMOUNTED
  | MNoSuchPath => ENOENT
  | MNotDir => ENOTDIR
  | MNotMounted => ENOMNT
  | MBackend e => errno_fs e
  end.

(** ** Stat *)

Definition INODE_USED : Z := 1.
Definition INODE_DIR : Z := 2.
Definition INODE_SYMLINK : Z := 4.
Definition FT_REG : Z := 1.
Definition FT_DIR : Z := 2.
Definition FT_SYMLINK : Z := 3.

Record Stat : Type := mkStat {
  s_size : Z; s_flags : Z; s_mode : Z; s_uid : Z; s_gid : Z; s_nlink : Z; s_mtime : Z; s_ctime : Z
}.

Definition stat_from (m : InodeMeta) : Stat :=
  let flags := INODE_USED in
  let flags := if m_is_dir m then Z.lor flags INODE_DIR else flags in
  let flags := if m_is_symlink m then Z.lor flags INODE_SYMLINK else flags in
  mkStat (m_size m) flags (Z.land (m_mode m) 0xFFF) (m_uid m) (m_gid m) (m_nlink m)
         (m_mtime m / 1000000) (m_ctime m / 1000000).

(** ** State *)

Definition MAX_FDS : nat := 64.
Definition MAX_SYMLINK_HOPS : nat := 8.

Record OpenFile : Type := mkOpen {
  of_mount : Z; of_ino : Z; of_offset : Z; of_size : Z; of_writable : bool; of_top : option str
}.

Record Vfs (B : Type) : Type := mkVfs {
  v_backends : BackendStore B;
  v_namespaces : Namespaces;
  v_root_id : Z;
  v_fds : list (option OpenFile);
  v_guards : gmap Z RealizeGuard
}.
Arguments mkVfs {B}.
Arguments v_backends {B}.
Arguments v_namespaces {B}.
Arguments v_root_id {B}.
Arguments v_fds {B}.
Arguments v_guards {B}.

Definition current_ns : Z := ROOT_NS.

(** The value of an [i64] expression: two's complement at 64 bits. *)
Definition i64 (z : Z) : Z :=
  let w := wrap 64 z in if w <? 2 ^ 63 then w else w - 2 ^ 64.

(** ** Computations *)

Definition VM (B A : Type) : Type := Vfs B -> result A Z * Vfs B.

#[export] Instance VM_ret {B} : MRet (VM B) := fun _ a v => (Ok a, v).
#[export] Instance VM_bind {B} : MBind (VM B) := fun _ _ k m v =>
  match m v with
  | (Ok a, v') => k a v'
  | (Err e, v') => (Err e, v')
  end.

Definition throw {B A} (e : Z) : VM B A := fun v => (Err e, v).
Definition get_vfs {B} : VM B (Vfs B) := fun v => (Ok v, v).
Definition lift {B A} (r : result A Z) : VM B A := fun v => (r, v).

(** [let _ = m;]: the answer of [m] is dropped. *)
Definition ignore {B A} (m : VM B A) : VM B unit := fun v => let '(_, v') := m v in (Ok tt, v').

(** What a function of type [i64] returns. *)
Definition ret_i64 (r : result Z Z) : Z := match r with Ok n => n | Err e => e end.

Definition map_err {A E F} (f : E -> F) (r : result A E) : result A F :=
  match r with Ok a => Ok a | Err e => Err (f e) end.

Section vfs.
Context {B : Type} `{FsBackend B}.

Definition put_backend (v : Vfs B) (id : Z) (be : B) : Vfs B :=
  mkVfs (BackendStore_put (v_backends v) id be) (v_namespaces v) (v_root_id v) (v_fds v)
        (v_guards v).

Definition put_fd (slot : nat) (f : option OpenFile) : VM B unit := fun v =>
  (Ok tt, mkVfs (v_backends v) (v_namespaces v) (v_root_id v) (<[slot := f]> (v_fds v))
                (v_guards v)).

Definition put_guard (id : Z) (g : RealizeGuard) : VM B unit := fun v =>
  (Ok tt, mkVfs (v_backends v) (v_namespaces v) (v_root_id v) (v_fds v)
                (<[id := g]> (v_guards v))).

(** One method call on backend [id]; [missing] if it is gone. *)
Definition on_backend {A} (id missing : Z) (call : B -> result A FsError * B) : VM B A := fun v =>
  match BackendStore_get (v_backends v) id with
  | None => (Err missing, v)
  | Some be => let '(r, be') := call be in (map_err errno_fs r, put_backend v id be')
  end.

Definition route (ns : Z) (path : str) : VM B (Z * str) := fun v =>
  (map_err errno_mount (Namespaces_resolve (v_namespaces v) ns path), v).

(** [v.guards.get(&mount)], then [check] on it. *)
Definition guarded (id : Z) (check : RealizeGuard -> result unit FsError) : VM B unit := fun v =>
  match v_guards v !! id with
  | Some g => (map_err errno_fs (check g), v)
  | None => (Ok tt, v)
  end.

(** ** Path resolution *)

(** The loop over the components: [resolved] is canonical so far, [follow]
    restarts on the path a symbolic link leads to. *)
Fixpoint walk (follow : str -> VM B str) (ns : Z) (comps : list str) (resolved : str) : VM B str :=
  match comps with
  | [] => mret (if nonempty resolved then resolved else [SLASH])
  | comp :: rest =>
      let cand := resolved ++ SLASH :: comp in
      '(bid, rel) ← route ns cand;
      meta ← on_backend bid ENOMNT (fun be => be_stat be rel);
      if m_is_symlink meta then
        target ← on_backend bid ENOMNT (fun be => be_readlink be rel);
        let next := if starts_with_slash target then target else resolved ++ SLASH :: target in
        follow (next ++ concat (map (cons SLASH) rest))
      else walk follow ns rest cand
  end.

(** [left] is [MAX_SYMLINK_HOPS + 1 - hops]: at [hops > MAX_SYMLINK_HOPS] it is 0. *)
Fixpoint resolve_hops (left : nat) (ns : Z) (path : str) : VM B str :=
  match left with
  | O => throw EINVAL
  | S left' => walk (resolve_hops left' ns) ns (comps_of path) []
  end.

Definition resolve (ns : Z) (path : str) : VM B str := resolve_hops (S MAX_SYMLINK_HOPS) ns path.

Definition resolve_parent (ns : Z) (path : str) : VM B str :=
  if negb (starts_with_slash path) || ends_with_slash path then throw EINVAL
  else
    match rsplit_slash path with
    | None => throw EINVAL
    | Some (parent, name) =>
        if negb (nonempty name) then throw EINVAL
        else
          base ← resolve ns (if nonempty parent then parent else [SLASH]);
          let base := if ends_with_slash base then base else base ++ [SLASH] in
          mret (base ++ name)
    end.

Definition path_str (path : list Z) : VM B str :=
  if utf8_valid path then mret path else throw EINVAL.

(** ** File descriptors *)

(** [v.fds.get(fd as usize)] *)
Definition get_fd (fd : Z) : VM B OpenFile := fun v =>
  match v_fds v !! Z.to_nat fd with
  | Some (Some f) => (Ok f, v)
  | _ => (Err EBADF, v)
  end.

Definition is_free (f : option OpenFile) : bool := match f with None => true | Some _ => false end.

Definition free_slot : VM B (option nat) := fun v => (Ok (position is_free (v_fds v)), v).

Definition open (path : list Z) : VM B Z :=
  p ← path_str path;
  resolved ← resolve current_ns p;
  '(mount, rel) ← route current_ns resolved;
  meta ← on_backend mount ENOMNT (fun be => be_stat be rel);
  if m_is_dir meta then throw EISDIR
  else
    _ ← on_backend mount ENOMNT (fun be => be_pin be (m_ino meta));
    slot ← free_slot;
    match slot with
    | None =>
        _ ← ignore (on_backend mount ENOMNT (fun be => be_unpin be (m_ino meta)));
        throw EMFILE
    | Some slot =>
        _ ← put_fd slot (Some (mkOpen mount (m_ino meta) 0 (m_size meta) false (top_component rel)));
        mret (Z.of_nat slot)
    end.

Definition read (fd : Z) (buf_len : nat) : VM B (list Z) :=
  f ← get_fd fd;
  bytes ← on_backend (of_mount f) EBADF (fun be => be_read_at be (of_ino f) (of_offset f) buf_len);
  _ ← put_fd (Z.to_nat fd)
        (Some (mkOpen (of_mount f) (of_ino f) (wrap 64 (of_offset f + Z.of_nat (length bytes)))
                      (of_size f) (of_writable f) (of_top f)));
  mret bytes.

(** The stale-descriptor check of [write]. *)
Definition fd_sealed (f : OpenFile) (g : RealizeGuard) : result unit FsError :=
  match of_top f with
  | Some t => if is_sealed_name g t then Err FsReadOnly else Ok tt
  | None => Ok tt
  end.

Definition write (fd : Z) (buf : list Z) : VM B Z :=
  f ← get_fd fd;
  if negb (of_writable f) then throw EBADF
  else
    _ ← guarded (of_mount f) (fd_sealed f);
    if negb (nonempty buf) then mret 0
    else
      _ ← on_backend (of_mount f) EBADF (fun be => be_write_at be (of_ino f) (of_size f) buf);
      _ ← on_backend (of_mount f) EBADF be_commit;
      let size := wrap 64 (of_size f + Z.of_nat (length buf)) in
      _ ← put_fd (Z.to_nat fd)
            (Some (mkOpen (of_mount f) (of_ino f) size size (of_writable f) (of_top f)));
      mret (Z.of_nat (length buf)).

Definition staged_on (id : Z) : VM B bool := fun v =>
  (Ok (match BackendStore_get (v_backends v) id with
       | Some be => be_has_staged_changes be
       | None => false
       end), v).

Definition close (fd : Z) : VM B Z :=
  f ← get_fd fd;
  _ ← put_fd (Z.to_nat fd) None;
  v ← get_vfs;
  if negb (BackendStore_contains (v_backends v) (of_mount f)) then mret 0
  else
    _ ← ignore (on_backend (of_mount f) ENOMNT (fun be => be_unpin be (of_ino f)));
    staged ← staged_on (of_mount f);
    if staged : bool then
      _ ← on_backend (of_mount f) ENOMNT be_commit;
      mret 0
    else mret 0.

Definition seek (fd offset whence : Z) : VM B Z :=
  f ← get_fd fd;
  new_offset ← (if whence =? 0 then mret offset
                else if whence =? 1 then mret (i64 (i64 (of_offset f) + offset))
                else if whence =? 2 then mret (i64 (i64 (of_size f) + offset))
                else throw EINVAL);
  if new_offset <? 0 then throw EINVAL
  else
    _ ← put_fd (Z.to_nat fd)
          (Some (mkOpen (of_mount f) (of_ino f) new_offset (of_size f) (of_writable f) (of_top f)));
    mret new_offset.

(** ** Operations on paths *)

Definition create (path : list Z) : VM B Z :=
  p ← path_str path;
  target ← resolve_parent current_ns p;
  '(mount, rel) ← route current_ns target;
  _ ← guarded mount (fun g => check_mutate g rel);
  ino ← on_backend mount ENOMNT (fun be => be_create be rel);
  _ ← on_backend mount ENOMNT (fun be => be_pin be ino);
  _ ← on_backend mount ENOMNT be_commit;
  slot ← free_slot;
  match slot with
  | None =>
      _ ← ignore (on_backend mount ENOMNT (fun be => be_unpin be ino));
      _ ← ignore (on_backend mount ENOMNT be_commit);
      throw EMFILE
  | Some slot =>
      _ ← put_fd slot (Some (mkOpen mount ino 0 0 true (top_component rel)));
      mret (Z.of_nat slot)
  end.

Definition mkdir (path : list Z) : VM B Z :=
  p ← path_str path;
  target ← resolve_parent current_ns p;
  '(mount, rel) ← route current_ns target;
  if bool_decide (rel = [SLASH]) then throw EEXIST
  else
    _ ← guarded mount (fun g => check_mutate g rel);
    _ ← on_backend mount ENOMNT (fun be => be_mkdir be rel);
    _ ← on_backend mount ENOMNT be_commit;
    mret 0.

Definition unlink (path : list Z) : VM B Z :=
  p ← path_str path;
  target ← resolve_parent current_ns p;
  '(mount, rel) ← route current_ns target;
  _ ← guarded mount (fun g => check_mutate g rel);
  _ ← on_backend mount ENOMNT (fun be => be_unlink be rel);
  _ ← on_backend mount ENOMNT be_commit;
  mret 0.

Definition symlink (target link_path : list Z) : VM B Z :=
  if negb (utf8_valid target && utf8_valid link_path) then throw EINVAL
  else if negb (nonempty target) then throw EINVAL
  else
    link_r ← resolve_parent current_ns link_path;
    '(mount, rel) ← route current_ns link_r;
    _ ← guarded mount (fun g => check_mutate g rel);
    _ ← on_backend mount ENOMNT (fun be => be_symlink be target rel);
    _ ← on_backend mount ENOMNT be_commit;
    mret 0.

(** The target, of which the caller's buffer gets the first bytes. *)
Definition readlink (path : list Z) : VM B str :=
  p ← path_str path;
  target ← resolve_parent current_ns p;
  '(mount, rel) ← route current_ns target;
  on_backend mount ENOMNT (fun be => be_readlink be rel).

(** The guard's verdict on a rename: the name to seal afterwards, if any. *)
Definition rename_guard (id : Z) (old_rel new_rel : str)
  : VM B (result (option str) unit) := fun v =>
  match v_guards v !! id with
  | None => (Ok (Ok None), v)
  | Some g =>
      match check_rename g old_rel new_rel with
      | Err e => (Err (errno_fs e), v)
      | Ok NoOp => (Ok (Err tt), v)
      | Ok (Proceed store_name) => (Ok (Ok (Some store_name)), v)
      end
  end.

Definition retarget_fd (id : Z) (old_top : option str) (name : str) (f : OpenFile) : OpenFile :=
  if (of_mount f =? id) && bool_decide (of_top f = old_top)
  then mkOpen (of_mount f) (of_ino f) (of_offset f) (of_size f) (of_writable f) (Some name)
  else f.

(** Seal the new name and move the descriptors below the old one to it. *)
Definition seal_after_rename (id : Z) (old_rel name : str) : VM B unit := fun v =>
  let guards := alter (fun g => seal g name) id (v_guards v) in
  let fds :=
    match top_component old_rel with
    | Some old_top => fmap (M := list) (fmap (retarget_fd id (Some old_top) name)) (v_fds v)
    | None => v_fds v
    end in
  (Ok tt, mkVfs (v_backends v) (v_namespaces v) (v_root_id v) fds guards).

(** [rename] once both paths are routed to mount [id]. *)
Definition rename_routed (id : Z) (old_rel new_rel : str) : VM B Z :=
  verdict ← rename_guard id old_rel new_rel;
  match verdict with
  | Err _ => mret 0
  | Ok seal_after =>
      _ ← on_backend id ENOMNT (fun be => be_rename be old_rel new_rel);
      _ ← on_backend id ENOMNT be_commit;
      match seal_after with
      | Some name => _ ← seal_after_rename id old_rel name; mret 0
      | None => mret 0
      end
  end.

Definition rename (old_path new_path : list Z) : VM B Z :=
  if negb (utf8_valid old_path && utf8_valid new_path) then throw EINVAL
  else
    old_r ← resolve_parent current_ns old_path;
    new_r ← resolve_parent current_ns new_path;
    '(old_mount, old_rel) ← route current_ns old_r;
    '(new_mount, new_rel) ← route current_ns new_r;
    if negb (old_mount =? new_mount) then throw EINVAL
    else rename_routed new_mount old_rel new_rel.

(** ** Reading metadata *)

Definition stat_path (path : list Z) : VM B Stat :=
  p ← path_str path;
  resolved ← resolve current_ns p;
  '(mount, rel) ← route current_ns resolved;
  meta ← on_backend mount ENOMNT (fun be => be_stat be rel);
  mret (stat_from meta).

Definition readdir_path (path : list Z) : VM B (list DirEntry) :=
  p ← path_str path;
  resolved ← resolve current_ns p;
  '(mount, rel) ← route current_ns resolved;
  entries ← on_backend mount ENOMNT (fun be => be_readdir be rel);
  mret (map (fun e => mkDirEntry (wrap 32 (de_ino e)) (de_file_type e) (de_name e)) entries).

Definition LOAD_FILE_MAX : Z := 32 * 1024 * 1024.

Definition load_file (path : str) : VM B (list Z) :=
  resolved ← resolve current_ns path;
  '(mount, rel) ← route current_ns resolved;
  meta ← on_backend mount ENOMNT (fun be => be_stat be rel);
  if m_is_dir meta then throw EINVAL
  else if (m_size meta =? 0) || (LOAD_FILE_MAX <? m_size meta) then throw EINVAL
  else
    bytes ← on_backend mount ENOMNT (fun be => be_read_at be (m_ino meta) 0 (Z.to_nat (m_size meta)));
    if Z.of_nat (length bytes) <? m_size meta then throw EINVAL else mret bytes.

(** ** Removing a store entry *)

Definition DOT : str := [46].
Definition DOTDOT : str := [46; 46].

Definition gone_is_ok (r : result unit FsError) : result unit FsError :=
  match r with Err FsNotFound => Ok tt | _ => r end.

(** Depth first; [fuel] bounds the depth, [None] when it is exhausted. *)
Fixpoint remove_tree_rec (fuel : nat) (be : B) (path : str) (is_dir : bool)
  : option (result unit FsError * B) :=
  match fuel with
  | O => None
  | S fuel' =>
      if is_dir then
        match be_readdir be path with
        | (Err FsNotFound, be) => Some (Ok tt, be)
        | (Err e, be) => Some (Err e, be)
        | (Ok entries, be) =>
            let step acc e :=
              match acc with
              | Some (Ok _, be) =>
                  if bool_decide (de_name e = DOT) || bool_decide (de_name e = DOTDOT) then acc
                  else
                    let child := if ends_with_slash path then path ++ de_name e
                                 else path ++ SLASH :: de_name e in
                    remove_tree_rec fuel' be child (de_file_type e =? FT_DIR)
              | _ => acc
              end in
            match foldl step (Some (Ok tt, be)) entries with
            | Some (Ok _, be) => let '(r, be) := be_rmdir be path in Some (gone_is_ok r, be)
            | other => other
            end
        end
      else let '(r, be) := be_unlink be path in Some (gone_is_ok r, be)
  end.

Definition forget_name (id : Z) (name : str) : VM B unit := fun v =>
  (Ok tt, mkVfs (v_backends v) (v_namespaces v) (v_root_id v) (v_fds v)
                (alter (fun g => forget g name) id (v_guards v))).

(** The recursion as one call on the backend; out of fuel is reported apart. *)
Definition remove_tree (fuel : nat) (id : Z) (rel : str) (is_dir : bool) : VM B (option unit) :=
  fun v =>
  match BackendStore_get (v_backends v) id with
  | None => (Err ENOMNT, v)
  | Some be =>
      match remove_tree_rec fuel be rel is_dir with
      | None => (Ok None, v)
      | Some (r, be') => (map_err errno_fs (match r with Ok _ => Ok (Some tt) | Err e => Err e end), put_backend v id be')
      end
  end.

(** The entry's [stat], with [NotFound] as [None]. *)
Definition stat_entry (id : Z) (rel : str) : VM B (option InodeMeta) :=
  on_backend id ENOMNT (fun be =>
    match be_stat be rel with
    | (Err FsNotFound, be) => (Ok None, be)
    | (Err e, be) => (Err e, be)
    | (Ok m, be) => (Ok (Some m), be)
    end).

(** [None] is the run that exhausts [fuel]. *)
Definition store_remove_tree (fuel : nat) (path : list Z) : VM B (option Z) :=
  p ← path_str path;
  '(mount, rel) ← route current_ns p;
  v ← get_vfs;
  if negb (bool_decide (is_Some (v_guards v !! mount))) then throw EINVAL
  else
    match top_component rel with
    | None => throw EINVAL
    | Some name =>
        if negb (length (comps_of rel) =? 1)%nat then throw EINVAL
        else
          m ← stat_entry mount rel;
          match m with
          | None => _ ← forget_name mount name; mret (Some 0)
          | Some m =>
              done ← remove_tree fuel mount rel (m_is_dir m);
              match done with
              | None => mret None
              | Some _ =>
                  _ ← on_backend mount ENOMNT be_commit;
                  _ ← forget_name mount name;
                  mret (Some 0)
              end
          end
    end.

(** ** Mounting *)

Definition MOUNT_SRC_RFS2_RAM : Z := 0.
Definition MOUNT_SRC_RFS2_BLK : Z := 1.
Definition MOUNT_STORE : Z := 1.
Definition SECTORS_PER_BLOCK : Z := 8.

(** "/lth/system/store.key" *)
Definition STORE_KEY_PATH : str :=
  [47; 108; 116; 104; 47; 115; 121; 115; 116; 101; 109; 47; 115; 116; 111; 114; 101; 46; 107; 101; 121].

(** What [mount] finds outside the VFS: the volume built on a fresh RAM disk,
    the size of the second disk if there is one, whether the root was mounted
    encrypted and whether the second disk holds a volume, a random key, and
    the volume on the second disk under a given key ([None]: in the clear). *)
Record Env : Type := mkEnv {
  env_ram : result B Z;
  env_sectors : option Z;
  env_root_encrypted : bool;
  env_store_formatted : bool;
  env_rand_key : option (list Z);
  env_mount_store : option (list Z) -> Z -> result B Z
}.

Definition write_root_file (path : str) (data : list Z) : VM B unit :=
  target ← resolve_parent ROOT_NS path;
  '(mount, rel) ← route ROOT_NS target;
  ino ← on_backend mount EIO (fun be =>
          match be_create be rel with
          | (Err FsExists, be) => be_lookup be rel
          | other => other
          end);
  _ ← on_backend mount EIO (fun be => be_write_at be ino 0 data);
  on_backend mount EIO be_commit.

(** [m] with any failure turned into [None]. *)
Definition attempt {A} (m : VM B A) : VM B (option A) := fun v =>
  match m v with (Ok a, v') => (Ok (Some a), v') | (Err _, v') => (Ok None, v') end.

Definition obtain_store_dek (env : Env) : VM B (list Z) :=
  found ← attempt (load_file STORE_KEY_PATH);
  match found with
  | Some k => if negb (length k =? 32)%nat then throw EIO else mret k
  | None =>
      if env_store_formatted env then throw EIO
      else
        match env_rand_key env with
        | None => throw EIO
        | Some dek =>
            written ← attempt (write_root_file STORE_KEY_PATH dek);
            match written with Some _ => mret dek | None => throw EIO end
        end
  end.

Definition build_backend (env : Env) (source : Z) : VM B B :=
  if source =? MOUNT_SRC_RFS2_RAM then lift (env_ram env)
  else if source =? MOUNT_SRC_RFS2_BLK then
    match env_sectors env with
    | None => throw EIO
    | Some sectors =>
        let blocks := sectors / SECTORS_PER_BLOCK in
        if blocks =? 0 then throw EIO
        else if env_root_encrypted env then
          dek ← obtain_store_dek env;
          lift (env_mount_store env (Some dek) blocks)
        else lift (env_mount_store env None blocks)
    end
  else throw EINVAL.

(** [name.starts_with('.')] *)
Definition dotted (name : str) : bool := match name with x :: _ => x =? 46 | [] => false end.

(** The names sealed when a store is mounted: its top-level directories. *)
Definition seals_of (entries : list DirEntry) : RealizeGuard :=
  foldl (fun g e =>
           if (de_file_type e =? FT_DIR) && negb (dotted (de_name e)) then seal g (de_name e) else g) RealizeGuard_new entries.

Definition mount_in_ns (ns : Z) (at_ : str) (backend : B) : VM B Z := fun v =>
  let '(r, nss, store) := Namespaces_mount (v_namespaces v) ns at_ backend (v_backends v) in
  (map_err errno_mount r, mkVfs store nss (v_root_id v) (v_fds v) (v_guards v)).

Definition mount (env : Env) (at_ : str) (source flags : Z) : VM B Z :=
  if negb (Z.land flags (not_u 64 MOUNT_STORE) =? 0) then throw EINVAL
  else
    let store := negb (Z.land flags MOUNT_STORE =? 0) in
    v ← get_vfs;
    if Namespaces_is_mounted_at (v_namespaces v) current_ns at_ then throw EMOUNTED
    else
      backend ← build_backend env source;
      id ← mount_in_ns current_ns at_ backend;
      if store : bool then
        entries ← attempt (on_backend id ENOMNT (fun be => be_readdir be [SLASH]));
        _ ← put_guard id (seals_of (default [] entries));
        mret 0
      else mret 0.

Definition unmount (at_ : str) : VM B Z := fun v =>
  let pinned := match Namespaces_resolve (v_namespaces v) current_ns at_ with
                | Ok (id, rel) => (id =? v_root_id v) && bool_decide (rel = [SLASH])
                | Err _ => false
                end in
  if pinned then (Err EINVAL, v)
  else
    match Namespaces_unmount (v_namespaces v) current_ns at_ with
    | (Err e, nss) => (Err (errno_mount e), v)
    | (Ok freed, nss) =>
        if Namespaces_any_routes_to nss freed
        then (Ok 0, mkVfs (v_backends v) nss (v_root_id v) (v_fds v) (v_guards v))
        else (Ok 0, mkVfs (BackendStore_remove (v_backends v) freed).2 nss (v_root_id v) (v_fds v)
                          (delete freed (v_guards v)))
    end.

(** The state [init] installs, for the root volume it mounted. *)
Definition vfs_init (root : B) : option (Vfs B) :=
  match nss_map Namespaces_new !! ROOT_NS with
  | None => None
  | Some x =>
      match MountTable_mount (ns_table x) [SLASH] root BackendStore_new with
      | (Ok id, t, store) =>
          Some (mkVfs store (set_table Namespaces_new ROOT_NS t) id (replicate MAX_FDS None) ∅)
      | (Err _, _, _) => None
      end
  end.

Definition generation_at (path : str) : VM B Z :=
  '(mount, _) ← route ROOT_NS path;
  v ← get_vfs;
  match BackendStore_get (v_backends v) mount with
  | Some be => mret (be_generation be)
  | None => throw ENOMNT
  end.

End vfs.
Arguments mkEnv {B}.
Arguments Env : clear implicits.

#[export] Instance any_preorder {A} : PreOrder (fun _ _ : A => True).
Proof. by repeat split. Qed.

(** ** Frames: how far a computation may change the state *)

Definition steps {B A} (R : Vfs B -> Vfs B -> Prop) (m : VM B A) : Prop := forall v, R v (m v).2.

Create HintDb vm.

Section frame_rules.
Context {B : Type} (R : Vfs B -> Vfs B -> Prop) `{!PreOrder R}.

Lemma steps_ret {A} (a : A) : steps R (mret a).
Proof. intros v. reflexivity. Qed.

Lemma steps_throw {A} e : steps R (throw (A := A) e).
Proof. intros v. reflexivity. Qed.

Lemma steps_lift {A} (r : result A Z) : steps R (lift r).
Proof. intros v. reflexivity. Qed.

Lemma steps_get : steps R get_vfs.
Proof. intros v. reflexivity. Qed.

Lemma steps_bind {A C} (m : VM B A) (k : A -> VM B C) :
  steps R m -> (forall a, steps R (k a)) -> steps R (m ≫= k).
Proof.
  intros Hm Hk v. specialize (Hm v). unfold mbind, VM_bind. destruct (m v) as [[a|e] v']; [|done].
  etransitivity; [exact Hm|]. apply Hk.
Qed.

Lemma steps_ignore {A} (m : VM B A) : steps R m -> steps R (ignore m).
Proof. intros Hm v. specialize (Hm v). unfold ignore. by destruct (m v). Qed.

Lemma steps_attempt {A} (m : VM B A) : steps R m -> steps R (attempt m).
Proof. intros Hm v. specialize (Hm v). unfold attempt. by destruct (m v) as [[] ?]. Qed.

Lemma steps_route ns path : steps R (route ns path).
Proof. intros v. reflexivity. Qed.

Lemma steps_path_str path : steps R (path_str path).
Proof. unfold path_str. case_match; [apply steps_ret|apply steps_throw]. Qed.

Lemma steps_get_fd fd : steps R (get_fd fd).
Proof. intros v. unfold get_fd. by repeat case_match. Qed.

Lemma steps_free_slot : steps R free_slot.
Proof. intros v. reflexivity. Qed.

Lemma steps_guarded id check : steps R (guarded id check).
Proof. intros v. unfold guarded. by case_match. Qed.

Lemma steps_rename_guard id o n : steps R (rename_guard id o n).
Proof. intros v. unfold rename_guard. by repeat case_match. Qed.

End frame_rules.

#[export] Hint Resolve steps_ret steps_throw steps_lift steps_get steps_ignore steps_attempt
  steps_route steps_path_str steps_get_fd steps_free_slot steps_guarded steps_rename_guard : vm.

(** One step of a proof that a computation stays within a frame. *)
Ltac vm_step :=
  match goal with
  | |- steps _ (mbind _ _) => apply steps_bind; [| |intros ?]
  | |- steps _ (let '(_, _) := ?x in _) => destruct x
  | |- steps _ (if ?b then _ else _) => destruct b
  | |- steps _ (match ?x with _ => _ end) => destruct x
  | |- PreOrder _ => apply _
  | |- _ => solve [eauto with vm typeclass_instances]
  end.

Section quiet.
Context {B : Type} `{FsBackend B} (Rb : B -> B -> Prop).

Definition stores_rel (s s' : BackendStore B) : Prop :=
  bs_next_id s' = bs_next_id s /\
  forall id, option_Forall2 Rb (bs_backends s !! id) (bs_backends s' !! id).

(** Only backends change, each within [Rb]. *)
Record quiet (v v' : Vfs B) : Prop := {
  q_backends : stores_rel (v_backends v) (v_backends v');
  q_namespaces : v_namespaces v' = v_namespaces v;
  q_root : v_root_id v' = v_root_id v;
  q_fds : v_fds v' = v_fds v;
  q_guards : v_guards v' = v_guards v
}.

#[export] Instance stores_rel_preorder `{!PreOrder Rb} : PreOrder stores_rel.
Proof.
  split.
  - intros s. split; [done|]. intros id. reflexivity.
  - intros s1 s2 s3 [H1 H2] [H3 H4]. split; [congruence|]. intros id. etransitivity; [apply H2|apply H4].
Qed.

#[export] Instance quiet_preorder `{!PreOrder Rb} : PreOrder quiet.
Proof.
  split.
  - intros v. by split.
  - intros v1 v2 v3 [] []. split; try congruence. by etransitivity.
Qed.

Lemma stores_rel_put `{!PreOrder Rb} s id be be' :
  BackendStore_get s id = Some be -> Rb be be' -> stores_rel s (BackendStore_put s id be').
Proof.
  intros Hg Hr. split; [done|]. intros i. cbn. unfold BackendStore_get in Hg.
  destruct (decide (i = id)) as [-> |].
  - rewrite lookup_insert_eq, Hg. by constructor.
  - rewrite lookup_insert_ne by done. reflexivity.
Qed.

Lemma quiet_on_backend `{!PreOrder Rb} {A} id missing (call : B -> result A FsError * B) :
  (forall be, Rb be (call be).2) -> steps quiet (on_backend id missing call).
Proof.
  intros Hc v. unfold on_backend. destruct (BackendStore_get (v_backends v) id) as [be|] eqn:Hg.
  - specialize (Hc be). destruct (call be) as [r be']. split; try done. by eapply stores_rel_put.
  - reflexivity.
Qed.

Context `{!PreOrder Rb}.
Hypothesis stat_quiet : forall be p, Rb be (be_stat be p).2.
Hypothesis readlink_quiet : forall be p, Rb be (be_readlink be p).2.

Lemma quiet_walk follow ns : (forall p, steps quiet (follow p)) ->
  forall comps resolved, steps quiet (walk follow ns comps resolved).
Proof using All.
  intros Hf comps. induction comps as [|c comps IH]; intros resolved; cbn [walk].
  - apply steps_ret. apply _.
  - repeat vm_step; auto using quiet_on_backend.
Qed.

Lemma quiet_resolve_hops left ns path : steps quiet (resolve_hops left ns path).
Proof using All.
  revert path. induction left as [|left IH]; intros path; cbn [resolve_hops]; [vm_step|].
  by apply quiet_walk.
Qed.

Lemma quiet_resolve ns path : steps quiet (resolve ns path).
Proof using All. apply quiet_resolve_hops. Qed.

Lemma quiet_resolve_parent ns path : steps quiet (resolve_parent ns path).
Proof using All. unfold resolve_parent. repeat vm_step. apply quiet_resolve. Qed.

End quiet.
