(* ===== verification/VfsMem.v ===== *)
(** * The in-memory backend (fs/vfs-core/src/testutil.rs)

    [MemBackend] keeps a map of canonical absolute paths to nodes.  It is the
    backend the crate tests its routing and its realize flow with, and the one
    the concrete runs of the VFS theorems use here. *)

From S2P Require Import Prelude Paths Text VfsCore Vfs.

#[local] Open Scope Z_scope.

Record Node : Type := mkNode {
  n_ino : Z; n_is_dir : bool; n_is_symlink : bool; n_data : list Z; n_target : option str
}.

Record MemBackend : Type := mkMem {
  mb_nodes : gmap str Node;
  mb_by_ino : gmap Z str;
  mb_next_ino : Z;
  mb_dirty : bool;
  mb_gen : Z
}.

Definition canon (p : str) : option str :=
  if starts_with_slash p then Some (rel_path (comps_of p)) else None.

Definition parent_of (canon_path : str) : str :=
  match rsplit_slash canon_path with
  | Some (x :: parent, _) => x :: parent
  | _ => [SLASH]
  end.

Definition MemBackend_new : MemBackend :=
  mkMem {[ [SLASH] := mkNode 1 true false [] None ]} {[ 1 := [SLASH] ]} 2 false 1.

Definition parent_must_be_dir (b : MemBackend) (canon_path : str) : result unit FsError :=
  match mb_nodes b !! parent_of canon_path with
  | Some n => if n_is_dir n then Ok tt else Err FsNotDir
  | None => Err FsNotFound
  end.

Definition mem_node (b : MemBackend) (path : str) : result (str * Node) FsError :=
  match canon path with
  | None => Err FsInvalid
  | Some c => match mb_nodes b !! c with Some n => Ok (c, n) | None => Err FsNotFound end
  end.

Definition mem_lookup (b : MemBackend) (path : str) : result Z FsError :=
  match mem_node b path with Ok (_, n) => Ok (n_ino n) | Err e => Err e end.

Definition mem_stat (b : MemBackend) (path : str) : result InodeMeta FsError :=
  match mem_node b path with
  | Err e => Err e
  | Ok (_, n) =>
      Ok (mkMeta (n_ino n) (Z.of_nat (length (n_data n))) (n_is_dir n) (n_is_symlink n)
                 (if n_is_dir n then 493 else 420 (* 0o755, 0o644 *)) 0 0 1 0 0)
  end.

Definition mem_readlink (b : MemBackend) (path : str) : result str FsError :=
  match mem_node b path with
  | Err e => Err e
  | Ok (_, n) => match n_target n with Some t => Ok t | None => Err FsInvalid end
  end.

(** [symlink], [create] and [mkdir] share their steps; [mk] builds the node. *)
Definition add_node (b : MemBackend) (path : str) (mk : Z -> Node) : result Z FsError * MemBackend :=
  match canon path with
  | None => (Err FsInvalid, b)
  | Some c =>
      if bool_decide (is_Some (mb_nodes b !! c)) then (Err FsExists, b)
      else
        match parent_must_be_dir b c with
        | Err e => (Err e, b)
        | Ok _ =>
            let ino := mb_next_ino b in
            (Ok ino, mkMem (<[c := mk ino]> (mb_nodes b)) (<[ino := c]> (mb_by_ino b)) (ino + 1) true (mb_gen b))
        end
  end.

Definition mem_symlink (b : MemBackend) (target link : str) : result Z FsError * MemBackend :=
  if negb (nonempty target) then (Err FsInvalid, b)
  else add_node b link (fun ino => mkNode ino false true [] (Some target)).

Definition mem_create (b : MemBackend) (path : str) : result Z FsError * MemBackend :=
  add_node b path (fun ino => mkNode ino false false [] None).

Definition mem_mkdir (b : MemBackend) (path : str) : result Z FsError * MemBackend :=
  add_node b path (fun ino => mkNode ino true false [] None).

Definition mem_by_ino (b : MemBackend) (ino : Z) : result (str * Node) FsError :=
  match mb_by_ino b !! ino with
  | None => Err FsNotFound
  | Some path => match mb_nodes b !! path with Some n => Ok (path, n) | None => Err FsNotFound end
  end.

Definition mem_read_at (b : MemBackend) (ino off : Z) (len : nat) : result (list Z) FsError :=
  match mem_by_ino b ino with
  | Err e => Err e
  | Ok (_, n) => Ok (slice (Z.to_nat off) len (n_data n))
  end.

Definition mem_write_at (b : MemBackend) (ino off : Z) (data : list Z) : result unit FsError * MemBackend :=
  match mem_by_ino b ino with
  | Err e => (Err e, b)
  | Ok (path, n) =>
      if n_is_dir n then (Err FsIsDir, b)
      else
        let off := Z.to_nat off in
        let grown := n_data n ++ replicate (off + length data - length (n_data n)) 0 in
        let n' := mkNode (n_ino n) (n_is_dir n) (n_is_symlink n) (splice off data grown) (n_target n) in
        (Ok tt, mkMem (<[path := n']> (mb_nodes b)) (mb_by_ino b) (mb_next_ino b) true (mb_gen b))
  end.

Definition drop_node (b : MemBackend) (c : str) (ino : Z) : MemBackend :=
  mkMem (delete c (mb_nodes b)) (delete ino (mb_by_ino b)) (mb_next_ino b) true (mb_gen b).

Definition mem_unlink (b : MemBackend) (path : str) : result unit FsError * MemBackend :=
  match mem_node b path with
  | Err e => (Err e, b)
  | Ok (c, n) => if n_is_dir n then (Err FsIsDir, b) else (Ok tt, drop_node b c (n_ino n))
  end.

Definition mem_rmdir (b : MemBackend) (path : str) : result unit FsError * MemBackend :=
  match mem_node b path with
  | Err e => (Err e, b)
  | Ok (c, n) =>
      if negb (n_is_dir n) then (Err FsNotDir, b)
      else if existsb (starts_with (c ++ [SLASH])) (keys (mb_nodes b)) then (Err FsNotEmpty, b)
      else (Ok tt, drop_node b c (n_ino n))
  end.

(** One round of the loop of [rename] over the keys it moves. *)
Definition move_key (o nw : str) (maps : gmap str Node * gmap Z str) (key : str)
  : gmap str Node * gmap Z str :=
  let '(nodes, by_ino) := maps in
  match nodes !! key with
  | None => maps
  | Some node =>
      let new_key := if bool_decide (key = o) then nw else nw ++ drop (length o) key in
      (<[new_key := node]> (delete key nodes), <[n_ino node := new_key]> by_ino)
  end.

Definition mem_rename (b : MemBackend) (old new : str) : result unit FsError * MemBackend :=
  match canon old, canon new with
  | None, _ | _, None => (Err FsInvalid, b)
  | Some o, Some nw =>
      if negb (bool_decide (is_Some (mb_nodes b !! o))) then (Err FsNotFound, b)
      else if bool_decide (is_Some (mb_nodes b !! nw)) then (Err FsExists, b)
      else
        match parent_must_be_dir b nw with
        | Err e => (Err e, b)
        | Ok _ =>
            let old_prefix := if bool_decide (o = [SLASH]) then [SLASH] else o ++ [SLASH] in
            let moving := List.filter (fun k => bool_decide (k = o) || starts_with old_prefix k)
                            (keys (mb_nodes b)) in
            let '(nodes, by_ino) := foldl (move_key o nw) (mb_nodes b, mb_by_ino b) moving in
            (Ok tt, mkMem nodes by_ino (mb_next_ino b) true (mb_gen b))
        end
  end.

Definition dir_entry (nodes : gmap str Node) (prefix k : str) : option DirEntry :=
  match nodes !! k, strip_prefix prefix k with
  | Some n, Some rest =>
      if nonempty rest && negb (bool_decide (SLASH ∈ rest))
      then Some (mkDirEntry (n_ino n) (if n_is_dir n then 2 else if n_is_symlink n then 3 else 1) rest)
      else None
  | _, _ => None
  end.

Definition mem_readdir (b : MemBackend) (path : str) : result (list DirEntry) FsError :=
  match mem_node b path with
  | Err e => Err e
  | Ok (c, n) =>
      if negb (n_is_dir n) then Err FsNotDir
      else
        let prefix := if bool_decide (c = [SLASH]) then [SLASH] else c ++ [SLASH] in
        Ok (omap (dir_entry (mb_nodes b) prefix) (keys (mb_nodes b)))
  end.

Definition mem_commit (b : MemBackend) : MemBackend :=
  if mb_dirty b then mkMem (mb_nodes b) (mb_by_ino b) (mb_next_ino b) false (mb_gen b + 1) else b.

#[export] Instance mem_backend : FsBackend MemBackend := {
  be_lookup b p := (mem_lookup b p, b);
  be_stat b p := (mem_stat b p, b);
  be_readlink b p := (mem_readlink b p, b);
  be_symlink := mem_symlink;
  be_read_at b ino off len := (mem_read_at b ino off len, b);
  be_write_at := mem_write_at;
  be_create := mem_create;
  be_mkdir := mem_mkdir;
  be_unlink := mem_unlink;
  be_rmdir := mem_rmdir;
  be_rename := mem_rename;
  be_readdir b p := (mem_readdir b p, b);
  be_pin b _ := (Ok tt, b);
  be_unpin b _ := (Ok tt, b);
  be_commit b := (Ok tt, mem_commit b);
  be_has_staged_changes := mb_dirty;
  be_generation := mb_gen
}.

(** ** Canonical keys *)

(** A canonical path is determined by its components. *)
Definition canonical_key (k : str) : Prop := k = rel_path (comps_of k).

Lemma canonical_canon k : canonical_key k -> canon k = Some k.
Proof.
  unfold canonical_key. intros Hk. unfold canon. rewrite <- Hk. rewrite Hk at 1. by rewrite rel_path_absolute.
Qed.

Lemma canon_canonical p c : canon p = Some c -> canonical_key c /\ comps_of c = comps_of p.
Proof.
  unfold canon, canonical_key. destruct (starts_with_slash p); [|done]. intros [= <-].
  pose proof (comps_of_rel_path _ (comps_of_good p)) as E. by rewrite E.
Qed.

(** [k] lies strictly below [c]. *)
Definition below (c k : str) : Prop := exists ds, ds <> [] /\ comps_of k = comps_of c ++ ds.

Lemma below_spec c k :
  canonical_key c -> canonical_key k -> comps_of c <> [] ->
  starts_with (c ++ [SLASH]) k = true <-> below c k.
Proof.
  intros Hc Hk Hne. rewrite starts_with_spec. split.
  - intros (rest & ->). exists (comps_of rest).
    assert (E : comps_of ((c ++ [SLASH]) ++ rest) = comps_of c ++ comps_of rest).
    { rewrite <- app_assoc. apply comps_of_app. }
    split; [|done]. intros Hnil. rewrite Hnil, app_nil_r in E. unfold canonical_key in *. rewrite E, <- Hc in Hk.
    apply (f_equal length) in Hk. rewrite !length_app in Hk. cbn in Hk. lia.
  - intros (ds & Hds & E). unfold canonical_key in *. rewrite Hk, E. destruct ds as [|d ds]; [done|].
    rewrite rel_path_app by done. rewrite <- Hc. exists (d ++ concat (map (cons SLASH) ds)).
    unfold rel_path. cbn [map concat]. by rewrite <- !app_assoc.
Qed.

(** ** Well formed volumes: the keys are canonical and closed under parents. *)

Record mem_wf (b : MemBackend) : Prop := {
  mw_canonical : forall k n, mb_nodes b !! k = Some n -> canonical_key k;
  mw_dots : forall k n c, mb_nodes b !! k = Some n -> c ∈ comps_of k -> c <> DOT /\ c <> DOTDOT;
  mw_parent : forall k n cs c, mb_nodes b !! k = Some n -> comps_of k = cs ++ [c] ->
    exists p, mb_nodes b !! rel_path cs = Some p /\ n_is_dir p = true
}.

Lemma mw_ancestor b : mem_wf b -> forall ds k n cs,
  mb_nodes b !! k = Some n -> comps_of k = cs ++ ds -> ds <> [] ->
  exists p, mb_nodes b !! rel_path cs = Some p /\ n_is_dir p = true.
Proof.
  intros Hwf. induction ds as [|d ds IH] using rev_ind; [done|]. intros k n cs Hk E _.
  rewrite app_assoc in E. destruct (mw_parent b Hwf k n _ _ Hk E) as (p & Hp & Hd).
  destruct ds as [|d' ds']; [rewrite app_nil_r in Hp; by exists p|].
  pose proof (comps_of_good k) as Hg. rewrite E in Hg. apply Forall_app in Hg as [Hg _].
  apply (IH (rel_path (cs ++ d' :: ds')) p cs Hp); [by apply comps_of_rel_path|done].
Qed.

(** The children of a directory, as [readdir] lists them. *)
Lemma mem_readdir_children b c n :
  mem_wf b -> mb_nodes b !! c = Some n -> n_is_dir n = true -> comps_of c <> [] ->
  exists es, mem_readdir b c = Ok es /\
    (forall e, e ∈ es <-> exists n', mb_nodes b !! (c ++ SLASH :: de_name e) = Some n' /\
       good_comp (de_name e) /\ e = mkDirEntry (n_ino n') (if n_is_dir n' then 2 else if n_is_symlink n' then 3 else 1) (de_name e)).
Proof.
  intros Hwf Hc Hd Hne. pose proof (mw_canonical b Hwf c n Hc) as Hk.
  unfold mem_readdir, mem_node. rewrite (canonical_canon c Hk), Hc, Hd. cbn [negb].
  assert (c <> [SLASH]) by (intros ->; by apply Hne).
  rewrite bool_decide_false by done. eexists. split; [done|]. intros e. rewrite list_elem_of_omap. split.
  - intros (k & Hin & He). unfold dir_entry in He. destruct (mb_nodes b !! k) as [n'|] eqn:Hn; [|done].
    destruct (strip_prefix (c ++ [SLASH]) k) as [rest|] eqn:Hs; [|done].
    apply strip_prefix_spec in Hs as ->. rewrite <- app_assoc in Hn. cbn in Hn.
    destruct (nonempty rest) eqn:Hre; [|done]. destruct (bool_decide_reflect (SLASH ∈ rest)); [done|].
    injection He as <-. cbn. exists n'. split_and!; [done|split; [by destruct rest|done]|done].
  - intros (n' & Hn & [Hg1 Hg2] & He). exists (c ++ SLASH :: de_name e). split; [apply elem_of_keys; by eexists|].
    unfold dir_entry. rewrite Hn.
    assert (strip_prefix (c ++ [SLASH]) (c ++ SLASH :: de_name e) = Some (de_name e)) as ->.
    { apply strip_prefix_spec. by rewrite <- app_assoc. }
    rewrite bool_decide_false by done. destruct e as [i ft nm]. cbn in *. injection He as -> ->. by destruct nm.
Qed.

(** ** The constructors keep volumes well formed *)

Lemma mem_wf_new : mem_wf MemBackend_new.
Proof.
  split; unfold MemBackend_new; cbn [mb_nodes].
  - intros k n [<- <-]%lookup_singleton_Some. done.
  - intros k n c [<- <-]%lookup_singleton_Some Hin. by apply elem_of_nil in Hin.
  - intros k n cs c [<- <-]%lookup_singleton_Some E. by destruct cs.
Qed.

Lemma parent_of_canonical c cs x :
  canonical_key c -> comps_of c = cs ++ [x] -> parent_of c = rel_path cs.
Proof.
  intros Hc E. pose proof (comps_of_good c) as Hg. rewrite E in Hg. apply Forall_app in Hg as [_ Hg].
  apply Forall_cons in Hg as [[_ Hx] _]. unfold parent_of, canonical_key in *. rewrite Hc, E.
  destruct cs as [|y cs].
  - change (rel_path ([] ++ [x])) with ([] ++ SLASH :: (x ++ [])). rewrite app_nil_r.
    by rewrite rsplit_slash_snoc.
  - rewrite rel_path_snoc, rsplit_slash_snoc by done. by destruct y.
Qed.

Lemma add_node_wf b path mk :
  mem_wf b -> (forall c, c ∈ comps_of path -> c <> DOT /\ c <> DOTDOT) -> mem_wf (add_node b path mk).2.
Proof.
  intros Hwf Hd. pose proof Hwf as [Hcan Hdots Hpar]. unfold add_node. destruct (canon path) as [c|] eqn:Hc; [|done].
  apply canon_canonical in Hc as [Hk Hcs]. destruct (bool_decide_reflect (is_Some (mb_nodes b !! c))) as [|Hnew]; [done|].
  unfold parent_must_be_dir. destruct (mb_nodes b !! parent_of c) as [p|] eqn:Hp; [|done].
  destruct (n_is_dir p) eqn:Hpd; [|done]. split; cbn.
  - intros k n [[<- <-]|[_ Hn]]%lookup_insert_Some; [done|by eapply Hcan].
  - intros k n x [[<- <-]|[_ Hn]]%lookup_insert_Some; [rewrite Hcs; apply Hd|by eapply Hdots].
  - intros k n cs x [[<- <-]|[Hne Hn]]%lookup_insert_Some E.
    + rewrite (parent_of_canonical c cs x Hk E) in Hp. exists p. split; [|done].
      rewrite lookup_insert_ne; [done|]. intros ->. apply Hnew. by eexists.
    + destruct (Hpar k n cs x Hn E) as (q & Hq & Hqd). exists q. split; [|done].
      rewrite lookup_insert_ne; [done|]. intros ->. apply Hnew. by eexists.
Qed.

(** ** Removing a subtree *)

(** [b'] is [b] without the keys in [P]. *)
Definition pruned (P : str -> Prop) (b b' : MemBackend) : Prop :=
  forall k, (P k -> mb_nodes b' !! k = None) /\ (~ P k -> mb_nodes b' !! k = mb_nodes b !! k).

Definition at_or_below (c k : str) : Prop := comps_of c `prefix_of` comps_of k.

#[export] Instance at_or_below_dec c k : Decision (at_or_below c k).
Proof. unfold at_or_below. apply _. Defined.

Lemma at_or_below_refl c : at_or_below c c.
Proof. unfold at_or_below. reflexivity. Qed.

Lemma pruned_lookup P `{forall k, Decision (P k)} b b' k n :
  pruned P b b' -> mb_nodes b' !! k = Some n -> ~ P k /\ mb_nodes b !! k = Some n.
Proof.
  intros Hp Hk. destruct (Hp k) as [H1 H2]. destruct (decide (P k)) as [Hy|Hn].
  - rewrite (H1 Hy) in Hk. done.
  - rewrite H2 in Hk by done. done.
Qed.

Lemma pruned_trans P Q `{forall k, Decision (Q k)} b b1 b2 :
  pruned P b b1 -> pruned Q b1 b2 -> pruned (fun k => P k \/ Q k) b b2.
Proof.
  intros H1 H2 k. destruct (H1 k) as [A1 A2], (H2 k) as [B1 B2]. split.
  - intros Hk. destruct (decide (Q k)) as [Hq|Hq]; [by apply B1|]. rewrite B2 by done.
    destruct Hk; [by apply A1|done].
  - intros Hk. rewrite B2, A2 by tauto. done.
Qed.

Lemma pruned_wf c b b' : mem_wf b -> pruned (at_or_below c) b b' -> mem_wf b'.
Proof.
  intros [Hc Hd Hp] Hpr. split.
  - intros k n [_ Hk]%(pruned_lookup _ b b' k n Hpr). by eapply Hc.
  - intros k n x [_ Hk]%(pruned_lookup _ b b' k n Hpr). by eapply Hd.
  - intros k n cs x [Hno Hk]%(pruned_lookup _ b b' k n Hpr) E. destruct (Hp k n cs x Hk E) as (p & Hpk & Hdir).
    exists p. split; [|done]. destruct (Hpr (rel_path cs)) as [_ Hkeep]. rewrite Hkeep; [done|].
    intros Hb. apply Hno. unfold at_or_below in *. rewrite E.
    pose proof (comps_of_good k) as Hg. rewrite E in Hg. apply Forall_app in Hg as [Hg _].
    rewrite comps_of_rel_path in Hb by done. by apply prefix_app_r.
Qed.

(** A path that is not there has nothing below it. *)
Lemma pruned_absent c b :
  mem_wf b -> canonical_key c -> mb_nodes b !! c = None -> pruned (at_or_below c) b b.
Proof.
  intros Hwf Hc Hn k. split; [|done]. intros [ds E]. destruct (mb_nodes b !! k) as [n|] eqn:Hk; [|done].
  destruct ds as [|d ds].
  - rewrite app_nil_r in E. pose proof (mw_canonical b Hwf k n Hk) as Hck. unfold canonical_key in *.
    rewrite E, <- Hc in Hck. congruence.
  - destruct (mw_ancestor b Hwf (d :: ds) k n (comps_of c) Hk E) as (p & Hp & _); [done|].
    unfold canonical_key in Hc. rewrite <- Hc in Hp. congruence.
Qed.

Lemma not_ends_with_slash c : canonical_key c -> comps_of c <> [] -> ends_with_slash c = false.
Proof.
  intros Hc Hne. unfold ends_with_slash, canonical_key in *. apply bool_decide_eq_false.
  pose proof (comps_of_good c) as Hg. destruct (comps_of c) as [|x cs _] using rev_ind; [done|].
  apply Forall_app in Hg as [_ Hx]. apply Forall_cons in Hx as [[Hx1 Hx2] _]. rewrite Hc.
  assert (E : exists p, rel_path (cs ++ [x]) = p ++ x).
  { destruct cs as [|y cs]; [exists [SLASH]; cbn; by rewrite app_nil_r|].
    rewrite rel_path_snoc by done. exists (rel_path (y :: cs) ++ [SLASH]). by rewrite <- app_assoc. }
  destruct E as [p ->]. rewrite last_app. destruct (last x) as [z|] eqn:Hz.
  - intros [= ->]. apply Hx2. by apply list_elem_of_lookup; eexists; rewrite <- last_lookup.
  - by apply last_None in Hz.
Qed.

Lemma child_key c x : canonical_key c -> comps_of c <> [] -> good_comp x ->
  canonical_key (c ++ SLASH :: x) /\ comps_of (c ++ SLASH :: x) = comps_of c ++ [x].
Proof.
  intros Hc Hne Hx. assert (E : comps_of (c ++ SLASH :: x) = comps_of c ++ [x]).
  { by rewrite comps_of_app, (comps_of_single x). }
  split; [|done]. unfold canonical_key in *. rewrite E, rel_path_snoc by done. by rewrite <- Hc.
Qed.

Definition depth_le (D : nat) (b : MemBackend) : Prop :=
  forall k n, mb_nodes b !! k = Some n -> (length (comps_of k) <= D)%nat.

(** What a successful removal of [c] promises. *)
Definition removes (c : str) (b : MemBackend) (out : option (result unit FsError * MemBackend)) : Prop :=
  exists b', out = Some (Ok tt, b') /\ pruned (at_or_below c) b b'.

(** The entries a loop over [es] removes below [c]. *)
Definition among (c : str) (es : list DirEntry) (k : str) : Prop :=
  Exists (fun e => at_or_below (c ++ SLASH :: de_name e) k) es.

Lemma pruned_depth P `{forall k, Decision (P k)} D b b' : pruned P b b' -> depth_le D b -> depth_le D b'.
Proof. intros Hp Hd k n [_ Hk]%(pruned_lookup _ b b' k n Hp). by eapply Hd. Qed.

Section removal.
Variables (fuel D : nat).

(** The recursive call, for every entry one level down. *)
Hypothesis IH : forall b c d, mem_wf b -> canonical_key c -> comps_of c <> [] -> depth_le D b ->
  (forall n, mb_nodes b !! c = Some n -> n_is_dir n = d) -> (D + 1 - length (comps_of c) < fuel)%nat ->
  removes c b (remove_tree_rec fuel b c d).

Definition remove_step (path : str) (acc : option (result unit FsError * MemBackend)) (e : DirEntry) :=
  match acc with
  | Some (Ok _, be) =>
      if bool_decide (de_name e = DOT) || bool_decide (de_name e = DOTDOT) then acc
      else
        let child := if ends_with_slash path then path ++ de_name e else path ++ SLASH :: de_name e in
        remove_tree_rec fuel be child (de_file_type e =? FT_DIR)
  | _ => acc
  end.

Lemma remove_children c : canonical_key c -> comps_of c <> [] ->
  (D - length (comps_of c) < fuel)%nat -> forall es b,
  mem_wf b -> depth_le D b ->
  Forall (fun e => good_comp (de_name e) /\ de_name e <> DOT /\ de_name e <> DOTDOT /\
    forall n, mb_nodes b !! (c ++ SLASH :: de_name e) = Some n -> n_is_dir n = (de_file_type e =? FT_DIR)) es ->
  exists b', foldl (remove_step c) (Some (Ok tt, b)) es = Some (Ok tt, b') /\
    pruned (among c es) b b' /\ mem_wf b'.
Proof using IH.
  intros Hc Hne Hf es. induction es as [|e es IHes]; intros b Hwf Hd Hes.
  { exists b. split_and!; [done| |done]. intros k. split; [|done]. by intros Hk%Exists_nil. }
  apply Forall_cons in Hes as [(Hg & Hn1 & Hn2 & Hty) Hes]. cbn [foldl remove_step].
  rewrite (bool_decide_false _ Hn1), (bool_decide_false _ Hn2). cbn [orb].
  rewrite (not_ends_with_slash c Hc Hne). destruct (child_key c (de_name e) Hc Hne Hg) as [Hck Hcc].
  destruct (IH b (c ++ SLASH :: de_name e) (de_file_type e =? FT_DIR)) as (b1 & -> & Hp1); try done.
  { rewrite Hcc. by destruct (comps_of c). }
  { rewrite Hcc, length_app. cbn. lia. }
  assert (Hwf1 : mem_wf b1) by (by eapply pruned_wf).
  destruct (IHes b1 Hwf1) as (b2 & -> & Hp2 & Hwf2).
  { exact (pruned_depth _ D b b1 Hp1 Hd). }
  { eapply Forall_impl; [exact Hes|]. intros e' (H1 & H2 & H3 & H4). split_and!; [done..|].
    intros n [_ Hk]%(pruned_lookup _ b b1 _ n Hp1). by apply H4. }
  exists b2. split_and!; [done| |done]. intros k.
  assert (Hdec : forall k, Decision (among c es k)) by (intros; unfold among; apply _).
  destruct (pruned_trans _ _ b b1 b2 Hp1 Hp2 k) as [H1 H2]. unfold among in *. rewrite Exists_cons. done.
Qed.

(** [es] lists the children of [c] in [b], as [readdir] does. *)
Definition lists_children (b : MemBackend) (c : str) (es : list DirEntry) : Prop :=
  forall d n, good_comp d -> mb_nodes b !! (c ++ SLASH :: d) = Some n -> exists e, e ∈ es /\ de_name e = d.

Lemma nothing_below b b1 c es : mem_wf b -> canonical_key c -> comps_of c <> [] ->
  lists_children b c es -> pruned (among c es) b b1 ->
  forall k n, mb_nodes b1 !! k = Some n -> ~ below c k.
Proof using.
  intros Hwf Hc Hne Hl Hp k nk Hnk (ds & Hds & E). destruct ds as [|d ds]; [done|].
  assert (Hdec : forall k, Decision (among c es k)) by (intros; unfold among; apply _).
  destruct (pruned_lookup _ b b1 k nk Hp Hnk) as [Hno Hkb]. apply Hno.
  assert (Hg : good_comp d).
  { pose proof (comps_of_good k) as Hg. rewrite E in Hg. apply Forall_app in Hg as [_ Hg].
    by apply Forall_cons in Hg as [? _]. }
  destruct (child_key c d Hc Hne Hg) as [Hcd Hcc].
  assert (Hchild : exists n', mb_nodes b !! (c ++ SLASH :: d) = Some n').
  { pose proof (mw_canonical b Hwf k nk Hkb) as Hck. unfold canonical_key in *. rewrite Hcd, Hcc.
    destruct ds as [|d' ds].
    - exists nk. by rewrite <- E, <- Hck.
    - destruct (mw_ancestor b Hwf (d' :: ds) k nk (comps_of c ++ [d]) Hkb) as (p & Hpp & _);
        [by rewrite E, <- app_assoc|done|by exists p]. }
  destruct Hchild as [n' Hn']. destruct (Hl d n' Hg Hn') as (e & He & <-). apply Exists_exists. exists e.
  split; [done|]. unfold at_or_below. rewrite Hcc. exists ds. by rewrite E, <- app_assoc.
Qed.

Lemma at_or_below_cases c k : canonical_key c -> canonical_key k -> at_or_below c k -> k = c \/ below c k.
Proof using.
  intros Hc Hk [ds E]. destruct ds as [|d ds]; [left|right; by exists (d :: ds)].
  rewrite app_nil_r in E. unfold canonical_key in *. by rewrite Hc, Hk, E.
Qed.

Lemma among_below c es k : canonical_key c -> comps_of c <> [] ->
  Forall (fun e => good_comp (de_name e)) es -> among c es k -> below c k.
Proof using.
  intros Hc Hne Hes (e & He & [ds E])%Exists_exists. rewrite Forall_forall in Hes.
  destruct (child_key c (de_name e) Hc Hne (Hes e He)) as [_ Hcc]. rewrite Hcc, <- app_assoc in E.
  by exists (de_name e :: ds).
Qed.

Lemma remove_dir b c n : mem_wf b -> canonical_key c -> comps_of c <> [] -> depth_le D b ->
  mb_nodes b !! c = Some n -> n_is_dir n = true -> (D - length (comps_of c) < fuel)%nat ->
  removes c b (remove_tree_rec (S fuel) b c true).
Proof using IH.
  intros Hwf Hc Hne Hd Hn Hdir Hf. destruct (mem_readdir_children b c n Hwf Hn Hdir Hne) as (es & Hrd & Hes).
  assert (Hgood : Forall (fun e => good_comp (de_name e)) es).
  { apply Forall_forall. intros e (n' & _ & Hg & _)%Hes. done. }
  cbn [remove_tree_rec be_readdir mem_backend]. rewrite Hrd. fold (remove_step c).
  destruct (remove_children c Hc Hne Hf es b Hwf Hd) as (b1 & -> & Hp & Hwf1).
  { apply Forall_forall. intros e (n' & Hn' & Hg & He)%Hes.
    assert (de_name e <> DOT /\ de_name e <> DOTDOT) as [??].
    { eapply (mw_dots b Hwf _ _ (de_name e) Hn'). destruct (child_key c (de_name e) Hc Hne Hg) as [_ ->].
      apply elem_of_app. right. by apply list_elem_of_singleton. }
    split_and!; [done..|]. intros n'' Hn''. rewrite Hn' in Hn''. injection Hn'' as <-.
    rewrite He. cbn. by destruct (n_is_dir n'), (n_is_symlink n'). }
  assert (Hnb : forall k nk, mb_nodes b1 !! k = Some nk -> ~ below c k).
  { apply (nothing_below b b1 c es); try done. intros d nd Hg Hnd.
    exists (mkDirEntry (n_ino nd) (if n_is_dir nd then 2 else if n_is_symlink nd then 3 else 1) d).
    split; [|done]. apply Hes. by exists nd. }
  assert (Hc1 : mb_nodes b1 !! c = Some n).
  { destruct (Hp c) as [_ ->]; [done|]. intros (ds & Hds & E)%among_below; [|done..].
    apply (f_equal length) in E. rewrite length_app in E. destruct ds; [done|]. cbn in E. lia. }
  cbn [be_rmdir mem_backend]. unfold mem_rmdir, mem_node. rewrite (canonical_canon c Hc), Hc1, Hdir. cbn [negb].
  assert (existsb (starts_with (c ++ [SLASH])) (keys (mb_nodes b1)) = false) as ->.
  { apply not_true_iff_false. intros (k & Hin & Hk)%existsb_exists.
    apply list_elem_of_In, elem_of_keys in Hin as [nk Hnk]. pose proof (mw_canonical b1 Hwf1 k nk Hnk) as Hck.
    apply (Hnb k nk Hnk). by apply below_spec. }
  exists (drop_node b1 c (n_ino n)). split; [done|]. intros k. cbn. split.
  - intros Hk. apply lookup_delete_None. destruct (mb_nodes b1 !! k) as [nk|] eqn:Hnk; [left|by right].
    pose proof (mw_canonical b1 Hwf1 k nk Hnk) as Hck.
    destruct (at_or_below_cases c k Hc Hck Hk) as [-> |Hb]; [done|]. by apply Hnb in Hnk.
  - intros Hk. rewrite lookup_delete_ne by (intros <-; by apply Hk, at_or_below_refl).
    destruct (Hp k) as [_ ->]; [done|]. intros (ds & _ & E)%among_below; [|done..]. apply Hk. by exists ds.
Qed.
End removal.

(** The whole of the recursion. *)
Lemma remove_tree_rec_removes D : forall fuel b c d, mem_wf b -> canonical_key c -> comps_of c <> [] ->
  depth_le D b -> (forall n, mb_nodes b !! c = Some n -> n_is_dir n = d) ->
  (D + 1 - length (comps_of c) < fuel)%nat ->
  removes c b (remove_tree_rec fuel b c d).
Proof.
  induction fuel as [|fuel IH]; intros b c d Hwf Hc Hne Hd Hty Hf; [lia|].
  destruct (mb_nodes b !! c) as [n|] eqn:Hn.
  - rewrite <- (Hty n eq_refl). destruct (n_is_dir n) eqn:Hdir.
    + apply (remove_dir fuel D IH b c n); try done. pose proof (Hd c n Hn).
      destruct (comps_of c); [done|]. cbn in *. lia.
    + cbn. unfold mem_unlink, mem_node. rewrite (canonical_canon c Hc), Hn, Hdir.
      exists (drop_node b c (n_ino n)). split; [done|]. intros k. cbn. split.
      * intros Hk. apply lookup_delete_None. destruct (mb_nodes b !! k) as [nk|] eqn:Hnk; [left|by right].
        pose proof (mw_canonical b Hwf k nk Hnk) as Hck.
        destruct (at_or_below_cases c k Hc Hck Hk) as [-> |(ds & Hds & E)]; [done|].
        destruct (mw_ancestor b Hwf ds k nk (comps_of c) Hnk E Hds) as (p & Hp & Hpd).
        unfold canonical_key in Hc. rewrite <- Hc in Hp. congruence.
      * intros Hk. rewrite lookup_delete_ne; [done|]. intros <-. by apply Hk, at_or_below_refl.
  - exists b. split; [|by apply pruned_absent]. cbn. unfold mem_readdir, mem_unlink, mem_node.
    rewrite (canonical_canon c Hc), Hn. by destruct d.
Qed.

Lemma depth_bounded b : exists D, depth_le D b.
Proof.
  exists (max_list ((fun kn => length (comps_of kn.1)) <$> map_to_list (mb_nodes b))).
  intros k n Hk%elem_of_map_to_list. apply (max_list_elem_of_le (length (comps_of k))).
  apply list_elem_of_fmap. by exists (k, n).
Qed.

Lemma resolve_canonical_key ns path id rel n :
  Namespaces_resolve n ns path = Ok (id, rel) -> canonical_key rel.
Proof.
  unfold Namespaces_resolve. destruct (nss_map n !! ns) as [x|]; [|done].
  unfold MountTable_resolve, components. destruct (starts_with_slash path); [|done].
  destruct (covering _ _) as [m|]; [|done]. intros [= <- <-]. unfold canonical_key.
  rewrite comps_of_rel_path; [done|]. apply Forall_drop, comps_of_good.
Qed.

