(* ===== verification/VfsPath.v ===== *)
(** * Path resolution

    For backends whose [stat] and [readlink] do not modify them, resolution
    returns canonical paths: absolute, without symbolic links, and stable under
    a second resolution. *)

From S2P Require Import Prelude Paths VfsCore Vfs.

#[local] Open Scope Z_scope.

Section canonical.
Context {B : Type} `{FsBackend B}.
Hypothesis stat_pure : forall (be : B) p, (be_stat be p).2 = be.
Hypothesis readlink_pure : forall (be : B) p, (be_readlink be p).2 = be.
Implicit Types v : Vfs B.

Lemma quiet_eq v v' : quiet eq v v' -> v' = v.
Proof using.
  intros [[Hn Hb] Hns Hr Hf Hg]. destruct v as [[m n] ? ? ? ?], v' as [[m' n'] ? ? ? ?]. cbn in *.
  subst. f_equal. f_equal. apply map_eq. intros i. specialize (Hb i). inversion Hb; congruence.
Qed.

(** Resolution has no effect. *)
Lemma resolve_hops_pure left ns path v r v' : resolve_hops left ns path v = (r, v') -> v' = v.
Proof using All.
  intros Hr. apply quiet_eq. replace v' with (resolve_hops left ns path v).2 by (by rewrite Hr).
  apply quiet_resolve_hops; [apply _|..]; intros; by rewrite ?stat_pure, ?readlink_pure.
Qed.

(** [join comps] is the string built up by the loop. *)
Definition join (comps : list str) : str := concat (map (cons SLASH) comps).

Lemma join_snoc comps c : join (comps ++ [c]) = join comps ++ SLASH :: c.
Proof using. unfold join. rewrite map_app, concat_app. cbn. by rewrite app_nil_r. Qed.

Lemma rel_path_join comps : rel_path comps = if nonempty (join comps) then join comps else [SLASH].
Proof using. by destruct comps. Qed.

(** The entry at [path] exists and is not a symbolic link. *)
Definition plain_entry v (ns : Z) (path : str) : Prop :=
  exists bid rel be meta, Namespaces_resolve (v_namespaces v) ns path = Ok (bid, rel) /\
    BackendStore_get (v_backends v) bid = Some be /\ (be_stat be rel).1 = Ok meta /\
    m_is_symlink meta = false.

(** Every path on the way down [comps] is a plain entry. *)
Definition canonical v ns (comps : list str) : Prop :=
  forall pre post, comps = pre ++ post -> pre <> [] -> plain_entry v ns (join pre).

Lemma canonical_snoc v ns comps c :
  canonical v ns comps -> plain_entry v ns (join (comps ++ [c])) -> canonical v ns (comps ++ [c]).
Proof using.
  intros Hc Hp pre post He Hne. destruct post as [|x post _] using rev_ind.
  - rewrite app_nil_r in He. by subst.
  - rewrite app_assoc in He. apply app_inj_tail in He as [-> _]. by eapply Hc.
Qed.

Lemma put_backend_same v id be :
  BackendStore_get (v_backends v) id = Some be -> put_backend v id be = v.
Proof using.
  intros Hg. destruct v as [[m n] ? ? ? ?]. unfold put_backend, BackendStore_put. cbn in *.
  f_equal. f_equal. by apply insert_id.
Qed.

(** One step of the loop, by what is found at the next component. *)
Lemma walk_cons follow ns c comps resolved v :
  walk follow ns (c :: comps) resolved v =
    match Namespaces_resolve (v_namespaces v) ns (resolved ++ SLASH :: c) with
    | Err e => (Err (errno_mount e), v)
    | Ok (bid, rel) =>
        match BackendStore_get (v_backends v) bid with
        | None => (Err ENOMNT, v)
        | Some be =>
            match (be_stat be rel).1 with
            | Err e => (Err (errno_fs e), v)
            | Ok meta =>
                if m_is_symlink meta then
                  match (be_readlink be rel).1 with
                  | Err e => (Err (errno_fs e), v)
                  | Ok target =>
                      follow ((if starts_with_slash target then target
                               else resolved ++ SLASH :: target) ++ join comps) v
                  end
                else walk follow ns comps (resolved ++ SLASH :: c) v
            end
        end
    end.
Proof using All.
  cbn [walk]. unfold mbind, VM_bind, route.
  destruct (Namespaces_resolve _ _ _) as [[bid rel]|e]; cbn [map_err]; [|done].
  unfold on_backend at 1. destruct (BackendStore_get (v_backends v) bid) as [be|] eqn:Hg; [|done].
  pose proof (stat_pure be rel) as Hs. destruct (be_stat be rel) as [[meta|e] be']; cbn in Hs |- *; subst be'.
  all: rewrite put_backend_same by done.
  2: done.
  destruct (m_is_symlink meta); [|done]. unfold on_backend. rewrite Hg.
  pose proof (readlink_pure be rel) as Hl. destruct (be_readlink be rel) as [[t|e] be']; cbn in Hl |- *; subst be'.
  all: by rewrite put_backend_same.
Qed.

Lemma walk_canonical follow ns v :
  (forall path p v', follow path v = (Ok p, v') ->
     exists cs, p = rel_path cs /\ Forall good_comp cs /\ canonical v ns cs) ->
  forall comps done p v', Forall good_comp (done ++ comps) -> canonical v ns done ->
  walk follow ns comps (join done) v = (Ok p, v') ->
  exists cs, p = rel_path cs /\ Forall good_comp cs /\ canonical v ns cs.
Proof using All.
  intros Hf comps. induction comps as [|c comps IH]; intros dn p v' Hg Hc Hw.
  - cbn in Hw. injection Hw as <- <-. exists dn. rewrite app_nil_r in Hg.
    by rewrite <- rel_path_join.
  - rewrite walk_cons in Hw. destruct (Namespaces_resolve _ _ _) as [[bid rel]|e] eqn:Hr; [|done].
    destruct (BackendStore_get (v_backends v) bid) as [be|] eqn:Hb; [|done].
    destruct (be_stat be rel).1 as [meta|e] eqn:Hs; [|done].
    destruct (m_is_symlink meta) eqn:Hl.
    + destruct (be_readlink be rel).1 as [t|e]; [|done]. by eapply Hf.
    + rewrite <- join_snoc in Hw, Hr. eapply IH; [|  |exact Hw].
      * by rewrite <- app_assoc.
      * apply canonical_snoc; [done|]. by exists bid, rel, be, meta.
Qed.

Lemma resolve_hops_canonical left ns v : forall path p v',
  resolve_hops left ns path v = (Ok p, v') ->
  exists cs, p = rel_path cs /\ Forall good_comp cs /\ canonical v ns cs.
Proof using All.
  induction left as [|left IH]; intros path p v' Hr; [done|]. cbn [resolve_hops] in Hr.
  eapply (walk_canonical _ ns v IH _ []); [apply comps_of_good| |exact Hr].
  intros pre post He Hne. by destruct pre.
Qed.

(** Canonical components are walked without following anything. *)
Lemma walk_plain follow ns v comps : forall done,
  canonical v ns (done ++ comps) ->
  walk follow ns comps (join done) v = (Ok (rel_path (done ++ comps)), v).
Proof using All.
  induction comps as [|c comps IH]; intros dn Hc.
  - rewrite app_nil_r. by rewrite rel_path_join.
  - destruct (Hc (dn ++ [c]) comps) as (bid & rel & be & meta & Hr & Hb & Hs & Hl).
    { by rewrite <- app_assoc. }
    { by destruct dn. }
    rewrite walk_cons, <- join_snoc, Hr, Hb, Hs, Hl, IH; by rewrite <- app_assoc.
Qed.

(** Resolution yields canonical paths.  When it succeeds it has changed
    nothing, its result is an absolute path on which every entry from the root
    down exists and is not a symbolic link, and resolving the result again, in
    however many hops, returns it unchanged. *)
Theorem resolve_canonical ns path p v v' :
  resolve ns path v = (Ok p, v') ->
  v' = v /\ starts_with_slash p = true /\ canonical v ns (comps_of p) /\
  forall left, resolve_hops (S left) ns p v = (Ok p, v).
Proof using All.
  intros Hr. pose proof (resolve_hops_pure _ _ _ _ _ _ Hr) as ->.
  destruct (resolve_hops_canonical _ _ _ _ _ _ Hr) as (cs & -> & Hg & Hc).
  split_and!; [done|apply rel_path_absolute|by rewrite comps_of_rel_path|].
  intros left. cbn [resolve_hops]. rewrite comps_of_rel_path by done. by apply (walk_plain _ ns v cs []).
Qed.

(** Link chains end.  If following a symbolic link at [path] always leads
    to a path that is again such a link, resolution answers [EINVAL] after nine
    steps instead of running on. *)
Lemma symlink_loop_rejected ns v (loops : str -> Prop) :
  (forall path, loops path -> forall follow,
     exists next, loops next /\ walk follow ns (comps_of path) [] v = follow next v) ->
  forall path, loops path -> resolve ns path v = (Err EINVAL, v).
Proof using.
  intros Hl path Hp. unfold resolve. generalize (S MAX_SYMLINK_HOPS). intros left. revert path Hp.
  induction left as [|left IH]; intros path Hp; [done|]. cbn [resolve_hops].
  destruct (Hl path Hp (resolve_hops left ns)) as (next & Hn & ->). by apply IH.
Qed.

End canonical.
