(* ===== verification/VfsInv.v ===== *)
(** * The VFS state invariant

    Routes, backends, guards and descriptors stay consistent through every
    operation of [Vfs]: no dangling backend id, the root always mounted, ids
    never reused. *)

From S2P Require Import Prelude Paths VfsCore Vfs.

#[local] Open Scope Z_scope.

(** ** The state invariant *)

Section invariant.
Context {B : Type} `{FsBackend B}.

Definition live (v : Vfs B) (id : Z) : Prop := is_Some (bs_backends (v_backends v) !! id).

(** Every route leads to a live backend and every live backend is routed to;
    the root stays mounted; mount points are distinct; guards belong to live
    backends; ids in use, by backends or descriptors, are below the next id. *)
Record Vfs_wf (v : Vfs B) : Prop := {
  wf_root : exists x m, nss_map (v_namespaces v) !! ROOT_NS = Some x /\ m ∈ ns_table x /\
    mt_at m = [] /\ mt_backend m = v_root_id v;
  wf_points : forall ns x, nss_map (v_namespaces v) !! ns = Some x -> NoDup (mt_at <$> ns_table x);
  wf_routes : forall ns x m, nss_map (v_namespaces v) !! ns = Some x -> m ∈ ns_table x ->
    live v (mt_backend m);
  wf_owned : forall id, live v id -> exists ns x m,
    nss_map (v_namespaces v) !! ns = Some x /\ m ∈ ns_table x /\ mt_backend m = id;
  wf_ids : forall id, live v id -> 0 <= id < bs_next_id (v_backends v);
  wf_next : 0 <= bs_next_id (v_backends v);
  wf_fds_length : length (v_fds v) = MAX_FDS;
  wf_fds : forall slot f, v_fds v !! slot = Some (Some f) ->
    0 <= of_mount f < bs_next_id (v_backends v);
  wf_guards : forall id, is_Some (v_guards v !! id) -> live v id
}.

(** Backends, descriptors and seals change; routing does not. *)
Record frame (v v' : Vfs B) : Prop := {
  fr_namespaces : v_namespaces v' = v_namespaces v;
  fr_root : v_root_id v' = v_root_id v;
  fr_next : bs_next_id (v_backends v') = bs_next_id (v_backends v);
  fr_live : forall id, live v' id <-> live v id;
  fr_length : length (v_fds v') = length (v_fds v);
  fr_fds : forall slot f, v_fds v' !! slot = Some (Some f) ->
    0 <= of_mount f < bs_next_id (v_backends v);
  fr_guards : forall id, is_Some (v_guards v' !! id) -> is_Some (v_guards v !! id)
}.

Lemma frame_wf v v' : frame v v' -> Vfs_wf v -> Vfs_wf v'.
Proof.
  intros [] []. split.
  - rewrite fr_namespaces0, fr_root0. done.
  - rewrite fr_namespaces0. done.
  - rewrite fr_namespaces0. intros. apply fr_live0. by eapply wf_routes0.
  - rewrite fr_namespaces0. intros id ?%fr_live0. auto.
  - rewrite fr_next0. intros id ?%fr_live0. auto.
  - lia.
  - congruence.
  - rewrite fr_next0. done.
  - intros id ?%fr_guards0. apply fr_live0. auto.
Qed.

(** From a well-formed state, a framed change. *)
Definition kept (v v' : Vfs B) : Prop := Vfs_wf v -> frame v v'.

#[export] Instance kept_preorder : PreOrder kept.
Proof.
  split.
  - intros v Hwf. split; try done. apply Hwf.
  - intros v1 v2 v3 H12 H23 Hwf. specialize (H12 Hwf). specialize (H23 (frame_wf _ _ H12 Hwf)).
    destruct H12 as [? ? ? Hl12 ? Hf12 Hg12], H23 as [? ? ? Hl23 ? Hf23 Hg23]. split; try congruence.
    + intros id. by rewrite Hl23, Hl12.
    + intros slot f Hs%Hf23. lia.
    + intros id Hg. by apply Hg12, Hg23.
Qed.

Lemma quiet_kept v v' : quiet (fun _ _ => True) v v' -> kept v v'.
Proof.
  intros [[Hn Hb] Hns Hr Hf Hg] Hwf. split; try done.
  - intros id. unfold live. specialize (Hb id). inversion Hb; by rewrite ?is_Some_alt.
  - by rewrite Hf.
  - rewrite Hf. apply Hwf.
  - by rewrite Hg.
Qed.

Lemma kept_on_backend {A} id missing (call : B -> result A FsError * B) :
  steps kept (on_backend id missing call).
Proof. intros v. apply quiet_kept, quiet_on_backend; [apply _|done]. Qed.

Lemma kept_resolve ns path : steps kept (resolve ns path).
Proof. intros v. apply quiet_kept, quiet_resolve; [apply _|done..]. Qed.

Lemma kept_resolve_parent ns path : steps kept (resolve_parent ns path).
Proof. intros v. apply quiet_kept, quiet_resolve_parent; [apply _|done..]. Qed.

(** *** Descriptors are stored for ids in range only *)

Definition in_range (id : Z) (v : Vfs B) : Prop := 0 <= id < bs_next_id (v_backends v).

Definition kept_at {A} (id : Z) (m : VM B A) : Prop :=
  forall v, Vfs_wf v -> in_range id v -> frame v (m v).2.

Lemma kept_at_weaken {A} id (m : VM B A) : steps kept m -> kept_at id m.
Proof. intros Hm v Hwf _. by apply Hm. Qed.

Lemma kept_at_bind {A C} id (m : VM B A) (k : A -> VM B C) :
  kept_at id m -> (forall a, kept_at id (k a)) -> kept_at id (m ≫= k).
Proof.
  intros Hm Hk v Hwf Hr. specialize (Hm v Hwf Hr). unfold mbind, VM_bind.
  destruct (m v) as [[a|e] v']; [|done]. cbn in Hm.
  assert (Hr' : in_range id v') by (unfold in_range; rewrite (fr_next _ _ Hm); done).
  assert (Hwf' : Vfs_wf v') by (by eapply frame_wf).
  apply (transitivity (y := v') (R := kept)); [by intros _|intros _; by apply Hk|done].
Qed.

Lemma kept_at_put_fd id slot fo :
  (forall f, fo = Some f -> of_mount f = id) -> kept_at id (put_fd slot fo).
Proof.
  intros Hf v Hwf Hr. split; try done; cbn.
  - by rewrite length_insert.
  - intros s f Hs. apply list_lookup_insert_Some in Hs as [(-> & -> & _)|[_ Hs]].
    + by rewrite (Hf f).
    + by eapply (wf_fds v Hwf).
Qed.

(** After a successful call on backend [id], or for the mount of an open
    descriptor, [id] is in range. *)
Lemma kept_backend_then {A C} id missing (call : B -> result A FsError * B) (k : A -> VM B C) :
  (forall a, kept_at id (k a)) -> steps kept (on_backend id missing call ≫= k).
Proof.
  intros Hk v Hwf. pose proof (kept_on_backend id missing call v Hwf) as Hm.
  unfold mbind, VM_bind. destruct (on_backend id missing call v) as [[a|e] v'] eqn:Ho; [|done].
  cbn in Hm. apply (transitivity (y := v') (R := kept)); [by intros _| |done].
  intros Hwf'. apply Hk; [done|]. unfold in_range. rewrite (fr_next _ _ Hm). apply (wf_ids v Hwf).
  unfold on_backend in Ho. unfold live. unfold BackendStore_get in Ho.
  by destruct (bs_backends (v_backends v) !! id).
Qed.

Lemma kept_get_fd_then {C} fd (k : OpenFile -> VM B C) :
  (forall f, kept_at (of_mount f) (k f)) -> steps kept (get_fd fd ≫= k).
Proof.
  intros Hk v Hwf. unfold mbind, VM_bind, get_fd.
  destruct (v_fds v !! Z.to_nat fd) as [[f|]|] eqn:Hf; [|apply kept_preorder; done..].
  apply Hk; [done|]. by eapply (wf_fds v Hwf).
Qed.

Lemma kept_at_seal id id' old_rel name : kept_at id (seal_after_rename id' old_rel name).
Proof.
  intros v Hwf Hr. split; try done; cbn.
  - case_match; [by rewrite length_fmap|done].
  - assert (Hold : forall slot f, v_fds v !! slot = Some (Some f) ->
      0 <= of_mount f < bs_next_id (v_backends v)) by apply Hwf.
    destruct (top_component old_rel) as [t|]; [|done]. intros slot f Hs.
    rewrite list_lookup_fmap in Hs. destruct (v_fds v !! slot) as [[f0|]|] eqn:Hf0; try done.
    cbn in Hs. injection Hs as <-. unfold retarget_fd. specialize (Hold _ _ Hf0). by case_match.
  - intros i. rewrite lookup_alter_is_Some. done.
Qed.

End invariant.
#[export] Hint Resolve kept_on_backend kept_resolve kept_resolve_parent : vm.

(** ** The operations keep the invariant *)

Ltac kept_step :=
  match goal with
  | |- steps kept (mbind _ (get_fd _)) => apply kept_get_fd_then; intros ?
  | |- steps kept (mbind _ (on_backend _ _ _)) => apply kept_backend_then; intros ?
  | |- steps kept (mbind _ _) => apply steps_bind; [apply _| |intros ?]
  | |- kept_at _ (mbind _ _) => apply kept_at_bind; [|intros ?]
  | |- kept_at _ (put_fd _ _) => apply kept_at_put_fd; by intros ? [= <-]
  | |- kept_at _ (seal_after_rename _ _ _) => apply kept_at_seal
  | |- _ (let '(_, _) := ?x in _) => destruct x
  | |- _ (if ?b then _ else _) => destruct b
  | |- _ (match ?x with _ => _ end) => destruct x
  | |- kept_at _ _ => apply kept_at_weaken; solve [eauto with vm typeclass_instances]
  | |- _ => solve [eauto with vm typeclass_instances]
  end.

Section operations.
Context {B : Type} `{FsBackend B}.

Lemma kept_staged_on id : steps kept (staged_on id).
Proof. intros v. reflexivity. Qed.

Lemma kept_forget_name id name : steps (B := B) kept (forget_name id name).
Proof.
  intros v Hwf. split; try done; cbn; [apply Hwf|]. intros i. by rewrite lookup_alter_is_Some.
Qed.

Lemma kept_remove_tree fuel id rel d : steps kept (remove_tree fuel id rel d).
Proof.
  intros v. apply quiet_kept. unfold remove_tree.
  destruct (BackendStore_get (v_backends v) id) as [be|] eqn:Hg; [|reflexivity].
  destruct (remove_tree_rec fuel be rel d) as [[r be']|]; [|reflexivity].
  split; try done. by eapply stores_rel_put.
Qed.

#[local] Hint Resolve kept_staged_on kept_forget_name kept_remove_tree : vm.

Lemma kept_open path : steps kept (open path).
Proof. unfold open. repeat kept_step. Qed.
Lemma kept_read fd n : steps kept (read fd n).
Proof. unfold read. repeat kept_step. Qed.
Lemma kept_write fd buf : steps kept (write fd buf).
Proof. unfold write. repeat kept_step. Qed.
Lemma kept_close fd : steps kept (close fd).
Proof. unfold close. repeat kept_step. Qed.
Lemma kept_seek fd off whence : steps (B := B) kept (seek fd off whence).
Proof. unfold seek. repeat kept_step. Qed.
Lemma kept_create path : steps kept (create path).
Proof. unfold create. repeat kept_step. Qed.
Lemma kept_mkdir path : steps kept (mkdir path).
Proof. unfold mkdir. repeat kept_step. Qed.
Lemma kept_unlink path : steps kept (unlink path).
Proof. unfold unlink. repeat kept_step. Qed.
Lemma kept_symlink target link : steps kept (symlink target link).
Proof. unfold symlink. repeat kept_step. Qed.
Lemma kept_readlink path : steps kept (readlink path).
Proof. unfold readlink. repeat kept_step. Qed.
Lemma kept_rename old new : steps kept (rename old new).
Proof. unfold rename, rename_routed. repeat kept_step. Qed.
Lemma kept_stat_path path : steps kept (stat_path path).
Proof. unfold stat_path. repeat kept_step. Qed.
Lemma kept_readdir_path path : steps kept (readdir_path path).
Proof. unfold readdir_path. repeat kept_step. Qed.
Lemma kept_load_file path : steps kept (load_file path).
Proof. unfold load_file. repeat kept_step. Qed.
Lemma kept_store_remove_tree fuel path : steps kept (store_remove_tree fuel path).
Proof. unfold store_remove_tree, stat_entry. repeat kept_step. Qed.
Lemma kept_write_root_file path data : steps kept (write_root_file path data).
Proof. unfold write_root_file. repeat kept_step. Qed.

#[local] Hint Resolve kept_load_file kept_write_root_file : vm.

Lemma kept_obtain_store_dek env : steps kept (obtain_store_dek env).
Proof. unfold obtain_store_dek. repeat kept_step. Qed.

#[local] Hint Resolve kept_obtain_store_dek : vm.

Lemma kept_build_backend env source : steps kept (build_backend env source).
Proof. unfold build_backend. repeat kept_step. Qed.

End operations.

(** ** Mounting and unmounting *)

Section mounting.
Context {B : Type} `{FsBackend B}.

Lemma set_table_lookup n ns t i :
  nss_map (set_table n ns t) !! i =
    if bool_decide (i = ns) then (fun x => mkNs t (ns_refcount x)) <$> nss_map n !! i
    else nss_map n !! i.
Proof.
  cbn. case_bool_decide as Hi.
  - subst. by rewrite lookup_alter_eq.
  - by rewrite lookup_alter_ne.
Qed.

Lemma live_dom (v : Vfs B) id : live v id <-> id ∈ dom (bs_backends (v_backends v)).
Proof. unfold live. by rewrite elem_of_dom. Qed.

(** A failed mount only ran the covering backend's [stat]. *)
Lemma mount_in_ns_Err ns at_ be (v v' : Vfs B) e :
  mount_in_ns ns at_ be v = (Err e, v') -> kept v v'.
Proof.
  unfold mount_in_ns, Namespaces_mount. destruct (nss_map (v_namespaces v) !! ns) as [x|] eqn:Hx.
  - destruct (MountTable_mount (ns_table x) at_ be (v_backends v)) as [[r t'] store'] eqn:Hm.
    intros [= He <-]. destruct r as [id|e']; [done|].
    apply MountTable_mount_Err in Hm as (-> & Hn & Hd). intros Hwf. split; cbn; try done.
    + destruct (v_namespaces v) as [m n]. unfold set_table. cbn in *. f_equal.
      apply map_eq. intros i. destruct (decide (i = ns)) as [-> |].
      * rewrite lookup_alter_eq, Hx. by destruct x.
      * by rewrite lookup_alter_ne.
    + intros id. rewrite !live_dom. cbn. by rewrite Hd.
    + apply Hwf.
  - intros [= <- <-]. intros Hwf. split; try done. apply Hwf.
Qed.

Lemma mount_in_ns_Ok ns at_ be (v v' : Vfs B) id :
  mount_in_ns ns at_ be v = (Ok id, v') ->
  exists x, nss_map (v_namespaces v) !! ns = Some x /\
    starts_with_slash at_ = true /\ (comps_of at_ ∉ (mt_at <$> ns_table x)) /\
    id = bs_next_id (v_backends v) /\
    v_namespaces v' = set_table (v_namespaces v) ns (ns_table x ++ [mkMount (comps_of at_) id]) /\
    bs_next_id (v_backends v') = wrap 64 (id + 1) /\
    bs_backends (v_backends v') !! id = Some be /\
    (forall i, i <> id -> live v' i <-> live v i) /\
    v_root_id v' = v_root_id v /\ v_fds v' = v_fds v /\ v_guards v' = v_guards v.
Proof.
  unfold mount_in_ns, Namespaces_mount. destruct (nss_map (v_namespaces v) !! ns) as [x|]; [|done].
  destruct (MountTable_mount (ns_table x) at_ be (v_backends v)) as [[r t'] store'] eqn:Hm.
  intros [= Hr <-]. destruct r as [id'|e]; [|done]. injection Hr as ->.
  apply MountTable_mount_Ok in Hm as (store1 & Ha & Hfr & -> & Hins & Hn & Hd).
  injection Hins as -> ->. exists x. split_and!; cbn; try done; try congruence.
  - by rewrite lookup_insert_eq.
  - intros i Hi. unfold live. cbn. rewrite lookup_insert_ne by done.
    by rewrite <- !elem_of_dom, Hd.
Qed.

Lemma wf_mount_in_ns ns at_ be (v v' : Vfs B) id :
  Vfs_wf v -> bs_next_id (v_backends v) + 1 < 2 ^ 64 ->
  mount_in_ns ns at_ be v = (Ok id, v') -> Vfs_wf v'.
Proof.
  intros Hwf Hlt (x & Hx & Ha & Hfr & -> & Hns & Hnext & Hbe & Hlive & Hroot & Hfds & Hg)%mount_in_ns_Ok.
  pose proof (wf_next v Hwf) as Hge. rewrite wrap_small in Hnext by (unfold in_u; lia).
  set (id := bs_next_id (v_backends v)) in *.
  assert (Hid : live v' id) by (by exists be).
  assert (Hup : forall i, live v i -> live v' i).
  { intros i Hi. apply Hlive; [|done]. pose proof (wf_ids v Hwf i Hi). lia. }
  assert (Htab : forall i y, nss_map (v_namespaces v') !! i = Some y ->
    (i = ns /\ ns_table y = ns_table x ++ [mkMount (comps_of at_) id]) \/
    (i <> ns /\ nss_map (v_namespaces v) !! i = Some y)).
  { intros i y. rewrite Hns, set_table_lookup. case_bool_decide as Hi; [|by right].
    subst i. rewrite Hx. cbn. intros [= <-]. by left. }
  split.
  - destruct (wf_root v Hwf) as (x0 & m & Hx0 & Hm & Hat & Hr). rewrite Hns, set_table_lookup, Hroot.
    case_bool_decide as Hi; [|by exists x0, m]. subst ns. rewrite Hx0 in Hx. injection Hx as ->.
    rewrite Hx0. eexists _, m. split_and!; [done| |done|done]. cbn. apply elem_of_app. by left.
  - intros i y [(-> & ->)|[_ Hy]]%Htab; [|by eapply wf_points]. rewrite fmap_app. cbn.
    apply NoDup_app. split_and!; [by eapply wf_points| |apply NoDup_singleton].
    intros c Hc ->%list_elem_of_singleton. done.
  - intros i y m [(-> & ->)|[_ Hy]]%Htab Hm.
    + apply elem_of_app in Hm as [Hm| ->%list_elem_of_singleton]; [|done].
      apply Hup. by eapply wf_routes.
    + apply Hup. by eapply wf_routes.
  - intros i Hi. destruct (decide (i = id)) as [-> |Hne].
    + eexists ns, _, (mkMount (comps_of at_) id). rewrite Hns, set_table_lookup.
      rewrite bool_decide_true by done. rewrite Hx. split_and!; [done| |done]. cbn.
      apply elem_of_app. right. by apply list_elem_of_singleton.
    + apply Hlive in Hi; [|done]. destruct (wf_owned v Hwf i Hi) as (ns1 & y & m & Hy & Hm & He).
      destruct (decide (ns1 = ns)) as [-> |Hn].
      * rewrite Hx in Hy. injection Hy as <-. eexists ns, _, m.
        rewrite Hns, set_table_lookup, bool_decide_true, Hx by done.
        split_and!; [done| |done]. cbn. apply elem_of_app. by left.
      * exists ns1, y, m. by rewrite Hns, set_table_lookup, bool_decide_false by done.
  - intros i Hi. rewrite Hnext. destruct (decide (i = id)) as [-> |Hne]; [lia|].
    apply Hlive in Hi; [|done]. pose proof (wf_ids v Hwf i Hi). lia.
  - lia.
  - rewrite Hfds. apply Hwf.
  - rewrite Hfds, Hnext. intros slot f Hs. pose proof (wf_fds v Hwf slot f Hs). lia.
  - rewrite Hg. intros i Hi. apply Hup. by eapply wf_guards.
Qed.

Lemma wf_mount env at_ source flags (v : Vfs B) :
  Vfs_wf v -> bs_next_id (v_backends v) + 1 < 2 ^ 64 -> Vfs_wf (mount env at_ source flags v).2.
Proof.
  intros Hwf Hlt. unfold mount. destruct (negb _); [done|]. unfold get_vfs, mbind, VM_bind, throw.
  destruct (Namespaces_is_mounted_at _ _ _); [done|].
  pose proof (kept_build_backend env source v Hwf) as Hb.
  destruct (build_backend env source v) as [[be|e] v1]; cbn in Hb; [|by eapply frame_wf].
  assert (Hwf1 : Vfs_wf v1) by (by eapply frame_wf).
  rewrite <- (fr_next _ _ Hb) in Hlt.
  destruct (mount_in_ns current_ns at_ be v1) as [[id|e] v2] eqn:Hm.
  2: { eapply frame_wf; [|exact Hwf1]. by eapply mount_in_ns_Err. }
  pose proof (wf_mount_in_ns _ _ _ _ _ _ Hwf1 Hlt Hm) as Hwf2.
  destruct (negb _); [|done].
  pose proof (steps_attempt kept (on_backend id ENOMNT (fun be => be_readdir be [SLASH]))
                (kept_on_backend _ _ _) v2 Hwf2) as Ha.
  assert (Hid : live v2 id) by (apply mount_in_ns_Ok in Hm as (? & _ & _ & _ & -> & _ & _ & Hbe & _); by eexists).
  unfold attempt in *. destruct (on_backend id _ _ v2) as [[es|e] v3]; cbn in Ha |- *.
  all: assert (Hwf3 : Vfs_wf v3) by (by eapply frame_wf).
  all: destruct Hwf3; split; cbn; try done.
  all: intros i Hi; destruct (decide (i = id)) as [-> |Hne];
    [by apply Ha|apply wf_guards0; by rewrite lookup_insert_ne in Hi].
Qed.

Lemma MountTable_unmount_Ok t at_ freed t' :
  MountTable_unmount t at_ = Ok (freed, t') ->
  exists t1 m t2, t = t1 ++ m :: t2 /\ t' = t1 ++ t2 /\ mt_at m = comps_of at_ /\
    mt_backend m = freed /\ starts_with_slash at_ = true.
Proof.
  unfold MountTable_unmount, components. destruct (starts_with_slash at_); [|done].
  destruct (position _ t) as [pos|] eqn:Hp; [|done].
  apply position_Some in Hp as (m & Hm & Hat%bool_decide_eq_true & _). rewrite Hm.
  intros [= <- <-]. exists (take pos t), m, (drop (S pos) t). split_and!; try done.
  - by rewrite take_drop_middle.
  - by rewrite delete_take_drop.
Qed.

Lemma any_routes_spec n id :
  Namespaces_any_routes_to n id = true <->
  exists ns x m, nss_map n !! ns = Some x /\ m ∈ ns_table x /\ mt_backend m = id.
Proof.
  unfold Namespaces_any_routes_to, MountTable_routes_to. rewrite existsb_exists. split.
  - intros ([ns x] & Hin & (m & Hm & He)%existsb_exists). apply list_elem_of_In, elem_of_map_to_list in Hin.
    exists ns, x, m. rewrite list_elem_of_In. split_and!; [done|done|lia].
  - intros (ns & x & m & Hx & Hm & <-). exists (ns, x). split.
    + by apply list_elem_of_In, elem_of_map_to_list.
    + apply existsb_exists. exists m. rewrite <- list_elem_of_In. split; [done|lia].
Qed.

(** The root route cannot be the one removed: it is pinned. *)
Lemma pinned_root (v : Vfs B) x m :
  Vfs_wf v -> nss_map (v_namespaces v) !! ROOT_NS = Some x -> m ∈ ns_table x -> mt_at m = [] ->
  forall at_, starts_with_slash at_ = true -> comps_of at_ = [] ->
  Namespaces_resolve (v_namespaces v) ROOT_NS at_ = Ok (mt_backend m, [SLASH]).
Proof.
  intros Hwf Hx Hm Hat at_ Ha Hc. unfold Namespaces_resolve. rewrite Hx.
  unfold MountTable_resolve, components. rewrite Ha, Hc.
  rewrite (covering_unique _ _ m); [by rewrite Hat|by eapply wf_points|done| |].
  - rewrite Hat. apply prefix_nil.
  - intros m' _ Hp. apply prefix_nil_inv in Hp. rewrite Hp. cbn. lia.
Qed.

Lemma unmount_Ok at_ (v v' : Vfs B) n :
  Vfs_wf v -> unmount at_ v = (Ok n, v') ->
  exists x t1 m t2, n = 0 /\ nss_map (v_namespaces v) !! ROOT_NS = Some x /\
    ns_table x = t1 ++ m :: t2 /\ mt_at m = comps_of at_ /\ mt_at m <> [] /\
    v_namespaces v' = set_table (v_namespaces v) ROOT_NS (t1 ++ t2) /\
    v_root_id v' = v_root_id v /\ v_fds v' = v_fds v /\
    if Namespaces_any_routes_to (v_namespaces v') (mt_backend m)
    then v_backends v' = v_backends v /\ v_guards v' = v_guards v
    else v_backends v' = (BackendStore_remove (v_backends v) (mt_backend m)).2 /\
         v_guards v' = delete (mt_backend m) (v_guards v).
Proof.
  intros Hwf. unfold unmount. destruct (match Namespaces_resolve _ _ _ with Ok _ => _ | Err _ => _ end)
    eqn:Hpin; [done|]. unfold Namespaces_unmount, current_ns in *.
  destruct (nss_map (v_namespaces v) !! ROOT_NS) as [x|] eqn:Hx; [|done].
  destruct (MountTable_unmount (ns_table x) at_) as [[freed t']|e] eqn:Hu; [|done].
  apply MountTable_unmount_Ok in Hu as (t1 & m & t2 & Ht & -> & Hat & <- & Ha).
  intros Hv. exists x, t1, m, t2.
  assert (Hne : mt_at m <> []).
  { intros He. assert (m ∈ ns_table x) as Hm by (rewrite Ht; set_solver).
    destruct (wf_root v Hwf) as (x0 & m0 & Hx0 & Hm0 & Hat0 & Hr0).
    rewrite (pinned_root v x0 m0 Hwf Hx0 Hm0 Hat0 at_ Ha) in Hpin by congruence.
    rewrite Hr0, Z.eqb_refl, bool_decide_true in Hpin by done. done. }
  destruct (Namespaces_any_routes_to _ (mt_backend m)) eqn:Hr; injection Hv as <- <-; cbn.
  all: change (mkNamespaces _ _) with (set_table (v_namespaces v) ROOT_NS (t1 ++ t2)); rewrite Hr.
  all: by split_and!.
Qed.

Lemma wf_unmount at_ (v : Vfs B) : Vfs_wf v -> Vfs_wf (unmount at_ v).2.
Proof.
  intros Hwf. destruct (unmount at_ v) as [[n|e] v'] eqn:Hu; cbn.
  2: { revert Hu. unfold unmount. destruct (match Namespaces_resolve _ _ _ with Ok _ => _ | _ => _ end).
       - by intros [= _ <-].
       - destruct (Namespaces_unmount _ _ _) as [[freed|e'] nss]; [by destruct (Namespaces_any_routes_to _ _)|].
         by intros [= _ <-]. }
  destruct (unmount_Ok at_ v v' n Hwf Hu) as
    (x & t1 & m & t2 & -> & Hx & Ht & Hat & Hne & Hns & Hroot & Hfds & Hif).
  assert (Htab : forall i y m', nss_map (v_namespaces v') !! i = Some y -> m' ∈ ns_table y ->
    exists y0, nss_map (v_namespaces v) !! i = Some y0 /\ m' ∈ ns_table y0).
  { intros i y m'. rewrite Hns, set_table_lookup. case_bool_decide as Hi; [|by eauto].
    subst i. rewrite Hx. cbn. intros [= <-] Hm'. exists x. rewrite Ht. cbn in Hm'.
    split; [done|]. set_solver. }
  assert (Hlive : forall id, live v' id <-> live v id /\
     (Namespaces_any_routes_to (v_namespaces v') (mt_backend m) = true \/ id <> mt_backend m)).
  { intros id. unfold live. destruct (Namespaces_any_routes_to _ _).
    - destruct Hif as [-> _]. naive_solver.
    - destruct Hif as [-> _]. cbn. rewrite lookup_delete_is_Some. naive_solver. }
  assert (Hstay : forall i y m', nss_map (v_namespaces v') !! i = Some y -> m' ∈ ns_table y ->
    live v' (mt_backend m')).
  { intros i y m' Hy Hm'. destruct (Htab i y m' Hy Hm') as (y0 & Hy0 & Hm0). apply Hlive.
    split; [by eapply wf_routes|]. destruct (decide (mt_backend m' = mt_backend m)) as [He|]; [left|by right].
    apply any_routes_spec. exists i, y, m'. by rewrite He. }
  split.
  - destruct (wf_root v Hwf) as (x0 & m0 & Hx0 & Hm0 & Hat0 & Hr0). rewrite Hroot, Hns, set_table_lookup.
    rewrite bool_decide_true, Hx by done. eexists _, m0. split_and!; [done| |done|done]. cbn.
    assert (x0 = x) as -> by congruence. rewrite Ht in Hm0.
    assert (m0 <> m) by congruence. set_solver.
  - intros i y. rewrite Hns, set_table_lookup. case_bool_decide as Hi; [|by eapply wf_points].
    subst i. rewrite Hx. cbn. intros [= <-]. cbn. pose proof (wf_points v Hwf _ _ Hx) as Hnd.
    rewrite Ht in Hnd. rewrite fmap_app in *. rewrite fmap_cons in Hnd.
    apply NoDup_app in Hnd as (H1 & H2 & [_ H3]%NoDup_cons). apply NoDup_app. set_solver.
  - exact Hstay.
  - intros id [Hl Hor]%Hlive. destruct (wf_owned v Hwf id Hl) as (i & y & m' & Hy & Hm' & He).
    destruct (decide (id = mt_backend m)) as [-> |Hd]; [apply any_routes_spec; by destruct Hor|].
    destruct (decide (i = ROOT_NS)) as [-> |Hi].
    + assert (y = x) as -> by congruence. eexists ROOT_NS, _, m'.
      rewrite Hns, set_table_lookup, bool_decide_true, Hx by done. split_and!; [done| |done].
      cbn. rewrite Ht in Hm'. assert (m' <> m) by congruence. set_solver.
    + exists i, y, m'. by rewrite Hns, set_table_lookup, bool_decide_false.
  - assert (Hn : bs_next_id (v_backends v') = bs_next_id (v_backends v)).
    { destruct (Namespaces_any_routes_to _ _); by destruct Hif as [-> _]. }
    rewrite Hn. intros id [Hl _]%Hlive. by apply Hwf.
  - destruct (Namespaces_any_routes_to _ _); destruct Hif as [-> _]; exact (wf_next v Hwf).
  - rewrite Hfds. exact (wf_fds_length v Hwf).
  - rewrite Hfds. destruct (Namespaces_any_routes_to _ _); destruct Hif as [-> _]; exact (wf_fds v Hwf).
  - intros id Hg. apply Hlive. destruct (Namespaces_any_routes_to _ _); destruct Hif as [_ Hgs]; rewrite Hgs in Hg.
    + split; [by apply Hwf|by left].
    + apply lookup_delete_is_Some in Hg as [Hne' Hg]. split; [by apply Hwf|by right].
Qed.

End mounting.

(** ** Runs *)

Section runs.
Context {B : Type} `{FsBackend B}.

Inductive vfs_op : Type :=
| OpOpen (path : list Z) | OpRead (fd : Z) (n : nat) | OpWrite (fd : Z) (buf : list Z)
| OpClose (fd : Z) | OpSeek (fd off whence : Z) | OpCreate (path : list Z) | OpMkdir (path : list Z)
| OpUnlink (path : list Z) | OpSymlink (target link : list Z) | OpReadlink (path : list Z)
| OpRename (old new : list Z) | OpStat (path : list Z) | OpReaddir (path : list Z)
| OpLoad (path : list Z) | OpStoreRemove (fuel : nat) (path : list Z)
| OpMount (env : Env B) (at_ : str) (source flags : Z) | OpUnmount (at_ : str).

(** The state after a call. *)
Definition run_op (v : Vfs B) (op : vfs_op) : Vfs B :=
  match op with
  | OpOpen p => (open p v).2
  | OpRead fd n => (read fd n v).2
  | OpWrite fd buf => (write fd buf v).2
  | OpClose fd => (close fd v).2
  | OpSeek fd off w => (seek fd off w v).2
  | OpCreate p => (create p v).2
  | OpMkdir p => (mkdir p v).2
  | OpUnlink p => (unlink p v).2
  | OpSymlink t l => (symlink t l v).2
  | OpReadlink p => (readlink p v).2
  | OpRename o n => (rename o n v).2
  | OpStat p => (stat_path p v).2
  | OpReaddir p => (readdir_path p v).2
  | OpLoad p => (load_file p v).2
  | OpStoreRemove fuel p => (store_remove_tree fuel p v).2
  | OpMount env at_ src fl => (mount env at_ src fl v).2
  | OpUnmount at_ => (unmount at_ v).2
  end.

Definition run (v : Vfs B) (ops : list vfs_op) : Vfs B := foldl run_op v ops.

(** What a call preserves besides the invariant: an id that is not live and was
    handed out stays dead, and the next id grows by at most one. *)
Record advances (v v' : Vfs B) : Prop := {
  adv_wf : Vfs_wf v';
  adv_next : bs_next_id (v_backends v) <= bs_next_id (v_backends v') <= bs_next_id (v_backends v) + 1;
  adv_dead : forall id, in_range id v -> ~ live v id -> ~ live v' id
}.

Lemma frame_advances v v' : Vfs_wf v -> frame v v' -> advances v v'.
Proof.
  intros Hwf Hf. split.
  - by eapply frame_wf.
  - rewrite (fr_next _ _ Hf). lia.
  - intros id _. by rewrite (fr_live _ _ Hf).
Qed.

Lemma advances_unmount at_ v : Vfs_wf v -> advances v (unmount at_ v).2.
Proof.
  intros Hwf. pose proof (wf_unmount at_ v Hwf) as Hwf'.
  destruct (unmount at_ v) as [[n|e] v'] eqn:Hu; cbn in *.
  - destruct (unmount_Ok at_ v v' n Hwf Hu) as
      (x & t1 & m & t2 & -> & Hx & Ht & Hat & Hne & Hns & Hroot & Hfds & Hif).
    split; [done|..].
    + destruct (Namespaces_any_routes_to _ _); destruct Hif as [-> _]; cbn; lia.
    + intros id _ Hl. unfold live in *. destruct (Namespaces_any_routes_to _ _); destruct Hif as [-> _].
      * done.
      * cbn. rewrite lookup_delete_is_Some. naive_solver.
  - assert (v' = v) as ->.
    { revert Hu. unfold unmount. repeat case_match; by intros [=]. }
    by apply frame_advances, kept_preorder.
Qed.

Lemma advances_mount env at_ source flags v :
  Vfs_wf v -> bs_next_id (v_backends v) + 1 < 2 ^ 64 -> advances v (mount env at_ source flags v).2.
Proof.
  intros Hwf Hlt. pose proof (wf_mount env at_ source flags v Hwf Hlt) as Hwf'. revert Hwf'.
  unfold mount. destruct (negb _); [intros _; by apply frame_advances, kept_preorder|].
  unfold get_vfs, mbind, VM_bind, throw.
  destruct (Namespaces_is_mounted_at _ _ _); [intros _; by apply frame_advances, kept_preorder|].
  pose proof (kept_build_backend env source v Hwf) as Hb.
  destruct (build_backend env source v) as [[be|e] v1]; cbn in Hb |- *; [|intros _; by apply frame_advances].
  assert (Hwf1 : Vfs_wf v1) by (by eapply frame_wf).
  destruct (mount_in_ns current_ns at_ be v1) as [[id|e] v2] eqn:Hm.
  2: { intros _. apply frame_advances; [done|]. apply (transitivity (R := kept) (y := v1)); [by intros _| |done].
       by eapply mount_in_ns_Err. }
  pose proof (wf_ids v Hwf) as Hids.
  apply mount_in_ns_Ok in Hm as (x & Hx & Ha & Hfr & Hid & Hns & Hnext & Hbe & Hlive & Hroot & Hfds & Hg).
  pose proof (wf_next v Hwf) as Hge. pose proof (fr_next _ _ Hb) as Hn1.
  rewrite wrap_small in Hnext by (unfold in_u; lia).
  assert (H2 : forall i, in_range i v -> ~ live v i -> ~ live v2 i).
  { intros i Hi. unfold in_range in Hi. rewrite (Hlive i) by lia. by rewrite (fr_live _ _ Hb). }
  unfold mret, VM_ret. destruct (negb _); [|cbn; intros Hwf'; split; [done|lia|done]].
  unfold attempt, on_backend. unfold BackendStore_get. rewrite Hbe.
  destruct (be_readdir be [SLASH]) as [[es|e] be']; cbn; intros Hwf'; (split; [done|cbn; lia|]).
  all: intros i Hi Hl; specialize (H2 i Hi Hl); unfold live in *; cbn; unfold in_range in Hi.
  all: rewrite lookup_insert_ne by lia; done.
Qed.

Lemma run_op_advances op v :
  Vfs_wf v -> bs_next_id (v_backends v) + 1 < 2 ^ 64 -> advances v (run_op v op).
Proof.
  intros Hwf Hlt. destruct op; cbn [run_op];
    [..|by apply advances_mount|by apply advances_unmount];
    (apply frame_advances; [done|]).
  - by apply kept_open.
  - by apply kept_read.
  - by apply kept_write.
  - by apply kept_close.
  - by apply kept_seek.
  - by apply kept_create.
  - by apply kept_mkdir.
  - by apply kept_unlink.
  - by apply kept_symlink.
  - by apply kept_readlink.
  - by apply kept_rename.
  - by apply kept_stat_path.
  - by apply kept_readdir_path.
  - by apply kept_load_file.
  - by apply kept_store_remove_tree.
Qed.

Lemma run_advances ops : forall v,
  Vfs_wf v -> bs_next_id (v_backends v) + Z.of_nat (length ops) < 2 ^ 64 ->
  Vfs_wf (run v ops) /\ forall id, in_range id v -> ~ live v id -> ~ live (run v ops) id.
Proof.
  induction ops as [|op ops IH]; intros v Hwf Hlt; [by split|]. cbn [length] in Hlt. cbn [run foldl].
  destruct (run_op_advances op v Hwf ltac:(lia)) as [Hwf' Hn Hd].
  destruct (IH (run_op v op) Hwf' ltac:(lia)) as [H1 H2]. split; [done|].
  intros id Hr Hl. apply H2; [|by apply Hd]. unfold in_range in *. lia.
Qed.

Lemma run_next ops : forall v,
  Vfs_wf v -> bs_next_id (v_backends v) + Z.of_nat (length ops) < 2 ^ 64 ->
  bs_next_id (v_backends (run v ops)) <= bs_next_id (v_backends v) + Z.of_nat (length ops).
Proof.
  induction ops as [|op ops IH]; intros v Hwf Hlt; cbn [length] in *; [cbn; lia|]. cbn [run foldl].
  destruct (run_op_advances op v Hwf ltac:(lia)) as [Hwf' Hn Hd].
  specialize (IH (run_op v op) Hwf' ltac:(lia)). unfold run in IH. lia.
Qed.

Lemma vfs_init_eq root :
  vfs_init root = Some (mkVfs (mkStore {[ 0 := root ]} 1)
    (mkNamespaces {[ ROOT_NS := mkNs [mkMount [] 0] 1 ]} 1) 0 (replicate MAX_FDS None) ∅).
Proof. reflexivity. Qed.

Lemma vfs_init_wf root v0 : vfs_init root = Some v0 ->
  Vfs_wf v0 /\ bs_next_id (v_backends v0) = 1.
Proof.
  rewrite vfs_init_eq. intros <-%(inj Some). split; [|done]. split; unfold live; cbn [v_namespaces v_backends v_root_id v_fds v_guards nss_map bs_backends bs_next_id].
  - eexists _, _. split_and!; [done|by apply list_elem_of_singleton|done|done].
  - intros ns x [<- <-]%lookup_singleton_Some. apply NoDup_singleton.
  - intros ns x m [<- <-]%lookup_singleton_Some ->%list_elem_of_singleton. by eexists.
  - intros id [be Hbe]. apply lookup_singleton_Some in Hbe as [<- <-].
    exists ROOT_NS, (mkNs [mkMount [] 0] 1), (mkMount [] 0).
    split_and!; [done|by apply list_elem_of_singleton|done].
  - intros id [be Hbe]. apply lookup_singleton_Some in Hbe as [<- <-]. lia.
  - lia.
  - done.
  - intros slot f Hs. apply lookup_replicate in Hs as [? _]. done.
  - intros id [g Hg]. done.
Qed.

(** C6. The VFS state stays consistent through every sequence of calls after
    boot: each route of each namespace leads to a live backend, each live
    backend is reached by a route, mount points are distinct, the root remains
    mounted, guards belong to live backends, the descriptor table keeps its 64
    slots, and a backend id whose backend was freed is never live again. *)
Theorem vfs_invariant root v0 ops :
  vfs_init root = Some v0 -> Z.of_nat (length ops) < 2 ^ 64 - 1 ->
  Vfs_wf (run v0 ops) /\
  forall ops' id, Z.of_nat (length (ops ++ ops')) < 2 ^ 64 - 1 ->
    in_range id (run v0 ops) -> ~ live (run v0 ops) id -> ~ live (run v0 (ops ++ ops')) id.
Proof.
  intros [Hwf Hn]%vfs_init_wf Hlt. destruct (run_advances ops v0 Hwf ltac:(lia)) as [Hwf' _].
  split; [done|]. intros ops' id Hlt' Hr Hl. unfold run. rewrite foldl_app. fold (run v0 ops).
  pose proof (run_next ops v0 Hwf ltac:(lia)). rewrite length_app in Hlt'.
  apply run_advances; [done|lia|done|done].
Qed.

(** A descriptor outlives its mount safely.  If the backend of an open
    descriptor has been freed, then after any further calls a read through a
    descriptor for that backend answers [EBADF] and changes nothing, and so
    does a write: the id never names another volume. *)
Theorem unmounted_fd_ebadf v ops fd f n buf :
  Vfs_wf v -> bs_next_id (v_backends v) + Z.of_nat (length ops) < 2 ^ 64 ->
  in_range (of_mount f) v -> ~ live v (of_mount f) ->
  v_fds (run v ops) !! Z.to_nat fd = Some (Some f) ->
  read fd n (run v ops) = (Err EBADF, run v ops) /\
  (of_writable f = true -> buf <> [] -> write fd buf (run v ops) = (Err EBADF, run v ops)) /\
  (of_writable f = false -> write fd buf (run v ops) = (Err EBADF, run v ops)).
Proof.
  intros Hwf Hlt Hr Hl Hf. destruct (run_advances ops v Hwf Hlt) as [Hwf' Hd].
  specialize (Hd _ Hr Hl). set (v' := run v ops) in *.
  assert (Hg : BackendStore_get (v_backends v') (of_mount f) = None) by (by apply eq_None_not_Some).
  assert (Hgd : v_guards v' !! of_mount f = None).
  { apply eq_None_not_Some. intros Hs. by apply Hd, (wf_guards v' Hwf'). }
  unfold read, write, get_fd, mbind, VM_bind. rewrite Hf. cbn beta iota.
  split_and!.
  - unfold on_backend. by rewrite Hg.
  - intros -> Hb. cbn [negb]. unfold guarded. rewrite Hgd. destruct buf; [done|]. cbn [nonempty negb].
    unfold on_backend. by rewrite Hg.
  - by intros ->.
Qed.

End runs.
