(* ===== verification/VfsSeal.v ===== *)
(** * Sealed store entries

    Read-only-after-realize: the guard of a store mount stands between every
    system call and the backend.  The backends here carry a log of the
    mutations they were asked for, so that what reached them can be stated. *)

From S2P Require Import Prelude Paths VfsCore Vfs VfsInv.

#[local] Open Scope Z_scope.

(** ** Backends that log mutations *)

Inductive Call : Type :=
| CSymlink (target link : str) | CWriteAt (ino off : Z) (data : list Z) | CCreate (path : str)
| CMkdir (path : str) | CUnlink (path : str) | CRmdir (path : str) | CRename (old new : str).

Record Logged (B : Type) : Type := mkLogged { lg_be : B; lg_log : list Call }.
Arguments mkLogged {B}.
Arguments lg_be {B}.
Arguments lg_log {B}.

Definition quietly {B A} (f : B -> A * B) (l : Logged B) : A * Logged B :=
  let '(r, be) := f (lg_be l) in (r, mkLogged be (lg_log l)).

Definition logging {B A} (c : Call) (f : B -> A * B) (l : Logged B) : A * Logged B :=
  let '(r, be) := f (lg_be l) in (r, mkLogged be (lg_log l ++ [c])).

#[export] Instance logged_backend {B} `{FsBackend B} : FsBackend (Logged B) := {
  be_lookup l p := quietly (fun be => be_lookup be p) l;
  be_stat l p := quietly (fun be => be_stat be p) l;
  be_readlink l p := quietly (fun be => be_readlink be p) l;
  be_symlink l t p := logging (CSymlink t p) (fun be => be_symlink be t p) l;
  be_read_at l i o n := quietly (fun be => be_read_at be i o n) l;
  be_write_at l i o d := logging (CWriteAt i o d) (fun be => be_write_at be i o d) l;
  be_create l p := logging (CCreate p) (fun be => be_create be p) l;
  be_mkdir l p := logging (CMkdir p) (fun be => be_mkdir be p) l;
  be_unlink l p := logging (CUnlink p) (fun be => be_unlink be p) l;
  be_rmdir l p := logging (CRmdir p) (fun be => be_rmdir be p) l;
  be_rename l o n := logging (CRename o n) (fun be => be_rename be o n) l;
  be_readdir l p := quietly (fun be => be_readdir be p) l;
  be_pin l i := quietly (fun be => be_pin be i) l;
  be_unpin l i := quietly (fun be => be_unpin be i) l;
  be_commit l := quietly be_commit l;
  be_has_staged_changes l := be_has_staged_changes (lg_be l);
  be_generation l := be_generation (lg_be l)
}.

Definition same_log {B} (l l' : Logged B) : Prop := lg_log l' = lg_log l.

#[export] Instance same_log_preorder {B} : PreOrder (same_log (B := B)).
Proof. split; unfold same_log; [by intros ?|intros ? ? ?; congruence]. Qed.

Lemma quietly_same_log {B A} (f : B -> A * B) l : same_log l (quietly f l).2.
Proof. unfold quietly. by destruct (f (lg_be l)). Qed.

Lemma logging_log {B A} c (f : B -> A * B) l : lg_log (logging c f l).2 = lg_log l ++ [c].
Proof. unfold logging. by destruct (f (lg_be l)). Qed.

Section mediation.
Context {B : Type} `{FsBackend B}.
Implicit Types v : Vfs (Logged B).

(** The calls that respect seal set [g] of mount [id] in state [v]. *)
Definition allowed v (id : Z) (g : RealizeGuard) (c : Call) : Prop :=
  match c with
  | CSymlink _ p | CCreate p | CMkdir p | CUnlink p => is_sealed_path g p = false
  | CRename o n => is_sealed_path g o = false /\ is_sealed_path g n = false
  | CWriteAt ino _ _ => exists slot f, v_fds v !! slot = Some (Some f) /\ of_mount f = id /\
      of_ino f = ino /\ of_writable f = true /\ forall t, of_top f = Some t -> t ∉ g
  | CRmdir _ => False
  end.

(** From [v] to [v'], each guarded mount saw only allowed calls and no name
    was unsealed. *)
Definition mediated v v' : Prop :=
  forall id be g, bs_backends (v_backends v) !! id = Some be -> v_guards v !! id = Some g ->
  exists be' g' calls, bs_backends (v_backends v') !! id = Some be' /\ v_guards v' !! id = Some g' /\
    lg_log be' = lg_log be ++ calls /\ Forall (allowed v id g) calls /\ g ⊆ g'.

(** No call at all. *)
Definition silent v v' : Prop :=
  forall id be g, bs_backends (v_backends v) !! id = Some be -> v_guards v !! id = Some g ->
  exists be' g', bs_backends (v_backends v') !! id = Some be' /\ v_guards v' !! id = Some g' /\
    lg_log be' = lg_log be /\ g ⊆ g'.

#[export] Instance silent_preorder : PreOrder silent.
Proof.
  split.
  - intros v id be g Hb Hg. by exists be, g.
  - intros v1 v2 v3 H12 H23 id be g Hb Hg. destruct (H12 id be g Hb Hg) as (be2 & g2 & Hb2 & Hg2 & Hl & Hs).
    destruct (H23 id be2 g2 Hb2 Hg2) as (be3 & g3 & Hb3 & Hg3 & Hl' & Hs'). exists be3, g3.
    split_and!; [done|done|congruence|set_solver].
Qed.

Lemma silent_mediated v v' : silent v v' -> mediated v v'.
Proof.
  intros Hs id be g Hb Hg. destruct (Hs id be g Hb Hg) as (be' & g' & Hb' & Hg' & Hl & Hsub).
  exists be', g', []. rewrite app_nil_r. by split_and!.
Qed.

Lemma quiet_lookup v v' id be :
  quiet same_log v v' -> bs_backends (v_backends v) !! id = Some be ->
  exists be', bs_backends (v_backends v') !! id = Some be' /\ lg_log be' = lg_log be.
Proof.
  intros [[_ Hq] _ _ _ _] Hb. specialize (Hq id). rewrite Hb in Hq. inversion Hq; subst. by eexists.
Qed.

Lemma quiet_silent v v' : quiet same_log v v' -> silent v v'.
Proof.
  intros Hq id be g Hb Hg. destruct (quiet_lookup v v' id be Hq Hb) as (be' & Hb' & Hl).
  exists be', g. rewrite (q_guards _ _ _ Hq). by split_and!.
Qed.

Lemma quiet_mediated_trans v v1 v2 : quiet same_log v v1 -> mediated v1 v2 -> mediated v v2.
Proof.
  intros Hq Hm id be g Hb Hg. destruct (quiet_lookup v v1 id be Hq Hb) as (be1 & Hb1 & Hl).
  destruct (Hm id be1 g Hb1) as (be2 & g2 & calls & Hb2 & Hg2 & Hl2 & Hc & Hs).
  { by rewrite (q_guards _ _ _ Hq). }
  exists be2, g2, calls. split_and!; [done|done|congruence| |done].
  eapply Forall_impl; [exact Hc|]. intros [] Ha; try exact Ha. cbn in *. by rewrite <- (q_fds _ _ _ Hq).
Qed.

Lemma mediated_silent_trans v v1 v2 : mediated v v1 -> silent v1 v2 -> mediated v v2.
Proof.
  intros Hm Hs id be g Hb Hg. destruct (Hm id be g Hb Hg) as (be1 & g1 & calls & Hb1 & Hg1 & Hl1 & Hc & Hsub).
  destruct (Hs id be1 g1 Hb1 Hg1) as (be2 & g2 & Hb2 & Hg2 & Hl2 & Hsub2).
  exists be2, g2, calls. split_and!; [done|done|congruence|done|set_solver].
Qed.

(** *** Rules *)

Lemma steps_silent {A} (m : VM (Logged B) A) : steps (quiet same_log) m -> steps silent m.
Proof. intros Hm v. by apply quiet_silent, Hm. Qed.

Lemma steps_mediated {A} (m : VM (Logged B) A) : steps silent m -> steps mediated m.
Proof. intros Hm v. by apply silent_mediated, Hm. Qed.

Lemma mediated_after_quiet {A C} (m : VM (Logged B) A) (k : A -> VM (Logged B) C) :
  steps (quiet same_log) m -> (forall a, steps mediated (k a)) -> steps mediated (m ≫= k).
Proof.
  intros Hm Hk v. specialize (Hm v). unfold mbind, VM_bind. destruct (m v) as [[a|e] v'].
  - eapply quiet_mediated_trans; [exact Hm|apply Hk].
  - by apply silent_mediated, quiet_silent.
Qed.

Lemma mediated_then_silent {A C} v (m : VM (Logged B) A) (k : A -> VM (Logged B) C) :
  mediated v (m v).2 -> (forall a, steps silent (k a)) -> mediated v ((m ≫= k) v).2.
Proof.
  intros Hm Hk. unfold mbind, VM_bind. destruct (m v) as [[a|e] v']; [|done].
  eapply mediated_silent_trans; [exact Hm|apply Hk].
Qed.

(** A logged call that the guard, if there is one, allows. *)
Lemma mediated_call {A} v id missing c (f : B -> result A FsError * B) :
  (forall g, v_guards v !! id = Some g -> allowed v id g c) ->
  mediated v (on_backend id missing (logging c f) v).2.
Proof.
  intros Hc. unfold on_backend. destruct (BackendStore_get (v_backends v) id) as [be|] eqn:Hg.
  2: { by apply silent_mediated. }
  pose proof (logging_log c f be) as Hl. destruct (logging c f be) as [r be']. cbn in Hl.
  intros i b g Hb Hgd. unfold BackendStore_get in Hg. cbn.
  destruct (decide (i = id)) as [-> |].
  - rewrite lookup_insert_eq. rewrite Hg in Hb. injection Hb as ->.
    exists be', g, [c]. split_and!; [done|done|done| |done]. apply Forall_singleton. by apply Hc.
  - rewrite lookup_insert_ne by done. exists b, g, []. rewrite app_nil_r. by split_and!.
Qed.

(** The same under [guarded]. *)
Lemma mediated_guarded {C} id check (m : VM (Logged B) C) :
  (forall v, (forall g, v_guards v !! id = Some g -> check g = Ok tt) -> mediated v (m v).2) ->
  steps mediated (guarded id check ≫= fun _ => m).
Proof.
  intros Hm v. unfold guarded, mbind, VM_bind. destruct (v_guards v !! id) as [g|] eqn:Hg.
  - destruct (check g) as [[]|e] eqn:Hc; [|by apply silent_mediated]. apply Hm.
    intros g' Hg'. rewrite Hg in Hg'. by injection Hg' as <-.
  - apply Hm. intros g Hg'. by rewrite Hg in Hg'.
Qed.

Lemma silent_put_fd slot f : steps silent (put_fd slot f).
Proof. intros v id be g Hb Hg. by exists be, g. Qed.

Lemma silent_seal id old name : steps silent (seal_after_rename id old name).
Proof.
  intros v i be g Hb Hg. cbn. destruct (decide (i = id)) as [-> |].
  - exists be, (seal g name). rewrite lookup_alter_eq, Hg. split_and!; [done|done|done|unfold seal; set_solver].
  - exists be, g. by rewrite lookup_alter_ne.
Qed.

Lemma quiet_quietly {A} id missing (f : B -> result A FsError * B) :
  steps (quiet same_log) (on_backend id missing (quietly f)).
Proof. apply quiet_on_backend; [apply _|]. intros be. apply quietly_same_log. Qed.

Lemma quiet_resolve_logged ns path : steps (quiet same_log) (resolve ns path).
Proof. apply quiet_resolve; [apply _|intros; apply quietly_same_log..]. Qed.

Lemma quiet_resolve_parent_logged ns path : steps (quiet same_log) (resolve_parent ns path).
Proof. apply quiet_resolve_parent; [apply _|intros; apply quietly_same_log..]. Qed.

Lemma check_mutate_Ok g rel : check_mutate g rel = Ok tt -> is_sealed_path g rel = false.
Proof. unfold check_mutate. by destruct (is_sealed_path g rel). Qed.

End mediation.

#[export] Hint Resolve quiet_quietly quiet_resolve_logged quiet_resolve_parent_logged : vm.
#[export] Hint Resolve silent_put_fd silent_seal steps_silent : vm.

Section operations.
Context {B : Type} `{FsBackend B}.
Implicit Types v : Vfs (Logged B).

Ltac silent_step :=
  match goal with
  | |- steps silent (let _ := _ in _) => cbv zeta
  | |- steps silent (mbind _ _) => apply steps_bind; [apply _| |intros ?]
  | |- _ (let '(_, _) := ?x in _) => destruct x
  | |- _ (if ?b then _ else _) => destruct b
  | |- _ (match ?x with _ => _ end) => destruct x
  | |- steps silent (on_backend _ _ _) => apply steps_silent, quiet_quietly
  | |- steps silent (ignore _) => apply steps_ignore
  | |- _ => solve [eauto with vm typeclass_instances]
  end.

Ltac mediated_step :=
  match goal with
  | |- steps mediated (mbind _ (guarded _ _)) => apply mediated_guarded; intros ? ?
  | |- steps mediated (mbind _ _) =>
      apply mediated_after_quiet; [first [apply quiet_quietly|solve [eauto with vm typeclass_instances]]|intros ?]
  | |- steps mediated (let '(_, _) := ?x in _) => destruct x
  | |- steps mediated (if ?b then _ else _) => destruct b
  | |- steps mediated (throw _) => apply steps_mediated; silent_step
  | |- steps mediated (mret _) => apply steps_mediated; silent_step
  end.

(** A guarded mutation followed by steps that call no mutator. *)
Ltac mediated_mutation :=
  apply mediated_then_silent;
  [apply mediated_call; intros ? ?; apply check_mutate_Ok; by auto|intros ?; repeat silent_step].

Lemma mediated_create path : steps mediated (create (B := Logged B) path).
Proof. unfold create. repeat mediated_step. mediated_mutation. Qed.
Lemma mediated_mkdir path : steps mediated (mkdir (B := Logged B) path).
Proof. unfold mkdir. repeat mediated_step. mediated_mutation. Qed.
Lemma mediated_unlink path : steps mediated (unlink (B := Logged B) path).
Proof. unfold unlink. repeat mediated_step. mediated_mutation. Qed.
Lemma mediated_symlink target link : steps mediated (symlink (B := Logged B) target link).
Proof. unfold symlink. repeat mediated_step. mediated_mutation. Qed.

Lemma check_rename_Proceed g o n name :
  check_rename g o n = Ok (Proceed name) ->
  is_sealed_path g o = false /\ is_sealed_path g n = false /\ top_component n = Some name.
Proof.
  unfold check_rename. destruct (is_sealed_path g o) eqn:Ho; [done|].
  destruct (top_component n) as [t|] eqn:Ht; [|done]. destruct (is_sealed_name g t) eqn:Hs.
  - by destruct (is_nested n).
  - intros [= ->]. split_and!; try done. unfold is_sealed_path. by rewrite Ht.
Qed.

Lemma mediated_rename_routed id o n : steps mediated (rename_routed (B := Logged B) id o n).
Proof.
  intros v. unfold rename_routed, rename_guard, mbind at 1, VM_bind at 1.
  assert (Hrest : forall so, (forall g, v_guards v !! id = Some g ->
      is_sealed_path g o = false /\ is_sealed_path g n = false) ->
    mediated v ((_ ← on_backend id ENOMNT (fun be => be_rename be o n);
        _ ← on_backend id ENOMNT be_commit;
        match so with
        | Some name => _ ← seal_after_rename id o name; mret 0
        | None => mret 0
        end) v).2).
  { intros so Hg. apply mediated_then_silent; [by apply mediated_call|].
    intros ?. repeat silent_step; done. }
  destruct (v_guards v !! id) as [g|] eqn:Hg.
  - destruct (check_rename g o n) as [[name|]|e] eqn:Hc.
    + apply (Hrest (Some name)). intros g' [= <-]. by apply check_rename_Proceed in Hc as (? & ? & _).
    + by apply silent_mediated.
    + by apply silent_mediated.
  - apply (Hrest None). by intros g' Hg'.
Qed.

Lemma mediated_rename old new : steps mediated (rename (B := Logged B) old new).
Proof. unfold rename. repeat mediated_step. apply mediated_rename_routed. Qed.

Lemma mediated_write fd buf : steps mediated (write (B := Logged B) fd buf).
Proof.
  unfold write. intros v. unfold mbind at 1, VM_bind at 1, get_fd.
  destruct (v_fds v !! Z.to_nat fd) as [[f|]|] eqn:Hf; [|by apply silent_mediated..].
  destruct (of_writable f) eqn:Hw; [|by apply silent_mediated]. cbn [negb].
  unfold mbind at 1, VM_bind at 1, guarded.
  assert (Hrest : (forall g, v_guards v !! of_mount f = Some g -> fd_sealed f g = Ok tt) ->
    mediated v ((if negb (nonempty buf) then mret 0
      else _ ← on_backend (of_mount f) EBADF (fun be => be_write_at be (of_ino f) (of_size f) buf);
           _ ← on_backend (of_mount f) EBADF be_commit;
           let size := wrap 64 (of_size f + Z.of_nat (length buf)) in
           _ ← put_fd (Z.to_nat fd)
                 (Some (mkOpen (of_mount f) (of_ino f) size size true (of_top f)));
           mret (Z.of_nat (length buf))) v).2).
  { intros Hg. destruct (negb (nonempty buf)); [by apply silent_mediated|].
    apply mediated_then_silent; [|intros ?; repeat silent_step]. apply mediated_call. intros g Hgd.
    exists (Z.to_nat fd), f. split_and!; try done. intros t Ht. specialize (Hg g Hgd).
    unfold fd_sealed in Hg. rewrite Ht in Hg. unfold is_sealed_name in Hg. by case_bool_decide. }
  destruct (v_guards v !! of_mount f) as [g|] eqn:Hg.
  - destruct (fd_sealed f g) as [[]|e] eqn:Hs; [|by apply silent_mediated]. cbn [map_err].
    apply Hrest. intros g' [= <-]. done.
  - apply Hrest. done.
Qed.

Lemma silent_close fd : steps silent (close (B := Logged B) fd).
Proof.
  unfold close. repeat silent_step.
Qed.

Definition is_plain (op : vfs_op (B := Logged B)) : bool :=
  match op with OpStoreRemove _ _ | OpMount _ _ _ _ | OpUnmount _ => false | _ => true end.

Lemma mediated_op op v : is_plain op = true -> mediated v (run_op v op).
Proof.
  destruct op; cbn [is_plain run_op]; try done; intros _.
  - apply (steps_mediated (open path)). unfold open. repeat silent_step.
  - apply (steps_mediated (read fd n)). unfold read. repeat silent_step.
  - apply mediated_write.
  - apply (steps_mediated (close fd)), silent_close.
  - apply (steps_mediated (seek fd off whence)). unfold seek. repeat silent_step.
  - apply mediated_create.
  - apply mediated_mkdir.
  - apply mediated_unlink.
  - apply mediated_symlink.
  - apply (steps_mediated (readlink path)). unfold readlink. repeat silent_step.
  - apply mediated_rename.
  - apply (steps_mediated (stat_path path)). unfold stat_path. repeat silent_step.
  - apply (steps_mediated (readdir_path path)). unfold readdir_path. repeat silent_step.
  - apply (steps_mediated (load_file path)). unfold load_file. repeat silent_step.
Qed.

Lemma is_sealed_path_mono g g' p :
  g ⊆ g' -> is_sealed_path g' p = false -> is_sealed_path g p = false.
Proof.
  intros Hs Hp. apply not_true_is_false. intros (c & Hc & Hin)%is_sealed_path_spec.
  assert (is_sealed_path g' p = true); [|congruence]. apply is_sealed_path_spec. exists c. set_solver.
Qed.

Lemma allowed_mono v id g g' c : g ⊆ g' -> allowed v id g' c -> allowed v id g c.
Proof.
  intros Hs. destruct c; cbn; try done; eauto using is_sealed_path_mono.
  - intros (slot & f & Hf & Hm & Hi & Hw & Ht). exists slot, f. split_and!; try done. set_solver.
  - intros [? ?]. eauto using is_sealed_path_mono.
Qed.


End operations.

(** ** Realizing: the rename that seals *)

Section realize.
Context {B : Type} `{FsBackend B}.
Implicit Types v : Vfs B.

Lemma on_backend_parts {A} id missing (call : B -> result A FsError * B) v r v' :
  on_backend id missing call v = (r, v') ->
  v_guards v' = v_guards v /\ v_fds v' = v_fds v /\ v_namespaces v' = v_namespaces v /\
  v_root_id v' = v_root_id v.
Proof.
  unfold on_backend. destruct (BackendStore_get (v_backends v) id) as [be|].
  - destruct (call be) as [r' be']. by intros [= <- <-].
  - by intros [= <- <-].
Qed.

(** Seals and descriptors after the rename, by the guard's verdict. *)
Lemma rename_routed_spec id o n v r v' :
  rename_routed id o n v = (r, v') ->
  match v_guards v !! id with
  | None => v_guards v' = v_guards v /\ v_fds v' = v_fds v
  | Some g =>
      match check_rename g o n with
      | Err e => r = Err (errno_fs e) /\ v' = v
      | Ok NoOp => r = Ok 0 /\ v' = v
      | Ok (Proceed name) =>
          match r with
          | Err _ => v_guards v' = v_guards v /\ v_fds v' = v_fds v
          | Ok z => z = 0 /\ v_guards v' = <[id := seal g name]> (v_guards v) /\
              v_fds v' = match top_component o with
                         | Some t => fmap (M := list) (fmap (retarget_fd id (Some t) name)) (v_fds v)
                         | None => v_fds v
                         end
          end
      end
  end.
Proof.
  unfold rename_routed, rename_guard, mbind at 1, VM_bind at 1.
  destruct (v_guards v !! id) as [g|] eqn:Hg; [destruct (check_rename g o n) as [[name|]|e]|].
  2, 3: by intros [= <- <-].
  all: unfold mbind, VM_bind.
  all: destruct (on_backend id ENOMNT (fun be => be_rename be o n) v) as [r1 v1] eqn:H1.
  all: apply on_backend_parts in H1 as (Hg1 & Hf1 & _).
  all: destruct r1 as [[]|e1]; [|intros [= <- <-]; done].
  all: destruct (on_backend id ENOMNT be_commit v1) as [r2 v2] eqn:H2.
  all: apply on_backend_parts in H2 as (Hg2 & Hf2 & _).
  all: destruct r2 as [[]|e2]; [|intros [= <- <-]; split; congruence].
  - unfold seal_after_rename. cbn. intros [= <- <-]. cbn. split_and!; [done| |].
    + rewrite Hg2, Hg1. apply map_eq. intros i. destruct (decide (i = id)) as [-> |].
      * by rewrite lookup_alter_eq, lookup_insert_eq, Hg.
      * by rewrite lookup_alter_ne, lookup_insert_ne.
    + by rewrite Hf2, Hf1.
  - cbn. intros [= <- <-]. split; congruence.
Qed.

Lemma check_rename_sealed_top g n name o :
  name ∈ g -> top_component n = Some name -> is_sealed_path g o = false ->
  check_rename g o n = if is_nested n then Err FsReadOnly else Ok NoOp.
Proof.
  intros Hn Ht Ho. unfold check_rename. rewrite Ho, Ht. unfold is_sealed_name.
  by rewrite bool_decide_true.
Qed.

Lemma write_sealed fd buf v f t g :
  v_fds v !! Z.to_nat fd = Some (Some f) -> of_writable f = true -> of_top f = Some t ->
  v_guards v !! of_mount f = Some g -> t ∈ g -> write fd buf v = (Err EROFS, v).
Proof.
  intros Hf Hw Ht Hg Hin. unfold write, get_fd, mbind, VM_bind. rewrite Hf, Hw. cbn [negb].
  unfold guarded, fd_sealed. rewrite Hg, Ht. unfold is_sealed_name. by rewrite bool_decide_true.
Qed.

(** The guard of a mount. *)
Definition guard_of (v : Vfs B) (id : Z) : option RealizeGuard := v_guards v !! id.

(** A directory entry of a store root that mounting seals. *)
Definition lists_entry (entries : list DirEntry) (name : str) : Prop :=
  exists e, e ∈ entries /\ de_file_type e = FT_DIR /\ dotted (de_name e) = false /\ de_name e = name.

(** C13. The realize rename is the commit point of a store entry.  On a guarded
    mount, a rename that reports an error, from the backend or the guard, seals
    nothing; one that succeeds against a fresh destination seals its top-level
    name and nothing else, and from then on writing through any descriptor
    opened below the source fails with [EROFS]; a second realize onto the
    sealed name succeeds without touching the state. *)
Theorem realize_commit_point id o n v r v' g name :
  guard_of v id = Some g -> check_rename g o n = Ok (Proceed name) ->
  rename_routed id o n v = (r, v') ->
  match r with
  | Err _ => v_guards v' = v_guards v /\ v_fds v' = v_fds v
  | Ok z =>
      z = 0 /\ v_guards v' = <[id := seal g name]> (v_guards v) /\
      (forall fd f t buf, v_fds v !! Z.to_nat fd = Some (Some f) -> of_mount f = id ->
         of_writable f = true -> of_top f = Some t -> top_component o = Some t ->
         write fd buf v' = (Err EROFS, v')) /\
      (forall o', is_sealed_path (seal g name) o' = false -> is_nested n = false ->
         rename_routed id o' n v' = (Ok 0, v'))
  end.
Proof.
  unfold guard_of. intros Hg Hc Hr. pose proof (rename_routed_spec id o n v r v' Hr) as Hs. rewrite Hg, Hc in Hs.
  destruct r as [z|e]; [|done]. destruct Hs as (-> & Hg' & Hf'). split_and!; [done|done| |].
  - intros fd f t buf Hfd Hm Hw Ht Hto. rewrite Hto in Hf'.
    apply (write_sealed fd buf v' (retarget_fd id (Some t) name f) name (seal g name)).
    + by rewrite Hf', list_lookup_fmap, Hfd.
    + unfold retarget_fd. by case_match.
    + unfold retarget_fd. rewrite Hm, Z.eqb_refl, bool_decide_true by done. done.
    + unfold retarget_fd. rewrite Hg'. case_match; cbn; rewrite Hm; apply lookup_insert_eq.
    + unfold seal. set_solver.
  - intros o' Ho' Hn. apply check_rename_Proceed in Hc as (_ & _ & Ht).
    unfold rename_routed, rename_guard, mbind, VM_bind. rewrite Hg', lookup_insert_eq.
    rewrite (check_rename_sealed_top _ n name o') by (done || (unfold seal; set_solver)).
    by rewrite Hn.
Qed.

(** A rename inside a staging directory seals the directory.  If source and
    destination lie under the same unsealed top-level entry [t], a successful
    rename seals [t] itself: afterwards nothing below [t] can be created,
    removed or linked, and the entry can no longer be renamed to its final
    name. *)
Theorem rename_inside_temp_seals id o n v v' g t :
  guard_of v id = Some g -> top_component o = Some t -> top_component n = Some t -> t ∉ g ->
  rename_routed id o n v = (Ok 0, v') ->
  guard_of v' id = Some (seal g t) /\
  (forall p, top_component p = Some t -> check_mutate (seal g t) p = Err FsReadOnly) /\
  (forall p dst, top_component p = Some t -> rename_routed id p dst v' = (Err EROFS, v')).
Proof.
  unfold guard_of. intros Hg Ho Hn Ht Hr.
  assert (Hsealed : forall p, top_component p = Some t -> is_sealed_path (seal g t) p = true).
  { intros p Hp. unfold is_sealed_path, is_sealed_name. rewrite Hp. apply bool_decide_eq_true.
    unfold seal. set_solver. }
  pose proof (rename_routed_spec id o n v (Ok 0) v' Hr) as Hs. rewrite Hg in Hs.
  assert (Hc : check_rename g o n = Ok (Proceed t)).
  { unfold check_rename, is_sealed_path, is_sealed_name. rewrite Ho, Hn. by rewrite bool_decide_false. }
  rewrite Hc in Hs. destruct Hs as (_ & Hg' & _).
  assert (Hl : v_guards v' !! id = Some (seal g t)) by (rewrite Hg'; apply lookup_insert_eq).
  split_and!; [done| |].
  - intros p Hp. unfold check_mutate. by rewrite Hsealed.
  - intros p dst Hp. unfold rename_routed, rename_guard, mbind, VM_bind. rewrite Hl.
    unfold check_rename. by rewrite Hsealed.
Qed.

Lemma seals_of_spec entries name :
  name ∈ seals_of entries <-> lists_entry entries name.
Proof.
  unfold lists_entry.
  assert (Hgen : forall g, name ∈ foldl (fun g e =>
      if (de_file_type e =? FT_DIR) && negb (dotted (de_name e)) then seal g (de_name e) else g) g entries <->
    name ∈ g \/ exists e, e ∈ entries /\ de_file_type e = FT_DIR /\ dotted (de_name e) = false /\
      de_name e = name).
  { induction entries as [|e es IH]; intros g; cbn [foldl].
    { split; [by left|]. intros [?|(e & He%elem_of_nil & _)]; done. }
    rewrite IH. unfold seal.
    assert (Hcons : (exists e', e' ∈ e :: es /\ de_file_type e' = FT_DIR /\
        dotted (de_name e') = false /\ de_name e' = name) <->
      (de_file_type e = FT_DIR /\ dotted (de_name e) = false /\ de_name e = name) \/
      exists e', e' ∈ es /\ de_file_type e' = FT_DIR /\ dotted (de_name e') = false /\
        de_name e' = name).
    { split.
      - intros (e' & [-> |He]%elem_of_cons & Hp); [by left|right; by exists e'].
      - intros [Hp|(e' & He & Hp)]; [exists e|exists e']; rewrite elem_of_cons; auto. }
    rewrite Hcons. destruct (Z.eqb_spec (de_file_type e) FT_DIR), (dotted (de_name e)); cbn [andb negb].
    2: rewrite elem_of_union, elem_of_singleton.
    all: intuition congruence. }
  unfold seals_of. rewrite Hgen. split; [|by right].
  intros [Hin|?]; [by apply not_elem_of_empty in Hin|done].
Qed.

(** Mounting a store re-establishes its seals from the volume: after a
    successful mount with the store flag, the guard of the new mount seals
    exactly the top-level directories of the volume whose name does not begin
    with a dot (nothing if they cannot be listed).  A top-level regular file is
    therefore never sealed by a mount, although a rename to its name had sealed
    it before. *)
Theorem mount_reconstructs_seals env at_ source v v' :
  mount env at_ source MOUNT_STORE v = (Ok 0, v') ->
  exists id be v1 g,
    build_backend env source v = (Ok be, v1) /\ guard_of v' id = Some g /\
    bs_backends (v_backends v') !! id = Some (be_readdir be [SLASH]).2 /\
    (forall name, name ∈ g <->
       exists entries, (be_readdir be [SLASH]).1 = Ok entries /\ lists_entry entries name).
Proof.
  unfold mount, guard_of. replace (Z.land MOUNT_STORE (not_u 64 MOUNT_STORE) =? 0) with true by done.
  replace (negb (Z.land MOUNT_STORE MOUNT_STORE =? 0)) with true by done. cbn [negb].
  unfold mbind, VM_bind, get_vfs.
  destruct (Namespaces_is_mounted_at _ _ _); [done|].
  destruct (build_backend env source v) as [[be|e] v1] eqn:Hb; [|done].
  destruct (mount_in_ns current_ns at_ be v1) as [[id|e] v2] eqn:Hm; [|done].
  apply mount_in_ns_Ok in Hm as (x & Hx & Ha & Hfr & Hid & Hns & Hnext & Hbe & Hlive & Hroot & Hfds & Hg).
  unfold attempt, on_backend, BackendStore_get. rewrite Hbe.
  destruct (be_readdir be [SLASH]) as [r be'] eqn:Hrd. cbn [fst snd].
  assert (Hput : bs_backends (v_backends (put_backend v2 id be')) !! id = Some be').
  { cbn. apply lookup_insert_eq. }
  intros Hv. exists id, be, v1. rewrite Hrd. cbn [fst snd].
  destruct r as [entries|e]; cbn in Hv; injection Hv as <-.
  - exists (seals_of entries). split_and!; [done|apply lookup_insert_eq|exact Hput|].
    intros name. rewrite seals_of_spec. split; [intros He; by exists entries|].
    by intros (entries' & [= <-] & He).
  - exists ∅. split_and!; [done|apply lookup_insert_eq|exact Hput|].
    intros name. split; [by intros ?%not_elem_of_empty|]. by intros (? & ? & _).
Qed.

End realize.
