(* ===== verification/VfsDemo.v ===== *)
(** * The VFS theorems on concrete runs

    Each lemma applies one theorem about routing, path resolution, descriptors
    or sealing to a small system built on [MemBackend]: a root volume with a
    directory [/s], a link [/l] to it, and a store volume with the directory
    [/p], the regular file [/d] and the staging directory [/.t] holding a file,
    mounted at [/s]. *)

From S2P Require Import Prelude Paths VfsCore Vfs VfsMem VfsPath VfsInv VfsSeal.

#[local] Open Scope Z_scope.

(** Paths, spelled out. *)
Definition p_s : str := [47; 115].                       (* /s *)
Definition p_l : str := [47; 108].                       (* /l *)
Definition p_l_d : str := [47; 108; 47; 100].            (* /l/d *)
Definition p_s_d : str := [47; 115; 47; 100].            (* /s/d *)
Definition p_p : str := [47; 112].                       (* /p *)
Definition p_d : str := [47; 100].                       (* /d *)
Definition p_t : str := [47; 46; 116].                   (* /.t *)
Definition p_t_a : str := [47; 46; 116; 47; 97].         (* /.t/a *)
Definition p_t_b : str := [47; 46; 116; 47; 98].         (* /.t/b *)
Definition p_q : str := [47; 113].                       (* /q *)

Definition root_vol : MemBackend := (mem_symlink (mem_mkdir MemBackend_new p_s).2 p_s p_l).2.

Definition store_vol : MemBackend :=
  let b := (mem_mkdir MemBackend_new p_p).2 in
  let b := (mem_create b p_d).2 in
  let b := (mem_mkdir b p_t).2 in
  mem_commit (mem_create b p_t_a).2.

Definition env_of {B} (vol : B) : Env B := mkEnv (Ok vol) None false false None (fun _ _ => Err EIO).

Definition boot {B} `{FsBackend B} (root : B) : Vfs B :=
  default (mkVfs BackendStore_new Namespaces_new 0 [] ∅) (vfs_init root).

(** The store mounted at [/s]. *)
Definition mounted : Vfs MemBackend := (mount (env_of store_vol) p_s MOUNT_SRC_RFS2_RAM MOUNT_STORE (boot root_vol)).2.

Lemma boot_init : vfs_init root_vol = Some (boot root_vol).
Proof. reflexivity. Qed.

Lemma store_vol_wf : mem_wf store_vol.
Proof.
  assert (Hc : forall b, mem_wf b -> mem_wf (mem_commit b)).
  { intros b [H1 H2 H3]. unfold mem_commit. destruct (mb_dirty b); by split. }
  assert (Hd : forall path, forallb (fun c => negb (bool_decide (c = DOT)) && negb (bool_decide (c = DOTDOT))) (comps_of path) = true ->
            forall c, c ∈ comps_of path -> c <> DOT /\ c <> DOTDOT).
  { intros path Hp c Hin. rewrite forallb_forall in Hp. apply list_elem_of_In, Hp in Hin.
    apply andb_true_iff in Hin as [H1 H2]. rewrite negb_true_iff, bool_decide_eq_false in H1, H2. done. }
  apply Hc. unfold store_vol, mem_create, mem_mkdir. cbv zeta.
  repeat (apply add_node_wf; [|apply Hd; vm_compute; reflexivity]). apply mem_wf_new.
Qed.

Lemma mount_shadows_exactly_witness :
  MountTable_unmount [mkMount [] 0; mkMount [[115]] 1] p_s = Ok (1, [mkMount [] 0]).
Proof.
  assert (Hnd : NoDup (mt_at <$> [mkMount [] 0])) by apply NoDup_singleton.
  assert (Hr : (MountTable_mount [mkMount [] 0] p_s store_vol (v_backends (boot root_vol))).1 =
               (Ok 1, [mkMount [] 0; mkMount [[115]] 1])) by (vm_compute; reflexivity).
  destruct (MountTable_mount [mkMount [] 0] p_s store_vol (v_backends (boot root_vol))) as [[r t'] s'] eqn:Hm.
  cbn [fst] in Hr. injection Hr as -> ->. apply (mount_shadows_exactly _ _ _ _ _ _ _ Hnd Hm).
Defined.

Lemma resolve_canonical_witness :
  canonical (boot root_vol) ROOT_NS (comps_of p_s) /\
  forall left, resolve_hops (S left) ROOT_NS p_s (boot root_vol) = (Ok p_s, boot root_vol).
Proof.
  assert (Hr : resolve ROOT_NS p_l (boot root_vol) = (Ok p_s, boot root_vol)) by (vm_compute; reflexivity).
  apply (resolve_canonical (H := mem_backend) (fun _ _ => eq_refl) (fun _ _ => eq_refl) ROOT_NS p_l p_s _ _ Hr).
Defined.

Definition demo_ops : list (vfs_op (B := MemBackend)) :=
  [OpMount (env_of store_vol) p_s MOUNT_SRC_RFS2_RAM MOUNT_STORE; OpOpen p_s_d; OpUnmount p_s].

Lemma vfs_invariant_witness : Vfs_wf (run (boot root_vol) demo_ops).
Proof. apply (vfs_invariant root_vol (boot root_vol) demo_ops boot_init). vm_compute. reflexivity. Defined.

(** The descriptor of [/s/d] after its volume is gone. *)
Lemma unmounted_fd_ebadf_witness :
  read 0 4 (run (run (boot root_vol) demo_ops) [OpMkdir p_q]) =
    (Err EBADF, run (run (boot root_vol) demo_ops) [OpMkdir p_q]).
Proof.
  destruct (vfs_init_wf root_vol (boot root_vol) boot_init) as [Hwf Hn].
  assert (Hlt : bs_next_id (v_backends (boot root_vol)) + Z.of_nat (length demo_ops) < 2 ^ 64)
    by (vm_compute; reflexivity).
  destruct (run_advances demo_ops (boot root_vol) Hwf Hlt) as [Hwf' _].
  apply (unmounted_fd_ebadf (run (boot root_vol) demo_ops) [OpMkdir p_q] 0 (mkOpen 1 3 0 0 false (Some [100])) 4 []).
  - exact Hwf'.
  - vm_compute. reflexivity.
  - vm_compute. split; congruence.
  - unfold live. intros [x Hx]. vm_compute in Hx. discriminate Hx.
  - vm_compute. reflexivity.
Defined.

(** The same system with every call on the volumes logged. *)
Definition logged_mounted : Vfs (Logged MemBackend) :=
  (mount (env_of (mkLogged store_vol [])) p_s MOUNT_SRC_RFS2_RAM MOUNT_STORE (boot (mkLogged root_vol []))).2.

(** Writing below the sealed [/s/p] and creating [/s/q]. *)
Definition logged_ops : list (vfs_op (B := Logged MemBackend)) :=
  [OpMkdir (p_s ++ p_p ++ p_q); OpMkdir (p_s ++ p_q)].


(** Realizing [/.t] as [/q]: the rename seals [q]. *)
Lemma realize_commit_point_witness :
  v_guards (rename_routed 1 p_t p_q mounted).2 = <[1 := seal {[ [112] ]} [113]]> (v_guards mounted).
Proof.
  assert (Hg : v_guards mounted !! 1 = Some {[ [112] ]}) by (vm_compute; reflexivity).
  assert (Hr : (rename_routed 1 p_t p_q mounted).1 = Ok 0) by (vm_compute; reflexivity).
  destruct (rename_routed 1 p_t p_q mounted) as [r v'] eqn:E. cbn [fst snd] in *. subst r.
  apply (realize_commit_point 1 p_t p_q mounted (Ok 0) v' _ [113] Hg eq_refl E).
Defined.

(** Renaming [/.t/a] to [/.t/b] seals the staging directory. *)
Lemma rename_inside_temp_seals_witness :
  v_guards (rename_routed 1 p_t_a p_t_b mounted).2 !! 1 = Some (seal {[ [112] ]} [46; 116]).
Proof.
  assert (Hg : v_guards mounted !! 1 = Some {[ [112] ]}) by (vm_compute; reflexivity).
  assert (Hr : (rename_routed 1 p_t_a p_t_b mounted).1 = Ok 0) by (vm_compute; reflexivity).
  assert (Ht : [46; 116] ∉ ({[ [112] ]} : gset str)) by (rewrite elem_of_singleton; discriminate).
  destruct (rename_routed 1 p_t_a p_t_b mounted) as [r v'] eqn:E. cbn [fst snd] in *. subst r.
  apply (rename_inside_temp_seals 1 p_t_a p_t_b mounted v' _ [46; 116] Hg eq_refl eq_refl Ht E).
Defined.

(** The store mount seals the directory [/p] but not the file [/d]. *)
Lemma mount_reconstructs_seals_witness :
  exists id be v1 g,
    build_backend (env_of store_vol) MOUNT_SRC_RFS2_RAM (boot root_vol) = (Ok be, v1) /\
    v_guards mounted !! id = Some g /\
    bs_backends (v_backends mounted) !! id = Some (be_readdir be [SLASH]).2 /\
    (forall name, name ∈ g <->
       exists entries, (be_readdir be [SLASH]).1 = Ok entries /\ lists_entry entries name).
Proof.
  assert (Hr : (mount (env_of store_vol) p_s MOUNT_SRC_RFS2_RAM MOUNT_STORE (boot root_vol)).1 = Ok 0)
    by (vm_compute; reflexivity).
  unfold mounted. destruct (mount (env_of store_vol) p_s _ MOUNT_STORE _) as [r v'] eqn:E. cbn [fst snd] in *.
  subst r. apply (mount_reconstructs_seals _ _ _ _ _ E).
Defined.

