(* ===== verification/Rfs2Layout.v ===== *)
(** * RFS V2 on-disk layout (fs/rfs2: layout.rs, inode.rs, superblock.rs, transform.rs)

    Little-endian records at fixed offsets of 4096-byte blocks: block pointers,
    the static header, inodes, superblock payloads, and the sealing of a
    superblock slot with its plaintext trailer.  Each record is written field
    by field, as the source does, and reads back what was written. *)

From S2P Require Import Prelude.

#[local] Open Scope Z_scope.

(** ** lib.rs: errors *)

Inductive RError : Type :=
| RIo | RAuth (block : Z) | RBadHeader | RUnsupported | RReadOnly | RNoSuperblock | RNoSpace
| RNotFound | RExists | RNotDir | RIsDir | RNotEmpty | RPerm | RGenExhausted | RInvalid | RCorrupt.

#[export] Instance RError_eq_dec : EqDecision RError.
Proof. solve_decision. Defined.

(** ** layout.rs: constants *)

Definition BLOCK_SIZE : nat := 4096.
Definition MAGIC : list Z := [82; 70; 83; 95; 86; 50; 0; 0].
Definition SB_MAGIC : list Z := [82; 70; 83; 83; 66; 0; 0; 0].
Definition FORMAT_VERSION : Z := 2.
Definition HEADER_VERSION : Z := 1.
Definition SB_SLOT_A : Z := 1.
Definition SB_SLOT_B : Z := 2.
Definition FIRST_DATA_BLOCK : Z := 3.
Definition FANOUT : nat := 128.
Definition INODES_PER_LEAF : nat := 32.
Definition INODE_SIZE : nat := 128.
Definition BLOCK_PTR_SIZE : nat := 32.
Definition SB_PAYLOAD_SIZE : nat := 4072.
Definition SB_GEN_COPY_OFFSET : nat := 4072.
Definition SB_TAG_OFFSET : nat := 4080.
Definition GEN_LIMIT : Z := U64_MAX - 255.
Definition INLINE_SYMLINK_MAX : nat := 48.
Definition ROOT_INO : Z := 1.
Definition FIRST_GENERAL_INO : Z := 10.
Definition INCOMPAT_ENCRYPTION : Z := 1.
Definition RO_COMPAT_HARDLINKS : Z := 1.
Definition KNOWN_INCOMPAT : Z := INCOMPAT_ENCRYPTION.
Definition KNOWN_RO_COMPAT : Z := RO_COMPAT_HARDLINKS.

#[global] Opaque BLOCK_SIZE.

Lemma BLOCK_SIZE_eq : BLOCK_SIZE = 4096%nat.
Proof. reflexivity. Qed.

(** For [lia], which then need not look into the number. *)
Lemma BLOCK_SIZE_Z : Z.of_nat BLOCK_SIZE = 4096.
Proof. reflexivity. Qed.

Definition zeros (n : nat) : list Z := replicate n 0.
Definition block_zeros : list Z := zeros BLOCK_SIZE.

(** ** LE helpers *)

Definition rd_u16 (off : nat) (b : list Z) : Z := le_num (slice off 2 b).
Definition rd_u32 (off : nat) (b : list Z) : Z := le_num (slice off 4 b).
Definition rd_u64 (off : nat) (b : list Z) : Z := le_num (slice off 8 b).
Definition u16 (v : Z) : list Z := le_bytes 2 v.
Definition u32 (v : Z) : list Z := le_bytes 4 v.
Definition u64 (v : Z) : list Z := le_bytes 8 v.
Definition rd_u8 (off : nat) (b : list Z) : Z := default 0 (b !! off).

(** ** BlockPtr *)

Record BlockPtr : Type := mkPtr { p_block : Z; p_gen : Z; p_tag : list Z }.

#[export] Instance BlockPtr_eq_dec : EqDecision BlockPtr.
Proof. solve_decision. Defined.

Definition PTR_NULL : BlockPtr := mkPtr 0 0 (zeros 16).
Definition is_null (p : BlockPtr) : bool := p_block p =? 0.

Definition ptr_to_bytes (p : BlockPtr) : list Z :=
  put_fields [(0%nat, u64 (p_block p)); (8%nat, u64 (p_gen p)); (16%nat, p_tag p)] (zeros BLOCK_PTR_SIZE).

Definition ptr_from_bytes (b : list Z) : BlockPtr :=
  mkPtr (rd_u64 0 b) (rd_u64 8 b) (slice 16 16 b).

(** ** StaticHeader *)

Record StaticHeader : Type := mkHeader {
  h_format_version : Z; h_header_version : Z; h_block_size : Z; h_total_blocks : Z;
  h_sb_slot_a : Z; h_sb_slot_b : Z; h_first_data_block : Z; h_uuid : list Z;
  h_feature_compat : Z; h_feature_incompat : Z; h_feature_ro_compat : Z;
  h_kdf_algo : Z; h_kdf_salt : list Z; h_argon_m_cost : Z; h_argon_t_cost : Z; h_argon_p : Z;
  h_dek_wrap_nonce : list Z; h_dek_wrapped : list Z; h_dek_wrap_tag : list Z; h_label : list Z
}.

Definition header_fields (h : StaticHeader) : list (nat * list Z) :=
  [(0, MAGIC); (8, u16 (h_format_version h)); (10, u16 (h_header_version h));
   (12, u32 (h_block_size h)); (16, u64 (h_total_blocks h)); (24, u64 (h_sb_slot_a h));
   (32, u64 (h_sb_slot_b h)); (40, u64 (h_first_data_block h)); (48, h_uuid h);
   (64, u64 (h_feature_compat h)); (72, u64 (h_feature_incompat h));
   (80, u64 (h_feature_ro_compat h)); (88, [h_kdf_algo h]); (96, h_kdf_salt h);
   (112, u32 (h_argon_m_cost h)); (116, u32 (h_argon_t_cost h)); (120, u32 (h_argon_p h));
   (128, h_dek_wrap_nonce h); (144, h_dek_wrapped h); (176, h_dek_wrap_tag h); (192, h_label h)]%nat.

Definition header_encode (h : StaticHeader) : list Z := put_fields (header_fields h) block_zeros.

Definition header_decode (buf : list Z) : result StaticHeader RError :=
  if negb (bool_decide (slice 0 8 buf = MAGIC)) then Err RBadHeader
  else
    let format_version := rd_u16 8 buf in
    if negb (format_version =? FORMAT_VERSION) then Err RUnsupported
    else
      let header_version := rd_u16 10 buf in
      if header_version <? 1 then Err RBadHeader
      else
        let block_size := rd_u32 12 buf in
        if negb (block_size =? Z.of_nat BLOCK_SIZE) then Err RUnsupported
        else
          Ok (mkHeader format_version header_version block_size (rd_u64 16 buf) (rd_u64 24 buf)
                (rd_u64 32 buf) (rd_u64 40 buf) (slice 48 16 buf) (rd_u64 64 buf) (rd_u64 72 buf)
                (rd_u64 80 buf) (rd_u8 88 buf) (slice 96 16 buf) (rd_u32 112 buf) (rd_u32 116 buf)
                (rd_u32 120 buf) (slice 128 12 buf) (slice 144 32 buf) (slice 176 16 buf)
                (slice 192 64 buf)).

(** ** inode.rs *)

Definition FLAG_USED : Z := 1.
Definition FLAG_FAST_SYMLINK : Z := 2.
Definition S_IFMT : Z := 0xF000.
Definition S_IFREG : Z := 0x8000.
Definition S_IFDIR : Z := 0x4000.
Definition S_IFLNK : Z := 0xA000.

Record Inode : Type := mkInode {
  i_mode : Z; i_flags : Z; i_uid : Z; i_gid : Z; i_nlink : Z; i_size : Z; i_blocks : Z;
  i_mtime : Z; i_ctime : Z; i_atime : Z; i_btime : Z; i_gen : Z; i_bmap_height : Z; i_rdev : Z;
  i_bmap_root : BlockPtr; i_inline : list Z
}.

Definition INODE_FREE : Inode :=
  mkInode 0 0 0 0 0 0 0 0 0 0 0 0 0 0 PTR_NULL (zeros INLINE_SYMLINK_MAX).

Definition is_used (i : Inode) : bool := negb (Z.land (i_flags i) FLAG_USED =? 0).
Definition is_dir (i : Inode) : bool := Z.land (i_mode i) S_IFMT =? S_IFDIR.
Definition is_reg (i : Inode) : bool := Z.land (i_mode i) S_IFMT =? S_IFREG.
Definition is_symlink (i : Inode) : bool := Z.land (i_mode i) S_IFMT =? S_IFLNK.
Definition fast_flag (flags : Z) : bool := negb (Z.land flags FLAG_FAST_SYMLINK =? 0).
Definition is_fast_symlink (i : Inode) : bool := fast_flag (i_flags i).

Definition inode_fields (i : Inode) : list (nat * list Z) :=
  [(0, u16 (i_mode i)); (2, u16 (i_flags i)); (4, u32 (i_uid i)); (8, u32 (i_gid i));
   (12, u32 (i_nlink i)); (16, u64 (i_size i)); (24, u64 (i_blocks i)); (32, u64 (i_mtime i));
   (40, u64 (i_ctime i)); (48, u64 (i_atime i)); (56, u64 (i_btime i)); (64, u64 (i_gen i));
   (72, [i_bmap_height i])]%nat ++
  if is_fast_symlink i then [(80%nat, i_inline i)]
  else [(80%nat, u64 (i_rdev i)); (96%nat, ptr_to_bytes (i_bmap_root i))].

Definition inode_encode (i : Inode) : list Z := put_fields (inode_fields i) (zeros INODE_SIZE).

Definition inode_decode (buf : list Z) : Inode :=
  let flags := rd_u16 2 buf in
  let fast := fast_flag flags in
  mkInode (rd_u16 0 buf) flags (rd_u32 4 buf) (rd_u32 8 buf) (rd_u32 12 buf) (rd_u64 16 buf)
    (rd_u64 24 buf) (rd_u64 32 buf) (rd_u64 40 buf) (rd_u64 48 buf) (rd_u64 56 buf) (rd_u64 64 buf)
    (rd_u8 72 buf) (if fast then 0 else rd_u64 80 buf)
    (if fast then PTR_NULL else ptr_from_bytes (slice 96 32 buf))
    (if fast then slice 80 48 buf else zeros INLINE_SYMLINK_MAX).

(** ** superblock.rs: the payload *)

Record Superblock : Type := mkSb {
  sb_gen : Z; sb_total_blocks : Z; sb_inode_map_root : BlockPtr; sb_inode_map_height : Z;
  sb_next_inode : Z; sb_inode_count : Z; sb_block_count : Z; sb_commit_time : Z; sb_uuid : list Z
}.

Definition sb_fields (s : Superblock) : list (nat * list Z) :=
  [(0, SB_MAGIC); (8, u64 (sb_gen s)); (16, u64 (sb_total_blocks s));
   (24, ptr_to_bytes (sb_inode_map_root s)); (56, u64 (sb_inode_map_height s));
   (64, u64 (sb_next_inode s)); (72, u64 (sb_inode_count s)); (80, u64 (sb_block_count s));
   (88, u64 (sb_commit_time s)); (96, sb_uuid s)]%nat.

(** [encode_payload] on a zeroed slot buffer. *)
Definition sb_encode_payload (s : Superblock) : list Z := put_fields (sb_fields s) block_zeros.

Definition sb_decode_payload (buf : list Z) : result Superblock RError :=
  if negb (bool_decide (slice 0 8 buf = SB_MAGIC)) then Err RNoSuperblock
  else Ok (mkSb (rd_u64 8 buf) (rd_u64 16 buf) (ptr_from_bytes (slice 24 32 buf)) (rd_u64 56 buf)
             (rd_u64 64 buf) (rd_u64 72 buf) (rd_u64 80 buf) (rd_u64 88 buf) (slice 96 16 buf)).

(** ** transform.rs *)

Definition TAG_SIZE : nat := 16.

Definition dyn_aad (block gen : Z) : list Z :=
  put_fields [(0%nat, u64 block); (8%nat, u64 gen)] (zeros 16).

Definition sb_aad (gen slot : Z) (uuid : list Z) : list Z :=
  put_fields [(0, SB_MAGIC); (8, u64 gen); (16, u64 slot); (24, uuid)]%nat (zeros 40).

Class BlockTransform (T : Type) : Type := {
  encrypt_block : T -> Z -> Z -> list Z -> list Z -> list Z * list Z;
  decrypt_block : T -> Z -> Z -> list Z -> list Z -> list Z -> result (list Z) RError;
  incompat_features : T -> Z
}.

Section sealing.
Context {T : Type} `{BlockTransform T}.

Definition seal_superblock (x : T) (slot gen : Z) (uuid slot_buf : list Z) : list Z :=
  let aad := sb_aad gen slot uuid in
  let '(tag, ct) := encrypt_block x slot gen aad (take SB_PAYLOAD_SIZE slot_buf) in
  put_fields [(0%nat, ct); (SB_GEN_COPY_OFFSET, u64 gen); (SB_TAG_OFFSET, tag)] slot_buf.

Definition open_superblock (x : T) (slot : Z) (uuid slot_buf : list Z)
  : result (Z * list Z) RError :=
  let gen := rd_u64 SB_GEN_COPY_OFFSET slot_buf in
  let aad := sb_aad gen slot uuid in
  let tag := slice SB_TAG_OFFSET TAG_SIZE slot_buf in
  match decrypt_block x slot gen aad tag (take SB_PAYLOAD_SIZE slot_buf) with
  | Err e => Err e
  | Ok pt => Ok (gen, splice 0 pt slot_buf)
  end.

End sealing.

Inductive IdentityTransform : Type := Identity.

#[export] Instance identity_transform : BlockTransform IdentityTransform := {
  encrypt_block _ _ _ _ data := (zeros TAG_SIZE, data);
  decrypt_block _ block _ _ expected_tag data :=
    if bool_decide (expected_tag = zeros TAG_SIZE) then Ok data else Err (RAuth block);
  incompat_features _ := 0
}.

(** What the file system relies on: opening a sealed block gives it back, with
    tags and ciphertext of the documented sizes. *)
Class TransformLaws (T : Type) `{BlockTransform T} : Prop := {
  decrypt_encrypt : forall x block gen aad data,
    decrypt_block x block gen aad (encrypt_block x block gen aad data).1
      (encrypt_block x block gen aad data).2 = Ok data;
  length_tag : forall x block gen aad data, length (encrypt_block x block gen aad data).1 = TAG_SIZE;
  length_ciphertext : forall x block gen aad data,
    length (encrypt_block x block gen aad data).2 = length data
}.

#[export] Instance identity_laws : TransformLaws IdentityTransform.
Proof. split; intros; cbn; [by rewrite bool_decide_true|done|done]. Qed.

(** ** Round trips *)

Lemma length_zeros n : length (zeros n) = n.
Proof. apply length_replicate. Qed.

Lemma length_block_zeros : length block_zeros = 4096%nat.
Proof. apply length_zeros. Qed.

Lemma le_field n v : in_u (8 * Z.of_nat n) v -> le_num (le_bytes n v) = v.
Proof. intros Hv. apply le_num_bytes. unfold in_u in Hv. by rewrite Z.pow_mul_r in Hv by lia. Qed.

Record ptr_wf (p : BlockPtr) : Prop := {
  pw_block : in_u 64 (p_block p); pw_gen : in_u 64 (p_gen p); pw_tag : length (p_tag p) = 16%nat
}.

Lemma ptr_null_wf : ptr_wf PTR_NULL.
Proof. split; [done|done|apply length_zeros]. Qed.

Lemma ptr_spans p : ptr_wf p ->
  map span [(0%nat, u64 (p_block p)); (8%nat, u64 (p_gen p)); (16%nat, p_tag p)] =
  [(0, 8); (8, 8); (16, 16)]%nat.
Proof. intros [_ _ Ht]. unfold span. cbn. by rewrite Ht. Qed.

Lemma length_ptr_to_bytes p : ptr_wf p -> length (ptr_to_bytes p) = 32%nat.
Proof.
  intros Hp. unfold ptr_to_bytes. rewrite length_put_fields; [apply length_zeros|].
  by rewrite ptr_spans, length_zeros.
Qed.

Lemma rd_field n o v fields buf :
  spans_ok (length buf) (map span fields) = true -> (o, le_bytes n v) ∈ fields ->
  in_u (8 * Z.of_nat n) v -> le_num (slice o n (put_fields fields buf)) = v.
Proof.
  intros Hok Hin Hv. rewrite (slice_put_fields fields buf o (le_bytes n v)); [by apply le_field|done|done|].
  by rewrite length_le_bytes.
Qed.

Ltac in_list := first [apply list_elem_of_here | apply list_elem_of_further; in_list].

(** Reading a field of [put_fields fields buf]; [Hs] computes the spans. *)
Ltac field Hs :=
  try unfold rd_u64; try unfold rd_u32; try unfold rd_u16;
  first [apply rd_field | apply slice_put_fields];
  [ rewrite Hs, ?length_zeros, ?length_block_zeros; reflexivity
  | in_list
  | first [assumption | reflexivity | symmetry; assumption] ].

Lemma ptr_roundtrip p : ptr_wf p -> ptr_from_bytes (ptr_to_bytes p) = p.
Proof.
  intros Hp. pose proof (ptr_spans p Hp) as Hs. destruct Hp as [Hb Hg Ht].
  unfold ptr_from_bytes, ptr_to_bytes. destruct p as [b g t]. cbn [p_block p_gen p_tag] in *.
  f_equal; field Hs.
Qed.

Record header_wf (h : StaticHeader) : Prop := {
  hw_format : h_format_version h = FORMAT_VERSION;
  hw_version : 1 <= h_header_version h < 2 ^ 16;
  hw_block_size : h_block_size h = Z.of_nat BLOCK_SIZE;
  hw_u64 : Forall (in_u 64) [h_total_blocks h; h_sb_slot_a h; h_sb_slot_b h; h_first_data_block h;
                             h_feature_compat h; h_feature_incompat h; h_feature_ro_compat h];
  hw_u32 : Forall (in_u 32) [h_argon_m_cost h; h_argon_t_cost h; h_argon_p h];
  hw_uuid : length (h_uuid h) = 16%nat; hw_salt : length (h_kdf_salt h) = 16%nat;
  hw_nonce : length (h_dek_wrap_nonce h) = 12%nat; hw_wrapped : length (h_dek_wrapped h) = 32%nat;
  hw_tag : length (h_dek_wrap_tag h) = 16%nat; hw_label : length (h_label h) = 64%nat
}.

Lemma header_spans h : header_wf h -> map span (header_fields h) =
  [(0, 8); (8, 2); (10, 2); (12, 4); (16, 8); (24, 8); (32, 8); (40, 8); (48, 16); (64, 8); (72, 8);
   (80, 8); (88, 1); (96, 16); (112, 4); (116, 4); (120, 4); (128, 12); (144, 32); (176, 16);
   (192, 64)]%nat.
Proof. intros []. unfold header_fields, span. cbn. congruence. Qed.

Lemma rd_u8_slice off b x : slice off 1 b = [x] -> rd_u8 off b = x.
Proof.
  unfold rd_u8, slice. intros Hs. rewrite <- (Nat.add_0_r off), <- lookup_drop.
  destruct (drop off b) as [|y r]; [done|]. cbn in Hs |- *. congruence.
Qed.

Lemma header_roundtrip h : header_wf h -> header_decode (header_encode h) = Ok h.
Proof.
  intros Hw. pose proof (header_spans h Hw) as Hs. destruct Hw as [Hf Hv Hb H64 H32 ? ? ? ? ? ?].
  repeat rewrite Forall_cons in H64. repeat rewrite Forall_cons in H32.
  destruct H64 as (? & ? & ? & ? & ? & ? & ? & _), H32 as (? & ? & ? & _).
  assert (in_u 16 (h_format_version h)) by (by rewrite Hf).
  assert (in_u 16 (h_header_version h)) by (unfold in_u; lia).
  assert (in_u 32 (h_block_size h)) by (rewrite Hb, BLOCK_SIZE_eq; unfold in_u; lia).
  set (e := header_encode h). unfold header_decode.
  assert (slice 0 8 e = MAGIC) as -> by field Hs.
  assert (rd_u16 8 e = h_format_version h) as -> by field Hs.
  assert (rd_u16 10 e = h_header_version h) as -> by field Hs.
  assert (rd_u32 12 e = h_block_size h) as -> by field Hs.
  rewrite bool_decide_true by done. rewrite (proj2 (Z.eqb_eq _ _) Hf), (proj2 (Z.eqb_eq _ _) Hb).
  rewrite (proj2 (Z.ltb_ge _ _)) by lia. cbn [negb]. f_equal.
  assert (rd_u64 16 e = h_total_blocks h) as -> by field Hs.
  assert (rd_u64 24 e = h_sb_slot_a h) as -> by field Hs.
  assert (rd_u64 32 e = h_sb_slot_b h) as -> by field Hs.
  assert (rd_u64 40 e = h_first_data_block h) as -> by field Hs.
  assert (slice 48 16 e = h_uuid h) as -> by field Hs.
  assert (rd_u64 64 e = h_feature_compat h) as -> by field Hs.
  assert (rd_u64 72 e = h_feature_incompat h) as -> by field Hs.
  assert (rd_u64 80 e = h_feature_ro_compat h) as -> by field Hs.
  assert (slice 96 16 e = h_kdf_salt h) as -> by field Hs.
  assert (rd_u32 112 e = h_argon_m_cost h) as -> by field Hs.
  assert (rd_u32 116 e = h_argon_t_cost h) as -> by field Hs.
  assert (rd_u32 120 e = h_argon_p h) as -> by field Hs.
  assert (slice 128 12 e = h_dek_wrap_nonce h) as -> by field Hs.
  assert (slice 144 32 e = h_dek_wrapped h) as -> by field Hs.
  assert (slice 176 16 e = h_dek_wrap_tag h) as -> by field Hs.
  assert (slice 192 64 e = h_label h) as -> by field Hs.
  assert (rd_u8 88 e = h_kdf_algo h) as -> by (apply rd_u8_slice; field Hs).
  by destruct h.
Qed.

Record inode_wf (i : Inode) : Prop := {
  iw_u16 : in_u 16 (i_mode i) /\ in_u 16 (i_flags i);
  iw_u32 : Forall (in_u 32) [i_uid i; i_gid i; i_nlink i];
  iw_u64 : Forall (in_u 64) [i_size i; i_blocks i; i_mtime i; i_ctime i; i_atime i; i_btime i;
                             i_gen i; i_rdev i];
  iw_root : ptr_wf (i_bmap_root i); iw_inline : length (i_inline i) = 48%nat;
  iw_fast : if is_fast_symlink i then i_rdev i = 0 /\ i_bmap_root i = PTR_NULL
            else i_inline i = zeros INLINE_SYMLINK_MAX
}.

Lemma inode_spans i : inode_wf i -> map span (inode_fields i) =
  [(0, 2); (2, 2); (4, 4); (8, 4); (12, 4); (16, 8); (24, 8); (32, 8); (40, 8); (48, 8); (56, 8);
   (64, 8); (72, 1)]%nat ++ if is_fast_symlink i then [(80, 48)]%nat else [(80, 8); (96, 32)]%nat.
Proof.
  intros []. unfold inode_fields. rewrite map_app. f_equal.
  destruct (is_fast_symlink i); unfold span; cbn [map fst snd]; [congruence|].
  by rewrite length_ptr_to_bytes.
Qed.

Lemma inode_spans_ok i : inode_wf i -> spans_ok 128 (map span (inode_fields i)) = true.
Proof. intros Hw. rewrite inode_spans by done. by destruct (is_fast_symlink i). Qed.

Lemma length_inode_encode i : inode_wf i -> length (inode_encode i) = 128%nat.
Proof.
  intros Hw. unfold inode_encode.
  rewrite length_put_fields; rewrite length_zeros; [done|by apply inode_spans_ok].
Qed.

Lemma inode_field i o b n :
  inode_wf i -> (o, b) ∈ inode_fields i -> n = length b -> slice o n (inode_encode i) = b.
Proof.
  intros Hw Hin Hn. apply slice_put_fields; [|done|done]. rewrite length_zeros. by apply inode_spans_ok.
Qed.

Lemma inode_num i o n v :
  inode_wf i -> (o, le_bytes n v) ∈ inode_fields i -> in_u (8 * Z.of_nat n) v ->
  le_num (slice o n (inode_encode i)) = v.
Proof.
  intros Hw Hin Hv. rewrite (inode_field i o (le_bytes n v)); [by apply le_field|done|done|].
  by rewrite length_le_bytes.
Qed.

Ltac ifield :=
  try unfold rd_u64; try unfold rd_u32; try unfold rd_u16;
  first [apply inode_num | apply inode_field];
  [assumption|unfold inode_fields; cbn [app]; in_list
  |first [assumption|reflexivity]].

Lemma inode_roundtrip i : inode_wf i -> inode_decode (inode_encode i) = i.
Proof.
  intros Hw. pose proof Hw as [[? ?] H32 H64 Hroot Hin Hfast].
  repeat rewrite Forall_cons in H64. repeat rewrite Forall_cons in H32.
  destruct H32 as (? & ? & ? & _), H64 as (? & ? & ? & ? & ? & ? & ? & ? & _).
  unfold inode_decode.
  assert (rd_u16 2 (inode_encode i) = i_flags i) as -> by ifield.
  change (fast_flag (i_flags i)) with (is_fast_symlink i).
  assert (rd_u8 72 (inode_encode i) = i_bmap_height i) as -> by (apply rd_u8_slice; ifield).
  assert (Htail : if is_fast_symlink i then slice 80 48 (inode_encode i) = i_inline i
    else slice 80 8 (inode_encode i) = u64 (i_rdev i) /\
         slice 96 32 (inode_encode i) = ptr_to_bytes (i_bmap_root i)).
  { destruct (is_fast_symlink i) eqn:Hf; [|split]; (apply inode_field; [done| |]).
    all: try (unfold inode_fields; rewrite Hf; cbn [app]; in_list).
    - done.
    - done.
    - by rewrite length_ptr_to_bytes. }
  assert (rd_u16 0 (inode_encode i) = i_mode i) as -> by ifield.
  assert (rd_u32 4 (inode_encode i) = i_uid i) as -> by ifield.
  assert (rd_u32 8 (inode_encode i) = i_gid i) as -> by ifield.
  assert (rd_u32 12 (inode_encode i) = i_nlink i) as -> by ifield.
  assert (rd_u64 16 (inode_encode i) = i_size i) as -> by ifield.
  assert (rd_u64 24 (inode_encode i) = i_blocks i) as -> by ifield.
  assert (rd_u64 32 (inode_encode i) = i_mtime i) as -> by ifield.
  assert (rd_u64 40 (inode_encode i) = i_ctime i) as -> by ifield.
  assert (rd_u64 48 (inode_encode i) = i_atime i) as -> by ifield.
  assert (rd_u64 56 (inode_encode i) = i_btime i) as -> by ifield.
  assert (rd_u64 64 (inode_encode i) = i_gen i) as -> by ifield.
  destruct (is_fast_symlink i).
  - destruct Hfast as [Hr Hp]. rewrite Htail, <- Hp, <- Hr. by destruct i.
  - destruct Htail as [H80 H96]. unfold rd_u64. rewrite H80, H96, ptr_roundtrip, <- Hfast by done.
    unfold u64. rewrite le_field by done. by destruct i.
Qed.

Record sb_wf (s : Superblock) : Prop := {
  sw_u64 : Forall (in_u 64) [sb_gen s; sb_total_blocks s; sb_inode_map_height s; sb_next_inode s;
                             sb_inode_count s; sb_block_count s; sb_commit_time s];
  sw_root : ptr_wf (sb_inode_map_root s); sw_uuid : length (sb_uuid s) = 16%nat
}.

Lemma sb_spans s : sb_wf s -> map span (sb_fields s) =
  [(0, 8); (8, 8); (16, 8); (24, 32); (56, 8); (64, 8); (72, 8); (80, 8); (88, 8); (96, 16)]%nat.
Proof.
  intros []. unfold sb_fields, span. cbn [map fst snd]. rewrite length_ptr_to_bytes by done. cbn. congruence.
Qed.

Lemma length_sb_payload s : sb_wf s -> length (sb_encode_payload s) = 4096%nat.
Proof.
  intros Hw. unfold sb_encode_payload. rewrite length_put_fields; [apply length_block_zeros|].
  by rewrite sb_spans, length_block_zeros.
Qed.

(** The payload of a slot is decoded from its first 112 bytes. *)
Lemma sb_decode_prefix buf buf' :
  take 112 buf = take 112 buf' -> sb_decode_payload buf = sb_decode_payload buf'.
Proof.
  intros Ht.
  assert (Hs : forall o n, (o + n <= 112)%nat -> slice o n buf = slice o n buf').
  { intros o n Hn. unfold slice. rewrite !take_drop_commute.
    rewrite <- (Nat.min_l (o + n) 112) by lia. by rewrite <- !take_take, Ht. }
  unfold sb_decode_payload, rd_u64. by rewrite !Hs by lia.
Qed.

Lemma sb_roundtrip s : sb_wf s -> sb_decode_payload (sb_encode_payload s) = Ok s.
Proof.
  intros Hw. pose proof (sb_spans s Hw) as Hs. pose proof Hw as [H64 Hr Hu].
  repeat rewrite Forall_cons in H64. destruct H64 as (? & ? & ? & ? & ? & ? & ? & _).
  set (e := sb_encode_payload s). unfold sb_decode_payload.
  assert (slice 0 8 e = SB_MAGIC) as -> by field Hs.
  rewrite bool_decide_true by done. cbn [negb]. f_equal.
  assert (slice 24 32 e = ptr_to_bytes (sb_inode_map_root s)) as ->.
  { apply slice_put_fields; [by rewrite Hs, length_block_zeros|in_list|by rewrite length_ptr_to_bytes]. }
  rewrite ptr_roundtrip by done.
  assert (rd_u64 8 e = sb_gen s) as -> by field Hs.
  assert (rd_u64 16 e = sb_total_blocks s) as -> by field Hs.
  assert (rd_u64 56 e = sb_inode_map_height s) as -> by field Hs.
  assert (rd_u64 64 e = sb_next_inode s) as -> by field Hs.
  assert (rd_u64 72 e = sb_inode_count s) as -> by field Hs.
  assert (rd_u64 80 e = sb_block_count s) as -> by field Hs.
  assert (rd_u64 88 e = sb_commit_time s) as -> by field Hs.
  assert (slice 96 16 e = sb_uuid s) as -> by field Hs.
  by destruct s.
Qed.

Section slots.
Context {T : Type} `{TransformLaws T}.

Lemma seal_spans (x : T) slot gen uuid buf :
  length buf = 4096%nat ->
  let e := encrypt_block x slot gen (sb_aad gen slot uuid) (take SB_PAYLOAD_SIZE buf) in
  map span [(0%nat, e.2); (SB_GEN_COPY_OFFSET, u64 gen); (SB_TAG_OFFSET, e.1)] =
  [(0, 4072); (4072, 8); (4080, 16)]%nat.
Proof.
  intros Hl e. unfold span. cbn [map fst snd]. unfold e. rewrite length_tag, length_ciphertext, length_take, Hl.
  done.
Qed.

(** Opening a sealed slot returns its generation and its payload. *)
Lemma open_seal_superblock (x : T) slot gen uuid buf :
  length buf = 4096%nat -> in_u 64 gen ->
  exists buf', open_superblock x slot uuid (seal_superblock x slot gen uuid buf) = Ok (gen, buf') /\
    take SB_PAYLOAD_SIZE buf' = take SB_PAYLOAD_SIZE buf.
Proof.
  intros Hl Hg. unfold open_superblock, seal_superblock.
  pose proof (seal_spans x slot gen uuid buf Hl) as Hs. cbv zeta in Hs.
  set (e := encrypt_block x slot gen (sb_aad gen slot uuid) (take SB_PAYLOAD_SIZE buf)) in *.
  destruct e as [tag ct] eqn:He. cbn [fst snd] in Hs.
  set (sealed := put_fields [(0%nat, ct); (SB_GEN_COPY_OFFSET, u64 gen); (SB_TAG_OFFSET, tag)] buf).
  assert (Hok : spans_ok (length buf) (map span [(0%nat, ct); (SB_GEN_COPY_OFFSET, u64 gen); (SB_TAG_OFFSET, tag)]) = true)
    by (rewrite Hs, Hl; reflexivity).
  assert (Hct : length ct = SB_PAYLOAD_SIZE) by (injection Hs; done).
  assert (Htag : length tag = TAG_SIZE) by (injection Hs; done).
  assert (rd_u64 SB_GEN_COPY_OFFSET sealed = gen) as ->.
  { unfold rd_u64. apply rd_field; [done|in_list|done]. }
  assert (slice SB_TAG_OFFSET TAG_SIZE sealed = tag) as ->.
  { apply slice_put_fields; [done|in_list|done]. }
  assert (take SB_PAYLOAD_SIZE sealed = ct) as ->.
  { rewrite <- slice_0. apply slice_put_fields; [done|in_list|done]. }
  pose proof (decrypt_encrypt x slot gen (sb_aad gen slot uuid) (take SB_PAYLOAD_SIZE buf)) as Hd.
  fold e in Hd. rewrite He in Hd. cbn [fst snd] in Hd. rewrite Hd.
  assert (Hlp : length (take SB_PAYLOAD_SIZE buf) = SB_PAYLOAD_SIZE).
  { rewrite length_take, Hl. reflexivity. }
  eexists. split; [done|]. unfold splice. rewrite take_0. cbn [app]. by apply take_app_length'.
Qed.

End slots.
