(* ===== verification/Rfs2Dirent.v ===== *)
(** * RFS V2 directory blocks (fs/rfs2/src/dirent.rs)

    A directory block is a chain of records whose [rec_len] fields partition
    the 4096 bytes; a record with inode 0 is a hole.  [parse_block] checks the
    chain, the other operations edit the bytes in place. *)

From S2P Require Import Prelude Rfs2Layout.

#[local] Open Scope Z_scope.

Definition DIRENT_HDR : nat := 12.
Definition NAME_MAX : nat := 255.
Definition FT_REG : Z := 1.
Definition FT_DIR : Z := 2.
Definition FT_SYMLINK : Z := 3.

Definition align4 (n : nat) : nat := Z.to_nat (Z.land (Z.of_nat n + 3) (not_u 64 3)).

Record Dirent : Type := mkDirent {
  d_offset : nat; d_inode : Z; d_rec_len : nat; d_file_type : Z; d_name : list Z
}.

(** One round of the parse loop per record; a record has at least 12 bytes, so
    [PARSE_FUEL] rounds reach the end of the block. *)
Definition PARSE_FUEL : nat := 342.

Lemma PARSE_FUEL_Z : Z.of_nat PARSE_FUEL = 342.
Proof. reflexivity. Qed.

#[global] Opaque PARSE_FUEL.

Fixpoint parse_from (fuel off : nat) (block : list Z) : result (list Dirent) RError :=
  match fuel with
  | O => Err RCorrupt
  | S fuel' =>
      if (BLOCK_SIZE <=? off)%nat then
        if (off =? BLOCK_SIZE)%nat then Ok [] else Err RCorrupt
      else if (BLOCK_SIZE <? off + DIRENT_HDR)%nat then Err RCorrupt
      else
        let inode := rd_u64 off block in
        let rec_len := Z.to_nat (rd_u16 (off + 8) block) in
        let name_len := Z.to_nat (rd_u8 (off + 10) block) in
        let file_type := rd_u8 (off + 11) block in
        if (rec_len <? DIRENT_HDR)%nat || negb (rec_len mod 4 =? 0)%nat ||
           (BLOCK_SIZE <? off + rec_len)%nat || (rec_len <? DIRENT_HDR + name_len)%nat
        then Err RCorrupt
        else if negb (inode =? 0) && (name_len =? 0)%nat then Err RCorrupt
        else
          match parse_from fuel' (off + rec_len) block with
          | Err e => Err e
          | Ok rest =>
              Ok (mkDirent off inode rec_len file_type (slice (off + DIRENT_HDR) name_len block) :: rest)
          end
  end.

Definition parse_block (block : list Z) : result (list Dirent) RError := parse_from PARSE_FUEL 0 block.

Definition init_empty : list Z := put_fields [(8%nat, u16 (Z.of_nat BLOCK_SIZE))] block_zeros.

Definition write_entry (block : list Z) (off rec_len : nat) (ino ftype : Z) (name : list Z) : list Z :=
  let used_end := (off + DIRENT_HDR + length name)%nat in
  let pad_end := (off + Nat.min (align4 (DIRENT_HDR + length name)) rec_len)%nat in
  put_fields [(off, u64 ino); ((off + 8)%nat, u16 (Z.of_nat rec_len));
              ((off + 10)%nat, [wrap 8 (Z.of_nat (length name))]); ((off + 11)%nat, [ftype]);
              ((off + DIRENT_HDR)%nat, name); (used_end, zeros (pad_end - used_end))] block.

Definition is_entry (name : list Z) (d : Dirent) : bool :=
  negb (d_inode d =? 0) && bool_decide (d_name d = name).

Definition find (block name : list Z) : result (option (nat * Z * Z)) RError :=
  match parse_block block with
  | Err e => Err e
  | Ok ds =>
      Ok ((fun d => (d_offset d, d_inode d, d_file_type d)) <$> List.find (is_entry name) ds)
  end.

(** The loop of [insert] over the parsed records; [None] is a full block. *)
Fixpoint insert_at (block : list Z) (ds : list Dirent) (ino ftype : Z) (name : list Z) (needed : nat)
  : option (list Z) :=
  match ds with
  | [] => None
  | d :: ds' =>
      if (d_inode d =? 0) && (needed <=? d_rec_len d)%nat
      then Some (write_entry block (d_offset d) (d_rec_len d) ino ftype name)
      else
        let used := align4 (DIRENT_HDR + length (d_name d)) in
        if negb (d_inode d =? 0) && (needed <=? d_rec_len d - used)%nat
        then Some (write_entry (splice (d_offset d + 8) (u16 (Z.of_nat used)) block)
                     (d_offset d + used) (d_rec_len d - used) ino ftype name)
        else insert_at block ds' ino ftype name needed
  end.

Definition insert (block : list Z) (ino ftype : Z) (name : list Z)
  : result (option (list Z)) RError :=
  if (length name =? 0)%nat || (NAME_MAX <? length name)%nat then Err RInvalid
  else
    match parse_block block with
    | Err e => Err e
    | Ok ds => Ok (insert_at block ds ino ftype name (align4 (DIRENT_HDR + length name)))
    end.

Fixpoint remove_at (block : list Z) (prev : option Dirent) (ds : list Dirent) (name : list Z)
  : option (list Z) :=
  match ds with
  | [] => None
  | d :: ds' =>
      if is_entry name d then
        Some (match prev with
              | Some p => splice (d_offset p + 8) (u16 (Z.of_nat (d_rec_len p + d_rec_len d))) block
              | None => put_fields [(d_offset d, u64 0); ((d_offset d + 10)%nat, [0]);
                                    ((d_offset d + 11)%nat, [0])] block
              end)
      else remove_at block (Some d) ds' name
  end.

Definition remove (block name : list Z) : result (option (list Z)) RError :=
  match parse_block block with
  | Err e => Err e
  | Ok ds => Ok (remove_at block None ds name)
  end.

Definition retarget (block name : list Z) (new_ino : Z) : result (option (list Z)) RError :=
  match parse_block block with
  | Err e => Err e
  | Ok ds => Ok ((fun d => splice (d_offset d) (u64 new_ino) block) <$> List.find (is_entry name) ds)
  end.

Definition DOT : list Z := [46].
Definition DOTDOT : list Z := [46; 46].

Definition only_dots (block : list Z) : result bool RError :=
  match parse_block block with
  | Err e => Err e
  | Ok ds => Ok (forallb (fun d => (d_inode d =? 0) || bool_decide (d_name d = DOT) ||
                                   bool_decide (d_name d = DOTDOT)) ds)
  end.

(** ** The chain as a list of records *)

Record Rec : Type := mkRec { r_ino : Z; r_len : nat; r_ft : Z; r_name : list Z }.

Definition rec_of (d : Dirent) : Rec := mkRec (d_inode d) (d_rec_len d) (d_file_type d) (d_name d).

(** The record [r] lies at [off]. *)
Record at_off (block : list Z) (off : nat) (r : Rec) : Prop := {
  ao_ino : rd_u64 off block = r_ino r;
  ao_len : rd_u16 (off + 8) block = Z.of_nat (r_len r);
  ao_name_len : rd_u8 (off + 10) block = Z.of_nat (length (r_name r));
  ao_ft : rd_u8 (off + 11) block = r_ft r;
  ao_name : slice (off + 12) (length (r_name r)) block = r_name r;
  ao_fit : (12 + length (r_name r) <= r_len r)%nat /\ (off + r_len r <= BLOCK_SIZE)%nat;
  ao_align : (r_len r mod 4 = 0)%nat;
  ao_live : r_ino r <> 0 -> r_name r <> []
}.

(** Records [rs] fill the block from [off] to [stop]. *)
Fixpoint seg (block : list Z) (off : nat) (rs : list Rec) (stop : nat) : Prop :=
  match rs with
  | [] => off = stop
  | r :: rs' => at_off block off r /\ seg block (off + r_len r) rs' stop
  end.

(** The records of the segment with their offsets. *)
Fixpoint place (off : nat) (rs : list Rec) : list Dirent :=
  match rs with
  | [] => []
  | r :: rs' => mkDirent off (r_ino r) (r_len r) (r_ft r) (r_name r) :: place (off + r_len r) rs'
  end.

Lemma parse_seg fuel : forall block off rs,
  seg block off rs BLOCK_SIZE -> (off <= BLOCK_SIZE)%nat -> (BLOCK_SIZE - off < 12 * fuel)%nat ->
  parse_from fuel off block = Ok (place off rs).
Proof.
  induction fuel as [|fuel IH]; intros block off rs Hs Hoff Hf; [lia|]. cbn [parse_from].
  unfold DIRENT_HDR. destruct rs as [|r rs]; cbn [seg place] in *.
  - subst. by rewrite Nat.leb_refl, Nat.eqb_refl.
  - destruct Hs as [[Hi Hl Hn Hft Hnm [Hfit Hend] Hal Hlive] Hs].
    rewrite (proj2 (Nat.leb_gt BLOCK_SIZE off)) by lia.
    rewrite (proj2 (Nat.ltb_ge BLOCK_SIZE (off + 12))) by lia.
    cbv zeta. rewrite Hi, Hl, Hn, Hft, !Nat2Z.id.
    rewrite (proj2 (Nat.ltb_ge (r_len r) 12)) by lia. rewrite Hal. cbn [Nat.eqb negb orb].
    rewrite (proj2 (Nat.ltb_ge BLOCK_SIZE (off + r_len r))) by lia.
    rewrite (proj2 (Nat.ltb_ge (r_len r) (12 + length (r_name r)))) by lia. cbn [orb].
    assert (negb (r_ino r =? 0) && (length (r_name r) =? 0)%nat = false) as ->.
    { destruct (Z.eqb_spec (r_ino r) 0) as [|Hne]; [done|]. specialize (Hlive Hne).
      by destruct (r_name r). }
    rewrite (IH block (off + r_len r)%nat rs Hs) by lia. by rewrite Hnm.
Qed.

Lemma rd_u8_range i block : Forall (fun b => 0 <= b < 256) block -> 0 <= rd_u8 i block < 256.
Proof.
  intros Hb. unfold rd_u8. destruct (block !! i) as [x|] eqn:Hx; cbn; [|lia].
  rewrite Forall_lookup in Hb. by apply (Hb i).
Qed.

Lemma seg_parse fuel : forall block off ds,
  length block = BLOCK_SIZE -> Forall (fun b => 0 <= b < 256) block ->
  parse_from fuel off block = Ok ds ->
  seg block off (map rec_of ds) BLOCK_SIZE /\ ds = place off (map rec_of ds).
Proof.
  induction fuel as [|fuel IH]; intros block off ds Hlen Hb Hp; [done|]. cbn [parse_from] in Hp.
  unfold DIRENT_HDR in Hp.
  destruct (Nat.leb_spec BLOCK_SIZE off) as [Hge|Hlt].
  { destruct (Nat.eqb_spec off BLOCK_SIZE); [|done]. by injection Hp as <-. }
  destruct (Nat.ltb_spec BLOCK_SIZE (off + 12)); [done|]. cbv zeta in Hp.
  set (len := Z.to_nat (rd_u16 (off + 8) block)) in *.
  set (nl := Z.to_nat (rd_u8 (off + 10) block)) in *.
  destruct (Nat.ltb_spec len 12); [done|]. cbn [orb] in Hp.
  destruct (Nat.eqb_spec (len mod 4) 0) as [Hal|]; [|done]. cbn [negb orb] in Hp.
  destruct (Nat.ltb_spec BLOCK_SIZE (off + len)); [done|]. cbn [orb] in Hp.
  destruct (Nat.ltb_spec len (12 + nl)); [done|].
  destruct (negb (rd_u64 off block =? 0) && (nl =? 0)%nat) eqn:Hlive; [done|].
  destruct (parse_from fuel (off + len) block) as [rest|e] eqn:Hr; [|done]. injection Hp as <-.
  destruct (IH block (off + len)%nat rest Hlen Hb Hr) as (Hs & Hpl).
  assert (Hlen16 : 0 <= rd_u16 (off + 8) block).
  { apply le_num_range. apply Forall_take, Forall_drop, Hb. }
  assert (Hnl : length (slice (off + 12) nl block) = nl) by (apply length_slice; lia).
  cbn [map seg place]. split_and!; [|exact Hs|by f_equal].
  split; unfold rec_of; cbn [r_len r_ino r_name r_ft d_inode d_rec_len d_file_type d_name];
    rewrite ?Hnl; try done.
  - unfold len. by rewrite Z2Nat.id.
  - unfold nl. rewrite Z2Nat.id; [done|]. by apply rd_u8_range.
  - intros Hne. destruct (Z.eqb_spec (rd_u64 off block) 0); [done|]. cbn in Hlive.
    intros Hnil. rewrite Hnil in Hnl. cbn in Hnl. rewrite <- Hnl in Hlive. done.
Qed.

(** Parsing is exactly finding the chain. *)
Lemma parse_block_iff block ds :
  length block = BLOCK_SIZE -> Forall (fun b => 0 <= b < 256) block ->
  parse_block block = Ok ds <-> exists rs, seg block 0 rs BLOCK_SIZE /\ ds = place 0 rs.
Proof.
  intros Hl Hb. unfold parse_block. split.
  - intros Hp. destruct (seg_parse _ _ _ _ Hl Hb Hp) as (Hs & Hpl). by exists (map rec_of ds).
  - intros (rs & Hs & ->). pose proof BLOCK_SIZE_Z. pose proof PARSE_FUEL_Z. apply parse_seg; [done|lia|lia].
Qed.

Lemma slice_ext {A} o n (l l' : list A) :
  (forall i, (o <= i < o + n)%nat -> l !! i = l' !! i) -> slice o n l = slice o n l'.
Proof.
  intros Heq. unfold slice. apply list_eq. intros i. destruct (decide (i < n)%nat).
  - rewrite !lookup_take_lt, !lookup_drop by done. apply Heq. lia.
  - by rewrite !lookup_take_ge by lia.
Qed.

Lemma at_off_frame block block' off r :
  (forall i, (off <= i < off + r_len r)%nat -> block !! i = block' !! i) ->
  at_off block off r -> at_off block' off r.
Proof.
  intros Heq [Hi Hl Hn Hft Hnm [Hfit Hend] Hal Hlive]. unfold rd_u64, rd_u16, rd_u8 in *. split; try done.
  - unfold rd_u64. rewrite <- Hi. f_equal. symmetry. apply slice_ext. intros i ?. apply Heq. lia.
  - unfold rd_u16. rewrite <- Hl. f_equal. symmetry. apply slice_ext. intros i ?. apply Heq. lia.
  - unfold rd_u8. rewrite <- Heq by lia. done.
  - unfold rd_u8. rewrite <- Heq by lia. done.
  - rewrite <- Hnm at 2. symmetry. apply slice_ext. intros i ?. apply Heq. lia.
Qed.

Lemma seg_range block : forall rs off stop, seg block off rs stop -> (off <= stop)%nat.
Proof.
  induction rs as [|r rs IH]; intros off stop Hs; cbn in Hs; [lia|].
  destruct Hs as [_ Hs%IH]. lia.
Qed.

Lemma seg_frame block block' : forall rs off stop,
  (forall i, (off <= i < stop)%nat -> block !! i = block' !! i) ->
  seg block off rs stop -> seg block' off rs stop.
Proof.
  induction rs as [|r rs IH]; intros off stop Heq Hs; cbn in *; [done|].
  destruct Hs as [Ha Hs]. pose proof (seg_range _ _ _ _ Hs). split.
  - eapply at_off_frame; [|exact Ha]. intros i ?. apply Heq. lia.
  - eapply IH; [|exact Hs]. intros i ?. apply Heq. lia.
Qed.

Lemma seg_app block rs1 rs2 : forall off stop,
  seg block off (rs1 ++ rs2) stop <-> exists mid, seg block off rs1 mid /\ seg block mid rs2 stop.
Proof.
  induction rs1 as [|r rs1 IH]; intros off stop; cbn.
  - split; [intros Hs; by exists off|]. by intros (mid & -> & Hs).
  - setoid_rewrite IH. split.
    + intros (Ha & mid & H1 & H2). exists mid. by split_and!.
    + intros (mid & (Ha & H1) & H2). split; [done|]. by exists mid.
Qed.

Lemma place_app rs1 rs2 : forall off,
  place off (rs1 ++ rs2) = place off rs1 ++ place (off + sum_list (map r_len rs1)) rs2.
Proof.
  induction rs1 as [|r rs1 IH]; intros off; cbn.
  - by rewrite Nat.add_0_r.
  - by rewrite IH, Nat.add_assoc.
Qed.

Lemma seg_stop block : forall rs off stop,
  seg block off rs stop -> stop = (off + sum_list (map r_len rs))%nat.
Proof.
  induction rs as [|r rs IH]; intros off stop Hs; cbn in *; [lia|].
  destruct Hs as [_ ->%IH]. lia.
Qed.

(** *** Alignment *)

Lemma align4_spec n : Z.of_nat n < 2 ^ 60 -> align4 n = (4 * ((n + 3) / 4))%nat.
Proof.
  intros Hn. unfold align4. change 3 with (2 ^ 2 - 1) at 2.
  rewrite land_not_mask by (unfold in_u; lia).
  replace (Z.of_nat n + 3) with (Z.of_nat (n + 3)) by lia. change (2 ^ 2) with (Z.of_nat 4).
  rewrite <- Nat2Z.inj_div, <- Nat2Z.inj_mul, Nat2Z.id. lia.
Qed.

(** *** Writing a record *)

Lemma slice_splice_inside {A} off k n (bytes l : list A) :
  (off + length bytes <= length l)%nat -> (k + n <= length bytes)%nat ->
  slice (off + k) n (splice off bytes l) = slice k n bytes.
Proof.
  intros Hfit Hk. unfold slice. apply list_eq. intros i. destruct (decide (i < n)%nat).
  - rewrite !lookup_take_lt, !lookup_drop, lookup_splice by done.
    rewrite decide_True by lia. f_equal. lia.
  - by rewrite !lookup_take_ge by lia.
Qed.

Lemma lookup_splice_inside {A} off k (bytes l : list A) :
  (off + length bytes <= length l)%nat -> (k < length bytes)%nat ->
  splice off bytes l !! (off + k)%nat = bytes !! k.
Proof.
  intros Hfit Hk. rewrite lookup_splice by done. rewrite decide_True by lia. f_equal. lia.
Qed.

(** The bytes of a record, header, name and padding. *)
Definition entry_bytes (rec_len : nat) (ino ftype : Z) (name : list Z) : list Z :=
  ((((u64 ino ++ u16 (Z.of_nat rec_len)) ++ [wrap 8 (Z.of_nat (length name))]) ++ [ftype]) ++ name) ++
  zeros (Nat.min (align4 (12 + length name)) rec_len - (12 + length name)).

Ltac lens := unfold u64, u16 in *; rewrite ?length_app, ?length_le_bytes, ?length_zeros; cbn [length]; lia.

Lemma length_entry_bytes rec_len ino ftype name :
  length (entry_bytes rec_len ino ftype name) =
    (12 + length name + (Nat.min (align4 (12 + length name)) rec_len - (12 + length name)))%nat.
Proof. unfold entry_bytes. lens. Qed.

Lemma write_entry_splice block off rec_len ino ftype name :
  (off + length (entry_bytes rec_len ino ftype name) <= length block)%nat ->
  write_entry block off rec_len ino ftype name =
    splice off (entry_bytes rec_len ino ftype name) block.
Proof.
  intros Hfit. rewrite length_entry_bytes in Hfit. unfold write_entry, DIRENT_HDR, entry_bytes.
  set (pad := (Nat.min (align4 (12 + length name)) rec_len - (12 + length name))%nat) in *.
  replace (off + Nat.min (align4 (12 + length name)) rec_len - (off + 12 + length name))%nat
    with pad by (unfold pad; lia).
  unfold put_fields. cbn [foldl fst snd].
  rewrite <- (splice_splice off _ (zeros pad)) by lens.
  rewrite <- (splice_splice off _ name) by lens.
  rewrite <- (splice_splice off _ [ftype]) by lens.
  rewrite <- (splice_splice off _ [wrap 8 (Z.of_nat (length name))]) by lens.
  rewrite <- (splice_splice off (u64 ino)) by lens.
  do 4 (f_equal; try lens).
Qed.

Lemma align4_bounds n : Z.of_nat n < 2 ^ 60 -> (n <= align4 n < n + 4)%nat /\ (align4 n mod 4 = 0)%nat.
Proof.
  intros Hn. rewrite align4_spec by done. pose proof (Nat.div_mod (n + 3) 4).
  pose proof (Nat.mod_upper_bound (n + 3) 4). split; [lia|]. rewrite Nat.mul_comm. apply Nat.Div0.mod_mul.
Qed.

Definition name_ok (name : list Z) : Prop := (0 < length name <= NAME_MAX)%nat.

Lemma name_ok_align name : name_ok name ->
  (12 + length name <= align4 (12 + length name) < 16 + length name)%nat /\
  (align4 (12 + length name) mod 4 = 0)%nat.
Proof.
  intros [Hlo Hhi]. unfold NAME_MAX in Hhi. destruct (align4_bounds (12 + length name)); [lia|]. split; [lia|done].
Qed.

Lemma write_entry_at block off rec_len ino ftype name :
  length block = BLOCK_SIZE -> (off + rec_len <= BLOCK_SIZE)%nat -> name_ok name ->
  (align4 (12 + length name) <= rec_len)%nat -> (rec_len mod 4 = 0)%nat -> in_u 64 ino ->
  let block' := write_entry block off rec_len ino ftype name in
  at_off block' off (mkRec ino rec_len ftype name) /\ length block' = BLOCK_SIZE /\
  forall i, (i < off \/ off + rec_len <= i)%nat -> block' !! i = block !! i.
Proof.
  intros Hl Hend Hn Hal Hmod Hi block'. destruct (name_ok_align name Hn) as [Ha _].
  destruct Hn as [Hn0 Hn1]. unfold NAME_MAX in Hn1. pose proof BLOCK_SIZE_Z as HB.
  pose proof (length_entry_bytes rec_len ino ftype name) as Hlen.
  set (e := entry_bytes rec_len ino ftype name) in *.
  assert (Hfit : (off + length e <= length block)%nat) by lia.
  assert (Hb : block' = splice off e block) by (by apply write_entry_splice).
  assert (H16 : rd_u16 8 e = Z.of_nat rec_len).
  { unfold rd_u16. change (slice 8 2 e) with (u16 (Z.of_nat rec_len)). apply le_field. unfold in_u. lia. }
  split_and!.
  - split; cbn [r_ino r_len r_name r_ft].
    + unfold rd_u64. rewrite Hb. replace off with (off + 0)%nat at 1 by lia.
      rewrite slice_splice_inside by lia. change (slice 0 8 e) with (u64 ino). by apply le_field.
    + unfold rd_u16. rewrite Hb, slice_splice_inside by lia. exact H16.
    + unfold rd_u8. rewrite Hb, lookup_splice_inside by lia. cbn. apply wrap_small. unfold in_u. lia.
    + unfold rd_u8. rewrite Hb, lookup_splice_inside by lia. done.
    + rewrite Hb, slice_splice_inside by lia. unfold e, entry_bytes, slice.
      rewrite <- (app_assoc _ name). rewrite drop_app_length' by lens. by rewrite take_app_length.
    + lia.
    + done.
    + intros _ ->. cbn in Hn0. lia.
  - by rewrite Hb, length_splice.
  - intros i Ho. rewrite Hb, lookup_splice by done. rewrite decide_False by lia. done.
Qed.

(** *** The edits on the chain *)

(** The live entries of a chain, in order. *)
Definition live (rs : list Rec) : list (list Z * Z * Z) :=
  (fun r => (r_name r, r_ino r, r_ft r)) <$> List.filter (fun r => negb (r_ino r =? 0)) rs.

Lemma live_app rs1 rs2 : live (rs1 ++ rs2) = live rs1 ++ live rs2.
Proof. unfold live. by rewrite List.filter_app, fmap_app. Qed.

Lemma live_cons r rs : live (r :: rs) = live [r] ++ live rs.
Proof. apply (live_app [r]). Qed.

Lemma seg_at block rs1 r rs2 :
  seg block 0 (rs1 ++ r :: rs2) BLOCK_SIZE ->
  let off := sum_list (map r_len rs1) in
  seg block 0 rs1 off /\ at_off block off r /\ seg block (off + r_len r) rs2 BLOCK_SIZE.
Proof.
  intros (mid & H1 & Ha & H2)%seg_app. pose proof (seg_stop _ _ _ _ H1) as ->. done.
Qed.

(** Replacing the records of one stretch of the block by others. *)
Lemma seg_update off stop block block' rs1 old rs2 new :
  seg block 0 (rs1 ++ old ++ rs2) BLOCK_SIZE ->
  off = sum_list (map r_len rs1) -> stop = (off + sum_list (map r_len old))%nat ->
  (forall i, (i < off \/ stop <= i)%nat -> block' !! i = block !! i) ->
  seg block' off new stop ->
  seg block' 0 (rs1 ++ new ++ rs2) BLOCK_SIZE.
Proof.
  intros (mid1 & H1 & (mid2 & Ho & H2)%seg_app)%seg_app Hoff Hstop Hframe Hnew.
  apply seg_stop in Ho as ->. apply seg_stop in H1 as E1. cbn in E1. rewrite <- Hoff in E1. subst mid1.
  rewrite <- Hstop in H2.
  apply seg_app. exists off. split; [|apply seg_app; exists stop; split; [done|]].
  - eapply seg_frame; [|exact H1]. intros i ?. symmetry. apply Hframe. lia.
  - eapply seg_frame; [|exact H2]. intros i ?. symmetry. apply Hframe. lia.
Qed.

(** A record whose [rec_len] field is rewritten, the new length still covering
    its header and name. *)
Lemma at_off_resize block off r len :
  length block = BLOCK_SIZE -> at_off block off r ->
  (12 + length (r_name r) <= len)%nat -> (off + len <= BLOCK_SIZE)%nat -> (len mod 4 = 0)%nat ->
  at_off (splice (off + 8) (u16 (Z.of_nat len)) block) off (mkRec (r_ino r) len (r_ft r) (r_name r)).
Proof.
  intros Hl [Hi Hlen Hn Hft Hnm [Hfit Hend] Hal Hlive] Hlo Hhi Hmod. pose proof BLOCK_SIZE_Z.
  assert (Hb : (off + 8 + length (u16 (Z.of_nat len)) <= length block)%nat) by lens.
  assert (Hout : forall i, (i < off + 8 \/ off + 10 <= i)%nat ->
            splice (off + 8) (u16 (Z.of_nat len)) block !! i = block !! i).
  { intros i ?. rewrite lookup_splice by done. rewrite decide_False; [done|]. lens. }
  unfold rd_u64, rd_u16, rd_u8 in *. split; cbn [r_ino r_len r_ft r_name]; unfold rd_u64, rd_u16, rd_u8.
  - rewrite <- Hi. f_equal. apply slice_ext. intros i ?. apply Hout. lia.
  - rewrite <- (Nat.add_0_r (off + 8)) at 1. rewrite slice_splice_inside by lens.
    change (slice 0 2 (u16 (Z.of_nat len))) with (u16 (Z.of_nat len)). apply le_field. unfold in_u. lia.
  - rewrite Hout by lia. done.
  - rewrite Hout by lia. done.
  - rewrite <- Hnm at 2. apply slice_ext. intros i ?. apply Hout. lia.
  - lia.
  - done.
  - done.
Qed.

(** The bytes a record could give to a new entry. *)
Definition room (r : Rec) : nat :=
  if r_ino r =? 0 then r_len r else (r_len r - align4 (12 + length (r_name r)))%nat.

Definition full_for (needed : nat) (rs : list Rec) : Prop := Forall (fun r => (room r < needed)%nat) rs.

Lemma at_off_used block off r :
  at_off block off r ->
  (12 + length (r_name r) <= align4 (12 + length (r_name r)) <= r_len r)%nat /\
  (align4 (12 + length (r_name r)) mod 4 = 0)%nat.
Proof.
  intros Ha. destruct (ao_fit _ _ _ Ha) as [Hf He]. pose proof (ao_align _ _ _ Ha) as Hal.
  pose proof BLOCK_SIZE_Z. destruct (align4_bounds (12 + length (r_name r))) as [[Hlo Hhi] Hmod]; [lia|].
  split; [|done]. split; [done|].
  pose proof (Nat.div_mod (r_len r) 4). pose proof (Nat.div_mod (align4 (12 + length (r_name r))) 4). lia.
Qed.

Lemma mod4_sub a b : (b <= a)%nat -> (a mod 4 = 0)%nat -> (b mod 4 = 0)%nat -> ((a - b) mod 4 = 0)%nat.
Proof.
  intros Hle Ha Hb. apply Nat.Div0.mod_divides in Ha as [x ->], Hb as [y ->].
  rewrite <- Nat.mul_sub_distr_l, Nat.mul_comm. apply Nat.Div0.mod_mul.
Qed.

Lemma mod4_add a b : (a mod 4 = 0)%nat -> (b mod 4 = 0)%nat -> ((a + b) mod 4 = 0)%nat.
Proof.
  intros Ha Hb. apply Nat.Div0.mod_divides in Ha as [x ->], Hb as [y ->].
  rewrite <- Nat.mul_add_distr_l, Nat.mul_comm. apply Nat.Div0.mod_mul.
Qed.

(** The two ways [insert] makes room: the whole of a hole, or the slack of a
    live record. *)
Lemma insert_hole block rs1 r rs2 ino ft name :
  length block = BLOCK_SIZE -> seg block 0 (rs1 ++ r :: rs2) BLOCK_SIZE -> name_ok name -> in_u 64 ino ->
  (align4 (12 + length name) <= r_len r)%nat ->
  let block' := write_entry block (sum_list (map r_len rs1)) (r_len r) ino ft name in
  length block' = BLOCK_SIZE /\ seg block' 0 (rs1 ++ mkRec ino (r_len r) ft name :: rs2) BLOCK_SIZE.
Proof.
  intros Hl Hs Hn Hi Hroom block'. destruct (seg_at _ _ _ _ Hs) as (_ & Ha & _).
  destruct (ao_fit _ _ _ Ha) as [_ Hend]. pose proof (ao_align _ _ _ Ha) as Hal.
  destruct (write_entry_at block _ (r_len r) ino ft name Hl Hend Hn Hroom Hal Hi) as (Hat & Hl' & Hout).
  split; [done|]. change (mkRec ino (r_len r) ft name :: rs2) with ([mkRec ino (r_len r) ft name] ++ rs2).
  eapply (seg_update _ _ block _ rs1 [r]); [exact Hs|reflexivity|cbn; by rewrite Nat.add_0_r|exact Hout|].
  cbn. done.
Qed.

Lemma insert_split block rs1 r rs2 ino ft name :
  length block = BLOCK_SIZE -> seg block 0 (rs1 ++ r :: rs2) BLOCK_SIZE -> name_ok name -> in_u 64 ino ->
  let off := sum_list (map r_len rs1) in
  let used := align4 (12 + length (r_name r)) in
  (align4 (12 + length name) <= r_len r - used)%nat ->
  let block' := write_entry (splice (off + 8) (u16 (Z.of_nat used)) block) (off + used) (r_len r - used) ino ft name in
  length block' = BLOCK_SIZE /\
  seg block' 0 (rs1 ++ mkRec (r_ino r) used (r_ft r) (r_name r) :: mkRec ino (r_len r - used) ft name :: rs2) BLOCK_SIZE.
Proof.
  intros Hl Hs Hn Hi off used Hroom block'. destruct (seg_at _ _ _ _ Hs) as (_ & Ha & _). fold off in Ha.
  destruct (ao_fit _ _ _ Ha) as [Hf Hend]. pose proof (ao_align _ _ _ Ha) as Hal.
  destruct (at_off_used _ _ _ Ha) as [Hu Hmod]. fold used in Hu, Hmod. pose proof BLOCK_SIZE_Z.
  assert (Hfit8 : (off + 8 + length (u16 (Z.of_nat used)) <= length block)%nat) by lens.
  set (b1 := splice (off + 8) (u16 (Z.of_nat used)) block) in *.
  assert (Hl1 : length b1 = BLOCK_SIZE) by (by unfold b1; rewrite length_splice).
  pose proof (at_off_resize block off r used Hl Ha) as Hr. fold b1 in Hr.
  destruct (write_entry_at b1 (off + used) (r_len r - used) ino ft name Hl1) as (Hat & Hl' & Hout);
    [lia|done|done|by apply mod4_sub; [lia|..]|done|].
  fold block' in Hat, Hl', Hout. split; [done|].
  change (mkRec (r_ino r) used (r_ft r) (r_name r) :: mkRec ino (r_len r - used) ft name :: rs2)
    with ([mkRec (r_ino r) used (r_ft r) (r_name r); mkRec ino (r_len r - used) ft name] ++ rs2).
  eapply (seg_update off (off + r_len r) block _ rs1 [r]); [exact Hs|done|cbn; by rewrite Nat.add_0_r| |].
  - intros i Ho. rewrite Hout by lia. unfold b1. rewrite lookup_splice by done.
    rewrite decide_False; [done|]. lens.
  - cbn [seg r_len]. split_and!; [|exact Hat|lia].
    eapply at_off_frame; [|apply Hr; [lia|lia|done]]. cbn [r_len]. intros i ?. symmetry. apply Hout. lia.
Qed.

Lemma insert_at_spec block ino ft name : forall rs2 rs1,
  length block = BLOCK_SIZE -> seg block 0 (rs1 ++ rs2) BLOCK_SIZE -> name_ok name -> in_u 64 ino -> ino <> 0 ->
  match insert_at block (place (sum_list (map r_len rs1)) rs2) ino ft name (align4 (12 + length name)) with
  | Some block' => length block' = BLOCK_SIZE /\
      exists rs l1 l2, seg block' 0 rs BLOCK_SIZE /\ live (rs1 ++ rs2) = l1 ++ l2 /\
        live rs = l1 ++ (name, ino, ft) :: l2
  | None => full_for (align4 (12 + length name)) rs2
  end.
Proof.
  induction rs2 as [|r rs2 IH]; intros rs1 Hl Hs Hn Hi Hnz; [by constructor|].
  cbn [place insert_at d_inode d_rec_len d_offset d_name]. unfold DIRENT_HDR.
  assert (Hrest : (room r < align4 (12 + length name))%nat ->
    match insert_at block (place (sum_list (map r_len rs1) + r_len r) rs2) ino ft name (align4 (12 + length name)) with
    | Some block' => length block' = BLOCK_SIZE /\
        exists rs l1 l2, seg block' 0 rs BLOCK_SIZE /\ live (rs1 ++ r :: rs2) = l1 ++ l2 /\
          live rs = l1 ++ (name, ino, ft) :: l2
    | None => full_for (align4 (12 + length name)) (r :: rs2)
    end).
  { intros Hroom. specialize (IH (rs1 ++ [r])). rewrite <- app_assoc in IH. specialize (IH Hl Hs Hn Hi Hnz).
    rewrite map_app, sum_list_with_app in IH. cbn [map sum_list] in IH. rewrite Nat.add_0_r in IH.
    destruct (insert_at _ _ _ _ _ _); [done|]. by constructor. }
  assert (Hnew : forall n, live [mkRec ino n ft name] = [(name, ino, ft)]).
  { intros n. unfold live. cbn. by rewrite (proj2 (Z.eqb_neq ino 0)) by done. }
  unfold room in Hrest. destruct (Z.eqb_spec (r_ino r) 0) as [Hz|Hnzr]; cbn [andb negb].
  - destruct (Nat.leb_spec (align4 (12 + length name)) (r_len r)) as [Hroom|Hroom]; [|by apply Hrest].
    destruct (insert_hole block rs1 r rs2 ino ft name Hl Hs Hn Hi Hroom) as [Hl' Hs']. split; [done|].
    exists (rs1 ++ mkRec ino (r_len r) ft name :: rs2), (live rs1), (live rs2).
    split_and!; [done| |by rewrite live_app, live_cons, Hnew].
    rewrite live_app. f_equal. unfold live. cbn. by rewrite (proj2 (Z.eqb_eq (r_ino r) 0)) by done.
  - destruct (Nat.leb_spec (align4 (12 + length name)) (r_len r - align4 (12 + length (r_name r))))
      as [Hroom|Hroom]; [|by apply Hrest].
    destruct (insert_split block rs1 r rs2 ino ft name Hl Hs Hn Hi Hroom) as [Hl' Hs']. split; [done|].
    eexists _, (live rs1 ++ live [r]), (live rs2).
    split_and!; [exact Hs'|by rewrite live_app, live_cons, app_assoc|].
    rewrite live_app, live_cons, (live_cons _ rs2), Hnew, <- app_assoc. f_equal.
    unfold live. cbn. by rewrite (proj2 (Z.eqb_neq (r_ino r) 0)) by done.
Qed.

(** [remove] merges a record into the one before it, or makes a hole of the
    first. *)
Lemma remove_merge block rs1 p r rs2 :
  length block = BLOCK_SIZE -> seg block 0 (rs1 ++ p :: r :: rs2) BLOCK_SIZE ->
  let off := sum_list (map r_len rs1) in
  let block' := splice (off + 8) (u16 (Z.of_nat (r_len p + r_len r))) block in
  length block' = BLOCK_SIZE /\
  seg block' 0 (rs1 ++ mkRec (r_ino p) (r_len p + r_len r) (r_ft p) (r_name p) :: rs2) BLOCK_SIZE.
Proof.
  intros Hl Hs off block'. destruct (seg_at _ _ _ _ Hs) as (_ & Ha & Hr & _). fold off in Ha, Hr.
  destruct (ao_fit _ _ _ Ha) as [Hf _], (ao_fit _ _ _ Hr) as [_ Hend]. pose proof BLOCK_SIZE_Z.
  assert (Hfit : (off + 8 + length (u16 (Z.of_nat (r_len p + r_len r))) <= length block)%nat) by lens.
  split; [by unfold block'; rewrite length_splice|].
  apply (seg_update off (off + (r_len p + r_len r)) block _ rs1 [p; r] rs2 [_]);
    [exact Hs|done|cbn; by rewrite Nat.add_0_r| |].
  - intros i Ho. unfold block'. rewrite lookup_splice by done. rewrite decide_False; [done|]. lens.
  - cbn [seg r_len]. split; [|done]. apply at_off_resize; [done|done|lia|lia|].
    apply mod4_add; [exact (ao_align _ _ _ Ha)|exact (ao_align _ _ _ Hr)].
Qed.

Lemma remove_first block r rs2 :
  length block = BLOCK_SIZE -> seg block 0 (r :: rs2) BLOCK_SIZE ->
  let block' := put_fields [(0%nat, u64 0); (10%nat, [0]); (11%nat, [0])] block in
  length block' = BLOCK_SIZE /\ seg block' 0 (mkRec 0 (r_len r) 0 [] :: rs2) BLOCK_SIZE.
Proof.
  intros Hl Hs block'. destruct Hs as [Ha Hs]. cbn [Nat.add] in Hs.
  destruct (ao_fit _ _ _ Ha) as [Hf Hend]. pose proof (ao_align _ _ _ Ha) as Hal. pose proof BLOCK_SIZE_Z.
  assert (Hout : forall i, (8 <= i < 10 \/ 12 <= i)%nat -> block' !! i = block !! i).
  { intros i ?. unfold block', put_fields. cbn [foldl fst snd].
    rewrite !lookup_splice by (rewrite ?length_splice; rewrite ?length_splice; lens).
    rewrite !decide_False by lens. done. }
  assert (Hin : take 8 block' = u64 0 /\ block' !! 10%nat = Some 0 /\ block' !! 11%nat = Some 0).
  { do 12 (destruct block as [|? block]; [cbn in Hl; lia|]). done. }
  destruct Hin as (H0 & H10 & H11).
  split; [do 12 (destruct block as [|? block]; [cbn in Hl; lia|]); exact Hl|]. cbn [seg r_len]. split.
  - split; cbn [r_ino r_len r_ft r_name length]; [| | | | |lia|done|done].
    + unfold rd_u64, slice. by rewrite drop_0, H0.
    + rewrite <- (ao_len _ _ _ Ha). unfold rd_u16. f_equal. apply slice_ext. intros i ?. apply Hout. lia.
    + unfold rd_u8. cbn [Nat.add]. by rewrite H10.
    + unfold rd_u8. cbn [Nat.add]. by rewrite H11.
    + by unfold slice.
  - eapply seg_frame; [|exact Hs]. intros i ?. symmetry. apply Hout. lia.
Qed.

Lemma live_hole r : r_ino r = 0 -> live [r] = [].
Proof. intros E. unfold live. cbn. by rewrite E. Qed.

Lemma live_entry r : r_ino r <> 0 -> live [r] = [(r_name r, r_ino r, r_ft r)].
Proof. intros E. unfold live. cbn. by rewrite (proj2 (Z.eqb_neq (r_ino r) 0)). Qed.

Definition names (rs : list Rec) : list (list Z) := (fun e => e.1.1) <$> live rs.

Lemma names_app rs1 rs2 : names (rs1 ++ rs2) = names rs1 ++ names rs2.
Proof. unfold names. by rewrite live_app, fmap_app. Qed.

Lemma names_cons r rs : names (r :: rs) = names [r] ++ names rs.
Proof. apply (names_app [r]). Qed.

Lemma is_entry_spec off name r :
  is_entry name (mkDirent off (r_ino r) (r_len r) (r_ft r) (r_name r)) = true <->
  r_ino r <> 0 /\ r_name r = name.
Proof.
  unfold is_entry. cbn. rewrite andb_true_iff, negb_true_iff, Z.eqb_neq, bool_decide_eq_true. done.
Qed.

Lemma not_entry_names off name r :
  is_entry name (mkDirent off (r_ino r) (r_len r) (r_ft r) (r_name r)) = false -> (name ∉ names [r]).
Proof.
  intros He. unfold names. destruct (decide (r_ino r = 0)).
  - rewrite live_hole by done. apply not_elem_of_nil.
  - rewrite live_entry by done. cbn. rewrite list_elem_of_singleton. intros ->.
    apply not_true_iff_false in He. apply He. by apply is_entry_spec.
Qed.

Lemma remove_at_spec block name : forall rs2 rs1,
  length block = BLOCK_SIZE -> seg block 0 (rs1 ++ rs2) BLOCK_SIZE -> (name ∉ names rs1) ->
  match remove_at block (last (place 0 rs1)) (place (sum_list (map r_len rs1)) rs2) name with
  | Some block' => length block' = BLOCK_SIZE /\
      exists rs l1 e l2, seg block' 0 rs BLOCK_SIZE /\ live (rs1 ++ rs2) = l1 ++ e :: l2 /\
        live rs = l1 ++ l2 /\ e.1.1 = name /\ (name ∉ (fun e => e.1.1) <$> l1)
  | None => name ∉ names (rs1 ++ rs2)
  end.
Proof.
  induction rs2 as [|r rs2 IH]; intros rs1 Hl Hs Hn; [by rewrite app_nil_r|].
  cbn [place remove_at d_offset d_rec_len]. set (off := sum_list (map r_len rs1)) in *.
  destruct (is_entry name _) eqn:He.
  - apply is_entry_spec in He as [Hnz Hname].
    assert (Hlive : live (rs1 ++ r :: rs2) = live rs1 ++ (r_name r, r_ino r, r_ft r) :: live rs2).
    { by rewrite live_app, live_cons, live_entry. }
    rewrite Hlive. destruct rs1 as [|p rs1 _] using rev_ind.
    + destruct (remove_first block r rs2 Hl Hs) as [Hl' Hs']. cbn in off. subst off. split; [done|].
      exists (mkRec 0 (r_len r) 0 [] :: rs2), [], (r_name r, r_ino r, r_ft r), (live rs2).
      split_and!; [done|done|by rewrite live_cons, live_hole|done|by apply not_elem_of_nil].
    + rewrite place_app, last_app. cbn [place last d_offset d_rec_len]. rewrite <- app_assoc in Hs.
      destruct (remove_merge block rs1 p r rs2 Hl Hs) as [Hl' Hs']. split; [done|].
      eexists _, (live (rs1 ++ [p])), (r_name r, r_ino r, r_ft r), (live rs2).
      split_and!; [exact Hs'|done| |done|exact Hn]. rewrite !live_app, live_cons, <- app_assoc. f_equal.
      f_equal. unfold live. cbn. by destruct (r_ino p =? 0).
  - specialize (IH (rs1 ++ [r])). rewrite <- app_assoc in IH.
    rewrite place_app, last_app, map_app, sum_list_with_app in IH. cbn [map place last sum_list_with] in IH.
    cbn [Nat.add] in IH. rewrite Nat.add_0_r in IH. apply IH; [done|done|].
    rewrite names_app, elem_of_app. intros [?|Hin]; [done|]. by eapply not_entry_names in He.
Qed.

Lemma find_place name : forall rs off,
  match List.find (is_entry name) (place off rs) with
  | Some d => exists rs1 r rs2, rs = rs1 ++ r :: rs2 /\
      d = mkDirent (off + sum_list (map r_len rs1)) (r_ino r) (r_len r) (r_ft r) (r_name r) /\
      r_ino r <> 0 /\ r_name r = name /\ (name ∉ names rs1)
  | None => name ∉ names rs
  end.
Proof.
  induction rs as [|r rs IH]; intros off; cbn [place List.find]; [apply not_elem_of_nil|].
  destruct (is_entry name _) eqn:He.
  - apply is_entry_spec in He as [Hnz Hname]. exists [], r, rs. cbn. rewrite Nat.add_0_r.
    split_and!; [done..|apply not_elem_of_nil].
  - specialize (IH (off + r_len r)%nat). destruct (List.find _ _) as [d|].
    + destruct IH as (rs1 & r' & rs2 & -> & -> & Hnz & Hname & Hni). exists (r :: rs1), r', rs2.
      split_and!; [done|by cbn; rewrite Nat.add_assoc|done|done|].
      rewrite names_cons, elem_of_app. intros [Hin|]; [|done]. by eapply not_entry_names in He.
    + rewrite names_cons, elem_of_app. intros [Hin|]; [|done]. by eapply not_entry_names in He.
Qed.

Lemma retarget_at block rs1 r rs2 ino :
  length block = BLOCK_SIZE -> seg block 0 (rs1 ++ r :: rs2) BLOCK_SIZE -> in_u 64 ino ->
  r_name r <> [] ->
  let block' := splice (sum_list (map r_len rs1)) (u64 ino) block in
  length block' = BLOCK_SIZE /\ seg block' 0 (rs1 ++ mkRec ino (r_len r) (r_ft r) (r_name r) :: rs2) BLOCK_SIZE.
Proof.
  intros Hl Hs Hi Hne block'. destruct (seg_at _ _ _ _ Hs) as (_ & Ha & _).
  set (off := sum_list (map r_len rs1)) in *. pose proof BLOCK_SIZE_Z.
  destruct Ha as [Hino Hlen Hn Hft Hnm [Hfit Hend] Hal Hlive].
  assert (Hb : (off + length (u64 ino) <= length block)%nat) by lens.
  assert (Hout : forall i, (i < off \/ off + 8 <= i)%nat -> block' !! i = block !! i).
  { intros i ?. unfold block'. rewrite lookup_splice by done. rewrite decide_False; [done|]. lens. }
  split; [by unfold block'; rewrite length_splice|].
  apply (seg_update off (off + r_len r) block _ rs1 [r] rs2 [_]); [exact Hs|done|cbn; by rewrite Nat.add_0_r| |].
  { intros i ?. apply Hout. lia. }
  cbn [seg r_len]. split; [|done]. unfold rd_u16, rd_u8 in *.
  split; cbn [r_ino r_len r_ft r_name]; unfold rd_u64, rd_u16, rd_u8; [| | | | |done|done|done].
  - unfold block'. replace off with (off + 0)%nat at 1 by lia. rewrite slice_splice_inside by lens.
    change (slice 0 8 (u64 ino)) with (u64 ino). by apply le_field.
  - rewrite <- Hlen. f_equal. apply slice_ext. intros i ?. apply Hout. lia.
  - rewrite Hout by lia. done.
  - rewrite Hout by lia. done.
  - rewrite <- Hnm at 2. apply slice_ext. intros i ?. apply Hout. lia.
Qed.

(** ** A directory block as a finite map *)

Abbreviation DirMap := (gmap (list Z) (Z * Z)).

Definition entry_of (e : list Z * Z * Z) : list Z * (Z * Z) := (e.1.1, (e.1.2, e.2)).

Definition dir_map (es : list (list Z * Z * Z)) : DirMap := list_to_map (entry_of <$> es).

(** The block holds a chain whose live entries are the map [m], each name once. *)
Definition dir_ok (block : list Z) (m : DirMap) : Prop :=
  length block = BLOCK_SIZE /\
  exists rs, seg block 0 rs BLOCK_SIZE /\ NoDup (names rs) /\ m = dir_map (live rs).

Lemma fst_entry_of es : (entry_of <$> es).*1 = (fun e => e.1.1) <$> es.
Proof. rewrite <- list_fmap_compose. done. Qed.

Lemma dir_map_lookup rs name :
  dir_map (live rs) !! name = None <-> (name ∉ names rs).
Proof.
  unfold dir_map, names. rewrite <- fst_entry_of. split.
  - apply not_elem_of_list_to_map_2.
  - apply not_elem_of_list_to_map_1.
Qed.

Lemma dir_map_middle l1 e l2 :
  NoDup ((fun e => e.1.1) <$> (l1 ++ e :: l2)) ->
  dir_map (l1 ++ e :: l2) = <[e.1.1 := (e.1.2, e.2)]> (dir_map (l1 ++ l2)).
Proof.
  intros Hnd. unfold dir_map. rewrite <- fst_entry_of in Hnd.
  assert (Hp : entry_of <$> l1 ++ e :: l2 ≡ₚ entry_of e :: (entry_of <$> l1 ++ l2)).
  { by rewrite !fmap_app, fmap_cons, <- Permutation_middle. }
  by rewrite (list_to_map_proper _ _ Hnd Hp).
Qed.

Lemma parse_ok block rs :
  seg block 0 rs BLOCK_SIZE -> parse_block block = Ok (place 0 rs).
Proof.
  intros Hs. pose proof BLOCK_SIZE_Z. pose proof PARSE_FUEL_Z. apply parse_seg; [done|lia|lia].
Qed.

(** A block accepted by the parser with no duplicate names is such a block. *)
Lemma dir_ok_parse block ds :
  length block = BLOCK_SIZE -> Forall (fun b => 0 <= b < 256) block ->
  parse_block block = Ok ds -> NoDup (names (map rec_of ds)) ->
  dir_ok block (dir_map (live (map rec_of ds))).
Proof.
  intros Hl Hb Hp Hnd. destruct (seg_parse _ _ _ _ Hl Hb Hp) as [Hs _]. split; [done|].
  by exists (map rec_of ds).
Qed.

Lemma find_refines block m name :
  dir_ok block m ->
  exists r, find block name = Ok r /\ (fun t => (t.1.2, t.2)) <$> r = m !! name.
Proof.
  intros (Hl & rs & Hs & Hnd & ->). unfold find. rewrite (parse_ok _ _ Hs). eexists. split; [done|].
  pose proof (find_place name rs 0) as Hf. destruct (List.find _ _) as [d|]; cbn.
  - destruct Hf as (rs1 & r & rs2 & -> & -> & Hnz & <- & _). cbn. unfold names in Hnd.
    rewrite live_app, live_cons, (live_entry r) in * by done. cbn [app] in *.
    rewrite dir_map_middle by done. by rewrite lookup_insert_eq.
  - symmetry. by apply dir_map_lookup.
Qed.

Lemma insert_refines block m ino ft name :
  dir_ok block m -> name_ok name -> in_u 64 ino -> ino <> 0 -> m !! name = None ->
  match insert block ino ft name with
  | Ok (Some block') => dir_ok block' (<[name := (ino, ft)]> m)
  | Ok None => exists rs, seg block 0 rs BLOCK_SIZE /\ full_for (align4 (12 + length name)) rs
  | Err _ => False
  end.
Proof.
  intros (Hl & rs & Hs & Hnd & ->) Hn Hi Hnz Hnone. unfold insert.
  destruct Hn as [Hn0 Hn1]. rewrite (proj2 (Nat.eqb_neq _ 0)), (proj2 (Nat.ltb_ge NAME_MAX _)) by lia.
  cbn [orb]. rewrite (parse_ok _ _ Hs).
  pose proof (insert_at_spec block ino ft name rs [] Hl Hs (conj Hn0 Hn1) Hi Hnz) as Hins. cbn [app map] in Hins.
  change (sum_list []) with 0%nat in Hins. unfold DIRENT_HDR.
  destruct (insert_at _ _ _ _ _ _) as [block'|]; [|by exists rs].
  destruct Hins as (Hl' & rs' & l1 & l2 & Hs' & E & E'). split; [done|]. exists rs'.
  apply dir_map_lookup in Hnone. unfold names in *. rewrite E in *.
  assert (Hnd' : NoDup ((fun e => e.1.1) <$> l1 ++ (name, ino, ft) :: l2)).
  { rewrite fmap_app, fmap_cons, <- Permutation_middle, <- fmap_app. by constructor. }
  split_and!; [done|by rewrite E'|]. by rewrite E', dir_map_middle.
Qed.

Lemma remove_refines block m name :
  dir_ok block m ->
  match remove block name with
  | Ok (Some block') => is_Some (m !! name) /\ dir_ok block' (delete name m)
  | Ok None => m !! name = None
  | Err _ => False
  end.
Proof.
  intros (Hl & rs & Hs & Hnd & ->). unfold remove. rewrite (parse_ok _ _ Hs).
  pose proof (remove_at_spec block name rs [] Hl Hs (not_elem_of_nil _)) as Hrm. cbn [app place last map] in Hrm.
  change (sum_list []) with 0%nat in Hrm.
  destruct (remove_at _ _ _ _) as [block'|]; [|by apply dir_map_lookup].
  destruct Hrm as (Hl' & rs' & l1 & e & l2 & Hs' & E & E' & <- & Hni). unfold names in Hnd. rewrite E in *.
  assert (Hnd' := Hnd). rewrite dir_map_middle by done. rewrite fmap_app, fmap_cons, <- Permutation_middle in Hnd.
  apply NoDup_cons in Hnd as [Hnot Hnd]. rewrite <- fmap_app in Hnot, Hnd.
  split; [rewrite lookup_insert_eq; by eexists|]. split; [done|]. exists rs'. unfold names. rewrite E'.
  split_and!; [done|done|]. rewrite delete_insert_id; [done|]. rewrite <- E'. apply dir_map_lookup.
  unfold names. by rewrite E'.
Qed.

Lemma retarget_refines block m name ino :
  dir_ok block m -> in_u 64 ino -> ino <> 0 ->
  match retarget block name ino with
  | Ok (Some block') => is_Some (m !! name) /\ dir_ok block' (alter (fun e => (ino, e.2)) name m)
  | Ok None => m !! name = None
  | Err _ => False
  end.
Proof.
  intros (Hl & rs & Hs & Hnd & ->) Hi Hnz. unfold retarget. rewrite (parse_ok _ _ Hs).
  pose proof (find_place name rs 0) as Hf. destruct (List.find _ _) as [d|]; cbn; [|by apply dir_map_lookup].
  destruct Hf as (rs1 & r & rs2 & -> & -> & Hnzr & <- & Hni). cbn.
  destruct (seg_at _ _ _ _ Hs) as (_ & Ha & _). pose proof (ao_live _ _ _ Ha Hnzr) as Hne.
  destruct (retarget_at block rs1 r rs2 ino Hl Hs Hi Hne) as [Hl' Hs'].
  assert (E : live (rs1 ++ r :: rs2) = live rs1 ++ (r_name r, r_ino r, r_ft r) :: live rs2).
  { by rewrite live_app, live_cons, live_entry. }
  assert (E' : live (rs1 ++ mkRec ino (r_len r) (r_ft r) (r_name r) :: rs2) =
               live rs1 ++ (r_name r, ino, r_ft r) :: live rs2).
  { by rewrite live_app, live_cons, live_entry. }
  unfold names in Hnd. rewrite E in *. rewrite dir_map_middle by done. cbn [fst snd].
  split; [rewrite lookup_insert_eq; by eexists|]. split; [done|]. eexists. split; [exact Hs'|].
  assert (Hnd' : NoDup ((fun e => e.1.1) <$> live rs1 ++ (r_name r, ino, r_ft r) :: live rs2)).
  { rewrite fmap_app, fmap_cons in *. done. }
  unfold names. rewrite E'. split; [done|]. rewrite dir_map_middle by done.
  by rewrite alter_insert_eq.
Qed.

Lemma names_hole r : r_ino r = 0 -> names [r] = [].
Proof. intros E. unfold names. by rewrite live_hole. Qed.

Lemma names_entry r : r_ino r <> 0 -> names [r] = [r_name r].
Proof. intros E. unfold names. by rewrite live_entry. Qed.

Lemma only_dots_refines block m :
  dir_ok block m ->
  exists b, only_dots block = Ok b /\
    (b = true <-> forall name, is_Some (m !! name) -> name = DOT \/ name = DOTDOT).
Proof.
  intros (Hl & rs & Hs & Hnd & ->). unfold only_dots. rewrite (parse_ok _ _ Hs). eexists. split; [done|].
  transitivity (forall name, name ∈ names rs -> name = DOT \/ name = DOTDOT).
  - clear Hl Hs Hnd. generalize 0%nat. induction rs as [|r rs IH]; intros off.
    { cbn. split; [|done]. intros _ name Hin. by apply not_elem_of_nil in Hin. }
    cbn [place forallb d_inode d_name]. rewrite andb_true_iff, IH, !orb_true_iff, Z.eqb_eq, !bool_decide_eq_true.
    rewrite names_cons. setoid_rewrite elem_of_app. destruct (decide (r_ino r = 0)) as [Hz|Hnz].
    + rewrite names_hole by done. setoid_rewrite elem_of_nil. split; [intros [_ Ha] name [[]|?]; by apply Ha|].
      intros Ha. split; [by left; left|]. intros name ?. apply Ha. by right.
    + rewrite names_entry by done. setoid_rewrite list_elem_of_singleton. split.
      * intros [[[?|?]|?] Ha] name [->|?]; first [done | by apply Ha | by left | by right].
      * intros Ha. split; [|intros name ?; apply Ha; by right].
        destruct (Ha (r_name r)) as [?|?]; [by left| |]; [left; by right|by right].
  - apply forall_proper. intros name. split; intros Ha Hin; apply Ha.
    + destruct (decide (name ∈ names rs)) as [|Hni]; [done|]. apply dir_map_lookup in Hni.
      rewrite Hni in Hin. by destruct Hin.
    + destruct (dir_map (live rs) !! name) eqn:Hd; [by eexists|]. by apply dir_map_lookup in Hd.
Qed.

Lemma init_empty_ok : dir_ok init_empty ∅.
Proof.
  pose proof BLOCK_SIZE_Z as HB.
  assert (Hz : length block_zeros = BLOCK_SIZE) by apply length_zeros.
  assert (Hf : (8 + length (u16 (Z.of_nat BLOCK_SIZE)) <= length block_zeros)%nat) by (rewrite Hz; lens).
  assert (Hl : length init_empty = BLOCK_SIZE) 
    by (unfold init_empty, put_fields; cbn [foldl fst snd]; by rewrite length_splice).
  split; [done|]. exists [mkRec 0 BLOCK_SIZE 0 []]. split_and!; [|constructor|done].
  cbn [seg r_len]. split; [|done].
  assert (Hout : forall i, (i < 8 \/ 10 <= i < 12)%nat -> init_empty !! i = Some 0).
  { intros i ?. unfold init_empty, put_fields. cbn [foldl fst snd]. rewrite lookup_splice by done.
    rewrite decide_False by lens. unfold block_zeros, zeros. apply lookup_replicate. split; [done|lia]. }
  split; cbn [r_ino r_len r_ft r_name length]; [| | | |done|lia| |done].
  - unfold rd_u64, slice. rewrite drop_0. replace (take 8 init_empty) with (replicate 8 0); [done|].
    apply list_eq. intros i. destruct (decide (i < 8)%nat).
    + rewrite lookup_take_lt, Hout by lia. by rewrite lookup_replicate_2.
    + rewrite lookup_take_ge by lia. apply lookup_replicate_None. lia.
  - unfold rd_u16, init_empty, put_fields. cbn [foldl fst snd]. change (0 + 8)%nat with (8 + 0)%nat.
    rewrite slice_splice_inside by (try done; lens).
    change (slice 0 2 (u16 (Z.of_nat BLOCK_SIZE))) with (u16 (Z.of_nat BLOCK_SIZE)).
    apply le_field. unfold in_u. lia.
  - unfold rd_u8. cbn [Nat.add]. by rewrite Hout by lia.
  - unfold rd_u8. cbn [Nat.add]. by rewrite Hout by lia.
  - apply Nat2Z.inj. rewrite Nat2Z.inj_mod, HB. done.
Qed.

(** C9. A directory block behaves as a finite map from names to (inode, file
    type): for a block whose record chain partitions it with no name twice,
    [find] looks a name up, [insert] of a new name adds exactly that binding
    or reports that no record has room for it, [remove] deletes exactly that
    binding, [retarget] changes only the inode number of that binding, and
    [only_dots] holds exactly when every name is [.] or [..]; each leaves a
    well formed block and none of them fails on one. *)
Theorem dirent_refines_map block m name ino ft :
  dir_ok block m -> in_u 64 ino -> ino <> 0 -> name_ok name ->
  (exists r, find block name = Ok r /\ (fun t => (t.1.2, t.2)) <$> r = m !! name) /\
  (m !! name = None ->
   match insert block ino ft name with
   | Ok (Some block') => dir_ok block' (<[name := (ino, ft)]> m)
   | Ok None => exists rs, seg block 0 rs BLOCK_SIZE /\ full_for (align4 (12 + length name)) rs
   | Err _ => False
   end) /\
  match remove block name with
  | Ok (Some block') => is_Some (m !! name) /\ dir_ok block' (delete name m)
  | Ok None => m !! name = None
  | Err _ => False
  end /\
  match retarget block name ino with
  | Ok (Some block') => is_Some (m !! name) /\ dir_ok block' (alter (fun e => (ino, e.2)) name m)
  | Ok None => m !! name = None
  | Err _ => False
  end /\
  (exists b, only_dots block = Ok b /\
     (b = true <-> forall n, is_Some (m !! n) -> n = DOT \/ n = DOTDOT)).
Proof.
  intros Hd Hi Hnz Hn. split_and!.
  - by apply find_refines.
  - intros Hnone. by apply insert_refines.
  - by apply remove_refines.
  - by apply retarget_refines.
  - by apply only_dots_refines.
Qed.

Lemma dirent_refines_map_witness :
  match insert init_empty 7 FT_REG [97; 98] with
  | Ok (Some block') => dir_ok block' (<[ [97; 98] := (7, FT_REG) ]> ∅)
  | Ok None => exists rs, seg init_empty 0 rs BLOCK_SIZE /\ full_for (align4 (12 + length [97; 98])) rs
  | Err _ => False
  end.
Proof.
  assert (Hn : name_ok [97; 98]) by (unfold name_ok, NAME_MAX; cbn; lia).
  assert (Hi : in_u 64 7) by (unfold in_u; lia).
  destruct (dirent_refines_map init_empty ∅ [97; 98] 7 FT_REG init_empty_ok Hi ltac:(lia) Hn) as (_ & Hins & _).
  exact (Hins (lookup_empty [97; 98])).
Defined.
