(* ===== verification/Rfs2Space.v ===== *)
(** * RFS V2 devices, superblock slots and free space
    (fs/rfs2/src/device.rs, superblock.rs, space.rs)

    The state monad the file system is written in, the block device it runs
    on, the two superblock slots, and the bitmaps that mount-time marking
    fills.  An out-of-range index of the source is a panic, kept apart from
    its errors. *)

From S2P Require Import Prelude Rfs2Layout.

#[local] Open Scope Z_scope.

(** ** Outcomes *)

(** [Hung] is the outcome of a loop that the source does not bound and that
    used up the rounds it was given. *)
Inductive Fault : Type := Fail (e : RError) | Panicked | Hung.

Definition SM (S A : Type) : Type := S -> result A Fault * S.

#[export] Instance SM_ret {S} : MRet (SM S) := fun _ a s => (Ok a, s).
#[export] Instance SM_bind {S} : MBind (SM S) := fun _ _ k m s =>
  match m s with
  | (Ok a, s') => k a s'
  | (Err e, s') => (Err e, s')
  end.

Definition throw {S A} (f : Fault) : SM S A := fun s => (Err f, s).
Definition fail {S A} (e : RError) : SM S A := throw (Fail e).
Definition get {S} : SM S S := fun s => (Ok s, s).
Definition modify {S} (f : S -> S) : SM S unit := fun s => (Ok tt, f s).
Definition lift {S A} (r : result A RError) : SM S A := fun s =>
  (match r with Ok a => Ok a | Err e => Err (Fail e) end, s).

(** [for x in l] *)
Fixpoint for_each {S X} (l : list X) (body : X -> SM S unit) : SM S unit :=
  match l with
  | [] => mret tt
  | x :: l' => _ ← body x; for_each l' body
  end.

(** An index or unwrap that panics on [None]. *)
Definition unwrap {S A} (o : option A) : SM S A :=
  match o with Some a => mret a | None => throw Panicked end.

(** ** device.rs *)

Class BlockDevice (D : Type) : Type := {
  total_blocks : D -> Z;
  read_block : D -> Z -> result (list Z) RError * D;
  write_block : D -> Z -> list Z -> result unit RError * D;
  flush : D -> result unit RError * D
}.

(** ** space.rs: bitmaps *)

Record Bitmap : Type := mkBitmap { bm_words : list Z; bm_nbits : Z }.

Definition div_ceil (a b : Z) : Z := if a mod b =? 0 then a / b else a / b + 1.

Definition Bitmap_new (nbits : Z) : Bitmap := mkBitmap (replicate (Z.to_nat (div_ceil nbits 64)) 0) nbits.

(** [None] where the index panics. *)
Definition Bitmap_get (bm : Bitmap) (i : Z) : option bool :=
  w ← bm_words bm !! Z.to_nat (i / 64);
  Some (negb (Z.land w (Z.shiftl 1 (i mod 64)) =? 0)).

Definition Bitmap_set (bm : Bitmap) (i : Z) : option (bool * Bitmap) :=
  w ← bm_words bm !! Z.to_nat (i / 64);
  let mask := Z.shiftl 1 (i mod 64) in
  Some (negb (Z.land w mask =? 0),
        mkBitmap (<[Z.to_nat (i / 64) := Z.lor w mask]> (bm_words bm)) (bm_nbits bm)).

Definition Bitmap_clear (bm : Bitmap) (i : Z) : option Bitmap :=
  w ← bm_words bm !! Z.to_nat (i / 64);
  Some (mkBitmap (<[Z.to_nat (i / 64) := Z.land w (not_u 64 (Z.shiftl 1 (i mod 64)))]> (bm_words bm))
                 (bm_nbits bm)).

(** [u64::count_ones] *)
Definition count_ones (w : Z) : Z :=
  Z.of_nat (length (List.filter (fun i => Z.testbit w (Z.of_nat i)) (seq 0 64))).

Definition Bitmap_count (bm : Bitmap) : Z := foldr Z.add 0 (count_ones <$> bm_words bm).

Section space.
Context {D : Type} `{BlockDevice D} {T : Type} `{BlockTransform T}.

Definition read_ptr_dev (xform : T) (ptr : BlockPtr) (dev : D) : result (list Z) RError * D :=
  match read_block dev (p_block ptr) with
  | (Err e, dev') => (Err e, dev')
  | (Ok buf, dev') =>
      (decrypt_block xform (p_block ptr) (p_gen ptr) (dyn_aad (p_block ptr) (p_gen ptr)) (p_tag ptr) buf, dev')
  end.

(** ** space.rs: mark and sweep *)

(** The device, the bitmap and the count that marking updates. *)
Record Marking : Type := mkMarking { mk_dev : D; mk_bm : Bitmap; mk_count : Z }.

Definition mark_read (xform : T) (ptr : BlockPtr) : SM Marking (list Z) := fun s =>
  let '(r, dev) := read_ptr_dev xform ptr (mk_dev s) in
  (match r with Ok b => Ok b | Err e => Err (Fail e) end, mkMarking dev (mk_bm s) (mk_count s)).

(** [bm.set(ptr.block)], and the count of newly marked blocks. *)
Definition mark_block (b : Z) : SM Marking bool := fun s =>
  match Bitmap_set (mk_bm s) b with
  | None => (Err Panicked, s)
  | Some (true, bm) => (Ok true, mkMarking (mk_dev s) bm (mk_count s))
  | Some (false, bm) => (Ok false, mkMarking (mk_dev s) bm (wrap 64 (mk_count s + 1)))
  end.

Definition ptr_at (buf : list Z) (idx : nat) : BlockPtr := ptr_from_bytes (slice (idx * BLOCK_PTR_SIZE) BLOCK_PTR_SIZE buf).

Fixpoint mark_bmap (xform : T) (ptr : BlockPtr) (height : nat) : SM Marking unit :=
  if is_null ptr then mret tt
  else
    seen ← mark_block (p_block ptr);
    if seen : bool then mret tt
    else
      buf ← mark_read xform ptr;
      match height with
      | O => mret tt
      | S h => for_each (seq 0 FANOUT) (fun i => mark_bmap xform (ptr_at buf i) h)
      end.

Definition inode_at (buf : list Z) (slot : nat) : Inode := inode_decode (slice (slot * INODE_SIZE) INODE_SIZE buf).

Fixpoint mark_imap (xform : T) (ptr : BlockPtr) (level : nat) : SM Marking unit :=
  if is_null ptr then mret tt
  else
    seen ← mark_block (p_block ptr);
    if seen : bool then mret tt
    else
      buf ← mark_read xform ptr;
      match level with
      | S l => for_each (seq 0 FANOUT) (fun i => mark_imap xform (ptr_at buf i) l)
      | O =>
          for_each (seq 0 INODES_PER_LEAF) (fun slot =>
            let ino := inode_at buf slot in
            if is_used ino && negb (is_fast_symlink ino)
            then mark_bmap xform (i_bmap_root ino) (Z.to_nat (i_bmap_height ino))
            else mret tt)
      end.

(** The marked count with the device and bitmap afterwards. *)
Definition mark_tree (xform : T) (root : BlockPtr) (height : Z) (dev : D) (bm : Bitmap)
  : result Z Fault * D * Bitmap :=
  let '(r, s) := mark_imap xform root (Z.to_nat height) (mkMarking dev bm 0) in
  (match r with Ok _ => Ok (mk_count s) | Err f => Err f end, mk_dev s, mk_bm s).

(** ** superblock.rs: slots *)

Definition slot_bytes (xform : T) (slot : Z) (sb : Superblock) : list Z :=
  seal_superblock xform slot (sb_gen sb) (sb_uuid sb) (sb_encode_payload sb).

Definition write_slot (xform : T) (slot : Z) (sb : Superblock) (dev : D) : result unit RError * D :=
  write_block dev slot (slot_bytes xform slot sb).

(** The checks [read_slot] makes on the bytes of a slot. *)
Definition parse_slot (xform : T) (slot : Z) (header : StaticHeader) (buf : list Z) : option Superblock :=
  match open_superblock xform slot (h_uuid header) buf with
  | Err _ => None
  | Ok (trailer_gen, pt) =>
      match sb_decode_payload pt with
      | Err _ => None
      | Ok sb =>
          if (sb_gen sb =? 0) || negb (sb_gen sb =? trailer_gen) ||
             negb (sb_total_blocks sb =? h_total_blocks header) ||
             negb (bool_decide (sb_uuid sb = h_uuid header))
          then None
          else Some sb
      end
  end.

Definition read_slot (xform : T) (slot : Z) (header : StaticHeader) (dev : D) : option Superblock * D :=
  match read_block dev slot with
  | (Err _, dev') => (None, dev')
  | (Ok buf, dev') => (parse_slot xform slot header buf, dev')
  end.

End space.

Arguments Marking : clear implicits.
Arguments mkMarking {D}.
Arguments mk_dev {D}.
Arguments mk_bm {D}.
Arguments mk_count {D}.

(** ** Running a sequence *)

Lemma bind_ok {S A B} (m : SM S A) (k : A -> SM S B) s a s' : m s = (Ok a, s') -> (m ≫= k) s = k a s'.
Proof. intros E. unfold mbind, SM_bind. by rewrite E. Qed.

Lemma bind_err {S A B} (m : SM S A) (k : A -> SM S B) s f s' : m s = (Err f, s') -> (m ≫= k) s = (Err f, s').
Proof. intros E. unfold mbind, SM_bind. by rewrite E. Qed.

(** ** Frames: what a computation may do to the state *)

Definition steps {S A} (R : S -> S -> Prop) (m : SM S A) : Prop := forall s, R s (m s).2.

Create HintDb sm.
#[export] Hint Constants Opaque : sm.

Section frame_rules.
Context {S : Type} (R : S -> S -> Prop) `{!PreOrder R}.

Lemma sm_ret {A} (a : A) : steps R (mret a).
Proof. intros s. reflexivity. Qed.

Lemma sm_throw {A} f : steps R (throw (A := A) f).
Proof. intros s. reflexivity. Qed.

Lemma steps_fail {A} e : steps R (fail (A := A) e).
Proof. intros s. reflexivity. Qed.

Lemma sm_lift {A} (r : result A RError) : steps R (lift r).
Proof. intros s. reflexivity. Qed.

Lemma sm_get : steps R get.
Proof. intros s. reflexivity. Qed.

Lemma steps_unwrap {A} (o : option A) : steps R (unwrap o).
Proof. destruct o; intros s; reflexivity. Qed.

Lemma sm_bind {A B} (m : SM S A) (k : A -> SM S B) :
  steps R m -> (forall a, steps R (k a)) -> steps R (m ≫= k).
Proof.
  intros Hm Hk s. specialize (Hm s). unfold mbind, SM_bind. destruct (m s) as [[a|e] s']; [|done].
  etransitivity; [exact Hm|]. apply Hk.
Qed.

Lemma steps_for_each {X} (l : list X) (body : X -> SM S unit) :
  (forall x, steps R (body x)) -> steps R (for_each l body).
Proof.
  intros Hb. induction l as [|x l IH]; [apply sm_ret|]. cbn. by apply sm_bind.
Qed.

End frame_rules.

#[export] Hint Resolve sm_ret sm_throw steps_fail sm_lift sm_get steps_unwrap : sm.

(** One step of a proof that a computation stays within a frame. *)
Ltac sm_step :=
  match goal with
  | |- steps _ (mbind _ _) => apply sm_bind; [| |intros ?]
  | |- steps _ (for_each _ _) => apply steps_for_each; [|intros ?]
  | |- steps _ (let '(_, _) := ?x in _) => destruct x
  | |- steps _ (if ?b then _ else _) => destruct b
  | |- steps _ (match ?x with _ => _ end) => destruct x
  | |- PreOrder _ => apply _
  | |- _ => solve [eauto with sm typeclass_instances]
  end.
