(* ===== verification/Rfs2Bitmap.v ===== *)
(** * Bitmaps

    [Bitmap_set] and [Bitmap_clear] change exactly one bit; a fresh bitmap is
    empty; the count of a bitmap is the number of its set bits. *)

From S2P Require Import Prelude Rfs2Layout Rfs2Space.

#[local] Open Scope Z_scope.

(** Bit [i] is set. *)
Definition bit (bm : Bitmap) (i : Z) : bool := default false (Bitmap_get bm i).

(** Every word is a [u64]. *)
Definition words_ok (bm : Bitmap) : Prop := Forall (in_u 64) (bm_words bm).

Lemma test_mask w k : 0 <= k -> negb (Z.land w (Z.shiftl 1 k) =? 0) = Z.testbit w k.
Proof.
  intros Hk. rewrite Z.shiftl_1_l. destruct (Z.testbit w k) eqn:Ht.
  - apply negb_true_iff, Z.eqb_neq. intros E.
    assert (Z.testbit (Z.land w (2 ^ k)) k = true) as Hc; [|by rewrite E, Z.bits_0 in Hc].
    rewrite Z.land_spec, Ht, Z.pow2_bits_true by done. done.
  - apply negb_false_iff, Z.eqb_eq. apply Z.bits_inj'. intros n Hn. rewrite Z.land_spec, Z.bits_0.
    destruct (decide (n = k)) as [-> |Hne]; [by rewrite Ht|]. rewrite Z.pow2_bits_false by done. apply andb_false_r.
Qed.

Lemma Bitmap_get_spec bm i :
  Bitmap_get bm i = (fun w => Z.testbit w (i mod 64)) <$> bm_words bm !! Z.to_nat (i / 64).
Proof.
  unfold Bitmap_get. destruct (bm_words bm !! _); [|done]. cbn. f_equal. apply test_mask.
  apply Z.mod_pos_bound. lia.
Qed.

Lemma word_index i j : 0 <= i -> 0 <= j -> i <> j ->
  Z.to_nat (i / 64) <> Z.to_nat (j / 64) \/ i mod 64 <> j mod 64.
Proof.
  intros Hi Hj Hne. destruct (decide (i / 64 = j / 64)) as [E|E]; [right|left].
  - intros Em. apply Hne. rewrite (Z.div_mod i 64), (Z.div_mod j 64) by lia. lia.
  - intros E'. apply E. apply Z2Nat.inj; [apply Z.div_pos; lia..|done].
Qed.

Lemma not_u_bits w x k : in_u w x -> 0 <= k < w -> Z.testbit (not_u w x) k = negb (Z.testbit x k).
Proof.
  intros Hx Hk. unfold not_u, in_u in *.
  replace (2 ^ w - 1 - x) with (Z.lnot x mod 2 ^ w).
  - rewrite Z.mod_pow2_bits_low, Z.lnot_spec by lia. done.
  - symmetry. apply (Z.mod_unique_pos _ _ (-1)); [lia|]. unfold Z.lnot. lia.
Qed.

(** The word under index [i] replaced by one that differs in bit [i] only. *)
Lemma get_update bm i j w w' v :
  0 <= i -> 0 <= j -> bm_words bm !! Z.to_nat (i / 64) = Some w ->
  (forall k, 0 <= k < 64 -> Z.testbit w' k = if k =? i mod 64 then v else Z.testbit w k) ->
  Bitmap_get (mkBitmap (<[Z.to_nat (i / 64) := w']> (bm_words bm)) (bm_nbits bm)) j =
    if j =? i then Some v else Bitmap_get bm j.
Proof.
  intros Hi Hj Hw Hb. rewrite !Bitmap_get_spec. cbn [bm_words].
  assert (Hlen : (Z.to_nat (i / 64) < length (bm_words bm))%nat) by (by apply lookup_lt_is_Some; eexists).
  pose proof (Z.mod_pos_bound j 64 ltac:(lia)) as Hm.
  destruct (Z.eqb_spec j i) as [-> |Hne].
  - rewrite list_lookup_insert_eq by done. cbn. by rewrite Hb, Z.eqb_refl.
  - destruct (decide (Z.to_nat (i / 64) = Z.to_nat (j / 64))) as [E|E].
    + rewrite <- E, list_lookup_insert_eq, Hw by done. cbn. rewrite Hb by done.
      destruct (word_index j i Hj Hi Hne) as [?|Hmod]; [congruence|].
      by rewrite (proj2 (Z.eqb_neq _ _) Hmod).
    + by rewrite list_lookup_insert_ne.
Qed.

Lemma Bitmap_set_get bm i j old bm' :
  0 <= i -> 0 <= j -> Bitmap_set bm i = Some (old, bm') ->
  Bitmap_get bm i = Some old /\ Bitmap_get bm' j = if j =? i then Some true else Bitmap_get bm j.
Proof.
  intros Hi Hj. unfold Bitmap_set. destruct (bm_words bm !! _) as [w|] eqn:Hw; [|done]. cbn [mbind option_bind].
  intros [= <- <-]. pose proof (Z.mod_pos_bound i 64 ltac:(lia)) as Hm. split.
  - rewrite Bitmap_get_spec, Hw. cbn [fmap option_fmap option_map]. by rewrite test_mask by lia.
  - apply (get_update bm i j w); [done..|]. intros k Hk. rewrite Z.lor_spec, Z.shiftl_1_l.
    destruct (Z.eqb_spec k (i mod 64)) as [-> |Hne].
    + rewrite Z.pow2_bits_true by lia. apply orb_true_r.
    + rewrite Z.pow2_bits_false by lia. apply orb_false_r.
Qed.

Lemma Bitmap_clear_get bm i j bm' :
  0 <= i -> 0 <= j -> words_ok bm -> Bitmap_clear bm i = Some bm' ->
  Bitmap_get bm' j = if j =? i then Some false else Bitmap_get bm j.
Proof.
  intros Hi Hj Hok. unfold Bitmap_clear. destruct (bm_words bm !! _) as [w|] eqn:Hw; [|done]. cbn [mbind option_bind].
  intros [= <-]. pose proof (Z.mod_pos_bound i 64 ltac:(lia)) as Hm.
  apply (get_update bm i j w); [done..|]. intros k Hk. rewrite Z.land_spec.
  assert (Hmask : in_u 64 (Z.shiftl 1 (i mod 64))).
  { unfold in_u. rewrite Z.shiftl_1_l. split; [apply Z.pow_nonneg; lia|apply Z.pow_lt_mono_r; lia]. }
  rewrite not_u_bits by done. rewrite Z.shiftl_1_l.
  destruct (Z.eqb_spec k (i mod 64)) as [-> |Hne].
  - rewrite Z.pow2_bits_true by lia. apply andb_false_r.
  - rewrite Z.pow2_bits_false by lia. apply andb_true_r.
Qed.

Lemma Bitmap_new_get n i : 0 <= i < n -> Bitmap_get (Bitmap_new n) i = Some false.
Proof.
  intros Hi. rewrite Bitmap_get_spec. unfold Bitmap_new. cbn [bm_words].
  rewrite lookup_replicate_2; [cbn; by rewrite Z.bits_0|].
  apply Z2Nat.inj_lt; [apply Z.div_pos; lia| |].
  - unfold div_ceil. case_match; apply Z.div_pos || (pose proof (Z.div_pos n 64)); lia.
  - unfold div_ceil. pose proof (Z.div_mod n 64). pose proof (Z.mod_pos_bound n 64).
    pose proof (Z.div_le_mono i n 64). destruct (Z.eqb_spec (n mod 64) 0) as [E|E]; [|lia].
    apply Z.div_lt_upper_bound; lia.
Qed.

Lemma Bitmap_set_in_range bm i b : Bitmap_get bm i = Some b -> exists bm', Bitmap_set bm i = Some (b, bm').
Proof.
  unfold Bitmap_get, Bitmap_set. destruct (bm_words bm !! _) as [w|]; [|done]. cbn [mbind option_bind].
  intros [= <-]. eauto.
Qed.
