(* ===== verification/Rfs2Fs.v ===== *)
(** * The RFS V2 file system (fs/rfs2/src/fs.rs)

    Operations in the state monad of [Rfs2Space] over the mounted volume: the
    allocator, the copy-on-write radix trees of the inode map and the block
    maps, file data, directories, commit with per-operation rollback, mount
    and mkfs.  The fields of the Rust struct are grouped by what its comments
    call committed and staged state.  A call of the clock reads the next value
    of a stream.  The loops that grow a tree and that follow parent links take
    a bound; running out of it is the outcome [Hung]. *)

From S2P Require Import Prelude Paths Rfs2Layout Rfs2Dirent Rfs2Space.

#[local] Open Scope Z_scope.

(** ** Radix geometry *)

Definition checked_pow128 (e : Z) : option Z :=
  let p := 128 ^ wrap 32 e in if p <=? U64_MAX then Some p else None.

Definition imap_capacity (height : Z) : Z :=
  match checked_pow128 height with
  | Some v => let c := v * Z.of_nat INODES_PER_LEAF in if c <=? U64_MAX then c else U64_MAX
  | None => U64_MAX
  end.

Definition bmap_capacity (height : Z) : Z :=
  if height =? 0 then 1 else default U64_MAX (checked_pow128 height).

(** Shift amounts are taken modulo the width. *)
Definition imap_index (ino level : Z) : nat :=
  Z.to_nat (Z.land (Z.shiftr ino ((5 + 7 * (level - 1)) mod 64)) 127).

Definition bmap_index (l level : Z) : nat :=
  Z.to_nat (Z.land (Z.shiftr l ((7 * (level - 1)) mod 64)) 127).

Definition set_ptr_at (buf : list Z) (idx : nat) (ptr : BlockPtr) : list Z :=
  splice (idx * BLOCK_PTR_SIZE) (ptr_to_bytes ptr) buf.

(** ** The mounted volume *)

Record Vol (T : Type) : Type := mkVol {
  vol_xform : T; vol_header : StaticHeader; vol_read_only : bool; vol_clock : nat -> Z
}.
Arguments mkVol {T}.
Arguments vol_xform {T}.
Arguments vol_header {T}.
Arguments vol_read_only {T}.
Arguments vol_clock {T}.

Record Committed : Type := mkCom {
  c_sb : Superblock; c_cur_slot : Z; c_live_cur : Bitmap; c_live_prev : Bitmap;
  c_block_count_mismatch : bool
}.

Record Staged : Type := mkSt {
  s_root : BlockPtr; s_height : Z; s_next_inode : Z; s_inode_count : Z; s_dirty : bool;
  s_fresh : gset Z; s_dropped : gset Z; s_retired : gset Z; s_op_fresh : list Z; s_cursor : Z
}.

Record OpSnapshot : Type := mkSnap {
  sn_root : BlockPtr; sn_height : Z; sn_next_inode : Z; sn_inode_count : Z; sn_dirty : bool;
  sn_retired : gset Z
}.

Record DirEntryOut : Type := mkOut { o_ino : Z; o_file_type : Z; o_name : str }.

Record Rfs2 (D T : Type) : Type := mkFs {
  fs_dev : D; fs_vol : Vol T; fs_com : Committed; fs_st : Staged; fs_pins : gmap Z Z; fs_ticks : nat
}.
Arguments mkFs {D T}.
Arguments fs_dev {D T}.
Arguments fs_vol {D T}.
Arguments fs_com {D T}.
Arguments fs_st {D T}.
Arguments fs_pins {D T}.
Arguments fs_ticks {D T}.

(** Single-field updates. *)

Definition st_root (p : BlockPtr) (s : Staged) : Staged :=
  mkSt p (s_height s) (s_next_inode s) (s_inode_count s) (s_dirty s) (s_fresh s) (s_dropped s) (s_retired s)
       (s_op_fresh s) (s_cursor s).
Definition st_height (h : Z) (s : Staged) : Staged :=
  mkSt (s_root s) h (s_next_inode s) (s_inode_count s) (s_dirty s) (s_fresh s) (s_dropped s) (s_retired s)
       (s_op_fresh s) (s_cursor s).
Definition st_next_inode (n : Z) (s : Staged) : Staged :=
  mkSt (s_root s) (s_height s) n (s_inode_count s) (s_dirty s) (s_fresh s) (s_dropped s) (s_retired s)
       (s_op_fresh s) (s_cursor s).
Definition st_inode_count (n : Z) (s : Staged) : Staged :=
  mkSt (s_root s) (s_height s) (s_next_inode s) n (s_dirty s) (s_fresh s) (s_dropped s) (s_retired s)
       (s_op_fresh s) (s_cursor s).
Definition st_dirty (d : bool) (s : Staged) : Staged :=
  mkSt (s_root s) (s_height s) (s_next_inode s) (s_inode_count s) d (s_fresh s) (s_dropped s) (s_retired s)
       (s_op_fresh s) (s_cursor s).
Definition st_dropped (d : gset Z) (s : Staged) : Staged :=
  mkSt (s_root s) (s_height s) (s_next_inode s) (s_inode_count s) (s_dirty s) (s_fresh s) d (s_retired s)
       (s_op_fresh s) (s_cursor s).
Definition st_retired (r : gset Z) (s : Staged) : Staged :=
  mkSt (s_root s) (s_height s) (s_next_inode s) (s_inode_count s) (s_dirty s) (s_fresh s) (s_dropped s) r
       (s_op_fresh s) (s_cursor s).
Definition st_op_fresh (l : list Z) (s : Staged) : Staged :=
  mkSt (s_root s) (s_height s) (s_next_inode s) (s_inode_count s) (s_dirty s) (s_fresh s) (s_dropped s)
       (s_retired s) l (s_cursor s).
(** The bookkeeping of an allocation. *)
Definition st_take (b cursor : Z) (s : Staged) : Staged :=
  mkSt (s_root s) (s_height s) (s_next_inode s) (s_inode_count s) (s_dirty s) ({[b]} ∪ s_fresh s) (s_dropped s)
       (s_retired s) (s_op_fresh s ++ [b]) cursor.

Definition i_set_nlink (n : Z) (i : Inode) : Inode :=
  mkInode (i_mode i) (i_flags i) (i_uid i) (i_gid i) n (i_size i) (i_blocks i) (i_mtime i) (i_ctime i)
    (i_atime i) (i_btime i) (i_gen i) (i_bmap_height i) (i_rdev i) (i_bmap_root i) (i_inline i).
Definition i_set_size (n : Z) (i : Inode) : Inode :=
  mkInode (i_mode i) (i_flags i) (i_uid i) (i_gid i) (i_nlink i) n (i_blocks i) (i_mtime i) (i_ctime i)
    (i_atime i) (i_btime i) (i_gen i) (i_bmap_height i) (i_rdev i) (i_bmap_root i) (i_inline i).
Definition i_set_blocks (n : Z) (i : Inode) : Inode :=
  mkInode (i_mode i) (i_flags i) (i_uid i) (i_gid i) (i_nlink i) (i_size i) n (i_mtime i) (i_ctime i)
    (i_atime i) (i_btime i) (i_gen i) (i_bmap_height i) (i_rdev i) (i_bmap_root i) (i_inline i).
Definition i_set_mtime (n : Z) (i : Inode) : Inode :=
  mkInode (i_mode i) (i_flags i) (i_uid i) (i_gid i) (i_nlink i) (i_size i) (i_blocks i) n (i_ctime i)
    (i_atime i) (i_btime i) (i_gen i) (i_bmap_height i) (i_rdev i) (i_bmap_root i) (i_inline i).
Definition i_set_ctime (n : Z) (i : Inode) : Inode :=
  mkInode (i_mode i) (i_flags i) (i_uid i) (i_gid i) (i_nlink i) (i_size i) (i_blocks i) (i_mtime i) n
    (i_atime i) (i_btime i) (i_gen i) (i_bmap_height i) (i_rdev i) (i_bmap_root i) (i_inline i).
Definition i_set_gen (n : Z) (i : Inode) : Inode :=
  mkInode (i_mode i) (i_flags i) (i_uid i) (i_gid i) (i_nlink i) (i_size i) (i_blocks i) (i_mtime i) (i_ctime i)
    (i_atime i) (i_btime i) n (i_bmap_height i) (i_rdev i) (i_bmap_root i) (i_inline i).
Definition i_set_bmap (h : Z) (root : BlockPtr) (i : Inode) : Inode :=
  mkInode (i_mode i) (i_flags i) (i_uid i) (i_gid i) (i_nlink i) (i_size i) (i_blocks i) (i_mtime i) (i_ctime i)
    (i_atime i) (i_btime i) (i_gen i) h (i_rdev i) root (i_inline i).
(** [mtime] and [ctime] together. *)
Definition i_touch (now : Z) (i : Inode) : Inode := i_set_ctime now (i_set_mtime now i).

Section fs.
Context {D : Type} `{BlockDevice D} {T : Type} `{BlockTransform T}.

Abbreviation FM := (SM (Rfs2 D T)).

Definition with_st (f : Staged -> Staged) : FM unit :=
  modify (fun s => mkFs (fs_dev s) (fs_vol s) (fs_com s) (f (fs_st s)) (fs_pins s) (fs_ticks s)).

Definition with_pins (f : gmap Z Z -> gmap Z Z) : FM unit :=
  modify (fun s => mkFs (fs_dev s) (fs_vol s) (fs_com s) (fs_st s) (f (fs_pins s)) (fs_ticks s)).

(** A call of the device. *)
Definition on_dev {A} (call : D -> result A RError * D) : FM A := fun s =>
  let '(r, dev) := call (fs_dev s) in
  (match r with Ok a => Ok a | Err e => Err (Fail e) end,
   mkFs dev (fs_vol s) (fs_com s) (fs_st s) (fs_pins s) (fs_ticks s)).

(** [(self.clock)()] *)
Definition now : FM Z := fun s =>
  (Ok (vol_clock (fs_vol s) (fs_ticks s)),
   mkFs (fs_dev s) (fs_vol s) (fs_com s) (fs_st s) (fs_pins s) (S (fs_ticks s))).

Definition txn_gen : FM Z := s ← get; mret (wrap 64 (sb_gen (c_sb (fs_com s)) + 1)).

(** ** Allocation *)

(** Rounds [i], [i + 1], ... of the search; [n] are left. *)
Fixpoint alloc_scan (com : Committed) (fresh : gset Z) (cursor span : Z) (n : nat) (i : Z)
  : result (Z * Z) Fault :=
  match n with
  | O => Err (Fail RNoSpace)
  | S n' =>
      let b := FIRST_DATA_BLOCK + (cursor + i) mod span in
      match Bitmap_get (c_live_cur com) b with
      | None => Err Panicked
      | Some true => alloc_scan com fresh cursor span n' (i + 1)
      | Some false =>
          match Bitmap_get (c_live_prev com) b with
          | None => Err Panicked
          | Some true => alloc_scan com fresh cursor span n' (i + 1)
          | Some false =>
              if bool_decide (b ∈ fresh) then alloc_scan com fresh cursor span n' (i + 1)
              else Ok (b, (cursor + i + 1) mod span)
          end
      end
  end.

Definition alloc_block : FM Z :=
  s ← get;
  let span := wrap 64 (h_total_blocks (vol_header (fs_vol s)) - FIRST_DATA_BLOCK) in
  match alloc_scan (fs_com s) (s_fresh (fs_st s)) (s_cursor (fs_st s)) span (Z.to_nat span) 0 with
  | Err f => throw f
  | Ok (b, cursor) => _ ← with_st (st_take b cursor); mret b
  end.

Definition write_fresh (buf : list Z) : FM BlockPtr :=
  b ← alloc_block;
  g ← txn_gen;
  s ← get;
  let '(tag, ct) := encrypt_block (vol_xform (fs_vol s)) b g (dyn_aad b g) buf in
  _ ← on_dev (fun dev => write_block dev b ct);
  _ ← with_st (st_dirty true);
  mret (mkPtr b g tag).

Definition retire (ptr : BlockPtr) : FM unit :=
  if is_null ptr then mret tt
  else with_st (fun st =>
    if bool_decide (p_block ptr ∈ s_fresh st) then st_dropped ({[p_block ptr]} ∪ s_dropped st) st
    else st_retired ({[p_block ptr]} ∪ s_retired st) st).

Definition read_ptr (ptr : BlockPtr) : FM (list Z) :=
  s ← get;
  on_dev (read_ptr_dev (vol_xform (fs_vol s)) ptr).

(** ** Commit *)

Definition Bitmap_clear_all (bs : list Z) (bm : Bitmap) : option Bitmap :=
  foldl (fun acc b => bm ← acc; Bitmap_clear bm b) (Some bm) bs.

Definition Bitmap_set_all (bs : list Z) (bm : Bitmap) : option Bitmap :=
  foldl (fun acc b => bm ← acc; snd <$> Bitmap_set bm b) (Some bm) bs.

(** The live set of the pending generation. *)
Definition live_new (com : Committed) (st : Staged) : option Bitmap :=
  bm ← Bitmap_clear_all (elements (s_retired st)) (c_live_cur com);
  Bitmap_set_all (elements (s_fresh st ∖ s_dropped st)) bm.

Definition other_slot (slot : Z) : Z := if slot =? SB_SLOT_A then SB_SLOT_B else SB_SLOT_A.

Definition commit : FM unit :=
  s ← get;
  if negb (s_dirty (fs_st s)) then mret tt
  else if GEN_LIMIT <=? sb_gen (c_sb (fs_com s)) then fail RGenExhausted
  else
    _ ← on_dev flush;
    g ← txn_gen;
    let target := other_slot (c_cur_slot (fs_com s)) in
    live ← unwrap (live_new (fs_com s) (fs_st s));
    t ← now;
    let header := vol_header (fs_vol s) in
    let st := fs_st s in
    let sb := mkSb g (h_total_blocks header) (s_root st) (s_height st) (s_next_inode st) (s_inode_count st)
                (Bitmap_count live) t (h_uuid header) in
    _ ← on_dev (write_slot (vol_xform (fs_vol s)) target sb);
    _ ← on_dev flush;
    modify (fun s => mkFs (fs_dev s) (fs_vol s)
      (mkCom sb target live (c_live_cur (fs_com s)) (c_block_count_mismatch (fs_com s)))
      (mkSt (s_root st) (s_height st) (s_next_inode st) (s_inode_count st) false ∅ ∅ ∅ [] (s_cursor st))
      (fs_pins s) (fs_ticks s)).

(** ** Per-operation rollback *)

Definition begin_op : FM OpSnapshot :=
  _ ← with_st (st_op_fresh []);
  s ← get;
  let st := fs_st s in
  mret (mkSnap (s_root st) (s_height st) (s_next_inode st) (s_inode_count st) (s_dirty st) (s_retired st)).

Definition fail_op (snap : OpSnapshot) : FM unit :=
  with_st (fun st => mkSt (sn_root snap) (sn_height snap) (sn_next_inode snap) (sn_inode_count snap)
    (sn_dirty snap) (s_fresh st) (list_to_set (s_op_fresh st) ∪ s_dropped st) (sn_retired snap) [] (s_cursor st)).

Definition check_rw : FM unit :=
  s ← get;
  if vol_read_only (fs_vol s) then fail RReadOnly
  else if GEN_LIMIT <=? sb_gen (c_sb (fs_com s)) then fail RGenExhausted
  else mret tt.

(** [match inner { Ok(v) => .., Err(e) => .. }]; a panic does not return. *)
Definition on_result {A} (inner : FM A) (ok : A -> FM A) (err : RError -> FM A) : FM A := fun s =>
  match inner s with
  | (Ok a, s') => ok a s'
  | (Err (Fail e), s') => err e s'
  | other => other
  end.

(** [inner] between a snapshot and, if it fails, the rollback. *)
Definition with_rollback {A} (inner : FM A) : FM A :=
  snap ← begin_op;
  on_result inner (fun a => _ ← with_st (st_op_fresh []); mret a) (fun e => _ ← fail_op snap; fail e).

(** The frame of every mutating operation. *)
Definition operation {A} (inner : FM A) : FM A :=
  _ ← check_rw;
  with_rollback inner.

(** ** Inode map *)

Fixpoint imap_walk (level : nat) (ptr : BlockPtr) (ino : Z) : FM (option BlockPtr) :=
  if is_null ptr then mret None
  else
    match level with
    | O => mret (Some ptr)
    | S l => buf ← read_ptr ptr; imap_walk l (ptr_at buf (imap_index ino (Z.of_nat level))) ino
    end.

Definition leaf_slot (ino : Z) : nat := Z.to_nat (Z.land ino (Z.of_nat INODES_PER_LEAF - 1)).

Definition imap_get (ino : Z) : FM (option Inode) :=
  s ← get;
  if imap_capacity (s_height (fs_st s)) <=? ino then mret None
  else
    leaf ← imap_walk (Z.to_nat (s_height (fs_st s))) (s_root (fs_st s)) ino;
    match leaf with
    | None => mret None
    | Some ptr =>
        buf ← read_ptr ptr;
        let inode := inode_at buf (leaf_slot ino) in
        mret (if is_used inode then Some inode else None)
    end.

Definition get_inode_req (ino : Z) : FM Inode :=
  i ← imap_get ino;
  match i with Some inode => mret inode | None => fail RNotFound end.

(** A tree of height 10 reaches every index below 2^64 - 1. *)
Definition GROW_FUEL : nat := 11.

Fixpoint grow_imap_loop (fuel : nat) (ino : Z) : FM unit :=
  s ← get;
  if imap_capacity (s_height (fs_st s)) <=? ino then
    match fuel with
    | O => throw Hung
    | S fuel' =>
        p ← write_fresh (set_ptr_at block_zeros 0 (s_root (fs_st s)));
        _ ← with_st (fun st => st_height (wrap 64 (s_height st + 1)) (st_root p st));
        grow_imap_loop fuel' ino
    end
  else mret tt.

Definition grow_imap (ino : Z) : FM unit := grow_imap_loop GROW_FUEL ino.

(** The block under [ptr], or an empty one. *)
Definition read_or_zeros (ptr : BlockPtr) : FM (list Z) :=
  if is_null ptr then mret block_zeros else read_ptr ptr.

Fixpoint imap_set_rec (level : nat) (ptr : BlockPtr) (ino : Z) (bytes : list Z) : FM BlockPtr :=
  buf ← read_or_zeros ptr;
  _ ← retire ptr;
  match level with
  | O => write_fresh (splice (leaf_slot ino * INODE_SIZE) bytes buf)
  | S l =>
      let idx := imap_index ino (Z.of_nat level) in
      new_child ← imap_set_rec l (ptr_at buf idx) ino bytes;
      write_fresh (set_ptr_at buf idx new_child)
  end.

Definition imap_set (ino : Z) (inode : Inode) : FM unit :=
  _ ← grow_imap ino;
  s ← get;
  root ← imap_set_rec (Z.to_nat (s_height (fs_st s))) (s_root (fs_st s)) ino (inode_encode inode);
  with_st (st_root root).

Definition alloc_ino : FM Z :=
  s ← get;
  let ino := Z.max (s_next_inode (fs_st s)) FIRST_GENERAL_INO in
  _ ← with_st (st_next_inode (wrap 64 (ino + 1)));
  mret ino.

Definition add_inode_count (n : Z) : FM unit :=
  with_st (fun st => st_inode_count (wrap 64 (s_inode_count st + n)) st).

(** ** Block maps *)

Fixpoint bmap_walk (level : nat) (ptr : BlockPtr) (l : Z) : FM BlockPtr :=
  match level with
  | O => mret ptr
  | S lv =>
      if is_null ptr then mret PTR_NULL
      else buf ← read_ptr ptr; bmap_walk lv (ptr_at buf (bmap_index l (Z.of_nat level))) l
  end.

Definition bmap_get (inode : Inode) (l : Z) : FM BlockPtr :=
  let h := i_bmap_height inode in
  if is_null (i_bmap_root inode) || (bmap_capacity h <=? l) then mret PTR_NULL
  else if h =? 0 then mret (i_bmap_root inode)
  else bmap_walk (Z.to_nat h) (i_bmap_root inode) l.

Fixpoint grow_bmap (fuel : nat) (inode : Inode) (l : Z) : FM Inode :=
  if bmap_capacity (i_bmap_height inode) <=? l then
    match fuel with
    | O => throw Hung
    | S fuel' =>
        p ← write_fresh (set_ptr_at block_zeros 0 (i_bmap_root inode));
        grow_bmap fuel' (i_set_bmap (wrap 8 (i_bmap_height inode + 1)) p inode) l
    end
  else mret inode.

(** [level] counts down to 1; a spine node of level 1 holds the data pointers. *)
Fixpoint bmap_set_rec (level : nat) (ptr : BlockPtr) (l : Z) (new : BlockPtr) : FM BlockPtr :=
  match level with
  | O => mret new
  | S lv =>
      buf ← read_or_zeros ptr;
      _ ← retire ptr;
      let idx := bmap_index l (Z.of_nat level) in
      match lv with
      | O =>
          _ ← retire (ptr_at buf idx);
          write_fresh (set_ptr_at buf idx new)
      | S _ =>
          new_child ← bmap_set_rec lv (ptr_at buf idx) l new;
          write_fresh (set_ptr_at buf idx new_child)
      end
  end.

Definition bmap_set (inode : Inode) (l : Z) (new : BlockPtr) : FM Inode :=
  inode ← grow_bmap GROW_FUEL inode l;
  let h := i_bmap_height inode in
  if h =? 0 then
    _ ← retire (i_bmap_root inode);
    mret (i_set_bmap h new inode)
  else
    root ← bmap_set_rec (Z.to_nat h) (i_bmap_root inode) l new;
    mret (i_set_bmap h root inode).

Fixpoint retire_bmap (height : nat) (ptr : BlockPtr) : FM unit :=
  if is_null ptr then mret tt
  else
    _ ← match height with
        | O => mret tt
        | S h =>
            buf ← read_ptr ptr;
            for_each (seq 0 FANOUT) (fun i =>
              let child := ptr_at buf i in
              if is_null child then mret tt else retire_bmap h child)
        end;
    retire ptr.

Definition free_inode (ino : Z) (inode : Inode) : FM unit :=
  _ ← (if is_fast_symlink inode then mret tt
       else retire_bmap (Z.to_nat (i_bmap_height inode)) (i_bmap_root inode));
  _ ← imap_set ino INODE_FREE;
  add_inode_count (-1).

Definition drop_link (ino : Z) (inode : Inode) (t : Z) : FM unit :=
  let inode := i_set_nlink (wrap 32 (i_nlink inode - 1)) inode in
  s ← get;
  if (i_nlink inode =? 0) && bool_decide (fs_pins s !! ino = None) then free_inode ino inode
  else
    g ← txn_gen;
    imap_set ino (i_set_gen g (i_set_ctime t inode)).

End fs.
