(* ===== verification/Rfs2Ops.v ===== *)
(** * RFS V2 operations (fs/rfs2/src/fs.rs)

    Reading, writing and truncating files, directories and path lookup, the
    operations on names, open-handle pins, and mount and mkfs, over the trees
    of [Rfs2Fs]. *)

From S2P Require Import Prelude Paths Rfs2Layout Rfs2Dirent Rfs2Space Rfs2Fs.

#[local] Open Scope Z_scope.

Section ops.
Context {D : Type} `{BlockDevice D} {T : Type} `{BlockTransform T}.

Abbreviation FM := (SM (Rfs2 D T)).

(** [BLOCK_SIZE as u64] *)
Definition BS : Z := Z.of_nat BLOCK_SIZE.

(** ** File data *)

(** From position [pos] to [end_]; every round moves at least one byte. *)
Fixpoint read_loop (fuel : nat) (inode : Inode) (pos end_ : Z) : FM (list Z) :=
  if pos <? end_ then
    match fuel with
    | O => throw Hung
    | S fuel' =>
        let l := pos / BS in
        let boff := pos mod BS in
        let n := Z.min (BS - boff) (end_ - pos) in
        ptr ← bmap_get inode l;
        chunk ← (if is_null ptr then mret (zeros (Z.to_nat n))
                 else buf ← read_ptr ptr; mret (slice (Z.to_nat boff) (Z.to_nat n) buf));
        rest ← read_loop fuel' inode (pos + n) end_;
        mret (chunk ++ rest)
    end
  else mret [].

(** The bytes put at the front of the buffer, and the count returned. *)
Definition read_blocks (inode : Inode) (off len : Z) : FM (list Z * Z) :=
  if i_size inode <=? off then mret ([], 0)
  else
    let end_ := Z.min (i_size inode) (wrap 64 (off + len)) in
    bytes ← read_loop (Z.to_nat len) inode off end_;
    mret (bytes, wrap 64 (end_ - off)).

Definition read_at (ino off len : Z) : FM (list Z * Z) :=
  inode ← get_inode_req ino;
  if is_dir inode then fail RIsDir
  else if negb (is_reg inode) then fail RInvalid
  else read_blocks inode off len.

(** [cur] is [off + pos], [data] what is left to write. *)
Fixpoint write_loop (fuel : nat) (inode : Inode) (cur : Z) (data : list Z) : FM Inode :=
  match data with
  | [] => mret inode
  | _ =>
      match fuel with
      | O => throw Hung
      | S fuel' =>
          let l := cur / BS in
          let boff := Z.to_nat (cur mod BS) in
          let n := Nat.min (BLOCK_SIZE - boff) (length data) in
          old ← bmap_get inode l;
          buf ← (if (n <? BLOCK_SIZE)%nat && negb (is_null old) then read_ptr old else mret block_zeros);
          ptr ← write_fresh (splice boff (take n data) buf);
          let inode := if is_null old then i_set_blocks (wrap 64 (i_blocks inode + 1)) inode else inode in
          inode ← bmap_set inode l ptr;
          write_loop fuel' inode (wrap 64 (cur + Z.of_nat n)) (drop n data)
      end
  end.

Definition write_blocks (inode : Inode) (off : Z) (data : list Z) : FM Inode :=
  write_loop (length data) inode off data.

Definition write_at_inner (ino off : Z) (data : list Z) : FM unit :=
  inode ← get_inode_req ino;
  if is_dir inode then fail RIsDir
  else if negb (is_reg inode) then fail RInvalid
  else
    inode ← write_blocks inode off data;
    t ← now;
    g ← txn_gen;
    let size := Z.max (i_size inode) (wrap 64 (off + Z.of_nat (length data))) in
    imap_set ino (i_set_gen g (i_touch t (i_set_size size inode))).

Definition write_at (ino off : Z) (data : list Z) : FM unit := operation (write_at_inner ino off data).

(** [for l in from..from + n] of [truncate_inner] *)
Fixpoint drop_blocks (n : nat) (inode : Inode) (l : Z) : FM Inode :=
  match n with
  | O => mret inode
  | S n' =>
      old ← bmap_get inode l;
      inode ← (if is_null old then mret inode
               else
                 inode ← bmap_set inode l PTR_NULL;
                 mret (i_set_blocks (wrap 64 (i_blocks inode - 1)) inode));
      drop_blocks n' inode (l + 1)
  end.

(** The cut tail of the last kept block is zeroed. *)
Definition zero_tail (inode : Inode) (new_size : Z) : FM Inode :=
  let tail := Z.to_nat (new_size mod BS) in
  if (tail =? 0)%nat then mret inode
  else
    let l := new_size / BS in
    old ← bmap_get inode l;
    if is_null old then mret inode
    else
      buf ← read_ptr old;
      ptr ← write_fresh (take tail buf ++ zeros (length buf - tail));
      bmap_set inode l ptr.

Definition shrink (inode : Inode) (new_size : Z) : FM Inode :=
  if new_size =? 0 then
    _ ← retire_bmap (Z.to_nat (i_bmap_height inode)) (i_bmap_root inode);
    mret (i_set_blocks 0 (i_set_bmap 0 PTR_NULL inode))
  else
    let keep := div_ceil new_size BS in
    let span := div_ceil (i_size inode) BS in
    inode ← drop_blocks (Z.to_nat (span - keep)) inode keep;
    zero_tail inode new_size.

Definition truncate_inner (ino new_size : Z) : FM unit :=
  inode ← get_inode_req ino;
  if is_dir inode then fail RIsDir
  else if negb (is_reg inode) then fail RInvalid
  else
    inode ← (if new_size <? i_size inode then shrink inode new_size else mret inode);
    t ← now;
    g ← txn_gen;
    imap_set ino (i_set_gen g (i_touch t (i_set_size new_size inode))).

Definition truncate (ino new_size : Z) : FM unit := operation (truncate_inner ino new_size).

(** ** Directories *)

(** Logical block [l] of a directory, which is never sparse. *)
Definition dir_block (dinode : Inode) (l : Z) : FM (list Z) :=
  ptr ← bmap_get dinode l;
  if is_null ptr then fail RCorrupt else read_ptr ptr.

Definition nblocks (dinode : Inode) : nat := Z.to_nat (i_size dinode / BS).

Fixpoint dir_lookup_from (n : nat) (l : Z) (dinode : Inode) (name : str) : FM (option (Z * Z)) :=
  match n with
  | O => mret None
  | S n' =>
      buf ← dir_block dinode l;
      found ← lift (find buf name);
      match found with
      | Some (_, ino, ft) => mret (Some (ino, ft))
      | None => dir_lookup_from n' (l + 1) dinode name
      end
  end.

Definition dir_lookup (dinode : Inode) (name : str) : FM (option (Z * Z)) :=
  dir_lookup_from (nblocks dinode) 0 dinode name.

Definition dir_write_block (dinode : Inode) (l : Z) (buf : list Z) : FM Inode :=
  ptr ← write_fresh buf;
  bmap_set dinode l ptr.

(** [None] when every block is full. *)
Fixpoint dir_add_from (n : nat) (l : Z) (dinode : Inode) (name : str) (ino ftype : Z) : FM (option Inode) :=
  match n with
  | O => mret None
  | S n' =>
      buf ← dir_block dinode l;
      added ← lift (insert buf ino ftype name);
      match added with
      | Some buf => dinode ← dir_write_block dinode l buf; mret (Some dinode)
      | None => dir_add_from n' (l + 1) dinode name ino ftype
      end
  end.

Definition dir_add_entry (dinode : Inode) (name : str) (ino ftype : Z) : FM Inode :=
  done ← dir_add_from (nblocks dinode) 0 dinode name ino ftype;
  match done with
  | Some dinode => mret dinode
  | None =>
      buf ← lift (insert init_empty ino ftype name);
      dinode ← dir_write_block dinode (i_size dinode / BS) (default init_empty buf);
      mret (i_set_blocks (wrap 64 (i_blocks dinode + 1)) (i_set_size (wrap 64 (i_size dinode + BS)) dinode))
  end.

Fixpoint dir_remove_from (n : nat) (l : Z) (dinode : Inode) (name : str) : FM Inode :=
  match n with
  | O => fail RNotFound
  | S n' =>
      buf ← dir_block dinode l;
      removed ← lift (remove buf name);
      match removed with
      | Some buf => dir_write_block dinode l buf
      | None => dir_remove_from n' (l + 1) dinode name
      end
  end.

Definition dir_remove_entry (dinode : Inode) (name : str) : FM Inode :=
  dir_remove_from (nblocks dinode) 0 dinode name.

Fixpoint check_empty_from (n : nat) (l : Z) (dinode : Inode) : FM unit :=
  match n with
  | O => mret tt
  | S n' =>
      buf ← dir_block dinode l;
      only ← lift (only_dots buf);
      if only : bool then check_empty_from n' (l + 1) dinode else fail RNotEmpty
  end.

Definition check_dir_empty (dinode : Inode) : FM unit := check_empty_from (nblocks dinode) 0 dinode.

(** ** Path resolution *)

Fixpoint lookup_comps (comps : list str) (ino : Z) : FM Z :=
  match comps with
  | [] => mret ino
  | comp :: comps' =>
      inode ← get_inode_req ino;
      if negb (is_dir inode) then fail RNotDir
      else
        found ← dir_lookup inode comp;
        match found with
        | Some (child, _) => lookup_comps comps' child
        | None => fail RNotFound
        end
  end.

Definition lookup (path : str) : FM Z :=
  if negb (starts_with_slash path) then fail RInvalid else lookup_comps (comps_of path) ROOT_INO.

Definition stat (path : str) : FM Inode :=
  ino ← lookup path;
  get_inode_req ino.

Fixpoint entries_out (ds : list Dirent) : result (list DirEntryOut) RError :=
  match ds with
  | [] => Ok []
  | d :: ds' =>
      if d_inode d =? 0 then entries_out ds'
      else if utf8_valid (d_name d) then
        match entries_out ds' with
        | Ok out => Ok (mkOut (d_inode d) (d_file_type d) (d_name d) :: out)
        | Err e => Err e
        end
      else Err RCorrupt
  end.

Fixpoint readdir_from (n : nat) (l : Z) (dinode : Inode) : FM (list DirEntryOut) :=
  match n with
  | O => mret []
  | S n' =>
      buf ← dir_block dinode l;
      ds ← lift (parse_block buf);
      here ← lift (entries_out ds);
      rest ← readdir_from n' (l + 1) dinode;
      mret (here ++ rest)
  end.

Definition readdir (path : str) : FM (list DirEntryOut) :=
  ino ← lookup path;
  dinode ← get_inode_req ino;
  if negb (is_dir dinode) then fail RNotDir else readdir_from (nblocks dinode) 0 dinode.

Definition split_parent (path : str) : result (str * str) RError :=
  if negb (starts_with_slash path) || ends_with_slash path then Err RInvalid
  else
    match rsplit_slash path with
    | None => Err RInvalid
    | Some (parent, name) =>
        if negb (nonempty name) || (NAME_MAX <? length name)%nat || bool_decide (name = DOT) ||
           bool_decide (name = DOTDOT)
        then Err RInvalid
        else Ok (if nonempty parent then parent else [SLASH], name)
    end.
(** ** create, mkdir, unlink, rmdir *)

(** [child.bmap_root] and the fields set along with it for a directory. *)
Definition new_dir_inode (child : Inode) (root : BlockPtr) : Inode :=
  mkInode (Z.lor S_IFDIR 493) (i_flags child) (i_uid child) (i_gid child) 2 BS 1 (i_mtime child)
    (i_ctime child) (i_atime child) (i_btime child) (i_gen child) (i_bmap_height child) (i_rdev child) root
    (i_inline child).

Definition new_file_inode (child : Inode) : Inode :=
  mkInode (Z.lor S_IFREG 420) (i_flags child) (i_uid child) (i_gid child) 1 (i_size child) (i_blocks child)
    (i_mtime child) (i_ctime child) (i_atime child) (i_btime child) (i_gen child) (i_bmap_height child)
    (i_rdev child) (i_bmap_root child) (i_inline child).

(** [Inode { flags: FLAG_USED, .., ..Inode::FREE }] *)
Definition blank_inode (t g : Z) : Inode :=
  mkInode 0 FLAG_USED 0 0 0 0 0 t t t t g 0 0 PTR_NULL (zeros INLINE_SYMLINK_MAX).

(** The first block of a new directory. *)
Definition dots_block (self parent : Z) : result (list Z) RError :=
  match insert init_empty self FT_DIR DOT with
  | Err e => Err e
  | Ok b =>
      match insert (default init_empty b) parent FT_DIR DOTDOT with
      | Err e => Err e
      | Ok b' => Ok (default (default init_empty b) b')
      end
  end.

(** The checks shared by the operations that add a name: the parent's inode,
    which must be a directory without that name. *)
Definition free_name (ppath name : str) : FM (Z * Inode) :=
  parent ← lookup ppath;
  pinode ← get_inode_req parent;
  if negb (is_dir pinode) then fail RNotDir
  else
    found ← dir_lookup pinode name;
    match found with Some _ => fail RExists | None => mret (parent, pinode) end.

Definition create_inner (path : str) (dir : bool) : FM Z :=
  '(ppath, name) ← lift (split_parent path);
  '(parent, pinode) ← free_name ppath name;
  ino ← alloc_ino;
  t ← now;
  g ← txn_gen;
  let child := blank_inode t g in
  child ← (if dir then
             buf ← lift (dots_block ino parent);
             root ← write_fresh buf;
             mret (new_dir_inode child root)
           else mret (new_file_inode child));
  _ ← imap_set ino child;
  pinode ← dir_add_entry pinode name ino (if dir then FT_DIR else FT_REG);
  let pinode := if dir then i_set_nlink (wrap 32 (i_nlink pinode + 1)) pinode else pinode in
  _ ← imap_set parent (i_set_gen g (i_touch t pinode));
  _ ← add_inode_count 1;
  mret ino.

Definition create (path : str) : FM Z := operation (create_inner path false).
Definition mkdir (path : str) : FM Z := operation (create_inner path true).

Definition require {A} (o : option A) (e : RError) : FM A :=
  match o with Some a => mret a | None => fail e end.

Definition unlink_inner (path : str) : FM unit :=
  '(ppath, name) ← lift (split_parent path);
  parent ← lookup ppath;
  pinode ← get_inode_req parent;
  found ← dir_lookup pinode name;
  '(cino, _) ← require found RNotFound;
  cinode ← get_inode_req cino;
  if is_dir cinode then fail RIsDir
  else
    pinode ← dir_remove_entry pinode name;
    t ← now;
    _ ← imap_set parent (i_touch t pinode);
    drop_link cino cinode t.

Definition unlink (path : str) : FM unit := operation (unlink_inner path).

Definition rmdir_inner (path : str) : FM unit :=
  '(ppath, name) ← lift (split_parent path);
  parent ← lookup ppath;
  pinode ← get_inode_req parent;
  found ← dir_lookup pinode name;
  '(cino, _) ← require found RNotFound;
  if cino =? ROOT_INO then fail RInvalid
  else
    cinode ← get_inode_req cino;
    if negb (is_dir cinode) then fail RNotDir
    else
      _ ← check_dir_empty cinode;
      pinode ← dir_remove_entry pinode name;
      t ← now;
      let pinode := i_set_nlink (wrap 32 (i_nlink pinode - 1)) pinode in
      _ ← imap_set parent (i_touch t pinode);
      _ ← retire_bmap (Z.to_nat (i_bmap_height cinode)) (i_bmap_root cinode);
      _ ← imap_set cino INODE_FREE;
      add_inode_count (-1).

Definition rmdir (path : str) : FM unit := operation (rmdir_inner path).

(** ** fsync, pins *)

Definition fsync (ino : Z) : FM unit :=
  _ ← get_inode_req ino;
  commit.

Definition pin (ino : Z) : FM unit :=
  _ ← get_inode_req ino;
  with_pins (fun pins => <[ino := wrap 32 (default 0 (pins !! ino) + 1)]> pins).

Definition unpin (ino : Z) : FM unit :=
  s ← get;
  count ← require (fs_pins s !! ino) RInvalid;
  let count := wrap 32 (count - 1) in
  _ ← with_pins (<[ino := count]>);
  if 0 <? count then mret tt
  else
    _ ← with_pins (delete ino);
    if vol_read_only (fs_vol s) || (GEN_LIMIT <=? sb_gen (c_sb (fs_com s))) then mret tt
    else
      i ← imap_get ino;
      match i with
      | None => mret tt
      | Some inode =>
          if i_nlink inode =? 0 then with_rollback (free_inode ino inode) else mret tt
      end.

(** ** link, symlink, readlink *)

Definition link_inner (existing newpath : str) : FM unit :=
  src_ino ← lookup existing;
  src ← get_inode_req src_ino;
  if is_dir src then fail RPerm
  else
    '(ppath, name) ← lift (split_parent newpath);
    '(parent, pinode) ← free_name ppath name;
    pinode ← dir_add_entry pinode name src_ino (if is_symlink src then FT_SYMLINK else FT_REG);
    t ← now;
    _ ← imap_set parent (i_touch t pinode);
    g ← txn_gen;
    imap_set src_ino (i_set_gen g (i_set_ctime t (i_set_nlink (wrap 32 (i_nlink src + 1)) src))).

Definition link (existing newpath : str) : FM unit := operation (link_inner existing newpath).

Definition new_symlink_inode (target : str) (t g : Z) : Inode :=
  mkInode (Z.lor S_IFLNK 511) FLAG_USED 0 0 1 (Z.of_nat (length target)) 0 t t t t g 0 0 PTR_NULL
    (zeros INLINE_SYMLINK_MAX).

Definition set_inline (target : str) (i : Inode) : Inode :=
  mkInode (i_mode i) (Z.lor (i_flags i) FLAG_FAST_SYMLINK) (i_uid i) (i_gid i) (i_nlink i) (i_size i) (i_blocks i)
    (i_mtime i) (i_ctime i) (i_atime i) (i_btime i) (i_gen i) (i_bmap_height i) (i_rdev i) (i_bmap_root i)
    (splice 0 target (i_inline i)).

Definition symlink_inner (target linkpath : str) : FM Z :=
  if negb (nonempty target) then fail RInvalid
  else
    '(ppath, name) ← lift (split_parent linkpath);
    '(parent, pinode) ← free_name ppath name;
    ino ← alloc_ino;
    t ← now;
    g ← txn_gen;
    let child := new_symlink_inode target t g in
    child ← (if (length target <=? INLINE_SYMLINK_MAX)%nat then mret (set_inline target child)
             else write_blocks child 0 target);
    _ ← imap_set ino child;
    pinode ← dir_add_entry pinode name ino FT_SYMLINK;
    _ ← imap_set parent (i_touch t pinode);
    _ ← add_inode_count 1;
    mret ino.

Definition symlink (target linkpath : str) : FM Z := operation (symlink_inner target linkpath).

Definition readlink (path : str) : FM str :=
  ino ← lookup path;
  inode ← get_inode_req ino;
  if negb (is_symlink inode) then fail RInvalid
  else
    let len := i_size inode in
    buf ← (if is_fast_symlink inode then
             if Z.of_nat INLINE_SYMLINK_MAX <? len then throw Panicked
             else mret (take (Z.to_nat len) (i_inline inode))
           else
             '(bytes, n) ← read_blocks inode 0 len;
             if n =? len then mret bytes else fail RCorrupt);
    if utf8_valid buf then mret buf else fail RCorrupt.

(** ** rename *)

Definition dotdot_of (dir : Z) : FM Z :=
  dinode ← get_inode_req dir;
  found ← dir_lookup dinode DOTDOT;
  '(ino, _) ← require found RCorrupt;
  mret ino.

(** The walk to the root that refuses to move a directory under itself; the
    source does not bound it. *)
Fixpoint loop_check (fuel : nat) (src_ino cur : Z) : FM unit :=
  if cur =? src_ino then fail RInvalid
  else if cur =? ROOT_INO then mret tt
  else
    match fuel with
    | O => throw Hung
    | S fuel' => up ← dotdot_of cur; loop_check fuel' src_ino up
    end.

(** The existing entry a rename replaces; [inl] ends the rename at once. *)
Definition rename_target (src_ino : Z) (src_inode : Inode) (found : option (Z * Z))
  : FM (unit + option (Z * Inode)) :=
  match found with
  | None => mret (inr None)
  | Some (tgt_ino, _) =>
      if tgt_ino =? src_ino then mret (inl tt)
      else
        tgt ← get_inode_req tgt_ino;
        _ ← (if is_dir src_inode then
               if negb (is_dir tgt) then fail RNotDir else check_dir_empty tgt
             else if is_dir tgt then fail RIsDir else mret tt);
        mret (inr (Some (tgt_ino, tgt)))
  end.

(** Removing the replaced entry from its directory. *)
Definition clear_target (dinode : Inode) (name : str) (target : option (Z * Inode)) : FM Inode :=
  match target with
  | None => mret dinode
  | Some (_, tgt) =>
      dinode ← dir_remove_entry dinode name;
      mret (if is_dir tgt then i_set_nlink (wrap 32 (i_nlink dinode - 1)) dinode else dinode)
  end.

(** The moved directory's first block with its [..] pointing to [np_ino]. *)
Definition retarget_dotdot (src_inode : Inode) (np_ino : Z) : FM Inode :=
  ptr ← bmap_get src_inode 0;
  if is_null ptr then fail RCorrupt
  else
    buf ← read_ptr ptr;
    new ← lift (retarget buf DOTDOT np_ino);
    buf ← require new RCorrupt;
    dir_write_block src_inode 0 buf.

(** The two directories are different; the moved inode, updated if it is a
    directory. *)
Definition rename_cross (op_ino np_ino : Z) (npinode src_inode : Inode) (oname nname : str) (src_ino src_ft t : Z)
    (target : option (Z * Inode)) : FM Inode :=
  op ← get_inode_req op_ino;
  np ← clear_target npinode nname target;
  op ← dir_remove_entry op oname;
  np ← dir_add_entry np nname src_ino src_ft;
  '(op, np, src_inode) ←
    (if is_dir src_inode then
       src_inode ← retarget_dotdot src_inode np_ino;
       mret (i_set_nlink (wrap 32 (i_nlink op - 1)) op, i_set_nlink (wrap 32 (i_nlink np + 1)) np, src_inode)
     else mret (op, np, src_inode));
  _ ← imap_set op_ino (i_touch t op);
  _ ← imap_set np_ino (i_touch t np);
  mret src_inode.

Definition rename_within (op_ino : Z) (oname nname : str) (src_ino src_ft t : Z)
    (target : option (Z * Inode)) : FM unit :=
  p ← get_inode_req op_ino;
  p ← clear_target p nname target;
  p ← dir_remove_entry p oname;
  p ← dir_add_entry p nname src_ino src_ft;
  imap_set op_ino (i_touch t p).

Definition free_target (target : option (Z * Inode)) (t : Z) : FM unit :=
  match target with
  | None => mret tt
  | Some (tgt_ino, tgt) => if is_dir tgt then free_inode tgt_ino tgt else drop_link tgt_ino tgt t
  end.

Definition rename_inner (fuel : nat) (old new : str) : FM unit :=
  '(oppath, oname) ← lift (split_parent old);
  '(nppath, nname) ← lift (split_parent new);
  op_ino ← lookup oppath;
  np_ino ← lookup nppath;
  opinode ← get_inode_req op_ino;
  if negb (is_dir opinode) then fail RNotDir
  else
    found ← dir_lookup opinode oname;
    '(src_ino, src_ft) ← require found RNotFound;
    if (op_ino =? np_ino) && bool_decide (oname = nname) then mret tt
    else
      src_inode ← get_inode_req src_ino;
      npinode ← (if np_ino =? op_ino then mret opinode else get_inode_req np_ino);
      if negb (is_dir npinode) then fail RNotDir
      else
        found ← dir_lookup npinode nname;
        target ← rename_target src_ino src_inode found;
        match target with
        | inl _ => mret tt
        | inr target =>
            _ ← (if is_dir src_inode then loop_check fuel src_ino np_ino else mret tt);
            t ← now;
            src_inode ←
              (if negb (op_ino =? np_ino)
               then rename_cross op_ino np_ino npinode src_inode oname nname src_ino src_ft t target
               else _ ← rename_within op_ino oname nname src_ino src_ft t target; mret src_inode);
            _ ← free_target target t;
            g ← txn_gen;
            imap_set src_ino (i_set_gen g (i_set_ctime t src_inode))
        end.

Definition rename (fuel : nat) (old new : str) : FM unit := operation (rename_inner fuel old new).

(** ** Mount *)

Fixpoint find_orphans (n : nat) (ino : Z) : FM (list (Z * Inode)) :=
  match n with
  | O => mret []
  | S n' =>
      i ← imap_get ino;
      rest ← find_orphans n' (ino + 1);
      mret (match i with
            | Some inode => if i_nlink inode =? 0 then (ino, inode) :: rest else rest
            | None => rest
            end)
  end.

Definition reclaim_orphans : FM unit :=
  s ← get;
  orphans ← find_orphans (Z.to_nat (s_next_inode (fs_st s) - 1)) 1;
  match orphans with
  | [] => mret tt
  | _ =>
      _ ← with_rollback (for_each orphans (fun o => free_inode o.1 o.2));
      commit
  end.

(** The slot to mount from, with the other valid superblock if there is one. *)
Definition choose_slot (sa sb : option Superblock) : result (Superblock * Z * option Superblock) RError :=
  match sa, sb with
  | Some a, Some b =>
      if sb_gen a =? sb_gen b then Err RCorrupt
      else if sb_gen b <? sb_gen a then Ok (a, SB_SLOT_A, Some b)
      else Ok (b, SB_SLOT_B, Some a)
  | Some a, None => Ok (a, SB_SLOT_A, None)
  | None, Some b => Ok (b, SB_SLOT_B, None)
  | None, None => Err RNoSuperblock
  end.

Definition header_accepted (header : StaticHeader) (dev : D) : bool :=
  negb ((total_blocks dev <? h_total_blocks header) || negb (h_sb_slot_a header =? SB_SLOT_A) ||
        negb (h_sb_slot_b header =? SB_SLOT_B) || negb (h_first_data_block header =? FIRST_DATA_BLOCK)).

(** Steps 1 to 5: the volume as it was last committed. *)
Definition open_volume (xform : T) (clock : nat -> Z) (dev : D) : result (Rfs2 D T) Fault * D :=
  match read_block dev 0 with
  | (Err e, dev) => (Err (Fail e), dev)
  | (Ok hbuf, dev) =>
      match header_decode hbuf with
      | Err e => (Err (Fail e), dev)
      | Ok header =>
          if negb (header_accepted header dev) then (Err (Fail RBadHeader), dev)
          else
            let provided := incompat_features xform in
            if negb (Z.land (h_feature_incompat header) (not_u 64 KNOWN_INCOMPAT) =? 0) ||
               negb (h_feature_incompat header =? provided)
            then (Err (Fail RUnsupported), dev)
            else
              let read_only := negb (Z.land (h_feature_ro_compat header) (not_u 64 KNOWN_RO_COMPAT) =? 0) in
              let '(sa, dev) := read_slot xform SB_SLOT_A header dev in
              let '(sbb, dev) := read_slot xform SB_SLOT_B header dev in
              match choose_slot sa sbb with
              | Err e => (Err (Fail e), dev)
              | Ok (cur, cur_slot, prev) =>
                  let blank := Bitmap_new (h_total_blocks header) in
                  match mark_tree xform (sb_inode_map_root cur) (sb_inode_map_height cur) dev blank with
                  | (Err f, dev, _) => (Err f, dev)
                  | (Ok marked, dev, live_cur) =>
                      let '(r, dev, live_prev) :=
                        match prev with
                        | None => (Ok 0, dev, blank)
                        | Some p => mark_tree xform (sb_inode_map_root p) (sb_inode_map_height p) dev blank
                        end in
                      match r with
                      | Err f => (Err f, dev)
                      | Ok _ =>
                          (Ok (mkFs dev (mkVol xform header read_only clock)
                                 (mkCom cur cur_slot live_cur live_prev (negb (marked =? sb_block_count cur)))
                                 (mkSt (sb_inode_map_root cur) (sb_inode_map_height cur) (sb_next_inode cur)
                                       (sb_inode_count cur) false ∅ ∅ ∅ [] 0)
                                 ∅ 0), dev)
                      end
                  end
              end
      end
  end.

Definition mount (xform : T) (clock : nat -> Z) (dev : D) : result (Rfs2 D T) Fault * D :=
  match open_volume xform clock dev with
  | (Err f, dev) => (Err f, dev)
  | (Ok fs, dev) =>
      if negb (vol_read_only (fs_vol fs)) && (sb_gen (c_sb (fs_com fs)) <? GEN_LIMIT) then
        match reclaim_orphans fs with
        | (Ok _, fs') => (Ok fs', fs_dev fs')
        | (Err f, fs') => (Err f, fs_dev fs')
        end
      else (Ok fs, dev)
  end.

(** ** mkfs *)

Record MkfsOptions : Type := mkMkfs {
  mo_uuid : list Z; mo_label : str; mo_now : Z;
  mo_crypto : option (Z * list Z * Z * Z * Z * list Z * list Z * list Z)
}.

(** The crypto fields of the header: from the options, or the defaults of a
    plain volume. *)
Definition crypto_fields (o : MkfsOptions) : Z * list Z * Z * Z * Z * list Z * list Z * list Z :=
  default (1, zeros 16, 65536, 3, 1, zeros 12, zeros 32, zeros 16) (mo_crypto o).

Definition root_inode (t gen : Z) (dir_ptr : BlockPtr) : Inode :=
  mkInode (Z.lor S_IFDIR 493) FLAG_USED 0 0 2 BS 1 t t t t gen 0 0 dir_ptr (zeros INLINE_SYMLINK_MAX).

Definition write_dev (b : Z) (buf : list Z) : SM D unit := fun dev =>
  let '(r, dev') := write_block dev b buf in (match r with Ok u => Ok u | Err e => Err (Fail e) end, dev').

Definition flush_dev : SM D unit := fun dev =>
  let '(r, dev') := flush dev in (match r with Ok u => Ok u | Err e => Err (Fail e) end, dev').

(** Sealing and writing a block of generation 1. *)
Definition mkfs_block (xform : T) (b : Z) (buf : list Z) : SM D BlockPtr :=
  let '(tag, ct) := encrypt_block xform b 1 (dyn_aad b 1) buf in
  _ ← write_dev b ct;
  mret (mkPtr b 1 tag).

Definition mkfs_header (xform : T) (o : MkfsOptions) (total : Z) : StaticHeader :=
  let '(algo, salt, m, t, p, nonce, wrapped, tag) := crypto_fields o in
  mkHeader FORMAT_VERSION HEADER_VERSION BS total SB_SLOT_A SB_SLOT_B FIRST_DATA_BLOCK (mo_uuid o) 0
    (incompat_features xform) RO_COMPAT_HARDLINKS algo salt m t p nonce wrapped tag
    (splice 0 (mo_label o) (zeros 64)).

Definition mkfs (xform : T) (o : MkfsOptions) : SM D unit :=
  dev ← get;
  let total := total_blocks dev in
  if total <? FIRST_DATA_BLOCK + 2 then fail RNoSpace
  else
    _ ← write_dev SB_SLOT_A block_zeros;
    _ ← write_dev SB_SLOT_B block_zeros;
    dirbuf ← lift (dots_block ROOT_INO ROOT_INO);
    dir_ptr ← mkfs_block xform FIRST_DATA_BLOCK dirbuf;
    let leafbuf := splice (Z.to_nat ROOT_INO * INODE_SIZE) (inode_encode (root_inode (mo_now o) 1 dir_ptr)) block_zeros in
    imap_root ← mkfs_block xform (FIRST_DATA_BLOCK + 1) leafbuf;
    if (64 <? length (mo_label o))%nat then fail RInvalid
    else
      _ ← write_dev 0 (header_encode (mkfs_header xform o total));
      _ ← flush_dev;
      _ ← write_dev SB_SLOT_A (slot_bytes xform SB_SLOT_A
            (mkSb 1 total imap_root 0 FIRST_GENERAL_INO 1 2 (mo_now o) (mo_uuid o)));
      flush_dev.

End ops.
