(* ===== verification/Rfs2Frame.v ===== *)
(** * Frames of the RFS V2 operations

    Every operation other than commit is built from few primitives: reading a
    block, writing a fresh one, retiring a pointer, updates of the staged
    counters, and the rollback frame.  A reflexive and transitive relation kept
    by the primitives is therefore kept by all of them. *)

From S2P Require Import Prelude Paths Rfs2Layout Rfs2Dirent Rfs2Space Rfs2Fs Rfs2Ops.

#[local] Open Scope Z_scope.

(** The operations on a mounted volume that do not commit. *)
Inductive fs_op : Type :=
| OpRead (ino off len : Z) | OpWrite (ino off : Z) (data : list Z) | OpTruncate (ino size : Z)
| OpLookup (path : str) | OpStat (path : str) | OpReaddir (path : str) | OpReadlink (path : str)
| OpCreate (path : str) | OpMkdir (path : str) | OpUnlink (path : str) | OpRmdir (path : str)
| OpLink (existing newpath : str) | OpSymlink (target linkpath : str)
| OpRename (fuel : nat) (old new : str) | OpPin (ino : Z) | OpUnpin (ino : Z).

Section frame.
Context {D : Type} `{BlockDevice D} {T : Type} `{BlockTransform T}.

Abbreviation FM := (SM (Rfs2 D T)).

Definition discard {A} (m : FM A) : FM unit := _ ← m; mret tt.

Definition run_op (op : fs_op) : FM unit :=
  match op with
  | OpRead ino off len => discard (read_at ino off len)
  | OpWrite ino off data => write_at ino off data
  | OpTruncate ino size => truncate ino size
  | OpLookup p => discard (lookup p)
  | OpStat p => discard (stat p)
  | OpReaddir p => discard (readdir p)
  | OpReadlink p => discard (readlink p)
  | OpCreate p => discard (create p)
  | OpMkdir p => discard (mkdir p)
  | OpUnlink p => unlink p
  | OpRmdir p => rmdir p
  | OpLink o n => link o n
  | OpSymlink t l => discard (symlink t l)
  | OpRename fuel o n => rename fuel o n
  | OpPin ino => pin ino
  | OpUnpin ino => unpin ino
  end.

Section closure.
Context (R : Rfs2 D T -> Rfs2 D T -> Prop) `{!PreOrder R}.
Hypothesis R_read : forall ptr, steps R (read_ptr ptr).
Hypothesis R_write : forall buf, steps R (write_fresh buf).
Hypothesis R_retire : forall ptr, steps R (retire ptr).
Hypothesis R_now : steps R now.
Hypothesis R_root : forall level ptr ino bytes,
  steps R (root ← imap_set_rec level ptr ino bytes; with_st (st_root root)).
Hypothesis R_grow : forall buf,
  steps R (p ← write_fresh buf; with_st (fun st => st_height (wrap 64 (s_height st + 1)) (st_root p st))).
Hypothesis R_next : steps R alloc_ino.
Hypothesis R_count : forall n, steps R (add_inode_count n).
Hypothesis R_pins : forall f, steps R (with_pins f).
Hypothesis R_rollback : forall A (inner : FM A), steps R inner -> steps R (with_rollback inner).

#[local] Hint Resolve R_read R_write R_retire R_now R_root R_grow R_next R_count R_pins : sm.
Ltac go := cbv zeta; repeat sm_step.

Lemma steps_txn_gen : steps R txn_gen.
Proof using PreOrder0. unfold txn_gen. go. Qed.

Lemma steps_read_or_zeros ptr : steps R (read_or_zeros ptr).
Proof using PreOrder0 R_read. unfold read_or_zeros. go. Qed.

Lemma steps_require {A} (o : option A) e : steps R (require o e).
Proof using PreOrder0. unfold require. go. Qed.

Lemma steps_check_rw : steps R check_rw.
Proof using PreOrder0. unfold check_rw. go. Qed.

Lemma steps_operation {A} (inner : FM A) : steps R inner -> steps R (operation inner).
Proof using PreOrder0 R_rollback.
  intros Hi. unfold operation. apply sm_bind; [done|apply steps_check_rw|]. intros _. by apply R_rollback.
Qed.

#[local] Hint Resolve steps_txn_gen steps_read_or_zeros steps_require steps_operation : sm.

Lemma steps_imap_walk level : forall ptr ino, steps R (imap_walk level ptr ino).
Proof using PreOrder0 R_read. induction level; intros ptr ino; cbn [imap_walk]; go. Qed.
#[local] Hint Resolve steps_imap_walk : sm.

Lemma steps_imap_get ino : steps R (imap_get ino).
Proof using PreOrder0 R_read. unfold imap_get. go. Qed.
#[local] Hint Resolve steps_imap_get : sm.

Lemma steps_get_inode_req ino : steps R (get_inode_req ino).
Proof using PreOrder0 R_read. unfold get_inode_req. go. Qed.
#[local] Hint Resolve steps_get_inode_req : sm.

(** Sequencing is associative, which regroups the growth of the inode map. *)
Lemma bind_assoc {A B C} (m : FM A) (k : A -> FM B) (h : B -> FM C) s :
  (m ≫= fun a => k a ≫= h) s = ((m ≫= k) ≫= h) s.
Proof using. unfold mbind, SM_bind. by destruct (m s) as [[a|e] s']. Qed.

Lemma steps_ext {A} (m m' : FM A) : (forall s, m s = m' s) -> steps R m' -> steps R m.
Proof using. intros E Hm s. rewrite E. apply Hm. Qed.

Lemma steps_grow_imap_loop fuel : forall ino, steps R (grow_imap_loop fuel ino).
Proof using PreOrder0 R_grow.
  induction fuel as [|fuel IH]; intros ino; cbn [grow_imap_loop]; (apply sm_bind; [done|apply sm_get, _|intros s]);
    destruct (_ <=? ino); [go..| |go].
  eapply steps_ext; [intros s'; apply bind_assoc|]. apply sm_bind; [done|apply R_grow|]. intros _. apply IH.
Qed.

Lemma steps_imap_set_rec level : forall ptr ino bytes, steps R (imap_set_rec level ptr ino bytes).
Proof using PreOrder0 R_read R_write R_retire. induction level; intros ptr ino bytes; cbn [imap_set_rec]; go. Qed.
#[local] Hint Resolve steps_grow_imap_loop steps_imap_set_rec : sm.

Lemma steps_imap_set ino inode : steps R (imap_set ino inode).
Proof using PreOrder0 R_read R_write R_retire R_grow R_root.
  unfold imap_set, grow_imap. apply sm_bind; [done|apply steps_grow_imap_loop|intros _].
  apply sm_bind; [done|apply sm_get, _|intros s]. apply R_root.
Qed.
#[local] Hint Resolve steps_imap_set : sm.

Lemma steps_bmap_walk level : forall ptr l, steps R (bmap_walk level ptr l).
Proof using PreOrder0 R_read. induction level; intros ptr l; cbn [bmap_walk]; go. Qed.
#[local] Hint Resolve steps_bmap_walk : sm.

Lemma steps_bmap_get inode l : steps R (bmap_get inode l).
Proof using PreOrder0 R_read. unfold bmap_get. go. Qed.

Lemma steps_grow_bmap fuel : forall inode l, steps R (grow_bmap fuel inode l).
Proof using PreOrder0 R_write. induction fuel; intros inode l; cbn [grow_bmap]; go. Qed.

Lemma steps_bmap_set_rec level : forall ptr l new, steps R (bmap_set_rec level ptr l new).
Proof using PreOrder0 R_read R_write R_retire. induction level as [|lv IH]; intros ptr l new; [cbn; go|]. cbn [bmap_set_rec]. destruct lv; go. Qed.
#[local] Hint Resolve steps_bmap_get steps_grow_bmap steps_bmap_set_rec : sm.

Lemma steps_bmap_set inode l new : steps R (bmap_set inode l new).
Proof using PreOrder0 R_read R_write R_retire. unfold bmap_set. go. Qed.

Lemma steps_retire_bmap height : forall ptr, steps R (retire_bmap height ptr).
Proof using PreOrder0 R_read R_retire. induction height; intros ptr; cbn [retire_bmap]; go. Qed.
#[local] Hint Resolve steps_bmap_set steps_retire_bmap : sm.

Lemma steps_free_inode ino inode : steps R (free_inode ino inode).
Proof using PreOrder0 R_read R_write R_retire R_grow R_root R_count. unfold free_inode. go. Qed.
#[local] Hint Resolve steps_free_inode : sm.

Lemma steps_drop_link ino inode t : steps R (drop_link ino inode t).
Proof using PreOrder0 R_read R_write R_retire R_grow R_root R_count. unfold drop_link. cbv zeta. go. Qed.
#[local] Hint Resolve steps_drop_link : sm.

Lemma steps_read_loop fuel : forall inode pos end_, steps R (read_loop fuel inode pos end_).
Proof using PreOrder0 R_read. induction fuel; intros inode pos end_; cbn [read_loop]; go. Qed.
#[local] Hint Resolve steps_read_loop : sm.

Lemma steps_read_blocks inode off len : steps R (read_blocks inode off len).
Proof using PreOrder0 R_read. unfold read_blocks. cbv zeta. go. Qed.
#[local] Hint Resolve steps_read_blocks : sm.

Lemma steps_write_loop fuel : forall inode cur data, steps R (write_loop fuel inode cur data).
Proof using PreOrder0 R_read R_write R_retire.
  induction fuel; intros inode cur data; destruct data; cbn [write_loop]; cbv zeta; go.
Qed.
#[local] Hint Resolve steps_write_loop : sm.

Lemma steps_write_blocks inode off data : steps R (write_blocks inode off data).
Proof using PreOrder0 R_read R_write R_retire. unfold write_blocks. go. Qed.

Lemma steps_drop_blocks n : forall inode l, steps R (drop_blocks n inode l).
Proof using PreOrder0 R_read R_write R_retire. induction n; intros inode l; cbn [drop_blocks]; go. Qed.

Lemma steps_zero_tail inode n : steps R (zero_tail inode n).
Proof using PreOrder0 R_read R_write R_retire. unfold zero_tail. cbv zeta. go. Qed.
#[local] Hint Resolve steps_write_blocks steps_drop_blocks steps_zero_tail : sm.

Lemma steps_shrink inode n : steps R (shrink inode n).
Proof using PreOrder0 R_read R_write R_retire. unfold shrink. cbv zeta. go. Qed.

Lemma steps_dir_block dinode l : steps R (dir_block dinode l).
Proof using PreOrder0 R_read. unfold dir_block. go. Qed.
#[local] Hint Resolve steps_shrink steps_dir_block : sm.

Lemma steps_dir_lookup_from n : forall l dinode name, steps R (dir_lookup_from n l dinode name).
Proof using PreOrder0 R_read. induction n; intros l dinode name; cbn [dir_lookup_from]; go. Qed.

Lemma steps_dir_lookup dinode name : steps R (dir_lookup dinode name).
Proof using PreOrder0 R_read. apply steps_dir_lookup_from. Qed.

Lemma steps_dir_write_block dinode l buf : steps R (dir_write_block dinode l buf).
Proof using PreOrder0 R_read R_write R_retire. unfold dir_write_block. go. Qed.
#[local] Hint Resolve steps_dir_lookup steps_dir_write_block : sm.

Lemma steps_dir_add_from n : forall l dinode name ino ft, steps R (dir_add_from n l dinode name ino ft).
Proof using PreOrder0 R_read R_write R_retire. induction n; intros l dinode name ino ft; cbn [dir_add_from]; go. Qed.
#[local] Hint Resolve steps_dir_add_from : sm.

Lemma steps_dir_add_entry dinode name ino ft : steps R (dir_add_entry dinode name ino ft).
Proof using PreOrder0 R_read R_write R_retire. unfold dir_add_entry. go. Qed.

Lemma steps_dir_remove_from n : forall l dinode name, steps R (dir_remove_from n l dinode name).
Proof using PreOrder0 R_read R_write R_retire. induction n; intros l dinode name; cbn [dir_remove_from]; go. Qed.

Lemma steps_dir_remove_entry dinode name : steps R (dir_remove_entry dinode name).
Proof using PreOrder0 R_read R_write R_retire. apply steps_dir_remove_from. Qed.

Lemma steps_check_empty_from n : forall l dinode, steps R (check_empty_from n l dinode).
Proof using PreOrder0 R_read. induction n; intros l dinode; cbn [check_empty_from]; go. Qed.

Lemma steps_check_dir_empty dinode : steps R (check_dir_empty dinode).
Proof using PreOrder0 R_read. apply steps_check_empty_from. Qed.
#[local] Hint Resolve steps_dir_add_entry steps_dir_remove_entry steps_check_dir_empty : sm.

Lemma steps_lookup_comps comps : forall ino, steps R (lookup_comps comps ino).
Proof using PreOrder0 R_read. induction comps; intros ino; cbn [lookup_comps]; go. Qed.
#[local] Hint Resolve steps_lookup_comps : sm.

Lemma steps_lookup path : steps R (lookup path).
Proof using PreOrder0 R_read. unfold lookup. go. Qed.
#[local] Hint Resolve steps_lookup : sm.

Lemma steps_readdir_from n : forall l dinode, steps R (readdir_from n l dinode).
Proof using PreOrder0 R_read. induction n; intros l dinode; cbn [readdir_from]; go. Qed.
#[local] Hint Resolve steps_readdir_from : sm.

Lemma steps_free_name ppath name : steps R (free_name ppath name).
Proof using PreOrder0 R_read. unfold free_name. go. Qed.
#[local] Hint Resolve steps_free_name : sm.

Lemma steps_dotdot_of dir : steps R (dotdot_of dir).
Proof using PreOrder0 R_read. unfold dotdot_of. go. Qed.
#[local] Hint Resolve steps_dotdot_of : sm.

Lemma steps_loop_check fuel : forall src cur, steps R (loop_check fuel src cur).
Proof using PreOrder0 R_read. induction fuel; intros src cur; cbn [loop_check]; go. Qed.

Lemma steps_rename_target src i found : steps R (rename_target src i found).
Proof using PreOrder0 R_read. unfold rename_target. go. Qed.

Lemma steps_clear_target i name t : steps R (clear_target i name t).
Proof using PreOrder0 R_read R_write R_retire. unfold clear_target. go. Qed.

Lemma steps_retarget_dotdot i np : steps R (retarget_dotdot i np).
Proof using PreOrder0 R_read R_write R_retire. unfold retarget_dotdot. go. Qed.

Lemma steps_free_target target t : steps R (free_target target t).
Proof using PreOrder0 R_read R_write R_retire R_grow R_root R_count. unfold free_target. go. Qed.
#[local] Hint Resolve steps_loop_check steps_rename_target steps_clear_target steps_retarget_dotdot
  steps_free_target : sm.

Lemma steps_rename_inner fuel old new : steps R (rename_inner fuel old new).
Proof using PreOrder0 R_read R_write R_retire R_grow R_root R_count R_now.
  unfold rename_inner, rename_cross, rename_within. go.
Qed.

Lemma steps_create_inner path dir : steps R (create_inner path dir).
Proof using PreOrder0 R_read R_write R_retire R_grow R_root R_count R_now R_next.
  unfold create_inner. cbv zeta. go.
Qed.

Lemma steps_unlink_inner path : steps R (unlink_inner path).
Proof using PreOrder0 R_read R_write R_retire R_grow R_root R_count R_now. unfold unlink_inner. go. Qed.

Lemma steps_rmdir_inner path : steps R (rmdir_inner path).
Proof using PreOrder0 R_read R_write R_retire R_grow R_root R_count R_now. unfold rmdir_inner. cbv zeta. go. Qed.

Lemma steps_link_inner o n : steps R (link_inner o n).
Proof using PreOrder0 R_read R_write R_retire R_grow R_root R_now. unfold link_inner. go. Qed.

Lemma steps_symlink_inner t l : steps R (symlink_inner t l).
Proof using PreOrder0 R_read R_write R_retire R_grow R_root R_count R_now R_next.
  unfold symlink_inner. cbv zeta. go.
Qed.

Lemma steps_write_at_inner ino off data : steps R (write_at_inner ino off data).
Proof using PreOrder0 R_read R_write R_retire R_grow R_root R_now. unfold write_at_inner. go. Qed.

Lemma steps_truncate_inner ino size : steps R (truncate_inner ino size).
Proof using PreOrder0 R_read R_write R_retire R_grow R_root R_now. unfold truncate_inner. go. Qed.

#[local] Hint Resolve steps_rename_inner steps_create_inner steps_unlink_inner steps_rmdir_inner
  steps_link_inner steps_symlink_inner steps_write_at_inner steps_truncate_inner : sm.

(** Every operation stays within the frame of its primitives. *)
Lemma steps_op op : steps R (run_op op).
Proof using All.
  destruct op; cbn [run_op]; unfold discard, read_at, write_at, truncate, stat, readdir, readlink, create, mkdir,
    unlink, rmdir, link, symlink, rename, pin, unpin; cbv zeta; go.
Qed.

Lemma steps_find_orphans n : forall ino, steps R (find_orphans n ino).
Proof using PreOrder0 R_read. induction n; intros ino; cbn [find_orphans]; go. Qed.

End closure.
End frame.
