(* ===== verification/Rfs2Cow.v ===== *)
(** * Copy on write

    No operation changes a block that a committed tree uses: all writes go to
    blocks allocated by the operation itself, which are free in the live sets
    of both valid superblocks and lie behind the header and the superblock
    slots.  Only [commit] writes a slot, and then the one that is not
    current. *)

From S2P Require Import Prelude Paths Rfs2Layout Rfs2Dirent Rfs2Space Rfs2Fs Rfs2Ops Rfs2Frame.

#[local] Open Scope Z_scope.

(** ** Runs of the device *)

Section device.
Context {D : Type} `{BlockDevice D}.

(** Calls of the device that write only blocks in [W]. *)
Inductive dev_run (W : Z -> Prop) : D -> D -> Prop :=
| dr_refl d : dev_run W d d
| dr_read d b d' : dev_run W (read_block d b).2 d' -> dev_run W d d'
| dr_write d b buf d' : W b -> dev_run W (write_block d b buf).2 d' -> dev_run W d d'.

Lemma dev_run_mono (W W' : Z -> Prop) d d' : (forall b, W b -> W' b) -> dev_run W d d' -> dev_run W' d d'.
Proof. intros Hw Hr. induction Hr; [apply dr_refl|by eapply dr_read|eapply dr_write; [by apply Hw|done]]. Qed.

Lemma dev_run_trans W d1 d2 d3 : dev_run W d1 d2 -> dev_run W d2 d3 -> dev_run W d1 d3.
Proof. intros H1 H2. induction H1; [done|by eapply dr_read; auto|by eapply dr_write; auto]. Qed.

End device.

Section cow.
Context {D : Type} `{BlockDevice D} {T : Type} `{BlockTransform T}.
Implicit Types s : Rfs2 D T.

Abbreviation FM := (SM (Rfs2 D T)).

Definition fresh_of s : gset Z := s_fresh (fs_st s).

(** The number of blocks of the data region. *)
Definition span_of s : Z := wrap 64 (h_total_blocks (vol_header (fs_vol s)) - FIRST_DATA_BLOCK).

(** Free in both live sets, in the data region. *)
Definition allocatable s (b : Z) : Prop :=
  FIRST_DATA_BLOCK <= b < FIRST_DATA_BLOCK + span_of s /\
  Bitmap_get (c_live_cur (fs_com s)) b = Some false /\ Bitmap_get (c_live_prev (fs_com s)) b = Some false.

Record cow s s' : Prop := {
  cow_vol : fs_vol s' = fs_vol s;
  cow_com : fs_com s' = fs_com s;
  cow_fresh : fresh_of s ⊆ fresh_of s';
  cow_new : forall b, b ∈ fresh_of s' -> b ∈ fresh_of s \/ allocatable s b;
  cow_dev : dev_run (fun b => b ∈ fresh_of s' /\ b ∉ fresh_of s) (fs_dev s) (fs_dev s')
}.

#[export] Instance cow_preorder : PreOrder cow.
Proof.
  split.
  - intros s. split; [done|done|done|by left|apply dr_refl].
  - intros s1 s2 s3 [V1 C1 F1 N1 D1] [V2 C2 F2 N2 D2]. split; [congruence|congruence|set_solver| |].
    + intros b Hb. destruct (N2 b Hb) as [Hb2|Hb2]; [by apply N1|]. right. unfold allocatable, span_of in *. by rewrite C1, V1 in Hb2.
    + eapply dev_run_trans; eapply dev_run_mono; [|exact D1| |exact D2]; set_solver.
Qed.

(** A change that leaves the device, the committed state and the fresh set. *)
Definition inert s s' : Prop :=
  fs_dev s' = fs_dev s /\ fs_vol s' = fs_vol s /\ fs_com s' = fs_com s /\ fresh_of s' = fresh_of s.

Lemma inert_cow s s' : inert s s' -> cow s s'.
Proof.
  intros (Hd & Hv & Hc & Hf). split; [done|done|by rewrite Hf|intros b; rewrite Hf; by left|].
  rewrite Hd. apply dr_refl.
Qed.

Lemma cow_with_st f : (forall st, s_fresh (f st) = s_fresh st) -> steps cow (with_st f).
Proof. intros Hf s. apply inert_cow. split_and!; [done..|]. apply Hf. Qed.

Lemma cow_retire ptr : steps cow (retire ptr).
Proof.
  unfold retire. destruct (is_null ptr); [apply sm_ret, _|]. apply cow_with_st. intros st. by case_match.
Qed.

Lemma cow_now : steps cow now.
Proof. intros s. by apply inert_cow. Qed.

Lemma cow_read ptr : steps cow (read_ptr ptr).
Proof.
  intros s. unfold read_ptr, mbind, SM_bind, get, on_dev, read_ptr_dev.
  destruct (read_block (fs_dev s) (p_block ptr)) as [r dev] eqn:Hr.
  assert (Hc : cow s (mkFs dev (fs_vol s) (fs_com s) (fs_st s) (fs_pins s) (fs_ticks s))).
  { split; [done|done|done|by left|]. cbn. eapply dr_read. rewrite Hr. apply dr_refl. }
  by destruct r.
Qed.

Lemma alloc_scan_Ok com fresh cursor span n : forall i b c,
  0 < span -> alloc_scan com fresh cursor span n i = Ok (b, c) ->
  FIRST_DATA_BLOCK <= b < FIRST_DATA_BLOCK + span /\ Bitmap_get (c_live_cur com) b = Some false /\
  Bitmap_get (c_live_prev com) b = Some false /\ (b ∉ fresh) /\ 0 <= c < span.
Proof.
  induction n as [|n IH]; intros i b c Hs Ha; [done|]. cbn in Ha.
  pose proof (Z.mod_pos_bound (cursor + i) span Hs) as Hr.
  destruct (Bitmap_get (c_live_cur com) _) as [[]|] eqn:Hc; [by eapply IH| |done].
  destruct (Bitmap_get (c_live_prev com) _) as [[]|] eqn:Hp; [by eapply IH| |done].
  destruct (bool_decide_reflect (FIRST_DATA_BLOCK + (cursor + i) mod span ∈ fresh)); [by eapply IH|].
  injection Ha as <- <-. split_and!; [lia|lia|done|done|done|apply Z.mod_pos_bound; lia..].
Qed.

(** What a successful allocation did. *)
Lemma alloc_block_Ok s b s' :
  alloc_block s = (Ok b, s') ->
  allocatable s b /\ (b ∉ fresh_of s) /\
  exists cursor, s' = mkFs (fs_dev s) (fs_vol s) (fs_com s) (st_take b cursor (fs_st s)) (fs_pins s) (fs_ticks s).
Proof.
  unfold alloc_block, mbind, SM_bind, get. fold (span_of s). set (span := span_of s).
  destruct (alloc_scan _ _ _ _ _ _) as [[b' c]|f] eqn:Ha; [|done].
  cbn. intros [= <- <-]. destruct (decide (0 < span)) as [Hs|Hs].
  - apply alloc_scan_Ok in Ha as (H1 & H2 & H3 & H4 & _); [|done]. split_and!; [by split|done|by exists c].
  - replace (Z.to_nat span) with 0%nat in Ha by lia. done.
Qed.

Lemma alloc_block_Err s f s' : alloc_block s = (Err f, s') -> s' = s.
Proof.
  unfold alloc_block, mbind, SM_bind, get. destruct (alloc_scan _ _ _ _ _ _) as [[b' c]|f']; [done|].
  by intros [= _ <-].
Qed.

Definition gen_of s : Z := wrap 64 (sb_gen (c_sb (fs_com s)) + 1).

(** The state with the device [dev] and block [b] taken. *)
Definition took s (b cursor : Z) (dirty : bool) (dev : D) : Rfs2 D T :=
  mkFs dev (fs_vol s) (fs_com s)
    (let st := st_take b cursor (fs_st s) in if dirty then st_dirty true st else st) (fs_pins s) (fs_ticks s).

(** The outcomes of [write_fresh]. *)
Lemma write_fresh_cases buf s :
  (exists f, alloc_block s = (Err f, s) /\ write_fresh buf s = (Err f, s)) \/
  exists b cursor, allocatable s b /\ (b ∉ fresh_of s) /\
    let '(tag, ct) := encrypt_block (vol_xform (fs_vol s)) b (gen_of s) (dyn_aad b (gen_of s)) buf in
    write_fresh buf s =
      match write_block (fs_dev s) b ct with
      | (Ok _, dev) => (Ok (mkPtr b (gen_of s) tag), took s b cursor true dev)
      | (Err e, dev) => (Err (Fail e), took s b cursor false dev)
      end.
Proof.
  destruct (alloc_block s) as [[b|f] s1] eqn:Ha.
  - right. pose proof Ha as (Hal & Hnf & cursor & Hs1)%alloc_block_Ok. exists b, cursor. split_and!; [done|done|].
    unfold write_fresh, mbind at 1, SM_bind at 1. rewrite Ha, Hs1.
    unfold txn_gen, mbind, SM_bind, get, on_dev, mret, SM_ret. cbn [fs_vol fs_com fs_dev fs_st].
    cbn beta iota. cbn [fs_vol]. fold (gen_of s). destruct (encrypt_block _ b _ _ _) as [tag ct].
    cbn [fs_dev]. by destruct (write_block (fs_dev s) b ct) as [[u|e] dev].
  - left. exists f. pose proof Ha as ->%alloc_block_Err. split; [done|].
    unfold write_fresh, mbind at 1, SM_bind at 1. by rewrite Ha.
Qed.

Lemma cow_took s b cursor dirty ct :
  allocatable s b -> b ∉ fresh_of s -> cow s (took s b cursor dirty (write_block (fs_dev s) b ct).2).
Proof.
  intros Hal Hnf. assert (Hf : forall dev, fresh_of (took s b cursor dirty dev) = {[b]} ∪ fresh_of s).
  { intros dev. unfold took, fresh_of. by destruct dirty. }
  split; [done|done|rewrite Hf; set_solver| |].
  - intros b'. rewrite Hf. intros [->%elem_of_singleton|?]%elem_of_union; [by right|by left].
  - cbn. apply (dr_write _ _ b ct); [rewrite Hf; set_solver|]. apply dr_refl.
Qed.

Lemma cow_write buf : steps cow (write_fresh buf).
Proof.
  intros s. destruct (write_fresh_cases buf s) as [(f & _ & ->)|(b & cursor & Hal & Hnf & Hw)]; [done|].
  destruct (encrypt_block _ _ _ _ _) as [tag ct]. rewrite Hw. pose proof (cow_took s b cursor) as Hc.
  destruct (write_block (fs_dev s) b ct) as [[u|e] dev] eqn:E; cbn [snd].
  - specialize (Hc true ct Hal Hnf). by rewrite E in Hc.
  - specialize (Hc false ct Hal Hnf). by rewrite E in Hc.
Qed.

Lemma steps_on_result {A} R `{!PreOrder R} (inner : FM A) (ok : A -> FM A) (err : RError -> FM A) :
  steps R inner -> (forall a, steps R (ok a)) -> (forall e, steps R (err e)) ->
  steps R (on_result inner ok err).
Proof.
  intros Hi Ho He s. specialize (Hi s). unfold on_result. destruct (inner s) as [[a|[e| |]] s'] eqn:E; cbn in *.
  - etransitivity; [exact Hi|]. apply Ho.
  - etransitivity; [exact Hi|]. apply He.
  - done.
  - done.
Qed.

Lemma cow_rollback {A} (inner : FM A) : steps cow inner -> steps cow (with_rollback inner).
Proof.
  intros Hi. unfold with_rollback, begin_op. apply sm_bind; [apply _| |].
  - apply sm_bind; [apply _|by apply cow_with_st|]. intros _.
    apply sm_bind; [apply _|apply sm_get, _|]. intros s. apply sm_ret, _.
  - intros snap. apply steps_on_result; [apply _|done| |].
    + intros a. apply sm_bind; [apply _|by apply cow_with_st|]. intros _. apply sm_ret, _.
    + intros e. apply sm_bind; [apply _|by apply cow_with_st|]. intros _. apply steps_fail, _.
Qed.

Lemma cow_imap_set_rec level ptr ino bytes : steps cow (imap_set_rec level ptr ino bytes).
Proof. apply steps_imap_set_rec; [apply _|apply cow_read|apply cow_write|apply cow_retire]. Qed.

Lemma cow_op op : steps cow (run_op op).
Proof.
  apply steps_op; [apply _|apply cow_read|apply cow_write|apply cow_retire|apply cow_now|..].
  - intros level ptr ino bytes. apply sm_bind; [apply _|apply cow_imap_set_rec|]. intros p. by apply cow_with_st.
  - intros buf. apply sm_bind; [apply _|apply cow_write|]. intros p. by apply cow_with_st.
  - unfold alloc_ino. apply sm_bind; [apply _|apply sm_get, _|intros s].
    apply sm_bind; [apply _|by apply cow_with_st|intros _]. apply sm_ret, _.
  - intros n. by apply cow_with_st.
  - intros f s. by apply inert_cow.
  - intros A inner. apply cow_rollback.
Qed.


End cow.
