(* ===== verification/Rfs2Halts.v ===== *)
(** * Loops that end

    The loops of the source are recursions on fuel; running out of it is the
    fault [Hung].  Reading, writing, truncating, looking up, listing and
    removing never run out, whatever the disk holds. *)

From S2P Require Import Prelude Paths Rfs2Layout Rfs2Dirent Rfs2Space Rfs2Fs Rfs2Ops Rfs2Frame Rfs2Cow.

#[local] Open Scope Z_scope.

(** ** Capacities *)

(** Ten levels of 128 entries pass every 64-bit index. *)
Lemma checked_pow128_top e : 10 <= wrap 32 e -> checked_pow128 e = None.
Proof.
  intros He. unfold checked_pow128. rewrite (proj2 (Z.leb_gt _ _)); [done|].
  eapply Z.lt_le_trans; [|apply Z.pow_le_mono_r; [lia|exact He]]. reflexivity.
Qed.

Lemma bmap_capacity_top h : 10 <= wrap 32 h -> bmap_capacity h = U64_MAX.
Proof.
  intros Hh. unfold bmap_capacity. rewrite checked_pow128_top by done. destruct (Z.eqb_spec h 0) as [-> |]; [|done].
  by destruct Hh.
Qed.

Lemma imap_capacity_top h : 10 <= wrap 32 h -> imap_capacity h = U64_MAX.
Proof. intros Hh. unfold imap_capacity. by rewrite checked_pow128_top. Qed.

Lemma imap_capacity_le h : imap_capacity h <= U64_MAX.
Proof.
  unfold imap_capacity. destruct (checked_pow128 h); [|done]. cbv zeta.
  destruct (Z.leb_spec (z * Z.of_nat INODES_PER_LEAF) U64_MAX); lia.
Qed.

(** One more level, at a width of [w] bits. *)
Lemma next_level w h : 32 <= w \/ w = 8 -> wrap 32 h < 10 -> wrap 32 (wrap w (h + 1)) = wrap 32 h + 1.
Proof.
  unfold wrap. intros Hw Hh. pose proof (Z.mod_pos_bound h (2 ^ 32) ltac:(lia)) as Hr.
  assert (E : (h + 1) mod 2 ^ 32 = h mod 2 ^ 32 + 1).
  { rewrite Z.add_mod by lia. rewrite (Z.mod_small 1) by lia. apply Z.mod_small. lia. }
  destruct Hw as [Hw| ->].
  - rewrite Z.mod_mod_divide; [exact E|]. exists (2 ^ (w - 32)). rewrite <- Z.pow_add_r by lia. f_equal. lia.
  - rewrite (Z.mod_small ((h + 1) mod 2 ^ 8)) by (pose proof (Z.mod_pos_bound (h + 1) (2 ^ 8)); lia).
    rewrite <- (Z.mod_mod_divide (h + 1) (2 ^ 32) (2 ^ 8)), E by (by exists (2 ^ 24)). apply Z.mod_small. lia.
Qed.

(** ** Computations that do not hang *)

Section halting.
Context {D : Type} `{BlockDevice D} {T : Type} `{BlockTransform T}.
Implicit Types s : Rfs2 D T.

Abbreviation FM := (SM (Rfs2 D T)).

Definition halts {A} (m : FM A) : Prop := forall s, (m s).1 <> Err Hung.

Lemma halts_ret {A} (a : A) : halts (mret a).
Proof. by intros s. Qed.

Lemma halts_bind {A B} (m : FM A) (k : A -> FM B) : halts m -> (forall a, halts (k a)) -> halts (m ≫= k).
Proof.
  intros Hm Hk s. unfold mbind, SM_bind. specialize (Hm s). destruct (m s) as [[a|f] s']; [apply Hk|].
  cbn in *. congruence.
Qed.

(** What follows may use what [m] returned. *)
Lemma halts_bind_post {A B} (P : A -> Prop) (m : FM A) (k : A -> FM B) :
  halts m -> (forall s a s', m s = (Ok a, s') -> P a) -> (forall a, P a -> halts (k a)) -> halts (m ≫= k).
Proof.
  intros Hm Hp Hk s. unfold mbind, SM_bind. specialize (Hm s). destruct (m s) as [[a|f] s'] eqn:E.
  - apply Hk. by eapply Hp.
  - cbn in *. congruence.
Qed.

Lemma halts_for_each {X} (l : list X) (body : X -> FM unit) : (forall y, halts (body y)) -> halts (for_each l body).
Proof. intros Hb. induction l as [|y l IH]; [apply halts_ret|]. cbn. by apply halts_bind. Qed.

Lemma halts_fail {A} e : halts (fail (A := A) e).
Proof. by intros s. Qed.
Lemma halts_panic {A} : halts (throw (A := A) Panicked).
Proof. by intros s. Qed.
Lemma halts_get : halts get.
Proof. by intros s. Qed.
Lemma halts_lift {A} (r : result A RError) : halts (lift r).
Proof. by destruct r; intros s. Qed.
Lemma halts_with_st f : halts (with_st f).
Proof. by intros s. Qed.
Lemma halts_with_pins f : halts (with_pins f).
Proof. by intros s. Qed.
Lemma halts_now : halts now.
Proof. by intros s. Qed.
Lemma halts_on_dev {A} (call : D -> result A RError * D) : halts (on_dev call).
Proof. intros s. unfold on_dev. by destruct (call (fs_dev s)) as [[a|e] dev]. Qed.

End halting.

Create HintDb halt.
#[export] Hint Constants Opaque : halt.
#[export] Hint Resolve halts_ret halts_fail halts_panic halts_get halts_lift halts_with_st halts_with_pins halts_now
  halts_on_dev : halt.

Ltac halt_step :=
  match goal with
  | |- halts (mbind _ _) => apply halts_bind; [|intros ?]
  | |- halts (for_each _ _) => apply halts_for_each; intros ?
  | |- halts (let '(_, _) := ?x in _) => destruct x
  | |- halts (if ?b then _ else _) => destruct b
  | |- halts (match ?x with _ => _ end) => destruct x
  | |- _ => solve [eauto with halt typeclass_instances]
  end.

(** ** Every routine *)

Section routines.
Context {D : Type} `{BlockDevice D} {T : Type} `{BlockTransform T}.
Implicit Types s : Rfs2 D T.

Abbreviation FM := (SM (Rfs2 D T)).

Ltac go := cbv zeta; repeat halt_step.

Lemma halts_txn_gen : halts (txn_gen : FM Z).
Proof. unfold txn_gen. go. Qed.

Lemma halts_alloc_block : halts (alloc_block : FM Z).
Proof.
  unfold alloc_block. apply halts_bind; [go|intros s]. cbv zeta.
  assert (Ha : forall com fresh cursor span n i, alloc_scan com fresh cursor span n i <> Err Hung).
  { intros com fresh cursor span n. induction n as [|n IH]; intros i; [done|]. cbn.
    destruct (Bitmap_get _ _) as [[]|]; [apply IH| |done]. destruct (Bitmap_get _ _) as [[]|]; [apply IH| |done].
    destruct (bool_decide _); [apply IH|done]. }
  specialize (Ha (fs_com s)). destruct (alloc_scan _ _ _ _ _ _) as [[b c]|f] eqn:E; [go|].
  intros s'. cbn. intros [= ->]. by eapply Ha.
Qed.

Lemma halts_read_ptr ptr : halts (read_ptr ptr : FM _).
Proof. unfold read_ptr. go. Qed.
#[local] Hint Resolve halts_txn_gen halts_alloc_block halts_read_ptr : halt.

Lemma halts_write_fresh buf : halts (write_fresh buf : FM _).
Proof. unfold write_fresh. go. Qed.

Lemma halts_retire ptr : halts (retire ptr : FM _).
Proof. unfold retire. go. Qed.

Lemma halts_read_or_zeros ptr : halts (read_or_zeros ptr : FM _).
Proof. unfold read_or_zeros. go. Qed.

Lemma halts_require {A} (o : option A) e : halts (require o e : FM _).
Proof. unfold require. go. Qed.
#[local] Hint Resolve halts_write_fresh halts_retire halts_read_or_zeros halts_require : halt.

(** *** Growing the trees *)

Lemma write_fresh_height buf s : s_height (fs_st (write_fresh buf s).2) = s_height (fs_st s).
Proof.
  destruct (write_fresh_cases buf s) as [(f & _ & ->)|(b & cursor & _ & _ & E)]; [done|].
  destruct (encrypt_block _ _ _ _ _) as [tag ct]. rewrite E. by destruct (write_block _ _ _) as [[]].
Qed.

Lemma halts_grow_imap ino : ino < U64_MAX -> halts (grow_imap ino : FM _).
Proof.
  intros Hino. unfold grow_imap.
  assert (Hg : forall fuel s, 10 - wrap 32 (s_height (fs_st s)) < Z.of_nat fuel -> (grow_imap_loop fuel ino s).1 <> Err Hung).
  { induction fuel as [|fuel IH]; intros s Hf; cbn [grow_imap_loop]; unfold mbind, SM_bind, get.
    - rewrite imap_capacity_top, (proj2 (Z.leb_gt U64_MAX ino)) by lia. done.
    - destruct (imap_capacity _ <=? ino) eqn:Hc; [|done].
      assert (Hh : wrap 32 (s_height (fs_st s)) < 10).
      { destruct (decide (wrap 32 (s_height (fs_st s)) < 10)); [done|]. rewrite imap_capacity_top in Hc by lia.
        apply Z.leb_le in Hc. lia. }
      pose proof (halts_write_fresh (set_ptr_at block_zeros 0 (s_root (fs_st s))) s) as Hw.
      destruct (write_fresh _ s) as [[p|f] s'] eqn:E; [|cbn in *; congruence].
      assert (Hs' : s_height (fs_st s') = s_height (fs_st s)).
      { pose proof (write_fresh_height (set_ptr_at block_zeros 0 (s_root (fs_st s))) s) as Hwh. by rewrite E in Hwh. }
      cbn. apply IH. cbn. rewrite Hs', next_level by (lia || auto). lia. }
  intros s. apply Hg. pose proof (Z.mod_pos_bound (s_height (fs_st s)) (2 ^ 32)). unfold wrap, GROW_FUEL. lia.
Qed.

Lemma halts_imap_set_rec level : forall ptr ino bytes, halts (imap_set_rec level ptr ino bytes : FM _).
Proof. induction level; intros ptr ino bytes; cbn [imap_set_rec]; go. Qed.
#[local] Hint Resolve halts_imap_set_rec : halt.

Lemma halts_imap_set ino inode : ino < U64_MAX -> halts (imap_set ino inode : FM _).
Proof. intros Hino. unfold imap_set. apply halts_bind; [by apply halts_grow_imap|intros _]. go. Qed.

Lemma halts_grow_bmap l : l < U64_MAX -> forall fuel inode,
  10 - wrap 32 (i_bmap_height inode) < Z.of_nat fuel -> halts (grow_bmap fuel inode l : FM _).
Proof.
  intros Hl. induction fuel as [|fuel IH]; intros inode Hf; cbn [grow_bmap].
  - rewrite bmap_capacity_top, (proj2 (Z.leb_gt U64_MAX l)) by lia. go.
  - destruct (bmap_capacity _ <=? l) eqn:Hc; [|go]. apply halts_bind; [go|intros p].
    assert (Hh : wrap 32 (i_bmap_height inode) < 10).
    { destruct (decide (wrap 32 (i_bmap_height inode) < 10)); [done|]. rewrite bmap_capacity_top in Hc by lia.
      apply Z.leb_le in Hc. lia. }
    apply IH. cbn. rewrite next_level by auto. lia.
Qed.

Lemma halts_bmap_set_rec level : forall ptr l new, halts (bmap_set_rec level ptr l new : FM _).
Proof.
  induction level as [|lv IH]; intros ptr l new; [cbn; go|]. cbn [bmap_set_rec]. destruct lv; go.
Qed.
#[local] Hint Resolve halts_bmap_set_rec : halt.

(** Room for [l]: below the largest index, or already covered. *)
Definition reaches (inode : Inode) (l : Z) : Prop := l < U64_MAX \/ l < bmap_capacity (i_bmap_height inode).

Lemma halts_bmap_set inode l new : reaches inode l -> halts (bmap_set inode l new : FM _).
Proof.
  intros Hl. unfold bmap_set. apply halts_bind; [|intros i; go]. destruct Hl as [Hl|Hl].
  - apply halts_grow_bmap; [done|]. pose proof (Z.mod_pos_bound (i_bmap_height inode) (2 ^ 32)). unfold wrap, GROW_FUEL. lia.
  - unfold GROW_FUEL. cbn [grow_bmap]. rewrite (proj2 (Z.leb_gt _ _) Hl). go.
Qed.

Lemma halts_bmap_walk level : forall ptr l, halts (bmap_walk level ptr l : FM _).
Proof. induction level; intros ptr l; cbn [bmap_walk]; go. Qed.
#[local] Hint Resolve halts_bmap_walk : halt.

Lemma halts_bmap_get inode l : halts (bmap_get inode l : FM _).
Proof. unfold bmap_get. go. Qed.

Lemma halts_imap_walk level : forall ptr ino, halts (imap_walk level ptr ino : FM _).
Proof. induction level; intros ptr ino; cbn [imap_walk]; go. Qed.
#[local] Hint Resolve halts_bmap_get halts_imap_walk : halt.

Lemma halts_imap_get ino : halts (imap_get ino : FM _).
Proof. unfold imap_get. go. Qed.
#[local] Hint Resolve halts_imap_get : halt.

Lemma halts_get_inode_req ino : halts (get_inode_req ino : FM _).
Proof. unfold get_inode_req. go. Qed.
#[local] Hint Resolve halts_get_inode_req : halt.

(** An inode that is found has a number below the largest one. *)
Lemma halts_with_inode {B} ino (k : Inode -> FM B) :
  (forall i, ino < U64_MAX -> halts (k i)) -> halts (i ← get_inode_req ino; k i).
Proof.
  intros Hk. apply (halts_bind_post (fun _ => ino < U64_MAX)); [go| |auto].
  intros s i s'. unfold get_inode_req, imap_get, mbind, SM_bind, get.
  destruct (imap_capacity _ <=? ino) eqn:Hc; [done|]. apply Z.leb_gt in Hc. pose proof (imap_capacity_le (s_height (fs_st s))). lia.
Qed.

(** A block that is mapped is within the capacity of the map. *)
Lemma halts_with_block {B} inode l (k : BlockPtr -> FM B) :
  (forall p, is_null p = false -> l < bmap_capacity (i_bmap_height inode) -> halts (k p)) ->
  (forall p, is_null p = true -> halts (k p)) -> halts (p ← bmap_get inode l; k p).
Proof.
  intros Hk Hn. apply (halts_bind_post (fun p => is_null p = false -> l < bmap_capacity (i_bmap_height inode))); [go| |].
  - intros s p s'. unfold bmap_get. destruct (is_null (i_bmap_root inode)); [by intros [= <- _]|]. cbn [orb].
    destruct (bmap_capacity _ <=? l) eqn:Hc; [by intros [= <- _]|]. intros _ _. by apply Z.leb_gt.
  - intros p Hp. destruct (is_null p) eqn:E; auto.
Qed.

(** *** File data *)

Lemma BS_pos : 0 < BS.
Proof. unfold BS. rewrite BLOCK_SIZE_Z. lia. Qed.

(** Every round reads at least one byte. *)
Lemma halts_read_loop inode end_ : forall fuel pos,
  end_ - pos <= Z.of_nat fuel -> halts (read_loop fuel inode pos end_ : FM _).
Proof.
  pose proof BS_pos as Hbs. induction fuel as [|fuel IH]; intros pos Hf; cbn [read_loop].
  - rewrite (proj2 (Z.ltb_ge pos end_)) by lia. go.
  - destruct (Z.ltb_spec pos end_); [|go]. cbv zeta. apply halts_bind; [go|intros p]. apply halts_bind; [go|intros chunk].
    apply halts_bind; [|intros rest; go]. apply IH. pose proof (Z.mod_pos_bound pos BS Hbs). lia.
Qed.

Lemma halts_read_blocks inode off len : 0 <= off -> 0 <= len \/ i_size inode <= off -> halts (read_blocks inode off len : FM _).
Proof.
  intros Hoff Hlen. unfold read_blocks. destruct (Z.leb_spec (i_size inode) off); [go|]. cbv zeta.
  apply halts_bind; [|intros bytes; go].
  apply halts_read_loop. unfold wrap. pose proof (Z.mod_le (off + len) (2 ^ 64)). lia.
Qed.

Lemma block_index cur : in_u 64 cur -> cur / BS < U64_MAX.
Proof.
  unfold in_u, U64_MAX, BS. rewrite BLOCK_SIZE_Z. intros Hc. pose proof (Z.div_le_upper_bound cur 4096 (2 ^ 52)). lia.
Qed.

(** Every round writes at least one byte. *)
Lemma halts_write_loop : forall fuel inode cur data,
  (length data <= fuel)%nat -> in_u 64 cur -> halts (write_loop fuel inode cur data : FM _).
Proof.
  pose proof BS_pos as Hbs. induction fuel as [|fuel IH]; intros inode cur data Hf Hc;
    (destruct data as [|d data]; [cbn; go|]); [cbn in Hf; lia|].
  cbn [write_loop]. cbv zeta. apply halts_bind; [go|intros old]. apply halts_bind; [go|intros buf].
  apply halts_bind; [go|intros p]. apply halts_bind; [apply halts_bmap_set; left; by apply block_index|intros i].
  apply IH.
  - rewrite length_drop. pose proof (Z.mod_pos_bound cur BS Hbs). unfold BS in *. cbn [length] in *. lia.
  - unfold in_u, wrap. apply Z.mod_pos_bound. lia.
Qed.

Lemma halts_drop_blocks n : forall inode l, halts (drop_blocks n inode l : FM _).
Proof.
  induction n as [|n IH]; intros inode l; cbn [drop_blocks]; [go|].
  apply halts_with_block; intros p Hp; rewrite Hp; [intros Hl|go].
  apply halts_bind; [|auto]. apply halts_bind; [apply halts_bmap_set; by right|intros i; go].
Qed.

Lemma halts_zero_tail inode n : halts (zero_tail inode n : FM _).
Proof.
  unfold zero_tail. cbv zeta. destruct (_ =? _)%nat; [go|]. apply halts_with_block; intros p Hp; rewrite Hp; [intros Hl|go].
  apply halts_bind; [go|intros buf]. apply halts_bind; [go|intros q]. apply halts_bmap_set. by right.
Qed.

Lemma halts_retire_bmap height : forall ptr, halts (retire_bmap height ptr : FM _).
Proof. induction height; intros ptr; cbn [retire_bmap]; go. Qed.
#[local] Hint Resolve halts_drop_blocks halts_zero_tail halts_retire_bmap : halt.

Lemma halts_shrink inode n : halts (shrink inode n : FM _).
Proof. unfold shrink. go. Qed.
#[local] Hint Resolve halts_shrink : halt.

(** *** Names *)

Lemma halts_dir_block dinode l : halts (dir_block dinode l : FM _).
Proof. unfold dir_block. go. Qed.
#[local] Hint Resolve halts_dir_block : halt.

Lemma halts_dir_lookup_from n : forall l dinode name, halts (dir_lookup_from n l dinode name : FM _).
Proof. induction n; intros l dinode name; cbn [dir_lookup_from]; go. Qed.

Lemma halts_dir_lookup dinode name : halts (dir_lookup dinode name : FM _).
Proof. apply halts_dir_lookup_from. Qed.

(** The block written is one that was read. *)
Lemma halts_dir_remove_from n : forall l dinode name, halts (dir_remove_from n l dinode name : FM _).
Proof.
  induction n as [|n IH]; intros l dinode name; cbn [dir_remove_from]; [go|].
  apply (halts_bind_post (fun _ => l < bmap_capacity (i_bmap_height dinode))); [go| |].
  - intros s buf s'. unfold dir_block, bmap_get. destruct (is_null (i_bmap_root dinode)); [done|]. cbn [orb].
    destruct (bmap_capacity _ <=? l) eqn:Hc; [done|]. intros _. by apply Z.leb_gt.
  - intros buf Hl. apply halts_bind; [go|intros [buf'|]]; [|auto]. unfold dir_write_block. apply halts_bind; [go|intros p].
    apply halts_bmap_set. by right.
Qed.

Lemma halts_dir_remove_entry dinode name : halts (dir_remove_entry dinode name : FM _).
Proof. apply halts_dir_remove_from. Qed.

Lemma halts_check_empty_from n : forall l dinode, halts (check_empty_from n l dinode : FM _).
Proof. induction n; intros l dinode; cbn [check_empty_from]; go. Qed.

Lemma halts_check_dir_empty dinode : halts (check_dir_empty dinode : FM _).
Proof. apply halts_check_empty_from. Qed.
#[local] Hint Resolve halts_dir_lookup halts_dir_remove_entry halts_check_dir_empty : halt.

Lemma halts_lookup_comps comps : forall ino, halts (lookup_comps comps ino : FM _).
Proof. induction comps; intros ino; cbn [lookup_comps]; go. Qed.
#[local] Hint Resolve halts_lookup_comps : halt.

Lemma halts_lookup path : halts (lookup path : FM _).
Proof. unfold lookup. go. Qed.

Lemma halts_readdir_from n : forall l dinode, halts (readdir_from n l dinode : FM _).
Proof. induction n; intros l dinode; cbn [readdir_from]; go. Qed.
#[local] Hint Resolve halts_lookup halts_readdir_from : halt.

(** *** Inodes *)

Lemma halts_add_inode_count n : halts (add_inode_count n : FM _).
Proof. unfold add_inode_count. go. Qed.
#[local] Hint Resolve halts_add_inode_count : halt.

Lemma halts_free_inode ino inode : ino < U64_MAX -> halts (free_inode ino inode : FM _).
Proof.
  intros Hi. unfold free_inode. apply halts_bind; [go|intros _]. apply halts_bind; [by apply halts_imap_set|intros _]. go.
Qed.

Lemma halts_drop_link ino inode t : ino < U64_MAX -> halts (drop_link ino inode t : FM _).
Proof.
  intros Hi. unfold drop_link. cbv zeta. apply halts_bind; [go|intros s]. destruct (_ && _); [by apply halts_free_inode|].
  apply halts_bind; [go|intros g]. by apply halts_imap_set.
Qed.

Lemma halts_rollback {A} (inner : FM A) : halts inner -> halts (with_rollback inner).
Proof.
  intros Hi. unfold with_rollback, begin_op. apply halts_bind; [go|intros snap]. intros s. unfold on_result.
  specialize (Hi s). destruct (inner s) as [[a|[e| |]] s']; cbn in *; done.
Qed.

Lemma halts_operation {A} (inner : FM A) : halts inner -> halts (operation inner).
Proof. intros Hi. unfold operation, check_rw. apply halts_bind; [go|intros _]. by apply halts_rollback. Qed.

Lemma halts_discard {A} (m : FM A) : halts m -> halts (discard m).
Proof. intros Hm. unfold discard. by apply halts_bind; [|intros a; go]. Qed.

(** *** Operations *)

(** The operations that read, write and remove, with 64-bit offsets. *)
Definition reads_or_removes (op : fs_op) : Prop :=
  match op with
  | OpRead _ off len => in_u 64 off /\ in_u 64 len
  | OpWrite _ off _ => in_u 64 off
  | OpTruncate _ _ | OpLookup _ | OpStat _ | OpReaddir _ | OpReadlink _ | OpUnlink _ | OpRmdir _ | OpPin _ | OpUnpin _ => True
  | OpCreate _ | OpMkdir _ | OpLink _ _ | OpSymlink _ _ | OpRename _ _ _ => False
  end.

Lemma halts_unlink_inner path : halts (unlink_inner path : FM _).
Proof.
  unfold unlink_inner. apply halts_bind; [go|intros [ppath name]]. apply halts_bind; [go|intros parent].
  apply halts_with_inode; intros pinode Hp. apply halts_bind; [go|intros found]. apply halts_bind; [go|intros [cino ft]].
  apply halts_with_inode; intros cinode Hc. destruct (is_dir cinode); [go|]. apply halts_bind; [go|intros pinode'].
  apply halts_bind; [go|intros t]. apply halts_bind; [by apply halts_imap_set|intros _]. by apply halts_drop_link.
Qed.

Lemma halts_rmdir_inner path : halts (rmdir_inner path : FM _).
Proof.
  unfold rmdir_inner. apply halts_bind; [go|intros [ppath name]]. apply halts_bind; [go|intros parent].
  apply halts_with_inode; intros pinode Hp. apply halts_bind; [go|intros found]. apply halts_bind; [go|intros [cino ft]].
  destruct (cino =? ROOT_INO); [go|]. apply halts_with_inode; intros cinode Hc. destruct (negb _); [go|].
  apply halts_bind; [go|intros _]. apply halts_bind; [go|intros pinode']. apply halts_bind; [go|intros t].
  cbv zeta. apply halts_bind; [by apply halts_imap_set|intros _]. apply halts_bind; [go|intros _].
  apply halts_bind; [by apply halts_imap_set|intros _]. go.
Qed.

Lemma halts_write_at_inner ino off data : in_u 64 off -> halts (write_at_inner ino off data : FM _).
Proof.
  intros Ho. unfold write_at_inner. apply halts_with_inode; intros inode Hi. destruct (is_dir inode); [go|].
  destruct (negb _); [go|]. apply halts_bind; [by apply halts_write_loop|intros i]. apply halts_bind; [go|intros t].
  apply halts_bind; [go|intros g]. cbv zeta. by apply halts_imap_set.
Qed.

Lemma halts_truncate_inner ino size : halts (truncate_inner ino size : FM _).
Proof.
  unfold truncate_inner. apply halts_with_inode; intros inode Hi. destruct (is_dir inode); [go|]. destruct (negb _); [go|].
  apply halts_bind; [go|intros i]. apply halts_bind; [go|intros t]. apply halts_bind; [go|intros g]. by apply halts_imap_set.
Qed.

Lemma halts_unpin ino : halts (unpin ino : FM _).
Proof.
  unfold unpin. cbv zeta. apply halts_bind; [go|intros s]. apply halts_bind; [go|intros count]. apply halts_bind; [go|intros _].
  destruct (_ <? _); [go|]. apply halts_bind; [go|intros _]. destruct (_ || _); [go|].
  apply (halts_bind_post (fun i => i = None \/ ino < U64_MAX)); [go| |].
  - intros s1 i s2. unfold imap_get, mbind, SM_bind, get. destruct (imap_capacity _ <=? ino) eqn:Hc; [intros [= <- _]; by left|].
    apply Z.leb_gt in Hc. pose proof (imap_capacity_le (s_height (fs_st s1))). right. lia.
  - intros i [-> |Hi]; [go|]. destruct i as [inode|]; [|go]. destruct (_ =? _); [|go].
    by apply halts_rollback, halts_free_inode.
Qed.

(** C16. The loops end.  Reading, writing, truncating, looking up, listing,
    unlinking, removing a directory, pinning and unpinning return, with a
    result, an error or a panic, on any volume whatever its disk holds: no loop
    of these operations runs forever. *)
Theorem operations_return op s : reads_or_removes op -> (run_op op s).1 <> Err Hung.
Proof.
  intros Hop. enough (Hh : halts (run_op op)) by apply Hh.
  destruct op; cbn in Hop; try contradiction; cbn [run_op]; repeat first [apply halts_discard | apply halts_operation].
  - unfold read_at. apply halts_with_inode; intros inode Hi. destruct (is_dir inode); [go|]. destruct (negb _); [go|].
    apply halts_read_blocks; [apply Hop|left; apply Hop].
  - by apply halts_write_at_inner.
  - apply halts_truncate_inner.
  - go.
  - unfold stat. go.
  - unfold readdir. go.
  - unfold readlink. apply halts_bind; [go|intros ino]. apply halts_bind; [go|intros inode]. destruct (negb _); [go|]. cbv zeta.
    apply halts_bind; [|intros buf; go]. destruct (is_fast_symlink inode); [go|].
    apply halts_bind; [apply halts_read_blocks; lia|intros [bytes n]]. go.
  - apply halts_unlink_inner.
  - apply halts_rmdir_inner.
  - unfold pin. go.
  - apply halts_unpin.
Qed.

End routines.
