(* ===== verification/Rfs2Typed.v ===== *)
(** * Ranges

    Every field the file system writes to disk fits the width it is stored
    with, after any operation and any commit: superblocks survive encoding. *)

From S2P Require Import Prelude Paths Rfs2Layout Rfs2Dirent Rfs2Space Rfs2Bitmap Rfs2Fs Rfs2Ops Rfs2Frame Rfs2Cow.

#[local] Open Scope Z_scope.

Section typed.
Context {D : Type} `{BlockDevice D} {T : Type} `{TransformLaws T}.
Implicit Types s : Rfs2 D T.

Abbreviation FM := (SM (Rfs2 D T)).

Definition bm_ok (bm : Bitmap) : Prop := words_ok bm /\ 64 * Z.of_nat (length (bm_words bm)) < 2 ^ 64.

Record typed s : Prop := {
  ty_total : FIRST_DATA_BLOCK <= h_total_blocks (vol_header (fs_vol s)) < 2 ^ 64;
  ty_uuid : length (h_uuid (vol_header (fs_vol s))) = 16%nat;
  ty_clock : forall n, in_u 64 (vol_clock (fs_vol s) n);
  ty_sb : sb_wf (c_sb (fs_com s));
  ty_slot : c_cur_slot (fs_com s) = SB_SLOT_A \/ c_cur_slot (fs_com s) = SB_SLOT_B;
  ty_cur : bm_ok (c_live_cur (fs_com s));
  ty_prev : bm_ok (c_live_prev (fs_com s));
  ty_root : ptr_wf (s_root (fs_st s));
  ty_height : in_u 64 (s_height (fs_st s));
  ty_next : in_u 64 (s_next_inode (fs_st s));
  ty_count : in_u 64 (s_inode_count (fs_st s))
}.

Definition keeps_typed s s' : Prop := typed s -> typed s'.

#[export] Instance keeps_typed_preorder : PreOrder keeps_typed.
Proof. split; [intros s Hs; exact Hs|]. intros s1 s2 s3 H12 H23 Hs. by apply H23, H12. Qed.

(** The parts [typed] looks at. *)
Definition same_types s s' : Prop :=
  fs_vol s' = fs_vol s /\ fs_com s' = fs_com s /\ s_root (fs_st s') = s_root (fs_st s) /\
  s_height (fs_st s') = s_height (fs_st s) /\ s_next_inode (fs_st s') = s_next_inode (fs_st s) /\
  s_inode_count (fs_st s') = s_inode_count (fs_st s).

Lemma same_types_typed s s' : same_types s s' -> keeps_typed s s'.
Proof. intros (Hv & Hc & Hr & Hh & Hn & Hi) []. split; rewrite ?Hv, ?Hc, ?Hr, ?Hh, ?Hn, ?Hi; done. Qed.

Lemma typed_read ptr : steps keeps_typed (read_ptr ptr).
Proof.
  intros s. apply same_types_typed. unfold read_ptr, mbind, SM_bind, get, on_dev.
  by destruct (read_ptr_dev _ ptr (fs_dev s)) as [[b|e] dev].
Qed.

Lemma typed_retire ptr : steps keeps_typed (retire ptr).
Proof.
  intros s. apply same_types_typed. unfold retire. destruct (is_null ptr); [done|].
  cbn. unfold same_types. cbn. by destruct (bool_decide _).
Qed.

(** A fresh block's pointer fits its 32 bytes. *)
Lemma write_fresh_types buf s r s' :
  write_fresh buf s = (r, s') ->
  same_types s s' /\ forall p, typed s -> r = Ok p -> ptr_wf p.
Proof.
  intros Hw. destruct (write_fresh_cases buf s) as [(f & _ & E)|(b & cursor & Hal & Hnf & E)].
  { rewrite E in Hw. injection Hw as <- <-. done. }
  pose proof (length_tag (vol_xform (fs_vol s)) b (gen_of s) (dyn_aad b (gen_of s)) buf) as Ht.
  destruct (encrypt_block _ _ _ _ _) as [tag ct]. cbn in Ht. rewrite E in Hw.
  destruct (write_block (fs_dev s) b ct) as [[u|e] dev]; injection Hw as <- <-.
  - split; [done|]. intros p Hty [= <-]. destruct Hal as [Hr _]. destruct (ty_total _ Hty) as [Ht1 Ht2].
    unfold span_of in Hr. rewrite wrap_small in Hr by (unfold in_u; unfold FIRST_DATA_BLOCK in *; lia).
    split; cbn; [unfold in_u; unfold FIRST_DATA_BLOCK in *; lia|apply wrap_range; lia|done].
  - split; [done|]. done.
Qed.

Lemma typed_write buf : steps keeps_typed (write_fresh buf).
Proof.
  intros s. destruct (write_fresh buf s) as [r s'] eqn:E. apply same_types_typed.
  by apply write_fresh_types in E as [? _].
Qed.

Lemma typed_imap_set_rec level : forall ptr ino bytes s r s',
  imap_set_rec level ptr ino bytes s = (r, s') ->
  keeps_typed s s' /\ forall p, typed s -> r = Ok p -> ptr_wf p.
Proof.
  assert (Hlast : forall (m : FM (list Z)) s r s', steps keeps_typed m -> (m ≫= write_fresh) s = (r, s') ->
            keeps_typed s s' /\ forall p, typed s -> r = Ok p -> ptr_wf p).
  { intros m s r s' Hm. specialize (Hm s). unfold mbind, SM_bind. destruct (m s) as [[a|e] s1]; [|by intros [= <- <-]].
    intros Hw. cbn in Hm. apply write_fresh_types in Hw as [Hsame Hp]. split.
    - intros Hs. apply (same_types_typed s1); [done|]. by apply Hm.
    - intros p Hs. apply Hp. by apply Hm. }
  intros ptr ino bytes s r s'. destruct level as [|l]; cbn [imap_set_rec].
  - intros E. eapply (Hlast (buf ← read_or_zeros ptr; _ ← retire ptr; mret (splice (leaf_slot ino * INODE_SIZE) bytes buf)) s).
    + apply sm_bind; [apply _|apply steps_read_or_zeros; [apply _|apply typed_read]|]. intros buf.
      apply sm_bind; [apply _|apply typed_retire|]. intros _. apply sm_ret, _.
    + rewrite <- E. rewrite <- bind_assoc. unfold mbind, SM_bind. destruct (read_or_zeros ptr s) as [[buf|e] s1]; [|done].
      by destruct (retire ptr s1) as [[u|e] s2].
  - intros E. eapply (Hlast (buf ← read_or_zeros ptr; _ ← retire ptr;
      c ← imap_set_rec l (ptr_at buf (imap_index ino (Z.of_nat (S l)))) ino bytes;
      mret (set_ptr_at buf (imap_index ino (Z.of_nat (S l))) c)) s).
    + apply sm_bind; [apply _|apply steps_read_or_zeros; [apply _|apply typed_read]|]. intros buf.
      apply sm_bind; [apply _|apply typed_retire|]. intros _. apply sm_bind; [apply _| |intros c; apply sm_ret, _].
      apply steps_imap_set_rec; [apply _|apply typed_read|apply typed_write|apply typed_retire].
    + rewrite <- E. rewrite <- bind_assoc. unfold mbind, SM_bind. destruct (read_or_zeros ptr s) as [[buf|e] s1]; [|done].
      destruct (retire ptr s1) as [[u|e] s2]; [|done]. by destruct (imap_set_rec _ _ _ _ s2) as [[c|e] s3].
Qed.

Lemma typed_with_st (f : Staged -> Staged) :
  (forall s, typed s -> ptr_wf (s_root (f (fs_st s))) /\ in_u 64 (s_height (f (fs_st s))) /\
     in_u 64 (s_next_inode (f (fs_st s))) /\ in_u 64 (s_inode_count (f (fs_st s)))) ->
  steps keeps_typed (with_st f).
Proof. intros Hf s Hs. destruct (Hf s Hs) as (? & ? & ? & ?). destruct Hs. by split. Qed.

Lemma typed_rollback {A} (inner : FM A) : steps keeps_typed inner -> steps keeps_typed (with_rollback inner).
Proof.
  intros Hi s Hs. unfold with_rollback, begin_op, mbind, SM_bind, get, with_st, modify. cbn [mret SM_ret].
  set (s0 := mkFs _ _ _ _ _ _). assert (Hs0 : typed s0) by (by apply (same_types_typed s)).
  unfold on_result. specialize (Hi s0 Hs0). destruct (inner s0) as [[a|[e| |]] s1]; cbn in Hi |- *; [| |done|done].
  - by apply (same_types_typed s1).
  - destruct Hs, Hi. by split.
Qed.

(** The fields that reach the disk keep their ranges through every operation. *)
Lemma typed_op op : steps keeps_typed (run_op op).
Proof.
  apply steps_op; [apply _|apply typed_read|apply typed_write|apply typed_retire|..].
  - intros s. by apply same_types_typed.
  - intros level ptr ino bytes s Hs. unfold mbind, SM_bind.
    destruct (imap_set_rec level ptr ino bytes s) as [[p|e] s1] eqn:E; apply typed_imap_set_rec in E as [Hk Hp];
      [|by apply Hk].
    specialize (Hk Hs). specialize (Hp p Hs eq_refl). destruct Hk. by split.
  - intros buf s Hs. unfold mbind, SM_bind. destruct (write_fresh buf s) as [[p|e] s1] eqn:E;
      apply write_fresh_types in E as [Hk Hp]; apply same_types_typed in Hk; specialize (Hk Hs); [|done].
    specialize (Hp p Hs eq_refl). destruct Hk. split; try done. cbn. apply wrap_range. lia.
  - unfold alloc_ino. intros s Hs. destruct Hs. split; try done. cbn. apply wrap_range. lia.
  - intros n. apply typed_with_st. intros s []. split_and!; try done. cbn. apply wrap_range. lia.
  - intros f s. by apply same_types_typed.
  - intros A inner. apply typed_rollback.
Qed.

(** ** Commit *)

(** The superblock [commit] writes, with live set [live]. *)
Definition next_sb s (live : Bitmap) : Superblock :=
  mkSb (gen_of s) (h_total_blocks (vol_header (fs_vol s))) (s_root (fs_st s)) (s_height (fs_st s))
    (s_next_inode (fs_st s)) (s_inode_count (fs_st s)) (Bitmap_count live)
    (vol_clock (fs_vol s) (fs_ticks s)) (h_uuid (vol_header (fs_vol s))).

Definition target_slot s : Z := other_slot (c_cur_slot (fs_com s)).

Definition at_dev s (dev : D) (ticks : nat) : Rfs2 D T :=
  mkFs dev (fs_vol s) (fs_com s) (fs_st s) (fs_pins s) ticks.

(** The state after the flip. *)
Definition flipped s (live : Bitmap) (dev : D) : Rfs2 D T :=
  mkFs dev (fs_vol s)
    (mkCom (next_sb s live) (target_slot s) live (c_live_cur (fs_com s)) (c_block_count_mismatch (fs_com s)))
    (mkSt (s_root (fs_st s)) (s_height (fs_st s)) (s_next_inode (fs_st s)) (s_inode_count (fs_st s)) false
       ∅ ∅ ∅ [] (s_cursor (fs_st s)))
    (fs_pins s) (S (fs_ticks s)).

Lemma commit_clean s : s_dirty (fs_st s) = false -> commit s = (Ok tt, s).
Proof. intros Hd. unfold commit, mbind, SM_bind, get. by rewrite Hd. Qed.

(** The steps of a commit that has something to write. *)
Lemma commit_dirty s :
  s_dirty (fs_st s) = true -> sb_gen (c_sb (fs_com s)) < GEN_LIMIT ->
  commit s =
    match flush (fs_dev s) with
    | (Err e, dev) => (Err (Fail e), at_dev s dev (fs_ticks s))
    | (Ok _, dev) =>
        match live_new (fs_com s) (fs_st s) with
        | None => (Err Panicked, at_dev s dev (fs_ticks s))
        | Some live =>
            match write_slot (vol_xform (fs_vol s)) (target_slot s) (next_sb s live) dev with
            | (Err e, dev) => (Err (Fail e), at_dev s dev (S (fs_ticks s)))
            | (Ok _, dev) =>
                match flush dev with
                | (Err e, dev) => (Err (Fail e), at_dev s dev (S (fs_ticks s)))
                | (Ok _, dev) => (Ok tt, flipped s live dev)
                end
            end
        end
    end.
Proof.
  intros Hd Hg. unfold commit, mbind, SM_bind, get. rewrite Hd. cbn [negb].
  rewrite (proj2 (Z.leb_gt GEN_LIMIT _)) by done. unfold on_dev.
  destruct (flush (fs_dev s)) as [[u|e] dev]; [|done]. unfold txn_gen, mbind, SM_bind, get.
  cbn [mret SM_ret fs_com]. destruct (live_new (fs_com s) (fs_st s)) as [live|]; [|done].
  cbn [unwrap mret SM_ret now fs_dev]. fold (gen_of s). unfold write_slot.
  change (other_slot (c_cur_slot (fs_com s))) with (target_slot s).
  fold (next_sb s live). destruct (write_block dev (target_slot s) _) as [[u'|e] dev']; [|done].
  cbn [fs_dev]. by destruct (flush dev') as [[u''|e] dev''].
Qed.

Lemma Bitmap_clear_ok bm i bm' : bm_ok bm -> Bitmap_clear bm i = Some bm' -> bm_ok bm'.
Proof.
  intros [Hw Hl]. unfold Bitmap_clear. destruct (bm_words bm !! _) as [w|] eqn:E; [|done]. cbn [mbind option_bind].
  intros [= <-]. unfold bm_ok, words_ok in *. cbn [bm_words]. rewrite length_insert. split; [|done].
  apply Forall_insert; [done|]. rewrite Forall_lookup in Hw. specialize (Hw _ _ E). unfold in_u in *.
  pose proof (Z.land_nonneg w (not_u 64 (Z.shiftl 1 (i mod 64)))). split; [tauto|].
  destruct (decide (w = 0)) as [-> |Hnz]; [done|].
  apply Z.log2_lt_cancel. rewrite Z.log2_pow2 by lia.
  eapply Z.le_lt_trans; [apply Z.log2_land; [lia|]|].
  - pose proof (Z.mod_pos_bound i 64). unfold not_u. rewrite Z.shiftl_1_l.
    pose proof (Z.pow_lt_mono_r 2 (i mod 64) 64). lia.
  - eapply Z.le_lt_trans; [apply Z.le_min_l|]. apply Z.log2_lt_pow2; lia.
Qed.

Lemma Bitmap_set_ok bm i o bm' : bm_ok bm -> Bitmap_set bm i = Some (o, bm') -> bm_ok bm'.
Proof.
  intros [Hw Hl]. unfold Bitmap_set. destruct (bm_words bm !! _) as [w|] eqn:E; [|done]. cbn [mbind option_bind].
  intros [= _ <-]. unfold bm_ok, words_ok in *. cbn [bm_words]. rewrite length_insert. split; [|done].
  apply Forall_insert; [done|]. rewrite Forall_lookup in Hw. specialize (Hw _ _ E). unfold in_u in *.
  pose proof (Z.mod_pos_bound i 64 ltac:(lia)) as Hm. rewrite Z.shiftl_1_l.
  pose proof (Z.pow_pos_nonneg 2 (i mod 64) ltac:(lia) ltac:(lia)). pose proof (Z.pow_lt_mono_r 2 (i mod 64) 64).
  assert (0 <= Z.lor w (2 ^ (i mod 64))) by (apply Z.lor_nonneg; lia). split; [done|].
  destruct (decide (Z.lor w (2 ^ (i mod 64)) = 0)) as [-> |Hnz]; [done|].
  apply Z.log2_lt_cancel. rewrite Z.log2_pow2 by lia. rewrite Z.log2_lor by lia.
  apply Z.max_lub_lt; [|rewrite Z.log2_pow2; lia]. destruct (decide (w = 0)) as [-> |]; [done|].
  apply Z.log2_lt_pow2; lia.
Qed.

Lemma fold_bm_ok (f : Bitmap -> Z -> option Bitmap) bs :
  (forall bm b bm', bm_ok bm -> f bm b = Some bm' -> bm_ok bm') -> forall acc bm',
  (forall bm, acc = Some bm -> bm_ok bm) -> foldl (fun acc b => bm ← acc; f bm b) acc bs = Some bm' -> bm_ok bm'.
Proof.
  intros Hf. induction bs as [|b bs IH]; intros acc bm' Ha Hr; cbn in Hr; [by apply Ha|].
  eapply IH; [|exact Hr]. intros bm Hbm. destruct acc as [bm0|]; [|done]. cbn in Hbm. eapply Hf; [|done]. by apply Ha.
Qed.

Lemma live_new_ok com st live : bm_ok (c_live_cur com) -> live_new com st = Some live -> bm_ok live.
Proof.
  intros Hok. unfold live_new. destruct (Bitmap_clear_all _ _) as [bm|] eqn:E; [|done]. cbn [mbind option_bind].
  intros Hs. assert (Hbm : bm_ok bm).
  { eapply (fold_bm_ok Bitmap_clear); [exact Bitmap_clear_ok| |exact E]. by intros ? [= <-]. }
  eapply (fold_bm_ok (fun bm b => snd <$> Bitmap_set bm b)); [| |exact Hs].
  - intros bm1 b bm2 Hok1. destruct (Bitmap_set bm1 b) as [[o bm3]|] eqn:E1; [|done]. intros [= <-].
    by eapply Bitmap_set_ok.
  - by intros ? [= <-].
Qed.

Lemma Bitmap_count_range bm : bm_ok bm -> in_u 64 (Bitmap_count bm).
Proof.
  intros [_ Hl]. unfold Bitmap_count, in_u.
  assert (Hc : 0 <= foldr Z.add 0 (count_ones <$> bm_words bm) <= 64 * Z.of_nat (length (bm_words bm))); [|lia].
  clear Hl. induction (bm_words bm) as [|w ws IH]; cbn [fmap list_fmap foldr length]; [lia|].
  assert (0 <= count_ones w <= 64); [|lia]. unfold count_ones.
  pose proof (List.filter_length_le (fun i => Z.testbit w (Z.of_nat i)) (seq 0 64)) as Hf.
  rewrite length_seq in Hf. lia.
Qed.

Lemma next_sb_wf s live : typed s -> bm_ok live -> sb_wf (next_sb s live).
Proof.
  intros Hs Hl. pose proof (Bitmap_count_range live Hl). destruct Hs as [[Ht0 Ht] Hu Hc Hsb _ _ _ Hr Hh Hn Hi].
  split; [|done|done]. cbn [next_sb sb_gen sb_total_blocks sb_inode_map_height sb_next_inode sb_inode_count
    sb_block_count sb_commit_time]. rewrite !Forall_cons. unfold FIRST_DATA_BLOCK in Ht0.
  split_and!; [apply wrap_range; lia|unfold in_u; lia|done..|apply Forall_nil_2].
Qed.

Lemma typed_commit : steps keeps_typed commit.
Proof.
  intros s Hs. destruct (s_dirty (fs_st s)) eqn:Hd; [|by rewrite commit_clean].
  destruct (decide (sb_gen (c_sb (fs_com s)) < GEN_LIMIT)) as [Hg|Hg].
  2: { unfold commit, mbind, SM_bind, get. rewrite Hd. cbn [negb]. rewrite (proj2 (Z.leb_le GEN_LIMIT _)) by lia. done. }
  rewrite commit_dirty by done. assert (Hat : forall dev n, typed (at_dev s dev n)).
  { intros dev n. by apply (same_types_typed s). }
  destruct (flush (fs_dev s)) as [[u|e] dev]; [|apply Hat].
  destruct (live_new (fs_com s) (fs_st s)) as [live|] eqn:Hl; [|apply Hat].
  destruct (write_slot _ _ _ _) as [[u'|e] dev']; [|apply Hat].
  destruct (flush dev') as [[u''|e] dev'']; [|apply Hat].
  pose proof (live_new_ok _ _ _ (ty_cur s Hs) Hl) as Hok. pose proof (next_sb_wf s live Hs Hok).
  destruct Hs. split; try done. cbn. unfold target_slot, other_slot. destruct (_ =? _); auto.
Qed.


End typed.
