(* ===== verification/Rfs2Crash.v ===== *)
(** * Crashes

    A disk with a volatile write cache: writes reach the medium in any order,
    sector by sector, until a flush makes them durable.  Whatever the cache
    held when power failed, mounting the disk again yields the last committed
    generation, or, once the new superblock is complete, the generation being
    committed, never a mixture. *)

From S2P Require Import Prelude Paths Rfs2Layout Rfs2Dirent Rfs2Space Rfs2Bitmap Rfs2Fs Rfs2Ops Rfs2Frame Rfs2Cow Rfs2Typed.

#[local] Open Scope Z_scope.

(** ** The disk *)

Inductive Ev : Type := EvWrite (b : Z) (data : list Z) | EvFlush.

Record LogDisk : Type := mkDisk { ld_size : Z; ld_base : Z -> list Z; ld_log : list Ev }.

(** The value of block [b] after the events. *)
Definition last_write (b : Z) (cur : list Z) (e : Ev) : list Z :=
  match e with EvWrite b' data => if b' =? b then data else cur | EvFlush => cur end.

Definition replay (base : Z -> list Z) (log : list Ev) (b : Z) : list Z := foldl (last_write b) (base b) log.

Definition content (d : LogDisk) : Z -> list Z := replay (ld_base d) (ld_log d).

Definition in_disk (d : LogDisk) (b : Z) : bool := (0 <=? b) && (b <? ld_size d).

#[export] Instance log_disk : BlockDevice LogDisk := {
  total_blocks := ld_size;
  read_block d b := (if in_disk d b then Ok (content d b) else Err RIo, d);
  write_block d b data :=
    if in_disk d b then (Ok tt, mkDisk (ld_size d) (ld_base d) (ld_log d ++ [EvWrite b data])) else (Err RIo, d);
  flush d := (Ok tt, mkDisk (ld_size d) (ld_base d) (ld_log d ++ [EvFlush]))
}.

(** What block [b] may hold on the medium: the values written since the last
    flush, and the one before them. *)
Definition cand_step (b : Z) (cs : list (list Z)) (e : Ev) : list (list Z) :=
  match e with
  | EvWrite b' data => if b' =? b then cs ++ [data] else cs
  | EvFlush => match last cs with Some c => [c] | None => cs end
  end.

Definition cands (base : Z -> list Z) (log : list Ev) (b : Z) : list (list Z) := foldl (cand_step b) [base b] log.

Definition SECTOR_SIZE : nat := 512.

(** [x] is put together, sector by sector, from the candidates. *)
Definition sectors_from (cs : list (list Z)) (x : list Z) : Prop :=
  length x = BLOCK_SIZE /\
  forall k, (k < 8)%nat -> exists c, c ∈ cs /\ slice (k * SECTOR_SIZE) SECTOR_SIZE x = slice (k * SECTOR_SIZE) SECTOR_SIZE c.

(** The medium [I] after a crash at the end of [log]. *)
Definition crash_image (base : Z -> list Z) (log : list Ev) (I : Z -> list Z) : Prop :=
  forall b, match cands base log b with [c] => I b = c | cs => sectors_from cs (I b) end.

Definition image (size : Z) (I : Z -> list Z) : LogDisk := mkDisk size I [].

Lemma content_image size I b : content (image size I) b = I b.
Proof. done. Qed.

(** ** Events and candidates *)

Definition writes_to (b : Z) (e : Ev) : bool := match e with EvWrite b' _ => b' =? b | EvFlush => false end.

Lemma cands_unwritten b log cs :
  forallb (fun e => negb (writes_to b e)) log = true -> length cs = 1%nat -> foldl (cand_step b) cs log = cs.
Proof.
  revert cs. induction log as [|e log IH]; intros cs Hf Hl; [done|]. cbn in *. apply andb_true_iff in Hf as [He Hf].
  destruct cs as [|c [|]]; [done| |done].
  destruct e as [b' data|]; cbn in *; [|by apply IH].
  destruct (b' =? b); [done|]. by apply IH.
Qed.

Lemma replay_unwritten base b log :
  forallb (fun e => negb (writes_to b e)) log = true -> replay base log b = base b.
Proof.
  unfold replay. generalize (base b). induction log as [|e log IH]; intros c Hf; [done|]. cbn in *.
  apply andb_true_iff in Hf as [He Hf]. rewrite IH by done. destruct e as [b' data|]; cbn in *; [|done].
  by destruct (b' =? b).
Qed.

Lemma cands_last base log b : last (cands base log b) = Some (replay base log b).
Proof.
  unfold cands, replay. assert (Hg : forall cs c, last cs = Some c ->
    last (foldl (cand_step b) cs log) = Some (foldl (last_write b) c log)); [|by apply Hg].
  induction log as [|e log IH]; intros cs c Hl; [done|]. cbn. apply IH. destruct e as [b' data|]; cbn.
  - destruct (b' =? b); [|done]. by rewrite last_snoc.
  - by rewrite Hl.
Qed.

Lemma cands_flushed base log b : cands base (log ++ [EvFlush]) b = [replay base log b].
Proof.
  unfold cands. rewrite foldl_app. cbn. fold (cands base log b). by rewrite cands_last.
Qed.

Lemma replay_app base log log' b : replay base (log ++ log') b = foldl (last_write b) (replay base log b) log'.
Proof. unfold replay. by rewrite foldl_app. Qed.

(** A run of the device is a log of writes, without a flush. *)
Lemma dev_run_log W (d d' : LogDisk) :
  dev_run W d d' ->
  ld_size d' = ld_size d /\ ld_base d' = ld_base d /\
  exists evs, ld_log d' = ld_log d ++ evs /\ Forall (fun e => exists b data, e = EvWrite b data /\ W b) evs.
Proof.
  intros Hr. induction Hr as [d|d b d' Hr IH|d b buf d' Hb Hr IH].
  - split_and!; [done|done|]. exists []. by rewrite app_nil_r.
  - exact IH.
  - cbn in IH. destruct (in_disk d b); [|exact IH]. destruct IH as (Hs & Hba & evs & Hl & Hf). cbn in *.
    split_and!; [done|done|]. exists (EvWrite b buf :: evs). rewrite Hl, <- app_assoc. split; [done|].
    constructor; [|done]. by exists b, buf.
Qed.

(** ** Marking reads only what it marks *)

Lemma Bitmap_set_mono bm i o bm' :
  Bitmap_set bm i = Some (o, bm') -> bit bm' i = true /\ forall j, bit bm j = true -> bit bm' j = true.
Proof.
  unfold Bitmap_set, bit. destruct (bm_words bm !! _) as [w|] eqn:Hw; [|done]. cbn [mbind option_bind].
  intros [= _ <-].
  assert (Hlen : (Z.to_nat (i / 64) < length (bm_words bm))%nat) by (by apply lookup_lt_is_Some; eexists).
  pose proof (Z.mod_pos_bound i 64 ltac:(lia)) as Hm. split.
  - rewrite Bitmap_get_spec. cbn [bm_words]. rewrite list_lookup_insert_eq by done. cbn.
    rewrite Z.lor_spec, Z.shiftl_1_l, Z.pow2_bits_true by lia. apply orb_true_r.
  - intros j. rewrite !Bitmap_get_spec. cbn [bm_words].
    destruct (decide (Z.to_nat (i / 64) = Z.to_nat (j / 64))) as [E|E].
    + rewrite <- E, list_lookup_insert_eq, Hw by done. cbn. rewrite Z.lor_spec. by intros ->.
    + by rewrite list_lookup_insert_ne.
Qed.

Section marking.
Context {T : Type} `{BlockTransform T} (x : T).

(** Two disks that hold the same in every block with a set bit. *)
Definition agree (bm : Bitmap) (d d' : LogDisk) : Prop :=
  ld_size d' = ld_size d /\ forall b, bit bm b = true -> content d' b = content d b.

(** A successful marking leaves the disk, only adds bits, and runs the same on
    every disk that agrees on the bits it ends with. *)
Definition local {A} (m : SM (Marking LogDisk) A) : Prop :=
  forall d bm cnt r s', m (mkMarking d bm cnt) = (Ok r, s') ->
    mk_dev s' = d /\ (forall b, bit bm b = true -> bit (mk_bm s') b = true) /\
    forall d', agree (mk_bm s') d d' ->
      m (mkMarking d' bm cnt) = (Ok r, mkMarking d' (mk_bm s') (mk_count s')).

Lemma local_ret {A} (a : A) : local (mret a).
Proof. intros d bm cnt r s' [= <- <-]. done. Qed.

Lemma local_bind {A B} (m : SM (Marking LogDisk) A) (k : A -> SM (Marking LogDisk) B) :
  local m -> (forall a, local (k a)) -> local (m ≫= k).
Proof.
  intros Hm Hk d bm cnt r s'. unfold mbind, SM_bind.
  destruct (m (mkMarking d bm cnt)) as [[a|e] [d1 bm1 c1]] eqn:E; [|done]. intros E2.
  destruct (Hm _ _ _ _ _ E) as (Hd1 & Hb1 & Hx1). cbn in Hd1, Hb1, Hx1. subst d1.
  destruct (Hk a _ _ _ _ _ E2) as (Hd2 & Hb2 & Hx2). split_and!; [done|by auto|].
  intros d' Hag. rewrite (Hx1 d'); [by apply Hx2|]. destruct Hag as [Hs Hc]. split; [done|]. auto.
Qed.

Lemma local_for_each {X} (l : list X) body :
  (forall y, local (body y)) -> local (for_each l body).
Proof.
  intros Hb. induction l as [|y l IH]; [apply local_ret|]. cbn. apply local_bind; [apply Hb|]. by intros _.
Qed.

(** Marking a block and reading it. *)
Lemma local_visit ptr (k : list Z -> SM (Marking LogDisk) unit) :
  (forall buf, local (k buf)) ->
  local (seen ← mark_block (p_block ptr); if seen : bool then mret tt else buf ← mark_read x ptr; k buf).
Proof.
  intros Hk d bm cnt r s'. unfold mbind, SM_bind, mark_block. cbn [mk_bm mk_dev mk_count].
  destruct (Bitmap_set bm (p_block ptr)) as [[old bm1]|] eqn:Es; [|done].
  destruct (Bitmap_set_mono _ _ _ _ Es) as [Hset Hmono]. destruct old.
  { cbn. intros [= <- <-]. split_and!; [done|done|]. done. }
  unfold mark_read, read_ptr_dev. cbn [read_block log_disk mk_dev mk_bm mk_count].
  destruct (in_disk d (p_block ptr)) eqn:Hin; [|done]. destruct (decrypt_block _ _ _ _ _ _) as [buf|e] eqn:Hd; [|done].
  intros E. destruct (Hk buf _ _ _ _ _ E) as (Hd2 & Hb2 & Hx2). split_and!; [done|by auto|].
  intros d' [Hs Hc]. assert (in_disk d' (p_block ptr) = true) as -> by (unfold in_disk in *; by rewrite Hs).
  rewrite (Hc (p_block ptr)) by auto. rewrite Hd. by apply Hx2.
Qed.

Lemma local_mark_bmap h : forall ptr, local (mark_bmap x ptr h).
Proof.
  induction h as [|h IH]; intros ptr; cbn [mark_bmap]; (destruct (is_null ptr); [apply local_ret|]);
    apply local_visit; intros buf; [apply local_ret|]. by apply local_for_each.
Qed.

Lemma local_mark_imap l : forall ptr, local (mark_imap x ptr l).
Proof.
  induction l as [|l IH]; intros ptr; cbn [mark_imap]; (destruct (is_null ptr); [apply local_ret|]);
    apply local_visit; intros buf; apply local_for_each; intros i; [|apply IH].
  cbv zeta. destruct (_ && _); [apply local_mark_bmap|apply local_ret].
Qed.

Lemma mark_tree_local root h d bm n d1 bm1 :
  mark_tree x root h d bm = (Ok n, d1, bm1) ->
  d1 = d /\ forall d', agree bm1 d d' -> mark_tree x root h d' bm = (Ok n, d', bm1).
Proof.
  unfold mark_tree. destruct (mark_imap x root (Z.to_nat h) (mkMarking d bm 0)) as [r s] eqn:E.
  destruct r as [u|f]; [|done]. intros [= <- <- <-]. destruct (local_mark_imap _ _ _ _ _ _ _ E) as (Hd & _ & Hx).
  split; [done|]. intros d' Hag. by rewrite (Hx d' Hag).
Qed.

End marking.

(** ** What mounting an image depends on *)

Section opening.
Context {T : Type} `{BlockTransform T} (x : T) (clock : nat -> Z) (size : Z).

Definition slot_at (I : Z -> list Z) (header : StaticHeader) (slot : Z) : option Superblock :=
  if in_disk (image size I) slot then parse_slot x slot header (I slot) else None.

Lemma read_slot_image I header slot :
  read_slot x slot header (image size I) = (slot_at I header slot, image size I).
Proof.
  unfold read_slot, slot_at. cbn [read_block log_disk]. rewrite content_image.
  by destruct (in_disk (image size I) slot).
Qed.

Definition read_only_of (header : StaticHeader) : bool :=
  negb (Z.land (h_feature_ro_compat header) (not_u 64 KNOWN_RO_COMPAT) =? 0).

(** The steps of a successful mount, up to the marked trees. *)
Record mountable (I : Z -> list Z) (header : StaticHeader) (cur : Superblock) (slot : Z)
    (prev : option Superblock) (marked : Z) (live_cur live_prev : Bitmap) : Prop := {
  mo_size : in_disk (image size I) 0 = true;
  mo_header : header_decode (I 0) = Ok header;
  mo_accepted : header_accepted header (image size I) = true;
  mo_features : negb (Z.land (h_feature_incompat header) (not_u 64 KNOWN_INCOMPAT) =? 0) ||
                negb (h_feature_incompat header =? incompat_features x) = false;
  mo_slots : choose_slot (slot_at I header SB_SLOT_A) (slot_at I header SB_SLOT_B) = Ok (cur, slot, prev);
  mo_cur : mark_tree x (sb_inode_map_root cur) (sb_inode_map_height cur) (image size I)
             (Bitmap_new (h_total_blocks header)) = (Ok marked, image size I, live_cur);
  mo_prev : match prev with
            | None => live_prev = Bitmap_new (h_total_blocks header)
            | Some p => exists n, mark_tree x (sb_inode_map_root p) (sb_inode_map_height p) (image size I)
                          (Bitmap_new (h_total_blocks header)) = (Ok n, image size I, live_prev)
            end
}.

(** The mounted state. *)
Definition mounted_fs (I : Z -> list Z) (header : StaticHeader) (cur : Superblock) (slot marked : Z)
    (live_cur live_prev : Bitmap) : Rfs2 LogDisk T :=
  mkFs (image size I) (mkVol x header (read_only_of header) clock)
    (mkCom cur slot live_cur live_prev (negb (marked =? sb_block_count cur)))
    (mkSt (sb_inode_map_root cur) (sb_inode_map_height cur) (sb_next_inode cur) (sb_inode_count cur) false
       ∅ ∅ ∅ [] 0) ∅ 0.

Lemma open_intro I header cur slot prev marked live_cur live_prev :
  mountable I header cur slot prev marked live_cur live_prev ->
  (open_volume x clock (image size I)).1 = Ok (mounted_fs I header cur slot marked live_cur live_prev).
Proof.
  intros [Hs Hh Ha Hf Hsl Hc Hp]. unfold open_volume. cbn [read_block log_disk]. rewrite Hs, content_image, Hh, Ha.
  cbn [negb]. rewrite Hf.
  rewrite !read_slot_image, Hsl, Hc. destruct prev as [p|]; [destruct Hp as [n ->]|subst live_prev]; done.
Qed.

Lemma open_inv I fs :
  (open_volume x clock (image size I)).1 = Ok fs ->
  exists header cur slot prev marked live_cur live_prev,
    mountable I header cur slot prev marked live_cur live_prev /\
    fs = mounted_fs I header cur slot marked live_cur live_prev.
Proof.
  unfold open_volume. cbn [read_block log_disk]. destruct (in_disk (image size I) 0) eqn:Hs; [|done].
  rewrite content_image. destruct (header_decode (I 0)) as [header|e] eqn:Hh; [|done].
  destruct (header_accepted header (image size I)) eqn:Ha; [|done]. cbn [negb].
  destruct (_ || _) eqn:Hf; [done|].
  rewrite !read_slot_image. destruct (choose_slot _ _) as [[[cur slot] prev]|e] eqn:Hsl; [|done].
  destruct (mark_tree x (sb_inode_map_root cur) _ _ _) as [[[marked|f] d] live_cur] eqn:Hc; [|done].
  destruct (mark_tree_local _ _ _ _ _ _ _ _ Hc) as [-> _].
  destruct prev as [p|].
  - destruct (mark_tree x (sb_inode_map_root p) _ _ _) as [[[n|f] d] live_prev] eqn:Hp; [|done].
    destruct (mark_tree_local _ _ _ _ _ _ _ _ Hp) as [-> _]. intros [= <-].
    exists header, cur, slot, (Some p), marked, live_cur, live_prev. split; [|done]. split; try done. by exists n.
  - intros [= <-]. exists header, cur, slot, None, marked, live_cur, (Bitmap_new (h_total_blocks header)). by split.
Qed.

(** A change of the image outside the header, the current slot and the live
    blocks, with the other slot as before or invalid, is mounted alike. *)
Lemma mountable_agree I J header cur slot prev prev' marked live_cur live_prev live_prev' :
  mountable I header cur slot prev marked live_cur live_prev ->
  J 0 = I 0 ->
  choose_slot (slot_at J header SB_SLOT_A) (slot_at J header SB_SLOT_B) = Ok (cur, slot, prev') ->
  (forall b, bit live_cur b = true -> J b = I b) ->
  ((prev' = prev /\ live_prev' = live_prev /\ forall b, bit live_prev b = true -> J b = I b) \/
   (prev' = None /\ live_prev' = Bitmap_new (h_total_blocks header))) ->
  mountable J header cur slot prev' marked live_cur live_prev'.
Proof.
  intros [Hs Hh Ha Hf Hsl Hc Hp] H0 Hslots Hcur Hprev. split.
  - exact Hs.
  - by rewrite H0.
  - exact Ha.
  - exact Hf.
  - exact Hslots.
  - destruct (mark_tree_local _ _ _ _ _ _ _ _ Hc) as [_ Hx]. apply Hx. split; [done|]. apply Hcur.
  - destruct Hprev as [(-> & -> & Hpb)|[-> ->]]; [|done]. destruct prev as [p|]; [|done]. destruct Hp as [n Hp].
    exists n. destruct (mark_tree_local _ _ _ _ _ _ _ _ Hp) as [_ Hx]. apply Hx. split; [done|]. apply Hpb.
Qed.

End opening.

(** ** One transaction *)

Section transaction.
Context {T : Type} `{TransformLaws T} (x : T) (clock : nat -> Z) (size : Z).

(** The same committed tree: superblock, slot, live set and the contents of
    every live block. *)
Definition same_tree (fs fs' : Rfs2 LogDisk T) : Prop :=
  fs_vol fs' = fs_vol fs /\ fs_st fs' = fs_st fs /\ c_sb (fs_com fs') = c_sb (fs_com fs) /\
  c_cur_slot (fs_com fs') = c_cur_slot (fs_com fs) /\ c_live_cur (fs_com fs') = c_live_cur (fs_com fs) /\
  forall b, bit (c_live_cur (fs_com fs)) b = true -> content (fs_dev fs') b = content (fs_dev fs) b.

(** No pointer of either tree leads to block [b]. *)
Definition unused (com : Committed) (b : Z) : Prop :=
  bit (c_live_cur com) b = false /\ bit (c_live_prev com) b = false.

(** A slot that was being overwritten when power failed is read as before, as
    complete, or as invalid. *)
Definition torn_detected (slot : Z) (header : StaticHeader) (old : list Z) (gen : Z) : Prop :=
  forall sb mix, sb_wf sb -> sb_gen sb = gen -> sectors_from [old; slot_bytes x slot sb] mix ->
    parse_slot x slot header mix = parse_slot x slot header old \/
    parse_slot x slot header mix = parse_slot x slot header (slot_bytes x slot sb) \/
    parse_slot x slot header mix = None.

Definition run_ops (ops : list fs_op) (s : Rfs2 LogDisk T) : Rfs2 LogDisk T :=
  foldl (fun s op => (run_op op s).2) s ops.

Lemma cow_run_ops ops s : cow s (run_ops ops s).
Proof.
  unfold run_ops. revert s. induction ops as [|op ops IH]; intros s; [reflexivity|]. cbn.
  etransitivity; [apply cow_op|apply IH].
Qed.

Lemma typed_run_ops ops s : typed s -> typed (run_ops ops s).
Proof.
  unfold run_ops. revert s. induction ops as [|op ops IH]; intros s Hs; [done|]. cbn. apply IH. by apply typed_op.
Qed.

(** An event of an operation: a write to a block no tree uses. *)
Definition staged_event (com : Committed) (e : Ev) : Prop :=
  exists b data, e = EvWrite b data /\ FIRST_DATA_BLOCK <= b /\ unused com b.

Lemma bit_false bm b : Bitmap_get bm b = Some false -> bit bm b = false.
Proof. unfold bit. by intros ->. Qed.

Lemma ops_events ops fs : fs_dev fs = image size (ld_base (fs_dev fs)) -> fresh_of fs = ∅ ->
  exists evs, fs_dev (run_ops ops fs) = mkDisk size (ld_base (fs_dev fs)) evs /\ Forall (staged_event (fs_com fs)) evs.
Proof.
  intros Hd Hf. destruct (cow_run_ops ops fs) as [_ _ _ Hn Hr]. apply dev_run_log in Hr as (Hs & Hb & evs & Hl & He).
  rewrite Hd in Hs, Hl. cbn in Hs, Hl. exists evs. split.
  - destruct (fs_dev (run_ops ops fs)). cbn in *. congruence.
  - eapply Forall_impl; [exact He|]. intros e (b & data & -> & Hb1 & Hb2). exists b, data.
    destruct (Hn b Hb1) as [?|[Hr [Hc Hp]]]; [done|]. split_and!; [done|lia|]. split; by apply bit_false.
Qed.

Definition logged (d : LogDisk) (evs : list Ev) : LogDisk := mkDisk (ld_size d) (ld_base d) (ld_log d ++ evs).

Lemma logged_nil d : logged d [] = d.
Proof. destruct d. unfold logged. cbn. by rewrite app_nil_r. Qed.

(** The log of a commit: nothing, a flush, or the flip. *)
Lemma commit_events s : typed s ->
  exists tail, fs_dev (commit s).2 = logged (fs_dev s) tail /\
    (tail = [] \/ tail = [EvFlush] \/
     exists live, sb_wf (next_sb s live) /\ in_disk (fs_dev s) (target_slot s) = true /\
       tail = [EvFlush; EvWrite (target_slot s) (slot_bytes (vol_xform (fs_vol s)) (target_slot s) (next_sb s live)); EvFlush]).
Proof.
  intros Hs. destruct (s_dirty (fs_st s)) eqn:Hd.
  2: { rewrite commit_clean by done. exists []. rewrite logged_nil. auto. }
  destruct (decide (sb_gen (c_sb (fs_com s)) < GEN_LIMIT)) as [Hg|Hg].
  2: { unfold commit, mbind, SM_bind, get. rewrite Hd. cbn [negb]. rewrite (proj2 (Z.leb_le GEN_LIMIT _)) by lia.
       exists []. rewrite logged_nil. auto. }
  rewrite commit_dirty by done. cbn [flush log_disk].
  destruct (live_new (fs_com s) (fs_st s)) as [live|] eqn:Hl; [|exists [EvFlush]; auto].
  unfold write_slot. cbn [write_block log_disk]. unfold in_disk at 1. cbn [ld_size].
  fold (in_disk (fs_dev s) (target_slot s)). destruct (in_disk (fs_dev s) (target_slot s)) eqn:Hin.
  - cbn [flush log_disk]. eexists. split; [unfold logged; cbn; by rewrite <- !app_assoc|]. right. right. exists live. split_and!; [|done|done].
    apply next_sb_wf; [done|]. by eapply live_new_ok, Hl; apply ty_cur.
  - exists [EvFlush]. auto.
Qed.

Lemma staged_unwritten com evs b :
  Forall (staged_event com) evs ->
  b < FIRST_DATA_BLOCK \/ bit (c_live_cur com) b = true \/ bit (c_live_prev com) b = true ->
  forallb (fun e => negb (writes_to b e)) evs = true.
Proof.
  intros He Hb. apply forallb_forall. intros e Hin%list_elem_of_In. rewrite Forall_forall in He.
  destruct (He e Hin) as (b' & data & -> & Hge & [Hc Hp]). cbn. apply negb_true_iff, Z.eqb_neq. intros ->.
  destruct Hb as [?|[?|?]]; [lia|congruence|congruence].
Qed.

Lemma choose_slot_cur sa sb cur slot prev :
  choose_slot sa sb = Ok (cur, slot, prev) ->
  (slot = SB_SLOT_A /\ sa = Some cur /\ choose_slot sa None = Ok (cur, slot, None)) \/
  (slot = SB_SLOT_B /\ sb = Some cur /\ choose_slot None sb = Ok (cur, slot, None)).
Proof.
  unfold choose_slot. destruct sa as [a|], sb as [b|]; [|by intros [= <- <- <-]; auto..|done].
  destruct (_ =? _); [done|]. destruct (_ <? _); intros [= <- <- <-]; auto.
Qed.

Lemma unwritten_image base p I b :
  crash_image base p I -> forallb (fun e => negb (writes_to b e)) p = true -> I b = base b.
Proof.
  intros Hi Hf. specialize (Hi b). unfold cands in Hi. by rewrite cands_unwritten in Hi.
Qed.

Section recovery.
Context (I0 : Z -> list Z) (header : StaticHeader) (cur : Superblock) (slot : Z) (prev : option Superblock)
  (marked : Z) (lc lp : Bitmap).
Hypothesis Hm : mountable x size I0 header cur slot prev marked lc lp.

Let fs := mounted_fs x clock size I0 header cur slot marked lc lp.
Let t := other_slot slot.

Lemma other_slot_facts : (slot = SB_SLOT_A /\ t = SB_SLOT_B) \/ (slot = SB_SLOT_B /\ t = SB_SLOT_A).
Proof using clock Hm.
  destruct (choose_slot_cur _ _ _ _ _ (mo_slots _ _ _ _ _ _ _ _ _ _ Hm)) as [(-> & _)|(-> & _)]; [by left|by right].
Qed.

(** The old generation is found when the blocks that matter are unchanged. *)
Lemma recover_old I :
  I 0 = I0 0 -> I slot = I0 slot ->
  (forall b, bit lc b = true \/ bit lp b = true -> I b = I0 b) ->
  slot_at x size I header t = slot_at x size I0 header t \/ slot_at x size I header t = None ->
  exists fs', (open_volume x clock (image size I)).1 = Ok fs' /\ same_tree fs fs'.
Proof using clock Hm.
  intros H0' Hs Hl Ht.
  assert (Hsl : slot_at x size I header slot = slot_at x size I0 header slot) by (unfold slot_at; by rewrite Hs).
  pose proof (mo_slots _ _ _ _ _ _ _ _ _ _ Hm) as Hc. pose proof (choose_slot_cur _ _ _ _ _ Hc) as Hcc.
  assert (Hrec : exists prev' lp', mountable x size I header cur slot prev' marked lc lp').
  { destruct Ht as [Ht|Ht].
    - exists prev, lp. eapply mountable_agree; [exact Hm|done| |by auto|left; auto].
      destruct other_slot_facts as [[E1 E2]|[E1 E2]]; rewrite E2 in Ht; rewrite E1 in Hsl; by rewrite Hsl, Ht.
    - exists None, (Bitmap_new (h_total_blocks header)). eapply mountable_agree; [exact Hm|done| |by auto|by right].
      destruct other_slot_facts as [[E1 E2]|[E1 E2]]; rewrite E2 in Ht; rewrite E1 in Hsl; rewrite Hsl, Ht;
        destruct Hcc as [(? & _ & ?)|(? & _ & ?)]; congruence. }
  destruct Hrec as (prev' & lp' & Hrec). eexists. split; [eapply open_intro; exact Hrec|].
  unfold same_tree. cbn. split_and!; try done. intros b Hb. unfold content. cbn. apply Hl. by left.
Qed.

(** The new generation is found when its superblock is complete. *)
Lemma recover_new I J :
  (forall b, b <> t -> I b = J b) -> J 0 = I0 0 ->
  parse_slot x t header (I t) = parse_slot x t header (J t) ->
  forall fsJ, (open_volume x clock (image size J)).1 = Ok fsJ -> unused (fs_com fsJ) t ->
  exists fs', (open_volume x clock (image size I)).1 = Ok fs' /\ same_tree fsJ fs'.
Proof using clock Hm.
  intros HI HJ0 Hp fsJ HJ Hu. apply open_inv in HJ as (hJ & curJ & slotJ & prevJ & mJ & lcJ & lpJ & HmJ & ->).
  cbn in Hu. destruct Hu as [Hu1 Hu2]. cbn in Hu1, Hu2.
  assert (hJ = header) as ->.
  { pose proof (mo_header _ _ _ _ _ _ _ _ _ _ HmJ) as E. rewrite HJ0, (mo_header _ _ _ _ _ _ _ _ _ _ Hm) in E. congruence. }
  assert (Ht0 : t <> 0) by (destruct other_slot_facts as [[_ ->]|[_ ->]]; done).
  assert (Hst : forall sl, slot_at x size I header sl = slot_at x size J header sl).
  { intros sl. unfold slot_at. change (in_disk (image size I) sl) with (in_disk (image size J) sl).
    destruct (in_disk _ sl); [|done]. destruct (decide (sl = t)) as [-> |Hne]; [done|]. by rewrite HI. }
  assert (HmI : mountable x size I header curJ slotJ prevJ mJ lcJ lpJ).
  { eapply mountable_agree; [exact HmJ|by apply HI|rewrite !Hst; apply (mo_slots _ _ _ _ _ _ _ _ _ _ HmJ)| |].
    - intros b Hb. apply HI. intros ->. congruence.
    - left. split_and!; [done|done|]. intros b Hb. apply HI. intros ->. congruence. }
  eexists. split; [eapply open_intro; exact HmI|]. unfold same_tree. cbn. split_and!; try done.
  intros b Hb. unfold content. cbn. apply HI. intros ->. congruence.
Qed.

End recovery.

(** The prefixes of a log [evs ++ tail] with a tail as [commit] leaves it. *)
Lemma prefix_cases (evs tail p : list Ev) :
  p `prefix_of` evs ++ tail ->
  p `prefix_of` evs \/ exists q, p = evs ++ q /\ q `prefix_of` tail.
Proof.
  intros [k E]. destruct (decide (length p <= length evs)%nat) as [Hl|Hl].
  - left. exists (drop (length p) evs). apply (f_equal (take (length evs))) in E.
    rewrite take_app_length, take_app_ge in E by done. 
    rewrite <- (take_drop (length p) evs) at 1. f_equal.
    rewrite E. rewrite take_app_length'; [done|]. done.
  - right. exists (drop (length evs) p). split.
    + apply (f_equal (take (length evs))) in E. rewrite take_app_length, take_app_le in E by lia.
      rewrite E at 1. by rewrite take_drop.
    + exists k. apply (f_equal (drop (length evs))) in E. rewrite drop_app_length in E. rewrite E.
      rewrite drop_app_le by lia. done.
Qed.

(** A crash while only staged blocks had been written. *)
Lemma crash_staged I0 header cur slot prev marked lc lp evs p I :
  mountable x size I0 header cur slot prev marked lc lp ->
  let fs := mounted_fs x clock size I0 header cur slot marked lc lp in
  Forall (staged_event (fs_com fs)) evs -> (p `prefix_of` evs \/ p = evs ++ [EvFlush]) ->
  crash_image I0 p I -> exists fs', (open_volume x clock (image size I)).1 = Ok fs' /\ same_tree fs fs'.
Proof.
  intros Hm fs He Hp Hi.
  assert (Hun : forall b, b < FIRST_DATA_BLOCK \/ bit lc b = true \/ bit lp b = true -> I b = I0 b).
  { intros b Hb. eapply unwritten_image; [exact Hi|]. destruct Hp as [[k ->]| ->].
    - apply Forall_app in He as [He _]. by eapply staged_unwritten.
    - rewrite forallb_app, (staged_unwritten _ _ b He Hb). done. }
  pose proof (other_slot_facts I0 header cur slot prev marked lc lp Hm) as Hsl.
  assert (Hlow : slot < FIRST_DATA_BLOCK /\ other_slot slot < FIRST_DATA_BLOCK)
    by (destruct Hsl as [[-> ->]|[-> ->]]; done).
  eapply recover_old; [exact Hm|apply Hun; left; done|apply Hun; left; tauto|intros b Hb; apply Hun; tauto|].
  left. unfold slot_at. rewrite (Hun (other_slot slot)) by tauto. done.
Qed.

(** A crash after the new superblock was handed to the disk. *)
Lemma crash_flip I0 header cur slot prev marked lc lp evs sb q I :
  mountable x size I0 header cur slot prev marked lc lp ->
  let fs := mounted_fs x clock size I0 header cur slot marked lc lp in
  let t := other_slot slot in
  let flip := [EvFlush; EvWrite t (slot_bytes x t sb)] in
  Forall (staged_event (fs_com fs)) evs -> unused (fs_com fs) t ->
  torn_detected t header (I0 t) (sb_gen sb) -> sb_wf sb -> q = flip \/ q = flip ++ [EvFlush] ->
  crash_image I0 (evs ++ q) I ->
  (exists fs', (open_volume x clock (image size I)).1 = Ok fs' /\ same_tree fs fs') \/
  (forall fsJ, (open_volume x clock (image size (replay I0 (evs ++ flip ++ [EvFlush])))).1 = Ok fsJ ->
     unused (fs_com fsJ) t ->
     exists fs', (open_volume x clock (image size I)).1 = Ok fs' /\ same_tree fsJ fs').
Proof.
  intros Hm fs t flip He [Hu1 Hu2] Htd Hwf Hq Hi. set (J := replay I0 (evs ++ flip ++ [EvFlush])). cbn in Hu1, Hu2.
  pose proof (other_slot_facts I0 header cur slot prev marked lc lp Hm) as Hsl. fold t in Hsl.
  assert (Ht : t < FIRST_DATA_BLOCK /\ slot < FIRST_DATA_BLOCK /\ slot <> t /\ t <> 0)
    by (destruct Hsl as [[-> ->]|[-> ->]]; done).
  assert (Hrep : forall b, b <> t -> J b = replay I0 evs b).
  { intros b Hb. unfold J. rewrite replay_app. cbn. by rewrite (proj2 (Z.eqb_neq t b)) by congruence. }
  assert (HJt : J t = slot_bytes x t sb) by (unfold J; rewrite replay_app; cbn; by rewrite Z.eqb_refl).
  assert (Hsafe : forall b, b < FIRST_DATA_BLOCK \/ bit lc b = true \/ bit lp b = true -> replay I0 evs b = I0 b).
  { intros b Hb. apply replay_unwritten. by eapply staged_unwritten. }
  assert (Hother : forall b, b <> t -> I b = J b).
  { intros b Hb. rewrite Hrep by done. specialize (Hi b). unfold cands in Hi. rewrite foldl_app in Hi.
    fold (cands I0 evs b) in Hi.
    assert (E : foldl (cand_step b) (cands I0 evs b) q = [replay I0 evs b]).
    { destruct Hq as [-> | ->]; cbn; rewrite cands_last; cbn; by rewrite (proj2 (Z.eqb_neq t b)) by congruence. }
    by rewrite E in Hi. }
  assert (Hkeep : forall b, b <> t -> b < FIRST_DATA_BLOCK \/ bit lc b = true \/ bit lp b = true -> I b = I0 b).
  { intros b Hb Hl. by rewrite Hother, Hrep, Hsafe. }
  destruct Ht as (Ht1 & Hs1 & Hst & Ht0).
  assert (HJ0 : J 0 = I0 0) by (rewrite Hrep, Hsafe; [done|by left|done]).
  assert (Hgo_old : slot_at x size I header t = slot_at x size I0 header t \/ slot_at x size I header t = None ->
            exists fs', (open_volume x clock (image size I)).1 = Ok fs' /\ same_tree fs fs').
  { intros Hsl'. eapply recover_old; [exact Hm|apply Hkeep; [done|by left]|apply Hkeep; [done|by left]| |exact Hsl'].
    intros b Hb. apply Hkeep; [|by right]. intros ->. destruct Hb; congruence. }
  assert (Hgo_new : parse_slot x t header (I t) = parse_slot x t header (J t) ->
            forall fsJ, (open_volume x clock (image size J)).1 = Ok fsJ -> unused (fs_com fsJ) t ->
            exists fs', (open_volume x clock (image size I)).1 = Ok fs' /\ same_tree fsJ fs').
  { intros Hp. eapply recover_new; [exact Hm|exact Hother|exact HJ0|exact Hp]. }
  pose proof (Hi t) as Hit. unfold cands in Hit. rewrite foldl_app in Hit. fold (cands I0 evs t) in Hit.
  destruct Hq as [-> | ->].
  - cbn in Hit. rewrite cands_last, (Hsafe t) in Hit by (by left). cbn in Hit. rewrite Z.eqb_refl in Hit. cbn in Hit.
    unfold slot_at in Hgo_old. change (in_disk (image size I) t) with (in_disk (image size I0) t) in Hgo_old.
    destruct (Htd sb (I t) Hwf eq_refl Hit) as [Hpo|[Hpn|Hno]].
    + left. apply Hgo_old. left. by rewrite Hpo.
    + right. apply Hgo_new. by rewrite HJt.
    + left. apply Hgo_old. right. rewrite Hno. by destruct (in_disk _ t).
  - right. apply Hgo_new. rewrite HJt. cbn in Hit. rewrite cands_last in Hit. cbn in Hit.
    rewrite Z.eqb_refl in Hit. cbn in Hit. by rewrite Hit.
Qed.


End transaction.
