(* ===== verification/Rfs2Torn.v ===== *)
(** * Superblock slots

    What a slot reads as after it was written completely or in part.  A
    complete slot gives its superblock back; on a volume without encryption a
    slot torn between sectors is refused or complete, as long as the slot did
    not already hold a payload of the generation being written. *)

From S2P Require Import Prelude Paths Rfs2Layout Rfs2Space Rfs2Fs Rfs2Crash.

#[local] Open Scope Z_scope.

(** ** A complete slot *)

(** The fields [read_slot] compares with the header. *)
Record sb_matches (header : StaticHeader) (sb : Superblock) : Prop := {
  sm_wf : sb_wf sb;
  sm_gen : sb_gen sb <> 0;
  sm_total : sb_total_blocks sb = h_total_blocks header;
  sm_uuid : sb_uuid sb = h_uuid header
}.

Lemma sb_gen_u64 sb : sb_wf sb -> in_u 64 (sb_gen sb).
Proof. intros [Hu _ _]. by apply Forall_cons in Hu as [? _]. Qed.

Section complete.
Context {T : Type} `{TransformLaws T} (x : T).

Lemma length_slot_bytes slot sb : sb_wf sb -> length (slot_bytes x slot sb) = BLOCK_SIZE.
Proof.
  intros Hw. pose proof (length_sb_payload sb Hw) as Hl. rewrite BLOCK_SIZE_eq. unfold slot_bytes, seal_superblock.
  pose proof (seal_spans x slot (sb_gen sb) (sb_uuid sb) _ Hl) as Hs. cbv zeta in Hs.
  destruct (encrypt_block _ _ _ _ _) as [tag ct]. cbn [fst snd] in Hs.
  rewrite length_put_fields; [done|]. rewrite Hs, Hl. reflexivity.
Qed.

Lemma parse_slot_bytes slot header sb :
  sb_matches header sb -> parse_slot x slot header (slot_bytes x slot sb) = Some sb.
Proof.
  intros [Hw Hg Ht Hu]. unfold parse_slot, slot_bytes.
  destruct (open_seal_superblock x slot (sb_gen sb) (sb_uuid sb) (sb_encode_payload sb)) as (buf & Ho & Hpt);
    [by apply length_sb_payload|by apply sb_gen_u64|].
  rewrite <- Hu, Ho. rewrite (sb_decode_prefix _ (sb_encode_payload sb)).
  2: { apply (f_equal (take 112)) in Hpt. by rewrite !take_take in Hpt. }
  rewrite sb_roundtrip by done. rewrite (proj2 (Z.eqb_neq _ _) Hg), Z.eqb_refl, Ht, Z.eqb_refl. cbn [negb orb].
  by rewrite bool_decide_true.
Qed.

End complete.

(** ** Volumes without encryption *)

Lemma slice_slice {A} o n o' n' (l : list A) :
  (o' + n' <= n)%nat -> slice o' n' (slice o n l) = slice (o + o') n' l.
Proof.
  intros Hn. unfold slice. rewrite skipn_firstn_comm, drop_drop, take_take. f_equal. lia.
Qed.

Lemma sector_part k o n (a b : list Z) :
  (o + n <= SECTOR_SIZE)%nat ->
  slice (k * SECTOR_SIZE) SECTOR_SIZE a = slice (k * SECTOR_SIZE) SECTOR_SIZE b ->
  slice (k * SECTOR_SIZE + o) n a = slice (k * SECTOR_SIZE + o) n b.
Proof. intros Hn E. rewrite <- !(slice_slice _ SECTOR_SIZE) by done. by rewrite E. Qed.

Lemma sb_decode_gen buf sb : sb_decode_payload buf = Ok sb -> sb_gen sb = rd_u64 8 buf.
Proof. unfold sb_decode_payload. destruct (negb _); [done|]. by intros [= <-]. Qed.

(** The parts of a slot that its superblock is read from: the payload in the
    first sector and the trailer in the last. *)
Definition head (buf : list Z) : list Z := slice 0 112 buf.
Definition trailer (buf : list Z) : Z * list Z := (rd_u64 SB_GEN_COPY_OFFSET buf, slice SB_TAG_OFFSET TAG_SIZE buf).

Lemma head_sector a b : slice 0 SECTOR_SIZE a = slice 0 SECTOR_SIZE b -> head a = head b.
Proof. intros E. apply (sector_part 0 0); [cbv; lia|done]. Qed.

Lemma trailer_sector a b :
  slice (7 * SECTOR_SIZE) SECTOR_SIZE a = slice (7 * SECTOR_SIZE) SECTOR_SIZE b -> trailer a = trailer b.
Proof.
  intros E. unfold trailer, rd_u64. f_equal.
  - f_equal. apply (sector_part 7 488); [cbv; lia|done].
  - apply (sector_part 7 496); [cbv; lia|done].
Qed.

Lemma splice_take {A} n (l : list A) : splice 0 (take n l) l = l.
Proof.
  unfold splice. rewrite take_0, length_take. cbn [app Nat.add]. destruct (decide (n <= length l)%nat).
  - rewrite Nat.min_l by done. apply take_drop.
  - rewrite Nat.min_r, take_ge, drop_ge by lia. apply app_nil_r.
Qed.

Lemma identity_parse slot header buf :
  parse_slot Identity slot header buf =
  if bool_decide ((trailer buf).2 = zeros TAG_SIZE) then
    match sb_decode_payload buf with
    | Err _ => None
    | Ok sb =>
        if (sb_gen sb =? 0) || negb (sb_gen sb =? (trailer buf).1) ||
           negb (sb_total_blocks sb =? h_total_blocks header) || negb (bool_decide (sb_uuid sb = h_uuid header))
        then None else Some sb
    end
  else None.
Proof.
  unfold parse_slot, open_superblock, trailer. cbn [decrypt_block identity_transform fst snd].
  destruct (bool_decide _); [|done].
  by rewrite splice_take.
Qed.

(** A slot reads as another one with the same head and trailer. *)
Lemma identity_parse_parts slot header a b :
  head a = head b -> trailer a = trailer b ->
  parse_slot Identity slot header a = parse_slot Identity slot header b.
Proof.
  intros Hh Ht. rewrite !identity_parse, Ht. by rewrite (sb_decode_prefix a b) by (by rewrite <- !slice_0).
Qed.

(** A head of one generation under the trailer of another is refused. *)
Lemma identity_parse_mixed slot header buf :
  rd_u64 8 buf <> (trailer buf).1 -> parse_slot Identity slot header buf = None.
Proof.
  intros Hne. rewrite identity_parse. destruct (bool_decide _); [|done].
  destruct (sb_decode_payload buf) as [sb|e] eqn:Hd; [|done]. apply sb_decode_gen in Hd.
  rewrite Hd, (proj2 (Z.eqb_neq (rd_u64 8 buf) _) Hne). by rewrite orb_true_r.
Qed.

Lemma head_gen a b : head a = head b -> rd_u64 8 a = rd_u64 8 b.
Proof.
  intros E. unfold rd_u64. f_equal. unfold head in E. change 8%nat with (0 + 8)%nat at 1 3.
  rewrite <- (slice_slice 0 112 8 8 a), <- (slice_slice 0 112 8 8 b) by lia. by rewrite E.
Qed.

Lemma head_payload a b : slice 0 SB_PAYLOAD_SIZE a = slice 0 SB_PAYLOAD_SIZE b -> head a = head b.
Proof.
  intros E. unfold head. change (slice 0 112) with (slice (A := Z) (0 + 0) 112).
  rewrite <- (slice_slice 0 SB_PAYLOAD_SIZE 0 112 a), <- (slice_slice 0 SB_PAYLOAD_SIZE 0 112 b) by (cbv; lia).
  by rewrite E.
Qed.

(** The trailer and generation of a sealed slot. *)
Lemma identity_slot_parts slot sb : sb_wf sb ->
  rd_u64 8 (slot_bytes Identity slot sb) = sb_gen sb /\
  trailer (slot_bytes Identity slot sb) = (sb_gen sb, zeros TAG_SIZE).
Proof.
  intros Hw. pose proof (length_sb_payload sb Hw) as Hl. pose proof (sb_gen_u64 sb Hw) as Hg.
  assert (Hsp : spans_ok (length (sb_encode_payload sb)) (map span
    [(0%nat, take SB_PAYLOAD_SIZE (sb_encode_payload sb)); (SB_GEN_COPY_OFFSET, u64 (sb_gen sb));
     (SB_TAG_OFFSET, zeros TAG_SIZE)]) = true).
  { unfold span. cbn [map fst snd]. rewrite length_take, length_zeros, Hl. reflexivity. }
  unfold slot_bytes, seal_superblock. cbn [encrypt_block identity_transform]. split; [|unfold trailer; f_equal].
  - apply sb_roundtrip in Hw as Hr. apply sb_decode_gen in Hr. rewrite Hr. apply head_gen.
    apply head_payload. rewrite (slice_0 _ (sb_encode_payload sb)).
    apply slice_put_fields; [done|in_list|]. by rewrite length_take, Hl.
  - unfold rd_u64. apply rd_field; [done|in_list|done].
  - apply slice_put_fields; [done|in_list|done].
Qed.

(** On a volume without encryption a slot torn while generation [gen] was
    written is as before, complete, or refused, if its payload was not of
    generation [gen] already. *)
Lemma identity_torn_detected slot header old gen :
  rd_u64 8 old <> gen -> torn_detected Identity slot header old gen.
Proof.
  intros Hold sb mix Hw Hg [_ Hmix]. destruct (identity_slot_parts slot sb Hw) as [Hg8 Htr].
  destruct (Hmix 0%nat) as (c0 & Hc0 & E0); [lia|]. destruct (Hmix 7%nat) as (c7 & Hc7 & E7); [lia|].
  apply head_sector in E0. apply trailer_sector in E7. pose proof (head_gen _ _ E0) as Eg.
  apply elem_of_cons in Hc0 as [-> |Hc0%list_elem_of_singleton]; [|subst c0];
    (apply elem_of_cons in Hc7 as [-> |Hc7%list_elem_of_singleton]; [|subst c7]).
  - left. by apply identity_parse_parts.
  - right. right. apply identity_parse_mixed. rewrite E7, Htr, Eg. cbn [fst]. by rewrite Hg.
  - destruct (decide (trailer mix = trailer (slot_bytes Identity slot sb))) as [Et|Et].
    + right. left. by apply identity_parse_parts.
    + right. right. rewrite Htr in Et. destruct (decide ((trailer mix).1 = sb_gen sb)) as [E1|E1].
      * rewrite identity_parse, bool_decide_false; [done|]. intros E2. apply Et.
        rewrite (surjective_pairing (trailer mix)). by rewrite E1, E2.
      * apply identity_parse_mixed. rewrite Eg, Hg8. by apply not_eq_sym.
  - right. left. by apply identity_parse_parts.
Qed.

(** A slot whose first sector is new and whose other sectors are old. *)
Definition first_sector (new old : list Z) : list Z := take SECTOR_SIZE new ++ drop SECTOR_SIZE old.

Lemma first_sector_head new old : length new = BLOCK_SIZE ->
  slice 0 SECTOR_SIZE (first_sector new old) = slice 0 SECTOR_SIZE new.
Proof.
  intros Hl. unfold slice, first_sector. rewrite !drop_0, take_app_le, take_take, Nat.min_id; [done|].
  rewrite length_take, Hl, BLOCK_SIZE_eq. cbv. lia.
Qed.

Lemma first_sector_rest new old k : length new = BLOCK_SIZE -> (0 < k)%nat ->
  slice (k * SECTOR_SIZE) SECTOR_SIZE (first_sector new old) = slice (k * SECTOR_SIZE) SECTOR_SIZE old.
Proof.
  intros Hl Hk. unfold slice, first_sector. f_equal. assert (Hs : length (take SECTOR_SIZE new) = SECTOR_SIZE).
  { rewrite length_take, Hl, BLOCK_SIZE_eq. reflexivity. }
  rewrite drop_app_ge by (rewrite Hs; unfold SECTOR_SIZE; lia). rewrite drop_drop, Hs. f_equal. unfold SECTOR_SIZE. lia.
Qed.

Lemma first_sector_torn new old : length new = BLOCK_SIZE -> length old = BLOCK_SIZE ->
  forall cs, new ∈ cs -> old ∈ cs -> sectors_from cs (first_sector new old).
Proof.
  intros Hn Ho cs Hin Hio. split.
  - unfold first_sector. rewrite length_app, length_take, length_drop, Hn, Ho. pose proof BLOCK_SIZE_Z. unfold SECTOR_SIZE. lia.
  - intros [|k] Hk; [exists new|exists old]; (split; [done|]); [by apply first_sector_head|by apply first_sector_rest; lia].
Qed.

(** On a volume without encryption the generation alone tells whether a
    slot is whole.  A commit torn after its first sector is refused; but when
    the commit that follows, of the same generation, is torn too, before its
    first sector, the slot reads as the superblock of the abandoned commit. *)
Theorem torn_retry_resurrects slot header old sb1 sb2 :
  length old = BLOCK_SIZE -> (trailer old).1 <> sb_gen sb1 ->
  sb_matches header sb1 -> sb_wf sb2 -> sb_gen sb2 = sb_gen sb1 ->
  exists torn1 torn2,
    sectors_from [old; slot_bytes Identity slot sb1] torn1 /\ parse_slot Identity slot header torn1 = None /\
    sectors_from [torn1; slot_bytes Identity slot sb2] torn2 /\ parse_slot Identity slot header torn2 = Some sb1.
Proof.
  intros Hl Ht Hm Hw2 Hg. pose proof (sm_wf _ _ Hm) as Hw1.
  pose proof (length_slot_bytes Identity slot sb1 Hw1) as Hl1. pose proof (length_slot_bytes Identity slot sb2 Hw2) as Hl2.
  destruct (identity_slot_parts slot sb1 Hw1) as [Hg1 Ht1]. destruct (identity_slot_parts slot sb2 Hw2) as [Hg2 Ht2].
  set (new1 := slot_bytes Identity slot sb1) in *. set (new2 := slot_bytes Identity slot sb2) in *.
  set (torn1 := first_sector new1 old).
  assert (Hs1 : sectors_from [old; new1] torn1).
  { apply first_sector_torn; [done|done|apply list_elem_of_further, list_elem_of_here|apply list_elem_of_here]. }
  assert (Hh1 : head torn1 = head new1) by (apply head_sector, first_sector_head; done).
  assert (Hlt : length torn1 = BLOCK_SIZE) by apply Hs1.
  exists torn1, (first_sector torn1 new2). split_and!; [done| | |].
  - apply identity_parse_mixed. rewrite (head_gen _ _ Hh1), Hg1.
    rewrite (trailer_sector _ old) by (apply (first_sector_rest _ _ 7); [done|lia]). by apply not_eq_sym.
  - apply first_sector_torn; [done|done|apply list_elem_of_here|apply list_elem_of_further, list_elem_of_here].
  - rewrite (identity_parse_parts slot header _ new1); [by apply parse_slot_bytes| |].
    + rewrite <- Hh1. by apply head_sector, first_sector_head.
    + rewrite Ht1, <- Hg, <- Ht2. apply trailer_sector. apply (first_sector_rest _ _ 7); [done|lia].
Qed.
