(* ===== verification/Rfs2Mkfs.v ===== *)
(** * A new volume

    [mkfs] writes a header, a superblock slot, an inode-map leaf and the root
    directory; mounting what it wrote finds exactly that. *)

From S2P Require Import Prelude Paths Rfs2Layout Rfs2Dirent Rfs2Space Rfs2Bitmap Rfs2Fs Rfs2Ops Rfs2Frame Rfs2Cow Rfs2Typed Rfs2Crash Rfs2Torn.

#[local] Open Scope Z_scope.

(** ** The inode-map leaf *)

(** The only inode in use is the root's. *)
Definition root_leaf (i : Inode) : list Z := splice (Z.to_nat ROOT_INO * INODE_SIZE) (inode_encode i) block_zeros.

Lemma slice_zeros o n m : (o + n <= m)%nat -> slice o n (zeros m) = zeros n.
Proof. intros Hn. unfold slice, zeros. rewrite drop_replicate, take_replicate. f_equal. lia. Qed.

Lemma root_leaf_root i : inode_wf i -> inode_at (root_leaf i) 1 = i.
Proof.
  intros Hi. unfold inode_at, root_leaf. change (1 * INODE_SIZE)%nat with 128%nat.
  change (Z.to_nat ROOT_INO * INODE_SIZE)%nat with 128%nat. unfold INODE_SIZE.
  pose proof (length_inode_encode i Hi) as Hl. rewrite <- Hl at 2. rewrite slice_splice_same; [by apply inode_roundtrip|].
  rewrite Hl, length_block_zeros. lia.
Qed.

Lemma root_leaf_other i slot : inode_wf i -> (slot < INODES_PER_LEAF)%nat -> slot <> 1%nat ->
  is_used (inode_at (root_leaf i) slot) = false.
Proof.
  intros Hi Hs Hn. unfold inode_at, root_leaf. rewrite slice_splice_other.
  - unfold block_zeros. rewrite slice_zeros; [reflexivity|].
    rewrite BLOCK_SIZE_eq. unfold INODE_SIZE, INODES_PER_LEAF in *. lia.
  - rewrite length_inode_encode, length_block_zeros by done. cbv. lia.
  - rewrite length_inode_encode by done. unfold INODE_SIZE, ROOT_INO in *. lia.
Qed.

(** ** Bitmaps with two bits *)

Lemma Bitmap_new_ok n : 0 <= n < 2 ^ 63 -> bm_ok (Bitmap_new n).
Proof.
  intros Hn. unfold Bitmap_new. split; cbn [bm_words].
  - apply Forall_replicate. unfold in_u. lia.
  - rewrite length_replicate. unfold div_ceil. pose proof (Z.div_mod n 64 ltac:(lia)) as E.
    pose proof (Z.mod_pos_bound n 64 ltac:(lia)). pose proof (Z.div_pos n 64). case_match; lia.
Qed.

Lemma Bitmap_two n a b : 0 <= a < n -> 0 <= b < n -> a <> b ->
  exists bm1 bm2, Bitmap_set (Bitmap_new n) a = Some (false, bm1) /\ Bitmap_set bm1 b = Some (false, bm2) /\
    forall i, 0 <= i < n -> bit bm2 i = true <-> i = a \/ i = b.
Proof.
  intros Ha Hb Hab. destruct (Bitmap_set_in_range _ _ _ (Bitmap_new_get n a Ha)) as [bm1 E1].
  assert (Hg1 : forall j, 0 <= j < n -> Bitmap_get bm1 j = Some (j =? a)).
  { intros j Hj. destruct (Bitmap_set_get _ a j _ _ ltac:(lia) ltac:(lia) E1) as [_ ->].
    rewrite Bitmap_new_get by done. by destruct (j =? a). }
  destruct (Bitmap_set_in_range bm1 b false) as [bm2 E2].
  { rewrite Hg1 by done. f_equal. apply Z.eqb_neq. lia. }
  exists bm1, bm2. split_and!; [done|done|]. intros i Hi. unfold bit.
  destruct (Bitmap_set_get _ b i _ _ ltac:(lia) ltac:(lia) E2) as [_ ->]. rewrite Hg1 by done.
  destruct (Z.eqb_spec i b), (Z.eqb_spec i a); naive_solver.
Qed.

(** ** The root directory's block *)

Definition dot_buf : list Z := match dots_block ROOT_INO ROOT_INO with Ok b => b | Err _ => [] end.

Lemma dots_ok : dots_block ROOT_INO ROOT_INO = Ok dot_buf.
Proof. unfold dot_buf. assert (is_ok (dots_block ROOT_INO ROOT_INO) = true) by (vm_compute; reflexivity). by destruct (dots_block _ _). Qed.

Definition dot_entries : list DirEntryOut := [mkOut ROOT_INO FT_DIR DOT; mkOut ROOT_INO FT_DIR DOTDOT].

Lemma dots_parse : exists ds, parse_block dot_buf = Ok ds /\ entries_out ds = Ok dot_entries.
Proof.
  assert (E : match parse_block dot_buf with Ok ds => entries_out ds | Err e => Err e end = Ok dot_entries)
    by (vm_compute; reflexivity).
  destruct (parse_block dot_buf) as [ds|e]; [|done]. by exists ds.
Qed.

(** ** Writing the volume *)

Section mkfs.
Context {T : Type} `{TransformLaws T} (x : T) (o : MkfsOptions) (d : LogDisk).

Let total := ld_size d.
Let header := mkfs_header x o total.

Definition sealed (b : Z) (buf : list Z) : list Z := (encrypt_block x b 1 (dyn_aad b 1) buf).2.
Definition sealed_ptr (b : Z) (buf : list Z) : BlockPtr := mkPtr b 1 (encrypt_block x b 1 (dyn_aad b 1) buf).1.

Definition new_root : Inode := root_inode (mo_now o) 1 (sealed_ptr FIRST_DATA_BLOCK dot_buf).
Definition leaf_ptr : BlockPtr := sealed_ptr (FIRST_DATA_BLOCK + 1) (root_leaf new_root).
Definition new_sb : Superblock :=
  mkSb 1 total leaf_ptr 0 FIRST_GENERAL_INO 1 2 (mo_now o) (mo_uuid o).

Definition mkfs_log : list Ev :=
  [EvWrite SB_SLOT_A block_zeros; EvWrite SB_SLOT_B block_zeros;
   EvWrite FIRST_DATA_BLOCK (sealed FIRST_DATA_BLOCK dot_buf);
   EvWrite (FIRST_DATA_BLOCK + 1) (sealed (FIRST_DATA_BLOCK + 1) (root_leaf new_root));
   EvWrite 0 (header_encode header); EvFlush;
   EvWrite SB_SLOT_A (slot_bytes x SB_SLOT_A new_sb); EvFlush].

(** What [mkfs] is given: a disk with room for the five blocks, and options
    whose fields fit the header. *)
Hypothesis Hsize : FIRST_DATA_BLOCK + 2 <= total < 2 ^ 63.
Hypothesis Hlabel : (length (mo_label o) <= 64)%nat.
Hypothesis Hheader : header_wf header.
Hypothesis Hnow : in_u 64 (mo_now o).

Lemma write_logged b buf evs : 0 <= b < total ->
  write_dev b buf (logged d evs) = (Ok tt, logged d (evs ++ [EvWrite b buf])).
Proof.
  intros Hb. unfold write_dev. cbn [write_block log_disk]. unfold in_disk. cbn [ld_size logged].
  rewrite (proj2 (Z.leb_le _ _)), (proj2 (Z.ltb_lt _ _)) by lia. cbn [andb]. unfold logged. cbn [ld_size ld_base ld_log].
  by rewrite <- app_assoc.
Qed.

Lemma flush_logged evs : flush_dev (logged d evs) = (Ok tt, logged d (evs ++ [EvFlush])).
Proof. unfold flush_dev. cbn [flush log_disk]. unfold logged. cbn [ld_size ld_base ld_log]. by rewrite <- app_assoc. Qed.

Lemma block_logged b buf evs : 0 <= b < total ->
  mkfs_block x b buf (logged d evs) = (Ok (sealed_ptr b buf), logged d (evs ++ [EvWrite b (sealed b buf)])).
Proof.
  intros Hb. unfold mkfs_block, sealed, sealed_ptr. destruct (encrypt_block x b 1 _ buf) as [tag ct].
  erewrite bind_ok by (by apply write_logged). done.
Qed.

Lemma mkfs_run : mkfs x o d = (Ok tt, logged d mkfs_log).
Proof.
  clear Hheader Hnow. unfold FIRST_DATA_BLOCK in Hsize. replace (mkfs x o d) with (mkfs x o (logged d [])) by (by rewrite logged_nil).
  unfold mkfs.
  erewrite bind_ok by reflexivity. cbv zeta. change (total_blocks (logged d [])) with total.
  rewrite (proj2 (Z.ltb_ge total _)) by (unfold FIRST_DATA_BLOCK; lia).
  erewrite bind_ok by (apply write_logged; unfold SB_SLOT_A; lia).
  erewrite bind_ok by (apply write_logged; unfold SB_SLOT_B; lia).
  rewrite dots_ok. erewrite bind_ok by reflexivity.
  erewrite bind_ok by (apply block_logged; unfold FIRST_DATA_BLOCK; lia).
  fold new_root. fold (root_leaf new_root).
  erewrite bind_ok by (apply block_logged; unfold FIRST_DATA_BLOCK; lia).
  rewrite (proj2 (Nat.ltb_ge _ _)) by done. fold header.
  erewrite bind_ok by (apply write_logged; lia). erewrite bind_ok by apply flush_logged.
  erewrite bind_ok by (apply write_logged; unfold SB_SLOT_A; lia). rewrite flush_logged. done.
Qed.

(** ** Reading it back *)

Let I := content (logged d mkfs_log).

Lemma image_blocks :
  I 0 = header_encode header /\ I SB_SLOT_A = slot_bytes x SB_SLOT_A new_sb /\ I SB_SLOT_B = block_zeros /\
  I FIRST_DATA_BLOCK = sealed FIRST_DATA_BLOCK dot_buf /\
  I (FIRST_DATA_BLOCK + 1) = sealed (FIRST_DATA_BLOCK + 1) (root_leaf new_root).
Proof. clear. unfold I, content. cbn [ld_base ld_log logged]. split_and!; rewrite replay_app; reflexivity. Qed.

Lemma sealed_ptr_wf b buf : 0 <= b < total -> ptr_wf (sealed_ptr b buf).
Proof.
  clear Hheader Hnow Hlabel. intros Hb. split; cbn; [unfold in_u; lia|unfold in_u; lia|apply length_tag].
Qed.

Lemma in_image b J : 0 <= b < total -> in_disk (image total J) b = true.
Proof. intros Hb. unfold in_disk. cbn. apply andb_true_iff. split; [apply Z.leb_le|apply Z.ltb_lt]; lia. Qed.

(** Reading a sealed block of the image. *)
Lemma read_sealed b buf : 0 <= b < total -> I b = sealed b buf ->
  read_ptr_dev x (sealed_ptr b buf) (image total I) = (Ok buf, image total I).
Proof.
  intros Hb HI. unfold read_ptr_dev. cbn [read_block log_disk p_block p_gen p_tag sealed_ptr].
  rewrite in_image, content_image, HI by done. f_equal. apply decrypt_encrypt.
Qed.

Lemma new_root_wf : inode_wf new_root.
Proof.
  clear Hheader Hlabel. unfold FIRST_DATA_BLOCK in Hsize. split; cbn; try done.
  - repeat apply Forall_cons_2; try apply Forall_nil_2; unfold in_u; lia.
  - repeat apply Forall_cons_2; try apply Forall_nil_2; unfold in_u, BS in *; rewrite ?BLOCK_SIZE_Z; lia.
  - apply sealed_ptr_wf. unfold FIRST_DATA_BLOCK. lia.
Qed.

Lemma header_values :
  h_total_blocks header = total /\ h_sb_slot_a header = SB_SLOT_A /\ h_sb_slot_b header = SB_SLOT_B /\
  h_first_data_block header = FIRST_DATA_BLOCK /\ h_feature_incompat header = incompat_features x /\
  h_feature_ro_compat header = RO_COMPAT_HARDLINKS /\ h_uuid header = mo_uuid o.
Proof. unfold header, mkfs_header. by destruct (crypto_fields o) as [[[[[[[]]]]]]]. Qed.

Lemma new_sb_matches : sb_matches header new_sb.
Proof.
  unfold FIRST_DATA_BLOCK in Hsize. destruct header_values as (Ht & _ & _ & _ & _ & _ & Hu).
  split; cbn; [|done|by rewrite Ht|by rewrite Hu]. split; cbn.
  - repeat apply Forall_cons_2; try apply Forall_nil_2; unfold in_u, FIRST_GENERAL_INO in *; lia.
  - apply sealed_ptr_wf. unfold FIRST_DATA_BLOCK. lia.
  - rewrite <- Hu. apply (hw_uuid _ Hheader).
Qed.

(** A zeroed slot holds no superblock, whatever the transform. *)
Lemma parse_zeros slot h : parse_slot x slot h block_zeros = None.
Proof.
  clear. unfold parse_slot, open_superblock. assert (rd_u64 SB_GEN_COPY_OFFSET block_zeros = 0) as ->.
  { unfold rd_u64, block_zeros. rewrite slice_zeros; [done|]. rewrite BLOCK_SIZE_eq. cbv. lia. }
  destruct (decrypt_block _ _ _ _ _ _) as [pt|e]; [|done]. destruct (sb_decode_payload _) as [sb|e]; [|done].
  by destruct (Z.eqb_spec (sb_gen sb) 0).
Qed.

(** Marking the inodes of the leaf. *)
Lemma mark_leaf bm1 bm2 :
  Bitmap_set bm1 FIRST_DATA_BLOCK = Some (false, bm2) ->
  for_each (seq 0 INODES_PER_LEAF) (fun slot =>
    let ino := inode_at (root_leaf new_root) slot in
    if is_used ino && negb (is_fast_symlink ino)
    then mark_bmap x (i_bmap_root ino) (Z.to_nat (i_bmap_height ino)) else mret tt)
    (mkMarking (image total I) bm1 1) = (Ok tt, mkMarking (image total I) bm2 2).
Proof.
  intros Hset. pose proof new_root_wf as Hw.
  change (seq 0 INODES_PER_LEAF) with (0%nat :: 1%nat :: seq 2 30). cbn [for_each].
  erewrite bind_ok. 2: { cbv zeta. rewrite root_leaf_other by (done || cbv; lia). reflexivity. }
  erewrite bind_ok. 2: {
    cbv zeta. rewrite root_leaf_root by done. cbn [is_used new_root root_inode i_flags i_bmap_root i_bmap_height].
    change (is_used new_root && negb (is_fast_symlink new_root)) with true. cbv iota.
    change (Z.to_nat 0) with 0%nat. cbn [mark_bmap]. change (is_null (sealed_ptr FIRST_DATA_BLOCK dot_buf)) with false. cbv iota.
    erewrite bind_ok by (unfold mark_block; cbn [mk_bm p_block sealed_ptr]; rewrite Hset; reflexivity). cbv iota.
    erewrite bind_ok; [reflexivity|]. unfold mark_read. cbn [mk_dev]. rewrite read_sealed; [reflexivity| |apply image_blocks].
    unfold FIRST_DATA_BLOCK in *. lia. }
  assert (Hrest : forall l s, Forall (fun n => n < 32 /\ n <> 1)%nat l -> for_each l (fun slot =>
    let ino := inode_at (root_leaf new_root) slot in
    if is_used ino && negb (is_fast_symlink ino)
    then mark_bmap x (i_bmap_root ino) (Z.to_nat (i_bmap_height ino)) else mret tt) s = (Ok tt, s)).
  { intros l s Hl. revert s. induction Hl as [|n l [Hn1 Hn2] Hl IH]; intros s; [done|]. cbn [for_each].
    erewrite bind_ok; [apply IH|]. cbv zeta. by rewrite root_leaf_other. }
  rewrite Hrest; [done|]. apply Forall_forall. intros n Hn%elem_of_seq. lia.
Qed.

Hypothesis Hfeatures : Z.land (incompat_features x) (not_u 64 KNOWN_INCOMPAT) = 0.

Lemma new_mountable : exists live,
  mountable x total I header new_sb SB_SLOT_A None 2 live (Bitmap_new total) /\ bm_ok live /\
  forall b, 0 <= b < total -> bit live b = true <-> b = FIRST_DATA_BLOCK \/ b = FIRST_DATA_BLOCK + 1.
Proof.
  destruct (Bitmap_two total (FIRST_DATA_BLOCK + 1) FIRST_DATA_BLOCK) as (bm1 & bm2 & E1 & E2 & Hbits);
    [unfold FIRST_DATA_BLOCK in *; lia..|].
  exists bm2. destruct image_blocks as (HI0 & HIA & HIB & HI3 & HI4).
  destruct header_values as (Ht & Ha & Hb & Hf & Hi & Hr & Hu). split_and!.
  - split.
    + apply in_image. unfold FIRST_DATA_BLOCK in *. lia.
    + rewrite HI0. by apply header_roundtrip.
    + unfold header_accepted. change (total_blocks (image total I)) with total.
      by rewrite Ht, Ha, Hb, Hf, (proj2 (Z.ltb_ge total total)) by lia.
    + by rewrite Hi, Hfeatures, !Z.eqb_refl.
    + unfold slot_at. rewrite !in_image by (unfold SB_SLOT_A, SB_SLOT_B, FIRST_DATA_BLOCK in *; lia).
      rewrite HIA, HIB, parse_zeros, parse_slot_bytes by apply new_sb_matches. done.
    + unfold mark_tree. cbn [sb_inode_map_root sb_inode_map_height new_sb]. change (Z.to_nat 0) with 0%nat.
      cbn [mark_imap]. change (is_null leaf_ptr) with false. cbv iota. rewrite Ht.
      erewrite bind_ok by (unfold mark_block; cbn [mk_bm]; change (p_block leaf_ptr) with (FIRST_DATA_BLOCK + 1);
        rewrite E1; reflexivity). cbv iota.
      erewrite bind_ok.
      2: { unfold mark_read. cbn [mk_dev mk_bm mk_count]. unfold leaf_ptr. rewrite read_sealed;
             [reflexivity|unfold FIRST_DATA_BLOCK in *; lia|exact HI4]. }
      match goal with |- context [for_each ?l ?f ?s] =>
        change (for_each l f s) with (for_each l f (mkMarking (image total I) bm1 1)) end.
      pose proof (mark_leaf _ _ E2) as Hml. cbv zeta in Hml. by rewrite Hml.
    + by rewrite Ht.
  - eapply Bitmap_set_ok, E2. eapply Bitmap_set_ok, E1. apply Bitmap_new_ok. unfold FIRST_DATA_BLOCK in *. lia.
  - intros b Hb'. rewrite (Hbits b Hb'). tauto.
Qed.

Section mounting.
Context (clock : nat -> Z).
Hypothesis Hclock : forall n, in_u 64 (clock n).

Lemma new_typed live : bm_ok live ->
  typed (mounted_fs x clock total I header new_sb SB_SLOT_A 2 live (Bitmap_new total)).
Proof.
  intros Hok. pose proof new_sb_matches as [Hw _ _ _]. pose proof Hw as [_ Hroot _]. destruct header_values as (Ht & _).
  unfold FIRST_DATA_BLOCK in Hsize. split; cbn; try done.
  - rewrite Ht. unfold FIRST_DATA_BLOCK. lia.
  - apply (hw_uuid _ Hheader).
  - by left.
  - apply Bitmap_new_ok. lia.
Qed.

Lemma new_volume : exists live,
  let fs := mounted_fs x clock total I header new_sb SB_SLOT_A 2 live (Bitmap_new total) in
  (open_volume x clock (image total I)).1 = Ok fs /\ typed fs /\
  forall b, 0 <= b < total -> bit live b = true <-> b = FIRST_DATA_BLOCK \/ b = FIRST_DATA_BLOCK + 1.
Proof.
  destruct new_mountable as (live & Hm & Hok & Hbits). exists live. intros fs.
  split_and!; [by apply open_intro with (prev := None)|by apply new_typed|done].
Qed.

(** Looking up an inode of the leaf. *)
Lemma new_inode live ino :
  let fs := mounted_fs x clock total I header new_sb SB_SLOT_A 2 live (Bitmap_new total) in
  let inode := inode_at (root_leaf new_root) (leaf_slot ino) in
  0 <= ino < 32 -> imap_get ino fs = (Ok (if is_used inode then Some inode else None), fs).
Proof.
  intros fs inode Hino. unfold imap_get. erewrite bind_ok by reflexivity. cbn [fs_st fs mounted_fs s_height s_root new_sb].
  change (imap_capacity _) with 32. rewrite (proj2 (Z.leb_gt 32 ino)) by lia. erewrite bind_ok by reflexivity. cbv iota.
  erewrite bind_ok; [done|].
  unfold read_ptr. erewrite bind_ok by reflexivity. unfold on_dev. cbn [fs_dev fs_vol fs mounted_fs vol_xform].
  change (sb_inode_map_root new_sb) with leaf_ptr. unfold leaf_ptr. rewrite read_sealed;
    [reflexivity|unfold FIRST_DATA_BLOCK in *; lia|apply image_blocks].
Qed.

Lemma new_root_inode live :
  let fs := mounted_fs x clock total I header new_sb SB_SLOT_A 2 live (Bitmap_new total) in
  imap_get ROOT_INO fs = (Ok (Some new_root), fs).
Proof.
  intros fs. unfold fs. rewrite new_inode by (unfold ROOT_INO; lia). change (leaf_slot ROOT_INO) with 1%nat.
  by rewrite root_leaf_root by apply new_root_wf.
Qed.

(** No orphans: the root is linked and the other inodes are free. *)
Lemma new_no_orphans live :
  let fs := mounted_fs x clock total I header new_sb SB_SLOT_A 2 live (Bitmap_new total) in
  reclaim_orphans fs = (Ok tt, fs).
Proof.
  intros fs. unfold reclaim_orphans. erewrite bind_ok by reflexivity.
  assert (Hno : forall n ino, 1 <= ino -> ino + Z.of_nat n <= 32 -> find_orphans n ino fs = (Ok [], fs)).
  { induction n as [|n IH]; intros ino Hi Hn; [done|]. cbn [find_orphans].
    erewrite bind_ok by (apply new_inode; lia). erewrite bind_ok by (apply IH; lia). cbv zeta.
    destruct (decide (ino = ROOT_INO)) as [-> |Hne].
    - change (leaf_slot ROOT_INO) with 1%nat. by rewrite root_leaf_root by apply new_root_wf.
    - assert (Hls : leaf_slot ino = Z.to_nat ino).
      { unfold leaf_slot. change (Z.of_nat INODES_PER_LEAF - 1) with (Z.ones 5).
        rewrite Z.land_ones, Z.mod_small by lia. done. }
      rewrite Hls, root_leaf_other; [done|apply new_root_wf| |]; unfold ROOT_INO, INODES_PER_LEAF in *; lia. }
  change (s_next_inode (fs_st _)) with 10. change (Z.to_nat (10 - 1)) with 9%nat. erewrite bind_ok by (apply Hno; lia). done.
Qed.

(** The listing of the root directory. *)
Lemma new_root_listing live :
  let fs := mounted_fs x clock total I header new_sb SB_SLOT_A 2 live (Bitmap_new total) in
  readdir [SLASH] fs = (Ok dot_entries, fs).
Proof.
  intros fs. destruct dots_parse as (ds & Hp & He). unfold readdir.
  erewrite bind_ok by reflexivity.
  erewrite bind_ok by (unfold get_inode_req; erewrite bind_ok by apply new_root_inode; reflexivity).
  change (negb (is_dir new_root)) with false. cbv iota. change (nblocks new_root) with (Z.to_nat (BS / BS)).
  rewrite Z.div_same by (unfold BS; rewrite BLOCK_SIZE_Z; done). change (Z.to_nat 1) with 1%nat. cbn [readdir_from].
  erewrite bind_ok.
  2: { unfold dir_block. erewrite bind_ok by reflexivity. change (is_null _) with false. cbv iota.
       unfold read_ptr. erewrite bind_ok by reflexivity. unfold on_dev. cbn [fs_dev fs_vol fs mounted_fs vol_xform].
       change (i_bmap_root new_root) with (sealed_ptr FIRST_DATA_BLOCK dot_buf). rewrite read_sealed;
         [reflexivity|unfold FIRST_DATA_BLOCK in *; lia|apply image_blocks]. }
  rewrite Hp. erewrite bind_ok by reflexivity. rewrite He. erewrite bind_ok by reflexivity. done.
Qed.

End mounting.
End mkfs.

(** ** Formatting and mounting *)

(** What [mkfs] is given: room for the five blocks, options whose fields fit the
    header, and a transform with features this version knows. *)
Record mkfs_args {T} `{TransformLaws T} (x : T) (o : MkfsOptions) (d : LogDisk) : Prop := {
  ma_size : FIRST_DATA_BLOCK + 2 <= ld_size d < 2 ^ 63;
  ma_label : (length (mo_label o) <= 64)%nat;
  ma_header : header_wf (mkfs_header x o (ld_size d));
  ma_now : in_u 64 (mo_now o);
  ma_features : Z.land (incompat_features x) (not_u 64 KNOWN_INCOMPAT) = 0
}.

(** The volume [mkfs] leaves, mounted. *)
Definition fresh_volume {T} `{TransformLaws T} (x : T) (o : MkfsOptions) (d : LogDisk) (clock : nat -> Z)
    (fs : Rfs2 LogDisk T) : Prop :=
  exists live, fs = mounted_fs x clock (ld_size d) (content (logged d (mkfs_log x o d)))
    (mkfs_header x o (ld_size d)) (new_sb x o d) SB_SLOT_A 2 live (Bitmap_new (ld_size d)) /\
  forall b, 0 <= b < ld_size d -> bit live b = true <-> b = FIRST_DATA_BLOCK \/ b = FIRST_DATA_BLOCK + 1.

Lemma mkfs_opens {T} `{TransformLaws T} (x : T) o d clock :
  mkfs_args x o d -> (forall n, in_u 64 (clock n)) ->
  exists fs, (open_volume x clock (image (ld_size d) (content (logged d (mkfs_log x o d))))).1 = Ok fs /\
    typed fs /\ fresh_volume x o d clock fs.
Proof.
  intros [Hs Hl Hh Hn Hf] Hc. destruct (new_volume x o d Hs Hl Hh Hn Hf clock Hc) as (live & Ho & Hty & Hb).
  eexists. split_and!; [exact Ho|exact Hty|]. by exists live.
Qed.

(** C12. Formatting a disk and mounting it.  On a disk of at least five blocks
    [mkfs] succeeds, and what it wrote mounts: the superblock is the one
    written, of generation 1, exactly the two blocks of the root directory and
    of the inode map are live, nothing is reclaimed, the root inode is the
    directory written, and it lists [.] and [..], both the root itself. *)
Theorem mkfs_mounts {T} `{TransformLaws T} (x : T) o d clock :
  mkfs_args x o d -> (forall n, in_u 64 (clock n)) ->
  exists d' fs, mkfs x o d = (Ok tt, d') /\
    (mount x clock (image (ld_size d) (content d'))).1 = Ok fs /\
    c_sb (fs_com fs) = new_sb x o d /\
    (forall b, 0 <= b < ld_size d -> bit (c_live_cur (fs_com fs)) b = true <-> b = FIRST_DATA_BLOCK \/ b = FIRST_DATA_BLOCK + 1) /\
    imap_get ROOT_INO fs = (Ok (Some (new_root x o)), fs) /\
    readdir [SLASH] fs = (Ok dot_entries, fs).
Proof.
  intros Ha Hc. destruct (mkfs_opens x o d clock Ha Hc) as (fs & Ho & _ & live & -> & Hb). destruct Ha as [Hs Hl Hh Hn Hf].
  eexists _, (mounted_fs x clock (ld_size d) _ _ _ _ _ live _).
  split_and!; [by apply mkfs_run| |reflexivity|exact Hb|by apply new_root_inode|by apply new_root_listing].
  unfold mount. destruct (open_volume x clock _) as [r dev] eqn:E. cbn [fst] in Ho. subst r.
  assert (Hro : vol_read_only (fs_vol (mounted_fs x clock (ld_size d) (content (logged d (mkfs_log x o d)))
    (mkfs_header x o (ld_size d)) (new_sb x o d) SB_SLOT_A 2 live (Bitmap_new (ld_size d)))) = false).
  { cbn. unfold read_only_of. destruct (header_values x o d) as (_ & _ & _ & _ & _ & -> & _). done. }
  rewrite Hro. cbn [negb andb]. change (sb_gen _ <? GEN_LIMIT) with true. cbv iota. by rewrite new_no_orphans.
Qed.

(** A disk of 16 blocks, and a volume without encryption on it. *)
Definition demo_opts : MkfsOptions := mkMkfs (zeros 16) [] 0 None.
Definition blank_disk (n : Z) : LogDisk := image n (fun _ => block_zeros).
Definition demo_disk : LogDisk := blank_disk 16.
Definition demo_clock (n : nat) : Z := 0.

Lemma demo_args n : 5 <= n < 2 ^ 63 -> mkfs_args Identity demo_opts (blank_disk n).
Proof.
  intros Hn. split; [exact Hn|cbv; lia| |unfold in_u; cbn; lia|reflexivity].
  split; cbn; try done; try (repeat apply Forall_cons_2; try apply Forall_nil_2; unfold in_u; cbn; lia).
  apply Forall_cons_2; [unfold in_u; lia|]. repeat apply Forall_cons_2; try apply Forall_nil_2; cbv; by split.
Qed.

Lemma demo_clock_ok n : in_u 64 (demo_clock n).
Proof. unfold in_u, demo_clock. lia. Qed.

Lemma mkfs_mounts_witness :
  exists d' fs, mkfs Identity demo_opts demo_disk = (Ok tt, d') /\
    (mount Identity demo_clock (image 16 (content d'))).1 = Ok fs /\ readdir [SLASH] fs = (Ok dot_entries, fs).
Proof.
  destruct (mkfs_mounts Identity demo_opts demo_disk demo_clock (demo_args 16 ltac:(lia)) demo_clock_ok) as (d' & fs & Hm & Hf & _ & _ & _ & Hr).
  exists d', fs. split; [exact Hm|split; [exact Hf|exact Hr]].
Defined.

(** ** The theorems on volumes apply to a new volume *)

Definition demo_image : Z -> list Z := content (logged demo_disk (mkfs_log Identity demo_opts demo_disk)).

Lemma demo_volume : exists fs, (open_volume Identity demo_clock (image 16 demo_image)).1 = Ok fs /\
  typed fs /\ fresh_volume Identity demo_opts demo_disk demo_clock fs.
Proof. exact (mkfs_opens Identity demo_opts demo_disk demo_clock (demo_args 16 ltac:(lia)) demo_clock_ok). Qed.

Definition demo_path : str := [SLASH; 97].



Lemma torn_retry_resurrects_witness :
  exists torn1 torn2,
    parse_slot Identity SB_SLOT_B (mkfs_header Identity demo_opts 16) torn1 = None /\
    parse_slot Identity SB_SLOT_B (mkfs_header Identity demo_opts 16) torn2 = Some (new_sb Identity demo_opts demo_disk).
Proof.
  set (sb := new_sb Identity demo_opts demo_disk).
  assert (Hm : sb_matches (mkfs_header Identity demo_opts 16) sb).
  { destruct (demo_args 16 ltac:(lia)) as [Hs Hl Hh Hn Hf]. exact (new_sb_matches Identity demo_opts demo_disk Hs Hl Hh Hn). }
  destruct (torn_retry_resurrects SB_SLOT_B (mkfs_header Identity demo_opts 16) block_zeros sb sb) as (t1 & t2 & _ & Hp1 & _ & Hp2).
  - unfold block_zeros. apply length_zeros.
  - unfold trailer, rd_u64, block_zeros. cbn [fst]. rewrite slice_zeros; [done|]. rewrite BLOCK_SIZE_eq. cbv. lia.
  - exact Hm.
  - exact (sm_wf _ _ Hm).
  - reflexivity.
  - exists t1, t2. split; [exact Hp1|exact Hp2].
Defined.
