(* ===== verification/Rfs2Faults.v ===== *)
(** * Failed operations

    What an operation that returns an error leaves behind: the staged tree as
    it was, and the blocks it allocated, burned until the next commit.  Two
    consequences the source does not intend: a volume that fills up with
    nothing staged cannot be written until it is mounted again, and blocks an
    earlier operation of the same transaction staged can be counted as
    free. *)

From S2P Require Import Prelude Paths Rfs2Layout Rfs2Dirent Rfs2Space Rfs2Bitmap Rfs2Fs Rfs2Ops Rfs2Frame Rfs2Cow Rfs2Halts Rfs2Typed Rfs2Crash Rfs2Mkfs.

#[local] Open Scope Z_scope.

(** ** Rollback *)

Section rollback.
Context {D : Type} `{BlockDevice D} {T : Type} `{BlockTransform T}.
Implicit Types s : Rfs2 D T.

Abbreviation FM := (SM (Rfs2 D T)).

(** The staged tree and its counters: what [begin_op] saves. *)
Definition staged_view s : BlockPtr * Z * Z * Z * bool * gset Z :=
  let st := fs_st s in
  (s_root st, s_height st, s_next_inode st, s_inode_count st, s_dirty st, s_retired st).

Definition same_view s s' : Prop := staged_view s' = staged_view s.

#[local] Instance same_view_preorder : PreOrder same_view.
Proof. unfold same_view. split; [done|]. intros s1 s2 s3. congruence. Qed.

Lemma view_read ptr : steps same_view (read_ptr ptr).
Proof. intros s. unfold read_ptr, mbind, SM_bind, get, on_dev. by destruct (read_ptr_dev _ _ _) as [[]]. Qed.

(** [m] may fail only with the view it started from. *)
Definition undoes {A} (m : FM A) : Prop := forall s e s', m s = (Err (Fail e), s') -> same_view s s'.

Lemma steps_undoes {A} (m : FM A) : steps same_view m -> undoes m.
Proof. intros Hm s e s' E. specialize (Hm s). by rewrite E in Hm. Qed.

Lemma rollback_undoes {A} (inner : FM A) : undoes (with_rollback inner).
Proof.
  intros s e s'. unfold with_rollback, begin_op. unfold mbind, SM_bind, get, with_st, modify, mret, SM_ret, on_result.
  cbn [fs_st]. set (s0 := mkFs _ _ _ _ _ _). destruct (inner s0) as [[a|[e'| |]] s1]; [done| |done|done].
  cbn. by intros [= _ <-].
Qed.

Lemma operation_undoes {A} (inner : FM A) : undoes (operation inner).
Proof.
  intros s e s'. unfold operation, check_rw. unfold mbind, SM_bind, get, fail, throw, mret, SM_ret.
  destruct (vol_read_only _); [by intros [= _ <-]|]. destruct (_ <=? _); [by intros [= _ <-]|]. apply rollback_undoes.
Qed.

Lemma discard_undoes {A} (m : FM A) : undoes m -> undoes (discard m).
Proof.
  intros Hm s e s'. unfold discard, mbind, SM_bind. destruct (m s) as [[a|f] s1] eqn:E; [done|].
  intros [= -> <-]. by eapply Hm.
Qed.

Lemma undoes_bind {A B} (m : FM A) (k : A -> FM B) :
  steps same_view m -> (forall a, undoes (k a)) -> undoes (m ≫= k).
Proof.
  intros Hm Hk s e s'. unfold mbind, SM_bind. specialize (Hm s). destruct (m s) as [[a|f] s1]; cbn in Hm.
  - intros E. etransitivity; [exact Hm|]. by eapply Hk.
  - by intros [= -> <-].
Qed.

Lemma view_pins f : steps same_view (with_pins f).
Proof. by intros s. Qed.

#[local] Hint Resolve steps_lookup steps_get_inode_req steps_readdir_from steps_read_blocks view_read view_pins
  steps_require steps_imap_get : sm.

Lemma unpin_undoes ino : undoes (unpin ino).
Proof.
  unfold unpin. cbv zeta. apply undoes_bind; [sm_step|intros s]. apply undoes_bind; [sm_step|intros count].
  apply undoes_bind; [sm_step|intros _]. destruct (_ <? _); [apply steps_undoes; sm_step|].
  apply undoes_bind; [sm_step|intros _]. destruct (_ || _); [apply steps_undoes; sm_step|].
  apply undoes_bind; [sm_step|intros [inode|]]; [|apply steps_undoes; sm_step].
  destruct (_ =? _); [apply rollback_undoes|apply steps_undoes; sm_step].
Qed.

(** No operation that fails changes the staged tree. *)
Lemma op_undoes op : undoes (run_op op).
Proof.
  destruct op; cbn [run_op]; repeat first [apply discard_undoes | apply operation_undoes | apply unpin_undoes]; apply steps_undoes;
    unfold read_at, stat, readdir, readlink, pin; cbv zeta; repeat sm_step.
Qed.

End rollback.

(** A device on which a write changes the block it names and nothing else, and
    a read changes nothing. *)
Lemma dev_run_content W (d d' : LogDisk) b : dev_run W d d' -> ~ W b -> content d' b = content d b.
Proof.
  intros Hr Hb. apply dev_run_log in Hr as (_ & Hba & evs & Hl & Hf). unfold content. rewrite Hba, Hl, replay_app.
  assert (Hk : forall c, foldl (last_write b) c evs = c); [|apply Hk]. clear Hl.
  induction Hf as [|e evs (b' & data & -> & Hw) Hf IH]; intros c; [done|]. cbn.
  rewrite (proj2 (Z.eqb_neq b' b)) by (by intros ->). apply IH.
Qed.



(** ** A full volume with nothing staged *)

Section full.
Context {D : Type} `{BlockDevice D} {T : Type} `{BlockTransform T}.
Implicit Types s : Rfs2 D T.

Abbreviation FM := (SM (Rfs2 D T)).

(** The search for a free block fails. *)
Definition full s : Prop :=
  alloc_scan (fs_com s) (fresh_of s) (s_cursor (fs_st s)) (span_of s) (Z.to_nat (span_of s)) 0 = Err (Fail RNoSpace).

Definition wedged s : Prop := s_dirty (fs_st s) = false /\ full s.

Definition stays s s' : Prop := wedged s -> wedged s'.

#[local] Instance stays_preorder : PreOrder stays.
Proof. unfold stays. split; [by intros s|]. intros s1 s2 s3. tauto. Qed.

(** What being wedged depends on. *)
Lemma stays_same s s' :
  fs_vol s' = fs_vol s -> fs_com s' = fs_com s -> fresh_of s' = fresh_of s ->
  s_cursor (fs_st s') = s_cursor (fs_st s) -> s_dirty (fs_st s') = s_dirty (fs_st s) -> stays s s'.
Proof. intros Hv Hc Hf Hcu Hd [Hd' Hfull]. split; [congruence|]. unfold full, span_of in *. by rewrite Hv, Hc, Hf, Hcu. Qed.

Lemma stays_with_st f :
  (forall st, s_fresh (f st) = s_fresh st /\ s_cursor (f st) = s_cursor st /\ s_dirty (f st) = s_dirty st) ->
  steps stays (with_st f).
Proof. intros Hf s. destruct (Hf (fs_st s)) as (? & ? & ?). by apply stays_same. Qed.

Lemma full_write buf s : full s -> write_fresh buf s = (Err (Fail RNoSpace), s).
Proof.
  intros Hf. unfold write_fresh, alloc_block, mbind, SM_bind, get. fold (span_of s) (fresh_of s). by rewrite Hf.
Qed.

Lemma stays_write buf : steps stays (write_fresh buf).
Proof. intros s Hw. by rewrite full_write by apply Hw. Qed.

Lemma stays_retire ptr : steps stays (retire ptr).
Proof. unfold retire. destruct (is_null ptr); [apply sm_ret, _|]. apply stays_with_st. intros st. by case_bool_decide. Qed.

Lemma stays_read ptr : steps stays (read_ptr ptr).
Proof.
  intros s. unfold read_ptr, mbind, SM_bind, get, on_dev. destruct (read_ptr_dev _ _ _) as [[b|e] dev]; by apply stays_same.
Qed.

Lemma stays_rollback {A} (inner : FM A) : steps stays inner -> steps stays (with_rollback inner).
Proof.
  intros Hi s Hw. unfold with_rollback, begin_op, mbind, SM_bind, get, with_st, modify, mret, SM_ret, on_result.
  cbn [fs_st fst snd]. set (s0 := mkFs _ _ _ _ _ _).
  assert (Hw0 : wedged s0) by (revert Hw; by apply stays_same). specialize (Hi s0 Hw0).
  destruct (inner s0) as [[a|[e| |]] s1]; cbn [snd] in *; [|destruct Hi as [_ Hf]; split; [apply Hw0|done]|done|done].
  revert Hi. by apply stays_same.
Qed.

Lemma stays_op op : steps stays (run_op op).
Proof.
  apply steps_op; [apply _|apply stays_read|apply stays_write|apply stays_retire|by intros s; apply stays_same|..].
  - intros level ptr ino bytes. apply sm_bind; [apply _| |intros p; by apply stays_with_st].
    apply steps_imap_set_rec; [apply _|apply stays_read|apply stays_write|apply stays_retire].
  - intros buf. apply sm_bind; [apply _|apply stays_write|intros p; by apply stays_with_st].
  - unfold alloc_ino. apply sm_bind; [apply _|apply sm_get, _|intros s].
    apply sm_bind; [apply _|by apply stays_with_st|intros _]. apply sm_ret, _.
  - intros n. by apply stays_with_st.
  - intros f s. by apply stays_same.
  - intros A inner. apply stays_rollback.
Qed.

(** What a client may call between mounting and unmounting. *)
Inductive call : Type := Call (op : fs_op) | CallCommit.

Definition run_call s (c : call) : Rfs2 D T := match c with Call op => (run_op op s).2 | CallCommit => (commit s).2 end.

Definition run_calls (cs : list call) s : Rfs2 D T := foldl run_call s cs.

Lemma wedged_calls cs : forall s, wedged s -> wedged (run_calls cs s) /\ fs_com (run_calls cs s) = fs_com s.
Proof.
  induction cs as [|c cs IH]; intros s Hw; [done|]. cbn.
  assert (Hc : wedged (run_call s c) /\ fs_com (run_call s c) = fs_com s).
  { destruct c as [op|]; cbn; [|by rewrite commit_clean by apply Hw].
    split; [by apply stays_op|]. apply cow_op. }
  destruct Hc as [Hw' Hc]. destruct (IH _ Hw') as [Hw2 Hc2].
  split; [exact Hw2|]. etransitivity; [exact Hc2|exact Hc].
Qed.

(** A failed operation can take the volume with it.  When an operation
    that runs out of space starts with nothing staged, the blocks it burned are
    given back by no later operation and no commit: the transaction is not
    dirty, so [commit] returns at once, and every block written from then on
    fails for want of space until the volume is mounted again. *)
Theorem failed_op_wedges op s e s' :
  s_dirty (fs_st s) = false -> run_op op s = (Err (Fail e), s') -> full s' ->
  forall cs, let s'' := run_calls cs s' in
    commit s'' = (Ok tt, s'') /\ fs_com s'' = fs_com s /\
    forall buf, write_fresh buf s'' = (Err (Fail RNoSpace), s'').
Proof.
  intros Hd E Hf cs s''. pose proof (op_undoes op s e s' E) as Hv. pose proof (cow_op op s) as [_ Hcom _ _ _].
  rewrite E in Hcom. cbn in Hcom. assert (Hw : wedged s') by (split; [injection Hv; congruence|done]).
  destruct (wedged_calls cs s' Hw) as [[Hd' Hf'] Hc]. fold s'' in Hd', Hf', Hc. split_and!; [by apply commit_clean|congruence|].
  intros buf. by apply full_write.
Qed.

End full.

(** A volume of six blocks, five of them used, and a directory that needs
    more than the one left. *)
Definition small_disk : LogDisk := blank_disk 6.

Definition small_volume : Rfs2 LogDisk IdentityTransform :=
  mounted_fs Identity demo_clock 6 (content (logged small_disk (mkfs_log Identity demo_opts small_disk)))
    (mkfs_header Identity demo_opts 6) (new_sb Identity demo_opts small_disk) SB_SLOT_A 2
    (mkBitmap [24] 6) (Bitmap_new 6).

Definition small_mkdir : result unit Fault * Rfs2 LogDisk IdentityTransform := run_op (OpMkdir demo_path) small_volume.

Lemma small_mkdir_fails : small_mkdir = (Err (Fail RNoSpace), small_mkdir.2).
Proof. assert (E : small_mkdir.1 = Err (Fail RNoSpace)) by (vm_compute; reflexivity). rewrite <- E. by destruct small_mkdir. Qed.

Lemma small_mkdir_full : full small_mkdir.2.
Proof. vm_compute. reflexivity. Qed.

(** The volume had room for a block before the failure, and has not after. *)
Lemma failed_op_wedges_witness :
  is_ok (write_fresh block_zeros small_volume).1 = true /\
  (write_fresh block_zeros (run_calls [CallCommit; Call (OpUnlink demo_path); CallCommit] small_mkdir.2)).1 = Err (Fail RNoSpace).
Proof.
  split; [vm_compute; reflexivity|].
  destruct (failed_op_wedges (OpMkdir demo_path) small_volume RNoSpace small_mkdir.2 eq_refl small_mkdir_fails small_mkdir_full
    [CallCommit; Call (OpUnlink demo_path); CallCommit]) as (_ & _ & Hw).
  rewrite Hw. reflexivity.
Defined.

(** ** Blocks staged before the failure *)

Section dropped.
Context {T : Type} `{BlockTransform T}.
Implicit Types s : Rfs2 LogDisk T.

(** A block no update names keeps its bit. *)
Lemma set_all_other bs b : forall bm bm',
  Forall (fun i => 0 <= i /\ i <> b) bs -> 0 <= b -> Bitmap_set_all bs bm = Some bm' -> Bitmap_get bm' b = Bitmap_get bm b.
Proof.
  unfold Bitmap_set_all. induction bs as [|i bs IH]; intros bm bm' Hn Hb E; [by injection E as <-|].
  apply Forall_cons in Hn as [[Hi Hne] Hn]. cbn in E. destruct (Bitmap_set bm i) as [[old bm1]|] eqn:Es; cbn in E.
  - rewrite (IH bm1) by done. destruct (Bitmap_set_get _ i b _ _ Hi Hb Es) as [_ ->].
    by rewrite (proj2 (Z.eqb_neq b i)) by congruence.
  - exfalso. clear -E. induction bs; [done|]. by apply IHbs.
Qed.

Lemma clear_all_false bs b : forall bm bm',
  Forall (fun i => 0 <= i) bs -> 0 <= b -> bm_ok bm -> Bitmap_clear_all bs bm = Some bm' ->
  Bitmap_get bm b = Some false -> Bitmap_get bm' b = Some false.
Proof.
  unfold Bitmap_clear_all. induction bs as [|i bs IH]; intros bm bm' Hn Hb Hok E Hf; [by injection E as <-|].
  apply Forall_cons in Hn as [Hi Hn]. cbn in E. destruct (Bitmap_clear bm i) as [bm1|] eqn:Es; cbn in E.
  - eapply (IH bm1); [done|done|by eapply Bitmap_clear_ok|exact E|].
    rewrite (Bitmap_clear_get bm i b bm1) by (done || apply Hok). by destruct (b =? i).
  - exfalso. clear -E. induction bs; [done|]. by apply IHbs.
Qed.

(** A transaction that has staged a new inode-map leaf and is out of blocks,
    and a regular file to extend. *)
Record shortage s (ino : Z) (inode : Inode) (size : Z) : Prop := {
  sh_typed : typed s;
  sh_rw : vol_read_only (fs_vol s) = false;
  sh_gen : sb_gen (c_sb (fs_com s)) < GEN_LIMIT;
  sh_dirty : s_dirty (fs_st s) = true;
  sh_full : full s;
  sh_leaf : s_height (fs_st s) = 0;
  sh_root : p_block (s_root (fs_st s)) ∈ fresh_of s;
  sh_free : allocatable s (p_block (s_root (fs_st s)));
  sh_blocks : forall b, b ∈ fresh_of s ∪ s_retired (fs_st s) -> 0 <= b;
  sh_get : imap_get ino s = (Ok (Some inode), s);
  sh_reg : is_reg inode = true;
  sh_size : i_size inode <= size
}.

Lemma reg_not_dir i : is_reg i = true -> is_dir i = false.
Proof. unfold is_reg, is_dir. intros ->%Z.eqb_eq. done. Qed.

Lemma imap_get_below ino inode s s' : imap_get ino s = (Ok (Some inode), s') -> (imap_capacity (s_height (fs_st s)) <=? ino) = false.
Proof. unfold imap_get, mbind, SM_bind, get. by destruct (_ <=? _). Qed.

(** States that read the same inode map. *)
Definition same_imap s s' : Prop :=
  fs_dev s' = fs_dev s /\ fs_vol s' = fs_vol s /\ s_root (fs_st s') = s_root (fs_st s) /\
  s_height (fs_st s') = s_height (fs_st s).

Lemma read_ptr_cases ptr s :
  (exists buf, forall s', same_imap s s' -> read_ptr ptr s' = (Ok buf, s')) \/ (exists e s', read_ptr ptr s = (Err e, s')).
Proof.
  unfold read_ptr, mbind, SM_bind, get, on_dev, read_ptr_dev. cbn [read_block log_disk].
  destruct (in_disk (fs_dev s) _) eqn:Hin; [|right; eauto].
  destruct (decrypt_block _ _ _ _ _ _) as [buf|e] eqn:Hd; [|right; eauto]. left. exists buf.
  intros s' (Hdev & Hvol & _ & _). rewrite Hdev, Hvol, Hin, Hd. destruct s'. cbn in *. by subst.
Qed.

(** The leaf [imap_get] reads, and the inode in it. *)
Lemma imap_get_leaf ino inode s : s_height (fs_st s) = 0 -> imap_get ino s = (Ok (Some inode), s) ->
  is_null (s_root (fs_st s)) = false /\ exists buf, forall s', same_imap s s' ->
    read_ptr (s_root (fs_st s)) s' = (Ok buf, s') /\ imap_get ino s' = (Ok (Some inode), s').
Proof.
  intros Hh E. pose proof (imap_get_below _ _ _ _ E) as Hc. revert E. unfold imap_get at 1, mbind, SM_bind, get.
  rewrite Hc, Hh. change (Z.to_nat 0) with 0%nat. cbn [imap_walk].
  destruct (is_null (s_root (fs_st s))) eqn:Hn; [done|]. cbn [mret SM_ret].
  destruct (read_ptr_cases (s_root (fs_st s)) s) as [[buf Hbuf]|(e & s' & ->)]; [|done].
  rewrite Hbuf by done. cbn. intros [= Hi]. split; [done|]. exists buf. intros s' Hs. split; [by apply Hbuf|].
  pose proof Hs as (_ & _ & Hr & Hh'). unfold imap_get, mbind, SM_bind, get. rewrite Hr, Hh', Hc, Hh.
  change (Z.to_nat 0) with 0%nat. cbn [imap_walk]. rewrite Hn. cbn [mret SM_ret]. rewrite Hbuf by done. cbn. by rewrite Hi.
Qed.

(** The state with the staged leaf dropped. *)
Definition leaf_dropped s : Rfs2 LogDisk T :=
  mkFs (fs_dev s) (fs_vol s) (fs_com s) (st_dropped ({[p_block (s_root (fs_st s))]} ∪ s_dropped (fs_st s)) (fs_st s))
    (fs_pins s) (fs_ticks s).

(** Rewriting the leaf retires it before the new one is allocated. *)
Lemma shortage_imap_set s ino inode buf :
  s_height (fs_st s) = 0 -> (imap_capacity (s_height (fs_st s)) <=? ino) = false -> full s ->
  is_null (s_root (fs_st s)) = false -> p_block (s_root (fs_st s)) ∈ fresh_of s ->
  read_ptr (s_root (fs_st s)) s = (Ok buf, s) ->
  imap_set ino inode s = (Err (Fail RNoSpace), leaf_dropped s).
Proof.
  intros Hh Hc Hf Hn Hr Hbuf. unfold imap_set, grow_imap.
  erewrite bind_ok by (unfold GROW_FUEL; cbn [grow_imap_loop]; erewrite bind_ok by reflexivity; rewrite Hc; reflexivity).
  erewrite bind_ok by reflexivity. apply bind_err. rewrite Hh. change (Z.to_nat 0) with 0%nat. cbn [imap_set_rec].
  erewrite bind_ok by (unfold read_or_zeros; rewrite Hn; exact Hbuf).
  erewrite bind_ok by (unfold retire; rewrite Hn; reflexivity).
  cbv beta. rewrite bool_decide_true by exact Hr. by apply full_write.
Qed.

(** Extending the file fails, and leaves the staged leaf in the dropped set. *)
Lemma shortage_truncate s ino inode size : shortage s ino inode size ->
  exists s', truncate ino size s = (Err (Fail RNoSpace), s') /\ p_block (s_root (fs_st s)) ∈ s_dropped (fs_st s').
Proof.
  intros [Hty Hrw Hg Hd Hf Hh Hr Hal Hb Hget Hreg Hsz]. destruct (imap_get_leaf _ _ _ Hh Hget) as (Hnn & buf & Hbuf).
  pose proof (imap_get_below _ _ _ _ Hget) as Hcap. unfold truncate, operation.
  erewrite bind_ok by (unfold check_rw; erewrite bind_ok by reflexivity; rewrite Hrw, (proj2 (Z.leb_gt _ _) Hg); reflexivity).
  unfold with_rollback. erewrite bind_ok by reflexivity. unfold on_result.
  set (s0 := mkFs _ _ _ _ _ _). set (s1 := mkFs (fs_dev s0) (fs_vol s0) (fs_com s0) (fs_st s0) (fs_pins s0) (S (fs_ticks s0))).
  assert (E : truncate_inner ino size s0 = (Err (Fail RNoSpace), leaf_dropped s1)).
  { unfold truncate_inner.
    erewrite bind_ok by (unfold get_inode_req; erewrite bind_ok by (apply Hbuf; done); reflexivity).
    rewrite reg_not_dir, Hreg by done. cbn [negb]. rewrite (proj2 (Z.ltb_ge _ _) Hsz).
    do 3 erewrite bind_ok by reflexivity. eapply shortage_imap_set; try done. by apply Hbuf. }
  rewrite E. eexists. split; [reflexivity|]. cbn. set_solver.
Qed.

(** C37. A failed operation can free a block of the tree it leaves behind.
    [fail_op] restores the staged root but not the set of dropped blocks; when
    the operation had retired the staged inode-map leaf before it ran out of
    space, the next commit publishes that leaf as the root of the inode map and
    counts its block as free, so that the next transaction may overwrite it. *)
Theorem failed_op_frees_live_root s ino inode size s2 :
  shortage s ino inode size ->
  let s1 := (truncate ino size s).2 in
  commit s1 = (Ok tt, s2) ->
  (truncate ino size s).1 = Err (Fail RNoSpace) /\
  sb_inode_map_root (c_sb (fs_com s2)) = s_root (fs_st s) /\
  allocatable s2 (p_block (s_root (fs_st s))) /\ (p_block (s_root (fs_st s)) ∉ fresh_of s2).
Proof.
  intros Hsh s1. destruct (shortage_truncate _ _ _ _ Hsh) as (s1' & E & Hdr). unfold s1. rewrite E. cbn [fst snd].
  pose proof (operation_undoes (truncate_inner ino size) s _ _ E) as Hv. injection Hv as Hroot _ _ _ Hdirty Hret.
  pose proof (cow_op (OpTruncate ino size) s) as [Hvol Hcom _ Hnew _].
  cbn [run_op] in *. rewrite E in Hvol, Hcom, Hnew. cbn [snd] in *.
  destruct Hsh as [Hty0 _ Hg Hd _ _ _ Hal Hb _ _ _]. set (b := p_block (s_root (fs_st s))) in *.
  destruct Hal as [Hrange [Hcur Hprev]]. assert (Hb0 : 0 <= b) by (unfold FIRST_DATA_BLOCK in *; lia).
  rewrite commit_dirty by (congruence || by rewrite Hcom). cbn [flush log_disk].
  destruct (live_new (fs_com s1') (fs_st s1')) as [live|] eqn:Hl; [|done].
  unfold write_slot. cbn [write_block log_disk]. destruct (in_disk _ _); [|done]. cbn [flush log_disk]. intros [= <-].
  split_and!; [done|by cbn; rewrite Hroot| |cbn; set_solver].
  unfold live_new in Hl. destruct (Bitmap_clear_all _ _) as [bm|] eqn:Hbm; [|done]. cbn in Hl.
  split; [unfold span_of; cbn; by rewrite Hvol|]. cbn. rewrite Hcom. split; [|done].
  rewrite (set_all_other (elements (s_fresh (fs_st s1') ∖ s_dropped (fs_st s1'))) b bm live); [| |exact Hb0|exact Hl].
  - eapply (clear_all_false _ b (c_live_cur (fs_com s1'))); [|exact Hb0|rewrite Hcom; apply Hty0|exact Hbm|by rewrite Hcom].
    apply Forall_forall. intros i Hi%elem_of_elements. rewrite Hret in Hi. apply Hb. set_solver.
  - apply Forall_forall. intros i Hi%elem_of_elements. apply elem_of_difference in Hi as [Hi1 Hi2].
    split; [|by intros ->]. destruct (Hnew i Hi1) as [Hi3|[Hi3 _]]; [apply Hb; set_solver|unfold FIRST_DATA_BLOCK in *; lia].
Qed.

End dropped.

(** On this disk, reading an inode changes nothing. *)
Lemma imap_get_pure {T} `{BlockTransform T} ino (s : Rfs2 LogDisk T) : (imap_get ino s).2 = s.
Proof.
  symmetry. apply (steps_imap_get eq). intros ptr s'. unfold read_ptr, mbind, SM_bind, get, on_dev, read_ptr_dev.
  cbn [read_block log_disk]. destruct s'. by destruct (in_disk _ _).
Qed.

(** A volume of eight blocks, on which a new file takes the last three. *)
Definition eight_disk : LogDisk := blank_disk 8.

Definition eight_volume : Rfs2 LogDisk IdentityTransform :=
  mounted_fs Identity demo_clock 8 (content (logged eight_disk (mkfs_log Identity demo_opts eight_disk)))
    (mkfs_header Identity demo_opts 8) (new_sb Identity demo_opts eight_disk) SB_SLOT_A 2
    (mkBitmap [24] 8) (Bitmap_new 8).

Definition eight_staged : Rfs2 LogDisk IdentityTransform := (run_op (OpCreate demo_path) eight_volume).2.

Definition eight_file : Inode :=
  match (imap_get FIRST_GENERAL_INO eight_staged).1 with Ok (Some i) => i | _ => INODE_FREE end.

Lemma eight_typed : typed eight_staged.
Proof.
  apply typed_op. destruct (demo_args 8 ltac:(lia)) as [Hs Hl Hh Hn Hf].
  apply (new_typed Identity demo_opts eight_disk Hs Hl Hh Hn demo_clock demo_clock_ok).
  split; [|reflexivity]. apply Forall_cons_2; [cbv; by split|apply Forall_nil_2].
Qed.

Lemma eight_shortage : shortage eight_staged FIRST_GENERAL_INO eight_file 1.
Proof.
  assert (Hget : (imap_get FIRST_GENERAL_INO eight_staged).1 = Ok (Some eight_file)).
  { assert (Hs : match (imap_get FIRST_GENERAL_INO eight_staged).1 with Ok (Some _) => true | _ => false end = true)
      by (vm_compute; reflexivity).
    unfold eight_file. by destruct (imap_get FIRST_GENERAL_INO eight_staged).1 as [[i|]|]. }
  assert (Hblocks : forallb (Z.leb 0) (elements (fresh_of eight_staged ∪ s_retired (fs_st eight_staged))) = true)
    by (vm_compute; reflexivity).
  split; [apply eight_typed|vm_compute; reflexivity|vm_compute; reflexivity|vm_compute; reflexivity|
    vm_compute; reflexivity|vm_compute; reflexivity| | | | |vm_compute; reflexivity|].
  - apply (bool_decide_unpack _). vm_compute. exact I.
  - unfold allocatable. split; [|split; vm_compute; reflexivity]. vm_compute. split; congruence.
  - intros b Hb. apply elem_of_elements, list_elem_of_In in Hb. rewrite forallb_forall in Hblocks. by apply Z.leb_le, Hblocks.
  - rewrite (surjective_pairing (imap_get _ _)). by rewrite Hget, imap_get_pure.
  - vm_compute. congruence.
Qed.

Lemma failed_op_frees_live_root_witness :
  let b := p_block (s_root (fs_st eight_staged)) in
  let s2 := (commit (truncate FIRST_GENERAL_INO 1 eight_staged).2).2 in
  p_block (sb_inode_map_root (c_sb (fs_com s2))) = b /\ allocatable s2 b /\
  (write_fresh block_zeros (write_fresh block_zeros s2).2).1 = Ok (mkPtr b 3 (zeros TAG_SIZE)).
Proof.
  assert (Hc : commit (truncate FIRST_GENERAL_INO 1 eight_staged).2 =
    (Ok tt, (commit (truncate FIRST_GENERAL_INO 1 eight_staged).2).2)).
  { assert (E : (commit (truncate FIRST_GENERAL_INO 1 eight_staged).2).1 = Ok tt) by (vm_compute; reflexivity).
    rewrite <- E. by destruct (commit _). }
  destruct (failed_op_frees_live_root _ _ _ _ _ eight_shortage Hc) as (_ & Hr & Ha & _).
  intros b s2. split; [by unfold s2; rewrite Hr|]. split; [exact Ha|]. vm_compute. reflexivity.
Defined.

(** Writing to the new file, which finds no block left. *)
Lemma operations_return_witness : (run_op (OpWrite FIRST_GENERAL_INO 4090 [104; 105]) eight_staged).1 <> Err Hung.
Proof. apply (operations_return (OpWrite FIRST_GENERAL_INO 4090 [104; 105]) eight_staged). cbn. unfold in_u. lia. Defined.
