(* ===== verification/Cdf.v ===== *)
(** * Canonical derivations (pkg/shade-cdf)

    The byte format that package derivations are hashed in: one [key=value]
    line per entry in the order of the keys, after a header line; the digest,
    the base-32 alphabet and the grammar of store paths; and the manifest that
    is hashed for a source tree.  BLAKE3 is a parameter. *)

From stdpp Require Import sorting.
From S2P Require Import Prelude Paths Text.

#[local] Open Scope Z_scope.
#[local] Open Scope rust_scope.

Definition FORMAT_VERSION : Z := 1.
Definition HEADER_KEY : str := lit "shade-drv".
Definition STORE_PREFIX : str := lit "/shade/store/".

Inductive CdfError : Type :=
| BadKey (k : str)
| DuplicateKey (k : str)
| ReservedKey
| BadName (n : str)
| BadVersion (v : str).

Definition EQUALS : Z := 61.
Definition PERCENT : Z := 37.
Definition CR : Z := 13.

(** [escape_value]: the [match] on one byte. *)
Definition escape_byte (b : Z) : str :=
  if b =? LF then lit "%0A"
  else if b =? CR then lit "%0D"
  else if b =? PERCENT then lit "%25"
  else push_char b.

Definition escape_value (v : str) : str := concat (escape_byte <$> v).

Fixpoint unescape_value (v : str) : option str :=
  match v with
  | [] => Some []
  | b :: r =>
      if b =? PERCENT then
        match r with
        | h :: l :: r' =>
            if bool_decide ([h; l] = lit "0A") then cons LF <$> unescape_value r'
            else if bool_decide ([h; l] = lit "0D") then cons CR <$> unescape_value r'
            else if bool_decide ([h; l] = lit "25") then cons PERCENT <$> unescape_value r'
            else None
        | _ => None
        end
      else app (push_char b) <$> unescape_value r
  end.

Inductive CdfParseError : Type :=
| NotUtf8
| MissingHeader
| UnsupportedVersion (v : str)
| BadLine (n : nat)
| DuplicateEntry (k : str)
| MissingTrailingNewline.

Definition lower (b : Z) : bool := (97 <=? b) && (b <=? 122).
Definition upper (b : Z) : bool := (65 <=? b) && (b <=? 90).
Definition ascii_digit (b : Z) : bool := (48 <=? b) && (b <=? 57).

Definition key_byte (b : Z) : bool :=
  lower b || ascii_digit b || (b =? 46) || (b =? 95) || (b =? 45).

Definition is_valid_key (k : str) : bool := nonempty k && forallb key_byte k.

(** The loop of [parse] over the lines after the header; [n] is the number of
    the next line. *)
Fixpoint parse_lines (n : nat) (ls : list str) (m : gmap str str) : result (gmap str str) CdfParseError :=
  match ls with
  | [] => Ok m
  | line :: ls' =>
      let? kv := ok_or (split_once EQUALS line) (BadLine n) in
      let '(k, v) := kv in
      if bool_decide (k = HEADER_KEY) || negb (is_valid_key k) then Err (BadLine n)
      else
        let? v' := ok_or (unescape_value v) (BadLine n) in
        match m !! k with
        | Some _ => Err (DuplicateEntry k)
        | None => parse_lines (S n) ls' (<[k := v']> m)
        end
  end.

Definition parse (bytes : list Z) : result (gmap str str) CdfParseError :=
  if negb (utf8_valid bytes) then Err NotUtf8
  else
    let? body := ok_or (strip_suffix [LF] bytes) MissingTrailingNewline in
    match split_on LF body with
    | [] => Err MissingHeader
    | first :: rest =>
        match split_once EQUALS first with
        | Some (k, v) =>
            if bool_decide (k = HEADER_KEY) then
              if bool_decide (v = dec FORMAT_VERSION) then parse_lines 2 rest ∅
              else Err (UnsupportedVersion v)
            else Err MissingHeader
        | None => Err MissingHeader
        end
    end.

(** The entries of a builder. *)
Abbreviation CdfBuilder := (gmap str str).

Definition CdfBuilder_new : CdfBuilder := ∅.

Definition CdfBuilder_insert (key value : str) (b : CdfBuilder) : result CdfBuilder CdfError :=
  if bool_decide (key = HEADER_KEY) then Err ReservedKey
  else if negb (is_valid_key key) then Err (BadKey key)
  else match b !! key with
       | Some _ => Err (DuplicateKey key)
       | None => Ok (<[key := value]> b)
       end.

Definition CdfBuilder_contains_key (key : str) (b : CdfBuilder) : bool := bool_decide (is_Some (b !! key)).

Definition entry_line (kv : str * str) : str := kv.1 ++ EQUALS :: escape_value kv.2.

Definition CdfBuilder_build (b : CdfBuilder) : list Z :=
  HEADER_KEY ++ EQUALS :: dec FORMAT_VERSION ++ [LF] ++ unlines (entry_line <$> entries b).

(** ** Hex and base 32 *)

Definition HEX : str := lit "0123456789abcdef".

Definition hex_byte (b : Z) : str :=
  [HEX !!! Z.to_nat (Z.shiftr b 4); HEX !!! Z.to_nat (Z.land b 15)].

Definition hex_lower (bytes : list Z) : str := concat (hex_byte <$> bytes).

Definition BASE32_ALPHABET : str := lit "0123456789abcdfghijklmnpqrsvwxyz".

(** One group of [base32]: the bits of up to five bytes, as eight symbols. *)
Definition group_bits (chunk : list Z) : Z := foldl (fun acc b => Z.lor (Z.shiftl acc 8) b) 0 chunk.

Definition base32_group (chunk : list Z) : str :=
  (fun i => BASE32_ALPHABET !!! Z.to_nat (Z.land (Z.shiftr (group_bits chunk) (i * 5)) 31)) <$> [7; 6; 5; 4; 3; 2; 1; 0].

(** [bytes.chunks(5)]. *)
Fixpoint chunks5 (bytes : list Z) : list (list Z) :=
  match bytes with
  | a :: b :: c :: d :: e :: r => [a; b; c; d; e] :: chunks5 r
  | [] => []
  | r => [r]
  end.

Definition base32 (bytes : list Z) : str := concat (base32_group <$> chunks5 bytes).

(** ** Names, versions and store paths *)

Definition name_byte (b : Z) : option Z :=
  if lower b || ascii_digit b || (b =? 95) || (b =? 45) then Some b
  else if upper b then Some (b + 32) else None.

Definition normalize_name (name : str) : result str CdfError :=
  if negb (nonempty name) || (64 <? Z.of_nat (length name)) then Err (BadName name)
  else
    match mapM name_byte name with
    | None => Err (BadName name)
    | Some out =>
        match out with
        | first :: _ => if lower first || ascii_digit first then Ok out else Err (BadName name)
        | [] => Err (BadName name)
        end
    end.

Definition version_byte (b : Z) : bool :=
  lower b || ascii_digit b || (b =? 46) || (b =? 43) || (b =? 45).

Definition validate_version (v : str) : result unit CdfError :=
  if nonempty v && (Z.of_nat (length v) <=? 32) && forallb version_byte v then Ok tt else Err (BadVersion v).

Record StorePaths : Type := mkPaths { sp_digest : str; sp_drv_path : str; sp_out_path : str }.

Section digests.
Context (blake3 : list Z -> list Z).

Definition blake3_hex (bytes : list Z) : str := hex_lower (blake3 bytes).

Definition store_digest (cdf_bytes : list Z) : str := base32 (take 20 (blake3 cdf_bytes)).

Definition store_paths (name version : str) (cdf_bytes : list Z) : result StorePaths CdfError :=
  let? norm := normalize_name name in
  if negb (bool_decide (norm = name)) then Err (BadName name)
  else
    let? _ := validate_version version in
    let digest := store_digest cdf_bytes in
    let out_path := STORE_PREFIX ++ digest ++ lit "-" ++ name ++ lit "-" ++ version in
    Ok (mkPaths digest (out_path ++ lit ".drv") out_path).

End digests.

(** ** Tree hashes *)

Inductive EntryKind : Type := EkFile | EkExecFile | EkSymlink | EkDir.

Definition tag (k : EntryKind) : Z :=
  match k with EkFile => 102 | EkExecFile => 120 | EkSymlink => 108 | EkDir => 100 end.

Definition manifest_line (kind : EntryKind) (rel_path content_hash_hex : str) : str :=
  tag kind :: lit " " ++ escape_value rel_path ++ lit " " ++ content_hash_hex ++ [LF].

(** What [tree_hash] hashes. *)
Definition tree_manifest (ls : list str) : list Z := concat (merge_sort str_le ls).

Definition tree_hash (blake3 : list Z -> list Z) (ls : list str) : str := blake3_hex blake3 (tree_manifest ls).

(** ** Escaping *)

Definition bytes (v : list Z) : Prop := Forall (in_u 8) v.
Definition ascii (v : list Z) : Prop := Forall (fun b => 0 <= b < 128) v.

(** What comes back for one byte, after escaping and unescaping: both push a
    byte from 128 on as the two-byte encoding of the character with that
    number. *)
Definition relay (b : Z) : str := if b <? 128 then [b] else [195; 128 + b / 64; 194; 128 + b mod 64].
Definition echo (v : str) : str := concat (relay <$> v).

(** What the proofs use of [escape_byte], checked on all bytes. *)
Lemma escape_byte_facts b : in_u 8 b -> Forall (fun x => x <> LF /\ in_u 8 x) (escape_byte b) /\
  utf8_valid (escape_byte b) = true.
Proof.
  assert (forall b, 0 <= b < 0 + 256 -> Forall (fun x => x <> LF /\ 0 <= x < 256) (escape_byte b) /\
    utf8_valid (escape_byte b) = true) as H.
  { apply (check_bytes (fun b => Forall (fun x => x <> LF /\ 0 <= x < 256) (escape_byte b) /\
      utf8_valid (escape_byte b) = true)). by vm_compute. }
  intros Hb. destruct (H b Hb). done.
Qed.

Lemma escape_byte_plain b : b <> LF -> b <> CR -> b <> PERCENT -> escape_byte b = push_char b.
Proof. intros H1 H2 H3. unfold escape_byte. by rewrite !(proj2 (Z.eqb_neq _ _)). Qed.

Lemma relay_push b : 128 <= b < 256 ->
  exists x y, push_char b = [x; y] /\ x <> PERCENT /\ y <> PERCENT /\ push_char x ++ push_char y = relay b.
Proof.
  assert (forall b, 128 <= b < 128 + 128 -> 192 + b / 64 <> PERCENT /\ 128 + b mod 64 <> PERCENT /\
    push_char (192 + b / 64) ++ push_char (128 + b mod 64) = relay b) as H.
  { apply (check_bytes (fun b => 192 + b / 64 <> PERCENT /\ 128 + b mod 64 <> PERCENT /\
      push_char (192 + b / 64) ++ push_char (128 + b mod 64) = relay b)). by vm_compute. }
  intros Hb. rewrite push_char_big by done. eexists _, _. split; [done|]. by apply H.
Qed.

Lemma unescape_plain b t : b <> PERCENT -> unescape_value (b :: t) = app (push_char b) <$> unescape_value t.
Proof. intros Hb. cbn [unescape_value]. by rewrite (proj2 (Z.eqb_neq b PERCENT)). Qed.

Lemma unescape_escape_byte b t : in_u 8 b ->
  unescape_value (escape_byte b ++ t) = app (relay b) <$> unescape_value t.
Proof.
  intros Hb. destruct (decide (b = LF)) as [->|H1]; [done|]. destruct (decide (b = CR)) as [->|H2]; [done|].
  destruct (decide (b = PERCENT)) as [->|H3]; [done|]. rewrite escape_byte_plain by done.
  destruct (Z.ltb_spec b 128) as [Hs|Hbig].
  - rewrite push_char_small by done. cbn [app]. rewrite unescape_plain, push_char_small by done.
    unfold relay. by rewrite (proj2 (Z.ltb_lt b 128)).
  - destruct (relay_push b) as (x & y & -> & Hx & Hy & <-); [unfold in_u in Hb; lia|].
    cbn [app]. rewrite !unescape_plain by done. destruct (unescape_value t); [|done]. cbn. by rewrite app_assoc.
Qed.

Lemma unescape_escape v : bytes v -> unescape_value (escape_value v) = Some (echo v).
Proof.
  unfold escape_value, echo. induction 1 as [|b v Hb Hv IH]; [done|]. cbn.
  by rewrite unescape_escape_byte, IH.
Qed.

Lemma escape_value_bytes v : bytes v -> Forall (fun x => x <> LF /\ in_u 8 x) (escape_value v).
Proof.
  intros Hv. apply Forall_concat, Forall_fmap. eapply Forall_impl; [exact Hv|]. intros b Hb. by apply escape_byte_facts.
Qed.

Lemma escape_value_utf8 v : bytes v -> utf8_valid (escape_value v) = true.
Proof.
  unfold escape_value. induction 1 as [|b v Hb Hv IH]; [done|]. cbn. apply utf8_valid_app; [by apply escape_byte_facts|done].
Qed.

Lemma echo_cons b v : echo (b :: v) = relay b ++ echo v.
Proof. done. Qed.

Lemma echo_ascii v : ascii v -> echo v = v.
Proof.
  induction 1 as [|b v Hb Hv IH]; [done|]. rewrite echo_cons, IH. unfold relay.
  by rewrite (proj2 (Z.ltb_lt b 128)) by lia.
Qed.

Lemma echo_length v : (length v <= length (echo v))%nat.
Proof.
  induction v as [|b v IH]; [done|]. rewrite echo_cons, length_app. unfold relay. destruct (b <? 128); cbn [length]; lia.
Qed.

(** Only ASCII text comes back as it was. *)
Lemma echo_id v : bytes v -> echo v = v <-> ascii v.
Proof.
  intros Hv. split; [|apply echo_ascii]. induction Hv as [|b v Hb Hv IH]; [by constructor|]. rewrite echo_cons.
  unfold relay. destruct (Z.ltb_spec b 128) as [Hs|Hbig].
  - intros [= H]. constructor; [unfold in_u in Hb; lia|by apply IH].
  - intros H. apply (f_equal length) in H. pose proof (echo_length v) as Hl. cbn in H. lia.
Qed.

Lemma echo_inj v1 v2 : bytes v1 -> bytes v2 -> echo v1 = echo v2 -> v1 = v2.
Proof.
  intros H1. revert v2. induction H1 as [|b v Hb Hv IH]; intros v2 H2; destruct H2 as [|c w Hc Hw]; rewrite ?echo_cons.
  - done.
  - unfold relay. by destruct (c <? 128).
  - unfold relay. by destruct (b <? 128).
  - unfold relay. unfold in_u in Hb, Hc. destruct (Z.ltb_spec b 128), (Z.ltb_spec c 128); intros [=].
    + subst. f_equal. by apply IH.
    + lia.
    + lia.
    + f_equal; [|by apply IH]. pose proof (Z.div_mod b 64). pose proof (Z.div_mod c 64). lia.
Qed.

(** ** Documents *)

(** The entries a builder can hold. *)
Definition cdf_ok (b : CdfBuilder) : Prop := map_Forall (fun k v => k <> HEADER_KEY /\ is_valid_key k = true /\ bytes v) b.

Lemma insert_ok key value b b' : cdf_ok b -> bytes value -> CdfBuilder_insert key value b = Ok b' -> cdf_ok b'.
Proof.
  intros Hb Hv. unfold CdfBuilder_insert. case_bool_decide as Hk; [done|].
  destruct (is_valid_key key) eqn:Hvk; [|done]. cbn [negb]. destruct (b !! key); [done|]. intros [= <-].
  by apply map_Forall_insert_2.
Qed.

Lemma key_byte_facts b : key_byte b = true -> in_u 8 b /\ b < 128 /\ b <> LF /\ b <> EQUALS.
Proof. unfold key_byte, lower, ascii_digit, in_u, LF, EQUALS. lia. Qed.

Lemma valid_key_facts k : is_valid_key k = true -> ascii k /\ (LF ∉ k) /\ (EQUALS ∉ k).
Proof.
  unfold is_valid_key. intros [_ H]%andb_true_iff. rewrite forallb_forall in H.
  assert (forall x, x ∈ k -> in_u 8 x /\ x < 128 /\ x <> LF /\ x <> EQUALS) as Hk.
  { intros x Hx. by apply key_byte_facts, H, list_elem_of_In. }
  split; [|split].
  - apply Forall_forall. intros x Hx. destruct (Hk x Hx) as [? ?]. unfold in_u in *. lia.
  - intros Hx. by destruct (Hk _ Hx) as (_ & _ & ? & _).
  - intros Hx. by destruct (Hk _ Hx) as (_ & _ & _ & ?).
Qed.

Lemma unlines_cons x l : exists body, unlines (x :: l) = body ++ [LF].
Proof.
  revert x. induction l as [|y l IH]; intros x; [exists x; unfold unlines; cbn; by rewrite app_nil_r|].
  destruct (IH y) as [body Hb]. exists (x ++ [LF] ++ body). change (unlines (x :: y :: l)) with ((x ++ [LF]) ++ unlines (y :: l)).
  rewrite Hb. by rewrite <- !app_assoc.
Qed.

Lemma split_body x l body : Forall (fun x => LF ∉ x) (x :: l) -> unlines (x :: l) = body ++ [LF] ->
  split_on LF body = x :: l.
Proof.
  intros Hl Hb. pose proof (split_unlines (x :: l) Hl) as H. rewrite Hb, split_on_app in H. by apply app_inv_tail in H.
Qed.

Definition header_line : str := HEADER_KEY ++ EQUALS :: dec FORMAT_VERSION.

Lemma build_lines b : CdfBuilder_build b = unlines (header_line :: (entry_line <$> entries b)).
Proof. unfold CdfBuilder_build, header_line, unlines. cbn [fmap list_fmap concat]. by rewrite <- !app_assoc. Qed.

Lemma entry_line_facts kv : is_valid_key kv.1 = true -> bytes kv.2 ->
  (LF ∉ entry_line kv) /\ utf8_valid (entry_line kv) = true /\ split_once EQUALS (entry_line kv) = Some (kv.1, escape_value kv.2).
Proof.
  intros Hk Hv. destruct (valid_key_facts _ Hk) as (Ha & Hlf & Heq). unfold entry_line. split; [|split].
  - intros [H|[H|H]%elem_of_cons]%elem_of_app; [done|done|].
    pose proof (escape_value_bytes _ Hv) as Hb. rewrite Forall_forall in Hb. by destruct (Hb _ H).
  - apply utf8_valid_app; [by apply utf8_ascii|]. apply (utf8_valid_app [EQUALS]); [done|]. by apply escape_value_utf8.
  - by apply split_once_app.
Qed.

Lemma parse_lines_entries es : forall n m,
  Forall (fun kv => kv.1 <> HEADER_KEY /\ is_valid_key kv.1 = true /\ bytes kv.2) es ->
  NoDup es.*1 -> (forall k, k ∈ es.*1 -> m !! k = None) ->
  parse_lines n (entry_line <$> es) m = Ok (m ∪ list_to_map (prod_map id echo <$> es)).
Proof.
  induction es as [|[k v] es IH]; intros n m Hes Hnd Hm; [cbn; by rewrite (right_id_L ∅ (∪))|].
  apply Forall_cons in Hes as [(Hh & Hk & Hv) Hes]. apply NoDup_cons in Hnd as [Hnk Hnd]. cbn [fst snd] in *.
  destruct (entry_line_facts (k, v) Hk Hv) as (_ & _ & Hsp). cbn [fst snd] in Hsp.
  cbn [fmap list_fmap parse_lines]. rewrite Hsp. cbn [ok_or result_bind]. rewrite bool_decide_eq_false_2, Hk by done.
  cbn [orb negb]. rewrite unescape_escape by done. cbn [ok_or result_bind]. rewrite Hm by set_solver.
  change (((fix go (l : list (str * str)) := _) es)) with (entry_line <$> es).
  rewrite IH; [|done|done|].
  - f_equal. cbn. rewrite <- insert_union_l, insert_union_r by (apply Hm; set_solver). done.
  - intros k' Hk'. rewrite lookup_insert_ne by (intros ->; done). apply Hm. set_solver.
Qed.

Lemma entries_ok b : cdf_ok b -> Forall (fun kv => kv.1 <> HEADER_KEY /\ is_valid_key kv.1 = true /\ bytes kv.2) (entries b).
Proof. intros Hb. apply Forall_forall. intros [k v] Hin%elem_of_entries. exact (Hb k v Hin). Qed.

Lemma parse_build_echo b : cdf_ok b -> parse (CdfBuilder_build b) = Ok (echo <$> b).
Proof.
  intros Hb. pose proof (entries_ok b Hb) as Hes.
  assert (Forall (fun kv => (LF ∉ entry_line kv) /\ utf8_valid (entry_line kv) = true) (entries b)) as Hl.
  { eapply Forall_impl; [exact Hes|]. intros kv (_ & Hk & Hv). by destruct (entry_line_facts kv Hk Hv) as (? & ? & _). }
  assert (Forall (fun x => LF ∉ x) (header_line :: (entry_line <$> entries b))) as Hlf.
  { constructor; [by apply (bool_decide_unpack _)|]. apply Forall_fmap. eapply Forall_impl; [exact Hl|]. by intros ? [? _]. }
  unfold parse. rewrite build_lines.
  assert (forall l, Forall (fun x => utf8_valid x = true) l -> utf8_valid (unlines l) = true) as Hun.
  { unfold unlines. induction 1 as [|x l Hx _ IH]; [done|]. cbn. apply utf8_valid_app; [by apply utf8_valid_app|done]. }
  rewrite Hun; cycle 1.
  { constructor; [done|]. apply Forall_fmap. eapply Forall_impl; [exact Hl|]. by intros ? [_ ?]. }
  cbn [negb]. destruct (unlines_cons header_line (entry_line <$> entries b)) as [body Hbody].
  rewrite Hbody, strip_suffix_app. cbn [ok_or result_bind].
  rewrite (split_body _ _ _ Hlf Hbody). change (split_once EQUALS header_line) with (Some (HEADER_KEY, dec FORMAT_VERSION)).
  cbv beta iota. rewrite !bool_decide_eq_true_2 by done.
  rewrite parse_lines_entries; [|done|rewrite entries_fst; apply NoDup_keys|intros; apply lookup_empty].
  by rewrite (left_id_L ∅ (∪)), list_to_map_fmap, entries_to_map.
Qed.

(** C0. Reading a derivation back. [parse] accepts everything [build]
    emits, and returns the keys and, for each value, what escaping and
    unescaping make of it; that is the value itself exactly if it is ASCII
    text: a value with any other character comes back garbled. *)
Theorem parse_build b : cdf_ok b ->
  parse (CdfBuilder_build b) = Ok (echo <$> b) /\
  (parse (CdfBuilder_build b) = Ok b <-> map_Forall (fun _ v => ascii v) b).
Proof.
  intros Hb. pose proof (parse_build_echo b Hb) as ->. split; [done|]. split.
  - intros [= H]. intros k v Hk. assert ((echo <$> b) !! k = b !! k) as Hl by by rewrite H.
    rewrite lookup_fmap, Hk in Hl. cbn in Hl. injection Hl as Hl.
    apply echo_id; [by destruct (Hb k v Hk) as (_ & _ & ?)|done].
  - intros Ha. f_equal. apply map_eq. intros k. rewrite lookup_fmap. destruct (b !! k) as [v|] eqn:Hk; [|done].
    cbn. f_equal. by apply echo_ascii, (Ha k v).
Qed.

(** Derivations are addressed by the hash of these bytes, so two
    different derivations must never have the same bytes. They do not: the
    bytes determine the builder, for all values, ASCII or not. *)
Theorem build_injective b1 b2 : cdf_ok b1 -> cdf_ok b2 -> CdfBuilder_build b1 = CdfBuilder_build b2 -> b1 = b2.
Proof.
  intros H1 H2 E. pose proof (parse_build_echo b1 H1) as P. rewrite E, parse_build_echo in P by done. injection P as P.
  apply map_eq. intros k. assert ((echo <$> b1) !! k = (echo <$> b2) !! k) as Hl by by rewrite P.
  rewrite !lookup_fmap in Hl.
  destruct (b1 !! k) as [v1|] eqn:E1, (b2 !! k) as [v2|] eqn:E2; cbn in Hl; try done. injection Hl as Hl. f_equal.
  apply echo_inj; [by destruct (H1 k v1 E1) as (_ & _ & ?)|by destruct (H2 k v2 E2) as (_ & _ & ?)|done].
Qed.

(** The entries [parse] returns are entries a builder accepts. *)
Lemma unescape_bytes v w : bytes v -> unescape_value v = Some w -> bytes w.
Proof.
  remember (length v) as n eqn:Hn. revert v w Hn. induction (lt_wf n) as [n _ IH]. intros v w -> Hv.
  destruct Hv as [|b v Hb Hv]; [by intros [= <-]; constructor|]. cbn [unescape_value].
  destruct (b =? PERCENT).
  - destruct Hv as [|h v Hh Hv]; [done|]. destruct Hv as [|l v Hl Hv]; [done|]. cbn [length] in IH.
    assert (forall c, in_u 8 c -> cons c <$> unescape_value v = Some w -> bytes w) as Hc.
    { intros c Hc. destruct (unescape_value v) as [w'|] eqn:E; [|done]. intros [= <-]. constructor; [done|].
      by apply (IH (length v) ltac:(lia) v w'). }
    repeat case_bool_decide; try done; by apply Hc.
  - destruct (unescape_value v) as [w'|] eqn:E; [|done]. intros [= <-]. apply Forall_app. split.
    + destruct (Z.ltb_spec b 128); [rewrite push_char_small by done; by apply Forall_singleton|].
      unfold in_u in *. rewrite push_char_big by lia. pose proof (Z.mod_pos_bound b 64).
      assert (b / 64 < 4) by (apply Z.div_lt_upper_bound; lia). pose proof (Z.div_pos b 64).
      apply Forall_cons. rewrite Forall_singleton. unfold in_u. lia.
    + by apply (IH (length v) ltac:(cbn; lia) v w').
Qed.

Lemma parse_lines_ok ls : forall n m m', Forall bytes ls -> cdf_ok m -> parse_lines n ls m = Ok m' -> cdf_ok m'.
Proof.
  induction ls as [|x ls IH]; intros n m m' Hls Hm; cbn [parse_lines]; [by intros [= <-]|].
  apply Forall_cons in Hls as [Hx Hls]. destruct (split_once EQUALS x) as [ [k v]|] eqn:Es; [|done].
  cbn [ok_or result_bind]. case_bool_decide as Hk; [done|]. destruct (is_valid_key k) eqn:Hvk; [|done]. cbn [orb negb].
  apply split_once_Some in Es as [-> _]. apply Forall_app in Hx as [_ [_ Hv]%Forall_cons].
  destruct (unescape_value v) as [w|] eqn:Eu; [|done]. cbn [ok_or result_bind]. destruct (m !! k); [done|].
  apply IH; [done|]. apply map_Forall_insert_2; [|done]. split; [done|]. split; [done|]. by eapply unescape_bytes.
Qed.

Lemma split_on_bytes sep s : bytes s -> Forall bytes (split_on sep s).
Proof.
  induction 1 as [|b s Hb Hs IH]; [by apply Forall_singleton, Forall_nil|]. cbn.
  destruct (b =? sep); [apply Forall_cons; split; [by apply Forall_nil|done]|].
  destruct IH as [|h t Hh Ht]; [by apply Forall_singleton, Forall_singleton|]. constructor; [by constructor|done].
Qed.

(** Entries that were read can be written again, except that [parse] accepts
    more than [build] emits: lines in any order and a carriage return as it is.
    The comment of [parse] calls it the strict inverse of [build]. *)
Theorem parse_not_strict :
  (forall bs m, bytes bs -> parse bs = Ok m -> cdf_ok m) /\
  exists bs1 bs2 m, bs1 <> bs2 /\ parse bs1 = Ok m /\ parse bs2 = Ok m /\ CdfBuilder_build m = bs1.
Proof.
  split.
  - intros bs m Hb. unfold parse. destruct (utf8_valid bs); [|done]. cbn [negb].
    destruct (strip_suffix [LF] bs) as [body|] eqn:Es; [|done]. cbn [ok_or result_bind].
    apply strip_suffix_spec in Es as ->. apply Forall_app in Hb as [Hb _].
    pose proof (split_on_bytes LF body Hb) as Hs. destruct (split_on LF body) as [|x ls]; [done|].
    destruct (split_once EQUALS x) as [ [k v]|]; [|done]. repeat case_bool_decide; try done.
    apply parse_lines_ok; [by apply Forall_cons in Hs as [_ ?]|]. apply map_Forall_empty.
  - set (m := <[lit "a" := lit "1"]> {[ lit "b" := lit "2" ]} : gmap str str).
    exists (CdfBuilder_build m), (header_line ++ [LF] ++ unlines [lit "b=2"; lit "a=1"]), m.
    split; [by vm_compute|]. split; [by vm_compute|]. split; [by vm_compute|done].
Qed.

(** ** Digests *)

Lemma digits_inj (n : nat) : forall x y, 0 <= x < 32 ^ Z.of_nat n -> 0 <= y < 32 ^ Z.of_nat n ->
  (forall i, 0 <= i < Z.of_nat n -> (x / 32 ^ i) mod 32 = (y / 32 ^ i) mod 32) -> x = y.
Proof.
  induction n as [|n IH]; intros x y Hx Hy H; [cbn in *; lia|].
  rewrite Nat2Z.inj_succ, Z.pow_succ_r in Hx, Hy by lia. pose proof (H 0 ltac:(lia)) as H0. rewrite Z.pow_0_r, !Z.div_1_r in H0.
  assert (x / 32 = y / 32) as Hd.
  { apply IH; [split; [apply Z.div_pos|apply Z.div_lt_upper_bound]; lia..|]. intros i Hi.
    rewrite !Z.div_div by lia. rewrite <- Z.pow_succ_r by lia. apply H. lia. }
  pose proof (Z.div_mod x 32). pose proof (Z.div_mod y 32). lia.
Qed.

Lemma alphabet_inj x y : 0 <= x < 32 -> 0 <= y < 32 ->
  BASE32_ALPHABET !!! Z.to_nat x = BASE32_ALPHABET !!! Z.to_nat y -> x = y.
Proof.
  intros Hx Hy E. assert (NoDup BASE32_ALPHABET) as Hnd by (apply (bool_decide_unpack _); by vm_compute).
  assert (forall z, 0 <= z < 32 -> BASE32_ALPHABET !! Z.to_nat z = Some (BASE32_ALPHABET !!! Z.to_nat z)) as Hl.
  { intros z Hz. apply list_lookup_lookup_total_lt. change (length BASE32_ALPHABET) with 32%nat. lia. }
  assert (Z.to_nat x = Z.to_nat y) as He; [|lia].
  eapply NoDup_lookup; [exact Hnd|by apply Hl|]. rewrite E. by apply Hl.
Qed.

Lemma lor_byte acc b : 0 <= acc -> in_u 8 b -> Z.lor (Z.shiftl acc 8) b = acc * 256 + b.
Proof.
  unfold in_u. intros Ha Hb. rewrite Z.shiftl_mul_pow2 by lia. change (2 ^ 8) with 256.
  rewrite <- Z.lxor_lor, <- Z.add_nocarry_lxor; [done| |].
  all: apply Z.bits_inj'; intros i Hi; rewrite Z.land_spec, Z.bits_0; change 256 with (2 ^ 8).
  all: destruct (Z.ltb_spec i 8); [by rewrite Z.mul_pow2_bits_low|].
  all: rewrite (Z.bits_above_log2 b i), andb_false_r; [done|lia|].
  all: destruct (decide (b = 0)) as [->|]; [cbn; lia|]; assert (Z.log2 b < 8) by (apply Z.log2_lt_pow2; lia); lia.
Qed.

Lemma group_bits_five a b c d e : bytes [a; b; c; d; e] ->
  group_bits [a; b; c; d; e] = (((a * 256 + b) * 256 + c) * 256 + d) * 256 + e.
Proof.
  intros [Ha [Hb [Hc [Hd [He _]%Forall_cons]%Forall_cons]%Forall_cons]%Forall_cons]%Forall_cons.
  unfold group_bits. cbn [foldl]. pose proof Ha. pose proof Hb. pose proof Hc. pose proof Hd. unfold in_u in *.
  rewrite (lor_byte 0 a), (lor_byte (0 * 256 + a) b), (lor_byte ((0 * 256 + a) * 256 + b) c),
    (lor_byte (((0 * 256 + a) * 256 + b) * 256 + c) d), lor_byte; try lia; unfold in_u; lia.
Qed.

Lemma symbol_digit x i : 0 <= i -> Z.land (Z.shiftr x (i * 5)) 31 = (x / 32 ^ i) mod 32.
Proof.
  intros Hi. change 31 with (Z.ones 5). rewrite Z.land_ones, Z.shiftr_div_pow2 by lia.
  rewrite (Z.mul_comm i 5), Z.pow_mul_r by lia. done.
Qed.

Lemma base32_group_inj g1 g2 : length g1 = 5%nat -> length g2 = 5%nat -> bytes g1 -> bytes g2 ->
  base32_group g1 = base32_group g2 -> g1 = g2.
Proof.
  destruct g1 as [|a [|b [|c [|d [|e [|? ?] ] ] ] ] ]; try done.
  destruct g2 as [|a' [|b' [|c' [|d' [|e' [|? ?] ] ] ] ] ]; try done. intros _ _ H1 H2.
  unfold base32_group. rewrite (group_bits_five _ _ _ _ _ H1), (group_bits_five _ _ _ _ _ H2).
  apply Forall_cons in H1 as [? [? [? [? [? _]%Forall_cons]%Forall_cons]%Forall_cons]%Forall_cons].
  apply Forall_cons in H2 as [? [? [? [? [? _]%Forall_cons]%Forall_cons]%Forall_cons]%Forall_cons]. unfold in_u in *.
  set (x := _ * 256 + e). set (y := _ * 256 + e'). cbn [fmap list_fmap]. rewrite !symbol_digit by lia.
  intros [= E7 E6 E5 E4 E3 E2 E1 E0].
  assert (x = y) as Hxy; [|subst x y; f_equal; [lia|f_equal; [lia|f_equal; [lia|f_equal; [lia|f_equal; lia] ] ] ] ].
  apply (digits_inj 8); [subst x; change (32 ^ Z.of_nat 8) with (256 ^ 5); lia|
    subst y; change (32 ^ Z.of_nat 8) with (256 ^ 5); lia|].
  intros i Hi. apply alphabet_inj; [apply Z.mod_pos_bound; lia..|].
  assert (i = 0 \/ i = 1 \/ i = 2 \/ i = 3 \/ i = 4 \/ i = 5 \/ i = 6 \/ i = 7)
    as [->|[->|[->|[->|[->|[->|[->| ->] ] ] ] ] ] ] by lia; done.
Qed.

Definition base32_symbol (b : Z) : Prop := b ∈ BASE32_ALPHABET.

Lemma base32_group_symbols g : length (base32_group g) = 8%nat /\ Forall base32_symbol (base32_group g).
Proof.
  split; [done|]. apply Forall_fmap, Forall_forall. intros i _. unfold base32_symbol, compose.
  change 31 with (Z.ones 5). rewrite Z.land_ones by lia. apply list_elem_of_lookup_total_2.
  change (length BASE32_ALPHABET) with 32%nat. pose proof (Z.mod_pos_bound (Z.shiftr (group_bits g) (i * 5)) (2 ^ 5)). lia.
Qed.

Lemma five_chunk (n : nat) bs : length bs = (5 * S n)%nat ->
  exists g r, bs = g ++ r /\ length g = 5%nat /\ length r = (5 * n)%nat /\ base32 bs = base32_group g ++ base32 r.
Proof.
  destruct bs as [|a [|b [|c [|d [|e r] ] ] ] ]; cbn [length]; intros Hl; try lia.
  exists [a; b; c; d; e], r. split; [done|]. split; [done|]. split; [lia|]. done.
Qed.

Lemma base32_shape (n : nat) : forall bs, length bs = (5 * n)%nat ->
  length (base32 bs) = (8 * n)%nat /\ Forall base32_symbol (base32 bs).
Proof.
  induction n as [|n IH]; intros bs Hl; [destruct bs; [by split|cbn in Hl; lia]|].
  destruct (five_chunk n bs Hl) as (g & r & -> & _ & Hr & ->). destruct (IH r Hr). destruct (base32_group_symbols g) as [Hg ?].
  rewrite length_app, Hg. split; [lia|]. by apply Forall_app.
Qed.

Lemma base32_inj (n : nat) : forall bs1 bs2, length bs1 = (5 * n)%nat -> length bs2 = (5 * n)%nat ->
  bytes bs1 -> bytes bs2 -> base32 bs1 = base32 bs2 -> bs1 = bs2.
Proof.
  induction n as [|n IH]; intros bs1 bs2 H1 H2 B1 B2; [by destruct bs1, bs2; cbn in *; try lia|].
  destruct (five_chunk n bs1 H1) as (g1 & r1 & -> & L1 & R1 & ->).
  destruct (five_chunk n bs2 H2) as (g2 & r2 & -> & L2 & R2 & ->).
  apply Forall_app in B1 as [B1 B1']. apply Forall_app in B2 as [B2 B2'].
  intros [E1 E2]%app_inj_1; [|by rewrite !(proj1 (base32_group_symbols _))].
  f_equal; [by apply base32_group_inj|by apply IH].
Qed.

(** The store digest is 32 symbols of the pinned alphabet, and two
    derivations share one only if BLAKE3 gives them the same first 160 bits:
    the encoding itself loses nothing. *)
Theorem store_digest_faithful blake3 :
  (forall m, length (blake3 m) = 32%nat /\ bytes (blake3 m)) ->
  forall c1 c2, length (store_digest blake3 c1) = 32%nat /\ Forall base32_symbol (store_digest blake3 c1) /\
    (store_digest blake3 c1 = store_digest blake3 c2 <-> take 20 (blake3 c1) = take 20 (blake3 c2)).
Proof.
  intros Hh c1 c2. assert (forall c, length (take 20 (blake3 c)) = (5 * 4)%nat /\ bytes (take 20 (blake3 c))) as Ht.
  { intros c. destruct (Hh c) as [Hl Hb]. split; [rewrite length_take; lia|by apply Forall_take]. }
  destruct (base32_shape 4 _ (proj1 (Ht c1))) as [Hl Hs]. split; [done|]. split; [done|]. unfold store_digest.
  split; [|by intros ->]. apply (base32_inj 4); apply Ht.
Qed.

(** ** Names *)

Definition name_ok (n : str) : Prop :=
  (0 < length n <= 64)%nat /\ Forall (fun b => name_byte b = Some b) n /\
  exists first r, n = first :: r /\ lower first || ascii_digit first = true.

Lemma name_byte_idem b c : name_byte b = Some c -> name_byte c = Some c.
Proof. unfold name_byte, lower, upper, ascii_digit. repeat case_match; intros [= <-]; try done; lia. Qed.

(** A normalized name matches the grammar and is its own normal form; a name
    that does already is left alone. *)
Theorem normalize_name_idempotent name out :
  normalize_name name = Ok out -> name_ok out /\ length out = length name /\ normalize_name out = Ok out.
Proof.
  unfold normalize_name. destruct name as [|x name]; [done|]. cbn [nonempty negb orb].
  destruct (Z.ltb_spec 64 (Z.of_nat (length (x :: name)))) as [|Hlen]; [done|].
  destruct (mapM name_byte (x :: name)) as [o|] eqn:Em; [|done]. apply mapM_Some in Em.
  pose proof (Forall2_length _ _ _ Em) as Hl. destruct o as [|first r]; [done|].
  destruct (lower first || ascii_digit first) eqn:Hf; [|done]. intros [= <-].
  assert (Forall (fun b => name_byte b = Some b) (first :: r)) as Hid.
  { eapply Forall2_Forall_r; [exact Em|]. apply Forall_forall. intros b _ c. apply name_byte_idem. }
  split; [split; [cbn in *; lia|split; [done|eauto] ]|]. split; [done|].
  cbn [nonempty negb orb]. rewrite (proj2 (Z.ltb_ge _ _)) by lia.
  assert (mapM name_byte (first :: r) = Some (first :: r)) as ->; [|by rewrite Hf].
  apply mapM_Some_2. clear -Hid. induction Hid; constructor; done.
Qed.

(** ** Tree manifests *)

(** One entry of a source tree: its kind, its path, and the hash of its
    content, which has neither spaces nor line ends. *)
Record TreeEntry : Type := mkEntry { te_kind : EntryKind; te_path : str; te_hash : str }.

Definition tree_entry_ok (e : TreeEntry) : Prop := bytes (te_path e) /\ (LF ∉ te_hash e) /\ (32 ∉ te_hash e).

Definition entry_manifest (e : TreeEntry) : str := manifest_line (te_kind e) (te_path e) (te_hash e).

Lemma escape_value_inj v w : bytes v -> bytes w -> escape_value v = escape_value w -> v = w.
Proof.
  intros Hv Hw E. pose proof (unescape_escape v Hv) as H. rewrite E, unescape_escape in H by done. injection H as H.
  by apply echo_inj.
Qed.

Lemma last_sep_inj (sep : Z) (p1 h1 p2 h2 : str) : sep ∉ h1 -> sep ∉ h2 -> p1 ++ sep :: h1 = p2 ++ sep :: h2 -> p1 = p2 /\ h1 = h2.
Proof.
  intros H1 H2 E. assert (forall p h, sep ∉ h -> split_once sep (reverse (p ++ sep :: h)) = Some (reverse h, reverse p)) as Hs.
  { intros p h Hh. rewrite reverse_app, reverse_cons, <- app_assoc. apply split_once_app. by rewrite elem_of_reverse. }
  pose proof (Hs p1 h1 H1) as Hs1. rewrite E, Hs in Hs1 by done. injection Hs1 as Eh Ep.
  by apply (inj reverse) in Eh as ->; apply (inj reverse) in Ep as ->.
Qed.

Lemma entry_manifest_inj e1 e2 : tree_entry_ok e1 -> tree_entry_ok e2 -> entry_manifest e1 = entry_manifest e2 -> e1 = e2.
Proof.
  destruct e1 as [k1 p1 h1], e2 as [k2 p2 h2]. intros (B1 & _ & S1) (B2 & _ & S2). cbn in *.
  unfold entry_manifest, manifest_line. cbn [te_kind te_path te_hash]. intros [= Ht E].
  assert (k1 = k2) as -> by by destruct k1, k2.
  assert (forall p h, escape_value p ++ 32 :: h ++ [LF] = (escape_value p ++ 32 :: h) ++ [LF]) as Ha by (intros; by rewrite <- app_assoc).
  rewrite !Ha in E. apply app_inv_tail in E. apply last_sep_inj in E as [E ->]; [|done|done].
  by rewrite (escape_value_inj p1 p2).
Qed.

Lemma entry_manifest_line e : tree_entry_ok e -> exists x, entry_manifest e = x ++ [LF] /\ LF ∉ x.
Proof.
  intros (Hb & Hl & _). exists (tag (te_kind e) :: lit " " ++ escape_value (te_path e) ++ lit " " ++ te_hash e).
  unfold entry_manifest, manifest_line. split; [cbn; by rewrite <- app_assoc|].
  pose proof (escape_value_bytes _ Hb) as He. rewrite Forall_forall in He. change (lit " ") with [32].
  intros [Ht|[H|[H|[H|H]%elem_of_app]%elem_of_app]%elem_of_app]%elem_of_cons.
  - by destruct (te_kind e).
  - by apply list_elem_of_singleton in H.
  - by destruct (He _ H).
  - by apply list_elem_of_singleton in H.
  - done.
Qed.

Lemma concat_lines_inj l1 : forall l2, Forall (fun y => exists x, y = x ++ [LF] /\ LF ∉ x) l1 ->
  Forall (fun y => exists x, y = x ++ [LF] /\ LF ∉ x) l2 -> concat l1 = concat l2 -> l1 = l2.
Proof.
  induction l1 as [|y1 l1 IH]; intros [|y2 l2] H1 H2; try done.
  - apply Forall_cons in H2 as [(x & -> & _) _]. cbn. by destruct x.
  - apply Forall_cons in H1 as [(x & -> & _) _]. cbn. by destruct x.
  - apply Forall_cons in H1 as [(x1 & -> & N1) H1]. apply Forall_cons in H2 as [(x2 & -> & N2) H2].
    cbn [concat]. rewrite <- !app_assoc. cbn [app]. intros E.
    pose proof (split_once_app LF x1 (concat l1) N1) as Hs. rewrite E, split_once_app in Hs by done.
    injection Hs as -> Hc. f_equal. by apply IH.
Qed.

(** The hash of a source tree does not depend on the order its entries
    are listed in, and what is hashed determines the entries: two trees with
    different kinds, paths or content hashes have different manifests. *)
Theorem tree_manifest_exact es1 es2 : Forall tree_entry_ok es1 -> Forall tree_entry_ok es2 ->
  tree_manifest (entry_manifest <$> es1) = tree_manifest (entry_manifest <$> es2) <-> es1 ≡ₚ es2.
Proof.
  intros H1 H2. unfold tree_manifest. split; cycle 1.
  { intros Hp. by rewrite (sort_perm (entry_manifest <$> es1) (entry_manifest <$> es2)) by by rewrite Hp. }
  assert (forall es, Forall tree_entry_ok es ->
    Forall (fun y => exists x, y = x ++ [LF] /\ LF ∉ x) (merge_sort str_le (entry_manifest <$> es))) as Hl.
  { intros es Hes. rewrite merge_sort_Permutation. apply Forall_fmap. eapply Forall_impl; [exact Hes|]. apply entry_manifest_line. }
  intros E. apply concat_lines_inj in E; [|by apply Hl..].
  assert (entry_manifest <$> es1 ≡ₚ entry_manifest <$> es2) as Hp.
  { rewrite <- (merge_sort_Permutation str_le (entry_manifest <$> es1)), E. apply merge_sort_Permutation. }
  apply Permutation_map_inv in Hp as (es3 & Em & Hp). rewrite Hp. symmetry in Hp.
  assert (Forall tree_entry_ok es3) as H3 by (rewrite Hp in H2 || rewrite <- Hp in H2; done).
  clear -H1 H3 Em. revert es3 H3 Em. induction H1 as [|e1 es1 He1 _ IH]; intros [|e3 es3] H3 Em; try done.
  assert (entry_manifest e1 = entry_manifest e3 /\ entry_manifest <$> es1 = map entry_manifest es3) as [Ee Em']
    by exact (conj (f_equal (hd []) Em) (f_equal (@List.tl _) Em)).
  apply Forall_cons in H3 as [He3 H3]. rewrite (entry_manifest_inj e1 e3 He1 He3 Ee). f_equiv. by apply IH.
Qed.

(** ** Examples *)

Definition demo_cdf : CdfBuilder := <[lit "name" := lit "rkilo"]> {[ lit "phase.0" := lit "echo 100%" ]}.

Lemma demo_cdf_ok : cdf_ok demo_cdf.
Proof.
  apply map_Forall_insert_2; [|apply map_Forall_singleton]; (split; [by vm_compute|split; [by vm_compute|] ]).
  all: apply (bool_decide_unpack _); by vm_compute.
Qed.

Lemma parse_build_witness : parse (CdfBuilder_build demo_cdf) = Ok demo_cdf.
Proof.
  apply (proj2 (parse_build demo_cdf demo_cdf_ok)). apply map_Forall_insert_2; [|apply map_Forall_singleton].
  all: apply (bool_decide_unpack _); vm_compute; reflexivity.
Defined.

Lemma build_injective_witness : CdfBuilder_build demo_cdf <> CdfBuilder_build ∅.
Proof.
  intros E. assert (cdf_ok ∅) as He by apply map_Forall_empty.
  pose proof (build_injective demo_cdf ∅ demo_cdf_ok He E) as H. discriminate H.
Defined.

(** A stand-in for the hash. *)
Definition demo_hash (m : list Z) : list Z := replicate 32 (Z.of_nat (length m) mod 256).

Lemma store_digest_faithful_witness : store_digest demo_hash (lit "a") <> store_digest demo_hash (lit "ab").
Proof.
  assert (forall m, length (demo_hash m) = 32%nat /\ bytes (demo_hash m)) as Hh.
  { intros m. split; [reflexivity|]. apply Forall_replicate. apply Z.mod_pos_bound. reflexivity. }
  intros E. apply (proj2 (proj2 (store_digest_faithful demo_hash Hh (lit "a") (lit "ab")))) in E. discriminate E.
Defined.

Lemma tree_manifest_exact_witness :
  tree_manifest (entry_manifest <$> [mkEntry EkDir (lit "src") []; mkEntry EkFile (lit "src/a b") (lit "00")])
  = tree_manifest (entry_manifest <$> [mkEntry EkFile (lit "src/a b") (lit "00"); mkEntry EkDir (lit "src") []]).
Proof.
  assert (forall e, bool_decide (bytes (te_path e)) && bool_decide (LF ∉ te_hash e) && bool_decide (32 ∉ te_hash e) = true ->
    tree_entry_ok e) as Hok.
  { intros e [ [H1%bool_decide_eq_true_1 H2%bool_decide_eq_true_1]%andb_true_iff H3%bool_decide_eq_true_1]%andb_true_iff.
    exact (conj H1 (conj H2 H3)). }
  apply tree_manifest_exact.
  - repeat apply Forall_cons_2; [apply Hok; vm_compute; reflexivity..|apply Forall_nil_2].
  - repeat apply Forall_cons_2; [apply Hok; vm_compute; reflexivity..|apply Forall_nil_2].
  - apply perm_swap.
Defined.
