(* ===== verification/StoreFs.v ===== *)
(** * The file-system seam of the package store (pkg/shade-store: backend.rs, memfs.rs)

    The store reaches files through the trait [StoreFs], here a class of
    operations on a backend state; the helpers of backend.rs are computations
    over any instance.  [MemFs] is the instance of memfs.rs.  The recursion of
    the tree helpers follows directories: it takes a bound, and a computation
    that needs more ends in [None]. *)

From S2P Require Import Prelude Paths Text.

#[local] Open Scope Z_scope.

Inductive FsError : Type :=
| FeNotFound | FeExists | FeNotDir | FeIsDir | FeNotEmpty
| FeNoSpace | FeInvalid | FeReadOnly | FeDevice | FeUnsupported.

#[export] Instance FsError_eq_dec : EqDecision FsError.
Proof. solve_decision. Defined.

Inductive NodeKind : Type := NkFile | NkDir | NkSymlink | NkOther.

Record NodeMeta : Type := mkMeta { nm_kind : NodeKind; nm_exec : bool; nm_len : Z }.

Class StoreFs (S : Type) : Type := {
  metadata : str -> S -> result NodeMeta FsError * S;
  read_file : str -> S -> result (list Z) FsError * S;
  write_file : str -> list Z -> bool -> S -> result unit FsError * S;
  create_exclusive : str -> list Z -> S -> result unit FsError * S;
  mkdir : str -> S -> result unit FsError * S;
  rename : str -> str -> S -> result unit FsError * S;
  unlink : str -> S -> result unit FsError * S;
  rmdir : str -> S -> result unit FsError * S;
  read_dir : str -> S -> result (list (str * NodeKind)) FsError * S;
  read_link : str -> S -> result str FsError * S;
  symlink : str -> str -> S -> result unit FsError * S;
  sync_dir : str -> S -> result unit FsError * S;
  unique_token : S -> Z * S
}.

(** A backend and the counter of [temp_sibling], a static of the crate. *)
Record World (S : Type) : Type := mkWorld { w_fs : S; w_counter : Z }.
Arguments mkWorld {S} w_fs w_counter.
Arguments w_fs {S} w.
Arguments w_counter {S} w.

Definition FsM (S A : Type) : Type := World S -> option (A * World S).

#[export] Instance fsm_ret {S} : MRet (FsM S) := fun A a w => Some (a, w).
#[export] Instance fsm_bind {S} : MBind (FsM S) := fun A B f m w =>
  match m w with Some (a, w') => f a w' | None => None end.

(** One operation of the backend. *)
Definition call {S A} (f : S -> A * S) : FsM S A := fun w =>
  let '(a, s) := f (w_fs w) in Some (a, mkWorld s (w_counter w)).

(** The recursion bound is used up. *)
Definition deep {S A} : FsM S A := fun _ => None.

(** The [?] operator. *)
Definition try_bind {S A B E} (m : FsM S (result A E)) (k : A -> FsM S (result B E)) : FsM S (result B E) :=
  r ← m; match r with Ok a => k a | Err e => mret (Err e) end.

Declare Scope store_scope.
Delimit Scope store_scope with store.
Notation "x ←? m ; k" := (try_bind m (fun x => k))
  (at level 20, m at level 100, k at level 200, only parsing) : store_scope.
#[local] Open Scope store_scope.

Fixpoint for_each {S A} (l : list A) (f : A -> FsM S unit) : FsM S unit :=
  match l with [] => mret tt | x :: l' => _ ← f x; for_each l' f end.

Fixpoint for_try {S A E} (l : list A) (f : A -> FsM S (result unit E)) : FsM S (result unit E) :=
  match l with [] => mret (Ok tt) | x :: l' => u ←? f x; for_try l' f end.

Definition join (dir name : str) : str := trim_end SLASH dir ++ SLASH :: name.

Definition split_parent (path : str) : str * str :=
  match rsplit_slash (trim_end SLASH path) with
  | Some ([], name) => ([SLASH], name)
  | Some (parent, name) => (parent, name)
  | None => (lit ".", path)
  end.

Section helpers.
Context {S : Type} `{StoreFs S}.

(** The default method [exists]. *)
Definition exists_ (path : str) (s : S) : bool * S := let '(r, s') := metadata path s in (is_ok r, s').

(** The loop of [create_dir_all]; [prefix] is the path built so far. *)
Fixpoint mkdir_all (comps : list str) (prefix : str) : FsM S (result unit FsError) :=
  match comps with
  | [] => mret (Ok tt)
  | comp :: comps' =>
      let prefix1 := if ends_with_slash prefix then prefix else prefix ++ [SLASH] in
      let prefix2 := prefix1 ++ comp in
      r ← call (mkdir prefix2);
      match r with
      | Ok _ | Err FeExists => mkdir_all comps' prefix2
      | Err e => mret (Err e)
      end
  end.

Definition create_dir_all (path : str) : FsM S (result unit FsError) :=
  mkdir_all (comps_of path) (if starts_with_slash path then [SLASH] else []).

Fixpoint copy_tree (fuel : nat) (src dst : str) : FsM S (result unit FsError) :=
  match fuel with
  | O => deep
  | Datatypes.S fuel' =>
      meta ←? call (metadata src);
      match nm_kind meta with
      | NkSymlink =>
          target ←? call (read_link src);
          call (symlink target dst)
      | NkDir =>
          u ←? create_dir_all dst;
          entries ←? call (read_dir src);
          for_try entries (fun e => copy_tree fuel' (join src e.1) (join dst e.1))
      | NkFile | NkOther =>
          u ←? create_dir_all (split_parent dst).1;
          data ←? call (read_file src);
          call (write_file dst data (nm_exec meta))
      end
  end.

Fixpoint remove_tree (fuel : nat) (path : str) : FsM S unit :=
  match fuel with
  | O => deep
  | Datatypes.S fuel' =>
      r ← call (metadata path);
      match r with
      | Ok meta =>
          match nm_kind meta with
          | NkDir =>
              es ← call (read_dir path);
              _ ← match es with
                  | Ok entries => for_each entries (fun e => remove_tree fuel' (join path e.1))
                  | Err _ => mret tt
                  end;
              _ ← call (rmdir path);
              mret tt
          | _ => _ ← call (unlink path); mret tt
          end
      | Err _ => mret tt
      end
  end.

(** [Ok(()) | Err(NotFound) => Ok(())] *)
Definition gone_ok (r : result unit FsError) : result unit FsError :=
  match r with Err FeNotFound => Ok tt | r => r end.

(** The default method [remove_store_path]. *)
Fixpoint remove_store_path (fuel : nat) (path : str) : FsM S (result unit FsError) :=
  match fuel with
  | O => deep
  | Datatypes.S fuel' =>
      r ← call (metadata path);
      match r with
      | Ok meta =>
          match nm_kind meta with
          | NkDir =>
              es ← call (read_dir path);
              u ←? match es with
                   | Ok entries => for_try entries (fun e => remove_store_path fuel' (join path e.1))
                   | Err _ => mret (Ok tt)
                   end;
              r' ← call (rmdir path);
              mret (gone_ok r')
          | _ => r' ← call (unlink path); mret (gone_ok r')
          end
      | Err FeNotFound => mret (Ok tt)
      | Err e => mret (Err e)
      end
  end.

Definition next_counter : FsM S Z := fun w =>
  Some (wrap 64 (w_counter w), mkWorld (w_fs w) (wrap 64 (w_counter w + 1))).

Definition temp_sibling (dir final_name kind : str) : FsM S str :=
  n ← next_counter;
  token ← call unique_token;
  mret (join dir (lit ".tmp-" ++ kind ++ lit "-" ++ final_name ++ lit "-" ++ dec token ++ lit "-" ++ dec n)).

End helpers.

(** ** memfs.rs *)

Inductive MNode : Type :=
| MFile (data : list Z) (exec : bool)
| MDir
| MSymlink (target : str).

#[export] Instance MNode_eq_dec : EqDecision MNode.
Proof. solve_decision. Defined.

Record MemFs : Type := mkMemFs {
  mf_nodes : gmap str MNode;
  mf_ops : list (str * str);
  mf_token : Z
}.

Definition MemFs_new : MemFs := mkMemFs {[ [SLASH] := MDir ]} [] 0.

Definition log (op target : str) (m : MemFs) : MemFs :=
  mkMemFs (mf_nodes m) (mf_ops m ++ [(op, target)]) (mf_token m).

Definition set_nodes (nodes : gmap str MNode) (m : MemFs) : MemFs := mkMemFs nodes (mf_ops m) (mf_token m).

Definition require_parent_dir (path : str) (m : MemFs) : result unit FsError :=
  match mf_nodes m !! (split_parent path).1 with
  | Some MDir => Ok tt
  | Some _ => Err FeNotDir
  | None => Err FeNotFound
  end.

Definition meta_of (n : MNode) : NodeMeta :=
  match n with
  | MFile data exec => mkMeta NkFile exec (Z.of_nat (length data))
  | MDir => mkMeta NkDir false 0
  | MSymlink _ => mkMeta NkSymlink false 0
  end.

Definition mem_metadata (path : str) (m : MemFs) : result NodeMeta FsError * MemFs :=
  (match mf_nodes m !! path with Some n => Ok (meta_of n) | None => Err FeNotFound end, m).

Definition mem_read_file (path : str) (m : MemFs) : result (list Z) FsError * MemFs :=
  (match mf_nodes m !! path with
   | Some (MFile data _) => Ok data
   | Some MDir => Err FeIsDir
   | Some (MSymlink _) => Err FeInvalid
   | None => Err FeNotFound
   end, m).

(** The shared part of [write_file], [mkdir] and [symlink]: a new node. *)
Definition mem_create (op path : str) (n : MNode) (m : MemFs) : result unit FsError * MemFs :=
  match mf_nodes m !! path with
  | Some _ => (Err FeExists, m)
  | None =>
      match require_parent_dir path m with
      | Err e => (Err e, m)
      | Ok _ => (Ok tt, set_nodes (<[path := n]> (mf_nodes m)) (log op path m))
      end
  end.

Definition mem_write_file (path : str) (data : list Z) (exec : bool) : MemFs -> result unit FsError * MemFs :=
  mem_create (lit "write") path (MFile data exec).

Definition mem_mkdir (path : str) : MemFs -> result unit FsError * MemFs := mem_create (lit "mkdir") path MDir.

Definition mem_symlink (target link : str) : MemFs -> result unit FsError * MemFs :=
  mem_create (lit "symlink") link (MSymlink target).

(** The loop of [rename] over the moved keys. *)
Definition move_node (old new : str) (nodes : gmap str MNode) (k : str) : gmap str MNode :=
  match nodes !! k with
  | Some n => <[new ++ drop (length old) k := n]> (delete k nodes)
  | None => nodes
  end.

Definition mem_rename (old new : str) (m : MemFs) : result unit FsError * MemFs :=
  match mf_nodes m !! old with
  | None => (Err FeNotFound, m)
  | Some _ =>
      match mf_nodes m !! new with
      | Some _ => (Err FeExists, m)
      | None =>
          match require_parent_dir new m with
          | Err e => (Err e, m)
          | Ok _ =>
              let moved := List.filter (fun k => bool_decide (k = old) || starts_with (old ++ [SLASH]) k) (keys (mf_nodes m)) in
              (Ok tt, set_nodes (foldl (move_node old new) (mf_nodes m) moved)
                        (log (lit "rename_dst") new (log (lit "rename_src") old m)))
          end
      end
  end.

Definition mem_unlink (path : str) (m : MemFs) : result unit FsError * MemFs :=
  match mf_nodes m !! path with
  | Some MDir => (Err FeIsDir, m)
  | Some _ => (Ok tt, set_nodes (delete path (mf_nodes m)) (log (lit "unlink") path m))
  | None => (Err FeNotFound, m)
  end.

Definition mem_rmdir (path : str) (m : MemFs) : result unit FsError * MemFs :=
  match mf_nodes m !! path with
  | Some MDir =>
      if existsb (starts_with (path ++ [SLASH])) (keys (mf_nodes m)) then (Err FeNotEmpty, m)
      else (Ok tt, set_nodes (delete path (mf_nodes m)) (log (lit "rmdir") path m))
  | Some _ => (Err FeNotDir, m)
  | None => (Err FeNotFound, m)
  end.

(** The loop of [read_dir] over [nodes.range(prefix..)]. *)
Fixpoint dir_scan (nodes : gmap str MNode) (prefix : str) (ks : list str) : list (str * NodeKind) :=
  match ks with
  | [] => []
  | k :: ks' =>
      match strip_prefix prefix k with
      | None => []
      | Some rest =>
          if negb (nonempty rest) || bool_decide (SLASH ∈ rest) then dir_scan nodes prefix ks'
          else match nodes !! k with
               | Some n => (rest, nm_kind (meta_of n)) :: dir_scan nodes prefix ks'
               | None => dir_scan nodes prefix ks'
               end
      end
  end.

Definition mem_read_dir (path : str) (m : MemFs) : result (list (str * NodeKind)) FsError * MemFs :=
  (match mf_nodes m !! path with
   | Some MDir =>
       let prefix := if bool_decide (path = [SLASH]) then [SLASH] else path ++ [SLASH] in
       Ok (dir_scan (mf_nodes m) prefix (List.filter (str_leb prefix) (keys (mf_nodes m))))
   | Some _ => Err FeNotDir
   | None => Err FeNotFound
   end, m).

Definition mem_read_link (path : str) (m : MemFs) : result str FsError * MemFs :=
  (match mf_nodes m !! path with
   | Some (MSymlink t) => Ok t
   | Some _ => Err FeInvalid
   | None => Err FeNotFound
   end, m).

Definition mem_unique_token (m : MemFs) : Z * MemFs :=
  let t := wrap 64 (mf_token m + 1) in (t, mkMemFs (mf_nodes m) (mf_ops m) t).

#[export] Instance MemFs_fs : StoreFs MemFs := {
  metadata := mem_metadata;
  read_file := mem_read_file;
  write_file := mem_write_file;
  create_exclusive path data := mem_write_file path data false;
  mkdir := mem_mkdir;
  rename := mem_rename;
  unlink := mem_unlink;
  rmdir := mem_rmdir;
  read_dir := mem_read_dir;
  read_link := mem_read_link;
  symlink := mem_symlink;
  sync_dir _ m := (Ok tt, m);
  unique_token := mem_unique_token
}.
