(* ===== verification/StoreLaws.v ===== *)
(** * What the store relies on in a backend

    [Honest] backends may fail at any time, but an operation that answers an
    error has changed nothing (a failed write may leave a part of its file) and
    one that answers a value has done its work: a disk that fails, or a machine
    that stops, is such a backend.  [rename] never replaces, as on RFS2.
    [Reliable] backends moreover do not fail when an operation makes sense.  Paths are
    lists of components; [look] is the tree a backend holds.  The section on
    [Dying] turns any honest backend into one that stops after some number of
    changes; [MemFs] is honest and reliable. *)

From S2P Require Import Prelude Paths Text StoreFs.

#[local] Open Scope Z_scope.

Abbreviation path := (list str).
Abbreviation P := rel_path.
Definition good (cs : path) : Prop := Forall good_comp cs.
Abbreviation tree := (path -> option MNode).

#[export] Instance good_comp_dec c : Decision (good_comp c).
Proof. unfold good_comp. apply _. Defined.
#[export] Instance good_dec cs : Decision (good cs).
Proof. unfold good. apply _. Defined.

Definition same_tree (f g : tree) : Prop := forall cs, g cs = f cs.

Definition creates (cs : path) (n : MNode) (f g : tree) : Prop :=
  f cs = None /\ forall cs', g cs' = if decide (cs' = cs) then Some n else f cs'.

Definition removes (cs : path) (f g : tree) : Prop :=
  forall cs', g cs' = if decide (cs' = cs) then None else f cs'.

(** [b] gets what was at and below [a]. *)
Definition renames (a b : path) (f g : tree) : Prop :=
  is_Some (f a) /\ f b = None /\ (forall r, g (b ++ r) = f (a ++ r)) /\ (forall r, g (a ++ r) = None) /\
  forall cs, ~ a `prefix_of` cs -> ~ b `prefix_of` cs -> g cs = f cs.

Definition leaf (n : MNode) : bool := match n with MDir => false | _ => true end.

(** What a failed write leaves: nothing, or a part of the file. *)
Definition torn (cs : path) (x : bool) (f g : tree) : Prop :=
  same_tree f g \/ exists d, creates cs (MFile d x) f g.

Class Honest (S : Type) `{StoreFs S} : Type := {
  fs_ok : S -> Prop;
  look : S -> tree;
  fs_paths : S -> list path;
  h_good : forall s cs, is_Some (look s cs) -> good cs;
  h_parent : forall s cs c, fs_ok s -> is_Some (look s (cs ++ [c])) -> look s cs = Some MDir;
  h_paths : forall s cs, fs_ok s -> is_Some (look s cs) -> cs ∈ fs_paths s;
  h_metadata_state : forall p s, (metadata p s).2 = s;
  h_read_file_state : forall p s, (read_file p s).2 = s;
  h_read_dir_state : forall p s, (read_dir p s).2 = s;
  h_read_link_state : forall p s, (read_link p s).2 = s;
  h_sync : forall p s, fs_ok s -> fs_ok (sync_dir p s).2 /\ same_tree (look s) (look (sync_dir p s).2);
  h_token : forall s, fs_ok s -> fs_ok (unique_token s).2 /\ same_tree (look s) (look (unique_token s).2);
  h_token_range : forall s, in_u 64 (unique_token s).1;
  h_metadata : forall cs s, fs_ok s -> good cs ->
    match (metadata (P cs) s).1 with
    | Ok m => exists n, look s cs = Some n /\ m = meta_of n
    | Err e => e = FeNotFound -> look s cs = None
    end;
  h_read_file : forall cs s, fs_ok s -> good cs ->
    match (read_file (P cs) s).1 with
    | Ok d => exists x, look s cs = Some (MFile d x)
    | Err e => e = FeNotFound -> look s cs = None
    end;
  h_read_dir : forall cs s, fs_ok s -> good cs ->
    match (read_dir (P cs) s).1 with
    | Ok es => look s cs = Some MDir /\ NoDup es.*1 /\ forall c, c ∈ es.*1 <-> is_Some (look s (cs ++ [c]))
    | Err e => e = FeNotFound -> look s cs = None
    end;
  h_read_link : forall cs s t, fs_ok s -> good cs -> (read_link (P cs) s).1 = Ok t -> look s cs = Some (MSymlink t);
  h_write : forall cs d x s, fs_ok s -> good cs -> let '(r, s') := write_file (P cs) d x s in
    fs_ok s' /\ if is_ok r then creates cs (MFile d x) (look s) (look s') else torn cs x (look s) (look s');
  h_create : forall cs d s, fs_ok s -> good cs -> let '(r, s') := create_exclusive (P cs) d s in
    fs_ok s' /\ (if is_ok r then creates cs (MFile d false) (look s) (look s') else torn cs false (look s) (look s')) /\
    (r = Err FeExists -> is_Some (look s cs));
  h_mkdir : forall cs s, fs_ok s -> good cs -> let '(r, s') := mkdir (P cs) s in
    fs_ok s' /\ (if is_ok r then creates cs MDir (look s) (look s') else same_tree (look s) (look s')) /\
    (r = Err FeExists -> is_Some (look s cs));
  h_symlink : forall t cs s, fs_ok s -> good cs -> let '(r, s') := symlink t (P cs) s in
    fs_ok s' /\ if is_ok r then creates cs (MSymlink t) (look s) (look s') else same_tree (look s) (look s');
  h_unlink : forall cs s, fs_ok s -> good cs -> let '(r, s') := unlink (P cs) s in
    fs_ok s' /\ (if is_ok r then (exists n, look s cs = Some n /\ leaf n = true) /\ removes cs (look s) (look s')
                 else same_tree (look s) (look s')) /\ (r = Err FeNotFound -> look s cs = None);
  h_rmdir : forall cs s, fs_ok s -> good cs -> cs <> [] -> let '(r, s') := rmdir (P cs) s in
    fs_ok s' /\ (if is_ok r then (look s cs = Some MDir /\ forall c, look s (cs ++ [c]) = None) /\ removes cs (look s) (look s')
                 else same_tree (look s) (look s')) /\ (r = Err FeNotFound -> look s cs = None);
  h_rename : forall a b s, fs_ok s -> good a -> good b -> ~ a `prefix_of` b -> let '(r, s') := rename (P a) (P b) s in
    fs_ok s' /\ if is_ok r then renames a b (look s) (look s') else same_tree (look s) (look s')
}.

(** The parent of [cs], if it has one, is a directory. *)
Definition has_parent (f : tree) (cs : path) : Prop := exists ds c, cs = ds ++ [c] /\ f ds = Some MDir.

Class Reliable (S : Type) `{Honest S} : Prop := {
  r_metadata : forall cs s, fs_ok s -> good cs ->
    (metadata (P cs) s).1 = match look s cs with Some n => Ok (meta_of n) | None => Err FeNotFound end;
  r_read_file : forall cs s d x, fs_ok s -> look s cs = Some (MFile d x) -> (read_file (P cs) s).1 = Ok d;
  r_no_file : forall cs s, fs_ok s -> good cs -> look s cs = None -> (read_file (P cs) s).1 = Err FeNotFound;
  r_read_dir : forall cs s, fs_ok s -> look s cs = Some MDir -> is_ok (read_dir (P cs) s).1 = true;
  r_no_dir : forall cs s, fs_ok s -> good cs -> look s cs = None -> (read_dir (P cs) s).1 = Err FeNotFound;
  r_read_link : forall cs s t, fs_ok s -> look s cs = Some (MSymlink t) -> (read_link (P cs) s).1 = Ok t;
  r_write : forall cs d x s, fs_ok s -> good cs -> look s cs = None -> has_parent (look s) cs ->
    (write_file (P cs) d x s).1 = Ok tt;
  r_create : forall cs d s, fs_ok s -> good cs -> has_parent (look s) cs ->
    (create_exclusive (P cs) d s).1 = match look s cs with None => Ok tt | Some _ => Err FeExists end;
  r_mkdir : forall cs s, fs_ok s -> good cs -> has_parent (look s) cs ->
    (mkdir (P cs) s).1 = match look s cs with None => Ok tt | Some _ => Err FeExists end;
  r_symlink : forall t cs s, fs_ok s -> good cs -> look s cs = None -> has_parent (look s) cs ->
    (symlink t (P cs) s).1 = Ok tt;
  r_unlink : forall cs s n, fs_ok s -> look s cs = Some n -> leaf n = true -> (unlink (P cs) s).1 = Ok tt;
  r_no_unlink : forall cs s, fs_ok s -> good cs -> look s cs = None -> (unlink (P cs) s).1 = Err FeNotFound;
  r_rmdir : forall cs s, fs_ok s -> cs <> [] -> look s cs = Some MDir -> (forall c, look s (cs ++ [c]) = None) ->
    (rmdir (P cs) s).1 = Ok tt;
  r_rename : forall a b s, fs_ok s -> good b -> ~ a `prefix_of` b -> is_Some (look s a) -> look s b = None ->
    has_parent (look s) b -> (rename (P a) (P b) s).1 = Ok tt;
  r_rename_exists : forall a b s, fs_ok s -> ~ a `prefix_of` b -> is_Some (look s a) -> is_Some (look s b) ->
    (rename (P a) (P b) s).1 = Err FeExists
}.

(** ** Paths *)

Lemma good_snoc cs c : good (cs ++ [c]) <-> good cs /\ good_comp c.
Proof. unfold good. by rewrite Forall_app, Forall_singleton. Qed.

Lemma P_inj cs ds : good cs -> good ds -> P cs = P ds -> cs = ds.
Proof. intros Hc Hd E. by rewrite <- (comps_of_rel_path cs Hc), E, comps_of_rel_path. Qed.

Lemma P_length cs : good cs -> (length cs <= length (P cs))%nat.
Proof.
  intros Hg. destruct cs as [|c cs]; [cbn; lia|]. unfold P. clear Hg. generalize (c :: cs). intros l.
  induction l as [|x l IH]; [done|]. cbn [map concat length]. rewrite length_app. cbn [length]. lia.
Qed.

Lemma trim_end_id (s : str) x : x <> SLASH -> trim_end SLASH (s ++ [x]) = s ++ [x].
Proof.
  intros Hx. induction s as [|y s IH]; cbn; [by rewrite (proj2 (Z.eqb_neq x SLASH))|]. rewrite IH. by destruct s.
Qed.

Lemma P_last cs c : exists q, P (cs ++ [c]) = q ++ SLASH :: c.
Proof.
  destruct cs as [|d cs]; [exists []; cbn; by rewrite app_nil_r|]. exists (P (d :: cs)). by rewrite rel_path_snoc.
Qed.

Lemma trim_P cs c : good (cs ++ [c]) -> trim_end SLASH (P (cs ++ [c])) = P (cs ++ [c]).
Proof.
  intros [_ [Hne Hs] ]%good_snoc. destruct (P_last cs c) as [q ->].
  destruct c as [|y c _] using rev_ind; [done|]. change (q ++ SLASH :: c ++ [y]) with (q ++ (SLASH :: c) ++ [y]).
  rewrite app_assoc. apply trim_end_id. intros ->. set_solver.
Qed.

Lemma P_snoc cs c : good cs -> P (cs ++ [c]) = trim_end SLASH (P cs) ++ SLASH :: c.
Proof.
  intros Hg. destruct cs as [|d cs _] using rev_ind; [cbn; by rewrite app_nil_r|].
  rewrite trim_P by done. apply rel_path_snoc. by destruct cs.
Qed.

Lemma join_P cs c : good cs -> join (P cs) c = P (cs ++ [c]).
Proof. intros Hg. unfold join. by rewrite P_snoc. Qed.

Lemma split_parent_P cs c : good (cs ++ [c]) -> split_parent (P (cs ++ [c])) = (P cs, c).
Proof.
  intros Hg. unfold split_parent. rewrite trim_P by done. pose proof (proj1 (good_snoc cs c) Hg) as [Hcs [_ Hs] ].
  destruct cs as [|d cs].
  { assert (P ([] ++ [c]) = [] ++ SLASH :: c) as -> by (cbn; by rewrite app_nil_r). by rewrite rsplit_slash_snoc. }
  rewrite rel_path_snoc, rsplit_slash_snoc by done. by destruct d.
Qed.

Lemma good_app cs ds : good (cs ++ ds) <-> good cs /\ good ds.
Proof. apply Forall_app. Qed.

Lemma P_below cs ds : cs <> [] -> ds <> [] -> P (cs ++ ds) = P cs ++ P ds.
Proof. apply rel_path_app. Qed.

(** ** Backends that stop *)

(** A backend that makes [dy_left] more changes and then answers nothing but
    errors: what is left of it is what a crash leaves.  If the last change is a
    write, only the first [dy_torn] bytes arrive. *)
Record Dying (S : Type) : Type := mkDying { dy_fs : S; dy_left : nat; dy_torn : nat }.
Arguments mkDying {S} dy_fs dy_left dy_torn.
Arguments dy_fs {S} d.
Arguments dy_left {S} d.
Arguments dy_torn {S} d.

Definition changing {S A} (f : S -> result A FsError * S) (d : Dying S) : result A FsError * Dying S :=
  match dy_left d with
  | O => (Err FeDevice, d)
  | Datatypes.S n => let '(r, s) := f (dy_fs d) in (r, mkDying s n (dy_torn d))
  end.

Definition tearing {S} (f : list Z -> S -> result unit FsError * S) (data : list Z) (d : Dying S) : result unit FsError * Dying S :=
  match dy_left d with
  | O => (Err FeDevice, d)
  | 1%nat => let '(_, s) := f (take (dy_torn d) data) (dy_fs d) in (Err FeDevice, mkDying s 0 (dy_torn d))
  | Datatypes.S n => let '(r, s) := f data (dy_fs d) in (r, mkDying s n (dy_torn d))
  end.

Definition reading {S A} (f : S -> result A FsError * S) (d : Dying S) : result A FsError * Dying S :=
  match dy_left d with
  | O => (Err FeDevice, d)
  | n => let '(r, s) := f (dy_fs d) in (r, mkDying s n (dy_torn d))
  end.

#[export] Instance Dying_fs {S} `{StoreFs S} : StoreFs (Dying S) := {
  metadata p := reading (metadata p);
  read_file p := reading (read_file p);
  write_file p data x := tearing (fun data => write_file p data x) data;
  create_exclusive p := tearing (create_exclusive p);
  mkdir p := changing (mkdir p);
  rename p q := changing (rename p q);
  unlink p := changing (unlink p);
  rmdir p := changing (rmdir p);
  read_dir p := reading (read_dir p);
  read_link p := reading (read_link p);
  symlink t p := changing (symlink t p);
  sync_dir p := changing (sync_dir p);
  unique_token d := let '(t, s) := unique_token (dy_fs d) in (t, mkDying s (dy_left d) (dy_torn d))
}.

Section dying.
Context {S : Type} `{Honest S}.

Lemma reading_state {A} (f : S -> result A FsError * S) d : (forall s, (f s).2 = s) -> (reading f d).2 = d.
Proof.
  intros Hf. unfold reading. destruct d as [s [|n] k]; [done|]. cbn [dy_left dy_fs]. specialize (Hf s).
  destruct (f s) as [r s']. cbn in *. by subst.
Qed.

(** A fact about errors other than "not found" is a fact about an answer that
    comes after the end. *)
Lemma reading_fact {A} (f : S -> result A FsError * S) d (Q : result A FsError -> Prop) :
  Q (f (dy_fs d)).1 -> Q (Err FeDevice) -> Q (reading f d).1.
Proof. unfold reading. destruct d as [s [|n] k]; [done|]. cbn [dy_left dy_fs]. by destruct (f s) as [r s']. Qed.

Lemma half_torn cs (r : result unit FsError) v x (f g : tree) :
  (if is_ok r then creates cs (MFile v x) f g else torn cs x f g) -> torn cs x f g.
Proof. destruct r; cbn; [|done]. intros Hc. right. by exists v. Qed.

(** The law [law] of an operation, for the backend that stops. *)
Ltac dying d law :=
  cbn; unfold changing; destruct (dy_left d) as [|n]; [cbn; split_and?; done|];
  generalize law; match goal with |- context [let '(_, _) := ?t in (_, mkDying _ _ _)] => destruct t end; done.

#[export] Program Instance Dying_honest : Honest (Dying S) := {
  fs_ok d := fs_ok (dy_fs d);
  look d := look (dy_fs d);
  fs_paths d := fs_paths (dy_fs d)
}.
Next Obligation. intros d cs. apply h_good. Qed.
Next Obligation. intros d cs c. apply h_parent. Qed.
Next Obligation. intros d cs. apply h_paths. Qed.
Next Obligation. intros p d. apply reading_state. intros; apply h_metadata_state. Qed.
Next Obligation. intros p d. apply reading_state. intros; apply h_read_file_state. Qed.
Next Obligation. intros p d. apply reading_state. intros; apply h_read_dir_state. Qed.
Next Obligation. intros p d. apply reading_state. intros; apply h_read_link_state. Qed.
Next Obligation.
  intros p d Hd. cbn. unfold changing. destruct (dy_left d) as [|n]; [by split|].
  pose proof (h_sync p (dy_fs d) Hd) as Hs. by destruct (sync_dir p (dy_fs d)).
Qed.
Next Obligation. intros d Hd. cbn. pose proof (h_token (dy_fs d) Hd) as Hs. by destruct (unique_token (dy_fs d)). Qed.
Next Obligation. intros d. cbn. pose proof (h_token_range (dy_fs d)) as Hs. by destruct (unique_token (dy_fs d)). Qed.
Next Obligation.
  intros cs d Hd Hg. cbn. apply reading_fact; [by apply h_metadata|done].
Qed.
Next Obligation. intros cs d Hd Hg. cbn. apply reading_fact; [by apply h_read_file|done]. Qed.
Next Obligation. intros cs d Hd Hg. cbn. apply reading_fact; [by apply h_read_dir|done]. Qed.
Next Obligation.
  intros cs d t Hd Hg. cbn. apply (reading_fact _ _ (fun r => r = Ok t -> _)); [by apply h_read_link|done].
Qed.
Next Obligation.
  intros cs v x d Hd Hg. cbn. unfold tearing. destruct (dy_left d) as [|[|n] ]; [split; [done|by left]| |].
  - pose proof (h_write cs (take (dy_torn d) v) x (dy_fs d) Hd Hg) as Hl. destruct (write_file _ _ _ _) as [r s'].
    split; [apply Hl|]. eapply half_torn, Hl.
  - pose proof (h_write cs v x (dy_fs d) Hd Hg) as Hl. by destruct (write_file _ _ _ _).
Qed.
Next Obligation.
  intros cs v d Hd Hg. cbn. unfold tearing. destruct (dy_left d) as [|[|n] ]; [split; [done|]; split; [by left|done]| |].
  - pose proof (h_create cs (take (dy_torn d) v) (dy_fs d) Hd Hg) as Hl.
    destruct (create_exclusive _ _ _) as [r s']. destruct Hl as (Ho & Hl & _). split; [done|]. split; [|done].
    eapply half_torn, Hl.
  - pose proof (h_create cs v (dy_fs d) Hd Hg) as Hl. by destruct (create_exclusive _ _ _).
Qed.
Next Obligation. intros cs d Hd Hg. dying d (h_mkdir cs (dy_fs d) Hd Hg). Qed.
Next Obligation. intros t cs d Hd Hg. dying d (h_symlink t cs (dy_fs d) Hd Hg). Qed.
Next Obligation. intros cs d Hd Hg. dying d (h_unlink cs (dy_fs d) Hd Hg). Qed.
Next Obligation. intros cs d Hd Hg Hne. dying d (h_rmdir cs (dy_fs d) Hd Hg Hne). Qed.
Next Obligation. intros a b d Hd Ha Hb Hp. dying d (h_rename a b (dy_fs d) Hd Ha Hb Hp). Qed.

End dying.
