(* ===== verification/StoreRun.v ===== *)
(** * The tree helpers of the store (pkg/shade-store/src/backend.rs)

    Total correctness of computations over a backend, and what
    [create_dir_all], [copy_tree], [remove_tree] and [remove_store_path] do to
    the tree of an honest, or a reliable, backend. *)

From S2P Require Import Prelude Paths Text StoreFs StoreLaws.

#[local] Open Scope Z_scope.

(** [m] returns, with an answer and a world in [Q]. *)
Definition wp {S A} (m : FsM S A) (Q : A -> World S -> Prop) (w : World S) : Prop :=
  match m w with Some (a, w') => Q a w' | None => False end.

Lemma wp_ret {S A} (a : A) (Q : A -> World S -> Prop) w : Q a w -> wp (mret a) Q w.
Proof. done. Qed.

Lemma wp_bind {S A B} (m : FsM S A) (k : A -> FsM S B) Q w :
  wp m (fun a w' => wp (k a) Q w') w -> wp (m ≫= k) Q w.
Proof. unfold wp, mbind, fsm_bind. by destruct (m w) as [ [a w']|]. Qed.

Lemma wp_try {S A B E} (m : FsM S (result A E)) (k : A -> FsM S (result B E)) Q w :
  wp m (fun r w' => match r with Ok a => wp (k a) Q w' | Err e => Q (Err e) w' end) w -> wp (try_bind m k) Q w.
Proof.
  intros H. unfold try_bind. apply wp_bind. unfold wp in *. destruct (m w) as [ [ [a|e] w']|]; done.
Qed.

Lemma wp_mono {S A} (m : FsM S A) (Q R : A -> World S -> Prop) w :
  wp m Q w -> (forall a w', Q a w' -> R a w') -> wp m R w.
Proof. unfold wp. destruct (m w) as [ [a w']|]; [|done]. intros H HQR. by apply HQR. Qed.

Lemma wp_call {S A} (f : S -> A * S) Q w :
  (let '(r, s') := f (w_fs w) in Q r (mkWorld s' (w_counter w))) -> wp (call f) Q w.
Proof. unfold wp, call. by destruct (f (w_fs w)). Qed.

Lemma wp_read {S A} (f : S -> A * S) Q w :
  (forall s, (f s).2 = s) -> Q (f (w_fs w)).1 w -> wp (call f) Q w.
Proof.
  intros Hf HQ. apply wp_call. specialize (Hf (w_fs w)). destruct (f (w_fs w)) as [r s']. cbn in *. subst. by destruct w.
Qed.

Lemma wp_for_each {S A} (l : list A) (f : A -> FsM S unit) (I : list A -> World S -> Prop) w :
  I l w -> (forall x l' w', I (x :: l') w' -> wp (f x) (fun _ w'' => I l' w'') w') ->
  wp (for_each l f) (fun _ w' => I [] w') w.
Proof.
  intros HI Hf. revert w HI. induction l as [|x l IH]; intros w HI; [done|]. cbn [for_each]. apply wp_bind.
  eapply wp_mono; [by apply Hf|]. intros ? w' HI'. by apply IH.
Qed.

(** A loop that stops at the first error: [I] while it runs, [E] then. *)
Lemma wp_for_try {S A B} (l : list A) (f : A -> FsM S (result unit B)) (I : list A -> World S -> Prop)
    (E : B -> World S -> Prop) w :
  I l w ->
  (forall x l' w', I (x :: l') w' -> wp (f x) (fun r w'' => match r with Ok _ => I l' w'' | Err e => E e w'' end) w') ->
  wp (for_try l f) (fun r w' => match r with Ok _ => I [] w' | Err e => E e w' end) w.
Proof.
  intros HI Hf. revert w HI. induction l as [|x l IH]; intros w HI; [done|]. cbn [for_try]. apply wp_try.
  eapply wp_mono; [by apply Hf|]. intros [u|e] w' H; [by apply IH|done].
Qed.

Section honest.
Context {S : Type} `{Honest S}.
Implicit Types w : World S.

Abbreviation ok w := (fs_ok (w_fs w)).
Abbreviation lk w := (look (w_fs w)).

(** The rules of the operations: what an honest backend answers and does, and
    what a reliable one must answer. *)
Lemma wp_metadata cs Q w : ok w -> good cs ->
  (forall r, match r with Ok m => exists n, lk w cs = Some n /\ m = meta_of n | Err e => e = FeNotFound -> lk w cs = None end ->
     (Reliable S -> r = match lk w cs with Some n => Ok (meta_of n) | None => Err FeNotFound end) -> Q r w) ->
  wp (call (metadata (P cs))) Q w.
Proof.
  intros Hw Hg HQ. apply wp_read; [apply h_metadata_state|]. apply HQ; [by apply h_metadata|]. intros HR. by apply r_metadata.
Qed.

Lemma wp_read_file cs Q w : ok w -> good cs ->
  (forall r, match r with Ok d => exists x, lk w cs = Some (MFile d x) | Err e => e = FeNotFound -> lk w cs = None end ->
     (Reliable S -> match lk w cs with Some (MFile d _) => r = Ok d | None => r = Err FeNotFound | _ => True end) -> Q r w) ->
  wp (call (read_file (P cs))) Q w.
Proof.
  intros Hw Hg HQ. apply wp_read; [apply h_read_file_state|]. apply HQ; [by apply h_read_file|]. intros HR.
  destruct (lk w cs) as [ [d x| |t]|] eqn:E; [by eapply r_read_file|done|done|by apply r_no_file].
Qed.

Lemma wp_read_dir cs Q w : ok w -> good cs ->
  (forall r, match r with
             | Ok es => lk w cs = Some MDir /\ NoDup es.*1 /\ forall c, c ∈ es.*1 <-> is_Some (lk w (cs ++ [c]))
             | Err e => e = FeNotFound -> lk w cs = None end ->
     (Reliable S -> match lk w cs with Some MDir => is_ok r = true | None => r = Err FeNotFound | _ => True end) -> Q r w) ->
  wp (call (read_dir (P cs))) Q w.
Proof.
  intros Hw Hg HQ. apply wp_read; [apply h_read_dir_state|]. apply HQ; [by apply h_read_dir|]. intros HR.
  destruct (lk w cs) as [ [d x| |t]|] eqn:E; [done|by apply r_read_dir|done|by apply r_no_dir].
Qed.

Lemma wp_read_link cs Q w : ok w -> good cs ->
  (forall r, (forall t, r = Ok t -> lk w cs = Some (MSymlink t)) -> (Reliable S -> forall t, lk w cs = Some (MSymlink t) -> r = Ok t) -> Q r w) ->
  wp (call (read_link (P cs))) Q w.
Proof.
  intros Hw Hg HQ. apply wp_read; [apply h_read_link_state|]. apply HQ; [intros t; by apply h_read_link|].
  intros HR t. by apply r_read_link.
Qed.

(** The rule of an operation that changes the tree, from its two laws. *)
Ltac change_rule law :=
  let Hl := fresh in intros HQ; apply wp_call; pose proof law as Hl;
  match goal with |- context [let '(_, _) := ?t in _] => destruct t end; destruct Hl; by apply HQ.

Lemma wp_write cs d x Q w : ok w -> good cs ->
  (forall r w', ok w' -> (if is_ok r then creates cs (MFile d x) (lk w) (lk w') else torn cs x (lk w) (lk w')) ->
     (Reliable S -> lk w cs = None /\ has_parent (lk w) cs -> r = Ok tt) -> Q r w') ->
  wp (call (write_file (P cs) d x)) Q w.
Proof.
  intros Hw Hg. assert (Reliable S -> lk w cs = None /\ has_parent (lk w) cs -> (write_file (P cs) d x (w_fs w)).1 = Ok tt) as Hr
    by (intros ? []; by apply r_write).
  change_rule (h_write cs d x (w_fs w) Hw Hg).
Qed.

Lemma wp_create cs d Q w : ok w -> good cs ->
  (forall r w', ok w' -> (if is_ok r then creates cs (MFile d false) (lk w) (lk w') else torn cs false (lk w) (lk w')) /\
       (r = Err FeExists -> is_Some (lk w cs)) ->
     (Reliable S -> lk w cs = None /\ has_parent (lk w) cs -> r = Ok tt) -> Q r w') ->
  wp (call (create_exclusive (P cs) d)) Q w.
Proof.
  intros Hw Hg. assert (Reliable S -> lk w cs = None /\ has_parent (lk w) cs -> (create_exclusive (P cs) d (w_fs w)).1 = Ok tt) as Hr
    by (intros ? [Hn ?]; by rewrite r_create, Hn).
  change_rule (h_create cs d (w_fs w) Hw Hg).
Qed.

Lemma wp_mkdir cs Q w : ok w -> good cs ->
  (forall r w', ok w' -> (if is_ok r then creates cs MDir (lk w) (lk w') else same_tree (lk w) (lk w')) /\
       (r = Err FeExists -> is_Some (lk w cs)) ->
     (Reliable S -> has_parent (lk w) cs -> r = match lk w cs with None => Ok tt | Some _ => Err FeExists end) -> Q r w') ->
  wp (call (mkdir (P cs))) Q w.
Proof.
  intros Hw Hg. pose proof (fun (HR : Reliable S) => r_mkdir cs (w_fs w) Hw Hg) as Hr.
  change_rule (h_mkdir cs (w_fs w) Hw Hg).
Qed.

Lemma wp_symlink t cs Q w : ok w -> good cs ->
  (forall r w', ok w' -> (if is_ok r then creates cs (MSymlink t) (lk w) (lk w') else same_tree (lk w) (lk w')) ->
     (Reliable S -> lk w cs = None /\ has_parent (lk w) cs -> r = Ok tt) -> Q r w') ->
  wp (call (symlink t (P cs))) Q w.
Proof.
  intros Hw Hg. assert (Reliable S -> lk w cs = None /\ has_parent (lk w) cs -> (symlink t (P cs) (w_fs w)).1 = Ok tt) as Hr
    by (intros ? []; by apply r_symlink).
  change_rule (h_symlink t cs (w_fs w) Hw Hg).
Qed.

Lemma wp_unlink cs Q w : ok w -> good cs ->
  (forall r w', ok w' -> (if is_ok r then (exists n, lk w cs = Some n /\ leaf n = true) /\ removes cs (lk w) (lk w')
                          else same_tree (lk w) (lk w')) /\ (r = Err FeNotFound -> lk w cs = None) ->
     (Reliable S -> match lk w cs with Some n => leaf n = true -> r = Ok tt | None => r = Err FeNotFound end) -> Q r w') ->
  wp (call (unlink (P cs))) Q w.
Proof.
  intros Hw Hg. assert (Reliable S -> match lk w cs with Some n => leaf n = true -> (unlink (P cs) (w_fs w)).1 = Ok tt
                                         | None => (unlink (P cs) (w_fs w)).1 = Err FeNotFound end) as Hr.
  { intros HR. destruct (lk w cs) eqn:E; [by eapply r_unlink|by apply r_no_unlink]. }
  change_rule (h_unlink cs (w_fs w) Hw Hg).
Qed.

Lemma wp_rmdir cs Q w : ok w -> good cs -> cs <> [] ->
  (forall r w', ok w' -> (if is_ok r then (lk w cs = Some MDir /\ forall c, lk w (cs ++ [c]) = None) /\ removes cs (lk w) (lk w')
                          else same_tree (lk w) (lk w')) /\ (r = Err FeNotFound -> lk w cs = None) ->
     (Reliable S -> lk w cs = Some MDir /\ (forall c, lk w (cs ++ [c]) = None) -> r = Ok tt) -> Q r w') ->
  wp (call (rmdir (P cs))) Q w.
Proof.
  intros Hw Hg Hne. assert (Reliable S -> lk w cs = Some MDir /\ (forall c, lk w (cs ++ [c]) = None) -> (rmdir (P cs) (w_fs w)).1 = Ok tt) as Hr
    by (intros ? []; by apply r_rmdir).
  change_rule (h_rmdir cs (w_fs w) Hw Hg Hne).
Qed.

Lemma wp_rename a b Q w : ok w -> good a -> good b -> ~ a `prefix_of` b ->
  (forall r w', ok w' -> (if is_ok r then renames a b (lk w) (lk w') else same_tree (lk w) (lk w')) ->
     (Reliable S -> is_Some (lk w a) -> match lk w b with
                                        | Some _ => r = Err FeExists | None => has_parent (lk w) b -> r = Ok tt end) -> Q r w') ->
  wp (call (rename (P a) (P b))) Q w.
Proof.
  intros Hw Ha Hb Hp. assert (Reliable S -> is_Some (lk w a) ->
    match lk w b with Some _ => (rename (P a) (P b) (w_fs w)).1 = Err FeExists
                    | None => has_parent (lk w) b -> (rename (P a) (P b) (w_fs w)).1 = Ok tt end) as Hr.
  { intros HR Hs. destruct (lk w b) eqn:E; [apply r_rename_exists; eauto|intros; by apply r_rename]. }
  change_rule (h_rename a b (w_fs w) Hw Ha Hb Hp).
Qed.

Lemma wp_sync p Q w : ok w -> (forall r w', ok w' -> same_tree (lk w) (lk w') -> Q r w') -> wp (call (sync_dir p)) Q w.
Proof.
  intros Hw HQ. apply wp_call. pose proof (h_sync p (w_fs w) Hw) as [H1 H2]. destruct (sync_dir p (w_fs w)) as [r s'].
  by apply HQ.
Qed.

(** ** Trees *)

Lemma h_ancestor s cs ds : fs_ok s -> is_Some (look s (cs ++ ds)) -> ds <> [] -> look s cs = Some MDir.
Proof.
  intros Hs. induction ds as [|d ds IH] using rev_ind; [done|]. rewrite app_assoc. intros Hx _.
  apply h_parent in Hx; [|done]. destruct ds as [|e ds]; [by rewrite app_nil_r in Hx|]. by apply IH.
Qed.

Lemma h_below s cs r : fs_ok s -> look s cs <> Some MDir -> r <> [] -> look s (cs ++ r) = None.
Proof.
  intros Hs Hn Hr. destruct (look s (cs ++ r)) eqn:E; [|done]. destruct Hn. by eapply h_ancestor; [|rewrite E|].
Qed.

Lemma h_root s cs : fs_ok s -> is_Some (look s cs) -> cs <> [] -> look s [] = Some MDir.
Proof. intros Hs Hc Hne. by apply (h_ancestor s [] cs). Qed.

Lemma h_clear s cs : fs_ok s -> look s cs = Some MDir -> forall p n, p `prefix_of` cs -> look s p = Some n -> n = MDir.
Proof.
  intros Hs Hc p n [r ->] Hn. destruct r as [|x r]; [rewrite app_nil_r in Hc; congruence|].
  assert (look s p = Some MDir) as Hp by (eapply h_ancestor; [done|by rewrite Hc|done]). congruence.
Qed.

(** Nothing is at or below [cs]. *)
Definition gone (cs : path) (f : tree) : Prop := forall x, f (cs ++ x) = None.

Lemma h_gone s cs : fs_ok s -> look s cs = None -> gone cs (look s).
Proof. intros Hs Hc [|x r]; [by rewrite app_nil_r|]. apply h_below; [done|by rewrite Hc|done]. Qed.

(** Everything that is not at or below [cs] is as it was. *)
Definition outside (cs : path) (f g : tree) : Prop := forall x, ~ cs `prefix_of` x -> g x = f x.

Lemma outside_refl cs f : outside cs f f.
Proof. done. Qed.

Lemma outside_trans cs f g h : outside cs f g -> outside cs g h -> outside cs f h.
Proof. intros H1 H2 x Hx. by rewrite H2, H1. Qed.

Lemma outside_same cs f g h : outside cs f g -> same_tree g h -> outside cs f h.
Proof. intros H1 H2 x Hx. by rewrite H2, H1. Qed.

Lemma outside_weaken cs ds f g : outside (cs ++ ds) f g -> outside cs f g.
Proof. intros H1 x Hx. apply H1. intros [r ->]. apply Hx. exists (ds ++ r). by rewrite app_assoc. Qed.

Lemma creates_outside cs n f g : creates cs n f g -> outside cs f g.
Proof. intros [_ Hc] x Hx. rewrite Hc, decide_False; [done|]. intros ->. by apply Hx. Qed.

Lemma removes_outside cs f g : removes cs f g -> outside cs f g.
Proof. intros Hc x Hx. rewrite Hc, decide_False; [done|]. intros ->. by apply Hx. Qed.

(** ** [create_dir_all] *)

Lemma prefix_step ds c : good ds ->
  (if ends_with_slash (P ds) then P ds else P ds ++ [SLASH]) ++ c = P (ds ++ [c]).
Proof.
  intros Hg. destruct ds as [|d ds _] using rev_ind; [cbn; by rewrite app_nil_r|].
  pose proof (trim_P ds d Hg) as Ht. unfold ends_with_slash. case_bool_decide as Hl.
  - exfalso. destruct (P_last ds d) as [q Hq]. apply good_snoc in Hg as [_ [Hne Hs] ].
    destruct d as [|y d _] using rev_ind; [done|]. rewrite Hq in Hl. change (q ++ SLASH :: d ++ [y]) with (q ++ (SLASH :: d) ++ [y]) in Hl.
    rewrite app_assoc, last_snoc in Hl. injection Hl as ->. set_solver.
  - rewrite (rel_path_snoc (ds ++ [d]) c) by (by destruct ds). by rewrite <- app_assoc.
Qed.

(** Directories made on the way to [cs]. *)
Definition made (cs : path) (f g : tree) : Prop :=
  forall x, g x = f x \/ (f x = None /\ g x = Some MDir /\ x `prefix_of` cs).

(** Nothing on the way to [cs] is in the way. *)
Definition clear (f : tree) (cs : path) : Prop := forall p n, p `prefix_of` cs -> f p = Some n -> n = MDir.

Lemma mkdir_all_spec rest : forall ds Q w, ok w -> good (ds ++ rest) ->
  (forall r w', ok w' -> made (ds ++ rest) (lk w) (lk w') ->
     (r = Ok tt -> forall p, ds `prefix_of` p -> p `prefix_of` ds ++ rest -> p <> ds -> is_Some (lk w' p)) ->
     (Reliable S -> lk w ds = Some MDir -> clear (lk w) (ds ++ rest) -> r = Ok tt) -> Q r w') ->
  wp (mkdir_all rest (P ds)) Q w.
Proof.
  induction rest as [|c rest IH]; intros ds Q w Hw Hg HQ.
  - cbn [mkdir_all]. apply wp_ret, HQ; [done|by left| |done]. intros _ p H1 H2 Hne. rewrite app_nil_r in H2.
    destruct Hne. by apply (anti_symm prefix).
  - cbn [mkdir_all]. assert (ds ++ c :: rest = (ds ++ [c]) ++ rest) as Eapp by (by rewrite <- app_assoc).
    rewrite Eapp in Hg, HQ. pose proof (proj1 (good_app _ _) Hg) as [Hgc _].
    pose proof (proj1 (good_snoc _ _) Hgc) as [Hgd _]. rewrite prefix_step by done. apply wp_bind, wp_mkdir; [done|done|].
    intros r w1 Hw1 [Hr Hex] Hrel.
    assert (forall (Hm : made ((ds ++ [c]) ++ rest) (lk w) (lk w1)) (Hs : is_Some (lk w1 (ds ++ [c]))),
      wp (mkdir_all rest (P (ds ++ [c]))) Q w1) as Hgo.
    { intros Hm Hs. apply IH; [done|done|]. intros r2 w2 Hw2 Hm2 Hp2 Hr2. apply HQ; [done| | |].
      - intros x. destruct (Hm2 x) as [->|(Hx1 & Hx2 & Hx3)]; [apply Hm|]. destruct (Hm x) as [Hx|(Hx & Hx' & _)]; [|congruence].
        right. by rewrite <- Hx.
      - intros Hok p Hp1 Hp3 Hne. destruct (decide (p = ds ++ [c])) as [->|Hpc].
        + destruct (Hm2 (ds ++ [c])) as [->|(Hx & _)]; [done|]. destruct Hs as [? Hs]. congruence.
        + apply Hp2; [done| |done|done]. destruct Hp1 as [q ->]. destruct q as [|e q]; [by rewrite app_nil_r in Hne|].
          rewrite <- Eapp in Hp3. apply prefix_app_inv, prefix_cons_inv_1 in Hp3 as ->. exists q. by rewrite <- app_assoc.
      - intros HR Hd Hcl. assert (clear (lk w1) ((ds ++ [c]) ++ rest)) as Hcl1.
        { intros p n Hp Hn. destruct (Hm p) as [E|(_ & E & _)]; [|congruence]. rewrite E in Hn. by apply (Hcl p). }
        apply Hr2; [done| |done]. destruct Hs as [n Hs]. rewrite Hs. f_equal. apply (Hcl1 (ds ++ [c])); [by exists rest|done]. }
    destruct r as [u|e]; cbn [is_ok] in Hr.
    + destruct Hr as [Hnone Hr]. apply Hgo; [|rewrite Hr, decide_True by done; eauto].
      intros x. rewrite Hr. case_decide as Hd; [|by left]. right. subst x. split; [done|]. split; [done|]. by exists rest.
    + assert (made ((ds ++ [c]) ++ rest) (lk w) (lk w1)) as Hm by (intros x; left; by rewrite Hr).
      destruct (decide (e = FeExists)) as [->|Hne]; [apply Hgo; [done|rewrite Hr; by apply Hex]|].
      assert (wp (mret (Err e) : FsM S (result unit FsError)) Q w1) as Hret.
      { apply wp_ret, HQ; [done|done|done|]. intros HR Hd _. exfalso. specialize (Hrel HR ltac:(by exists ds, c)).
        destruct (lk w (ds ++ [c])); [congruence|done]. }
      by destruct e.
Qed.

Lemma create_dir_all_spec cs Q w : ok w -> good cs ->
  (forall r w', ok w' -> made cs (lk w) (lk w') ->
     (r = Ok tt -> forall p, p `prefix_of` cs -> p <> [] -> is_Some (lk w' p)) ->
     (Reliable S -> lk w [] = Some MDir -> clear (lk w) cs -> r = Ok tt) -> Q r w') ->
  wp (create_dir_all (P cs)) Q w.
Proof.
  intros Hw Hg HQ. unfold create_dir_all. rewrite comps_of_rel_path, rel_path_absolute by done.
  change [SLASH] with (P []). apply (mkdir_all_spec cs []); [done|done|]. intros r w' Hw' Hm Hp Hr. apply HQ; [done|done| |done].
  intros Hok p Hp1 Hp2. apply Hp; [done|apply prefix_nil|done|done].
Qed.

(** ... which are none if [cs] is there. *)
Lemma made_same cs f g : made cs f g -> (forall p, p `prefix_of` cs -> is_Some (f p)) -> same_tree f g.
Proof. intros Hm Hp x. destruct (Hm x) as [->|(Hx & _ & Hpre)]; [done|]. destruct (Hp x Hpre). congruence. Qed.

Lemma h_prefixes s cs : fs_ok s -> is_Some (look s cs) -> forall p, p `prefix_of` cs -> is_Some (look s p).
Proof.
  intros Hs Hc p [r ->]. destruct r as [|x r]; [by rewrite app_nil_r in Hc|]. exists MDir. by eapply h_ancestor.
Qed.

(** ** [copy_tree] *)

Definition apart (a b : path) : Prop := ~ a `prefix_of` b /\ ~ b `prefix_of` a.

Lemma apart_app a b r r' : apart a b -> a ++ r <> b ++ r'.
Proof.
  intros [H1 H2] E. destruct (prefix_weak_total a b (b ++ r')) as [?|?]; [by exists r|by exists r'|done|done].
Qed.

Lemma apart_snoc a b c d : apart a b -> apart (a ++ [c]) (b ++ [d]).
Proof.
  intros Hab. split; intros [q E]; rewrite <- app_assoc in E; [by apply (apart_app a b ([c] ++ q) [d]) in Hab|].
  by apply (apart_app a b [c] ([d] ++ q)) in Hab.
Qed.

Lemma apart_outside a b f g r : apart a b -> outside b f g -> g (a ++ r) = f (a ++ r).
Proof. intros Hab Ho. apply Ho. intros [q E]. by apply (apart_app a b r q) in Hab. Qed.

(** A copy of what is at [src] appears at [dst], or the copy fails half way
    and only touched [dst]. *)
Definition copied (src dst : path) (f : tree) (r : result unit FsError) (w : World S) : Prop :=
  ok w /\ outside dst f (lk w) /\ (r = Ok tt -> forall x, lk w (dst ++ x) = f (src ++ x)) /\
  (Reliable S -> is_Some (f src) -> r = Ok tt).

(** The loop over the entries of a directory: [todo] are those not yet
    copied. *)
Record copying (src dst : path) (f : tree) (es todo : list (str * NodeKind)) (w : World S) : Prop := {
  cp_ok : ok w;
  cp_outside : outside dst f (lk w);
  cp_dir : lk w dst = Some MDir;
  cp_todo : exists done, es = done ++ todo;
  cp_done : forall c x, c ∈ es.*1 -> c ∉ todo.*1 -> lk w (dst ++ c :: x) = f (src ++ c :: x);
  cp_rest : forall c x, (c ∈ es.*1 -> c ∈ todo.*1) -> lk w (dst ++ c :: x) = None
}.

Lemma copying_step src dst f es c kd todo w w' : apart src dst -> NoDup es.*1 -> copying src dst f es ((c, kd) :: todo) w ->
  copied (src ++ [c]) (dst ++ [c]) (lk w) (Ok tt) w' -> copying src dst f es todo w'.
Proof.
  intros Hap Hnd [Hok Ho Hd [done Hes] Hdone Hrest] (Hok' & Ho' & Hc & _). specialize (Hc eq_refl).
  assert ((c ∉ todo.*1) /\ c ∈ es.*1) as [Hct Hce].
  { subst es. rewrite fmap_app in Hnd |- *. apply NoDup_app in Hnd as (_ & _ & Hnd). cbn in Hnd.
    apply NoDup_cons in Hnd as [? _]. split; [done|]. apply elem_of_app. right. cbn. set_solver. }
  assert (forall c' x, c' <> c -> lk w' (dst ++ c' :: x) = lk w (dst ++ c' :: x)) as Hother.
  { intros c' x Hne. apply Ho'. intros [q E]. rewrite <- app_assoc in E. apply app_inv_head in E. by injection E. }
  assert (forall x, lk w' (dst ++ c :: x) = f (src ++ c :: x)) as Hnew.
  { intros x. specialize (Hc x). rewrite <- !app_assoc in Hc. cbn in Hc. rewrite Hc. by apply (apart_outside src dst). }
  split; [done| | |exists (done ++ [(c, kd)]); by rewrite <- app_assoc| |].
  - eapply outside_trans; [exact Ho|]. by eapply outside_weaken.
  - rewrite Ho'; [done|]. intros [q E]. apply (f_equal length) in E. rewrite !length_app in E. cbn in E. lia.
  - intros c' x Hin Hnin. destruct (decide (c' = c)) as [->|Hne]; [apply Hnew|]. rewrite Hother by done. apply Hdone; [done|].
    cbn. set_solver.
  - intros c' x Himp. destruct (decide (c' = c)) as [->|Hne]; [by apply Himp in Hce|]. rewrite Hother by done. apply Hrest.
    intros Hin. cbn. set_solver.
Qed.

Lemma copying_done src dst f es w : copying src dst f es [] w -> f src = Some MDir ->
  (forall c x, c ∉ es.*1 -> f (src ++ c :: x) = None) -> copied src dst f (Ok tt) w.
Proof.
  intros [Hok Ho Hd _ Hdone Hrest] Hsrc Hno. split; [done|]. split; [done|]. split; [|done]. intros _ [|c x]; [by rewrite !app_nil_r, Hd, Hsrc|].
  destruct (decide (c ∈ es.*1)); [apply Hdone; [done|set_solver]|]. rewrite Hrest by done. by rewrite Hno.
Qed.

(** [create_dir_all] of a new directory whose parent exists. *)
Lemma create_dir_all_new dst Q w : ok w -> good dst -> lk w dst = None -> has_parent (lk w) dst ->
  (forall r w', ok w' -> (r = Ok tt -> lk w' dst = Some MDir) -> (forall x, x <> dst -> lk w' x = lk w x) ->
     (Reliable S -> r = Ok tt) -> Q r w') ->
  wp (create_dir_all (P dst)) Q w.
Proof.
  intros Hw Hg Hnone (ds & c & -> & Hpar) HQ.
  assert (forall x, x `prefix_of` ds ++ [c] -> x <> ds ++ [c] -> x `prefix_of` ds) as Hpre.
  { intros x [q E] Hne. destruct q as [|y q _] using rev_ind; [by rewrite app_nil_r in E|].
    rewrite app_assoc in E. apply app_inj_tail in E as [-> _]. by eexists. }
  apply create_dir_all_spec; [done|done|]. intros r w' Hw' Hm Hp Hr. apply HQ; [done| | |].
  - intros Hok. destruct (Hp Hok (ds ++ [c])) as [n Hn]; [done|by destruct ds|].
    destruct (Hm (ds ++ [c])) as [Hx|(_ & Hx & _)]; [congruence|done].
  - intros x Hx. destruct (Hm x) as [->|(Hxn & _ & Hp')]; [done|]. exfalso.
    destruct (h_prefixes (w_fs w) ds Hw ltac:(by eexists) x (Hpre x Hp' Hx)) as [? ?]. congruence.
  - intros HR. apply Hr; [done| |].
    + destruct ds as [|d ds]; [done|]. apply (h_root _ (d :: ds)); [done|by rewrite Hpar|done].
    + intros p n Hp' Hn. destruct (decide (p = ds ++ [c])) as [->|Hne]; [congruence|]. eapply (h_clear (w_fs w)); [done|exact Hpar| |exact Hn]. by apply Hpre.
Qed.

(** [create_dir_all] of a directory that exists. *)
Lemma create_dir_all_same cs Q w : ok w -> lk w cs = Some MDir ->
  (forall r w', ok w' -> same_tree (lk w) (lk w') -> (Reliable S -> r = Ok tt) -> Q r w') -> wp (create_dir_all (P cs)) Q w.
Proof.
  intros Hw Hs HQ. apply create_dir_all_spec; [done|apply (h_good (w_fs w)); by rewrite Hs|]. intros r w' Hw' Hm _ Hr. apply HQ; [done| |].
  - eapply made_same; [exact Hm|]. apply h_prefixes; [done|by rewrite Hs].
  - intros HR. apply Hr; [done| |intros p n; by apply h_clear].
    destruct cs as [|c cs]; [done|]. apply (h_root _ (c :: cs)); [done|by rewrite Hs|done].
Qed.

(** [k] bounds the depth of what is below [cs]. *)
Definition shallow (f : tree) (cs : path) (k : nat) : Prop := forall x, is_Some (f (cs ++ x)) -> (length x < k)%nat.

(** A bound on the depth of the tree of a backend. *)
Definition fs_depth (s : S) : nat := foldr Nat.max 0%nat (length <$> fs_paths s).

Lemma shallow_depth s cs : fs_ok s -> shallow (look s) cs (Datatypes.S (fs_depth s)).
Proof.
  intros Hs x Hx. apply h_paths in Hx; [|done]. assert (length (cs ++ x) <= fs_depth s)%nat as Hl; [|rewrite length_app in Hl; lia].
  unfold fs_depth. induction Hx as [y l|y z l Hin IH]; cbn; lia.
Qed.

Lemma shallow_child f cs c k : shallow f cs (Datatypes.S k) -> shallow f (cs ++ [c]) k.
Proof. intros Hs x Hx. rewrite <- app_assoc in Hx. apply Hs in Hx. cbn in Hx. lia. Qed.

(** One node copied. *)
Lemma copied_leaf src dst n w (r : result unit FsError) w' : ok w -> leaf n = true -> lk w src = Some n -> lk w dst = None -> ok w' ->
  (r = Ok tt -> creates dst n (lk w) (lk w')) -> outside dst (lk w) (lk w') -> (Reliable S -> r = Ok tt) ->
  copied src dst (lk w) r w'.
Proof.
  intros Hw Hn Hsrc Hnone Hw' Hc Ho Hrel. split; [done|]. split; [done|]. split; [|intros HR _; by apply Hrel]. intros Hr x. rewrite (proj2 (Hc Hr)). case_decide as Hd.
  - assert (x = []) as -> by (apply (f_equal length) in Hd; rewrite length_app in Hd; destruct x; [done|cbn in Hd; lia]).
    by rewrite app_nil_r.
  - assert (x <> []) as Hx by (intros ->; by rewrite app_nil_r in Hd). rewrite h_below; [|done|by rewrite Hnone|done].
    symmetry. apply h_below; [done|rewrite Hsrc; by intros [= ->]|done].
Qed.

Lemma torn_outside cs x f g : torn cs x f g -> outside cs f g.
Proof. intros [Hs|[d Hc] ]; [intros y _; apply Hs|by eapply creates_outside]. Qed.

Lemma same_outside cs f g : same_tree f g -> outside cs f g.
Proof. intros Hs y _. apply Hs. Qed.

Lemma copied_error src dst w e w' : ok w' -> outside dst (lk w) (lk w') -> (Reliable S -> is_Some (lk w src) -> False) ->
  copied src dst (lk w) (Err e) w'.
Proof. intros Hw' Ho Hr. split; [done|]. split; [done|]. split; [done|]. intros HR Hs. by destruct (Hr HR Hs). Qed.

(** The file case of [copy_tree]. *)
Lemma copy_file_spec src dst d x w : ok w -> good src -> good dst -> lk w dst = None -> has_parent (lk w) dst ->
  lk w src = Some (MFile d x) ->
  wp (try_bind (create_dir_all (split_parent (P dst)).1) (fun _ =>
        try_bind (call (read_file (P src))) (fun data => call (write_file (P dst) data x)))) (copied src dst (lk w)) w.
Proof.
  intros Hw Hgs Hgd Hnone (ds & c & -> & Hds) Hsrc. rewrite split_parent_P by done. cbn [fst]. apply wp_try.
  apply create_dir_all_same; [done|done|]. intros [u|e] w1 Hw1 Hs1 Hr1; cycle 1.
  { apply copied_error; [done|by apply same_outside|]. intros HR _. by specialize (Hr1 HR). }
  apply wp_try, wp_read_file; [done|done|]. rewrite Hs1, Hsrc. intros [d'|e] Hd' Hr2; cycle 1.
  { apply copied_error; [done|by apply same_outside|]. intros HR _. by specialize (Hr2 HR). }
  destruct Hd' as [x' [= <- <-] ]. apply wp_write; [done|done|]. intros r w2 Hw2 Hc Hr3.
  apply (copied_leaf src (ds ++ [c]) (MFile d x)); [done..| | |].
  - intros ->. cbn in Hc. destruct Hc as [_ Hc]. split; [done|]. intros y. rewrite Hc. case_decide; [done|]. apply Hs1.
  - eapply outside_trans; [by apply same_outside|]. destruct r; cbn in Hc; [by eapply creates_outside|by eapply torn_outside].
  - intros HR. apply Hr3; [done|]. split; [by rewrite Hs1|]. exists ds, c. by rewrite Hs1.
Qed.

Lemma copy_tree_spec fuel : forall src dst w, ok w -> good src -> good dst -> apart src dst ->
  lk w dst = None -> has_parent (lk w) dst -> (0 < fuel)%nat -> shallow (lk w) src fuel ->
  wp (copy_tree fuel (P src) (P dst)) (copied src dst (lk w)) w.
Proof.
  induction fuel as [|fuel IH]; intros src dst w Hw Hgs Hgd Hap Hnone Hpar Hf Hsh; [lia|]. cbn [copy_tree].
  apply wp_try, wp_metadata; [done|done|]. intros [meta|e] Hmeta Hrel; cycle 1.
  { apply copied_error; [done|done|]. intros HR [n Hn]. specialize (Hrel HR). by rewrite Hn in Hrel. }
  destruct Hmeta as (n & Hsrc & ->).
  destruct n as [d x| |t]; cbn [meta_of nm_kind nm_exec]; [by apply (copy_file_spec src dst d x)| |].
  - apply wp_try, create_dir_all_new; [done..|]. intros r w1 Hw1 Hd1 Hx1 Hr1.
    assert (outside dst (lk w) (lk w1)) as Ho1 by (intros y Hy; apply Hx1; intros ->; by apply Hy).
    destruct r as [u|e]; [|apply copied_error; [done|done|]; intros HR _; by specialize (Hr1 HR)]. destruct u. specialize (Hd1 eq_refl).
    assert (forall x, lk w1 (src ++ x) = lk w (src ++ x)) as Hsame by (intros y; by apply (apart_outside src dst)).
    apply wp_try, wp_read_dir; [done|done|]. pose proof (Hsame []) as Hsrc1. rewrite !app_nil_r, Hsrc in Hsrc1. rewrite Hsrc1.
    intros [es|e] Hes Hr2; [|apply copied_error; [done|done|]; intros HR _; by specialize (Hr2 HR)]. destruct Hes as (_ & Hnd & Hes).
    assert (forall c, c ∈ es.*1 <-> is_Some (lk w (src ++ [c]))) as Hes' by (intros c; by rewrite Hes, Hsame).
    eapply wp_mono; [apply (wp_for_try es _ (copying src dst (lk w) es) (fun e w' => copied src dst (lk w) (Err e) w'))|].
    + split; [done|done|done|by exists []|done|]. intros c y _. rewrite Hx1; [by apply h_below; [|rewrite Hnone|]|].
      intros E. apply (f_equal length) in E. rewrite length_app in E. cbn in E. lia.
    + intros [c kd] todo w' Hcp. cbn [fst]. destruct (cp_todo _ _ _ _ _ _ Hcp) as [done Edone].
      assert (is_Some (lk w (src ++ [c]))) as Hsc.
      { apply Hes'. rewrite Edone, fmap_app. apply elem_of_app. right. cbn. set_solver. }
      assert (forall x, lk w' (src ++ x) = lk w (src ++ x)) as Hsame' by (intros y; apply (apart_outside src dst); [done|apply Hcp]).
      pose proof (h_good _ _ Hsc) as Hgc. apply good_snoc in Hgc as [_ Hgc]. rewrite !join_P by done.
      eapply wp_mono; [apply IH|].
      * apply Hcp.
      * by apply good_snoc.
      * by apply good_snoc.
      * by apply apart_snoc.
      * apply (cp_rest _ _ _ _ _ _ Hcp c []). intros _. cbn. set_solver.
      * exists dst, c. split; [done|apply Hcp].
      * pose proof (Hsh [c] Hsc) as Hlen. cbn in Hlen. lia.
      * apply shallow_child. intros y Hy. rewrite Hsame' in Hy. by apply Hsh.
      * intros [u|e] w2 Hc2; [destruct u; by eapply copying_step|]. destruct Hc2 as (Hw2 & Ho2 & _ & Hr3). apply copied_error; [done| |].
        -- eapply outside_trans; [apply Hcp|]. by eapply outside_weaken.
        -- intros HR _. specialize (Hr3 HR). rewrite Hsame' in Hr3. by specialize (Hr3 Hsc).
    + intros [u|e] w' Hr; [|done]. destruct u. eapply copying_done; [exact Hr|done|].
      intros c y Hc. assert (lk w (src ++ [c]) = None) as Hn.
      { destruct (lk w (src ++ [c])) eqn:E; [|done]. destruct Hc. apply Hes'. by rewrite E. }
      change (src ++ c :: y) with (src ++ [c] ++ y). rewrite app_assoc. by apply h_gone.
  - apply wp_try, wp_read_link; [done|done|]. intros [t'|e] Ht Hr; cycle 1.
    { apply copied_error; [done|done|]. intros HR _. by specialize (Hr HR t Hsrc). }
    specialize (Ht t' eq_refl). rewrite Hsrc in Ht. injection Ht as <-.
    apply wp_symlink; [done|done|]. intros r w' Hw' Hc Hr2. apply (copied_leaf src dst (MSymlink t)); [done..| | |].
    + by intros ->.
    + destruct r; cbn in Hc; [by eapply creates_outside|by apply same_outside].
    + intros HR. by apply Hr2.
Qed.

(** ** [remove_tree] and [remove_store_path] *)

(** Some of what was at or below [cs] is removed, and nothing else happens. *)
Definition pruned (cs : path) (f g : tree) : Prop := outside cs f g /\ forall x, g x = f x \/ g x = None.

Lemma pruned_refl cs f : pruned cs f f.
Proof. split; [done|]. by left. Qed.

Lemma pruned_step cs f g h : pruned cs f g -> pruned cs g h -> pruned cs f h.
Proof.
  intros [O1 P1] [O2 P2]. split; [by eapply outside_trans|]. intros x. destruct (P2 x) as [->|?]; [apply P1|by right].
Qed.

Lemma pruned_weaken cs ds f g : pruned (cs ++ ds) f g -> pruned cs f g.
Proof. intros [O1 P1]. split; [by eapply outside_weaken|done]. Qed.

Lemma pruned_same cs f g : same_tree f g -> pruned cs f g.
Proof. intros Hs. split; [by apply same_outside|]. intros x. left. apply Hs. Qed.

Lemma pruned_removes cs f g : removes cs f g -> pruned cs f g.
Proof. intros Hr. split; [by apply removes_outside|]. intros x. rewrite Hr. case_decide; auto. Qed.

Lemma pruned_shallow cs ds f g k : pruned cs f g -> shallow f ds k -> shallow g ds k.
Proof. intros [_ Hp] Hs x [n Hx]. apply Hs. destruct (Hp (ds ++ x)) as [E|E]; [rewrite <- E; by eexists|congruence]. Qed.

Lemma pruned_gone cs f g : pruned cs f g -> gone cs f -> same_tree f g.
Proof.
  intros [Ho Hp] Hg x. destruct (decide (cs `prefix_of` x)) as [ [r ->]|Hn]; [|by apply Ho].
  destruct (Hp (cs ++ r)) as [->| ->]; [done|]. by rewrite Hg.
Qed.

(** The loop over the entries of a directory that is being removed; [full] if
    each of them was removed. *)
Record removing (cs : path) (full : Prop) (f : tree) (es todo : list (str * NodeKind)) (w : World S) : Prop := {
  rm_ok : ok w;
  rm_pruned : pruned cs f (lk w);
  rm_dir : lk w cs = Some MDir;
  rm_todo : exists done, es = done ++ todo;
  rm_gone : full -> forall c, c ∉ todo.*1 -> gone (cs ++ [c]) (lk w)
}.

Lemma removing_start cs full es w : ok w -> lk w cs = Some MDir -> (forall c, c ∈ es.*1 <-> is_Some (lk w (cs ++ [c]))) ->
  removing cs full (lk w) es es w.
Proof.
  intros Hw Hd Hes. split; [done|apply pruned_refl|done|by exists []|]. intros _ c Hc. apply h_gone; [done|].
  destruct (lk w (cs ++ [c])) eqn:E; [|done]. destruct Hc. apply Hes. by rewrite E.
Qed.

Lemma removing_step cs full f es c kd todo w w' : removing cs full f es ((c, kd) :: todo) w -> ok w' ->
  pruned (cs ++ [c]) (lk w) (lk w') -> (full -> gone (cs ++ [c]) (lk w')) -> removing cs full f es todo w'.
Proof.
  intros [Hok Hp Hd [done Hes] Hg] Hw' Hp' Hg'. split; [done| | |exists (done ++ [(c, kd)]); by rewrite <- app_assoc|].
  - eapply pruned_step; [exact Hp|]. by eapply pruned_weaken.
  - rewrite (proj1 Hp'); [done|]. intros [q E]. apply (f_equal length) in E. rewrite !length_app in E. cbn in E. lia.
  - intros Hfull c' Hc'. destruct (decide (c' = c)) as [->|Hne]; [by apply Hg'|]. intros x.
    destruct ((proj2 Hp') ((cs ++ [c']) ++ x)) as [->|E]; [|done]. apply Hg; [done|]. cbn. set_solver.
Qed.

(** The end of both: the removal of the emptied directory. *)
Lemma rmdir_spec cs f w Q : ok w -> good cs -> cs <> [] -> pruned cs f (lk w) ->
  (forall r w', ok w' -> pruned cs f (lk w') -> (gone_ok r = Ok tt -> gone cs (lk w')) ->
     (Reliable S -> lk w cs = Some MDir -> (forall c, lk w (cs ++ [c]) = None) -> r = Ok tt) -> Q r w') ->
  wp (call (rmdir (P cs))) Q w.
Proof.
  intros Hw Hg Hne Hp HQ. apply wp_rmdir; [done..|]. intros r w' Hw' [Hr Hnf] Hrel. apply HQ; [done| | |].
  - eapply pruned_step; [exact Hp|]. destruct r; cbn in Hr; [apply pruned_removes, Hr|by apply pruned_same].
  - intros Hok. apply h_gone; [done|]. destruct r as [u|e]; cbn in Hr; [by rewrite (proj2 Hr), decide_True|].
    rewrite Hr. apply Hnf. by destruct e.
  - intros HR Hd Hc. by apply Hrel.
Qed.

Lemma unlink_spec cs w Q : ok w -> good cs ->
  (forall r w', ok w' -> pruned cs (lk w) (lk w') -> (gone_ok r = Ok tt -> gone cs (lk w')) ->
     (Reliable S -> lk w cs <> Some MDir -> gone_ok r = Ok tt) -> Q r w') ->
  wp (call (unlink (P cs))) Q w.
Proof.
  intros Hw Hg HQ. apply wp_unlink; [done..|]. intros r w' Hw' [Hr Hnf] Hrel. apply HQ; [done| | |].
  - destruct r; cbn in Hr; [apply pruned_removes, Hr|by apply pruned_same].
  - intros Hok. apply h_gone; [done|]. destruct r as [u|e]; cbn in Hr; [by rewrite (proj2 Hr), decide_True|].
    rewrite Hr. apply Hnf. by destruct e.
  - intros HR Hd. specialize (Hrel HR). destruct (lk w cs) as [ [d x| |t]|]; [by rewrite Hrel|done|by rewrite Hrel|by rewrite Hrel].
Qed.

Lemma remove_tree_spec fuel : forall cs w, ok w -> good cs -> cs <> [] -> (0 < fuel)%nat -> shallow (lk w) cs fuel ->
  wp (remove_tree fuel (P cs)) (fun _ w' => ok w' /\ pruned cs (lk w) (lk w') /\ (Reliable S -> gone cs (lk w'))) w.
Proof.
  induction fuel as [|fuel IH]; intros cs w Hw Hg Hne Hf Hsh; [lia|]. cbn [remove_tree].
  apply wp_bind, wp_metadata; [done|done|]. intros [meta|e] Hmeta Hrel; cycle 1.
  { apply wp_ret. split; [done|]. split; [apply pruned_refl|]. intros HR. apply h_gone; [done|]. specialize (Hrel HR).
    by destruct (lk w cs). }
  destruct Hmeta as (n & Hn & ->).
  assert (n <> MDir -> wp (_ ← call (unlink (P cs)); mret tt)
    (fun _ w' => ok w' /\ pruned cs (lk w) (lk w') /\ (Reliable S -> gone cs (lk w'))) w) as Hleaf.
  { intros Hnd. apply wp_bind, unlink_spec; [done|done|]. intros r w' Hw' Hp Hgo Hr. apply wp_ret. split; [done|]. split; [done|].
    intros HR. apply Hgo, Hr; [done|]. rewrite Hn. by intros [= ->]. }
  destruct n as [d x| |t]; cbn [meta_of nm_kind]; [by apply Hleaf| |by apply Hleaf].
  apply wp_bind, wp_read_dir; [done|done|]. rewrite Hn. intros r Hes Hrd. apply wp_bind.
  eapply (wp_mono _ (fun _ w' => ok w' /\ pruned cs (lk w) (lk w') /\ (Reliable S -> lk w' cs = Some MDir /\ forall c, lk w' (cs ++ [c]) = None))).
  - destruct r as [es|e]; [|apply wp_ret; split; [done|]; split; [apply pruned_refl|]; intros HR; by specialize (Hrd HR)].
    destruct Hes as (_ & Hnd & Hes). eapply wp_mono; [apply (wp_for_each es _ (removing cs (Reliable S) (lk w) es))|].
    + by apply removing_start.
    + intros [c kd] todo w' Hrm. cbn [fst]. destruct (rm_todo _ _ _ _ _ _ Hrm) as [done Edone].
      assert (is_Some (lk w (cs ++ [c]))) as Hsc by (apply Hes; rewrite Edone, fmap_app; apply elem_of_app; right; cbn; set_solver).
      pose proof (h_good _ _ Hsc) as Hgc. rewrite join_P by done. eapply wp_mono; [apply IH|].
      * apply Hrm.
      * done.
      * by destruct cs.
      * pose proof (Hsh [c] Hsc) as Hlen. cbn in Hlen. lia.
      * apply shallow_child. eapply pruned_shallow; [apply Hrm|done].
      * intros ? w2 (H1 & H2 & H3). by eapply removing_step.
    + intros ? w' [H1 H2 H3 _ H4]. split; [done|]. split; [done|]. intros HR. split; [done|]. intros c.
      pose proof (H4 HR c (not_elem_of_nil _) []) as H5. by rewrite app_nil_r in H5.
  - intros ? w1 (Hw1 & Hp1 & Hr1). apply wp_bind. eapply rmdir_spec; [done|done|done|exact Hp1|]. intros r2 w2 Hw2 Hp2 Hgo Hr2.
    apply wp_ret. split; [done|]. split; [done|]. intros HR. destruct (Hr1 HR). apply Hgo. by rewrite Hr2.
Qed.

Lemma remove_store_path_spec fuel : forall cs w, ok w -> good cs -> cs <> [] -> (0 < fuel)%nat -> shallow (lk w) cs fuel ->
  wp (remove_store_path fuel (P cs)) (fun r w' => ok w' /\ pruned cs (lk w) (lk w') /\ (r = Ok tt -> gone cs (lk w')) /\
    (Reliable S -> r = Ok tt)) w.
Proof.
  induction fuel as [|fuel IH]; intros cs w Hw Hg Hne Hf Hsh; [lia|]. cbn [remove_store_path].
  apply wp_bind, wp_metadata; [done|done|]. intros [meta|e] Hmeta Hrel; cycle 1.
  { destruct (decide (e = FeNotFound)) as [->|Hnf].
    - apply wp_ret. split; [done|]. split; [apply pruned_refl|]. split; [|done]. intros _. apply h_gone; [done|]. by apply Hmeta.
    - assert (Reliable S -> False) as Hno by (intros HR; specialize (Hrel HR); destruct (lk w cs); congruence).
      assert (wp (mret (Err e) : FsM S (result unit FsError)) (fun r w' => ok w' /\ pruned cs (lk w) (lk w') /\
        (r = Ok tt -> gone cs (lk w')) /\ (Reliable S -> r = Ok tt)) w) as Hret
        by (apply wp_ret; split; [done|]; split; [apply pruned_refl|]; split; [done|]; intros HR; by destruct (Hno HR)).
      by destruct e. }
  destruct Hmeta as (n & Hn & ->).
  assert (n <> MDir -> wp (r' ← call (unlink (P cs)); mret (gone_ok r')) (fun r w' => ok w' /\ pruned cs (lk w) (lk w') /\
    (r = Ok tt -> gone cs (lk w')) /\ (Reliable S -> r = Ok tt)) w) as Hleaf.
  { intros Hnd. apply wp_bind, unlink_spec; [done|done|]. intros r w' Hw' Hp Hgo Hr. apply wp_ret. split; [done|]. split; [done|].
    split; [done|]. intros HR. apply Hr; [done|]. rewrite Hn. by intros [= ->]. }
  destruct n as [d x| |t]; cbn [meta_of nm_kind]; [by apply Hleaf| |by apply Hleaf].
  apply wp_bind, wp_read_dir; [done|done|]. rewrite Hn. intros r Hes Hrd. apply wp_try.
  eapply (wp_mono _ (fun r1 w' => ok w' /\ pruned cs (lk w) (lk w') /\
    (Reliable S -> r1 = Ok tt /\ lk w' cs = Some MDir /\ forall c, lk w' (cs ++ [c]) = None))).
  - destruct r as [es|e]; [|apply wp_ret; split; [done|]; split; [apply pruned_refl|]; intros HR; by specialize (Hrd HR)].
    destruct Hes as (_ & Hnd & Hes).
    eapply wp_mono; [apply (wp_for_try es _ (removing cs True (lk w) es) (fun _ w' => ok w' /\ pruned cs (lk w) (lk w') /\ ~ Reliable S))|].
    + by apply removing_start.
    + intros [c kd] todo w' Hrm. cbn [fst]. destruct (rm_todo _ _ _ _ _ _ Hrm) as [done Edone].
      assert (is_Some (lk w (cs ++ [c]))) as Hsc by (apply Hes; rewrite Edone, fmap_app; apply elem_of_app; right; cbn; set_solver).
      pose proof (h_good _ _ Hsc) as Hgc. rewrite join_P by done. eapply wp_mono; [apply IH|].
      * apply Hrm.
      * done.
      * by destruct cs.
      * pose proof (Hsh [c] Hsc) as Hlen. cbn in Hlen. lia.
      * apply shallow_child. eapply pruned_shallow; [apply Hrm|done].
      * intros [u|e] w2 (H1 & H2 & H3 & H4); [destruct u; eapply removing_step; [exact Hrm|done|done|by intros; apply H3]|].
        split; [done|]. split; [|intros HR; by specialize (H4 HR)]. eapply pruned_step; [apply Hrm|]. by eapply pruned_weaken.
    + intros [u|e] w' Hr; [|destruct Hr as (H1 & H2 & H3); split; [done|]; by split]. destruct Hr as [H1 H2 H3 _ H4]. destruct u.
      split; [done|]. split; [done|]. intros HR. split; [done|]. split; [done|]. intros c.
      pose proof (H4 I c (not_elem_of_nil _) []) as H5. by rewrite app_nil_r in H5.
  - intros [u|e] w1 (Hw1 & Hp1 & Hr1); cycle 1.
    { split; [done|]. split; [done|]. split; [done|]. intros HR. by destruct (Hr1 HR). }
    apply wp_bind. eapply rmdir_spec; [done|done|done|exact Hp1|]. intros r2 w2 Hw2 Hp2 Hgo Hr2.
    apply wp_ret. split; [done|]. split; [done|]. split; [done|]. intros HR. destruct (Hr1 HR) as (_ & ? & ?). by rewrite Hr2.
Qed.

End honest.
