(* ===== verification/MemLaws.v ===== *)
(** * The in-memory backend is honest and reliable (pkg/shade-store/src/memfs.rs) *)

From stdpp Require Import sorting.
From S2P Require Import Prelude Paths Text StoreFs StoreLaws.

#[local] Open Scope Z_scope.

(** ** The tree of a [MemFs] *)

Definition mem_look (m : MemFs) (cs : path) : option MNode := if decide (good cs) then mf_nodes m !! P cs else None.

Record mem_ok (m : MemFs) : Prop := {
  mo_keys : forall k n, mf_nodes m !! k = Some n -> exists cs, good cs /\ k = P cs;
  mo_root : mf_nodes m !! P [] = Some MDir;
  mo_parent : forall cs c, good (cs ++ [c]) -> is_Some (mf_nodes m !! P (cs ++ [c])) -> mf_nodes m !! P cs = Some MDir
}.

Definition mem_paths (m : MemFs) : list path := comps_of <$> keys (mf_nodes m).

Lemma look_good m cs : good cs -> mem_look m cs = mf_nodes m !! P cs.
Proof. intros Hg. unfold mem_look. by rewrite decide_True. Qed.

Lemma mem_look_good m cs : is_Some (mem_look m cs) -> good cs.
Proof. unfold mem_look. case_decide; [done|]. by intros [? ?]. Qed.

Lemma mem_paths_all m cs : is_Some (mem_look m cs) -> cs ∈ mem_paths m.
Proof.
  intros Hs. pose proof (mem_look_good _ _ Hs) as Hg. rewrite look_good in Hs by done. apply elem_of_keys in Hs.
  apply list_elem_of_fmap. exists (P cs). by rewrite comps_of_rel_path.
Qed.

Lemma mem_parent m cs c : mem_ok m -> is_Some (mem_look m (cs ++ [c])) -> mem_look m cs = Some MDir.
Proof.
  intros Hm Hs. pose proof (mem_look_good _ _ Hs) as Hg. pose proof (proj1 (good_snoc _ _) Hg) as [Hc _].
  rewrite look_good in Hs by done. rewrite look_good by done. by eapply mo_parent.
Qed.

(** Everything on the way to a node is a directory. *)
Lemma mem_ancestor m cs ds : mem_ok m -> is_Some (mem_look m (cs ++ ds)) -> ds <> [] -> mem_look m cs = Some MDir.
Proof.
  intros Hm. induction ds as [|d ds IH] using rev_ind; [done|]. rewrite app_assoc. intros Hs _.
  apply mem_parent in Hs; [|done]. destruct ds as [|e ds]; [by rewrite app_nil_r in Hs|]. by apply IH.
Qed.

(** ** Updates *)

Lemma look_set m nodes cs' : mem_look (set_nodes nodes m) cs' = if decide (good cs') then nodes !! P cs' else None.
Proof. done. Qed.

Lemma look_insert m nodes cs n cs' : good cs -> nodes = mf_nodes m ->
  (if decide (good cs') then <[P cs := n]> nodes !! P cs' else None) = if decide (cs' = cs) then Some n else mem_look m cs'.
Proof.
  intros Hg ->. unfold mem_look. destruct (decide (cs' = cs)) as [->|Hne]; [by rewrite decide_True, lookup_insert_eq|].
  case_decide; [|done]. rewrite lookup_insert_ne; [done|]. intros E. by apply P_inj in E.
Qed.

Lemma look_delete m nodes cs cs' : good cs -> nodes = mf_nodes m ->
  (if decide (good cs') then delete (P cs) nodes !! P cs' else None) = if decide (cs' = cs) then None else mem_look m cs'.
Proof.
  intros Hg ->. unfold mem_look. destruct (decide (cs' = cs)) as [->|Hne]; [by rewrite decide_True, lookup_delete_eq|].
  case_decide; [|done]. rewrite lookup_delete_ne; [done|]. intros E. by apply P_inj in E.
Qed.

Lemma require_parent_P m cs c : good (cs ++ [c]) ->
  require_parent_dir (P (cs ++ [c])) m = match mf_nodes m !! P cs with
                                         | Some MDir => Ok tt | Some _ => Err FeNotDir | None => Err FeNotFound end.
Proof. intros Hg. unfold require_parent_dir. by rewrite split_parent_P. Qed.

Lemma mem_create_spec op cs n m : mem_ok m -> good cs -> let '(r, m') := mem_create op (P cs) n m in
  mem_ok m' /\ (if is_ok r then creates cs n (mem_look m) (mem_look m') else same_tree (mem_look m) (mem_look m')) /\
  (r = Err FeExists <-> is_Some (mem_look m cs)) /\
  (has_parent (mem_look m) cs -> mem_look m cs = None -> r = Ok tt).
Proof.
  intros Hm Hg. unfold mem_create. rewrite look_good by done. destruct (mf_nodes m !! P cs) as [n0|] eqn:E.
  { cbn. split; [done|]. split; [done|]. split; [by split|done]. }
  destruct cs as [|c cs _] using rev_ind; [by rewrite (mo_root _ Hm) in E|]. rewrite require_parent_P by done.
  pose proof (proj1 (good_snoc cs c) Hg) as [Hgc Hcc].
  assert (forall e : FsError, e <> FeExists -> mf_nodes m !! P cs <> Some MDir ->
    mem_ok m /\ same_tree (mem_look m) (mem_look m) /\ (Err (A := unit) e = Err FeExists <-> is_Some (@None MNode)) /\
    (has_parent (mem_look m) (cs ++ [c]) -> @None MNode = None -> Err (A := unit) e = Ok tt)) as Hbad.
  { intros e He Hp. split; [done|]. split; [done|]. split; [split; [by intros [= ->]|by intros [? ?] ]|].
    intros (ds & d & [-> _]%app_inj_tail & Hd). rewrite look_good in Hd by done. done. }
  destruct (mf_nodes m !! P cs) as [ [d x| |t]|] eqn:Ep; [apply Hbad; done| |apply Hbad; done|apply Hbad; done].
  split; [|split; [|split; [split; [done|by intros [? ?] ]|done] ] ]; cycle 1.
  { split; [by rewrite look_good|]. intros cs'. rewrite look_set. by apply look_insert. }
  split; cbn [mf_nodes set_nodes log].
  - intros k n1. rewrite lookup_insert_Some. intros [ [<- _]|[_ Hk] ]; [eauto|by apply (mo_keys _ Hm k n1)].
  - rewrite lookup_insert_ne; [apply Hm|]. intros Hroot. rewrite Hroot in E. by rewrite (mo_root _ Hm) in E.
  - intros ds d Hgd Hs. pose proof (proj1 (good_snoc ds d) Hgd) as [Hgds _].
    destruct (decide (ds ++ [d] = cs ++ [c])) as [ [-> ->]%app_inj_tail|Hne].
    + rewrite lookup_insert_ne; [done|]. intros Heq. by rewrite Heq, Ep in E.
    + rewrite lookup_insert_ne in Hs by (intros Heq; by apply P_inj in Heq).
      apply (mo_parent _ Hm) in Hs; [|done]. rewrite lookup_insert_ne; [done|]. intros Heq. by rewrite Heq, Hs in E.
Qed.

Lemma mem_ok_delete m cs op : mem_ok m -> good cs -> cs <> [] -> (forall c, mem_look m (cs ++ [c]) = None) ->
  mem_ok (set_nodes (delete (P cs) (mf_nodes m)) (log op (P cs) m)).
Proof.
  intros Hm Hg Hne Hleaf. split; cbn [mf_nodes set_nodes log].
  - intros k n Hk. apply lookup_delete_Some in Hk as [_ Hk]. by apply (mo_keys _ Hm k n).
  - rewrite lookup_delete_ne; [apply Hm|]. intros Hroot. apply P_inj in Hroot; [done|done|apply Forall_nil_2].
  - intros ds d Hgd Hs. pose proof (proj1 (good_snoc ds d) Hgd) as [Hgds _].
    destruct (decide (ds ++ [d] = cs)) as [<-|Hn]; [rewrite lookup_delete_eq in Hs; by destruct Hs|].
    rewrite lookup_delete_ne in Hs by (intros Heq; by apply P_inj in Heq).
    rewrite lookup_delete_ne; [by eapply mo_parent|]. intros Heq. apply P_inj in Heq; [|done|done]. subst ds.
    specialize (Hleaf d). rewrite look_good in Hleaf by done. rewrite Hleaf in Hs. by destruct Hs.
Qed.

Lemma mem_leaf m cs n c : mem_ok m -> mem_look m cs = Some n -> leaf n = true -> mem_look m (cs ++ [c]) = None.
Proof.
  intros Hm Hn Hl. destruct (mem_look m (cs ++ [c])) eqn:E; [|done].
  assert (mem_look m cs = Some MDir) as Hd by (eapply mem_parent; [done|by rewrite E]). rewrite Hn in Hd. by injection Hd as ->.
Qed.

(** The keys that start with the path of a directory and a slash are those
    below it. *)
Lemma starts_below cs ds : good cs -> good ds -> cs <> [] ->
  starts_with (P cs ++ [SLASH]) (P ds) = true <-> exists r, r <> [] /\ ds = cs ++ r.
Proof.
  intros Hc Hd Hne. rewrite starts_with_spec. split.
  - intros [rest E]. rewrite <- app_assoc in E. cbn in E.
    pose proof (comps_of_rel_path ds Hd) as Hds. rewrite E, comps_of_app, comps_of_rel_path in Hds by done.
    exists (comps_of rest). split; [|done]. intros Hr. rewrite Hr, app_nil_r in Hds. subst ds.
    apply (f_equal length) in E. rewrite length_app in E. cbn in E. lia.
  - intros (r & Hr & ->). exists (drop 1 (P r)). rewrite P_below by done. rewrite <- app_assoc. f_equal.
    destruct r as [|x r]; [done|]. done.
Qed.

Lemma mem_unlink_spec cs m : mem_ok m -> good cs -> let '(r, m') := mem_unlink (P cs) m in
  mem_ok m' /\
  (if is_ok r then (exists n, mem_look m cs = Some n /\ leaf n = true) /\ removes cs (mem_look m) (mem_look m')
   else same_tree (mem_look m) (mem_look m')) /\
  (forall n, mem_look m cs = Some n -> leaf n = true -> r = Ok tt) /\ (mem_look m cs = None <-> r = Err FeNotFound).
Proof.
  intros Hm Hg. unfold mem_unlink. destruct (mf_nodes m !! P cs) as [n|] eqn:E; cycle 1.
  { split; [done|]. split; [done|]. rewrite look_good, E by done. by split. }
  assert (mem_look m cs = Some n) as El by by rewrite look_good.
  assert (forall n', mem_look m cs = Some n' -> n' = n) as Hn by (intros n'; rewrite El; by intros [= ->]).
  assert (leaf n = true -> mem_ok (set_nodes (delete (P cs) (mf_nodes m)) (log (lit "unlink") (P cs) m)) /\
    removes cs (mem_look m) (mem_look (set_nodes (delete (P cs) (mf_nodes m)) (log (lit "unlink") (P cs) m)))) as Hdel.
  { intros Hl. split; [apply mem_ok_delete; [done|done| |]|].
    - intros ->. rewrite (mo_root _ Hm) in E. by injection E as <-.
    - intros c. by eapply mem_leaf.
    - intros cs'. rewrite look_set. by apply look_delete. }
  destruct n as [d x| |t]; cbn [is_ok leaf] in *.
  - destruct (Hdel eq_refl). split; [done|]. split; [eauto|]. split; [done|]. by rewrite El.
  - split; [done|]. split; [done|]. split; [intros n' Hn' Hl; by rewrite (Hn n' Hn') in Hl|by rewrite El].
  - destruct (Hdel eq_refl). split; [done|]. split; [eauto|]. split; [done|]. by rewrite El.
Qed.

Lemma mem_rmdir_spec cs m : mem_ok m -> good cs -> cs <> [] -> let '(r, m') := mem_rmdir (P cs) m in
  mem_ok m' /\
  (if is_ok r then (mem_look m cs = Some MDir /\ forall c, mem_look m (cs ++ [c]) = None) /\ removes cs (mem_look m) (mem_look m')
   else same_tree (mem_look m) (mem_look m')) /\
  (mem_look m cs = Some MDir -> (forall c, mem_look m (cs ++ [c]) = None) -> r = Ok tt) /\
  (r = Err FeNotFound -> mem_look m cs = None).
Proof.
  intros Hm Hg Hne. unfold mem_rmdir. rewrite look_good by done.
  destruct (mf_nodes m !! P cs) as [ [d x| |t]|] eqn:E; [done| |done|done].
  destruct (existsb _ _) eqn:Ex.
  - split; [done|]. split; [done|]. split; [|done]. intros _ Hc. exfalso. apply existsb_exists in Ex as (k & Hk%list_elem_of_In & Hs).
    apply elem_of_keys in Hk as [n Hn]. destruct (mo_keys _ Hm k n Hn) as (ds & Hgd & ->).
    apply starts_below in Hs; [|done..]. destruct Hs as ([|c r] & Hr & ->); [done|].
    assert (is_Some (mem_look m (cs ++ [c]))) as [? Hx]; [|by rewrite Hc in Hx].
    destruct r as [|e r]; [exists n; by rewrite look_good|]. exists MDir.
    apply (mem_ancestor m _ (e :: r)); [done| |done]. rewrite <- app_assoc. exists n. by rewrite look_good.
  - assert (forall c, mem_look m (cs ++ [c]) = None) as Hc.
    { intros c. destruct (mem_look m (cs ++ [c])) as [n|] eqn:El; [|done]. exfalso.
      pose proof (mem_look_good m (cs ++ [c]) ltac:(by rewrite El)) as Hgc. rewrite look_good in El by done.
      apply not_true_iff_false in Ex. apply Ex, existsb_exists. exists (P (cs ++ [c])).
      split; [apply list_elem_of_In, elem_of_keys; by eexists|]. apply starts_below; [done..|]. by exists [c]. }
    split; [by apply mem_ok_delete|]. split; [|by split]. cbn. split; [by split|].
    intros cs'. rewrite look_set. by apply look_delete.
Qed.

(** ** Listing a directory *)

Lemma str_between p : forall k r, str_le p k -> str_le k (p ++ r) -> exists r', k = p ++ r'.
Proof.
  unfold str_le. induction p as [|x p IH]; intros k r; [by exists k|]. destruct k as [|y k]; cbn; [done|].
  rewrite !orb_true_iff, !andb_true_iff, !Z.ltb_lt, !Z.eqb_eq. intros [?|[-> H1] ] [?|[? H2] ]; try lia.
  destruct (IH k r H1 H2) as [r' ->]. by exists r'.
Qed.

Definition dir_prefix (cs : path) : str := if bool_decide (P cs = [SLASH]) then [SLASH] else P cs ++ [SLASH].

Lemma dir_prefix_P cs c : good cs -> P (cs ++ [c]) = dir_prefix cs ++ c.
Proof.
  intros Hg. unfold dir_prefix. case_bool_decide as E.
  - apply rel_path_root in E as ->; [|done]. cbn. by rewrite app_nil_r.
  - rewrite rel_path_snoc; [by rewrite <- app_assoc|]. by intros ->.
Qed.

Lemma dir_scan_elem nodes prefix ks rest kd :
  StronglySorted str_le ks -> (forall k, k ∈ ks -> str_le prefix k) ->
  (rest, kd) ∈ dir_scan nodes prefix ks <->
  good_comp rest /\ (prefix ++ rest ∈ ks) /\ exists n, nodes !! (prefix ++ rest) = Some n /\ kd = nm_kind (meta_of n).
Proof.
  intros Hs. induction Hs as [|k ks Hs IH Hk]; intros Hp; cbn [dir_scan]; [set_solver|].
  specialize (IH ltac:(intros; apply Hp; set_solver)).
  assert (k = prefix ++ rest -> good_comp rest -> strip_prefix prefix k = Some rest /\
    negb (nonempty rest) || bool_decide (SLASH ∈ rest) = false) as Hthis.
  { intros -> [Hne Hsl]. split; [by apply strip_prefix_spec|]. rewrite bool_decide_eq_false_2 by done. by destruct rest. }
  destruct (strip_prefix prefix k) as [rest0|] eqn:E; cycle 1.
  { split; [set_solver|]. intros (Hg & [Hin|Hin]%elem_of_cons & _); [by destruct (Hthis (eq_sym Hin) Hg)|].
    rewrite Forall_forall in Hk. destruct (str_between prefix k rest) as [r' ->]; [apply Hp; set_solver|by apply Hk|].
    by rewrite (proj2 (strip_prefix_spec _ _ _) eq_refl) in E. }
  apply strip_prefix_spec in E as ->.
  assert (forall x, prefix ++ rest = prefix ++ x <-> rest = x) as Hpx by (intros x; split; [apply app_inv_head|by intros ->]).
  rewrite elem_of_cons. rewrite Hpx. destruct (negb (nonempty rest0) || bool_decide (SLASH ∈ rest0)) eqn:Eb.
  { rewrite IH. split; [by intros (? & ? & ?); auto|]. intros (Hg & [->|Hin] & Hn); [|done].
    destruct (Hthis eq_refl Hg) as [_ H]. by rewrite H in Eb. }
  apply orb_false_iff in Eb as [E1 E2%bool_decide_eq_false_1].
  assert (good_comp rest0) as Hg0 by (split; [by destruct rest0|done]).
  destruct (nodes !! (prefix ++ rest0)) as [n|] eqn:En.
  - rewrite elem_of_cons, IH. split.
    + intros [ [= -> ->]|(? & ? & ?)]; [split; [done|]; split; [by left|by exists n]|auto].
    + intros (Hg & [->|Hin] & n' & Hn' & ->); [left; congruence|right; eauto].
  - rewrite IH. split; [by intros (? & ? & ?); auto|]. intros (Hg & [->|Hin] & Hn); [|done].
    destruct Hn as (n & Hn & _). by rewrite Hn in En.
Qed.

Lemma dir_scan_nodup nodes prefix ks : NoDup ks -> NoDup (dir_scan nodes prefix ks).*1 /\
  forall rest, rest ∈ (dir_scan nodes prefix ks).*1 -> prefix ++ rest ∈ ks.
Proof.
  induction 1 as [|k ks Hk Hnd [IH1 IH2] ]; cbn [dir_scan]; [split; [constructor|set_solver]|].
  destruct (strip_prefix prefix k) as [rest0|] eqn:E; [|split; [constructor|set_solver] ].
  apply strip_prefix_spec in E as ->.
  assert (NoDup (dir_scan nodes prefix ks).*1 /\
    forall rest, rest ∈ (dir_scan nodes prefix ks).*1 -> prefix ++ rest ∈ (prefix ++ rest0) :: ks) as Hskip.
  { split; [done|]. intros rest Hr. apply elem_of_cons. right. by apply IH2. }
  destruct (_ || _); [done|]. destruct (nodes !! _); [|done]. cbn. split.
  - constructor; [|done]. intros Hin. by apply Hk, IH2.
  - intros rest [->|Hr]%elem_of_cons; [set_solver|]. by apply Hskip.
Qed.

Lemma keys_sorted (m : gmap str MNode) : StronglySorted str_le (keys m).
Proof. apply Sorted_StronglySorted; [apply _|]. apply Sorted_merge_sort. apply _. Qed.

Lemma mem_read_dir_spec cs m : mem_ok m -> good cs ->
  (mem_read_dir (P cs) m).1 = match mem_look m cs with
    | Some MDir => (mem_read_dir (P cs) m).1 | Some _ => Err FeNotDir | None => Err FeNotFound end /\
  (mem_look m cs = Some MDir -> exists es, (mem_read_dir (P cs) m).1 = Ok es /\ NoDup es.*1 /\
     forall c, c ∈ es.*1 <-> is_Some (mem_look m (cs ++ [c]))).
Proof.
  intros Hm Hg. unfold mem_read_dir. rewrite !look_good by done. fold (dir_prefix cs).
  destruct (mf_nodes m !! P cs) as [ [d x| |t]|] eqn:E; cbn [fst]; [by split| |by split|by split].
  split; [done|]. intros _. eexists. split; [done|]. set (ks := List.filter _ _).
  assert (NoDup ks) as Hnd by (apply NoDup_ListNoDup, List.NoDup_filter, NoDup_ListNoDup, NoDup_keys).
  destruct (dir_scan_nodup (mf_nodes m) (dir_prefix cs) ks Hnd) as [Hnd' _]. split; [done|].
  assert (StronglySorted str_le ks) as Hss.
  { subst ks. pose proof (keys_sorted (mf_nodes m)) as Hk. clear -Hk.
    induction Hk as [|k l Hk IH Hall]; cbn; [constructor|]. destruct (str_leb _ k); [|done]. constructor; [done|].
    apply Forall_forall. intros y Hy%list_elem_of_In%filter_In. rewrite Forall_forall in Hall.
    apply Hall, list_elem_of_In. tauto. }
  assert (forall k, k ∈ ks <-> is_Some (mf_nodes m !! k) /\ str_le (dir_prefix cs) k) as Hks.
  { intros k. subst ks. rewrite list_elem_of_In, filter_In, <- list_elem_of_In, elem_of_keys. done. }
  intros c. rewrite list_elem_of_fmap. split.
  - intros ([rest kd] & -> & Hin). apply dir_scan_elem in Hin; [|done|by intros k [_ ?]%Hks].
    destruct Hin as (Hgr & _ & n & Hn & _). rewrite look_good by by apply good_snoc.
    rewrite dir_prefix_P by done. by exists n.
  - intros Hs. pose proof (mem_look_good _ _ Hs) as Hgc. rewrite look_good in Hs by done. destruct Hs as [n Hn].
    exists (c, nm_kind (meta_of n)). split; [done|]. apply dir_scan_elem; [done|by intros k [_ ?]%Hks|].
    rewrite dir_prefix_P in Hn by done. split; [by apply good_snoc in Hgc as [_ ?]|]. split; [|eauto].
    apply Hks. split; [by exists n|]. clear. unfold str_le. induction (dir_prefix cs) as [|x p IH]; [done|]. cbn.
    by rewrite Z.eqb_refl, IH, orb_true_r.
Qed.

(** ** Renaming *)

(** Moving keys that are distinct and whose new names are new and distinct. *)
Lemma move_all_lookup old new ks : forall nodes,
  NoDup ks -> (forall k, k ∈ ks -> is_Some (nodes !! k)) ->
  (forall k k', k ∈ ks -> k' ∈ ks -> drop (length old) k = drop (length old) k' -> k = k') ->
  (forall k, k ∈ ks -> nodes !! (new ++ drop (length old) k) = None) ->
  (forall k, k ∈ ks -> foldl (move_node old new) nodes ks !! (new ++ drop (length old) k) = nodes !! k) /\
  (forall x, x ∈ ks -> foldl (move_node old new) nodes ks !! x = None) /\
  (forall x, x ∉ ks -> (forall k, k ∈ ks -> x <> new ++ drop (length old) k) ->
     foldl (move_node old new) nodes ks !! x = nodes !! x).
Proof.
  induction ks as [|k ks IH]; intros nodes Hnd Hs Hinj Hnew; [cbn; split; [set_solver|split; [set_solver|done] ]|].
  apply NoDup_cons in Hnd as [Hk Hnd]. cbn [foldl]. destruct (Hs k) as [n Hn]; [set_solver|].
  assert (move_node old new nodes k = <[new ++ drop (length old) k := n]> (delete k nodes)) as E by by (unfold move_node; rewrite Hn).
  assert (forall k', k' ∈ ks -> k' <> new ++ drop (length old) k) as Hne.
  { intros k' Hk' ->. destruct (Hs (new ++ drop (length old) k)) as [? Hx]; [set_solver|]. rewrite Hnew in Hx by set_solver. done. }
  assert (forall k', k' ∈ ks -> move_node old new nodes k !! k' = nodes !! k') as Hkeep.
  { intros k' Hk'. rewrite E, lookup_insert_ne by (intros He; by apply (Hne k')). by rewrite lookup_delete_ne by (intros ->; done). }
  destruct (IH (move_node old new nodes k) Hnd) as (IH1 & IH2 & IH3).
  - intros k' Hk'. rewrite Hkeep by done. apply Hs. set_solver.
  - intros; apply Hinj; set_solver.
  - intros k' Hk'. rewrite E, lookup_insert_ne.
    + apply lookup_delete_None. right. apply Hnew. set_solver.
    + intros He%app_inv_head. apply Hinj in He; [|set_solver..]. by subst.
  - split; [|split].
    + intros k' [->|Hk']%elem_of_cons; [|by rewrite IH1, Hkeep].
      rewrite IH3; [by rewrite E, lookup_insert_eq| |].
      * intros Hin. by apply (Hne _ Hin).
      * intros k' Hk' He%app_inv_head. apply Hinj in He; [|set_solver..]. by subst.
    + intros x [->|Hx]%elem_of_cons; [|by apply IH2].
      assert (forall k', k' ∈ k :: ks -> k <> new ++ drop (length old) k') as Hnk.
      { intros k' Hk' ->. destruct (Hs (new ++ drop (length old) k')) as [? Hx]; [set_solver|]. by rewrite Hnew in Hx. }
      rewrite IH3; [|done|intros; apply Hnk; set_solver].
      rewrite E, lookup_insert_ne by (intros He; apply (Hnk k); [set_solver|done]). apply lookup_delete_eq.
    + intros x Hx Hxn. apply not_elem_of_cons in Hx as [Hxk Hx].
      rewrite IH3; [|done|intros; apply Hxn; set_solver].
      rewrite E, lookup_insert_ne by (intros He; apply (Hxn k); [set_solver|done]). by rewrite lookup_delete_ne.
Qed.

Lemma P_move a b r : good (a ++ r) -> a <> [] -> b <> [] -> P b ++ drop (length (P a)) (P (a ++ r)) = P (b ++ r).
Proof.
  intros Hg Ha Hb. destruct r as [|x r]; [by rewrite !app_nil_r, drop_all, app_nil_r|].
  rewrite !P_below by done. by rewrite drop_app_length.
Qed.

Definition moved_keys (a : path) (m : MemFs) : list str :=
  List.filter (fun k => bool_decide (k = P a) || starts_with (P a ++ [SLASH]) k) (keys (mf_nodes m)).

Lemma elem_of_moved a m k : mem_ok m -> good a -> a <> [] ->
  k ∈ moved_keys a m <-> exists r, good (a ++ r) /\ k = P (a ++ r) /\ is_Some (mf_nodes m !! k).
Proof.
  intros Hm Ha Hne. unfold moved_keys. rewrite list_elem_of_In, filter_In, <- list_elem_of_In, elem_of_keys, orb_true_iff.
  rewrite bool_decide_eq_true. split.
  - intros ([n Hn] & Hor). destruct (mo_keys _ Hm k n Hn) as (ds & Hd & ->). destruct Hor as [E|Hs].
    + apply P_inj in E as ->; [|done..]. exists []. rewrite app_nil_r. by eauto.
    + apply starts_below in Hs as (r & _ & ->); [|done..]. eauto.
  - intros (r & Hg & -> & Hs). split; [done|]. destruct r as [|x r]; [left; by rewrite app_nil_r|right].
    apply starts_below; [done..|]. by exists (x :: r).
Qed.

Lemma mem_below_none m b : mem_ok m -> b <> [] -> mem_look m b = None -> forall r, mem_look m (b ++ r) = None.
Proof.
  intros Hm Hne Hb r. destruct r as [|x r]; [by rewrite app_nil_r|]. destruct (mem_look m (b ++ x :: r)) eqn:E; [|done].
  assert (mem_look m b = Some MDir) as H by (eapply mem_ancestor; [done|by rewrite E|done]). by rewrite H in Hb.
Qed.

Lemma moved_tree a b m : mem_ok m -> good a -> good b -> a <> [] -> b <> [] -> ~ a `prefix_of` b -> is_Some (mem_look m a) ->
  mem_look m b = None -> let nodes := foldl (move_node (P a) (P b)) (mf_nodes m) (moved_keys a m) in
  (forall r, good r -> nodes !! P (b ++ r) = mem_look m (a ++ r)) /\
  (forall r, good r -> nodes !! P (a ++ r) = None) /\
  (forall k, k ∉ moved_keys a m -> (forall r, good r -> k <> P (b ++ r)) -> nodes !! k = mf_nodes m !! k).
Proof.
  intros Hm Ha Hb Hane Hbne Hnp Hsa Hnone nodes. pose proof (mem_below_none m b Hm Hbne Hnone) as Hbelow.
  assert (forall k, k ∈ moved_keys a m <-> exists r, good (a ++ r) /\ k = P (a ++ r) /\ is_Some (mf_nodes m !! k)) as Hmk
    by (intros; by apply elem_of_moved).
  destruct (move_all_lookup (P a) (P b) (moved_keys a m) (mf_nodes m)) as (M1 & M2 & M3).
  - apply NoDup_ListNoDup, List.NoDup_filter, NoDup_ListNoDup, NoDup_keys.
  - intros k (r & _ & _ & Hs)%Hmk. done.
  - intros k k' (r & Hg & -> & _)%Hmk (r' & Hg' & -> & _)%Hmk E.
    assert (P (b ++ r) = P (b ++ r')) as Hp by (rewrite <- !(P_move a b) by done; by rewrite E).
    apply good_app in Hg as [_ Hr]. apply good_app in Hg' as [_ Hr'].
    apply P_inj in Hp; [|by apply good_app..]. by apply app_inv_head in Hp as ->.
  - intros k (r & Hg & -> & _)%Hmk. rewrite P_move by done. apply good_app in Hg as [_ Hr].
    rewrite <- look_good by by apply good_app. apply Hbelow.
  - assert (forall r r', b ++ r <> a ++ r') as Hdis.
    { intros r r' E. destruct (prefix_weak_total b a (a ++ r')) as [ [x ->]|?]; [by exists r|by exists r'| |done].
      rewrite Hbelow in Hsa. by destruct Hsa. }
    assert (forall k, k ∈ moved_keys a m -> exists r, good r /\ k = P (a ++ r) /\ is_Some (mf_nodes m !! k) /\
      P b ++ drop (length (P a)) k = P (b ++ r)) as Hto.
    { intros k (r & Hg & -> & Hs)%Hmk. exists r. split; [by apply good_app in Hg as [_ ?]|]. do 2 (split; [done|]). by apply P_move. }
    split; [|split].
    + intros r Hr. assert (good (a ++ r)) as Hg by by apply good_app.
      destruct (mf_nodes m !! P (a ++ r)) as [n|] eqn:E.
      * rewrite <- (P_move a b r) by done. rewrite look_good by done. apply M1, Hmk. exists r. by rewrite E.
      * rewrite look_good, E by done. subst nodes. rewrite M3.
        -- rewrite <- look_good by by apply good_app. apply Hbelow.
        -- intros (r' & Hg' & Hp & _)%Hmk. apply P_inj in Hp; [by apply Hdis in Hp|by apply good_app|done].
        -- intros k (r' & Hr' & -> & Hs & ->)%Hto Hp. apply P_inj in Hp; [|by apply good_app..].
           apply app_inv_head in Hp as ->. rewrite E in Hs. by destruct Hs.
    + intros r Hr. assert (good (a ++ r)) as Hg by by apply good_app. subst nodes.
      destruct (mf_nodes m !! P (a ++ r)) as [n|] eqn:E.
      * apply M2, Hmk. exists r. by rewrite E.
      * rewrite M3; [done| |].
        -- intros (r' & Hg' & Hp & Hs)%Hmk. rewrite E in Hs. by destruct Hs.
        -- intros k (r' & Hr' & _ & _ & ->)%Hto Hp. apply P_inj in Hp; [|done|by apply good_app]. by apply (Hdis r' r).
    + intros k Hk Hkb. apply M3; [done|]. intros k' (r' & Hr' & _ & _ & ->)%Hto. by apply Hkb.
Qed.

(** A tree with everything below [a] moved to [b] is well formed. *)
Lemma mem_ok_renamed a b m m' : mem_ok m -> a <> [] -> b <> [] -> ~ a `prefix_of` b ->
  has_parent (mem_look m) b -> renames a b (mem_look m) (mem_look m') ->
  (forall k n, mf_nodes m' !! k = Some n -> exists cs, good cs /\ k = P cs) -> mem_ok m'.
Proof.
  intros Hm Hane Hbne Hnp (bd & c & -> & Hbd) (Hsa & Hnone & L1 & L2 & L3) Hkeys.
  assert (forall cs ds : path, ds <> [] -> ~ (cs ++ ds) `prefix_of` cs) as Hlen.
  { intros cs ds Hd [r E]. apply (f_equal length) in E. rewrite !length_app in E. destruct ds; [done|]. cbn in E. lia. }
  split; [done| |].
  - rewrite <- look_good by apply Forall_nil_2. rewrite L3.
    + rewrite look_good by apply Forall_nil_2. apply Hm.
    + by intros ?%prefix_nil_inv.
    + by intros ?%prefix_nil_inv.
  - intros cs d Hg Hs. pose proof (proj1 (good_snoc cs d) Hg) as [Hgc _]. rewrite <- look_good in Hs |- * by done.
    destruct (decide (bd ++ [c] `prefix_of` cs ++ [d])) as [ [r E]|Hnb].
    + destruct r as [|x r _] using rev_ind.
      * rewrite app_nil_r in E. apply app_inj_tail in E as [-> ->]. rewrite L3; [done| |by apply (Hlen bd [c])].
        intros [x ->]. apply Hnp. exists (x ++ [c]). by rewrite app_assoc.
      * rewrite app_assoc in E. apply app_inj_tail in E as [-> ->]. rewrite <- app_assoc, L1 in Hs. rewrite L1.
        rewrite app_assoc in Hs. by eapply mem_parent.
    + destruct (decide (a `prefix_of` cs ++ [d])) as [ [r E]|Hna]; [rewrite E, L2 in Hs; by destruct Hs|].
      rewrite L3 in Hs by done. rewrite L3; [by eapply mem_parent| |].
      * intros H. by apply Hna, prefix_app_r.
      * intros H. by apply Hnb, prefix_app_r.
Qed.

Lemma mem_rename_spec a b m : mem_ok m -> good a -> good b -> ~ a `prefix_of` b -> let '(r, m') := mem_rename (P a) (P b) m in
  mem_ok m' /\ (if is_ok r then renames a b (mem_look m) (mem_look m') else same_tree (mem_look m) (mem_look m')) /\
  (is_Some (mem_look m a) -> mem_look m b = None -> has_parent (mem_look m) b -> r = Ok tt) /\
  (is_Some (mem_look m a) -> is_Some (mem_look m b) -> r = Err FeExists).
Proof.
  intros Hm Ha Hb Hnp. unfold mem_rename. rewrite !(look_good m) by done.
  destruct (mf_nodes m !! P a) as [na|] eqn:Ea; [|split; [done|split; [done|split; by intros [? ?] ] ] ].
  destruct (mf_nodes m !! P b) as [nb|] eqn:Eb; [split; [done|split; [done|by split] ]|].
  destruct b as [|c b _] using rev_ind; [by rewrite (mo_root _ Hm) in Eb|].
  pose proof (proj1 (good_snoc b c) Hb) as [Hgb _]. rewrite require_parent_P by done.
  destruct (decide (mf_nodes m !! P b = Some MDir)) as [Ep|Ep]; cycle 1.
  { assert (~ has_parent (mem_look m) (b ++ [c])) as Hno.
    { intros (ds & d & [-> _]%app_inj_tail & Hd). by rewrite look_good in Hd. }
    destruct (mf_nodes m !! P b) as [ [d x| |t]|]; [|done| |]; (split; [done|split; [done|split; [intros _ _ H; by destruct Hno|by intros _ [? ?] ] ] ]). }
  rewrite Ep. cbn [is_ok]. fold (moved_keys a m).
  assert (a <> []) as Hane by (intros ->; apply Hnp, prefix_nil).
  assert (b ++ [c] <> []) as Hbne by by destruct b.
  assert (is_Some (mem_look m a)) as Hsa by (rewrite look_good by done; by eexists).
  assert (mem_look m (b ++ [c]) = None) as Hnone by by rewrite look_good.
  destruct (moved_tree a (b ++ [c]) m Hm Ha Hb Hane Hbne Hnp Hsa Hnone) as (T1 & T2 & T3). cbn zeta in T1, T2, T3.
  set (nodes := foldl _ _ _) in *. set (m' := set_nodes nodes _).
  assert (forall r, mem_look m' (b ++ [c] ++ r) = mem_look m (a ++ r)) as L1.
  { intros r. rewrite app_assoc. unfold mem_look at 1. case_decide as Hg.
    - apply T1. by apply good_app in Hg as [_ ?].
    - unfold mem_look. rewrite decide_False; [done|]. intros [_ Hr]%good_app. apply Hg. by apply good_app. }
  assert (forall r, mem_look m' (a ++ r) = None) as L2.
  { intros r. unfold mem_look. case_decide as Hg; [|done]. apply T2. by apply good_app in Hg as [_ ?]. }
  assert (forall cs, ~ a `prefix_of` cs -> ~ (b ++ [c]) `prefix_of` cs -> mem_look m' cs = mem_look m cs) as L3.
  { intros cs Hna Hnb. unfold mem_look. case_decide as Hg; [|done]. apply T3.
    - intros (r & Hgr & Hp & _)%elem_of_moved; [|done..]. apply P_inj in Hp as ->; [|done..]. apply Hna. by eexists.
    - intros r Hr Hp. apply P_inj in Hp as ->; [|done|by apply good_app]. apply Hnb. by eexists. }
  assert (has_parent (mem_look m) (b ++ [c])) as Hpar by (exists b, c; by rewrite look_good).
  assert (renames a (b ++ [c]) (mem_look m) (mem_look m')) as Hren.
  { split; [done|]. split; [done|]. split; [intros r; rewrite <- app_assoc; apply L1|done]. }
  split; [|split; [done|split; [done|by intros _ [? ?] ] ] ]. eapply mem_ok_renamed; [exact Hm|exact Hane|exact Hbne|done|done|exact Hren|]. intros k n Hk.
  destruct (decide (k ∈ moved_keys a m)) as [Hin|Hin]; [apply elem_of_moved in Hin as (r & Hg & -> & _); eauto|].
  destruct (decide (good (comps_of k) /\ k = P (comps_of k))) as [ [? ?]|Hbad]; [eauto|].
  cbn [mf_nodes m' set_nodes] in Hk. rewrite T3 in Hk; [by apply (mo_keys _ Hm k n)|done|].
  intros r Hr ->. apply Hbad. rewrite comps_of_rel_path by by apply good_app. split; [by apply good_app|done].
Qed.

(** ** The instances *)

Lemma mem_read_file_spec cs m : mem_ok m -> good cs ->
  match (mem_read_file (P cs) m).1 with
  | Ok d => exists x, mem_look m cs = Some (MFile d x)
  | Err e => e = FeNotFound -> mem_look m cs = None
  end.
Proof. intros Hm Hg. unfold mem_read_file. rewrite look_good by done. destruct (_ !! _) as [ [d x| |t]|]; cbn; by eauto. Qed.

#[export] Program Instance MemFs_honest : Honest MemFs := {
  fs_ok := mem_ok;
  look := mem_look;
  fs_paths := mem_paths
}.
Next Obligation. intros s cs Hs. by eapply mem_look_good. Qed.
Next Obligation. intros s cs c Hm Hs. by eapply mem_parent. Qed.
Next Obligation. intros s cs _ Hs. by apply mem_paths_all. Qed.
Next Obligation. done. Qed.
Next Obligation. done. Qed.
Next Obligation. done. Qed.
Next Obligation. done. Qed.
Next Obligation. intros p s Hs. by split. Qed.
Next Obligation. intros s [H1 H2 H3]. by split. Qed.
Next Obligation. intros s. cbn. by apply wrap_range. Qed.
Next Obligation.
  intros cs s Hm Hg. cbn. unfold mem_metadata. rewrite look_good by done. destruct (_ !! _) as [n|]; cbn; by eauto.
Qed.
Next Obligation. intros cs s Hm Hg. by apply mem_read_file_spec. Qed.
Next Obligation.
  intros cs s Hm Hg. cbn [read_dir MemFs_fs]. destruct (mem_read_dir_spec cs s Hm Hg) as [H1 H2].
  destruct (mem_look s cs) as [ [d x| |t]|] eqn:E; [by rewrite H1| |by rewrite H1|by rewrite H1].
  destruct (H2 eq_refl) as (es & -> & Hnd & He). done.
Qed.
Next Obligation.
  intros cs s t Hm Hg. cbn. unfold mem_read_link. rewrite look_good by done.
  destruct (_ !! _) as [ [d x| |t']|]; cbn; try done. by intros [= ->].
Qed.
Next Obligation.
  intros cs d x s Hm Hg. pose proof (mem_create_spec (lit "write") cs (MFile d x) s Hm Hg) as H. cbn. unfold mem_write_file.
  destruct (mem_create _ _ _ _) as [ [u|e] m']; destruct H as (? & ? & _); [done|]. split; [done|by left].
Qed.
Next Obligation.
  intros cs d s Hm Hg. pose proof (mem_create_spec (lit "write") cs (MFile d false) s Hm Hg) as H. cbn. unfold mem_write_file.
  destruct (mem_create _ _ _ _) as [ [u|e] m']; destruct H as (? & ? & [? _] & _); [done|]. split; [done|]. split; [by left|done].
Qed.
Next Obligation.
  intros cs s Hm Hg. pose proof (mem_create_spec (lit "mkdir") cs MDir s Hm Hg) as H. cbn. unfold mem_mkdir.
  destruct (mem_create _ _ _ _). destruct H as (? & ? & [? _] & _). done.
Qed.
Next Obligation.
  intros t cs s Hm Hg. pose proof (mem_create_spec (lit "symlink") cs (MSymlink t) s Hm Hg) as H. cbn. unfold mem_symlink.
  destruct (mem_create _ _ _ _). by destruct H as (? & ? & _).
Qed.
Next Obligation.
  intros cs s Hm Hg. pose proof (mem_unlink_spec cs s Hm Hg) as H. cbn. destruct (mem_unlink _ _).
  destruct H as (? & ? & _ & [_ ?]). done.
Qed.
Next Obligation.
  intros cs s Hm Hg Hne. pose proof (mem_rmdir_spec cs s Hm Hg Hne) as H. cbn. destruct (mem_rmdir _ _).
  destruct H as (? & ? & _ & ?). done.
Qed.
Next Obligation.
  intros a b s Hm Ha Hb Hp. pose proof (mem_rename_spec a b s Hm Ha Hb Hp) as H. cbn. destruct (mem_rename _ _ _). by destruct H as (? & ? & _).
Qed.

#[export] Program Instance MemFs_reliable : Reliable MemFs := {}.
Next Obligation. intros cs s Hm Hg. cbn. unfold mem_metadata. rewrite look_good by done. by destruct (_ !! _). Qed.
Next Obligation.
  intros cs s d x Hm Hl. cbn in *. unfold mem_read_file. rewrite <- look_good; [by rewrite Hl|]. apply (mem_look_good s). by rewrite Hl.
Qed.
Next Obligation. intros cs s Hm Hg Hl. cbn in *. unfold mem_read_file. by rewrite <- look_good, Hl by done. Qed.
Next Obligation.
  intros cs s Hm Hl. cbn [look read_dir MemFs_honest MemFs_fs] in *.
  assert (good cs) as Hg by (apply (mem_look_good s); by eexists).
  destruct (mem_read_dir_spec cs s Hm Hg) as [_ H]. by destruct (H Hl) as (es & -> & _).
Qed.
Next Obligation.
  intros cs s Hm Hg Hl. cbn [look read_dir MemFs_honest MemFs_fs] in *. destruct (mem_read_dir_spec cs s Hm Hg) as [-> _].
  by rewrite Hl.
Qed.
Next Obligation.
  intros cs s t Hm Hl. cbn in *. unfold mem_read_link. rewrite <- look_good; [by rewrite Hl|]. apply (mem_look_good s). by rewrite Hl.
Qed.
Next Obligation.
  intros cs d x s Hm Hg Hl Hp. pose proof (mem_create_spec (lit "write") cs (MFile d x) s Hm Hg) as H. cbn. unfold mem_write_file.
  destruct (mem_create _ _ _ _). destruct H as (_ & _ & _ & H). by apply H.
Qed.
Next Obligation.
  intros cs d s Hm Hg Hp. pose proof (mem_create_spec (lit "write") cs (MFile d false) s Hm Hg) as H. cbn in *. unfold mem_write_file.
  destruct (mem_create _ _ _ _). destruct H as (_ & _ & [_ He] & Ho). cbn. destruct (mem_look s cs); [by apply He|by apply Ho].
Qed.
Next Obligation.
  intros cs s Hm Hg Hp. pose proof (mem_create_spec (lit "mkdir") cs MDir s Hm Hg) as H. cbn in *. unfold mem_mkdir.
  destruct (mem_create _ _ _ _). destruct H as (_ & _ & [_ He] & Ho). cbn. destruct (mem_look s cs); [by apply He|by apply Ho].
Qed.
Next Obligation.
  intros t cs s Hm Hg Hl Hp. pose proof (mem_create_spec (lit "symlink") cs (MSymlink t) s Hm Hg) as H. cbn. unfold mem_symlink.
  destruct (mem_create _ _ _ _). destruct H as (_ & _ & _ & H). by apply H.
Qed.
Next Obligation.
  intros cs s n Hm Hl Hn. assert (good cs) as Hg by (apply (mem_look_good s); by eexists).
  pose proof (mem_unlink_spec cs s Hm Hg) as H. cbn. destruct (mem_unlink _ _). destruct H as (_ & _ & H & _). by eapply H.
Qed.
Next Obligation.
  intros cs s Hm Hg Hl. pose proof (mem_unlink_spec cs s Hm Hg) as H. cbn. destruct (mem_unlink _ _). destruct H as (_ & _ & _ & H). by apply H.
Qed.
Next Obligation.
  intros cs s Hm Hne Hl Hc. assert (good cs) as Hg by (apply (mem_look_good s); by eexists).
  pose proof (mem_rmdir_spec cs s Hm Hg Hne) as H. cbn. destruct (mem_rmdir _ _). destruct H as (_ & _ & H). by apply H.
Qed.
Next Obligation.
  intros a b s Hm Hb Hp Ha Hl Hpar. assert (good a) as Hg by (by apply (mem_look_good s)).
  pose proof (mem_rename_spec a b s Hm Hg Hb Hp) as H. cbn. destruct (mem_rename _ _ _). destruct H as (_ & _ & H & _). by apply H.
Qed.
Next Obligation.
  intros a b s Hm Hp Ha Hb. pose proof (mem_rename_spec a b s Hm (mem_look_good s a Ha) (mem_look_good s b Hb) Hp) as H. cbn.
  destruct (mem_rename _ _ _). destruct H as (_ & _ & _ & H). by apply H.
Qed.

Lemma MemFs_new_ok : mem_ok MemFs_new.
Proof.
  split; cbn [mf_nodes MemFs_new].
  - intros k n [<- _]%lookup_singleton_Some. exists []. split; [apply Forall_nil_2|done].
  - apply lookup_singleton_eq.
  - intros cs c Hg [n [Hn _]%lookup_singleton_Some]. change [SLASH] with (P []) in Hn.
    apply P_inj in Hn; [by destruct cs|apply Forall_nil_2|done].
Qed.

(** A decidable form of [mem_ok], for concrete trees. *)
Definition mem_check (m : MemFs) : bool :=
  bool_decide (mf_nodes m !! P [] = Some MDir) &&
  forallb (fun k => let cs := comps_of k in
    bool_decide (good cs) && bool_decide (k = P cs) &&
    bool_decide (cs = [] \/ mf_nodes m !! P (removelast cs) = Some MDir)) (keys (mf_nodes m)).

Lemma mem_check_ok m : mem_check m = true -> mem_ok m.
Proof.
  unfold mem_check. rewrite andb_true_iff, bool_decide_eq_true, forallb_forall. intros [Hroot Hall].
  assert (forall k n, mf_nodes m !! k = Some n -> good (comps_of k) /\ k = P (comps_of k) /\
    (comps_of k = [] \/ mf_nodes m !! P (removelast (comps_of k)) = Some MDir)) as Hkey.
  { intros k n Hk. assert (In k (keys (mf_nodes m))) as Hin by (apply list_elem_of_In, elem_of_keys; by eexists).
    apply Hall in Hin. rewrite !andb_true_iff, !bool_decide_eq_true in Hin. tauto. }
  split; [|done|].
  - intros k n Hk. destruct (Hkey k n Hk) as (? & ? & _). eauto.
  - intros cs c Hg [n Hn]. destruct (Hkey _ n Hn) as (_ & _ & Hp). rewrite comps_of_rel_path in Hp by done.
    destruct Hp as [E|Hp]; [by destruct cs|]. by rewrite removelast_last in Hp.
Qed.
