(* ===== verification/Store.v ===== *)
(** * Realization of store paths (pkg/shade-store/src/lib.rs)

    A derivation, its digest and the paths derived from it, and [realize]: the
    staged output is copied to a temporary sibling and renamed into place, then
    the [.drv] is written the same way.  [realize_atomic] holds of every honest
    backend, one that stops in the middle included. *)

From S2P Require Import Prelude Paths Text Cdf StoreFs StoreLaws StoreRun MemLaws.

#[local] Open Scope Z_scope.
#[local] Open Scope store_scope.
#[local] Open Scope rust_scope.

Definition CANONICAL_STORE_ROOT : str := lit "/shade/store".

Definition ELIDED_OUTPUT_KEYS : list str := [lit "out"; lit "outpath"; lit "output_path"; lit "outputpath"].

Inductive StoreError : Type :=
| SeCdf (e : CdfError)
| SeOutputPathNotElidable (key : str)
| SeDrvMismatch (path : str)
| SeFs (op path : str) (err : FsError).

Definition map_err {A E F} (f : E -> F) (r : result A E) : result A F :=
  match r with Ok a => Ok a | Err e => Err (f e) end.

(** [.map_err(fs_op(op, path))] *)
Definition fs_op {S A} (op path : str) (m : FsM S (result A FsError)) : FsM S (result A StoreError) :=
  r ← m; mret (map_err (SeFs op path) r).

(** [StorePaths] of this crate. *)
Record StorePathsAt : Type := mkPathsAt {
  pa_digest : str;
  pa_out_path : str;
  pa_drv_path : str;
  pa_store_name : str
}.

Record Derivation : Type := mkDrv {
  dv_name : str;
  dv_version : str;
  dv_cdf : CdfBuilder;
  dv_out_path : option str
}.

Definition Derivation_new (name version : str) : result Derivation StoreError :=
  let? name' := map_err SeCdf (normalize_name name) in
  let? _ := map_err SeCdf (validate_version version) in
  let? cdf1 := map_err SeCdf (CdfBuilder_insert (lit "name") name' CdfBuilder_new) in
  let? cdf2 := map_err SeCdf (CdfBuilder_insert (lit "version") version cdf1) in
  Ok (mkDrv name' version cdf2 None).

Definition Derivation_insert (key value : str) (d : Derivation) : result Derivation StoreError :=
  if bool_decide (key ∈ ELIDED_OUTPUT_KEYS) then Err (SeOutputPathNotElidable key)
  else
    let? cdf := map_err SeCdf (CdfBuilder_insert key value (dv_cdf d)) in
    Ok (mkDrv (dv_name d) (dv_version d) cdf (dv_out_path d)).

Definition digest_cdf (d : Derivation) : list Z := CdfBuilder_build (dv_cdf d).

Definition DRV : str := lit ".drv".

(** [format!("{digest}-{name}-{version}")] and the two paths. *)
Definition paths_at (store_root digest name version : str) : StorePathsAt :=
  let store_name := digest ++ lit "-" ++ name ++ lit "-" ++ version in
  let out_path := join store_root store_name in
  mkPathsAt digest out_path (out_path ++ DRV) store_name.

Record Realized : Type := mkRealized { rz_paths : StorePathsAt; rz_already_present : bool }.

Section realize.
Context (blake3 : list Z -> list Z).
Context {S : Type} `{StoreFs S}.

Definition digest (d : Derivation) : str := store_digest blake3 (digest_cdf d).

Definition resolve (store_root : str) (d : Derivation) : StorePathsAt * Derivation :=
  let paths := paths_at store_root (digest d) (dv_name d) (dv_version d) in
  (paths, mkDrv (dv_name d) (dv_version d) (dv_cdf d) (Some (pa_out_path paths))).

Definition store_paths_at (store_root name version : str) (cdf_bytes : list Z) : result StorePathsAt StoreError :=
  let? name' := map_err SeCdf (normalize_name name) in
  let? _ := map_err SeCdf (validate_version version) in
  Ok (paths_at store_root (store_digest blake3 cdf_bytes) name' version).

Definition ensure_drv (drv_path : str) (cdf_bytes : list Z) : FsM S (result unit StoreError) :=
  ex ← call (exists_ drv_path);
  if ex : bool then
    existing ←? fs_op (lit "read") drv_path (call (read_file drv_path));
    mret (if bool_decide (existing <> cdf_bytes) then Err (SeDrvMismatch drv_path) else Ok tt)
  else
    let '(parent, file_name) := split_parent drv_path in
    tmp ← temp_sibling parent file_name (lit "f");
    u ←? fs_op (lit "write") tmp (call (write_file tmp cdf_bytes false));
    r ← call (rename tmp drv_path);
    match r with
    | Ok _ => _ ← call (sync_dir parent); mret (Ok tt)
    | Err err =>
        _ ← call (unlink tmp);
        ex' ← call (exists_ drv_path);
        if ex' : bool then
          existing ←? fs_op (lit "read") drv_path (call (read_file drv_path));
          mret (if bool_decide (existing = cdf_bytes) then Ok tt else Err (SeFs (lit "rename") drv_path err))
        else mret (Err (SeFs (lit "rename") drv_path err))
    end.

Definition install (fuel : nat) (store_root : str) (paths : StorePathsAt) (cdf_bytes : list Z) (staged : str) :
    FsM S (result bool StoreError) :=
  ex ← call (exists_ (pa_out_path paths));
  if ex : bool then
    u ←? ensure_drv (pa_drv_path paths) cdf_bytes;
    mret (Ok true)
  else
    tmp_dir ← temp_sibling store_root (pa_store_name paths) (lit "d");
    _ ← remove_tree fuel tmp_dir;
    u ←? fs_op (lit "copy_tree") tmp_dir (copy_tree fuel staged tmp_dir);
    _ ← call (sync_dir tmp_dir);
    r ← call (rename tmp_dir (pa_out_path paths));
    match r with
    | Ok _ =>
        _ ← call (sync_dir store_root);
        u ←? ensure_drv (pa_drv_path paths) cdf_bytes;
        mret (Ok false)
    | Err err =>
        _ ← remove_tree fuel tmp_dir;
        ex' ← call (exists_ (pa_out_path paths));
        if ex' : bool then
          u ←? ensure_drv (pa_drv_path paths) cdf_bytes;
          mret (Ok true)
        else mret (Err (SeFs (lit "rename") (pa_out_path paths) err))
    end.

(** The derivation comes back with its output path filled in. *)
Definition realize (fuel : nat) (store_root : str) (drv : Derivation) (staged : str) :
    FsM S (result (Realized * Derivation) StoreError) :=
  u ←? fs_op (lit "create_dir_all") store_root (create_dir_all store_root);
  let '(paths, drv') := resolve store_root drv in
  already_present ←? install fuel store_root paths (digest_cdf drv') staged;
  mret (Ok (mkRealized paths already_present, drv')).

Definition realize_cdf (fuel : nat) (store_root name version : str) (cdf_bytes : list Z) (staged : str) :
    FsM S (result Realized StoreError) :=
  u ←? fs_op (lit "create_dir_all") store_root (create_dir_all store_root);
  paths ←? mret (store_paths_at store_root name version cdf_bytes);
  already_present ←? install fuel store_root paths cdf_bytes staged;
  mret (Ok (mkRealized paths already_present)).

End realize.

(** ** Temporary names *)

Definition TMP : str := lit ".tmp-".
Definition is_temp (c : str) : Prop := starts_with TMP c = true.

(** [x] is a temporary entry of [root], or below one. *)
Definition temp_at (root x : path) : Prop := exists t r, x = root ++ t :: r /\ is_temp t.

Definition no_temp (root : path) (f : tree) : Prop := forall t, is_temp t -> gone (root ++ [t]) f.

(** A name that does not start with a dot. *)
Definition plain (c : str) : Prop := match c with b :: _ => b <> 46 | [] => False end.

Lemma plain_not_temp c d : plain c -> ~ is_temp (c ++ d).
Proof. destruct c as [|b c]; [done|]. intros Hb Ht. apply starts_with_spec in Ht as [r E]. by injection E. Qed.

Lemma plain_not_temp' c : plain c -> ~ is_temp c.
Proof. intros Hc. rewrite <- (app_nil_r c). by apply plain_not_temp. Qed.

Lemma temp_at_prefix root t x : is_temp t -> root ++ [t] `prefix_of` x -> temp_at root x.
Proof. intros Ht [r ->]. exists t, r. by rewrite <- app_assoc. Qed.

Lemma not_temp_at root c x : ~ is_temp c -> ~ temp_at root (root ++ c :: x).
Proof. intros Hc (t & r & E & Ht). apply app_inv_head in E. by injection E as -> _. Qed.

Lemma good_comp_app c d : good_comp c -> SLASH ∉ d -> good_comp (c ++ d).
Proof. intros [Hne Hs] Hd. split; [by destruct c|]. rewrite elem_of_app. tauto. Qed.

Lemma no_slash_digits (n : Z) : 0 <= n -> SLASH ∉ dec n.
Proof.
  intros Hn Hin. pose proof (dec_digits_digit 20 n Hn) as Hd. rewrite Forall_forall in Hd. apply Hd in Hin.
  unfold digit, SLASH in Hin. lia.
Qed.

Section honest.
Context {S : Type} `{Honest S}.
Implicit Types w : World S.

#[local] Abbreviation ok w := (fs_ok (w_fs w)).
#[local] Abbreviation lk w := (look (w_fs w)).

Lemma wp_exists cs Q w : ok w -> good cs ->
  (forall b : bool, (b = true -> is_Some (lk w cs)) -> (Reliable S -> is_Some (lk w cs) -> b = true) -> Q b w) ->
  wp (call (exists_ (P cs))) Q w.
Proof.
  intros Hw Hg HQ. unfold exists_. apply wp_read.
  { intros s. pose proof (h_metadata_state (P cs) s) as E. by destruct (metadata (P cs) s). }
  pose proof (h_metadata cs (w_fs w) Hw Hg) as Hm. pose proof (fun HR : Reliable S => r_metadata cs (w_fs w) Hw Hg) as Hr.
  destruct (metadata (P cs) (w_fs w)) as [r s']. cbn in *. apply HQ.
  - destruct r; [|done]. intros _. destruct Hm as (n & -> & _). by eexists.
  - intros HR [n Hn]. specialize (Hr HR). rewrite Hn in Hr. by rewrite Hr.
Qed.

Lemma wp_fs_op {A} op p (m : FsM S (result A FsError)) (Q : result A StoreError -> World S -> Prop) w :
  wp m (fun r w' => Q (map_err (SeFs op p) r) w') w -> wp (fs_op op p m) Q w.
Proof. intros Hm. apply wp_bind. by eapply wp_mono. Qed.

Lemma temp_sibling_spec root name kind Q w : ok w -> good root -> SLASH ∉ name -> SLASH ∉ kind ->
  (forall t w', ok w' -> same_tree (lk w) (lk w') -> good_comp t -> is_temp t -> Q (P (root ++ [t])) w') ->
  wp (temp_sibling (P root) name kind) Q w.
Proof.
  intros Hw Hg Hn Hk HQ. unfold temp_sibling. apply wp_bind. unfold wp, next_counter. cbn [w_fs w_counter].
  apply wp_bind, wp_call. cbn [w_fs w_counter]. pose proof (h_token (w_fs w) Hw) as [H1 H2]. pose proof (h_token_range (w_fs w)) as Hr.
  destruct (unique_token (w_fs w)) as [tok s']. cbn [fst snd] in *. apply wp_ret. rewrite join_P by done. apply HQ; [done|done| |].
  - pose proof (wrap_range 64 (w_counter w) ltac:(done)) as Hc. unfold in_u in *. split; [done|].
    rewrite !elem_of_app. intros [Hin|[Hin|[Hin|[Hin|[Hin|[Hin|[Hin|Hin] ] ] ] ] ] ].
    + by vm_compute in Hin; repeat (apply elem_of_cons in Hin as [Hin|Hin]; [done|]); apply elem_of_nil in Hin.
    + done.
    + apply list_elem_of_singleton in Hin. done.
    + done.
    + apply list_elem_of_singleton in Hin. done.
    + by apply no_slash_digits in Hin; [|lia].
    + apply list_elem_of_singleton in Hin. done.
    + by apply no_slash_digits in Hin; [|lia].
  - apply starts_with_spec. by eexists.
Qed.

(** ** The derivation file *)

(** The [.drv] is as it was, or complete. *)
Definition drv_after (drv : path) (cdf_bytes : list Z) (f g : tree) : Prop :=
  g drv = f drv \/ (f drv = None /\ g drv = Some (MFile cdf_bytes false)).

Definition drv_fits (drv : path) (cdf_bytes : list Z) (f : tree) : Prop :=
  forall n, f drv = Some n -> exists x, n = MFile cdf_bytes x.

(** What [ensure_drv] does in the directory [root]. *)
Definition drv_written (root : path) (c : str) (cdf_bytes : list Z) (f : tree) (r : result unit StoreError) (w : World S) : Prop :=
  ok w /\ (forall x, x <> root ++ [c] -> ~ temp_at root x -> lk w x = f x) /\ drv_after (root ++ [c]) cdf_bytes f (lk w) /\
  (r = Ok tt -> exists x, lk w (root ++ [c]) = Some (MFile cdf_bytes x)) /\
  (Reliable S -> no_temp root f -> drv_fits (root ++ [c]) cdf_bytes f -> r = Ok tt).

(** The [.drv] was found. *)
Lemma drv_found_spec root c cdf_bytes w (k : list Z -> result unit StoreError) : ok w -> good (root ++ [c]) -> is_Some (lk w (root ++ [c])) ->
  (forall d, k d = Ok tt <-> d = cdf_bytes) ->
  wp (existing ←? fs_op (lit "read") (P (root ++ [c])) (call (read_file (P (root ++ [c])))); mret (k existing))
     (drv_written root c cdf_bytes (lk w)) w.
Proof.
  intros Hw Hg Hs Hk. apply wp_try, wp_fs_op, wp_read_file; [done|done|]. intros r Hd Hr.
  assert (forall r' : result unit StoreError, (r' = Ok tt -> exists x, lk w (root ++ [c]) = Some (MFile cdf_bytes x)) ->
    (Reliable S -> drv_fits (root ++ [c]) cdf_bytes (lk w) -> r' = Ok tt) -> drv_written root c cdf_bytes (lk w) r' w) as Hsame.
  { intros r' H1 H2. split; [done|]. split; [done|]. split; [by left|]. split; [done|]. intros HR _. by apply H2. }
  destruct r as [d|e]; cbn [map_err].
  - destruct Hd as [x Hd]. apply wp_ret, Hsame.
    + intros ->%Hk. eauto.
    + intros HR Hfit. apply Hk. destruct (Hfit _ Hd) as [? E]. by injection E.
  - apply Hsame; [done|]. intros HR Hfit. destruct Hs as [n Hn]. destruct (Hfit _ Hn) as [x ->]. specialize (Hr HR).
    by rewrite Hn in Hr.
Qed.

Lemma prefix_apart root (t c : str) : t <> c -> ~ (root ++ [t]) `prefix_of` root ++ [c].
Proof. intros Hne [r E]. rewrite <- app_assoc in E. apply app_inv_head in E. by injection E. Qed.

Lemma ensure_drv_spec root c cdf_bytes w : ok w -> good (root ++ [c]) -> lk w root = Some MDir -> ~ is_temp c ->
  wp (ensure_drv (P (root ++ [c])) cdf_bytes) (drv_written root c cdf_bytes (lk w)) w.
Proof.
  intros Hw Hg Hroot Hc. pose proof (proj1 (good_snoc _ _) Hg) as [Hgr [Hcne Hcs] ]. unfold ensure_drv.
  apply wp_bind, wp_exists; [done|done|]. intros [] Hex Hexr.
  { apply drv_found_spec; [done|done|by apply Hex|]. intros d. case_bool_decide; naive_solver. }
  rewrite split_parent_P by done. apply wp_bind, temp_sibling_spec; [done|done|done|by apply (bool_decide_unpack (SLASH ∉ lit "f"))|].
  intros t w1 Hw1 Hs1 Hgt Ht. assert (t <> c) as Htc by (intros ->; done).
  assert (good (root ++ [t])) as Hgrt by by apply good_snoc.
  assert (forall f, outside (root ++ [t]) (lk w) f -> (forall x, x <> root ++ [c] -> ~ temp_at root x -> f x = lk w x) /\ f (root ++ [c]) = lk w (root ++ [c])) as Htmp.
  { intros f Hf. split; [intros x _ Hx; apply Hf; intros Hp; by eapply Hx, temp_at_prefix|]. apply Hf. by apply prefix_apart. }
  assert (forall (e : StoreError) w', ok w' -> outside (root ++ [t]) (lk w) (lk w') -> (Reliable S -> no_temp root (lk w) -> drv_fits (root ++ [c]) cdf_bytes (lk w) -> False) ->
    drv_written root c cdf_bytes (lk w) (Err e) w') as Herr.
  { intros e w' Hw' Ho Hr. destruct (Htmp _ Ho). split; [done|]. split; [done|]. split; [by left|]. split; [done|].
    intros HR Hn Hd. by destruct (Hr HR Hn Hd). }
  apply wp_try, wp_fs_op, wp_write; [done|done|]. intros r w2 Hw2 Hc2 Hr2.
  assert (outside (root ++ [t]) (lk w) (lk w2)) as Ho2.
  { eapply outside_trans; [by apply same_outside|]. destruct r; cbn in Hc2; [by eapply creates_outside|by eapply torn_outside]. }
  assert (Reliable S -> no_temp root (lk w) -> r = Ok tt) as Hok2.
  { intros HR Hn. apply Hr2; [done|]. split; [rewrite Hs1; specialize (Hn t Ht []); by rewrite app_nil_r in Hn|].
    exists root, t. by rewrite Hs1. }
  destruct r as [u|e]; cbn [map_err]; [|apply Herr; [done|done|]; intros HR Hn _; by specialize (Hok2 HR Hn)].
  destruct Hc2 as [_ Hc2]. apply wp_bind, wp_rename; [done|done|done|by apply prefix_apart|]. intros r w3 Hw3 Hc3 Hr3.
  assert (lk w2 (root ++ [t]) = Some (MFile cdf_bytes false)) as Et by by rewrite Hc2, decide_True.
  destruct r as [u'|e].
  - destruct Hc3 as (_ & Hcn & Hto & Hfrom & Helse). destruct (Htmp _ Ho2) as [Hf2 Hd2]. apply wp_bind, wp_sync; [done|].
    intros r4 w4 Hw4 Hs4. apply wp_ret.
    assert (lk w4 (root ++ [c]) = Some (MFile cdf_bytes false)) as Ed.
    { rewrite Hs4. specialize (Hto []). by rewrite !app_nil_r, Et in Hto. }
    split; [done|]. split; [|split; [right; split; [by rewrite <- Hd2|done]|split; [eauto|done] ] ].
    intros x Hx Hxt. rewrite Hs4. destruct (decide (root ++ [c] `prefix_of` x)) as [ [y ->]|Hnp].
    + destruct y as [|z y]; [by rewrite app_nil_r in Hx|]. rewrite Hto. rewrite (h_below (w_fs w2)); [|done|by rewrite Et|done].
      symmetry. apply h_below; [done|rewrite <- Hd2, Hcn; done|done].
    + rewrite Helse; [by apply Hf2| |done]. intros Hp. by eapply Hxt, temp_at_prefix.
  - assert (Reliable S -> drv_fits (root ++ [c]) cdf_bytes (lk w) -> False) as Hno.
    { intros HR Hfit. specialize (Hr3 HR ltac:(by rewrite Et)). destruct (Htmp _ Ho2) as [_ Hd2]. rewrite Hd2 in Hr3.
      destruct (lk w (root ++ [c])) as [n|] eqn:En; [by discriminate Hexr; eauto|]. discriminate Hr3.
      exists root, c. split; [done|]. rewrite Ho2; [done|]. intros [y E]. apply (f_equal length) in E. rewrite !length_app in E. cbn in E. lia. }
    cbn in Hc3. apply wp_bind, unlink_spec; [done|done|]. intros r4 w4 Hw4 [Ho4 _] _ _.
    assert (outside (root ++ [t]) (lk w) (lk w4)) as Ho.
    { eapply outside_trans; [exact Ho2|]. eapply outside_trans; [by apply same_outside|done]. }
    apply wp_bind, wp_exists; [done|done|]. intros [] Hex4 _; [|apply wp_ret, Herr; [done|done|by eauto] ].
    destruct (Htmp _ Ho) as [Hf4 Hd4]. eapply wp_mono; [apply drv_found_spec; [done|done|by apply Hex4|]|].
    + intros d. case_bool_decide; naive_solver.
    + intros r5 w5 (H1 & H2 & H3 & H4 & H5). split; [done|]. split; [|split; [|split; [done|] ] ].
      * intros x Hx Hxt. rewrite H2 by done. by apply Hf4.
      * unfold drv_after. rewrite <- Hd4. done.
      * intros HR _ Hfit. by destruct (Hno HR Hfit).
Qed.

(** ** [install] *)

(** The output is as it was, or it was absent and is a complete copy. *)
Definition out_after (out staged : path) (f g : tree) : Prop :=
  (forall x, g (out ++ x) = f (out ++ x)) \/ (f out = None /\ is_Some (f staged) /\ forall x, g (out ++ x) = f (staged ++ x)).

Record installed (root : path) (sname : str) (staged : path) (cdf_bytes : list Z) (f : tree) (r : result bool StoreError) (w : World S) : Prop := {
  in_ok : ok w;
  in_frame : forall x, ~ root ++ [sname] `prefix_of` x -> x <> root ++ [sname ++ DRV] -> ~ temp_at root x -> lk w x = f x;
  in_out : out_after (root ++ [sname]) staged f (lk w);
  in_drv : drv_after (root ++ [sname ++ DRV]) cdf_bytes f (lk w);
  in_answer : match r with
              | Ok true => is_Some (f (root ++ [sname]))
              | Ok false => f (root ++ [sname]) = None /\ forall x, lk w (root ++ [sname] ++ x) = f (staged ++ x)
              | Err _ => True
              end;
  in_done : is_ok r = true -> is_Some (lk w (root ++ [sname])) /\ exists x, lk w (root ++ [sname ++ DRV]) = Some (MFile cdf_bytes x);
  in_returns : Reliable S -> is_Some (f staged) -> drv_fits (root ++ [sname ++ DRV]) cdf_bytes f -> is_ok r = true
}.

Lemma sname_drv (sname : str) : sname <> sname ++ DRV.
Proof. intros E. apply (f_equal length) in E. rewrite length_app in E. cbn in E. lia. Qed.

Lemma good_drv sname : good_comp sname -> good_comp (sname ++ DRV).
Proof. intros Hc. apply good_comp_app; [done|]. by apply (bool_decide_unpack (SLASH ∉ DRV)). Qed.

(** What is left to do once the output is in place. *)
Lemma install_tail root sname staged cdf_bytes f b w1 : ok w1 -> good root -> good_comp sname -> plain sname -> lk w1 root = Some MDir ->
  (forall x, ~ root ++ [sname] `prefix_of` x -> ~ temp_at root x -> lk w1 x = f x) ->
  out_after (root ++ [sname]) staged f (lk w1) -> is_Some (lk w1 (root ++ [sname])) -> (Reliable S -> no_temp root (lk w1)) ->
  (if b : bool then is_Some (f (root ++ [sname]))
   else f (root ++ [sname]) = None /\ forall x, lk w1 (root ++ [sname] ++ x) = f (staged ++ x)) ->
  wp (u ←? ensure_drv (P (root ++ [sname ++ DRV])) cdf_bytes; mret (Ok b)) (installed root sname staged cdf_bytes f) w1.
Proof.
  intros Hw1 Hgr Hgs Hpl Hroot Hframe Hout Hsome Hnt Hb. apply wp_try.
  assert (~ is_temp (sname ++ DRV)) as Hndrv by by apply plain_not_temp.
  assert (lk w1 (root ++ [sname ++ DRV]) = f (root ++ [sname ++ DRV])) as Hdrv1.
  { apply Hframe; [apply prefix_apart, sname_drv|by apply not_temp_at]. }
  eapply wp_mono; [apply ensure_drv_spec; [done|apply good_snoc; split; [done|by apply good_drv]|done|done]|].
  intros r w2 (Hw2 & Hf2 & Hd2 & Hok2 & Hr2).
  assert (forall x, lk w2 (root ++ [sname] ++ x) = lk w1 (root ++ [sname] ++ x)) as Hsame.
  { intros x. apply Hf2; [|by apply not_temp_at, plain_not_temp']. intros E. apply app_inv_head in E. injection E as E _.
    by apply sname_drv in E. }
  assert (forall r', (match r' with Ok b' => b' = b | Err _ => True end) -> (is_ok r' = true <-> r = Ok tt) -> installed root sname staged cdf_bytes f r' w2) as Hall.
  { intros r' Hr' Hrr. split; [done| | | | | |].
    - intros x Hx1 Hx2 Hx3. rewrite Hf2 by done. by apply Hframe.
    - unfold out_after in *. setoid_rewrite <- app_assoc. setoid_rewrite Hsame. setoid_rewrite app_assoc. done.
    - unfold drv_after in *. by rewrite <- Hdrv1.
    - destruct r' as [b'|]; [|done]. subst b'. destruct b; [done|]. by setoid_rewrite Hsame.
    - intros Ho. split; [|by apply Hok2, Hrr]. specialize (Hsame []). rewrite !app_nil_r in Hsame. by rewrite Hsame.
    - intros HR Hst Hfit. apply Hrr, Hr2; [done|by apply Hnt|]. unfold drv_fits in *. by rewrite Hdrv1. }
  destruct r as [u|e]; [apply wp_ret|]; apply Hall; cbn; [done|by destruct u|done|done].
Qed.

Lemma apart_below a b r : apart a b -> apart a (b ++ r).
Proof.
  intros [H1 H2]. split; [|intros [x ->]; apply H2; by rewrite <- app_assoc; eexists].
  intros Hp. destruct (prefix_weak_total a b (b ++ r)) as [?|?]; [done|by exists r|done|done].
Qed.

Lemma shallow_le f cs k k' : (k <= k')%nat -> shallow f cs k -> shallow f cs k'.
Proof. intros Hk Hs x Hx. apply Hs in Hx. lia. Qed.

Lemma gone_shallow f cs k : gone cs f -> shallow f cs k.
Proof. intros Hg x [n Hx]. by rewrite Hg in Hx. Qed.

(** Only a temporary entry was touched. *)
Lemma install_error root sname staged cdf_bytes t f e w' : plain sname -> is_temp t -> ok w' -> outside (root ++ [t]) f (lk w') ->
  (Reliable S -> is_Some (f staged) -> False) -> installed root sname staged cdf_bytes f (Err e) w'.
Proof.
  intros Hpl Ht Hw' Ho Hr. assert (forall x, ~ temp_at root x -> lk w' x = f x) as Hf.
  { intros x Hx. apply Ho. intros Hp. by eapply Hx, temp_at_prefix. }
  split; [done|auto| | |done|done|].
  - left. intros x. apply Hf. rewrite <- app_assoc. by apply not_temp_at, plain_not_temp'.
  - left. apply Hf. by apply not_temp_at, plain_not_temp.
  - intros HR Hst. by destruct (Hr HR Hst).
Qed.

(** The staged tree has been copied to the temporary entry [t]. *)
Record copy_made (root : path) (t : str) (staged : path) (f : tree) (w : World S) : Prop := {
  cm_ok : ok w;
  cm_temp : is_temp t;
  cm_outside : outside (root ++ [t]) f (lk w);
  cm_copy : forall x, lk w (root ++ [t] ++ x) = f (staged ++ x)
}.

Lemma outside_root root t f g : outside (root ++ [t]) f g -> g root = f root.
Proof. intros Ho. apply Ho. intros [y E]. apply (f_equal length) in E. rewrite !length_app in E. cbn in E. lia. Qed.

Lemma prefix_below root (t c : str) x : t <> c -> ~ (root ++ [t]) `prefix_of` root ++ c :: x.
Proof. intros Hne [r E]. rewrite <- app_assoc in E. apply app_inv_head in E. by injection E. Qed.

(** The rename that puts the output in place succeeded. *)
Lemma install_placed root sname staged cdf_bytes t f w w' : good root -> good_comp sname -> plain sname -> f root = Some MDir -> no_temp root f ->
  copy_made root t staged f w -> ok w' -> renames (root ++ [t]) (root ++ [sname]) (lk w) (lk w') ->
  wp (u ←? ensure_drv (P (root ++ [sname ++ DRV])) cdf_bytes; mret (Ok false)) (installed root sname staged cdf_bytes f) w'.
Proof.
  intros Hgr Hgs Hpl Hroot Hnt [Hw Ht Ho Hcopy] Hw' ([n Hn] & Hnone & Hto & Hfrom & Helse).
  assert (sname <> t) as Hne by (intros ->; by eapply plain_not_temp').
  assert (lk w (root ++ [sname]) = f (root ++ [sname])) as Eout by (apply Ho; by apply prefix_apart).
  assert (forall x, lk w' (root ++ [sname] ++ x) = f (staged ++ x)) as Hnew.
  { intros x. rewrite app_assoc, Hto, <- app_assoc. apply Hcopy. }
  assert (is_Some (f staged)) as Hst.
  { exists n. specialize (Hcopy []). rewrite !app_nil_r in Hcopy. by rewrite <- Hcopy. }
  assert (forall x, ~ root ++ [sname] `prefix_of` x -> ~ root ++ [t] `prefix_of` x -> lk w' x = f x) as Hfr.
  { intros x Hx Hxt. rewrite Helse by done. by apply Ho. }
  apply install_tail; [done..| | | | | |by rewrite <- Eout].
  - rewrite Hfr; [done| |]; intros [y E]; apply (f_equal length) in E; rewrite !length_app in E; cbn in E; lia.
  - intros x Hx Hxt. apply Hfr; [done|]. intros Hp. by eapply Hxt, temp_at_prefix.
  - right. split; [by rewrite <- Eout|]. split; [done|]. intros x. rewrite <- app_assoc. apply Hnew.
  - specialize (Hnew []). rewrite !app_nil_r in Hnew. by rewrite Hnew.
  - intros _ t' Ht' x. destruct (decide (t' = t)) as [->|Htt]; [apply Hfrom|]. rewrite Hfr; [by apply Hnt| |].
    + rewrite <- app_assoc. apply prefix_below. intros ->. by eapply plain_not_temp'.
    + rewrite <- app_assoc. by apply prefix_below.
Qed.

(** It failed, and the copy is dropped. *)
Lemma install_lost fuel root sname staged cdf_bytes t f e w w' : good root -> good_comp sname -> plain sname -> good_comp t ->
  f root = Some MDir -> no_temp root f -> (0 < fuel)%nat -> shallow f staged fuel -> copy_made root t staged f w -> ok w' -> same_tree (lk w) (lk w') ->
  (Reliable S -> is_Some (f staged) -> is_Some (f (root ++ [sname]))) ->
  wp (_ ← remove_tree fuel (P (root ++ [t]));
      ex ← call (exists_ (P (root ++ [sname])));
      if ex : bool then u ←? ensure_drv (P (root ++ [sname ++ DRV])) cdf_bytes; mret (Ok true)
      else mret (Err (SeFs (lit "rename") (P (root ++ [sname])) e))) (installed root sname staged cdf_bytes f) w'.
Proof.
  intros Hgr Hgs Hpl Hgt Hroot Hnt Hf Hsh [Hw Ht Ho Hcopy] Hw' Hsame Hrel.
  assert (sname <> t) as Hne by (intros ->; by eapply plain_not_temp').
  apply wp_bind. eapply wp_mono; [apply remove_tree_spec; [done|by apply good_snoc|by destruct root|done|]|].
  { intros x. rewrite Hsame, <- app_assoc, Hcopy. apply Hsh. }
  intros ? w2 (Hw2 & [Ho2 Hp2] & Hg2).
  assert (outside (root ++ [t]) f (lk w2)) as Ho'.
  { eapply outside_trans; [exact Ho|]. eapply outside_trans; [by apply same_outside|done]. }
  assert (lk w2 (root ++ [sname]) = f (root ++ [sname])) as Eout by (apply Ho'; by apply prefix_apart).
  apply wp_bind, wp_exists; [done|by apply good_snoc|]. rewrite Eout. intros [] Hex Hexr.
  - specialize (Hex eq_refl). apply install_tail; [done..| | | |by rewrite Eout| |done].
    + by rewrite (outside_root _ _ _ _ Ho').
    + intros x _ Hx. apply Ho'. intros Hp. by eapply Hx, temp_at_prefix.
    + left. intros x. apply Ho'. rewrite <- app_assoc. by apply prefix_below.
    + intros HR t' Ht' x. destruct (decide (t' = t)) as [->|Htt]; [by apply Hg2|].
      rewrite Ho'; [by apply Hnt|]. rewrite <- app_assoc. by apply prefix_below.
  - apply wp_ret. eapply install_error; [done|exact Ht|done|done|]. intros HR Hst. by discriminate (Hexr HR (Hrel HR Hst)).
Qed.

Lemma install_spec fuel root sname staged cdf_bytes dg w : ok w -> good root -> good_comp sname -> plain sname -> good staged ->
  apart staged root -> lk w root = Some MDir -> no_temp root (lk w) -> (0 < fuel)%nat -> shallow (lk w) staged fuel ->
  wp (install fuel (P root) (mkPathsAt dg (P (root ++ [sname])) (P (root ++ [sname ++ DRV])) sname) cdf_bytes (P staged))
     (installed root sname staged cdf_bytes (lk w)) w.
Proof.
  intros Hw Hgr Hgs Hpl Hgst Hap Hroot Hnt Hf Hsh. unfold install. cbn [pa_out_path pa_drv_path pa_store_name].
  assert (good (root ++ [sname])) as Hgo by by apply good_snoc.
  apply wp_bind, wp_exists; [done|done|]. intros [] Hex Hexr.
  { specialize (Hex eq_refl). apply install_tail; [done..|by left|done|done|done]. }
  apply wp_bind, temp_sibling_spec; [done|done|apply Hgs|by apply (bool_decide_unpack (SLASH ∉ lit "d"))|]. intros t w1 Hw1 Hs1 Hgt Ht.
  assert (t <> sname) as Hts by (intros ->; by eapply plain_not_temp').
  assert (good (root ++ [t])) as Hgrt by by apply good_snoc.
  assert (gone (root ++ [t]) (lk w1)) as Hgone1 by (intros x; rewrite Hs1; by apply Hnt).
  (* leftovers of an earlier attempt *)
  apply wp_bind. eapply wp_mono; [apply remove_tree_spec; [done|done|by destruct root|lia|by apply gone_shallow]|].
  intros ? w2 (Hw2 & Hp2 & _). apply pruned_gone in Hp2; [|done].
  assert (same_tree (lk w) (lk w2)) as Hs2 by (intros x; by rewrite Hp2).
  (* the copy *)
  apply wp_try, wp_fs_op. eapply wp_mono; [apply copy_tree_spec; [done|done|done|by apply apart_below| |exists root, t; by rewrite Hs2|lia|] | ].
  { specialize (Hgone1 []). rewrite app_nil_r in Hgone1. by rewrite Hp2. }
  { intros x. rewrite Hs2. apply Hsh. }
  intros r w3 (Hw3 & Ho3 & Hc3 & Hr3).
  assert (outside (root ++ [t]) (lk w) (lk w3)) as Ho by (eapply outside_trans; [by apply same_outside|done]).
  destruct r as [ []|e]; cbn [map_err]; cycle 1.
  { eapply install_error; [done|exact Ht|done|done|]. intros HR Hst. rewrite <- Hs2 in Hst. by specialize (Hr3 HR Hst). }
  specialize (Hc3 eq_refl). apply wp_bind, wp_sync; [done|]. intros rs w4 Hw4 Hs4.
  assert (copy_made root t staged (lk w) w4) as Hcm.
  { split; [done|done|intros x Hx; rewrite Hs4; by apply Ho|]. intros x. by rewrite Hs4, app_assoc, Hc3, Hs2. }
  (* the rename *)
  apply wp_bind, wp_rename; [done|done|done|by apply prefix_apart|]. intros [u|e] w5 Hw5 Hc5 Hr5.
  - apply wp_bind, wp_sync; [done|]. intros rs6 w6 Hw6 Hs6. eapply install_placed; [done..|exact Hcm|done|].
    destruct Hc5 as (R1 & R2 & R3 & R4 & R5). split; [done|]. split; [done|]. split; [by intros; rewrite Hs6|].
    split; [by intros; rewrite Hs6|]. intros; rewrite Hs6; auto.
  - eapply install_lost; [done..|exact Hcm|done|exact Hc5|]. intros HR Hst. specialize (Hr5 HR).
    destruct Hcm as [_ _ Ho4 Hcopy]. rewrite (Ho4 (root ++ [sname])) in Hr5 by by apply prefix_apart.
    destruct (lk w (root ++ [sname])) eqn:En; [done|]. specialize (Hcopy []). rewrite !app_nil_r in Hcopy.
    rewrite Hcopy in Hr5. discriminate (Hr5 Hst). exists root, sname. split; [done|]. by rewrite (outside_root _ _ _ _ Ho4).
Qed.

(** ** [realize] *)

(** The effect of a realization that ends with [r] on the tree [f]. *)
Record realized (root : path) (sname : str) (staged : path) (cdf_bytes : list Z) (f : tree) (r : result bool StoreError) (w : World S) : Prop := {
  rz_ok : ok w;
  rz_out : out_after (root ++ [sname]) staged f (lk w);
  rz_drv : drv_after (root ++ [sname ++ DRV]) cdf_bytes f (lk w);
  rz_others : forall c x, c <> sname -> c <> sname ++ DRV -> ~ is_temp c -> lk w (root ++ c :: x) = f (root ++ c :: x);
  rz_outside : forall x, ~ root `prefix_of` x -> lk w x = f x \/ (f x = None /\ lk w x = Some MDir /\ x `prefix_of` root);
  rz_answer : match r with
              | Ok true => is_Some (f (root ++ [sname]))
              | Ok false => f (root ++ [sname]) = None /\ forall x, lk w (root ++ [sname] ++ x) = f (staged ++ x)
              | Err _ => True
              end;
  rz_done : is_ok r = true -> is_Some (lk w (root ++ [sname])) /\ exists x, lk w (root ++ [sname ++ DRV]) = Some (MFile cdf_bytes x);
  rz_returns : Reliable S -> f [] = Some MDir -> is_Some (f staged) -> drv_fits (root ++ [sname ++ DRV]) cdf_bytes f -> is_ok r = true
}.

Lemma made_below root c x f g : made root f g -> g (root ++ c :: x) = f (root ++ c :: x).
Proof.
  intros Hm. destruct (Hm (root ++ c :: x)) as [?|(_ & _ & [y E])]; [done|].
  apply (f_equal length) in E. rewrite !length_app in E. cbn in E. lia.
Qed.

Lemma made_apart root a x f g : apart a root -> made root f g -> g (a ++ x) = f (a ++ x).
Proof.
  intros Hap Hm. destruct (Hm (a ++ x)) as [?|(_ & _ & [y E])]; [done|]. rewrite <- app_assoc in E.
  destruct (proj1 Hap). by rewrite E; eexists.
Qed.

(** The directory of the store is made, then the output is installed. *)
Lemma realize_run fuel root sname staged cdf_bytes dg w : ok w -> good root -> root <> [] -> good_comp sname -> plain sname -> good staged ->
  apart staged root -> clear (lk w) root -> no_temp root (lk w) -> (0 < fuel)%nat -> shallow (lk w) staged fuel ->
  wp (u ←? fs_op (lit "create_dir_all") (P root) (create_dir_all (P root));
      install fuel (P root) (mkPathsAt dg (P (root ++ [sname])) (P (root ++ [sname ++ DRV])) sname) cdf_bytes (P staged))
     (realized root sname staged cdf_bytes (lk w)) w.
Proof.
  intros Hw Hgr Hne Hgs Hpl Hgst Hap Hcl Hnt Hf Hsh. apply wp_try, wp_fs_op, create_dir_all_spec; [done|done|].
  intros r w1 Hw1 Hm Hp Hr1.
  assert (forall x, ~ root `prefix_of` x -> lk w1 x = lk w x \/ (lk w x = None /\ lk w1 x = Some MDir /\ x `prefix_of` root)) as Hout1.
  { intros x _. destruct (Hm x) as [?|(? & ? & ?)]; auto. }
  assert (forall c x, lk w1 (root ++ c :: x) = lk w (root ++ c :: x)) as Hb1 by (intros; by apply made_below).
  assert (forall x, lk w1 (staged ++ x) = lk w (staged ++ x)) as Hst1 by (intros; by apply (made_apart root)).
  destruct r as [ []|e]; cbn [map_err]; cycle 1.
  { split; [done|left; intros x; rewrite <- app_assoc; apply Hb1|left; apply Hb1|by intros; apply Hb1|done|done|done|].
    intros HR Hroot. by specialize (Hr1 HR Hroot Hcl). }
  assert (lk w1 root = Some MDir) as Hroot.
  { destruct (Hp eq_refl root) as [n Hn]; [done|done|]. rewrite Hn. f_equal. destruct (Hm root) as [E|(_ & E & _)]; [|congruence].
    rewrite E in Hn. by apply (Hcl root). }
  eapply wp_mono; [apply install_spec; [done..| |done|] | ].
  { intros t Ht x. rewrite <- app_assoc. cbn [app]. rewrite Hb1. specialize (Hnt t Ht x). by rewrite <- app_assoc in Hnt. }
  { intros x. rewrite Hst1. apply Hsh. }
  intros r w2 [H1 H2 H3 H4 H5 H6 H7]. pose proof (Hst1 []) as Est. rewrite app_nil_r in Est. split.
  - done.
  - unfold out_after in *. setoid_rewrite Hst1 in H3. rewrite Est, Hb1 in H3. setoid_rewrite <- app_assoc in H3. cbn [app] in H3.
    setoid_rewrite Hb1 in H3. setoid_rewrite <- app_assoc. done.
  - unfold drv_after in *. by rewrite Hb1 in H4.
  - intros c x Hc1 Hc2 Hc3. rewrite H2; [apply Hb1|by apply prefix_below| |by apply not_temp_at].
    intros E. apply app_inv_head in E. injection E as E _. done.
  - intros x Hx. rewrite H2; [by apply Hout1| | |].
    + intros Hpre. apply Hx. etrans; [|exact Hpre]. by eexists.
    + intros ->. apply Hx. by eexists.
    + intros (t & y & -> & _). apply Hx. by eexists.
  - destruct r as [ []|]; [by rewrite <- Hb1| |done]. destruct H5 as [H5 H5']. split; [by rewrite <- Hb1|].
    intros x. by rewrite H5', Hst1.
  - done.
  - intros HR Hroot0 Hs Hfit. apply H7; [done|by rewrite Est|]. unfold drv_fits in *. by setoid_rewrite Hb1.
Qed.

(** A realization of what is there. *)
Lemma realize_hit fuel root sname staged cdf_bytes dg x w : Reliable S -> ok w -> good root -> root <> [] -> good_comp sname -> plain sname ->
  is_Some (lk w (root ++ [sname])) -> lk w (root ++ [sname ++ DRV]) = Some (MFile cdf_bytes x) ->
  wp (u ←? fs_op (lit "create_dir_all") (P root) (create_dir_all (P root));
      install fuel (P root) (mkPathsAt dg (P (root ++ [sname])) (P (root ++ [sname ++ DRV])) sname) cdf_bytes staged)
     (fun r w' => r = Ok true /\ same_tree (lk w) (lk w')) w.
Proof.
  intros HR Hw Hgr Hne Hgs Hpl Hout Hdrv.
  assert (lk w root = Some MDir) as Hroot by by eapply h_parent.
  apply wp_try, wp_fs_op, create_dir_all_same; [done|done|]. intros r w1 Hw1 Hs1 Hr1. rewrite (Hr1 HR). cbn [map_err].
  unfold install. cbn [pa_out_path pa_drv_path]. apply wp_bind, wp_exists; [done|by apply good_snoc|]. intros b _ Hb.
  rewrite Hb by (done || by rewrite Hs1). apply wp_try. unfold ensure_drv.
  assert (good (root ++ [sname ++ DRV])) as Hgd by (apply good_snoc; split; [done|by apply good_drv]).
  apply wp_bind, wp_exists; [done|done|]. intros b' _ Hb'. rewrite Hb' by (done || by rewrite Hs1, Hdrv).
  apply wp_try, wp_fs_op, wp_read_file; [done|done|]. intros r2 _ Hr2. specialize (Hr2 HR). rewrite Hs1, Hdrv in Hr2. subst r2.
  cbn [map_err]. apply wp_ret. rewrite bool_decide_eq_false_2 by (by intros []). apply wp_ret. done.
Qed.

End honest.

(** ** Store names *)

Definition store_name (blake3 : list Z -> list Z) (name version : str) (cdf_bytes : list Z) : str :=
  store_digest blake3 cdf_bytes ++ lit "-" ++ name ++ lit "-" ++ version.

Lemma base32_symbol_facts b : base32_symbol b -> b <> SLASH /\ b <> 46.
Proof.
  unfold base32_symbol. assert (Forall (fun b => b <> SLASH /\ b <> 46) BASE32_ALPHABET) as Hall.
  { apply (bool_decide_unpack (Forall (fun b => b <> SLASH /\ b <> 46) BASE32_ALPHABET)). by vm_compute. }
  rewrite Forall_forall in Hall. apply Hall.
Qed.

Lemma name_no_slash name out : normalize_name name = Ok out -> SLASH ∉ out.
Proof.
  unfold normalize_name. destruct (negb _ || _); [done|]. destruct (mapM name_byte name) as [o|] eqn:Em; [|done].
  apply mapM_Some in Em. intros E. assert (o = out) as <- by (destruct o as [|x o]; [done|]; destruct (lower x || ascii_digit x); [by injection E|done]).
  intros Hin. clear E. induction Em as [|b c l1 l2 Hb Hl IH]; [by apply elem_of_nil in Hin|].
  apply elem_of_cons in Hin as [<-|Hin]; [|done]. apply name_byte_idem in Hb. by vm_compute in Hb.
Qed.

Lemma version_no_slash v : validate_version v = Ok tt -> SLASH ∉ v.
Proof.
  unfold validate_version. destruct (nonempty v && _ && forallb version_byte v) eqn:E; [|done]. intros _ Hin.
  apply andb_true_iff in E as [_ E]. rewrite forallb_forall in E. apply list_elem_of_In, E in Hin. by vm_compute in Hin.
Qed.

Section store_names.
Context (blake3 : list Z -> list Z) (Hlen : forall m, length (blake3 m) = 32%nat).

Lemma store_name_ok name out version cdf_bytes : normalize_name name = Ok out -> validate_version version = Ok tt ->
  good_comp (store_name blake3 out version cdf_bytes) /\ plain (store_name blake3 out version cdf_bytes).
Proof.
  intros Hn Hv. destruct (base32_shape 4 (take 20 (blake3 cdf_bytes))) as [Hl Hs]; [rewrite length_take, Hlen; lia|].
  unfold store_name, store_digest in *. destruct (base32 _) as [|b dg]; [done|]. split.
  - split; [done|]. rewrite !elem_of_app. intros [Hin|[Hin|[Hin|[Hin|Hin] ] ] ].
    + rewrite Forall_forall in Hs. by apply Hs, base32_symbol_facts in Hin as [? _].
    + by apply list_elem_of_singleton in Hin.
    + by apply name_no_slash in Hn.
    + by apply list_elem_of_singleton in Hin.
    + by apply version_no_slash in Hv.
  - apply Forall_cons in Hs as [Hb _]. apply base32_symbol_facts in Hb. apply Hb.
Qed.

Lemma paths_at_P root dg name version : good root ->
  let sname := dg ++ lit "-" ++ name ++ lit "-" ++ version in
  paths_at (P root) dg name version = mkPathsAt dg (P (root ++ [sname])) (P (root ++ [sname ++ DRV])) sname.
Proof.
  intros Hg sname. unfold paths_at. fold sname. rewrite join_P by done. f_equal.
  destruct root as [|c root]; [cbn; by rewrite !app_nil_r|]. rewrite !rel_path_snoc by done. by rewrite <- app_assoc.
Qed.

Lemma store_paths_at_P root name out version cdf_bytes : good root -> normalize_name name = Ok out -> validate_version version = Ok tt ->
  let sname := store_name blake3 out version cdf_bytes in
  store_paths_at blake3 (P root) name version cdf_bytes =
  Ok (mkPathsAt (store_digest blake3 cdf_bytes) (P (root ++ [sname])) (P (root ++ [sname ++ DRV])) sname).
Proof. intros Hg Hn Hv. unfold store_paths_at. rewrite Hn, Hv. exact (f_equal Ok (paths_at_P root _ out version Hg)). Qed.

End store_names.

Lemma wp_try_inv {S A B E} (m : FsM S (result A E)) (k : A -> FsM S (result B E)) Q w : wp (try_bind m k) Q w ->
  wp m (fun r w' => match r with Ok a => wp (k a) Q w' | Err e => Q (Err e) w' end) w.
Proof. unfold wp, try_bind, mbind, fsm_bind. by destruct (m w) as [ [ [a|e] w']|]. Qed.

Definition already_present (r : result Realized StoreError) : result bool StoreError :=
  match r with Ok z => Ok (rz_already_present z) | Err e => Err e end.

Section theorems.
Context (blake3 : list Z -> list Z) (Hlen : forall m, length (blake3 m) = 32%nat).
Context {S : Type} `{Honest S}.

Lemma realize_cdf_run fuel root name out version cdf_bytes staged (Q : result Realized StoreError -> World S -> Prop) w : good root ->
  normalize_name name = Ok out -> validate_version version = Ok tt ->
  let sname := store_name blake3 out version cdf_bytes in
  let paths := mkPathsAt (store_digest blake3 cdf_bytes) (P (root ++ [sname])) (P (root ++ [sname ++ DRV])) sname in
  wp (u ←? fs_op (lit "create_dir_all") (P root) (create_dir_all (P root)); install fuel (P root) paths cdf_bytes staged)
     (fun r => Q (match r with Ok b => Ok (mkRealized paths b) | Err e => Err e end)) w ->
  wp (realize_cdf blake3 fuel (P root) name version cdf_bytes staged) Q w.
Proof.
  intros Hg Hn Hv sname paths Hwp. unfold realize_cdf. apply wp_try. apply wp_try_inv in Hwp. eapply wp_mono; [exact Hwp|].
  intros [u|e] w' HQ; [|done]. rewrite (store_paths_at_P blake3 root name out version cdf_bytes Hg Hn Hv).
  apply wp_try, wp_ret, wp_try. eapply wp_mono; [exact HQ|]. by intros [b|e] w2 HQ2.
Qed.


(** C0. Realization is idempotent and never overwrites: once it has answered, realizing the same derivation again from
    whatever staged tree answers, on a reliable backend, that the output was already present, and changes nothing. *)
Theorem realize_idempotent fuel root name out version cdf_bytes staged staged' (w : World S) : Reliable S ->
  fs_ok (w_fs w) -> good root -> root <> [] -> good staged -> apart staged root -> clear (look (w_fs w)) root ->
  no_temp root (look (w_fs w)) -> (0 < fuel)%nat -> shallow (look (w_fs w)) staged fuel ->
  normalize_name name = Ok out -> validate_version version = Ok tt ->
  wp (realize_cdf blake3 fuel (P root) name version cdf_bytes (P staged)) (fun r1 w1 => is_ok r1 = true ->
    wp (realize_cdf blake3 fuel (P root) name version cdf_bytes staged') (fun r2 w2 =>
      already_present r2 = Ok true /\ same_tree (look (w_fs w1)) (look (w_fs w2))) w1) w.
Proof.
  intros HR Hw Hgr Hne Hgs Hap Hcl Hnt Hf Hsh Hn Hv. destruct (store_name_ok blake3 Hlen name out version cdf_bytes Hn Hv) as [H1 H2].
  eapply realize_cdf_run; [done..|]. eapply wp_mono; [by apply realize_run|]. intros r w1 Hr1 Hok.
  destruct r as [b|e]; [|done]. destruct (rz_done _ _ _ _ _ _ _ Hr1 eq_refl) as [Hout [x Hdrv] ].
  eapply realize_cdf_run; [done..|]. pose proof (rz_ok _ _ _ _ _ _ _ Hr1) as Hw1.
  eapply wp_mono; [by apply (realize_hit _ _ _ _ _ _ x)|].
  intros r2 w2 [-> Hsame]. done.
Qed.

End theorems.

(** ** Derivations *)

Definition drv_ok (d : Derivation) : Prop :=
  normalize_name (dv_name d) = Ok (dv_name d) /\ validate_version (dv_version d) = Ok tt /\
  dv_cdf d !! lit "name" = Some (dv_name d) /\ dv_cdf d !! lit "version" = Some (dv_version d) /\
  Forall (fun k => dv_cdf d !! k = None) ELIDED_OUTPUT_KEYS.

Lemma CdfBuilder_insert_lookup key value b b' : CdfBuilder_insert key value b = Ok b' -> b !! key = None /\ b' = <[key := value]> b.
Proof.
  unfold CdfBuilder_insert. repeat case_match; try done; intros [= <-]; split; try done.
Qed.

Lemma Derivation_new_ok name version d : Derivation_new name version = Ok d -> drv_ok d.
Proof.
  unfold Derivation_new. destruct (normalize_name name) as [n|] eqn:En; [|done].
  destruct (validate_version version) as [ []|] eqn:Ev; [|done]. cbn [map_err result_bind].
  destruct (CdfBuilder_insert (lit "name") n CdfBuilder_new) as [c1|] eqn:E1; [|done]. cbn [map_err result_bind].
  destruct (CdfBuilder_insert (lit "version") version c1) as [c2|] eqn:E2; [|done]. cbn [map_err result_bind]. intros [= <-].
  apply CdfBuilder_insert_lookup in E1 as [_ ->]. apply CdfBuilder_insert_lookup in E2 as [_ ->].
  split; [by apply normalize_name_idempotent in En as (_ & _ & ?)|]. split; [done|]. cbn [dv_cdf dv_name dv_version].
  split; [by rewrite lookup_insert_ne, lookup_insert_eq|]. split; [by rewrite lookup_insert_eq|].
  repeat (apply Forall_cons_2; [by rewrite !lookup_insert_ne|]). apply Forall_nil_2.
Qed.

Lemma Derivation_insert_ok key value d d' : Derivation_insert key value d = Ok d' -> drv_ok d -> drv_ok d'.
Proof.
  unfold Derivation_insert. case_bool_decide as Hk; [done|]. destruct (CdfBuilder_insert key value (dv_cdf d)) as [c|] eqn:E; [|done].
  intros [= <-] (H1 & H2 & H3 & H4 & H5). apply CdfBuilder_insert_lookup in E as [Hnone ->]. unfold drv_ok. cbn [dv_name dv_version dv_cdf].
  split; [done|]. split; [done|]. split; [by rewrite lookup_insert_ne by congruence|]. split; [by rewrite lookup_insert_ne by congruence|].
  rewrite Forall_forall in H5 |- *. intros k Hin. rewrite lookup_insert_ne by (intros ->; done). by apply H5.
Qed.

(** Realizing a derivation is realizing its bytes: filling in the output path
    leaves what is hashed alone. *)
Theorem realize_derivation blake3 {S} `{StoreFs S} fuel store_root d staged (w : World S) : drv_ok d ->
  digest blake3 (resolve blake3 store_root d).2 = digest blake3 d /\
  realize blake3 fuel store_root d staged w =
    match realize_cdf blake3 fuel store_root (dv_name d) (dv_version d) (digest_cdf d) staged w with
    | Some (Ok z, w') => Some (Ok (z, (resolve blake3 store_root d).2), w')
    | Some (Err e, w') => Some (Err e, w')
    | None => None
    end.
Proof.
  intros (Hn & Hv & _). split; [done|]. unfold realize, realize_cdf, try_bind, mbind, fsm_bind.
  destruct (fs_op _ _ _ w) as [ [ [u|e] w1]|]; [|done|done]. unfold store_paths_at. rewrite Hn, Hv.
  unfold resolve. cbn [mret fsm_ret result_bind map_err digest_cdf dv_cdf]. fold (digest blake3 d).
  by destruct (install _ _ _ _ _ w1) as [ [ [b|e] w2]|].
Qed.
