(* ===== verification/StoreDb.v ===== *)
(** * The store database and its garbage collector (pkg/shade-store-db/src/lib.rs)

    Registration records, roots, build locks, and [gc]: the digests named by
    roots are closed under the recorded references, and every store entry
    whose digest is not in the closure is removed.  The clock and the time
    stamp are parameters; [clock k] is the [k]-th reading of [monotonic_ms]
    during a call.  The guards of the database lock and of build locks act
    when they are dropped, at the end of the operation that holds them. *)

From stdpp Require Import sorting.
From S2P Require Import Prelude Paths Text Cdf StoreFs Store.

#[local] Open Scope Z_scope.
#[local] Open Scope store_scope.

Definition CANONICAL_SHADE_ROOT : str := lit "/shade".
Definition DB_RECORD_VERSION : str := lit "shade-db=1".
Definition LOCK_DEADLINE_MS : Z := 10000.

Inductive DbError : Type :=
| DeFs (op path : str) (err : FsError)
| DeBusy (msg : str).

(** [.map_err(fs_op(op, path))] *)
Definition db_op {S A} (op path : str) (m : FsM S (result A FsError)) : FsM S (result A DbError) :=
  r ← m; mret (map_err (DeFs op path) r).

Record StoreDb : Type := mkDb {
  store_root : str;
  db_root : str;
  roots_root : str;
  gen_root : str;
  log_root : str
}.

Definition with_backend (shade_root : str) : StoreDb :=
  let r := trim_end SLASH shade_root in
  mkDb (r ++ lit "/store") (r ++ lit "/db") (r ++ lit "/roots") (r ++ lit "/gen") (r ++ lit "/log").

Definition for_store_root_on (root : str) : StoreDb :=
  let root' := trim_end SLASH root in
  let db := with_backend (split_parent root').1 in
  mkDb root' (db_root db) (roots_root db) (gen_root db) (log_root db).

Definition refs_dir (db : StoreDb) : str := join (db_root db) (lit "refs").
Definition valid_dir (db : StoreDb) : str := join (db_root db) (lit "valid").
Definition locks_dir (db : StoreDb) : str := join (db_root db) (lit "locks").
Definition lock_file (db : StoreDb) : str := join (db_root db) (lit "lock").
Definition scan_prefix (db : StoreDb) : str := store_root db ++ [SLASH].

(** ** Store names and embedded digests *)

Definition base32_byte (c : Z) : bool := bool_decide (c ∈ BASE32_ALPHABET).

Definition store_entry_digest (name : str) : option str :=
  let bare := default name (strip_suffix DRV name) in
  if (length bare <? 33)%nat || negb (bool_decide (bare !! 32%nat = Some 45)) then None
  else if forallb base32_byte (take 32 bare) then Some (take 32 bare) else None.

(** [s.rsplit('/').next()] *)
Definition last_part (s : str) : str := match rsplit_slash s with Some (_, name) => name | None => s end.

Definition digest_from_store_path (s : str) : option str :=
  let base := last_part s in
  store_entry_digest (default base (strip_suffix DRV base)).

(** The loop of [scan_bytes], on the part of the buffer from [i] on. *)
Fixpoint scan_from (fuel : nat) (prefix buf : str) (set : gset str) : gset str :=
  match fuel with
  | O => set
  | Datatypes.S fuel' =>
      if (length buf <? length prefix + 32)%nat then set
      else match strip_prefix prefix buf with
           | Some rest =>
               if forallb base32_byte (take 32 rest)
               then scan_from fuel' prefix (drop 32 rest) ({[ take 32 rest ]} ∪ set)
               else scan_from fuel' prefix (drop 1 buf) set
           | None => scan_from fuel' prefix (drop 1 buf) set
           end
  end.

(** Each round takes at least one byte off the buffer. *)
Definition scan_bytes (prefix buf : str) (set : gset str) : gset str :=
  if negb (nonempty prefix) then set else scan_from (length buf) prefix buf set.

(** The elements of a [BTreeSet<String>], in the order of iteration. *)
Definition in_order (X : gset str) : list str := merge_sort str_le (elements X).

(** The non-empty lines of a record. *)
Definition record_lines (bytes : list Z) : list str := List.filter nonempty (lines (utf8_lossy bytes)).

(** ... of a build lock. *)
Definition lock_lines (bytes : list Z) : list str := List.filter nonempty (trim <$> lines (utf8_lossy bytes)).

(** ** Records *)

Record ValidRecord : Type := mkRecord {
  vr_digest : str;
  vr_cdf_hash : str;
  vr_registered : Z;
  vr_deriver : str;
  vr_name : str;
  vr_refs : list str
}.

Definition serialize (r : ValidRecord) : str :=
  DB_RECORD_VERSION ++ [LF] ++
  lit "cdf-hash=" ++ vr_cdf_hash r ++ [LF] ++
  lit "deriver=" ++ vr_deriver r ++ [LF] ++
  lit "name=" ++ vr_name r ++ [LF] ++
  lit "registered=" ++ dec (vr_registered r) ++ [LF].

(** The loop of [parse] over the lines after the header. *)
Fixpoint parse_fields (ls : list str) (r : ValidRecord) : option ValidRecord :=
  match ls with
  | [] => Some r
  | line :: ls' =>
      match split_once EQUALS line with
      | None => None
      | Some (k, v) =>
          if bool_decide (k = lit "cdf-hash") then
            parse_fields ls' (mkRecord (vr_digest r) v (vr_registered r) (vr_deriver r) (vr_name r) (vr_refs r))
          else if bool_decide (k = lit "deriver") then
            parse_fields ls' (mkRecord (vr_digest r) (vr_cdf_hash r) (vr_registered r) v (vr_name r) (vr_refs r))
          else if bool_decide (k = lit "name") then
            parse_fields ls' (mkRecord (vr_digest r) (vr_cdf_hash r) (vr_registered r) (vr_deriver r) v (vr_refs r))
          else if bool_decide (k = lit "registered") then
            match parse_u64 v with
            | Some n => parse_fields ls' (mkRecord (vr_digest r) (vr_cdf_hash r) n (vr_deriver r) (vr_name r) (vr_refs r))
            | None => None
            end
          else parse_fields ls' r
      end
  end.

Definition parse_record (digest s : str) : option ValidRecord :=
  match lines s with
  | [] => None
  | header :: rest =>
      if bool_decide (header = DB_RECORD_VERSION) then parse_fields rest (mkRecord digest [] 0 [] [] []) else None
  end.

Record GcOptions : Type := mkGcOptions { go_dry_run : bool; go_force : bool }.

Record GcReport : Type := mkReport {
  gr_collected : list str;
  gr_kept : Z;
  gr_freed_bytes : Z;
  gr_pruned_roots : Z;
  gr_dry_run : bool
}.

(** Loops that carry a value. *)
Fixpoint fold_each {S A B} (l : list B) (f : B -> A -> FsM S A) (acc : A) : FsM S A :=
  match l with [] => mret acc | x :: l' => acc' ← f x acc; fold_each l' f acc' end.

Fixpoint fold_try {S A B E} (l : list B) (f : B -> A -> FsM S (result A E)) (acc : A) : FsM S (result A E) :=
  match l with [] => mret (Ok acc) | x :: l' => acc' ←? f x acc; fold_try l' f acc' end.

Section db.
Context (clock : nat -> Z) (now_unix : Z).
Context {S : Type} `{StoreFs S}.

(** ** The lock *)

(** The loop of [acquire_lock]; the next reading of the clock is the [k]-th. *)
Fixpoint lock_loop (fuel k : nat) (lock_path : str) (deadline : Z) : FsM S (result unit DbError) :=
  match fuel with
  | O => deep
  | Datatypes.S fuel' =>
      token ← call unique_token;
      r ← call (create_exclusive lock_path (dec token ++ [LF]));
      match r with
      | Ok _ => mret (Ok tt)
      | Err FeExists =>
          if deadline <=? clock k
          then mret (Err (DeBusy (lit "db lock held (another store mutation in progress)")))
          else lock_loop fuel' (Datatypes.S k) lock_path deadline
      | Err e => mret (Err (DeFs (lit "create_exclusive") lock_path e))
      end
  end.

Definition acquire_lock (fuel : nat) (db_root lock_path : str) (deadline_ms : Z) : FsM S (result unit DbError) :=
  u ←? db_op (lit "create_dir_all") db_root (create_dir_all db_root);
  lock_loop fuel 1 lock_path (Z.min (2 ^ 64 - 1) (clock 0%nat + deadline_ms)).

(** An operation under the lock: the guard removes the file when it is dropped. *)
Definition with_lock {A} (fuel : nat) (db : StoreDb) (m : FsM S (result A DbError)) : FsM S (result A DbError) :=
  u ←? acquire_lock fuel (db_root db) (lock_file db) LOCK_DEADLINE_MS;
  r ← m;
  _ ← call (unlink (lock_file db));
  mret r.

(** ** Reading and writing *)

Definition write_atomic (path : str) (bytes : list Z) : FsM S (result unit DbError) :=
  let '(parent, name) := split_parent path in
  u ←? db_op (lit "create_dir_all") parent (create_dir_all parent);
  tmp ← temp_sibling parent name (lit "db");
  u ←? db_op (lit "write") tmp (call (write_file tmp bytes false));
  r ← call (rename tmp path);
  let synced := _ ← call (sync_dir parent); mret (Ok tt) in
  match r with
  | Ok _ => synced
  | Err FeExists =>
      u ←? db_op (lit "unlink") path (call (unlink path));
      r' ← call (rename tmp path);
      match r' with
      | Ok _ => synced
      | Err e => _ ← call (unlink tmp); mret (Err (DeFs (lit "rename") path e))
      end
  | Err e => _ ← call (unlink tmp); mret (Err (DeFs (lit "rename") path e))
  end.

Fixpoint scan_tree (fuel : nat) (path prefix : str) (set : gset str) : FsM S (result (gset str) DbError) :=
  match fuel with
  | O => deep
  | Datatypes.S fuel' =>
      r ← call (metadata path);
      match r with
      | Err FeNotFound => mret (Ok set)
      | Err e => mret (Err (DeFs (lit "stat") path e))
      | Ok meta =>
          match nm_kind meta with
          | NkSymlink =>
              t ← call (read_link path);
              mret (Ok (match t with Ok target => scan_bytes prefix target set | Err _ => set end))
          | NkDir =>
              entries ←? db_op (lit "read_dir") path (call (read_dir path));
              fold_try entries (fun e set => scan_tree fuel' (join path e.1) prefix set) set
          | NkFile | NkOther =>
              buf ←? db_op (lit "read") path (call (read_file path));
              mret (Ok (scan_bytes prefix buf set))
          end
      end
  end.

Fixpoint entry_size (fuel : nat) (path : str) : FsM S Z :=
  match fuel with
  | O => deep
  | Datatypes.S fuel' =>
      r ← call (metadata path);
      match r with
      | Err _ => mret 0
      | Ok meta =>
          match nm_kind meta with
          | NkSymlink => mret 0
          | NkDir =>
              es ← call (read_dir path);
              match es with
              | Ok entries =>
                  fold_each entries (fun e total => n ← entry_size fuel' (join path e.1); mret (wrap 64 (total + n))) 0
              | Err _ => mret 0
              end
          | NkFile | NkOther => mret (nm_len meta)
          end
      end
  end.

Definition read_refs_on (refs_dir digest : str) : FsM S (result (list str) DbError) :=
  let path := join refs_dir digest in
  r ← call (read_file path);
  match r with
  | Ok bytes => mret (Ok (record_lines bytes))
  | Err FeNotFound => mret (Ok [])
  | Err e => mret (Err (DeFs (lit "read") path e))
  end.

Definition read_refs (db : StoreDb) (digest : str) : FsM S (result (list str) DbError) := read_refs_on (refs_dir db) digest.

Definition read_valid (db : StoreDb) (digest : str) : FsM S (result (option ValidRecord) DbError) :=
  let path := join (valid_dir db) digest in
  r ← call (read_file path);
  match r with
  | Ok bytes => mret (Ok (parse_record digest (utf8_lossy bytes)))
  | Err FeNotFound => mret (Ok None)
  | Err e => mret (Err (DeFs (lit "read") path e))
  end.

Definition is_valid (db : StoreDb) (digest : str) : FsM S bool := call (exists_ (join (valid_dir db) digest)).

(** ** Registration *)

Definition declared_digests (declared_refs : list str) (refs : gset str) : gset str :=
  foldl (fun refs d => match digest_from_store_path d with Some dg => {[ dg ]} ∪ refs | None => refs end) refs declared_refs.

Definition register (fuel : nat) (db : StoreDb) (out_path digest store_name cdf_hash : str) (declared_refs : list str) :
    FsM S (result ValidRecord DbError) :=
  with_lock fuel db (
    scanned ←? scan_tree fuel out_path (scan_prefix db) ∅;
    let refs := in_order (declared_digests declared_refs scanned ∖ {[ digest ]}) in
    let record := mkRecord digest cdf_hash now_unix store_name store_name refs in
    u ←? write_atomic (join (refs_dir db) digest) (unlines refs);
    u ←? write_atomic (join (valid_dir db) digest) (serialize record);
    mret (Ok record)).

(** ** Roots *)

Definition add_root (db : StoreDb) (name store_path : str) : FsM S (result unit DbError) :=
  u ←? db_op (lit "create_dir_all") (roots_root db) (create_dir_all (roots_root db));
  let link := join (roots_root db) name in
  _ ← call (unlink link);
  db_op (lit "symlink") link (call (symlink store_path link)).

Definition remove_root (db : StoreDb) (name : str) : FsM S (result unit DbError) :=
  let link := join (roots_root db) name in
  r ← call (unlink link);
  mret (map_err (DeFs (lit "unlink") link) (gone_ok r)).

(** [Ord] of pairs: the names first. *)
Definition pair_leb (a b : str * str) : bool := bool_decide (a.1 = b.1) && str_leb a.2 b.2 || negb (bool_decide (a.1 = b.1)) && str_leb a.1 b.1.

Definition pair_le (a b : str * str) : Prop := pair_leb a b = true.

#[export] Instance pair_le_dec : RelDecision pair_le.
Proof. intros a b. unfold pair_le. apply _. Defined.

Definition list_roots (db : StoreDb) : FsM S (result (list (str * str)) DbError) :=
  r ← call (read_dir (roots_root db));
  match r with
  | Err FeNotFound => mret (Ok [])
  | Err e => mret (Err (DeFs (lit "read_dir") (roots_root db) e))
  | Ok entries =>
      out ← fold_each entries (fun e out =>
              t ← call (read_link (join (roots_root db) e.1));
              mret (match t with Ok target => out ++ [(e.1, target)] | Err _ => out end)) [];
      mret (Ok (merge_sort pair_le out))
  end.

(** The path of the lock is the guard. *)
Definition lock_build (db : StoreDb) (id : str) (keep : list str) : FsM S (result str DbError) :=
  let locks := locks_dir db in
  u ←? db_op (lit "create_dir_all") locks (create_dir_all locks);
  let path := join locks id in
  u ←? write_atomic path (unlines (omap digest_from_store_path keep));
  mret (Ok path).

(** Dropping the guard. *)
Definition BuildLock_release (path : str) : FsM S unit := _ ← call (unlink path); mret tt.

Definition builds_in_flight (db : StoreDb) : FsM S nat :=
  r ← call (read_dir (locks_dir db));
  mret (match r with Ok v => length v | Err _ => 0%nat end).

(** ** The collector *)

(** One direct root: its digest if its target exists, else the link goes. *)
Definition direct_root (db : StoreDb) (e : str * NodeKind) (acc : gset str * Z) : FsM S (gset str * Z) :=
  let link := join (roots_root db) e.1 in
  r ← call (read_link link);
  match r with
  | Err _ => mret acc
  | Ok target =>
      let abs := if starts_with_slash target then target else join (roots_root db) target in
      ex ← call (exists_ abs);
      if ex : bool then
        mret (match digest_from_store_path target with Some d => {[ d ]} ∪ acc.1 | None => acc.1 end, acc.2)
      else
        _ ← call (unlink link);
        mret (acc.1, acc.2 + 1)
  end.

Definition lock_roots (db : StoreDb) (e : str * NodeKind) (roots : gset str) : FsM S (gset str) :=
  r ← call (read_file (join (locks_dir db) e.1));
  mret (match r with Ok bytes => list_to_set (lock_lines bytes) ∪ roots | Err _ => roots end).

Definition collect_roots (fuel : nat) (db : StoreDb) : FsM S (result (gset str * Z) DbError) :=
  r ← call (read_dir (roots_root db));
  direct ← match r with Ok entries => fold_each entries (direct_root db) (∅, 0) | Err _ => mret (∅, 0) end;
  r ← call (read_dir (locks_dir db));
  indirect ← match r with Ok entries => fold_each entries (lock_roots db) direct.1 | Err _ => mret direct.1 end;
  roots ←? scan_tree fuel (gen_root db) (scan_prefix db) indirect;
  mret (Ok (roots, direct.2)).

(** The loop of [mark_closure]. *)
Fixpoint mark_loop (fuel : nat) (refs_dir : str) (queue : list str) (marked : gset str) : FsM S (result (gset str) DbError) :=
  match queue with
  | [] => mret (Ok marked)
  | d :: queue' =>
      match fuel with
      | O => deep
      | Datatypes.S fuel' =>
          if bool_decide (d ∈ marked) then mark_loop fuel' refs_dir queue' marked
          else
            let marked' := {[ d ]} ∪ marked in
            rs ←? read_refs_on refs_dir d;
            mark_loop fuel' refs_dir (queue' ++ List.filter (fun r => negb (bool_decide (r ∈ marked'))) rs) marked'
      end
  end.

Definition mark_closure (fuel : nat) (db : StoreDb) (roots : gset str) : FsM S (result (gset str) DbError) :=
  mark_loop fuel (refs_dir db) (in_order roots) ∅.

Definition is_live (marked : gset str) (name : str) : bool :=
  match store_entry_digest name with Some d => bool_decide (d ∈ marked) | None => false end.

(** The body of the sweep. *)
Definition sweep_entry (fuel : nat) (db : StoreDb) (dry_run : bool) (marked : gset str) (e : str * NodeKind) (rep : GcReport) : FsM S GcReport :=
  let name := e.1 in
  let path := join (store_root db) name in
  if is_live marked name then
    mret (mkReport (gr_collected rep) (gr_kept rep + 1) (gr_freed_bytes rep) (gr_pruned_roots rep) (gr_dry_run rep))
  else
    size ← entry_size fuel path;
    let rep' := mkReport (gr_collected rep ++ [name]) (gr_kept rep) (wrap 64 (gr_freed_bytes rep + size)) (gr_pruned_roots rep) (gr_dry_run rep) in
    if dry_run then mret rep'
    else
      _ ← remove_store_path fuel path;
      _ ← match store_entry_digest name with
          | Some d => _ ← call (unlink (join (refs_dir db) d)); _ ← call (unlink (join (valid_dir db) d)); mret tt
          | None => mret tt
          end;
      _ ← call (unlink (join (log_root db) (name ++ lit ".log")));
      mret rep'.

Definition gc (fuel : nat) (db : StoreDb) (opts : GcOptions) : FsM S (result GcReport DbError) :=
  with_lock fuel db (
    inflight ← builds_in_flight db;
    if (0 <? inflight)%nat && negb (go_force opts) then
      mret (Err (DeBusy (dec (Z.of_nat inflight) ++
        lit " build(s) in flight (/shade/db/locks non-empty); re-run with force to override")))
    else
      rp ←? collect_roots fuel db;
      marked ←? mark_closure fuel db rp.1;
      let report := mkReport [] 0 0 rp.2 (go_dry_run opts) in
      r ← call (read_dir (store_root db));
      match r with
      | Err FeNotFound => mret (Ok report)
      | Err e => mret (Err (DeFs (lit "read_dir") (store_root db) e))
      | Ok entries =>
          rep ← fold_each entries (sweep_entry fuel db (go_dry_run opts) marked) report;
          mret (Ok (mkReport (merge_sort str_le (gr_collected rep)) (gr_kept rep) (gr_freed_bytes rep) (gr_pruned_roots rep) (gr_dry_run rep)))
      end).

End db.
