(* ===== verification/StoreGc.v ===== *)
(** * What the garbage collector keeps and what it removes

    The digests embedded in files, the closure of the roots under the recorded
    references, and [gc_exact]: on a reliable backend the collector returns,
    keeps every entry that is reachable from a root and removes every other
    one. *)

From stdpp Require Import sorting.
From S2P Require Import Prelude Paths Text Cdf StoreFs StoreLaws StoreRun Store StoreDb.

#[local] Open Scope Z_scope.
#[local] Open Scope store_scope.

(** ** Embedded digests *)

Definition digest_like (d : str) : Prop := length d = 32%nat /\ Forall base32_symbol d.

(** [buf] contains [prefix] followed by the digest [d]. *)
Definition embeds (prefix buf d : str) : Prop := digest_like d /\ exists a b, buf = a ++ prefix ++ d ++ b.

Lemma base32_bytes l : forallb base32_byte l = true <-> Forall base32_symbol l.
Proof.
  rewrite forallb_forall, Forall_forall. unfold base32_byte. setoid_rewrite bool_decide_eq_true. by setoid_rewrite list_elem_of_In.
Qed.

Lemma digest_like_comp d : digest_like d -> good_comp d.
Proof.
  intros [Hl Hs]. split; [by destruct d|]. intros Hin. rewrite Forall_forall in Hs. by apply Hs, base32_symbol_facts in Hin as [? _].
Qed.

(** A prefix that scanning cannot miss: it starts and ends with a slash, and
    is too short to contain a digest. *)
Definition scan_ok (prefix : str) : Prop := exists p, prefix = SLASH :: p ++ [SLASH] /\ (length prefix <= 33)%nat.

Lemma lookup_slash_digest d (i : nat) : Forall base32_symbol d -> d !! i <> Some SLASH.
Proof. intros Hs Hi. rewrite Forall_lookup in Hs. by apply Hs, base32_symbol_facts in Hi as [? _]. Qed.

(** After a match the next one begins behind its digest. *)
Lemma embeds_skip prefix d rest a d' b : scan_ok prefix -> digest_like d -> digest_like d' ->
  prefix ++ d ++ rest = a ++ prefix ++ d' ++ b -> a <> [] -> exists a', rest = a' ++ prefix ++ d' ++ b.
Proof.
  intros (p & Ep & Hp) [Hl Hs] _ E Ha. set (k := length a). assert (0 < k)%nat as Hk by (destruct a; [done|cbn; lia]).
  assert (length prefix = length p + 2)%nat as Elen by (rewrite Ep; cbn; rewrite length_app; cbn; lia).
  assert (forall i, (length prefix <= i < length prefix + 32)%nat -> (prefix ++ d ++ rest) !! i <> Some SLASH) as Hno.
  { intros i Hi. rewrite lookup_app_r, lookup_app_l by lia. by apply lookup_slash_digest. }
  assert (prefix !! 0%nat = Some SLASH) as H0 by by rewrite Ep.
  assert (prefix !! (length p + 1)%nat = Some SLASH) as H1.
  { rewrite Ep. replace (length p + 1)%nat with (Datatypes.S (length p)) by lia.
    change ((p ++ [SLASH]) !! length p = Some SLASH). by rewrite lookup_app_r, Nat.sub_diag by lia. }
  assert (forall i x, prefix !! i = Some x -> (prefix ++ d ++ rest) !! (k + i)%nat = Some x) as Hat.
  { intros i x Hx. rewrite E. rewrite lookup_app_r by (unfold k; lia). replace (k + i - length a)%nat with i by (unfold k; lia).
    rewrite lookup_app_l; [done|]. by eapply lookup_lt_Some. }
  destruct (decide (k < length prefix + 32)%nat) as [Hlt|Hge].
  - exfalso. destruct (decide (k < length prefix)%nat) as [Hin|Hout].
    + apply (Hno (k + (length p + 1))%nat); [lia|by apply Hat].
    + apply (Hno (k + 0)%nat); [lia|by apply Hat].
  - exists (drop (length prefix + 32) a). apply (f_equal (drop (length prefix + 32))) in E.
    rewrite app_assoc, drop_app_length' in E by (rewrite length_app; lia). rewrite E. by rewrite drop_app_le by (unfold k in *; lia).
Qed.

Lemma scan_from_exact prefix : scan_ok prefix -> forall fuel buf X, (length buf <= fuel)%nat ->
  forall d, d ∈ scan_from fuel prefix buf X <-> d ∈ X \/ embeds prefix buf d.
Proof.
  intros Hpre. assert (0 < length prefix)%nat as Hpl by (destruct Hpre as (p & -> & _); cbn; lia).
  induction fuel as [|fuel IH]; intros buf X Hf d; cbn [scan_from].
  { assert (~ embeds prefix buf d) as Hn; [|tauto]. intros ([Hl _] & a & b & ->). rewrite !length_app in Hf. lia. }
  destruct (Nat.ltb_spec (length buf) (length prefix + 32)) as [Hshort|Hlong].
  { assert (~ embeds prefix buf d) as Hn; [|tauto]. intros ([Hl _] & a & b & ->). rewrite !length_app in Hshort. lia. }
  assert (forall d', embeds prefix buf d' <-> embeds prefix (drop 1 buf) d' \/ exists b, digest_like d' /\ buf = prefix ++ d' ++ b) as Hstep.
  { intros d'. split.
    - intros (Hd & [|x a] & b & ->); [right; eauto|]. left. split; [done|]. cbn. rewrite drop_0. eauto.
    - intros [(Hd & a & b & E)|(b & Hd & ->)]; [|split; [done|]; by exists [], b]. split; [done|].
      destruct buf as [|x buf]; [cbn in Hlong; lia|]. cbn in E. rewrite drop_0 in E. exists (x :: a), b. by rewrite E. }
  destruct (strip_prefix prefix buf) as [rest|] eqn:Es.
  - apply strip_prefix_spec in Es. destruct (forallb base32_byte (take 32 rest)) eqn:Eb.
    + apply base32_bytes in Eb. assert (digest_like (take 32 rest)) as Hc.
      { split; [|done]. rewrite length_take. subst buf. rewrite length_app in Hlong. lia. }
      rewrite IH by (rewrite length_drop; subst buf; rewrite length_app in Hf; lia).
      rewrite elem_of_union, elem_of_singleton.
      assert (embeds prefix buf d <-> d = take 32 rest \/ embeds prefix (drop 32 rest) d) as ->; [|tauto].
      assert (buf = prefix ++ take 32 rest ++ drop 32 rest) as Ebuf by by rewrite take_drop. split.
      * intros (Hd & a & b & E). destruct (decide (a = [])) as [->|Ha].
        -- left. rewrite Ebuf in E. cbn in E. apply app_inv_head in E. by apply app_inj_1 in E as [-> _]; [|destruct Hc, Hd; lia].
        -- right. split; [done|]. rewrite Ebuf in E. destruct (embeds_skip prefix _ _ a d b Hpre Hc Hd E Ha) as [a' ->]. eauto.
      * intros [->|(Hd & a & b & E)]; [split; [done|]; by exists [], (drop 32 rest)|]. split; [done|].
        exists (prefix ++ take 32 rest ++ a), b. rewrite Ebuf, E, <- !app_assoc. done.
    + rewrite IH by (rewrite length_drop; lia). rewrite Hstep. split; [tauto|]. intros [?|[?|(b & [Hl Hs] & E)] ]; [tauto|tauto|].
      rewrite Es in E. apply app_inv_head in E. subst rest. rewrite take_app_length' in Eb by lia. by rewrite (proj2 (base32_bytes d) Hs) in Eb.
  - rewrite IH by (rewrite length_drop; lia). rewrite Hstep. split; [tauto|]. intros [?|[?|(b & _ & E)] ]; [tauto|tauto|].
    by rewrite (proj2 (strip_prefix_spec _ _ _) E) in Es.
Qed.

(** The scan finds every embedded digest, overlaps included, and no other. *)
Theorem scan_bytes_exact prefix buf X d : scan_ok prefix -> d ∈ scan_bytes prefix buf X <-> d ∈ X \/ embeds prefix buf d.
Proof.
  intros Hp. unfold scan_bytes. assert (negb (nonempty prefix) = false) as -> by (by destruct Hp as (p & -> & _)).
  by apply scan_from_exact.
Qed.

(** ** Rules for the loops *)

Lemma wp_fold_each {S A B} (l : list B) (f : B -> A -> FsM S A) (I : list B -> A -> World S -> Prop) acc w :
  I l acc w -> (forall x l' a w', I (x :: l') a w' -> wp (f x a) (I l') w') -> wp (fold_each l f acc) (I []) w.
Proof.
  intros HI Hf. revert acc w HI. induction l as [|x l IH]; intros acc w HI; [done|]. cbn [fold_each]. apply wp_bind.
  eapply wp_mono; [by apply Hf|]. intros a w' HI'. by apply IH.
Qed.

Lemma wp_fold_try {S A B E} (l : list B) (f : B -> A -> FsM S (result A E)) (I : list B -> A -> World S -> Prop) acc w :
  I l acc w -> (forall x l' a w', I (x :: l') a w' -> wp (f x a) (fun r w'' => exists a', r = Ok a' /\ I l' a' w'') w') ->
  wp (fold_try l f acc) (fun r w' => exists a, r = Ok a /\ I [] a w') w.
Proof.
  intros HI Hf. revert acc w HI. induction l as [|x l IH]; intros acc w HI; [by exists acc|]. cbn [fold_try]. apply wp_try.
  eapply wp_mono; [by apply Hf|]. intros r w' (a & -> & HI'). by apply IH.
Qed.

Lemma wp_db_op {S A} op p (m : FsM S (result A FsError)) (Q : result A DbError -> World S -> Prop) w :
  wp m (fun r w' => Q (map_err (DeFs op p) r) w') w -> wp (db_op op p m) Q w.
Proof. intros Hm. apply wp_bind. by eapply wp_mono. Qed.

(** The entry a loop over [es] is at. *)
Lemma todo_head {A} (es done todo : list (str * A)) c k : NoDup es.*1 -> es = done ++ (c, k) :: todo -> (c ∈ es.*1) /\ (c ∉ todo.*1).
Proof.
  intros Hnd ->. rewrite fmap_app in Hnd |- *. apply NoDup_app in Hnd as (_ & _ & Hnd). apply NoDup_cons in Hnd as [Hc _].
  split; [|done]. apply elem_of_app. right. apply elem_of_cons. by left.
Qed.

Lemma todo_next {A} (es done todo : list (str * A)) e : es = done ++ e :: todo -> exists done', es = done' ++ todo.
Proof. intros ->. exists (done ++ [e]). by rewrite <- app_assoc. Qed.

Lemma todo_cons {A} (todo : list (str * A)) c k c' : (c' ∉ ((c, k) :: todo).*1) <-> c' <> c /\ (c' ∉ todo.*1).
Proof. apply not_elem_of_cons. Qed.

Section gc.
Context {S : Type} {F : StoreFs S} {HH : Honest S} {HR : Reliable S}.
Implicit Types w : World S.

#[local] Abbreviation ok w := (fs_ok (w_fs w)).
#[local] Abbreviation lk w := (look (w_fs w)).

(** ** The tree of a store *)

Context (sh : path) (good_sh : good sh).

Definition p_store : path := sh ++ [lit "store"].
Definition p_db : path := sh ++ [lit "db"].
Definition p_roots : path := sh ++ [lit "roots"].
Definition p_gen : path := sh ++ [lit "gen"].
Definition p_log : path := sh ++ [lit "log"].
Definition p_refs : path := p_db ++ [lit "refs"].
Definition p_valid : path := p_db ++ [lit "valid"].
Definition p_locks : path := p_db ++ [lit "locks"].
Definition p_lock : path := p_db ++ [lit "lock"].

Definition the_db : StoreDb := mkDb (P p_store) (P p_db) (P p_roots) (P p_gen) (P p_log).

Lemma good_child cs c : good cs -> bool_decide (good_comp c) = true -> good (cs ++ [c]).
Proof. intros Hg Hc%bool_decide_eq_true. by apply good_snoc. Qed.

Lemma with_backend_P : with_backend (P sh) = the_db.
Proof. unfold with_backend, the_db, p_store, p_db, p_roots, p_gen, p_log. rewrite !P_snoc by done. done. Qed.

(** The digests recorded as references of [d]. *)
Definition refs_of (f : tree) (d : str) : list str :=
  match f (p_refs ++ [d]) with Some (MFile data _) => record_lines data | _ => [] end.

Definition refers (f : tree) (d r : str) : Prop := r ∈ refs_of f d.

(** The records are files of names. *)
Definition tidy_refs (f : tree) : Prop := forall d n, f (p_refs ++ [d]) = Some n -> exists data x, n = MFile data x /\ Forall good_comp (record_lines data).

Lemma refs_of_good f d : tidy_refs f -> Forall good_comp (refs_of f d).
Proof.
  intros Ht. unfold refs_of. destruct (f (p_refs ++ [d])) as [ [data x| |t]|] eqn:E; [|constructor|constructor|constructor].
  destruct (Ht d _ E) as (data' & x' & [= -> ->] & Hg). done.
Qed.

Lemma good_refs : good p_refs.
Proof. by repeat apply good_child. Qed.

Lemma read_refs_spec d Q w : ok w -> good_comp d -> tidy_refs (lk w) -> Q (Ok (refs_of (lk w) d)) w -> wp (read_refs_on (P p_refs) d) Q w.
Proof.
  intros Hw Hd Ht HQ. unfold read_refs_on. rewrite join_P by apply good_refs. apply wp_bind, wp_read_file; [done| |].
  { apply good_snoc. split; [apply good_refs|done]. }
  intros r _ Hr. specialize (Hr HR). unfold refs_of in HQ. destruct (lk w (p_refs ++ [d])) as [n|] eqn:E; [|by subst r].
  destruct (Ht d n E) as (data & x & -> & _). by subst r.
Qed.

(** ** Marking *)

(** What is left to do: the queue, and the references of what is not marked. *)
Definition work (f : tree) (U : list str) (queue : list str) (marked : gset str) : nat :=
  (length queue + sum_list_with (fun d => if bool_decide (d ∈ marked) then 0 else length (refs_of f d)) U)%nat.

Lemma work_mark f U queue marked d (new : list str) : NoDup U -> (refs_of f d <> [] -> d ∈ U) -> d ∉ marked -> (length new <= length (refs_of f d))%nat ->
  (work f U (queue ++ new) ({[ d ]} ∪ marked) < work f U (d :: queue) marked)%nat.
Proof.
  intros Hnd HU Hd Hnew. unfold work. rewrite length_app. cbn [length].
  assert (forall V, d ∉ V -> sum_list_with (fun x => if bool_decide (x ∈ {[ d ]} ∪ marked) then 0 else length (refs_of f x))%nat V =
    sum_list_with (fun x => if bool_decide (x ∈ marked) then 0 else length (refs_of f x))%nat V) as Hsame.
  { intros V HV. induction V as [|x V IH]; [done|]. apply not_elem_of_cons in HV as [Hx HV]. cbn. rewrite IH by done. f_equal.
    destruct (decide (x ∈ marked)); [by rewrite !bool_decide_eq_true_2 by set_solver|].
    by rewrite !bool_decide_eq_false_2 by set_solver. }
  destruct (decide (d ∈ U)) as [Hin|Hout].
  - apply list_elem_of_split in Hin as (U1 & U2 & ->). apply NoDup_app in Hnd as (_ & Hd1 & [Hd2 _]%NoDup_cons).
    assert (d ∉ U1) as Hd1' by (intros Hin; apply (Hd1 d Hin); set_solver).
    rewrite !sum_list_with_app. cbn [sum_list_with]. rewrite !Hsame by done.
    rewrite bool_decide_eq_true_2 by set_solver. rewrite bool_decide_eq_false_2 by done. lia.
  - rewrite Hsame by done. assert (refs_of f d = []) as E; [|rewrite E in Hnew; cbn in Hnew; lia].
    destruct (refs_of f d); [done|]. by destruct Hout; apply HU.
Qed.

(** The invariant of the work list. *)
Record marking (f : tree) (roots : list str) (queue : list str) (marked : gset str) : Prop := {
  mk_roots : forall d, d ∈ roots -> d ∈ marked \/ d ∈ queue;
  mk_closed : forall d r, d ∈ marked -> refers f d r -> r ∈ marked \/ r ∈ queue;
  mk_sound : forall d, d ∈ marked \/ d ∈ queue -> exists d0, d0 ∈ roots /\ rtc (refers f) d0 d;
  mk_good : Forall good_comp queue
}.

Lemma marking_done f roots marked : marking f roots [] marked ->
  forall d, d ∈ marked <-> exists d0, d0 ∈ roots /\ rtc (refers f) d0 d.
Proof.
  intros [Hr Hc Hs _] d. split; [intros Hd; apply Hs; by left|]. intros (d0 & Hin & Hrtc).
  assert (d0 ∈ marked) as H0 by (destruct (Hr d0 Hin) as [?|Hn]; [done|by apply elem_of_nil in Hn]).
  clear Hin. induction Hrtc as [|x y z Hxy _ IH]; [done|]. apply IH. destruct (Hc x y H0 Hxy) as [?|Hn]; [done|by apply elem_of_nil in Hn].
Qed.

Lemma marking_skip f roots d queue marked : d ∈ marked -> marking f roots (d :: queue) marked -> marking f roots queue marked.
Proof.
  intros Hd [Hr Hc Hs Hg]. apply Forall_cons in Hg as [_ Hg]. split; [| | |done].
  - intros x Hx. destruct (Hr x Hx) as [?|[->|?]%elem_of_cons]; auto.
  - intros x y Hx Hxy. destruct (Hc x y Hx Hxy) as [?|[->|?]%elem_of_cons]; auto.
  - intros x Hx. apply Hs. set_solver.
Qed.

Lemma marking_mark f roots d queue marked : tidy_refs f -> marking f roots (d :: queue) marked ->
  marking f roots (queue ++ List.filter (fun r => negb (bool_decide (r ∈ {[ d ]} ∪ marked))) (refs_of f d)) ({[ d ]} ∪ marked).
Proof.
  intros Ht [Hr Hc Hs Hg]. apply Forall_cons in Hg as [Hgd Hg]. set (new := List.filter _ _).
  assert (forall r, r ∈ new <-> refers f d r /\ r ∉ {[ d ]} ∪ marked) as Hnew.
  { intros r. unfold new, refers. rewrite !list_elem_of_In, filter_In, negb_true_iff, bool_decide_eq_false. done. }
  assert (forall x, x ∈ {[ d ]} ∪ marked \/ x ∈ queue ++ new <-> x ∈ {[ d ]} ∪ marked \/ x ∈ queue \/ refers f d x) as Hall.
  { intros x. rewrite elem_of_app, Hnew. destruct (decide (x ∈ {[ d ]} ∪ marked)); tauto. }
  split.
  - intros x Hx. apply Hall. destruct (Hr x Hx) as [?|[->|?]%elem_of_cons]; set_solver.
  - intros x y Hx Hxy. apply Hall. apply elem_of_union in Hx as [->%elem_of_singleton|Hx]; [by right; right|].
    destruct (Hc x y Hx Hxy) as [?|[->|?]%elem_of_cons]; set_solver.
  - intros x [Hx|[Hx|Hx] ]%Hall; [| |].
    + apply Hs. set_solver.
    + apply Hs. set_solver.
    + destruct (Hs d) as (d0 & Hd0 & Hrtc); [set_solver|]. exists d0. split; [done|]. by eapply rtc_r.
  - apply Forall_app. split; [done|]. apply Forall_forall. intros r [Hr' _]%Hnew. pose proof (refs_of_good f d Ht) as Hgr.
    rewrite Forall_forall in Hgr. by apply Hgr.
Qed.

Lemma mark_loop_spec U roots w : ok w -> tidy_refs (lk w) -> NoDup U -> (forall d, refs_of (lk w) d <> [] -> d ∈ U) ->
  forall fuel queue marked, (work (lk w) U queue marked <= fuel)%nat -> marking (lk w) roots queue marked ->
  wp (mark_loop fuel (P p_refs) queue marked) (fun r w' => w' = w /\ exists M, r = Ok M /\
    forall d, d ∈ M <-> exists d0, d0 ∈ roots /\ rtc (refers (lk w)) d0 d) w.
Proof.
  intros Hw Ht Hnd HU. induction fuel as [|fuel IH]; intros [|d queue] marked Hf Hm.
  - apply wp_ret. split; [done|]. exists marked. split; [done|]. by apply marking_done.
  - unfold work in Hf. cbn in Hf. lia.
  - apply wp_ret. split; [done|]. exists marked. split; [done|]. by apply marking_done.
  - cbn [mark_loop]. case_bool_decide as Hd.
    + apply IH; [unfold work in *; cbn in Hf; lia|]. by eapply marking_skip.
    + apply wp_try, read_refs_spec; [done| |done|].
      { apply mk_good, Forall_cons in Hm. apply Hm. }
      apply IH; [|by apply marking_mark]. eapply Nat.lt_succ_r, Nat.lt_le_trans; [|exact Hf].
      apply work_mark; [done|apply HU|done|]. apply filter_length_le.
Qed.

(** ** Scanning *)

Section scan.
Context (prefix : str) (Hscan : scan_ok prefix).

Definition node_embeds (n : option MNode) (d : str) : Prop :=
  match n with Some (MFile data _) => embeds prefix data d | Some (MSymlink t) => embeds prefix t d | _ => False end.

Definition found (f : tree) (cs : path) (d : str) : Prop := exists x, node_embeds (f (cs ++ x)) d.

Lemma found_leaf s cs n d : fs_ok s -> look s cs = Some n -> leaf n = true -> found (look s) cs d <-> node_embeds (Some n) d.
Proof.
  intros Hs Hn Hl. split; [|intros He; exists []; by rewrite app_nil_r, Hn].
  intros ([|c x] & He); [by rewrite app_nil_r, Hn in He|]. rewrite h_below in He; [done|done| |done]. rewrite Hn. by intros [= ->].
Qed.

Lemma found_dir s cs d : fs_ok s -> look s cs = Some MDir -> found (look s) cs d <-> exists c, is_Some (look s (cs ++ [c])) /\ found (look s) (cs ++ [c]) d.
Proof.
  intros Hs Hd. split.
  - intros ([|c x] & He); [by rewrite app_nil_r, Hd in He|]. exists c. split; [|exists x; by rewrite <- app_assoc].
    destruct (look s (cs ++ [c])) eqn:E; [by eexists|]. change (cs ++ c :: x) with (cs ++ [c] ++ x) in He.
    rewrite app_assoc, h_gone in He by done. done.
  - intros (c & _ & x & He). exists (c :: x). by rewrite <- app_assoc in He.
Qed.

Lemma scan_tree_spec fuel : forall cs X w, ok w -> good cs -> (0 < fuel)%nat -> shallow (lk w) cs fuel ->
  wp (scan_tree fuel (P cs) prefix X) (fun r w' => w' = w /\ exists Y, r = Ok Y /\ forall d, d ∈ Y <-> d ∈ X \/ found (lk w) cs d) w.
Proof.
  induction fuel as [|fuel IH]; intros cs X w Hw Hg Hf Hsh; [lia|]. cbn [scan_tree].
  apply wp_bind, wp_metadata; [done|done|]. intros r _ Hr. specialize (Hr HR).
  destruct (lk w cs) as [n|] eqn:En; subst r; cycle 1.
  { apply wp_ret. split; [done|]. exists X. split; [done|]. intros d.
    assert (~ found (lk w) cs d) as Hn; [|tauto]. intros [x He]. by rewrite h_gone in He. }
  destruct n as [data x| |t]; cbn [meta_of nm_kind].
  - apply wp_try, wp_db_op, wp_read_file; [done|done|]. rewrite En. intros r _ Hr. rewrite (Hr HR). cbn [map_err]. apply wp_ret.
    split; [done|]. eexists. split; [done|]. intros d. rewrite scan_bytes_exact by done. by rewrite (found_leaf (w_fs w) cs (MFile data x)).
  - apply wp_try, wp_db_op, wp_read_dir; [done|done|]. rewrite En. intros r Hes Hr. specialize (Hr HR).
    destruct r as [es|e]; [|done]. destruct Hes as (_ & Hnd & Hes). cbn [map_err].
    eapply wp_mono; [apply (wp_fold_try es _ (fun todo Y w' => w' = w /\ (exists done, es = done ++ todo) /\
      forall d, d ∈ Y <-> d ∈ X \/ exists c, c ∈ es.*1 /\ (c ∉ todo.*1) /\ found (lk w) (cs ++ [c]) d))|].
    + split; [done|]. split; [by exists []|]. intros d. split; [by left|]. intros [?|(c & ? & ? & _)]; done.
    + intros [c kd] todo Y w' (-> & [done Edone] & HY). cbn [fst].
      destruct (todo_head es done todo c kd Hnd Edone) as [Hin Hct].
      assert (is_Some (lk w (cs ++ [c]))) as Hsc by by apply Hes.
      rewrite join_P by done. eapply wp_mono; [apply IH; [done|by eapply h_good| |by apply shallow_child]|].
      { pose proof (Hsh [c] Hsc) as Hlen. cbn in Hlen. lia. }
      intros r w' (-> & Y' & -> & HY'). exists Y'. split; [done|]. split; [done|]. split; [by eapply todo_next|].
      intros d. rewrite HY', HY. setoid_rewrite todo_cons. split.
      * intros [ [?|(c' & ? & [_ ?] & ?)]|?]; [by left| |]; right; eauto.
      * intros [?|(c' & ? & ? & ?)]; [by left; left|]. destruct (decide (c' = c)) as [->|Hne]; [by right|]. left. right. eauto.
    + intros r w' (Y & -> & -> & _ & HY). split; [done|]. exists Y. split; [done|]. intros d. rewrite HY, found_dir by done.
      setoid_rewrite Hes. split; [intros [?|(c & ? & _ & ?)]; eauto|]. intros [?|(c & ? & ?)]; [by left|]. right. exists c.
      split; [done|]. split; [apply not_elem_of_nil|done].
  - apply wp_bind, wp_read_link; [done|done|]. intros r _ Hr. rewrite (Hr HR t En). apply wp_ret. split; [done|].
    eexists. split; [done|]. intros d. rewrite scan_bytes_exact by done. by rewrite (found_leaf (w_fs w) cs (MSymlink t)).
Qed.

End scan.

Lemma entry_size_spec fuel : forall cs w, ok w -> good cs -> (0 < fuel)%nat -> shallow (lk w) cs fuel ->
  wp (entry_size fuel (P cs)) (fun _ w' => w' = w) w.
Proof.
  induction fuel as [|fuel IH]; intros cs w Hw Hg Hf Hsh; [lia|]. cbn [entry_size].
  apply wp_bind, wp_metadata; [done|done|]. intros [m|e] Hm _; [|done]. destruct Hm as (n & En & ->).
  destruct n as [data x| |t]; cbn [meta_of nm_kind]; [done| |done].
  apply wp_bind, wp_read_dir; [done|done|]. intros [es|e] Hes _; [|done]. destruct Hes as (_ & Hnd & Hes).
  eapply wp_mono; [apply (wp_fold_each es _ (fun todo _ w' => w' = w /\ todo.*1 ⊆ es.*1))|by intros ? w' [-> _] ].
  - by split.
  - intros [c kd] todo a w' [-> Hsub]. cbn [fst]. assert (is_Some (lk w (cs ++ [c]))) as Hsc by (apply Hes, Hsub, elem_of_cons; by left).
    rewrite join_P by done. apply wp_bind. eapply wp_mono; [apply IH; [done|by eapply h_good| |by apply shallow_child]|].
    { pose proof (Hsh [c] Hsc) as Hlen. cbn in Hlen. lia. }
    intros n w' ->. apply wp_ret. split; [done|]. intros x Hx. apply Hsub, elem_of_cons. by right.
Qed.

(** ** Roots *)

(** Roots lead out of the directory of roots, by canonical absolute paths. *)
Definition tidy_roots (f : tree) : Prop := forall c t, f (p_roots ++ [c]) = Some (MSymlink t) ->
  exists cs, t = P cs /\ good cs /\ ~ p_roots `prefix_of` cs.

Definition tidy_locks (f : tree) : Prop := forall c data x, f (p_locks ++ [c]) = Some (MFile data x) -> Forall good_comp (lock_lines data).

Definition dangling (f : tree) (c : str) : Prop := exists cs, good cs /\ f (p_roots ++ [c]) = Some (MSymlink (P cs)) /\ f cs = None.

Definition direct (f : tree) (c d : str) : Prop := exists cs, good cs /\ f (p_roots ++ [c]) = Some (MSymlink (P cs)) /\ is_Some (f cs) /\
  digest_from_store_path (P cs) = Some d.

Definition indirect (f : tree) (d : str) : Prop := exists c data x, f (p_locks ++ [c]) = Some (MFile data x) /\ d ∈ lock_lines data.

Definition root_of (f : tree) (d : str) : Prop := (exists c, direct f c d) \/ indirect f d \/ found (P p_store ++ [SLASH]) f p_gen d.

(** The dangling roots other than [todo] are gone, and nothing else. *)
Definition links_pruned (f : tree) (todo : list str) (g : tree) : Prop :=
  (forall c, dangling f c -> c ∉ todo -> g (p_roots ++ [c]) = None) /\
  (forall x, g x = f x \/ exists c, x = p_roots ++ [c] /\ (c ∉ todo) /\ dangling f c /\ g x = None).

Lemma links_pruned_same f todo g x : links_pruned f todo g -> (forall c, x = p_roots ++ [c] -> dangling f c -> c ∈ todo) -> g x = f x.
Proof. intros [_ Hp] Hx. destruct (Hp x) as [?|(c & -> & Hc & Hd & _)]; [done|]. by destruct Hc; apply Hx. Qed.

Lemma links_pruned_outside f todo g x : links_pruned f todo g -> ~ p_roots `prefix_of` x -> g x = f x.
Proof. intros Hp Hx. apply (links_pruned_same _ _ _ _ Hp). intros c -> _. destruct Hx. by eexists. Qed.

Lemma entry_digest_like name d : store_entry_digest name = Some d -> digest_like d.
Proof.
  unfold store_entry_digest. destruct (_ || _) eqn:E; [done|]. apply orb_false_iff in E as [El _]. apply Nat.ltb_ge in El.
  destruct (forallb _ _) eqn:Eb; [|done]. intros [= <-]. split; [rewrite length_take; lia|by apply base32_bytes].
Qed.

Lemma root_of_good f d : tidy_locks f -> root_of f d -> good_comp d.
Proof.
  intros Ht [(c & cs & _ & _ & _ & Hd)|[(c & data & x & Hc & Hd)|(x & Hx)] ].
  - by eapply digest_like_comp, entry_digest_like.
  - apply Ht in Hc. rewrite Forall_forall in Hc. by apply Hc.
  - unfold node_embeds in Hx. destruct (f (p_gen ++ x)) as [ [data b| |t]|]; [|done| |done]; apply digest_like_comp; apply Hx.
Qed.

Lemma good_roots : good p_roots.
Proof. by apply good_child. Qed.

Lemma sibling_apart (a b : str) x : a <> b -> ~ sh ++ [a] `prefix_of` (sh ++ [b]) ++ x.
Proof. intros Hne. rewrite <- app_assoc. by apply prefix_below. Qed.

Definition direct_inv (f : tree) (es todo : list (str * NodeKind)) (acc : gset str * Z) (w : World S) : Prop :=
  ok w /\ (exists done, es = done ++ todo) /\ links_pruned f todo.*1 (lk w) /\
  forall d, d ∈ acc.1 <-> exists c, c ∈ es.*1 /\ (c ∉ todo.*1) /\ direct f c d.

Lemma direct_root_spec f es c kd todo acc w : tidy_roots f -> NoDup es.*1 -> is_Some (f (p_roots ++ [c])) -> direct_inv f es ((c, kd) :: todo) acc w ->
  wp (direct_root the_db (c, kd) acc) (direct_inv f es todo) w.
Proof.
  intros Ht Hnd Hsc (Hw & [done Edone] & Hlp & Hacc). destruct (todo_head es done todo c kd Hnd Edone) as [Hin Hct].
  assert (lk w (p_roots ++ [c]) = f (p_roots ++ [c])) as Ec.
  { apply (links_pruned_same _ _ _ _ Hlp). intros c' Hc' _. apply app_inj_tail in Hc' as [_ ->]. apply elem_of_cons. by left. }
  assert (good (p_roots ++ [c])) as Hgc by (rewrite <- Ec in Hsc; by eapply h_good).
  (* one more entry is done *)
  assert (forall (acc' : gset str * Z) w', ok w' -> links_pruned f todo.*1 (lk w') -> (forall d, d ∈ acc'.1 <-> d ∈ acc.1 \/ direct f c d) -> direct_inv f es todo acc' w') as Hnext.
  { intros acc' w' Hw' Hlp' Hacc'. split; [done|]. split; [by eapply todo_next|]. split; [done|]. intros d. rewrite Hacc', Hacc.
    setoid_rewrite todo_cons. split; [intros [(c' & ? & [_ ?] & ?)|?]; eauto|]. intros (c' & ? & ? & ?).
    destruct (decide (c' = c)) as [->|Hne]; [by right|left; eauto]. }
  assert (~ dangling f c -> links_pruned f todo.*1 (lk w)) as Hlpn.
  { intros Hnd'. split.
    - intros c' Hd' Hc'. apply Hlp; [done|]. apply todo_cons. split; [|done]. by intros ->.
    - intros x. destruct (proj2 Hlp x) as [?|(c' & -> & [_ ?]%todo_cons & Hd' & ?)]; [by left|right; eauto]. }
  unfold direct_root. cbn [fst roots_root the_db]. rewrite join_P by apply good_roots.
  apply wp_bind, wp_read_link; [done|done|]. intros [t|e] Hr Hrr; cycle 1.
  { assert (forall t, f (p_roots ++ [c]) <> Some (MSymlink t)) as Hno by (intros t Et; rewrite <- Ec in Et; by specialize (Hrr HR t Et)).
    apply wp_ret, Hnext; [done|apply Hlpn; intros (cs & _ & E & _); by apply Hno in E|].
    intros d. split; [by left|]. intros [?|(cs & _ & E & _)]; [done|]. by apply Hno in E. }
  specialize (Hr t eq_refl). rewrite Ec in Hr. destruct (Ht c t Hr) as (cs & -> & Hgcs & Hncs). rewrite rel_path_absolute.
  assert (lk w cs = f cs) as Ecs by by eapply links_pruned_outside.
  assert (forall cs', Some (MSymlink (P cs)) = Some (MSymlink (P cs')) -> good cs' -> cs' = cs) as Hinj.
  { intros cs' [= E] Hg'. symmetry. by apply P_inj. }
  apply wp_bind, wp_exists; [done|done|]. rewrite Ecs. intros [] Hex Hexr.
  - specialize (Hex eq_refl). apply wp_ret, Hnext; [done| |].
    + apply Hlpn. intros (cs' & Hg' & E & Hn). rewrite Hr in E. apply Hinj in E as ->; [|done]. rewrite Hn in Hex. by destruct Hex.
    + intros d. cbn [fst]. assert (direct f c d <-> digest_from_store_path (P cs) = Some d) as ->.
      { split; [|by intros Hd; exists cs]. intros (cs' & Hg' & E & _ & Hd). rewrite Hr in E. by apply Hinj in E as ->. }
      destruct (digest_from_store_path (P cs)) as [d'|]; [|split; [by left|by intros [?|?] ] ].
      rewrite elem_of_union, elem_of_singleton. split; [intros [->|?]; auto|]. intros [?|[= ->] ]; auto.
  - assert (f cs = None) as Hn by (destruct (f cs); [by discriminate (Hexr HR ltac:(eauto))|done]).
    assert (dangling f c) as Hdc by by exists cs.
    apply wp_bind, wp_unlink; [done|done|]. rewrite Ec, Hr. intros r w' Hw' [Hrm _] Hok. rewrite (Hok HR eq_refl) in Hrm. cbn in Hrm.
    destruct Hrm as [_ Hrm]. apply wp_ret, Hnext; [done| |].
    + split.
      * intros c' Hd' Hc'. rewrite Hrm. case_decide as E; [done|]. apply Hlp; [done|]. apply todo_cons. split; [|done]. by intros ->.
      * intros x. rewrite Hrm. case_decide as E; [right; by exists c|].
        destruct (proj2 Hlp x) as [?|(c' & -> & [_ ?]%todo_cons & Hd' & ?)]; [by left|right; eauto].
    + intros d. split; [by left|]. intros [?|(cs' & Hg' & E & [? Hs] & _)]; [done|]. rewrite Hr in E. apply Hinj in E as ->; [|done]. congruence.
Qed.

Lemma lock_roots_spec f es w : ok w -> f = lk w -> (forall c, c ∈ es.*1 <-> is_Some (f (p_locks ++ [c]))) -> NoDup es.*1 -> forall X,
  wp (fold_each es (lock_roots the_db) X) (fun Y w' => w' = w /\ forall d, d ∈ Y <-> d ∈ X \/ indirect f d) w.
Proof.
  intros Hw -> Hes Hnd X.
  eapply wp_mono; [apply (wp_fold_each es _ (fun todo Y w' => w' = w /\ (exists done, es = done ++ todo) /\
    forall d, d ∈ Y <-> d ∈ X \/ exists c data x, (c ∉ todo.*1) /\ lk w (p_locks ++ [c]) = Some (MFile data x) /\ d ∈ lock_lines data))|].
  - split; [done|]. split; [by exists []|]. intros d. split; [by left|]. intros [?|(c & data & x & Hc & Hl & _)]; [done|].
    destruct Hc. apply Hes. by rewrite Hl.
  - intros [c kd] todo Y w' (-> & [done Edone] & HY). destruct (todo_head es done todo c kd Hnd Edone) as [Hin Hct].
    assert (good (p_locks ++ [c])) as Hgc by (eapply h_good; by apply Hes). unfold lock_roots, locks_dir. cbn [fst db_root the_db].
    rewrite !join_P by (repeat apply good_child; done). fold p_locks. apply wp_bind, wp_read_file; [done|done|]. intros r Hr Hrr. apply wp_ret.
    split; [done|]. split; [by eapply todo_next|]. intros d. setoid_rewrite todo_cons in HY.
    assert (d ∈ match r with Ok bytes => list_to_set (lock_lines bytes) ∪ Y | Err _ => Y end <->
      d ∈ Y \/ exists data x, lk w (p_locks ++ [c]) = Some (MFile data x) /\ d ∈ lock_lines data) as ->.
    { destruct r as [data|e].
      - destruct Hr as [x Hr]. rewrite elem_of_union, elem_of_list_to_set. split; [intros [?|?]; eauto|].
        intros [?|(data' & x' & E & ?)]; [by right|]. left. congruence.
      - split; [by left|]. intros [?|(data & x & E & _)]; [done|]. specialize (Hrr HR). by rewrite E in Hrr. }
    rewrite HY. split; [intros [ [?|(c' & ? & ? & [_ ?] & ? & ?)]|(? & ? & ? & ?)]; [by left|right; eauto 6|right; eauto 6]|].
    intros [?|(c' & data & x & ? & ? & ?)]; [by left; left|]. destruct (decide (c' = c)) as [->|Hne]; [right; eauto|]. left. right. eauto 8.
  - intros Y w' (-> & _ & HY). split; [done|]. intros d. rewrite HY. unfold indirect.
    split; (intros [?|(c & data & x & Hrest)]; [by left|]); right; exists c, data, x; [tauto|]. split; [apply not_elem_of_nil|done].
Qed.

Context (Hscan : scan_ok (P p_store ++ [SLASH])).

(** The collection of the roots prunes the dangling ones and finds the rest. *)
Lemma collect_roots_spec fuel w : ok w -> tidy_roots (lk w) -> (0 < fuel)%nat -> shallow (lk w) p_gen fuel ->
  wp (collect_roots fuel the_db) (fun r w' => ok w' /\ links_pruned (lk w) [] (lk w') /\
    exists X n, r = Ok (X, n) /\ forall d, d ∈ X <-> root_of (lk w) d) w.
Proof.
  intros Hw Ht Hf Hsh. unfold collect_roots. cbn [roots_root the_db]. apply wp_bind, wp_read_dir; [done|apply good_roots|].
  intros r Hes Hr. specialize (Hr HR). apply wp_bind.
  eapply (wp_mono _ (fun acc w' => ok w' /\ links_pruned (lk w) [] (lk w') /\ forall d, d ∈ acc.1 <-> exists c, direct (lk w) c d)).
  { destruct r as [es|e].
    - destruct Hes as (_ & Hnd & Hes). eapply wp_mono; [apply (wp_fold_each es _ (direct_inv (lk w) es))|].
      + split; [done|]. split; [by exists []|]. split; [split; [|by left]|].
        * intros c (cs & _ & Hc & _) Hn. destruct Hn. apply Hes. by rewrite Hc.
        * intros d. split; [set_solver|]. intros (c & ? & ? & _). done.
      + intros [c kd] todo acc w' HI. pose proof HI as (_ & [done Edone] & _). apply direct_root_spec; [done|done| |done].
        apply Hes. by destruct (todo_head es done todo c kd Hnd Edone).
      + intros acc w' (H1 & _ & H2 & H3). split; [done|]. split; [done|]. intros d. rewrite H3. split; [intros (c & _ & _ & ?); eauto|].
        intros (c & Hc). exists c. pose proof Hc as (cs & _ & Hl & _). split; [apply Hes; by rewrite Hl|]. split; [apply not_elem_of_nil|done].
    - assert (forall c, lk w (p_roots ++ [c]) = None) as Hno.
      { intros c. apply h_below; [done| |done]. intros E. by rewrite E in Hr. }
      apply wp_ret. split; [done|]. split; [split; [|by left]; intros c (cs & _ & E & _); by rewrite Hno in E|].
      intros d. split; [set_solver|]. intros (c & cs & _ & E & _). by rewrite Hno in E. }
  intros [X n] w1 (Hw1 & Hlp & HX). cbn [fst snd] in *. clear r Hes Hr.
  assert (forall x, ~ p_roots `prefix_of` x -> lk w1 x = lk w x) as Hsame by (intros x Hx; by eapply links_pruned_outside).
  assert (forall c, lk w1 (p_locks ++ [c]) = lk w (p_locks ++ [c])) as Hlocks.
  { intros c. apply Hsame. unfold p_locks, p_db. rewrite <- app_assoc. by apply sibling_apart. }
  unfold locks_dir. cbn [db_root the_db]. rewrite join_P by by apply good_child. fold p_locks.
  apply wp_bind, wp_read_dir; [done|by repeat apply good_child|]. intros r Hes Hr. specialize (Hr HR). apply wp_bind.
  eapply (wp_mono _ (fun Y w' => w' = w1 /\ forall d, d ∈ Y <-> d ∈ X \/ indirect (lk w) d)).
  { assert (forall d, indirect (lk w1) d <-> indirect (lk w) d) as Hind by (intros d; unfold indirect; by setoid_rewrite Hlocks).
    destruct r as [es|e].
    - destruct Hes as (_ & Hnd & Hes). eapply wp_mono; [by apply lock_roots_spec|]. intros Y w' [-> HY]. split; [done|]. intros d.
      by rewrite HY, Hind.
    - apply wp_ret. split; [done|]. intros d. split; [by left|]. intros [?|(c & data & x & E & _)]; [done|]. rewrite <- Hlocks in E.
      assert (lk w1 p_locks = Some MDir) as E' by (apply (h_parent _ _ c); [done|by rewrite E]). by rewrite E' in Hr. }
  intros Y w2 [-> HY]. cbn [gen_root the_db]. unfold scan_prefix. cbn [store_root the_db].
  assert (forall x, lk w1 (p_gen ++ x) = lk w (p_gen ++ x)) as Hgen by (intros x; apply Hsame; by apply sibling_apart).
  apply wp_try. eapply wp_mono; [apply scan_tree_spec; [done|done|by apply good_child|done|]|].
  { intros x. rewrite Hgen. apply Hsh. }
  intros r' w2 (-> & Z & -> & HZ). apply wp_ret. split; [done|]. split; [done|]. exists Z, n. split; [done|]. intros d.
  rewrite HZ, HY, HX. unfold root_of, found. setoid_rewrite Hgen. tauto.
Qed.

(** ** The sweep *)

Section sweep.
Context (M : gset str).

Definition dead (c : str) : Prop := is_live M c = false.

(** The records that go with dead entries. *)
Definition dropped (x : path) : Prop :=
  (exists c d, dead c /\ store_entry_digest c = Some d /\ (x = p_refs ++ [d] \/ x = p_valid ++ [d])) \/
  (exists c, dead c /\ x = p_log ++ [c ++ lit ".log"]).

Record sweeping (f : tree) (es todo : list (str * NodeKind)) (rep : GcReport) (w : World S) : Prop := {
  sw_ok : ok w;
  sw_todo : exists done, es = done ++ todo;
  sw_gone : forall c, c ∈ es.*1 -> c ∉ todo.*1 -> dead c -> gone (p_store ++ [c]) (lk w);
  sw_kept : forall c x, c ∈ todo.*1 \/ ~ dead c \/ (c ∉ es.*1) -> lk w (p_store ++ c :: x) = f (p_store ++ c :: x);
  sw_outside : forall x, ~ (exists c y, x = p_store ++ c :: y) -> lk w x = f x \/ (dropped x /\ lk w x = None);
  sw_report : forall c, c ∈ gr_collected rep <-> c ∈ es.*1 /\ (c ∉ todo.*1) /\ dead c;
  sw_count : (gr_kept rep + Z.of_nat (length (gr_collected rep)) + Z.of_nat (length todo) = Z.of_nat (length es))%Z
}.

(** Unlinking touches one path. *)
Lemma unlink_one cs w Q : ok w -> good cs ->
  (forall r w', ok w' -> (forall x, x <> cs -> lk w' x = lk w x) -> (forall x, lk w' x = lk w x \/ lk w' x = None) -> Q r w') ->
  wp (call (unlink (P cs))) Q w.
Proof.
  intros Hw Hg HQ. apply wp_unlink; [done|done|]. intros r w' Hw' [Hr _] _. apply HQ; [done| |]; destruct r; cbn in Hr.
  - intros x Hx. destruct Hr as [_ Hr]. by rewrite Hr, decide_False.
  - intros x _. apply Hr.
  - intros x. destruct Hr as [_ Hr]. rewrite Hr. case_decide; auto.
  - intros x. left. apply Hr.
Qed.

(** The records of one entry, removed. *)
Lemma drop_records_spec {A} name (a : A) w Q : ok w -> good_comp name -> dead name ->
  (forall w', ok w' -> (forall x, lk w' x = lk w x \/ (dropped x /\ lk w' x = None)) -> Q a w') ->
  wp (_ ← match store_entry_digest name with
          | Some d => _ ← call (unlink (join (refs_dir the_db) d)); _ ← call (unlink (join (valid_dir the_db) d)); mret tt
          | None => mret tt
          end;
      _ ← call (unlink (join (log_root the_db) (name ++ lit ".log"))); mret a) Q w.
Proof.
  intros Hw Hg Hdead HQ. assert (forall f (g h : tree) cs, (forall x, g x = f x \/ (dropped x /\ g x = None)) -> dropped cs ->
    (forall x, x <> cs -> h x = g x) -> (forall x, h x = g x \/ h x = None) -> forall x, h x = f x \/ (dropped x /\ h x = None)) as Hstep.
  { intros f g h cs Hfg Hcs H1 H2 x. destruct (decide (x = cs)) as [->|Hne]; [|rewrite H1 by done; apply Hfg].
    destruct (H2 cs) as [->|?]; [apply Hfg|by right]. }
  apply wp_bind. eapply (wp_mono _ (fun _ w' => ok w' /\ forall x, lk w' x = lk w x \/ (dropped x /\ lk w' x = None))).
  { destruct (store_entry_digest name) as [d|] eqn:Ed; [|apply wp_ret; split; [done|by left] ].
    assert (good_comp d) as Hgd by by eapply digest_like_comp, entry_digest_like.
    unfold refs_dir, valid_dir. cbn [db_root the_db]. rewrite !join_P by (repeat apply good_child; done). fold p_refs p_valid.
    apply wp_bind, unlink_one; [done|apply good_snoc; split; [apply good_refs|done]|]. intros r1 w1 Hw1 H1 H1'.
    apply wp_bind, unlink_one; [done|apply good_snoc; split; [by repeat apply good_child|done]|]. intros r2 w2 Hw2 H2 H2'. apply wp_ret.
    split; [done|]. eapply (Hstep _ (lk w1) _ (p_valid ++ [d])); [|left; exists name, d; eauto|exact H2|exact H2'].
    eapply (Hstep _ (lk w) _ (p_refs ++ [d])); [by left|left; exists name, d; eauto|exact H1|exact H1']. }
  intros ? w1 [Hw1 H1]. cbn [log_root the_db]. rewrite join_P by by apply good_child. apply wp_bind, unlink_one; [done| |].
  { apply good_snoc. split; [by apply good_child|]. apply good_comp_app; [done|]. by apply (bool_decide_unpack (SLASH ∉ lit ".log")). }
  intros r2 w2 Hw2 H2 H2'. apply wp_ret, HQ; [done|]. eapply (Hstep _ (lk w1)); [exact H1|right; eauto|exact H2|exact H2'].
Qed.

Lemma store_not_dropped c y : ~ dropped (p_store ++ c :: y).
Proof.
  unfold p_store. intros [(c' & d & _ & _ & [E|E])|(c' & _ & E)]; unfold p_refs, p_valid, p_db, p_log in E; rewrite <- !app_assoc in E;
    apply app_inv_head in E; by apply (f_equal head) in E.
Qed.

Lemma sweep_entry_spec fuel f es c kd todo rep w : NoDup es.*1 -> is_Some (f (p_store ++ [c])) -> (0 < fuel)%nat -> shallow f (p_store ++ [c]) fuel ->
  sweeping f es ((c, kd) :: todo) rep w -> wp (sweep_entry fuel the_db false M (c, kd) rep) (sweeping f es todo) w.
Proof.
  intros Hnd Hsc Hf Hsh [Hw [done Edone] Hgone Hkept Hout Hrep Hcnt]. destruct (todo_head es done todo c kd Hnd Edone) as [Hin Hct].
  assert (exists done', es = done' ++ todo) as Hdone by by eapply todo_next.
  assert (forall x, lk w ((p_store ++ [c]) ++ x) = f ((p_store ++ [c]) ++ x)) as Hsub.
  { intros x. rewrite <- app_assoc. apply Hkept. left. apply elem_of_cons. by left. }
  assert (good (p_store ++ [c])) as Hgc.
  { apply (h_good (w_fs w)). pose proof (Hsub []) as E. rewrite !app_nil_r in E. by rewrite E. }
  setoid_rewrite todo_cons in Hgone. setoid_rewrite todo_cons in Hrep. cbn [length] in Hcnt.
  unfold sweep_entry. cbn [fst store_root the_db]. destruct (is_live M c) eqn:Elive.
  - apply wp_ret. assert (~ dead c) as Hnd' by (unfold dead; congruence). split; [done|done| | |done| |cbn; lia].
    + intros c' Hc' Hct' Hd. destruct (decide (c' = c)) as [->|Hne]; [done|auto].
    + intros c' x [Hc'|Hc']; apply Hkept; [left; apply elem_of_cons; by right|by right].
    + intros c'. cbn [gr_collected]. rewrite Hrep. split; [tauto|]. intros (? & ? & ?). split; [done|]. split; [|done]. split; [|done]. by intros ->.
  - assert (dead c) as Hdead by done. rewrite join_P by by apply good_child. apply wp_bind.
    eapply wp_mono; [apply entry_size_spec; [done|done|done|]|]. { intros x. rewrite Hsub. apply Hsh. }
    intros size w' ->. apply wp_bind. eapply wp_mono; [apply remove_store_path_spec; [done|done|by destruct p_store|done|]|].
    { intros x. rewrite Hsub. apply Hsh. }
    intros r w1 (Hw1 & [Ho1 Hp1] & Hg1 & Hr1). specialize (Hg1 (Hr1 HR)). apply drop_records_spec; [done|by apply good_snoc in Hgc as [_ ?]|done|].
    intros w2 Hw2 H2. assert (forall c' x, lk w2 (p_store ++ c' :: x) = lk w1 (p_store ++ c' :: x)) as Hst.
    { intros c' x. destruct (H2 (p_store ++ c' :: x)) as [?|[Hd _] ]; [done|]. by apply store_not_dropped in Hd. }
    split; [done|done| | | | |cbn; rewrite length_app; cbn; lia].
    + intros c' Hc' Hct' Hd x. rewrite <- app_assoc. cbn [app]. rewrite Hst. change (p_store ++ c' :: x) with (p_store ++ [c'] ++ x). rewrite app_assoc.
      destruct (decide (c' = c)) as [->|Hne]; [apply Hg1|]. destruct (Hp1 ((p_store ++ [c']) ++ x)) as [->|?]; [by apply Hgone|done].
    + intros c' x Hc'. rewrite Hst, Ho1.
      * apply Hkept. destruct Hc'; [left; apply elem_of_cons; by right|by right].
      * apply prefix_below. intros ->. naive_solver.
    + intros x Hx. destruct (H2 x) as [->|?]; [|by right]. rewrite Ho1; [by apply Hout|]. intros [y ->]. apply Hx. exists c, y. by rewrite <- app_assoc.
    + intros c'. cbn [gr_collected]. rewrite elem_of_app, list_elem_of_singleton, Hrep. split.
      * intros [(? & [_ ?] & ?)| ->]; done.
      * intros (? & ? & ?). destruct (decide (c' = c)) as [->|Hne]; [by right|by left].
Qed.

(** A dry run reads only. *)
Lemma sweep_dry_spec fuel f es c kd todo rep w : NoDup es.*1 -> ok w -> f = lk w -> is_Some (f (p_store ++ [c])) -> (0 < fuel)%nat -> shallow f (p_store ++ [c]) fuel ->
  (exists done, es = done ++ (c, kd) :: todo) -> (forall c', c' ∈ gr_collected rep <-> c' ∈ es.*1 /\ (c' ∉ ((c, kd) :: todo).*1) /\ dead c') ->
  wp (sweep_entry fuel the_db true M (c, kd) rep) (fun rep' w' => w' = w /\ (exists done, es = done ++ todo) /\
     forall c', c' ∈ gr_collected rep' <-> c' ∈ es.*1 /\ (c' ∉ todo.*1) /\ dead c') w.
Proof.
  intros Hnd Hw -> Hsc Hf Hsh [done Edone] Hrep. destruct (todo_head es done todo c kd Hnd Edone) as [Hin Hct].
  assert (exists done', es = done' ++ todo) as Hdone by by eapply todo_next. setoid_rewrite todo_cons in Hrep.
  unfold sweep_entry. cbn [fst store_root the_db]. destruct (is_live M c) eqn:Elive.
  - apply wp_ret. split; [done|]. split; [done|]. intros c'. cbn [gr_collected]. rewrite Hrep. split; [tauto|]. intros (? & ? & Hd).
    split; [done|]. split; [|done]. split; [|done]. intros ->. unfold dead in Hd. congruence.
  - rewrite join_P by by apply good_child. apply wp_bind. eapply wp_mono; [apply entry_size_spec; [done|by eapply h_good|done|done]|].
    intros size w' ->. apply wp_ret. split; [done|]. split; [done|]. intros c'. cbn [gr_collected]. rewrite elem_of_app, list_elem_of_singleton, Hrep. split.
    + intros [(? & [_ ?] & ?)| ->]; done.
    + intros (? & ? & ?). destruct (decide (c' = c)) as [->|Hne]; [by right|by left].
Qed.

End sweep.

(** ** The collector *)

Definition live (f : tree) (d : str) : Prop := exists d0, root_of f d0 /\ rtc (refers f) d0 d.

Definition live_entry (f : tree) (c : str) : Prop := exists d, store_entry_digest c = Some d /\ live f d.

(** What may disappear besides store entries: dangling roots, and the records
    and logs of entries that are collected. *)
Definition disposable (f : tree) (x : path) : Prop :=
  (exists c, x = p_roots ++ [c] /\ dangling f c) \/
  (exists d, ~ live f d /\ (x = p_refs ++ [d] \/ x = p_valid ++ [d])) \/
  (exists c, ~ live_entry f c /\ x = p_log ++ [c ++ lit ".log"]).

Record collected (f : tree) (dry_run : bool) (rep : GcReport) (g : tree) : Prop := {
  co_report : forall c, c ∈ gr_collected rep <-> is_Some (f (p_store ++ [c])) /\ ~ live_entry f c;
  co_live : forall c x, live_entry f c \/ dry_run = true -> g (p_store ++ c :: x) = f (p_store ++ c :: x);
  co_dead : forall c, ~ live_entry f c -> dry_run = false -> gone (p_store ++ [c]) g;
  co_outside : forall x, ~ (exists c y, x = p_store ++ c :: y) -> g x = f x \/ (disposable f x /\ g x = None)
}.

Lemma elem_of_in_order X d : d ∈ in_order X <-> d ∈ X.
Proof. unfold in_order. by rewrite merge_sort_Permutation, elem_of_elements. Qed.

Lemma dead_iff f M c : (forall d, d ∈ M <-> live f d) -> dead M c <-> ~ live_entry f c.
Proof.
  intros HM. unfold dead, is_live, live_entry. destruct (store_entry_digest c) as [d|]; [|split; [by intros _ (d & ? & _)|done] ].
  rewrite bool_decide_eq_false, HM. split; [by intros Hn (d' & [= <-] & ?)|]. intros Hn Hl. apply Hn. eauto.
Qed.

(** The fuel of the collector, by the tree it runs on. *)
Definition gc_fuel (f : tree) (U : list str) (fuel : nat) : Prop :=
  (0 < fuel)%nat /\ shallow f p_gen fuel /\ (forall c, shallow f (p_store ++ [c]) fuel) /\ NoDup U /\ (forall d, refs_of f d <> [] -> d ∈ U) /\
  forall X, (forall d, d ∈ X <-> root_of f d) -> (work f U (in_order X) ∅ <= fuel)%nat.

Definition tidy (f : tree) : Prop := tidy_refs f /\ tidy_roots f /\ tidy_locks f /\ (f p_store = None \/ f p_store = Some MDir).

Definition gc_body (fuel : nat) (opts : GcOptions) : FsM S (result GcReport DbError) :=
  rp ←? collect_roots fuel the_db;
  marked ←? mark_closure fuel the_db rp.1;
  let report := mkReport [] 0 0 rp.2 (go_dry_run opts) in
  r ← call (read_dir (store_root the_db));
  match r with
  | Err FeNotFound => mret (Ok report)
  | Err e => mret (Err (DeFs (lit "read_dir") (store_root the_db) e))
  | Ok entries =>
      rep ← fold_each entries (sweep_entry fuel the_db (go_dry_run opts) marked) report;
      mret (Ok (mkReport (merge_sort str_le (gr_collected rep)) (gr_kept rep) (gr_freed_bytes rep) (gr_pruned_roots rep) (gr_dry_run rep)))
  end.

Lemma mark_closure_spec fuel U X w : ok w -> tidy_refs (lk w) -> NoDup U -> (forall d, refs_of (lk w) d <> [] -> d ∈ U) ->
  (forall d, d ∈ X -> good_comp d) -> (work (lk w) U (in_order X) ∅ <= fuel)%nat ->
  wp (mark_closure fuel the_db X) (fun r w' => w' = w /\ exists M, r = Ok M /\
    forall d, d ∈ M <-> exists d0, d0 ∈ X /\ rtc (refers (lk w)) d0 d) w.
Proof.
  intros Hw Ht Hnd HU Hg Hf. unfold mark_closure, refs_dir. cbn [db_root the_db]. rewrite join_P by by apply good_child. fold p_refs.
  eapply wp_mono; [apply (mark_loop_spec U (in_order X)); [done..|]|].
  - split; [auto|set_solver| |].
    + intros d [?|Hd]; [set_solver|]. exists d. split; [done|constructor].
    + apply Forall_forall. intros d Hd%elem_of_in_order. auto.
  - intros r w' (-> & M & -> & HM). split; [done|]. exists M. split; [done|]. intros d. rewrite HM. by setoid_rewrite elem_of_in_order.
Qed.

(** The sweep, from the marks. *)
Lemma sweep_spec fuel M dry_run es rep w : ok w -> (0 < fuel)%nat -> (forall c, shallow (lk w) (p_store ++ [c]) fuel) -> NoDup es.*1 ->
  (forall c, c ∈ es.*1 <-> is_Some (lk w (p_store ++ [c]))) -> gr_collected rep = [] -> gr_kept rep = 0 ->
  wp (fold_each es (sweep_entry fuel the_db dry_run M) rep) (fun rep' w' => ok w' /\
    (forall c, c ∈ gr_collected rep' <-> is_Some (lk w (p_store ++ [c])) /\ dead M c) /\
    (forall c x, ~ dead M c \/ dry_run = true -> lk w' (p_store ++ c :: x) = lk w (p_store ++ c :: x)) /\
    (forall c, dead M c -> dry_run = false -> gone (p_store ++ [c]) (lk w')) /\
    (forall x, ~ (exists c y, x = p_store ++ c :: y) -> lk w' x = lk w x \/ (dropped M x /\ lk w' x = None))) w.
Proof.
  intros Hw Hf Hsh Hnd Hes Hcol Hkept. destruct dry_run.
  - eapply wp_mono; [apply (wp_fold_each es _ (fun todo rep' w' => w' = w /\ (exists done, es = done ++ todo) /\
      forall c, c ∈ gr_collected rep' <-> c ∈ es.*1 /\ (c ∉ todo.*1) /\ dead M c))|].
    + split; [done|]. split; [by exists []|]. intros c. rewrite Hcol. split; [by intros ?%elem_of_nil|]. by intros (? & ? & _).
    + intros [c kd] todo rep' w' (-> & [done Ed] & Hrep). eapply sweep_dry_spec; [done|done|done| |done|apply Hsh|eauto|done].
      apply Hes. by destruct (todo_head es done todo c kd Hnd Ed).
    + intros rep' w' (-> & _ & Hrep). split; [done|]. split; [|split; [done|split; [done|by left] ] ].
      intros c. rewrite Hrep, Hes. split; [tauto|]. intros []. split; [done|]. split; [apply not_elem_of_nil|done].
  - eapply wp_mono; [apply (wp_fold_each es _ (sweeping M (lk w) es))|].
    + split; [done|by exists []|done|done|by left| |].
      * intros c. rewrite Hcol. split; [by intros ?%elem_of_nil|]. by intros (? & ? & _).
      * rewrite Hcol, Hkept. cbn. lia.
    + intros [c kd] todo rep' w' Hs. destruct (sw_todo _ _ _ _ _ _ Hs) as [done Ed]. apply sweep_entry_spec; [done| |done|apply Hsh|done].
      apply Hes. by destruct (todo_head es done todo c kd Hnd Ed).
    + intros rep' w' [H1 _ H2 H3 H4 H5 _]. split; [done|]. split; [|split; [|split; [|done] ] ].
      * intros c. rewrite H5, Hes. split; [tauto|]. intros []. split; [done|]. split; [apply not_elem_of_nil|done].
      * intros c x [Hc|?]; [|done]. apply H3. by right; left.
      * intros c Hd _. destruct (decide (c ∈ es.*1)) as [Hin|Hout]; [apply H2; [done|apply not_elem_of_nil|done]|].
        assert (lk w (p_store ++ [c]) = None) as Hn by (destruct (lk w (p_store ++ [c])) eqn:E; [destruct Hout; apply Hes; by rewrite E|done]).
        intros x. rewrite <- app_assoc. cbn [app]. rewrite H3 by (by right; right). change (p_store ++ c :: x) with (p_store ++ [c] ++ x).
        rewrite app_assoc. by apply h_gone.
Qed.

Lemma refs_of_same f g : (forall x, ~ p_roots `prefix_of` x -> g x = f x) -> forall d, refs_of g d = refs_of f d.
Proof. intros Hs d. unfold refs_of. rewrite Hs; [done|]. unfold p_refs, p_db. rewrite <- app_assoc. by apply sibling_apart. Qed.

Lemma gc_body_spec fuel U opts w : ok w -> tidy (lk w) -> gc_fuel (lk w) U fuel ->
  wp (gc_body fuel opts) (fun r w' => ok w' /\ exists rep, r = Ok rep /\ collected (lk w) (go_dry_run opts) rep (lk w')) w.
Proof.
  intros Hw (Ht1 & Ht2 & Ht3 & Hst) (Hf & Hgen & Hdepth & Hnd & HU & Hwork). unfold gc_body. apply wp_try.
  eapply wp_mono; [by apply collect_roots_spec|]. intros r w1 (Hw1 & Hlp & X & n & -> & HX). cbn [fst snd].
  assert (forall x, ~ p_roots `prefix_of` x -> lk w1 x = lk w x) as Hsame by (intros x Hx; by eapply links_pruned_outside).
  pose proof (refs_of_same (lk w) (lk w1) Hsame) as Hrefs.
  assert (forall d r, refers (lk w1) d r <-> refers (lk w) d r) as Hrefers by (intros d r; unfold refers; by rewrite Hrefs).
  apply wp_try. eapply wp_mono; [apply (mark_closure_spec fuel U); [done| |done| | |]|].
  { intros d m Hm. apply (Ht1 d). rewrite <- Hm. symmetry. apply Hsame. unfold p_refs, p_db. rewrite <- app_assoc. by apply sibling_apart. }
  { intros d Hd. apply HU. by rewrite <- Hrefs. }
  { intros d Hd%HX. by eapply root_of_good. }
  { etrans; [|by apply Hwork]. unfold work. apply Nat.eq_le_incl. f_equal. clear -Hrefs. induction U as [|d U IH]; [done|]. cbn. by rewrite Hrefs, IH. }
  intros r w2 (-> & M & -> & HM).
  assert (forall d, d ∈ M <-> live (lk w) d) as HM'.
  { intros d. rewrite HM. unfold live. setoid_rewrite HX.
    assert (forall d0, rtc (refers (lk w1)) d0 d <-> rtc (refers (lk w)) d0 d) as Hr; [|by setoid_rewrite Hr].
    intros d0. split; intros Hrt; (eapply rtc_subrel; [|exact Hrt]); intros x y; apply Hrefers. }
  assert (forall c x, lk w1 (p_store ++ c :: x) = lk w (p_store ++ c :: x)) as Hstore by (intros c x; apply Hsame; by apply sibling_apart).
  assert (lk w1 p_store = lk w p_store) as Hs0.
  { apply Hsame. rewrite <- (app_nil_r p_store). by apply sibling_apart. }
  assert (forall x, ~ (exists c y, x = p_store ++ c :: y) -> lk w1 x = lk w x \/ disposable (lk w) x /\ lk w1 x = None) as Hout1.
  { intros x _. destruct (proj2 Hlp x) as [?|(c & -> & _ & Hd & ?)]; [by left|]. right. split; [|done]. left. eauto. }
  assert (forall x, dropped M x -> disposable (lk w) x) as Hdisp.
  { intros x [(c & d & Hd & Hc & Hx)|(c & Hd & ->)]; right; [left|right].
    - exists d. split; [|done]. intros Hl. apply (dead_iff _ _ _ HM') in Hd. apply Hd. by exists d.
    - exists c. split; [|done]. by apply (dead_iff _ _ _ HM'). }
  assert (forall c, ~ live_entry (lk w) c <-> dead M c) as Hdead by (intros c; symmetry; by apply dead_iff).
  apply wp_bind, wp_read_dir; [done|by apply good_child|]. rewrite Hs0. intros r Hes Hr. specialize (Hr HR).
  destruct Hst as [Hst|Hst]; rewrite Hst in Hr; [subst r|destruct r as [es|]; [|done] ].
  - assert (forall c x, lk w (p_store ++ c :: x) = None) as Hno.
    { intros c x. apply h_below; [done|by rewrite Hst|done]. }
    apply wp_ret. split; [done|]. eexists. split; [done|]. split; [|done| |done].
    + intros c. split; [by intros ?%elem_of_nil|]. intros [ [? Hs] _]. by rewrite Hno in Hs.
    + intros c _ _ x. rewrite <- app_assoc. cbn [app]. by rewrite Hstore.
  - destruct Hes as (_ & Hnd' & Hes). apply wp_bind. eapply wp_mono; [apply sweep_spec; [done|done| |done|done|done|done]|].
    { intros c x. rewrite <- app_assoc. cbn [app]. rewrite Hstore. intros Hx. apply (Hdepth c). by rewrite <- app_assoc. }
    intros rep w3 (Hw3 & R1 & R2 & R3 & R4). apply wp_ret. split; [done|]. eexists. split; [done|]. split.
    + intros c. cbn [gr_collected]. rewrite merge_sort_Permutation, R1, Hstore, Hdead. done.
    + intros c x Hc. rewrite R2, Hstore; [done|]. destruct Hc as [Hl|?]; [left|by right]. intros Hd. by apply Hdead in Hd.
    + intros c Hc. apply R3. by apply Hdead.
    + intros x Hx. destruct (R4 x Hx) as [->|[? ?] ]; [by apply Hout1|right; auto].
Qed.

(** ** The lock *)

(** The digest of a path is that of its last component. *)
Lemma digest_last cs c : SLASH ∉ c -> digest_from_store_path (P (cs ++ [c])) = store_entry_digest (default c (strip_suffix DRV c)).
Proof.
  intros Hc. destruct (P_last cs c) as [q ->]. unfold digest_from_store_path, last_part. by rewrite rsplit_slash_snoc.
Qed.

(** The tree while the lock file is there. *)
Section locked.
Context (f g : tree) (Hfree : f p_lock = None) (Hrest : forall x, x <> p_lock -> g x = f x).

Lemma locked_sibling (a : str) x : a <> lit "db" -> g ((sh ++ [a]) ++ x) = f ((sh ++ [a]) ++ x).
Proof.
  intros Ha. apply Hrest. unfold p_lock, p_db. rewrite <- !app_assoc. intros E%app_inv_head. by injection E.
Qed.

Lemma locked_below (a : str) x c : a <> lit "lock" -> g ((p_db ++ [a]) ++ x ++ [c]) = f ((p_db ++ [a]) ++ x ++ [c]).
Proof.
  intros Ha. apply Hrest. unfold p_lock. rewrite <- !app_assoc. intros E%app_inv_head. injection E as E _. done.
Qed.

Lemma locked_refs d : g (p_refs ++ [d]) = f (p_refs ++ [d]).
Proof. by apply (locked_below _ [] d). Qed.

Lemma locked_locks d : g (p_locks ++ [d]) = f (p_locks ++ [d]).
Proof. by apply (locked_below _ [] d). Qed.

Lemma locked_refs_of d : refs_of g d = refs_of f d.
Proof. unfold refs_of. by rewrite locked_refs. Qed.

Lemma locked_tidy : tidy f -> tidy g.
Proof.
  intros (H1 & H2 & H3 & H4). split; [|split; [|split] ].
  - intros d n. rewrite locked_refs. apply H1.
  - intros c t. unfold p_roots. rewrite locked_sibling by done. apply H2.
  - intros c data x. rewrite locked_locks. apply H3.
  - unfold p_store. rewrite <- (app_nil_r (sh ++ [_])), locked_sibling by done. by rewrite app_nil_r.
Qed.

Lemma locked_dangling c : dangling g c -> dangling f c.
Proof.
  intros (cs & Hg & Hc & Hcs). exists cs. split; [done|]. unfold p_roots in Hc |- *. rewrite locked_sibling in Hc by done. split; [done|].
  destruct (decide (cs = p_lock)) as [->|Hne]; [done|]. by rewrite <- Hrest.
Qed.

Lemma lock_not_entry : digest_from_store_path (P p_lock) = None.
Proof. unfold p_lock. by rewrite digest_last by by apply (bool_decide_unpack (SLASH ∉ lit "lock")). Qed.

Lemma locked_root d : root_of g d <-> root_of f d.
Proof.
  assert ((exists c, direct g c d) <-> exists c, direct f c d) as H1.
  { unfold direct, p_roots. setoid_rewrite locked_sibling; [|done..].
    assert (forall cs, digest_from_store_path (P cs) = Some d -> g cs = f cs) as Hsame.
    { intros cs Hd. apply Hrest. intros ->. by rewrite lock_not_entry in Hd. }
    split; intros (c & cs & Hg & Hc & Hs & Hd); exists c, cs; specialize (Hsame _ Hd); rewrite Hsame in *; done. }
  assert (indirect g d <-> indirect f d) as H2 by (unfold indirect; by setoid_rewrite locked_locks).
  assert (found (P p_store ++ [SLASH]) g p_gen d <-> found (P p_store ++ [SLASH]) f p_gen d) as H3
    by (unfold found, p_gen; by setoid_rewrite locked_sibling).
  unfold root_of. tauto.
Qed.

Lemma locked_live d : live g d <-> live f d.
Proof.
  assert (forall a b, refers g a b <-> refers f a b) as Hr by (intros a b; unfold refers; by rewrite locked_refs_of).
  unfold live. setoid_rewrite locked_root. split; intros (d0 & ? & Hrt); exists d0; (split; [done|]);
    (eapply rtc_subrel; [|exact Hrt]); intros x y; apply Hr.
Qed.

Lemma locked_entry c : live_entry g c <-> live_entry f c.
Proof. unfold live_entry. by setoid_rewrite locked_live. Qed.

Lemma locked_disposable x : disposable g x -> disposable f x.
Proof.
  intros [(c & -> & Hd)|[(d & Hd & Hx)|(c & Hc & ->)] ].
  - left. exists c. split; [done|]. by apply locked_dangling.
  - right. left. exists d. by rewrite <- locked_live.
  - right. right. exists c. by rewrite <- locked_entry.
Qed.

Lemma locked_fuel U fuel : gc_fuel f U fuel -> gc_fuel g U fuel.
Proof.
  intros (Hf & H1 & H2 & H3 & H4 & H5). split; [done|]. split; [|split; [|split; [done|split] ] ].
  - intros x. unfold p_gen. rewrite locked_sibling by done. apply H1.
  - intros c x. unfold p_store. rewrite <- (app_assoc (sh ++ [_])), locked_sibling, app_assoc by done. apply H2.
  - intros d. rewrite locked_refs_of. apply H4.
  - intros X HX. etrans; [|apply (H5 X); intros d; by rewrite HX, locked_root]. unfold work. apply Nat.eq_le_incl. f_equal.
    clear -Hrest. induction U as [|d U IH]; [done|]. cbn. by rewrite locked_refs_of, IH.
Qed.

(** What is collected under the lock is what is collected without it. *)
Lemma locked_collected dry_run rep h h' : removes p_lock h h' -> collected g dry_run rep h -> collected f dry_run rep h'.
Proof.
  intros Hrm [H1 H2 H3 H4].
  assert (forall c x, h' (p_store ++ c :: x) = h (p_store ++ c :: x)) as Hs.
  { intros c x. rewrite Hrm, decide_False; [done|]. unfold p_store, p_lock, p_db. rewrite <- !app_assoc. intros E%app_inv_head. by injection E. }
  split.
  - intros c. unfold p_store. rewrite <- (app_nil_r (sh ++ [_])), <- (app_assoc (sh ++ _)), <- locked_sibling, <- locked_entry by done.
    rewrite app_assoc, app_nil_r. apply H1.
  - intros c x Hc. rewrite Hs, H2; [by apply locked_sibling|]. by rewrite locked_entry.
  - intros c Hc Hd x. rewrite <- app_assoc. cbn [app]. rewrite Hs. specialize (H3 c ltac:(by rewrite locked_entry) Hd x).
    by rewrite <- app_assoc in H3.
  - intros x Hx. rewrite Hrm. case_decide as E; [subst; by left|]. rewrite <- Hrest by done.
    destruct (H4 x Hx) as [?|[? ?] ]; [by left|right]. split; [by apply locked_disposable|done].
Qed.

End locked.

(** An operation under the lock, when nobody holds it. *)
Lemma with_lock_spec {A} clock fuel (m : FsM S (result A DbError)) (R : tree -> result A DbError -> tree -> Prop) w :
  ok w -> lk w p_db = Some MDir -> lk w p_lock = None -> (0 < fuel)%nat ->
  (forall w1, ok w1 -> (forall x, x <> p_lock -> lk w1 x = lk w x) -> wp m (fun r w' => ok w' /\ lk w' p_lock = lk w1 p_lock /\ R (lk w1) r (lk w')) w1) ->
  wp (with_lock clock fuel the_db m) (fun r w' => ok w' /\ exists g h, (forall x, x <> p_lock -> g x = lk w x) /\ R g r h /\ removes p_lock h (lk w')) w.
Proof.
  intros Hw Hdb Hlock Hf Hm. assert (good p_lock) as Hgl by (apply good_child; [apply good_child|]; done).
  unfold with_lock, acquire_lock, lock_file. cbn [db_root the_db]. rewrite join_P by by apply good_child. fold p_lock.
  apply wp_try, wp_try, wp_db_op, create_dir_all_same; [done|done|]. intros r w1 Hw1 Hs1 Hr. rewrite (Hr HR).
  destruct fuel as [|fuel]; [lia|]. cbn [lock_loop]. apply wp_bind, wp_call.
  pose proof (h_token (w_fs w1) Hw1) as [Hw2 Hs2]. destruct (unique_token (w_fs w1)) as [t s2]. cbn [fst snd] in *.
  apply wp_bind, wp_create; [done|done|]. cbn [w_fs]. intros r3 w3 Hw3 [Hr3 _] Hrel.
  assert (r3 = Ok tt) as ->.
  { apply Hrel; [done|]. split; [by rewrite Hs2, Hs1|]. exists p_db, (lit "lock"). split; [done|]. by rewrite Hs2, Hs1. }
  destruct Hr3 as [_ Hr3]. apply wp_ret. apply wp_bind. eapply wp_mono; [apply Hm; [done|]|].
  { intros x Hx. rewrite Hr3, decide_False by done. by rewrite Hs2, Hs1. }
  intros r4 w4 (Hw4 & Hd & HR4). apply wp_bind, wp_unlink; [done|done|]. intros r5 w5 Hw5 [Hr5 _] Hrel5. specialize (Hrel5 HR).
  rewrite Hd, Hr3, decide_True in Hrel5 by done. rewrite Hrel5 in Hr5 by done. apply wp_ret. split; [done|].
  exists (lk w3), (lk w4). split; [|split; [done|apply Hr5] ]. intros x Hx. rewrite Hr3, decide_False by done. by rewrite Hs2, Hs1.
Qed.

Lemma lock_not_disposable f : ~ disposable f p_lock.
Proof.
  unfold disposable, p_lock, p_refs, p_valid, p_db, p_roots, p_log. setoid_rewrite <- app_assoc.
  intros [(c & E & _)|[(d & _ & [E|E])|(c & _ & E)] ]; rewrite <- ?app_assoc in E; apply app_inv_head in E; discriminate.
Qed.

Lemma gc_fuel_more f U k fuel : gc_fuel f U k -> (k <= fuel)%nat -> gc_fuel f U fuel.
Proof.
  intros (Hf & H1 & H2 & H3 & H4 & H5) Hk. split; [lia|]. split; [intros x Hx; specialize (H1 x Hx); lia|].
  split; [intros c x Hx; specialize (H2 c x Hx); lia|]. split; [done|]. split; [done|]. intros X HX. specialize (H5 X HX). lia.
Qed.

(** There is enough fuel for every tree. *)
Lemma gc_fuel_exists w : ok w -> tidy (lk w) -> exists U k, gc_fuel (lk w) U k.
Proof.
  intros Hw (_ & Ht & _). pose (k := Datatypes.S (fs_depth (w_fs w))).
  assert (forall cs, shallow (lk w) cs k) as Hsh by (intros cs; by apply shallow_depth).
  pose proof (collect_roots_spec k w Hw Ht ltac:(unfold k; lia) (Hsh _)) as Hc. unfold wp in Hc.
  destruct (collect_roots k the_db w) as [ [r w']|]; [|done]. destruct Hc as (_ & _ & X & n & _ & HX).
  pose (U := remove_dups (omap last (fs_paths (w_fs w)))). exists U, (k + work (lk w) U (in_order X) ∅)%nat.
  split; [unfold k; lia|]. split; [intros x Hx; specialize (Hsh _ x Hx); lia|]. split; [intros c x Hx; specialize (Hsh _ x Hx); lia|].
  split; [apply NoDup_remove_dups|]. split.
  - intros d Hd. apply elem_of_remove_dups, list_elem_of_omap. exists (p_refs ++ [d]). split; [|by rewrite last_snoc].
    apply h_paths; [done|]. unfold refs_of in Hd. by destruct (lk w (p_refs ++ [d])).
  - intros Y HY. assert (Y = X) as ->; [|lia]. apply set_eq. intros d. by rewrite HX, HY.
Qed.

(** What [gc] does to the tree [f]. *)
Definition gc_outcome (f : tree) (opts : GcOptions) (r : result GcReport DbError) (g : tree) : Prop :=
  if bool_decide (go_force opts = false) then
    (forall c, f (p_locks ++ [c]) = None) /\ (exists rep, r = Ok rep /\ collected f (go_dry_run opts) rep g) \/
    (exists c, is_Some (f (p_locks ++ [c]))) /\ (exists m, r = Err (DeBusy m)) /\ same_tree f g
  else exists rep, r = Ok rep /\ collected f (go_dry_run opts) rep g.

Lemma locked_outcome f g opts r h h' : f p_lock = None -> (forall x, x <> p_lock -> g x = f x) -> removes p_lock h h' ->
  gc_outcome g opts r h -> gc_outcome f opts r h'.
Proof.
  intros Hf Hg Hrm. unfold gc_outcome.
  assert ((exists rep, r = Ok rep /\ collected g (go_dry_run opts) rep h) -> exists rep, r = Ok rep /\ collected f (go_dry_run opts) rep h') as Hc.
  { intros (rep & -> & Hc). exists rep. split; [done|]. by eapply locked_collected. }
  case_bool_decide; [|done]. pose proof (locked_locks f g Hg) as Hl. intros [ [Hn ?]|[ [c Hs] [? Hsame] ] ]; [left|right].
  - split; [|auto]. intros c. by rewrite <- Hl.
  - split; [exists c; by rewrite <- Hl|]. split; [done|]. intros x. rewrite Hrm. case_decide; [by subst|]. by rewrite Hsame, Hg.
Qed.

Lemma gc_spec clock opts w : ok w -> lk w p_db = Some MDir -> lk w p_lock = None -> tidy (lk w) ->
  exists k, forall fuel, (k <= fuel)%nat ->
    wp (gc clock fuel the_db opts) (fun r w' => ok w' /\ gc_outcome (lk w) opts r (lk w')) w.
Proof.
  intros Hw Hdb Hlock Ht. destruct (gc_fuel_exists w Hw Ht) as (U & k & Hk). exists k. intros fuel Hf. pose proof (gc_fuel_more _ _ _ _ Hk Hf) as Hfuel.
  eapply wp_mono; [apply (with_lock_spec clock fuel _ (fun g r h => gc_outcome g opts r h)); [done..|apply Hfuel|]|].
  - intros w1 Hw1 Hs1. apply wp_bind. unfold builds_in_flight, locks_dir. cbn [db_root the_db]. rewrite join_P by by apply good_child. fold p_locks.
    apply wp_bind, wp_read_dir; [done|apply good_child; [by apply good_child|done]|]. intros rd Hes Hrd. specialize (Hrd HR). apply wp_ret.
    set (n := match rd with Ok v => length v | Err _ => 0%nat end).
    assert (n = 0%nat -> forall c, lk w1 (p_locks ++ [c]) = None) as Hz.
    { intros Hn c. destruct rd as [es|e].
      - apply eq_None_not_Some. intros Hin%Hes. apply nil_length_inv in Hn as ->. by apply elem_of_nil in Hin.
      - apply h_below; [done| |done]. intros E. by rewrite E in Hrd. }
    assert (n <> 0%nat -> exists c, is_Some (lk w1 (p_locks ++ [c]))) as Hnz.
    { destruct rd as [ [|[c kd] es]|e]; [done| |done]. intros _. exists c. apply Hes. by left. }
    destruct (_ && _) eqn:Eb.
    + apply andb_true_iff in Eb as [Hn Hforce]. apply Nat.ltb_lt in Hn. apply negb_true_iff in Hforce. apply wp_ret.
      split; [done|]. split; [done|]. unfold gc_outcome. rewrite bool_decide_eq_true_2 by done. right.
      split; [apply Hnz; lia|]. split; [by eexists|by intros x].
    + fold (gc_body fuel opts). eapply wp_mono; [apply (gc_body_spec fuel U); [done|by eapply locked_tidy|by eapply locked_fuel]|].
      intros r w2 (Hw2 & rep & -> & Hc). split; [done|]. split.
      * destruct (co_outside _ _ _ _ Hc p_lock) as [?|[ []%lock_not_disposable _] ]; [|done].
        intros (c & y & E). revert E. unfold p_lock, p_db, p_store. rewrite <- !app_assoc. intros E%app_inv_head. discriminate.
      * unfold gc_outcome. case_bool_decide as Hfo; [left|eauto]. split; [|eauto]. apply Hz. rewrite Hfo in Eb. clear -Eb. by destruct n.
  - intros r w' (Hw' & g & h & Hg & Hout & Hrm). split; [done|]. by eapply locked_outcome.
Qed.

(** C0. With enough fuel the collector returns.  Unless a build is in flight
    and [force] is off, in which case it reports that and changes nothing, it
    reports and removes exactly the store entries that are not reachable from
    a root through the recorded references; the reachable entries keep their
    whole tree, and nothing else changes but dangling roots and the records
    and logs of what is collected.  A dry run leaves the store as it was. *)
Theorem gc_exact clock opts w : ok w -> lk w p_db = Some MDir -> lk w p_lock = None -> tidy (lk w) ->
  exists k, forall fuel, (k <= fuel)%nat ->
    wp (gc clock fuel (with_backend (P sh)) opts) (fun r w' => ok w' /\ gc_outcome (lk w) opts r (lk w')) w.
Proof. rewrite with_backend_P. apply gc_spec. Qed.

End gc.
