(* ===== verification/StoreReg.v ===== *)
(** * Registration

    [write_atomic] and [register] on a reliable backend: the references
    recorded for a store path are the digests embedded in it and the declared
    ones, and the records read back as they were written. *)

From stdpp Require Import sorting.
From S2P Require Import Prelude Paths Text Cdf StoreFs StoreLaws StoreRun Store StoreDb StoreGc.

#[local] Open Scope Z_scope.
#[local] Open Scope store_scope.

(** ** Records *)

(** A line of a record. *)
Definition line (s : str) : Prop := utf8_valid s = true /\ (LF ∉ s) /\ last s <> Some 13.

Lemma serialize_unlines r : serialize r = unlines [DB_RECORD_VERSION; lit "cdf-hash" ++ EQUALS :: vr_cdf_hash r;
  lit "deriver" ++ EQUALS :: vr_deriver r; lit "name" ++ EQUALS :: vr_name r; lit "registered" ++ EQUALS :: dec (vr_registered r)].
Proof. unfold serialize, unlines. cbn [fmap list_fmap concat]. rewrite <- !app_assoc, app_nil_r. done. Qed.

Lemma line_field key s : line key -> line s -> line (key ++ EQUALS :: s).
Proof.
  intros (Hu1 & Hl1 & _) (Hu2 & Hl2 & Hc2). split; [|split].
  - change (key ++ EQUALS :: s) with (key ++ [EQUALS] ++ s). by repeat apply utf8_valid_app.
  - rewrite elem_of_app, elem_of_cons. intros [?|[?|?] ]; done.
  - destruct s as [|x s _] using rev_ind; [by rewrite last_snoc|]. rewrite app_comm_cons, app_assoc, last_snoc. by rewrite last_snoc in Hc2.
Qed.

Lemma line_digits n : in_u 64 n -> line (dec n).
Proof.
  intros Hn. pose proof (dec_digits_digit 20 n ltac:(unfold in_u in Hn; lia)) as Hd. fold (dec n) in Hd. split; [|split].
  - apply utf8_ascii. eapply Forall_impl; [exact Hd|]. unfold digit. intros b Hb. cbn in Hb. lia.
  - intros Hin. rewrite Forall_forall in Hd. apply Hd in Hin. by destruct Hin.
  - intros Hl. apply last_Some_elem_of in Hl. rewrite Forall_forall in Hd. apply Hd in Hl. by destruct Hl.
Qed.

(** A name that is written out. *)
Lemma line_lit s : bool_decide (utf8_valid s = true /\ (LF ∉ s) /\ last s <> Some 13) = true -> line s.
Proof. by intros ?%bool_decide_eq_true. Qed.

Lemma unlines_valid l : Forall line l -> utf8_valid (unlines l) = true /\ lines (unlines l) = l.
Proof.
  intros Hl. split.
  - induction Hl as [|x l (Hu & _) _ IH]; [done|]. unfold unlines. cbn [fmap list_fmap concat]. by apply utf8_valid_app; [apply utf8_valid_app|].
  - apply lines_unlines. eapply Forall_impl; [exact Hl|]. by intros x (_ & ? & ?).
Qed.

(** The fields of a record, one at a time. *)
#[local] Ltac parse_field k := cbn [parse_fields]; rewrite split_once_app by (by apply (bool_decide_unpack (EQUALS ∉ lit k))); cbn beta iota;
  repeat rewrite bool_decide_eq_false_2 by (by apply (bool_decide_unpack (_ <> _))); rewrite bool_decide_eq_true_2 by done.

Lemma parse_cdf_hash v ls r : parse_fields ((lit "cdf-hash" ++ EQUALS :: v) :: ls) r =
  parse_fields ls (mkRecord (vr_digest r) v (vr_registered r) (vr_deriver r) (vr_name r) (vr_refs r)).
Proof. by parse_field "cdf-hash"%string. Qed.

Lemma parse_deriver v ls r : parse_fields ((lit "deriver" ++ EQUALS :: v) :: ls) r =
  parse_fields ls (mkRecord (vr_digest r) (vr_cdf_hash r) (vr_registered r) v (vr_name r) (vr_refs r)).
Proof. by parse_field "deriver"%string. Qed.

Lemma parse_name v ls r : parse_fields ((lit "name" ++ EQUALS :: v) :: ls) r =
  parse_fields ls (mkRecord (vr_digest r) (vr_cdf_hash r) (vr_registered r) (vr_deriver r) v (vr_refs r)).
Proof. by parse_field "name"%string. Qed.

Lemma parse_registered n ls r : in_u 64 n -> parse_fields ((lit "registered" ++ EQUALS :: dec n) :: ls) r =
  parse_fields ls (mkRecord (vr_digest r) (vr_cdf_hash r) n (vr_deriver r) (vr_name r) (vr_refs r)).
Proof. intros Hn. parse_field "registered"%string. by rewrite parse_dec. Qed.

(** A record reads back as it was written; its references are in a file of
    their own. *)
Lemma parse_serialize r : line (vr_cdf_hash r) -> line (vr_deriver r) -> line (vr_name r) -> in_u 64 (vr_registered r) ->
  parse_record (vr_digest r) (utf8_lossy (serialize r)) =
    Some (mkRecord (vr_digest r) (vr_cdf_hash r) (vr_registered r) (vr_deriver r) (vr_name r) []).
Proof.
  intros H1 H2 H3 Hn. rewrite serialize_unlines.
  match goal with |- context [unlines ?l] => assert (Forall line l) as Hl end.
  { repeat apply Forall_cons_2; [by apply line_lit|by apply line_field; [apply line_lit|]..| |by apply Forall_nil_2].
    apply line_field; [by apply line_lit|by apply line_digits]. }
  apply unlines_valid in Hl as [Hu Hl]. rewrite utf8_lossy_valid by done. unfold parse_record. rewrite Hl.
  rewrite bool_decide_eq_true_2 by done. rewrite parse_cdf_hash, parse_deriver, parse_name, parse_registered by done. done.
Qed.

(** The references read back. *)
Lemma record_lines_unlines l : Forall (fun d => line d /\ d <> []) l -> record_lines (unlines l) = l.
Proof.
  intros Hl. unfold record_lines. destruct (unlines_valid l) as [Hu Hli]; [eapply Forall_impl; [exact Hl|]; by intros ? []|].
  rewrite utf8_lossy_valid, Hli by done. clear -Hl. induction Hl as [|x l [_ Hx] _ IH]; [done|]. cbn [List.filter].
  destruct x; [done|]. cbn. by rewrite IH.
Qed.

Section register.
Context {S : Type} {F : StoreFs S} {HH : Honest S} {HR : Reliable S}.
Implicit Types w : World S.

#[local] Abbreviation ok w := (fs_ok (w_fs w)).
#[local] Abbreviation lk w := (look (w_fs w)).

(** ** [write_atomic] *)

(** The file [c] of the directory [ds], written. *)
Definition wrote (ds : path) (c : str) (bytes : list Z) (f g : tree) : Prop :=
  forall x, g x = if decide (x = ds ++ [c]) then Some (MFile bytes false) else if decide (x = ds) then Some MDir else f x.

(** A directory, or room for one. *)
Definition dir_room (f : tree) (ds : path) : Prop := f ds = Some MDir \/ (f ds = None /\ has_parent f ds).

Lemma create_dir_room ds Q w : ok w -> good ds -> dir_room (lk w) ds ->
  (forall w', ok w' -> (forall x, lk w' x = if decide (x = ds) then Some MDir else lk w x) -> Q (Ok tt) w') -> wp (create_dir_all (P ds)) Q w.
Proof.
  intros Hw Hg [Hd|[Hn Hp] ] HQ.
  - apply create_dir_all_same; [done|done|]. intros r w' Hw' Hs Hr. rewrite Hr by done. apply HQ; [done|].
    intros x. rewrite Hs. case_decide; [by subst|done].
  - apply create_dir_all_new; [done|done|done|done|]. intros r w' Hw' Hd Hs Hr. specialize (Hr HR) as ->. apply HQ; [done|].
    intros x. case_decide; [subst; by apply Hd|by apply Hs].
Qed.

(** Moving the temporary file in place. *)
Lemma rename_in_place ds t c bytes f w Q : ok w -> good (ds ++ [c]) -> good_comp t -> t <> c -> lk w ds = Some MDir -> lk w (ds ++ [c]) = None ->
  creates (ds ++ [t]) (MFile bytes false) f (lk w) ->
  (forall w', ok w' -> (forall x, lk w' x = if decide (x = ds ++ [c]) then Some (MFile bytes false) else f x) -> Q (Ok tt) w') ->
  wp (call (rename (P (ds ++ [t])) (P (ds ++ [c])))) Q w.
Proof.
  intros Hw Hg Hgt Htc Hds Hno [Hft Hcr] HQ. apply wp_rename; [done|by apply good_snoc; split; [apply (good_snoc ds c)|]|done|by apply prefix_apart|].
  assert (lk w (ds ++ [t]) = Some (MFile bytes false)) as Ht by by rewrite Hcr, decide_True.
  intros r w' Hw' Hr Hrel. specialize (Hrel HR). rewrite Ht, Hno in Hrel.
  rewrite (Hrel ltac:(done) ltac:(by exists ds, c)) in Hr |- *.
  destruct Hr as (_ & _ & Hto & Hfrom & Helse). apply HQ; [done|]. intros x. case_decide as E.
  - subst x. specialize (Hto []). by rewrite !app_nil_r, Ht in Hto.
  - destruct (decide (x = ds ++ [t])) as [->|Hxt]; [rewrite Hft; by specialize (Hfrom []); rewrite app_nil_r in Hfrom|].
    destruct (decide (ds ++ [c] `prefix_of` x)) as [ [y ->]|Hxc].
    { rewrite Hto. destruct y as [|z y]; [by rewrite app_nil_r in E|]. rewrite h_below; [|done|by rewrite Ht|done].
      specialize (Hcr ((ds ++ [c]) ++ z :: y)). rewrite decide_False in Hcr by done. rewrite <- Hcr. symmetry. apply h_gone; [done|done]. }
    destruct (decide (ds ++ [t] `prefix_of` x)) as [ [y ->]|Hxt2]; [|rewrite Helse, Hcr, decide_False by done; done].
    rewrite Hfrom. destruct y as [|z y]; [by rewrite app_nil_r in Hxt|].
    specialize (Hcr ((ds ++ [t]) ++ z :: y)). rewrite decide_False in Hcr by done. rewrite <- Hcr. symmetry.
    apply h_below; [done|by rewrite Ht|done].
Qed.

Lemma write_atomic_spec ds c bytes w : ok w -> good (ds ++ [c]) -> dir_room (lk w) ds -> no_temp ds (lk w) -> ~ is_temp c ->
  (forall n, lk w (ds ++ [c]) = Some n -> leaf n = true) ->
  wp (write_atomic (P (ds ++ [c])) bytes) (fun r w' => ok w' /\ r = Ok tt /\ wrote ds c bytes (lk w) (lk w')) w.
Proof.
  intros Hw Hg Hroom Hnt Hc Hleaf. pose proof (proj1 (good_snoc _ _) Hg) as [Hgd [_ Hcs] ]. unfold write_atomic. rewrite split_parent_P by done.
  apply wp_try, wp_db_op, create_dir_room; [done..|]. intros w1 Hw1 Hs1. cbn [map_err].
  apply wp_bind, temp_sibling_spec; [done|done|done|by apply (bool_decide_unpack (SLASH ∉ lit "db"))|].
  intros t w2 Hw2 Hs2 Hgt Ht. assert (t <> c) as Htc by (intros ->; done).
  assert (forall d : str, ds ++ [d] <> ds) as Hlong by (intros d E%(f_equal length); rewrite length_app in E; cbn in E; lia).
  assert (forall x, lk w2 x = if decide (x = ds) then Some MDir else lk w x) as Hs by (intros x; by rewrite Hs2, Hs1).
  apply wp_try, wp_db_op, wp_write; [done|by apply good_snoc|]. intros r w3 Hw3 Hr Hrel.
  assert (r = Ok tt) as ->.
  { apply Hrel; [done|]. split; [rewrite Hs, decide_False by done; specialize (Hnt t Ht []); by rewrite app_nil_r in Hnt|].
    exists ds, t. by rewrite Hs, decide_True. }
  cbn [map_err is_ok] in *. destruct Hr as [Hr0 Hr]. assert (lk w3 ds = Some MDir) as Hd3 by by rewrite Hr, decide_False, Hs, decide_True.
  assert (lk w3 (ds ++ [c]) = lk w (ds ++ [c])) as Hc3 by by rewrite Hr, decide_False, Hs, decide_False by (intros E; by (apply Hlong in E || (apply app_inj_tail in E as [_ E]; by subst))).
  assert (forall w4, ok w4 -> (forall x, lk w4 x = if decide (x = ds ++ [c]) then Some (MFile bytes false) else lk w2 x) ->
    wp (_ ← call (sync_dir (P ds)); mret (Ok tt)) (fun (r : result unit DbError) w' => ok w' /\ r = Ok tt /\ wrote ds c bytes (lk w) (lk w')) w4) as Hdone.
  { intros w4 Hw4 Hs4. apply wp_bind, wp_sync; [done|]. intros r5 w5 Hw5 Hs5. apply wp_ret. split; [done|]. split; [done|].
    intros x. by rewrite Hs5, Hs4, Hs. }
  apply wp_bind. destruct (lk w (ds ++ [c])) as [n|] eqn:En.
  - apply wp_rename; [done|by apply good_snoc|done|by apply prefix_apart|]. intros r4 w4 Hw4 Hr4 Hrel4. specialize (Hrel4 HR).
    rewrite Hc3, Hr, decide_True in Hrel4 by done. rewrite Hrel4 in Hr4 |- * by done. cbn in Hr4.
    apply wp_try, wp_db_op, wp_unlink; [done|done|]. intros r5 w5 Hw5 [Hr5 _] Hrel5. specialize (Hrel5 HR). rewrite Hr4, Hc3 in Hrel5.
    rewrite Hrel5 in Hr5 |- * by by apply Hleaf. destruct Hr5 as [_ Hr5]. cbn [map_err]. apply wp_bind.
    apply (rename_in_place ds t c bytes (fun x => if decide (x = ds ++ [c]) then None else lk w2 x)); [done..| | | |].
    + by rewrite Hr5, decide_False, Hr4.
    + by rewrite Hr5, decide_True.
    + split; [by rewrite Hr0; case_decide|]. intros x. rewrite Hr5, Hr4, Hr. case_decide as Ec; case_decide as Et; try done. subst x. by apply app_inj_tail in Et as [_ <-].
    + intros w6 Hw6 Hs6. apply Hdone; [done|]. intros x. rewrite Hs6. by case_decide.
  - apply (rename_in_place ds t c bytes (lk w2)); [done..|]. intros w4 Hw4 Hs4. by apply Hdone.
Qed.

(** ** [register] *)

Context (sh : path) (good_sh : good sh) (Hscan : scan_ok (P (p_store sh) ++ [SLASH])).

Lemma elem_of_declared declared X d : d ∈ declared_digests declared X <-> d ∈ X \/ exists p, p ∈ declared /\ digest_from_store_path p = Some d.
Proof.
  revert X. induction declared as [|p declared IH]; intros X; [cbn; split; [auto|]; intros [?|(p & ?%elem_of_nil & _)]; done|].
  unfold declared_digests in *. cbn [foldl]. rewrite IH.
  assert ((exists q, q ∈ p :: declared /\ digest_from_store_path q = Some d) <->
    digest_from_store_path p = Some d \/ exists q, q ∈ declared /\ digest_from_store_path q = Some d) as ->.
  { split; [intros (q & [->|?]%elem_of_cons & ?); eauto|]. intros [?|(q & ? & ?)]; [exists p|exists q]; (split; [apply elem_of_cons; auto|done]). }
  destruct (digest_from_store_path p) as [dg|]; [rewrite elem_of_union, elem_of_singleton|].
  - assert (Some dg = Some d <-> d = dg) as -> by (split; congruence). tauto.
  - assert (None = Some d <-> False) as -> by done. tauto.
Qed.

(** The tree [g] has the records of [rec], and is otherwise [f]. *)
Record registered (f : tree) (rec : ValidRecord) (g : tree) : Prop := {
  rg_refs : refs_of sh g (vr_digest rec) = vr_refs rec;
  rg_valid : exists data, g (p_valid sh ++ [vr_digest rec]) = Some (MFile data false) /\
    parse_record (vr_digest rec) (utf8_lossy data) =
      Some (mkRecord (vr_digest rec) (vr_cdf_hash rec) (vr_registered rec) (vr_deriver rec) (vr_name rec) []);
  rg_rest : forall x, x <> p_refs sh -> x <> p_refs sh ++ [vr_digest rec] -> x <> p_valid sh -> x <> p_valid sh ++ [vr_digest rec] -> g x = f x
}.

(** Room for the records of [digest]. *)
Definition record_room (f : tree) (digest : str) : Prop :=
  forall ds, ds = p_refs sh \/ ds = p_valid sh -> dir_room f ds /\ no_temp ds f /\ forall n, f (ds ++ [digest]) = Some n -> leaf n = true.

Lemma base32_symbol_range b : base32_symbol b -> 48 <= b < 128.
Proof.
  unfold base32_symbol. assert (Forall (fun b => 48 <= b < 128) BASE32_ALPHABET) as Hall.
  { apply (bool_decide_unpack (Forall (fun b => 48 <= b < 128) BASE32_ALPHABET)). by vm_compute. }
  rewrite Forall_forall in Hall. apply Hall.
Qed.

Lemma digest_line d : digest_like d -> line d /\ d <> [].
Proof.
  intros [Hl Hs]. rewrite Forall_forall in Hs. split; [|by destruct d]. split; [|split].
  - apply utf8_ascii, Forall_forall. intros b Hb. apply Hs, base32_symbol_range in Hb. lia.
  - intros Hb. apply Hs, base32_symbol_range in Hb. unfold LF in Hb. lia.
  - intros Hb%last_Some_elem_of. apply Hs, base32_symbol_range in Hb. unfold LF in Hb. lia.
Qed.

Lemma digest_not_temp d : digest_like d -> ~ is_temp d.
Proof.
  intros [Hl Hs]. apply plain_not_temp'. destruct d as [|b d]; [done|]. apply Forall_cons in Hs as [Hb _]. apply base32_symbol_facts in Hb. apply Hb.
Qed.

Lemma write_records_spec rec w : ok w -> digest_like (vr_digest rec) -> record_room (lk w) (vr_digest rec) -> Forall digest_like (vr_refs rec) ->
  line (vr_cdf_hash rec) -> line (vr_deriver rec) -> line (vr_name rec) -> in_u 64 (vr_registered rec) ->
  wp (u ←? write_atomic (P (p_refs sh ++ [vr_digest rec])) (unlines (vr_refs rec));
      u ←? write_atomic (P (p_valid sh ++ [vr_digest rec])) (serialize rec); mret (Ok rec))
    (fun r w' => ok w' /\ r = Ok rec /\ registered (lk w) rec (lk w')) w.
Proof.
  intros Hw Hd Hroom Hrefs H1 H2 H3 H4. pose proof (digest_like_comp _ Hd) as Hgd. pose proof (digest_not_temp _ Hd) as Hnt.
  destruct (Hroom _ (or_introl eq_refl)) as (Hr1 & Hr2 & Hr3). destruct (Hroom _ (or_intror eq_refl)) as (Hv1 & Hv2 & Hv3).
  assert (good (p_refs sh) /\ good (p_valid sh)) as [Hg1 Hg2] by (split; (apply good_child; [by apply good_child|done])).
  set (d := vr_digest rec) in *.
  assert (forall x, p_valid sh ++ x <> p_refs sh /\ p_valid sh ++ x <> p_refs sh ++ [d]) as Hap.
  { intros x. unfold p_valid, p_refs. rewrite <- !app_assoc. split; intros E%app_inv_head; discriminate. }
  apply wp_try. eapply wp_mono; [apply write_atomic_spec; [done|by apply good_snoc|done..]|]. intros r w1 (Hw1 & -> & Hs1).
  assert (forall x, lk w1 (p_valid sh ++ x) = lk w (p_valid sh ++ x)) as Hv by (intros x; rewrite Hs1, !decide_False; [done|apply Hap..]).
  pose proof (Hv []) as Hv0. rewrite app_nil_r in Hv0.
  apply wp_try. eapply wp_mono; [apply write_atomic_spec; [done|by apply good_snoc| | |done|]|].
  { destruct Hv1 as [Hv1|[Hv1 (ds & c & E & Hp)] ]; [left; congruence|]. right. split; [congruence|]. exists ds, c. split; [done|].
    apply app_inj_tail in E as [<- <-]. rewrite Hs1, !decide_False; [done| |].
    - intros E. apply (f_equal length) in E. unfold p_refs in E. rewrite !length_app in E. cbn in E. lia.
    - intros E. apply (f_equal length) in E. unfold p_refs in E. rewrite !length_app in E. cbn in E. lia. }
  { intros t Ht x. rewrite <- app_assoc, Hv, app_assoc. by apply Hv2. }
  { intros n. rewrite Hv. apply Hv3. }
  intros r w2 (Hw2 & -> & Hs2). apply wp_ret. split; [done|]. split; [done|]. split.
  - unfold refs_of. rewrite Hs2, !decide_False, Hs1, decide_True; [|done|..].
    + apply record_lines_unlines. eapply Forall_impl; [exact Hrefs|]. apply digest_line.
    + intros E. by destruct (Hap []) as [_ []]; rewrite app_nil_r.
    + intros E. by destruct (Hap [d]) as [_ []].
  - eexists. split; [by rewrite Hs2, decide_True|]. by apply parse_serialize.
  - intros x Hx1 Hx2 Hx3 Hx4. by rewrite Hs2, !decide_False, Hs1, !decide_False.
Qed.

(** The lock file does not matter to the records. *)
Lemma locked_room f g digest : (forall x, x <> p_lock sh -> g x = f x) -> record_room f digest -> record_room g digest.
Proof.
  intros Hg Hroom ds Hds. destruct (Hroom ds Hds) as (H1 & H2 & H3).
  assert (exists a, ds = p_db sh ++ [a] /\ a <> lit "lock") as (a & Ea & Ha) by (destruct Hds as [->| ->]; by eexists).
  assert (forall x, g (ds ++ x) = f (ds ++ x)) as Hs.
  { intros x. apply Hg. subst ds. unfold p_lock. rewrite <- app_assoc. intros E%app_inv_head. injection E as E _. done. }
  pose proof (Hs []) as Hs0. rewrite app_nil_r in Hs0. split; [|split].
  - destruct H1 as [?|[? (d & c & E & ?)] ]; [left; congruence|right]. split; [congruence|]. exists d, c. split; [done|].
    rewrite Hg; [done|]. intros ->. rewrite Ea in E. apply app_inj_tail in E as [E _]. apply (f_equal length) in E. unfold p_lock in E.
    rewrite length_app in E. cbn in E. lia.
  - intros t Ht x. rewrite <- app_assoc, Hs, app_assoc. by apply H2.
  - intros n. rewrite Hs. apply H3.
Qed.

Lemma locked_registered f g rec h h' : f (p_lock sh) = None -> (forall x, x <> p_lock sh -> g x = f x) -> removes (p_lock sh) h h' ->
  registered g rec h -> registered f rec h'.
Proof.
  intros Hf Hg Hrm [H1 (data & H2 & Hp) H3].
  assert (forall a d, a <> lit "lock" -> h' ((p_db sh ++ [a]) ++ [d]) = h ((p_db sh ++ [a]) ++ [d])) as Hs.
  { intros a d Ha. rewrite Hrm, decide_False; [done|]. unfold p_lock. rewrite <- app_assoc. intros E%app_inv_head. discriminate. }
  split.
  - unfold refs_of. rewrite <- H1. unfold refs_of, p_refs. by rewrite Hs.
  - exists data. split; [|done]. unfold p_valid. by rewrite Hs.
  - intros x Hx1 Hx2 Hx3 Hx4. rewrite Hrm. case_decide; [by subst|]. rewrite H3 by done. by apply Hg.
Qed.

Lemma locked_found f g c d : (forall x, x <> p_lock sh -> g x = f x) ->
  found (P (p_store sh) ++ [SLASH]) g (p_store sh ++ [c]) d <-> found (P (p_store sh) ++ [SLASH]) f (p_store sh ++ [c]) d.
Proof.
  intros Hg. unfold found, p_store. split; intros [x Hx]; exists x; rewrite <- app_assoc in Hx |- *;
    [rewrite (locked_sibling sh f g Hg) in Hx by done|rewrite (locked_sibling sh f g Hg) by done]; done.
Qed.

(** C0. Registration returns on a reliable backend with room for the records.
    It records as references of the path exactly the digests that its files
    and links embed and those of the declared paths, without its own; both
    records read back as they were written, and nothing else changes. *)
Theorem register_records clock now_unix c digest store_name cdf_hash declared w :
  ok w -> lk w (p_db sh) = Some MDir -> lk w (p_lock sh) = None -> good_comp c -> digest_like digest -> record_room (lk w) digest ->
  line store_name -> line cdf_hash -> in_u 64 now_unix ->
  exists k, forall fuel, (k <= fuel)%nat ->
    wp (register clock now_unix fuel (with_backend (P sh)) (P (p_store sh ++ [c])) digest store_name cdf_hash declared)
      (fun r w' => ok w' /\ exists refs,
         (forall d, d ∈ refs <-> d <> digest /\ (found (P (p_store sh) ++ [SLASH]) (lk w) (p_store sh ++ [c]) d \/
            exists p, p ∈ declared /\ digest_from_store_path p = Some d)) /\
         let rec := mkRecord digest cdf_hash now_unix store_name store_name refs in
         r = Ok rec /\ registered (lk w) rec (lk w')) w.
Proof.
  intros Hw Hdb Hlock Hc Hd Hroom Hname Hhash Hnow. exists (Datatypes.S (fs_depth (w_fs w))). intros fuel Hf. rewrite with_backend_P by done.
  eapply wp_mono; [apply (with_lock_spec sh good_sh clock fuel _ (fun g r h => exists refs,
         (forall d, d ∈ refs <-> d <> digest /\ (found (P (p_store sh) ++ [SLASH]) (lk w) (p_store sh ++ [c]) d \/
            exists p, p ∈ declared /\ digest_from_store_path p = Some d)) /\
         r = Ok (mkRecord digest cdf_hash now_unix store_name store_name refs) /\
         registered g (mkRecord digest cdf_hash now_unix store_name store_name refs) h)); [done..|lia|]|].
  - intros w1 Hw1 Hs1. unfold scan_prefix. cbn [store_root the_db]. apply wp_try.
    eapply wp_mono; [apply scan_tree_spec; [done|done|apply good_snoc; split; [by apply good_child|done]|lia|]|].
    { intros x. unfold p_store. rewrite <- app_assoc, (locked_sibling sh _ _ Hs1), app_assoc by done. intros Hx.
      pose proof (shallow_depth (w_fs w) _ Hw x Hx). lia. }
    intros r w2 (-> & X & -> & HX).
    set (refs := in_order _). assert (forall d, d ∈ refs <-> d <> digest /\ (found (P (p_store sh) ++ [SLASH]) (lk w) (p_store sh ++ [c]) d \/
            exists p, p ∈ declared /\ digest_from_store_path p = Some d)) as Hrefs.
    { intros d. unfold refs. rewrite elem_of_in_order, elem_of_difference, elem_of_singleton, elem_of_declared, HX, elem_of_empty.
      rewrite (locked_found (lk w) (lk w1)) by done. tauto. }
    unfold refs_dir, valid_dir. cbn [db_root the_db]. rewrite !join_P by by repeat (apply good_child; [|done]).
    pose (rec := mkRecord digest cdf_hash now_unix store_name store_name refs).
    eapply wp_mono; [apply (write_records_spec rec); [done|done|by eapply locked_room| |done..]|].
    { apply Forall_forall. intros d [_ [ [x Hx]|(p & _ & Hp)] ]%Hrefs; [|by eapply entry_digest_like].
      unfold node_embeds in Hx. destruct (lk w ((p_store sh ++ [c]) ++ x)) as [ [data b| |t]|]; [apply Hx|done|apply Hx|done]. }
    intros r w3 (Hw3 & -> & Hreg). split; [done|]. split; [|by exists refs].
    apply (rg_rest _ _ _ Hreg); unfold p_lock, p_refs, p_valid; rewrite <- ?app_assoc; intros E%app_inv_head; discriminate.
  - intros r w' (Hw' & g & h & Hg & (refs & Hrefs & -> & Hreg) & Hrm). split; [done|]. exists refs. split; [done|]. split; [done|].
    by eapply locked_registered.
Qed.

End register.
