(* ===== verification/StoreDemo.v ===== *)
(** * The store on concrete trees

    Runs of the store over small in-memory trees, one of them on a backend
    that stops half way, that apply the theorems of the package store. *)

From S2P Require Import Prelude Paths Text Cdf StoreFs StoreLaws StoreRun MemLaws Store StoreDb StoreGc StoreReg.

#[local] Open Scope Z_scope.

(** A staged package under [/build/out]. *)
Definition demo_nodes : gmap str MNode := list_to_map [
  (lit "/", MDir);
  (lit "/build", MDir);
  (lit "/build/out", MDir);
  (lit "/build/out/bin", MDir);
  (lit "/build/out/bin/rkilo", MFile (lit "elf") true);
  (lit "/build/out/latest", MSymlink (lit "bin/rkilo"))].

Definition demo_fs : MemFs := mkMemFs demo_nodes [] 0.

Definition demo_staged : path := [lit "build"; lit "out"].
Definition demo_root : path := [lit "shade"; lit "store"].

(** A hash with the length of BLAKE3. *)
Definition demo_blake3 (m : list Z) : list Z := replicate 32 (Z.of_nat (length m) mod 256).

Lemma demo_blake3_length m : length (demo_blake3 m) = 32%nat.
Proof. apply length_replicate. Qed.

Lemma demo_fs_ok : mem_ok demo_fs.
Proof. apply mem_check_ok. by vm_compute. Qed.

(** No path of [s] has a temporary name below [root]. *)
Lemma no_temp_paths {S} `{Honest S} root (s : S) : fs_ok s ->
  forallb (fun p : path => match p !! length root with Some t => negb (starts_with TMP t) | None => true end) (fs_paths s) = true ->
  no_temp root (look s).
Proof.
  intros Hs Hall t Ht x. destruct (look s ((root ++ [t]) ++ x)) eqn:E; [|done]. exfalso.
  assert ((root ++ [t]) ++ x ∈ fs_paths s) as Hin by (apply h_paths; [done|by rewrite E]).
  rewrite forallb_forall in Hall. apply list_elem_of_In, Hall in Hin. rewrite <- app_assoc in Hin.
  rewrite lookup_app_r, Nat.sub_diag in Hin by lia. change (([t] ++ x) !! 0%nat) with (Some t) in Hin. cbv iota in Hin. unfold is_temp in Ht.
  by rewrite Ht in Hin.
Qed.

(** Decidable forms of the other hypotheses. *)
Lemma clear_paths {S} `{Honest S} root (s : S) :
  forallb (fun n : nat => match look s (take n root) with Some MDir | None => true | _ => false end) (seq 0 (Datatypes.S (length root))) = true ->
  clear (look s) root.
Proof.
  rewrite forallb_forall. intros Hall p n [r ->] Hn. specialize (Hall (length p)). rewrite take_app_length, Hn in Hall.
  assert (In (length p) (seq 0 (Datatypes.S (length (p ++ r))))) as Hin by (apply in_seq; rewrite length_app; lia).
  apply Hall in Hin. by destruct n.
Qed.

Definition crash_world : World (Dying MemFs) := mkWorld (mkDying demo_fs 6 2) 0.
Definition demo_world : World MemFs := mkWorld demo_fs 0.
Definition demo_name : str := store_name demo_blake3 (lit "rkilo") (lit "0.1") (lit "cdf").

Definition demo_realize {S} `{StoreFs S} : FsM S (result Realized StoreError) :=
  realize_cdf demo_blake3 5 (P demo_root) (lit "rkilo") (lit "0.1") (lit "cdf") (P demo_staged).


Lemma realize_idempotent_witness :
  wp demo_realize (fun r1 w1 => is_ok r1 = true -> wp demo_realize (fun r2 w2 =>
    already_present r2 = Ok true /\ same_tree (look (w_fs w1)) (look (w_fs w2))) w1) demo_world /\
  wp demo_realize (fun r1 w1 => already_present r1 = Ok false /\ look (w_fs w1) (demo_root ++ [demo_name; lit "bin"; lit "rkilo"]) =
    Some (MFile (lit "elf") true)) demo_world.
Proof.
  split; [|by vm_compute]. unfold demo_realize.
  refine (realize_idempotent demo_blake3 demo_blake3_length 5 demo_root (lit "rkilo") (lit "rkilo") (lit "0.1") (lit "cdf") demo_staged
    (P demo_staged) demo_world MemFs_reliable _ _ _ _ _ _ _ _ _ _ _).
  - exact demo_fs_ok.
  - apply (bool_decide_unpack (good demo_root)). by vm_compute.
  - done.
  - apply (bool_decide_unpack (good demo_staged)). by vm_compute.
  - split; apply (bool_decide_unpack _); by vm_compute.
  - apply clear_paths. by vm_compute.
  - apply no_temp_paths; [exact demo_fs_ok|by vm_compute].
  - lia.
  - eapply shallow_le; [|apply shallow_depth; exact demo_fs_ok]. apply (bool_decide_unpack (_ <= _)%nat). by vm_compute.
  - by vm_compute.
  - by vm_compute.
Defined.

(** ** The collector *)

(** A property of the entries of [cs], from the list of the paths. *)
Lemma entries_paths {S} `{Honest S} (s : S) (cs : path) (test : MNode -> bool) : fs_ok s ->
  forallb (fun p => if bool_decide (removelast p = cs) then match look s p with Some n => test n | None => true end else true) (fs_paths s) = true ->
  forall c n, look s (cs ++ [c]) = Some n -> test n = true.
Proof.
  intros Hs Hall c n Hn. assert (cs ++ [c] ∈ fs_paths s) as Hin by (apply h_paths; [done|by rewrite Hn]).
  rewrite forallb_forall in Hall. apply list_elem_of_In, Hall in Hin. rewrite removelast_last, bool_decide_eq_true_2, Hn in Hin by done. done.
Qed.

Definition refs_test (n : MNode) : bool := match n with MFile data _ => bool_decide (Forall good_comp (record_lines data)) | _ => false end.

Definition roots_test (roots : path) (n : MNode) : bool :=
  match n with
  | MSymlink t => let cs := comps_of t in bool_decide (t = P cs) && bool_decide (good cs) && negb (bool_decide (roots `prefix_of` cs))
  | _ => true
  end.

Definition locks_test (n : MNode) : bool := match n with MFile data _ => bool_decide (Forall good_comp (lock_lines data)) | _ => true end.

(** Three packages: the first is a root and refers to the second. *)
Definition dg (c : Z) : str := replicate 32 c.
Definition pk (c : Z) : str := dg c ++ lit "-a-1".

Definition gc_nodes : gmap str MNode := list_to_map [
  (lit "/", MDir);
  (lit "/s", MDir);
  (lit "/s/db", MDir);
  (lit "/s/db/refs", MDir);
  (lit "/s/db/refs/" ++ dg 97, MFile (dg 98 ++ [LF]) false);
  (lit "/s/roots", MDir);
  (lit "/s/roots/top", MSymlink (lit "/s/store/" ++ pk 97));
  (lit "/s/store", MDir);
  (lit "/s/store/" ++ pk 97, MFile (lit "see /s/store/" ++ pk 98) false);
  (lit "/s/store/" ++ pk 98, MFile (lit "b") false);
  (lit "/s/store/" ++ pk 99, MFile (lit "c") false)].

Definition gc_fs : MemFs := mkMemFs gc_nodes [] 0.
Definition gc_world : World MemFs := mkWorld gc_fs 0.
Definition gc_sh : path := [lit "s"].
Definition gc_clock (k : nat) : Z := Z.of_nat k.

Lemma gc_fs_ok : mem_ok gc_fs.
Proof. apply mem_check_ok. by vm_compute. Qed.

Lemma gc_tidy : tidy gc_sh (look gc_fs).
Proof.
  pose proof gc_fs_ok as Hok. split; [|split; [|split] ].
  - intros d n Hn. apply (entries_paths gc_fs _ refs_test) in Hn; [|done|by vm_compute]. destruct n as [data x| |]; [|done..].
    exists data, x. split; [done|]. by apply bool_decide_eq_true in Hn.
  - intros c t Hn. apply (entries_paths gc_fs _ (roots_test (p_roots gc_sh))) in Hn; [|done|by vm_compute]. cbn [roots_test] in Hn.
    apply andb_true_iff in Hn as [Hn Hp]. apply andb_true_iff in Hn as [Ht Hg]. exists (comps_of t).
    apply bool_decide_eq_true in Ht, Hg. apply negb_true_iff, bool_decide_eq_false in Hp. done.
  - intros c data x Hn. apply (entries_paths gc_fs _ locks_test) in Hn; [|done|by vm_compute]. by apply bool_decide_eq_true in Hn.
  - right. by vm_compute.
Qed.

Lemma gc_scan : scan_ok (P (p_store gc_sh) ++ [SLASH]).
Proof. exists (lit "s/store"). split; [by vm_compute|]. apply (bool_decide_unpack (_ <= _)%nat). by vm_compute. Qed.

Lemma gc_sh_good : good gc_sh.
Proof. apply (bool_decide_unpack (good gc_sh)). by vm_compute. Qed.

Lemma gc_exact_witness :
  (exists k, forall fuel, (k <= fuel)%nat ->
    wp (gc gc_clock fuel (with_backend (P gc_sh)) (mkGcOptions false false))
      (fun r w' => gc_outcome gc_sh (look gc_fs) (mkGcOptions false false) r (look (w_fs w'))) gc_world) /\
  wp (gc gc_clock 9 (with_backend (P gc_sh)) (mkGcOptions false false))
    (fun r w' => r = Ok (mkReport [pk 99] 2 1 0 false) /\ look (w_fs w') (p_store gc_sh ++ [pk 99]) = None) gc_world.
Proof.
  split; [|by vm_compute].
  destruct (gc_exact (HR := MemFs_reliable) gc_sh gc_sh_good gc_scan gc_clock (mkGcOptions false false) gc_world gc_fs_ok
    ltac:(by vm_compute) ltac:(by vm_compute) gc_tidy) as [k Hk].
  exists k. intros fuel Hf. eapply wp_mono; [exact (Hk fuel Hf)|]. intros r w' [_ Hr]. exact Hr.
Defined.

(** Registering the first package again, with the third one declared. *)
Definition demo_register (fuel : nat) : FsM MemFs (result ValidRecord DbError) :=
  register gc_clock 7 fuel (with_backend (P gc_sh)) (P (p_store gc_sh ++ [pk 97])) (dg 97) (pk 97) (lit "h") [lit "/s/store/" ++ pk 99].

Lemma gc_room : record_room gc_sh (look gc_fs) (dg 97).
Proof.
  intros ds [-> | ->]; (split; [|split; [apply no_temp_paths; [exact gc_fs_ok|by vm_compute]|] ]).
  - left. by vm_compute.
  - by vm_compute; intros n [= <-].
  - right. split; [by vm_compute|]. exists (p_db gc_sh), (lit "valid"). split; [done|by vm_compute].
  - by vm_compute.
Qed.

Lemma register_records_witness :
  (exists k, forall fuel, (k <= fuel)%nat -> wp (demo_register fuel) (fun r w' => exists refs,
     let rec := mkRecord (dg 97) (lit "h") 7 (pk 97) (pk 97) refs in r = Ok rec /\ registered gc_sh (look gc_fs) rec (look (w_fs w'))) gc_world) /\
  wp (demo_register 9) (fun r w' => (vr_refs <$> match r with Ok rec => Some rec | Err _ => None end) = Some [dg 98; dg 99] /\
     refs_of gc_sh (look (w_fs w')) (dg 97) = [dg 98; dg 99]) gc_world.
Proof.
  split; [|by vm_compute]. assert (digest_like (dg 97)) as Hd.
  { split; [done|]. apply (bool_decide_unpack (Forall (fun b => b ∈ BASE32_ALPHABET) (dg 97))). by vm_compute. }
  destruct (register_records (HR := MemFs_reliable) gc_sh gc_sh_good gc_scan gc_clock 7 (pk 97) (dg 97) (pk 97) (lit "h") [lit "/s/store/" ++ pk 99] gc_world
    gc_fs_ok ltac:(by vm_compute) ltac:(by vm_compute) ltac:(apply (bool_decide_unpack (good_comp (pk 97))); by vm_compute) Hd gc_room
    ltac:(apply line_lit; by vm_compute) ltac:(apply line_lit; by vm_compute) ltac:(by unfold in_u; lia)) as [k Hk].
  exists k. intros fuel Hf. eapply wp_mono; [exact (Hk fuel Hf)|]. intros r w' (_ & refs & _ & Hr). exists refs. exact Hr.
Defined.

(** ** A directory that cannot be read *)

(** A backend that reports a device error for one directory. *)
Record Flaky : Type := mkFlaky { fl_fs : MemFs; fl_bad : str }.

Definition lifted {A} (f : MemFs -> A * MemFs) (s : Flaky) : A * Flaky := let '(a, m) := f (fl_fs s) in (a, mkFlaky m (fl_bad s)).

#[export] Instance Flaky_fs : StoreFs Flaky := {
  metadata p := lifted (metadata p);
  read_file p := lifted (read_file p);
  write_file p data x := lifted (write_file p data x);
  create_exclusive p data := lifted (create_exclusive p data);
  mkdir p := lifted (mkdir p);
  rename p q := lifted (rename p q);
  unlink p := lifted (unlink p);
  rmdir p := lifted (rmdir p);
  read_dir p s := if bool_decide (p = fl_bad s) then (Err FeDevice, s) else lifted (read_dir p) s;
  read_link p := lifted (read_link p);
  symlink t p := lifted (symlink t p);
  sync_dir p := lifted (sync_dir p);
  unique_token := lifted unique_token
}.

