(* ===== verification/ShadeLex.v ===== *)
(** * The lexer of the package language

    pkg/shadec/src/lexer.rs and the error type of error.rs.  The source is the
    list of bytes that is left; a position is kept beside it.  The text of
    error messages and the forcing trace are not modelled.  A recursive call is
    a field of [LexRec]: [lex_knot] ties them with fuel, and every call of a
    field comes after at least one byte. *)

From S2P Require Import Prelude Paths Text.

#[local] Open Scope Z_scope.
#[local] Open Scope rust_scope.

(** ** Errors *)

Record SrcPos : Type := mkSrcPos { pos_file : str; pos_line : Z; pos_col : Z }.

Inductive ErrorKind : Type :=
| KParse | KType | KUndefinedVar | KMissingAttr | KAssert | KThrow | KAbort
| KInfiniteRecursion | KResourceLimit | KPurity | KImport.

Definition catchable (k : ErrorKind) : bool :=
  match k with KThrow | KAssert | KType => true | _ => false end.

Record EvalError : Type := mkEvalError { err_kind : ErrorKind; err_pos : option SrcPos }.

(** How a computation ends without a result: with an error, by a panic, or
    because the fuel was not enough. *)
Inductive ShadeStop : Type :=
| Fails (e : EvalError)
| Panics
| Stuck.

Definition fail_at {A} (pos : SrcPos) : result A ShadeStop := Err (Fails (mkEvalError KParse (Some pos))).

(** ** Tokens *)

Inductive Kw : Type := KwIf | KwThen | KwElse | KwLet | KwIn | KwRec | KwWith | KwInherit | KwAssert | KwOr.

Inductive Tok : Type :=
| TId (s : str)
| TInt (i : Z)
| TPath (s : str)
| TStr (parts : list StrPart)
| TIndStr (parts : list StrPart)
| TKw (k : Kw)
| TDot | TQuestion | TConcat | TStar | TSlash | TPlus | TMinus | TNot | TUpdate
| TLt | TLe | TGt | TGe | TEq | TNe | TAnd | TOr | TImpl | TAssign | TSemi | TColon | TComma | TAt
| TLParen | TRParen | TLBracket | TRBracket | TLBrace | TRBrace | TEllipsis | TDollarBrace | TEof
with StrPart : Type :=
| PLit (s : str)
| PInterp (toks : list Token)
with Token : Type :=
| mkToken (tok : Tok) (pos : SrcPos).

Definition t_tok (t : Token) : Tok := match t with mkToken tok _ => tok end.
Definition t_pos (t : Token) : SrcPos := match t with mkToken _ pos => pos end.

(** ** The state of the lexer *)

Record Lexer : Type := mkLexer {
  lx_src : str;
  lx_i : Z;
  lx_line : Z;
  lx_col : Z;
  lx_file : str;
  lx_prev_end : Z;
  lx_prev_operandish : bool
}.

Definition LM (A : Type) : Type := Lexer -> result (A * Lexer) ShadeStop.

#[export] Instance lm_ret : MRet LM := fun A a lx => Ok (a, lx).
#[export] Instance lm_bind : MBind LM := fun A B f m lx =>
  match m lx with
  | Ok (a, lx') => f a lx'
  | Err e => Err e
  end.

Definition lx_pos (lx : Lexer) : SrcPos := mkSrcPos (lx_file lx) (lx_line lx) (lx_col lx).

(** [Err(self.err(..))] *)
Definition lex_err {A} : LM A := fun lx => fail_at (lx_pos lx).

Definition peek (lx : Lexer) (off : nat) : option Z := lx_src lx !! off.

Definition bump (lx : Lexer) : Lexer :=
  match lx_src lx with
  | [] => lx
  | b :: src =>
      let '(line, col) := if b =? LF then (wrap 32 (lx_line lx + 1), 1) else (lx_line lx, wrap 32 (lx_col lx + 1)) in
      mkLexer src (lx_i lx + 1) line col (lx_file lx) (lx_prev_end lx) (lx_prev_operandish lx)
  end.

Fixpoint bump_n (n : nat) (lx : Lexer) : Lexer :=
  match n with O => lx | S n' => bump_n n' (bump lx) end.

(** [while self.peek(0).is_some_and(p) { self.bump(); }] *)
Fixpoint bump_while_from (p : Z -> bool) (src : str) (lx : Lexer) : Lexer :=
  match src with
  | [] => lx
  | b :: src' => if p b then bump_while_from p src' (bump lx) else lx
  end.
Definition bump_while (p : Z -> bool) (lx : Lexer) : Lexer := bump_while_from p (lx_src lx) lx.

(** The bytes between two states. *)
Definition text_between (lx lx' : Lexer) : str := take (Z.to_nat (lx_i lx' - lx_i lx)) (lx_src lx).

(** ** Bytes *)

Definition is_upper (c : Z) : bool := (65 <=? c) && (c <=? 90).
Definition is_lower (c : Z) : bool := (97 <=? c) && (c <=? 122).
Definition is_digit (c : Z) : bool := (48 <=? c) && (c <=? 57).
Definition is_alnum (c : Z) : bool := is_upper c || is_lower c || is_digit c.

(** Bytes that begin an identifier, and that continue one. *)
Definition ident_start (c : Z) : bool := is_upper c || is_lower c || (c =? 95).
Definition ident_char (c : Z) : bool := is_alnum c || (c =? 95) || (c =? 39).

Definition is_path_seg_char (c : Z) : bool := is_alnum c || (c =? 46) || (c =? 95) || (c =? 45) || (c =? 43).

Definition is_byte (o : option Z) (c : Z) : bool := match o with Some b => b =? c | None => false end.
Definition is_some_and (p : Z -> bool) (o : option Z) : bool := match o with Some b => p b | None => false end.

(** ** White space and comments *)

(** The rest after the end of a block comment. *)
Fixpoint block_end (src : str) (lx : Lexer) : option Lexer :=
  match src with
  | [] => None
  | b :: src' => if (b =? 42) && is_byte (head src') 47 then Some (bump_n 2 lx) else block_end src' (bump lx)
  end.

Fixpoint skip_ws (n : nat) (lx : Lexer) : result Lexer ShadeStop :=
  match n with
  | O => Err Stuck
  | S n' =>
      match peek lx 0 with
      | Some b =>
          if (b =? 32) || (b =? 9) || (b =? 10) || (b =? 13) then skip_ws n' (bump lx)
          else if b =? 35 then skip_ws n' (bump_while (fun c => negb (c =? 10)) lx)
          else if (b =? 47) && is_byte (peek lx 1) 42 then
            let lx1 := bump_n 2 lx in
            match block_end (lx_src lx1) lx1 with
            | Some lx2 => skip_ws n' lx2
            | None => fail_at (lx_pos lx)
            end
          else Ok lx
      | None => Ok lx
      end
  end.
Definition skip_ws_comments (lx : Lexer) : result Lexer ShadeStop := skip_ws (S (length (lx_src lx))) lx.

(** ** Words, numbers and paths *)

Definition keyword (text : str) : Tok :=
  if bool_decide (text = lit "if") then TKw KwIf
  else if bool_decide (text = lit "then") then TKw KwThen
  else if bool_decide (text = lit "else") then TKw KwElse
  else if bool_decide (text = lit "let") then TKw KwLet
  else if bool_decide (text = lit "in") then TKw KwIn
  else if bool_decide (text = lit "rec") then TKw KwRec
  else if bool_decide (text = lit "with") then TKw KwWith
  else if bool_decide (text = lit "inherit") then TKw KwInherit
  else if bool_decide (text = lit "assert") then TKw KwAssert
  else if bool_decide (text = lit "or") then TKw KwOr
  else TId text.

(** The loop of [lex_ident]. *)
Fixpoint ident_tail (src : str) (lx : Lexer) : Lexer :=
  match src with
  | [] => lx
  | c :: src' =>
      if ident_char c || ((c =? 45) && is_some_and ident_char (head src')) then ident_tail src' (bump lx) else lx
  end.

(** [core::str::from_utf8(..).unwrap()] on the text since [lx]. *)
Definition text_since (lx : Lexer) : LM str := fun lx' =>
  let text := text_between lx lx' in
  if utf8_valid text then Ok (text, lx') else Err Panics.

Definition lex_ident : LM Tok := fun lx =>
  let lx1 := bump lx in
  (text ← text_since lx; mret (keyword text)) (ident_tail (lx_src lx1) lx1).

(** [str::parse::<i64>] on a nonempty string of digits. *)
Definition I64_MAX : Z := 2 ^ 63 - 1.
Definition digits_value (s : str) : Z := foldl (fun n c => n * 10 + (c - 48)) 0 s.
Definition parse_i64 (s : str) : option Z := if digits_value s <=? I64_MAX then Some (digits_value s) else None.

Definition lex_int : LM Tok := fun lx =>
  (text ← text_since lx;
   match parse_i64 text with
   | Some i => mret (TInt i)
   | None => lex_err
   end) (bump_while is_digit lx).

(** The loop over the segments of a path. *)
Fixpoint path_segs (n : nat) (any_seg : bool) (lx : Lexer) : result (bool * Lexer) ShadeStop :=
  match n with
  | O => Err Stuck
  | S n' =>
      if is_byte (peek lx 0) 47 && is_some_and is_path_seg_char (peek lx 1)
      then path_segs n' true (bump_while is_path_seg_char (bump lx))
      else Ok (any_seg, lx)
  end.

Definition lex_path : LM Tok := fun lx =>
  let lx1 := if is_byte (peek lx 0) 46 then
               let lx0 := bump lx in if is_byte (peek lx0 0) 46 then bump lx0 else lx0
             else lx in
  match path_segs (S (length (lx_src lx1))) false lx1 with
  | Err e => Err e
  | Ok (any_seg, lx2) => if any_seg then (text ← text_since lx; mret (TPath text)) lx2 else lex_err lx2
  end.

(** ** Strings *)

(** [String::from_utf8(v).expect(..)] *)
Definition bytes_to_string (v : list Z) : result str ShadeStop := if utf8_valid v then Ok v else Err Panics.

(** [if !lit.is_empty() { parts.push(StrPart::Lit(..)) }] *)
Definition flush (parts : list StrPart) (lit : list Z) : result (list StrPart) ShadeStop :=
  match lit with
  | [] => Ok parts
  | _ => let? s := bytes_to_string lit in Ok (parts ++ [PLit s])
  end.

Definition lift_lex {A} (r : result A ShadeStop) : LM A := fun lx => match r with Ok a => Ok (a, lx) | Err e => Err e end.
Definition lex_do (f : Lexer -> Lexer) : LM unit := fun lx => Ok (tt, f lx).
Definition look (off : nat) : LM (option Z) := fun lx => Ok (peek lx off, lx).
Definition here_pos : LM SrcPos := fun lx => Ok (lx_pos lx, lx).

(** *** Indentation *)

Inductive Frag : Type :=
| FText (s : str)
| FInterp (toks : list Token).

(** [lines.last_mut().unwrap().push(f)] *)
Definition push_last (f : Frag) (lines : list (list Frag)) : list (list Frag) :=
  match last lines with
  | Some l => take (length lines - 1) lines ++ [l ++ [f] ]
  | None => lines
  end.

Definition push_piece (lines : list (list Frag)) (piece : str) : list (list Frag) :=
  match piece with [] => lines | _ => push_last (FText piece) lines end.

(** The pieces of a literal: all but the first begin a new line. *)
Definition push_lit (lines : list (list Frag)) (s : str) : list (list Frag) :=
  match split_on LF s with
  | [] => lines
  | first :: pieces => foldl (fun ls piece => push_piece (ls ++ [ [] ]) piece) (push_piece lines first) pieces
  end.

Definition to_lines (parts : list StrPart) : list (list Frag) :=
  foldl (fun ls p => match p with PInterp t => push_last (FInterp t) ls | PLit s => push_lit ls s end) [ [] ] parts.

(** The spaces at the start, and whether something else follows them. *)
Fixpoint text_indent (t : str) (indent : nat) : nat * bool :=
  match t with
  | [] => (indent, false)
  | ch :: t' => if ch =? 32 then text_indent t' (S indent) else (indent, true)
  end.

Fixpoint line_indent (line : list Frag) (indent : nat) : nat * bool :=
  match line with
  | [] => (indent, false)
  | FInterp _ :: _ => (indent, true)
  | FText t :: line' =>
      match text_indent t indent with
      | (indent', true) => (indent', true)
      | (indent', false) => line_indent line' indent'
      end
  end.

Definition min_indent (lines : list (list Frag)) : nat :=
  default 0%nat (foldl (fun m line =>
    match line_indent line 0 with
    | (indent, true) => Some (match m with None => indent | Some m' => Nat.min m' indent end)
    | (_, false) => m
    end) None lines).

Fixpoint leading_spaces (t : str) : nat :=
  match t with
  | b :: t' => if b =? 32 then S (leading_spaces t') else O
  | [] => O
  end.

Fixpoint strip_line (to_strip : nat) (line : list Frag) : list Frag :=
  match to_strip, line with
  | O, _ => line
  | _, [] => []
  | _, FInterp _ :: _ => line
  | _, FText t :: line' =>
      let cut := Nat.min (leading_spaces t) to_strip in
      match drop cut t with
      | [] => FText [] :: strip_line (to_strip - cut) line'
      | t' => FText t' :: line'
      end
  end.

Definition empty_text (f : Frag) : bool := match f with FText [] => true | _ => false end.
Definition space_text (f : Frag) : bool := match f with FText t => forallb (Z.eqb 32) t | FInterp _ => false end.

Definition drop_first (lines : list (list Frag)) : list (list Frag) :=
  match lines with
  | first :: ((_ :: _) as rest) => if forallb empty_text first then rest else lines
  | _ => lines
  end.

Definition no_frags (l : list Frag) : bool := match l with [] => true | _ => false end.

Definition blank_last (lines : list (list Frag)) : list (list Frag) :=
  match last lines with
  | Some l => if forallb space_text l && negb (no_frags l) then take (length lines - 1) lines ++ [ [] ] else lines
  | None => lines
  end.

(** [if !lit.is_empty() { out.push(StrPart::Lit(lit)) }] *)
Definition push_text (out : list StrPart) (lit : str) : list StrPart := match lit with [] => out | _ => out ++ [PLit lit] end.

Definition join_frag (s : list StrPart * str) (f : Frag) : list StrPart * str :=
  match f with
  | FText t => (s.1, s.2 ++ t)
  | FInterp toks => (push_text s.1 s.2 ++ [PInterp toks], [])
  end.

Fixpoint join_lines (lines : list (list Frag)) (s : list StrPart * str) : list StrPart :=
  match lines with
  | [] => push_text s.1 s.2
  | [line] => let s' := foldl join_frag s line in push_text s'.1 s'.2
  | line :: rest => let s' := foldl join_frag s line in join_lines rest (s'.1, s'.2 ++ [LF])
  end.

Definition strip_indentation (parts : list StrPart) : list StrPart :=
  let lines := to_lines parts in
  join_lines (blank_last (drop_first (strip_line (min_indent lines) <$> lines))) ([], []).

(** ** The mutually recursive part *)

(** The calls that recur: [next_token] and the loops of [lex_interp],
    [lex_quoted] and [lex_indented]. *)
Record LexRec : Type := mkLexRec {
  lr_next : LM Token;
  lr_interp : SrcPos -> nat -> list Token -> LM (list Token);
  lr_quoted : SrcPos -> list StrPart -> list Z -> LM (list StrPart);
  lr_indented : SrcPos -> list StrPart -> list Z -> LM (list StrPart)
}.

Section rec.
Context (rec : LexRec).

Definition interp_loop (open : SrcPos) (depth : nat) (toks : list Token) : LM (list Token) :=
  t ← lr_next rec;
  match t_tok t with
  | TEof => lift_lex (fail_at open)
  | TLBrace | TDollarBrace => lr_interp rec open (S depth) (toks ++ [t])
  | TRBrace =>
      match depth with
      | O => mret toks
      | S depth' => lr_interp rec open depth' (toks ++ [t])
      end
  | _ => lr_interp rec open depth (toks ++ [t])
  end.

Definition lex_interp : LM (list Token) := open ← here_pos; lr_interp rec open 0 [].

Definition quoted_escape (e : Z) : option Z :=
  if e =? 34 then Some 34 else if e =? 92 then Some 92 else if e =? 110 then Some 10
  else if e =? 114 then Some 13 else if e =? 116 then Some 9 else if e =? 36 then Some 36 else None.

Definition quoted_loop (open : SrcPos) (parts : list StrPart) (lit : list Z) : LM (list StrPart) :=
  c0 ← look 0; c1 ← look 1;
  match c0 with
  | None => lift_lex (fail_at open)
  | Some b =>
      if b =? 34 then _ ← lex_do bump; lift_lex (flush parts lit)
      else if b =? 92 then
        _ ← lex_do bump;
        match c1 with
        | None => lex_err
        | Some e =>
            match quoted_escape e with
            | Some c => _ ← lex_do bump; lr_quoted rec open parts (lit ++ [c])
            | None => lex_err
            end
        end
      else if (b =? 36) && is_byte c1 123 then
        _ ← lex_do (bump_n 2);
        parts' ← lift_lex (flush parts lit);
        toks ← lex_interp;
        lr_quoted rec open (parts' ++ [PInterp toks]) []
      else _ ← lex_do bump; lr_quoted rec open parts (lit ++ [b])
  end.

Definition lex_quoted : LM (list StrPart) := open ← here_pos; quoted_loop open [] [].

Definition indented_escape (e : Z) : option Z :=
  if e =? 110 then Some 10 else if e =? 114 then Some 13 else if e =? 116 then Some 9
  else if e =? 92 then Some 92 else if e =? 36 then Some 36 else if e =? 39 then Some 39 else None.

Definition indented_loop (open : SrcPos) (parts : list StrPart) (lit : list Z) : LM (list StrPart) :=
  c0 ← look 0; c1 ← look 1; c2 ← look 2; c3 ← look 3;
  match c0 with
  | None => lift_lex (fail_at open)
  | Some b =>
      if (b =? 39) && is_byte c1 39 then
        if is_byte c2 39 then _ ← lex_do (bump_n 3); lr_indented rec open parts (lit ++ [39; 39])
        else if is_byte c2 36 && is_byte c3 123 then _ ← lex_do (bump_n 4); lr_indented rec open parts (lit ++ [36; 123])
        else if is_byte c2 92 then
          _ ← lex_do (bump_n 3);
          match c3 with
          | None => lex_err
          | Some e =>
              match indented_escape e with
              | Some c => _ ← lex_do bump; lr_indented rec open parts (lit ++ [c])
              | None => lex_err
              end
          end
        else
          _ ← lex_do (bump_n 2);
          parts' ← lift_lex (flush parts lit);
          mret (strip_indentation parts')
      else if (b =? 36) && is_byte c1 123 then
        _ ← lex_do (bump_n 2);
        parts' ← lift_lex (flush parts lit);
        toks ← lex_interp;
        lr_indented rec open (parts' ++ [PInterp toks]) []
      else _ ← lex_do bump; lr_indented rec open parts (lit ++ [b])
  end.

Definition lex_indented : LM (list StrPart) := open ← here_pos; indented_loop open [] [].

(** A token of [n] bytes. *)
Definition fixed (n : nat) (tok : Tok) : LM Tok := _ ← lex_do (bump_n n); mret tok.
(** [long] if the second byte is [c], or else [short]. *)
Definition one_or_two (c : Z) (long short : Tok) : LM Tok :=
  c1 ← look 1; if is_byte c1 c then fixed 2 long else fixed 1 short.
Definition two_or_err (c : Z) (tok : Tok) : LM Tok :=
  c1 ← look 1; if is_byte c1 c then fixed 2 tok else lex_err.

(** The match on the first byte. *)
Definition lex_tok (glued : bool) (b : Z) : LM Tok :=
  c1 ← look 1; c2 ← look 2;
  if ident_start b then lex_ident
  else if is_digit b then lex_int
  else if b =? 34 then _ ← lex_do bump; parts ← lex_quoted; mret (TStr parts)
  else if (b =? 39) && is_byte c1 39 then _ ← lex_do (bump_n 2); parts ← lex_indented; mret (TIndStr parts)
  else if b =? 46 then
    if is_byte c1 47 || (is_byte c1 46 && is_byte c2 47) then lex_path
    else if is_byte c1 46 && is_byte c2 46 then fixed 3 TEllipsis
    else fixed 1 TDot
  else if b =? 47 then
    if negb glued && is_some_and is_path_seg_char c1 then lex_path
    else if is_byte c1 47 then fixed 2 TUpdate
    else fixed 1 TSlash
  else if b =? 43 then one_or_two 43 TConcat TPlus
  else if b =? 45 then one_or_two 62 TImpl TMinus
  else if b =? 42 then fixed 1 TStar
  else if b =? 33 then one_or_two 61 TNe TNot
  else if b =? 60 then one_or_two 61 TLe TLt
  else if b =? 62 then one_or_two 61 TGe TGt
  else if b =? 61 then one_or_two 61 TEq TAssign
  else if b =? 38 then two_or_err 38 TAnd
  else if b =? 124 then two_or_err 124 TOr
  else if b =? 36 then two_or_err 123 TDollarBrace
  else if b =? 63 then fixed 1 TQuestion
  else if b =? 59 then fixed 1 TSemi
  else if b =? 58 then fixed 1 TColon
  else if b =? 44 then fixed 1 TComma
  else if b =? 64 then fixed 1 TAt
  else if b =? 40 then fixed 1 TLParen
  else if b =? 41 then fixed 1 TRParen
  else if b =? 91 then fixed 1 TLBracket
  else if b =? 93 then fixed 1 TRBracket
  else if b =? 123 then fixed 1 TLBrace
  else if b =? 125 then fixed 1 TRBrace
  else lex_err.

Definition operandish (tok : Tok) : bool :=
  match tok with
  | TId _ | TInt _ | TPath _ | TStr _ | TIndStr _ | TRParen | TRBracket | TRBrace => true
  | _ => false
  end.

Definition set_prev (tok : Tok) (lx : Lexer) : Lexer :=
  mkLexer (lx_src lx) (lx_i lx) (lx_line lx) (lx_col lx) (lx_file lx) (lx_i lx) (operandish tok).

Definition next_token : LM Token := fun lx0 =>
  let? lx := skip_ws_comments lx0 in
  let pos := lx_pos lx in
  match peek lx 0 with
  | None => Ok (mkToken TEof pos, lx)
  | Some b =>
      let glued := (lx_prev_end lx =? lx_i lx) && lx_prev_operandish lx in
      (tok ← lex_tok glued b; _ ← lex_do (set_prev tok); mret (mkToken tok pos)) lx
  end.

End rec.

Definition lex_stuck {A} : LM A := fun _ => Err Stuck.

Fixpoint lex_knot (n : nat) : LexRec :=
  match n with
  | O => mkLexRec lex_stuck (fun _ _ _ => lex_stuck) (fun _ _ _ => lex_stuck) (fun _ _ _ => lex_stuck)
  | S n' => let rec := lex_knot n' in mkLexRec (next_token rec) (interp_loop rec) (quoted_loop rec) (indented_loop rec)
  end.

(** The loop of [lex]. *)
Fixpoint lex_loop (n fuel : nat) (out : list Token) (lx : Lexer) : result (list Token) ShadeStop :=
  match n with
  | O => Err Stuck
  | S n' =>
      match lr_next (lex_knot fuel) lx with
      | Err e => Err e
      | Ok (t, lx') => match t_tok t with TEof => Ok (out ++ [t]) | _ => lex_loop n' fuel (out ++ [t]) lx' end
      end
  end.

Definition lexer_new (src file : str) : Lexer := mkLexer src 0 1 1 file U64_MAX false.

(** Enough fuel: see ShadeLexLaws.v. *)
Definition lex_fuel (src : str) : nat := S (S (length src)).

Definition lex (src file : str) : result (list Token) ShadeStop :=
  lex_loop (lex_fuel src) (lex_fuel src) [] (lexer_new src file).
