(* ===== verification/ShadeLexLaws.v ===== *)
(** * The lexer returns

    For every source that is valid UTF-8 the lexer ends with a list of tokens
    or a parse error, never in a panic, and its tokens are well formed:
    [lex_total]. *)

From S2P Require Import Prelude Paths Text ShadeLex.

#[local] Open Scope Z_scope.
#[local] Open Scope rust_scope.

(** ** Advancing *)

(** [lx'] is [lx] after the bytes [pre]. *)
Record adv (lx lx' : Lexer) (pre : str) : Prop := {
  adv_src : lx_src lx = pre ++ lx_src lx';
  adv_i : lx_i lx' = lx_i lx + Z.of_nat (length pre)
}.

Lemma adv_refl lx : adv lx lx [].
Proof. split; cbn; [done|lia]. Qed.

Lemma adv_trans lx1 lx2 lx3 p q : adv lx1 lx2 p -> adv lx2 lx3 q -> adv lx1 lx3 (p ++ q).
Proof. intros [S1 I1] [S2 I2]. split; [by rewrite S1, S2, app_assoc|rewrite I2, I1, length_app; lia]. Qed.

Lemma adv_text lx lx' pre : adv lx lx' pre -> text_between lx lx' = pre.
Proof.
  intros [Hs Hi]. unfold text_between. rewrite Hi, Hs. replace (Z.to_nat _) with (length pre) by lia.
  by rewrite take_app_length.
Qed.

Lemma adv_len lx lx' pre : adv lx lx' pre -> length (lx_src lx) = (length pre + length (lx_src lx'))%nat.
Proof. intros [-> _]. apply length_app. Qed.

Lemma bump_adv lx b r : lx_src lx = b :: r -> adv lx (bump lx) [b] /\ lx_src (bump lx) = r.
Proof.
  intros E. assert (lx_src (bump lx) = r /\ lx_i (bump lx) = lx_i lx + 1) as [Es Ei].
  { unfold bump. rewrite E. by destruct (b =? LF). }
  split; [|done]. split; [by rewrite E, Es|by rewrite Ei].
Qed.

Lemma bump_n_adv pre : forall lx r, lx_src lx = pre ++ r -> adv lx (bump_n (length pre) lx) pre /\ lx_src (bump_n (length pre) lx) = r.
Proof.
  induction pre as [|b pre IH]; intros lx r E; [split; [apply adv_refl|done]|].
  destruct (bump_adv lx b (pre ++ r) E) as [H1 E1]. destruct (IH _ _ E1) as [H2 E2].
  split; [|done]. exact (adv_trans _ _ _ [b] pre H1 H2).
Qed.

(** The bytes of the longest prefix that satisfies [p], and the rest. *)
Fixpoint span_while (p : Z -> bool) (src : str) : str * str :=
  match src with
  | [] => ([], [])
  | b :: src' => if p b then let '(a, r) := span_while p src' in (b :: a, r) else ([], src)
  end.

Lemma span_while_app p src : src = (span_while p src).1 ++ (span_while p src).2.
Proof. induction src as [|b src IH]; [done|]. cbn. destruct (p b); [|done]. destruct (span_while p src). cbn in *. by rewrite <- IH. Qed.

Lemma span_while_all p src : Forall (fun b => p b = true) (span_while p src).1.
Proof.
  induction src as [|b src IH]; [by apply Forall_nil|]. cbn. destruct (p b) eqn:E; [|by apply Forall_nil].
  destruct (span_while p src). cbn in *. by apply Forall_cons.
Qed.

Lemma span_while_rest p src : match head (span_while p src).2 with Some b => p b = false | None => True end.
Proof. induction src as [|b src IH]; [done|]. cbn. destruct (p b) eqn:E; [|done]. by destruct (span_while p src). Qed.

Lemma bump_while_adv p : forall lx, adv lx (bump_while p lx) (span_while p (lx_src lx)).1 /\ lx_src (bump_while p lx) = (span_while p (lx_src lx)).2.
Proof.
  assert (forall src lx, lx_src lx = src -> adv lx (bump_while_from p src lx) (span_while p src).1 /\ lx_src (bump_while_from p src lx) = (span_while p src).2) as H.
  { induction src as [|b src IH]; intros lx E; [split; [apply adv_refl|done]|]. cbn. destruct (p b); [|split; [apply adv_refl|done] ].
    destruct (bump_adv lx b src E) as [H1 E1]. destruct (IH _ E1) as [H2 E2]. destruct (span_while p src) as [a r]. cbn in *.
    split; [|done]. exact (adv_trans _ _ _ [b] a H1 H2). }
  intros lx. by apply H.
Qed.

(** The same for the tail of an identifier. *)
Fixpoint ident_span (src : str) : str * str :=
  match src with
  | [] => ([], [])
  | c :: src' =>
      if ident_char c || ((c =? 45) && is_some_and ident_char (head src')) then let '(a, r) := ident_span src' in (c :: a, r) else ([], src)
  end.

Lemma ident_span_app src : src = (ident_span src).1 ++ (ident_span src).2.
Proof. induction src as [|b src IH]; [done|]. cbn. destruct (_ || _); [|done]. destruct (ident_span src). cbn in *. by rewrite <- IH. Qed.

Lemma ident_tail_adv : forall src lx, lx_src lx = src -> adv lx (ident_tail src lx) (ident_span src).1 /\ lx_src (ident_tail src lx) = (ident_span src).2.
Proof.
  induction src as [|b src IH]; intros lx E; [split; [apply adv_refl|done]|]. cbn. destruct (_ || _); [|split; [apply adv_refl|done] ].
  destruct (bump_adv lx b src E) as [H1 E1]. destruct (IH _ E1) as [H2 E2]. destruct (ident_span src) as [a r]. cbn in *.
  split; [|done]. exact (adv_trans _ _ _ [b] a H1 H2).
Qed.

(** ** UTF-8 and ASCII bytes *)

Definition ascii (b : Z) : Prop := 0 <= b < 128.

Lemma utf8_ascii_cons x a : ascii x -> utf8_valid (x :: a) = utf8_valid a.
Proof. intros Hx. cbn [utf8_valid]. rewrite (proj2 (Z.ltb_lt x 128)) by (unfold ascii in Hx; lia). done. Qed.

Lemma utf8_ascii_app p a : Forall ascii p -> utf8_valid (p ++ a) = utf8_valid a.
Proof. induction 1 as [|x p Hx _ IH]; [done|]. cbn [app]. by rewrite utf8_ascii_cons. Qed.

(** A byte below 128 ends a character. *)
Lemma utf8_split a : forall x b, ascii x -> utf8_valid (a ++ x :: b) = true -> utf8_valid a = true /\ utf8_valid b = true.
Proof.
  remember (length a) as n eqn:Hn. revert a Hn. induction (lt_wf n) as [n _ IH]. intros a -> x b Hx Hv.
  assert ((x <? 128) = true /\ utf8_cont x = false) as [Hlt Hc].
  { unfold ascii in Hx. split; [apply Z.ltb_lt; lia|]. unfold utf8_cont. by rewrite (proj2 (Z.leb_gt 128 x)) by lia. }
  assert (forall c r, a = c ++ r -> c <> [] -> utf8_valid (r ++ x :: b) = true -> utf8_valid (c ++ r) = utf8_valid r ->
    utf8_valid a = true /\ utf8_valid b = true) as Hgo.
  { intros c r -> Hne Hr Hcr. rewrite Hcr. eapply (IH (length r)); [|done|exact Hx|exact Hr]. rewrite length_app. destruct c; [done|cbn; lia]. }
  destruct a as [|y a]; [by rewrite <- (utf8_ascii_cons x b)|]. cbn [app] in Hv. pose proof Hv as Hv'. cbn [utf8_valid] in Hv'.
  destruct (y <? 128) eqn:E1; [apply (Hgo [y] a); [done|done|done|by cbn [utf8_valid app]; rewrite E1]|].
  destruct ((194 <=? y) && (y <=? 223)) eqn:E2.
  { destruct a as [|z a]; cbn [app] in Hv'; [by rewrite Hc in Hv'|]. apply andb_true_iff in Hv' as [Hz Hr].
    apply (Hgo [y; z] a); [done|done|done|cbn [utf8_valid app]; by rewrite E1, E2, Hz]. }
  destruct ((224 <=? y) && (y <=? 239)) eqn:E3.
  { destruct a as [|z [|w a] ]; cbn [app] in Hv'; [destruct b; [done|by rewrite Hc in Hv']|by rewrite Hc, andb_false_r in Hv'|].
    apply andb_true_iff in Hv' as [Hz Hr]. apply (Hgo [y; z; w] a); [done|done|done|cbn [utf8_valid app]; by rewrite E1, E2, E3, Hz]. }
  destruct ((240 <=? y) && (y <=? 244)) eqn:E4; [|done].
  destruct a as [|z [|w [|v a] ] ]; cbn [app] in Hv'.
  - destruct b as [|? [|? ?] ]; [done|done|]. by rewrite Hc in Hv'.
  - destruct b as [|? ?]; [done|]. by rewrite Hc, andb_false_r in Hv'.
  - by rewrite Hc, andb_false_r in Hv'.
  - apply andb_true_iff in Hv' as [Hz Hr]. apply (Hgo [y; z; w; v] a); [done|done|done|cbn [utf8_valid app]; by rewrite E1, E2, E3, E4, Hz].
Qed.

(** ** Well-formed tokens *)

Definition is_eof (t : Token) : bool := match t_tok t with TEof => true | _ => false end.

(** An identifier that is not a keyword. *)
Definition ident_ok (s : str) : bool :=
  match s with
  | c :: r => ident_start c && bool_decide ((ident_span r).2 = []) && match keyword s with TId _ => true | _ => false end
  | [] => false
  end.

Definition path_char (c : Z) : bool := is_path_seg_char c || (c =? SLASH).

(** No two literals side by side. *)
Fixpoint apart_parts (parts : list StrPart) : bool :=
  match parts with
  | PLit _ :: ((PLit _ :: _) as rest) => false
  | _ :: rest => apart_parts rest
  | [] => true
  end.

Fixpoint tok_ok (t : Tok) : bool :=
  match t with
  | TId s => ident_ok s
  | TInt i => (0 <=? i) && (i <=? I64_MAX)
  | TPath s => forallb path_char s
  | TStr parts | TIndStr parts => forallb part_ok parts && apart_parts parts
  | _ => true
  end
with part_ok (p : StrPart) : bool :=
  match p with
  | PLit s => utf8_valid s && negb (bool_decide (s = []))
  | PInterp toks => forallb (fun t => token_ok t && negb (is_eof t)) toks
  end
with token_ok (t : Token) : bool := match t with mkToken tok _ => tok_ok tok end.

Definition parts_ok (parts : list StrPart) : bool := forallb part_ok parts && apart_parts parts.
Definition inner_ok (t : Token) : bool := token_ok t && negb (is_eof t).

(** The last part is not a literal. *)
Definition open_end (parts : list StrPart) : Prop := match last parts with Some (PLit _) => False | _ => True end.

Lemma apart_parts_snoc parts p : apart_parts parts = true -> open_end parts -> apart_parts (parts ++ [p]) = true.
Proof.
  unfold open_end. induction parts as [|x parts IH]; [by destruct p|]. intros Ha Ho. destruct x as [s|toks].
  - destruct parts as [|[s'|toks'] parts]; [done|done|]. apply IH; [done|]. done.
  - cbn [apart_parts app] in *. apply IH; [done|]. destruct parts; [done|]. exact Ho.
Qed.

Lemma apart_snoc_interp parts toks : apart_parts parts = true -> apart_parts (parts ++ [PInterp toks]) = true.
Proof.
  induction parts as [|x parts IH]; [done|]. intros Ha. destruct x as [s|toks']; [|by apply IH].
  destruct parts as [|[s'|toks'] parts]; [done|done|]. by apply IH.
Qed.

Lemma parts_snoc_interp parts toks : parts_ok parts = true -> forallb inner_ok toks = true ->
  parts_ok (parts ++ [PInterp toks]) = true /\ open_end (parts ++ [PInterp toks]).
Proof.
  unfold parts_ok, open_end. rewrite !andb_true_iff. intros [Hf Ha] Ht. rewrite last_snoc, forallb_app. split; [|done].
  split; [|by apply apart_snoc_interp]. rewrite Hf. change (forallb inner_ok toks && true = true). by rewrite Ht.
Qed.

Lemma flush_ok parts l : parts_ok parts = true -> open_end parts -> utf8_valid l = true ->
  exists parts', flush parts l = Ok parts' /\ parts_ok parts' = true.
Proof.
  unfold parts_ok, flush, bytes_to_string. intros Hp Ho Hl. destruct l as [|b l]; [by exists parts|]. rewrite Hl. cbn [result_bind].
  eexists. split; [done|]. apply andb_true_iff in Hp as [Hf Ha]. rewrite forallb_app, Hf, apart_parts_snoc by done. cbn [forallb part_ok]. by rewrite Hl.
Qed.

(** ** What indentation stripping keeps *)

Definition frag_ok (f : Frag) : Prop :=
  match f with FText t => utf8_valid t = true | FInterp toks => forallb inner_ok toks = true end.

Lemma push_last_ok f lines : frag_ok f -> Forall (Forall frag_ok) lines -> Forall (Forall frag_ok) (push_last f lines).
Proof.
  intros Hf Hl. unfold push_last. destruct (last lines) as [l|] eqn:E; [|done]. apply last_Some in E as [ls ->].
  apply Forall_app in Hl as [Hls Hl]. apply Forall_cons in Hl as [Hl _]. rewrite length_app, Nat.add_sub, take_app_length. apply Forall_app. split; [exact Hls|].
  apply Forall_singleton, Forall_app. split; [exact Hl|by apply Forall_singleton].
Qed.

Lemma push_piece_ok lines piece : utf8_valid piece = true -> Forall (Forall frag_ok) lines -> Forall (Forall frag_ok) (push_piece lines piece).
Proof. intros Hp Hl. unfold push_piece. destruct piece; [done|]. by apply push_last_ok. Qed.

Lemma split_utf8 s : utf8_valid s = true -> Forall (fun x => utf8_valid x = true) (split_on LF s).
Proof.
  assert (forall s q, utf8_valid (q ++ s) = true -> match split_on LF s with x :: l => utf8_valid (q ++ x) = true /\ Forall (fun x => utf8_valid x = true) l | [] => True end) as H.
  { induction s0 as [|b s0 IH]; intros q Hv; [split; [done|by apply Forall_nil]|]. cbn [split_on]. destruct (Z.eqb_spec b LF) as [->|Hne].
    - apply utf8_split in Hv as [Hq Hs]; [|by vm_compute]. rewrite app_nil_r. split; [done|]. specialize (IH [] Hs). destruct (split_on LF s0); [by apply Forall_nil|].
      apply Forall_cons. exact IH.
    - specialize (IH (q ++ [b])). rewrite <- app_assoc in IH. specialize (IH Hv). destruct (split_on LF s0) as [|x l] eqn:E; [by apply split_on_not_nil in E|].
      by rewrite <- app_assoc in IH. }
  intros Hv. specialize (H s [] Hv). destruct (split_on LF s); [by apply Forall_nil|]. by apply Forall_cons.
Qed.

Lemma push_lit_ok lines s : utf8_valid s = true -> Forall (Forall frag_ok) lines -> Forall (Forall frag_ok) (push_lit lines s).
Proof.
  intros Hs Hl. unfold push_lit. pose proof (split_utf8 s Hs) as Hp. destruct (split_on LF s) as [|first pieces]; [done|].
  apply Forall_cons in Hp as [Hf Hp]. pose proof (push_piece_ok _ _ Hf Hl) as H. revert H. generalize (push_piece lines first).
  induction pieces as [|x pieces IH]; intros ls H; [done|]. apply Forall_cons in Hp as [Hx Hp]. cbn [foldl]. apply IH; [done|].
  apply push_piece_ok; [done|]. apply Forall_app. split; [done|]. by apply Forall_singleton, Forall_nil.
Qed.

Lemma to_lines_ok parts : forallb part_ok parts = true -> Forall (Forall frag_ok) (to_lines parts).
Proof.
  unfold to_lines. assert (Forall (Forall frag_ok) [ [] ]) as H by by apply Forall_singleton, Forall_nil. revert H. generalize ([ [] ] : list (list Frag)).
  induction parts as [|p parts IH]; intros ls H Hp; [done|]. cbn [forallb] in Hp. apply andb_true_iff in Hp as [Hx Hp]. cbn [foldl]. apply IH; [|done].
  destruct p as [s|toks]; cbn [part_ok] in Hx.
  - apply andb_true_iff in Hx as [Hx _]. by apply push_lit_ok.
  - by apply push_last_ok.
Qed.

Lemma utf8_drop_spaces t : forall n, utf8_valid t = true -> (n <= leading_spaces t)%nat -> utf8_valid (drop n t) = true.
Proof.
  induction t as [|b t IH]; intros n Hv Hn; [by destruct n|]. destruct n as [|n]; [done|]. cbn [leading_spaces] in Hn.
  destruct (Z.eqb_spec b 32) as [->|]; [|lia]. cbn [drop]. apply IH; [|lia]. by rewrite <- (utf8_ascii_cons 32 t).
Qed.

Lemma strip_line_ok line : forall n, Forall frag_ok line -> Forall frag_ok (strip_line n line).
Proof.
  induction line as [|f line IH]; intros n Hl; destruct n as [|n]; cbn [strip_line]; try done.
  apply Forall_cons in Hl as [Hf Hl]. destruct f as [t|toks]; [|by apply Forall_cons].
  set (cut := Nat.min _ _). pose proof (utf8_drop_spaces t cut Hf) as Hd. destruct (drop cut t) as [|b t']; apply Forall_cons; split.
  - done.
  - by apply IH.
  - apply Hd. lia.
  - done.
Qed.

Lemma join_frags_ok fs : forall s, Forall frag_ok fs -> parts_ok s.1 = true -> open_end s.1 -> utf8_valid s.2 = true ->
  let s' := foldl join_frag s fs in parts_ok s'.1 = true /\ open_end s'.1 /\ utf8_valid s'.2 = true.
Proof.
  induction fs as [|f fs IH]; intros s Hf Hp Ho Hu; [done|]. apply Forall_cons in Hf as [Hf Hfs]. cbn [foldl]. apply IH; [done|..].
  all: destruct f as [t|toks]; cbn [join_frag fst snd]; try done; try (by apply utf8_valid_app).
  all: assert (parts_ok (push_text s.1 s.2) = true) as Hpt.
  all: try (destruct (flush_ok s.1 s.2 Hp Ho Hu) as (ps & E & Hok); unfold flush, bytes_to_string in E; unfold push_text; destruct s.2; [done|]; rewrite Hu in E; by injection E as <-).
  all: by destruct (parts_snoc_interp _ _ Hpt Hf).
Qed.

Lemma push_text_ok parts l : parts_ok parts = true -> open_end parts -> utf8_valid l = true -> parts_ok (push_text parts l) = true.
Proof.
  intros Hp Ho Hu. destruct (flush_ok parts l Hp Ho Hu) as (ps & E & Hok). unfold flush, bytes_to_string in E. unfold push_text.
  destruct l; [done|]. rewrite Hu in E. by injection E as <-.
Qed.

Lemma join_lines_ok lines : forall s, Forall (Forall frag_ok) lines -> parts_ok s.1 = true -> open_end s.1 -> utf8_valid s.2 = true ->
  parts_ok (join_lines lines s) = true.
Proof.
  induction lines as [|line rest IH]; intros s Hl Hp Ho Hu; [by apply push_text_ok|]. apply Forall_cons in Hl as [Hl Hr].
  destruct (join_frags_ok line s Hl Hp Ho Hu) as (H1 & H2 & H3). destruct rest as [|line2 rest]; [by apply push_text_ok|].
  apply IH; [done|done|done|]. cbn [snd]. by apply utf8_valid_app.
Qed.

Lemma strip_indentation_ok parts : forallb part_ok parts = true -> parts_ok (strip_indentation parts) = true.
Proof.
  intros Hp. unfold strip_indentation. pose proof (to_lines_ok parts Hp) as Hl. set (lines := to_lines parts) in *.
  assert (Forall (Forall frag_ok) (strip_line (min_indent lines) <$> lines)) as H1.
  { apply Forall_fmap. eapply Forall_impl; [exact Hl|]. intros l. by apply strip_line_ok. }
  revert H1. generalize (strip_line (min_indent lines) <$> lines). intros l1 H1.
  assert (Forall (Forall frag_ok) (drop_first l1)) as H2.
  { destruct l1 as [|x [|y l1] ]; [done|done|]. cbn. destruct (forallb _ x); [|done]. by apply Forall_cons in H1 as [_ H1]. }
  apply join_lines_ok; [|done|done|done]. unfold blank_last. destruct (last (drop_first l1)) as [l|]; [|done]. destruct (_ && _); [|done].
  apply Forall_app. split; [by apply Forall_take|]. by apply Forall_singleton, Forall_nil.
Qed.

(** ** Running the lexer *)

(** [m] returns with [Q], or reports an error. *)
Definition lruns {A} (m : LM A) (lx : Lexer) (Q : A -> Lexer -> Prop) : Prop :=
  match m lx with
  | Ok (a, lx') => Q a lx'
  | Err (Fails _) => True
  | Err _ => False
  end.

Lemma lruns_bind {A B} (m : LM A) (f : A -> LM B) lx Q : lruns m lx (fun a lx' => lruns (f a) lx' Q) -> lruns (m ≫= f) lx Q.
Proof. unfold lruns, mbind, lm_bind. by destruct (m lx) as [ [a lx']|e]. Qed.

Lemma lruns_mono {A} (m : LM A) lx (Q Q' : A -> Lexer -> Prop) : lruns m lx Q -> (forall a lx', Q a lx' -> Q' a lx') -> lruns m lx Q'.
Proof. unfold lruns. intros H HQ. destruct (m lx) as [ [a lx']|e]; auto. Qed.

Lemma lruns_ret {A} (a : A) lx (Q : A -> Lexer -> Prop) : Q a lx -> lruns (mret a) lx Q.
Proof. done. Qed.

Lemma lruns_err {A} lx (Q : A -> Lexer -> Prop) : lruns lex_err lx Q.
Proof. done. Qed.

Lemma lruns_fail {A} pos lx (Q : A -> Lexer -> Prop) : lruns (lift_lex (fail_at pos)) lx Q.
Proof. done. Qed.

Lemma lruns_do {B} f (k : unit -> LM B) lx Q : lruns (k tt) (f lx) Q -> lruns (lex_do f ≫= k) lx Q.
Proof. done. Qed.

Lemma lruns_look {B} n (k : option Z -> LM B) lx Q : lruns (k (peek lx n)) lx Q -> lruns (look n ≫= k) lx Q.
Proof. done. Qed.

(** Between tokens the rest of the source is valid UTF-8. *)
Definition valid (lx : Lexer) : Prop := utf8_valid (lx_src lx) = true.

Definition len (lx : Lexer) : nat := length (lx_src lx).

(** After some bytes, and a whole character. *)
Definition later (lx lx' : Lexer) : Prop := valid lx' /\ exists pre, adv lx lx' pre /\ pre <> [].

Lemma later_len lx lx' : later lx lx' -> (len lx' < len lx)%nat.
Proof. intros (_ & pre & Ha & Hne). pose proof (adv_len _ _ _ Ha). destruct pre; [done|]. unfold len. cbn in *. lia. Qed.

Lemma later_ascii lx lx' pre : valid lx -> adv lx lx' pre -> Forall ascii pre -> pre <> [] -> later lx lx'.
Proof. intros Hv Ha Hp Hne. split; [|by exists pre]. unfold valid in *. by rewrite (adv_src _ _ _ Ha), utf8_ascii_app in Hv. Qed.

Lemma later_trans lx lx1 lx2 : later lx lx1 -> later lx1 lx2 -> later lx lx2.
Proof.
  intros (_ & p & Hp & Hne) (Hv & q & Hq & _). split; [done|]. exists (p ++ q). split; [by eapply adv_trans|]. by destruct p.
Qed.

Lemma later_set_prev lx lx' tok : later lx lx' -> later lx (set_prev tok lx').
Proof. intros (Hv & pre & [Hs Hi] & Hne). split; [exact Hv|]. exists pre. split; [by split|done]. Qed.

Lemma later_bump_n pre lx r : valid lx -> lx_src lx = pre ++ r -> Forall ascii pre -> pre <> [] ->
  later lx (bump_n (length pre) lx) /\ lx_src (bump_n (length pre) lx) = r.
Proof. intros Hv E Hp Hne. destruct (bump_n_adv pre lx r E) as [Ha Er]. split; [by eapply later_ascii|done]. Qed.

(** *** White space and comments *)

Definition later_or_same (lx lx' : Lexer) : Prop := lx' = lx \/ later lx lx'.

Lemma later_len_le lx lx' : later_or_same lx lx' -> (len lx' <= len lx)%nat.
Proof. intros [->|H%later_len]; lia. Qed.

Lemma later_or_trans lx lx1 lx2 : later lx lx1 -> later_or_same lx1 lx2 -> later_or_same lx lx2.
Proof. intros H1 [->|H2]; right; [done|by eapply later_trans]. Qed.

Lemma peek_0 lx b : peek lx 0 = Some b -> exists r, lx_src lx = b :: r.
Proof. unfold peek. destruct (lx_src lx) as [|b' r]; [done|]. intros [= ->]. by exists r. Qed.

Lemma is_byte_eq o c : is_byte o c = true -> o = Some c.
Proof. destruct o as [b|]; [|done]. cbn. intros ->%Z.eqb_eq. done. Qed.

Lemma block_end_spec src : forall lx q, lx_src lx = src -> utf8_valid (q ++ src) = true ->
  match block_end src lx with Some lx' => later lx lx' | None => True end.
Proof.
  induction src as [|b src IH]; intros lx q E Hv; [done|]. cbn [block_end]. destruct ((b =? 42) && is_byte (head src) 47) eqn:Eb.
  - apply andb_true_iff in Eb as [->%Z.eqb_eq Hh%is_byte_eq]. destruct src as [|c src]; [done|]. injection Hh as ->.
    apply utf8_split in Hv as [_ Hv]; [|by vm_compute]. rewrite utf8_ascii_cons in Hv by by vm_compute.
    destruct (bump_n_adv [42; 47] lx src E) as [Ha Er]. cbn [length] in Ha, Er. split; [unfold valid; by rewrite Er|]. by exists [42; 47].
  - destruct (bump_adv lx b src E) as [Ha Er]. specialize (IH (bump lx) (q ++ [b]) Er). rewrite <- app_assoc in IH. specialize (IH Hv).
    destruct (block_end src (bump lx)) as [lx'|]; [|done]. destruct IH as (Hv' & pre & Hp & Hne). split; [done|].
    exists ([b] ++ pre). split; [by eapply adv_trans|done].
Qed.

Lemma skip_ws_spec n : forall lx, valid lx -> (len lx < n)%nat ->
  match skip_ws n lx with Ok lx' => valid lx' /\ later_or_same lx lx' | Err (Fails _) => True | Err _ => False end.
Proof.
  induction n as [|n IH]; intros lx Hv Hn; [lia|]. cbn [skip_ws]. destruct (peek lx 0) as [b|] eqn:Ep; [|split; [done|by left] ].
  destruct (peek_0 _ _ Ep) as [r Er].
  assert (forall lx1, later lx lx1 -> match skip_ws n lx1 with Ok lx' => valid lx' /\ later_or_same lx lx' | Err (Fails _) => True | Err _ => False end) as Hgo.
  { intros lx1 H1. pose proof (later_len _ _ H1). specialize (IH lx1 (proj1 H1) ltac:(lia)). destruct (skip_ws n lx1) as [lx'|e]; [|done].
    destruct IH as [Hv' Hl]. split; [done|by eapply later_or_trans]. }
  destruct ((b =? 32) || (b =? 9) || (b =? 10) || (b =? 13)) eqn:Ew.
  { apply Hgo. apply (later_bump_n [b] lx r Hv Er); [|done]. apply Forall_singleton. unfold ascii.
    rewrite !orb_true_iff, !Z.eqb_eq in Ew. lia. }
  destruct (Z.eqb_spec b 35) as [->|Hne].
  { apply Hgo. destruct (bump_while_adv (fun c => negb (c =? 10)) lx) as [Ha Es]. rewrite Er in Ha, Es. cbn [span_while] in Ha, Es.
    change (negb (35 =? 10)) with true in Ha, Es. cbn iota in Ha, Es.
    pose proof (span_while_rest (fun c => negb (c =? 10)) r) as Hrest. pose proof (span_while_app (fun c => negb (c =? 10)) r) as Hr.
    unfold valid in Hv. rewrite Er, utf8_ascii_cons in Hv by by vm_compute. destruct (span_while _ r) as [a s]. cbn [fst snd negb] in *.
    split; [|eexists; split; [exact Ha|done] ]. unfold valid. rewrite Es. destruct s as [|c s]; [done|]. cbn in Hrest.
    apply negb_false_iff, Z.eqb_eq in Hrest as ->. rewrite Hr in Hv. rewrite utf8_ascii_cons by by vm_compute.
    by apply utf8_split in Hv as [_ Hv]; [|by vm_compute]. }
  destruct ((b =? 47) && is_byte (peek lx 1) 42) eqn:Ec; [|split; [done|by left] ].
  apply andb_true_iff in Ec as [->%Z.eqb_eq Hc%is_byte_eq]. unfold peek in Hc. rewrite Er in Hc. destruct r as [|c r]; [done|]. injection Hc as ->.
  destruct (later_bump_n [47; 42] lx r Hv Er) as [Hl Es]; [by repeat constructor|done|].
  pose proof (block_end_spec (lx_src (bump_n 2 lx)) (bump_n 2 lx) [] eq_refl (proj1 Hl)) as Hb.
  destruct (block_end _ _) as [lx2|]; [|done]. apply Hgo. by eapply later_trans.
Qed.

(** *** Words, numbers and paths *)

Ltac byte_class :=
  unfold ident_start, ident_char, is_path_seg_char, is_alnum, is_upper, is_lower, is_digit, ascii in *;
  repeat rewrite ?orb_true_iff, ?andb_true_iff, ?Z.leb_le, ?Z.eqb_eq in *; lia.

Lemma ident_start_ascii c : ident_start c = true -> ascii c.
Proof. intros H. byte_class. Qed.

Lemma ident_char_ascii c : ident_char c = true -> ascii c.
Proof. intros H. byte_class. Qed.

Lemma digit_ascii c : is_digit c = true -> ascii c.
Proof. intros H. byte_class. Qed.

Lemma path_seg_ascii c : is_path_seg_char c = true -> ascii c.
Proof. intros H. byte_class. Qed.

Lemma ident_span_ascii src : Forall ascii (ident_span src).1.
Proof.
  induction src as [|c src IH]; [by apply Forall_nil|]. cbn. destruct (ident_char c || _) eqn:E; [|by apply Forall_nil].
  destruct (ident_span src). apply Forall_cons. split; [|done]. apply orb_true_iff in E as [E|E]; [by apply ident_char_ascii|].
  apply andb_true_iff in E as [->%Z.eqb_eq _]. by vm_compute.
Qed.

(** The tail of an identifier is an identifier's tail by itself. *)
Lemma ident_span_idem src : ident_span (ident_span src).1 = ((ident_span src).1, []).
Proof.
  induction src as [|c src IH]; [done|]. cbn [ident_span]. destruct (ident_char c || _) eqn:E; [|done].
  destruct (ident_span src) as [a r] eqn:Es. cbn [fst ident_span] in *.
  assert (ident_char c || (c =? 45) && is_some_and ident_char (head a) = true) as ->; [|by rewrite IH].
  apply orb_true_iff in E as [->|E]; [done|]. apply orb_true_iff. right. apply andb_true_iff in E as [-> E]. cbn [andb].
  destruct src as [|d src]; [done|]. cbn in E. cbn [ident_span] in Es. rewrite E in Es. cbn [orb] in Es. destruct (ident_span src). by injection Es as <- <-.
Qed.

Lemma keyword_ok text : (forall s, keyword text = TId s -> s = text /\ ident_ok text = true) -> tok_ok (keyword text) = true.
Proof.
  intros H. destruct (keyword text) eqn:E; try done; [by destruct (H s eq_refl) as [-> ?]|..];
  exfalso; unfold keyword in E; repeat case_bool_decide; discriminate.
Qed.

Lemma lex_ident_spec lx b r : valid lx -> lx_src lx = b :: r -> ident_start b = true ->
  lruns lex_ident lx (fun tok lx' => tok_ok tok = true /\ tok <> TEof /\ later lx lx').
Proof.
  intros Hv E Hb. unfold lex_ident, lruns. destruct (bump_adv lx b r E) as [H1 E1]. rewrite E1.
  destruct (ident_tail_adv r (bump lx) E1) as [H2 E2]. pose proof (adv_trans _ _ _ _ _ H1 H2) as Ha.
  assert (Forall ascii ([b] ++ (ident_span r).1)) as Hasc by (apply Forall_cons; split; [by apply ident_start_ascii|apply ident_span_ascii]).
  unfold mbind, lm_bind, text_since. rewrite (adv_text _ _ _ Ha), (utf8_ascii _ Hasc). split; [|split].
  - apply keyword_ok. intros s Ek. assert (s = [b] ++ (ident_span r).1) as -> by (unfold keyword in Ek; repeat case_bool_decide; congruence).
    split; [done|]. unfold ident_ok. cbn [app]. rewrite Hb, ident_span_idem. change (b :: (ident_span r).1) with ([b] ++ (ident_span r).1). by rewrite Ek.
  - unfold keyword. repeat case_bool_decide; discriminate.
  - by eapply later_ascii.
Qed.

Lemma digits_nonneg s : forall n, Forall (fun c => is_digit c = true) s -> 0 <= n -> 0 <= foldl (fun n c => n * 10 + (c - 48)) n s.
Proof.
  induction s as [|c s IH]; intros n Hs Hn; [done|]. apply Forall_cons in Hs as [Hc Hs]. cbn [foldl]. apply IH; [done|].
  unfold is_digit in Hc. rewrite andb_true_iff, !Z.leb_le in Hc. lia.
Qed.

Lemma lex_int_spec lx b r : valid lx -> lx_src lx = b :: r -> is_digit b = true ->
  lruns lex_int lx (fun tok lx' => tok_ok tok = true /\ tok <> TEof /\ later lx lx').
Proof.
  intros Hv E Hb. unfold lex_int, lruns. destruct (bump_while_adv is_digit lx) as [Ha Es]. pose proof (span_while_all is_digit (lx_src lx)) as Hd.
  assert ((span_while is_digit (lx_src lx)).1 <> []) as Hne by (rewrite E; cbn; rewrite Hb; by destruct (span_while is_digit r)).
  set (text := (span_while is_digit (lx_src lx)).1) in *.
  assert (Forall ascii text) as Hasc by (eapply Forall_impl; [exact Hd|]; intros c; apply digit_ascii).
  unfold mbind, lm_bind, text_since. rewrite (adv_text _ _ _ Ha), (utf8_ascii _ Hasc). unfold parse_i64.
  destruct (Z.leb_spec (digits_value text) I64_MAX) as [Hle|]; [|done]. split; [|split; [done|by eapply later_ascii] ].
  cbn [tok_ok]. rewrite andb_true_iff, !Z.leb_le. split; [|done]. by apply digits_nonneg.
Qed.

Lemma path_segs_spec n : forall any lx, (len lx < n)%nat ->
  match path_segs n any lx with
  | Ok (any', lx') => exists pre, adv lx lx' pre /\ forallb path_char pre = true /\ (any' = true -> any = true \/ pre <> [])
  | Err (Fails _) => True
  | Err _ => False
  end.
Proof.
  induction n as [|n IH]; intros any lx Hn; [lia|]. cbn [path_segs].
  destruct (is_byte (peek lx 0) 47 && is_some_and is_path_seg_char (peek lx 1)) eqn:E; cycle 1.
  { exists []. split; [apply adv_refl|]. split; [done|]. by left. }
  apply andb_true_iff in E as [E0%is_byte_eq E1]. destruct (peek_0 _ _ E0) as [r Er].
  destruct (bump_adv lx 47 r Er) as [H1 Es1]. destruct (bump_while_adv is_path_seg_char (bump lx)) as [H2 Es2].
  pose proof (span_while_all is_path_seg_char (lx_src (bump lx))) as Hall. set (seg := (span_while _ _).1) in *.
  pose proof (adv_trans _ _ _ _ _ H1 H2) as Ha. specialize (IH true (bump_while is_path_seg_char (bump lx))).
  pose proof (adv_len _ _ _ Ha) as Hl. unfold len in *. rewrite length_app in Hl. cbn [length] in Hl. specialize (IH ltac:(lia)).
  destruct (path_segs n true _) as [ [any' lx']|e]; [|done]. destruct IH as (pre & Hp & Hc & _). exists (([47] ++ seg) ++ pre).
  split; [by eapply adv_trans|]. split; [|by right]. rewrite !forallb_app, Hc. cbn [forallb]. rewrite andb_true_r.
  assert (forallb path_char seg = true) as ->; [|done]. apply forallb_forall. intros c Hin. rewrite Forall_forall in Hall.
  unfold path_char. by rewrite (Hall c (proj2 (list_elem_of_In _ _) Hin)).
Qed.

Lemma path_char_ascii c : path_char c = true -> ascii c.
Proof. unfold path_char, SLASH. intros H. byte_class. Qed.

Lemma lex_path_spec lx b r : valid lx -> lx_src lx = b :: r ->
  lruns lex_path lx (fun tok lx' => tok_ok tok = true /\ tok <> TEof /\ later lx lx').
Proof.
  intros Hv E. unfold lex_path, lruns. set (lx1 := if is_byte (peek lx 0) 46 then _ else lx).
  assert (exists pre, adv lx lx1 pre /\ forallb path_char pre = true) as (pre1 & H1 & Hc1).
  { subst lx1. destruct (is_byte (peek lx 0) 46) eqn:E0; [|exists []; split; [apply adv_refl|done] ].
    apply is_byte_eq in E0. destruct (peek_0 _ _ E0) as [r0 Er0]. destruct (bump_adv lx 46 r0 Er0) as [H1 Es1].
    destruct (is_byte (peek (bump lx) 0) 46) eqn:E1; [|exists [46]; by split].
    apply is_byte_eq in E1. destruct (peek_0 _ _ E1) as [r1 Er1]. destruct (bump_adv (bump lx) 46 r1 Er1) as [H2 Es2].
    exists ([46] ++ [46]). split; [by eapply adv_trans|done]. }
  pose proof (path_segs_spec (S (length (lx_src lx1))) false lx1) as Hs. unfold len in Hs. specialize (Hs ltac:(lia)).
  destruct (path_segs _ false lx1) as [ [any lx2]|e]; [|done]. destruct Hs as (pre & H2 & Hc2 & Hany). destruct any; [|done].
  destruct (Hany eq_refl) as [|Hne]; [done|]. pose proof (adv_trans _ _ _ _ _ H1 H2) as Ha.
  assert (forallb path_char (pre1 ++ pre) = true) as Hc by by rewrite forallb_app, Hc1, Hc2.
  assert (Forall ascii (pre1 ++ pre)) as Hasc.
  { apply Forall_forall. intros c Hin%list_elem_of_In. rewrite forallb_forall in Hc. by apply path_char_ascii, Hc. }
  unfold mbind, lm_bind, text_since. rewrite (adv_text _ _ _ Ha), (utf8_ascii _ Hasc). split; [exact Hc|]. split; [done|].
  eapply later_ascii; [done|exact Ha|done|]. by destruct pre1.
Qed.

(** *** Strings *)

Ltac ascii_all := repeat first [by apply Forall_nil | apply Forall_cons; split; [assumption || by vm_compute|] ].

Lemma adv_later lx lx1 lx2 pre : adv lx lx1 pre -> later lx1 lx2 -> later lx lx2.
Proof.
  intros Hp (Hv & q & Hq & Hne). split; [done|]. exists (pre ++ q). split; [by eapply adv_trans|]. by destruct pre.
Qed.

(** The literal so far may end in the middle of a character. *)
Definition pending (l : list Z) (lx : Lexer) : Prop :=
  exists v q, l = v ++ q /\ utf8_valid v = true /\ utf8_valid (q ++ lx_src lx) = true.

Lemma pending_nil lx : valid lx -> pending [] lx.
Proof. intros Hv. by exists [], []. Qed.

Lemma pending_cut l lx pre r : pending l lx -> lx_src lx = pre ++ r -> Forall ascii pre -> pre <> [] -> utf8_valid l = true /\ utf8_valid r = true.
Proof.
  intros (v & q & -> & Hv & Hq) E Hp Hne. destruct pre as [|x pre]; [done|]. rewrite E in Hq. cbn [app] in Hq. apply Forall_cons in Hp as [Hx Hp].
  apply utf8_split in Hq as [Hq Hr]; [|done]. rewrite utf8_ascii_app in Hr by done. split; [by apply utf8_valid_app|done].
Qed.

Lemma pending_push l lx b r : pending l lx -> lx_src lx = b :: r -> pending (l ++ [b]) (bump lx).
Proof.
  intros (v & q & -> & Hv & Hq) E. destruct (bump_adv lx b r E) as [_ Er]. exists v, (q ++ [b]). rewrite Er, <- !app_assoc.
  split; [done|]. split; [done|]. by rewrite E in Hq.
Qed.

(** A run of ASCII bytes that stands for the ASCII bytes [c]. *)
Lemma pending_escape l lx pre c r : pending l lx -> lx_src lx = pre ++ r -> Forall ascii pre -> pre <> [] -> Forall ascii c ->
  pending (l ++ c) (bump_n (length pre) lx).
Proof.
  intros Hl E Hp Hne Hc. destruct (pending_cut _ _ _ _ Hl E Hp Hne) as [Hv Hr]. destruct (bump_n_adv pre lx r E) as [_ Er].
  exists (l ++ c), []. rewrite app_nil_r, Er. split; [done|]. split; [|done]. apply utf8_valid_app; [done|by apply utf8_ascii].
Qed.

Lemma quoted_escape_ascii e c : quoted_escape e = Some c -> ascii e /\ ascii c.
Proof. unfold quoted_escape. intros H. repeat match type of H with (if ?x =? ?y then _ else _) = _ => destruct (Z.eqb_spec x y); [injection H as <-; subst; by vm_compute|] end. done. Qed.

Lemma indented_escape_ascii e c : indented_escape e = Some c -> ascii e /\ ascii c.
Proof. unfold indented_escape. intros H. repeat match type of H with (if ?x =? ?y then _ else _) = _ => destruct (Z.eqb_spec x y); [injection H as <-; subst; by vm_compute|] end. done. Qed.

(** What the recursive calls promise for fewer than [n] bytes. *)
Record lex_good (rec : LexRec) (n : nat) : Prop := {
  lg_next : forall lx, valid lx -> (len lx < n)%nat ->
    lruns (lr_next rec) lx (fun t lx' => token_ok t = true /\ if is_eof t then valid lx' else later lx lx');
  lg_interp : forall lx open depth toks, valid lx -> (len lx + 1 < n)%nat -> forallb inner_ok toks = true ->
    lruns (lr_interp rec open depth toks) lx (fun toks' lx' => forallb inner_ok toks' = true /\ later lx lx');
  lg_quoted : forall lx open parts l, pending l lx -> (len lx < n)%nat -> parts_ok parts = true -> open_end parts ->
    lruns (lr_quoted rec open parts l) lx (fun parts' lx' => parts_ok parts' = true /\ later lx lx');
  lg_indented : forall lx open parts l, pending l lx -> (len lx < n)%nat -> parts_ok parts = true -> open_end parts ->
    lruns (lr_indented rec open parts l) lx (fun parts' lx' => parts_ok parts' = true /\ later lx lx')
}.

Section rec.
Context (rec : LexRec) (n : nat) (Hrec : lex_good rec n).

Lemma interp_loop_spec lx open depth toks : valid lx -> (len lx + 1 < S n)%nat -> forallb inner_ok toks = true ->
  lruns (interp_loop rec open depth toks) lx (fun toks' lx' => forallb inner_ok toks' = true /\ later lx lx').
Proof.
  intros Hv Hn Ht. unfold interp_loop. apply lruns_bind. eapply lruns_mono; [apply (lg_next _ _ Hrec); [done|lia]|].
  intros t lx1 [Hok Hlat]. destruct (is_eof t) eqn:Eeof; [unfold is_eof in Eeof; destruct (t_tok t); try done; apply lruns_fail|].
  assert (forall depth', lruns (lr_interp rec open depth' (toks ++ [t])) lx1 (fun toks' lx' => forallb inner_ok toks' = true /\ later lx lx')) as Hgo.
  { intros depth'. pose proof (later_len _ _ Hlat). eapply lruns_mono; [apply (lg_interp _ _ Hrec); [apply Hlat|lia|]|].
    - rewrite forallb_app, Ht. cbn. unfold inner_ok. by rewrite Hok, Eeof.
    - intros toks' lx2 [H1 H2]. split; [done|by eapply later_trans]. }
  unfold is_eof in Eeof. destruct (t_tok t); try done; try apply Hgo. destruct depth as [|depth]; [|apply Hgo]. by apply lruns_ret.
Qed.

Lemma lex_interp_spec lx : valid lx -> (len lx + 1 < n)%nat ->
  lruns (lex_interp rec) lx (fun toks lx' => forallb inner_ok toks = true /\ later lx lx').
Proof. intros Hv Hn. exact (lg_interp _ _ Hrec lx (lx_pos lx) 0 [] Hv Hn eq_refl). Qed.

(** The step at an interpolation, for both kinds of strings. *)
Lemma interp_step lx open parts l r (loop : SrcPos -> list StrPart -> list Z -> LM (list StrPart)) :
  (forall lx parts l, pending l lx -> (len lx < n)%nat -> parts_ok parts = true -> open_end parts ->
     lruns (loop open parts l) lx (fun parts' lx' => parts_ok parts' = true /\ later lx lx')) ->
  pending l lx -> (len lx < S n)%nat -> parts_ok parts = true -> open_end parts -> lx_src lx = 36 :: 123 :: r ->
  lruns (_ ← lex_do (bump_n 2); parts' ← lift_lex (flush parts l); toks ← lex_interp rec; loop open (parts' ++ [PInterp toks]) []) lx
    (fun parts' lx' => parts_ok parts' = true /\ later lx lx').
Proof.
  intros Hloop Hl Hn Hp Ho E. apply lruns_do. destruct (pending_cut l lx [36; 123] r Hl E) as [Hlv Hr]; [ascii_all|done|].
  destruct (bump_n_adv [36; 123] lx r E) as [Ha Er]. cbn [length] in Ha, Er. set (lx2 := bump_n 2 lx) in *.
  assert (valid lx2) as Hv2 by (unfold valid; by rewrite Er). pose proof (adv_len _ _ _ Ha) as Hlen. cbn [length] in Hlen.
  destruct (flush_ok parts l Hp Ho Hlv) as (parts' & -> & Hp'). apply lruns_bind. unfold lruns at 1, lift_lex. apply lruns_bind.
  eapply lruns_mono; [apply lex_interp_spec; [done|unfold len in *; lia]|]. intros toks lx3 [Ht Hlat]. pose proof (later_len _ _ Hlat).
  destruct (parts_snoc_interp _ _ Hp' Ht) as [Hp3 Ho3]. eapply lruns_mono; [apply Hloop; [apply pending_nil, Hlat|unfold len in *; lia|done|done]|].
  intros parts3 lx4 [H3 H4]. split; [done|]. eapply adv_later; [exact Ha|]. by eapply later_trans.
Qed.

(** A step that reads [pre] and goes on. *)
Lemma text_step lx open parts l pre c r (loop : SrcPos -> list StrPart -> list Z -> LM (list StrPart)) :
  (forall lx parts l, pending l lx -> (len lx < n)%nat -> parts_ok parts = true -> open_end parts ->
     lruns (loop open parts l) lx (fun parts' lx' => parts_ok parts' = true /\ later lx lx')) ->
  pending (l ++ c) (bump_n (length pre) lx) -> (len lx < S n)%nat -> parts_ok parts = true -> open_end parts -> lx_src lx = pre ++ r -> pre <> [] ->
  lruns (loop open parts (l ++ c)) (bump_n (length pre) lx) (fun parts' lx' => parts_ok parts' = true /\ later lx lx').
Proof.
  intros Hloop Hl Hn Hp Ho E Hne. destruct (bump_n_adv pre lx r E) as [Ha Er]. pose proof (adv_len _ _ _ Ha) as Hlen.
  eapply lruns_mono; [apply Hloop; [done|destruct pre; [done|unfold len in *; cbn in *; lia]|done|done]|].
  intros parts' lx' [H1 H2]. split; [done|]. by eapply adv_later.
Qed.

(** The end of a string. *)
Lemma end_step lx parts l pre r : pending l lx -> parts_ok parts = true -> open_end parts -> lx_src lx = pre ++ r -> Forall ascii pre -> pre <> [] ->
  lruns (lift_lex (flush parts l)) (bump_n (length pre) lx) (fun parts' lx' => parts_ok parts' = true /\ later lx lx').
Proof.
  intros Hl Hp Ho E Hasc Hne. destruct (pending_cut l lx pre r Hl E Hasc Hne) as [Hlv Hr]. destruct (bump_n_adv pre lx r E) as [Ha Er].
  destruct (flush_ok parts l Hp Ho Hlv) as (parts' & -> & Hp'). split; [done|]. split; [unfold valid; by rewrite Er|]. by exists pre.
Qed.

Lemma quoted_loop_spec lx open parts l : pending l lx -> (len lx < S n)%nat -> parts_ok parts = true -> open_end parts ->
  lruns (quoted_loop rec open parts l) lx (fun parts' lx' => parts_ok parts' = true /\ later lx lx').
Proof.
  intros Hl Hn Hp Ho. unfold quoted_loop. apply lruns_look, lruns_look. destruct (peek lx 0) as [b|] eqn:E0; [|apply lruns_fail].
  destruct (peek_0 _ _ E0) as [r Er]. pose proof (fun lx => lg_quoted _ _ Hrec lx open) as Hloop.
  destruct (Z.eqb_spec b 34) as [->|].
  { apply lruns_do. exact (end_step lx parts l [34] r Hl Hp Ho Er ltac:(ascii_all) ltac:(done)). }
  destruct (Z.eqb_spec b 92) as [->|].
  { apply lruns_do. destruct (peek lx 1) as [e|] eqn:E1; [|apply lruns_err]. destruct (quoted_escape e) as [c|] eqn:Ee; [|apply lruns_err]. apply lruns_do.
    unfold peek in E1. rewrite Er in E1. destruct r as [|e' r]; [done|]. injection E1 as ->. destruct (quoted_escape_ascii _ _ Ee) as [He Hc].
    apply (text_step lx open parts l [92; e] [c] r (lr_quoted rec) Hloop); [|done..].
    apply (pending_escape l lx [92; e] [c] r Hl Er); [ascii_all|done|ascii_all]. }
  destruct ((b =? 36) && is_byte (peek lx 1) 123) eqn:Ei.
  { apply andb_true_iff in Ei as [->%Z.eqb_eq E1%is_byte_eq]. unfold peek in E1. rewrite Er in E1. destruct r as [|c r]; [done|]. injection E1 as ->.
    by apply (interp_step lx open parts l r (lr_quoted rec) Hloop). }
  apply lruns_do. apply (text_step lx open parts l [b] [b] r (lr_quoted rec) Hloop); [|done..]. by eapply pending_push.
Qed.

Lemma indented_loop_spec lx open parts l : pending l lx -> (len lx < S n)%nat -> parts_ok parts = true -> open_end parts ->
  lruns (indented_loop rec open parts l) lx (fun parts' lx' => parts_ok parts' = true /\ later lx lx').
Proof.
  intros Hl Hn Hp Ho. unfold indented_loop. do 4 apply lruns_look. destruct (peek lx 0) as [b|] eqn:E0; [|apply lruns_fail].
  destruct (peek_0 _ _ E0) as [r Er]. pose proof (fun lx => lg_indented _ _ Hrec lx open) as Hloop.
  assert (forall pre c r', lx_src lx = pre ++ r' -> Forall ascii pre -> pre <> [] -> Forall ascii c ->
    lruns (lr_indented rec open parts (l ++ c)) (bump_n (length pre) lx) (fun parts' lx' => parts_ok parts' = true /\ later lx lx')) as Hesc.
  { intros pre c r' E Hpre Hne Hc. apply (text_step lx open parts l pre c r' (lr_indented rec) Hloop); [|done..]. by eapply pending_escape. }
  destruct ((b =? 39) && is_byte (peek lx 1) 39) eqn:Eq.
  - apply andb_true_iff in Eq as [->%Z.eqb_eq E1%is_byte_eq]. unfold peek in *. rewrite Er in *. destruct r as [|c1 r]; [done|]. injection E1 as ->.
    destruct (is_byte _ 39) eqn:E2.
    { apply is_byte_eq in E2. destruct r as [|c2 r]; [done|]. injection E2 as ->. apply lruns_do.
      exact (Hesc [39; 39; 39] [39; 39] r eq_refl ltac:(ascii_all) ltac:(done) ltac:(ascii_all)). }
    destruct (is_byte _ 36 && is_byte _ 123) eqn:E3.
    { apply andb_true_iff in E3 as [E3%is_byte_eq E4%is_byte_eq]. destruct r as [|c2 [|c3 r] ]; [done|done|]. injection E3 as ->. injection E4 as ->. apply lruns_do.
      exact (Hesc [39; 39; 36; 123] [36; 123] r eq_refl ltac:(ascii_all) ltac:(done) ltac:(ascii_all)). }
    destruct (is_byte _ 92) eqn:E4.
    { apply is_byte_eq in E4. destruct r as [|c2 r]; [done|]. injection E4 as ->. apply lruns_do.
      destruct r as [|e r]; [apply lruns_err|]. change ((39 :: 39 :: 92 :: e :: r) !! 3%nat) with (Some e). cbn iota.
      destruct (indented_escape e) as [c|] eqn:Ee; [|apply lruns_err]. apply lruns_do. destruct (indented_escape_ascii _ _ Ee) as [He Hc].
      apply (Hesc [39; 39; 92; e] [c] r eq_refl); [ascii_all|done|ascii_all]. }
    apply lruns_do, lruns_bind. eapply lruns_mono; [exact (end_step lx parts l [39; 39] r Hl Hp Ho Er ltac:(ascii_all) ltac:(done))|].
    intros parts' lx' [Hok Hlat]. apply lruns_ret. split; [|done]. apply strip_indentation_ok. unfold parts_ok in Hok. by apply andb_true_iff in Hok as [? _].
  - destruct ((b =? 36) && is_byte (peek lx 1) 123) eqn:Ei.
    { apply andb_true_iff in Ei as [->%Z.eqb_eq E1%is_byte_eq]. unfold peek in E1. rewrite Er in E1. destruct r as [|c r]; [done|]. injection E1 as ->.
      by apply (interp_step lx open parts l r (lr_indented rec) Hloop). }
    apply lruns_do. apply (text_step lx open parts l [b] [b] r (lr_indented rec) Hloop); [|done..]. by eapply pending_push.
Qed.

End rec.

(** *** Tokens *)

Definition a_token (lx : Lexer) (tok : Tok) (lx' : Lexer) : Prop := tok_ok tok = true /\ tok <> TEof /\ later lx lx'.

Lemma fixed_spec lx pre r tok : valid lx -> lx_src lx = pre ++ r -> Forall ascii pre -> pre <> [] -> tok_ok tok = true -> tok <> TEof ->
  lruns (fixed (length pre) tok) lx (a_token lx).
Proof. intros Hv E Hp Hne Ht Hne'. unfold fixed. apply lruns_do, lruns_ret. split; [done|]. split; [done|]. by apply (later_bump_n pre lx r). Qed.

Lemma one_or_two_spec lx b r c long short : valid lx -> lx_src lx = b :: r -> ascii b -> ascii c -> tok_ok long = true -> long <> TEof ->
  tok_ok short = true -> short <> TEof -> lruns (one_or_two c long short) lx (a_token lx).
Proof.
  intros Hv E Hb Hc H1 H2 H3 H4. unfold one_or_two. apply lruns_look. destruct (is_byte (peek lx 1) c) eqn:Ec.
  - apply is_byte_eq in Ec. unfold peek in Ec. rewrite E in Ec. destruct r as [|c' r]; [done|]. injection Ec as ->.
    apply (fixed_spec lx [b; c] r); [done|done|ascii_all|done..].
  - apply (fixed_spec lx [b] r); [done|done|ascii_all|done..].
Qed.

Lemma two_or_err_spec lx b r c tok : valid lx -> lx_src lx = b :: r -> ascii b -> ascii c -> tok_ok tok = true -> tok <> TEof ->
  lruns (two_or_err c tok) lx (a_token lx).
Proof.
  intros Hv E Hb Hc H1 H2. unfold two_or_err. apply lruns_look. destruct (is_byte (peek lx 1) c) eqn:Ec; [|apply lruns_err].
  apply is_byte_eq in Ec. unfold peek in Ec. rewrite E in Ec. destruct r as [|c' r]; [done|]. injection Ec as ->.
  apply (fixed_spec lx [b; c] r); [done|done|ascii_all|done..].
Qed.

Section tok.
Context (rec : LexRec) (n : nat) (Hrec : lex_good rec n).

Lemma quoted_spec lx r : valid lx -> (len lx < S n)%nat -> lx_src lx = 34 :: r ->
  lruns (_ ← lex_do bump; parts ← lex_quoted rec; mret (TStr parts)) lx (a_token lx).
Proof.
  intros Hv Hn E. destruct (later_bump_n [34] lx r Hv E) as [Hl Er]; [ascii_all|done|]. pose proof (later_len _ _ Hl) as Hless. apply lruns_do, lruns_bind.
  eapply lruns_mono; [exact (quoted_loop_spec rec n Hrec (bump lx) (lx_pos (bump lx)) [] [] (pending_nil _ (proj1 Hl)) (Nat.lt_trans _ _ _ Hless Hn) eq_refl I)|].
  intros parts lx' [Hp Hlat]. apply lruns_ret. split; [exact Hp|]. split; [done|by eapply later_trans].
Qed.

Lemma indented_spec lx r : valid lx -> (len lx < S n)%nat -> lx_src lx = 39 :: 39 :: r ->
  lruns (_ ← lex_do (bump_n 2); parts ← lex_indented rec; mret (TIndStr parts)) lx (a_token lx).
Proof.
  intros Hv Hn E. destruct (later_bump_n [39; 39] lx r Hv E) as [Hl Er]; [ascii_all|done|]. pose proof (later_len _ _ Hl) as Hless. apply lruns_do, lruns_bind.
  eapply lruns_mono; [exact (indented_loop_spec rec n Hrec (bump_n 2 lx) (lx_pos (bump_n 2 lx)) [] [] (pending_nil _ (proj1 Hl)) (Nat.lt_trans _ _ _ Hless Hn) eq_refl I)|].
  intros parts lx' [Hp Hlat]. apply lruns_ret. split; [exact Hp|]. split; [done|by eapply later_trans].
Qed.

Lemma dot_spec lx r : valid lx -> lx_src lx = 46 :: r ->
  lruns (if is_byte (peek lx 1) 47 || (is_byte (peek lx 1) 46 && is_byte (peek lx 2) 47) then lex_path
         else if is_byte (peek lx 1) 46 && is_byte (peek lx 2) 46 then fixed 3 TEllipsis else fixed 1 TDot) lx (a_token lx).
Proof.
  intros Hv E. destruct (_ || _); [by eapply lex_path_spec|]. destruct (is_byte (peek lx 1) 46 && is_byte (peek lx 2) 46) eqn:E2.
  - apply andb_true_iff in E2 as [E1%is_byte_eq E2%is_byte_eq]. unfold peek in *. rewrite E in *. destruct r as [|c1 [|c2 r] ]; [done|done|].
    injection E1 as ->. injection E2 as ->. apply (fixed_spec lx [46; 46; 46] r); [done|done|ascii_all|done..].
  - apply (fixed_spec lx [46] r); [done|done|ascii_all|done..].
Qed.

Lemma slash_spec lx r glued : valid lx -> lx_src lx = 47 :: r ->
  lruns (if negb glued && is_some_and is_path_seg_char (peek lx 1) then lex_path
         else if is_byte (peek lx 1) 47 then fixed 2 TUpdate else fixed 1 TSlash) lx (a_token lx).
Proof.
  intros Hv E. destruct (_ && _); [by eapply lex_path_spec|]. exact (one_or_two_spec lx 47 r 47 TUpdate TSlash Hv E ltac:(by vm_compute) ltac:(by vm_compute)
    eq_refl ltac:(done) eq_refl ltac:(done)).
Qed.

Lemma lex_tok_spec glued lx b r : valid lx -> (len lx < S n)%nat -> lx_src lx = b :: r -> lruns (lex_tok rec glued b) lx (a_token lx).
Proof.
  intros Hv Hn E. unfold lex_tok. apply lruns_look, lruns_look.
  destruct (ident_start b) eqn:Ei; [by eapply lex_ident_spec|]. destruct (is_digit b) eqn:Ed; [by eapply lex_int_spec|].
  destruct (Z.eqb_spec b 34) as [->|]; [by eapply quoted_spec|].
  destruct ((b =? 39) && is_byte (peek lx 1) 39) eqn:Eq.
  { apply andb_true_iff in Eq as [->%Z.eqb_eq E1%is_byte_eq]. unfold peek in E1. rewrite E in E1. destruct r as [|c r]; [done|]. injection E1 as ->.
    by eapply indented_spec. }
  destruct (Z.eqb_spec b 46) as [->|]; [by eapply dot_spec|]. destruct (Z.eqb_spec b 47) as [->|]; [by eapply slash_spec|].
  repeat match goal with
  | |- lruns (if ?x =? ?y then _ else _) _ _ => destruct (Z.eqb_spec x y) as [->|];
      [first [apply (one_or_two_spec lx y r); [exact Hv|exact E|by vm_compute|by vm_compute|reflexivity|discriminate|reflexivity|discriminate]
             |apply (two_or_err_spec lx y r); [exact Hv|exact E|by vm_compute|by vm_compute|reflexivity|discriminate]
             |apply (fixed_spec lx [y] r); [exact Hv|exact E|ascii_all|discriminate|reflexivity|discriminate] ]|]
  end. apply lruns_err.
Qed.

Lemma next_token_spec lx : valid lx -> (len lx < S n)%nat ->
  lruns (next_token rec) lx (fun t lx' => token_ok t = true /\ if is_eof t then valid lx' else later lx lx').
Proof.
  intros Hv Hn. unfold next_token, lruns. pose proof (skip_ws_spec (S (len lx)) lx Hv ltac:(lia)) as Hs. unfold skip_ws_comments. fold (len lx).
  destruct (skip_ws (S (len lx)) lx) as [lx1|e]; [|by destruct e]. destruct Hs as [Hv1 Hl1]. cbn [result_bind].
  destruct (peek lx1 0) as [b|] eqn:E0; [|done]. destruct (peek_0 _ _ E0) as [r Er]. pose proof (later_len_le _ _ Hl1).
  set (glued := _ && _). pose proof (lex_tok_spec glued lx1 b r Hv1 ltac:(lia) Er) as Ht. unfold lruns in Ht. unfold mbind, lm_bind.
  destruct (lex_tok rec glued b lx1) as [ [tok lx2]|e]; [|by destruct e]. destruct Ht as (Hok & Hne & Hlat). cbn. split; [exact Hok|].
  destruct (is_eof (mkToken tok (lx_pos lx1))) eqn:Ee; [unfold is_eof in Ee; cbn in Ee; by destruct tok|].
  apply later_set_prev. destruct Hl1 as [->|Hl1]; [done|by eapply later_trans].
Qed.

End tok.

Lemma lex_knot_good n : lex_good (lex_knot n) n.
Proof.
  induction n as [|n IH]; [split; intros; lia|]. split; cbn [lex_knot lr_next lr_interp lr_quoted lr_indented]; intros.
  - by apply (next_token_spec _ n).
  - by apply (interp_loop_spec _ n).
  - by apply (quoted_loop_spec _ n).
  - by apply (indented_loop_spec _ n).
Qed.

Lemma lex_loop_spec fuel n : forall out lx, valid lx -> (len lx < n)%nat -> (len lx < fuel)%nat -> forallb inner_ok out = true ->
  match lex_loop n fuel out lx with
  | Ok toks => exists ts e, toks = ts ++ [e] /\ t_tok e = TEof /\ forallb inner_ok ts = true
  | Err (Fails _) => True
  | Err _ => False
  end.
Proof.
  induction n as [|n IH]; intros out lx Hv Hn Hf Ho; [lia|]. cbn [lex_loop].
  pose proof (lg_next _ _ (lex_knot_good fuel) lx Hv Hf) as Ht. unfold lruns in Ht.
  destruct (lr_next (lex_knot fuel) lx) as [ [t lx']|e]; [|by destruct e]. destruct Ht as [Hok Hlat].
  destruct (is_eof t) eqn:Ee.
  - assert (t_tok t = TEof) as E by (unfold is_eof in Ee; by destruct (t_tok t)). rewrite E. by exists out, t.
  - pose proof (later_len _ _ Hlat). assert (forallb inner_ok (out ++ [t]) = true) as Ho'.
    { rewrite forallb_app, Ho. cbn. unfold inner_ok. by rewrite Hok, Ee. }
    specialize (IH (out ++ [t]) lx' (proj1 Hlat) ltac:(lia) ltac:(lia) Ho'). unfold is_eof in Ee. by destruct (t_tok t).
Qed.

(** What the lexer returns. *)
Lemma lex_total src file : utf8_valid src = true ->
  match lex src file with
  | Ok toks => exists ts e, toks = ts ++ [e] /\ t_tok e = TEof /\ forallb inner_ok ts = true
  | Err (Fails _) => True
  | Err _ => False
  end.
Proof. intros Hv. unfold lex, lex_fuel. apply lex_loop_spec; [exact Hv|unfold len; cbn; lia..|done]. Qed.
