(* ===== verification/ShadeParse.v ===== *)
(** * The parser of the package language

    pkg/shadec/src/ast.rs and parser.rs.  The parser's state is the list of
    tokens that is left, with the last token of the whole list, which stands
    in for positions at the end.  Recursive calls and loops are fields of
    [ParseRec], tied with fuel by [parse_knot]; each call of a field comes after
    at least one token. *)

From S2P Require Import Prelude Paths Text ShadeLex.

#[local] Open Scope Z_scope.
#[local] Open Scope rust_scope.

(** ** Expressions *)

Inductive BinOp : Type :=
| OAdd | OSub | OMul | ODiv | OConcat | OUpdate | OLt | OLe | OGt | OGe | OEq | ONe | OAnd | OOr | OImpl.

Inductive Expr : Type :=
| mkExpr (kind : ExprKind) (pos : SrcPos)
with ExprKind : Type :=
| EVar (n : str)
| EInt (i : Z)
| EStr (parts : list SPart)
| EPath (p : str)
| EList (xs : list Expr)
| EAttrs (a : Attrs)
| ESelect (base : Expr) (path : list AttrName) (default : option Expr)
| EHasAttr (base : Expr) (path : list AttrName)
| EApply (f arg : Expr)
| ELambda (param : Param) (body : Expr) (pos : SrcPos)
| ELet (binds : Attrs) (body : Expr)
| EWith (scope body : Expr)
| EIf (cond then_ else_ : Expr)
| EAssert (cond body : Expr)
| EBinOp (op : BinOp) (l r : Expr)
| ENeg (e : Expr)
| ENot (e : Expr)
with SPart : Type :=
| SLit (s : str)
| SInterp (e : Expr)
with AttrName : Type :=
| AStatic (n : str)
| ADynamic (e : Expr)
with Attrs : Type :=
| mkAttrs (is_rec : bool) (entries : list AttrEntry) (dynamics : list (Expr * Expr))
with AttrEntry : Type :=
| mkEntry (name : str) (pos : SrcPos) (val : BindVal)
with BindVal : Type :=
| BExpr (e : Expr)
| BInheritPlain
| BInheritFrom (e : Expr)
with Param : Type :=
| PIdent (n : str)
| PPattern (formals : list Formal) (ellipsis : bool) (at_ : option str)
with Formal : Type :=
| mkFormal (name : str) (default : option Expr).

Definition e_kind (e : Expr) : ExprKind := match e with mkExpr k _ => k end.
Definition a_rec (a : Attrs) : bool := match a with mkAttrs r _ _ => r end.
Definition a_entries (a : Attrs) : list AttrEntry := match a with mkAttrs _ es _ => es end.
Definition a_dynamics (a : Attrs) : list (Expr * Expr) := match a with mkAttrs _ _ ds => ds end.
Definition en_name (e : AttrEntry) : str := match e with mkEntry n _ _ => n end.
Definition en_pos (e : AttrEntry) : SrcPos := match e with mkEntry _ p _ => p end.
Definition en_val (e : AttrEntry) : BindVal := match e with mkEntry _ _ v => v end.
Definition f_name (f : Formal) : str := match f with mkFormal n _ => n end.

(** ** Paths *)

Definition norm_seg (stack : list str) (seg : str) : list str :=
  if bool_decide (seg = []) || bool_decide (seg = lit ".") then stack
  else if bool_decide (seg = lit "..") then take (length stack - 1) stack
  else stack ++ [seg].

(** [stack.join("/")] *)
Fixpoint join_slash (l : list str) : str :=
  match l with
  | [] => []
  | [s] => s
  | s :: l' => s ++ SLASH :: join_slash l'
  end.

Definition normalize_path (p : str) : str := SLASH :: join_slash (foldl norm_seg [] (split_on SLASH p)).

(** ** Building attribute sets *)

Inductive AttrsBuilder : Type :=
| mkBuilder (is_rec dynamics_allowed : bool) (entries : list (str * SrcPos * BNode)) (dynamics : list (Expr * Expr))
with BNode : Type :=
| BLeaf (v : BindVal)
| BTree (t : AttrsBuilder).

Definition builder_new (is_rec dynamics_allowed : bool) : AttrsBuilder := mkBuilder is_rec dynamics_allowed [] [].

(** The entry with a name. *)
Definition b_position {A} (name : str) (entries : list (str * SrcPos * A)) : option nat :=
  position (fun e => bool_decide (e.1.1 = name)) entries.

Definition insert_leaf (name : str) (pos : SrcPos) (val : BindVal) (b : AttrsBuilder) : result AttrsBuilder ShadeStop :=
  let '(mkBuilder r d es ds) := b in
  match b_position name es with
  | Some _ => fail_at pos
  | None => Ok (mkBuilder r d (es ++ [(name, pos, BLeaf val)]) ds)
  end.

(** The remainder of a path after a dynamic head, as nested literals. *)
Fixpoint nest_rest (rest : list AttrName) (val : Expr) (pos : SrcPos) : Expr :=
  match rest with
  | [] => val
  | AStatic n :: rest' => mkExpr (EAttrs (mkAttrs false [mkEntry n pos (BExpr (nest_rest rest' val pos))] [])) pos
  | ADynamic e :: rest' => mkExpr (EAttrs (mkAttrs false [] [(e, nest_rest rest' val pos)])) pos
  end.

(** The loop over the entries of a literal, shared by [from_literal] and
    [merge_literal]. *)
Fixpoint merge_entries (lit_entries : list AttrEntry) (pos : SrcPos) (es : list (str * SrcPos * BNode))
  : result (list (str * SrcPos * BNode)) ShadeStop :=
  match lit_entries with
  | [] => Ok es
  | e :: rest =>
      match b_position (en_name e) es with
      | Some _ => fail_at pos
      | None => merge_entries rest pos (es ++ [(en_name e, en_pos e, BLeaf (en_val e))])
      end
  end.

Definition merge_literal (a : Attrs) (pos : SrcPos) (b : AttrsBuilder) : result AttrsBuilder ShadeStop :=
  let '(mkBuilder r d es ds) := b in
  let? es' := merge_entries (a_entries a) pos es in
  Ok (mkBuilder r d es' (ds ++ a_dynamics a)).

Definition from_literal (a : Attrs) (dynamics_allowed : bool) (pos : SrcPos) : result AttrsBuilder ShadeStop :=
  merge_literal a pos (builder_new false dynamics_allowed).

Definition set_node (i : nat) (node : BNode) (es : list (str * SrcPos * BNode)) : list (str * SrcPos * BNode) :=
  alter (fun e => (e.1, node)) i es.

(** A literal that paths may be merged into. *)
Definition plain_literal (e : Expr) : option Attrs :=
  match e_kind e with EAttrs a => if a_rec a then None else Some a | _ => None end.

Fixpoint insert_path (path : list AttrName) (pos : SrcPos) (val : Expr) (b : AttrsBuilder) : result AttrsBuilder ShadeStop :=
  let '(mkBuilder r d es ds) := b in
  match path with
  | [] => Err Panics
  | ADynamic name_expr :: rest =>
      if d then Ok (mkBuilder r d es (ds ++ [(name_expr, nest_rest rest val pos)])) else fail_at pos
  | [AStatic name] =>
      match b_position name es with
      | None => Ok (mkBuilder r d (es ++ [(name, pos, BLeaf (BExpr val))]) ds)
      | Some i =>
          match es !! i with
          | Some (_, BTree t) =>
              match plain_literal val with
              | Some a => let? t' := merge_literal a pos t in Ok (mkBuilder r d (set_node i (BTree t') es) ds)
              | None => fail_at pos
              end
          | _ => fail_at pos
          end
      end
  | AStatic name :: rest =>
      let '(i, es1) := match b_position name es with
                       | Some i => (i, es)
                       | None => (length es, es ++ [(name, pos, BTree (builder_new false d))])
                       end in
      match es1 !! i with
      | Some (_, BTree t) => let? t' := insert_path rest pos val t in Ok (mkBuilder r d (set_node i (BTree t') es1) ds)
      | Some (_, BLeaf (BExpr e)) =>
          match plain_literal e with
          | Some a =>
              let? t := from_literal a d pos in
              let? t' := insert_path rest pos val t in
              Ok (mkBuilder r d (set_node i (BTree t') es1) ds)
          | None => fail_at pos
          end
      | _ => fail_at pos
      end
  end.

Fixpoint finish (b : AttrsBuilder) : Attrs :=
  let '(mkBuilder r _ es ds) := b in
  mkAttrs r ((fun '(name, pos, node) => mkEntry name pos (finish_node pos node)) <$> es) ds
with finish_node (pos : SrcPos) (node : BNode) : BindVal :=
  match node with
  | BLeaf v => v
  | BTree t => BExpr (mkExpr (EAttrs (finish t)) pos)
  end.

(** ** The state of the parser *)

Record Parser : Type := mkParser {
  ps_toks : list Token;
  ps_last : option Token;
  ps_file : str;
  ps_base_dir : str
}.

Definition PM (A : Type) : Type := Parser -> result (A * Parser) ShadeStop.

#[export] Instance pm_ret : MRet PM := fun A a p => Ok (a, p).
#[export] Instance pm_bind : MBind PM := fun A B f m p =>
  match m p with
  | Ok (a, p') => f a p'
  | Err e => Err e
  end.

Definition tok_at (p : Parser) (off : nat) : Tok := match ps_toks p !! off with Some t => t_tok t | None => TEof end.
Definition peek_tok (p : Parser) : Tok := tok_at p 0.

Definition ps_pos (p : Parser) : SrcPos :=
  match ps_toks p with
  | t :: _ => t_pos t
  | [] => match ps_last p with Some t => t_pos t | None => mkSrcPos (ps_file p) 0 0 end
  end.

Definition with_toks (p : Parser) (toks : list Token) : Parser := mkParser toks (ps_last p) (ps_file p) (ps_base_dir p).

(** [&self.toks[self.i.min(self.toks.len() - 1)]] *)
Definition bump_tok : PM Token := fun p =>
  match ps_toks p with
  | t :: rest => Ok (t, with_toks p rest)
  | [] => match ps_last p with Some t => Ok (t, p) | None => Err Panics end
  end.

Definition parse_err {A} : PM A := fun p => fail_at (ps_pos p).
Definition lift_parse {A} (r : result A ShadeStop) : PM A := fun p => match r with Ok a => Ok (a, p) | Err e => Err e end.
Definition peeked : PM Tok := fun p => Ok (peek_tok p, p).
Definition peeked_at (off : nat) : PM Tok := fun p => Ok (tok_at p off, p).
Definition cur_pos : PM SrcPos := fun p => Ok (ps_pos p, p).

Definition kw_eqb (a b : Kw) : bool :=
  match a, b with
  | KwIf, KwIf | KwThen, KwThen | KwElse, KwElse | KwLet, KwLet | KwIn, KwIn | KwRec, KwRec | KwWith, KwWith
  | KwInherit, KwInherit | KwAssert, KwAssert | KwOr, KwOr => true
  | _, _ => false
  end.

(** Equality with the tokens [expect] is called for. *)
Definition is_tok (want found : Tok) : bool :=
  match want, found with
  | TKw a, TKw b => kw_eqb a b
  | TSemi, TSemi | TColon, TColon | TLBrace, TLBrace | TRBrace, TRBrace | TRParen, TRParen | TAssign, TAssign => true
  | _, _ => false
  end.

Definition expect (want : Tok) : PM unit :=
  tok ← peeked; if is_tok want tok then _ ← bump_tok; mret tt else parse_err.

Definition expect_end : PM unit := tok ← peeked; match tok with TEof => mret tt | _ => parse_err end.

Definition bump_id : PM str := t ← bump_tok; match t_tok t with TId s => mret s | _ => lift_parse (Err Panics) end.

Definition bump_id_or_err : PM str := tok ← peeked; match tok with TId _ => bump_id | _ => parse_err end.

(** [{] opens a pattern if the matching [}] is followed by [:] or [@]. *)
Fixpoint brace_scan (toks : list Token) (depth : nat) : bool :=
  match toks with
  | [] => false
  | t :: rest =>
      match t_tok t with
      | TLBrace | TDollarBrace => brace_scan rest (S depth)
      | TRBrace =>
          match depth with
          | 1%nat => match rest with t' :: _ => match t_tok t' with TColon | TAt => true | _ => false end | [] => false end
          | _ => brace_scan rest (pred depth)
          end
      | _ => brace_scan rest depth
      end
  end.
Definition brace_is_pattern (p : Parser) : bool := brace_scan (ps_toks p) 0.
Definition brace_pattern : PM bool := fun p => Ok (brace_is_pattern p, p).

(** The tokens up to the matching [}] and those after it, or those at which
    the input ends. *)
Fixpoint collect_from (rest : list Token) (depth : nat) (toks : list Token) : result (list Token * list Token) (list Token) :=
  match rest with
  | [] => Err []
  | t :: rest' =>
      match t_tok t with
      | TEof => Err rest
      | TLBrace | TDollarBrace => collect_from rest' (S depth) (toks ++ [t])
      | TRBrace => match depth with O => Ok (toks, rest') | S depth' => collect_from rest' depth' (toks ++ [t]) end
      | _ => collect_from rest' depth (toks ++ [t])
      end
  end.
Definition collect_brace_tokens : PM (list Token) := fun p =>
  match collect_from (ps_toks p) 0 [] with
  | Ok (toks, rest) => Ok (toks, with_toks p rest)
  | Err rest => fail_at (ps_pos (with_toks p rest))
  end.

Definition starts_select (tok : Tok) : bool :=
  match tok with
  | TId _ | TInt _ | TStr _ | TIndStr _ | TPath _ | TLParen | TLBracket | TLBrace | TKw KwRec => true
  | _ => false
  end.

Definition resolve_path (text : str) : PM str := fun p =>
  Ok (normalize_path (if starts_with_slash text then text else ps_base_dir p ++ SLASH :: text), p).

(** ** The calls that recur *)

Record ParseRec : Type := mkParseRec {
  pr_expr : PM Expr;
  pr_impl : PM Expr;
  pr_or : Expr -> PM Expr;
  pr_and : Expr -> PM Expr;
  pr_update : PM Expr;
  pr_not : PM Expr;
  pr_add : Expr -> PM Expr;
  pr_mul : Expr -> PM Expr;
  pr_concat : PM Expr;
  pr_neg : PM Expr;
  pr_app : Expr -> PM Expr;
  pr_select : PM Expr;
  pr_attrpath : list AttrName -> PM (list AttrName);
  pr_list : list Expr -> PM (list Expr);
  pr_attrset : AttrsBuilder -> PM AttrsBuilder;
  pr_let : AttrsBuilder -> nat -> PM (AttrsBuilder * nat);
  pr_inherit : option Expr -> AttrsBuilder -> PM AttrsBuilder;
  pr_formals : option str -> list Formal -> PM (list Formal * bool)
}.

Section rec.
Context (rec : ParseRec).

(** *** Names and strings *)

Definition sub_parse (toks : list Token) : PM Expr := fun p =>
  match (e ← pr_expr rec; _ ← expect_end; mret e) (mkParser toks (last toks) (ps_file p) (ps_base_dir p)) with
  | Ok (e, _) => Ok (e, p)
  | Err e => Err e
  end.

Fixpoint str_parts (parts : list StrPart) : PM (list SPart) :=
  match parts with
  | [] => mret []
  | PLit s :: parts' => out ← str_parts parts'; mret (SLit s :: out)
  | PInterp toks :: parts' => e ← sub_parse toks; out ← str_parts parts'; mret (SInterp e :: out)
  end.

Definition str_expr (parts : list StrPart) (pos : SrcPos) : PM Expr := out ← str_parts parts; mret (mkExpr (EStr out) pos).

Definition is_lit (p : StrPart) : bool := match p with PLit _ => true | PInterp _ => false end.
Definition lit_text (p : StrPart) : str := match p with PLit s => s | PInterp _ => [] end.

Definition parse_attr : PM AttrName :=
  pos ← cur_pos; tok ← peeked;
  match tok with
  | TId _ => n ← bump_id; mret (AStatic n)
  | TStr parts =>
      _ ← bump_tok;
      if forallb is_lit parts then mret (AStatic (concat (lit_text <$> parts)))
      else e ← str_expr parts pos; mret (ADynamic e)
  | TDollarBrace => _ ← bump_tok; toks ← collect_brace_tokens; e ← sub_parse toks; mret (ADynamic e)
  | _ => parse_err
  end.

Definition attrpath_loop (path : list AttrName) : PM (list AttrName) :=
  tok ← peeked;
  match tok with
  | TDot => _ ← bump_tok; a ← parse_attr; pr_attrpath rec (path ++ [a])
  | _ => mret path
  end.

Definition parse_attrpath : PM (list AttrName) := a ← parse_attr; attrpath_loop [a].

(** *** Patterns *)

Definition formals_loop (at_outer : option str) (formals : list Formal) : PM (list Formal * bool) :=
  tok ← peeked;
  match tok with
  | TRBrace => _ ← bump_tok; mret (formals, false)
  | TEllipsis => _ ← bump_tok; _ ← expect TRBrace; mret (formals, true)
  | TId _ =>
      name ← bump_id;
      if bool_decide (name ∈ f_name <$> formals) || bool_decide (at_outer = Some name) then parse_err
      else
        tok1 ← peeked;
        default ← match tok1 with
                  | TQuestion => _ ← bump_tok; e ← pr_expr rec; mret (Some e)
                  | _ => mret None
                  end;
        let formals' := formals ++ [mkFormal name default] in
        tok2 ← peeked;
        match tok2 with
        | TComma => _ ← bump_tok; pr_formals rec at_outer formals'
        | TRBrace => pr_formals rec at_outer formals'
        | _ => parse_err
        end
  | _ => parse_err
  end.

Definition parse_pattern_braces (at_outer : option str) : PM (list Formal * bool) :=
  _ ← expect TLBrace; formals_loop at_outer [].

(** *** Bindings *)

Definition inherit_loop (from : option Expr) (b : AttrsBuilder) : PM AttrsBuilder :=
  tok ← peeked;
  match tok with
  | TSemi => _ ← bump_tok; mret b
  | TId _ =>
      pos ← cur_pos; name ← bump_id;
      b' ← lift_parse (insert_leaf name pos (match from with Some e => BInheritFrom e | None => BInheritPlain end) b);
      pr_inherit rec from b'
  | _ => parse_err
  end.

Definition parse_bind (b : AttrsBuilder) : PM AttrsBuilder :=
  tok ← peeked;
  match tok with
  | TKw KwInherit =>
      _ ← bump_tok;
      tok1 ← peeked;
      from ← match tok1 with
             | TLParen => _ ← bump_tok; e ← pr_expr rec; _ ← expect TRParen; mret (Some e)
             | _ => mret None
             end;
      inherit_loop from b
  | _ =>
      pos ← cur_pos;
      path ← parse_attrpath;
      _ ← expect TAssign;
      val ← pr_expr rec;
      _ ← expect TSemi;
      lift_parse (insert_path path pos val b)
  end.

Definition attrset_loop (b : AttrsBuilder) : PM AttrsBuilder :=
  tok ← peeked;
  match tok with
  | TRBrace => _ ← bump_tok; mret b
  | TEof => parse_err
  | _ => b' ← parse_bind b; pr_attrset rec b'
  end.

Definition parse_attrset_body (is_rec : bool) : PM Attrs :=
  b ← attrset_loop (builder_new is_rec (negb is_rec)); mret (finish b).

Definition let_loop (b : AttrsBuilder) (count : nat) : PM (AttrsBuilder * nat) :=
  tok ← peeked;
  match tok with
  | TKw KwIn => _ ← bump_tok; mret (b, count)
  | TEof => parse_err
  | _ => b' ← parse_bind b; pr_let rec b' (S count)
  end.

Definition parse_binds_until_in : PM Attrs :=
  '(b, count) ← let_loop (builder_new true false) 0;
  match count with O => parse_err | S _ => mret (finish b) end.

(** *** Operands *)

Definition list_loop (xs : list Expr) : PM (list Expr) :=
  tok ← peeked;
  match tok with
  | TRBracket => _ ← bump_tok; mret xs
  | TEof => parse_err
  | _ => x ← pr_select rec; pr_list rec (xs ++ [x])
  end.

Definition parse_simple : PM Expr :=
  pos ← cur_pos; tok ← peeked;
  match tok with
  | TId _ => n ← bump_id; mret (mkExpr (EVar n) pos)
  | TInt i => _ ← bump_tok; mret (mkExpr (EInt i) pos)
  | TStr parts => _ ← bump_tok; str_expr parts pos
  | TIndStr parts => _ ← bump_tok; str_expr parts pos
  | TPath text => _ ← bump_tok; abs ← resolve_path text; mret (mkExpr (EPath abs) pos)
  | TLParen => _ ← bump_tok; e ← pr_expr rec; _ ← expect TRParen; mret e
  | TLBracket => _ ← bump_tok; xs ← list_loop []; mret (mkExpr (EList xs) pos)
  | TLBrace => _ ← bump_tok; a ← parse_attrset_body false; mret (mkExpr (EAttrs a) pos)
  | TKw KwRec => _ ← bump_tok; _ ← expect TLBrace; a ← parse_attrset_body true; mret (mkExpr (EAttrs a) pos)
  | _ => parse_err
  end.

Definition parse_select : PM Expr :=
  base ← parse_simple; tok ← peeked;
  match tok with
  | TDot =>
      pos ← cur_pos; _ ← bump_tok;
      path ← parse_attrpath; tok1 ← peeked;
      default ← match tok1 with TKw KwOr => _ ← bump_tok; d ← pr_select rec; mret (Some d) | _ => mret None end;
      mret (mkExpr (ESelect base path default) pos)
  | _ => mret base
  end.

Definition app_loop (f : Expr) : PM Expr :=
  tok ← peeked;
  if starts_select tok then pos ← cur_pos; arg ← parse_select; pr_app rec (mkExpr (EApply f arg) pos) else mret f.

Definition parse_app : PM Expr := f ← parse_select; app_loop f.

(** *** Operators *)

Definition parse_neg : PM Expr :=
  tok ← peeked;
  match tok with
  | TMinus => pos ← cur_pos; _ ← bump_tok; e ← pr_neg rec; mret (mkExpr (ENeg e) pos)
  | _ => parse_app
  end.

Definition parse_hasattr : PM Expr :=
  l ← parse_neg; tok ← peeked;
  match tok with
  | TQuestion =>
      pos ← cur_pos; _ ← bump_tok; path ← parse_attrpath; tok1 ← peeked;
      match tok1 with TQuestion => parse_err | _ => mret (mkExpr (EHasAttr l path) pos) end
  | _ => mret l
  end.

Definition parse_concat : PM Expr :=
  l ← parse_hasattr; tok ← peeked;
  match tok with
  | TConcat => pos ← cur_pos; _ ← bump_tok; r ← pr_concat rec; mret (mkExpr (EBinOp OConcat l r) pos)
  | _ => mret l
  end.

Definition mul_op (tok : Tok) : option BinOp := match tok with TStar => Some OMul | TSlash => Some ODiv | _ => None end.
Definition add_op (tok : Tok) : option BinOp := match tok with TPlus => Some OAdd | TMinus => Some OSub | _ => None end.
Definition rel_op (tok : Tok) : option BinOp :=
  match tok with TLt => Some OLt | TLe => Some OLe | TGt => Some OGt | TGe => Some OGe | _ => None end.
Definition eq_op (tok : Tok) : option BinOp := match tok with TEq => Some OEq | TNe => Some ONe | _ => None end.

Definition mul_loop (l : Expr) : PM Expr :=
  tok ← peeked;
  match mul_op tok with
  | Some op => pos ← cur_pos; _ ← bump_tok; r ← parse_concat; pr_mul rec (mkExpr (EBinOp op l r) pos)
  | None => mret l
  end.
Definition parse_mul : PM Expr := l ← parse_concat; mul_loop l.

Definition add_loop (l : Expr) : PM Expr :=
  tok ← peeked;
  match add_op tok with
  | Some op => pos ← cur_pos; _ ← bump_tok; r ← parse_mul; pr_add rec (mkExpr (EBinOp op l r) pos)
  | None => mret l
  end.
Definition parse_add : PM Expr := l ← parse_mul; add_loop l.

Definition parse_not : PM Expr :=
  tok ← peeked;
  match tok with
  | TNot => pos ← cur_pos; _ ← bump_tok; e ← pr_not rec; mret (mkExpr (ENot e) pos)
  | _ => parse_add
  end.

Definition parse_update : PM Expr :=
  l ← parse_not; tok ← peeked;
  match tok with
  | TUpdate => pos ← cur_pos; _ ← bump_tok; r ← pr_update rec; mret (mkExpr (EBinOp OUpdate l r) pos)
  | _ => mret l
  end.

Definition parse_rel : PM Expr :=
  l ← parse_update; tok ← peeked;
  match rel_op tok with
  | Some op =>
      pos ← cur_pos; _ ← bump_tok; r ← parse_update; tok1 ← peeked;
      match rel_op tok1 with Some _ => parse_err | None => mret (mkExpr (EBinOp op l r) pos) end
  | None => mret l
  end.

Definition parse_eq : PM Expr :=
  l ← parse_rel; tok ← peeked;
  match eq_op tok with
  | Some op =>
      pos ← cur_pos; _ ← bump_tok; r ← parse_rel; tok1 ← peeked;
      match eq_op tok1 with Some _ => parse_err | None => mret (mkExpr (EBinOp op l r) pos) end
  | None => mret l
  end.

Definition and_loop (l : Expr) : PM Expr :=
  tok ← peeked;
  match tok with
  | TAnd => pos ← cur_pos; _ ← bump_tok; r ← parse_eq; pr_and rec (mkExpr (EBinOp OAnd l r) pos)
  | _ => mret l
  end.
Definition parse_and : PM Expr := l ← parse_eq; and_loop l.

Definition or_loop (l : Expr) : PM Expr :=
  tok ← peeked;
  match tok with
  | TOr => pos ← cur_pos; _ ← bump_tok; r ← parse_and; pr_or rec (mkExpr (EBinOp OOr l r) pos)
  | _ => mret l
  end.
Definition parse_or : PM Expr := l ← parse_and; or_loop l.

Definition parse_impl : PM Expr :=
  l ← parse_or; tok ← peeked;
  match tok with
  | TImpl => pos ← cur_pos; _ ← bump_tok; r ← pr_impl rec; mret (mkExpr (EBinOp OImpl l r) pos)
  | _ => mret l
  end.

(** *** Expressions *)

(** The rest of [name @ { formals } : body]. *)
Definition lambda_at (at_ : str) (pos : SrcPos) : PM Expr :=
  '(formals, ellipsis) ← parse_pattern_braces (Some at_);
  _ ← expect TColon; body ← pr_expr rec;
  mret (mkExpr (ELambda (PPattern formals ellipsis (Some at_)) body pos) pos).

(** [{ formals } : body], [{ formals } @ name : body] *)
Definition lambda_pattern (pos : SrcPos) : PM Expr :=
  '(formals, ellipsis) ← parse_pattern_braces None;
  tok ← peeked;
  at_ ← match tok with
        | TAt =>
            _ ← bump_tok; name ← bump_id_or_err;
            if bool_decide (name ∈ f_name <$> formals) then parse_err else mret (Some name)
        | _ => mret None
        end;
  _ ← expect TColon; body ← pr_expr rec;
  mret (mkExpr (ELambda (PPattern formals ellipsis at_) body pos) pos).

Definition parse_expr : PM Expr :=
  pos ← cur_pos; tok0 ← peeked; tok1 ← peeked_at 1;
  match tok0, tok1 with
  | TKw KwAssert, _ =>
      _ ← bump_tok; cond ← pr_expr rec; _ ← expect TSemi; body ← pr_expr rec; mret (mkExpr (EAssert cond body) pos)
  | TKw KwWith, _ =>
      _ ← bump_tok; scope ← pr_expr rec; _ ← expect TSemi; body ← pr_expr rec; mret (mkExpr (EWith scope body) pos)
  | TKw KwLet, _ =>
      _ ← bump_tok; binds ← parse_binds_until_in; body ← pr_expr rec; mret (mkExpr (ELet binds body) pos)
  | TKw KwIf, _ =>
      _ ← bump_tok; cond ← pr_expr rec; _ ← expect (TKw KwThen); then_ ← pr_expr rec;
      _ ← expect (TKw KwElse); else_ ← pr_expr rec; mret (mkExpr (EIf cond then_ else_) pos)
  | TId _, TColon =>
      name ← bump_id; _ ← bump_tok; body ← pr_expr rec; mret (mkExpr (ELambda (PIdent name) body pos) pos)
  | TId _, TAt =>
      at_ ← bump_id; _ ← bump_tok; lambda_at at_ pos
  | TLBrace, _ =>
      is_pattern ← brace_pattern;
      match is_pattern with true => lambda_pattern pos | false => parse_impl end
  | _, _ => parse_impl
  end.

End rec.

Definition parse_stuck {A} : PM A := fun _ => Err Stuck.

Fixpoint parse_knot (n : nat) : ParseRec :=
  match n with
  | O =>
      mkParseRec parse_stuck parse_stuck (fun _ => parse_stuck) (fun _ => parse_stuck) parse_stuck parse_stuck
        (fun _ => parse_stuck) (fun _ => parse_stuck) parse_stuck parse_stuck (fun _ => parse_stuck) parse_stuck
        (fun _ => parse_stuck) (fun _ => parse_stuck) (fun _ => parse_stuck) (fun _ _ => parse_stuck)
        (fun _ _ => parse_stuck) (fun _ _ => parse_stuck)
  | S n' =>
      let rec := parse_knot n' in
      mkParseRec (parse_expr rec) (parse_impl rec) (or_loop rec) (and_loop rec) (parse_update rec) (parse_not rec)
        (add_loop rec) (mul_loop rec) (parse_concat rec) (parse_neg rec) (app_loop rec) (parse_select rec)
        (attrpath_loop rec) (list_loop rec) (attrset_loop rec) (let_loop rec) (inherit_loop rec) (formals_loop rec)
  end.

(** ** Entry *)

(** The number of tokens, those inside strings included. *)
Fixpoint tok_size (t : Tok) : nat :=
  match t with
  | TStr parts | TIndStr parts => S (list_sum (part_size <$> parts))
  | _ => 1%nat
  end
with part_size (p : StrPart) : nat := match p with PLit _ => O | PInterp toks => list_sum (token_size <$> toks) end
with token_size (t : Token) : nat := match t with mkToken tok _ => tok_size tok end.

Definition toks_size (toks : list Token) : nat := list_sum (token_size <$> toks).

(** Enough fuel: see ShadeParseLaws.v. *)
Definition parse_toks (toks : list Token) (file base_dir : str) : result Expr ShadeStop :=
  match (e ← pr_expr (parse_knot (S (toks_size toks))); _ ← expect_end; mret e) (mkParser toks (last toks) file base_dir) with
  | Ok (e, _) => Ok e
  | Err e => Err e
  end.

Definition parse_str (src file base_dir : str) : result Expr ShadeStop :=
  let? toks := lex src file in parse_toks toks file base_dir.
