(* ===== verification/ShadeParseLaws.v ===== *)
(** * The parser returns

    For well-formed tokens the parser ends with an expression or a parse
    error, never in a panic, and the expression is well formed: names are
    distinct, recursive sets and [let] have no dynamic attributes, paths are
    absolute and normal.  With ShadeLexLaws.v: [parse_returns]. *)

From S2P Require Import Prelude Paths Text ShadeLex ShadeLexLaws ShadeParse.

#[local] Open Scope Z_scope.
#[local] Open Scope rust_scope.

(** ** Paths *)

(** A component of a normal path. *)
Definition norm_comp (s : str) : Prop := s <> [] /\ (SLASH ∉ s) /\ s <> lit "." /\ s <> lit "..".

Lemma norm_seg_comps stack seg : Forall norm_comp stack -> SLASH ∉ seg -> Forall norm_comp (norm_seg stack seg).
Proof.
  intros Hs Hseg. unfold norm_seg. repeat case_bool_decide; cbn [orb]; try done.
  - by apply Forall_take.
  - apply Forall_app. split; [done|]. by apply Forall_singleton.
Qed.

Lemma norm_segs_comps segs : forall stack, Forall norm_comp stack -> Forall (fun s => SLASH ∉ s) segs -> Forall norm_comp (foldl norm_seg stack segs).
Proof.
  induction segs as [|s segs IH]; intros stack Hs Hsegs; [done|]. apply Forall_cons in Hsegs as [Hx Hsegs]. cbn [foldl].
  apply IH; [by apply norm_seg_comps|done].
Qed.

Lemma norm_seg_push stack s : norm_comp s -> norm_seg stack s = stack ++ [s].
Proof. intros (H1 & _ & H2 & H3). unfold norm_seg. by rewrite !bool_decide_eq_false_2. Qed.

Lemma norm_segs_push segs : forall stack, Forall norm_comp segs -> foldl norm_seg stack segs = stack ++ segs.
Proof.
  induction segs as [|s segs IH]; intros stack Hs; [by rewrite app_nil_r|]. apply Forall_cons in Hs as [Hx Hs]. cbn [foldl].
  by rewrite norm_seg_push, IH, <- app_assoc.
Qed.

Lemma split_join l : l <> [] -> Forall (fun s => SLASH ∉ s) l -> split_on SLASH (join_slash l) = l.
Proof.
  intros Hne Hl. induction Hl as [|s l Hs Hl IH]; [done|]. destruct l as [|s' l]; [by apply split_on_free|].
  cbn [join_slash]. rewrite split_on_app, split_on_free by done. cbn [app]. f_equal. by apply IH.
Qed.

Lemma normalize_idem p : normalize_path (normalize_path p) = normalize_path p.
Proof.
  unfold normalize_path. set (stack := foldl norm_seg [] (split_on SLASH p)).
  assert (Forall norm_comp stack) as Hs by (apply norm_segs_comps; [by apply Forall_nil|apply split_on_slash_free]).
  assert (foldl norm_seg [] (split_on SLASH (SLASH :: join_slash stack)) = stack) as ->; [|done].
  change (split_on SLASH (SLASH :: join_slash stack)) with ([] :: split_on SLASH (join_slash stack)). cbn [foldl].
  change (norm_seg [] []) with ([] : list str). destruct stack as [|s stack']; [done|]. rewrite split_join; [by rewrite norm_segs_push|done|].
  eapply Forall_impl; [exact Hs|]. by intros x (_ & ? & _).
Qed.

Lemma split_on_chars (P : Z -> Prop) s : Forall P s -> Forall (Forall P) (split_on SLASH s).
Proof.
  induction 1 as [|c s Hc Hs IH]; [by apply Forall_singleton, Forall_nil|]. cbn [split_on]. destruct (c =? SLASH); [by apply Forall_cons|].
  destruct (split_on SLASH s) as [|h t]; [by apply Forall_singleton, Forall_singleton|]. apply Forall_cons in IH as [Hh Ht].
  apply Forall_cons. split; [by apply Forall_cons|done].
Qed.

Lemma normalize_chars (P : Z -> Prop) s : P SLASH -> Forall P s -> Forall P (normalize_path s).
Proof.
  intros Hsl Hs. unfold normalize_path. apply Forall_cons. split; [done|].
  assert (forall segs stack, Forall (Forall P) stack -> Forall (Forall P) segs -> Forall (Forall P) (foldl norm_seg stack segs)) as Hf.
  { induction segs as [|x segs IH]; intros stack Hst Hsegs; [done|]. apply Forall_cons in Hsegs as [Hx Hsegs]. cbn [foldl]. apply IH; [|done].
    unfold norm_seg. repeat case_bool_decide; cbn [orb]; try done; [by apply Forall_take|]. apply Forall_app. split; [done|by apply Forall_singleton]. }
  specialize (Hf (split_on SLASH s) [] ltac:(by apply Forall_nil) (split_on_chars P s Hs)). revert Hf. generalize (foldl norm_seg [] (split_on SLASH s)).
  induction l as [|x l IH]; intros Hl; [by apply Forall_nil|]. apply Forall_cons in Hl as [Hx Hl]. destruct l as [|y l]; [done|].
  cbn [join_slash]. apply Forall_app. split; [done|]. apply Forall_cons. split; [done|by apply IH].
Qed.

(** ** Well-formed expressions *)

Definition is_slit (p : SPart) : bool := match p with SLit _ => true | SInterp _ => false end.

Fixpoint apart_sparts (parts : list SPart) : bool :=
  match parts with
  | SLit _ :: ((SLit _ :: _) as rest) => false
  | _ :: rest => apart_sparts rest
  | [] => true
  end.

Definition distinct (names : list str) : bool := bool_decide (NoDup names).

Lemma forallb_Forall {A} (f : A -> bool) l : forallb f l = true <-> Forall (fun x => f x = true) l.
Proof. rewrite forallb_forall, Forall_forall. split; intros H x Hx; by apply H, list_elem_of_In. Qed.

(** [pc] are the bytes that occur in paths. *)
Section ok.
Context (pc : Z -> bool).

Definition path_ok (p : str) : bool := bool_decide (normalize_path p = p) && forallb pc p.

Fixpoint expr_ok (e : Expr) : bool := match e with mkExpr k _ => kind_ok k end
with kind_ok (k : ExprKind) : bool :=
  match k with
  | EVar n => ident_ok n
  | EInt i => (0 <=? i) && (i <=? I64_MAX)
  | EStr parts => forallb spart_ok parts && apart_sparts parts
  | EPath p => path_ok p
  | EList xs => forallb expr_ok xs
  | EAttrs a => attrs_ok a
  | ESelect base path default =>
      expr_ok base && negb (bool_decide (length path = 0%nat)) && forallb name_ok path &&
      match default with Some d => expr_ok d | None => true end
  | EHasAttr base path => expr_ok base && negb (bool_decide (length path = 0%nat)) && forallb name_ok path
  | EApply f arg => expr_ok f && expr_ok arg
  | ELambda param body _ => param_ok param && expr_ok body
  | ELet binds body => a_rec binds && attrs_ok binds && expr_ok body
  | EWith scope body => expr_ok scope && expr_ok body
  | EIf cond then_ else_ => expr_ok cond && expr_ok then_ && expr_ok else_
  | EAssert cond body => expr_ok cond && expr_ok body
  | EBinOp _ l r => expr_ok l && expr_ok r
  | ENeg e | ENot e => expr_ok e
  end
with spart_ok (p : SPart) : bool :=
  match p with SLit s => utf8_valid s && negb (bool_decide (s = [])) | SInterp e => expr_ok e end
with name_ok (a : AttrName) : bool := match a with AStatic n => utf8_valid n | ADynamic e => expr_ok e end
with attrs_ok (a : Attrs) : bool :=
  match a with
  | mkAttrs r es ds =>
      distinct (en_name <$> es) && forallb entry_ok es && (negb r || bool_decide (length ds = 0%nat)) &&
      forallb (fun '(n, v) => expr_ok n && expr_ok v) ds
  end
with entry_ok (e : AttrEntry) : bool := match e with mkEntry n _ v => utf8_valid n && bind_ok n v end
with bind_ok (n : str) (v : BindVal) : bool :=
  match v with BExpr e => expr_ok e | BInheritPlain => ident_ok n | BInheritFrom e => ident_ok n && expr_ok e end
with param_ok (p : Param) : bool :=
  match p with
  | PIdent n => ident_ok n
  | PPattern formals _ at_ =>
      distinct (f_name <$> formals) && forallb formal_ok formals &&
      match at_ with Some n => ident_ok n && negb (bool_decide (n ∈ f_name <$> formals)) | None => true end
  end
with formal_ok (f : Formal) : bool :=
  match f with mkFormal n default => ident_ok n && match default with Some d => expr_ok d | None => true end end.

(** ** Building attribute sets *)

Definition dyn_ok (d : Expr * Expr) : bool := expr_ok d.1 && expr_ok d.2.

Definition b_names (es : list (str * SrcPos * BNode)) : list str := (fun e => e.1.1) <$> es.

Definition b_rec (b : AttrsBuilder) : bool := match b with mkBuilder r _ _ _ => r end.

Fixpoint builder_ok (b : AttrsBuilder) : bool :=
  match b with
  | mkBuilder r d es ds =>
      distinct (b_names es) && forallb (fun '(n, _, node) => utf8_valid n && node_ok n node) es &&
      (negb r || (negb d && bool_decide (length ds = 0%nat))) && forallb dyn_ok ds
  end
with node_ok (n : str) (node : BNode) : bool :=
  match node with
  | BLeaf v => bind_ok n v
  | BTree t => negb (b_rec t) && builder_ok t
  end.

Definition bentry_ok (e : str * SrcPos * BNode) : bool := utf8_valid e.1.1 && node_ok e.1.1 e.2.

Lemma builder_ok_spec r d es ds : builder_ok (mkBuilder r d es ds) = true <->
  NoDup (b_names es) /\ Forall (fun e => bentry_ok e = true) es /\ (r = true -> d = false /\ ds = []) /\ Forall (fun x => dyn_ok x = true) ds.
Proof.
  cbn [builder_ok]. unfold distinct. rewrite !andb_true_iff, bool_decide_eq_true, !forallb_Forall.
  assert (negb r || negb d && bool_decide (length ds = 0%nat) = true <-> (r = true -> d = false /\ ds = [])) as ->.
  { rewrite orb_true_iff, andb_true_iff, !negb_true_iff, bool_decide_eq_true, length_zero_iff_nil. destruct r; naive_solver. }
  assert (Forall (fun x => (let '(n, _, node) := x in utf8_valid n && node_ok n node) = true) es <-> Forall (fun e => bentry_ok e = true) es) as ->.
  { apply Forall_iff. by intros [ [n p] node]. }
  tauto.
Qed.

Lemma attrs_ok_spec r es ds : attrs_ok (mkAttrs r es ds) = true <->
  NoDup (en_name <$> es) /\ Forall (fun e => entry_ok e = true) es /\ (r = true -> ds = []) /\ Forall (fun x => dyn_ok x = true) ds.
Proof.
  cbn [attrs_ok]. unfold distinct. rewrite !andb_true_iff, bool_decide_eq_true, !forallb_Forall.
  assert (negb r || bool_decide (length ds = 0%nat) = true <-> (r = true -> ds = [])) as ->.
  { rewrite orb_true_iff, negb_true_iff, bool_decide_eq_true, length_zero_iff_nil. destruct r; naive_solver. }
  assert (Forall (fun x => (let '(n, v) := x in expr_ok n && expr_ok v) = true) ds <-> Forall (fun x => dyn_ok x = true) ds) as ->.
  { apply Forall_iff. by intros [n v]. }
  tauto.
Qed.

Lemma b_position_None name (es : list (str * SrcPos * BNode)) : b_position name es = None -> name ∉ b_names es.
Proof.
  intros Hp Hin. unfold b_position in Hp. apply list_elem_of_fmap in Hin as (e & -> & He).
  pose proof (position_None (fun x : str * SrcPos * BNode => bool_decide (x.1.1 = e.1.1)) es) as Hn. rewrite Hn in Hp.
  rewrite Forall_forall in Hp. specialize (Hp e He). by rewrite bool_decide_eq_true_2 in Hp.
Qed.

(** A new entry. *)
Lemma entries_push es e : NoDup (b_names es) -> Forall (fun e => bentry_ok e = true) es -> e.1.1 ∉ b_names es -> bentry_ok e = true ->
  NoDup (b_names (es ++ [e])) /\ Forall (fun e => bentry_ok e = true) (es ++ [e]).
Proof.
  intros Hnd Hok Hfresh He. unfold b_names in *. rewrite fmap_app. split; [|by apply Forall_app; split; [|by apply Forall_singleton] ].
  apply NoDup_app. split; [done|]. split; [|by apply NoDup_singleton]. intros x Hx Hx1. cbn in Hx1. apply list_elem_of_singleton in Hx1 as ->. done.
Qed.

(** A new node for an entry. *)
Lemma entries_set es i nm pos node0 node : NoDup (b_names es) -> Forall (fun e => bentry_ok e = true) es -> es !! i = Some (nm, pos, node0) ->
  node_ok nm node = true -> NoDup (b_names (set_node i node es)) /\ Forall (fun e => bentry_ok e = true) (set_node i node es).
Proof.
  intros Hnd Hok Hi Hn. unfold set_node, b_names in *. split.
  - assert ((fun e : str * SrcPos * BNode => e.1.1) <$> alter (fun e => (e.1, node)) i es = (fun e => e.1.1) <$> es) as ->; [|done].
    apply list_eq. intros j. rewrite !list_lookup_fmap. destruct (decide (j = i)) as [->|]; [rewrite list_lookup_alter_eq; by destruct (es !! i)|by rewrite list_lookup_alter_ne].
  - rewrite Forall_lookup in Hok |- *. intros j e Hj. destruct (decide (j = i)) as [->|Hne].
    + rewrite list_lookup_alter_eq, Hi in Hj. injection Hj as <-. specialize (Hok i _ Hi). unfold bentry_ok in *. cbn in *.
      apply andb_true_iff in Hok as [-> _]. done.
    + rewrite list_lookup_alter_ne in Hj by done. by apply (Hok j).
Qed.

Definition built (r : bool) (res : result AttrsBuilder ShadeStop) : Prop :=
  match res with
  | Ok b => builder_ok b = true /\ b_rec b = r
  | Err (Fails _) => True
  | Err _ => False
  end.

Lemma insert_leaf_ok name pos v b : builder_ok b = true -> utf8_valid name = true -> bind_ok name v = true -> built (b_rec b) (insert_leaf name pos v b).
Proof.
  destruct b as [r d es ds]. intros (Hnd & Hes & Hr & Hds)%builder_ok_spec Hn Hv. cbn. destruct (b_position name es) eqn:E; [done|].
  split; [|done]. destruct (entries_push es (name, pos, BLeaf v) Hnd Hes) as [H1 H2].
  - by apply b_position_None.
  - unfold bentry_ok. cbn. by rewrite Hn, Hv.
  - by apply builder_ok_spec.
Qed.

Lemma nest_rest_ok pos val rest : expr_ok val = true -> Forall (fun a => name_ok a = true) rest -> expr_ok (nest_rest rest val pos) = true.
Proof.
  intros Hv. induction 1 as [|a rest Ha Hrest IH]; [done|]. destruct a as [n|e]; cbn [nest_rest expr_ok kind_ok]; apply attrs_ok_spec.
  - split; [apply NoDup_singleton|]. split; [apply Forall_singleton; cbn in *; by rewrite Ha, IH|]. split; [done|by apply Forall_nil].
  - split; [apply NoDup_nil_2|]. split; [by apply Forall_nil|]. split; [done|]. apply Forall_singleton. unfold dyn_ok. cbn in *. by rewrite Ha, IH.
Qed.

Lemma merge_entries_ok pos les : forall es, Forall (fun e => entry_ok e = true) les -> NoDup (b_names es) -> Forall (fun e => bentry_ok e = true) es ->
  match merge_entries les pos es with
  | Ok es' => NoDup (b_names es') /\ Forall (fun e => bentry_ok e = true) es'
  | Err (Fails _) => True
  | Err _ => False
  end.
Proof.
  induction les as [|e les IH]; intros es Hl Hnd Hes; [done|]. apply Forall_cons in Hl as [He Hl]. cbn [merge_entries].
  destruct (b_position (en_name e) es) eqn:E; [done|]. destruct (entries_push es (en_name e, en_pos e, BLeaf (en_val e)) Hnd Hes) as [H1 H2].
  - by apply b_position_None.
  - unfold bentry_ok. by destruct e.
  - by apply IH.
Qed.

Lemma merge_literal_ok a pos b : attrs_ok a = true -> builder_ok b = true -> b_rec b = false -> built false (merge_literal a pos b).
Proof.
  destruct a as [ra les lds], b as [r d es ds]. intros (_ & Hl & _ & Hld)%attrs_ok_spec (Hnd & Hes & _ & Hds)%builder_ok_spec Hr. cbn in Hr. subst r.
  cbn. pose proof (merge_entries_ok pos les es Hl Hnd Hes) as Hm. destruct (merge_entries les pos es) as [es'|e]; [|by destruct e]. destruct Hm as [H1 H2].
  split; [|done]. apply builder_ok_spec. split; [done|]. split; [done|]. split; [done|]. by apply Forall_app.
Qed.

Lemma builder_new_ok r d : (r = true -> d = false) -> builder_ok (builder_new r d) = true.
Proof. intros H. apply builder_ok_spec. split; [apply NoDup_nil_2|]. split; [by apply Forall_nil|]. split; [by intros ->%H|by apply Forall_nil]. Qed.

Lemma from_literal_ok a d pos : attrs_ok a = true -> built false (from_literal a d pos).
Proof. intros Ha. apply merge_literal_ok; [done|by apply builder_new_ok|done]. Qed.

Lemma plain_literal_ok e a : expr_ok e = true -> plain_literal e = Some a -> attrs_ok a = true.
Proof. destruct e as [k p]. unfold plain_literal. cbn. intros Hk H. destruct k; try done. destruct (a_rec a0); [done|]. by injection H as <-. Qed.

Lemma entry_at es i x : Forall (fun e => bentry_ok e = true) es -> es !! i = Some x -> node_ok x.1.1 x.2 = true.
Proof. intros Hes Hi. rewrite Forall_lookup in Hes. specialize (Hes i x Hi). by apply andb_true_iff in Hes as [_ ?]. Qed.

(** Replacing a node keeps a builder well formed. *)
Lemma set_node_ok r d es ds i nm pos node0 node : builder_ok (mkBuilder r d es ds) = true -> es !! i = Some (nm, pos, node0) -> node_ok nm node = true ->
  builder_ok (mkBuilder r d (set_node i node es) ds) = true.
Proof.
  intros (Hnd & Hes & Hr & Hds)%builder_ok_spec Hi Hn. destruct (entries_set es i nm pos node0 node Hnd Hes Hi Hn). by apply builder_ok_spec.
Qed.

Lemma insert_path_ok pos val path : forall b, expr_ok val = true -> Forall (fun a => name_ok a = true) path -> path <> [] -> builder_ok b = true ->
  built (b_rec b) (insert_path path pos val b).
Proof.
  induction path as [|a rest IH]; intros b Hval Hpath Hne Hb; [done|]. apply Forall_cons in Hpath as [Ha Hrest].
  destruct b as [r d es ds]. pose proof Hb as (Hnd & Hes & Hr & Hds)%builder_ok_spec. destruct a as [name|e].
  - destruct rest as [|a2 rest].
    + cbn [insert_path b_rec]. destruct (b_position name es) as [i|] eqn:E; cycle 1.
      { split; [|done]. destruct (entries_push es (name, pos, BLeaf (BExpr val)) Hnd Hes) as [H1 H2].
        - by apply b_position_None.
        - unfold bentry_ok. cbn in *. by rewrite Ha, Hval.
        - by apply builder_ok_spec. }
      destruct (es !! i) as [ [ [nm p] [v|t] ]|] eqn:Ei; [done| |done]. destruct (plain_literal val) as [la|] eqn:El; [|done].
      pose proof (entry_at _ _ _ Hes Ei) as Hn. cbn in Hn. apply andb_true_iff in Hn as [Hr1%negb_true_iff Ht].
      pose proof (merge_literal_ok la pos t (plain_literal_ok _ _ Hval El) Ht Hr1) as Hm.
      destruct (merge_literal la pos t) as [t'|e]; [|by destruct e]. destruct Hm as [H1 H2]. split; [|done].
      eapply set_node_ok; [exact Hb|exact Ei|]. cbn. by rewrite H1, H2.
    + cbn [insert_path b_rec]. set (path2 := a2 :: rest) in *.
      assert (exists i es1, (match b_position name es with Some i => (i, es) | None => (length es, es ++ [(name, pos, BTree (builder_new false d))]) end) = (i, es1) /\
        builder_ok (mkBuilder r d es1 ds) = true) as (i & es1 & -> & Hb1).
      { destruct (b_position name es) as [i|] eqn:E; [by exists i, es|]. do 2 eexists. split; [done|].
        destruct (entries_push es (name, pos, BTree (builder_new false d)) Hnd Hes) as [H1 H2].
        - by apply b_position_None.
        - unfold bentry_ok. cbn [fst snd node_ok]. cbn in Ha. by rewrite Ha, builder_new_ok.
        - by apply builder_ok_spec. }
      pose proof Hb1 as (Hnd1 & Hes1 & _)%builder_ok_spec. destruct (es1 !! i) as [ [ [nm p] node]|] eqn:Ei; [|done].
      pose proof (entry_at _ _ _ Hes1 Ei) as Hn. cbn [fst snd] in Hn.
      assert (forall t, builder_ok t = true -> b_rec t = false ->
        built r (let? t' := insert_path path2 pos val t in Ok (mkBuilder r d (set_node i (BTree t') es1) ds))) as Hgo.
      { intros t Ht Hrt. specialize (IH t Hval Hrest ltac:(done) Ht). destruct (insert_path path2 pos val t) as [t'|e]; [|by destruct e].
        destruct IH as [H1 H2]. split; [|done]. eapply set_node_ok; [exact Hb1|exact Ei|]. cbn. by rewrite H1, H2, Hrt. }
      destruct node as [ [e| |e]|t]; [|done|done|].
      * destruct (plain_literal e) as [la|] eqn:El; [|done]. cbn in Hn. pose proof (from_literal_ok la d pos (plain_literal_ok _ _ Hn El)) as Hf.
        destruct (from_literal la d pos) as [t|e']; [|by destruct e']. destruct Hf as [H1 H2]. by apply Hgo.
      * cbn in Hn. apply andb_true_iff in Hn as [Hrt%negb_true_iff Ht]. by apply Hgo.
  - cbn [insert_path b_rec]. destruct d; [|done]. split; [|done]. apply builder_ok_spec. split; [done|]. split; [done|].
    split; [by intros [? _]%Hr|]. apply Forall_app. split; [done|]. apply Forall_singleton. unfold dyn_ok. cbn in *. by rewrite Ha, nest_rest_ok.
Qed.

(** The induction over builders: entries hold smaller builders. *)
Fixpoint b_size (b : AttrsBuilder) : nat := match b with mkBuilder _ _ es _ => S (list_sum ((fun e => node_size e.2) <$> es)) end
with node_size (node : BNode) : nat := match node with BLeaf _ => O | BTree t => b_size t end.

Lemma node_size_in es (e : str * SrcPos * BNode) : e ∈ es -> (node_size e.2 <= list_sum ((fun e => node_size e.2) <$> es))%nat.
Proof. induction 1 as [x l|x y l _ IH]; rewrite fmap_cons; unfold list_sum in *; cbn [fold_right]; lia. Qed.

Lemma finish_ok n : forall b, (b_size b < n)%nat -> builder_ok b = true -> attrs_ok (finish b) = true /\ a_rec (finish b) = b_rec b.
Proof.
  induction n as [|n IH]; intros b Hn Hb; [lia|]. destruct b as [r d es ds]. split; [|done]. pose proof Hb as (Hnd & Hes & Hr & Hds)%builder_ok_spec.
  cbn [finish]. apply attrs_ok_spec. split.
  { assert (en_name <$> ((fun '(name, pos, node) => mkEntry name pos (finish_node pos node)) <$> es) = b_names es) as ->; [|done].
    rewrite <- list_fmap_compose. apply list_fmap_ext. by intros i [ [nm p] nd] _. }
  split; [|split; [by intros [_ ?]%Hr|done] ]. apply Forall_fmap, Forall_forall. intros [ [nm p] nd] Hin.
  rewrite Forall_forall in Hes. pose proof (Hes _ Hin) as He. unfold bentry_ok in He. cbn [fst snd] in He. apply andb_true_iff in He as [Hu Hnode].
  cbn [entry_ok compose]. rewrite Hu. cbn [andb]. destruct nd as [v|t]; [done|]. cbn in Hnode. apply andb_true_iff in Hnode as [_ Ht].
  pose proof (node_size_in _ _ Hin) as Hsz. cbn in Hsz. cbn in Hn. destruct (IH t ltac:(lia) Ht) as [H1 _]. exact H1.
Qed.

Lemma finish_good b : builder_ok b = true -> attrs_ok (finish b) = true /\ a_rec (finish b) = b_rec b.
Proof. by apply (finish_ok (S (b_size b))), Nat.lt_succ_diag_r. Qed.

End ok.

(** ** Running the parser *)

Section run.
Context (pc : Z -> bool) (Hpc : forall c, path_char c = true -> pc c = true).

Definition msize (p : Parser) : nat := toks_size (ps_toks p).

Definition good (p : Parser) : Prop := forallb token_ok (ps_toks p) = true /\ forallb pc (ps_base_dir p) = true.

(** [m] returns with [Q], or reports an error. *)
Definition pruns {A} (m : PM A) (p : Parser) (Q : A -> Parser -> Prop) : Prop :=
  match m p with
  | Ok (a, p') => Q a p'
  | Err (Fails _) => True
  | Err _ => False
  end.

Lemma pruns_bind {A B} (m : PM A) (f : A -> PM B) p Q : pruns m p (fun a p' => pruns (f a) p' Q) -> pruns (m ≫= f) p Q.
Proof. unfold pruns, mbind, pm_bind. by destruct (m p) as [ [a p']|e]. Qed.

Lemma pruns_mono {A} (m : PM A) p (Q Q' : A -> Parser -> Prop) : pruns m p Q -> (forall a p', Q a p' -> Q' a p') -> pruns m p Q'.
Proof. unfold pruns. intros H HQ. destruct (m p) as [ [a p']|e]; auto. Qed.

Lemma pruns_ret {A} (a : A) p (Q : A -> Parser -> Prop) : Q a p -> pruns (mret a) p Q.
Proof. done. Qed.

Lemma pruns_err {A} p (Q : A -> Parser -> Prop) : pruns parse_err p Q.
Proof. done. Qed.

Lemma pruns_peek {B} (k : Tok -> PM B) p Q : pruns (k (peek_tok p)) p Q -> pruns (peeked ≫= k) p Q.
Proof. done. Qed.

Lemma pruns_pos {B} (k : SrcPos -> PM B) p Q : pruns (k (ps_pos p)) p Q -> pruns (cur_pos ≫= k) p Q.
Proof. done. Qed.

Lemma token_size_pos t : (1 <= token_size t)%nat.
Proof. destruct t as [tok pos]. cbn. destruct tok; cbn; lia. Qed.

(** A step that reads the token [tok]. *)
Lemma pruns_bump {B} (k : Token -> PM B) p Q tok : good p -> peek_tok p = tok -> tok <> TEof ->
  (forall pos p', good p' -> tok_ok tok = true -> (msize p' + tok_size tok = msize p)%nat -> pruns (k (mkToken tok pos)) p' Q) -> pruns (bump_tok ≫= k) p Q.
Proof.
  intros [Hg Hb] Ht Hne Hk. unfold peek_tok, tok_at in Ht. unfold pruns, mbind, pm_bind, bump_tok. destruct (ps_toks p) as [|[tok' pos] rest] eqn:E; [by subst|].
  cbn in Ht. subst tok'. cbn [forallb token_ok] in Hg. apply andb_true_iff in Hg as [Htok Hrest].
  apply (Hk pos (with_toks p rest)); [by split|done|]. unfold msize, toks_size. rewrite E. cbn. lia.
Qed.

(** The same when only the size matters. *)
Lemma pruns_skip {B} (k : Token -> PM B) p Q : good p -> peek_tok p <> TEof ->
  (forall t p', good p' -> (msize p' < msize p)%nat -> pruns (k t) p' Q) -> pruns (bump_tok ≫= k) p Q.
Proof.
  intros Hg Hne Hk. eapply pruns_bump; [done|done|done|]. intros pos p' Hg' _ Hsz. apply Hk; [done|].
  pose proof (token_size_pos (mkToken (peek_tok p) pos)) as H1. cbn in H1. lia.
Qed.

Lemma pruns_expect {B} want (k : unit -> PM B) p Q : good p -> is_tok want TEof = false ->
  (forall p', good p' -> (msize p' < msize p)%nat -> pruns (k tt) p' Q) -> pruns (expect want ≫= k) p Q.
Proof.
  intros Hg Hw Hk. apply pruns_bind. unfold expect. apply pruns_peek. destruct (is_tok want (peek_tok p)) eqn:E; [|apply pruns_err].
  apply pruns_skip; [done|intros Ee; rewrite Ee in E; congruence|]. intros t p' Hg' Hsz. by apply pruns_ret, Hk.
Qed.

Lemma bump_id_spec p s : good p -> peek_tok p = TId s ->
  pruns bump_id p (fun x p' => x = s /\ good p' /\ (msize p' < msize p)%nat /\ ident_ok s = true /\ peek_tok p' = tok_at p 1).
Proof.
  intros [Hg Hb] Ht. unfold peek_tok, tok_at in Ht. unfold pruns, bump_id, mbind, pm_bind, bump_tok. destruct (ps_toks p) as [|[tok pos] rest] eqn:E; [done|].
  cbn in Ht. subst tok. cbn [forallb token_ok tok_ok] in Hg. apply andb_true_iff in Hg as [Htok Hrest]. cbn. split; [done|]. split; [done|].
  split; [unfold msize, toks_size; rewrite E; cbn; lia|]. split; [done|]. unfold peek_tok, tok_at. by rewrite E.
Qed.

Lemma pruns_id {B} (k : str -> PM B) p Q s : good p -> peek_tok p = TId s ->
  (forall p', good p' -> (msize p' < msize p)%nat -> ident_ok s = true -> pruns (k s) p' Q) -> pruns (bump_id ≫= k) p Q.
Proof.
  intros Hg Ht Hk. apply pruns_bind. eapply pruns_mono; [by apply bump_id_spec|]. intros x p' (-> & ? & ? & ? & _). by apply Hk.
Qed.

(** [m] reads at least one token, or none perhaps, of a list of less than [n]. *)
Definition eats {A} (n : nat) (m : PM A) (R : A -> Prop) : Prop :=
  forall p, good p -> (msize p < n)%nat -> pruns m p (fun a p' => R a /\ good p' /\ (msize p' < msize p)%nat).
Definition keeps {A} (n : nat) (m : PM A) (R : A -> Prop) : Prop :=
  forall p, good p -> (msize p < n)%nat -> pruns m p (fun a p' => R a /\ good p' /\ (msize p' <= msize p)%nat).

Lemma eats_keeps {A} n (m : PM A) R : eats n m R -> keeps n m R.
Proof. intros Hm p Hg Hn. eapply pruns_mono; [by apply Hm|]. intros a p' (? & ? & ?). split; [done|]. split; [done|lia]. Qed.

Lemma eats_less {A} n n' (m : PM A) R : eats n' m R -> (n <= n')%nat -> eats n m R.
Proof. intros Hm Hle p Hg Hn. apply Hm; [done|lia]. Qed.

Lemma pruns_eat {A B} n (m : PM A) R (k : A -> PM B) p Q : eats n m R -> good p -> (msize p < n)%nat ->
  (forall a p', R a -> good p' -> (msize p' < msize p)%nat -> pruns (k a) p' Q) -> pruns (m ≫= k) p Q.
Proof. intros Hm Hg Hn Hk. apply pruns_bind. eapply pruns_mono; [by apply Hm|]. intros a p' (? & ? & ?). by apply Hk. Qed.

Lemma pruns_keep {A B} n (m : PM A) R (k : A -> PM B) p Q : keeps n m R -> good p -> (msize p < n)%nat ->
  (forall a p', R a -> good p' -> (msize p' <= msize p)%nat -> pruns (k a) p' Q) -> pruns (m ≫= k) p Q.
Proof. intros Hm Hg Hn Hk. apply pruns_bind. eapply pruns_mono; [by apply Hm|]. intros a p' (? & ? & ?). by apply Hk. Qed.

(** A step that may read something, [R] given. *)
Lemma pruns_opt {A B} R (m : PM A) (k : A -> PM B) p Q : pruns m p (fun a p' => R a /\ good p' /\ (msize p' <= msize p)%nat) ->
  (forall a p', R a -> good p' -> (msize p' <= msize p)%nat -> pruns (k a) p' Q) -> pruns (m ≫= k) p Q.
Proof. intros Hm Hk. apply pruns_bind. eapply pruns_mono; [exact Hm|]. intros a p' (? & ? & ?). by apply Hk. Qed.

(** The last call of a function. *)
Lemma pruns_tail {A} n (m : PM A) (R R' : A -> Prop) p0 p : keeps n m R -> good p -> (msize p < n)%nat -> (msize p < msize p0)%nat ->
  (forall a, R a -> R' a) -> pruns m p (fun a p' => R' a /\ good p' /\ (msize p' < msize p0)%nat).
Proof. intros Hm Hg Hn Hlt HR. eapply pruns_mono; [by apply Hm|]. intros a p' (? & ? & ?). split; [auto|]. split; [done|lia]. Qed.

Definition Eok (e : Expr) : Prop := expr_ok pc e = true.
Definition Bok (r : bool) (b : AttrsBuilder) : Prop := builder_ok pc b = true /\ b_rec b = r.
Definition Nok (path : list AttrName) : Prop := path <> [] /\ Forall (fun a => name_ok pc a = true) path.
Definition Fok (at_outer : option str) (fs : list Formal) : Prop :=
  NoDup (f_name <$> fs) /\ Forall (fun f => formal_ok pc f = true) fs /\ match at_outer with Some n => n ∉ f_name <$> fs | None => True end.
Definition Aok (r : bool) (a : Attrs) : Prop := attrs_ok pc a = true /\ a_rec a = r.

(** What the recursive calls promise for fewer than [n] tokens. *)
Record parse_good (rec : ParseRec) (n : nat) : Prop := {
  pg_expr : eats n (pr_expr rec) Eok;
  pg_impl : eats n (pr_impl rec) Eok;
  pg_or : forall l, Eok l -> keeps n (pr_or rec l) Eok;
  pg_and : forall l, Eok l -> keeps n (pr_and rec l) Eok;
  pg_update : eats n (pr_update rec) Eok;
  pg_not : eats n (pr_not rec) Eok;
  pg_add : forall l, Eok l -> keeps n (pr_add rec l) Eok;
  pg_mul : forall l, Eok l -> keeps n (pr_mul rec l) Eok;
  pg_concat : eats n (pr_concat rec) Eok;
  pg_neg : eats n (pr_neg rec) Eok;
  pg_app : forall l, Eok l -> keeps n (pr_app rec l) Eok;
  pg_select : eats n (pr_select rec) Eok;
  pg_attrpath : forall path, Nok path -> keeps n (pr_attrpath rec path) Nok;
  pg_list : forall xs, Forall Eok xs -> eats (pred n) (pr_list rec xs) (Forall Eok);
  pg_attrset : forall r b, Bok r b -> eats n (pr_attrset rec b) (Bok r);
  pg_let : forall b count, Bok true b -> eats n (pr_let rec b count) (fun '(b', _) => Bok true b');
  pg_inherit : forall r from b, (forall e, from = Some e -> Eok e) -> Bok r b -> eats n (pr_inherit rec from b) (Bok r);
  pg_formals : forall at_outer fs, Fok at_outer fs -> eats n (pr_formals rec at_outer fs) (fun '(fs', _) => Fok at_outer fs')
}.

Section rec.
Context (rec : ParseRec) (n : nat) (Hrec : parse_good rec n).

(** One step of a proof that a function returns. *)
Ltac pstep :=
  lazymatch goal with
  | |- pruns (peeked ≫= _) _ _ => apply pruns_peek; cbn beta
  | |- pruns (cur_pos ≫= _) _ _ => apply pruns_pos; cbn beta
  | |- pruns (mret _ ≫= _) _ _ => apply pruns_bind, pruns_ret; cbn beta
  | |- pruns parse_err _ _ => apply pruns_err
  | |- pruns (expect _ ≫= _) _ _ => apply pruns_expect; [assumption|reflexivity|]; intros ? ? ?
  | |- pruns (bump_tok ≫= _) _ _ => apply pruns_skip; [assumption|congruence|]; intros ? ? ? ?
  | H : peek_tok ?p = TId _ |- pruns (bump_id ≫= _) ?p _ => eapply pruns_id; [assumption|exact H|]; intros ? ? ? ?
  end.

(** A call that reads something, and the end. *)
Ltac peat H := eapply pruns_eat; [exact H|assumption|lia|]; intros ? ? ? ? ?.
Ltac pkeep H := eapply pruns_keep; [exact H|assumption|lia|]; intros ? ? ? ? ?.
Ltac pend := apply pruns_ret; split; [|split; [assumption|lia] ].

(** *** Strings and names *)

Lemma inner_tokens toks : forallb inner_ok toks = true -> forallb token_ok toks = true.
Proof. rewrite !forallb_Forall. intros H. eapply Forall_impl; [exact H|]. intros t. unfold inner_ok. by rewrite andb_true_iff; intros [? _]. Qed.

Lemma sub_parse_spec toks p : forallb token_ok toks = true -> (toks_size toks < n)%nat -> good p ->
  pruns (sub_parse rec toks) p (fun e p' => Eok e /\ p' = p).
Proof.
  intros Ht Hn [_ Hb]. set (p0 := mkParser toks (last toks) (ps_file p) (ps_base_dir p)).
  assert (pruns (e ← pr_expr rec; _ ← expect_end; mret e) p0 (fun e _ => Eok e)) as Hr.
  { eapply pruns_eat; [exact (pg_expr _ _ Hrec)|done|exact Hn|]. intros e p1 He Hg1 _. apply pruns_bind. unfold expect_end. apply pruns_peek.
    by destruct (peek_tok p1). }
  unfold pruns in *. unfold sub_parse. fold p0.
  match type of Hr with match ?x with _ => _ end => destruct x as [ [e p1]|e] end; [|by destruct e]. done.
Qed.

Lemma str_parts_spec p parts : good p -> forallb part_ok parts = true -> (list_sum (part_size <$> parts) < n)%nat ->
  pruns (str_parts rec parts) p (fun out p' => Forall (fun x => spart_ok pc x = true) out /\ is_slit <$> out = is_lit <$> parts /\ p' = p).
Proof.
  intros Hg. induction parts as [|x parts IH]; intros Hp Hn; cbn [str_parts].
  { apply pruns_ret. split; [by apply Forall_nil|done]. }
  cbn [forallb] in Hp. apply andb_true_iff in Hp as [Hx Hp]. change (part_size x + list_sum (part_size <$> parts) < n)%nat in Hn.
  specialize (IH Hp ltac:(lia)). destruct x as [s|toks].
  - apply pruns_bind. eapply pruns_mono; [exact IH|]. intros out p' (Ho & Hs & ->). apply pruns_ret.
    split; [by apply Forall_cons|]. split; [cbn; by f_equal|done].
  - cbn [part_ok] in Hx. change (part_size (PInterp toks)) with (toks_size toks) in Hn. apply pruns_bind.
    eapply pruns_mono; [apply (sub_parse_spec toks p); [by apply inner_tokens|lia|done]|].
    intros e p' (He & ->). apply pruns_bind. eapply pruns_mono; [exact IH|]. intros out p' (Ho & Hs & ->). apply pruns_ret.
    split; [by apply Forall_cons|]. split; [cbn; by f_equal|done].
Qed.

Lemma apart_same out : forall parts, is_slit <$> out = is_lit <$> parts -> apart_sparts out = apart_parts parts.
Proof.
  induction out as [|x out IH]; intros [|y parts] E; try done. cbn in E. injection E as E1 E2. specialize (IH parts E2).
  destruct x as [s|e], y as [s'|t]; try done. destruct out as [|[?|?] out], parts as [|[?|?] parts]; try done.
Qed.

Lemma str_expr_spec p parts pos : good p -> parts_ok parts = true -> (list_sum (part_size <$> parts) < n)%nat ->
  pruns (str_expr rec parts pos) p (fun e p' => Eok e /\ p' = p).
Proof.
  intros Hg Hp Hn. apply andb_true_iff in Hp as [Hp Ha]. unfold str_expr. apply pruns_bind. eapply pruns_mono; [by apply str_parts_spec|].
  intros out p' (Ho & Hs & ->). apply pruns_ret. split; [|done]. unfold Eok. cbn [expr_ok kind_ok]. rewrite (apart_same _ _ Hs), Ha, andb_true_r.
  by apply forallb_Forall.
Qed.

Lemma collect_from_spec rest : forall depth toks, forallb token_ok rest = true -> forallb token_ok toks = true ->
  match collect_from rest depth toks with
  | Ok (toks', rest') => forallb token_ok toks' = true /\ forallb token_ok rest' = true /\ (toks_size toks' + toks_size rest' < toks_size toks + toks_size rest)%nat
  | Err _ => True
  end.
Proof.
  induction rest as [|t rest IH]; intros depth toks Hr Ht; [done|]. cbn [forallb] in Hr. apply andb_true_iff in Hr as [Hx Hr]. cbn [collect_from].
  assert (forall d, match collect_from rest d (toks ++ [t]) with
    | Ok (toks', rest') => forallb token_ok toks' = true /\ forallb token_ok rest' = true /\ (toks_size toks' + toks_size rest' < toks_size toks + toks_size (t :: rest))%nat
    | Err _ => True end) as Hgo.
  { intros d. specialize (IH d (toks ++ [t]) Hr). rewrite forallb_app, Ht in IH. cbn [forallb] in IH. rewrite Hx in IH. specialize (IH eq_refl).
    destruct (collect_from rest d (toks ++ [t])) as [ [toks' rest']|]; [|done]. destruct IH as (H1 & H2 & H3). do 2 (split; [done|]).
    unfold toks_size in *. rewrite fmap_app, list_sum_app in H3. rewrite fmap_cons. unfold list_sum in *. cbn [fold_right fmap list_fmap] in *. lia. }
  pose proof (token_size_pos t) as Hs. destruct (t_tok t); try done; try apply Hgo. destruct depth; [|apply Hgo]. do 2 (split; [done|]).
  unfold toks_size. rewrite fmap_cons. unfold list_sum. cbn [fold_right]. lia.
Qed.

Lemma collect_spec p : good p -> pruns collect_brace_tokens p (fun toks p' => forallb token_ok toks = true /\ good p' /\ (toks_size toks + msize p' < msize p)%nat).
Proof.
  intros [Hg Hb]. unfold pruns, collect_brace_tokens. pose proof (collect_from_spec (ps_toks p) 0 [] Hg eq_refl) as Hc.
  destruct (collect_from (ps_toks p) 0 []) as [ [toks rest]|]; [|done]. destruct Hc as (H1 & H2 & H3). split; [done|]. split; [done|]. exact H3.
Qed.

Lemma lits_utf8 parts : forallb part_ok parts = true -> forallb is_lit parts = true -> utf8_valid (concat (lit_text <$> parts)) = true.
Proof.
  induction parts as [|x parts IH]; [done|]. cbn [forallb]. rewrite !andb_true_iff. intros [Hx Hp] [Hl Hps]. destruct x as [s|t]; [|done].
  cbn [fmap list_fmap lit_text concat]. cbn [part_ok] in Hx. apply andb_true_iff in Hx as [Hx _]. apply utf8_valid_app; [done|by apply IH].
Qed.

Lemma ident_utf8 s : ident_ok s = true -> utf8_valid s = true.
Proof.
  destruct s as [|c r]; [done|]. cbn [ident_ok]. rewrite !andb_true_iff, bool_decide_eq_true. intros [ [Hc Hr] _]. apply utf8_ascii, Forall_cons.
  split; [by apply ident_start_ascii|]. pose proof (ident_span_app r) as E. rewrite Hr, app_nil_r in E. rewrite E. apply ident_span_ascii.
Qed.

Lemma parse_attr_spec : eats (S n) (parse_attr rec) (fun a => name_ok pc a = true).
Proof.
  intros p Hg Hn. unfold parse_attr. do 2 pstep. destruct (peek_tok p) eqn:Et; try apply pruns_err.
  - pstep. pend. cbn. by apply ident_utf8.
  - eapply pruns_bump; [done|exact Et|done|]. intros pos p1 Hg1 Hok Hsz. cbn [tok_ok tok_size] in Hok, Hsz. fold (parts_ok parts) in Hok.
    destruct (forallb is_lit parts) eqn:El.
    + pend. cbn. apply lits_utf8; [|done]. by apply andb_true_iff in Hok as [? _].
    + apply pruns_bind. eapply pruns_mono; [by apply (str_expr_spec p1 parts); [..|lia]|]. intros e p2 (He & ->). pend. exact He.
  - pstep. apply pruns_bind. eapply pruns_mono; [by apply collect_spec|]. intros toks p2 (Ht & Hg2 & Hsz). apply pruns_bind.
    eapply pruns_mono; [apply (sub_parse_spec toks p2); [done|lia|done]|]. intros e p3 (He & ->). pend. exact He.
Qed.

Lemma attrpath_loop_spec path : Nok path -> keeps (S n) (attrpath_loop rec path) Nok.
Proof.
  intros Hp p Hg Hn. unfold attrpath_loop. pstep. destruct (peek_tok p) eqn:Et; try (apply pruns_ret; split; [done|split; [done|lia] ]).
  pstep. peat parse_attr_spec. eapply pruns_mono; [apply (pg_attrpath _ _ Hrec); [|done|lia]|].
  - destruct Hp as [Hne Hp]. split; [by destruct path|]. apply Forall_app. split; [done|by apply Forall_singleton].
  - intros path' p2 (? & ? & ?). split; [done|]. split; [done|lia].
Qed.

Lemma parse_attrpath_spec : eats (S n) (parse_attrpath rec) Nok.
Proof.
  intros p Hg Hn. unfold parse_attrpath. peat parse_attr_spec. eapply pruns_tail; [apply (attrpath_loop_spec [a])|done|lia|lia|done].
  split; [done|]. by apply Forall_singleton.
Qed.

(** *** Patterns and bindings *)

Ltac ptail H := eapply pruns_tail; [exact H|assumption|lia|lia|trivial].

Lemma formals_snoc at_outer fs s d : Fok at_outer fs -> s ∉ f_name <$> fs -> at_outer <> Some s -> formal_ok pc (mkFormal s d) = true ->
  Fok at_outer (fs ++ [mkFormal s d]).
Proof.
  intros (Hnd & Hf & Ha) Hs Hat Hd. unfold Fok. rewrite fmap_app. cbn [fmap list_fmap f_name]. split; [|split].
  - apply NoDup_app. split; [done|]. split; [|by apply NoDup_singleton]. intros x Hx. rewrite list_elem_of_singleton. by intros ->.
  - apply Forall_app. split; [done|by apply Forall_singleton].
  - destruct at_outer as [nm|]; [|done]. rewrite elem_of_app, list_elem_of_singleton. intros [?| ->]; [done|by apply Hat].
Qed.

Lemma default_spec s p : good p -> (msize p < n)%nat -> ident_ok s = true ->
  pruns (match peek_tok p with TQuestion => _ ← bump_tok; e ← pr_expr rec; mret (Some e) | _ => mret None end) p
    (fun d p' => formal_ok pc (mkFormal s d) = true /\ good p' /\ (msize p' <= msize p)%nat).
Proof.
  intros Hg Hn Hs. cbn [formal_ok]. destruct (peek_tok p) eqn:Et; try (pend; by rewrite Hs).
  pstep. peat (pg_expr _ _ Hrec). pend. by rewrite Hs.
Qed.

Lemma formals_loop_spec at_outer fs : Fok at_outer fs -> eats (S n) (formals_loop rec at_outer fs) (fun '(fs', _) => Fok at_outer fs').
Proof.
  intros Hf p Hg Hn. unfold formals_loop. pstep. destruct (peek_tok p) eqn:Et; try apply pruns_err.
  - pstep. destruct (bool_decide (s ∈ _)) eqn:E1; [apply pruns_err|]. destruct (bool_decide (at_outer = _)) eqn:E2; [apply pruns_err|]. cbn [orb].
    apply bool_decide_eq_false in E1, E2. pstep. eapply pruns_opt; [apply (default_spec s); [done|lia|done]|]. intros d p2 Hd Hg2 Hsz2.
    pose proof (formals_snoc at_outer fs s d Hf E1 E2 Hd) as Hf'. pstep. destruct (peek_tok p2) eqn:Et2; try apply pruns_err.
    + pstep. ptail (eats_keeps _ _ _ (pg_formals _ _ Hrec _ _ Hf')).
    + ptail (eats_keeps _ _ _ (pg_formals _ _ Hrec _ _ Hf')).
  - pstep. pend. done.
  - do 2 pstep. pend. done.
Qed.

Lemma pattern_braces_spec at_outer : eats (S n) (parse_pattern_braces rec at_outer) (fun '(fs, _) => Fok at_outer fs).
Proof.
  intros p Hg Hn. unfold parse_pattern_braces. pstep. ptail (eats_keeps _ _ _ (formals_loop_spec at_outer [] ltac:(split; [by apply NoDup_nil|split; [by apply Forall_nil|by destruct at_outer; [apply not_elem_of_nil|] ] ]))).
Qed.

Lemma lift_built r res p p0 : built pc r res -> good p -> (msize p < msize p0)%nat ->
  pruns (lift_parse res) p (fun b p' => Bok r b /\ good p' /\ (msize p' < msize p0)%nat).
Proof. intros Hb Hg Hsz. unfold pruns, lift_parse. destruct res as [b|e]; [|by destruct e]. by split. Qed.

Lemma inherit_loop_spec r from b : (forall e, from = Some e -> Eok e) -> Bok r b -> eats (S n) (inherit_loop rec from b) (Bok r).
Proof.
  intros Hfrom Hb p Hg Hn. unfold inherit_loop. pstep. destruct (peek_tok p) eqn:Et; try apply pruns_err; [|pstep; pend; done].
  do 2 pstep. apply pruns_bind. eapply pruns_mono; [apply (lift_built r _ _ p)|]; [|done|done|].
  - destruct Hb as [Hb <-]. apply insert_leaf_ok; [done|by apply ident_utf8|]. destruct from as [e|]; [|done]. cbn [bind_ok].
    apply andb_true_iff. split; [done|by apply Hfrom].
  - intros b' p2 (Hb' & Hg2 & Hsz2). ptail (eats_keeps _ _ _ (pg_inherit _ _ Hrec r from b' Hfrom Hb')).
Qed.

Lemma parse_bind_spec r b : Bok r b -> eats (S n) (parse_bind rec b) (Bok r).
Proof.
  intros Hb. assert (eats (S n) (pos ← cur_pos; path ← parse_attrpath rec; _ ← expect TAssign; val ← pr_expr rec; _ ← expect TSemi; lift_parse (insert_path path pos val b)) (Bok r)) as Hd.
  { intros p Hg Hn. pstep. peat parse_attrpath_spec. pstep. peat (pg_expr _ _ Hrec). pstep. apply lift_built; [|done|lia].
    destruct Hb as [Hb <-]. match goal with H : Nok _ |- _ => destruct H as [? ?] end. by apply insert_path_ok. }
  intros p Hg Hn. unfold parse_bind. pstep. destruct (peek_tok p) eqn:Et; try by apply Hd. destruct k; try by apply Hd.
  do 2 pstep. apply (pruns_opt (fun from => forall e, from = Some e -> Eok e)).
  - destruct (peek_tok p') eqn:Et'; try (pend; done). pstep. peat (pg_expr _ _ Hrec). pstep. pend. intros ? [= <-]. done.
  - intros from p2 Hf Hg2 Hsz2. ptail (eats_keeps _ _ _ (inherit_loop_spec r from b Hf Hb)).
Qed.

Lemma attrset_loop_spec r b : Bok r b -> eats (S n) (attrset_loop rec b) (Bok r).
Proof.
  intros Hb. assert (eats (S n) (b' ← parse_bind rec b; pr_attrset rec b') (Bok r)) as Hd.
  { intros p Hg Hn. peat (parse_bind_spec r b Hb). eapply pruns_tail; [by apply eats_keeps, (pg_attrset _ _ Hrec r)|assumption|lia|lia|trivial]. }
  intros p Hg Hn. unfold attrset_loop. pstep. destruct (peek_tok p) eqn:Et; try (by apply Hd); try apply pruns_err. pstep. pend. done.
Qed.

Lemma attrset_body_spec r : eats (S n) (parse_attrset_body rec r) (Aok r).
Proof.
  intros p Hg Hn. unfold parse_attrset_body.
  assert (Bok r (builder_new r (negb r))) as Hb by (split; [apply builder_new_ok; by intros ->|done]).
  peat (attrset_loop_spec r _ Hb). pend. match goal with H : Bok _ _ |- _ => destruct H as [Hb1 <-] end. by apply finish_good.
Qed.

Lemma let_loop_spec b count : Bok true b -> eats (S n) (let_loop rec b count) (fun '(b', _) => Bok true b').
Proof.
  intros Hb. assert (eats (S n) (b' ← parse_bind rec b; pr_let rec b' (S count)) (fun '(b', _) => Bok true b')) as Hd.
  { intros p Hg Hn. peat (parse_bind_spec true b Hb). eapply pruns_tail; [by apply eats_keeps, (pg_let _ _ Hrec)|assumption|lia|lia|trivial]. }
  intros p Hg Hn. unfold let_loop. pstep. destruct (peek_tok p) eqn:Et; try (by apply Hd); try apply pruns_err. destruct k; try (by apply Hd).
  pstep. pend. done.
Qed.

Lemma binds_until_in_spec : eats (S n) (parse_binds_until_in rec) (Aok true).
Proof.
  intros p Hg Hn. unfold parse_binds_until_in. assert (Bok true (builder_new true false)) as Hb by done.
  eapply pruns_eat; [exact (let_loop_spec _ 0 Hb)|done|lia|]. intros [b [|count] ] p1 Hb1 Hg1 Hsz1; [apply pruns_err|]. pend.
  destruct Hb1 as [Hb1 <-]. by apply finish_good.
Qed.

(** *** Operands *)

Lemma list_loop_spec xs : Forall Eok xs -> eats n (list_loop rec xs) (Forall Eok).
Proof.
  intros Hxs. assert (eats n (x ← pr_select rec; pr_list rec (xs ++ [x])) (Forall Eok)) as Hd.
  { intros p Hg Hn. peat (pg_select _ _ Hrec). eapply pruns_tail; [apply eats_keeps, (pg_list _ _ Hrec)|assumption|lia|lia|trivial].
    apply Forall_app. split; [done|by apply Forall_singleton]. }
  intros p Hg Hn. unfold list_loop. pstep. destruct (peek_tok p) eqn:Et; try (by apply Hd); try apply pruns_err. pstep. pend. done.
Qed.

Lemma resolve_path_ok base text : forallb pc base = true -> forallb path_char text = true ->
  path_ok pc (normalize_path (if starts_with_slash text then text else base ++ SLASH :: text)) = true.
Proof.
  rewrite !forallb_Forall. intros Hb Ht. unfold path_ok. rewrite normalize_idem, bool_decide_eq_true_2, andb_true_l by done. apply forallb_Forall.
  assert (Forall (fun c => pc c = true) text) as Ht' by (eapply Forall_impl; [exact Ht|]; intros c; apply Hpc).
  apply normalize_chars; [by apply Hpc|]. destruct (starts_with_slash text); [done|]. apply Forall_app. split; [done|]. apply Forall_cons. split; [by apply Hpc|done].
Qed.

Lemma str_operand parts pos p p0 : good p -> parts_ok parts = true -> (list_sum (part_size <$> parts) < n)%nat -> (msize p < msize p0)%nat ->
  pruns (str_expr rec parts pos) p (fun e p' => Eok e /\ good p' /\ (msize p' < msize p0)%nat).
Proof. intros Hg Hp Hn Hsz. eapply pruns_mono; [by apply str_expr_spec|]. intros e p2 (He & ->). done. Qed.

(** Reading a token with its contents. *)
Ltac ptok Et := eapply pruns_bump; [assumption|exact Et|discriminate|]; intros ? ? ? Hok Hsz; cbn [tok_ok tok_size] in Hok, Hsz.

Lemma parse_simple_spec : eats (S n) (parse_simple rec) Eok.
Proof.
  intros p Hg Hn. unfold parse_simple. do 2 pstep. destruct (peek_tok p) eqn:Et; try apply pruns_err.
  - pstep. pend. done.
  - ptok Et. pend. exact Hok.
  - ptok Et. apply (pruns_opt (fun a => path_ok pc a = true)).
    + split; [|split; [done|lia] ]. apply resolve_path_ok; [|exact Hok]. by match goal with H : good p' |- _ => apply H end.
    + intros a p2 Ha Hg2 Hsz2. pend. exact Ha.
  - ptok Et. apply str_operand; [done|exact Hok|lia|lia].
  - ptok Et. apply str_operand; [done|exact Hok|lia|lia].
  - destruct k; try apply pruns_err. do 2 pstep. peat (attrset_body_spec true). pend. match goal with H : Aok _ _ |- _ => apply H end.
  - pstep. peat (pg_expr _ _ Hrec). pstep. pend. done.
  - pstep. peat (list_loop_spec [] ltac:(by apply Forall_nil)). pend. by apply forallb_Forall.
  - pstep. peat (attrset_body_spec false). pend. match goal with H : Aok _ _ |- _ => apply H end.
Qed.

Lemma eok_path base path : Eok base -> Nok path -> expr_ok pc base && negb (bool_decide (length path = 0%nat)) && forallb (name_ok pc) path = true.
Proof.
  intros Hb [Hne Hp]. rewrite Hb. cbn [andb]. rewrite bool_decide_eq_false_2 by (by rewrite length_zero_iff_nil). by apply forallb_Forall.
Qed.

Lemma parse_select_spec : eats (S n) (parse_select rec) Eok.
Proof.
  intros p Hg Hn. unfold parse_select. peat parse_simple_spec. pstep. destruct (peek_tok p') eqn:Et; try (pend; done).
  do 2 pstep. peat parse_attrpath_spec. pstep. apply (pruns_opt (fun d => match d with Some d => expr_ok pc d | None => true end = true)).
  - destruct (peek_tok p'1) eqn:Et1; try (pend; done). destruct k; try (pend; done). pstep. peat (pg_select _ _ Hrec). pend. done.
  - intros d p3 Hd Hg3 Hsz3. pend. unfold Eok. cbn [expr_ok kind_ok]. apply andb_true_iff. split; [by apply eok_path|done].
Qed.

Lemma eok_and (a b : Expr) : Eok a -> Eok b -> expr_ok pc a && expr_ok pc b = true.
Proof. unfold Eok. by intros -> ->. Qed.

Lemma app_loop_spec f : Eok f -> keeps (S n) (app_loop rec f) Eok.
Proof.
  intros Hf p Hg Hn. unfold app_loop. pstep. destruct (starts_select (peek_tok p)); [|pend; done]. pstep. peat parse_select_spec.
  eapply pruns_mono; [apply (pg_app _ _ Hrec); [by apply eok_and|done|lia]|]. intros e p2 (? & ? & ?). split; [done|]. split; [done|lia].
Qed.

Lemma parse_app_spec : eats (S n) (parse_app rec) Eok.
Proof. intros p Hg Hn. unfold parse_app. peat parse_select_spec. eapply pruns_tail; [by apply app_loop_spec|done|lia|lia|trivial]. Qed.

(** *** Operators *)

Lemma parse_neg_spec : eats (S n) (parse_neg rec) Eok.
Proof.
  intros p Hg Hn. unfold parse_neg. pstep. destruct (peek_tok p) eqn:Et; try (by apply parse_app_spec). do 2 pstep. peat (pg_neg _ _ Hrec). pend. done.
Qed.

Lemma parse_hasattr_spec : eats (S n) (parse_hasattr rec) Eok.
Proof.
  intros p Hg Hn. unfold parse_hasattr. peat parse_neg_spec. pstep. destruct (peek_tok p') eqn:Et; try (pend; done).
  do 2 pstep. peat parse_attrpath_spec. pstep. destruct (peek_tok p'1); try apply pruns_err; pend; by apply eok_path.
Qed.

Lemma parse_concat_spec : eats (S n) (parse_concat rec) Eok.
Proof.
  intros p Hg Hn. unfold parse_concat. peat parse_hasattr_spec. pstep. destruct (peek_tok p') eqn:Et; try (pend; done).
  do 2 pstep. peat (pg_concat _ _ Hrec). pend. by apply eok_and.
Qed.

(** A left-associative operator, as a loop. *)
Lemma binop_loop op l (m : PM Expr) (next : Expr -> PM Expr) p : peek_tok p <> TEof -> Eok l -> eats (S n) m Eok -> (forall e, Eok e -> keeps n (next e) Eok) ->
  good p -> (msize p < S n)%nat ->
  pruns (pos ← cur_pos; _ ← bump_tok; r ← m; next (mkExpr (EBinOp op l r) pos)) p (fun e p' => Eok e /\ good p' /\ (msize p' <= msize p)%nat).
Proof.
  intros Ht Hl Hm Hnext Hg Hn. do 2 pstep. peat Hm. eapply pruns_mono; [apply Hnext; [by apply eok_and|done|lia]|].
  intros e p2 (? & ? & ?). split; [done|]. split; [done|lia].
Qed.

Lemma op_not_eof (f : Tok -> option BinOp) p op : f TEof = None -> f (peek_tok p) = Some op -> peek_tok p <> TEof.
Proof. intros H1 H2 H3. rewrite H3 in H2. congruence. Qed.

Lemma mul_loop_spec l : Eok l -> keeps (S n) (mul_loop rec l) Eok.
Proof.
  intros Hl p Hg Hn. unfold mul_loop. pstep. destruct (mul_op (peek_tok p)) eqn:E; [|pend; done].
  apply binop_loop; [exact (op_not_eof mul_op p b eq_refl E)|done|exact parse_concat_spec|exact (pg_mul _ _ Hrec)|done|done].
Qed.

Lemma parse_mul_spec : eats (S n) (parse_mul rec) Eok.
Proof. intros p Hg Hn. unfold parse_mul. peat parse_concat_spec. eapply pruns_tail; [by apply mul_loop_spec|done|lia|lia|trivial]. Qed.

Lemma add_loop_spec l : Eok l -> keeps (S n) (add_loop rec l) Eok.
Proof.
  intros Hl p Hg Hn. unfold add_loop. pstep. destruct (add_op (peek_tok p)) eqn:E; [|pend; done].
  apply binop_loop; [exact (op_not_eof add_op p b eq_refl E)|done|exact parse_mul_spec|exact (pg_add _ _ Hrec)|done|done].
Qed.

Lemma parse_add_spec : eats (S n) (parse_add rec) Eok.
Proof. intros p Hg Hn. unfold parse_add. peat parse_mul_spec. eapply pruns_tail; [by apply add_loop_spec|done|lia|lia|trivial]. Qed.

Lemma parse_not_spec : eats (S n) (parse_not rec) Eok.
Proof.
  intros p Hg Hn. unfold parse_not. pstep. destruct (peek_tok p) eqn:Et; try (by apply parse_add_spec). do 2 pstep. peat (pg_not _ _ Hrec). pend. done.
Qed.

Lemma parse_update_spec : eats (S n) (parse_update rec) Eok.
Proof.
  intros p Hg Hn. unfold parse_update. peat parse_not_spec. pstep. destruct (peek_tok p') eqn:Et; try (pend; done).
  do 2 pstep. peat (pg_update _ _ Hrec). pend. by apply eok_and.
Qed.

(** A comparison, which does not associate. *)
Lemma compare_spec (f : Tok -> option BinOp) (m : PM Expr) : f TEof = None -> eats (S n) m Eok ->
  eats (S n) (l ← m; tok ← peeked;
    match f tok with
    | Some op =>
        pos ← cur_pos; _ ← bump_tok; r ← m; tok1 ← peeked;
        match f tok1 with Some _ => parse_err | None => mret (mkExpr (EBinOp op l r) pos) end
    | None => mret l
    end) Eok.
Proof.
  intros Hf Hm p Hg Hn. peat Hm. pstep. destruct (f (peek_tok p')) eqn:E; [|pend; done]. pose proof (op_not_eof f p' _ Hf E) as Hne.
  do 2 pstep. peat Hm. pstep. clear E. destruct (f (peek_tok _)); [apply pruns_err|]. pend. by apply eok_and.
Qed.

Lemma parse_rel_spec : eats (S n) (parse_rel rec) Eok.
Proof. exact (compare_spec rel_op _ eq_refl parse_update_spec). Qed.

Lemma parse_eq_spec : eats (S n) (parse_eq rec) Eok.
Proof. exact (compare_spec eq_op _ eq_refl parse_rel_spec). Qed.

Lemma and_loop_spec l : Eok l -> keeps (S n) (and_loop rec l) Eok.
Proof.
  intros Hl p Hg Hn. unfold and_loop. pstep. destruct (peek_tok p) eqn:E; try (pend; done).
  apply binop_loop; [congruence|done|exact parse_eq_spec|exact (pg_and _ _ Hrec)|done|done].
Qed.

Lemma parse_and_spec : eats (S n) (parse_and rec) Eok.
Proof. intros p Hg Hn. unfold parse_and. peat parse_eq_spec. eapply pruns_tail; [by apply and_loop_spec|done|lia|lia|trivial]. Qed.

Lemma or_loop_spec l : Eok l -> keeps (S n) (or_loop rec l) Eok.
Proof.
  intros Hl p Hg Hn. unfold or_loop. pstep. destruct (peek_tok p) eqn:E; try (pend; done).
  apply binop_loop; [congruence|done|exact parse_and_spec|exact (pg_or _ _ Hrec)|done|done].
Qed.

Lemma parse_or_spec : eats (S n) (parse_or rec) Eok.
Proof. intros p Hg Hn. unfold parse_or. peat parse_and_spec. eapply pruns_tail; [by apply or_loop_spec|done|lia|lia|trivial]. Qed.

Lemma parse_impl_spec : eats (S n) (parse_impl rec) Eok.
Proof.
  intros p Hg Hn. unfold parse_impl. peat parse_or_spec. pstep. destruct (peek_tok p') eqn:Et; try (pend; done).
  do 2 pstep. peat (pg_impl _ _ Hrec). pend. by apply eok_and.
Qed.

(** *** Expressions *)

Lemma param_pattern_ok fs ell at_ : Fok at_ fs -> (forall s, at_ = Some s -> ident_ok s = true) -> param_ok pc (PPattern fs ell at_) = true.
Proof.
  intros (Hnd & Hf & Ha) Hid. cbn [param_ok]. unfold distinct. rewrite bool_decide_eq_true_2 by done. apply andb_true_iff. split; [by apply forallb_Forall|].
  destruct at_ as [s|]; [|done]. rewrite (Hid s eq_refl). by rewrite bool_decide_eq_false_2.
Qed.

Lemma eok_lambda param body pos pos' : param_ok pc param = true -> Eok body -> Eok (mkExpr (ELambda param body pos) pos').
Proof. unfold Eok. cbn [expr_ok kind_ok]. by intros -> ->. Qed.

Lemma lambda_pattern_spec pos : eats (S n) (lambda_pattern rec pos) Eok.
Proof.
  intros p Hg Hn. unfold lambda_pattern. eapply pruns_eat; [exact (pattern_braces_spec None)|done|lia|]. intros [fs ell] p1 Hf Hg1 Hsz1. pstep.
  apply (pruns_opt (fun at_ => Fok at_ fs /\ forall s, at_ = Some s -> ident_ok s = true)).
  - destruct (peek_tok p1) eqn:Et; try (pend; done). pstep. apply pruns_bind. unfold bump_id_or_err. pstep. destruct (peek_tok p') eqn:Et'; try apply pruns_err.
    eapply pruns_mono; [by apply bump_id_spec|]. intros x p2 (-> & Hg2 & Hsz2 & Hs & _). case_bool_decide as Hin; [apply pruns_err|]. pend.
    split; [|by intros ? [= <-] ]. destruct Hf as (? & ? & _). done.
  - intros at_ p2 [Hf2 Hid] Hg2 Hsz2. pstep. peat (pg_expr _ _ Hrec). pend. apply eok_lambda; [by apply param_pattern_ok|done].
Qed.

Lemma lambda_at_spec s pos : ident_ok s = true -> eats (S n) (lambda_at rec s pos) Eok.
Proof.
  intros Hs p Hg Hn. unfold lambda_at. eapply pruns_eat; [exact (pattern_braces_spec (Some s))|done|lia|]. intros [fs ell] p1 Hf Hg1 Hsz1.
  pstep. peat (pg_expr _ _ Hrec). pend. apply eok_lambda; [|done]. apply param_pattern_ok; [done|]. by intros ? [= <-].
Qed.

(** [peeked_at], and the token it saw. *)
Lemma pruns_peek_at {B} off (k : Tok -> PM B) p Q : pruns (k (tok_at p off)) p Q -> pruns (peeked_at off ≫= k) p Q.
Proof. done. Qed.

(** A name and the token after it. *)
Lemma pruns_id_next {B} (k : str -> PM B) p Q s : good p -> peek_tok p = TId s -> tok_at p 1 <> TEof ->
  (forall p', good p' -> (msize p' < msize p)%nat -> ident_ok s = true -> pruns (k s) p' Q) -> pruns (x ← bump_id; _ ← bump_tok; k x) p Q.
Proof.
  intros Hg Ht Hne Hk. apply pruns_bind. eapply pruns_mono; [by apply bump_id_spec|]. intros x p1 (-> & Hg1 & Hsz1 & Hs & Hnext).
  apply pruns_skip; [done|congruence|]. intros t p2 Hg2 Hsz2. apply Hk; [done|lia|done].
Qed.

Lemma parse_expr_spec : eats (S n) (parse_expr rec) Eok.
Proof.
  intros p Hg Hn. unfold parse_expr. do 2 pstep. apply pruns_peek_at. destruct (peek_tok p) eqn:Et; try (by apply parse_impl_spec).
  - destruct (tok_at p 1) eqn:E1; try (by apply parse_impl_spec).
    + eapply pruns_id_next; [done|exact Et|congruence|]. intros p1 Hg1 Hsz1 Hs. peat (pg_expr _ _ Hrec). pend. by apply eok_lambda.
    + eapply pruns_id_next; [done|exact Et|congruence|]. intros p1 Hg1 Hsz1 Hs. eapply pruns_tail; [by apply eats_keeps, lambda_at_spec|done|lia|lia|trivial].
  - destruct k; try (by apply parse_impl_spec).
    + pstep. peat (pg_expr _ _ Hrec). pstep. peat (pg_expr _ _ Hrec). pstep. peat (pg_expr _ _ Hrec). pend. unfold Eok. cbn [expr_ok kind_ok].
      apply andb_true_iff. split; [by apply eok_and|done].
    + pstep. peat binds_until_in_spec. peat (pg_expr _ _ Hrec). pend. unfold Eok. cbn [expr_ok kind_ok].
      match goal with H : Aok _ _ |- _ => destruct H as [Ha Hr] end. rewrite Ha, Hr. done.
    + pstep. peat (pg_expr _ _ Hrec). pstep. peat (pg_expr _ _ Hrec). pend. by apply eok_and.
    + pstep. peat (pg_expr _ _ Hrec). pstep. peat (pg_expr _ _ Hrec). pend. by apply eok_and.
  - change (pruns (if brace_is_pattern p then lambda_pattern rec (ps_pos p) else parse_impl rec) p (fun a p' => Eok a /\ good p' /\ (msize p' < msize p)%nat)).
    destruct (brace_is_pattern p); [by apply lambda_pattern_spec|by apply parse_impl_spec].
Qed.

Lemma parse_step_good rec' : rec' = mkParseRec (parse_expr rec) (parse_impl rec) (or_loop rec) (and_loop rec) (parse_update rec) (parse_not rec)
        (add_loop rec) (mul_loop rec) (parse_concat rec) (parse_neg rec) (app_loop rec) (parse_select rec)
        (attrpath_loop rec) (list_loop rec) (attrset_loop rec) (let_loop rec) (inherit_loop rec) (formals_loop rec) -> parse_good rec' (S n).
Proof.
  intros ->. split; cbn.
  - exact parse_expr_spec.
  - exact parse_impl_spec.
  - exact or_loop_spec.
  - exact and_loop_spec.
  - exact parse_update_spec.
  - exact parse_not_spec.
  - exact add_loop_spec.
  - exact mul_loop_spec.
  - exact parse_concat_spec.
  - exact parse_neg_spec.
  - exact app_loop_spec.
  - exact parse_select_spec.
  - exact attrpath_loop_spec.
  - exact list_loop_spec.
  - exact attrset_loop_spec.
  - exact let_loop_spec.
  - exact inherit_loop_spec.
  - exact formals_loop_spec.
Qed.

End rec.

Lemma parse_knot_good n : parse_good (parse_knot n) n.
Proof.
  induction n as [|n IH]; [|by apply (parse_step_good (parse_knot n) n IH)].
  by split; intros; intros p _ Hlt; apply Nat.nlt_0_r in Hlt.
Qed.

Lemma parse_toks_spec toks file base_dir : forallb token_ok toks = true -> forallb pc base_dir = true ->
  match parse_toks toks file base_dir with Ok e => expr_ok pc e = true | Err (Fails _) => True | Err _ => False end.
Proof.
  intros Ht Hb. unfold parse_toks. set (p0 := mkParser toks (last toks) file base_dir).
  assert (pruns (e ← pr_expr (parse_knot (S (toks_size toks))); _ ← expect_end; mret e) p0 (fun e _ => Eok e)) as Hr.
  { eapply pruns_eat; [exact (pg_expr _ _ (parse_knot_good _))|done|apply Nat.lt_succ_diag_r|]. intros e p1 He Hg1 _. apply pruns_bind. unfold expect_end.
    apply pruns_peek. by destruct (peek_tok p1). }
  unfold pruns in Hr. match type of Hr with match ?x with _ => _ end => destruct x as [ [e p1]|e] end; done.
Qed.

End run.

(** ** The front end *)

(** The bytes of the paths of a file in [base_dir]. *)
Definition path_bytes (base_dir : str) (c : Z) : bool := path_char c || bool_decide (c ∈ base_dir).

Lemma base_path_bytes base_dir : forallb (path_bytes base_dir) base_dir = true.
Proof. apply forallb_Forall, Forall_forall. intros c Hc. unfold path_bytes. by rewrite bool_decide_eq_true_2, orb_true_r. Qed.

Lemma lexed_tokens_ok ts e : t_tok e = TEof -> forallb inner_ok ts = true -> forallb token_ok (ts ++ [e]) = true.
Proof. intros He Ht. rewrite forallb_app, inner_tokens by done. destruct e as [tok pos]. cbn in He. by subst tok. Qed.

(** A parse error or a well-formed expression. *)
Definition parsed_ok (base_dir : str) (r : result Expr ShadeStop) : Prop :=
  match r with
  | Ok e => expr_ok (path_bytes base_dir) e = true
  | Err (Fails _) => True
  | Err Panics | Err Stuck => False
  end.

(** C0. The front end of the package language is total: for every source of
    valid UTF-8 [parse_str] ends, within the fuel of the model, with a parse
    error or with an expression, and never in a panic ([unreachable!], an
    index or a slice out of range).  The expression is well formed: no
    attribute set, pattern or [let] binds a name twice, [rec] sets and [let]
    have no dynamic attributes, variables and formals are identifiers,
    integers fit [i64], adjacent string literals have been joined, attribute
    paths are not empty, and a path is its own normal form and holds only
    bytes of path literals and of the base directory. *)
Theorem parse_returns src file base_dir : utf8_valid src = true ->
  parsed_ok base_dir (parse_str src file base_dir).
Proof.
  intros Hv. pose proof (lex_total src file Hv) as Hl. unfold parse_str, parsed_ok. destruct (lex src file) as [toks|e]; [|by destruct e].
  destruct Hl as (ts & e & -> & He & Ht). cbn [result_bind]. apply parse_toks_spec; [|by apply lexed_tokens_ok|apply base_path_bytes].
  intros c Hc. unfold path_bytes. by rewrite Hc.
Qed.

Definition DEMO_SRC : str := lit "{ pkgs, jobs ? 4, ... }@args: let src = ./hello; in rec { name = ''hello-${v}''; v = pkgs.version or (1 + 2 * jobs); a.b = src; a.c = [ 1 2 ]; }".

Definition DEMO_FILE : str := lit "/p/d.shade".
Definition DEMO_DIR : str := lit "/p".

(** A package is parsed. *)
Lemma parse_returns_witness : utf8_valid DEMO_SRC = true /\ parsed_ok DEMO_DIR (parse_str DEMO_SRC DEMO_FILE DEMO_DIR) /\
  match parse_str DEMO_SRC DEMO_FILE DEMO_DIR with Ok _ => true | Err _ => false end = true.
Proof.
  assert (utf8_valid DEMO_SRC = true) as Hv by (vm_compute; reflexivity). split; [exact Hv|]. split; [exact (parse_returns DEMO_SRC DEMO_FILE DEMO_DIR Hv)|].
  vm_compute. reflexivity.
Defined.
