(* ===== verification/ShadePrint.v ===== *)
(** * Printing expressions of the package language

    A printer from syntax trees to tokens, with parentheses only where the
    precedence of the operators asks for them.  It is the specification that
    the parser is compared with in ShadeRoundtrip.v: [level] is the table of
    precedences, [print] the grammar. *)

From S2P Require Import Prelude Paths Text ShadeLex ShadeLexLaws ShadeParse ShadeParseLaws.

#[local] Open Scope Z_scope.
#[local] Open Scope rust_scope.

(** ** Precedence *)

Definition op_level (op : BinOp) : nat :=
  match op with
  | OImpl => 1
  | OOr => 2
  | OAnd => 3
  | OEq | ONe => 4
  | OLt | OLe | OGt | OGe => 5
  | OUpdate => 6
  | OAdd | OSub => 8
  | OMul | ODiv => 9
  | OConcat => 10
  end.

Inductive assoc : Type := LeftA | RightA | NonA.
Definition op_assoc (op : BinOp) : assoc :=
  match op with
  | OImpl | OUpdate | OConcat => RightA
  | OOr | OAnd | OAdd | OSub | OMul | ODiv => LeftA
  | OEq | ONe | OLt | OLe | OGt | OGe => NonA
  end.
Definition op_left (op : BinOp) : nat := match op_assoc op with LeftA => op_level op | _ => S (op_level op) end.
Definition op_right (op : BinOp) : nat := match op_assoc op with RightA => op_level op | _ => S (op_level op) end.

Definition op_tok (op : BinOp) : Tok :=
  match op with
  | OImpl => TImpl | OOr => TOr | OAnd => TAnd | OEq => TEq | ONe => TNe
  | OLt => TLt | OLe => TLe | OGt => TGt | OGe => TGe | OUpdate => TUpdate
  | OAdd => TPlus | OSub => TMinus | OMul => TStar | ODiv => TSlash | OConcat => TConcat
  end.

(** The tightest level at which an expression stands without parentheses. *)
Definition level (e : Expr) : nat :=
  match e_kind e with
  | ELambda _ _ _ | ELet _ _ | EWith _ _ | EIf _ _ _ | EAssert _ _ => 0
  | EBinOp op _ _ => op_level op
  | ENot _ => 7
  | EHasAttr _ _ => 11
  | ENeg _ => 12
  | EApply _ _ => 13
  | ESelect _ _ _ => 14
  | EVar _ | EInt _ | EStr _ | EPath _ | EList _ | EAttrs _ => 15
  end.

(** ** The printer *)

Section print.
Context (pos0 : SrcPos).

Definition tk (t : Tok) : Token := mkToken t pos0.

Definition wrap (l : nat) (e : Expr) (toks : list Token) : list Token :=
  if (level e <? l)%nat then tk TLParen :: toks ++ [tk TRParen] else toks.

Definition static_name (n : str) : Token :=
  if ident_ok n then tk (TId n) else tk (TStr (if bool_decide (n = []) then [] else [PLit n])).

Definition dotted (names : list (list Token)) : list Token :=
  match names with [] => [] | x :: rest => x ++ concat ((fun y => tk TDot :: y) <$> rest) end.

Fixpoint print (e : Expr) : list Token := match e with mkExpr k _ => print_kind k end
with print_kind (k : ExprKind) : list Token :=
  match k with
  | EVar n => [tk (TId n)]
  | EInt i => [tk (TInt i)]
  | EStr parts => [tk (TStr (print_part <$> parts))]
  | EPath p => [tk (TPath p)]
  | EList xs => tk TLBracket :: concat ((fun x => wrap 14 x (print x)) <$> xs) ++ [tk TRBracket]
  | EAttrs a => (if a_rec a then [tk (TKw KwRec)] else []) ++ tk TLBrace :: print_attrs a ++ [tk TRBrace]
  | ESelect base path default =>
      wrap 15 base (print base) ++ tk TDot :: dotted (print_name <$> path) ++
      match default with Some d => tk (TKw KwOr) :: wrap 14 d (print d) | None => [] end
  | EHasAttr base path => wrap 12 base (print base) ++ tk TQuestion :: dotted (print_name <$> path)
  | EApply f arg => wrap 13 f (print f) ++ wrap 14 arg (print arg)
  | ELambda param body _ => print_param param ++ tk TColon :: print body
  | ELet binds body =>
      tk (TKw KwLet) :: (match a_entries binds with [] => [tk (TKw KwInherit); tk TSemi] | _ => [] end) ++ print_attrs binds ++
      tk (TKw KwIn) :: print body
  | EWith scope body => tk (TKw KwWith) :: print scope ++ tk TSemi :: print body
  | EIf cond then_ else_ => tk (TKw KwIf) :: print cond ++ tk (TKw KwThen) :: print then_ ++ tk (TKw KwElse) :: print else_
  | EAssert cond body => tk (TKw KwAssert) :: print cond ++ tk TSemi :: print body
  | EBinOp op l r => wrap (op_left op) l (print l) ++ tk (op_tok op) :: wrap (op_right op) r (print r)
  | ENeg e => tk TMinus :: wrap 12 e (print e)
  | ENot e => tk TNot :: wrap 7 e (print e)
  end
with print_part (p : SPart) : StrPart := match p with SLit s => PLit s | SInterp e => PInterp (print e) end
with print_name (a : AttrName) : list Token :=
  match a with AStatic n => [static_name n] | ADynamic e => tk TDollarBrace :: print e ++ [tk TRBrace] end
with print_attrs (a : Attrs) : list Token :=
  match a with
  | mkAttrs _ es ds =>
      concat (print_entry <$> es) ++
      concat ((fun '(n, v) => tk TDollarBrace :: print n ++ tk TRBrace :: tk TAssign :: print v ++ [tk TSemi]) <$> ds)
  end
with print_entry (e : AttrEntry) : list Token := match e with mkEntry n _ v => print_bind n v end
with print_bind (n : str) (v : BindVal) : list Token :=
  match v with
  | BExpr e => static_name n :: tk TAssign :: print e ++ [tk TSemi]
  | BInheritPlain => [tk (TKw KwInherit); tk (TId n); tk TSemi]
  | BInheritFrom e => tk (TKw KwInherit) :: tk TLParen :: print e ++ [tk TRParen; tk (TId n); tk TSemi]
  end
with print_param (p : Param) : list Token :=
  match p with
  | PIdent n => [tk (TId n)]
  | PPattern formals ellipsis at_ =>
      match at_ with Some n => [tk (TId n); tk TAt] | None => [] end ++
      tk TLBrace :: concat (print_formal <$> formals) ++ (if ellipsis then [tk TEllipsis] else []) ++ [tk TRBrace]
  end
with print_formal (f : Formal) : list Token :=
  match f with
  | mkFormal n default => tk (TId n) :: match default with Some d => tk TQuestion :: print d | None => [] end ++ [tk TComma]
  end.

Definition print_at (l : nat) (e : Expr) : list Token := wrap l e (print e).

(** The same expression with [pos0] at every node, as the parser builds it from
    tokens at [pos0]. *)
Fixpoint repos (e : Expr) : Expr := match e with mkExpr k _ => mkExpr (repos_kind k) pos0 end
with repos_kind (k : ExprKind) : ExprKind :=
  match k with
  | EVar n => EVar n
  | EInt i => EInt i
  | EStr parts => EStr (repos_part <$> parts)
  | EPath p => EPath p
  | EList xs => EList (repos <$> xs)
  | EAttrs a => EAttrs (repos_attrs a)
  | ESelect base path default =>
      ESelect (repos base) (repos_name <$> path) (match default with Some d => Some (repos d) | None => None end)
  | EHasAttr base path => EHasAttr (repos base) (repos_name <$> path)
  | EApply f arg => EApply (repos f) (repos arg)
  | ELambda param body _ => ELambda (repos_param param) (repos body) pos0
  | ELet binds body => ELet (repos_attrs binds) (repos body)
  | EWith scope body => EWith (repos scope) (repos body)
  | EIf cond then_ else_ => EIf (repos cond) (repos then_) (repos else_)
  | EAssert cond body => EAssert (repos cond) (repos body)
  | EBinOp op l r => EBinOp op (repos l) (repos r)
  | ENeg e => ENeg (repos e)
  | ENot e => ENot (repos e)
  end
with repos_part (p : SPart) : SPart := match p with SLit s => SLit s | SInterp e => SInterp (repos e) end
with repos_name (a : AttrName) : AttrName := match a with AStatic n => AStatic n | ADynamic e => ADynamic (repos e) end
with repos_attrs (a : Attrs) : Attrs :=
  match a with mkAttrs r es ds => mkAttrs r (repos_entry <$> es) ((fun '(n, v) => (repos n, repos v)) <$> ds) end
with repos_entry (e : AttrEntry) : AttrEntry := match e with mkEntry n _ v => mkEntry n pos0 (repos_bind v) end
with repos_bind (v : BindVal) : BindVal :=
  match v with BExpr e => BExpr (repos e) | BInheritPlain => BInheritPlain | BInheritFrom e => BInheritFrom (repos e) end
with repos_param (p : Param) : Param :=
  match p with PIdent n => PIdent n | PPattern formals ellipsis at_ => PPattern (repos_formal <$> formals) ellipsis at_ end
with repos_formal (f : Formal) : Formal :=
  match f with mkFormal n default => mkFormal n (match default with Some d => Some (repos d) | None => None end) end.

End print.

(** ** Induction on expressions *)

Section induct.
Context (P : Expr -> Prop).

Definition part_all (x : SPart) : Prop := match x with SLit _ => True | SInterp e => P e end.
Definition name_all (a : AttrName) : Prop := match a with AStatic _ => True | ADynamic e => P e end.
Definition opt_all (d : option Expr) : Prop := match d with Some e => P e | None => True end.
Definition entry_all (e : AttrEntry) : Prop :=
  match en_val e with BExpr x | BInheritFrom x => P x | BInheritPlain => True end.
Definition dyn_all (d : Expr * Expr) : Prop := P d.1 /\ P d.2.
Definition attrs_all (a : Attrs) : Prop := Forall entry_all (a_entries a) /\ Forall dyn_all (a_dynamics a).
Definition formal_all (f : Formal) : Prop := match f with mkFormal _ d => opt_all d end.
Definition param_all (p : Param) : Prop := match p with PIdent _ => True | PPattern fs _ _ => Forall formal_all fs end.

(** [P] holds of the expressions directly below. *)
Definition kind_all (k : ExprKind) : Prop :=
  match k with
  | EVar _ | EInt _ | EPath _ => True
  | EStr parts => Forall part_all parts
  | EList xs => Forall P xs
  | EAttrs a => attrs_all a
  | ESelect base path default => P base /\ Forall name_all path /\ opt_all default
  | EHasAttr base path => P base /\ Forall name_all path
  | EApply f arg => P f /\ P arg
  | ELambda param body _ => param_all param /\ P body
  | ELet binds body => attrs_all binds /\ P body
  | EWith scope body => P scope /\ P body
  | EIf cond then_ else_ => P cond /\ P then_ /\ P else_
  | EAssert cond body => P cond /\ P body
  | EBinOp _ l r => P l /\ P r
  | ENeg e | ENot e => P e
  end.

Lemma expr_induct : (forall k pos, kind_all k -> P (mkExpr k pos)) -> forall e, P e.
Proof.
  intros H. fix IH 1. intros [k pos]. apply H.
  assert (forall xs : list Expr, Forall P xs) as Hlist by (induction xs; constructor; auto).
  assert (forall a, name_all a) as Hname by (intros [?|?]; cbn; auto).
  assert (forall path, Forall name_all path) as Hpath by (induction path; constructor; auto).
  assert (forall d, opt_all d) as Hopt by (intros [?|]; cbn; auto).
  assert (forall a, attrs_all a) as Hattrs.
  { intros [r es ds]. split; cbn.
    - induction es as [|[n q v] es IHes]; constructor; [|exact IHes]. destruct v; cbn; auto.
    - induction ds as [|[n v] ds IHds]; constructor; [|exact IHds]. split; cbn; auto. }
  destruct k; cbn; auto.
  - induction parts as [|[?|?] parts IHp]; constructor; cbn; auto.
  - split; [|auto]. destruct param as [|fs ? ?]; cbn; auto. induction fs as [|[n d] fs IHf]; constructor; cbn; auto.
Qed.

End induct.

(** What holds of the elements of a well-formed list. *)
Lemma Forall_ok {A} (Q R : A -> Prop) (okb : A -> bool) l :
  Forall Q l -> forallb okb l = true -> (forall x, Q x -> okb x = true -> R x) -> Forall R l.
Proof.
  intros Hq Hok H. apply forallb_Forall in Hok. rewrite Forall_forall in *. intros x Hx. by apply H; [apply Hq|apply Hok].
Qed.

(** ** Printed tokens *)

(** Braces match: the scans for a closing brace pass over [toks]. *)
Definition balanced (toks : list Token) : Prop :=
  (forall rest d acc, collect_from (toks ++ rest) d acc = collect_from rest d (acc ++ toks)) /\
  (forall rest d, brace_scan (toks ++ rest) (S d) = brace_scan rest (S d)).

Definition neat (toks : list Token) : Prop := forallb inner_ok toks = true /\ balanced toks.

Definition flat_tok (t : Tok) : bool :=
  match t with TLBrace | TDollarBrace | TRBrace | TEof => false | _ => true end.

Lemma neat_nil : neat [].
Proof. split; [done|]. split; [|done]. intros rest d acc. by rewrite app_nil_r. Qed.

Lemma neat_app a b : neat a -> neat b -> neat (a ++ b).
Proof.
  intros [Ha [Ca Sa] ] [Hb [Cb Sb] ]. split; [by rewrite forallb_app, Ha, Hb|]. split.
  - intros rest d acc. by rewrite <- app_assoc, Ca, Cb, app_assoc.
  - intros rest d. by rewrite <- app_assoc, Sa, Sb.
Qed.

Lemma neat_tok t pos : flat_tok t = true -> tok_ok t = true -> neat [mkToken t pos].
Proof.
  intros Hf Hok. split; [cbn [forallb]; unfold inner_ok; cbn [token_ok]; rewrite Hok; by destruct t|]. split; intros; by destruct t.
Qed.

Lemma neat_cons t pos l : flat_tok t = true -> tok_ok t = true -> neat l -> neat (mkToken t pos :: l).
Proof. intros Hf Hok Hl. apply (neat_app [mkToken t pos] l); [by apply neat_tok|done]. Qed.

Lemma neat_braced open pos pos' l : open = TLBrace \/ open = TDollarBrace -> neat l -> neat (mkToken open pos :: l ++ [mkToken TRBrace pos']).
Proof.
  intros Ho [Hl [Cl Sl] ]. split.
  { cbn [forallb]. rewrite forallb_app, Hl. by destruct Ho as [-> | ->]. }
  split.
  - intros rest d acc. assert (collect_from ((mkToken open pos :: l ++ [mkToken TRBrace pos']) ++ rest) d acc = collect_from (l ++ mkToken TRBrace pos' :: rest) (S d) (acc ++ [mkToken open pos])) as ->.
    { cbn [app]. rewrite <- app_assoc. by destruct Ho as [-> | ->]. }
    rewrite Cl. cbn [collect_from t_tok]. by rewrite <- !app_assoc.
  - intros rest d. assert (brace_scan ((mkToken open pos :: l ++ [mkToken TRBrace pos']) ++ rest) (S d) = brace_scan (l ++ mkToken TRBrace pos' :: rest) (S (S d))) as ->.
    { cbn [app]. rewrite <- app_assoc. by destruct Ho as [-> | ->]. }
    by rewrite Sl.
Qed.

Lemma neat_concat ls : Forall neat ls -> neat (concat ls).
Proof. induction 1 as [|l ls Hl Hls IH]; [apply neat_nil|]. by apply neat_app. Qed.

Lemma neat_map {A} (f : A -> list Token) xs : Forall (fun x => neat (f x)) xs -> neat (concat (f <$> xs)).
Proof. intros H. apply neat_concat. by apply Forall_fmap. Qed.

Section neat.
Context (pos0 : SrcPos).

Lemma neat_wrap l e toks : neat toks -> neat (wrap pos0 l e toks).
Proof.
  intros Ht. unfold wrap. destruct (level e <? l)%nat; [|done]. apply neat_cons; [done|done|]. apply neat_app; [done|by apply neat_tok].
Qed.

Lemma neat_static n : utf8_valid n = true -> neat [static_name pos0 n].
Proof.
  intros Hn. unfold static_name. destruct (ident_ok n) eqn:Ei; apply neat_tok; try done. cbn. case_bool_decide as E; [done|]. cbn.
  by rewrite Hn, bool_decide_eq_false_2.
Qed.

Lemma neat_dotted ls : Forall neat ls -> neat (dotted pos0 ls).
Proof.
  intros [|l ls' Hl Hls]; [apply neat_nil|]. apply neat_app; [done|]. apply neat_map. eapply Forall_impl; [exact Hls|]. intros x Hx. by apply neat_cons.
Qed.

Definition neat_expr (e : Expr) : Prop := expr_ok path_char e = true -> neat (print pos0 e).

Lemma neat_name a : name_all neat_expr a -> name_ok path_char a = true -> neat (print_name pos0 a).
Proof. destruct a as [n|e]; cbn; intros Ha Hok; [by apply neat_static|]. apply neat_braced; [by right|by apply Ha]. Qed.

Lemma neat_path path : Forall (name_all neat_expr) path -> forallb (name_ok path_char) path = true -> neat (dotted pos0 (print_name pos0 <$> path)).
Proof. intros Ha Hok. apply neat_dotted, Forall_fmap. exact (Forall_ok _ _ _ path Ha Hok neat_name). Qed.

Lemma neat_entry e : entry_all neat_expr e -> entry_ok path_char e = true -> neat (print_entry pos0 e).
Proof.
  destruct e as [n q v]. cbn. rewrite andb_true_iff. intros Ha [Hn Hv]. destruct v as [e| |e]; cbn in *.
  - apply (neat_app [static_name pos0 n]); [by apply neat_static|]. apply neat_cons; [done|done|]. apply neat_app; [by apply Ha|by apply neat_tok].
  - do 3 (apply neat_cons; [done|done|]). apply neat_nil.
  - apply andb_true_iff in Hv as [Hi Hv]. do 2 (apply neat_cons; [done|done|]). apply neat_app; [by apply Ha|]. do 3 (apply neat_cons; [done|done|]). apply neat_nil.
Qed.

Lemma neat_attrs a : attrs_all neat_expr a -> attrs_ok path_char a = true -> neat (print_attrs pos0 a).
Proof.
  destruct a as [r es ds]. intros [He Hd]. cbn in He, Hd. intros (_ & Hes & _ & Hds)%attrs_ok_spec. cbn. apply neat_app; apply neat_map.
  - apply (Forall_ok _ _ (entry_ok path_char) es He); [by apply forallb_Forall|exact neat_entry].
  - apply (Forall_ok _ _ (dyn_ok path_char) ds Hd); [by apply forallb_Forall|]. intros [n v] [Hn Hv]. cbn in *. unfold dyn_ok. rewrite andb_true_iff. cbn. intros [Hn' Hv'].
    change (neat (tk pos0 TDollarBrace :: print pos0 n ++ [tk pos0 TRBrace] ++ tk pos0 TAssign :: print pos0 v ++ [tk pos0 TSemi])).
    rewrite app_assoc. change (neat ((tk pos0 TDollarBrace :: print pos0 n ++ [tk pos0 TRBrace]) ++ tk pos0 TAssign :: print pos0 v ++ [tk pos0 TSemi])).
    apply neat_app; [apply neat_braced; [by right|by apply Hn]|]. apply neat_cons; [done|done|]. apply neat_app; [by apply Hv|by apply neat_tok].
Qed.

Lemma neat_formal f : formal_all neat_expr f -> formal_ok path_char f = true -> neat (print_formal pos0 f).
Proof.
  destruct f as [n d]. cbn. rewrite andb_true_iff. intros Ha [Hn Hd]. apply neat_cons; [done|done|]. apply neat_app; [|by apply neat_tok].
  destruct d as [d|]; [|apply neat_nil]. apply neat_cons; [done|done|by apply Ha].
Qed.

Lemma neat_formals fs (ell : bool) : Forall (formal_all neat_expr) fs -> forallb (formal_ok path_char) fs = true ->
  neat (concat (print_formal pos0 <$> fs) ++ if ell then [tk pos0 TEllipsis] else []).
Proof.
  intros Ha Hok. apply neat_app; [|destruct ell; [by apply neat_tok|apply neat_nil] ]. apply neat_map. exact (Forall_ok _ _ _ fs Ha Hok neat_formal).
Qed.

Lemma neat_param p : param_all neat_expr p -> param_ok path_char p = true -> neat (print_param pos0 p).
Proof.
  destruct p as [n|fs ell at_]; cbn [param_all param_ok print_param]; [intros _ Hn; by apply neat_tok|]. rewrite !andb_true_iff. intros Ha [ [_ Hf] Hat].
  apply neat_app; [destruct at_ as [n|]; [apply andb_true_iff in Hat as [Hn _]; by do 2 (apply neat_cons; [done|done|]); apply neat_nil|apply neat_nil]|].
  rewrite app_assoc. apply neat_braced; [by left|by apply neat_formals].
Qed.

Lemma neat_str parts : Forall (part_all neat_expr) parts -> forallb (spart_ok path_char) parts = true -> apart_sparts parts = true ->
  neat [tk pos0 (TStr (print_part pos0 <$> parts))].
Proof.
  intros Ha Hok Hap. apply neat_tok; [done|]. cbn [tok_ok]. apply andb_true_iff. split.
  - apply forallb_Forall, Forall_fmap. apply (Forall_ok _ _ _ parts Ha Hok). intros [s|e]; cbn; [done|]. intros He Hoke. by apply He.
  - clear Ha Hok. induction parts as [|x parts IH]; [done|]. destruct x as [s|e]; [|by apply IH]. destruct parts as [|[s'|e'] parts]; [done|done|]. by apply IH.
Qed.

Lemma op_tok_neat op : flat_tok (op_tok op) = true /\ tok_ok (op_tok op) = true.
Proof. by destruct op. Qed.

Lemma print_neat e : expr_ok path_char e = true -> neat (print pos0 e).
Proof.
  revert e. apply (expr_induct neat_expr). intros k pos Hk. unfold neat_expr. cbn [expr_ok print].
  destruct k; cbn [kind_all kind_ok print_kind] in *; rewrite ?andb_true_iff.
  - intros Hok. by apply neat_tok.
  - intros Hok. apply neat_tok; [done|]. cbn. by apply andb_true_iff.
  - intros [Hok Hap]. by apply neat_str.
  - intros Hok. apply neat_tok; [done|]. by apply andb_true_iff in Hok as [_ ?].
  - intros Hok. apply neat_cons; [done|done|]. apply neat_app; [|by apply neat_tok]. apply neat_map. apply (Forall_ok _ _ _ xs Hk Hok). intros x Hx Hx'. by apply neat_wrap, Hx.
  - intros Hok. apply neat_app; [by destruct (a_rec a); [apply neat_tok|apply neat_nil]|]. apply neat_braced; [by left|]. by apply neat_attrs.
  - destruct Hk as (Hb & Hp & Hd). intros [ [ [Hb' _] Hp'] Hd']. apply neat_app; [by apply neat_wrap, Hb|]. apply neat_cons; [done|done|].
    apply neat_app; [by apply neat_path|]. destruct default as [d|]; [|apply neat_nil]. apply neat_cons; [done|done|]. by apply neat_wrap, Hd.
  - destruct Hk as (Hb & Hp). intros [ [Hb' _] Hp']. apply neat_app; [by apply neat_wrap, Hb|]. apply neat_cons; [done|done|]. by apply neat_path.
  - destruct Hk as [Hf Ha]. intros [Hf' Ha']. apply neat_app; apply neat_wrap; [by apply Hf|by apply Ha].
  - destruct Hk as [Hp Hb]. intros [Hp' Hb']. apply neat_app; [by apply neat_param|]. apply neat_cons; [done|done|by apply Hb].
  - destruct Hk as [Ha Hb]. intros [ [_ Ha'] Hb']. apply neat_cons; [done|done|]. apply neat_app.
    { destruct (a_entries binds); [|apply neat_nil]. do 2 (apply neat_cons; [done|done|]). apply neat_nil. }
    apply neat_app; [by apply neat_attrs|]. apply neat_cons; [done|done|by apply Hb].
  - destruct Hk as [Hs Hb]. intros [Hs' Hb']. apply neat_cons; [done|done|]. apply neat_app; [by apply Hs|]. apply neat_cons; [done|done|by apply Hb].
  - destruct Hk as (Hc & Ht & He). intros [ [Hc' Ht'] He']. apply neat_cons; [done|done|]. apply neat_app; [by apply Hc|]. apply neat_cons; [done|done|].
    apply neat_app; [by apply Ht|]. apply neat_cons; [done|done|by apply He].
  - destruct Hk as [Hs Hb]. intros [Hs' Hb']. apply neat_cons; [done|done|]. apply neat_app; [by apply Hs|]. apply neat_cons; [done|done|by apply Hb].
  - destruct Hk as [Hl Hr]. intros [Hl' Hr']. destruct (op_tok_neat op) as [H1 H2]. apply neat_app; [by apply neat_wrap, Hl|].
    apply neat_cons; [done|done|]. by apply neat_wrap, Hr.
  - intros Hok. apply neat_cons; [done|done|]. by apply neat_wrap, Hk.
  - intros Hok. apply neat_cons; [done|done|]. by apply neat_wrap, Hk.
Qed.
End neat.

(** ** First tokens *)

Definition hd_tok (toks : list Token) : Tok := match toks with [] => TEof | t :: _ => t_tok t end.

(** The tightest level an expression that starts with [t] may stand at. *)
Definition start_level (t : Tok) : nat :=
  match t with
  | TKw KwAssert | TKw KwWith | TKw KwLet | TKw KwIf => 0
  | TNot => 7
  | TMinus => 12
  | _ => 15
  end.

Section heads.
Context (pos0 : SrcPos).

Definition headed (l : nat) (toks : list Token) : Prop :=
  exists t ts, toks = tk pos0 t :: ts /\ (l <= start_level t)%nat /\ ((14 <= l)%nat -> starts_select t = true).

Lemma headed_app l toks rest : headed l toks -> headed l (toks ++ rest).
Proof. intros (t & ts & -> & H). by exists t, (ts ++ rest). Qed.

Lemma headed_less l l' toks : headed l toks -> (l' <= l)%nat -> headed l' toks.
Proof. intros (t & ts & -> & H1 & H2) Hle. exists t, ts. split; [done|]. split; [lia|]. intros ?. apply H2. lia. Qed.

Lemma headed_cons l t ts : (l <= start_level t)%nat -> ((14 <= l)%nat -> starts_select t = true) -> headed l (tk pos0 t :: ts).
Proof. intros H1 H2. by exists t, ts. Qed.

Lemma headed_wrap l e toks : headed (level e) toks -> (l <= 15)%nat -> headed l (wrap pos0 l e toks).
Proof.
  intros Ht Hl. unfold wrap. destruct (level e <? l)%nat eqn:E; [by apply headed_cons|]. apply Nat.ltb_ge in E. by eapply headed_less.
Qed.

Lemma op_left_range op : (op_level op <= op_left op <= 15)%nat /\ (op_level op <= op_right op <= 15)%nat /\ (1 <= op_level op <= 10)%nat.
Proof. destruct op; cbn; lia. Qed.

Lemma print_headed e : headed (level e) (print pos0 e).
Proof.
  revert e. apply expr_induct. intros k pos Hk. destruct k; cbn [kind_all print print_kind] in *; unfold level; cbn [e_kind];
    try (apply headed_cons; [cbn; lia|first [done|intros; exfalso; lia] ]).
  - destruct (a_rec a); by apply headed_cons.
  - destruct Hk as [Hb _]. apply headed_app, (headed_less 15); [by apply headed_wrap|lia].
  - destruct Hk as [Hb _]. apply headed_app, (headed_less 12); [apply headed_wrap; [done|lia]|lia].
  - destruct Hk as [Hf _]. apply headed_app, headed_wrap; [done|lia].
  - apply headed_app. destruct param as [n|fs ell [n|] ]; apply headed_cons; cbn; lia.
  - destruct Hk as [Hl _]. destruct (op_left_range op) as (? & ? & ?). apply headed_app, (headed_less (op_left op)); [apply headed_wrap; [done|lia]|lia].
Qed.

Lemma print_at_headed l e : (l <= 15)%nat -> headed l (print_at pos0 l e).
Proof. apply headed_wrap, print_headed. Qed.

(** [parse_expr] reads such tokens as an operator expression. *)
Definition not_pattern (t : Tok) : bool := match t with TColon | TAt => false | _ => true end.
Definition impl_start (toks : list Token) : bool :=
  match toks with
  | [] => true
  | t :: rest =>
      match t_tok t with
      | TKw KwAssert | TKw KwWith | TKw KwLet | TKw KwIf => false
      | TId _ => not_pattern (hd_tok rest)
      | TLBrace => negb (brace_scan toks 0)
      | _ => true
      end
  end.

Lemma attrs_impl_start toks rest : balanced toks -> not_pattern (hd_tok rest) = true ->
  impl_start (tk pos0 TLBrace :: toks ++ tk pos0 TRBrace :: rest) = true.
Proof.
  intros [_ Hs] Hr. cbn [impl_start t_tok tk brace_scan]. rewrite Hs. cbn. destruct rest as [|t rest]; [done|]. cbn in Hr. by destruct (t_tok t).
Qed.

Definition starts_impl (e : Expr) : Prop := expr_ok path_char e = true -> (1 <= level e)%nat ->
  forall rest, not_pattern (hd_tok rest) = true -> impl_start (print pos0 e ++ rest) = true.

Lemma wrap_impl_start l e rest : starts_impl e -> expr_ok path_char e = true -> (1 <= l)%nat -> not_pattern (hd_tok rest) = true ->
  impl_start (wrap pos0 l e (print pos0 e) ++ rest) = true.
Proof.
  intros He Hok Hl Hr. unfold wrap. destruct (level e <? l)%nat eqn:E; [done|]. apply Nat.ltb_ge in E. apply He; [done|lia|done].
Qed.

Lemma print_impl_start e : starts_impl e.
Proof.
  revert e. apply expr_induct. intros k pos Hk Hok Hl rest Hr. cbn [expr_ok print] in *.
  destruct k; unfold level in Hl; cbn [kind_all kind_ok print_kind e_kind] in *; rewrite ?andb_true_iff in Hok; try done; try lia.
  - destruct (a_rec a); [done|]. cbn [app]. rewrite <- app_assoc. apply attrs_impl_start; [|done].
    apply neat_attrs; [|done]. assert (forall e, neat_expr pos0 e) as Hn by (intros e; exact (print_neat pos0 e)).
    destruct a as [r es ds]. split; apply Forall_forall; intros x _; [destruct x as [? ? [] ]; cbn; auto|by split; apply Hn].
  - destruct Hk as [Hb _]. destruct Hok as [ [ [Hok _] _] _]. rewrite <- app_assoc. by apply wrap_impl_start; [..|lia|].
  - destruct Hk as [Hb _]. destruct Hok as [ [Hok _] _]. rewrite <- app_assoc. by apply wrap_impl_start; [..|lia|].
  - destruct Hk as [Hf _]. destruct Hok as [Hok _]. rewrite <- app_assoc. apply wrap_impl_start; [done|done|lia|].
    destruct (headed_app 14 _ rest (print_at_headed 14 arg ltac:(lia))) as (t & ts & E & _ & Hs). unfold print_at in E. rewrite E. cbn.
    specialize (Hs ltac:(lia)). by destruct t.
  - destruct Hk as [Hl' _]. destruct Hok as [Hok _]. destruct (op_left_range op) as (? & ? & ?). rewrite <- app_assoc.
    apply wrap_impl_start; [done|done|lia|]. by destruct op.
Qed.

End heads.
