(* ===== verification/ShadeRoundtrip.v ===== *)
(** * The parser reads what the printer writes

    [print_parse]: for every well-formed expression, parsing its printed tokens
    gives it back.  The printer of ShadePrint.v puts parentheses only where the
    precedence table asks for them, so this is the correctness of precedence,
    associativity and lookahead in the recursive-descent parser.

    More fuel never changes an answer ([below]), so a computation is described
    by the result it has for all large fuels ([res]); at each level of the
    grammar an expression is read up to a token that does not continue it
    ([reads]). *)

From S2P Require Import Prelude Paths Text ShadeLex ShadeLexLaws ShadeParse ShadeParseLaws ShadePrint.

#[local] Open Scope Z_scope.
#[local] Open Scope rust_scope.

(** ** More fuel *)

Definition below {A} (m m' : PM A) : Prop := forall p, m p = Err Stuck \/ m' p = m p.

Lemma below_refl {A} (m : PM A) : below m m.
Proof. by right. Qed.

Lemma below_bind {A B} (m m' : PM A) (f f' : A -> PM B) : below m m' -> (forall a, below (f a) (f' a)) -> below (m ≫= f) (m' ≫= f').
Proof.
  intros Hm Hf p. unfold mbind, pm_bind. destruct (Hm p) as [-> | ->]; [by left|]. destruct (m p) as [ [a p']|e]; [apply Hf|by right].
Qed.

Record rec_below (rec rec' : ParseRec) : Prop := {
  rb_expr : below (pr_expr rec) (pr_expr rec');
  rb_impl : below (pr_impl rec) (pr_impl rec');
  rb_or : forall l, below (pr_or rec l) (pr_or rec' l);
  rb_and : forall l, below (pr_and rec l) (pr_and rec' l);
  rb_update : below (pr_update rec) (pr_update rec');
  rb_not : below (pr_not rec) (pr_not rec');
  rb_add : forall l, below (pr_add rec l) (pr_add rec' l);
  rb_mul : forall l, below (pr_mul rec l) (pr_mul rec' l);
  rb_concat : below (pr_concat rec) (pr_concat rec');
  rb_neg : below (pr_neg rec) (pr_neg rec');
  rb_app : forall l, below (pr_app rec l) (pr_app rec' l);
  rb_select : below (pr_select rec) (pr_select rec');
  rb_attrpath : forall l, below (pr_attrpath rec l) (pr_attrpath rec' l);
  rb_list : forall l, below (pr_list rec l) (pr_list rec' l);
  rb_attrset : forall b, below (pr_attrset rec b) (pr_attrset rec' b);
  rb_let : forall b c, below (pr_let rec b c) (pr_let rec' b c);
  rb_inherit : forall f b, below (pr_inherit rec f b) (pr_inherit rec' f b);
  rb_formals : forall a fs, below (pr_formals rec a fs) (pr_formals rec' a fs)
}.

Create HintDb mono discriminated.
#[local] Hint Resolve rb_expr rb_impl rb_or rb_and rb_update rb_not rb_add rb_mul rb_concat rb_neg rb_app rb_select : mono.
#[local] Hint Resolve rb_attrpath rb_list rb_attrset rb_let rb_inherit rb_formals : mono.

Ltac mono :=
  repeat lazymatch goal with
  | |- forall _, _ => intros ?
  | |- below (_ ≫= _) (_ ≫= _) => apply below_bind
  | |- below (match ?x with _ => _ end) _ => destruct x
  | |- below _ _ => first [apply below_refl|solve [eauto 3 with mono] ]
  end.

Section mono.
Context (rec rec' : ParseRec) (Hrec : rec_below rec rec').

Lemma sub_parse_below toks : below (sub_parse rec toks) (sub_parse rec' toks).
Proof.
  intros p. unfold sub_parse. set (p0 := mkParser _ _ _ _).
  assert (below (e ← pr_expr rec; _ ← expect_end; mret e) (e ← pr_expr rec'; _ ← expect_end; mret e)) as H by mono.
  destruct (H p0) as [-> | ->]; [by left|by right].
Qed.
#[local] Hint Resolve sub_parse_below : mono.

Lemma str_parts_below parts : below (str_parts rec parts) (str_parts rec' parts).
Proof. induction parts as [|[s|toks] parts IH]; cbn [str_parts]; mono; exact IH. Qed.
#[local] Hint Resolve str_parts_below : mono.

Lemma str_expr_below parts pos : below (str_expr rec parts pos) (str_expr rec' parts pos).
Proof. unfold str_expr. mono. Qed.
#[local] Hint Resolve str_expr_below : mono.

Lemma parse_attr_below : below (parse_attr rec) (parse_attr rec').
Proof. unfold parse_attr. mono. Qed.
#[local] Hint Resolve parse_attr_below : mono.
Lemma attrpath_loop_below path : below (attrpath_loop rec path) (attrpath_loop rec' path).
Proof. unfold attrpath_loop. mono. Qed.
#[local] Hint Resolve attrpath_loop_below : mono.

Lemma parse_attrpath_below : below (parse_attrpath rec) (parse_attrpath rec').
Proof. unfold parse_attrpath. mono. Qed.
#[local] Hint Resolve parse_attrpath_below : mono.

Lemma formals_loop_below at_outer fs : below (formals_loop rec at_outer fs) (formals_loop rec' at_outer fs).
Proof. unfold formals_loop. mono. Qed.
#[local] Hint Resolve formals_loop_below : mono.

Lemma parse_pattern_braces_below at_outer : below (parse_pattern_braces rec at_outer) (parse_pattern_braces rec' at_outer).
Proof. unfold parse_pattern_braces. mono. Qed.
#[local] Hint Resolve parse_pattern_braces_below : mono.

Lemma inherit_loop_below from b : below (inherit_loop rec from b) (inherit_loop rec' from b).
Proof. unfold inherit_loop. mono. Qed.
#[local] Hint Resolve inherit_loop_below : mono.

Lemma parse_bind_below b : below (parse_bind rec b) (parse_bind rec' b).
Proof. unfold parse_bind. mono. Qed.
#[local] Hint Resolve parse_bind_below : mono.

Lemma attrset_loop_below b : below (attrset_loop rec b) (attrset_loop rec' b).
Proof. unfold attrset_loop. mono. Qed.
#[local] Hint Resolve attrset_loop_below : mono.

Lemma parse_attrset_body_below r : below (parse_attrset_body rec r) (parse_attrset_body rec' r).
Proof. unfold parse_attrset_body. mono. Qed.
#[local] Hint Resolve parse_attrset_body_below : mono.

Lemma let_loop_below b c : below (let_loop rec b c) (let_loop rec' b c).
Proof. unfold let_loop. mono. Qed.
#[local] Hint Resolve let_loop_below : mono.

Lemma parse_binds_until_in_below : below (parse_binds_until_in rec) (parse_binds_until_in rec').
Proof. unfold parse_binds_until_in. mono. Qed.
#[local] Hint Resolve parse_binds_until_in_below : mono.

Lemma list_loop_below xs : below (list_loop rec xs) (list_loop rec' xs).
Proof. unfold list_loop. mono. Qed.
#[local] Hint Resolve list_loop_below : mono.

Lemma parse_simple_below : below (parse_simple rec) (parse_simple rec').
Proof. unfold parse_simple. mono. Qed.
#[local] Hint Resolve parse_simple_below : mono.

Lemma parse_select_below : below (parse_select rec) (parse_select rec').
Proof. unfold parse_select. mono. Qed.
#[local] Hint Resolve parse_select_below : mono.

Lemma app_loop_below f : below (app_loop rec f) (app_loop rec' f).
Proof. unfold app_loop. mono. Qed.
#[local] Hint Resolve app_loop_below : mono.

Lemma parse_app_below : below (parse_app rec) (parse_app rec').
Proof. unfold parse_app. mono. Qed.
#[local] Hint Resolve parse_app_below : mono.

Lemma parse_neg_below : below (parse_neg rec) (parse_neg rec').
Proof. unfold parse_neg. mono. Qed.
#[local] Hint Resolve parse_neg_below : mono.

Lemma parse_hasattr_below : below (parse_hasattr rec) (parse_hasattr rec').
Proof. unfold parse_hasattr. mono. Qed.
#[local] Hint Resolve parse_hasattr_below : mono.

Lemma parse_concat_below : below (parse_concat rec) (parse_concat rec').
Proof. unfold parse_concat. mono. Qed.
#[local] Hint Resolve parse_concat_below : mono.

Lemma mul_loop_below l : below (mul_loop rec l) (mul_loop rec' l).
Proof. unfold mul_loop. mono. Qed.
#[local] Hint Resolve mul_loop_below : mono.

Lemma parse_mul_below : below (parse_mul rec) (parse_mul rec').
Proof. unfold parse_mul. mono. Qed.
#[local] Hint Resolve parse_mul_below : mono.

Lemma add_loop_below l : below (add_loop rec l) (add_loop rec' l).
Proof. unfold add_loop. mono. Qed.
#[local] Hint Resolve add_loop_below : mono.

Lemma parse_add_below : below (parse_add rec) (parse_add rec').
Proof. unfold parse_add. mono. Qed.
#[local] Hint Resolve parse_add_below : mono.

Lemma parse_not_below : below (parse_not rec) (parse_not rec').
Proof. unfold parse_not. mono. Qed.
#[local] Hint Resolve parse_not_below : mono.

Lemma parse_update_below : below (parse_update rec) (parse_update rec').
Proof. unfold parse_update. mono. Qed.
#[local] Hint Resolve parse_update_below : mono.

Lemma parse_rel_below : below (parse_rel rec) (parse_rel rec').
Proof. unfold parse_rel. mono. Qed.
#[local] Hint Resolve parse_rel_below : mono.

Lemma parse_eq_below : below (parse_eq rec) (parse_eq rec').
Proof. unfold parse_eq. mono. Qed.
#[local] Hint Resolve parse_eq_below : mono.

Lemma and_loop_below l : below (and_loop rec l) (and_loop rec' l).
Proof. unfold and_loop. mono. Qed.
#[local] Hint Resolve and_loop_below : mono.

Lemma parse_and_below : below (parse_and rec) (parse_and rec').
Proof. unfold parse_and. mono. Qed.
#[local] Hint Resolve parse_and_below : mono.

Lemma or_loop_below l : below (or_loop rec l) (or_loop rec' l).
Proof. unfold or_loop. mono. Qed.
#[local] Hint Resolve or_loop_below : mono.

Lemma parse_or_below : below (parse_or rec) (parse_or rec').
Proof. unfold parse_or. mono. Qed.
#[local] Hint Resolve parse_or_below : mono.

Lemma parse_impl_below : below (parse_impl rec) (parse_impl rec').
Proof. unfold parse_impl. mono. Qed.
#[local] Hint Resolve parse_impl_below : mono.

Lemma lambda_at_below n pos : below (lambda_at rec n pos) (lambda_at rec' n pos).
Proof. unfold lambda_at. mono. Qed.
#[local] Hint Resolve lambda_at_below : mono.

Lemma lambda_pattern_below pos : below (lambda_pattern rec pos) (lambda_pattern rec' pos).
Proof. unfold lambda_pattern. mono. Qed.
#[local] Hint Resolve lambda_pattern_below : mono.

Lemma parse_expr_below : below (parse_expr rec) (parse_expr rec').
Proof. unfold parse_expr. mono. Qed.
#[local] Hint Resolve parse_expr_below : mono.

Lemma step_below n n' : parse_knot n = rec -> parse_knot n' = rec' -> rec_below (parse_knot (S n)) (parse_knot (S n')).
Proof. intros En En'. cbn [parse_knot]. rewrite En, En'. split; cbn; auto with mono. Qed.

End mono.

Lemma stuck_below {A} (m : PM A) : below parse_stuck m.
Proof. by left. Qed.

Lemma knot_below n : rec_below (parse_knot n) (parse_knot (S n)).
Proof.
  induction n as [|n IH]; [|exact (step_below _ _ IH n (S n) eq_refl eq_refl)]. split; intros; apply stuck_below.
Qed.

Lemma rec_below_trans a b c : rec_below a b -> rec_below b c -> rec_below a c.
Proof.
  assert (forall A (m1 m2 m3 : PM A), below m1 m2 -> below m2 m3 -> below m1 m3) as Ht.
  { intros A m1 m2 m3 H12 H23 p. destruct (H12 p) as [?|E]; [by left|]. destruct (H23 p) as [E'|E']; [left; congruence|right; congruence]. }
  intros H1 H2. split; intros; eapply Ht; eauto with mono.
Qed.

Lemma knots_below n m : (n <= m)%nat -> rec_below (parse_knot n) (parse_knot m).
Proof.
  induction 1 as [|m _ IH]; [split; intros; apply below_refl|]. eapply rec_below_trans; [exact IH|apply knot_below].
Qed.

(** ** Results for enough fuel *)

Definition res {A} (m : ParseRec -> PM A) (p : Parser) (x : A * Parser) : Prop :=
  exists N, forall n, (N <= n)%nat -> m (parse_knot n) p = Ok x.

Lemma res_now {A} (m : PM A) p x : m p = Ok x -> res (fun _ => m) p x.
Proof. intros H. by exists 0%nat. Qed.

Lemma res_ret {A} (a : A) p : res (fun _ => mret a) p (a, p).
Proof. by apply res_now. Qed.

Lemma res_bind {A B} (m : ParseRec -> PM A) (k : ParseRec -> A -> PM B) p a p1 x :
  res m p (a, p1) -> res (fun rec => k rec a) p1 x -> res (fun rec => m rec ≫= k rec) p x.
Proof.
  intros [N HN] [M HM]. exists (N + M)%nat. intros n Hn. unfold mbind, pm_bind. rewrite HN by lia. apply HM. lia.
Qed.

Lemma res_peek {B} (k : ParseRec -> Tok -> PM B) p x : res (fun rec => k rec (peek_tok p)) p x -> res (fun rec => peeked ≫= k rec) p x.
Proof. by apply res_bind, res_now. Qed.

Lemma res_peek_at {B} off (k : ParseRec -> Tok -> PM B) p x : res (fun rec => k rec (tok_at p off)) p x -> res (fun rec => peeked_at off ≫= k rec) p x.
Proof. by apply res_bind, res_now. Qed.

Lemma res_pos {B} (k : ParseRec -> SrcPos -> PM B) p x : res (fun rec => k rec (ps_pos p)) p x -> res (fun rec => cur_pos ≫= k rec) p x.
Proof. by apply res_bind, res_now. Qed.

(** A recursive call is the function with less fuel. *)
Lemma res_knot {A} (f g : ParseRec -> PM A) p x : (forall n, f (parse_knot (S n)) = g (parse_knot n)) -> res g p x -> res f p x.
Proof. intros Hfg [N HN]. exists (S N). intros [|n] Hn; [lia|]. rewrite Hfg. apply HN. lia. Qed.

(** ** Levels of the grammar *)

Definition level_fn (l : nat) : ParseRec -> PM Expr :=
  match l with
  | 0 => parse_expr
  | 1 => parse_impl
  | 2 => parse_or
  | 3 => parse_and
  | 4 => parse_eq
  | 5 => parse_rel
  | 6 => parse_update
  | 7 => parse_not
  | 8 => parse_add
  | 9 => parse_mul
  | 10 => parse_concat
  | 11 => parse_hasattr
  | 12 => parse_neg
  | 13 => parse_app
  | 14 => parse_select
  | _ => parse_simple
  end%nat.

(** The levels that are loops, for operators that associate to the left. *)
Definition left_level (l : nat) : bool := match l with 2 | 3 | 8 | 9 | 13 => true | _ => false end%nat.
Definition loop_fn (l : nat) : ParseRec -> Expr -> PM Expr :=
  match l with
  | 2 => or_loop
  | 3 => and_loop
  | 8 => add_loop
  | 9 => mul_loop
  | _ => app_loop
  end%nat.

(** The level at which [t] continues an expression; above all of them for the
    tokens that make a pattern of what is before them. *)
Definition cont_level (t : Tok) : nat :=
  match t with
  | TColon | TAt => 99
  | TDot | TKw KwOr => 14
  | TId _ | TInt _ | TStr _ | TIndStr _ | TPath _ | TLParen | TLBracket | TLBrace | TKw KwRec => 13
  | TQuestion => 11
  | TConcat => 10
  | TStar | TSlash => 9
  | TPlus | TMinus => 8
  | TUpdate => 6
  | TLt | TLe | TGt | TGe => 5
  | TEq | TNe => 4
  | TAnd => 3
  | TOr => 2
  | TImpl => 1
  | _ => 0
  end.

Definition stops (l : nat) (rest : list Token) : Prop := (cont_level (hd_tok rest) < Nat.max 1 l)%nat.

Section read.
Context (pos0 : SrcPos) (file base_dir : str).

Definition st (lst : option Token) (toks : list Token) : Parser := mkParser toks lst file base_dir.

Lemma st_peek lst toks : peek_tok (st lst toks) = hd_tok toks.
Proof. by destruct toks. Qed.

Lemma res_bump {B} (k : ParseRec -> Token -> PM B) lst t rest x :
  res (fun rec => k rec t) (st lst rest) x -> res (fun rec => bump_tok ≫= k rec) (st lst (t :: rest)) x.
Proof. by apply res_bind, res_now. Qed.

Lemma res_expect {B} want (k : ParseRec -> unit -> PM B) lst t rest x : is_tok want (t_tok t) = true ->
  res (fun rec => k rec tt) (st lst rest) x -> res (fun rec => expect want ≫= k rec) (st lst (t :: rest)) x.
Proof.
  intros Ht. apply res_bind, res_now. unfold expect, mbind, pm_bind, peeked. rewrite st_peek. cbn [hd_tok]. by rewrite Ht.
Qed.

Lemma res_id {B} (k : ParseRec -> str -> PM B) lst n rest x :
  res (fun rec => k rec n) (st lst rest) x -> res (fun rec => bump_id ≫= k rec) (st lst (tk pos0 (TId n) :: rest)) x.
Proof. by apply res_bind, res_now. Qed.

(** [toks] are read as [e] at level [l]. *)
Definition reads (l : nat) (toks : list Token) (e : Expr) : Prop :=
  forall lst rest, stops l rest -> res (level_fn l) (st lst (toks ++ rest)) (e, st lst rest).

(** A step with the first token known. *)
Ltac rpeek := apply res_peek; rewrite st_peek.
Ltac rpos := apply res_pos.

(** A token that stops a level is none of those that continue it. *)
Ltac stop_cases H :=
  let t := fresh "t" in let E := fresh "E" in
  match type of H with (cont_level (hd_tok ?rest) < _)%nat => destruct (hd_tok rest) as [| | | | |t| | | | | | | | | | | | | | | | | | | | | | | | | | | | | | | | ] eqn:E end;
  try destruct t; cbn in H; try lia; cbn; try apply res_ret.

(** Unfolding the function that runs. *)
Ltac rdef := cbn [level_fn loop_fn]; lazymatch goal with |- res ?f ?p ?x => let g := eval red in f in change (res g p x) end.

(** A level whose first operand is all there is. *)
Lemma tail_level l lst rest (e : Expr) p : (l ∈ [1; 2; 3; 4; 5; 6; 8; 9; 10; 11; 13; 14])%nat -> stops l rest ->
  res (level_fn (S l)) p (e, st lst rest) -> res (level_fn l) p (e, st lst rest).
Proof.
  intros Hl Hs H1. unfold stops in Hs. repeat (apply elem_of_cons in Hl as [->|Hl]); try (by apply elem_of_nil in Hl); cbn in Hs;
    rdef; (eapply res_bind; [exact H1|]); unfold or_loop, and_loop, add_loop, mul_loop, app_loop; rpeek; stop_cases Hs.
Qed.

Lemma loop_stop l lst rest e : left_level l = true -> stops l rest -> res (fun rec => loop_fn l rec e) (st lst rest) (e, st lst rest).
Proof.
  intros Hl Hs. unfold stops in Hs. repeat (destruct l as [|l]; try done); cbn in Hs; cbn [loop_fn]; unfold or_loop, and_loop, add_loop, mul_loop, app_loop;
    rpeek; stop_cases Hs.
Qed.

Lemma impl_level lst toks x : impl_start toks = true -> res parse_impl (st lst toks) x -> res parse_expr (st lst toks) x.
Proof.
  intros Hi H1. unfold parse_expr. rpos. rpeek. apply res_peek_at. assert (tok_at (st lst toks) 1 = hd_tok (tail toks)) as -> by (by destruct toks as [|? [|] ]).
  destruct toks as [|[t pos] ts]; [exact H1|]. cbn [hd_tok t_tok tail]. cbn [impl_start t_tok] in Hi. destruct t; try exact H1.
  - destruct (hd_tok ts); try exact H1; done.
  - destruct k; try exact H1; done.
  - eapply res_bind; [by apply res_now|]. unfold brace_is_pattern. cbn [ps_toks st]. apply negb_true_iff in Hi. rewrite Hi. exact H1.
Qed.

Lemma reads_down_one l toks e : (l < 15)%nat -> headed pos0 (S l) toks ->
  (forall rest, not_pattern (hd_tok rest) = true -> impl_start (toks ++ rest) = true) -> reads (S l) toks e -> reads l toks e.
Proof.
  intros Hl Hh Himpl Hr lst rest Hstop.
  assert (res (level_fn (S l)) (st lst (toks ++ rest)) (e, st lst rest)) as H1 by (apply Hr; unfold stops in *; lia).
  destruct (decide (l ∈ [1; 2; 3; 4; 5; 6; 8; 9; 10; 11; 13; 14]%nat)) as [Hin|Hout]; [by apply tail_level|].
  destruct (headed_app _ _ _ rest Hh) as (t & ts & Et & Hlt & _).
  assert (l = 0 \/ l = 7 \/ l = 12)%nat as [-> |[-> | ->] ].
  { do 15 (destruct l as [|l]; [first [by left|by right; left|by right; right|exfalso; apply Hout; by repeat constructor]|]). lia. }
  - apply impl_level; [|exact H1]. apply Himpl. unfold stops in Hstop. destruct (hd_tok rest); cbn in Hstop; try done; lia.
  - cbn [level_fn] in *. unfold parse_not. rpeek. rewrite Et in *. cbn [hd_tok t_tok tk]. destruct t; try exact H1. cbn in Hlt. lia.
  - cbn [level_fn] in *. unfold parse_neg. rpeek. rewrite Et in *. cbn [hd_tok t_tok tk]. destruct t; try exact H1. cbn in Hlt. lia.
Qed.

Lemma reads_down k l toks e : (l <= k <= 15)%nat -> headed pos0 k toks ->
  (forall rest, not_pattern (hd_tok rest) = true -> impl_start (toks ++ rest) = true) -> reads k toks e -> reads l toks e.
Proof.
  intros [Hlk Hk]. induction Hlk as [|k Hlk IH]; intros Hh Hi Hr; [done|].
  apply IH; [lia|eapply headed_less; [exact Hh|lia]|done|]. by apply reads_down_one; [lia|..].
Qed.

Lemma reads_paren toks e : reads 0 toks e -> reads 15 (tk pos0 TLParen :: toks ++ [tk pos0 TRParen]) e.
Proof.
  intros Hr lst rest _. cbn [app]. rewrite <- app_assoc. rdef. rpos. rpeek. cbn [hd_tok t_tok tk]. apply res_bump.
  eapply res_bind; [eapply (res_knot _ parse_expr); [done|]; apply (Hr lst ([tk pos0 TRParen] ++ rest)); unfold stops; cbn; lia|].
  apply res_expect; [done|]. apply res_ret.
Qed.

(** An expression is read at every level. *)
Definition reads_all (e : Expr) : Prop := forall l, (l <= 15)%nat -> reads l (print_at pos0 l e) (repos pos0 e).

Lemma level_range e : (level e <= 15)%nat.
Proof. unfold level. destruct (e_kind e); try lia. destruct (op_left_range op) as (? & ? & ?). lia. Qed.

Lemma own_reads_all e : expr_ok path_char e = true -> reads (level e) (print pos0 e) (repos pos0 e) -> reads_all e.
Proof.
  intros Hok Hr.
  assert (forall l, (l <= level e)%nat -> reads l (print pos0 e) (repos pos0 e)) as Hd.
  { intros l Hl. pose proof (level_range e). destruct (decide (level e = 0%nat)) as [E|E]; [rewrite E in *; by replace l with 0%nat by lia|].
    eapply reads_down; [|apply print_headed| |exact Hr]; [lia|]. intros rest Hn. apply print_impl_start; [done|lia|done]. }
  intros l Hl. unfold print_at, wrap. destruct (level e <? l)%nat eqn:E; [|apply Hd; by apply Nat.ltb_ge in E].
  apply (reads_down 15); [lia|by apply headed_cons|done|]. apply reads_paren, Hd. lia.
Qed.

(** ** Operators that associate to the left *)

(** What the level does with an expression it goes on from. *)
Definition loops (l : nat) (e : Expr) : Prop := forall lst rest x, stops (S l) rest ->
  res (fun rec => loop_fn l rec (repos pos0 e)) (st lst rest) x -> res (level_fn l) (st lst (print_at pos0 l e ++ rest)) x.

Definition loops_all (e : Expr) : Prop := forall l, left_level l = true -> loops l e.

Lemma left_level_range l : left_level l = true -> (l < 15)%nat.
Proof. repeat (destruct l as [|l]; try done; try lia). Qed.

Lemma loops_other l e : left_level l = true -> level e <> l -> reads_all e -> loops l e.
Proof.
  intros Hl Hne Hr lst rest x Hs Hx. pose proof (left_level_range l Hl).
  assert (print_at pos0 l e = print_at pos0 (S l) e) as ->.
  { unfold print_at, wrap. destruct (Nat.ltb_spec (level e) l), (Nat.ltb_spec (level e) (S l)); try done; lia. }
  pose proof (Hr (S l) ltac:(lia) lst rest Hs) as H1. repeat (destruct l as [|l]; try done); rdef; by eapply res_bind; [exact H1|exact Hx].
Qed.

Lemma loops_own e : left_level (level e) = true -> loops (level e) e -> reads (level e) (print pos0 e) (repos pos0 e).
Proof.
  intros Hl He lst rest Hs. specialize (He lst rest (repos pos0 e, st lst rest)). unfold print_at, wrap in He. rewrite Nat.ltb_irrefl in He.
  apply He; [unfold stops in *; lia|]. by apply loop_stop.
Qed.

Definition readable (e : Expr) : Prop := expr_ok path_char e = true -> reads_all e /\ loops_all e.

Lemma own_readable e : expr_ok path_char e = true -> left_level (level e) = false -> reads (level e) (print pos0 e) (repos pos0 e) -> reads_all e /\ loops_all e.
Proof.
  intros Hok Hl Hr. pose proof (own_reads_all e Hok Hr) as Ha. split; [done|]. intros l Hll. apply loops_other; [done| |done]. intros E. congruence.
Qed.

Lemma loop_readable e : expr_ok path_char e = true -> left_level (level e) = true -> loops (level e) e -> reads_all e /\ loops_all e.
Proof.
  intros Hok Hl He. pose proof (own_reads_all e Hok (loops_own e Hl He)) as Ha. split; [done|]. intros l Hll.
  destruct (decide (level e = l)) as [<-|Hne]; [done|]. by apply loops_other.
Qed.

(** ** Operators *)

Lemma op_stops op rest : cont_level (hd_tok (tk pos0 (op_tok op) :: rest)) = op_level op.
Proof. by destruct op. Qed.

Lemma left_op op l r pos : op_assoc op = LeftA -> loops (op_level op) l -> reads_all r -> loops (op_level op) (mkExpr (EBinOp op l r) pos).
Proof.
  intros Ha Hl Hr lst rest x Hs Hx. unfold print_at, wrap. rewrite Nat.ltb_irrefl. cbn [print print_kind]. rewrite <- app_assoc. unfold op_left. rewrite Ha.
  apply Hl; [unfold stops; cbn [app]; rewrite op_stops; lia|]. cbn [app].
  pose proof (Hr (op_right op) ltac:(destruct (op_left_range op) as (? & ? & ?); lia) lst rest) as H1. unfold op_right in H1. rewrite Ha in H1. specialize (H1 Hs).
  unfold print_at in H1. unfold op_right. rewrite Ha. destruct op; try done; cbn [loop_fn op_level]; unfold or_loop, and_loop, add_loop, mul_loop; rpeek; cbn [hd_tok tk t_tok op_tok mul_op add_op];
    rpos; apply res_bump; (eapply res_bind; [exact H1|]); (by eapply res_knot; [|exact Hx]).
Qed.

Lemma right_op op l r pos : op_assoc op = RightA -> reads_all l -> reads_all r ->
  reads (op_level op) (print pos0 (mkExpr (EBinOp op l r) pos)) (repos pos0 (mkExpr (EBinOp op l r) pos)).
Proof.
  intros Ha Hl Hr lst rest Hs. cbn [print print_kind]. rewrite <- app_assoc. cbn [app]. destruct (op_left_range op) as (HL & HR & HK).
  pose proof (Hl (op_left op) ltac:(lia) lst (tk pos0 (op_tok op) :: wrap pos0 (op_right op) r (print pos0 r) ++ rest)) as H1.
  pose proof (Hr (op_right op) ltac:(lia) lst rest) as H2. unfold op_left, op_right, stops in *. rewrite Ha, op_stops in *. specialize (H1 ltac:(lia)). specialize (H2 Hs).
  destruct op; try done; rdef; (eapply res_bind; [exact H1|]); rpeek; cbn [hd_tok tk t_tok op_tok]; rpos; apply res_bump.
  - eapply res_bind; [by eapply (res_knot _ parse_concat); [|exact H2]|]. apply res_ret.
  - eapply res_bind; [by eapply (res_knot _ parse_update); [|exact H2]|]. apply res_ret.
  - eapply res_bind; [by eapply (res_knot _ parse_impl); [|exact H2]|]. apply res_ret.
Qed.

Lemma non_op op l r pos : op_assoc op = NonA -> reads_all l -> reads_all r ->
  reads (op_level op) (print pos0 (mkExpr (EBinOp op l r) pos)) (repos pos0 (mkExpr (EBinOp op l r) pos)).
Proof.
  intros Ha Hl Hr lst rest Hs. cbn [print print_kind]. rewrite <- app_assoc. cbn [app]. destruct (op_left_range op) as (HL & HR & HK).
  pose proof (Hl (op_left op) ltac:(lia) lst (tk pos0 (op_tok op) :: wrap pos0 (op_right op) r (print pos0 r) ++ rest)) as H1.
  pose proof (Hr (op_right op) ltac:(lia) lst rest) as H2. unfold op_left, op_right, stops in *. rewrite Ha, op_stops in *. specialize (H1 ltac:(lia)). specialize (H2 ltac:(lia)).
  destruct op; try done; rdef; (eapply res_bind; [exact H1|]); rpeek; cbn [hd_tok tk t_tok op_tok rel_op eq_op]; rpos; apply res_bump;
    (eapply res_bind; [exact H2|]); cbn in Hs; rpeek; stop_cases Hs.
Qed.

Lemma binop_readable op l r pos : readable l -> readable r -> readable (mkExpr (EBinOp op l r) pos).
Proof.
  intros Hl Hr Hok. pose proof Hok as Hok'. cbn [expr_ok kind_ok] in Hok'. apply andb_true_iff in Hok' as [Hlo Hro]. destruct (Hl Hlo) as [Hl1 Hl2], (Hr Hro) as [Hr1 _].
  destruct (op_assoc op) eqn:Ha.
  - apply loop_readable; [done|by destruct op|]. apply left_op; [done| |done]. apply Hl2. by destruct op.
  - apply own_readable; [done|by destruct op|by apply right_op].
  - apply own_readable; [done|by destruct op|by apply non_op].
Qed.

Lemma neg_readable e pos : readable e -> readable (mkExpr (ENeg e) pos).
Proof.
  intros He Hok. destruct (He Hok) as [He1 _]. apply own_readable; [done|done|]. intros lst rest Hs. rdef. rpeek. cbn [hd_tok t_tok tk print print_kind app]. rpos.
  apply res_bump. eapply res_bind; [by eapply (res_knot _ parse_neg); [|apply (He1 12%nat ltac:(lia) lst rest Hs)]|]. apply res_ret.
Qed.

Lemma not_readable e pos : readable e -> readable (mkExpr (ENot e) pos).
Proof.
  intros He Hok. destruct (He Hok) as [He1 _]. apply own_readable; [done|done|]. intros lst rest Hs. rdef. rpeek. cbn [hd_tok t_tok tk print print_kind app]. rpos.
  apply res_bump. eapply res_bind; [by eapply (res_knot _ parse_not); [|apply (He1 7%nat ltac:(lia) lst rest Hs)]|]. apply res_ret.
Qed.

Lemma apply_readable f arg pos : readable f -> readable arg -> readable (mkExpr (EApply f arg) pos).
Proof.
  intros Hf Ha Hok. pose proof Hok as Hok'. cbn [expr_ok kind_ok] in Hok'. apply andb_true_iff in Hok' as [Hfo Hao]. destruct (Hf Hfo) as [_ Hf2], (Ha Hao) as [Ha1 _].
  apply loop_readable; [done|done|]. intros lst rest x Hs Hx. unfold print_at, wrap. rewrite Nat.ltb_irrefl. cbn [print print_kind]. rewrite <- app_assoc.
  destruct (headed_app _ _ _ rest (print_at_headed pos0 14 arg ltac:(lia))) as (t & ts & E & _ & Hsel). specialize (Hsel ltac:(lia)). unfold print_at in E.
  apply (Hf2 13%nat eq_refl); [rewrite E; unfold stops; cbn; by destruct t; try destruct k; cbn; try lia|].
  cbn [loop_fn]. unfold app_loop. rpeek. pose proof (Ha1 14%nat ltac:(lia) lst rest Hs) as H1. unfold print_at in H1. rewrite E in *. cbn [hd_tok t_tok tk]. rewrite Hsel.
  rpos. eapply res_bind; [exact H1|]. by eapply res_knot; [|exact Hx].
Qed.

(** ** Strings and names *)

Lemma res_sub_parse e lst toks : reads_all e -> res (fun rec => sub_parse rec (print pos0 e)) (st lst toks) (repos pos0 e, st lst toks).
Proof.
  intros He. assert (res (fun rec => e ← pr_expr rec; _ ← expect_end; mret e) (st (last (print pos0 e)) (print pos0 e)) (repos pos0 e, st (last (print pos0 e)) [])) as [N HN].
  { eapply res_bind; [eapply (res_knot _ parse_expr); [done|]; pose proof (He 0%nat ltac:(lia) (last (print pos0 e)) [] ltac:(unfold stops; cbn; lia)) as H1; rewrite app_nil_r in H1; exact H1|].
    eapply res_bind; [by apply res_now|]. apply res_ret. }
  exists N. intros n Hn. unfold sub_parse. specialize (HN n Hn). unfold st in *. cbn [ps_file ps_base_dir]. by rewrite HN.
Qed.

Lemma res_str_parts parts lst toks : Forall (part_all readable) parts -> forallb (spart_ok path_char) parts = true ->
  res (fun rec => str_parts rec (print_part pos0 <$> parts)) (st lst toks) (repos_part pos0 <$> parts, st lst toks).
Proof.
  induction 1 as [|x parts Hx Hparts IH]; cbn [forallb]; [intros _; apply res_ret|]. rewrite andb_true_iff. intros [Hxo Hpo]. specialize (IH Hpo).
  rewrite !fmap_cons. destruct x as [t|e]; cbn [print_part str_parts repos_part].
  - eapply res_bind; [exact IH|]. apply res_ret.
  - destruct (Hx Hxo) as [He _]. eapply res_bind; [by apply res_sub_parse|]. eapply res_bind; [exact IH|]. apply res_ret.
Qed.

Lemma res_attr a lst rest : name_all readable a -> name_ok path_char a = true ->
  res (fun rec => parse_attr rec) (st lst (print_name pos0 a ++ rest)) (repos_name pos0 a, st lst rest).
Proof.
  intros Ha Hok. unfold parse_attr. rpos. rpeek. destruct a as [n|e]; cbn [print_name app hd_tok repos_name].
  - unfold static_name. destruct (ident_ok n); cbn [t_tok tk]; [apply res_id, res_ret|]. apply res_bump. case_bool_decide as E; [subst n; apply res_ret|].
    cbn. rewrite app_nil_r. apply res_ret.
  - cbn [t_tok tk]. destruct (Ha Hok) as [He _]. apply res_bump. rewrite <- app_assoc. destruct (print_neat pos0 e Hok) as [_ [Hc _] ].
    eapply res_bind; [apply res_now; unfold collect_brace_tokens; cbn [ps_toks st]; rewrite Hc; reflexivity|].
    eapply res_bind; [by apply (res_sub_parse e lst rest)|]. apply res_ret.
Qed.

Lemma res_attrpath_loop path lst rest : hd_tok rest <> TDot -> Forall (name_all readable) path -> forallb (name_ok path_char) path = true ->
  forall acc, res (fun rec => attrpath_loop rec acc) (st lst (concat ((fun y => tk pos0 TDot :: y) <$> (print_name pos0 <$> path)) ++ rest)) (acc ++ (repos_name pos0 <$> path), st lst rest).
Proof.
  intros Hrest. induction 1 as [|a path Ha Hpath IH]; intros Hok acc; cbn [fmap list_fmap concat].
  - rewrite app_nil_r. unfold attrpath_loop. rpeek. cbn [app]. destruct (hd_tok rest); try apply res_ret. done.
  - cbn [forallb] in Hok. apply andb_true_iff in Hok as [Ho Hok]. unfold attrpath_loop. rpeek. cbn [app hd_tok t_tok tk]. apply res_bump. rewrite <- app_assoc.
    eapply res_bind; [by apply res_attr|]. specialize (IH Hok (acc ++ [repos_name pos0 a])). rewrite <- app_assoc in IH. cbn [app] in IH.
    by eapply res_knot; [|exact IH].
Qed.

Lemma res_attrpath path lst rest : path <> [] -> hd_tok rest <> TDot -> Forall (name_all readable) path -> forallb (name_ok path_char) path = true ->
  res (fun rec => parse_attrpath rec) (st lst (dotted pos0 (print_name pos0 <$> path) ++ rest)) (repos_name pos0 <$> path, st lst rest).
Proof.
  intros Hne Hrest Hp Hok. destruct path as [|a path]; [done|]. apply Forall_cons in Hp as [Ha Hp]. cbn [forallb] in Hok. apply andb_true_iff in Hok as [Ho Hok].
  rewrite fmap_cons. cbn [dotted]. rewrite <- app_assoc. unfold parse_attrpath. eapply res_bind; [by apply res_attr|].
  exact (res_attrpath_loop path lst rest Hrest Hp Hok [repos_name pos0 a]).
Qed.

(** ** Operands *)

(** What is read by [parse_simple]. *)
Lemma simple_readable k pos : level (mkExpr k pos) = 15%nat ->
  (expr_ok path_char (mkExpr k pos) = true -> forall lst rest, res parse_simple (st lst (print pos0 (mkExpr k pos) ++ rest)) (repos pos0 (mkExpr k pos), st lst rest)) ->
  readable (mkExpr k pos).
Proof. intros Hl Hr Hok. apply own_readable; [done|by rewrite Hl|]. rewrite Hl. intros lst rest _. by apply Hr. Qed.

Lemma path_resolved p pos lst toks : path_ok pos p = true -> resolve_path p (st lst toks) = Ok (p, st lst toks).
Proof.
  unfold path_ok. rewrite andb_true_iff, bool_decide_eq_true. intros [Hn _]. unfold resolve_path.
  assert (starts_with_slash p = true) as -> by (rewrite <- Hn; done). by rewrite Hn.
Qed.

Lemma atom_readable k pos : match k with EVar _ | EInt _ | EPath _ => True | _ => False end -> readable (mkExpr k pos).
Proof.
  intros Hk. apply simple_readable; [by destruct k|]. intros Hok lst rest. rdef. rpos. rpeek. destruct k; try done; cbn [print print_kind app hd_tok t_tok tk repos repos_kind].
  - apply res_id, res_ret.
  - apply res_bump, res_ret.
  - apply res_bump. eapply res_bind; [by apply res_now; exact (path_resolved p path_char lst rest Hok)|]. apply res_ret.
Qed.

Lemma str_readable parts pos : Forall (part_all readable) parts -> readable (mkExpr (EStr parts) pos).
Proof.
  intros Hp. apply simple_readable; [done|]. intros Hok lst rest. cbn [expr_ok kind_ok] in Hok. apply andb_true_iff in Hok as [Hok _]. rdef. rpos. rpeek.
  cbn [print print_kind app hd_tok t_tok tk]. apply res_bump. unfold str_expr. eapply res_bind; [by apply res_str_parts|]. apply res_ret.
Qed.

Lemma headed_stops toks rest : headed pos0 14 toks -> stops 14 (toks ++ rest).
Proof.
  intros (t & ts & -> & _ & Hs). specialize (Hs ltac:(lia)). unfold stops. cbn. destruct t; try done; try (cbn; lia). destruct k; try done; cbn; lia.
Qed.

Lemma res_list_loop xs lst rest : Forall readable xs -> forallb (expr_ok path_char) xs = true ->
  forall acc, res (fun rec => list_loop rec acc) (st lst (concat ((fun x => wrap pos0 14 x (print pos0 x)) <$> xs) ++ tk pos0 TRBracket :: rest)) (acc ++ (repos pos0 <$> xs), st lst rest).
Proof.
  induction 1 as [|x xs Hx Hxs IH]; intros Hok acc; cbn [fmap list_fmap concat].
  - rewrite app_nil_r. unfold list_loop. rpeek. cbn [app hd_tok t_tok tk]. apply res_bump, res_ret.
  - cbn [forallb] in Hok. apply andb_true_iff in Hok as [Ho Hok]. rewrite <- app_assoc. unfold list_loop. rpeek.
    set (rest' := concat _ ++ _). assert (stops 14 rest') as Hs.
    { subst rest'. destruct xs as [|y xs]; [unfold stops; cbn; lia|]. rewrite fmap_cons. cbn [concat]. rewrite <- app_assoc. apply headed_stops, (print_at_headed pos0 14 y). lia. }
    destruct (Hx Ho) as [Hx1 _]. specialize (Hx1 14%nat ltac:(lia) lst rest' Hs). unfold print_at in Hx1.
    destruct (headed_app _ _ _ rest' (print_at_headed pos0 14 x ltac:(lia))) as (t & ts & E & _ & Hsel). specialize (Hsel ltac:(lia)). unfold print_at in E. rewrite E in *.
    cbn [hd_tok t_tok tk]. assert (res (fun rec => x0 ← pr_select rec; pr_list rec (acc ++ [x0])) (st lst (tk pos0 t :: ts)) (acc ++ (repos pos0 <$> x :: xs), st lst rest)) as Hgo.
    { eapply res_bind; [by eapply (res_knot _ parse_select); [|exact Hx1]|]. specialize (IH Hok (acc ++ [repos pos0 x])). rewrite <- app_assoc in IH. by eapply res_knot; [|exact IH]. }
    destruct t; try done.
Qed.

Lemma list_readable xs pos : Forall readable xs -> readable (mkExpr (EList xs) pos).
Proof.
  intros Hx. apply simple_readable; [done|]. intros Hok lst rest. rdef. rpos. rpeek. cbn [print print_kind app hd_tok t_tok tk]. apply res_bump. rewrite <- app_assoc.
  eapply res_bind; [by apply (res_list_loop xs lst rest Hx Hok [])|]. apply res_ret.
Qed.

Lemma path_nonempty {A} (path : list A) : negb (bool_decide (length path = 0%nat)) = true -> path <> [].
Proof. rewrite negb_true_iff, bool_decide_eq_false, length_zero_iff_nil. done. Qed.

Lemma select_readable base path default pos : readable base -> Forall (name_all readable) path -> opt_all readable default ->
  readable (mkExpr (ESelect base path default) pos).
Proof.
  intros Hb Hp Hd Hok. pose proof Hok as Hok'. cbn [expr_ok kind_ok] in Hok'. rewrite !andb_true_iff in Hok'. destruct Hok' as [ [ [Hbo Hne] Hpo] Hdo].
  destruct (Hb Hbo) as [Hb1 _]. apply own_readable; [done|done|]. intros lst rest Hs. unfold stops in Hs. cbn in Hs. cbn [print print_kind]. rewrite <- app_assoc. cbn [app]. rewrite <- app_assoc.
  rdef. eapply res_bind; [apply (Hb1 15%nat ltac:(lia)); unfold stops; cbn; lia|]. rpeek. cbn [hd_tok t_tok tk]. rpos. apply res_bump.
  eapply res_bind; [apply res_attrpath; [by apply path_nonempty| |done|done]|].
  { destruct default as [d|]; [done|]. cbn [app]. intros E. rewrite E in Hs. cbn in Hs. lia. }
  rpeek. destruct default as [d|]; cbn [app hd_tok t_tok tk].
  - destruct (Hd Hdo) as [Hd1 _]. eapply res_bind; [apply res_bump; eapply res_bind; [by eapply (res_knot _ parse_select); [|apply (Hd1 14%nat ltac:(lia) lst rest); unfold stops; cbn; lia]|apply res_ret]|].
    apply res_ret.
  - eapply (res_bind _ _ _ None (st lst rest)); [stop_cases Hs|apply res_ret].
Qed.

Lemma hasattr_readable base path pos : readable base -> Forall (name_all readable) path -> readable (mkExpr (EHasAttr base path) pos).
Proof.
  intros Hb Hp Hok. pose proof Hok as Hok'. cbn [expr_ok kind_ok] in Hok'. rewrite !andb_true_iff in Hok'. destruct Hok' as [ [Hbo Hne] Hpo].
  destruct (Hb Hbo) as [Hb1 _]. apply own_readable; [done|done|]. intros lst rest Hs. unfold stops in Hs. cbn in Hs. cbn [print print_kind]. rewrite <- app_assoc. cbn [app].
  rdef. eapply res_bind; [apply (Hb1 12%nat ltac:(lia)); unfold stops; cbn; lia|]. rpeek. cbn [hd_tok t_tok tk]. rpos. apply res_bump.
  eapply res_bind; [apply res_attrpath; [by apply path_nonempty| |done|done]|]; [intros E; rewrite E in Hs; cbn in Hs; lia|].
  rpeek. stop_cases Hs.
Qed.

(** ** Attribute sets *)

(** The builder after the entries [es]. *)
Definition built_entry (e : AttrEntry) : str * SrcPos * BNode := (en_name e, pos0, BLeaf (repos_bind pos0 (en_val e))).

Lemma fresh_position (name : str) (es : list (str * SrcPos * BNode)) : name ∉ b_names es -> b_position name es = None.
Proof.
  intros Hn. apply position_None, Forall_forall. intros e He. rewrite bool_decide_eq_false. intros E. apply Hn. rewrite <- E. by apply (list_elem_of_fmap_2 (fun e => e.1.1)).
Qed.

Lemma res_entry e r d es ds lst rest : entry_all readable e -> entry_ok path_char e = true -> en_name e ∉ b_names es ->
  res (fun rec => parse_bind rec (mkBuilder r d es ds)) (st lst (print_entry pos0 e ++ rest)) (mkBuilder r d (es ++ [built_entry e]) ds, st lst rest).
Proof.
  destruct e as [n q v]. unfold built_entry. cbn [en_name en_val print_entry entry_ok entry_all]. rewrite andb_true_iff. intros Ha [Hn Hv] Hfresh. apply fresh_position in Hfresh.
  unfold parse_bind. rpeek. destruct v as [e| |e]; cbn [print_bind app hd_tok repos_bind bind_ok] in *.
  - destruct (Ha Hv) as [He _].
    assert (res (fun rec => pos ← cur_pos; path ← parse_attrpath rec; _ ← expect TAssign; val ← pr_expr rec; _ ← expect TSemi; lift_parse (insert_path path pos val (mkBuilder r d es ds)))
      (st lst (static_name pos0 n :: tk pos0 TAssign :: (print pos0 e ++ [tk pos0 TSemi]) ++ rest)) (mkBuilder r d (es ++ [(n, pos0, BLeaf (BExpr (repos pos0 e)))]) ds, st lst rest)) as Hgo.
    { rpos. assert (ps_pos (st lst (static_name pos0 n :: tk pos0 TAssign :: (print pos0 e ++ [tk pos0 TSemi]) ++ rest)) = pos0) as -> by (cbn; unfold static_name; by destruct (ident_ok n)).
      eapply res_bind; [apply (res_attrpath [AStatic n] lst (tk pos0 TAssign :: (print pos0 e ++ [tk pos0 TSemi]) ++ rest)); try done; [by apply Forall_singleton|cbn; by rewrite Hn]|].
      apply res_expect; [done|]. rewrite <- app_assoc. eapply res_bind; [eapply (res_knot _ parse_expr); [done|]; apply (He 0%nat ltac:(lia) lst ([tk pos0 TSemi] ++ rest)); unfold stops; cbn; lia|].
      apply res_expect; [done|]. apply res_now. cbn. unfold lift_parse. by rewrite Hfresh. }
    unfold static_name in *. destruct (ident_ok n); exact Hgo.
  - cbn [t_tok tk]. apply res_bump. rpeek. cbn [hd_tok t_tok tk]. eapply res_bind; [apply res_ret|]. unfold inherit_loop at 1. rpeek. cbn [hd_tok t_tok tk]. rpos. apply res_id.
    eapply res_bind; [apply res_now; unfold lift_parse, insert_leaf; rewrite Hfresh; reflexivity|].
    eapply (res_knot _ (fun rec => inherit_loop rec None _)); [done|]. unfold inherit_loop. rpeek. cbn [hd_tok t_tok tk]. apply res_bump, res_ret.
  - apply andb_true_iff in Hv as [Hi Hv]. destruct (Ha Hv) as [He _]. cbn [t_tok tk]. apply res_bump. rpeek. cbn [hd_tok t_tok tk]. rewrite <- app_assoc.
    eapply res_bind; [apply res_bump; eapply res_bind; [eapply (res_knot _ parse_expr); [done|]; apply (He 0%nat ltac:(lia) lst ([tk pos0 TRParen; tk pos0 (TId n); tk pos0 TSemi] ++ rest)); unfold stops; cbn; lia|]; apply res_expect; [done|]; apply res_ret|].
    unfold inherit_loop at 1. rpeek. cbn [app hd_tok t_tok tk]. rpos. apply res_id.
    eapply res_bind; [apply res_now; unfold lift_parse, insert_leaf; rewrite Hfresh; reflexivity|].
    eapply (res_knot _ (fun rec => inherit_loop rec (Some (repos pos0 e)) _)); [done|]. unfold inherit_loop. rpeek. cbn [hd_tok t_tok tk]. apply res_bump, res_ret.
Qed.

Definition print_dyn (d : Expr * Expr) : list Token :=
  tk pos0 TDollarBrace :: print pos0 d.1 ++ tk pos0 TRBrace :: tk pos0 TAssign :: print pos0 d.2 ++ [tk pos0 TSemi].
Definition repos_dyn (d : Expr * Expr) : Expr * Expr := (repos pos0 d.1, repos pos0 d.2).

Lemma res_dyn x r es ds lst rest : dyn_all readable x -> dyn_ok path_char x = true ->
  res (fun rec => parse_bind rec (mkBuilder r true es ds)) (st lst (print_dyn x ++ rest)) (mkBuilder r true es (ds ++ [repos_dyn x]), st lst rest).
Proof.
  destruct x as [e v]. unfold dyn_ok, print_dyn, repos_dyn. intros [He Hv]. cbn [fst snd] in *. rewrite andb_true_iff. intros [Heo Hvo]. destruct (Hv Hvo) as [Hv1 _].
  unfold parse_bind. rpeek. cbn [app hd_tok t_tok tk]. rpos. rewrite <- !app_assoc. cbn [app]. rewrite <- app_assoc.
  pose proof (res_attrpath [ADynamic e] lst (tk pos0 TAssign :: print pos0 v ++ [tk pos0 TSemi] ++ rest) ltac:(done) ltac:(done)
    ltac:(by apply Forall_singleton) ltac:(cbn; by rewrite Heo)) as H1.
  cbn [fmap list_fmap print_name dotted concat] in H1. rewrite app_nil_r in H1. cbn [app] in H1. rewrite <- app_assoc in H1. cbn [app] in H1.
  eapply res_bind; [exact H1|]. apply res_expect; [done|].
  eapply res_bind; [eapply (res_knot _ parse_expr); [done|]; apply (Hv1 0%nat ltac:(lia) lst ([tk pos0 TSemi] ++ rest)); unfold stops; cbn; lia|].
  apply res_expect; [done|]. by apply res_now.
Qed.

(** A binding does not start with a token that ends the bindings. *)
Definition bind_tok (t : Tok) : bool :=
  match t with TId _ | TStr _ | TDollarBrace | TKw KwInherit => true | _ => false end.

Lemma entry_hd e rest : bind_tok (hd_tok (print_entry pos0 e ++ rest)) = true.
Proof. destruct e as [n q [e| |e] ]; cbn; [|done|done]. unfold static_name. by destruct (ident_ok n). Qed.

Lemma attrset_step (b b' : AttrsBuilder) lst toks rest x : bind_tok (hd_tok toks) = true ->
  res (fun rec => parse_bind rec b) (st lst toks) (b', st lst rest) -> res (fun rec => attrset_loop rec b') (st lst rest) x ->
  res (fun rec => attrset_loop rec b) (st lst toks) x.
Proof.
  intros Hh Hb Hx. assert (res (fun rec => b' ← parse_bind rec b; pr_attrset rec b') (st lst toks) x) as Hgo.
  { eapply res_bind; [exact Hb|]. by eapply res_knot; [|exact Hx]. }
  unfold attrset_loop. rpeek. destruct (hd_tok toks); try done. 
Qed.

Lemma let_step (b b' : AttrsBuilder) c lst toks rest x : bind_tok (hd_tok toks) = true ->
  res (fun rec => parse_bind rec b) (st lst toks) (b', st lst rest) -> res (fun rec => let_loop rec b' (S c)) (st lst rest) x ->
  res (fun rec => let_loop rec b c) (st lst toks) x.
Proof.
  intros Hh Hb Hx. assert (res (fun rec => b' ← parse_bind rec b; pr_let rec b' (S c)) (st lst toks) x) as Hgo.
  { eapply res_bind; [exact Hb|]. by eapply res_knot; [|exact Hx]. }
  unfold let_loop. rpeek. destruct (hd_tok toks); try done. by destruct k.
Qed.

Lemma res_attrset_dyns r d es lst rest ds : d = true \/ ds = [] -> Forall (dyn_all readable) ds -> Forall (fun x => dyn_ok path_char x = true) ds ->
  forall acc, res (fun rec => attrset_loop rec (mkBuilder r d es acc)) (st lst (concat (print_dyn <$> ds) ++ tk pos0 TRBrace :: rest))
    (mkBuilder r d es (acc ++ (repos_dyn <$> ds)), st lst rest).
Proof.
  intros Hd Ha Hok. induction Ha as [|x ds Hx Ha IH]; intros acc; cbn [fmap list_fmap concat].
  - rewrite app_nil_r. unfold attrset_loop. rpeek. cbn [app hd_tok t_tok tk]. apply res_bump, res_ret.
  - destruct Hd as [->|Hd]; [|done]. apply Forall_cons in Hok as [Hxo Hok]. rewrite <- app_assoc. eapply attrset_step; [done|by apply res_dyn|].
    specialize (IH ltac:(by left) Hok (acc ++ [repos_dyn x])). by rewrite <- app_assoc in IH.
Qed.

Lemma fresh_snoc e es (acc : list (str * SrcPos * BNode)) : NoDup (b_names acc ++ en_name e :: es) ->
  (en_name e ∉ b_names acc) /\ NoDup (b_names (acc ++ [built_entry e]) ++ es).
Proof.
  intros Hnd. split.
  - apply NoDup_app in Hnd as (_ & Hd & _). intros Hin. by apply (Hd _ Hin), list_elem_of_here.
  - unfold b_names in *. rewrite fmap_app. cbn. by rewrite <- app_assoc.
Qed.

Lemma res_attrset_entries r d ds lst rest es : d = true \/ ds = [] -> Forall (dyn_all readable) ds -> Forall (fun x => dyn_ok path_char x = true) ds ->
  Forall (entry_all readable) es -> Forall (fun e => entry_ok path_char e = true) es ->
  forall acc, NoDup (b_names acc ++ (en_name <$> es)) ->
  res (fun rec => attrset_loop rec (mkBuilder r d acc [])) (st lst (concat (print_entry pos0 <$> es) ++ concat (print_dyn <$> ds) ++ tk pos0 TRBrace :: rest))
    (mkBuilder r d (acc ++ (built_entry <$> es)) (repos_dyn <$> ds), st lst rest).
Proof.
  intros Hd Hda Hdo Ha Hok. induction Ha as [|e es He Ha IH]; intros acc Hnd; cbn [fmap list_fmap concat].
  - rewrite app_nil_r. cbn [app]. exact (res_attrset_dyns r d acc lst rest ds Hd Hda Hdo []).
  - apply Forall_cons in Hok as [Heo Hok]. rewrite <- app_assoc. destruct (fresh_snoc e _ acc Hnd) as [Hf Hnd']. eapply attrset_step; [apply entry_hd|by apply res_entry|].
    specialize (IH Hok _ Hnd'). by rewrite <- app_assoc in IH.
Qed.

Lemma res_let_entries lst rest es : Forall (entry_all readable) es -> Forall (fun e => entry_ok path_char e = true) es ->
  forall acc c, NoDup (b_names acc ++ (en_name <$> es)) ->
  res (fun rec => let_loop rec (mkBuilder true false acc []) c) (st lst (concat (print_entry pos0 <$> es) ++ tk pos0 (TKw KwIn) :: rest))
    ((mkBuilder true false (acc ++ (built_entry <$> es)) [], (c + length es)%nat), st lst rest).
Proof.
  intros Ha Hok. induction Ha as [|e es He Ha IH]; intros acc c Hnd; cbn [fmap list_fmap concat length].
  - rewrite app_nil_r, Nat.add_0_r. unfold let_loop. rpeek. cbn [app hd_tok t_tok tk]. apply res_bump, res_ret.
  - apply Forall_cons in Hok as [Heo Hok]. rewrite <- app_assoc. destruct (fresh_snoc e _ acc Hnd) as [Hf Hnd']. eapply let_step; [apply entry_hd|by apply res_entry|].
    specialize (IH Hok _ (S c) Hnd'). rewrite <- app_assoc in IH. by rewrite Nat.add_succ_r.
Qed.

Lemma finish_built r d es ds : finish (mkBuilder r d (built_entry <$> es) (repos_dyn <$> ds)) = repos_attrs pos0 (mkAttrs r es ds).
Proof.
  cbn [finish repos_attrs]. f_equal; [|apply list_fmap_ext; by intros ? [n v] ]. rewrite <- list_fmap_compose. apply list_fmap_ext. by intros ? [n q v].
Qed.

Lemma print_attrs_eq r es ds : print_attrs pos0 (mkAttrs r es ds) = concat (print_entry pos0 <$> es) ++ concat (print_dyn <$> ds).
Proof. cbn [print_attrs]. do 2 f_equal. apply list_fmap_ext. by intros ? [n v]. Qed.

Lemma res_attrset_body a lst rest : attrs_all readable a -> attrs_ok path_char a = true ->
  res (fun rec => parse_attrset_body rec (a_rec a)) (st lst (print_attrs pos0 a ++ tk pos0 TRBrace :: rest)) (repos_attrs pos0 a, st lst rest).
Proof.
  destruct a as [r es ds]. intros [He Hd] (Hnd & Hes & Hr & Hds)%attrs_ok_spec. cbn [a_rec a_entries a_dynamics] in *. rewrite print_attrs_eq, <- app_assoc.
  unfold parse_attrset_body. eapply res_bind; [apply (res_attrset_entries r (negb r) ds lst rest es); try done; destruct r; [right; by apply Hr|by left]|].
  cbn [app]. rewrite <- (finish_built r (negb r)). apply res_ret.
Qed.

Lemma attrs_readable a pos : attrs_all readable a -> readable (mkExpr (EAttrs a) pos).
Proof.
  intros Ha. apply simple_readable; [done|]. intros Hok lst rest. cbn [expr_ok kind_ok] in Hok. rdef. rpos. rpeek.
  pose proof (res_attrset_body a lst rest Ha Hok) as H1. cbn [print print_kind].
  destruct (a_rec a); cbn [app hd_tok t_tok tk]; apply res_bump; rewrite <- app_assoc.
  - apply res_expect; [done|]. eapply res_bind; [exact H1|]. apply res_ret.
  - eapply res_bind; [exact H1|]. apply res_ret.
Qed.

Lemma res_binds_in a lst rest : attrs_all readable a -> attrs_ok path_char a = true -> a_rec a = true ->
  res (fun rec => parse_binds_until_in rec) (st lst (((match a_entries a with [] => [tk pos0 (TKw KwInherit); tk pos0 TSemi] | _ => [] end) ++ print_attrs pos0 a) ++ tk pos0 (TKw KwIn) :: rest))
    (repos_attrs pos0 a, st lst rest).
Proof.
  destruct a as [r es ds]. intros [He Hd] (Hnd & Hes & Hr & Hds)%attrs_ok_spec Hrec. cbn [a_rec a_entries a_dynamics] in *. subst r. specialize (Hr eq_refl) as ->.
  rewrite print_attrs_eq. cbn [fmap list_fmap concat]. rewrite app_nil_r. unfold parse_binds_until_in.
  assert (exists c, res (fun rec => let_loop rec (builder_new true false) 0) (st lst (((match es with [] => [tk pos0 (TKw KwInherit); tk pos0 TSemi] | _ => [] end) ++ concat (print_entry pos0 <$> es)) ++ tk pos0 (TKw KwIn) :: rest))
    ((mkBuilder true false (built_entry <$> es) [], S c), st lst rest)) as [c Hc].
  { destruct es as [|e es].
    - exists 0%nat. cbn [app fmap list_fmap concat]. eapply let_step; [done| |by apply (res_let_entries lst rest [] He Hes [] 1%nat)].
      unfold parse_bind. rpeek. cbn [hd_tok t_tok tk]. apply res_bump. rpeek. cbn [hd_tok t_tok tk]. eapply res_bind; [apply res_ret|].
      unfold inherit_loop. rpeek. cbn [hd_tok t_tok tk]. apply res_bump, res_ret.
    - exists (length es). cbn [app]. by apply (res_let_entries lst rest (e :: es) He Hes [] 0%nat). }
  eapply res_bind; [exact Hc|]. cbn beta iota. rewrite <- (finish_built true false es []). apply res_ret.
Qed.

(** ** Functions and statements *)

Lemma res_expr e lst t rest : reads_all e -> cont_level (t_tok t) = 0%nat ->
  res (fun rec => pr_expr rec) (st lst (print pos0 e ++ t :: rest)) (repos pos0 e, st lst (t :: rest)).
Proof.
  intros He Ht. eapply (res_knot _ parse_expr); [done|]. apply (He 0%nat ltac:(lia)). unfold stops. cbn [hd_tok]. rewrite Ht. lia.
Qed.

Lemma res_formals at_outer (ell : bool) lst rest fs : Forall (formal_all readable) fs -> forallb (formal_ok path_char) fs = true ->
  (forall n, at_outer = Some n -> n ∉ f_name <$> fs) -> forall acc, NoDup ((f_name <$> acc) ++ (f_name <$> fs)) ->
  res (fun rec => formals_loop rec at_outer acc) (st lst (concat (print_formal pos0 <$> fs) ++ (if ell then [tk pos0 TEllipsis] else []) ++ tk pos0 TRBrace :: rest))
    ((acc ++ (repos_formal pos0 <$> fs), ell), st lst rest).
Proof.
  induction 1 as [|[n d] fs Hf Hfs IH]; intros Hok Hat acc Hnd; cbn [fmap list_fmap concat].
  - rewrite app_nil_r. cbn [app]. unfold formals_loop. rpeek. destruct ell; cbn [app hd_tok t_tok tk]; [|apply res_bump, res_ret].
    apply res_bump, res_expect; [done|]. apply res_ret.
  - cbn [forallb formal_ok] in Hok. rewrite !andb_true_iff in Hok. destruct Hok as [ [_ Hdo] Hok]. rewrite <- app_assoc. cbn [print_formal app]. rewrite <- app_assoc.
    unfold formals_loop. rpeek. cbn [hd_tok t_tok tk]. apply res_id. cbn [fmap list_fmap f_name] in Hnd, Hat.
    rewrite bool_decide_eq_false_2 by (apply NoDup_app in Hnd as (_ & Hnd & _); intros Hin; by apply (Hnd n Hin), list_elem_of_here).
    rewrite bool_decide_eq_false_2 by (intros E; by apply (Hat n E), list_elem_of_here). cbn [orb]. rpeek.
    eapply (res_bind _ _ _ (match d with Some e => Some (repos pos0 e) | None => None end) (st lst (tk pos0 TComma :: _))).
    { destruct d as [d|]; cbn [app hd_tok t_tok tk]; [|apply res_ret]. destruct (Hf Hdo) as [Hd _]. apply res_bump. eapply res_bind; [by apply res_expr|]. apply res_ret. }
    rpeek. cbn [hd_tok t_tok tk]. apply res_bump.
    specialize (IH Hok ltac:(intros m Hm Hin; by apply (Hat m Hm), list_elem_of_further) (acc ++ [mkFormal n (match d with Some e => Some (repos pos0 e) | None => None end)])).
    rewrite fmap_app, <- !app_assoc in IH. cbn [fmap list_fmap f_name app] in IH. by eapply res_knot; [|exact (IH Hnd)].
Qed.

Lemma res_body e lst rest : reads_all e -> stops 0 rest -> res (fun rec => pr_expr rec) (st lst (print pos0 e ++ rest)) (repos pos0 e, st lst rest).
Proof. intros He Hs. eapply (res_knot _ parse_expr); [done|]. exact (He 0%nat ltac:(lia) lst rest Hs). Qed.

(** The expressions of level 0 are read by [parse_expr]. *)
Lemma open_readable k pos : level (mkExpr k pos) = 0%nat ->
  (expr_ok path_char (mkExpr k pos) = true -> forall lst rest, stops 0 rest ->
    res parse_expr (st lst (print pos0 (mkExpr k pos) ++ rest)) (repos pos0 (mkExpr k pos), st lst rest)) ->
  readable (mkExpr k pos).
Proof. intros Hl Hr Hok. apply own_readable; [done|by rewrite Hl|]. rewrite Hl. intros lst rest Hs. by apply Hr. Qed.

Ltac rstart := rdef; rpos; rpeek; apply res_peek_at; cbn [print print_kind print_param app hd_tok t_tok tk].

Lemma assert_readable cond body pos : readable cond -> readable body -> readable (mkExpr (EAssert cond body) pos).
Proof.
  intros Hc Hb. apply open_readable; [done|]. intros Hok lst rest Hs. cbn [expr_ok kind_ok] in Hok. apply andb_true_iff in Hok as [Hco Hbo]. destruct (Hc Hco) as [Hc1 _], (Hb Hbo) as [Hb1 _].
  rstart. apply res_bump. rewrite <- app_assoc. eapply res_bind; [by apply res_expr|]. apply res_expect; [done|]. eapply res_bind; [by apply res_body|]. apply res_ret.
Qed.

Lemma with_readable scope body pos : readable scope -> readable body -> readable (mkExpr (EWith scope body) pos).
Proof.
  intros Hc Hb. apply open_readable; [done|]. intros Hok lst rest Hs. cbn [expr_ok kind_ok] in Hok. apply andb_true_iff in Hok as [Hco Hbo]. destruct (Hc Hco) as [Hc1 _], (Hb Hbo) as [Hb1 _].
  rstart. apply res_bump. rewrite <- app_assoc. eapply res_bind; [by apply res_expr|]. apply res_expect; [done|]. eapply res_bind; [by apply res_body|]. apply res_ret.
Qed.

Lemma if_readable cond then_ else_ pos : readable cond -> readable then_ -> readable else_ -> readable (mkExpr (EIf cond then_ else_) pos).
Proof.
  intros Hc Ht He. apply open_readable; [done|]. intros Hok lst rest Hs. cbn [expr_ok kind_ok] in Hok. rewrite !andb_true_iff in Hok. destruct Hok as [ [Hco Hto] Heo].
  destruct (Hc Hco) as [Hc1 _], (Ht Hto) as [Ht1 _], (He Heo) as [He1 _]. rstart. apply res_bump. rewrite <- app_assoc. cbn [app]. rewrite <- app_assoc.
  eapply res_bind; [by apply res_expr|]. apply res_expect; [done|]. eapply res_bind; [by apply res_expr|]. apply res_expect; [done|].
  eapply res_bind; [by apply res_body|]. apply res_ret.
Qed.

Lemma let_readable binds body pos : attrs_all readable binds -> readable body -> readable (mkExpr (ELet binds body) pos).
Proof.
  intros Ha Hb. apply open_readable; [done|]. intros Hok lst rest Hs. cbn [expr_ok kind_ok] in Hok. rewrite !andb_true_iff in Hok. destruct Hok as [ [Hr Hao] Hbo]. destruct (Hb Hbo) as [Hb1 _].
  rstart. apply res_bump. rewrite app_assoc, <- app_assoc. cbn [app]. eapply res_bind; [by apply res_binds_in|]. eapply res_bind; [by apply res_body|]. apply res_ret.
Qed.

Lemma param_pattern_spec fs ell at_ : param_ok path_char (PPattern fs ell at_) = true ->
  NoDup (f_name <$> fs) /\ forallb (formal_ok path_char) fs = true /\ (forall n, at_ = Some n -> n ∉ f_name <$> fs).
Proof.
  cbn [param_ok]. unfold distinct. rewrite !andb_true_iff, bool_decide_eq_true. intros [ [Hnd Hf] Hat]. split; [done|]. split; [done|]. intros n ->.
  apply andb_true_iff in Hat as [_ Hn]. by rewrite negb_true_iff, bool_decide_eq_false in Hn.
Qed.

Lemma res_pattern_braces fs (ell : bool) at_outer lst rest : Forall (formal_all readable) fs -> forallb (formal_ok path_char) fs = true -> NoDup (f_name <$> fs) ->
  (forall n, at_outer = Some n -> n ∉ f_name <$> fs) ->
  res (fun rec => parse_pattern_braces rec at_outer)
    (st lst (tk pos0 TLBrace :: concat (print_formal pos0 <$> fs) ++ (if ell then [tk pos0 TEllipsis] else []) ++ tk pos0 TRBrace :: rest)) ((repos_formal pos0 <$> fs, ell), st lst rest).
Proof.
  intros Ha Hok Hnd Hat. unfold parse_pattern_braces. apply res_expect; [done|]. exact (res_formals at_outer ell lst rest fs Ha Hok Hat [] Hnd).
Qed.

Lemma lambda_readable param body lpos pos : param_all readable param -> readable body -> readable (mkExpr (ELambda param body lpos) pos).
Proof.
  intros Hp Hb. apply open_readable; [done|]. intros Hok lst rest Hs. cbn [expr_ok kind_ok] in Hok. apply andb_true_iff in Hok as [Hpo Hbo]. destruct (Hb Hbo) as [Hb1 _].
  destruct param as [n|fs ell [n|] ].
  - rstart. cbn. apply res_id, res_bump. eapply res_bind; [by apply res_body|]. apply res_ret.
  - destruct (param_pattern_spec _ _ _ Hpo) as (Hnd & Hfo & Hat). rstart. cbn [tok_at ps_toks st lookup list_lookup t_tok tk]. apply res_id, res_bump. unfold lambda_at.
    rewrite <- !app_assoc. cbn [app]. eapply res_bind; [by apply (res_pattern_braces fs ell)|]. cbn beta iota. apply res_expect; [done|]. eapply res_bind; [by apply res_body|]. apply res_ret.
  - destruct (param_pattern_spec _ _ _ Hpo) as (Hnd & Hfo & Hat). rstart. rewrite <- !app_assoc. cbn [app].
    assert (Forall (formal_all (neat_expr pos0)) fs) as Hn by (apply Forall_forall; intros [m [d|] ] _; cbn; [exact (print_neat pos0 d)|done]).
    destruct (neat_formals pos0 fs ell Hn Hfo) as [_ [_ Hbal] ].
    eapply res_bind; [by apply res_now|]. assert (brace_is_pattern (st lst (tk pos0 TLBrace :: concat (print_formal pos0 <$> fs) ++ (if ell then [tk pos0 TEllipsis] else []) ++ tk pos0 TRBrace :: tk pos0 TColon :: print pos0 body ++ rest)) = true) as ->.
    { unfold brace_is_pattern. cbn [ps_toks st brace_scan t_tok tk]. by rewrite app_assoc, Hbal. }
    unfold lambda_pattern. eapply res_bind; [by apply (res_pattern_braces fs ell None)|]. cbn beta iota. rpeek. cbn [hd_tok t_tok tk]. eapply res_bind; [apply res_ret|].
    apply res_expect; [done|]. eapply res_bind; [by apply res_body|]. apply res_ret.
Qed.

Lemma all_readable e : readable e.
Proof.
  revert e. apply expr_induct. intros k pos Hk. destruct k; cbn [kind_all] in Hk.
  - by apply atom_readable.
  - by apply atom_readable.
  - by apply str_readable.
  - by apply atom_readable.
  - by apply list_readable.
  - by apply attrs_readable.
  - destruct Hk as (? & ? & ?). by apply select_readable.
  - destruct Hk. by apply hasattr_readable.
  - destruct Hk. by apply apply_readable.
  - destruct Hk. by apply lambda_readable.
  - destruct Hk. by apply let_readable.
  - destruct Hk. by apply with_readable.
  - destruct Hk as (? & ? & ?). by apply if_readable.
  - destruct Hk. by apply assert_readable.
  - destruct Hk. by apply binop_readable.
  - by apply neg_readable.
  - by apply not_readable.
Qed.

End read.

(** ** Round trip *)

(** The printed tokens of [e] and the end of the source. *)
Definition print_source (pos0 : SrcPos) (e : Expr) : list Token := print pos0 e ++ [tk pos0 TEof].

Lemma print_source_ok pos0 e : expr_ok path_char e = true -> forallb token_ok (print_source pos0 e) = true.
Proof. intros Hok. destruct (print_neat pos0 e Hok) as [Hi _]. by apply lexed_tokens_ok. Qed.

(** Enough fuel is what [parse_toks] takes, since that never runs out. *)
Lemma parse_toks_res toks file base_dir e lst rest : forallb token_ok toks = true ->
  res (fun rec => e ← pr_expr rec; _ ← expect_end; mret e) (mkParser toks (last toks) file base_dir) (e, st file base_dir lst rest) -> parse_toks toks file base_dir = Ok e.
Proof.
  intros Ht [N HN].
  pose proof (parse_toks_spec (path_bytes base_dir) ltac:(intros c Hc; unfold path_bytes; by rewrite Hc) toks file base_dir Ht (base_path_bytes base_dir)) as Hs.
  unfold parse_toks in *. set (n := S (toks_size toks)) in *. set (p0 := mkParser toks (last toks) file base_dir) in *.
  assert (below (e ← pr_expr (parse_knot n); _ ← expect_end; mret e) (e ← pr_expr (parse_knot (n + N)); _ ← expect_end; mret e)) as Hb.
  { apply below_bind; [apply knots_below; lia|]. intros x. apply below_refl. }
  specialize (HN (n + N)%nat ltac:(lia)). destruct (Hb p0) as [E|E]; [by rewrite E in Hs|]. rewrite <- E, HN. done.
Qed.


Definition demo_pos : SrcPos := mkSrcPos (lit "d.shade") 1 1.
Definition demo_var (n : str) : Expr := mkExpr (EVar n) demo_pos.

(** [{ x ? 1, ... }: (a + b) * -c.d or [ x ] == !f (g y) // "v${y}" -> (with s; { inherit z; ${n} = t; })] *)
Definition demo_tree : Expr :=
  let e k := mkExpr k demo_pos in
  e (ELambda (PPattern [mkFormal (lit "x") (Some (e (EInt 1)))] true None)
    (e (EBinOp OImpl
      (e (EBinOp OEq
        (e (EBinOp OMul
          (e (EBinOp OAdd (demo_var (lit "a")) (demo_var (lit "b"))))
          (e (ENeg (e (ESelect (demo_var (lit "c")) [AStatic (lit "d")] (Some (e (EList [demo_var (lit "x")])))))))))
        (e (EBinOp OUpdate
          (e (ENot (e (EApply (demo_var (lit "f")) (e (EApply (demo_var (lit "g")) (demo_var (lit "y"))))))))
          (e (EStr [SLit (lit "v"); SInterp (demo_var (lit "y"))]))))))
      (e (EWith (demo_var (lit "s"))
        (e (EAttrs (mkAttrs false [mkEntry (lit "z") demo_pos BInheritPlain] [(demo_var (lit "n"), demo_var (lit "t"))])))))))
    demo_pos).

